(* ===== verification/_CoqProject ===== *)
-Q . S2P
Prelude.v
ByteStrings.v
Utf8.v
Matching.v
StreamEvents.v
Discipline.v
SignatureScan.v
SignatureVerify.v
StreamPolicy.v
StreamEnforce.v
StreamEnforceProofs.v
StreamRequest.v
PluginState.v
PluginStateBolt.v
PluginStateOpen.v
PluginStateTheorems.v
PluginStateScan.v
PluginStateWitness.v
RawJSON.v
RawJSONGrammar.v
RawJSONEdits.v
RawJSONTheorems.v
RawJSONAuthority.v
Framing.v
RequestIR.v
RequestSections.v
RequestSectionFacts.v
RequestSectionsProofs.v
RequestSignatures.v
RequestGrants.v
RequestIdentity.v
RequestTheorems.v
Verdicts.v
HeaderPolicy.v
RequestPipeline.v
EngineRequest.v
RequestConv.v
RequestConvProofs.v
RequestTracked.v
ResponseHook.v
BoundedMetadata.v
ConversationRegistry.v
ConversationKeys.v
LocalCache.v
GoStrings.v
Credential.v
RateLimit.v
Failover.v
PluginManifest.v
PluginResources.v
PipelineBuild.v
PipelineBuildProofs.v
PipelineLifecycle.v
CasUpdate.v
Suggest.v
SuggestStore.v
SuggestTicket.v
SuggestSetup.v
SuggestState.v
SuggestWitness.v
Notice.v
NoticeStream.v
NoticeRuntime.v
BridgeStream.v
BridgeStreamProofs.v
BridgeStreamTheorems.v
Correlation.v
McpAuth.v
RawSpan.v
RawSpanTheorems.v
JsonSplice.v
JsonArrayProofs.v
Feed.v
Os.v
PluginFiles.v
PluginFilesProofs.v
AuditLog.v
AnthropicStream.v
AnthropicWire.v
AnthropicRoundTrip.v
