(* ===== verification/Prelude.v ===== *)
(** * Torana Edge: a verification development

    Torana Edge is a proxy between AI clients and model providers that runs
    sandboxed WASM plugins on the traffic.  A plugin may be wrong or hostile; the
    host's promise is that it can change only what its operator granted, that it
    can never mint or strip a provider's signatures or forge host facts, and that
    what the client receives is still a well-formed stream.  This library models
    the Go code that keeps that promise, and the stores it relies on, and
    proves that it does.

    ** The parts and how they interact

    On the way to the provider, the canonical request ([EngineRequest],
    internal/engine) is checked, converted to the plugin ABI and back
    ([RequestConv], internal/engine/pbconv) around the plugin chain
    ([RequestTracked], internal/plugin/discovery.go), in which it runs through
    the plugins one after the other ([RequestPipeline]).  Each plugin is
    shown the current request with host metadata injected for that one call
    ([HeaderPolicy], internal/plugin/headerpolicy.go); a replacement must pass
    the write-grant check ([RequestGrants], internal/plugin/writegrant.go), which
    consists of invariants no grant lifts, among them the provider signatures
    ([RequestSignatures]), and of section digests compared under grants
    ([RequestSections]).  Verdicts a plugin records on the way, and buffers it
    keeps, live in the host for the length of the request ([Verdicts],
    internal/wasm/verdicts.go).

    On the way back, stream events are converted ([StreamEvents],
    internal/engine/pbconv/pbconv.go), run through the plugins and verified
    transaction by transaction ([StreamEnforce], internal/plugin/stream_enforce.go):
    the block discipline ([Discipline]), the signatures ([SignatureScan],
    [SignatureVerify], internal/plugin/streamverify.go) and the field policy
    ([StreamPolicy], internal/plugin/stream_policy.go) each have a say, and a
    transaction that fails is rolled back or ends the stream.  A completed
    response runs through its own chain ([ResponseHook],
    internal/plugin/response_validate.go).

    Conversations are recognised across requests by labels and cache keys
    ([ConversationKeys], internal/engine/conversation.go) and listed in a bounded
    registry ([ConversationRegistry], internal/conversation/registry.go).  Values
    plugins share across requests are cached with expiry and bounds
    ([LocalCache], internal/cache/cache.go).

    Which plugins run, with which grants and in which order, is decided when a
    pipeline is built from the bundles on disk and the operator's approvals
    ([PluginManifest], [PluginResources], [PipelineBuild],
    internal/plugin/discovery.go); a pipeline that is replaced is drained before
    its runtime is closed ([PipelineLifecycle]).

    Between the chain and the provider, requests are rate limited per identity
    ([RateLimit], internal/proxy/ratelimit.go), given exactly the credentials
    their target prescribes ([Credential], internal/proxy/credential.go), and
    sent to the provider and its fallbacks under one lease that is released once
    ([Failover], internal/proxy/failover.go).

    Suggestions, operator operations, undo history and transcript tickets are
    JSON documents in the plugin state store, changed by compare-and-set loops
    ([CasUpdate], [Suggest], internal/suggest).  A pending suggestion is shown to
    the user as a signed notice after a reply and taken out again when the client
    replays it ([Notice], internal/annotate; [NoticeStream], [NoticeRuntime],
    internal/proxy).  The token with which agents authenticate lives in the same
    store ([McpAuth], internal/mcpauth); which conversation an agent's call
    belongs to is decided by correlating it with the responses the host saw
    ([Correlation], internal/mcpserver).

    A request for another provider's protocol is bridged; the stream it answers
    with is held to a completion contract on both sides of the bridge
    ([BridgeStream], internal/bridge/stream.go).  The Anthropic adapter parses
    server-sent events into canonical ones and writes them back
    ([AnthropicStream], internal/format/anthropic/stream.go).

    Plugins keep state in a versioned store with quotas ([PluginState],
    internal/pluginstate/store.go), and every raw JSON value the engine carries
    is edited by byte spans ([RawJSON], internal/engine/rawjson.go).  Unary
    responses are re-encoded and then repaired by splices at raw spans
    ([RawSpan], [JsonSplice], internal/proxy).

    Around all of this the host keeps a feed of recent requests for dashboards
    ([Feed], internal/metrics/feed.go), the files of plugins
    ([PluginFiles], internal/pluginfiles/store.go) and an audit log
    ([AuditLog], internal/auditlog), the last two on a file system whose calls
    may fail at any point ([Os]).

    ** Files

    - [Prelude]: results, error-stopping folds, tactics, list lemmas.
      [ByteStrings]: Go strings, big-endian integers.  [Utf8]: decoding, validity.
      [Matching]: the greedy one-to-one matching all signature checks share.
      [Framing]: length-framed hash preimages and prefix codes.
    - Streams: [StreamEvents] (events and both conversions), [Discipline] (the
      batch validator and the incremental walker), [SignatureScan] (one pass from
      events to tool scopes, bindings and spans), [SignatureVerify] (the phases of
      the comparison), [StreamPolicy] (the reflective field walk), [StreamEnforce]
      with [StreamEnforceProofs] (journals, scopes, rollback, terminal errors),
      [StreamRequest] (a whole request).
    - Requests: [RequestIR] (the protobuf request), [RequestSections] (digests and
      their comparison), [RequestSectionFacts] and [RequestSectionsProofs] (what
      equal digests mean), [RequestSignatures] (the signature check, and exactly
      what it accepts), [RequestGrants] (entry points), [RequestIdentity]
      (sections put together again), [RequestTheorems], [Verdicts],
      [HeaderPolicy], [RequestPipeline].
    - Engine side: [EngineRequest] (requests and the structural validator),
      [RequestConv] (both conversions and the checked boundary),
      [RequestConvProofs] (round trips), [RequestTracked] (the entry point),
      [ResponseHook] (the after-response chain).
    - Conversations: [BoundedMetadata] (truncation on rune boundaries),
      [ConversationRegistry], [ConversationKeys].  Cache: [LocalCache].
    - Proxy path: [GoStrings] (query strings and their escaping, decimal numbers),
      [RateLimit], [Credential], [Failover].
    - Pipelines: [PluginManifest] (manifests and what passes), [PluginResources]
      (approved resources), [PipelineBuild] and [PipelineBuildProofs] (approvals,
      order constraints, both passes), [PipelineLifecycle] (pins and draining).
    - Suggestions: [CasUpdate] (the update loop and its concurrent clients, for
      any document), [Suggest] (records and closures), [SuggestStore] (read,
      update, entry points, the closures one after another, concurrent clients),
      [SuggestTicket] (transcript tickets), [SuggestSetup] (the setup hint),
      [SuggestState] (the plugin state store as the state they use),
      [SuggestWitness].
    - Notices and agents: [Notice] (rendering and stripping), [NoticeStream]
      (insertion into a stream), [NoticeRuntime] (admission and selection),
      [Correlation] (the correlator and both observers), [McpAuth] (the token).
    - Bridge: [BridgeStream] (both halves), [BridgeStreamProofs],
      [BridgeStreamTheorems].  Anthropic streams: [AnthropicStream] (parser,
      serializer, the text of frames and the JSON that is read back),
      [AnthropicWire] (the grammar of what is written), [AnthropicRoundTrip].
    - State store: [PluginState] (abstract store, bbolt interface, both backends,
      the memory backend's proofs), [PluginStateBolt], [PluginStateOpen] (opening
      and validating a database), [PluginStateTheorems], [PluginStateScan]
      (pagination), [PluginStateWitness].
    - JSON: [RawJSON] (the editor), [RawJSONGrammar] (object texts), [RawJSONEdits],
      [RawJSONTheorems], [RawJSONAuthority] (the wrappers), [RawSpan] and
      [RawSpanTheorems] (spans of paths), [JsonSplice] (restored arguments),
      [JsonArrayProofs] (appended and removed elements).
    - Files: [Os] (the file system and its faults), [PluginFiles] and
      [PluginFilesProofs], [AuditLog].  Dashboards: [Feed].

    Definitions carry the names of the Go functions and types they model; a
    definition for a loop body or a closure is named after it and says so.  A Go
    function that returns an error is a function into [res]; the error is a
    constructor, with the values the Go message shows.  Mutated structures are
    passed through; where Go shares an object between indexes or restores it in
    place, the model keeps one copy and the restoration is proved.

    ** What the theorems show

    - Discipline and scan: the batch validator and the walker agree on every
      event sequence; an accepted stream converts without error and round trips;
      the one-pass scan reports exactly the scopes of the per-index definition.
    - Stream signatures: no accepted plugin output contains a token that was not
      provided over that content, counting repetitions; without the grant a
      signed block is kept or visibly rewritten; unchanged streams pass.
    - Stream policy and enforcement: guarded fields are kept, the walk
      terminates; over a whole request the forwarded stream is disciplined, host
      defects are not blamed on plugins, a terminal error is final, no signature
      is minted through journals and rollback, identity plugins are transparent.
    - Requests: an accepted replacement keeps every section the plugin has no
      grant for (with the digests of the two requests faithful); with no grant it
      is the request itself up to provider tokens;
      the signature check is characterised exactly; the fast path is the full
      check; and all of this composes over a pipeline, where a block ends the
      chain and metadata leaves as it came.
    - Conversion: a request that passes the checked boundary survives the trip
      to the plugins and back up to a projection written out on the data; a
      plugin's request reaches the provider adapters byte for byte up to a
      canonical form; the entry point cannot fail to convert back and keeps
      topology and metadata out of the plugins' reach.
    - Responses: through any chain, checked host-owned facts are the provider's,
      blocks keep their place and arm, and a token covers what was signed.
    - Conversations: the registry holds a bounded number of bounded, valid
      records and evicts only expired or least recently active ones; listings
      are deterministic; labels are stable as turns accumulate; keys of
      different kinds or contents differ unless the truncated digest collides.
    - Cache: map, recency list and byte count agree, both bounds hold, a hit is
      the last value set before its expiry, a value just accepted is there, an
      ended context stores nothing.
    - Rate limits: a bucket's counter is the number of its unreleased leases
      under every sequence of operations, and never exceeds a limit in force.
      Credentials: an outgoing request carries those its target's mode prescribes
      and no other, and rate identities separate credentials.  Failover: the
      lease is released and every transport body closed exactly once; attempts
      are the usable targets in order, each with its own credentials and the
      original body.
    - Pipelines: the accepted manifests are characterised; a plugin's resources
      are within its manifest and its approval; a built pipeline holds approved
      plugins after what they require, without conflicts, in an order in which
      nothing routes or rewrites behind a compaction gate, and leaves out no
      enabled plugin that can be loaded; each hook runs exactly the plugins that
      declare it; until a pipeline that has drained is acquired again, its runtime
      is never closed under a pin and no channel twice.
    - Suggestions: whatever the interleaving of clients, the stored document is
      the result of the successful closures one after another, within its limits;
      an operation is handed out for execution once, a ticket is consumed once
      before it expires.  The state interface these are proved against is
      discharged by the theorems on the state store.
    - Notices: stripping inverts adding and takes out nothing but what the host
      signed for this conversation; a notice reaches only an allowed harness, in
      the turn its suggestion was made, and leaves the stream disciplined.
    - Agents: a call is bound only to fresh, unambiguous, host-observed evidence
      and each binding is granted once; concurrent token set-ups converge.
    - Bridge: what either half forwards keeps the tool-call contract at every
      moment; a finish reaches the client only for a complete upstream stream;
      streams that keep the contract pass unchanged; token accounting is
      conserved.
    - Anthropic streams: what is written for a disciplined stream is accepted by a
      client's accumulator wherever it stops; the bytes written for a canonical
      turn parse to the turn.
    - State store: both backends refine one abstract history; quotas are an
      invariant; compare-and-set is exact; versions are never reused; validation
      accepts exactly well-formed databases; reopening gives the same store;
      pagination of text keys reaches every key once and terminates.
    - JSON: spans are exact on every object text; set, delete and bulk removal
      are the corresponding operations on the ordered view; set then delete
      restores the bytes; the wrappers are always valid.  Raw spans are exact for
      every path into every JSON text; splices at them change what they name and
      nothing apart from it; elements are appended and removed with their commas.
    - Files: whatever calls fail, a plugin's file generations hold a suffix of its
      writes within the budget, a write replaces a file whole or not at all, a
      delete leaves no generation, and paths stay in the plugin's directory; the
      audit files hold exactly whole accepted lines, each file within its size
      or a single line.
    - Feed: a snapshot is the latest events, newest first; every subscriber gets
      a consistent prefix of what follows; no channel is closed twice or sent to
      after its close.
    - Bounds: host-side metadata stays within its budgets, up to one key.

    ** Fuel and bounds

    The field walk of [StreamPolicy] runs on fuel; the depth of the two messages
    is enough ([message_total]).  The JSON scanner has one unit of fuel per byte
    and one more; [Utf8] one per byte; the pagination loop more than the number
    of keys, [ToValidUTF8] one unit per byte, the eviction
    loop of [LocalCache] one per list element; [Strip] one round per byte and one
    more ([Strip] is total), the scans of [RawSpan] one per byte, which their
    [_fuel] lemmas show is never used up, on any bytes.  The JSON reader of
    [AnthropicStream] recurses on the nesting depth [encoding/json] allows, with one
    unit per byte for the members of an object.  A compare-and-set loop makes eight
    attempts and a code is drawn sixteen times, as in the source.  No theorem is only about runs that return: the results are proved
    for the fuel the definitions pass.  Machine integers are written out where
    they wrap: [uint64] lengths, indices and version counters, the narrowing of
    [int] to 32 bits at the plugin ABI, 64-bit token totals.

    ** Parameters

    Code outside this repository is a parameter, packaged as a class with its
    documented laws: the plugin SDK's signature classification, body
    fingerprints, role grants and field inventory, the protobuf runtime
    (reflection, deterministic marshalling, the registry), SHA-256, bbolt, the
    strict JSON validator, the SDK's replacement validator, the pagination cursor codec, [encoding/json] on host
    metadata, suggestion records and times, the argument validation of a
    suggestion, semantic versions, IP addresses and Unicode upper-casing in
    manifests, the compilation of guests, credential resolution, the HTTP transport, URL parsing and the
    guests, which are arbitrary; the MAC of notices, the sealer of tokens, the
    native stream parsers and the observer of wire lines, the text of JSON decoding
    errors, the encoding of audit records and the platform's ownership check.  Every call of the operating
    system may fail, as a class of faults decides by the number of the call, and a
    write that fails may be torn anywhere.  Clock readings and random bytes are arguments,
    and so is what other clients of the state store do between two accesses.  Hash results assume only
    that the finitely many strings hashed for the two requests compared do not
    collide.

    ** Restrictions

    Set oneof arms hold a message and repeated fields hold no nil element, as
    decoding produces them.  A nil permission function is the always-false one.
    Mutexes are modelled by the atomicity they provide.  After termination only
    the terminal error of a stream is kept.

    ** Not modelled

    Transport and net/http handlers, the adapters of the provider wire formats
    (but for the Anthropic stream) and the translation of unary bodies between them, configuration files,
    commands, the operator API, metrics and the WASM engine are not modelled:
    they are input and output, walks over decoded JSON documents whose decoder is
    outside this repository, or calls into libraries. *)

From stdpp Require Import base list strings gmap sets numbers.

(** ** Results: Go's [(value, error)] pairs and bare [error] returns

    A Go function that returns [(T, error)] is a function into [res E T]; one
    that returns only an [error] is a function into [res E unit]. *)

Inductive res (E A : Type) : Type :=
| Ok (a : A)
| Err (e : E).
Arguments Ok {E A} a.
Arguments Err {E A} e.

Definition res_bind {E A B} (r : res E A) (k : A → res E B) : res E B :=
  match r with Ok a => k a | Err e => Err e end.

Definition map_err {E F A} (f : E → F) (r : res E A) : res F A :=
  match r with Ok a => Ok a | Err e => Err (f e) end.

Definition is_ok {E A} (r : res E A) : bool :=
  match r with Ok _ => true | Err _ => false end.

Declare Scope torana_scope.
Delimit Scope torana_scope with torana.

(** [x ←? c; k] is Go's [x, err := c; if err != nil { return err }; k]. *)
Notation "x ←? c ; k" := (res_bind c (λ x, k))
  (at level 20, c at level 100, k at level 200, right associativity,
   format "x  ←?  c ;  '//' k") : torana_scope.
Notation "' pat ←? c ; k" := (res_bind c (λ pat, k))
  (at level 20, pat pattern, c at level 100, k at level 200, right associativity)
  : torana_scope.

Open Scope torana_scope.

Lemma res_bind_ok {E A B} (r : res E A) (k : A → res E B) b :
  res_bind r k = Ok b ↔ ∃ a, r = Ok a ∧ k a = Ok b.
Proof. destruct r; naive_solver. Qed.

Lemma res_bind_err {E A B} (r : res E A) (k : A → res E B) e :
  res_bind r k = Err e ↔ r = Err e ∨ ∃ a, r = Ok a ∧ k a = Err e.
Proof. destruct r; naive_solver. Qed.

Lemma map_err_ok {E F A} (f : E → F) (r : res E A) a :
  map_err f r = Ok a ↔ r = Ok a.
Proof. destruct r; naive_solver. Qed.

(** A fold that stops at the first error: the shape of a Go [for range] loop
    whose body may [return err]. *)
Fixpoint foldM {E S A} (f : S → A → res E S) (s : S) (l : list A) : res E S :=
  match l with
  | [] => Ok s
  | x :: l' => s' ←? f s x; foldM f s' l'
  end.

Lemma foldM_app {E S A} (f : S → A → res E S) s l1 l2 :
  foldM f s (l1 ++ l2) = res_bind (foldM f s l1) (λ s', foldM f s' l2).
Proof.
  revert s; induction l1 as [|x l1 IH]; intros s; [done|]; simpl.
  destruct (f s x); simpl; auto.
Qed.

Lemma foldM_ext {E S A} (f g : S → A → res E S) s l :
  (∀ s x, f s x = g s x) → foldM f s l = foldM g s l.
Proof.
  intros H. revert s; induction l as [|x l IH]; intros s; simpl; [done|].
  rewrite H. destruct (g s x); simpl; auto.
Qed.

Lemma foldM_pure {E S A} (f : S → A → S) s l :
  foldM (λ s x, Ok (E:=E) (f s x)) s l = Ok (foldl f s l).
Proof. revert s; induction l; intros s; simpl; auto. Qed.

(** A loop nested in a loop is one loop over the concatenation. *)
Lemma foldM_bind {E S A B} (f : S → B → res E S) (g : A → list B) s l :
  foldM (λ s x, foldM f s (g x)) s l = foldM f s (l ≫= g).
Proof.
  revert s; induction l as [|x l IH]; intros s; [done|]. rewrite bind_cons, foldM_app. simpl.
  destruct (foldM f s (g x)); simpl; [apply IH|done].
Qed.

Lemma is_ok_spec {E A} (r : res E A) : is_ok r = true ↔ ∃ a, r = Ok a.
Proof. destruct r; naive_solver. Qed.

Lemma foldM_snoc_ok {E S A} (f : S → A → res E S) s l x s' :
  foldM f s (l ++ [x]) = Ok s' ↔ ∃ s0, foldM f s l = Ok s0 ∧ f s0 x = Ok s'.
Proof.
  rewrite foldM_app, res_bind_ok; simpl.
  split; intros (s0 & H1 & H2); exists s0; split; auto;
    destruct (f s0 x); simpl in *; congruence.
Qed.

(** An invariant of every step is an invariant of the loop. *)
Lemma foldM_ind {E S A} (f : S → A → res E S) (P : list A → S → Prop) s0 :
  P [] s0 →
  (∀ done s x s', P done s → f s x = Ok s' → P (done ++ [x]) s') →
  ∀ l s, foldM f s0 l = Ok s → P l s.
Proof.
  intros H0 Hstep l. induction l as [|x l IH] using rev_ind; intros s.
  - simpl; intros [= <-]; done.
  - rewrite foldM_snoc_ok; intros (s1 & H1 & H2). eauto.
Qed.

(** ** Lists *)

Lemma foldM_elem {E S A} (f : S → A → res E S) s l s' x :
  foldM f s l = Ok s' → x ∈ l → ∃ s1 s2, f s1 x = Ok s2.
Proof.
  revert s; induction l as [|y l IH]; intros s; simpl; [by intros _ ?%not_elem_of_nil|].
  intros (s1 & H1 & H2)%res_bind_ok [->|Hx]%elem_of_cons; eauto.
Qed.

Lemma foldM_err {E S A} (f : S → A → res E S) s l e :
  foldM f s l = Err e → ∃ s1 x, f s1 x = Err e.
Proof.
  revert s; induction l as [|x l IH]; intros s; simpl; [done|].
  intros [H|(s1 & _ & H)]%res_bind_err; eauto.
Qed.

Lemma filter_none_nil {A} (P : A → Prop) `{∀ x, Decision (P x)} (l : list A) :
  (∀ x, x ∈ l → ¬ P x) → filter P l = [].
Proof.
  induction l as [|x l IH]; intros Hn; [done|].
  rewrite filter_cons_False by (apply Hn; left). apply IH. intros y Hy. apply Hn. by right.
Qed.

Lemma filter_all {A} (P : A → Prop) `{∀ x, Decision (P x)} (l : list A) :
  Forall P l → filter P l = l.
Proof.
  induction 1 as [|x l Hx _ IH]; [done|]. by rewrite filter_cons, decide_True, IH.
Qed.

Lemma filter_ext_in {A} (P Q : A → Prop) `{∀ x, Decision (P x)} `{∀ x, Decision (Q x)} (l : list A) :
  (∀ x, x ∈ l → P x ↔ Q x) → filter P l = filter Q l.
Proof.
  induction l as [|x l IH]; intros HPQ; [done|]. rewrite !filter_cons.
  rewrite IH by (intros y Hy; apply HPQ; by right).
  destruct (HPQ x ltac:(left)). by destruct (decide (P x)), (decide (Q x)); try tauto.
Qed.

Lemma filter_submseteq {A} (P : A → Prop) `{∀ x, Decision (P x)} (l k : list A) :
  l ⊆+ k → filter P l ⊆+ filter P k.
Proof.
  intros (m & Hm)%submseteq_Permutation. rewrite Hm, list.filter_app.
  by apply submseteq_inserts_r.
Qed.

(** ** Machine integers *)

Definition int32_of (z : Z) : Z := ((z + 2147483648) mod 4294967296 - 2147483648)%Z.

Definition in_int32 (z : Z) : bool := bool_decide (-2147483648 ≤ z < 2147483648)%Z.

Lemma int32_of_id z : in_int32 z = true → int32_of z = z.
Proof.
  unfold in_int32, int32_of; rewrite bool_decide_eq_true; intros H.
  rewrite Z.mod_small; lia.
Qed.

Lemma int32_of_range z : in_int32 (int32_of z) = true.
Proof.
  unfold in_int32, int32_of; rewrite bool_decide_eq_true.
  pose proof (Z.mod_pos_bound (z + 2147483648) 4294967296 ltac:(lia)); lia.
Qed.

Definition uint64_max : Z := 18446744073709551615%Z.
Definition uint64_of (z : Z) : Z := (z mod 18446744073709551616)%Z.

Lemma uint64_of_id z : (0 ≤ z ≤ uint64_max)%Z → uint64_of z = z.
Proof. unfold uint64_of, uint64_max; intros H; rewrite Z.mod_small; lia. Qed.

(** ** Automation shared by the components *)

Create HintDb torana discriminated.
#[export] Hint Resolve int32_of_range : torana.

(** Split on the innermost scrutinee of a [match] in the goal or in [H]. *)
Ltac case_inner t :=
  lazymatch t with
  | context [match ?x with _ => _ end] => case_inner x
  | _ => destruct t eqn:?
  end.
Ltac split_match :=
  match goal with
  | |- context [match ?x with _ => _ end] => case_inner x
  end.
Ltac split_match_in H :=
  match type of H with
  | context [match ?x with _ => _ end] => case_inner x
  end.

(** Invert chains of [←?] that succeeded, and equations between results. *)
Ltac inv_ok :=
  repeat match goal with
  | H : res_bind _ _ = Ok _ |- _ =>
      apply res_bind_ok in H; destruct H as (? & ? & H)
  | H : map_err _ _ = Ok _ |- _ => apply map_err_ok in H
  | H : Ok _ = Ok _ |- _ => injection H; clear H; intros; subst
  | H : Err _ = Ok _ |- _ => discriminate H
  | H : Ok _ = Err _ |- _ => discriminate H
  | H : Some _ = Some _ |- _ => injection H; clear H; intros; subst
  | H : (_, _) = (_, _) |- _ => injection H; clear H; intros; subst
  | H : None = Some _ |- _ => discriminate H
  | H : Some _ = None |- _ => discriminate H
  | H : true = false |- _ => discriminate H
  | H : false = true |- _ => discriminate H
  end.

(** Right-nest concatenations, and expand the length of one. *)
Ltac norm_app := simpl; repeat (rewrite <- app_assoc; simpl).
Ltac norm_length := repeat (rewrite ?length_app; simpl).

(** Case analysis on the first decided condition of the goal. *)
Ltac case_dec :=
  match goal with
  | |- context [if bool_decide ?P then _ else _] => destruct (bool_decide_reflect P)
  end.

(** ** Sums over finite maps *)

Section MapSum.
Context `{Countable K} {A : Type}.

Definition map_sum (f : K → A → Z) (m : gmap K A) : Z :=
  map_fold (λ k x acc, (f k x + acc)%Z) 0%Z m.

Lemma map_sum_empty f : map_sum f ∅ = 0%Z.
Proof. apply map_fold_empty. Qed.

Lemma map_sum_insert_new f m i x :
  m !! i = None → map_sum f (<[i:=x]> m) = (f i x + map_sum f m)%Z.
Proof. intros Hi. unfold map_sum. rewrite (map_fold_insert_L _ _ i x m); [done|intros; lia|done]. Qed.

Lemma map_sum_delete f m i x :
  m !! i = Some x → map_sum f m = (f i x + map_sum f (delete i m))%Z.
Proof.
  intros Hi. rewrite <- (insert_delete_id m i x Hi) at 1.
  apply map_sum_insert_new, lookup_delete_eq.
Qed.

Lemma map_sum_insert f m i x y :
  m !! i = Some y → map_sum f (<[i:=x]> m) = (map_sum f m - f i y + f i x)%Z.
Proof.
  intros Hi. rewrite (map_sum_delete f m i y Hi).
  rewrite <- insert_delete_eq, map_sum_insert_new by apply lookup_delete_eq. lia.
Qed.

Lemma map_sum_nonneg f m :
  (∀ k x, m !! k = Some x → 0 ≤ f k x)%Z → (0 ≤ map_sum f m)%Z.
Proof.
  induction m as [|i x m Hi IH] using map_ind; intros Hf; [by rewrite map_sum_empty|].
  rewrite map_sum_insert_new by done.
  assert (0 ≤ f i x)%Z by (apply Hf; by rewrite lookup_insert_eq).
  assert (0 ≤ map_sum f m)%Z; [|lia]. apply IH. intros k y Hk. apply Hf.
  by rewrite lookup_insert_ne by congruence.
Qed.

Lemma map_sum_ext f g m :
  (∀ k x, m !! k = Some x → f k x = g k x) → map_sum f m = map_sum g m.
Proof.
  induction m as [|i x m Hi IH] using map_ind; intros Hf; [done|].
  rewrite !map_sum_insert_new by done. f_equal.
  - apply Hf. by rewrite lookup_insert_eq.
  - apply IH. intros k y Hk. apply Hf. by rewrite lookup_insert_ne by congruence.
Qed.

(** The sum along a list, and along a list of a map's keys. *)
Definition list_sum {B} (g : B → Z) (l : list B) : Z := foldr (λ x n, (g x + n)%Z) 0%Z l.

Lemma map_sum_keys f (m : gmap K A) (l : list K) (g : K → Z) :
  NoDup l → (∀ k, k ∈ l ↔ is_Some (m !! k)) → (∀ k x, m !! k = Some x → f k x = g k) →
  map_sum f m = list_sum g l.
Proof.
  revert m; induction l as [|k l IH]; intros m Hnd Hin Hg; simpl.
  - assert (m = ∅) as ->; [|apply map_sum_empty]. apply map_empty. intros k.
    destruct (m !! k) eqn:E; [|done]. exfalso. apply (not_elem_of_nil k), Hin. eauto.
  - apply list.NoDup_cons in Hnd as [Hk Hnd].
    destruct (proj1 (Hin k)) as [x Hx]; [left|]. rewrite (map_sum_delete f m k x Hx), (Hg _ _ Hx).
    f_equal. apply IH; [done| |].
    + intros j. destruct (decide (k = j)) as [<-|Hne].
      * rewrite lookup_delete_eq. split; [done|]. by intros [].
      * rewrite lookup_delete_ne, <- Hin by done. rewrite elem_of_cons. naive_solver.
    + intros j y [_ Hj]%lookup_delete_Some. auto.
Qed.
End MapSum.
