(* ===== verification/ByteStrings.v ===== *)
(** * Go strings as byte strings

    A Go string is a byte sequence; the model uses Rocq's [string], whose
    characters are the 256 bytes.  This file holds what the components share:
    [len], slicing, [strings.HasPrefix], the byte order of [sort.Strings], and
    [binary.BigEndian] on eight bytes with its round trip. *)

From stdpp Require Import base list strings gmap sets numbers sorting.
From S2P Require Import Prelude.
From Stdlib Require Import Ascii.

(** [len(s)]. *)
Definition len (s : string) : Z := Z.of_nat (String.length s).

(** [s[:n]] and [s[n:]] for [n <= len(s)]. *)
Fixpoint str_take (n : nat) (s : string) : string :=
  match n, s with
  | S n', String c s' => String c (str_take n' s')
  | _, _ => ""
  end.

Fixpoint str_drop (n : nat) (s : string) : string :=
  match n, s with
  | S n', String _ s' => str_drop n' s'
  | _, _ => s
  end.

(** [strings.HasPrefix(s, p)]. *)
Definition HasPrefix (s p : string) : bool := String.prefix p s.

(** [sort.Strings]. *)
Definition sort_Strings (l : list string) : list string := merge_sort String.le l.

Lemma str_length_app (a b : string) : String.length (a +:+ b) = String.length a + String.length b.
Proof. induction a; simpl; auto. Qed.

Lemma len_app a b : len (a +:+ b) = (len a + len b)%Z.
Proof. unfold len. rewrite str_length_app. lia. Qed.

Lemma len_nonneg s : (0 ≤ len s)%Z.
Proof. unfold len. lia. Qed.

Lemma len_pos s : s ≠ "" → (0 < len s)%Z.
Proof. destruct s; [done|]. unfold len; simpl. lia. Qed.

Lemma app_empty_r s : s +:+ "" = s.
Proof. induction s as [|c s IH]; [done|]. change (String c (s +:+ "") = String c s). by rewrite IH. Qed.

Lemma str_take_app a b : str_take (String.length a) (a +:+ b) = a.
Proof. induction a as [|c a IH]; simpl; [done|]. by rewrite IH. Qed.

Lemma str_drop_app a b : str_drop (String.length a) (a +:+ b) = b.
Proof. induction a; simpl; auto. Qed.

Lemma str_take_len n a b : String.length a = n → str_take n (a +:+ b) = a.
Proof. intros <-. apply str_take_app. Qed.

Lemma str_drop_len n a b : String.length a = n → str_drop n (a +:+ b) = b.
Proof. intros <-. apply str_drop_app. Qed.

Lemma str_take_length n s : String.length (str_take n s) = min n (String.length s).
Proof. revert s; induction n as [|n IH]; intros [|c s]; simpl; [done..|]. by rewrite IH. Qed.

Lemma str_take_drop n s : str_take n s +:+ str_drop n s = s.
Proof. revert s; induction n; intros [|c s]; simpl; try done. change (String c (str_take n s +:+ str_drop n s) = String c s). by rewrite IHn. Qed.

(** ** Big-endian integers *)

Fixpoint be_put (k : nat) (n : N) : string :=
  match k with
  | 0 => ""
  | S k' => be_put k' (n / 256) +:+ String (ascii_of_N (n mod 256)) ""
  end.

Fixpoint be_fold (acc : N) (s : string) : N :=
  match s with
  | "" => acc
  | String c s' => be_fold (acc * 256 + N_of_ascii c) s'
  end.

(** [binary.BigEndian.PutUint64] and [binary.BigEndian.Uint64]. *)
Definition PutUint64 (n : N) : string := be_put 8 n.
Definition Uint64 (s : string) : N := be_fold 0 s.

#[global] Arguments PutUint64 n : simpl never.
#[global] Arguments Uint64 s : simpl never.

Definition max_uint64 : N := 18446744073709551615.

Lemma be_put_length k n : String.length (be_put k n) = k.
Proof. revert n; induction k; intros n; simpl; [done|]. rewrite str_length_app, IHk. simpl. lia. Qed.

Lemma PutUint64_length n : String.length (PutUint64 n) = 8.
Proof. apply be_put_length. Qed.

Lemma be_fold_app acc a b : be_fold acc (a +:+ b) = be_fold (be_fold acc a) b.
Proof. revert acc; induction a; intros acc; simpl; auto. Qed.

Lemma be_fold_put k n acc : (n < 256 ^ N.of_nat k)%N →
  be_fold acc (be_put k n) = (acc * 256 ^ N.of_nat k + n)%N.
Proof.
  revert n; induction k as [|k IH]; intros n Hn.
  - simpl in *. lia.
  - rewrite Nat2N.inj_succ, N.pow_succ_r' in *. simpl. rewrite be_fold_app. simpl.
    rewrite IH by (apply N.Div0.div_lt_upper_bound; lia).
    rewrite N_ascii_embedding by (apply N.mod_lt; lia).
    pose proof (N.div_mod n 256). lia.
Qed.

Lemma pow_256_8 : (256 ^ N.of_nat 8)%N = 18446744073709551616%N.
Proof. reflexivity. Qed.

Lemma Uint64_PutUint64 n : (n ≤ max_uint64)%N → Uint64 (PutUint64 n) = n.
Proof.
  intros Hn. unfold Uint64, PutUint64. rewrite be_fold_put; [lia|].
  rewrite pow_256_8. unfold max_uint64 in Hn. lia.
Qed.

Lemma be_put_fold k s : String.length s = k → be_put k (be_fold 0 s) = s.
Proof.
  enough (H : ∀ k s acc, String.length s = k → be_put k (be_fold acc s) = s) by apply H.
  clear k s.
  assert (Hrev : ∀ (P : string → Prop), P "" → (∀ s c, P s → P (s +:+ String c "")) → ∀ s, P s).
  { intros P H0 Hs s. rewrite <- (Stdlib.Strings.String.string_of_list_ascii_of_string s).
    induction (Stdlib.Strings.String.list_ascii_of_string s) as [|c l IH] using rev_ind; [done|].
    replace (Stdlib.Strings.String.string_of_list_ascii (l ++ [c])) with (Stdlib.Strings.String.string_of_list_ascii l +:+ String c "").
    { by apply Hs. }
    clear. induction l as [|d l IH]; simpl; [done|]. by rewrite <- IH. }
  intros k s. revert k. induction s as [|s c IH] using Hrev; intros k acc <-; [done|].
  rewrite str_length_app. simpl. rewrite Nat.add_1_r. simpl. rewrite be_fold_app. simpl.
  assert (Hc : (N_of_ascii c < 256)%N) by apply N_ascii_bounded.
  rewrite N.add_comm, N.Div0.mod_add, N.mod_small, ascii_N_embedding by done.
  rewrite N.div_add, N.div_small, N.add_0_l by (done || lia). by rewrite IH.
Qed.

Lemma be_fold_bound s acc : (be_fold acc s < (acc + 1) * 256 ^ N.of_nat (String.length s))%N.
Proof.
  revert acc; induction s as [|c s IH]; intros acc; simpl String.length.
  - simpl. lia.
  - rewrite Nat2N.inj_succ, N.pow_succ_r'. simpl. eapply N.lt_le_trans; [apply IH|].
    assert (Hc : (N_of_ascii c < 256)%N) by apply N_ascii_bounded. nia.
Qed.

Lemma Uint64_bound s : String.length s = 8 → (Uint64 s ≤ max_uint64)%N.
Proof.
  intros Hs. pose proof (be_fold_bound s 0) as H. rewrite Hs in H. unfold Uint64, max_uint64.
  rewrite pow_256_8 in H. lia.
Qed.

(** ** Byte order *)

Definition str_lt (a b : string) : Prop := String.le a b ∧ a ≠ b.

#[export] Instance str_lt_dec a b : Decision (str_lt a b).
Proof. unfold str_lt. apply _. Defined.

#[export] Instance str_lt_trans : Transitive str_lt.
Proof.
  intros a b c [H1 N1] [H2 N2]. split; [by etrans|]. intros ->. apply N1. by apply (anti_symm String.le).
Qed.

Lemma str_lt_irrefl a : ¬ str_lt a a.
Proof. by intros [_ ?]. Qed.

Lemma str_lt_nle a b : str_lt a b ↔ ¬ String.le b a.
Proof.
  split.
  - intros [H N] H'. apply N. by apply (anti_symm String.le).
  - intros H. destruct (total String.le a b); [|done]. split; [done|]. by intros ->.
Qed.

Lemma str_le_cons c a b : String.le (String c a) (String c b) ↔ String.le a b.
Proof.
  unfold String.le, String.leb. simpl. unfold Ascii.compare. by rewrite N.compare_refl.
Qed.

Lemma str_le_nil a : String.le "" a.
Proof. by destruct a. Qed.

Lemma str_le_prefix p s : HasPrefix s p = true → String.le p s.
Proof.
  unfold HasPrefix. revert s; induction p as [|c p IH]; intros [|d s]; simpl; try done.
  destruct (ascii_dec c d) as [->|]; [|done]. intros. apply str_le_cons. auto.
Qed.

(** Between a key with the prefix and a later key with it lie only keys with it. *)
Lemma prefix_convex p a b c :
  HasPrefix a p = true → HasPrefix c p = true → String.le a b → String.le b c →
  HasPrefix b p = true.
Proof.
  unfold HasPrefix. revert a b c; induction p as [|x p IH]; intros a b c; [by destruct b|].
  destruct a as [|a' a]; simpl; [done|]. destruct (ascii_dec x a') as [<-|]; [|done].
  destruct c as [|c' c]; simpl; [done|]. destruct (ascii_dec x c') as [<-|]; [|done].
  intros Ha Hc H1 H2. destruct b as [|y b]; [done|].
  assert (y = x) as ->.
  { unfold String.le, String.leb in H1, H2. simpl in H1, H2. unfold Ascii.compare in *.
    destruct (N_of_ascii x ?= N_of_ascii y)%N eqn:E1; [| |done].
    - apply N.compare_eq in E1. apply (f_equal ascii_of_N) in E1.
      by rewrite !ascii_N_embedding in E1.
    - rewrite N.compare_antisym, E1 in H2. done. }
  apply str_le_cons in H1, H2. simpl. destruct (ascii_dec x x); [|done]. eapply IH; [exact Ha|exact Hc|done|done].
Qed.

Lemma sort_Strings_perm l : sort_Strings l ≡ₚ l.
Proof. apply merge_sort_Permutation. Qed.

Lemma sort_Strings_sorted l : Sorted String.le (sort_Strings l).
Proof. apply Sorted_merge_sort. apply _. Qed.

(** [sort.Strings] does not depend on the order it is given the strings in. *)
Lemma sort_Strings_proper l k : l ≡ₚ k → sort_Strings l = sort_Strings k.
Proof.
  intros H. apply (Sorted_unique String.le); auto using sort_Strings_sorted.
  by rewrite !sort_Strings_perm.
Qed.

Lemma sort_Strings_id l : StronglySorted String.le l → sort_Strings l = l.
Proof.
  intros H. apply (Sorted_unique String.le); auto using sort_Strings_sorted, StronglySorted_Sorted.
  apply sort_Strings_perm.
Qed.

Lemma str_sorted_le l : StronglySorted str_lt l → StronglySorted String.le l.
Proof.
  induction 1 as [|x l _ IH Hx]; constructor; auto.
  eapply Forall_impl; [exact Hx|]. by intros y [? _].
Qed.

Lemma str_sorted_nodup l : StronglySorted str_lt l → NoDup l.
Proof.
  induction 1 as [|x l _ IH Hx]; constructor; auto.
  intros Hin. rewrite Forall_forall in Hx. by apply (str_lt_irrefl x), Hx.
Qed.

(** A strictly sorted list is determined by its elements. *)
Lemma str_sorted_keys l (X : gset string) :
  StronglySorted str_lt l → (∀ k, k ∈ l ↔ k ∈ X) → l = sort_Strings (elements X).
Proof.
  intros Hs Hin. rewrite <- (sort_Strings_id l) by by apply str_sorted_le.
  apply sort_Strings_proper. apply NoDup_Permutation.
  - by apply str_sorted_nodup.
  - apply NoDup_elements.
  - intros k. by rewrite Hin, elem_of_elements.
Qed.
