(* ===== verification/Utf8.v ===== *)
(** * UTF-8 and JSON string literals

    What the sources use of Go's [unicode/utf8], [unicode/utf16] and of
    [encoding/json] on strings: [utf8.ValidString], [utf8.DecodeRune],
    [utf8.AppendRune], [json.Marshal] of a string and [json.Unmarshal] of a
    string literal.  A byte is a [Z] from 0 to 255, a byte slice or a Go string a
    list of them.

    The two codecs are inverse on valid UTF-8 ([unmarshal_marshal]). *)

From stdpp Require Import base list strings numbers.
From Stdlib Require Import Ascii.
From S2P Require Import Prelude.

Open Scope Z_scope.

Abbreviation bytes := (list Z).

(** A Rocq string literal as bytes. *)
Fixpoint lit (s : string) : bytes :=
  match s with
  | EmptyString => []
  | String c s' => Z.of_N (N_of_ascii c) :: lit s'
  end.

(** Bytes as a Rocq string: the inverse of [lit]. *)
Fixpoint bstr (b : bytes) : string :=
  match b with
  | [] => EmptyString
  | c :: b' => String (ascii_of_N (Z.to_N c)) (bstr b')
  end.

Definition isByte (b : Z) : Prop := 0 ≤ b < 256.

Lemma bstr_lit s : bstr (lit s) = s.
Proof. induction s as [|c s IH]; simpl; [done|]. by rewrite N2Z.id, ascii_N_embedding, IH. Qed.

Lemma lit_bstr b : Forall isByte b → lit (bstr b) = b.
Proof.
  induction 1 as [|c b Hc _ IH]; simpl; [done|]. unfold isByte in Hc.
  rewrite N_ascii_embedding, IH by lia. f_equal. lia.
Qed.

Lemma lit_bytes s : Forall isByte (lit s).
Proof.
  induction s as [|c s IH]; simpl; [done|]. constructor; [|done].
  pose proof (N_ascii_bounded c). unfold isByte. lia.
Qed.

Lemma lit_nil s : lit s = [] ↔ s = "".
Proof. by destruct s. Qed.

(** ** Runes *)

Definition RuneError : Z := 0xFFFD.

Definition isSurrogate (r : Z) : bool := (0xD800 <=? r) && (r <=? 0xDFFF).
Definition validRune (r : Z) : bool := (0 <=? r) && (r <=? 0x10FFFF) && negb (isSurrogate r).

(** [utf8.AppendRune]. *)
Definition encodeRune (r : Z) : bytes :=
  let r := if validRune r then r else RuneError in
  if r <=? 0x7F then [r]
  else if r <=? 0x7FF then [0xC0 + r / 64; 0x80 + r mod 64]
  else if r <=? 0xFFFF then [0xE0 + r / 4096; 0x80 + (r / 64) mod 64; 0x80 + r mod 64]
  else [0xF0 + r / 262144; 0x80 + (r / 4096) mod 64; 0x80 + (r / 64) mod 64; 0x80 + r mod 64].

Definition within (lo hi b : Z) : bool := (lo <=? b) && (b <=? hi).

(** The rune at the head and what follows it; [None] where [utf8.DecodeRune]
    answers [RuneError] with width 1 (or the slice is empty). *)
Definition decodeRune (s : bytes) : option (Z * bytes) :=
  match s with
  | [] => None
  | b0 :: s1 =>
      if within 0 0x7F b0 then Some (b0, s1) else
      match s1 with
      | [] => None
      | b1 :: s2 =>
          if within 0xC2 0xDF b0 then
            if within 0x80 0xBF b1 then Some ((b0 - 0xC0) * 64 + (b1 - 0x80), s2) else None
          else match s2 with
          | [] => None
          | b2 :: s3 =>
              if within 0xE0 0xEF b0 then
                if within (if b0 =? 0xE0 then 0xA0 else 0x80) (if b0 =? 0xED then 0x9F else 0xBF) b1
                   && within 0x80 0xBF b2
                then Some ((b0 - 0xE0) * 4096 + (b1 - 0x80) * 64 + (b2 - 0x80), s3) else None
              else match s3 with
              | [] => None
              | b3 :: s4 =>
                  if within 0xF0 0xF4 b0
                     && within (if b0 =? 0xF0 then 0x90 else 0x80) (if b0 =? 0xF4 then 0x8F else 0xBF) b1
                     && within 0x80 0xBF b2 && within 0x80 0xBF b3
                  then Some ((b0 - 0xF0) * 262144 + (b1 - 0x80) * 4096 + (b2 - 0x80) * 64 + (b3 - 0x80), s4)
                  else None
              end
          end
      end
  end.

Ltac zbool :=
  repeat match goal with
  | H : _ && _ = true |- _ => apply andb_true_iff in H as [? ?]
  | H : _ && _ = false |- _ => apply andb_false_iff in H
  | H : (_ <=? _) = true |- _ => apply Z.leb_le in H
  | H : (_ <=? _) = false |- _ => apply Z.leb_gt in H
  | H : (_ =? _) = true |- _ => apply Z.eqb_eq in H
  | H : (_ =? _) = false |- _ => apply Z.eqb_neq in H
  | H : negb _ = true |- _ => apply negb_true_iff in H
  | H : negb _ = false |- _ => apply negb_false_iff in H
  end.

Lemma within_spec lo hi b : within lo hi b = true ↔ lo ≤ b ≤ hi.
Proof. unfold within. rewrite andb_true_iff, !Z.leb_le. lia. Qed.
Lemma within_false lo hi b : within lo hi b = false ↔ b < lo ∨ hi < b.
Proof. unfold within. rewrite andb_false_iff, !Z.leb_gt. lia. Qed.

Lemma validRune_spec r : validRune r = true ↔ 0 ≤ r ≤ 0x10FFFF ∧ ¬ (0xD800 ≤ r ≤ 0xDFFF).
Proof.
  unfold validRune, isSurrogate. rewrite !andb_true_iff, negb_true_iff, andb_false_iff, !Z.leb_le, !Z.leb_gt. lia.
Qed.

(** Decide the range conditions of the goal by arithmetic. *)
Ltac decide_ranges :=
  repeat match goal with
  | |- context [within ?lo ?hi ?b] =>
      first [ rewrite (proj2 (within_spec lo hi b)) by lia
            | rewrite (proj2 (within_false lo hi b)) by lia ]
  | |- context [?a <=? ?b] =>
      first [ rewrite (proj2 (Z.leb_le a b)) by lia | rewrite (proj2 (Z.leb_gt a b)) by lia ]
  end.

Lemma decodeRune_encode r s : validRune r = true → decodeRune (encodeRune r ++ s) = Some (r, s).
Proof.
  intros Hv. unfold encodeRune. rewrite Hv. apply validRune_spec in Hv.
  destruct (r <=? 0x7F) eqn:E1; [|destruct (r <=? 0x7FF) eqn:E2; [|destruct (r <=? 0xFFFF) eqn:E3]]; zbool;
    simpl app; unfold decodeRune.
  - by decide_ranges.
  - pose proof (Z.div_mod r 64). pose proof (Z.mod_pos_bound r 64).
    decide_ranges. do 2 f_equal. lia.
  - pose proof (Z.div_mod r 64). pose proof (Z.mod_pos_bound r 64).
    pose proof (Z.div_mod (r / 64) 64). pose proof (Z.mod_pos_bound (r / 64) 64).
    assert (r / 4096 = r / 64 / 64) as -> by (by rewrite Z.div_div).
    set (q := r / 64) in *. set (q1 := q / 64) in *.
    destruct (0xE0 + q1 =? 0xE0) eqn:F1, (0xE0 + q1 =? 0xED) eqn:F2; zbool; try lia;
      decide_ranges; simpl; do 2 f_equal; lia.
  - pose proof (Z.div_mod r 64). pose proof (Z.mod_pos_bound r 64).
    pose proof (Z.div_mod (r / 64) 64). pose proof (Z.mod_pos_bound (r / 64) 64).
    pose proof (Z.div_mod (r / 64 / 64) 64). pose proof (Z.mod_pos_bound (r / 64 / 64) 64).
    assert (r / 4096 = r / 64 / 64) as -> by (by rewrite Z.div_div).
    assert (r / 262144 = r / 64 / 64 / 64) as -> by (by rewrite !Z.div_div).
    set (q := r / 64) in *. set (q1 := q / 64) in *. set (q2 := q1 / 64) in *.
    destruct (0xF0 + q2 =? 0xF0) eqn:F1, (0xF0 + q2 =? 0xF4) eqn:F2; zbool; try lia;
      decide_ranges; simpl; do 2 f_equal; lia.
Qed.

(** The base-64 digits of a rune. *)
Lemma split64 a b : 0 ≤ b < 64 → (a * 64 + b) / 64 = a ∧ (a * 64 + b) mod 64 = b.
Proof.
  intros Hb. split; [symmetry; apply Z.div_unique with b; lia|symmetry; apply Z.mod_unique with a; lia].
Qed.

Lemma encode2 a b : 2 ≤ a < 32 → 0 ≤ b < 64 → encodeRune (a * 64 + b) = [0xC0 + a; 0x80 + b].
Proof.
  intros Ha Hb. unfold encodeRune. rewrite (proj2 (validRune_spec _)) by lia. decide_ranges.
  by destruct (split64 a b Hb) as [-> ->].
Qed.

Lemma encode3 a b c : let r := a * 4096 + b * 64 + c in
  validRune r = true → 0x800 ≤ r ≤ 0xFFFF → 0 ≤ b < 64 → 0 ≤ c < 64 →
  encodeRune r = [0xE0 + a; 0x80 + b; 0x80 + c].
Proof.
  intros r Hv Hr Hb Hc. unfold encodeRune. rewrite Hv. decide_ranges.
  assert (Hr2 : r = (a * 64 + b) * 64 + c) by (unfold r; ring).
  destruct (split64 (a * 64 + b) c Hc) as [H1 H2], (split64 a b Hb) as [H3 H4].
  assert (r / 4096 = r / 64 / 64) as -> by (by rewrite Z.div_div).
  by rewrite Hr2, H1, H2, H3, H4.
Qed.

Lemma encode4 a b c d : let r := a * 262144 + b * 4096 + c * 64 + d in
  validRune r = true → 0xFFFF < r → 0 ≤ b < 64 → 0 ≤ c < 64 → 0 ≤ d < 64 →
  encodeRune r = [0xF0 + a; 0x80 + b; 0x80 + c; 0x80 + d].
Proof.
  intros r Hv Hr Hb Hc Hd. unfold encodeRune. rewrite Hv. decide_ranges.
  assert (Hr2 : r = ((a * 64 + b) * 64 + c) * 64 + d) by (unfold r; ring).
  destruct (split64 ((a * 64 + b) * 64 + c) d Hd) as [H1 H2], (split64 (a * 64 + b) c Hc) as [H3 H4],
    (split64 a b Hb) as [H5 H6].
  assert (r / 4096 = r / 64 / 64) as -> by (by rewrite Z.div_div).
  assert (r / 262144 = r / 64 / 64 / 64) as -> by (by rewrite !Z.div_div).
  by rewrite Hr2, H1, H2, H3, H4, H5, H6.
Qed.

(** A decoded rune is valid, and its bytes are its encoding. *)
Lemma decode_inv s r s' : decodeRune s = Some (r, s') → validRune r = true ∧ s = encodeRune r ++ s'.
Proof.
  unfold decodeRune. intros H.
  destruct s as [|b0 s1]; [done|]. destruct (within 0 0x7F b0) eqn:E0.
  { inv_ok. apply within_spec in E0. assert (Hv : validRune r = true) by (apply validRune_spec; lia).
    split; [done|]. unfold encodeRune. rewrite Hv. by decide_ranges. }
  destruct s1 as [|b1 s2]; [done|]. destruct (within 0xC2 0xDF b0) eqn:E1.
  { destruct (within 0x80 0xBF b1) eqn:E2; [|done]. inv_ok. apply within_spec in E1, E2.
    split; [apply validRune_spec; lia|]. rewrite encode2 by lia. simpl. repeat f_equal; lia. }
  destruct s2 as [|b2 s3]; [done|]. destruct (within 0xE0 0xEF b0) eqn:E2.
  { destruct (within _ _ b1 && within 0x80 0xBF b2) eqn:E3; [|done]. inv_ok.
    apply andb_true_iff in E3 as [E3 E4]. apply within_spec in E2, E3, E4.
    set (r := (b0 - 224) * 4096 + (b1 - 128) * 64 + (b2 - 128)).
    assert (Hb : 0x80 ≤ b1 ≤ 0xBF) by (destruct (b0 =? 0xE0), (b0 =? 0xED); lia).
    assert (validRune r = true ∧ 0x800 ≤ r ≤ 0xFFFF) as [Hv Hr].
    { rewrite validRune_spec. unfold r. destruct (b0 =? 0xE0) eqn:?, (b0 =? 0xED) eqn:?; zbool; lia. }
    split; [done|]. unfold r in *. rewrite encode3 by first [done|lia]. simpl. repeat f_equal; lia. }
  destruct s3 as [|b3 s4]; [done|]. destruct (_ && _) eqn:E3; [|done]. inv_ok.
  apply andb_true_iff in E3 as [[[E3 E4]%andb_true_iff E5]%andb_true_iff E6].
  apply within_spec in E3, E4, E5, E6.
  set (r := (b0 - 240) * 262144 + (b1 - 128) * 4096 + (b2 - 128) * 64 + (b3 - 128)).
  assert (Hb : 0x80 ≤ b1 ≤ 0xBF) by (destruct (b0 =? 0xF0), (b0 =? 0xF4); lia).
  assert (validRune r = true ∧ 0xFFFF < r) as [Hv Hr].
  { rewrite validRune_spec. unfold r. destruct (b0 =? 0xF0) eqn:?, (b0 =? 0xF4) eqn:?; zbool; lia. }
  split; [done|]. unfold r in *. rewrite encode4 by first [done|lia]. simpl. repeat f_equal; lia.
Qed.

(** ** Valid strings *)

Lemma decode_shorter s r s' : decodeRune s = Some (r, s') → (length s' < length s)%nat.
Proof.
  intros [_ ->]%decode_inv. rewrite length_app. unfold encodeRune.
  repeat (destruct (_ <=? _); simpl; try lia).
Qed.

Fixpoint validF (fuel : nat) (s : bytes) : bool :=
  match fuel, s with
  | _, [] => true
  | O, _ => false
  | S fuel, _ => match decodeRune s with Some (_, s') => validF fuel s' | None => false end
  end.

(** [utf8.ValidString], [utf8.Valid]. *)
Definition ValidString (s : bytes) : bool := validF (length s) s.

(** A Go string that is valid UTF-8. *)
Definition isText (s : string) : Prop := ValidString (lit s) = true.

Definition encodeAll (rs : list Z) : bytes := concat (encodeRune <$> rs).

(** A string is valid when it is the encoding of runes. *)
Lemma ValidString_runes s :
  ValidString s = true ↔ ∃ rs, Forall (λ r, validRune r = true) rs ∧ s = encodeAll rs.
Proof.
  unfold ValidString. split.
  - generalize (length s) as n. intros n; revert s; induction n as [|n IH]; intros [|b s]; try done;
      try (intros _; by exists []).
    cbn [validF]. destruct (decodeRune (b :: s)) as [[r s']|] eqn:E; [|done].
    apply decode_inv in E as [Hv ->]. intros (rs & Hrs & ->)%IH. exists (r :: rs). by split; [constructor|].
  - intros (rs & Hrs & ->).
    assert (H : ∀ n, (length (encodeAll rs) ≤ n)%nat → validF n (encodeAll rs) = true); [|by apply H].
    induction Hrs as [|r rs Hr _ IH]; intros n Hn; [by destruct n|].
    change (encodeAll (r :: rs)) with (encodeRune r ++ encodeAll rs) in *.
    pose proof (decodeRune_encode r (encodeAll rs) Hr) as Hd. pose proof (decode_shorter _ _ _ Hd) as Hs.
    destruct n as [|n]; [lia|]. destruct (encodeRune r ++ encodeAll rs) as [|b l] eqn:E; [done|].
    cbn [validF]. rewrite Hd. apply IH. simpl in *. lia.
Qed.

(** ** JSON string literals *)

Definition quote : Z := 0x22.
Definition backslash : Z := 0x5C.

(** Go's [hex] table, and its inverse on either case. *)
Definition hexDigit (n : Z) : Z := if n <=? 9 then 0x30 + n else 0x57 + n.
Definition hexValue (c : Z) : option Z :=
  if within 0x30 0x39 c then Some (c - 0x30)
  else if within 0x61 0x66 c then Some (c - 0x57)
  else if within 0x41 0x46 c then Some (c - 0x37)
  else None.

(** [htmlSafeSet]: printable ASCII but for quote, backslash, [<], [>], [&]. *)
Definition htmlSafe (b : Z) : bool :=
  within 0x20 0x7F b && negb ((b =? quote) || (b =? backslash) || (b =? 0x3C) || (b =? 0x3E) || (b =? 0x26)).

(** The encoder's [switch] for an ASCII byte. *)
Definition escapeAscii (b : Z) : bytes :=
  if htmlSafe b then [b]
  else if (b =? backslash) || (b =? quote) then [backslash; b]
  else if b =? 0x08 then [backslash; 0x62]
  else if b =? 0x0C then [backslash; 0x66]
  else if b =? 0x0A then [backslash; 0x6E]
  else if b =? 0x0D then [backslash; 0x72]
  else if b =? 0x09 then [backslash; 0x74]
  else [backslash; 0x75; 0x30; 0x30; hexDigit (b / 16); hexDigit (b mod 16)].

Fixpoint appendF (fuel : nat) (s : bytes) : bytes :=
  match fuel, s with
  | S fuel, b :: s1 =>
      if b <=? 0x7F then escapeAscii b ++ appendF fuel s1
      else match decodeRune s with
      | None => [backslash; 0x75; 0x66; 0x66; 0x66; 0x64] ++ appendF fuel s1
      | Some (r, s') =>
          (if (r =? 0x2028) || (r =? 0x2029)
           then [backslash; 0x75; 0x32; 0x30; 0x32; hexDigit (r mod 16)]
           else encodeRune r) ++ appendF fuel s'
      end
  | _, _ => []
  end.

(** [json.Marshal] of a string. *)
Definition Marshal (s : bytes) : bytes := quote :: appendF (length s) s ++ [quote].

(** [getu4] after the [\u]: four hex digits. *)
Definition getu4 (s : bytes) : option (Z * bytes) :=
  match s with
  | a :: b :: c :: d :: s' =>
      a' ← hexValue a; b' ← hexValue b; c' ← hexValue c; d' ← hexValue d;
      Some (((a' * 16 + b') * 16 + c') * 16 + d', s')
  | _ => None
  end.

(** [utf16.DecodeRune]: [None] for an invalid pair. *)
Definition decodePair (r1 r2 : Z) : option Z :=
  if within 0xD800 0xDBFF r1 && within 0xDC00 0xDFFF r2
  then Some ((r1 - 0xD800) * 1024 + (r2 - 0xDC00) + 0x10000) else None.

(** The second half of a surrogate pair, if the text continues with one. *)
Definition lowHalf (r : Z) (s : bytes) : option (Z * bytes) :=
  match s with
  | c :: u :: s' =>
      if (c =? backslash) && (u =? 0x75) then
        '(r1, s'') ← getu4 s'; (λ d, (d, s'')) <$> decodePair r r1
      else None
  | _ => None
  end.

(** [json.Unmarshal] of a string literal, after its opening quote: the checks of
    the scanner and [unquote] in one pass; [None] is a syntax error. *)
Fixpoint unquoteF (fuel : nat) (s : bytes) : option bytes :=
  match fuel, s with
  | S fuel, c :: s1 =>
      if c =? quote then (if bool_decide (s1 = []) then Some [] else None)
      else if c <? 0x20 then None
      else if c =? backslash then
        match s1 with
        | e :: s2 =>
            if (e =? quote) || (e =? backslash) || (e =? 0x2F) then cons e <$> unquoteF fuel s2
            else if e =? 0x62 then cons 0x08 <$> unquoteF fuel s2
            else if e =? 0x66 then cons 0x0C <$> unquoteF fuel s2
            else if e =? 0x6E then cons 0x0A <$> unquoteF fuel s2
            else if e =? 0x72 then cons 0x0D <$> unquoteF fuel s2
            else if e =? 0x74 then cons 0x09 <$> unquoteF fuel s2
            else if e =? 0x75 then
              '(r, s3) ← getu4 s2;
              if isSurrogate r then
                match lowHalf r s3 with
                | Some (d, s4) => app (encodeRune d) <$> unquoteF fuel s4
                | None => app (encodeRune RuneError) <$> unquoteF fuel s3
                end
              else app (encodeRune r) <$> unquoteF fuel s3
            else None
        | [] => None
        end
      else if c <=? 0x7F then cons c <$> unquoteF fuel s1
      else match decodeRune s with
      | Some (r, s') => app (encodeRune r) <$> unquoteF fuel s'
      | None => app (encodeRune RuneError) <$> unquoteF fuel s1
      end
  | _, _ => None
  end.

Definition Unmarshal (s : bytes) : option bytes :=
  match s with
  | c :: s1 => if c =? quote then unquoteF (length s) s1 else None
  | [] => None
  end.

(** One rune as the encoder writes it. *)
Definition escapeRune (r : Z) : bytes :=
  if r <=? 0x7F then escapeAscii r
  else if (r =? 0x2028) || (r =? 0x2029) then [backslash; 0x75; 0x32; 0x30; 0x32; hexDigit (r mod 16)]
  else encodeRune r.

Lemma encodeRune_head r : validRune r = true →
  ∃ b l, encodeRune r = b :: l ∧ (r ≤ 0x7F → b = r ∧ l = []) ∧ (0x7F < r → 0x80 ≤ b).
Proof.
  intros Hv. unfold encodeRune. rewrite Hv. apply validRune_spec in Hv.
  destruct (r <=? 0x7F) eqn:E1; [|destruct (r <=? 0x7FF) eqn:E2; [|destruct (r <=? 0xFFFF) eqn:E3]]; zbool;
    eexists _, _; (split; [reflexivity|]); split; intros; try lia; try done;
    match goal with |- _ ≤ _ + r / ?k => pose proof (Z.div_pos r k) end; lia.
Qed.

Lemma Marshal_runes rs : Forall (λ r, validRune r = true) rs →
  Marshal (encodeAll rs) = quote :: concat (escapeRune <$> rs) ++ [quote].
Proof.
  intros Hrs. unfold Marshal. do 2 f_equal.
  assert (H : ∀ n, (length (encodeAll rs) ≤ n)%nat → appendF n (encodeAll rs) = concat (escapeRune <$> rs));
    [|by apply H].
  induction Hrs as [|r rs Hr _ IH]; intros n Hn; [by destruct n|].
  change (encodeAll (r :: rs)) with (encodeRune r ++ encodeAll rs) in *.
  pose proof (decodeRune_encode r (encodeAll rs) Hr) as Hd. pose proof (decode_shorter _ _ _ Hd) as Hs.
  destruct (encodeRune_head r Hr) as (b & l & Hb & Hlo & Hhi).
  rewrite Hb in *. rewrite <- app_comm_cons in *.
  destruct n as [|n]; [lia|]. cbn [appendF]. rewrite Hd. cbn [fmap list_fmap concat].
  unfold escapeRune at 1. destruct (Z.le_gt_cases r 0x7F) as [Hle|Hgt].
  - destruct (Hlo Hle) as [-> ->]. decide_ranges. f_equal. apply IH. simpl in *. lia.
  - specialize (Hhi ltac:(lia)). decide_ranges. rewrite Hb. rewrite IH by (simpl in *; lia). done.
Qed.

Lemma hexValue_digit n : 0 ≤ n < 16 → hexValue (hexDigit n) = Some n.
Proof.
  intros Hn. unfold hexDigit, hexValue. destruct (n <=? 9) eqn:E; zbool; decide_ranges; f_equal; lia.
Qed.

Lemma getu4_digits a b c d s : 0 ≤ a < 16 → 0 ≤ b < 16 → 0 ≤ c < 16 → 0 ≤ d < 16 →
  getu4 (hexDigit a :: hexDigit b :: hexDigit c :: hexDigit d :: s) = Some (((a * 16 + b) * 16 + c) * 16 + d, s).
Proof. intros. unfold getu4. by rewrite !hexValue_digit. Qed.

(** A [\u] escape of a rune outside the surrogates is read back. *)
Lemma unquote_u4 n a b c d s r : 0 ≤ a < 16 → 0 ≤ b < 16 → 0 ≤ c < 16 → 0 ≤ d < 16 →
  r = ((a * 16 + b) * 16 + c) * 16 + d → isSurrogate r = false →
  unquoteF (S n) (backslash :: 0x75 :: hexDigit a :: hexDigit b :: hexDigit c :: hexDigit d :: s)
  = app (encodeRune r) <$> unquoteF n s.
Proof.
  intros Ha Hb Hc Hd -> Hs. cbn [unquoteF]. change (backslash =? quote) with false.
  change (backslash <? 32) with false. change (backslash =? backslash) with true.
  cbn [Z.eqb Pos.eqb orb quote backslash]. rewrite getu4_digits by done. cbn [mbind option_bind].
  by rewrite Hs.
Qed.

Lemma encodeRune_ascii r : 0 ≤ r ≤ 0x7F → encodeRune r = [r].
Proof. intros Hr. unfold encodeRune. rewrite (proj2 (validRune_spec r)) by lia. by decide_ranges. Qed.

Lemma unquote_ascii n r s : 0 ≤ r ≤ 0x7F →
  unquoteF (S n) (escapeAscii r ++ s) = app [r] <$> unquoteF n s.
Proof.
  intros Hr. unfold escapeAscii. destruct (htmlSafe r) eqn:E.
  { unfold htmlSafe in E. apply andb_true_iff in E as [E1%within_spec E2].
    apply negb_true_iff in E2. rewrite !orb_false_iff in E2. destruct E2 as ((((E2 & E3) & _) & _) & _).
    cbn [app unquoteF]. rewrite E2, E3. rewrite (proj2 (Z.ltb_ge _ _)) by lia. by decide_ranges. }
  destruct ((r =? backslash) || (r =? quote)) eqn:E1.
  { apply orb_true_iff in E1 as [->%Z.eqb_eq| ->%Z.eqb_eq]; done. }
  do 5 (match goal with |- context [if r =? ?k then _ else _] => destruct (Z.eqb_spec r k) as [->|] end; [done|]).
  change 0x30 with (hexDigit 0). rewrite <- !app_comm_cons, app_nil_l.
  pose proof (Z.div_mod r 16). pose proof (Z.mod_pos_bound r 16).
  assert (0 ≤ r / 16 < 16) by (split; [apply Z.div_pos|apply Z.div_lt_upper_bound]; lia).
  rewrite (unquote_u4 n 0 0 (r / 16) (r mod 16) s r); try lia; [by rewrite encodeRune_ascii|].
  unfold isSurrogate. by decide_ranges.
Qed.

Lemma unquote_escape n r s : validRune r = true →
  unquoteF (S n) (escapeRune r ++ s) = app (encodeRune r) <$> unquoteF n s.
Proof.
  intros Hv. unfold escapeRune. pose proof (proj1 (validRune_spec r) Hv) as Hr.
  destruct (r <=? 0x7F) eqn:E; zbool.
  { rewrite unquote_ascii, encodeRune_ascii by lia. done. }
  destruct ((r =? 0x2028) || (r =? 0x2029)) eqn:E2.
  { change 0x30 with (hexDigit 0). change 0x32 with (hexDigit 2). rewrite <- !app_comm_cons, app_nil_l.
    apply unquote_u4; try lia; [..|unfold isSurrogate];
      apply orb_true_iff in E2 as [->%Z.eqb_eq| ->%Z.eqb_eq]; done. }
  pose proof (decodeRune_encode r s Hv) as Hd. destruct (encodeRune_head r Hv) as (b & l & Hb & _ & Hhi).
  specialize (Hhi ltac:(lia)). rewrite Hb in *. rewrite <- app_comm_cons in *. cbn [unquoteF].
  assert ((b =? quote) = false ∧ (b =? backslash) = false) as [-> ->]
    by (split; apply Z.eqb_neq; unfold quote, backslash; lia).
  rewrite (proj2 (Z.ltb_ge b _)) by lia. decide_ranges. rewrite Hd, Hb. done.
Qed.

Lemma escapeRune_nonempty r : validRune r = true → (1 ≤ length (escapeRune r))%nat.
Proof.
  intros Hv. destruct (encodeRune_head r Hv) as (b & l & Hb & _). unfold escapeRune, escapeAscii. rewrite Hb.
  repeat split_match; simpl; lia.
Qed.

(** The encoder's literal of a valid string decodes to the string. *)
Lemma unmarshal_marshal s : ValidString s = true → Unmarshal (Marshal s) = Some s.
Proof.
  intros (rs & Hrs & ->)%ValidString_runes. rewrite Marshal_runes by done. unfold Unmarshal.
  rewrite Z.eqb_refl.
  assert (H : ∀ n, (length (concat (escapeRune <$> rs)) < n)%nat →
    unquoteF n (concat (escapeRune <$> rs) ++ [quote]) = Some (encodeAll rs)).
  { induction Hrs as [|r rs Hr _ IH]; intros n Hn; (destruct n as [|n]; [simpl in Hn; lia|]); [done|].
    cbn [fmap list_fmap concat] in *. rewrite <- app_assoc, unquote_escape by done.
    rewrite length_app in Hn. pose proof (escapeRune_nonempty r Hr). rewrite IH by lia. done. }
  apply H. simpl. rewrite length_app. simpl. lia.
Qed.
