(* ===== verification/Matching.v ===== *)
(** * Greedy occurrence matching

    The signature verifier and the outbound-policy walk all correlate an
    accepted list with a returned list by the same loop: for each returned
    occurrence, in order, consume the first accepted occurrence that is still
    free and matches it.  [streamverify.go] writes the loop out for tool scopes
    and for signature bindings with two [[]bool] slices, [consumed] and
    [retConsumed].  This file holds the loop once, with the facts the clients
    use: what it consumes is a one-to-one correspondence ([consume_exact_perm]),
    it leaves nothing matchable behind ([consume_exact_maximal]), and on
    identical lists it consumes everything ([consume_exact_self]). *)

From stdpp Require Import base list strings sets numbers.
From S2P Require Import Prelude.

Section Greedy.
Context {A B : Type}.

(** The first index [i] with [!consumed[i] && p(l[i])]. *)
Fixpoint first_free (p : A → bool) (l : list A) (c : list bool) : option nat :=
  match l, c with
  | x :: l', b :: c' =>
      if negb b && p x then Some 0 else S <$> first_free p l' c'
  | _, _ => None
  end.

(** The occurrences whose flag is [b]. *)
Fixpoint select {X : Type} (b : bool) (l : list X) (c : list bool) : list X :=
  match l, c with
  | x :: l', f :: c' => if Bool.eqb f b then x :: select b l' c' else select b l' c'
  | _, _ => []
  end.

(** The exact-match phase: [elig] is the guard that skips a returned
    occurrence, [R] the match. Returns [consumed] and [retConsumed]. *)
Fixpoint consume_exact (elig : B → bool) (R : A → B → bool)
    (acc : list A) (ret : list B) (c : list bool) : list bool * list bool :=
  match ret with
  | [] => (c, [])
  | r :: ret' =>
      match (if elig r then first_free (λ a, R a r) acc c else None) with
      | Some i =>
          let '(c', rc) := consume_exact elig R acc ret' (<[i := true]> c) in
          (c', true :: rc)
      | None =>
          let '(c', rc) := consume_exact elig R acc ret' c in
          (c', false :: rc)
      end
  end.

Definition all_free (acc : list A) : list bool := replicate (length acc) false.

Lemma select_all_free acc : select false acc (all_free acc) = acc.
Proof. unfold all_free. induction acc; simpl; f_equal; auto. Qed.

Lemma first_free_Some p l c i :
  first_free p l c = Some i →
  ∃ x, l !! i = Some x ∧ c !! i = Some false ∧ p x = true.
Proof.
  revert c i; induction l as [|x l IH]; intros [|b c] i; simpl; try done.
  destruct (negb b && p x) eqn:E.
  - intros [= <-]. apply andb_true_iff in E as [Hb Hp].
    exists x. destruct b; naive_solver.
  - destruct (first_free p l c) eqn:E'; simpl; [|done]. intros [= <-].
    apply IH in E' as (y & ? & ? & ?). eauto.
Qed.

Lemma first_free_None p l c :
  length c = length l →
  first_free p l c = None → ∀ x, x ∈ select false l c → p x = false.
Proof.
  revert c; induction l as [|y l IH]; intros [|b c] Hlen; simpl; try done.
  - intros _ x Hx. set_solver.
  - destruct (negb b && p y) eqn:E; [done|].
    destruct (first_free p l c) eqn:E'; simpl; [done|]. intros _ x Hx.
    destruct b; simpl in *.
    + eapply IH; eauto.
    + apply elem_of_cons in Hx as [->|Hx]; [done|]. eapply IH; eauto.
Qed.

Lemma first_free_lt p l c i : first_free p l c = Some i → i < length c.
Proof.
  intros (x & _ & Hc & _)%first_free_Some. eapply lookup_lt_Some; eauto.
Qed.

(** Setting a free flag moves exactly one occurrence out of the free list. *)
Lemma select_false_insert (l : list A) (c : list bool) (i : nat) (x : A) :
  l !! i = Some x → c !! i = Some false →
  select false l c ≡ₚ x :: select false l (<[i := true]> c).
Proof.
  revert c i; induction l as [|y l IH]; intros [|b c] [|i]; simpl; try done.
  - intros [= ->] [= ->]. done.
  - intros Hl Hc. specialize (IH _ _ Hl Hc).
    destruct b; simpl; [done|]. rewrite IH. by rewrite Permutation_swap.
Qed.

Lemma select_false_subset (l : list A) (c : list bool) (i : nat) :
  c !! i = Some false →
  ∀ x : A, x ∈ select false l (<[i := true]> c) → x ∈ select false l c.
Proof.
  intros Hc x. destruct (l !! i) as [y|] eqn:Hl.
  - rewrite (select_false_insert _ _ _ _ Hl Hc). set_solver.
  - clear -Hl. revert c i Hl; induction l as [|z l IH]; intros [|b c] [|i]; simpl; try done.
    intros Hl. destruct b; simpl; [eauto|].
    rewrite !elem_of_cons. intros [->|?]; eauto.
Qed.

Section Keys.
Context {K : Type} (kA : A → K) (kB : B → K).
Context (elig : B → bool) (R : A → B → bool).
Context (HR : ∀ a b, R a b = true → kA a = kB b).

(** Conservation: what was free is what stays free plus, one for one, the
    returned occurrences that consumed something. *)
Lemma consume_exact_perm acc ret c c' rc :
  length c = length acc →
  consume_exact elig R acc ret c = (c', rc) →
  length c' = length acc ∧ length rc = length ret ∧
  kA <$> select false acc c ≡ₚ
    (kA <$> select false acc c') ++ (kB <$> select true ret rc).
Proof.
  revert c c' rc; induction ret as [|r ret IH]; intros c c' rc Hlen; simpl.
  - intros [= <- <-]. by rewrite app_nil_r.
  - destruct (if elig r then first_free (λ a, R a r) acc c else None) as [i|] eqn:E;
      (destruct (consume_exact elig R acc ret _) as [c1 rc1] eqn:E1;
       intros [= <- <-]).
    + destruct (elig r); [|done].
      pose proof (first_free_Some _ _ _ _ E) as (x & Hx & Hc & HRx).
      apply IH in E1 as (L1 & L2 & P); [|by rewrite length_insert].
      split; [done|]. split; [by simpl; rewrite L2|]. simpl.
      rewrite (select_false_insert _ _ _ _ Hx Hc). simpl.
      rewrite P, (HR _ _ HRx). by rewrite Permutation_middle.
    + apply IH in E1 as (L1 & L2 & P); [|done].
      split; [done|]. split; [by simpl; rewrite L2|done].
Qed.

Context (HR' : ∀ a b, kA a = kB b → R a b = true).

(** Maximality: an eligible returned occurrence left unmatched has no free
    accepted occurrence with its key. *)
Lemma consume_exact_maximal acc ret c c' rc :
  length c = length acc →
  consume_exact elig R acc ret c = (c', rc) →
  (∀ a, a ∈ select false acc c' → a ∈ select false acc c) ∧
  ∀ r a, r ∈ select false ret rc → elig r = true →
    a ∈ select false acc c' → kA a ≠ kB r.
Proof.
  revert c c' rc; induction ret as [|r ret IH]; intros c c' rc Hlen; simpl.
  - intros [= <- <-]. split; set_solver.
  - destruct (if elig r then first_free (λ a, R a r) acc c else None) as [i|] eqn:E;
      (destruct (consume_exact elig R acc ret _) as [c1 rc1] eqn:E1;
       intros [= <- <-]); simpl.
    + destruct (elig r); [|done].
      pose proof (first_free_Some _ _ _ _ E) as (x & Hx & Hc & HRx).
      apply IH in E1 as [Hsub Hmax]; [|by rewrite length_insert].
      split; [|done]. intros a Ha. eapply select_false_subset; eauto.
    + apply IH in E1 as [Hsub Hmax]; [|done].
      split; [done|]. intros r' a Hr He Ha Hk.
      apply elem_of_cons in Hr as [->|Hr]; [|by eapply Hmax].
      rewrite He in E.
      pose proof (first_free_None _ _ _ Hlen E a (Hsub _ Ha)) as Hno. simpl in Hno.
      rewrite HR' in Hno; done.
Qed.
End Keys.
End Greedy.


Lemma select_split {X} (l : list X) c :
  length c = length l → l ≡ₚ select true l c ++ select false l c.
Proof.
  revert c; induction l as [|x l IH]; intros [|b c]; simpl; try done.
  intros [= Hl]. specialize (IH _ Hl). destruct b; simpl.
  - by rewrite <- IH.
  - rewrite <- Permutation_middle. by rewrite <- IH.
Qed.

Lemma elem_of_select {X} b (l : list X) (c : list bool) x :
  x ∈ select b l c ↔ ∃ i, l !! i = Some x ∧ c !! i = Some b.
Proof.
  revert c; induction l as [|y l IH]; intros [|f c]; simpl.
  - set_solver.
  - set_solver.
  - split; [set_solver|]. intros ([|?] & ? & ?); done.
  - split.
    + destruct (Bool.eqb f b) eqn:E.
      * apply Bool.eqb_prop in E as ->. rewrite elem_of_cons. intros [->|H].
        -- by exists 0.
        -- apply IH in H as (i & ? & ?). by exists (S i).
      * intros (i & ? & ?)%IH. by exists (S i).
    + intros ([|i] & Hl & Hc); simpl in *.
      * simplify_eq. rewrite Bool.eqb_reflx. left.
      * assert (x ∈ select b l c) by (apply IH; eauto).
        destruct (Bool.eqb f b); [by right|done].
Qed.

(** On a list matched against itself, every eligible occurrence is consumed,
    on both sides. *)
Lemma consume_exact_self {A K} `{EqDecision K} (k : A → K)
    (elig : A → bool) (R : A → A → bool) (l : list A) c' rc :
  (∀ a b, R a b = true ↔ k a = k b) →
  (∀ a b, k a = k b → elig a = elig b) →
  consume_exact elig R l l (all_free l) = (c', rc) →
  length c' = length l ∧ length rc = length l ∧
  (∀ r, r ∈ select false l rc → elig r = false) ∧
  (∀ a, a ∈ select false l c' → elig a = false).
Proof.
  intros HR Helig E.
  assert (Hlen : length (all_free l) = length l) by apply length_replicate.
  destruct (consume_exact_perm k k elig R (λ a b, proj1 (HR a b)) _ _ _ _ _ Hlen E)
    as (L1 & L2 & P).
  destruct (consume_exact_maximal k k elig R (λ a b, proj1 (HR a b)) (λ a b, proj2 (HR a b))
              _ _ _ _ _ Hlen E)
    as [_ Hmax].
  rewrite select_all_free in P.
  pose proof (fmap_Permutation k _ _ (select_split l rc L2)) as S.
  rewrite fmap_app, P, Permutation_app_comm in S. apply Permutation_app_inv_l in S.
  assert (Hret : ∀ r, r ∈ select false l rc → elig r = false).
  { intros r Hr. destruct (elig r) eqn:He; [|done]. exfalso.
    assert (k r ∈ k <$> select false l c') as Hk.
    { rewrite S. by apply list_elem_of_fmap_2. }
    apply list_elem_of_fmap_1 in Hk as (a & Hka & Ha). by eapply Hmax. }
  split; [done|]. split; [done|]. split; [done|].
  intros a Ha. assert (k a ∈ k <$> select false l rc) as Hk.
  { rewrite <- S. by apply list_elem_of_fmap_2. }
  apply list_elem_of_fmap_1 in Hk as (r & Hkr & Hr).
  rewrite (Helig _ _ Hkr). auto.
Qed.

Lemma select_subset {X} b (l : list X) (c : list bool) x : x ∈ select b l c → x ∈ l.
Proof. rewrite elem_of_select. intros (i & ? & _). by eapply list_elem_of_lookup_2. Qed.

(** A flag that is set was set from the start, or by a matching occurrence. *)
Lemma consume_exact_flag {A B} (elig : B → bool) (R : A → B → bool)
    (acc : list A) (ret : list B) (c c' rc : list bool) (i : nat) a :
  consume_exact elig R acc ret c = (c', rc) →
  acc !! i = Some a → c' !! i = Some true →
  c !! i = Some true ∨ ∃ r, r ∈ select true ret rc ∧ R a r = true.
Proof.
  revert c c' rc; induction ret as [|r ret IH]; intros c c' rc; simpl.
  - intros [= <- <-]. auto.
  - destruct (if elig r then first_free (λ a, R a r) acc c else None) as [k|] eqn:E;
      (destruct (consume_exact elig R acc ret _) as [c1 rc1] eqn:E1;
       intros [= <- <-] Ha Hc; destruct (IH _ _ _ E1 Ha Hc) as [H|(r' & ? & ?)]);
      simpl; eauto.
    + destruct (decide (k = i)) as [->|Hk].
      * destruct (elig r); [|done]. apply first_free_Some in E as (x & Hx & _ & HR).
        simplify_eq. right. exists r. split; [left|done].
      * rewrite list_lookup_insert_ne in H by done. auto.
    + right. exists r'. split; [by right|done].
Qed.

Lemma consume_exact_elig {A B} (elig : B → bool) (R : A → B → bool)
    (acc : list A) (ret : list B) (c c' rc : list bool) r :
  consume_exact elig R acc ret c = (c', rc) → r ∈ select true ret rc → elig r = true.
Proof.
  revert c c' rc; induction ret as [|x ret IH]; intros c c' rc; simpl.
  - intros [= <- <-] ?%not_elem_of_nil; done.
  - destruct (elig x) eqn:Ex; [destruct (first_free _ acc c)|];
      destruct (consume_exact elig R acc ret _) as [c1 rc1] eqn:E; intros [= <- <-]; simpl; eauto.
    intros [->|?]%elem_of_cons; eauto.
Qed.

Lemma select_sublist {X} b (l : list X) (c : list bool) : select b l c `sublist_of` l.
Proof.
  revert c; induction l as [|x l IH]; intros [|f c]; simpl; auto using sublist_nil_l.
  destruct (eqb f b); [by apply sublist_skip|by apply sublist_cons].
Qed.
