(* ===== verification/StreamEvents.v ===== *)
(** * Stream events and their two representations

    [internal/engine/types.go] defines the canonical [StreamEvent] the adapters
    produce, a struct of optional fields of which exactly one is set.  The
    plugin ABI event is a protobuf [oneof]; [internal/engine/pbconv/pbconv.go]
    converts between the two: [ToPBStreamEvent] loses the distinction between
    [BlockStop] and [ToolCallEnd] (the ABI closes every block with a
    [ContentBlockStop] that carries only an index), and [BlockKindTracker]
    recovers it from the blocks it has seen open.

    The protobuf types are generated by the plugin SDK; the model has their
    data only.  A message-valued [oneof] arm always carries its message, as
    decoding and [ToPBStreamEvent] both guarantee, so the arms are not optional
    and the [== nil] guards on them have no counterpart. *)

From stdpp Require Import base list strings gmap sets numbers.
From S2P Require Import Prelude.

(** ** The plugin ABI's events *)

(** [ToolInvocationKind] is an open protobuf enum: any [int32] can arrive. *)
Definition ToolInvocationFunction : Z := 0.
Definition ToolInvocationFreeform : Z := 1.

Record ToolCallRef := mkToolCallRef {
  tcr_id : string;
  tcr_name : string;
  tcr_signature : string;
  tcr_kind : Z }.

(** The [block] oneof of [ContentBlockStart]; [BlockUnset] when no arm is set. *)
Inductive pbBlock :=
| BlockText
| BlockThinking
| BlockProvider (kind : string)
| BlockToolCall (ref : ToolCallRef)
| BlockUnset.

Inductive pbEvent :=
| EvTextDelta (text : string)
| EvThinkingDelta (text : string)
| EvMessageStart (role id model : string)
| EvContentBlockStart (index : Z) (block : pbBlock)
| EvContentBlockStop (index : Z)
| EvToolCallDelta (index : Z) (arguments : string) (input : option string)
| EvSignatureDelta (sig : string)
| EvMessageStop (finish_reason : string)
| EvUsage (input output cache_read cache_write : Z)
| EvError (code : Z) (message : string)
| EvUnset.

#[export] Instance ToolCallRef_eq_dec : EqDecision ToolCallRef.
Proof. solve_decision. Defined.
#[export] Instance pbBlock_eq_dec : EqDecision pbBlock.
Proof. solve_decision. Defined.
#[export] Instance pbEvent_eq_dec : EqDecision pbEvent.
Proof. solve_decision. Defined.

(** ** The engine's events *)

(** [BlockKind] is a Go [int] with three named values. *)
Inductive BlockKind :=
| BlockKindText | BlockKindThinking | BlockKindProvider | BlockKindOther (k : Z).

Record BlockStart := mkBlockStart {
  bs_index : Z; bs_kind : BlockKind; bs_provider_kind : string }.

Record ToolCallStart := mkToolCallStart {
  tcs_index : Z; tcs_id : string; tcs_name : string;
  tcs_signature : string; tcs_kind : Z }.

Record ToolCallDelta := mkToolCallDelta {
  tcd_index : Z; tcd_arguments : string; tcd_input : option string }.

Record StreamMessageStart := mkStreamMessageStart {
  sms_role : string; sms_id : string; sms_model : string }.

Record StreamUsage := mkStreamUsage {
  su_input : Z; su_output : Z; su_cache_read : Z; su_cache_write : Z }.

Record StreamError := mkStreamError { se_code : Z; se_message : string }.

Record StreamEvent := mkStreamEvent {
  TextDelta : option string;
  ThinkingDelta : option string;
  evBlockStart : option BlockStart;
  evBlockStop : option Z;
  MessageStart : option StreamMessageStart;
  evToolCallStart : option ToolCallStart;
  evToolCallDelta : option ToolCallDelta;
  evToolCallEnd : option Z;
  FinishReason : string;
  Usage : option StreamUsage;
  Error : option StreamError;
  SignatureDelta : option string }.

#[export] Instance BlockKind_eq_dec : EqDecision BlockKind.
Proof. solve_decision. Defined.
#[export] Instance BlockStart_eq_dec : EqDecision BlockStart.
Proof. solve_decision. Defined.
#[export] Instance ToolCallStart_eq_dec : EqDecision ToolCallStart.
Proof. solve_decision. Defined.

(** The zero value of the struct, and one value per single-field event. *)
Definition ev0 : StreamEvent :=
  mkStreamEvent None None None None None None None None "" None None None.

Definition ev_text s := mkStreamEvent (Some s) None None None None None None None "" None None None.
Definition ev_thinking s := mkStreamEvent None (Some s) None None None None None None "" None None None.
Definition ev_block_start b := mkStreamEvent None None (Some b) None None None None None "" None None None.
Definition ev_block_stop i := mkStreamEvent None None None (Some i) None None None None "" None None None.
Definition ev_message_start m := mkStreamEvent None None None None (Some m) None None None "" None None None.
Definition ev_tool_start t := mkStreamEvent None None None None None (Some t) None None "" None None None.
Definition ev_tool_delta t := mkStreamEvent None None None None None None (Some t) None "" None None None.
Definition ev_tool_end i := mkStreamEvent None None None None None None None (Some i) "" None None None.
Definition ev_finish s := mkStreamEvent None None None None None None None None s None None None.
Definition ev_usage u := mkStreamEvent None None None None None None None None "" (Some u) None None.
Definition ev_error e := mkStreamEvent None None None None None None None None "" None (Some e) None.
Definition ev_signature s := mkStreamEvent None None None None None None None None "" None None (Some s).

(** A canonical event sets one field. *)
Inductive single : StreamEvent → Prop :=
| single_empty : single ev0
| single_text s : single (ev_text s)
| single_thinking s : single (ev_thinking s)
| single_block_start b : single (ev_block_start b)
| single_block_stop i : single (ev_block_stop i)
| single_message_start m : single (ev_message_start m)
| single_tool_start t : single (ev_tool_start t)
| single_tool_delta d : single (ev_tool_delta d)
| single_tool_end i : single (ev_tool_end i)
| single_finish r : r ≠ "" → single (ev_finish r)
| single_usage u : single (ev_usage u)
| single_error e : single (ev_error e)
| single_signature s : single (ev_signature s).

(** ** [ToPBStreamEvent]

    The [else if] chain, in the source's order; [int32(..)] conversions wrap. *)
Definition ToPBStreamEvent (e : StreamEvent) : pbEvent :=
  match TextDelta e with
  | Some s => EvTextDelta s
  | None =>
  match ThinkingDelta e with
  | Some s => EvThinkingDelta s
  | None =>
  match evToolCallStart e with
  | Some t =>
      EvContentBlockStart (int32_of (tcs_index t))
        (BlockToolCall (mkToolCallRef (tcs_id t) (tcs_name t) (tcs_signature t)
                                      (int32_of (tcs_kind t))))
  | None =>
  match MessageStart e with
  | Some m => EvMessageStart (sms_role m) (sms_id m) (sms_model m)
  | None =>
  match evBlockStart e with
  | Some b =>
      match bs_kind b with
      | BlockKindText => EvContentBlockStart (int32_of (bs_index b)) BlockText
      | BlockKindThinking => EvContentBlockStart (int32_of (bs_index b)) BlockThinking
      | BlockKindProvider =>
          EvContentBlockStart (int32_of (bs_index b)) (BlockProvider (bs_provider_kind b))
      | BlockKindOther _ => EvUnset
      end
  | None =>
  match SignatureDelta e with
  | Some s => EvSignatureDelta s
  | None =>
  match evToolCallDelta e with
  | Some d => EvToolCallDelta (int32_of (tcd_index d)) (tcd_arguments d) (tcd_input d)
  | None =>
  match evBlockStop e with
  | Some i => EvContentBlockStop (int32_of i)
  | None =>
  match evToolCallEnd e with
  | Some i => EvContentBlockStop (int32_of i)
  | None =>
  if negb (String.eqb (FinishReason e) "") then EvMessageStop (FinishReason e) else
  match Usage e with
  | Some u => EvUsage (int32_of (su_input u)) (int32_of (su_output u))
                      (int32_of (su_cache_read u)) (int32_of (su_cache_write u))
  | None =>
  match Error e with
  | Some x => EvError (int32_of (se_code x)) (se_message x)
  | None => EvUnset
  end end end end end end end end end end end.

(** ** [BlockKindTracker] *)

Inductive blockKind := blockKindText | blockKindThinking | blockKindProvider.

Record openBlock := mkOpenBlock { ob_kind : blockKind; ob_index : Z }.

Record BlockKindTracker := mkTracker {
  bt_openNonTool : option openBlock;
  bt_openTools : gmap Z Z;
  bt_seen : gset Z }.

Definition tracker0 : BlockKindTracker := mkTracker None ∅ ∅.

Inductive trackerErr :=
| TrackStartWhileNonTool (idx : Z) (open : openBlock)
| TrackStartWhileTools (idx : Z) (n : nat)
| TrackIndexReused (idx : Z)
| TrackDeltaNoTool (idx : Z)
| TrackDeltaWrongFamily (idx : Z)
| TrackDeltaFreeformInput (idx : Z)
| TrackStopMismatch (idx : Z) (open : openBlock)
| TrackStopNoBlock (idx : Z).

Definition startNonTool (t : BlockKindTracker) (idx : Z) (kind : blockKind)
    : res trackerErr BlockKindTracker :=
  match bt_openNonTool t with
  | Some o => Err (TrackStartWhileNonTool idx o)
  | None =>
      if decide (bt_openTools t ≠ ∅) then Err (TrackStartWhileTools idx (size (bt_openTools t)))
      else Ok (mkTracker (Some (mkOpenBlock kind idx)) (bt_openTools t) ({[idx]} ∪ bt_seen t))
  end.

Definition FromPBStreamEvent (t : BlockKindTracker) (e : pbEvent)
    : res trackerErr (BlockKindTracker * StreamEvent) :=
  match e with
  | EvMessageStart role id model => Ok (t, ev_message_start (mkStreamMessageStart role id model))
  | EvTextDelta s => Ok (t, ev_text s)
  | EvThinkingDelta s => Ok (t, ev_thinking s)
  | EvContentBlockStart idx b =>
      if decide (idx ∈ bt_seen t) then Err (TrackIndexReused idx) else
      match b with
      | BlockToolCall r =>
          match bt_openNonTool t with
          | Some o => Err (TrackStartWhileNonTool idx o)
          | None =>
              Ok (mkTracker None (<[idx := tcr_kind r]> (bt_openTools t)) ({[idx]} ∪ bt_seen t),
                  ev_tool_start (mkToolCallStart idx (tcr_id r) (tcr_name r)
                                                 (tcr_signature r) (tcr_kind r)))
          end
      | BlockText =>
          t' ←? startNonTool t idx blockKindText;
          Ok (t', ev_block_start (mkBlockStart idx BlockKindText ""))
      | BlockThinking =>
          t' ←? startNonTool t idx blockKindThinking;
          Ok (t', ev_block_start (mkBlockStart idx BlockKindThinking ""))
      | BlockProvider kind =>
          t' ←? startNonTool t idx blockKindProvider;
          Ok (t', ev_block_start (mkBlockStart idx BlockKindProvider kind))
      | BlockUnset => Ok (t, ev0)
      end
  | EvSignatureDelta s => Ok (t, ev_signature s)
  | EvToolCallDelta idx args input =>
      match bt_openTools t !! idx with
      | None => Err (TrackDeltaNoTool idx)
      | Some kind =>
          if decide (kind = ToolInvocationFreeform) then
            if bool_decide (input = None) || negb (String.eqb args "")
            then Err (TrackDeltaWrongFamily idx)
            else Ok (t, ev_tool_delta (mkToolCallDelta idx args input))
          else if bool_decide (input ≠ None) then Err (TrackDeltaFreeformInput idx)
          else Ok (t, ev_tool_delta (mkToolCallDelta idx args input))
      end
  | EvContentBlockStop idx =>
      match bt_openNonTool t with
      | Some o =>
          if decide (idx = ob_index o)
          then Ok (mkTracker None (bt_openTools t) (bt_seen t), ev_block_stop idx)
          else Err (TrackStopMismatch idx o)
      | None =>
          if decide (is_Some (bt_openTools t !! idx))
          then Ok (mkTracker None (delete idx (bt_openTools t)) (bt_seen t), ev_tool_end idx)
          else Err (TrackStopNoBlock idx)
      end
  | EvMessageStop r => Ok (t, ev_finish r)
  | EvUsage i o r w => Ok (t, ev_usage (mkStreamUsage i o r w))
  | EvError c m => Ok (t, ev_error (mkStreamError c m))
  | EvUnset => Ok (t, ev0)
  end.
