(* ===== verification/Discipline.v ===== *)
(** * The stream discipline

    Two implementations of one set of per-event rules:

    - [validateAcceptedStream] ([internal/plugin/streamverify.go]) checks a
      whole slice of accepted events;
    - [streamDisciplineWalker] ([internal/plugin/stream_enforce.go]) checks one
      event at a time, so that a violating event is rejected before it is
      accepted into the output.

    The source says the walker mirrors the validator "exactly (same
    transitions, same error texts)".  [validate_is_walk] proves it.  The walker's
    reachable states satisfy [walker_inv]; [walk_tracks] shows that an event
    stream the walker accepts never makes the block-kind tracker fail. *)

From stdpp Require Import base list strings gmap sets numbers.
From S2P Require Import Prelude StreamEvents.

(** ** Shared vocabulary *)

Inductive openBlockKind := textBlockOpen | thinkingBlockOpen | providerBlockOpen.

Record openNonTool := mkOpenNonTool { nt_index : Z; nt_kind : openBlockKind }.

#[export] Instance openBlockKind_eq_dec : EqDecision openBlockKind.
Proof. solve_decision. Defined.
#[export] Instance openNonTool_eq_dec : EqDecision openNonTool.
Proof. solve_decision. Defined.

Inductive deltaFamilyErr :=
| FunctionCarriesFreeform
| FreeformWrongFamily
| UnknownInvocationKind (kind : Z).

(** One constructor per error text of the two implementations. *)
Inductive streamErr :=
| EventAfterError (pos : nat)
| EventAfterMessageStop (pos : nat)
| MessageStopWhileOpen (pos : nat)
| IndexReused (idx : Z) (pos : nat)
| NonToolWhileNonTool (pos : nat) (open : openBlockKind)
| NonToolWhileTool (pos : nat)
| ToolWhileNonTool (pos : nat)
| StopNamesNoBlock (pos : nat)
| TextDeltaInside (pos : nat) (open : openBlockKind)
| TextDeltaWhileTool (pos : nat)
| ThinkingDeltaInside (pos : nat) (open : openBlockKind)
| ThinkingDeltaWhileTool (pos : nat)
| SignatureUnbound
| ToolDeltaNoBlock (pos : nat) (idx : Z)
| ToolDeltaFamily (pos : nat) (why : deltaFamilyErr)
| EndsWithOpenBlock.

Definition validateStreamToolDeltaFamily (kind : Z) (arguments : string)
    (input : option string) : res deltaFamilyErr unit :=
  if decide (kind = ToolInvocationFunction) then
    if bool_decide (input ≠ None) then Err FunctionCarriesFreeform else Ok tt
  else if decide (kind = ToolInvocationFreeform) then
    if bool_decide (input = None) || negb (String.eqb arguments "")
    then Err FreeformWrongFamily else Ok tt
  else Err (UnknownInvocationKind kind).

(** ** [validateAcceptedStream] *)

Module Accepted.

(** The loop's local variables. *)
Record vars := mkVars {
  nonTool : option openNonTool;
  openTools : gmap Z Z;
  seen : gset Z;
  sawError : bool;
  messageStopped : bool;
  spanOpen : bool;
  sawText : bool }.

Definition vars0 : vars := mkVars None ∅ ∅ false false false false.

Definition toolsOpen (v : vars) : bool := bool_decide (openTools v ≠ ∅).

(** One of the three non-tool arms of the start switch. *)
Definition startNonToolBlock (v : vars) (i : nat) (idx : Z) (k : openBlockKind)
    : res streamErr vars :=
  match nonTool v with
  | Some o => Err (NonToolWhileNonTool i (nt_kind o))
  | None =>
      if toolsOpen v then Err (NonToolWhileTool i)
      else Ok (mkVars (Some (mkOpenNonTool idx k)) (openTools v) ({[idx]} ∪ seen v)
                      (sawError v) (messageStopped v) false (sawText v))
  end.

(** The loop body at position [i]. *)
Definition body (i : nat) (v : vars) (ev : pbEvent) : res streamErr vars :=
  if sawError v then Err (EventAfterError i) else
  if messageStopped v &&
     negb (match ev with EvUsage _ _ _ _ | EvError _ _ => true | _ => false end)
  then Err (EventAfterMessageStop i) else
  match ev with
  | EvError _ _ =>
      Ok (mkVars (nonTool v) (openTools v) (seen v) true (messageStopped v)
                 (spanOpen v) (sawText v))
  | EvUsage _ _ _ _ => Ok v
  | EvMessageStart _ _ _ => Ok v
  | EvMessageStop _ =>
      if bool_decide (nonTool v ≠ None) || toolsOpen v then Err (MessageStopWhileOpen i)
      else Ok (mkVars (nonTool v) (openTools v) (seen v) (sawError v) true
                      (spanOpen v) (sawText v))
  | EvContentBlockStart idx b =>
      if decide (idx ∈ seen v) then Err (IndexReused idx i) else
      match b with
      | BlockText => startNonToolBlock v i idx textBlockOpen
      | BlockThinking => startNonToolBlock v i idx thinkingBlockOpen
      | BlockProvider _ => startNonToolBlock v i idx providerBlockOpen
      | BlockToolCall r =>
          match nonTool v with
          | Some _ => Err (ToolWhileNonTool i)
          | None =>
              Ok (mkVars None (<[idx := tcr_kind r]> (openTools v)) ({[idx]} ∪ seen v)
                         (sawError v) (messageStopped v) false (sawText v))
          end
      | BlockUnset =>
          Ok (mkVars (nonTool v) (openTools v) ({[idx]} ∪ seen v) (sawError v)
                     (messageStopped v) false (sawText v))
      end
  | EvContentBlockStop idx =>
      match openTools v !! idx with
      | Some _ =>
          Ok (mkVars (nonTool v) (delete idx (openTools v)) (seen v) (sawError v)
                     (messageStopped v) (spanOpen v) (sawText v))
      | None =>
          match nonTool v with
          | Some o =>
              if decide (nt_index o = idx)
              then Ok (mkVars None (openTools v) (seen v) (sawError v)
                              (messageStopped v) false (sawText v))
              else Err (StopNamesNoBlock i)
          | None => Err (StopNamesNoBlock i)
          end
      end
  | EvTextDelta _ =>
      match nonTool v with
      | Some o =>
          if decide (nt_kind o = textBlockOpen)
          then Ok (mkVars (nonTool v) (openTools v) (seen v) (sawError v)
                          (messageStopped v) true true)
          else Err (TextDeltaInside i (nt_kind o))
      | None =>
          if toolsOpen v then Err (TextDeltaWhileTool i)
          else Ok (mkVars None (openTools v) (seen v) (sawError v)
                          (messageStopped v) true true)
      end
  | EvThinkingDelta _ =>
      match nonTool v with
      | Some o =>
          if decide (nt_kind o = thinkingBlockOpen)
          then Ok (mkVars (nonTool v) (openTools v) (seen v) (sawError v)
                          (messageStopped v) true true)
          else Err (ThinkingDeltaInside i (nt_kind o))
      | None =>
          if toolsOpen v then Err (ThinkingDeltaWhileTool i)
          else Ok (mkVars None (openTools v) (seen v) (sawError v)
                          (messageStopped v) true true)
      end
  | EvSignatureDelta _ =>
      let inText := match nonTool v with
                    | Some o => bool_decide (nt_kind o = textBlockOpen)
                                || bool_decide (nt_kind o = thinkingBlockOpen)
                    | None => false
                    end in
      let inProvider := match nonTool v with
                        | Some o => bool_decide (nt_kind o = providerBlockOpen)
                        | None => false
                        end in
      if spanOpen v || inText
      then Ok (mkVars (nonTool v) (openTools v) (seen v) (sawError v)
                      (messageStopped v) false (sawText v))
      else if inProvider || toolsOpen v || negb (sawText v) then Err SignatureUnbound
      else Ok v
  | EvToolCallDelta idx args input =>
      match openTools v !! idx with
      | None => Err (ToolDeltaNoBlock i idx)
      | Some kind =>
          match validateStreamToolDeltaFamily kind args input with
          | Err why => Err (ToolDeltaFamily i why)
          | Ok _ => Ok v
          end
      end
  | EvUnset => Ok v
  end.

Fixpoint loop (i : nat) (v : vars) (events : list pbEvent) : res streamErr vars :=
  match events with
  | [] => Ok v
  | ev :: events' => v' ←? body i v ev; loop (S i) v' events'
  end.

End Accepted.

Definition validateAcceptedStream (events : list pbEvent) : res streamErr unit :=
  v ←? Accepted.loop 0 Accepted.vars0 events;
  if negb (Accepted.sawError v)
     && (bool_decide (Accepted.nonTool v ≠ None) || Accepted.toolsOpen v)
  then Err EndsWithOpenBlock else Ok tt.

(** ** [streamDisciplineWalker] *)

Record streamDisciplineWalker := mkWalker {
  nonTool : option openNonTool;
  openTools : gmap Z Z;
  seen : gset Z;
  sawError : bool;
  messageStopped : bool;
  spanOpen : bool;
  sawText : bool;
  pos : nat }.

Definition walker0 : streamDisciplineWalker :=
  mkWalker None ∅ ∅ false false false false 0.

(** The assignments the methods make, one per field. *)
Definition set_nonTool x (w : streamDisciplineWalker) :=
  mkWalker x (openTools w) (seen w) (sawError w) (messageStopped w) (spanOpen w) (sawText w) (pos w).
Definition set_openTools x (w : streamDisciplineWalker) :=
  mkWalker (nonTool w) x (seen w) (sawError w) (messageStopped w) (spanOpen w) (sawText w) (pos w).
Definition set_seen x (w : streamDisciplineWalker) :=
  mkWalker (nonTool w) (openTools w) x (sawError w) (messageStopped w) (spanOpen w) (sawText w) (pos w).
Definition set_sawError x (w : streamDisciplineWalker) :=
  mkWalker (nonTool w) (openTools w) (seen w) x (messageStopped w) (spanOpen w) (sawText w) (pos w).
Definition set_messageStopped x (w : streamDisciplineWalker) :=
  mkWalker (nonTool w) (openTools w) (seen w) (sawError w) x (spanOpen w) (sawText w) (pos w).
Definition set_spanOpen x (w : streamDisciplineWalker) :=
  mkWalker (nonTool w) (openTools w) (seen w) (sawError w) (messageStopped w) x (sawText w) (pos w).
Definition set_sawText x (w : streamDisciplineWalker) :=
  mkWalker (nonTool w) (openTools w) (seen w) (sawError w) (messageStopped w) (spanOpen w) x (pos w).
Definition set_pos x (w : streamDisciplineWalker) :=
  mkWalker (nonTool w) (openTools w) (seen w) (sawError w) (messageStopped w) (spanOpen w) (sawText w) x.

Definition startNonToolAt (w : streamDisciplineWalker) (p : nat) (idx : Z) (k : openBlockKind)
    : streamDisciplineWalker * option streamErr :=
  if nonTool w is Some o then (w, Some (NonToolWhileNonTool p (nt_kind o)))
  else if bool_decide (openTools w ≠ ∅) then (w, Some (NonToolWhileTool p))
  else (set_nonTool (Some (mkOpenNonTool idx k)) w, None).

(** [walk] mutates the receiver before it can fail: [pos] always advances, and
    a rejected start has already cleared [spanOpen] and possibly recorded its
    index. The model returns the mutated receiver along with the error. *)
Definition walk (w : streamDisciplineWalker) (ev : pbEvent)
    : streamDisciplineWalker * option streamErr :=
  let p := pos w in
  let w := set_pos (S p) w in
  if sawError w then (w, Some (EventAfterError p)) else
  if messageStopped w &&
     (match ev with EvUsage _ _ _ _ | EvError _ _ => false | _ => true end)
  then (w, Some (EventAfterMessageStop p)) else
  match ev with
  | EvError _ _ => (set_sawError true w, None)
  | EvUsage _ _ _ _ | EvMessageStart _ _ _ => (w, None)
  | EvMessageStop _ =>
      if bool_decide (nonTool w ≠ None) || bool_decide (openTools w ≠ ∅)
      then (w, Some (MessageStopWhileOpen p))
      else (set_messageStopped true w, None)
  | EvContentBlockStart idx b =>
      let w := set_spanOpen false w in
      if decide (idx ∈ seen w) then (w, Some (IndexReused idx p)) else
      let w := set_seen ({[idx]} ∪ seen w) w in
      match b with
      | BlockText => startNonToolAt w p idx textBlockOpen
      | BlockThinking => startNonToolAt w p idx thinkingBlockOpen
      | BlockProvider _ => startNonToolAt w p idx providerBlockOpen
      | BlockToolCall r =>
          if nonTool w is Some _ then (w, Some (ToolWhileNonTool p))
          else (set_openTools (<[idx := tcr_kind r]> (openTools w)) w, None)
      | BlockUnset => (w, None)
      end
  | EvContentBlockStop idx =>
      if openTools w !! idx is Some _
      then (set_openTools (delete idx (openTools w)) w, None)
      else if nonTool w is Some o then
        if decide (nt_index o = idx) then (set_spanOpen false (set_nonTool None w), None)
        else (w, Some (StopNamesNoBlock p))
      else (w, Some (StopNamesNoBlock p))
  | EvTextDelta _ =>
      if nonTool w is Some o then
        if decide (nt_kind o ≠ textBlockOpen) then (w, Some (TextDeltaInside p (nt_kind o)))
        else (set_sawText true (set_spanOpen true w), None)
      else if bool_decide (openTools w ≠ ∅) then (w, Some (TextDeltaWhileTool p))
      else (set_sawText true (set_spanOpen true w), None)
  | EvThinkingDelta _ =>
      if nonTool w is Some o then
        if decide (nt_kind o ≠ thinkingBlockOpen)
        then (w, Some (ThinkingDeltaInside p (nt_kind o)))
        else (set_sawText true (set_spanOpen true w), None)
      else if bool_decide (openTools w ≠ ∅) then (w, Some (ThinkingDeltaWhileTool p))
      else (set_sawText true (set_spanOpen true w), None)
  | EvSignatureDelta _ =>
      if spanOpen w || (match nonTool w with
                        | Some o => bool_decide (nt_kind o = textBlockOpen
                                                 ∨ nt_kind o = thinkingBlockOpen)
                        | None => false end)
      then (set_spanOpen false w, None)
      else if (match nonTool w with
               | Some o => bool_decide (nt_kind o = providerBlockOpen)
               | None => false end)
              || bool_decide (openTools w ≠ ∅) || negb (sawText w)
      then (w, Some SignatureUnbound)
      else (w, None)
  | EvToolCallDelta idx args input =>
      if openTools w !! idx is Some kind then
        match validateStreamToolDeltaFamily kind args input with
        | Err why => (w, Some (ToolDeltaFamily p why))
        | Ok _ => (w, None)
        end
      else (w, Some (ToolDeltaNoBlock p idx))
  | EvUnset => (w, None)
  end.

(** [if err := w.walk(ev); err != nil { return err }] *)
Definition walkR (w : streamDisciplineWalker) (ev : pbEvent)
    : res streamErr streamDisciplineWalker :=
  match walk w ev with
  | (w', None) => Ok w'
  | (_, Some e) => Err e
  end.

Definition walkAll : streamDisciplineWalker → list pbEvent → res streamErr streamDisciplineWalker :=
  foldM walkR.

(** [end()], the missing-stop rule. *)
Definition walker_end (w : streamDisciplineWalker) : res streamErr unit :=
  if negb (sawError w) && (bool_decide (nonTool w ≠ None) || bool_decide (openTools w ≠ ∅))
  then Err EndsWithOpenBlock else Ok tt.

(** ** The two implementations agree *)

Definition agree (i : nat) (v : Accepted.vars) (w : streamDisciplineWalker) : Prop :=
  w = mkWalker (Accepted.nonTool v) (Accepted.openTools v) (Accepted.seen v)
        (Accepted.sawError v) (Accepted.messageStopped v) (Accepted.spanOpen v)
        (Accepted.sawText v) i.

Ltac split_all :=
  repeat (match goal with
          | |- context [decide ?P] => destruct (decide P)
          | |- context [bool_decide ?P] => destruct (bool_decide_reflect P)
          | |- context [match ?x with _ => _ end] => case_inner x
          end; simpl in *; simplify_eq; try done).

Lemma body_walk i v w ev :
  agree i v w →
  match Accepted.body i v ev with
  | Ok v' => ∃ w', walk w ev = (w', None) ∧ agree (S i) v' w'
  | Err e => snd (walk w ev) = Some e
  end.
Proof.
  destruct v as [nt ot sn se ms so st]; unfold agree; intros ->.
  unfold Accepted.body, walk, Accepted.toolsOpen; simpl.
  destruct se; [done|]. destruct ms; destruct ev as [| | |idx []| | | | | | |]; simpl;
    unfold startNonToolAt, Accepted.startNonToolBlock, Accepted.toolsOpen; simpl;
    eauto; split_all; eauto; try naive_solver.
Qed.

Lemma loop_walkAll events i v w :
  agree i v w →
  match Accepted.loop i v events with
  | Ok v' => ∃ w', walkAll w events = Ok w' ∧ agree (i + length events) v' w'
  | Err e => walkAll w events = Err e
  end.
Proof.
  revert i v w; induction events as [|ev events IH]; intros i v w Hag; simpl.
  - exists w. split; [done|]. by rewrite Nat.add_0_r.
  - pose proof (body_walk i v w ev Hag) as Hb.
    destruct (Accepted.body i v ev) as [v1|e]; simpl.
    + destruct Hb as (w1 & Hw & Hag1).
      assert (walkAll w (ev :: events) = walkAll w1 events) as ->
        by (unfold walkAll; simpl; unfold walkR at 1; by rewrite Hw).
      rewrite Nat.add_succ_r. exact (IH (S i) v1 w1 Hag1).
    + unfold walkAll; simpl. unfold walkR at 1.
      destruct (walk w ev) as [? ?]; simpl in *; by subst.
Qed.

Lemma validate_walk_eq events :
  validateAcceptedStream events = (w ←? walkAll walker0 events; walker_end w).
Proof.
  unfold validateAcceptedStream.
  pose proof (loop_walkAll events 0 Accepted.vars0 walker0 eq_refl) as H.
  destruct (Accepted.loop 0 Accepted.vars0 events) as [v|e]; simpl.
  - destruct H as (w & -> & ->). simpl. unfold walker_end, Accepted.toolsOpen; simpl. done.
  - by rewrite H.
Qed.

(** C1. The batch validator and the incremental walker are the same judgement:
    on every event sequence [validateAcceptedStream] returns exactly what
    feeding the events one at a time to a fresh [streamDisciplineWalker] and
    then calling [end] returns, the error and its event number included. *)
Theorem validate_is_walk events :
  validateAcceptedStream events = (w ←? walkAll walker0 events; walker_end w).
Proof. apply validate_walk_eq. Qed.

(** ** Invariants of the walker *)

(** Non-tool blocks are exclusive, every open block's index has been recorded,
    and nothing is open once the message has stopped. *)
Record walker_inv (w : streamDisciplineWalker) : Prop := {
  inv_exclusive : nonTool w ≠ None → openTools w = ∅;
  inv_tools_seen : dom (openTools w) ⊆ seen w;
  inv_nonTool_seen : ∀ o, nonTool w = Some o → nt_index o ∈ seen w;
  inv_stopped : messageStopped w = true → nonTool w = None ∧ openTools w = ∅ }.

Lemma walker_inv_0 : walker_inv walker0.
Proof. split; try done; set_solver. Qed.

(** Split a successful [walk] into its branches. *)
Ltac split_walk H :=
  unfold walkR, walk, startNonToolAt in H; simpl in H;
  repeat (match type of H with
          | context [decide ?P] => destruct (decide P)
          | context [bool_decide ?P] => destruct (bool_decide_reflect P)
          | context [match ?x with _ => _ end] => case_inner x
          end; simpl in *; simplify_eq; try done);
  inv_ok.

Lemma dom_insert_seen (m : gmap Z Z) (s : gset Z) i k :
  dom m ⊆ s → dom (<[i := k]> m) ⊆ {[i]} ∪ s.
Proof. rewrite dom_insert_L. set_solver. Qed.

Lemma dom_delete_seen (m : gmap Z Z) (s : gset Z) i : dom m ⊆ s → dom (delete i m) ⊆ s.
Proof. rewrite dom_delete_L. set_solver. Qed.

Lemma dom_union_seen (m : gmap Z Z) (s : gset Z) i : dom m ⊆ s → dom m ⊆ {[i]} ∪ s.
Proof. set_solver. Qed.

#[export] Hint Resolve dom_insert_seen dom_delete_seen dom_union_seen : torana.

Ltac solve_walker_inv :=
  rewrite ?andb_true_r in *; intros; simplify_eq;
  first
    [ done
    | by apply dec_stable
    | split; by apply dec_stable
    | apply elem_of_union_l; by apply elem_of_singleton
    | apply elem_of_union_r; by auto
    | match goal with H : _ → ?m = ∅ |- delete _ ?m = ∅ => rewrite H, delete_empty by done; done end
    | match goal with H : true = true → _ ∧ _ |- _ =>
        destruct (H eq_refl) as [? Hm]; by rewrite Hm, delete_empty end ].

Lemma walkR_inv w ev w' : walker_inv w → walkR w ev = Ok w' → walker_inv w'.
Proof.
  destruct w as [nt ot sn se ms so st p]. intros [Hex Hts Hns Hst] H; simpl in *.
  destruct ev as [| | |idx []| | | | | | |]; split_walk H;
    (split; simpl in *; auto with torana); solve_walker_inv.
Qed.

Lemma walkAll_inv events w : walkAll walker0 events = Ok w → walker_inv w.
Proof.
  apply (foldM_ind walkR (λ _ w, walker_inv w)); eauto using walkR_inv, walker_inv_0.
Qed.

(** ** The walker and the block-kind tracker

    [runOnStreamChunk] converts every forwarded event back with
    [FromPBStreamEvent] and calls a conversion error "unreachable" on the
    verified path.  [tracks w t]: the tracker has recorded what the walker has. *)

Definition kind_of (k : openBlockKind) : blockKind :=
  match k with
  | textBlockOpen => blockKindText
  | thinkingBlockOpen => blockKindThinking
  | providerBlockOpen => blockKindProvider
  end.

Record tracks (w : streamDisciplineWalker) (t : BlockKindTracker) : Prop := {
  tr_nonTool : bt_openNonTool t
               = (λ o, mkOpenBlock (kind_of (nt_kind o)) (nt_index o)) <$> nonTool w;
  tr_tools : bt_openTools t = openTools w;
  tr_seen : bt_seen t ⊆ seen w }.

Lemma tracks_0 : tracks walker0 tracker0.
Proof. by split. Qed.

Lemma union_seen_mono (a b : gset Z) i : a ⊆ b → {[i]} ∪ a ⊆ {[i]} ∪ b.
Proof. set_solver. Qed.
Lemma union_seen_weaken (a b : gset Z) i : a ⊆ b → a ⊆ {[i]} ∪ b.
Proof. set_solver. Qed.
#[export] Hint Resolve union_seen_mono union_seen_weaken : torana.

Lemma walk_tracks_start w t idx b w' :
  tracks w t → walkR w (EvContentBlockStart idx b) = Ok w' →
  ∃ t' e, FromPBStreamEvent t (EvContentBlockStart idx b) = Ok (t', e) ∧ tracks w' t'.
Proof.
  destruct w as [nt ot sn se ms so st p], t as [tn tt ts]; intros [Hn Ht Hs] H; simpl in *.
  subst tn tt. destruct b; split_walk H; simpl in *;
    unfold FromPBStreamEvent, startNonTool; simpl;
    (destruct (decide (idx ∈ ts)); [exfalso; set_solver|]);
    try (destruct (decide (ot ≠ ∅)); [done|]); simpl;
    eexists _, _; (split; [reflexivity|]); split; simpl; auto with torana.
Qed.

Lemma walk_tracks_stop w t idx w' :
  walker_inv w → tracks w t → walkR w (EvContentBlockStop idx) = Ok w' →
  ∃ t' e, FromPBStreamEvent t (EvContentBlockStop idx) = Ok (t', e) ∧ tracks w' t'.
Proof.
  destruct w as [nt ot sn se ms so st p], t as [tn tt ts]; intros [Hex _ _ _] [Hn Ht Hs] H.
  simpl in *; subst tn tt. split_walk H; unfold FromPBStreamEvent; simpl.
  - destruct nt as [o|]; simpl.
    + exfalso. rewrite Hex in * by done. by rewrite lookup_empty in *.
    + destruct (decide (is_Some (ot !! idx))) as [|n]; [|by destruct n; eauto].
      eexists _, _; (split; [reflexivity|]); split; simpl; auto.
  - destruct (decide (nt_index o = nt_index o)); [|done]. eexists _, _; (split; [reflexivity|]); split; simpl; auto.
Qed.

Lemma walk_tracks w t ev w' :
  walker_inv w → tracks w t → walkR w ev = Ok w' →
  ∃ t' e, FromPBStreamEvent t ev = Ok (t', e) ∧ tracks w' t'.
Proof.
  intros Hinv Htr H. destruct ev; eauto using walk_tracks_start, walk_tracks_stop;
    destruct w as [nt ot sn se ms so st p], t as [tn tt ts];
    destruct Htr as [Hn Ht Hs]; simpl in *; subst tn tt;
    unfold validateStreamToolDeltaFamily in H; split_walk H;
    unfold FromPBStreamEvent; simpl;
    repeat match goal with
      | E : _ !! _ = _ |- _ => rewrite E
      | H : validateStreamToolDeltaFamily _ _ _ = Ok _ |- _ =>
          unfold validateStreamToolDeltaFamily in H; split_walk H
      end;
    try (eexists _, _; (split; [reflexivity|]); split; simpl; auto with torana; fail).
Qed.

(** ** Conversion of a whole verified stream *)

Fixpoint convertAll (t : BlockKindTracker) (evs : list pbEvent)
    : res trackerErr (BlockKindTracker * list StreamEvent) :=
  match evs with
  | [] => Ok (t, [])
  | ev :: evs' =>
      '(t1, e) ←? FromPBStreamEvent t ev;
      '(t2, es) ←? convertAll t1 evs';
      Ok (t2, e :: es)
  end.

(** An event with a content: an arm is set, its integers are [int32] as on the
    wire, and a message stop carries a reason (the engine represents a stop by
    a non-empty [FinishReason]). *)
Definition pb_regular (e : pbEvent) : bool :=
  match e with
  | EvTextDelta _ | EvThinkingDelta _ | EvMessageStart _ _ _ | EvSignatureDelta _ => true
  | EvContentBlockStart i b =>
      in_int32 i && match b with
                    | BlockToolCall r => in_int32 (tcr_kind r)
                    | BlockUnset => false
                    | _ => true
                    end
  | EvContentBlockStop i | EvToolCallDelta i _ _ => in_int32 i
  | EvMessageStop r => negb (String.eqb r "")
  | EvUsage a b c d => in_int32 a && in_int32 b && in_int32 c && in_int32 d
  | EvError c _ => in_int32 c
  | EvUnset => false
  end.

(** Converting an ABI event to the engine and back is the identity, whatever
    blocks are open. *)
Lemma to_from_pb t e t' e' :
  pb_regular e = true → FromPBStreamEvent t e = Ok (t', e') → ToPBStreamEvent e' = e.
Proof.
  intros Hreg H.
  destruct e as [| | |i b|i|i a o|s|r|a b c d|c m|]; simpl in Hreg;
    try destruct b; unfold FromPBStreamEvent, startNonTool in H; split_walk H;
    repeat match goal with E : _ && _ = true |- _ => apply andb_true_iff in E as [? ?] end;
    unfold ToPBStreamEvent; simpl;
    try (rewrite !int32_of_id by done); try done.
  - by destruct ref.
  - by rewrite Hreg.
Qed.

Lemma convertAll_ok evs w t w' :
  walker_inv w → tracks w t → walkAll w evs = Ok w' →
  ∃ t' es, convertAll t evs = Ok (t', es) ∧ tracks w' t' ∧
    (forallb pb_regular evs = true → ToPBStreamEvent <$> es = evs).
Proof.
  revert w t; induction evs as [|ev evs IH]; intros w t Hinv Htr; simpl.
  - intros [= <-]. by exists t, [].
  - intros H. unfold walkAll in H; simpl in H. apply res_bind_ok in H as (w1 & Hw & H).
    destruct (walk_tracks w t ev w1 Hinv Htr Hw) as (t1 & e & He & Htr1).
    destruct (IH w1 t1 (walkR_inv _ _ _ Hinv Hw) Htr1 H) as (t2 & es & Hes & Htr2 & Hr).
    rewrite He; simpl. rewrite Hes; simpl. exists t2, (e :: es). split; [done|]. split; [done|].
    intros [Hreg Hregs]%andb_true_iff. rewrite fmap_cons, Hr by done.
    f_equal. eauto using to_from_pb.
Qed.

(** A verified stream always converts: on every event sequence the walker
    accepts, the block-kind tracker converts each event to an engine event
    (none of its errors can happen), and for events that carry no information
    the engine has no field for, converting back yields the same stream. *)
Theorem verified_stream_converts evs w :
  walkAll walker0 evs = Ok w →
  ∃ t es, convertAll tracker0 evs = Ok (t, es) ∧
    (forallb pb_regular evs = true → ToPBStreamEvent <$> es = evs).
Proof.
  intros H. destruct (convertAll_ok evs _ _ _ walker_inv_0 tracks_0 H) as (t & es & ? & _ & ?).
  eauto.
Qed.

Definition demo_stream : list pbEvent :=
  [ EvMessageStart "assistant" "m1" "model";
    EvContentBlockStart 0 BlockThinking; EvThinkingDelta "hm"; EvSignatureDelta "sigA";
    EvContentBlockStop 0;
    EvContentBlockStart 1 (BlockToolCall (mkToolCallRef "c1" "ls" "sigB" 0));
    EvContentBlockStart 2 (BlockToolCall (mkToolCallRef "c2" "cat" "" 0));
    EvToolCallDelta 1 "{" None; EvToolCallDelta 2 "{}" None; EvToolCallDelta 1 "}" None;
    EvContentBlockStop 2; EvContentBlockStop 1;
    EvMessageStop "tool_use"; EvUsage 3 4 0 0 ].

Lemma verified_stream_converts_witness :
  ∃ w, walkAll walker0 demo_stream = Ok w ∧
  ∃ t es, convertAll tracker0 demo_stream = Ok (t, es) ∧
    (forallb pb_regular demo_stream = true → ToPBStreamEvent <$> es = demo_stream).
Proof.
  eexists. split; [vm_compute; reflexivity|].
  eapply verified_stream_converts. vm_compute; reflexivity.
Defined.
