(* ===== verification/SignatureScan.v ===== *)
(** * The signature scan

    [scanStreamSignatures] ([internal/plugin/streamverify.go]) walks one event
    stream once and computes every fact the signature verifier compares: the
    assembled tool-call scopes, the [signature_delta] bindings with the typed
    content each covers, and the list of text/thinking spans.

    [scan_tool_scopes] shows that on a disciplined stream the single pass
    computes what the rescanning reference [toolCallScopeOf] computes;
    [scan_no_unbound] shows that the discipline's "unbound signature" rule is
    the scan's. *)

From stdpp Require Import base list strings gmap sets numbers.
From S2P Require Import Prelude StreamEvents Discipline.

(** ** Typed content *)

Record typedContent := mkContent {
  text : string;
  thinking : string;
  textSeen : bool;
  thinkingSeen : bool }.

#[export] Instance typedContent_eq_dec : EqDecision typedContent.
Proof. solve_decision. Defined.

Definition content0 : typedContent := mkContent "" "" false false.

Definition content_equals (t o : typedContent) : bool :=
  String.eqb (text t) (text o) && String.eqb (thinking t) (thinking o)
  && Bool.eqb (textSeen t) (textSeen o) && Bool.eqb (thinkingSeen t) (thinkingSeen o).

Definition content_isEmpty (t : typedContent) : bool :=
  String.eqb (text t) "" && String.eqb (thinking t) "".

Definition content_sameKind (t o : typedContent) : bool :=
  Bool.eqb (textSeen t) (textSeen o) && Bool.eqb (thinkingSeen t) (thinkingSeen o).

Lemma content_equals_spec a b : content_equals a b = true ↔ a = b.
Proof.
  destruct a, b; unfold content_equals; simpl.
  rewrite !andb_true_iff, !String.eqb_eq, !Bool.eqb_true_iff. naive_solver.
Qed.

(** ** Tool-call scopes *)

Record toolCallScope := mkScope {
  sc_index : Z;
  sc_found : bool;
  sc_signature : string;
  sc_id : string;
  sc_name : string;
  sc_kind : Z;
  sc_arguments : string;
  sc_input : string;
  sc_inputSeen : bool }.

#[export] Instance toolCallScope_eq_dec : EqDecision toolCallScope.
Proof. solve_decision. Defined.

Definition scope_init (i : Z) : toolCallScope := mkScope i false "" "" "" 0 "" "" false.

(** What one event adds to the scope at [index]. *)
Definition scope_step (index : Z) (s : toolCallScope) (ev : pbEvent) : toolCallScope :=
  match ev with
  | EvContentBlockStart i (BlockToolCall r) =>
      if decide (i = index)
      then mkScope (sc_index s) true (tcr_signature r) (tcr_id r) (tcr_name r) (tcr_kind r)
             (sc_arguments s) (sc_input s) (sc_inputSeen s)
      else s
  | EvToolCallDelta i args input =>
      if decide (i = index)
      then mkScope (sc_index s) (sc_found s) (sc_signature s) (sc_id s) (sc_name s) (sc_kind s)
             (sc_arguments s +:+ args)
             (match input with Some t => sc_input s +:+ t | None => sc_input s end)
             (match input with Some _ => true | None => sc_inputSeen s end)
      else s
  | _ => s
  end.

(** The reference: rescan the slice for one index. *)
Definition toolCallScopeOf (events : list pbEvent) (index : Z) : toolCallScope :=
  foldl (scope_step index) (scope_init index) events.

(** [toolCallContentChanged] and [toolCallCoveredContentEqual]. *)
Definition toolCallContentChanged (a b : toolCallScope) : bool :=
  negb (String.eqb (sc_id a) (sc_id b)) || negb (String.eqb (sc_name a) (sc_name b))
  || negb (Z.eqb (sc_kind a) (sc_kind b)) || negb (String.eqb (sc_arguments a) (sc_arguments b))
  || negb (Bool.eqb (sc_inputSeen a) (sc_inputSeen b))
  || negb (String.eqb (sc_input a) (sc_input b)).

Definition toolCallCoveredContentEqual (a b : toolCallScope) : bool :=
  String.eqb (sc_id a) (sc_id b) && String.eqb (sc_name a) (sc_name b)
  && Z.eqb (sc_kind a) (sc_kind b) && String.eqb (sc_arguments a) (sc_arguments b)
  && Bool.eqb (sc_inputSeen a) (sc_inputSeen b) && String.eqb (sc_input a) (sc_input b).

(** The facts a tool signature covers, as one value. *)
Definition covered (s : toolCallScope) : string * string * Z * string * bool * string :=
  (sc_id s, sc_name s, sc_kind s, sc_arguments s, sc_inputSeen s, sc_input s).

Lemma covered_equal_spec a b : toolCallCoveredContentEqual a b = true ↔ covered a = covered b.
Proof.
  unfold toolCallCoveredContentEqual, covered.
  rewrite !andb_true_iff, !String.eqb_eq, Z.eqb_eq, Bool.eqb_true_iff.
  split; [intuition congruence | intros [=]; intuition].
Qed.

Lemma content_changed_spec a b : toolCallContentChanged a b = false ↔ covered a = covered b.
Proof.
  rewrite <- covered_equal_spec. unfold toolCallContentChanged, toolCallCoveredContentEqual.
  destruct (String.eqb (sc_id a) _), (String.eqb (sc_name a) _), (Z.eqb _ _),
    (String.eqb (sc_arguments a) _), (Bool.eqb _ _), (String.eqb (sc_input a) _);
    simpl; split; congruence.
Qed.

Record toolScopeBuilder := mkBuilder {
  b_index : Z; b_signature : string; b_id : string; b_name : string; b_kind : Z;
  b_args : string; b_input : string; b_inputSeen : bool }.

Definition builder_scope (b : toolScopeBuilder) : toolCallScope :=
  mkScope (b_index b) true (b_signature b) (b_id b) (b_name b) (b_kind b)
    (b_args b) (b_input b) (b_inputSeen b).

(** ** Bindings and the view *)

Inductive sigBindingKind := sigBindingCurrent | sigBindingTrailing | sigBindingUnbound.

#[export] Instance sigBindingKind_eq_dec : EqDecision sigBindingKind.
Proof. solve_decision. Defined.

(** [bd_span] is the Go [int] field [span]: the ordinal, or -1. *)
Record sigBinding := mkBinding {
  bd_kind : sigBindingKind;
  bd_signature : string;
  bd_content : typedContent;
  bd_span : Z }.

Record streamSignatureView := mkView {
  v_toolScopes : list toolCallScope;
  v_bindings : list sigBinding;
  v_spans : list typedContent;
  v_closed : typedContent;
  v_sawContent : bool }.

(** ** The scan *)

Module Scan.

(** The locals of [scanStreamSignatures]; [cur] holds the open span's two
    builders and presence flags, [closed] those of the closed content. *)
Record st := mkSt {
  toolScopes : list toolCallScope;
  bindings : list sigBinding;
  spans : list typedContent;
  blockOpen : bool;
  blockText : bool;
  blockSawSpan : bool;
  spanOpen : bool;
  cur : typedContent;
  closed : typedContent;
  sawText : bool;
  openTools : gmap Z toolScopeBuilder }.

Definition st0 : st :=
  mkSt [] [] [] false false false false content0 content0 false ∅.

Definition resetSpanState (s : st) : st :=
  mkSt (toolScopes s) (bindings s) (spans s) (blockOpen s) (blockText s) (blockSawSpan s)
    false content0 (closed s) (sawText s) (openTools s).

Definition materializeSpan (s : st) : st :=
  let tc := cur s in
  resetSpanState
    (mkSt (toolScopes s) (bindings s) (spans s ++ [tc]) (blockOpen s) (blockText s)
       (if blockOpen s && blockText s then true else blockSawSpan s)
       (spanOpen s) (cur s)
       (mkContent (text (closed s) +:+ text tc) (thinking (closed s) +:+ thinking tc)
          (textSeen (closed s) || textSeen tc) (thinkingSeen (closed s) || thinkingSeen tc))
       (sawText s) (openTools s)).

Definition closeSpan (s : st) : st :=
  if spanOpen s then materializeSpan s else resetSpanState s.

Definition setBlockFlags (o t saw : bool) (s : st) : st :=
  mkSt (toolScopes s) (bindings s) (spans s) o t saw (spanOpen s) (cur s) (closed s)
    (sawText s) (openTools s).

Definition setCur (c : typedContent) (s : st) : st :=
  mkSt (toolScopes s) (bindings s) (spans s) (blockOpen s) (blockText s) (blockSawSpan s)
    (spanOpen s) c (closed s) (sawText s) (openTools s).

Definition setTools (m : gmap Z toolScopeBuilder) (s : st) : st :=
  mkSt (toolScopes s) (bindings s) (spans s) (blockOpen s) (blockText s) (blockSawSpan s)
    (spanOpen s) (cur s) (closed s) (sawText s) m.

Definition addScope (sc : toolCallScope) (s : st) : st :=
  mkSt (toolScopes s ++ [sc]) (bindings s) (spans s) (blockOpen s) (blockText s)
    (blockSawSpan s) (spanOpen s) (cur s) (closed s) (sawText s) (openTools s).

Definition addBinding (b : sigBinding) (s : st) : st :=
  mkSt (toolScopes s) (bindings s ++ [b]) (spans s) (blockOpen s) (blockText s)
    (blockSawSpan s) (spanOpen s) (cur s) (closed s) (sawText s) (openTools s).

(** An in-span delta: content seen, span open, the arm's builder extended. *)
Definition addDelta (c : typedContent) (s : st) : st :=
  mkSt (toolScopes s) (bindings s) (spans s) (blockOpen s) (blockText s) (blockSawSpan s)
    true c (closed s) true (openTools s).

Definition toolsOpen (s : st) : bool := bool_decide (openTools s ≠ ∅).

Definition onStart (s : st) (idx : Z) (b : pbBlock) : st :=
  let s := closeSpan s in
  match b with
  | BlockText =>
      let s := setBlockFlags true true false s in
      setCur (mkContent (text (cur s)) (thinking (cur s)) true (thinkingSeen (cur s))) s
  | BlockThinking =>
      let s := setBlockFlags true true false s in
      setCur (mkContent (text (cur s)) (thinking (cur s)) (textSeen (cur s)) true) s
  | BlockToolCall r =>
      match openTools s !! idx with
      | Some _ => s
      | None =>
          setTools (<[idx := mkBuilder idx (tcr_signature r) (tcr_id r) (tcr_name r)
                               (tcr_kind r) "" "" false]> (openTools s)) s
      end
  | BlockProvider _ => setBlockFlags true false (blockSawSpan s) s
  | BlockUnset => s
  end.

Definition onStop (s : st) (idx : Z) : st :=
  match openTools s !! idx with
  | Some b => addScope (builder_scope b) (setTools (delete idx (openTools s)) s)
  | None =>
      let s := if blockOpen s && blockText s && negb (blockSawSpan s) && negb (spanOpen s)
               then materializeSpan s else s in
      setBlockFlags false false false (closeSpan s)
  end.

Definition onToolDelta (s : st) (idx : Z) (args : string) (input : option string) : st :=
  match openTools s !! idx with
  | Some b =>
      let b' := mkBuilder (b_index b) (b_signature b) (b_id b) (b_name b) (b_kind b)
                  (b_args b +:+ args)
                  (match input with Some t => b_input b +:+ t | None => b_input b end)
                  (match input with Some _ => true | None => b_inputSeen b end) in
      setTools (<[idx := b']> (openTools s)) s
  | None => s
  end.

(** A delta inside a provider block or beside an open tool block is ignored. *)
Definition ignored (s : st) : bool := (blockOpen s && negb (blockText s)) || toolsOpen s.

Definition onSignature (s : st) (sig : string) : st :=
  if spanOpen s || (blockOpen s && blockText s) then
    let span := Z.of_nat (length (spans s)) in
    let content := cur s in
    let s := if negb (spanOpen s) && blockOpen s && blockText s
             then materializeSpan s else closeSpan s in
    addBinding (mkBinding sigBindingCurrent sig content span) s
  else if blockOpen s || toolsOpen s then
    addBinding (mkBinding sigBindingUnbound sig content0 (-1)) s
  else
    let kind := if content_isEmpty (closed s) && negb (sawText s)
                then sigBindingUnbound else sigBindingTrailing in
    addBinding (mkBinding kind sig (closed s) (-1)) s.

Definition step (s : st) (ev : pbEvent) : st :=
  match ev with
  | EvContentBlockStart idx b => onStart s idx b
  | EvContentBlockStop idx => onStop s idx
  | EvToolCallDelta idx args input => onToolDelta s idx args input
  | EvTextDelta t =>
      if ignored s then s
      else addDelta (mkContent (text (cur s) +:+ t) (thinking (cur s)) true
                               (thinkingSeen (cur s))) s
  | EvThinkingDelta t =>
      if ignored s then s
      else addDelta (mkContent (text (cur s)) (thinking (cur s) +:+ t) (textSeen (cur s))
                               true) s
  | EvSignatureDelta sig => onSignature s sig
  | _ => s
  end.

Definition run (events : list pbEvent) : st := foldl step st0 events.

End Scan.

Definition scanStreamSignatures (events : list pbEvent) : streamSignatureView :=
  let s := Scan.closeSpan (Scan.run events) in
  mkView (Scan.toolScopes s) (Scan.bindings s) (Scan.spans s) (Scan.closed s) (Scan.sawText s).

(** ** The scan on a disciplined stream: tool scopes *)

Lemma scopeOf_snoc evs ev i :
  toolCallScopeOf (evs ++ [ev]) i = scope_step i (toolCallScopeOf evs i) ev.
Proof. unfold toolCallScopeOf. by rewrite foldl_app. Qed.

Lemma scope_step_index i s ev : sc_index (scope_step i s ev) = sc_index s.
Proof. unfold scope_step. repeat case_match; done. Qed.

Lemma scopeOf_index evs i : sc_index (toolCallScopeOf evs i) = i.
Proof.
  induction evs as [|ev evs IH] using rev_ind; [done|].
  by rewrite scopeOf_snoc, scope_step_index.
Qed.

(** An event that neither starts nor extends the tool block at [i]. *)
Lemma scopeOf_other evs ev i :
  (∀ r, ev ≠ EvContentBlockStart i (BlockToolCall r)) →
  (∀ a o, ev ≠ EvToolCallDelta i a o) →
  toolCallScopeOf (evs ++ [ev]) i = toolCallScopeOf evs i.
Proof.
  rewrite scopeOf_snoc. intros H1 H2. destruct ev as [| | |j []| |j| | | | |]; try done; simpl;
    case_decide; naive_solver.
Qed.

Record tools_rel (evs : list pbEvent) (w : streamDisciplineWalker) (s : Scan.st) : Prop := {
  tl_dom : dom (Scan.openTools s) = dom (openTools w);
  tl_open : ∀ i b, Scan.openTools s !! i = Some b → builder_scope b = toolCallScopeOf evs i;
  tl_done : ∀ sc, sc ∈ Scan.toolScopes s →
     sc = toolCallScopeOf evs (sc_index sc) ∧ sc_index sc ∈ seen w ∧
     sc_index sc ∉ dom (openTools w);
  tl_nodup : NoDup (sc_index <$> Scan.toolScopes s);
  tl_fresh : ∀ i, i ∉ seen w → toolCallScopeOf evs i = scope_init i;
  tl_started : ∀ i, sc_found (toolCallScopeOf evs i) = true →
     i ∈ dom (openTools w) ∨ i ∈ sc_index <$> Scan.toolScopes s }.

Lemma tools_rel_0 : tools_rel [] walker0 Scan.st0.
Proof. split; simpl; try done; [set_solver | constructor]. Qed.

(** The span bookkeeping never touches the tool state. *)
Lemma closeSpan_tools s :
  Scan.openTools (Scan.closeSpan s) = Scan.openTools s ∧
  Scan.toolScopes (Scan.closeSpan s) = Scan.toolScopes s.
Proof. unfold Scan.closeSpan. by destruct (Scan.spanOpen s). Qed.

(** Every event but a tool start, a tool delta and a tool stop leaves the tool
    state alone. *)
Lemma step_tools_other s ev :
  (∀ i r, ev ≠ EvContentBlockStart i (BlockToolCall r)) →
  (∀ i a o, ev ≠ EvToolCallDelta i a o) →
  (∀ i, ev = EvContentBlockStop i → Scan.openTools s !! i = None) →
  Scan.openTools (Scan.step s ev) = Scan.openTools s ∧
  Scan.toolScopes (Scan.step s ev) = Scan.toolScopes s.
Proof.
  intros H1 H2 H3. destruct ev as [| | |i []|i| | | | | |]; simpl; try done;
    try (destruct (Scan.ignored s); done);
    try apply closeSpan_tools; try naive_solver.
  - unfold Scan.onStop. rewrite (H3 i eq_refl). simpl.
    destruct (_ && _); simpl; rewrite ?(proj1 (closeSpan_tools _)), ?(proj2 (closeSpan_tools _)); done.
  - unfold Scan.onSignature.
    destruct (Scan.spanOpen s || _); simpl.
    + destruct (negb _ && _ && _); simpl; [done|apply closeSpan_tools].
    + by destruct (Scan.blockOpen s || _).
Qed.

(** What a successful walk step does to the tool state of the walker. *)
Lemma walkR_tool_start w i r w' :
  walkR w (EvContentBlockStart i (BlockToolCall r)) = Ok w' →
  (i ∉ seen w) ∧ openTools w' = <[i := tcr_kind r]> (openTools w) ∧ seen w' = {[i]} ∪ seen w.
Proof. intros H. split_walk H; done. Qed.

Lemma walkR_tool_delta w i a o w' :
  walkR w (EvToolCallDelta i a o) = Ok w' →
  i ∈ dom (openTools w) ∧ openTools w' = openTools w ∧ seen w' = seen w.
Proof. intros H. split_walk H; (split; [apply elem_of_dom; eauto|done]). Qed.

Lemma walkR_stop w i w' :
  walkR w (EvContentBlockStop i) = Ok w' →
  openTools w' = delete i (openTools w) ∧ seen w' = seen w.
Proof.
  intros H. split_walk H. by rewrite delete_id.
Qed.

Lemma walkR_other w ev w' :
  (∀ i r, ev ≠ EvContentBlockStart i (BlockToolCall r)) →
  (∀ i, ev ≠ EvContentBlockStop i) →
  walkR w ev = Ok w' → openTools w' = openTools w ∧ seen w ⊆ seen w'.
Proof.
  intros H1 H2 H. destruct ev as [| | |i []|i| | | | | |]; try naive_solver;
    split_walk H; (split; [done|]); simpl; set_solver.
Qed.

Lemma tools_rel_start evs w s i r w' :
  walker_inv w → tools_rel evs w s →
  walkR w (EvContentBlockStart i (BlockToolCall r)) = Ok w' →
  tools_rel (evs ++ [EvContentBlockStart i (BlockToolCall r)]) w'
    (Scan.step s (EvContentBlockStart i (BlockToolCall r))).
Proof.
  intros Hinv [Hd Ho Hf Hn Hfr Hst] H.
  apply walkR_tool_start in H as (Hi & Et & Es).
  assert (Hnone : Scan.openTools s !! i = None).
  { apply not_elem_of_dom. rewrite Hd. intros ?. by apply Hi, (inv_tools_seen w Hinv). }
  simpl. unfold Scan.onStart. destruct (closeSpan_tools s) as [C1 C2].
  rewrite C1, Hnone.
  assert (Hneq : ∀ j, j ≠ i → toolCallScopeOf (evs ++ [EvContentBlockStart i (BlockToolCall r)]) j
                     = toolCallScopeOf evs j).
  { intros j Hj. apply scopeOf_other; naive_solver. }
  split; simpl; rewrite ?C2, ?Et, ?Es.
  - rewrite !dom_insert_L. by rewrite Hd.
  - intros j b. rewrite lookup_insert_Some. intros [[<- <-]|[Hj Hb]].
    + rewrite scopeOf_snoc, Hfr by done. simpl. by rewrite decide_True.
    + rewrite Hneq by done. eauto.
  - intros sc Hsc. destruct (Hf sc Hsc) as (E & Hin & Hout).
    assert (sc_index sc ≠ i) by (intros Heq; apply Hi; by rewrite <- Heq).
    rewrite Hneq, dom_insert_L by done. set_solver.
  - done.
  - intros j Hj. rewrite Hneq by set_solver. apply Hfr. set_solver.
  - intros j. destruct (decide (j = i)) as [->|Hj]; [rewrite dom_insert_L; set_solver|].
    rewrite Hneq by done. intros [|]%Hst; [left; rewrite dom_insert_L; set_solver|by right].
Qed.

Lemma tools_rel_delta evs w s i a o w' :
  tools_rel evs w s →
  walkR w (EvToolCallDelta i a o) = Ok w' →
  tools_rel (evs ++ [EvToolCallDelta i a o]) w' (Scan.step s (EvToolCallDelta i a o)).
Proof.
  intros [Hd Ho Hf Hn Hfr Hst] H. apply walkR_tool_delta in H as (Hi & Et & Es).
  assert (Hb : is_Some (Scan.openTools s !! i)) by (apply elem_of_dom; by rewrite Hd).
  destruct Hb as [b Hb]. simpl. unfold Scan.onToolDelta. rewrite Hb.
  assert (Hneq : ∀ j, j ≠ i → toolCallScopeOf (evs ++ [EvToolCallDelta i a o]) j
                     = toolCallScopeOf evs j).
  { intros j Hj. apply scopeOf_other; naive_solver. }
  assert (Hfound : sc_found (toolCallScopeOf (evs ++ [EvToolCallDelta i a o]) i)
                   = sc_found (toolCallScopeOf evs i)).
  { rewrite scopeOf_snoc. simpl. by rewrite decide_True. }
  split; simpl; rewrite ?Et, ?Es.
  - rewrite dom_insert_L, Hd. set_solver.
  - intros j b'. rewrite lookup_insert_Some. intros [[<- <-]|[Hj Hb']].
    + rewrite scopeOf_snoc. simpl. rewrite decide_True by done.
      rewrite <- (Ho _ _ Hb). done.
    + rewrite Hneq by done. eauto.
  - intros sc Hsc. destruct (Hf sc Hsc) as (E & Hin & Hout).
    assert (sc_index sc ≠ i) by (intros Heq; apply Hout; by rewrite Heq).
    by rewrite Hneq.
  - done.
  - intros j Hj. rewrite Hneq; [by apply Hfr|]. intros ->.
    specialize (Hfr i Hj). specialize (Ho _ _ Hb). rewrite Hfr in Ho. by destruct b.
  - intros j. destruct (decide (j = i)) as [->|Hj]; [by left|]. rewrite Hneq; auto.
Qed.

Lemma tools_rel_stop evs w s i w' :
  walker_inv w → tools_rel evs w s →
  walkR w (EvContentBlockStop i) = Ok w' →
  tools_rel (evs ++ [EvContentBlockStop i]) w' (Scan.step s (EvContentBlockStop i)).
Proof.
  intros Hinv [Hd Ho Hf Hn Hfr Hst] H. apply walkR_stop in H as (Et & Es).
  assert (Hsame : ∀ j, toolCallScopeOf (evs ++ [EvContentBlockStop i]) j = toolCallScopeOf evs j)
    by (intros j; by apply scopeOf_other).
  destruct (Scan.openTools s !! i) as [b|] eqn:Hb.
  - assert (Hi : i ∈ dom (openTools w)) by (rewrite <- Hd; apply elem_of_dom; eauto).
    simpl. unfold Scan.onStop. rewrite Hb.
    assert (Hidx : sc_index (builder_scope b) = i) by (rewrite (Ho _ _ Hb); apply scopeOf_index).
    split; simpl; rewrite ?Et, ?Es.
    + rewrite !dom_delete_L. by rewrite Hd.
    + intros j b' Hj. rewrite Hsame. apply lookup_delete_Some in Hj as [_ Hj]. eauto.
    + intros sc. rewrite Hsame, dom_delete_L, elem_of_app, list_elem_of_singleton.
      intros [Hsc|Hsc].
      * destruct (Hf sc Hsc) as (? & ? & ?). set_solver.
      * subst sc. rewrite Hidx, (Ho _ _ Hb). pose proof (inv_tools_seen w Hinv). set_solver.
    + rewrite fmap_app. apply list.NoDup_app. split; [done|]. split; [|apply NoDup_singleton].
      intros j Hj Hj'. apply list_elem_of_fmap in Hj as (sc & -> & Hsc).
      simpl in Hj'. apply list_elem_of_singleton in Hj'.
      destruct (Hf sc Hsc) as (_ & _ & Hout). apply Hout. simpl in Hidx. by rewrite Hj', Hidx.
    + intros j Hj. rewrite Hsame. auto.
    + intros j. rewrite Hsame, fmap_app, dom_delete_L, elem_of_app. intros [Hj|Hj]%Hst; [|auto].
      destruct (decide (j = i)) as [->|]; [|set_solver].
      right; right. simpl. simpl in Hidx. rewrite Hidx. by apply list_elem_of_singleton.
  - assert (Hi : i ∉ dom (openTools w)) by (rewrite <- Hd; by apply not_elem_of_dom).
    destruct (step_tools_other s (EvContentBlockStop i)) as [T1 T2];
      [done|done|by intros ? [= <-]|].
    rewrite (delete_id (openTools w)) in Et by (by apply not_elem_of_dom).
    split; rewrite ?T1, ?T2, ?Et, ?Es; try done; try (intros; rewrite Hsame in *; eauto).
Qed.

Lemma tools_rel_step evs w s ev w' :
  walker_inv w → tools_rel evs w s → walkR w ev = Ok w' →
  tools_rel (evs ++ [ev]) w' (Scan.step s ev).
Proof.
  intros Hinv Hrel H.
  destruct (match ev with
            | EvContentBlockStart _ (BlockToolCall _) | EvContentBlockStop _
            | EvToolCallDelta _ _ _ => true | _ => false end) eqn:E.
  { destruct ev as [| | |i []|i|i a o| | | | |]; try done;
      eauto using tools_rel_start, tools_rel_stop, tools_rel_delta. }
  destruct (walkR_other w ev w') as [Et Es]; [by intros ? ? ->|by intros ? ->|done|].
  destruct (step_tools_other s ev) as [T1 T2]; [by intros ? ? ->|by intros ? ? ? ->|by intros ? ->|].
  assert (Hsame : ∀ j, toolCallScopeOf (evs ++ [ev]) j = toolCallScopeOf evs j)
    by (intros j; apply scopeOf_other; [by intros ? ->|by intros ? ? ->]).
  destruct Hrel as [Hd Ho Hf Hn Hfr Hst].
  split; rewrite ?T1, ?T2, ?Et; try done.
  - intros j b Hj. rewrite Hsame. eauto.
  - intros sc Hsc. rewrite Hsame. destruct (Hf sc Hsc) as (? & ? & ?). set_solver.
  - intros j Hj. rewrite Hsame. apply Hfr. set_solver.
  - intros j. rewrite Hsame. eauto.
Qed.

(** ** The scan on a disciplined stream: spans and bindings *)

Lemma append_empty a b : a +:+ b = "" ↔ a = "" ∧ b = "".
Proof. destruct a; simpl; naive_solver. Qed.

Definition in_text_block (w : streamDisciplineWalker) : bool :=
  match nonTool w with
  | Some o => bool_decide (nt_kind o ≠ providerBlockOpen)
  | None => false
  end.

Record spans_rel (w : streamDisciplineWalker) (s : Scan.st) : Prop := {
  sp_open : Scan.spanOpen s = spanOpen w;
  sp_saw : Scan.sawText s = sawText w;
  sp_block : Scan.blockOpen s = bool_decide (nonTool w ≠ None);
  sp_text : Scan.blockText s = in_text_block w;
  sp_cur : sawText w = false → content_isEmpty (Scan.cur s) = true;
  sp_closed : sawText w = false → content_isEmpty (Scan.closed s) = true;
  sp_bound : Forall (λ b, bd_kind b ≠ sigBindingUnbound) (Scan.bindings s) }.

Lemma spans_rel_0 : spans_rel walker0 Scan.st0.
Proof. split; simpl; try done. Qed.

Lemma toolsOpen_dom w s :
  dom (Scan.openTools s) = dom (openTools w) →
  Scan.toolsOpen s = bool_decide (openTools w ≠ ∅).
Proof.
  intros Hd. unfold Scan.toolsOpen. apply bool_decide_ext.
  by rewrite <- !(dom_empty_iff_L (D := gset Z)), Hd.
Qed.

(** Closing a span consumes the current accumulators and keeps the closed
    content empty as long as no text was seen. *)
Lemma closeSpan_cur s : Scan.cur (Scan.closeSpan s) = content0.
Proof. unfold Scan.closeSpan. by destruct (Scan.spanOpen s). Qed.

Lemma materialize_closed s :
  content_isEmpty (Scan.cur s) = true → content_isEmpty (Scan.closed s) = true →
  content_isEmpty (Scan.closed (Scan.materializeSpan s)) = true.
Proof.
  unfold content_isEmpty; simpl. rewrite !andb_true_iff, !String.eqb_eq, !append_empty. tauto.
Qed.

Lemma closeSpan_closed s :
  content_isEmpty (Scan.cur s) = true → content_isEmpty (Scan.closed s) = true →
  content_isEmpty (Scan.closed (Scan.closeSpan s)) = true.
Proof.
  unfold Scan.closeSpan. destruct (Scan.spanOpen s); [apply materialize_closed|done].
Qed.

Lemma closeSpan_rest s :
  Scan.spanOpen (Scan.closeSpan s) = false ∧ Scan.sawText (Scan.closeSpan s) = Scan.sawText s ∧
  Scan.blockOpen (Scan.closeSpan s) = Scan.blockOpen s ∧
  Scan.blockText (Scan.closeSpan s) = Scan.blockText s ∧
  Scan.bindings (Scan.closeSpan s) = Scan.bindings s.
Proof. unfold Scan.closeSpan. by destruct (Scan.spanOpen s). Qed.

Lemma spans_rel_start w s i b w' :
  spans_rel w s → walkR w (EvContentBlockStart i b) = Ok w' →
  spans_rel w' (Scan.step s (EvContentBlockStart i b)).
Proof.
  intros [H1 H2 H3 H4 H5 H6 H7] H. simpl. unfold Scan.onStart.
  destruct (closeSpan_rest s) as (C1 & C2 & C3 & C4 & C5).
  pose proof (closeSpan_cur s) as C6. pose proof (closeSpan_closed s) as C7.
  destruct w as [nt ot sn se ms so st p]; simpl in *. unfold in_text_block in *; simpl in *.
  assert (C8 : st = false → content_isEmpty (Scan.closed (Scan.closeSpan s)) = true) by auto.
  destruct b; split_walk H; simpl in *; try (destruct (Scan.openTools _ !! i));
    split; unfold in_text_block; simpl; rewrite ?C1, ?C2, ?C3, ?C4, ?C5, ?C6; auto.
Qed.

Lemma spans_rel_stop w s i w' :
  walker_inv w → dom (Scan.openTools s) = dom (openTools w) →
  spans_rel w s → walkR w (EvContentBlockStop i) = Ok w' →
  spans_rel w' (Scan.step s (EvContentBlockStop i)).
Proof.
  intros Hinv Hd [H1 H2 H3 H4 H5 H6 H7] H. simpl. unfold Scan.onStop.
  destruct w as [nt ot sn se ms so st p]; simpl in *. split_walk H.
  - assert (is_Some (Scan.openTools s !! i)) as [b ->].
    { apply elem_of_dom. rewrite Hd. apply elem_of_dom. eauto. }
    split; simpl; auto.
  - assert (Scan.openTools s !! nt_index o = None) as ->.
    { apply not_elem_of_dom. rewrite Hd. by apply not_elem_of_dom. }
    set (s1 := if _ : bool then _ else _).
    assert (S : Scan.sawText s1 = Scan.sawText s ∧ Scan.bindings s1 = Scan.bindings s ∧
                (Scan.sawText s = false → content_isEmpty (Scan.cur s1) = true ∧
                              content_isEmpty (Scan.closed s1) = true)).
    { subst s1. case_match; [|by auto]. split; [done|]. split; [done|].
      intros Hst. split; [done|]. apply materialize_closed; auto. }
    destruct S as (S1 & S2 & S3). destruct (closeSpan_rest s1) as (C1 & C2 & C3 & C4 & C5).
    split; simpl; unfold in_text_block; simpl; rewrite ?C1, ?C2, ?C5, ?S1, ?S2; auto.
    + intros _. by rewrite closeSpan_cur.
    + intros Hst. destruct (S3 Hst). by apply closeSpan_closed.
Qed.

Lemma spans_rel_signature w s sig w' :
  dom (Scan.openTools s) = dom (openTools w) →
  spans_rel w s → walkR w (EvSignatureDelta sig) = Ok w' →
  spans_rel w' (Scan.step s (EvSignatureDelta sig)).
Proof.
  intros Hd [H1 H2 H3 H4 H5 H6 H7] H. simpl. unfold Scan.onSignature.
  rewrite (toolsOpen_dom _ _ Hd).
  pose proof (closeSpan_closed s) as C7.
  destruct (closeSpan_rest s) as (C1 & C2 & C3 & C4 & C5).
  destruct w as [nt ot sn se ms so st p]; simpl in *. unfold in_text_block in *; simpl in *.
  rewrite H1, H3, H4.
  assert (Hcond : bool_decide (nt ≠ None) && match nt with
      | Some o => bool_decide (nt_kind o ≠ providerBlockOpen) | None => false end
      = match nt with
        | Some o => bool_decide (nt_kind o = textBlockOpen ∨ nt_kind o = thinkingBlockOpen)
        | None => false end).
  { destruct nt as [[? []]|]; done. }
  rewrite <- andb_assoc, Hcond.
  unfold walkR, walk in H; simpl in H.
  destruct se; [done|]. destruct ms; [done|]. simpl in H.
  destruct (so || _) eqn:E1.
  - inv_ok.
    match goal with |- context [Scan.addBinding _ (if ?c then _ else _)] => destruct c end;
    split; unfold in_text_block; simpl;
      rewrite ?C1, ?C2, ?C3, ?C4, ?C5, ?closeSpan_cur; auto;
      try (intros; apply materialize_closed; by auto);
      apply Forall_app; (split; [done|]); by repeat constructor.
  - match type of H with context [if ?c then _ else _] => destruct c eqn:E3 end; [done|].
    injection H as <-. apply orb_false_iff in E3 as [[E3 E4]%orb_false_iff E5].
    apply negb_false_iff in E5. rewrite E4, H2, E5.
    assert (bool_decide (nt ≠ None) = false) as ->.
    { destruct nt as [[? []]|]; simpl in *; try done; by destruct so. }
    simpl. rewrite andb_false_r. split; unfold in_text_block; simpl; try congruence; auto.
    apply Forall_app; split; [done|]. by repeat constructor.
Qed.

(** A text or thinking delta the walker accepts is one the scan records. *)
Lemma walkR_content w ev w' :
  walker_inv w →
  (match ev with EvTextDelta _ | EvThinkingDelta _ => True | _ => False end) →
  walkR w ev = Ok w' →
  bool_decide (openTools w ≠ ∅) = false ∧
  in_text_block w = bool_decide (nonTool w ≠ None) ∧
  w' = set_sawText true (set_spanOpen true (set_pos (S (pos w)) w)).
Proof.
  intros [Hex _ _ _] Hev H. destruct w as [nt ot sn se ms so st p]. unfold in_text_block.
  assert (Hot : ∀ o, nt = Some o → bool_decide (ot ≠ ∅) = false).
  { intros o ->. simpl in Hex. by rewrite Hex. }
  destruct ev; try done; unfold walkR, walk in H; simpl in *;
    (destruct se; [done|]); (destruct ms; [done|]); simpl in H;
    (destruct nt as [[? []]|]; simpl in *; [ | | | destruct (bool_decide (ot ≠ ∅)); [done|]];
     inv_ok; try done; rewrite (Hot _ eq_refl); done).
Qed.

Lemma spans_rel_content w s ev w' :
  walker_inv w → dom (Scan.openTools s) = dom (openTools w) →
  (match ev with EvTextDelta _ | EvThinkingDelta _ => True | _ => False end) →
  spans_rel w s → walkR w ev = Ok w' → spans_rel w' (Scan.step s ev).
Proof.
  intros Hinv Hd Hev [H1 H2 H3 H4 H5 H6 H7] H.
  destruct (walkR_content w ev w' Hinv Hev H) as (E1 & E2 & ->).
  assert (Scan.ignored s = false) as Hig.
  { unfold Scan.ignored. rewrite (toolsOpen_dom w s Hd), E1, H3, H4, E2.
    by destruct (bool_decide _). }
  destruct ev; try done; simpl; rewrite Hig; split; simpl; auto; by destruct w.
Qed.

Lemma spans_rel_step w s ev w' :
  walker_inv w → dom (Scan.openTools s) = dom (openTools w) →
  spans_rel w s → walkR w ev = Ok w' → spans_rel w' (Scan.step s ev).
Proof.
  intros Hinv Hd Hrel H.
  destruct ev as [x|x| |i b|i|i a o|sig| | | |];
    eauto using spans_rel_start, spans_rel_stop, spans_rel_signature;
    try (eapply spans_rel_content; by eauto);
    destruct w as [nt ot sn se ms so st p]; destruct Hrel as [H1 H2 H3 H4 H5 H6 H7]; simpl in *;
    unfold in_text_block in *; simpl in *;
    split_walk H; unfold Scan.onToolDelta; try (destruct (Scan.openTools s !! i));
    split; simpl; unfold in_text_block; simpl; auto.
  by rewrite bool_decide_eq_false_2.
Qed.

(** ** What the scan computes on a disciplined stream *)

(** Scopes enter the list only from a builder, so each was found. *)
Lemma scan_scope_found evs sc : sc ∈ Scan.toolScopes (Scan.run evs) → sc_found sc = true.
Proof.
  induction evs as [|ev evs IH] using rev_ind; [by intros ?%not_elem_of_nil|].
  unfold Scan.run. rewrite foldl_app. simpl. fold (Scan.run evs).
  generalize (Scan.run evs), IH; clear IH; intros s IH.
  destruct ev as [| | |i b|i|i a o|sig| | | |]; simpl; try done;
    try (destruct (Scan.ignored s); done).
  - unfold Scan.onStart. destruct (closeSpan_tools s) as [_ E].
    destruct b; simpl; try case_match; simpl; by rewrite E.
  - unfold Scan.onStop. destruct (Scan.openTools s !! i) as [b|]; simpl.
    + rewrite elem_of_app, list_elem_of_singleton. intros [?| ->]; auto.
    + rewrite (proj2 (closeSpan_tools _)). by case_match.
  - unfold Scan.onToolDelta. by case_match.
  - unfold Scan.onSignature. destruct (Scan.spanOpen s || _); simpl.
    + case_match; simpl; rewrite ?(proj2 (closeSpan_tools s)); done.
    + by destruct (Scan.blockOpen s || _).
Qed.

Lemma scan_rel evs w :
  walkAll walker0 evs = Ok w →
  walker_inv w ∧ tools_rel evs w (Scan.run evs) ∧ spans_rel w (Scan.run evs).
Proof.
  revert w. apply (foldM_ind walkR (λ evs w,
    walker_inv w ∧ tools_rel evs w (Scan.run evs) ∧ spans_rel w (Scan.run evs))).
  - eauto using walker_inv_0, tools_rel_0, spans_rel_0.
  - intros done s ev s' (Hinv & Ht & Hs) H. unfold Scan.run. rewrite foldl_app. simpl.
    split; [by eapply walkR_inv|]. split; [by eapply tools_rel_step|].
    eapply spans_rel_step; eauto. by eapply tl_dom.
Qed.

(** The one-pass scan agrees with the per-index definition: on a disciplined
    prefix the tool scopes it reports are exactly [toolCallScopeOf] at their
    indices, no index is reported twice, and an index has a scope in the
    stream iff it was reported or its block is still open. *)
Theorem scan_tool_scopes evs w :
  walkAll walker0 evs = Ok w →
  let scopes := v_toolScopes (scanStreamSignatures evs) in
  (∀ sc, sc ∈ scopes → sc = toolCallScopeOf evs (sc_index sc)) ∧
  NoDup (sc_index <$> scopes) ∧
  (∀ i, sc_found (toolCallScopeOf evs i) = true ↔
        i ∈ sc_index <$> scopes ∨ is_Some (openTools w !! i)).
Proof.
  intros H. destruct (scan_rel evs w H) as (Hinv & [Hd Ho Hf Hn Hfr Hst] & _). simpl.
  rewrite (proj2 (closeSpan_tools _)). split; [intros sc Hsc; by apply Hf|]. split; [done|].
  intros i. split.
  - intros [Hi|Hi]%Hst; [right; by apply elem_of_dom|by left].
  - assert (Hopen : ∀ b, builder_scope b = toolCallScopeOf evs i →
                         sc_found (toolCallScopeOf evs i) = true) by (by intros b <-).
    intros [Hi|Hi].
    + apply list_elem_of_fmap in Hi as (sc & -> & Hsc).
      destruct (Hf sc Hsc) as (E & _).
      assert (Hb : sc_found sc = true) by by eapply scan_scope_found.
      by rewrite <- E.
    + apply elem_of_dom in Hi. rewrite <- Hd in Hi. apply elem_of_dom in Hi as [b Hb]. eauto.
Qed.

Lemma scan_unbound_free evs w :
  walkAll walker0 evs = Ok w →
  Forall (λ b, bd_kind b ≠ sigBindingUnbound) (v_bindings (scanStreamSignatures evs)).
Proof.
  intros H. destruct (scan_rel evs w H) as (_ & _ & Hs). simpl.
  destruct (closeSpan_rest (Scan.run evs)) as (_ & _ & _ & _ & ->). apply (sp_bound _ _ Hs).
Qed.

(** The "unbound signature" rule is redundant on a disciplined prefix: the
    scan of a stream the walker accepts records no unbound signature, so every
    token it reports is bound to the content of the open block or to the
    message's trailing content. *)
Theorem scan_no_unbound evs w :
  walkAll walker0 evs = Ok w →
  Forall (λ b, bd_kind b ≠ sigBindingUnbound) (v_bindings (scanStreamSignatures evs)).
Proof. apply scan_unbound_free. Qed.

Lemma scan_tool_scopes_witness :
  ∃ w, walkAll walker0 demo_stream = Ok w ∧
  let scopes := v_toolScopes (scanStreamSignatures demo_stream) in
  length scopes = 2 ∧
  (∀ sc, sc ∈ scopes → sc = toolCallScopeOf demo_stream (sc_index sc)).
Proof.
  eexists. split; [vm_compute; reflexivity|]. split; [vm_compute; reflexivity|].
  eapply scan_tool_scopes. vm_compute; reflexivity.
Defined.

Lemma scan_no_unbound_witness :
  ∃ w, walkAll walker0 demo_stream = Ok w ∧
  length (v_bindings (scanStreamSignatures demo_stream)) = 1 ∧
  Forall (λ b, bd_kind b ≠ sigBindingUnbound) (v_bindings (scanStreamSignatures demo_stream)).
Proof.
  eexists. split; [vm_compute; reflexivity|]. split; [vm_compute; reflexivity|].
  eapply scan_no_unbound. vm_compute; reflexivity.
Defined.
