(* ===== verification/SignatureVerify.v ===== *)
(** * Bound-signature verification

    [verifyStream] and [verifyStreamPrefix] ([internal/plugin/streamverify.go])
    compare the stream a plugin was handed with the stream it returned on two
    axes: bound provider signatures and the signed-block topology.

    The per-token rule, [outboundpolicy.ClassifySignatureMutation], belongs to
    the plugin SDK.  It is the parameter [SignaturePolicy], with what the
    verifier relies on as [SignaturePolicyLaws].

    Theorems: an untouched stream passes with no grant ([verify_passthrough]);
    a plugin can mint or move no token, whatever its grants
    ([no_minted_tool_signature], [no_minted_delta_signature],
    [returned_bindings_bound]); without [ir.stream.write] a signed block is
    reproduced or visibly rewritten, never suppressed or stripped
    ([signed_tool_kept], [signed_span_kept], [trailing_token_kept]). *)

From stdpp Require Import base list strings gmap sets numbers.
From S2P Require Import Prelude Matching StreamEvents Discipline SignatureScan.

(** ** The SDK's per-token rule *)

Inductive SignatureMutation :=
| SignatureIntact | SignatureCleared | SignatureDropped
| SignatureStale | SignatureForged | SignatureAdded.

#[export] Instance SignatureMutation_eq_dec : EqDecision SignatureMutation.
Proof. solve_decision. Defined.

(** [ClassifySignatureMutation(accepted, returned, contentChanged)] and the
    class's [Allowed()]. *)
Class SignaturePolicy := {
  ClassifySignatureMutation : string → string → bool → SignatureMutation;
  Allowed : SignatureMutation → bool }.

(** The documented classes: a surviving token must be the accepted one over
    unchanged content (otherwise stale, forged or added); a vanished token must
    be over changed content (cleared), not over unchanged content (dropped);
    leaving an unsigned scope unsigned is intact. *)
Class SignaturePolicyLaws (P : SignaturePolicy) : Prop := {
  allowed_token : ∀ a r ch,
    Allowed (ClassifySignatureMutation a r ch) = true → r ≠ "" → r = a ∧ ch = false;
  allowed_cleared : ∀ a ch,
    Allowed (ClassifySignatureMutation a "" ch) = true → a ≠ "" → ch = true }.

(** ** Errors *)

Inductive verifyErr :=
| AcceptedDefect (e : streamErr)
| ToolBlockSignature (idx : Z) (class : SignatureMutation)
| InventedSignedTool (idx : Z)
| InventedTool (idx : Z)
| SuppressedSignedTool (idx : Z)
| DeltaForged (k : sigBindingKind)
| DeltaAdded (k : sigBindingKind)
| DeltaAmbiguous (k : sigBindingKind) (n : nat)
| DeltaStale (k : sigBindingKind)
| DeltaDropped (k : sigBindingKind)
| SuppressedSignedBlock
| DeltaUnbound.

Definition streamWriteGrant : string := "ir.stream.write".

Definition signed (s : string) : bool := negb (String.eqb s "").

(** ** Tool scopes *)

Section ToolScopes.
Context {P : SignaturePolicy}.
Context (canWrite : string → bool).

Definition scopes_exact (a r : toolCallScope) : bool :=
  String.eqb (sc_signature a) (sc_signature r) && toolCallCoveredContentEqual a r.

(** [for i := range accepted { if accepted[i].index == r.index { ai = i; break } }] *)
Definition sameIndex (accepted : list toolCallScope) (r : toolCallScope) : option nat :=
  fst <$> list_find (λ a, sc_index a = sc_index r) accepted.

(** Phases 2, 2b and 3 for one returned scope. *)
Definition correlate (accepted : list toolCallScope) (c : list bool) (r : toolCallScope)
    : res verifyErr (list bool) :=
  let fallback :=
    match first_free (λ a, toolCallCoveredContentEqual a r) accepted c with
    | Some m =>
        match accepted !! m with
        | Some a =>
            let class := ClassifySignatureMutation (sc_signature a) (sc_signature r) false in
            if Allowed class then Ok (<[m := true]> c)
            else Err (ToolBlockSignature (sc_index r) class)
        | None => Ok c
        end
    | None =>
        if signed (sc_signature r) then Err (InventedSignedTool (sc_index r))
        else if canWrite streamWriteGrant then Ok c
        else Err (InventedTool (sc_index r))
    end in
  match sameIndex accepted r with
  | Some ai =>
      match accepted !! ai, c !! ai with
      | Some a, Some false =>
          let class := ClassifySignatureMutation (sc_signature a) (sc_signature r)
                         (toolCallContentChanged a r) in
          if Allowed class then Ok (<[ai := true]> c)
          else Err (ToolBlockSignature (sc_index r) class)
      | _, _ => fallback
      end
  | None => fallback
  end.

Fixpoint correlateAll (accepted returned : list toolCallScope) (rc c : list bool)
    : res verifyErr (list bool) :=
  match returned, rc with
  | r :: returned', done :: rc' =>
      if (done : bool) then correlateAll accepted returned' rc' c
      else c' ←? correlate accepted c r; correlateAll accepted returned' rc' c'
  | _, _ => Ok c
  end.

(** Phase 4. *)
Fixpoint suppressed (accepted : list toolCallScope) (c : list bool) : res verifyErr unit :=
  match accepted, c with
  | a :: accepted', done :: c' =>
      if (done : bool) || negb (signed (sc_signature a)) then suppressed accepted' c'
      else if canWrite streamWriteGrant then suppressed accepted' c'
      else Err (SuppressedSignedTool (sc_index a))
  | _, _ => Ok tt
  end.

Definition verifyToolScopes (accepted returned : list toolCallScope) : res verifyErr unit :=
  let '(c, rc) := consume_exact (λ _, true) scopes_exact accepted returned (all_free accepted) in
  c' ←? correlateAll accepted returned rc c;
  suppressed accepted c'.
End ToolScopes.

(** ** Signature-delta bindings *)

Section Bindings.
Context (canWrite : string → bool).

Definition verifyUnpairedBinding (kind : sigBindingKind) (ab : sigBinding)
    (rv : streamSignatureView) : res verifyErr unit :=
  let gate := if canWrite streamWriteGrant then Ok tt else Err SuppressedSignedBlock in
  if decide (kind = sigBindingTrailing) then
    if content_equals (v_closed rv) (bd_content ab) then Err (DeltaDropped sigBindingTrailing)
    else if content_isEmpty (v_closed rv) && negb (v_sawContent rv) then gate
    else Ok tt
  else
    let n := Z.of_nat (length (v_spans rv)) in
    if bool_decide (0 ≤ bd_span ab)%Z && bool_decide (n ≤ bd_span ab)%Z then gate
    else if content_isEmpty (bd_content ab) then
      match (if bool_decide (0 ≤ bd_span ab < n)%Z
             then v_spans rv !! Z.to_nat (bd_span ab) else None) with
      | Some sp =>
          if negb (content_sameKind sp (bd_content ab)) then gate
          else Err (DeltaDropped sigBindingCurrent)
      | None => Err (DeltaDropped sigBindingCurrent)
      end
    else Ok tt.

Definition ofKind (kind : sigBindingKind) (bs : list sigBinding) : list sigBinding :=
  filter (λ b, bd_kind b = kind) bs.

Definition bindings_exact (a r : sigBinding) : bool :=
  String.eqb (bd_signature a) (bd_signature r) && content_equals (bd_content a) (bd_content r).

(** Phase 2: the first returned token with no exact match is the verdict. *)
Definition phase2_verdict (kind : sigBindingKind) (acc : list sigBinding) (c : list bool)
    (r : sigBinding) : verifyErr :=
  let free := select false acc c in
  match filter (λ a, bd_signature a = bd_signature r) free with
  | [] => if decide (free = []) then DeltaAdded kind else DeltaForged kind
  | first :: rest =>
      if forallb (λ a, content_equals (bd_content a) (bd_content first)) rest
      then DeltaStale kind else DeltaAmbiguous kind (S (length rest))
  end.

Fixpoint phase2 (kind : sigBindingKind) (acc : list sigBinding) (c : list bool)
    (ret : list sigBinding) (rc : list bool) : res verifyErr unit :=
  match ret, rc with
  | r :: ret', done :: rc' =>
      if negb (signed (bd_signature r)) || (done : bool) then phase2 kind acc c ret' rc'
      else Err (phase2_verdict kind acc c r)
  | _, _ => Ok tt
  end.

(** [map[typedContent]int] with Go's zero default. *)
Definition counts := typedContent → Z.
Definition bump (d : Z) (k : typedContent) (m : counts) : counts :=
  λ x, if decide (x = k) then (m x + d)%Z else m x.

(** The span of a returned binding, when it names one. *)
Definition ownSpan (spans : list typedContent) (b : sigBinding) : option typedContent :=
  if bool_decide (0 ≤ bd_span b < Z.of_nat (length spans))%Z
  then spans !! Z.to_nat (bd_span b) else None.

(** [remaining] after the exact matches' own spans are reserved. *)
Definition reserved (spans : list typedContent) (ret : list sigBinding) (rc : list bool) : counts :=
  foldl (λ m b, match ownSpan spans b with Some s => bump (-1) s m | None => m end)
    (foldl (λ m s, bump 1 s m) (λ _, 0%Z) spans)
    (select true ret rc).

(** Unsigned twins claim surviving spans first. *)
Definition claimTwins (signedOrdinals : Z → bool) (aspans : list typedContent) (m0 : counts)
    : counts * (typedContent → bool) :=
  let '(_, m, tw) :=
    foldl (λ '(o, m, tw) s,
      if signedOrdinals o || bool_decide (m s = 0%Z) then ((o + 1)%Z, m, tw)
      else ((o + 1)%Z, bump (-1) s m, λ x, if decide (x = s) then true else tw x))
      (0%Z, m0, λ _, false) aspans in (m, tw).

Definition signedOrdinal (acc : list sigBinding) (o : Z) : bool :=
  existsb (λ b, signed (bd_signature b) && bool_decide (0 ≤ bd_span b)%Z
                && bool_decide (bd_span b = o)) acc.

(** Phase 3 for one accepted occurrence; [used] is [emptyUsed]. *)
Definition phase3_one (kind : sigBindingKind) (rv : streamSignatureView)
    (emptyRet : list sigBinding) (remaining : counts) (twin : typedContent → bool)
    (used : list bool) (a : sigBinding) : res verifyErr (list bool) :=
  if (if decide (kind = sigBindingTrailing)
      then content_equals (v_closed rv) (bd_content a)
      else bool_decide (0 < remaining (bd_content a))%Z)
  then Err (DeltaDropped kind)
  else match first_free (λ m, content_equals (bd_content m) (bd_content a)) emptyRet used with
  | Some _ => Err (DeltaDropped kind)
  | None =>
      match first_free (λ m, Z.eqb (bd_span m) (bd_span a)) emptyRet used with
      | Some k =>
          if content_isEmpty (bd_content a)
          then _ ←? verifyUnpairedBinding kind a rv; Ok (<[k := true]> used)
          else Ok (<[k := true]> used)
      | None =>
          if bool_decide (kind = sigBindingCurrent) && twin (bd_content a) then
            if canWrite streamWriteGrant then Ok used else Err SuppressedSignedBlock
          else _ ←? verifyUnpairedBinding kind a rv; Ok used
      end
  end.

Definition verifyKind (av rv : streamSignatureView) (kind : sigBindingKind)
    : res verifyErr unit :=
  let acc := ofKind kind (v_bindings av) in
  let ret := ofKind kind (v_bindings rv) in
  let '(c, rc) := consume_exact (λ r, signed (bd_signature r)) bindings_exact
                    acc ret (all_free acc) in
  _ ←? phase2 kind acc c ret rc;
  let emptyRet := filter (λ b, bd_signature b = "") ret in
  let '(remaining, twin) :=
    if decide (kind = sigBindingCurrent)
    then claimTwins (signedOrdinal acc) (v_spans av) (reserved (v_spans rv) ret rc)
    else (λ _, 0%Z, λ _, false) in
  _ ←? foldM (phase3_one kind rv emptyRet remaining twin)
         (replicate (length emptyRet) false)
         (filter (λ b, bd_signature b ≠ "") (select false acc c));
  Ok tt.

Definition verifySignatureDeltaBindings (av rv : streamSignatureView) : res verifyErr unit :=
  _ ←? verifyKind av rv sigBindingCurrent;
  _ ←? verifyKind av rv sigBindingTrailing;
  if existsb (λ b, bool_decide (bd_kind b = sigBindingUnbound)) (v_bindings rv)
  then Err DeltaUnbound else Ok tt.
End Bindings.

(** ** The entry points *)

Section Verify.
Context {P : SignaturePolicy}.

Definition verifyViews (accepted returned : list pbEvent) (canWrite : string → bool)
    : res verifyErr unit :=
  let av := scanStreamSignatures accepted in
  let rv := scanStreamSignatures returned in
  _ ←? verifyToolScopes canWrite (v_toolScopes av) (v_toolScopes rv);
  verifySignatureDeltaBindings canWrite av rv.

Definition verifyStream (accepted returned : list pbEvent) (canWrite : string → bool)
    : res verifyErr unit :=
  _ ←? map_err AcceptedDefect (validateAcceptedStream accepted);
  verifyViews accepted returned canWrite.

Definition verifyStreamPrefix (accepted returned : list pbEvent) (canWrite : string → bool)
    : res verifyErr unit :=
  _ ←? map_err AcceptedDefect (walkAll walker0 accepted);
  verifyViews accepted returned canWrite.
End Verify.

(** ** Facts the comparisons are about *)

(** A tool token with the content it covers; a delta token with its content. *)
Definition tool_key (s : toolCallScope) := (sc_signature s, covered s).
Definition delta_key (b : sigBinding) : string * typedContent := (bd_signature b, bd_content b).

Definition signed_tools (evs : list pbEvent) :=
  tool_key <$> filter (λ s, sc_signature s ≠ "") (v_toolScopes (scanStreamSignatures evs)).

Definition signed_deltas (kind : sigBindingKind) (evs : list pbEvent) :=
  delta_key <$> filter (λ b, bd_signature b ≠ "")
    (ofKind kind (v_bindings (scanStreamSignatures evs))).

Lemma signed_true s : signed s = true ↔ s ≠ "".
Proof. unfold signed. rewrite negb_true_iff, String.eqb_neq. done. Qed.
Lemma signed_false s : signed s = false ↔ s = "".
Proof. unfold signed. rewrite negb_false_iff, String.eqb_eq. done. Qed.

Lemma scopes_exact_spec a r : scopes_exact a r = true ↔ tool_key a = tool_key r.
Proof.
  unfold scopes_exact, tool_key. rewrite andb_true_iff, String.eqb_eq, covered_equal_spec.
  split; [by intros [-> ->]|]. intros H. split; congruence.
Qed.

Lemma bindings_exact_spec a r : bindings_exact a r = true ↔ delta_key a = delta_key r.
Proof.
  unfold bindings_exact, delta_key. rewrite andb_true_iff, String.eqb_eq, content_equals_spec.
  split; [by intros [-> ->]|]. intros H. split; congruence.
Qed.

(** If every signed occurrence on the right was matched one-to-one, the signed
    keys on the right are a sub-multiset of those on the left. *)
Lemma signed_keys_submseteq {A B K} (kA : A → K) (kB : B → K) (sA : A → Prop) (sB : B → Prop)
    `{∀ a, Decision (sA a)} `{∀ b, Decision (sB b)} (R : A → B → bool)
    elig acc ret c rc :
  (∀ a b, R a b = true → kA a = kB b) →
  (∀ a b, kA a = kB b → sB b → sA a) →
  consume_exact elig R acc ret (all_free acc) = (c, rc) →
  (∀ r, r ∈ select false ret rc → ¬ sB r) →
  kB <$> filter sB ret ⊆+ kA <$> filter sA acc.
Proof.
  intros HR HsAB E Hun.
  assert (Hlen : length (all_free acc) = length acc) by apply length_replicate.
  destruct (consume_exact_perm kA kB elig R HR _ _ _ _ _ Hlen E) as (_ & L2 & Hp).
  rewrite select_all_free in Hp.
  assert (filter sB ret ≡ₚ filter sB (select true ret rc)) as ->.
  { rewrite (select_split ret rc L2) at 1. rewrite list.filter_app.
    rewrite (filter_none_nil sB (select false ret rc)) by done. by rewrite app_nil_r. }
  assert (Hmem : ∃ acc', acc' ⊆+ acc ∧ kA <$> acc' = kB <$> select true ret rc).
  { rewrite Permutation_app_comm in Hp. clear -Hp.
    symmetry in Hp. apply Permutation_map_inv in Hp as (l & El & Hl).
    symmetry in El. apply fmap_app_inv in El as (l1 & l2 & E1 & E2 & ->).
    exists l1. split; [|done]. rewrite Hl. apply submseteq_inserts_r. done. }
  destruct Hmem as (acc' & Hsub & Hk).
  assert (kB <$> filter sB (select true ret rc) ⊆+ kA <$> filter sA acc') as Hfil.
  { clear -Hk HsAB. revert acc' Hk. induction (select true ret rc) as [|r l IH]; intros [|a acc'];
      simpl; try done. intros [= Ha Hl]. rewrite !filter_cons.
    destruct (decide (sB r)) as [Hr|Hr].
    - rewrite decide_True by eauto. simpl. rewrite Ha. apply submseteq_skip. auto.
    - destruct (decide (sA a)); simpl; [apply submseteq_cons|]; auto. }
  rewrite Hfil. apply fmap_submseteq. by apply filter_submseteq.
Qed.

(** ** Tool scopes: what a successful correlation implies *)

Section ToolFacts.
Context {P : SignaturePolicy} {L : SignaturePolicyLaws P}.
Context (canWrite : string → bool).
Implicit Types (accepted returned : list toolCallScope) (c rc : list bool).

(** How an accepted scope [a] was taken by a returned scope [r] in phases 2
    and 2b. *)
Definition correlated (a r : toolCallScope) : Prop :=
  (sc_index a = sc_index r ∧
   Allowed (ClassifySignatureMutation (sc_signature a) (sc_signature r)
              (toolCallContentChanged a r)) = true) ∨
  (covered a = covered r ∧
   Allowed (ClassifySignatureMutation (sc_signature a) (sc_signature r) false) = true).

(** One correlation step either takes one free accepted scope or takes
    nothing, and then the returned scope is an unsigned invention. *)
Lemma correlate_ok accepted c r c' :
  length c = length accepted →
  correlate canWrite accepted c r = Ok c' →
  (c' = c ∧ sc_signature r = "" ∧ canWrite streamWriteGrant = true) ∨
  (∃ i a, accepted !! i = Some a ∧ c !! i = Some false ∧ c' = <[i := true]> c ∧ correlated a r).
Proof.
  intros Hlen H. unfold correlate in H.
  set (fb := match first_free _ accepted c with Some m => _ | None => _ end) in H.
  assert (Hfb : fb = Ok c' →
    (c' = c ∧ sc_signature r = "" ∧ canWrite streamWriteGrant = true) ∨
    (∃ i a, accepted !! i = Some a ∧ c !! i = Some false ∧ c' = <[i := true]> c
            ∧ correlated a r)).
  { subst fb. destruct (first_free _ accepted c) as [m|] eqn:E.
    - apply first_free_Some in E as (a & Ha & Hc & Heq). rewrite Ha. intros Hok.
      destruct (Allowed _) eqn:EA; [|done]. inv_ok. right. exists m, a.
      repeat split; auto. right. by apply covered_equal_spec in Heq.
    - destruct (signed _) eqn:Es; [done|]. destruct (canWrite _) eqn:Eg; [|done].
      intros Hok; inv_ok. left. by apply signed_false in Es. }
  unfold sameIndex in H. destruct (list_find _ accepted) as [[ai a]|] eqn:Ef; simpl in H; [|auto].
  apply list_find_Some in Ef as (Ha & Hidx & _). rewrite Ha in H.
  destruct (c !! ai) as [[]|] eqn:Ec; [auto| |auto].
  destruct (Allowed _) eqn:EA; [|done]. inv_ok. right. exists ai, a. repeat split; auto. by left.
Qed.

Lemma correlated_signed a r :
  correlated a r → sc_signature r ≠ "" → tool_key a = tool_key r.
Proof.
  unfold tool_key. intros [[_ H]|[Hc H]] Hr; apply allowed_token in H as [-> Hch]; try done.
  - by rewrite (proj1 (content_changed_spec a r) Hch).
  - by rewrite Hc.
Qed.

(** After the exact pass, a correlation that succeeds is of unsigned scopes. *)
Lemma correlate_unsigned accepted c r c' :
  length c = length accepted →
  (∀ a, a ∈ select false accepted c → tool_key a ≠ tool_key r) →
  correlate canWrite accepted c r = Ok c' →
  sc_signature r = "" ∧ length c' = length accepted ∧
  (∀ a, a ∈ select false accepted c' → a ∈ select false accepted c).
Proof.
  intros Hlen Hno H.
  destruct (correlate_ok _ _ _ _ Hlen H) as [(-> & ? & _)|(i & a & Ha & Hc & -> & Hcor)]; [done|].
  rewrite length_insert. split; [|split; [done|by apply select_false_subset]].
  destruct (decide (sc_signature r = "")) as [|Hr]; [done|].
  exfalso. eapply Hno; [|by eapply correlated_signed]. apply elem_of_select. eauto.
Qed.

Lemma correlateAll_unsigned accepted returned rc c c' :
  length c = length accepted →
  (∀ a r, a ∈ select false accepted c → r ∈ select false returned rc → tool_key a ≠ tool_key r) →
  correlateAll canWrite accepted returned rc c = Ok c' →
  length c' = length accepted ∧ (∀ r, r ∈ select false returned rc → sc_signature r = "").
Proof.
  revert rc c; induction returned as [|r returned IH]; intros [|[] rc] c Hlen Hno H;
    simpl in *; inv_ok; try (split; [done|by intros ? ?%not_elem_of_nil]); eauto.
  edestruct correlate_unsigned as (Hr & Hl & Hsub);
    [exact Hlen| |eassumption|]; [intros a Ha; eapply Hno; eauto; left|].
  destruct (IH rc x) as [? Hrest]; auto.
  { intros a r' Ha Hr'. eapply Hno; eauto. by right. }
  split; [done|]. intros r' [->|?]%elem_of_cons; auto.
Qed.

Lemma correlateAll_flag accepted returned rc c c' i a :
  length c = length accepted →
  correlateAll canWrite accepted returned rc c = Ok c' →
  accepted !! i = Some a → c' !! i = Some true →
  c !! i = Some true ∨ ∃ r, r ∈ select false returned rc ∧ correlated a r.
Proof.
  revert rc c; induction returned as [|r returned IH]; intros [|[] rc] c Hlen H Ha Hc;
    simpl in *; inv_ok; auto.
  destruct (correlate_ok _ _ _ _ Hlen ltac:(eassumption))
    as [(-> & _)|(k & a' & Ha' & Hk & -> & Hcor)].
  - destruct (IH rc c Hlen H Ha Hc) as [|(r' & ? & ?)]; [by left|].
    right. exists r'. split; [by right|done].
  - destruct (IH rc (<[k:=true]> c)) as [Hi|(r' & ? & ?)]; auto; [by rewrite length_insert| |].
    + destruct (decide (k = i)) as [->|Hne].
      * simplify_eq. right. exists r. split; [left|done].
      * rewrite list_lookup_insert_ne in Hi by done. auto.
    + right. exists r'. split; [by right|done].
Qed.

Lemma suppressed_flag accepted c i a :
  canWrite streamWriteGrant = false → suppressed canWrite accepted c = Ok tt →
  accepted !! i = Some a → sc_signature a ≠ "" → length c = length accepted →
  c !! i = Some true.
Proof.
  intros Hg. revert c i; induction accepted as [|x accepted IH]; intros [|b c] i; simpl; try done.
  rewrite Hg. intros H Ha Hs [= Hlen]. destruct i as [|i]; simpl in *.
  - simplify_eq. apply signed_true in Hs. rewrite Hs in H. simpl in H.
    rewrite orb_false_r in H. by destruct b.
  - destruct (_ || _) in H; [|done]. eauto.
Qed.
End ToolFacts.

Section ToolTheorems.
Context {P : SignaturePolicy} {L : SignaturePolicyLaws P}.
Context (canWrite : string → bool).

Lemma verifyToolScopes_split accepted returned :
  verifyToolScopes canWrite accepted returned = Ok tt →
  ∃ c rc c', consume_exact (λ _, true) scopes_exact accepted returned (all_free accepted) = (c, rc)
    ∧ length c = length accepted ∧ length rc = length returned ∧ length c' = length accepted
    ∧ correlateAll canWrite accepted returned rc c = Ok c'
    ∧ suppressed canWrite accepted c' = Ok tt
    ∧ (∀ r, r ∈ select false returned rc → sc_signature r = "").
Proof.
  unfold verifyToolScopes. destruct (consume_exact _ _ _ _ _) as [c rc] eqn:E. intros H; inv_ok.
  assert (Hlen : length (all_free accepted) = length accepted) by apply length_replicate.
  destruct (consume_exact_perm tool_key tool_key _ _ (λ a b, proj1 (scopes_exact_spec a b))
              _ _ _ _ _ Hlen E) as (L1 & L2 & _).
  destruct (consume_exact_maximal tool_key tool_key _ _
              (λ a b, proj1 (scopes_exact_spec a b)) (λ a b, proj2 (scopes_exact_spec a b))
              _ _ _ _ _ Hlen E) as [_ Hmax].
  destruct (correlateAll_unsigned canWrite accepted returned rc c x) as [? ?]; auto.
  by exists c, rc, x.
Qed.

Lemma verifyToolScopes_no_mint accepted returned :
  verifyToolScopes canWrite accepted returned = Ok tt →
  tool_key <$> filter (λ s, sc_signature s ≠ "") returned ⊆+
  tool_key <$> filter (λ s, sc_signature s ≠ "") accepted.
Proof.
  intros (c & rc & c' & E & _ & _ & _ & _ & _ & Hun)%verifyToolScopes_split.
  eapply (signed_keys_submseteq tool_key tool_key (λ s, sc_signature s ≠ "")
            (λ s, sc_signature s ≠ "")); [| |exact E|]; auto.
  { intros a b. apply scopes_exact_spec. }
  unfold tool_key. intros a b [= -> _]. done.
Qed.

Lemma verifyToolScopes_kept accepted returned a :
  canWrite streamWriteGrant = false →
  verifyToolScopes canWrite accepted returned = Ok tt →
  a ∈ accepted → sc_signature a ≠ "" →
  (∃ r, r ∈ returned ∧ tool_key r = tool_key a) ∨
  (∃ r, r ∈ returned ∧ sc_index r = sc_index a ∧ sc_signature r = "" ∧ covered r ≠ covered a).
Proof.
  intros Hg (c & rc & c' & E & L1 & L2 & L3 & Hcor & Hsup & Hun)%verifyToolScopes_split Ha Hs.
  apply list_elem_of_lookup in Ha as [i Hi].
  pose proof (suppressed_flag canWrite _ _ _ _ Hg Hsup Hi Hs L3) as Hf.
  destruct (correlateAll_flag canWrite _ _ _ _ _ _ _ L1 Hcor Hi Hf) as [Hf1|(r & Hr & Hc)].
  - destruct (consume_exact_flag _ _ _ _ _ _ _ _ _ E Hi Hf1) as [Hfree|(r & Hr & HR)].
    { unfold all_free in Hfree. by apply lookup_replicate in Hfree as [? _]. }
    left. exists r. split; [by eapply select_subset|].
    symmetry. by apply scopes_exact_spec.
  - right. exists r. pose proof (Hun r Hr) as Hu.
    split; [by eapply select_subset|].
    destruct Hc as [[Hidx HA]|[Hcov HA]]; rewrite Hu in HA; apply allowed_cleared in HA; try done.
    split; [done|]. split; [done|]. intros Heq.
    assert (toolCallContentChanged a r = false) by (by apply content_changed_spec). congruence.
Qed.

Lemma verifyViews_tools accepted returned :
  verifyViews accepted returned canWrite = Ok tt →
  verifyToolScopes canWrite (v_toolScopes (scanStreamSignatures accepted))
    (v_toolScopes (scanStreamSignatures returned)) = Ok tt.
Proof. unfold verifyViews. intros H; inv_ok. by destruct x. Qed.

(** Tool-call tokens cannot be minted, moved or duplicated: whatever grants
    the plugin holds, when the verifier accepts its output the multiset of
    (token, covered tool content) pairs of the closed signed tool blocks it
    returned is contained in the multiset it was handed. *)
Theorem no_minted_tool_signature accepted returned :
  verifyStreamPrefix accepted returned canWrite = Ok tt →
  signed_tools returned ⊆+ signed_tools accepted.
Proof.
  unfold verifyStreamPrefix. intros H; inv_ok.
  by apply verifyToolScopes_no_mint, verifyViews_tools.
Qed.

(** C2. A signed tool block cannot be suppressed or stripped without
    [ir.stream.write]: each one the plugin was handed comes back with the same
    token over the same covered content, or at the same block index with the
    token cleared and the covered content really changed. *)
Theorem signed_tool_kept accepted returned a :
  canWrite streamWriteGrant = false →
  verifyStreamPrefix accepted returned canWrite = Ok tt →
  a ∈ v_toolScopes (scanStreamSignatures accepted) → sc_signature a ≠ "" →
  (∃ r, r ∈ v_toolScopes (scanStreamSignatures returned) ∧ tool_key r = tool_key a) ∨
  (∃ r, r ∈ v_toolScopes (scanStreamSignatures returned) ∧ sc_index r = sc_index a ∧
        sc_signature r = "" ∧ covered r ≠ covered a).
Proof.
  unfold verifyStreamPrefix. intros Hg H; inv_ok.
  eapply verifyToolScopes_kept; eauto using verifyViews_tools.
Qed.
End ToolTheorems.

(** ** Signature-delta bindings *)

Lemma phase2_ok kind acc c ret rc :
  length rc = length ret → phase2 kind acc c ret rc = Ok tt ↔
  ∀ r, r ∈ select false ret rc → bd_signature r = "".
Proof.
  revert rc; induction ret as [|r ret IH]; intros [|b rc]; simpl; try done.
  - intros _. split; [by intros _ ? ?%not_elem_of_nil|done].
  - intros [= Hlen]. destruct b; simpl.
    + rewrite orb_true_r. auto.
    + rewrite orb_false_r. destruct (signed (bd_signature r)) eqn:E; simpl.
      * apply signed_true in E. split; [done|]. intros H. destruct E. apply H. left.
      * apply signed_false in E. rewrite IH by done. split; intros H r'.
        -- intros [->|?]%elem_of_cons; auto.
        -- intros ?. apply H. by right.
Qed.

Section BindingTheorems.
Context {P : SignaturePolicy}.
Context (canWrite : string → bool).

Lemma verifyKind_split av rv kind :
  verifyKind canWrite av rv kind = Ok tt →
  ∃ c rc, consume_exact (λ r, signed (bd_signature r)) bindings_exact
            (ofKind kind (v_bindings av)) (ofKind kind (v_bindings rv))
            (all_free (ofKind kind (v_bindings av))) = (c, rc) ∧
    length c = length (ofKind kind (v_bindings av)) ∧
    length rc = length (ofKind kind (v_bindings rv)) ∧
    (∀ r, r ∈ select false (ofKind kind (v_bindings rv)) rc → bd_signature r = "").
Proof.
  unfold verifyKind. destruct (consume_exact _ _ _ _ _) as [c rc] eqn:E. intros H.
  apply res_bind_ok in H as ([] & H2 & _).
  destruct (consume_exact_perm delta_key delta_key _ _ (λ a b, proj1 (bindings_exact_spec a b))
              _ _ _ _ _ (length_replicate _ _) E) as (L1 & L2 & _).
  exists c, rc. split; [done|]. split; [done|]. split; [done|]. exact (proj1 (phase2_ok _ _ _ _ _ L2) H2).
Qed.

Lemma verifyKind_no_mint av rv kind :
  verifyKind canWrite av rv kind = Ok tt →
  delta_key <$> filter (λ b, bd_signature b ≠ "") (ofKind kind (v_bindings rv)) ⊆+
  delta_key <$> filter (λ b, bd_signature b ≠ "") (ofKind kind (v_bindings av)).
Proof.
  intros (c & rc & E & _ & _ & Hun)%verifyKind_split.
  eapply (signed_keys_submseteq delta_key delta_key (λ b, bd_signature b ≠ "")
            (λ b, bd_signature b ≠ "")); [| |exact E|]; auto.
  { intros a b. apply bindings_exact_spec. }
  unfold delta_key. intros a b [= -> _]. done.
Qed.

Lemma verifyViews_bindings accepted returned :
  verifyViews accepted returned canWrite = Ok tt →
  let av := scanStreamSignatures accepted in
  let rv := scanStreamSignatures returned in
  verifyKind canWrite av rv sigBindingCurrent = Ok tt ∧
  verifyKind canWrite av rv sigBindingTrailing = Ok tt ∧
  Forall (λ b, bd_kind b ≠ sigBindingUnbound) (v_bindings rv).
Proof.
  unfold verifyViews, verifySignatureDeltaBindings. intros H; simpl; inv_ok.
  destruct (existsb _ _) eqn:E; [done|]. destruct x0, x1. split; [done|]. split; [done|].
  apply Forall_forall. intros b Hb Hk. apply not_true_iff_false in E. apply E.
  apply existsb_exists. exists b. split; [done|].
  by apply bool_decide_eq_true.
Qed.

Lemma verifyViews_no_mint accepted returned kind :
  kind ≠ sigBindingUnbound → verifyViews accepted returned canWrite = Ok tt →
  signed_deltas kind returned ⊆+ signed_deltas kind accepted.
Proof.
  intros Hk (H1 & H2 & _)%verifyViews_bindings.
  destruct kind; [| |done]; by apply verifyKind_no_mint.
Qed.

(** Signature-delta tokens cannot be minted, moved or duplicated: for the
    tokens bound to a block and for the trailing tokens alike, the multiset of
    (token, bound content) pairs returned is contained in the one handed out,
    whatever grants the plugin holds. *)
Theorem no_minted_delta_signature accepted returned kind :
  kind ≠ sigBindingUnbound →
  verifyStreamPrefix accepted returned canWrite = Ok tt →
  signed_deltas kind returned ⊆+ signed_deltas kind accepted.
Proof.
  unfold verifyStreamPrefix. intros Hk H; inv_ok. by apply verifyViews_no_mint.
Qed.

(** An accepted output has no token that is bound to nothing. *)
Theorem returned_bindings_bound accepted returned :
  verifyStreamPrefix accepted returned canWrite = Ok tt →
  Forall (λ b, bd_kind b ≠ sigBindingUnbound) (v_bindings (scanStreamSignatures returned)).
Proof. unfold verifyStreamPrefix. intros H; inv_ok. by apply verifyViews_bindings in H as (_ & _ & ?). Qed.
End BindingTheorems.

(** ** Pass-through *)

Lemma correlateAll_done `{SignaturePolicy} canWrite accepted returned rc c :
  (∀ r, r ∉ select false returned rc) →
  correlateAll canWrite accepted returned rc c = Ok c.
Proof.
  revert rc; induction returned as [|r returned IH]; intros [|[] rc] Hno; simpl; auto.
  destruct (Hno r). simpl. left.
Qed.

Lemma suppressed_done canWrite accepted c :
  (∀ a, a ∉ select false accepted c) → suppressed canWrite accepted c = Ok tt.
Proof.
  revert c; induction accepted as [|a accepted IH]; intros [|[] c] Hno; simpl; auto.
  destruct (Hno a). simpl. left.
Qed.

Section PassThrough.
Context {P : SignaturePolicy}.
Context (canWrite : string → bool).

Lemma verifyToolScopes_self scopes : verifyToolScopes canWrite scopes scopes = Ok tt.
Proof.
  unfold verifyToolScopes. destruct (consume_exact _ _ _ _ _) as [c rc] eqn:E.
  destruct (consume_exact_self tool_key (λ _, true) _ _ _ _ scopes_exact_spec (λ _ _ _, eq_refl) E)
    as (_ & _ & H1 & H2).
  rewrite correlateAll_done by (intros r Hr; by specialize (H1 r Hr)). simpl.
  apply suppressed_done. intros a Ha. by specialize (H2 a Ha).
Qed.

Lemma verifyKind_self v kind : verifyKind canWrite v v kind = Ok tt.
Proof.
  unfold verifyKind. destruct (consume_exact _ _ _ _ _) as [c rc] eqn:E.
  assert (Hk : ∀ a b, delta_key a = delta_key b → signed (bd_signature a) = signed (bd_signature b))
    by (unfold delta_key; by intros a b [= -> _]).
  destruct (consume_exact_self delta_key _ _ _ _ _ bindings_exact_spec Hk E) as (_ & L2 & H1 & H2).
  assert (phase2 kind (ofKind kind (v_bindings v)) c (ofKind kind (v_bindings v)) rc = Ok tt) as ->.
  { apply phase2_ok; [done|]. intros r Hr. apply signed_false. auto. }
  simpl. rewrite (filter_none_nil (λ b, bd_signature b ≠ "") (select false _ c)).
  - destruct (if decide _ then _ else _). done.
  - intros a Ha Hs. apply Hs, signed_false. auto.
Qed.

Lemma verifyViews_self evs w :
  walkAll walker0 evs = Ok w → verifyViews evs evs canWrite = Ok tt.
Proof.
  intros Hw. unfold verifyViews, verifySignatureDeltaBindings.
  rewrite verifyToolScopes_self; simpl. rewrite !verifyKind_self; simpl.
  destruct (existsb _ _) eqn:E; [|done].
  apply existsb_exists in E as (b & Hb & Hk%bool_decide_eq_true).
  pose proof (scan_unbound_free evs w Hw) as Hf. rewrite Forall_forall in Hf.
  destruct (Hf b); done.
Qed.

(** The verifier never rejects a plugin that changes nothing: a stream (or
    stream prefix) that obeys the block discipline, returned as it was, is
    accepted for every grant set. *)
Theorem verify_passthrough evs :
  (∀ w, walkAll walker0 evs = Ok w → verifyStreamPrefix evs evs canWrite = Ok tt) ∧
  (validateAcceptedStream evs = Ok tt → verifyStream evs evs canWrite = Ok tt).
Proof.
  unfold verifyStreamPrefix, verifyStream. split.
  - intros w Hw. rewrite Hw; simpl. eauto using verifyViews_self.
  - intros Hv. rewrite Hv; simpl. rewrite validate_walk_eq in Hv. inv_ok.
    eauto using verifyViews_self.
Qed.
End PassThrough.

(** ** Stripped and suppressed blocks *)

(** How many of the blocks [spans] have content [x]; how many of the returned
    signed tokens sit on such a block; and how many accepted blocks with that
    content carry no token. *)
Definition survivors (x : typedContent) (rv : streamSignatureView) : nat :=
  length (filter (λ s, s = x) (v_spans rv)).

Definition carried (x : typedContent) (rv : streamSignatureView) : nat :=
  length (filter (λ b, bd_signature b ≠ "" ∧ ownSpan (v_spans rv) b = Some x)
            (ofKind sigBindingCurrent (v_bindings rv))).

Definition unsignedTwins (x : typedContent) (av : streamSignatureView) : nat :=
  length (filter (λ p, p.2 = x ∧ signedOrdinal (ofKind sigBindingCurrent (v_bindings av)) (Z.of_nat p.1) = false)
            (imap pair (v_spans av))).

Lemma reserved_counts spans ret rc x :
  reserved spans ret rc x =
  (Z.of_nat (length (filter (λ s, s = x) spans))
   - Z.of_nat (length (filter (λ b, ownSpan spans b = Some x) (select true ret rc))))%Z.
Proof.
  unfold reserved. generalize (select true ret rc); intros bs.
  assert (Hs : ∀ l m, foldl (λ m s, bump 1 s m) m l x
                      = (m x + Z.of_nat (length (filter (λ s, s = x) l)))%Z).
  { induction l as [|s l IH]; intros m; simpl; [lia|]. rewrite IH. unfold bump.
    rewrite filter_cons. destruct (decide (x = s)), (decide (s = x)); simpl; subst; try done; lia. }
  assert (Hb : ∀ l m, foldl (λ m b, match ownSpan spans b with Some s => bump (-1) s m | None => m end) m l x
      = (m x - Z.of_nat (length (filter (λ b, ownSpan spans b = Some x) l)))%Z).
  { induction l as [|b l IH]; intros m; simpl; [lia|]. rewrite IH, filter_cons. unfold bump.
    destruct (ownSpan spans b) as [s|]; [|simpl; lia].
    destruct (decide (x = s)) as [->|Hne].
    - rewrite decide_True by done. simpl. lia.
    - rewrite decide_False by congruence. simpl. lia. }
  rewrite Hb, Hs. lia.
Qed.

Lemma claimTwins_bound so aspans m0 x :
  (m0 x - Z.of_nat (length (filter (λ p, p.2 = x ∧ so (Z.of_nat p.1) = false) (imap pair aspans)))
   ≤ fst (claimTwins so aspans m0) x)%Z.
Proof.
  unfold claimTwins.
  assert (H : ∀ (l : list typedContent) (k : nat) (m : counts) tw, (m x - Z.of_nat (length (filter (λ p, p.2 = x ∧ so (Z.of_nat p.1) = false)
                                  (imap (λ i s, ((k + i)%nat, s)) l)))
    ≤ snd (fst (foldl (λ '(o, m, tw) s,
        if so o || bool_decide (m s = 0%Z) then ((o + 1)%Z, m, tw)
        else ((o + 1)%Z, bump (-1) s m, λ x : typedContent, if decide (x = s) then true else tw x))
        (Z.of_nat k, m, tw) l)) x)%Z).
  { induction l as [|s l IH]; intros k m tw; simpl; [lia|].
    rewrite Nat.add_0_r, filter_cons.
    replace (Z.of_nat k + 1)%Z with (Z.of_nat (S k)) by lia.
    rewrite (imap_ext _ (λ i s, ((S k + i)%nat, s)) l) by (intros; simpl; f_equal; lia).
    destruct (so (Z.of_nat k) || bool_decide (m s = 0%Z)) eqn:E.
    - etrans; [|apply IH]. destruct (decide _); simpl; lia.
    - etrans; [|apply IH]. apply orb_false_iff in E as [E _]. unfold bump.
      destruct (decide (x = s)) as [->|], (decide _) as [[? ?]|Hn]; simpl; simplify_eq; try lia.
      destruct Hn. done. }
  specialize (H aspans 0 m0 (λ _, false)). simpl in H.
  rewrite (imap_ext _ pair aspans) in H by done.
  destruct (foldl _ _ aspans) as [[? ?] ?]. done.
Qed.

Lemma carried_bound x rv rc :
  (∀ r, r ∈ select true (ofKind sigBindingCurrent (v_bindings rv)) rc → bd_signature r ≠ "") →
  length (filter (λ b, ownSpan (v_spans rv) b = Some x)
      (select true (ofKind sigBindingCurrent (v_bindings rv)) rc)) ≤ carried x rv.
Proof.
  unfold carried. generalize (ofKind sigBindingCurrent (v_bindings rv)); intros l.
  revert rc; induction l as [|b l IH]; intros [|[] rc] Hs; simpl in *;
    rewrite ?filter_nil, ?filter_cons; simpl; try lia.
  - specialize (IH rc (λ r Hr, Hs r ltac:(by right))). specialize (Hs b ltac:(left)).
    destruct (decide (ownSpan _ b = _)), (decide (_ ∧ _)); simpl; try lia. tauto.
  - specialize (IH rc Hs). destruct (decide (_ ∧ _)); simpl; lia.
Qed.

Section Kept.
Context (canWrite : string → bool).
Hypothesis no_grant : canWrite streamWriteGrant = false.

(** What an unmatched signed occurrence says when the verifier lets it pass. *)
Lemma phase3_trailing rv emptyRet m tw used a used' :
  phase3_one canWrite sigBindingTrailing rv emptyRet m tw used a = Ok used' →
  v_closed rv ≠ bd_content a.
Proof.
  unfold phase3_one. simpl. destruct (content_equals _ _) eqn:E; [done|].
  intros _ Heq. apply (content_equals_spec (v_closed rv)) in Heq. congruence.
Qed.

Lemma unpaired_current ab rv :
  verifyUnpairedBinding canWrite sigBindingCurrent ab rv = Ok tt →
  content_isEmpty (bd_content ab) = false ∧ (bd_span ab < Z.of_nat (length (v_spans rv)))%Z.
Proof.
  unfold verifyUnpairedBinding. rewrite no_grant. simpl.
  destruct (_ && _) eqn:E1 at 1; [done|].
  destruct (content_isEmpty (bd_content ab)).
  - destruct (if bool_decide _ then _ else _) as [sp|]; [|done]. by destruct (negb _).
  - intros _. split; [done|]. apply andb_false_iff in E1 as [E|E]; apply bool_decide_eq_false in E; lia.
Qed.

Lemma phase3_current rv emptyRet m tw used a used' :
  phase3_one canWrite sigBindingCurrent rv emptyRet m tw used a = Ok used' →
  (m (bd_content a) ≤ 0)%Z ∧ content_isEmpty (bd_content a) = false ∧
  ((bd_span a < Z.of_nat (length (v_spans rv)))%Z ∨
   ∃ r, r ∈ emptyRet ∧ bd_span r = bd_span a).
Proof.
  unfold phase3_one. simpl. destruct (bool_decide (0 < _)%Z) eqn:E; [done|].
  apply bool_decide_eq_false in E. rewrite no_grant.
  destruct (first_free _ _ _); [done|].
  destruct (first_free (λ m, Z.eqb _ _) _ _) as [k|] eqn:Ek.
  - apply first_free_Some in Ek as (b & Hb & _ & Hs). intros H. split; [lia|].
    assert (∃ r, r ∈ emptyRet ∧ bd_span r = bd_span a).
    { exists b. split; [by eapply list_elem_of_lookup_2|by apply Z.eqb_eq]. }
    destruct (content_isEmpty (bd_content a)) eqn:Ee; [|auto].
    apply res_bind_ok in H as ([] & H & _). apply unpaired_current in H as [? ?]. congruence.
  - destruct (tw _); [done|]. intros ([] & H & _)%res_bind_ok.
    apply unpaired_current in H as [? ?]. split; [lia|auto].
Qed.

Lemma verifyKind_unmatched av rv kind a :
  verifyKind canWrite av rv kind = Ok tt →
  a ∈ ofKind kind (v_bindings av) → bd_signature a ≠ "" →
  (∃ r, r ∈ ofKind kind (v_bindings rv) ∧ delta_key r = delta_key a) ∨
  ∃ c rc remaining twin used used',
    consume_exact (λ r, signed (bd_signature r)) bindings_exact
      (ofKind kind (v_bindings av)) (ofKind kind (v_bindings rv))
      (all_free (ofKind kind (v_bindings av))) = (c, rc) ∧
    (remaining, twin) = (if decide (kind = sigBindingCurrent)
      then claimTwins (signedOrdinal (ofKind kind (v_bindings av))) (v_spans av)
             (reserved (v_spans rv) (ofKind kind (v_bindings rv)) rc)
      else (λ _, 0%Z, λ _, false)) ∧
    phase3_one canWrite kind rv (filter (λ b, bd_signature b = "") (ofKind kind (v_bindings rv)))
      remaining twin used a = Ok used'.
Proof.
  unfold verifyKind. destruct (consume_exact _ _ _ _ _) as [c rc] eqn:E.
  intros (_ & _ & H)%res_bind_ok Ha Hs.
  destruct (consume_exact_perm delta_key delta_key _ _ (λ a b, proj1 (bindings_exact_spec a b))
              _ _ _ _ _ (length_replicate _ _) E) as (L1 & _).
  destruct (if decide _ then _ else _) as [remaining twin] eqn:Et.
  apply res_bind_ok in H as (u & H & _).
  apply list_elem_of_lookup in Ha as [i Hi].
  destruct (lookup_lt_is_Some_2 c i) as [f Hf]; [rewrite L1; by eapply lookup_lt_Some|].
  destruct f.
  - destruct (consume_exact_flag _ _ _ _ _ _ _ _ _ E Hi Hf) as [Hfree|(r & Hr & HR)].
    { unfold all_free in Hfree. by apply lookup_replicate in Hfree as [? _]. }
    left. exists r. split; [by eapply select_subset|]. symmetry. by apply bindings_exact_spec.
  - right. destruct (foldM_elem _ _ _ _ a H) as (u1 & u2 & Hu).
    { apply list_elem_of_filter. split; [done|]. apply elem_of_select. eauto. }
    exists c, rc, remaining, twin, u1, u2. eauto.
Qed.

(** A block token cannot be stripped without [ir.stream.write].  Each
    signed block binding handed out comes back with the same token over the
    same content; otherwise its content was non-empty, its block position is
    still there (a returned block, or an unsigned marker at its ordinal), and
    every returned copy of that content is accounted for by a token that came
    back on such a copy or by an accepted block that never had a token. *)
Theorem signed_span_kept {P : SignaturePolicy} accepted returned a :
  let av := scanStreamSignatures accepted in
  let rv := scanStreamSignatures returned in
  verifyStreamPrefix accepted returned canWrite = Ok tt →
  a ∈ ofKind sigBindingCurrent (v_bindings av) → bd_signature a ≠ "" →
  (∃ r, r ∈ ofKind sigBindingCurrent (v_bindings rv) ∧ delta_key r = delta_key a) ∨
  (content_isEmpty (bd_content a) = false ∧
   ((bd_span a < Z.of_nat (length (v_spans rv)))%Z ∨
    ∃ r, r ∈ ofKind sigBindingCurrent (v_bindings rv) ∧ bd_signature r = "" ∧ bd_span r = bd_span a) ∧
   survivors (bd_content a) rv ≤ carried (bd_content a) rv + unsignedTwins (bd_content a) av).
Proof.
  intros av rv H Ha Hs. unfold verifyStreamPrefix in H. inv_ok.
  apply verifyViews_bindings in H as (H & _ & _).
  destruct (verifyKind_unmatched _ _ _ _ H Ha Hs) as [?|(c & rc & m & tw & u & u' & E & Em & Hp)];
    [by left|right].
  apply phase3_current in Hp as (Hm & Hne & Hpos). split; [done|]. split.
  { destruct Hpos as [?|(r & Hr & ?)]; [by left|right]. apply list_elem_of_filter in Hr as [? ?]. eauto. }
  rewrite decide_True in Em by done. fold rv av in Em.
  pose proof (claimTwins_bound (signedOrdinal (ofKind sigBindingCurrent (v_bindings av))) (v_spans av)
    (reserved (v_spans rv) (ofKind sigBindingCurrent (v_bindings rv)) rc) (bd_content a)) as Hb.
  rewrite <- Em, reserved_counts in Hb. cbn [fst] in Hb.
  assert (Hc : length (filter (λ b, ownSpan (v_spans rv) b = Some (bd_content a))
      (select true (ofKind sigBindingCurrent (v_bindings rv)) rc)) ≤ carried (bd_content a) rv).
  { apply carried_bound. intros r Hr. apply signed_true. exact (consume_exact_elig _ _ _ _ _ _ _ _ E Hr). }
  fold (survivors (bd_content a) rv) (unsignedTwins (bd_content a) av) in Hb. lia.
Qed.

(** A trailing token cannot be stripped without changing what it signs:
    when the verifier accepts, each signed trailing token handed out comes
    back over the same content, or the message's closed content is no longer
    the content it was bound to. *)
Theorem trailing_token_kept {P : SignaturePolicy} accepted returned a :
  let av := scanStreamSignatures accepted in
  let rv := scanStreamSignatures returned in
  verifyStreamPrefix accepted returned canWrite = Ok tt →
  a ∈ ofKind sigBindingTrailing (v_bindings av) → bd_signature a ≠ "" →
  (∃ r, r ∈ ofKind sigBindingTrailing (v_bindings rv) ∧ delta_key r = delta_key a) ∨
  v_closed rv ≠ bd_content a.
Proof.
  intros av rv H Ha Hs. unfold verifyStreamPrefix in H. inv_ok.
  apply verifyViews_bindings in H as (_ & H & _).
  destruct (verifyKind_unmatched _ _ _ _ H Ha Hs) as [?|(c & rc & m & tw & u & u' & _ & _ & Hp)];
    [by left|right]. eauto using phase3_trailing.
Qed.
End Kept.

(** ** A policy and a rewrite *)

(** The SDK's documented classes as a function. *)
Definition documented_classify (a r : string) (changed : bool) : SignatureMutation :=
  if String.eqb a r then
    (if signed a && changed then SignatureStale else SignatureIntact)
  else if String.eqb r "" then (if changed then SignatureCleared else SignatureDropped)
  else if String.eqb a "" then SignatureAdded else SignatureForged.

Definition documented_allowed (m : SignatureMutation) : bool :=
  match m with SignatureIntact | SignatureCleared => true | _ => false end.

#[local] Instance documented_policy : SignaturePolicy :=
  {| ClassifySignatureMutation := documented_classify; Allowed := documented_allowed |}.

#[local] Instance documented_policy_laws : SignaturePolicyLaws documented_policy.
Proof.
  split; simpl; unfold documented_classify.
  - intros a r ch. destruct (String.eqb_spec a r) as [->|]; [|].
    + destruct ch; [|done]. rewrite andb_true_r.
      destruct (signed r) eqn:E; [done|]. by apply signed_false in E.
    + destruct (String.eqb_spec r ""); [by destruct ch|]. by destruct (String.eqb a "").
  - intros a ch. destruct (String.eqb_spec a "") as [->|]; [done|]. simpl. by destruct ch.
Qed.

Definition no_grants : string → bool := λ _, false.

(** [demo_stream] with a signed text block and a trailing token. *)
Definition signed_stream : list pbEvent :=
  [ EvContentBlockStart 0 BlockThinking; EvThinkingDelta "hm"; EvSignatureDelta "sigA";
    EvContentBlockStop 0;
    EvContentBlockStart 1 (BlockToolCall (mkToolCallRef "c1" "ls" "sigB" 0));
    EvToolCallDelta 1 "{}" None; EvContentBlockStop 1;
    EvSignatureDelta "sigT"; EvMessageStop "end_turn" ].

(** What a plugin without [ir.stream.write] may make of it: every signed scope
    is rewritten and its token cleared. *)
Definition rewritten_stream : list pbEvent :=
  [ EvContentBlockStart 0 BlockThinking; EvThinkingDelta "redacted";
    EvContentBlockStop 0;
    EvContentBlockStart 1 (BlockToolCall (mkToolCallRef "c1" "ls" "" 0));
    EvToolCallDelta 1 "{x}" None; EvContentBlockStop 1;
    EvMessageStop "end_turn" ].

Definition signed_tool : toolCallScope := mkScope 1 true "sigB" "c1" "ls" 0 "{}" "" false.
Definition signed_block : sigBinding :=
  mkBinding sigBindingCurrent "sigA" (mkContent "" "hm" false true) 0.
Definition trailing_token : sigBinding :=
  mkBinding sigBindingTrailing "sigT" (mkContent "" "hm" false true) (-1).

Lemma no_minted_tool_signature_witness :
  length (signed_tools signed_stream) = 1 ∧
  signed_tools rewritten_stream ⊆+ signed_tools signed_stream.
Proof.
  split; [vm_compute; reflexivity|].
  apply (no_minted_tool_signature (P:=documented_policy) no_grants). vm_compute; reflexivity.
Defined.

Lemma signed_tool_kept_witness :
  (∃ r, r ∈ v_toolScopes (scanStreamSignatures rewritten_stream) ∧
        tool_key r = tool_key signed_tool) ∨
  (∃ r, r ∈ v_toolScopes (scanStreamSignatures rewritten_stream) ∧
        sc_index r = sc_index signed_tool ∧ sc_signature r = "" ∧ covered r ≠ covered signed_tool).
Proof.
  apply (signed_tool_kept (P:=documented_policy) no_grants signed_stream); [reflexivity|vm_compute; reflexivity| |done].
  vm_compute. left.
Defined.

Lemma no_minted_delta_signature_witness :
  length (signed_deltas sigBindingCurrent signed_stream) = 1 ∧
  signed_deltas sigBindingCurrent rewritten_stream ⊆+ signed_deltas sigBindingCurrent signed_stream.
Proof.
  split; [vm_compute; reflexivity|].
  apply (no_minted_delta_signature (P:=documented_policy) no_grants); [discriminate|vm_compute; reflexivity].
Defined.

Lemma returned_bindings_bound_witness :
  length (v_bindings (scanStreamSignatures signed_stream)) = 2 ∧
  Forall (λ b, bd_kind b ≠ sigBindingUnbound) (v_bindings (scanStreamSignatures signed_stream)).
Proof.
  split; [vm_compute; reflexivity|].
  apply (returned_bindings_bound (P:=documented_policy) no_grants signed_stream). vm_compute; reflexivity.
Defined.

Lemma verify_passthrough_witness : verifyStream signed_stream signed_stream no_grants = Ok tt.
Proof.
  apply (verify_passthrough (P:=documented_policy) no_grants signed_stream). vm_compute; reflexivity.
Defined.

Lemma signed_span_kept_witness :
  let av := scanStreamSignatures signed_stream in
  let rv := scanStreamSignatures rewritten_stream in
  (∃ r, r ∈ ofKind sigBindingCurrent (v_bindings rv) ∧ delta_key r = delta_key signed_block) ∨
  (content_isEmpty (bd_content signed_block) = false ∧
   ((bd_span signed_block < Z.of_nat (length (v_spans rv)))%Z ∨
    ∃ r, r ∈ ofKind sigBindingCurrent (v_bindings rv) ∧ bd_signature r = "" ∧
         bd_span r = bd_span signed_block) ∧
   survivors (bd_content signed_block) rv
     ≤ carried (bd_content signed_block) rv + unsignedTwins (bd_content signed_block) av).
Proof.
  apply (signed_span_kept no_grants eq_refl (P:=documented_policy)); [vm_compute; reflexivity| |done].
  vm_compute. left.
Defined.

Lemma trailing_token_kept_witness :
  let rv := scanStreamSignatures rewritten_stream in
  (∃ r, r ∈ ofKind sigBindingTrailing (v_bindings rv) ∧ delta_key r = delta_key trailing_token) ∨
  v_closed rv ≠ bd_content trailing_token.
Proof.
  apply (trailing_token_kept (P:=documented_policy) no_grants signed_stream); [vm_compute; reflexivity| |done].
  vm_compute. left.
Defined.
