(* ===== verification/StreamPolicy.v ===== *)
(** * The field policy of stream events

    [internal/plugin/stream_policy.go] charges every change a plugin makes to a
    completed stream transaction against the grants it holds.  The inventory of
    messages, fields and policies belongs to the plugin SDK
    ([outboundpolicy]), the reflection of an event as a message and its wire
    form to the protobuf runtime: together they are the parameter
    [OutboundPolicy].  The walk over that inventory is modelled as it is.

    A message value is its name, its unknown bytes and its set fields, in field
    order, so that [proto.Equal] is equality.  The recursion runs on fuel; the
    depth of the two messages is enough ([message_total]).

    [FieldPolicy] is the interface the stream enforcement uses, with
    [FieldPolicyLaws]: what is not changed is not charged. *)

From stdpp Require Import base list strings gmap sets numbers.
From S2P Require Import Prelude Matching StreamEvents.

(** ** Messages *)

Inductive pval :=
| PScalar (s : string)
| PMessage (name unknown : string) (fields : list (string * pval))
| PList (l : list pval).

Fixpoint pval_eqb (a b : pval) : bool :=
  match a, b with
  | PScalar s, PScalar t => String.eqb s t
  | PMessage n u fs, PMessage n' u' fs' =>
      String.eqb n n' && String.eqb u u' &&
      (fix go (l l' : list (string * pval)) : bool :=
         match l, l' with
         | [], [] => true
         | (f, v) :: r, (f', v') :: r' => String.eqb f f' && pval_eqb v v' && go r r'
         | _, _ => false
         end) fs fs'
  | PList l, PList l' =>
      (fix go (l l' : list pval) : bool :=
         match l, l' with
         | [], [] => true
         | v :: r, v' :: r' => pval_eqb v v' && go r r'
         | _, _ => false
         end) l l'
  | _, _ => false
  end.

(** How deep messages nest. *)
Fixpoint depth (v : pval) : nat :=
  match v with
  | PScalar _ => 0
  | PMessage _ _ fs => S ((fix go (l : list (string * pval)) := match l with
                            | [] => 0 | (_, x) :: r => max (depth x) (go r) end) fs)
  | PList l => (fix go (l : list pval) := match l with
                  | [] => 0 | x :: r => max (depth x) (go r) end) l
  end.

Definition pfields (v : pval) : list (string * pval) :=
  match v with PMessage _ _ fs => fs | _ => [] end.
Definition pname (v : pval) : string := match v with PMessage n _ _ => n | _ => "" end.
Definition punknown (v : pval) : string := match v with PMessage _ u _ => u | _ => "" end.
Definition pitems (v : pval) : list pval := match v with PList l => l | _ => [] end.
Definition is_message (v : pval) : bool := match v with PMessage _ _ _ => true | _ => false end.

(** [m.Get(fd)] for a field that is set. *)
Definition pget (m : pval) (field : string) : option pval :=
  (λ p, p.2.2) <$> list_find (λ p : string * pval, p.1 = field) (pfields m).

(** ** The SDK inventory *)

Inductive policyKind :=
| PolicyHostOwned | PolicyBoundSignature
| PolicySection (section : string) | PolicyTopology (section : string)
| PolicyContainer | PolicyFixedContainer | PolicyDelegate | PolicyOther.

Record fieldDescriptor := mkFieldDescriptor {
  fd_list : bool; fd_message : bool; fd_presence : bool; fd_type : string; fd_default : pval }.

Class OutboundPolicy := {
  StreamTopologySection : string;
  StreamEventName : string;
  OutboundMessageRegistered : string → bool;
  OutboundFieldNames : string → list string;
  OutboundFieldPolicy : string → string → policyKind;
  FieldByName : string → string → option fieldDescriptor;
  ProtoReflect : pbEvent → pval;
  MarshalDeterministic : pbEvent → res string string }.

Inductive policyErr :=
| NeedsSection (section : string)
| UnknownFields
| UnregisteredMessage (name : string)
| AbsentField (name field : string)
| HostOwnedField (field : string)
| CannotChange (field : string)
| NotAMessage (field : string)
| FixedCardinality (field : string)
| WireError (msg : string)
| OutOfFuel.

(** The oneof arm of an event: its constructor. *)
Definition eventArm (ev : pbEvent) : nat :=
  match ev with
  | EvTextDelta _ => 0 | EvThinkingDelta _ => 1 | EvMessageStart _ _ _ => 2
  | EvContentBlockStart _ _ => 3 | EvContentBlockStop _ => 4 | EvToolCallDelta _ _ _ => 5
  | EvSignatureDelta _ => 6 | EvMessageStop _ => 7 | EvUsage _ _ _ _ => 8 | EvError _ _ => 9
  | EvUnset => 10
  end.

Definition fieldMaterial (m : pval) (field : string) (fd : fieldDescriptor) : bool :=
  if fd_list fd then negb (bool_decide (pitems (default (PList []) (pget m field)) = []))
  else if fd_presence fd then bool_decide (is_Some (pget m field))
  else match pget m field with Some v => negb (pval_eqb v (fd_default fd)) | None => false end.

Section Diff.
Context `{OP : OutboundPolicy}.
Context (canWrite : string → bool).

Definition require (section : string) : res policyErr unit :=
  if canWrite section then Ok tt else Err (NeedsSection section).

Definition topology : res policyErr unit := require StreamTopologySection.

(** The walks of nested messages, one level down. *)
Section Level.
Context (message : pval → pval → res policyErr unit).
Context (messagePresent : pval → res policyErr unit).

Definition recursePresent (v : pval) (field : string) (fd : fieldDescriptor) : res policyErr unit :=
  if fd_list fd then
    foldM (λ _ x, if fd_message fd then messagePresent x else Err (NotAMessage field)) tt (pitems v)
  else if fd_message fd then messagePresent v
  else Ok tt.

Definition changedPresent (v : pval) (field : string) (fd : fieldDescriptor) (p : policyKind)
    : res policyErr unit :=
  match p with
  | PolicyHostOwned => Err (HostOwnedField field)
  | PolicyBoundSignature => Ok tt
  | PolicySection s | PolicyTopology s => _ ←? require s; recursePresent v field fd
  | PolicyContainer | PolicyFixedContainer | PolicyDelegate => recursePresent v field fd
  | PolicyOther => Err (CannotChange field)
  end.

Fixpoint messages (l l' : list pval) : res policyErr unit :=
  match l, l' with
  | a :: r, b :: r' => _ ←? message a b; messages r r'
  | l, [] => foldM (λ _ x, messagePresent x) tt l
  | [], l' => foldM (λ _ x, messagePresent x) tt l'
  end.

Definition container (a b : pval) (field : string) (fd : fieldDescriptor) (fixed : bool)
    : res policyErr unit :=
  if fd_list fd then
    if fixed && negb (bool_decide (length (pitems a) = length (pitems b)))
    then Err (FixedCardinality field)
    else messages (pitems a) (pitems b)
  else if fd_message fd then message a b
  else Err (NotAMessage field).

Definition changedBoth (a b : pval) (field : string) (fd : fieldDescriptor) (p : policyKind)
    : res policyErr unit :=
  match p with
  | PolicyHostOwned => Err (HostOwnedField field)
  | PolicyBoundSignature => Ok tt
  | PolicySection s | PolicyTopology s => if fd_message fd then message a b else require s
  | PolicyContainer => container a b field fd false
  | PolicyFixedContainer => container a b field fd true
  | PolicyDelegate => container a b field fd false
  | PolicyOther => Err (CannotChange field)
  end.

Definition value (m : pval) (field : string) (fd : fieldDescriptor) : pval :=
  default (fd_default fd) (pget m field).

Definition field_ (a b : pval) (field : string) (fd : fieldDescriptor) (p : policyKind)
    : res policyErr unit :=
  let pa := fieldMaterial a field fd in
  let pb := fieldMaterial b field fd in
  if negb pa && negb pb then Ok tt
  else if negb (Bool.eqb pa pb) then
    if pa then changedPresent (value a field fd) field fd p
    else changedPresent (value b field fd) field fd p
  else if pval_eqb (value a field fd) (value b field fd) then Ok tt
  else changedBoth (value a field fd) (value b field fd) field fd p.

(** One registered field of a message pair, and of a message on one side. *)
Definition messageField (a b : pval) (name : string) (_ : unit) (field : string) : res policyErr unit :=
  match FieldByName name field with
  | None => Err (AbsentField name field)
  | Some fd => field_ a b field fd (OutboundFieldPolicy name field)
  end.

Definition presentField (m : pval) (name : string) (_ : unit) (field : string) : res policyErr unit :=
  match FieldByName name field with
  | None => Err (AbsentField name field)
  | Some fd =>
      if fieldMaterial m field fd
      then changedPresent (value m field fd) field fd (OutboundFieldPolicy name field)
      else Ok tt
  end.
End Level.

Fixpoint messagePresentF (fuel : nat) (m : pval) : res policyErr unit :=
  match fuel with
  | 0 => Err OutOfFuel
  | S fuel' =>
      if negb (String.eqb (punknown m) "") then Err UnknownFields
      else
        let name := pname m in
        if negb (OutboundMessageRegistered name) then Err (UnregisteredMessage name)
        else foldM (presentField (messagePresentF fuel') m name) tt (OutboundFieldNames name)
  end.

Fixpoint messageF (fuel : nat) (a b : pval) : res policyErr unit :=
  match fuel with
  | 0 => Err OutOfFuel
  | S fuel' =>
      if negb (String.eqb (punknown a) (punknown b)) then Err UnknownFields
      else
        let name := pname a in
        if negb (OutboundMessageRegistered name) then Err (UnregisteredMessage name)
        else foldM (messageField (messageF fuel') (messagePresentF fuel') a b name) tt
               (OutboundFieldNames name)
  end.

Definition messagePresent (m : pval) : res policyErr unit := messagePresentF (S (depth m)) m.
Definition message (a b : pval) : res policyErr unit := messageF (S (max (depth a) (depth b))) a b.

(** ** Events *)

Definition eventMissing (ev : pbEvent) : res policyErr unit := messagePresent (ProtoReflect ev).

Definition event (accepted returned : pbEvent) : res policyErr unit :=
  if negb (Nat.eqb (eventArm accepted) (eventArm returned)) then
    _ ←? topology;
    _ ←? eventMissing accepted;
    eventMissing returned
  else message (ProtoReflect accepted) (ProtoReflect returned).

(** Same-position matches: a flag per position. *)
Fixpoint samePosition (accepted returned : list pbEvent) : list bool :=
  match accepted, returned with
  | a :: accepted', r :: returned' => bool_decide (a = r) :: samePosition accepted' returned'
  | _ :: accepted', [] => false :: samePosition accepted' []
  | [], _ => []
  end.

(** The reservation flags of the first [n] positions of the other side. *)
Definition padTo (n : nat) (flags : list bool) : list bool :=
  take n flags ++ replicate (n - length flags) false.

(** The wire keys of the unreserved events, in order; [Err] when one cannot be
    marshalled. *)
Fixpoint wireKeys (evs : list pbEvent) (reserved : list bool) : res policyErr (list (option string)) :=
  match evs, reserved with
  | ev :: evs', f :: reserved' =>
      k ←? (if (f : bool) then Ok None else
              wire ←? map_err WireError (MarshalDeterministic ev); Ok (Some wire));
      ks ←? wireKeys evs' reserved';
      Ok (k :: ks)
  | _, _ => Ok []
  end.

(** The second phase: each unreserved accepted event takes the first unreserved
    returned event with its wire key that equals it. *)
Fixpoint wireMatches (i : nat) (accepted : list pbEvent) (keys : list (option string))
    (returned : list (pbEvent * option string)) (rr : list bool)
    : list (nat * nat) * list bool * list bool :=
  match accepted, keys with
  | ev :: accepted', Some key :: keys' =>
      match first_free (λ r : pbEvent * option string,
                          bool_decide (r.2 = Some key) && bool_decide (ev = r.1)) returned rr with
      | Some j =>
          let '(ms, ra, rr') := wireMatches (S i) accepted' keys' returned (<[j := true]> rr) in
          ((i, j) :: ms, true :: ra, rr')
      | None =>
          let '(ms, ra, rr') := wireMatches (S i) accepted' keys' returned rr in
          (ms, false :: ra, rr')
      end
  | _ :: accepted', None :: keys' =>
      let '(ms, ra, rr') := wireMatches (S i) accepted' keys' returned rr in
      (ms, true :: ra, rr')
  | _, _ => ([], [], rr)
  end.

Record exactMatches := mkExact { em_moved : list (nat * nat); em_accepted : list bool; em_returned : list bool }.

Definition exactEventMatches (accepted returned : list pbEvent) : res policyErr exactMatches :=
  let flags := samePosition accepted returned in
  let rr := padTo (length returned) flags in
  rkeys ←? wireKeys returned rr;
  akeys ←? wireKeys accepted flags;
  let '(ms, ra, rr') := wireMatches 0 accepted akeys (zip returned rkeys) rr in
  Ok (mkExact ms ra rr').

Fixpoint changedPairs (l l' : list pbEvent) : res policyErr unit :=
  match l, l' with
  | a :: r, b :: r' => _ ←? event a b; changedPairs r r'
  | l, [] => foldM (λ _ ev, eventMissing ev) tt l
  | [], l' => foldM (λ _ ev, eventMissing ev) tt l'
  end.

Definition events (accepted returned : list pbEvent) : res policyErr unit :=
  _ ←? (if bool_decide (length accepted = length returned) then Ok tt else topology);
  matches ←? exactEventMatches accepted returned;
  _ ←? (if existsb (λ p : nat * nat, negb (Nat.eqb p.1 p.2)) (em_moved matches) then topology else Ok tt);
  changedPairs (select false accepted (em_accepted matches))
               (select false returned (em_returned matches)).
End Diff.

(** ** Messages: induction and equality *)

Lemma pval_ind' (P : pval → Prop) :
  (∀ s, P (PScalar s)) →
  (∀ n u fs, Forall (λ p, P p.2) fs → P (PMessage n u fs)) →
  (∀ l, Forall P l → P (PList l)) → ∀ v, P v.
Proof.
  intros Hs Hm Hl. fix IH 1. intros [s|n u fs|l]; [apply Hs|apply Hm|apply Hl].
  - induction fs as [|[f v] fs IHfs]; constructor; [apply IH|exact IHfs].
  - induction l as [|v l IHl]; constructor; [apply IH|exact IHl].
Qed.

Lemma pval_eqb_eq a b : pval_eqb a b = true ↔ a = b.
Proof.
  revert b; induction a as [s|n u fs IH|l IH] using pval_ind'; intros [t|n' u' fs'|l']; simpl; try done.
  - rewrite String.eqb_eq. split; congruence.
  - rewrite !andb_true_iff, !String.eqb_eq.
    enough (H : (fix go (l l' : list (string * pval)) : bool :=
         match l, l' with
         | [], [] => true
         | (f, v) :: r, (f', v') :: r' => String.eqb f f' && pval_eqb v v' && go r r'
         | _, _ => false
         end) fs fs' = true ↔ fs = fs') by (rewrite H; split; [intros [[-> ->] ->]; done|by intros [= -> -> ->]]).
    revert fs'; induction IH as [|[f v] fs Hv _ IHfs]; intros [|[f' v'] fs']; try done.
    rewrite !andb_true_iff, String.eqb_eq, IHfs, Hv. simpl. split; [intros [[-> ->] ->]; done|].
    by intros [= -> -> ->].
  - enough (H : (fix go (l l' : list pval) : bool :=
         match l, l' with
         | [], [] => true
         | v :: r, v' :: r' => pval_eqb v v' && go r r'
         | _, _ => false
         end) l l' = true ↔ l = l') by (rewrite H; split; congruence).
    revert l'; induction IH as [|v l Hv _ IHl]; intros [|v' l']; try done.
    rewrite andb_true_iff, IHl, Hv. split; [intros [-> ->]; done|by intros [= -> ->]].
Qed.

Lemma pval_eqb_refl a : pval_eqb a a = true.
Proof. by apply pval_eqb_eq. Qed.

(** A value inside a message or a list is less deep. *)
Lemma depth_field m f v : pget m f = Some v → depth v < depth m.
Proof.
  unfold pget. intros ([i [g x]] & Hf & ->)%fmap_Some. apply list_find_Some in Hf as (Hi & _ & _).
  destruct m as [|n u fs|]; simpl in Hi; try done. simpl.
  apply le_n_S. clear n u f. revert i Hi; induction fs as [|[h y] fs IH]; intros [|i] Hi; simpl in *; try done.
  - injection Hi as -> ->. lia.
  - specialize (IH i Hi). lia.
Qed.

Lemma depth_item v x : x ∈ pitems v → depth x ≤ depth v.
Proof.
  destruct v as [| |l]; simpl; try by intros ?%not_elem_of_nil.
  induction l as [|y l IH]; [by intros ?%not_elem_of_nil|].
  intros [->|Hx]%elem_of_cons; [lia|]. specialize (IH Hx). lia.
Qed.

(** ** Enough fuel *)

Section Fuel.
Context `{OP : OutboundPolicy}.
Context (canWrite : string → bool).

Lemma foldM_unit_err {A E} (g : unit → A → res E unit) l e :
  foldM g tt l = Err e → ∃ x, x ∈ l ∧ g tt x = Err e.
Proof.
  induction l as [|x l IH]; simpl; [done|]. intros H.
  destruct (g tt x) as [[]|e'] eqn:Eg; simpl in H.
  - destruct (IH H) as (y & ? & ?). exists y. split; [by right|done].
  - injection H as ->. exists x. split; [left|done].
Qed.

Lemma foldM_unit_ok {A E} (g : unit → A → res E unit) l :
  foldM g tt l = Ok tt → ∀ x, x ∈ l → g tt x = Ok tt.
Proof.
  induction l as [|x l IH]; simpl; [by intros _ ? ?%not_elem_of_nil|].
  intros ([] & H1 & H2)%res_bind_ok y [->|?]%elem_of_cons; auto.
Qed.

Lemma foldM_unit_all {A E} (g : unit → A → res E unit) l :
  (∀ x, x ∈ l → g tt x = Ok tt) → foldM g tt l = Ok tt.
Proof.
  induction l as [|x l IH]; intros H; simpl; [done|]. rewrite H by left. simpl.
  apply IH. intros y Hy. apply H. by right.
Qed.

Lemma value_depth m f fd : fieldMaterial m f fd = true → depth (value m f fd) < depth m.
Proof.
  unfold fieldMaterial, value. destruct (pget m f) as [v|] eqn:E; simpl.
  - intros _. by eapply depth_field.
  - destruct (fd_list fd); [done|]. by destruct (fd_presence fd).
Qed.

Lemma recursePresent_fuel mp v f fd n :
  (∀ x, depth x ≤ n → mp x ≠ Err OutOfFuel) → depth v ≤ n → recursePresent mp v f fd ≠ Err OutOfFuel.
Proof.
  intros Hmp Hd. unfold recursePresent. destruct (fd_list fd).
  - intros (x & Hx & He)%foldM_unit_err. destruct (fd_message fd); [|done].
    apply (Hmp x); [|done]. pose proof (depth_item v x Hx). lia.
  - destruct (fd_message fd); auto.
Qed.

Lemma changedPresent_fuel mp v f fd p n :
  (∀ x, depth x ≤ n → mp x ≠ Err OutOfFuel) → depth v ≤ n →
  changedPresent canWrite mp v f fd p ≠ Err OutOfFuel.
Proof.
  intros Hmp Hd. pose proof (recursePresent_fuel mp v f fd n Hmp Hd).
  unfold changedPresent, require. destruct p; try done; by destruct (canWrite _).
Qed.

Lemma messagePresentF_fuel fuel m : depth m < fuel → messagePresentF canWrite fuel m ≠ Err OutOfFuel.
Proof.
  revert m; induction fuel as [|fuel IH]; intros m Hd; [lia|]. simpl.
  destruct (negb _); [done|]. destruct (negb _); [done|].
  intros (f & _ & He)%foldM_unit_err. unfold presentField in He.
  destruct (FieldByName _ f) as [fd|]; [|done]. destruct (fieldMaterial m f fd) eqn:Hm; [|done].
  pose proof (value_depth m f fd Hm). apply (changedPresent_fuel _ _ _ _ _ (pred fuel)) in He; auto.
  - intros x Hx. apply IH. lia.
  - lia.
Qed.

Lemma messages_fuel msg mp l l' n :
  (∀ x y, depth x ≤ n → depth y ≤ n → msg x y ≠ Err OutOfFuel) →
  (∀ x, depth x ≤ n → mp x ≠ Err OutOfFuel) →
  (∀ x, x ∈ l → depth x ≤ n) → (∀ x, x ∈ l' → depth x ≤ n) →
  messages msg mp l l' ≠ Err OutOfFuel.
Proof.
  intros Hmsg Hmp. revert l'; induction l as [|x l IH]; intros l' Hl Hl'.
  - destruct l'; [done|]. cbn [messages]. intros (y & Hy & He)%foldM_unit_err. by eapply Hmp; [apply Hl'|].
  - destruct l' as [|y l'].
    + intros (z & Hz & He)%foldM_unit_err. by eapply Hmp; [apply Hl|].
    + simpl. destruct (msg x y) as [|e] eqn:E; simpl.
      * apply IH; intros z Hz; [apply Hl|apply Hl']; by right.
      * intros [= ->]. eapply Hmsg; [| |exact E]; [apply Hl|apply Hl']; left.
Qed.

Lemma changedBoth_fuel msg mp a b f fd p n :
  (∀ x y, depth x ≤ n → depth y ≤ n → msg x y ≠ Err OutOfFuel) →
  (∀ x, depth x ≤ n → mp x ≠ Err OutOfFuel) → depth a ≤ n → depth b ≤ n →
  changedBoth canWrite msg mp a b f fd p ≠ Err OutOfFuel.
Proof.
  intros Hmsg Hmp Ha Hb.
  assert (Hc : ∀ fixed, container msg mp a b f fd fixed ≠ Err OutOfFuel).
  { intros fixed. unfold container. destruct (fd_list fd).
    - destruct (fixed && _); [done|]. eapply messages_fuel; eauto;
        intros x Hx; etrans; [by eapply depth_item| |by eapply depth_item|]; done.
    - destruct (fd_message fd); [auto|done]. }
  unfold changedBoth, require.
  destruct p; try done; try apply Hc; destruct (fd_message fd); auto; by destruct (canWrite _).
Qed.

Lemma messageF_fuel fuel a b : depth a < fuel → depth b < fuel → messageF canWrite fuel a b ≠ Err OutOfFuel.
Proof.
  revert a b; induction fuel as [|fuel IH]; intros a b Ha Hb; [lia|]. simpl.
  destruct (negb _); [done|]. destruct (negb _); [done|].
  intros (f & _ & He)%foldM_unit_err. unfold messageField in He.
  destruct (FieldByName _ f) as [fd|]; [|done]. unfold field_ in He.
  assert (Hpos : fieldMaterial a f fd = true ∨ fieldMaterial b f fd = true → 0 < fuel).
  { intros [Hm|Hm]; apply value_depth in Hm; lia. }
  assert (Hmp : 0 < fuel → ∀ x, depth x ≤ pred fuel → messagePresentF canWrite fuel x ≠ Err OutOfFuel).
  { intros H0 x Hx. apply messagePresentF_fuel. lia. }
  assert (Hmsg : 0 < fuel → ∀ x y, depth x ≤ pred fuel → depth y ≤ pred fuel →
                 messageF canWrite fuel x y ≠ Err OutOfFuel).
  { intros H0 x y Hx Hy. apply IH; lia. }
  destruct (fieldMaterial a f fd) eqn:Ea, (fieldMaterial b f fd) eqn:Eb; simpl in He; try done.
  - pose proof (value_depth _ _ _ Ea). pose proof (value_depth _ _ _ Eb).
    specialize (Hpos (or_introl eq_refl)). destruct (pval_eqb _ _); [done|].
    apply (changedBoth_fuel _ _ _ _ _ _ _ (pred fuel) (Hmsg Hpos) (Hmp Hpos)) in He; auto; lia.
  - pose proof (value_depth _ _ _ Ea). specialize (Hpos (or_introl eq_refl)).
    apply (changedPresent_fuel _ _ _ _ _ (pred fuel) (Hmp Hpos)) in He; auto; lia.
  - pose proof (value_depth _ _ _ Eb). specialize (Hpos (or_intror eq_refl)).
    apply (changedPresent_fuel _ _ _ _ _ (pred fuel) (Hmp Hpos)) in He; auto; lia.
Qed.
End Fuel.

(** The walk over nested messages always comes to a verdict: with the fuel
    it is given, neither the comparison of two messages nor the charge for a
    message on one side runs out, whatever the inventory. *)
Theorem message_total `{OutboundPolicy} canWrite a b :
  message canWrite a b ≠ Err OutOfFuel ∧ messagePresent canWrite a ≠ Err OutOfFuel.
Proof. split; [apply messageF_fuel; lia|apply messagePresentF_fuel; lia]. Qed.

(** ** Guarded facts *)

Section Guarded.
Context `{OP : OutboundPolicy}.

(** The value of a field that carries information. *)
Definition material_value (m : pval) (f : string) : option pval :=
  fd ← FieldByName (pname m) f;
  if fieldMaterial m f fd then Some (value m f fd) else None.

(** The fact a path of singular message fields leads to. *)
Fixpoint fact (m : pval) (path : list string) (f : string) : option pval :=
  match path with
  | [] => material_value m f
  | g :: path' => x ← material_value m g; fact x path' f
  end.

Context (canWrite : string → bool).

(** A field the plugin may not change: host-owned, or a scalar of a section or
    topology it holds no grant for. *)
Definition guarded (name f : string) : Prop :=
  match OutboundFieldPolicy name f with
  | PolicyHostOwned => True
  | PolicySection s | PolicyTopology s =>
      canWrite s = false ∧ ∀ fd, FieldByName name f = Some fd → fd_message fd = false
  | _ => False
  end.

(** The path leads to a registered guarded field, through singular message
    fields whose changes are not left to the signature rules. *)
Fixpoint guarded_path (name : string) (path : list string) (f : string) : Prop :=
  match path with
  | [] => f ∈ OutboundFieldNames name ∧ guarded name f
  | g :: path' =>
      g ∈ OutboundFieldNames name ∧ OutboundFieldPolicy name g ≠ PolicyBoundSignature ∧
      ∃ fd, FieldByName name g = Some fd ∧ fd_list fd = false ∧ fd_message fd = true ∧
            fd_presence fd = true ∧ guarded_path (fd_type fd) path' f
  end.

(** Singular message fields hold messages of their declared type. *)
Inductive typed : pval → Prop :=
| typed_intro m :
    (∀ g fd x, FieldByName (pname m) g = Some fd → fd_list fd = false → fd_message fd = true →
       pget m g = Some x → pname x = fd_type fd ∧ typed x) → typed m.

Lemma present_value m g fd : fd_list fd = false → fd_presence fd = true →
  fieldMaterial m g fd = bool_decide (is_Some (pget m g)).
Proof. intros Hl Hp. unfold fieldMaterial. by rewrite Hl, Hp. Qed.

Lemma typed_value m g fd :
  typed m → FieldByName (pname m) g = Some fd → fd_list fd = false → fd_message fd = true →
  fd_presence fd = true → fieldMaterial m g fd = true →
  pname (value m g fd) = fd_type fd ∧ typed (value m g fd).
Proof.
  intros [m' Hm] Hfd Hl Hmsg Hp. rewrite present_value by done. intros [x Hx]%bool_decide_eq_true.
  unfold value. rewrite Hx. eauto.
Qed.

Lemma present_no_fact fuel m path f :
  messagePresentF canWrite fuel m = Ok tt → typed m → guarded_path (pname m) path f →
  fact m path f = None.
Proof.
  revert fuel m; induction path as [|g path IH]; intros [|fuel] m; simpl; try done;
    destruct (negb _); try done; destruct (negb _); try done.
  - intros Hok Ht (Hin & Hpol). specialize (foldM_unit_ok _ _ Hok f Hin) as Hf.
    unfold presentField in Hf. unfold material_value.
    destruct (FieldByName (pname m) f) as [fd|]; [|done]. simpl.
    destruct (fieldMaterial m f fd); [|done]. unfold guarded in Hpol.
    unfold changedPresent, require in Hf. destruct (OutboundFieldPolicy _ f); try done;
      destruct Hpol as [Hpol _]; by rewrite Hpol in Hf.
  - intros Hok Ht (Hin & Hpol & fd & Hfd & Hl & Hmsg & Hp & Hhost).
    specialize (foldM_unit_ok _ _ Hok g Hin) as Hf. unfold presentField in Hf.
    unfold material_value. rewrite Hfd in Hf |- *. simpl.
    destruct (fieldMaterial m g fd) eqn:Hm; [|done]. simpl.
    destruct (typed_value m g fd Ht Hfd Hl Hmsg Hp Hm) as [Hname Htv].
    rewrite <- Hname in Hhost. eapply IH; [|done|done].
    unfold changedPresent, recursePresent, require in Hf. rewrite Hl, Hmsg in Hf.
    destruct (OutboundFieldPolicy _ g); try done; by destruct (canWrite _).
Qed.

Lemma message_fact fuel a b path f :
  messageF canWrite fuel a b = Ok tt → pname a = pname b → typed a → typed b →
  guarded_path (pname a) path f → fact a path f = fact b path f.
Proof.
  revert fuel a b; induction path as [|g path IH]; intros [|fuel] a b; simpl; try done;
    destruct (negb _); try done; destruct (negb _); try done.
  - intros Hok Hn Ha Hb (Hin & Hpol). specialize (foldM_unit_ok _ _ Hok f Hin) as Hf.
    unfold messageField, field_ in Hf. unfold material_value. rewrite <- Hn.
    unfold guarded in Hpol. destruct (FieldByName (pname a) f) as [fd|]; [|done]. simpl.
    unfold changedPresent, changedBoth, require in Hf.
    destruct (fieldMaterial a f fd), (fieldMaterial b f fd); simpl in Hf; try done;
      [destruct (pval_eqb _ _) eqn:E; [by apply pval_eqb_eq in E as ->|]| |];
      destruct (OutboundFieldPolicy _ f); try done; destruct Hpol as [Hpol Hfd];
      rewrite Hpol, ?(Hfd _ eq_refl) in Hf; done.
  - intros Hok Hn Ha Hb (Hin & Hpol & fd & Hfd & Hl & Hmsg & Hp & Hhost).
    specialize (foldM_unit_ok _ _ Hok g Hin) as Hf. unfold messageField, field_ in Hf.
    assert (Hfdb : FieldByName (pname b) g = Some fd) by (by rewrite <- Hn).
    unfold material_value. rewrite Hfdb. rewrite Hfd in Hf |- *. simpl.
    assert (Hone : ∀ m, pname m = pname a → typed m → fieldMaterial m g fd = true →
      changedPresent canWrite (messagePresentF canWrite fuel) (value m g fd) g fd
        (OutboundFieldPolicy (pname a) g) = Ok tt → fact (value m g fd) path f = None).
    { intros m Hnm Htm Hmm Hc. rewrite <- Hnm in Hfd.
      destruct (typed_value m g fd Htm Hfd Hl Hmsg Hp Hmm) as [Hname Htv].
      rewrite <- Hname in Hhost. eapply (present_no_fact fuel); [|done|done].
      unfold changedPresent, recursePresent, require in Hc. rewrite Hl, Hmsg in Hc.
      destruct (OutboundFieldPolicy _ g); try done; by destruct (canWrite _). }
    destruct (fieldMaterial a g fd) eqn:Ema, (fieldMaterial b g fd) eqn:Emb; simpl in Hf |- *; try done.
    + destruct (pval_eqb _ _) eqn:E; [by apply pval_eqb_eq in E as ->|].
      destruct (typed_value a g fd Ha Hfd Hl Hmsg Hp Ema) as [Hna Hta].
      destruct (typed_value b g fd Hb Hfdb Hl Hmsg Hp Emb) as [Hnb Htb].
      eapply (IH fuel); [|congruence|done|done|by rewrite Hna].
      unfold changedBoth, container in Hf. rewrite Hl, Hmsg in Hf.
      destruct (OutboundFieldPolicy _ g); done.
    + by apply Hone.
    + symmetry. by apply Hone.
Qed.
End Guarded.

Arguments typed {OP} _.

(** The SDK validates its inventory at startup: every registered field exists;
    an event is a well-typed message of one registered type. *)
Class OutboundPolicyLaws (OP : OutboundPolicy) : Prop := {
  event_typed : ∀ ev, pname (ProtoReflect ev) = StreamEventName ∧ typed (ProtoReflect ev);
  event_registered : OutboundMessageRegistered StreamEventName = true;
  event_fields : ∀ f, f ∈ OutboundFieldNames StreamEventName → is_Some (FieldByName StreamEventName f) }.

(** ** Matching events *)

Lemma samePosition_select acc ret :
  length (samePosition acc ret) = length acc ∧
  select true acc (samePosition acc ret) = select true ret (padTo (length ret) (samePosition acc ret)).
Proof.
  revert ret; induction acc as [|a acc IH]; intros ret.
  - split; [done|]. unfold padTo. simpl. rewrite take_nil, Nat.sub_0_r. symmetry.
    induction ret; simpl; auto.
  - destruct ret as [|r ret].
    + destruct (IH []) as [IH1 IH2]. unfold padTo in *. simpl in *. by rewrite IH1, IH2.
    + destruct (IH ret) as [IH1 IH2]. unfold padTo in *. simpl in *. rewrite IH1. split; [done|].
      destruct (bool_decide_reflect (a = r)) as [->|]; simpl; by rewrite IH2, IH1.
Qed.

Lemma padTo_length n flags : length (padTo n flags) = n.
Proof. unfold padTo. rewrite length_app, length_take, length_replicate. lia. Qed.

Section Exact.
Context `{OP : OutboundPolicy}.

Lemma wireKeys_flags evs reserved ks :
  length reserved = length evs → wireKeys evs reserved = Ok ks →
  length ks = length evs ∧ (λ k, bool_decide (k = None)) <$> ks = reserved.
Proof.
  revert reserved ks; induction evs as [|ev evs IH]; intros [|f reserved] ks; simpl; try done.
  - by intros _ [= <-].
  - intros [= Hl] (k & Hk & (ks' & Hks & [= <-])%res_bind_ok)%res_bind_ok.
    destruct (IH reserved ks' Hl Hks) as [H1 H2]. rewrite fmap_cons, H2. simpl. rewrite H1. split; [done|].
    f_equal. destruct f; inv_ok; done.
Qed.

Lemma wireMatches_perm i acc keys returned rr ms ra rr' :
  length keys = length acc → length rr = length returned →
  wireMatches i acc keys returned rr = (ms, ra, rr') →
  length ra = length acc ∧ length rr' = length returned ∧
  ∃ N, select false acc ((λ k, bool_decide (k = None)) <$> keys) ≡ₚ N ++ select false acc ra ∧
       fst <$> select false returned rr ≡ₚ N ++ (fst <$> select false returned rr').
Proof.
  revert i keys rr ms ra rr'; induction acc as [|ev acc IH]; intros i [|k keys] rr ms ra rr'; simpl; try done.
  - intros _ Hr [= <- <- <-]. split; [done|]. split; [done|]. by exists [].
  - intros [= Hk] Hr. destruct k as [key|].
    + destruct (first_free _ _ _) as [j|] eqn:Ef;
        destruct (wireMatches (S i) acc keys returned _) as [[ms1 ra1] rr1] eqn:Ew;
        intros [= <- <- <-].
      * apply first_free_Some in Ef as ([r rk] & Hj & Hfree & Hp).
        apply andb_true_iff in Hp as [_ ->%bool_decide_eq_true].
        destruct (IH _ _ _ _ _ _ Hk ltac:(by rewrite length_insert) Ew) as (H1 & H2 & N & H3 & H4).
        simpl. rewrite H1. split; [done|]. split; [done|]. exists (r :: N). split.
        -- simpl. by rewrite H3.
        -- rewrite (select_false_insert returned rr j (r, rk)) by done. simpl. by rewrite H4.
      * destruct (IH _ _ _ _ _ _ Hk Hr Ew) as (H1 & H2 & N & H3 & H4).
        simpl. rewrite H1. split; [done|]. split; [done|]. exists N. split; [|done].
        rewrite H3. by rewrite Permutation_middle.
    + destruct (wireMatches (S i) acc keys returned rr) as [[ms1 ra1] rr1] eqn:Ew. intros [= <- <- <-].
      destruct (IH _ _ _ _ _ _ Hk Hr Ew) as (H1 & H2 & N & H3 & H4).
      simpl. rewrite H1. split; [done|]. split; [done|]. by exists N.
Qed.

Lemma wireMatches_elem i acc keys returned rr ms ra rr' k j :
  wireMatches i acc keys returned rr = (ms, ra, rr') → (k, j) ∈ ms →
  ∃ n ev key rk, k = i + n ∧ acc !! n = Some ev ∧ keys !! n = Some (Some key) ∧
                 returned !! j = Some (ev, rk).
Proof.
  revert i keys rr ms ra rr'; induction acc as [|ev acc IH]; intros i [|o keys] rr ms ra rr'; simpl;
    try by intros [= <- <- <-] ?%not_elem_of_nil.
  assert (Hrest : ∀ rr0 ms1 ra1 rr1, wireMatches (S i) acc keys returned rr0 = (ms1, ra1, rr1) →
    (k, j) ∈ ms1 → ∃ n ev0 key rk, k = i + n ∧ (ev :: acc) !! n = Some ev0 ∧
      (o :: keys) !! n = Some (Some key) ∧ returned !! j = Some (ev0, rk)).
  { intros rr0 ms1 ra1 rr1 Ew Hin. destruct (IH _ _ _ _ _ _ Ew Hin) as (n & e & key & rk & -> & ? & ? & ?).
    exists (S n), e, key, rk. split; [lia|]. done. }
  destruct o as [key|].
  - destruct (first_free _ _ _) as [j'|] eqn:Ef;
      destruct (wireMatches (S i) acc keys returned _) as [[ms1 ra1] rr1] eqn:Ew;
      intros [= <- <- <-]; [|by eapply Hrest].
    intros [[= -> ->]|Hin]%elem_of_cons; [|by eapply Hrest].
    apply first_free_Some in Ef as ([r rk] & Hj & _ & Hp).
    apply andb_true_iff in Hp as [_ Hp%bool_decide_eq_true]. simpl in Hp. subst r.
    exists 0, ev, key, rk. rewrite Nat.add_0_r. done.
  - destruct (wireMatches (S i) acc keys returned rr) as [[ms1 ra1] rr1] eqn:Ew.
    intros [= <- <- <-]. by eapply Hrest.
Qed.

Lemma wireMatches_none i acc keys returned rr ra rr' :
  length keys = length acc → wireMatches i acc keys returned rr = ([], ra, rr') →
  ra = ((λ k, bool_decide (k = None)) <$> keys) ∧ rr' = rr.
Proof.
  revert i keys ra; induction acc as [|ev acc IH]; intros i [|o keys] ra; simpl; try done.
  - by intros _ [= <- <-].
  - intros [= Hk]. destruct o as [key|].
    + destruct (first_free _ _ _) as [j'|];
        destruct (wireMatches (S i) acc keys returned _) as [[ms1 ra1] rr1] eqn:Ew; [done|].
      intros [= -> <- <-]. by destruct (IH _ _ _ Hk Ew) as [-> ->].
    + destruct (wireMatches (S i) acc keys returned rr) as [[ms1 ra1] rr1] eqn:Ew.
      intros [= -> <- <-]. by destruct (IH _ _ _ Hk Ew) as [-> ->].
Qed.

Lemma samePosition_lookup acc ret k e :
  acc !! k = Some e → ret !! k = Some e → samePosition acc ret !! k = Some true.
Proof.
  revert ret k; induction acc as [|a acc IH]; intros [|r ret] [|k]; simpl; try done.
  - intros [= ->] [= ->]. by rewrite bool_decide_eq_true_2.
  - auto.
Qed.

(** If nothing moved, only the same-position matches were reserved. *)
Lemma exact_unmoved acc ret m :
  length acc = length ret → exactEventMatches acc ret = Ok m →
  existsb (λ p : nat * nat, negb (Nat.eqb p.1 p.2)) (em_moved m) = false →
  em_accepted m = samePosition acc ret ∧ em_returned m = samePosition acc ret.
Proof.
  intros Hlen. unfold exactEventMatches. destruct (samePosition_select acc ret) as [Hl _].
  intros (rk & Hrk & (ak & Hak & H)%res_bind_ok)%res_bind_ok.
  apply wireKeys_flags in Hak as [La Fa]; [|done].
  destruct (wireMatches _ _ _ _ _) as [[ms ra] rr'] eqn:Ew. injection H as <-. simpl. intros Hm.
  assert (ms = []) as ->.
  { destruct ms as [|[k j] ms]; [done|exfalso]. simpl in Hm. apply orb_false_iff in Hm as [Hkj _].
    apply negb_false_iff, Nat.eqb_eq in Hkj as <-.
    destruct (wireMatches_elem _ _ _ _ _ _ _ _ k k Ew) as (n & e & key & rk' & -> & Ha & Hkey & Hr); [left|].
    simpl in *. apply lookup_zip_with_Some in Hr as (r & o & [= -> ->] & Hr & _).
    pose proof (samePosition_lookup _ _ _ _ Ha Hr) as Hs. rewrite <- Fa, list_lookup_fmap, Hkey in Hs.
    done. }
  apply wireMatches_none in Ew as [-> ->]; [|done]. rewrite Fa. split; [done|].
  unfold padTo. rewrite Hl, Hlen, Nat.sub_diag. simpl. rewrite app_nil_r. apply take_ge. lia.
Qed.

(** The reserved events are the same on both sides. *)
Lemma exact_perm acc ret m :
  exactEventMatches acc ret = Ok m →
  ∃ T, acc ≡ₚ T ++ select false acc (em_accepted m) ∧ ret ≡ₚ T ++ select false ret (em_returned m).
Proof.
  unfold exactEventMatches. destruct (samePosition_select acc ret) as [Hl Hs].
  intros (rk & Hrk & (ak & Hak & H)%res_bind_ok)%res_bind_ok.
  apply wireKeys_flags in Hak as [La Fa]; [|done].
  apply wireKeys_flags in Hrk as [Lr Fr]; [|by rewrite padTo_length].
  destruct (wireMatches _ _ _ _ _) as [[ms ra] rr'] eqn:Ew. injection H as <-. simpl.
  assert (Lz : length (padTo (length ret) (samePosition acc ret)) = length (zip ret rk)).
  { rewrite padTo_length, length_zip_with. lia. }
  destruct (wireMatches_perm _ _ _ _ _ _ _ _ La Lz Ew) as (H1 & H2 & N & H3 & H4).
  rewrite Fa in H3. assert (Hz : ∀ c, length c = length (zip ret rk) →
    fst <$> select false (zip ret rk) c = select false ret c).
  { clear -Lr. revert rk Lr; induction ret as [|r ret IH]; intros [|k rk] Hk [|f c]; simpl in *; try done.
    intros [= Hc]. injection Hk as Hk. destruct f; simpl; by rewrite IH. }
  rewrite !Hz in H4 by done.
  exists (select true acc (samePosition acc ret) ++ N). split.
  - rewrite (select_split acc _ Hl) at 1. by rewrite H3, app_assoc.
  - rewrite (select_split ret (padTo (length ret) (samePosition acc ret))) at 1 by by rewrite padTo_length.
    by rewrite <- Hs, H4, app_assoc.
Qed.
End Exact.

Section StreamFacts.
Context `{OP : OutboundPolicy} {OL : OutboundPolicyLaws OP}.
Context (canWrite : string → bool).

Definition event_fact (path : list string) (f : string) (ev : pbEvent) : option pval :=
  fact (ProtoReflect ev) path f.

Lemma missing_fact ev path f :
  guarded_path canWrite StreamEventName path f → eventMissing canWrite ev = Ok tt → event_fact path f ev = None.
Proof.
  intros Hp H. destruct (event_typed ev) as [Hn Ht]. eapply present_no_fact; [exact H|done|by rewrite Hn].
Qed.

Lemma event_facts a b path f :
  guarded_path canWrite StreamEventName path f → event canWrite a b = Ok tt → event_fact path f a = event_fact path f b.
Proof.
  intros Hp. unfold event. destruct (negb _).
  - intros (_ & _ & ([] & Ha & Hb)%res_bind_ok)%res_bind_ok. by rewrite !missing_fact.
  - intros H. destruct (event_typed a) as [Hna Hta], (event_typed b) as [Hnb Htb].
    eapply message_fact; [exact H|congruence|done|done|by rewrite Hna].
Qed.

Lemma missing_facts l path f :
  guarded_path canWrite StreamEventName path f → foldM (λ _ ev, eventMissing canWrite ev) tt l = Ok tt →
  omap (event_fact path f) l = [].
Proof.
  intros Hp H. induction l as [|ev l IH]; [done|]. simpl in H.
  apply res_bind_ok in H as ([] & H1 & H2). simpl. rewrite missing_fact by done. auto.
Qed.

Lemma changed_facts l l' path f :
  guarded_path canWrite StreamEventName path f → changedPairs canWrite l l' = Ok tt →
  omap (event_fact path f) l = omap (event_fact path f) l'.
Proof.
  intros Hp. revert l'; induction l as [|a l IH]; intros l' H.
  - destruct l' as [|b l']; [done|]. symmetry. by apply missing_facts.
  - destruct l' as [|b l']; [by apply missing_facts|]. simpl in H.
    apply res_bind_ok in H as ([] & H1 & H2). simpl. rewrite (event_facts a b) by done.
    destruct (event_fact path f b); [f_equal|]; auto.
Qed.

(** C5. Facts a plugin may not write are out of its reach: take any path to a
    host-owned field, or to a scalar of a section or topology the plugin has no
    grant for.  When a completed transaction passes the field policy, the values
    at that path over the events the plugin returned are, as a multiset, those
    over the events it was handed, however it moved, dropped or added events. *)
Theorem guarded_facts_kept accepted returned path f :
  guarded_path canWrite StreamEventName path f →
  events canWrite accepted returned = Ok tt →
  omap (event_fact path f) returned ≡ₚ omap (event_fact path f) accepted.
Proof.
  intros Hp. unfold events.
  intros (_ & _ & (m & Hm & (_ & _ & Hc)%res_bind_ok)%res_bind_ok)%res_bind_ok.
  destruct (exact_perm _ _ _ Hm) as (T & Ha & Hr).
  rewrite Ha, Hr at 1. rewrite !omap_app. by rewrite (changed_facts _ _ path f Hp Hc).
Qed.

(** Without any grant the field policy lets a transaction change neither
    the number nor the order nor the kind of its events: position by position
    each returned event is the accepted one, or has its arm and the same value
    at every guarded path. *)
Theorem no_grant_positions accepted returned :
  (∀ section, canWrite section = false) →
  events canWrite accepted returned = Ok tt →
  Forall2 (λ a r, a = r ∨ eventArm a = eventArm r ∧
     ∀ path f, guarded_path canWrite StreamEventName path f → event_fact path f a = event_fact path f r)
    accepted returned.
Proof.
  intros Hno. unfold events, topology, require. rewrite Hno.
  intros ([] & Hl & (m & Hm & ([] & Hmv & Hc)%res_bind_ok)%res_bind_ok)%res_bind_ok.
  destruct (bool_decide_reflect (length accepted = length returned)) as [Hlen|]; [|done].
  destruct (existsb _ _) eqn:Em; [done|].
  destruct (exact_unmoved _ _ _ Hlen Hm Em) as [Ea Er]. rewrite Ea, Er in Hc.
  clear -OL Hno Hlen Hc. revert returned Hlen Hc.
  induction accepted as [|a acc IH]; intros [|r ret] Hlen Hc; simpl in *; try done.
  injection Hlen as Hlen. destruct (bool_decide_reflect (a = r)) as [->|]; simpl in Hc.
  - constructor; [by left|auto].
  - apply res_bind_ok in Hc as ([] & He & Hc). constructor; [right|auto].
    split; [|intros path f Hp; by apply event_facts].
    unfold event, topology, require in He. rewrite Hno in He.
    destruct (Nat.eqb_spec (eventArm a) (eventArm r)); done.
Qed.
End StreamFacts.
(** ** The interface *)

Class FieldPolicy := {
  fieldErr : Type;
  verifyStreamPolicy : list pbEvent → list pbEvent → (string → bool) → res fieldErr unit;
  policyEvent : (string → bool) → pbEvent → pbEvent → res fieldErr unit }.

Class FieldPolicyLaws (F : FieldPolicy) : Prop := {
  policy_same : ∀ evs canWrite, verifyStreamPolicy evs evs canWrite = Ok tt;
  policy_event_same : ∀ ev canWrite, policyEvent canWrite ev ev = Ok tt }.

#[export] Instance walk_policy `{OutboundPolicy} : FieldPolicy := {|
  fieldErr := policyErr;
  verifyStreamPolicy accepted returned canWrite := events canWrite accepted returned;
  policyEvent := event |}.

#[export] Instance walk_policy_laws `{OP : OutboundPolicy} {OL : OutboundPolicyLaws OP} :
  FieldPolicyLaws walk_policy.
Proof.
  split; simpl.
  - intros evs canWrite. unfold events, exactEventMatches. rewrite bool_decide_eq_true_2 by done.
    assert (Hs : samePosition evs evs = replicate (length evs) true).
    { induction evs as [|e evs IH]; simpl; [done|]. by rewrite bool_decide_eq_true_2, IH. }
    assert (Hp : padTo (length evs) (replicate (length evs) true) = replicate (length evs) true).
    { unfold padTo. rewrite length_replicate, Nat.sub_diag. simpl. rewrite app_nil_r.
      apply take_ge. by rewrite length_replicate. }
    assert (Hk : wireKeys evs (replicate (length evs) true) = Ok (replicate (length evs) None)).
    { clear. induction evs as [|e evs IH]; simpl; [done|]. by rewrite IH. }
    rewrite Hs, Hp, Hk. cbn [res_bind].
    assert (Hw : ∀ i returned rr, wireMatches i evs (replicate (length evs) None) returned rr
      = ([], replicate (length evs) true, rr)).
    { clear. induction evs as [|e evs IH]; intros; simpl; [done|]. by rewrite IH. }
    rewrite Hw. cbn [res_bind em_moved em_accepted em_returned existsb].
    assert (Hsel : select false evs (replicate (length evs) true) = []).
    { clear. induction evs; simpl; auto. }
    by rewrite Hsel.
  - intros ev canWrite. unfold event. rewrite Nat.eqb_refl. simpl. unfold message. cbn [messageF].
    rewrite String.eqb_refl. destruct (event_typed ev) as [-> _]. rewrite event_registered. simpl.
    apply foldM_unit_all. intros f Hf. unfold messageField.
    destruct (event_fields f Hf) as [fd ->]. unfold field_. rewrite eqb_reflx, pval_eqb_refl. simpl.
    by destruct (negb _ && _).
Qed.

(** ** An inventory *)

Definition scalar_field : fieldDescriptor := mkFieldDescriptor false false true "" (PScalar "").
Definition message_field (t : string) : fieldDescriptor := mkFieldDescriptor false true true t (PScalar "").

(** Text is a section, the usage frame a container of a host-owned counter. *)
#[local] Instance small_inventory : OutboundPolicy := {|
  StreamTopologySection := "ir.stream.write";
  StreamEventName := "StreamEvent";
  OutboundMessageRegistered n := String.eqb n "StreamEvent" || String.eqb n "Usage";
  OutboundFieldNames n :=
    if String.eqb n "StreamEvent" then ["text_delta"; "usage"]
    else if String.eqb n "Usage" then ["input_tokens"] else [];
  OutboundFieldPolicy n f :=
    if String.eqb f "text_delta" then PolicySection "ir.assistant.write"
    else if String.eqb f "usage" then PolicyContainer else PolicyHostOwned;
  FieldByName n f :=
    if String.eqb n "StreamEvent" then
      if String.eqb f "text_delta" then Some scalar_field
      else if String.eqb f "usage" then Some (message_field "Usage") else None
    else if String.eqb n "Usage" && String.eqb f "input_tokens" then Some scalar_field else None;
  ProtoReflect ev := PMessage "StreamEvent" ""
    match ev with
    | EvTextDelta t => [("text_delta", PScalar t)]
    | EvUsage i _ _ _ => [("usage", PMessage "Usage" "" [("input_tokens", PScalar (if Z.eqb i 3 then "3" else "?"))])]
    | _ => [] end;
  MarshalDeterministic ev := Ok "" |}.

#[local] Instance small_inventory_laws : OutboundPolicyLaws small_inventory.
Proof.
  split; simpl.
  - intros ev. split; [done|]. constructor. intros g fd x. simpl.
    destruct (String.eqb_spec g "text_delta") as [->|]; [by intros [= <-]|].
    destruct (String.eqb_spec g "usage") as [->|]; [|done]. intros [= <-] _ _ Hx.
    destruct ev; vm_compute in Hx; try discriminate Hx. injection Hx as <-. split; [reflexivity|].
    constructor. intros g' fd' x'. simpl. destruct (String.eqb g' "input_tokens"); [|done].
    by intros [= <-].
  - done.
  - intros f. rewrite !elem_of_cons. intros [->|[->|?%not_elem_of_nil]]; [eauto|eauto|done].
Qed.

Definition text_writer (s : string) : bool :=
  String.eqb s "ir.assistant.write" || String.eqb s "ir.stream.write".

Lemma guarded_facts_kept_witness :
  omap (event_fact ["usage"] "input_tokens") [EvTextDelta "b"; EvTextDelta "c"; EvUsage 3 0 0 0]
  ≡ₚ omap (event_fact ["usage"] "input_tokens") [EvUsage 3 0 0 0; EvTextDelta "a"].
Proof.
  apply (guarded_facts_kept text_writer).
  - simpl. split; [right; left|]. split; [done|]. eexists. split; [done|]. repeat split. left.
  - vm_compute. reflexivity.
Defined.

Lemma no_grant_positions_witness :
  Forall2 (λ a r, a = r ∨ eventArm a = eventArm r ∧
     ∀ path f, guarded_path (λ _, false) StreamEventName path f → event_fact path f a = event_fact path f r)
    [EvTextDelta "a"; EvUsage 3 0 0 0] [EvTextDelta "a"; EvUsage 3 1 0 0].
Proof.
  apply (no_grant_positions (λ _, false)); [done|vm_compute; reflexivity].
Defined.
