(* ===== verification/StreamEnforce.v ===== *)
(** * Stream enforcement

    [internal/plugin/stream_enforce.go] runs every stream event through the
    stream plugins of a request.  The host checks the provider's stream with one
    walker and each plugin's output with another; at each closed scope it
    compares what the plugin was handed with what it returned
    ([verifyStreamPrefix], then the field policy).  A plugin that suppresses the
    start of a tool block opens a journal: its output is held until the block is
    resolved, and the journal is rolled back when the plugin fails and its
    failure mode is "pass".

    A plugin is its manifest and a guest: a function from the guest's state and
    an event to the hook's result and the next state.  The guest, the size of an
    event on the wire and the field policy are parameters.

    After a violation the request is terminal; its other state is never read
    again, so the model keeps only the terminal error.  With no stream plugin
    nothing is enforced, which is the [None] of [rs_verify]. *)

From stdpp Require Import base list strings gmap sets numbers.
From S2P Require Import Prelude Matching StreamEvents Discipline SignatureScan SignatureVerify StreamPolicy.

(** What a hook call returns. *)
Inductive hookResult :=
| NoResult | Suppress | EmitEvents (events : list pbEvent) | OtherAction.

Section Enforce.
Context `{P : SignaturePolicy} `{F : FieldPolicy}.
Context (Guest : Type).
Context (protoSize : pbEvent → Z).

Record loadedPlugin := mkLoadedPlugin {
  lp_name : string;
  lp_failureMode : string;
  lp_HasGrant : string → bool;
  lp_StreamBufferLimit : Z;
  lp_guest : Guest → pbEvent → res string hookResult * Guest }.

(** ** Terminal errors *)

Definition streamTerminalPlugin : string := "plugin".
Definition streamTerminalHost : string := "host".

Inductive termErr :=
| TCall (msg : string)
| TDiscipline (e : streamErr)
| TVerify (e : verifyErr)
| TPolicy (e : fieldErr)
| TLimit
| TCardinality
| TWrapped (t : StreamTerminalError)
with StreamTerminalError :=
| mkTerminal (Plugin Kind : string) (Index : Z) (Scope : nat) (err : termErr).

Definition term_kind (t : StreamTerminalError) : string :=
  match t with mkTerminal _ k _ _ _ => k end.

(** ** State *)

Record streamJournal := mkJournal {
  originals : list pbEvent;
  outputs : list pbEvent;
  pending : gset Z;
  j_walker : streamDisciplineWalker;
  returnedStart : nat;
  bytes : Z }.

Record pluginStreamState := mkPluginState {
  journal : option streamJournal;
  disabled : bool;
  accepted : list pbEvent;
  returned : list pbEvent;
  scopeStart : nat;
  pv_walker : streamDisciplineWalker;
  scopeNum : nat;
  acceptedCloseCount : nat;
  returnedCloseCount : nat }.

Definition pluginState0 : pluginStreamState :=
  mkPluginState None false [] [] 0 walker0 0 0 0.

Definition with_journal j (v : pluginStreamState) :=
  mkPluginState j (disabled v) (accepted v) (returned v) (scopeStart v) (pv_walker v) (scopeNum v)
    (acceptedCloseCount v) (returnedCloseCount v).
Definition with_disabled d (v : pluginStreamState) :=
  mkPluginState (journal v) d (accepted v) (returned v) (scopeStart v) (pv_walker v) (scopeNum v)
    (acceptedCloseCount v) (returnedCloseCount v).
Definition with_accepted a (v : pluginStreamState) :=
  mkPluginState (journal v) (disabled v) a (returned v) (scopeStart v) (pv_walker v) (scopeNum v)
    (acceptedCloseCount v) (returnedCloseCount v).
Definition with_returned r (v : pluginStreamState) :=
  mkPluginState (journal v) (disabled v) (accepted v) r (scopeStart v) (pv_walker v) (scopeNum v)
    (acceptedCloseCount v) (returnedCloseCount v).
Definition with_scopeStart n (v : pluginStreamState) :=
  mkPluginState (journal v) (disabled v) (accepted v) (returned v) n (pv_walker v) (scopeNum v)
    (acceptedCloseCount v) (returnedCloseCount v).
Definition with_walker w (v : pluginStreamState) :=
  mkPluginState (journal v) (disabled v) (accepted v) (returned v) (scopeStart v) w (scopeNum v)
    (acceptedCloseCount v) (returnedCloseCount v).
Definition with_counts a r n (v : pluginStreamState) :=
  mkPluginState (journal v) (disabled v) (accepted v) (returned v) (scopeStart v) (pv_walker v) n a r.

Record streamVerifierState := mkVerifier {
  host : streamDisciplineWalker;
  plugins : list pluginStreamState;
  terminal : option StreamTerminalError }.

Definition newStreamVerifierState (lps : list loadedPlugin) : streamVerifierState :=
  mkVerifier walker0 ((λ _, pluginState0) <$> lps) None.

Definition enforces (vs : streamVerifierState) : bool := negb (bool_decide (plugins vs = [])).

(** ** Helpers *)

Definition isScopeCloseEvent (ev : pbEvent) : bool :=
  match ev with EvContentBlockStop _ | EvMessageStop _ | EvError _ _ => true | _ => false end.

(** [MessageStop] or [Error]: the events that end a message. *)
Definition isTerminalEvent (ev : pbEvent) : bool :=
  match ev with EvMessageStop _ | EvError _ _ => true | _ => false end.

Definition eventIndex (ev : pbEvent) : Z :=
  match ev with
  | EvContentBlockStart i _ | EvContentBlockStop i | EvToolCallDelta i _ _ => i
  | _ => (-1)%Z
  end.

(** The texts that match [tool block (\d+)]: no sign is matched. *)
Definition toolBlockIndexFrom (e : termErr) : Z :=
  match e with
  | TVerify (ToolBlockSignature i _) | TVerify (InventedSignedTool i)
  | TVerify (InventedTool i) | TVerify (SuppressedSignedTool i) =>
      if bool_decide (0 ≤ i)%Z then i else (-1)%Z
  | _ => (-1)%Z
  end.

Definition streamEventCost (ev : pbEvent) : Z := uint64_of (protoSize ev + 64).

Definition recordScopeCloses (v : pluginStreamState) (a r : nat) : pluginStreamState :=
  let a' := acceptedCloseCount v + a in
  let r' := returnedCloseCount v + r in
  with_counts a' r' (if bool_decide (a' < r') then r' else a') v.

Definition countCloses (evs : list pbEvent) : nat := length (filter (λ ev, isScopeCloseEvent ev = true) evs).

Definition recountCloses (v : pluginStreamState) : pluginStreamState :=
  let a := countCloses (accepted v) in
  let r := countCloses (returned v) in
  with_counts a r (max a r) v.

(** ** Scope checks *)

Definition checkScope (lp : loadedPlugin) (v : pluginStreamState) (scope : nat)
    : res StreamTerminalError pluginStreamState :=
  match verifyStreamPrefix (accepted v) (returned v) (lp_HasGrant lp) with
  | Err (AcceptedDefect e) =>
      Err (mkTerminal "host" streamTerminalHost (-1) scope (TVerify (AcceptedDefect e)))
  | Err e =>
      Err (mkTerminal (lp_name lp) streamTerminalPlugin (toolBlockIndexFrom (TVerify e)) scope (TVerify e))
  | Ok _ =>
      match verifyStreamPolicy (accepted v) (returned v) (lp_HasGrant lp) with
      | Err e =>
          Err (mkTerminal (lp_name lp) streamTerminalPlugin (toolBlockIndexFrom (TPolicy e)) scope (TPolicy e))
      | Ok _ => Ok (with_scopeStart (length (accepted v)) v)
      end
  end.

Definition rollbackStreamJournal (lp : loadedPlugin) (v : pluginStreamState) (j : streamJournal)
    : res termErr (list pbEvent * pluginStreamState) :=
  w ←? map_err TDiscipline (walkAll (j_walker j) (originals j));
  let v1 := with_returned (take (returnedStart j) (returned v) ++ originals j) (with_walker w v) in
  _ ←? map_err TVerify (verifyStreamPrefix (accepted v1) (returned v1) (lp_HasGrant lp));
  _ ←? map_err TPolicy (verifyStreamPolicy (accepted v1) (returned v1) (lp_HasGrant lp));
  Ok (originals j, recountCloses (with_disabled true (with_journal None v1))).

(** [acceptPluginOutputs]: one HookResult as one replacement. *)
Definition acceptPluginOutputs (lp : loadedPlugin) (v : pluginStreamState) (ev : pbEvent)
    (emitted : list pbEvent) : res StreamTerminalError (list pbEvent * pluginStreamState) :=
  match walkAll (pv_walker v) emitted with
  | Ok w => Ok (emitted, with_walker w v)
  | Err e =>
      if String.eqb (lp_failureMode lp) "block" then
        let bad := (fix first (w : streamDisciplineWalker) (l : list pbEvent) : Z :=
          match l with
          | [] => (-1)%Z
          | x :: l' => match walkR w x with Ok w' => first w' l' | Err _ => eventIndex x end
          end) (pv_walker v) emitted in
        Err (mkTerminal (lp_name lp) streamTerminalPlugin bad 0 (TDiscipline e))
      else match walkR (pv_walker v) ev with
      | Err e' => Err (mkTerminal (lp_name lp) streamTerminalPlugin (eventIndex ev) 0 (TDiscipline e'))
      | Ok w => Ok ([ev], with_walker w v)
      end
  end.

(** [acceptPluginOutput]: the single-event form. *)
Definition acceptPluginOutput (lp : loadedPlugin) (v : pluginStreamState) (ev emitted : pbEvent)
    : res StreamTerminalError (pbEvent * pluginStreamState) :=
  '(got, v') ←? acceptPluginOutputs lp v ev [emitted];
  match got with
  | [out] => Ok (out, v')
  | _ => Err (mkTerminal (lp_name lp) streamTerminalPlugin (eventIndex emitted) 0 TCardinality)
  end.

(** [closeScope]: one coincident accepted and returned close. *)
Definition closeScope (lp : loadedPlugin) (v : pluginStreamState)
    : res StreamTerminalError pluginStreamState :=
  let v1 := recordScopeCloses v 1 1 in checkScope lp v1 (scopeNum v1).

(** ** One event at one plugin *)

(** [invokeStreamEvent]: the events the hook proposes in place of [ev]. *)
Definition invokeStreamEvent (lp : loadedPlugin) (g : Guest) (ev : pbEvent)
    : res termErr (list pbEvent) * Guest :=
  let '(r, g') := lp_guest lp g ev in
  (match r with
   | Err e => Err (TCall e)
   | Ok Suppress => Ok []
   | Ok (EmitEvents evs) => Ok evs
   | Ok _ => Ok [ev]
   end, g').

(** The event is recorded as accepted, and in an open journal. *)
Definition recordAccepted (ev : pbEvent) (v : pluginStreamState) : pluginStreamState :=
  let v1 := with_accepted (accepted v ++ [ev]) v in
  match journal v1 with
  | None => v1
  | Some j => with_journal (Some (mkJournal (originals j ++ [ev]) (outputs j) (pending j) (j_walker j)
                                    (returnedStart j) (uint64_of (bytes j + streamEventCost ev)))) v1
  end.

(** The per-event checks of a proposal: the field policy of a one-for-one
    replacement, then the returned-side discipline. *)
Definition proposal (lp : loadedPlugin) (v : pluginStreamState) (ev : pbEvent) (emitted : list pbEvent)
    : res termErr streamDisciplineWalker :=
  _ ←? match emitted with
       | [out] => if Nat.eqb (eventArm ev) (eventArm out)
                  then map_err TPolicy (policyEvent (lp_HasGrant lp) ev out) else Ok tt
       | _ => Ok tt
       end;
  map_err TDiscipline (walkAll (pv_walker v) emitted).

(** A suppressed tool start opens the journal, or joins it. *)
Definition deferStart (ev : pbEvent) (emitted : list pbEvent) (v : pluginStreamState) : pluginStreamState :=
  match emitted, ev with
  | [], EvContentBlockStart i (BlockToolCall _) =>
      let j := match journal v with
               | Some j => j
               | None => mkJournal [ev] [] ∅ (pv_walker v) (length (returned v)) (streamEventCost ev)
               end in
      with_journal (Some (mkJournal (originals j) (outputs j) ({[i]} ∪ pending j) (j_walker j)
                            (returnedStart j) (bytes j))) v
  | _, _ => v
  end.

(** The byte budget of an open journal. *)
Definition chargeJournal (lp : loadedPlugin) (emitted : list pbEvent) (v : pluginStreamState)
    : pluginStreamState * bool :=
  match journal v with
  | None => (v, false)
  | Some j =>
      let b := foldl (λ n ev, uint64_of (n + streamEventCost ev)) (bytes j) emitted in
      (with_journal (Some (mkJournal (originals j) (outputs j) (pending j) (j_walker j)
                             (returnedStart j) b)) v,
       bool_decide (lp_StreamBufferLimit lp < b)%Z)
  end.

(** The emitted events join the returned stream, and the journal or [next]. *)
Definition publish (ev : pbEvent) (emitted : list pbEvent) (v : pluginStreamState)
    (next : list pbEvent) : pluginStreamState * list pbEvent :=
  let v1 := with_returned (returned v ++ emitted) v in
  match journal v1 with
  | None => (v1, next ++ emitted)
  | Some j =>
      let pend := match ev with
                  | EvContentBlockStop i => pending j ∖ {[i]}
                  | EvError _ _ => ∅
                  | _ => pending j
                  end in
      (with_journal (Some (mkJournal (originals j) (outputs j ++ emitted) pend (j_walker j)
                             (returnedStart j) (bytes j))) v1, next)
  end.

(** The call failed: [failure_mode] decides. *)
Definition stageFailure (lp : loadedPlugin) (ev : pbEvent) (v : pluginStreamState) (next : list pbEvent)
    (callErr : termErr) : res StreamTerminalError (pluginStreamState * list pbEvent) :=
  if String.eqb (lp_failureMode lp) "block" then
    Err (mkTerminal (lp_name lp) streamTerminalPlugin (eventIndex ev) (scopeNum v) callErr)
  else match journal v with
  | Some j =>
      match rollbackStreamJournal lp v j with
      | Err e => Err (mkTerminal (lp_name lp) streamTerminalPlugin (eventIndex ev) (scopeNum v) e)
      | Ok (replay, v') => Ok (v', next ++ replay)
      end
  | None =>
      match walkR (pv_walker v) ev with
      | Err e => Err (mkTerminal (lp_name lp) streamTerminalPlugin (eventIndex ev) (scopeNum v) (TDiscipline e))
      | Ok w => Ok (publish ev [ev] (with_walker w v) next)
      end
  end.

Definition stageEvent (lp : loadedPlugin) (st : pluginStreamState * Guest * list pbEvent) (ev : pbEvent)
    : res StreamTerminalError (pluginStreamState * Guest * list pbEvent) :=
  let '(v0, g0, next) := st in
  let v := recordAccepted ev v0 in
  let '(proposed, g) := if disabled v then (Ok [ev], g0) else invokeStreamEvent lp g0 ev in
  let emitted := match proposed with Ok evs => evs | Err _ => [] end in
  let checked := (evs ←? proposed; proposal lp v ev evs) in
  let v1 := match checked with
            | Ok w => deferStart ev emitted (with_walker w v)
            | Err _ => v end in
  let '(v2, over) := chargeJournal lp emitted v1 in
  let callErr := if over then Some TLimit else match checked with Ok _ => None | Err e => Some e end in
  '(v3, next') ←? match callErr with
                  | None => Ok (publish ev emitted v2 next)
                  | Some e => stageFailure lp ev v2 next e
                  end;
  Ok (v3, g, next').

(** ** The end of one call at one plugin *)

(** The verification of a closed scope. *)
Definition verifyScope (lp : loadedPlugin) (v : pluginStreamState) (ended : bool)
    : res (termErr + StreamTerminalError) pluginStreamState :=
  _ ←? (if ended then map_err (inl ∘ TDiscipline) (walker_end (pv_walker v)) else Ok tt);
  map_err inr (checkScope lp v (scopeNum v)).

Definition flushJournal (v : pluginStreamState) (next : list pbEvent) : pluginStreamState * list pbEvent :=
  match journal v with
  | Some j => if bool_decide (pending j = ∅) then (with_journal None v, next ++ outputs j) else (v, next)
  | None => (v, next)
  end.

Definition stageClose (lp : loadedPlugin) (acceptedStart returnedStart : nat)
    (v : pluginStreamState) (next : list pbEvent)
    : res StreamTerminalError (pluginStreamState * list pbEvent) :=
  let newAccepted := drop acceptedStart (accepted v) in
  let newReturned := drop returnedStart (returned v) in
  let ended := existsb isTerminalEvent newAccepted || existsb isTerminalEvent newReturned in
  '(v', next') ←?
    (if Nat.eqb (countCloses newAccepted) 0 && Nat.eqb (countCloses newReturned) 0 then Ok (v, next)
     else
       let v1 := recountCloses v in
       let scope := scopeNum v1 in
       match journal v1 with
       | Some j =>
           if negb (bool_decide (pending j = ∅)) then Ok (v1, next)
           else match verifyScope lp v1 ended with
           | Ok v2 => Ok (v2, next)
           | Err verifyErr =>
               if String.eqb (lp_failureMode lp) "pass" then
                 match rollbackStreamJournal lp v1 j with
                 | Err e => Err (mkTerminal (lp_name lp) streamTerminalPlugin (-1) scope e)
                 | Ok (replay, v2) =>
                     let v3 := recountCloses v2 in
                     match checkScope lp v3 (scopeNum v3) with
                     | Err t => Err (mkTerminal (lp_name lp) streamTerminalPlugin (-1) scope (TWrapped t))
                     | Ok v4 => Ok (v4, next ++ replay)
                     end
                 end
               else match verifyErr with
               | inr t => Err t
               | inl e => Err (mkTerminal (lp_name lp) streamTerminalPlugin (-1) scope e)
               end
           end
       | None =>
           match verifyScope lp v1 ended with
           | Ok v2 => Ok (v2, next)
           | Err (inr t) => Err t
           | Err (inl e) => Err (mkTerminal (lp_name lp) streamTerminalPlugin (-1) scope e)
           end
       end);
  Ok (flushJournal v' next').

Definition stage (lp : loadedPlugin) (v : pluginStreamState) (g : Guest) (current : list pbEvent)
    : res StreamTerminalError (pluginStreamState * Guest * list pbEvent) :=
  '(v1, g1, next) ←? foldM (stageEvent lp) (v, g, []) current;
  '(v2, next') ←? stageClose lp (length (accepted v)) (length (returned v)) v1 next;
  Ok (v2, g1, next').

Fixpoint pipeline (lps : list loadedPlugin) (vs : list pluginStreamState) (gs : list Guest)
    (current : list pbEvent)
    : res StreamTerminalError (list pluginStreamState * list Guest * list pbEvent) :=
  match lps, vs, gs with
  | lp :: lps', v :: vs', g :: gs' =>
      '(v1, g1, next) ←? stage lp v g current;
      '(vs1, gs1, out) ←? pipeline lps' vs' gs' next;
      Ok (v1 :: vs1, g1 :: gs1, out)
  | _, _, _ => Ok ([], [], current)
  end.

(** ** One request *)

Record reqState := mkReqState {
  rs_verify : option streamVerifierState;
  rs_tracker : BlockKindTracker;
  rs_guests : list Guest }.

Inductive chunkResult :=
| Events (events : list StreamEvent)
| Terminal (t : StreamTerminalError)
| Topology (e : trackerErr).

Definition runOnStreamChunk (lps : list loadedPlugin) (chunk : StreamEvent) (s : reqState)
    : chunkResult * reqState :=
  let hostEvent := ToPBStreamEvent chunk in
  match rs_verify s with
  | None =>
      match convertAll (rs_tracker s) [hostEvent] with
      | Ok (t, evs) => (Events evs, mkReqState None t (rs_guests s))
      | Err e => (Topology e, s)
      end
  | Some vs =>
      match walkR (host vs) hostEvent with
      | Err e =>
          let t := mkTerminal "host" streamTerminalHost (eventIndex hostEvent) 0 (TDiscipline e) in
          (Terminal t, mkReqState (Some (mkVerifier (host vs) (plugins vs) (Some t))) (rs_tracker s) (rs_guests s))
      | Ok w =>
          match pipeline lps (plugins vs) (rs_guests s) [hostEvent] with
          | Err t =>
              (Terminal t, mkReqState (Some (mkVerifier w (plugins vs) (Some t))) (rs_tracker s) (rs_guests s))
          | Ok (vs', gs', current) =>
              match convertAll (rs_tracker s) current with
              | Ok (tr, evs) => (Events evs, mkReqState (Some (mkVerifier w vs' None)) tr gs')
              | Err e => (Topology e, mkReqState (Some (mkVerifier w vs' None)) (rs_tracker s) gs')
              end
          end
      end
  end.

(** The verifier state of a request is created by its first call. *)
Definition ensureVerifier (lps : list loadedPlugin) (s : reqState) : reqState :=
  match rs_verify s with
  | Some _ => s
  | None =>
      let vs := newStreamVerifierState lps in
      mkReqState (if enforces vs then Some vs else None) (rs_tracker s) (rs_guests s)
  end.

Definition RunOnStreamChunkVerified (lps : list loadedPlugin) (chunk : StreamEvent) (s : reqState)
    : chunkResult * reqState :=
  let s1 := ensureVerifier lps s in
  match rs_verify s1 ≫= terminal with
  | Some t => (Terminal t, s1)
  | None => runOnStreamChunk lps chunk s1
  end.

Fixpoint endPlugins (lps : list loadedPlugin) (vs : list pluginStreamState) : res StreamTerminalError unit :=
  match lps, vs with
  | lp :: lps', v :: vs' =>
      match walker_end (pv_walker v) with
      | Err e => Err (mkTerminal (lp_name lp) streamTerminalPlugin (-1) (scopeNum v) (TDiscipline e))
      | Ok _ => endPlugins lps' vs'
      end
  | _, _ => Ok tt
  end.

Fixpoint endScopes (lps : list loadedPlugin) (vs : list pluginStreamState) : res StreamTerminalError unit :=
  match lps, vs with
  | lp :: lps', v :: vs' =>
      if bool_decide (length (accepted v) ≤ scopeStart v) then endScopes lps' vs'
      else _ ←? checkScope lp v (scopeNum v + 1); endScopes lps' vs'
  | _, _ => Ok tt
  end.

Definition EndStreamVerified (lps : list loadedPlugin) (s : reqState) : option StreamTerminalError :=
  match rs_verify s with
  | None => None
  | Some vs =>
      match terminal vs with
      | Some t => Some t
      | None =>
          match (_ ←? map_err (λ e, mkTerminal "host" streamTerminalHost (-1) 0 (TDiscipline e))
                        (walker_end (host vs));
                 _ ←? endPlugins lps (plugins vs);
                 endScopes lps (plugins vs)) with
          | Ok _ => None
          | Err t => Some t
          end
      end
  end.
End Enforce.
