(* ===== verification/StreamEnforceProofs.v ===== *)
(** * Stream enforcement: what reaches the client

    Invariants of [StreamEnforce]: what one plugin stage has released is a
    disciplined stream, a stage's input is what the previous stage released, and
    a held journal always waits for a tool block its input left open.  The
    theorems follow the request: conversion cannot fail
    ([forwarded_stream_disciplined]), blame is attributed to the right side
    ([host_blamed_exactly]), a violation ends the request
    ([terminal_is_final]), plugins that change nothing are transparent
    ([identity_plugins_transparent]), and a stream that ends cleanly carries no
    token the provider did not issue ([no_minted_signature_end_to_end]). *)

From stdpp Require Import base list strings gmap sets numbers.
From S2P Require Import Prelude Matching StreamEvents Discipline SignatureScan SignatureVerify StreamPolicy StreamEnforce.

(** ** Walker lemmas *)

Lemma walkAll_app w l1 l2 : walkAll w (l1 ++ l2) = (w' ←? walkAll w l1; walkAll w' l2).
Proof. apply foldM_app. Qed.

Lemma walkAll_snoc w l ev w1 : walkAll w l = Ok w1 → walkAll w (l ++ [ev]) = walkR w1 ev.
Proof. intros H. rewrite walkAll_app, H. cbn. by destruct (walkR w1 ev). Qed.

Lemma walkAll_prefix w l1 l2 w' : walkAll w (l1 ++ l2) = Ok w' → ∃ w1, walkAll w l1 = Ok w1 ∧ walkAll w1 l2 = Ok w'.
Proof. rewrite walkAll_app. intros H; inv_ok. eauto. Qed.

(** The tool blocks a stream has left open, none after an error. *)
Definition openBlocks (w : streamDisciplineWalker) : gset Z :=
  if sawError w then ∅ else dom (openTools w).

(** How one input event changes the set of deferred tool decisions, at most. *)
Definition pendStep (ev : pbEvent) (s : gset Z) : gset Z :=
  match ev with
  | EvContentBlockStart i (BlockToolCall _) => {[i]} ∪ s
  | EvContentBlockStop i => s ∖ {[i]}
  | EvError _ _ => ∅
  | _ => s
  end.

Lemma pendStep_mono ev s1 s2 : s1 ⊆ s2 → pendStep ev s1 ⊆ pendStep ev s2.
Proof. destruct ev as [| | |? []| | | | | | |]; simpl; set_solver. Qed.

Lemma walkR_openBlocks w ev w' : walkR w ev = Ok w' → pendStep ev (openBlocks w) ⊆ openBlocks w'.
Proof.
  destruct w as [nt ot sn se ms so st p]. unfold openBlocks; intros H.
  destruct ev as [| | |i []| | | | | | |]; split_walk H; simpl; try done;
    rewrite ?dom_insert_L, ?dom_delete_L; set_solver.
Qed.

Lemma end_no_open w : walker_end w = Ok tt → openBlocks w = ∅.
Proof.
  unfold walker_end, openBlocks. destruct (sawError w); [done|]. simpl.
  destruct (bool_decide_reflect (openTools w ≠ ∅)) as [|Hn]; rewrite ?orb_true_r, ?orb_false_r; [done|].
  intros _. apply dec_stable in Hn. by rewrite Hn, dom_empty_L.
Qed.

(** The walker accepts the end of a message at its terminal events. *)
Lemma end_after_terminal w ev w' :
  walker_inv w → walkR w ev = Ok w' → isTerminalEvent ev = true → walker_end w' = Ok tt.
Proof.
  intros _ H Ht. destruct ev; try done; destruct w as [nt ot sn se ms so st p];
    unfold walkR, walk in H; simpl in H;
    destruct se; try done; rewrite ?andb_true_r, ?andb_false_r in H.
  - destruct ms; [done|]. destruct (_ || _) eqn:E; [done|]. inv_ok. unfold walker_end; simpl. by rewrite E.
  - inv_ok. done.
Qed.

(** ** The comparison never blames the accepted side *)

Section NotAccepted.
Context `{P : SignaturePolicy} (canWrite : string → bool).

(** A verdict about the returned stream. *)
Definition about_returned (e : verifyErr) : Prop :=
  match e with AcceptedDefect _ => False | _ => True end.

Lemma verifyToolScopes_about acc ret e :
  verifyToolScopes canWrite acc ret = Err e → about_returned e.
Proof.
  unfold verifyToolScopes. destruct (consume_exact _ _ _ _ _) as [c rc].
  intros [H|(c' & _ & H)]%res_bind_err.
  - revert rc c H. induction ret as [|r ret IH]; intros [|[] rc] c; simpl; try done; eauto.
    intros [H|(c' & _ & H)]%res_bind_err; eauto.
    unfold correlate in H. repeat (split_match_in H; try done); by simplify_eq.
  - revert c' H. induction acc as [|a acc IH]; intros [|b c']; simpl; try done.
    destruct (_ || _); [eauto|]. destruct (canWrite _); eauto. by intros [= <-].
Qed.

Lemma verifyUnpaired_about kind ab rv e :
  verifyUnpairedBinding canWrite kind ab rv = Err e → about_returned e.
Proof. unfold verifyUnpairedBinding. intros H. repeat (split_match_in H; try done); by simplify_eq. Qed.

Lemma phase3_about kind rv er m tw used a e :
  phase3_one canWrite kind rv er m tw used a = Err e → about_returned e.
Proof.
  unfold phase3_one. intros H.
  repeat (split_match_in H; try done); try (by simplify_eq);
    apply res_bind_err in H as [H|(? & _ & H)]; try done; eauto using verifyUnpaired_about.
Qed.

Lemma phase2_about kind acc c ret rc e : phase2 kind acc c ret rc = Err e → about_returned e.
Proof.
  revert rc; induction ret as [|r ret IH]; intros [|b rc]; simpl; try done.
  destruct (_ || _); [eauto|]. unfold phase2_verdict. intros [= <-].
  by repeat split_match.
Qed.

Lemma verifyKind_about av rv kind e : verifyKind canWrite av rv kind = Err e → about_returned e.
Proof.
  unfold verifyKind. destruct (consume_exact _ _ _ _ _) as [c rc].
  intros [H|(? & _ & H)]%res_bind_err; [by eapply phase2_about|].
  destruct (if decide _ then _ else _) as [m tw].
  apply res_bind_err in H as [H|(? & _ & H)]; [|done].
  apply foldM_err in H as (? & ? & H). eauto using phase3_about.
Qed.

Lemma verifyViews_about acc ret e : verifyViews acc ret canWrite = Err e → about_returned e.
Proof.
  unfold verifyViews, verifySignatureDeltaBindings.
  intros [H|(? & _ & [H|(? & _ & [H|(? & _ & H)]%res_bind_err)]%res_bind_err)]%res_bind_err;
    eauto using verifyToolScopes_about, verifyKind_about.
  destruct (existsb _ _); by simplify_eq.
Qed.
End NotAccepted.

Section Stage.
Context `{P : SignaturePolicy} `{F : FieldPolicy}.
Context (Guest : Type).
Context (protoSize : pbEvent → Z).
Abbreviation loadedPlugin := (loadedPlugin Guest).
Implicit Types (lp : loadedPlugin) (v : pluginStreamState) (g : Guest).

(** ** What a stage has released

    [ledger e rel v]: the returned events and [e] walk to the stage's walker;
    with no journal everything returned is released; an open journal holds
    back what was returned since it was opened. *)
Definition held (rel : list pbEvent) v : Prop :=
  match journal v with
  | None => returned v = rel
  | Some j => returned v = rel ++ outputs j ∧ returnedStart j = length rel ∧
              walkAll walker0 rel = Ok (j_walker j)
  end.

Definition ledger (e rel : list pbEvent) v : Prop :=
  walkAll walker0 (returned v ++ e) = Ok (pv_walker v) ∧ held rel v.

Lemma recordAccepted_ledger e rel ev v :
  ledger e rel v → ledger e rel (recordAccepted protoSize ev v).
Proof. destruct v as [[j|] ? ? ? ? ? ? ? ?]; by unfold ledger, held, recordAccepted; simpl. Qed.

Lemma deferStart_ledger rel ev e v w :
  ledger [] rel v → walkAll (pv_walker v) e = Ok w →
  ledger e rel (deferStart protoSize ev e (with_walker w v)).
Proof.
  destruct v as [[j|] d a r s pw n c1 c2]; unfold ledger, held; simpl; rewrite app_nil_r;
    intros [Hr Hh] Hw; assert (Hre : walkAll walker0 (r ++ e) = Ok w)
      by (by rewrite walkAll_app, Hr);
    unfold deferStart; destruct e as [|x e], ev as [| | |i []| | | | | | |]; simpl; try done.
  split; [done|]. rewrite app_nil_r in *. by subst.
Qed.

Lemma chargeJournal_ledger lp emitted e rel v v' o :
  chargeJournal Guest protoSize lp emitted v = (v', o) → ledger e rel v → ledger e rel v'.
Proof. destruct v as [[j|] ? ? ? ? ? ? ? ?]; unfold chargeJournal; simpl; by intros [= <- <-]. Qed.

Lemma publish_ledger ev e rel v next v' next' :
  publish ev e v next = (v', next') → ledger e rel v →
  ∃ new, next' = next ++ new ∧ ledger [] (rel ++ new) v'.
Proof.
  destruct v as [[j|] d a r s pw n c1 c2]; unfold publish, ledger, held; simpl;
    intros [= <- <-] [Hr Hh]; [exists [] | exists e]; simpl; rewrite ?app_nil_r; split; auto.
  - split; [done|]. destruct Hh as (-> & ? & ?). by rewrite <- app_assoc.
  - split; [done|]. by subst.
Qed.

Lemma rollback_ledger lp rel v j replay v' :
  held rel v → journal v = Some j → rollbackStreamJournal Guest lp v j = Ok (replay, v') →
  ledger [] (rel ++ replay) v' ∧ journal v' = None ∧ accepted v' = accepted v ∧ scopeStart v' = scopeStart v.
Proof.
  unfold held, rollbackStreamJournal. intros Hh Hj H. rewrite Hj in Hh. destruct Hh as (Hr & Hl & Hw).
  inv_ok. simpl. split; [|done]. unfold ledger, held; simpl. rewrite app_nil_r, Hr, Hl, take_app_length.
  split; [|done]. by rewrite walkAll_app, Hw.
Qed.

(** ** One event *)

Definition pendingOf v : gset Z := default ∅ (pending <$> journal v).

(** An event's effect on a stage: its input grows by the event, what the stage
    newly releases is appended to [next], and its deferred decisions change by
    at most the event's own. *)
Record advances (ev : pbEvent) (rel : list pbEvent) v next v' next' : Prop := {
  adv_new : ∃ new, next' = next ++ new ∧ ledger [] (rel ++ new) v';
  adv_accepted : accepted v' = accepted v ++ [ev];
  adv_scope : scopeStart v' = scopeStart v;
  adv_pending : pendingOf v' ⊆ pendStep ev (pendingOf v) }.

Lemma recordAccepted_fields ev v :
  let v' := recordAccepted protoSize ev v in
  accepted v' = accepted v ++ [ev] ∧ returned v' = returned v ∧ scopeStart v' = scopeStart v ∧
  pv_walker v' = pv_walker v ∧ pendingOf v' = pendingOf v ∧ scopeNum v' = scopeNum v.
Proof. by destruct v as [[j|] ? ? ? ? ? ? ? ?]. Qed.

Lemma chargeJournal_fields lp emitted v v' o :
  chargeJournal Guest protoSize lp emitted v = (v', o) →
  accepted v' = accepted v ∧ returned v' = returned v ∧ scopeStart v' = scopeStart v ∧
  pv_walker v' = pv_walker v ∧ pendingOf v' = pendingOf v ∧
  (o = true → is_Some (journal v)) ∧ (is_Some (journal v') → is_Some (journal v)).
Proof. destruct v as [[j|] ? ? ? ? ? ? ? ?]; unfold chargeJournal; simpl; intros [= <- <-]; naive_solver. Qed.

Lemma deferStart_fields ev e v w :
  let v' := deferStart protoSize ev e (with_walker w v) in
  accepted v' = accepted v ∧ returned v' = returned v ∧ scopeStart v' = scopeStart v ∧
  pv_walker v' = w ∧
  pendingOf v' ⊆ (match ev with EvContentBlockStart i (BlockToolCall _) => {[i]} | _ => ∅ end) ∪ pendingOf v.
Proof.
  destruct v as [[j|] d a r s pw n c1 c2], e as [|x e], ev as [| | |i []| | | | | | |];
    unfold deferStart, pendingOf; simpl; set_solver.
Qed.

Lemma publish_fields ev e v next v' next' :
  publish ev e v next = (v', next') →
  accepted v' = accepted v ∧ scopeStart v' = scopeStart v ∧
  pendingOf v' ⊆ match ev with
                 | EvContentBlockStop i => pendingOf v ∖ {[i]}
                 | EvError _ _ => ∅
                 | _ => pendingOf v end.
Proof.
  destruct v as [[j|] d a r s pw n c1 c2]; unfold publish, pendingOf; simpl; intros [= <- <-]; simpl;
    (split; [done|]); (split; [done|]); destruct ev as [| | |i []| | | | | | |]; set_solver.
Qed.

Lemma proposal_walks lp v ev evs w :
  proposal Guest lp v ev evs = Ok w → walkAll (pv_walker v) evs = Ok w.
Proof. unfold proposal. intros H; inv_ok. done. Qed.

(** A checked proposal that is published. *)
Lemma publish_advances ev e rel v0 v1 v2 next v' next' :
  accepted v1 = accepted v0 ++ [ev] → scopeStart v1 = scopeStart v0 →
  pendingOf v1 = pendingOf v0 →
  accepted v2 = accepted v1 → scopeStart v2 = scopeStart v1 →
  pendingOf v2 ⊆ (match ev with EvContentBlockStart i (BlockToolCall _) => {[i]} | _ => ∅ end) ∪ pendingOf v1 →
  ledger e rel v2 → publish ev e v2 next = (v', next') → advances ev rel v0 next v' next'.
Proof.
  intros Ha Hs Hp Ha2 Hs2 Hp2 HL Hpub.
  destruct (publish_fields _ _ _ _ _ _ Hpub) as (Ha3 & Hs3 & Hp3).
  split; eauto using publish_ledger; try congruence.
  etrans; [exact Hp3|]. rewrite Hp in Hp2.
  destruct ev as [| | |i []| | | | | | |]; simpl; set_solver.
Qed.

(** A failed call that is recovered: the journal is rolled back, or the input
    event replayed. *)
Lemma stageFailure_advances lp ev rel v0 v next e v' next' :
  accepted v = accepted v0 ++ [ev] → scopeStart v = scopeStart v0 →
  held rel v → (journal v = None → ledger [] rel v) →
  stageFailure Guest lp ev v next e = Ok (v', next') → advances ev rel v0 next v' next'.
Proof.
  intros Ha Hs Hh HL. unfold stageFailure. destruct (_ =? _)%string; [done|].
  destruct (journal v) as [j|] eqn:Hj.
  - destruct (rollbackStreamJournal _ _ _ _) as [[replay v3]|] eqn:Hrb; [|done].
    intros [= <- <-]. eapply rollback_ledger in Hrb as (R1 & R2 & R3 & R4); [|done..].
    split; [by eauto|congruence|congruence|]. unfold pendingOf. rewrite R2. simpl. set_solver.
  - destruct (HL eq_refl) as [L1 L2]. rewrite app_nil_r in L1.
    destruct (walkR (pv_walker v) ev) as [w|] eqn:Hw; [|done]. intros [= Hpub].
    assert (HL' : ledger [ev] rel (with_walker w v))
      by (split; [simpl; by rewrite (walkAll_snoc _ _ _ _ L1)|done]).
    destruct (publish_fields _ _ _ _ _ _ Hpub) as (Ha3 & Hs3 & Hp3); simpl in *.
    split; [by eapply publish_ledger|congruence|congruence|].
    unfold pendingOf in *. simpl in Hp3. rewrite Hj in Hp3. simpl in Hp3.
    destruct ev; set_solver.
Qed.

Lemma stageEvent_advances lp v g next ev v' g' next' rel :
  ledger [] rel v → stageEvent Guest protoSize lp (v, g, next) ev = Ok (v', g', next') →
  advances ev rel v next v' next'.
Proof.
  intros HL. unfold stageEvent.
  set (va := recordAccepted protoSize ev v).
  assert (HLa : ledger [] rel va) by by apply recordAccepted_ledger.
  destruct (recordAccepted_fields ev v) as (Ea & Er & Es & Ew & Ep & _).
  fold va in Ea, Er, Es, Ew, Ep. clearbody va.
  destruct (if disabled va then _ else _) as [prop g1].
  set (emitted := match prop with Ok _ => _ | Err _ => _ end).
  destruct (evs ←? prop; proposal Guest lp va ev evs) as [w|e] eqn:Hc.
  - assert (walkAll (pv_walker va) emitted = Ok w) as Hw.
    { apply res_bind_ok in Hc as (evs & -> & Hc). by apply proposal_walks in Hc. }
    pose proof (deferStart_ledger rel ev emitted va w HLa Hw) as HLd.
    destruct (deferStart_fields ev emitted va w) as (Da & Dr & Ds & Dw & Dp).
    set (vd := deferStart _ _ _ _) in *.
    destruct (chargeJournal Guest protoSize lp emitted vd) as [v2 over] eqn:Hch.
    destruct (chargeJournal_fields _ _ _ _ _ Hch) as (Ca & Cr & Cs & Cw & Cp & Co & _).
    pose proof (chargeJournal_ledger _ _ _ _ _ _ _ Hch HLd) as HL2.
    destruct over; intros ([v3 n3] & Hf & [= <- _ <-])%res_bind_ok.
    + eapply stageFailure_advances; [..|exact Hf]; try congruence; [apply HL2|].
      intros Hn. exfalso. destruct (Co eq_refl) as [j Hj].
      unfold chargeJournal in Hch. rewrite Hj in Hch. by simplify_eq.
    + injection Hf as Hpub.
      eapply (publish_advances ev emitted rel v va v2); eauto; try congruence. by rewrite Cp.
  - destruct (chargeJournal Guest protoSize lp emitted va) as [v2 over] eqn:Hch.
    destruct (chargeJournal_fields _ _ _ _ _ Hch) as (Ca & Cr & Cs & Cw & Cp & Co & Cj).
    pose proof (chargeJournal_ledger _ _ _ _ _ _ _ Hch HLa) as HL2.
    destruct (if over then _ else _) as [e'|] eqn:He; [|by destruct over].
    intros ([v3 n3] & Hf & [= <- _ <-])%res_bind_ok.
    eapply stageFailure_advances; [..|exact Hf]; try congruence. apply HL2.
Qed.

(** ** One call *)

(** [stage_inv lp acc rel v]: the stage has been handed [acc], has released
    [rel], holds a journal only while a tool block of [acc] is open, and at the
    end of its last closed scope the two streams passed the verifier. *)
Record stage_inv lp (acc rel : list pbEvent) v : Prop := {
  si_accepted : accepted v = acc;
  si_ledger : ledger [] rel v;
  si_pending : ∃ w, walkAll walker0 acc = Ok w ∧ pendingOf v ⊆ openBlocks w;
  si_settled : journal v = None ∨ pendingOf v ≠ ∅;
  si_scope : scopeStart v ≤ length acc;
  si_verified : scopeStart v = length acc → verifyViews acc (returned v) (lp_HasGrant Guest lp) = Ok tt }.

Lemma stage_inv_released lp acc rel v : stage_inv lp acc rel v → ∃ w, walkAll walker0 rel = Ok w.
Proof.
  intros [_ [H1 H2] _ _ _ _]. rewrite app_nil_r in H1. unfold held in H2.
  destruct (journal v) as [j|]; [naive_solver|]. subst. eauto.
Qed.

Lemma stage_inv_0 lp : stage_inv lp [] [] pluginState0.
Proof. split; auto; [done|]. by exists walker0. Qed.

(** The events of one call. *)
Lemma stageEvents_inv lp acc rel v g cur v' g' next w :
  stage_inv lp acc rel v → walkAll walker0 (acc ++ cur) = Ok w →
  foldM (stageEvent Guest protoSize lp) (v, g, []) cur = Ok (v', g', next) →
  accepted v' = acc ++ cur ∧ scopeStart v' = scopeStart v ∧ ledger [] (rel ++ next) v' ∧
  pendingOf v' ⊆ openBlocks w.
Proof.
  intros [Ha HL (w0 & Hw0 & Hp) _ _ _] Hw H.
  revert w v' g' next Hw H. induction cur as [|ev cur IH] using rev_ind; intros w v' g' next Hw.
  - intros [= <- <- <-]. rewrite !app_nil_r in *. split; [done|]. split; [done|]. split; [done|].
    rewrite Hw0 in Hw. by inv_ok.
  - rewrite app_assoc in Hw. apply walkAll_prefix in Hw as (w1 & Hw1 & Hw).
    intros ([[v1 g1] n1] & H1 & H2)%foldM_snoc_ok.
    destruct (IH _ _ _ _ Hw1 H1) as (IA & IS & IL & IP).
    destruct (stageEvent_advances _ _ _ _ _ _ _ _ _ IL H2) as [(new & -> & Hnew) Aa As Ap].
    cbn in Hw. inv_ok. split; [by rewrite Aa, IA, app_assoc|]. split; [congruence|].
    split; [by rewrite app_assoc|].
    etrans; [exact Ap|]. etrans; [by apply pendStep_mono|]. by apply walkR_openBlocks.
Qed.

Lemma checkScope_ok lp v n v' :
  checkScope Guest lp v n = Ok v' →
  verifyViews (accepted v) (returned v) (lp_HasGrant Guest lp) = Ok tt ∧ v' = with_scopeStart (length (accepted v)) v.
Proof.
  unfold checkScope, verifyStreamPrefix. destruct (walkAll walker0 (accepted v)); simpl; [|done].
  destruct (verifyViews _ _ _) as [[]|[]]; try done. by destruct (verifyStreamPolicy _ _ _); intros; inv_ok.
Qed.

(** What the close of a call guarantees, before the journal is flushed. *)
Record closed lp (acc rel : list pbEvent) v : Prop := {
  cl_accepted : accepted v = acc;
  cl_ledger : ledger [] rel v;
  cl_verified : scopeStart v = length acc → verifyViews acc (returned v) (lp_HasGrant Guest lp) = Ok tt;
  cl_scope : scopeStart v ≤ length acc }.

Lemma closed_checked lp acc rel v n v' :
  accepted v = acc → ledger [] rel v → checkScope Guest lp v n = Ok v' →
  closed lp acc rel v' ∧ pendingOf v' = pendingOf v ∧ journal v' = journal v.
Proof. intros <- HL [Hv ->]%checkScope_ok. split; [|done]. by split. Qed.

Lemma flush_inv lp acc rel v next v' next' w :
  closed lp acc (rel ++ next) v → walkAll walker0 acc = Ok w → pendingOf v ⊆ openBlocks w →
  flushJournal v next = (v', next') → stage_inv lp acc (rel ++ next') v'.
Proof.
  intros [Ca CL Cv Cs] Hw Hp. unfold flushJournal. destruct v as [[j|] d a r s pw n c1 c2].
  - simpl in *. case_dec; intros [= <- <-].
    + split; auto; simpl; [|by exists w].
      destruct CL as (L1 & L2 & _ & _). unfold ledger, held in *; simpl in *.
      split; [done|]. by rewrite app_assoc.
    + split; eauto.
  - intros [= <- <-]. split; eauto.
Qed.

Lemma recount_closed lp acc rel v :
  closed lp acc rel v → closed lp acc rel (recountCloses v).
Proof. by intros []. Qed.

(** A close of a call ends with a verified scope, or leaves it open. *)
Lemma stageClose_inv lp acc rel v v' next next' a0 r0 w :
  closed lp acc (rel ++ next) v → walkAll walker0 acc = Ok w → pendingOf v ⊆ openBlocks w →
  stageClose Guest lp a0 r0 v next = Ok (v', next') → stage_inv lp acc (rel ++ next') v'.
Proof.
  intros HC Hw Hp. unfold stageClose. intros ([v2 n2] & H & HF)%res_bind_ok. injection HF as HF.
  enough (closed lp acc (rel ++ n2) v2 ∧ pendingOf v2 ⊆ openBlocks w) as [? ?] by (by eapply flush_inv).
  destruct (_ && _); [by inv_ok|].
  apply recount_closed in HC. change (pendingOf v) with (pendingOf (recountCloses v)) in Hp.
  set (v1 := recountCloses v) in *. destruct HC as [Ca CL Cv Cs].
  assert (Hver : ∀ ended vx, verifyScope Guest lp v1 ended = Ok vx →
    closed lp acc (rel ++ next) vx ∧ pendingOf vx ⊆ openBlocks w).
  { unfold verifyScope. intros ended vx Hx. inv_ok.
    by destruct (closed_checked _ _ _ _ _ _ Ca CL Hx) as (? & -> & _). }
  destruct (journal v1) as [j|] eqn:Hj.
  - destruct (negb _); [inv_ok; split; [by split|done]|].
    destruct (verifyScope _ _ _ _) as [vx|ve] eqn:Hx; [inv_ok; by eauto|].
    destruct (_ =? _)%string; [|by destruct ve].
    destruct (rollbackStreamJournal _ _ _ _) as [[replay vr]|] eqn:Hrb; [|done].
    eapply rollback_ledger in Hrb as (R1 & R2 & R3 & R4); [|apply CL|done].
    destruct (checkScope _ _ _ _) as [v4|] eqn:Hck; [|done]. inv_ok.
    eapply (closed_checked _ (accepted v1)) in Hck as (HC4 & Hp4 & _); [|exact R3|exact R1].
    rewrite <- app_assoc in HC4. split; [exact HC4|].
    rewrite Hp4. unfold pendingOf; simpl. rewrite R2. simpl. set_solver.
  - destruct (verifyScope _ _ _ _) as [vx|[]] eqn:Hx; try done. inv_ok. by eauto.
Qed.

Lemma stage_ok lp acc rel v g cur v' g' next w :
  stage_inv lp acc rel v → walkAll walker0 (acc ++ cur) = Ok w →
  stage Guest protoSize lp v g cur = Ok (v', g', next) → stage_inv lp (acc ++ cur) (rel ++ next) v'.
Proof.
  intros HI Hw. unfold stage. intros ([[v1 g1] n1] & H1 & ([v2 n2] & H2 & [= <- <- <-])%res_bind_ok)%res_bind_ok.
  destruct (stageEvents_inv _ _ _ _ _ _ _ _ _ _ HI Hw H1) as (Ea & Es & El & Ep).
  destruct HI as [Ia Il Ipe Ise Isc Iv].
  assert (HS : scopeStart v1 ≤ length (acc ++ cur)) by (rewrite Es, length_app; lia).
  eapply stageClose_inv; eauto. split; auto. rewrite Es, length_app. intros Hs.
  assert (cur = []) as -> by (destruct cur; simpl in *; [done|lia]).
  simpl in H1. inv_ok. rewrite app_nil_r in *. apply Iv. simpl in Hs. lia.
Qed.

(** ** Blame *)

Lemma stageEvent_blame lp st ev t :
  stageEvent Guest protoSize lp st ev = Err t → term_kind t = streamTerminalPlugin.
Proof.
  destruct st as [[v g] next]. unfold stageEvent.
  destruct (if disabled _ then _ else _) as [prop g1]. destruct (chargeJournal _ _ _ _ _) as [v2 over].
  intros [H|([v3 n3] & _ & H)]%res_bind_err; [|done].
  destruct (if over then _ else _); [|done]. unfold stageFailure in H.
  repeat (split_match_in H; try done); by simplify_eq.
Qed.

Lemma checkScope_blame lp v n t w :
  walkAll walker0 (accepted v) = Ok w → checkScope Guest lp v n = Err t → term_kind t = streamTerminalPlugin.
Proof.
  intros Hw. unfold checkScope, verifyStreamPrefix. rewrite Hw. simpl.
  destruct (verifyViews _ _ _) as [[]|e] eqn:E.
  - destruct (verifyStreamPolicy _ _ _); [done|]. by intros [= <-].
  - pose proof (verifyViews_about _ _ _ _ E). destruct e; try done; by intros [= <-].
Qed.

Lemma stageClose_blame lp v next a0 r0 t w :
  walkAll walker0 (accepted v) = Ok w → stageClose Guest lp a0 r0 v next = Err t →
  term_kind t = streamTerminalPlugin.
Proof.
  intros Hw. unfold stageClose. intros [H|([v2 n2] & _ & H)]%res_bind_err; [|done].
  destruct (_ && _); [done|].
  assert (Hver : ∀ ended t, verifyScope Guest lp (recountCloses v) ended = Err (inr t) →
    term_kind t = streamTerminalPlugin).
  { unfold verifyScope. intros ended t' [Hx|(? & _ & Hx)]%res_bind_err.
    - destruct ended; [|discriminate]. by destruct (walker_end _); simpl in Hx; simplify_eq.
    - destruct (checkScope _ _ _ _) as [|t2] eqn:Hck; [done|]. simpl in Hx. simplify_eq.
      by eapply checkScope_blame in Hck. }
  destruct (journal _) as [j|].
  - destruct (negb _); [done|]. destruct (verifyScope _ _ _ _) as [|[e|t2]] eqn:Hx; [done|..];
      (destruct (_ =? _)%string; [repeat (split_match_in H; try done)|]); simplify_eq; eauto; done.
  - destruct (verifyScope _ _ _ _) as [|[e|t2]] eqn:Hx; simplify_eq; eauto; done.
Qed.

Lemma stage_blame lp acc rel v g cur t w :
  stage_inv lp acc rel v → walkAll walker0 (acc ++ cur) = Ok w →
  stage Guest protoSize lp v g cur = Err t → term_kind t = streamTerminalPlugin.
Proof.
  intros HI Hw. unfold stage. intros [H|([[v1 g1] n1] & H1 & H)]%res_bind_err.
  - apply foldM_err in H as (s & x & H). by eapply stageEvent_blame.
  - apply res_bind_err in H as [H|([v2 n2] & _ & H)]; [|done].
    destruct (stageEvents_inv _ _ _ _ _ _ _ _ _ _ HI Hw H1) as (Ea & _).
    eapply stageClose_blame, H. by rewrite Ea.
Qed.

(** ** The pipeline

    [linked acc lps vs out]: the first stage is handed [acc], each next one
    what its predecessor has released, and the last has released [out]. *)
Fixpoint linked (acc : list pbEvent) (lps : list loadedPlugin) (vs : list pluginStreamState)
    (out : list pbEvent) : Prop :=
  match lps, vs with
  | [], [] => acc = out
  | lp :: lps', v :: vs' => ∃ rel, stage_inv lp acc rel v ∧ linked rel lps' vs' out
  | _, _ => False
  end.

Lemma linked_0 lps : linked [] lps ((λ _, pluginState0) <$> lps) [].
Proof. induction lps as [|lp lps IH]; simpl; [done|]. eauto using stage_inv_0. Qed.

Lemma pipeline_linked lps vs gs acc out cur w :
  linked acc lps vs out → length gs = length lps → walkAll walker0 (acc ++ cur) = Ok w →
  match pipeline Guest protoSize lps vs gs cur with
  | Ok (vs', gs', o) => linked (acc ++ cur) lps vs' (out ++ o) ∧ length gs' = length lps ∧
      (∃ w', walkAll walker0 (out ++ o) = Ok w')
  | Err t => term_kind t = streamTerminalPlugin
  end.
Proof.
  revert vs gs acc out cur w; induction lps as [|lp lps IH]; intros [|v vs] [|g gs] acc out cur w; try done.
  - simpl. intros -> _ Hw. eauto.
  - intros (rel & HI & HL) Hg Hw. simpl.
    destruct (stage _ _ _ _ _ _) as [[[v1 g1] next]|t] eqn:Hs; [|by eapply stage_blame].
    simpl. pose proof (stage_ok _ _ _ _ _ _ _ _ _ _ HI Hw Hs) as HI'.
    destruct (stage_inv_released _ _ _ _ HI') as [w' Hw'].
    specialize (IH vs gs rel out next w' HL ltac:(simpl in Hg; lia) Hw').
    destruct (pipeline _ _ _ _ _ _) as [[[vs1 gs1] o]|]; [|done].
    destruct IH as (? & Hlen & ?). simpl. split; [by eauto|]. split; [|done]. by rewrite Hlen.
Qed.

(** ** The end of a request *)

Lemma linked_end `{PL : !SignaturePolicyLaws P} lps vs acc out w :
  linked acc lps vs out → walkAll walker0 acc = Ok w → walker_end w = Ok tt →
  endPlugins Guest lps vs = Ok tt → endScopes Guest lps vs = Ok tt →
  signed_tools out ⊆+ signed_tools acc ∧
  (∀ kind, kind ≠ sigBindingUnbound → signed_deltas kind out ⊆+ signed_deltas kind acc) ∧
  ∃ w', walkAll walker0 out = Ok w' ∧ walker_end w' = Ok tt.
Proof.
  revert vs acc w; induction lps as [|lp lps IH]; intros [|v vs] acc w; try done.
  - simpl. intros -> ? ? _ _. eauto.
  - intros (rel & [Ia [Iw Ih] (w0 & Hw0 & Hp) Is Isc Iv] & HL) Hw Hend Hp1 Hs1. simpl in Hp1, Hs1.
    rewrite Hw in Hw0. inv_ok. rewrite end_no_open in Hp by done. rewrite app_nil_r in Iw.
    assert (Hj : journal v = None) by (destruct Is; [done|set_solver]).
    unfold held in Ih. rewrite Hj in Ih. subst rel.
    destruct (walker_end (pv_walker v)) as [[]|] eqn:He; [|done].
    assert (Hv : verifyViews (accepted v) (returned v) (lp_HasGrant Guest lp) = Ok tt ∧ endScopes Guest lps vs = Ok tt).
    { destruct (bool_decide_reflect (length (accepted v) ≤ scopeStart v)).
      - split; [apply Iv; lia|done].
      - apply res_bind_ok in Hs1 as (? & Hc%checkScope_ok & ?). naive_solver. }
    destruct Hv as [Hv Hs2]. destruct (IH _ _ _ HL Iw He Hp1 Hs2) as (IT & ID & IW).
    split; [|split; [|done]].
    + etrans; [exact IT|]. apply (verifyToolScopes_no_mint (lp_HasGrant Guest lp)). by apply verifyViews_tools.
    + intros kind Hk. etrans; [by apply ID|]. by eapply verifyViews_no_mint.
Qed.
End Stage.
