(* ===== verification/StreamRequest.v ===== *)
(** * A streamed request, end to end

    The theorems about [RunOnStreamChunkVerified] and [EndStreamVerified] over a
    whole request: what the provider sent against what was forwarded. *)

From stdpp Require Import base list strings gmap sets numbers.
From S2P Require Import Prelude Matching StreamEvents Discipline SignatureScan SignatureVerify StreamPolicy StreamEnforce StreamEnforceProofs.

Lemma convertAll_app t l1 l2 :
  convertAll t (l1 ++ l2) =
  ('(t1, e1) ←? convertAll t l1; '(t2, e2) ←? convertAll t1 l2; Ok (t2, e1 ++ e2)).
Proof.
  revert t; induction l1 as [|ev l1 IH]; intros t; simpl.
  - by destruct (convertAll t l2) as [[]|].
  - destruct (FromPBStreamEvent t ev) as [[t1 e]|]; simpl; [|done]. rewrite IH.
    destruct (convertAll t1 l1) as [[t2 es]|]; simpl; [|done].
    by destruct (convertAll t2 l2) as [[]|].
Qed.

(** The provider's stream as the plugins see it. *)
Definition provided (ins : list StreamEvent) : list pbEvent := ToPBStreamEvent <$> ins.

Lemma provided_snoc ins chunk : provided (ins ++ [chunk]) = provided ins ++ [ToPBStreamEvent chunk].
Proof. unfold provided. by rewrite fmap_app. Qed.

Section Request.
Context `{P : SignaturePolicy} `{F : FieldPolicy}.
Context (Guest : Type).
Context (protoSize : pbEvent → Z).
Context (lps : list (loadedPlugin Guest)).
Abbreviation Run := (RunOnStreamChunkVerified Guest protoSize lps).

(** The states of a request that has forwarded [outs] for the provider's
    [ins], from guests [gs]. *)
Inductive reaches (gs : list Guest) : list StreamEvent → list StreamEvent → reqState Guest → Prop :=
| reach_start : length gs = length lps → reaches gs [] [] (mkReqState Guest None tracker0 gs)
| reach_step ins outs s chunk evs s' :
    reaches gs ins outs s → Run chunk s = (Events evs, s') →
    reaches gs (ins ++ [chunk]) (outs ++ evs) s'.

(** The request invariant. *)
Record req_inv (ins outs : list StreamEvent) (fwd : list pbEvent) (s : reqState Guest) : Prop := {
  ri_provided : ∃ w, walkAll walker0 (provided ins) = Ok w;
  ri_converted : convertAll tracker0 fwd = Ok (rs_tracker Guest s, outs);
  ri_disciplined : ∃ w, walkAll walker0 fwd = Ok w;
  ri_guests : length (rs_guests Guest s) = length lps;
  ri_verify : match rs_verify Guest s with
              | None => ins = [] ∧ outs = [] ∧ fwd = []
              | Some vs => terminal vs = None ∧ walkAll walker0 (provided ins) = Ok (host vs) ∧
                           linked Guest (provided ins) lps (plugins vs) fwd
              end }.

Lemma req_inv_ensure ins outs fwd s :
  lps ≠ [] → req_inv ins outs fwd s → ∃ vs, rs_verify Guest (ensureVerifier Guest lps s) = Some vs ∧
  req_inv ins outs fwd (ensureVerifier Guest lps s).
Proof.
  intros Hne [H1 H2 H3 H4 H5]. unfold ensureVerifier in *.
  destruct (rs_verify Guest s) as [vs|] eqn:E.
  - rewrite E. exists vs. split; [done|]. split; auto. by rewrite E.
  - destruct H5 as (-> & -> & ->). unfold enforces.
    rewrite bool_decide_eq_false_2 by (destruct lps; simpl; done). simpl.
    eexists. split; [done|]. split; auto. simpl. split; [done|]. split; [done|]. apply linked_0.
Qed.

(** One call: either the invariant holds of the longer streams, or the request
    ends with the blame on the side that broke the discipline. *)
Lemma run_step ins outs fwd s chunk :
  lps ≠ [] → req_inv ins outs fwd s →
  match Run chunk s with
  | (Events evs, s') => ∃ new, req_inv (ins ++ [chunk]) (outs ++ evs) (fwd ++ new) s'
  | (Terminal t, _) =>
      (term_kind t = streamTerminalPlugin ∧ ∃ w, walkAll walker0 (provided (ins ++ [chunk])) = Ok w) ∨
      (term_kind t = streamTerminalHost ∧ ∃ e, walkAll walker0 (provided (ins ++ [chunk])) = Err e)
  | (Topology _, _) => False
  end.
Proof.
  intros Hne HI. destruct (req_inv_ensure _ _ _ _ Hne HI) as (vs & Hvs & HI').
  unfold RunOnStreamChunkVerified. destruct HI' as [_ H2 [wf H3] H4 H5].
  set (s1 := ensureVerifier Guest lps s) in *. rewrite Hvs in *. simpl.
  destruct H5 as (Hterm & Hh & HL). rewrite Hterm. unfold runOnStreamChunk. rewrite Hvs.
  rewrite provided_snoc, (walkAll_snoc _ _ _ _ Hh).
  destruct (walkR (host vs) (ToPBStreamEvent chunk)) as [w|e] eqn:Hw; [|by right; eauto].
  assert (Hw' : walkAll walker0 (provided ins ++ [ToPBStreamEvent chunk]) = Ok w)
    by (by rewrite (walkAll_snoc _ _ _ _ Hh)).
  pose proof (pipeline_linked Guest protoSize _ _ _ _ _ _ _ HL H4 Hw') as HP.
  destruct (pipeline _ _ _ _ _ _) as [[[vs' gs'] o]|t]; [|by left; eauto].
  destruct HP as (HL' & Hlen & wo & Hwo).
  destruct (convertAll_ok _ _ _ _ walker_inv_0 tracks_0 Hwo) as (t' & es & Hc & _ & _).
  pose proof Hc as Hc'. rewrite convertAll_app, H2 in Hc. simpl in Hc.
  destruct (convertAll _ o) as [[t2 e2]|] eqn:Hco; [|done]. simpl in Hc. inv_ok.
  exists o. split; simpl; eauto.
  - rewrite provided_snoc. eauto.
  - by rewrite provided_snoc.
Qed.

Lemma reaches_inv gs ins outs s : lps ≠ [] → reaches gs ins outs s → ∃ fwd, req_inv ins outs fwd s.
Proof.
  intros Hne. induction 1 as [Hg|ins outs s chunk evs s' _ [fwd HI] Hr].
  - exists []. split; simpl; eauto.
  - pose proof (run_step _ _ _ _ chunk Hne HI) as HS. rewrite Hr in HS. destruct HS as [new HS]. eauto.
Qed.


(** ** Blame *)

Lemma endPlugins_blame vs t : endPlugins Guest lps vs = Err t → term_kind t = streamTerminalPlugin.
Proof.
  revert vs; induction lps as [|lp l IH]; intros [|v vs]; simpl; try done.
  destruct (walker_end _); [eauto|]. by intros [= <-].
Qed.

Lemma endScopes_blame acc vs out t :
  linked Guest acc lps vs out → endScopes Guest lps vs = Err t → term_kind t = streamTerminalPlugin.
Proof.
  revert vs acc; induction lps as [|lp l IH]; intros [|v vs] acc; simpl; try done.
  intros (rel & HI & HL). case_dec; [eauto|].
  intros [H|(? & _ & H)]%res_bind_err; [|eauto].
  destruct HI as [<- _ (w & Hw & _) _ _ _]. by eapply checkScope_blame.
Qed.

(** C7. Blame is exact: while a request runs, the host is named as the culprit
    of a termination exactly when the provider's own stream broke the
    discipline with this chunk, and at the end of the stream exactly when the
    provider's stream as a whole is not a valid message. *)
Theorem host_blamed_exactly gs ins outs s :
  lps ≠ [] → reaches gs ins outs s →
  (∀ chunk t s', Run chunk s = (Terminal t, s') →
     term_kind t = streamTerminalHost ↔ ∃ e, walkAll walker0 (provided (ins ++ [chunk])) = Err e) ∧
  (∀ t, EndStreamVerified Guest lps s = Some t →
     term_kind t = streamTerminalHost ↔ ∃ e, validateAcceptedStream (provided ins) = Err e).
Proof.
  intros Hne [fwd HI]%reaches_inv; [|done]. split.
  - intros chunk t s' Hr. pose proof (run_step _ _ _ _ chunk Hne HI) as HS. rewrite Hr in HS.
    destruct HS as [[-> [w ->]]|[-> [e ->]]]; split; naive_solver.
  - intros t. unfold EndStreamVerified. destruct HI as [_ _ _ _ H5].
    destruct (rs_verify Guest s) as [vs|]; [|done]. destruct H5 as (-> & Hh & HL).
    rewrite validate_walk_eq, Hh. simpl.
    destruct (walker_end (host vs)) as [[]|e]; simpl; [|by intros [= <-]; simpl; split; eauto].
    assert (Hk : ∀ t', (_ ←? endPlugins Guest lps (plugins vs); endScopes Guest lps (plugins vs)) = Err t' →
      term_kind t' = streamTerminalPlugin).
    { intros t' [H|(? & _ & H)]%res_bind_err; [by eapply endPlugins_blame|by eapply endScopes_blame]. }
    destruct (_ ←? endPlugins _ _ _; _) as [|t1]; [done|].
    intros [= <-]. rewrite (Hk t1 eq_refl). split; [done|naive_solver].
Qed.

(** A violation ends the request: once a call has returned a terminal
    error every later call returns that same error, no event is forwarded and
    no guest runs (the state is unchanged), and so does the end of stream. *)
Theorem terminal_is_final chunk s t s' :
  Run chunk s = (Terminal t, s') →
  (∀ chunk', Run chunk' s' = (Terminal t, s')) ∧ EndStreamVerified Guest lps s' = Some t.
Proof.
  unfold RunOnStreamChunkVerified. set (s1 := ensureVerifier Guest lps s). intros H.
  assert (Hs : ∃ vs, rs_verify Guest s' = Some vs ∧ terminal vs = Some t).
  { destruct (rs_verify Guest s1) as [vs|] eqn:E; simpl in H.
    - destruct (terminal vs) eqn:Et; [naive_solver|].
      unfold runOnStreamChunk in H. rewrite E in H.
      destruct (walkR _ _); [|simplify_eq; simpl; eauto].
      destruct (pipeline _ _ _ _ _ _) as [[[? ?] ?]|]; [|simplify_eq; simpl; eauto].
      by destruct (convertAll _ _) as [[]|]; simplify_eq.
    - unfold runOnStreamChunk in H. rewrite E in H. by destruct (convertAll _ _) as [[]|]; simplify_eq. }
  destruct Hs as (vs & Hv & Ht). unfold ensureVerifier, EndStreamVerified. rewrite Hv. simpl.
  rewrite Hv. simpl. by rewrite Ht.
Qed.

(** ** No minted signatures *)


(** Feed a list of chunks; [None] once a call does not return events. *)
Fixpoint runStream (s : reqState Guest) (ins : list StreamEvent)
    : option (list StreamEvent * reqState Guest) :=
  match ins with
  | [] => Some ([], s)
  | chunk :: ins' =>
      match Run chunk s with
      | (Events evs, s') => '(outs, s2) ← runStream s' ins'; Some (evs ++ outs, s2)
      | _ => None
      end
  end.

Lemma runStream_reaches_from gs ins0 outs0 s0 ins outs s :
  reaches gs ins0 outs0 s0 → runStream s0 ins = Some (outs, s) → reaches gs (ins0 ++ ins) (outs0 ++ outs) s.
Proof.
  revert ins0 outs0 s0 outs; induction ins as [|chunk ins IH]; intros ins0 outs0 s0 outs Hr; simpl.
  - intros [= <- <-]. by rewrite !app_nil_r.
  - destruct (Run chunk s0) as [[evs| |] s1] eqn:E; try done.
    destruct (runStream s1 ins) as [[outs1 s2]|] eqn:E1; simpl; [|done]. intros [= <- <-].
    rewrite (cons_middle chunk), !app_assoc. eapply IH; [|done]. by eapply reach_step.
Qed.

Lemma runStream_reaches gs ins outs s :
  length gs = length lps → runStream (mkReqState Guest None tracker0 gs) ins = Some (outs, s) →
  reaches gs ins outs s.
Proof. intros Hg H. apply (runStream_reaches_from gs [] [] _ _ _ _ (reach_start gs Hg) H). Qed.

(** ** Plugins that change nothing *)

(** The hook always proposes its input. *)
Definition identity_plugin (lp : loadedPlugin Guest) : Prop :=
  ∀ g ev, fst (invokeStreamEvent Guest lp g ev) = Ok [ev].

Record mirror (acc : list pbEvent) (v : pluginStreamState) : Prop := {
  mi_journal : journal v = None;
  mi_disabled : disabled v = false;
  mi_accepted : accepted v = acc;
  mi_returned : returned v = acc;
  mi_walker : walkAll walker0 acc = Ok (pv_walker v) }.

Context `{FL : !FieldPolicyLaws F}.

Lemma checkScope_mirror lp v n w :
  accepted v = returned v → walkAll walker0 (accepted v) = Ok w →
  checkScope Guest lp v n = Ok (with_scopeStart (length (accepted v)) v).
Proof.
  intros He Hw. unfold checkScope, verifyStreamPrefix. rewrite <- He, Hw. simpl.
  rewrite (verifyViews_self _ _ _ Hw). by rewrite policy_same.
Qed.

Lemma stageEvent_mirror lp acc v g next ev w :
  identity_plugin lp → mirror acc v → walkR (pv_walker v) ev = Ok w →
  ∃ v' g', stageEvent Guest protoSize lp (v, g, next) ev = Ok (v', g', next ++ [ev]) ∧
    mirror (acc ++ [ev]) v' ∧ pv_walker v' = w.
Proof.
  intros Hid [Hj Hd Ha Hr Hw] Hev. unfold stageEvent.
  destruct v as [j d a r s pw n c1 c2]; simpl in *; subst.
  unfold recordAccepted; simpl. specialize (Hid g ev).
  destruct (invokeStreamEvent Guest lp g ev) as [prop g1]; simpl in Hid; subst prop. simpl.
  unfold proposal. rewrite Nat.eqb_refl, policy_event_same. simpl.
  assert (walkAll pw [ev] = Ok w) as -> by (cbn; by rewrite Hev). simpl.
  eexists _, _. split; [done|]. split; [|done].
  split; auto. simpl. by rewrite (walkAll_snoc _ _ _ _ Hw).
Qed.

Lemma stageClose_mirror lp acc v next ev w0 :
  mirror (acc ++ [ev]) v → walkAll walker0 acc = Ok w0 → walkR w0 ev = Ok (pv_walker v) →
  ∃ v', stageClose Guest lp (length acc) (length acc) v next = Ok (v', next) ∧ mirror (acc ++ [ev]) v'.
Proof.
  intros [Hj Hd Ha Hr Hw] Hw0 Hev. unfold stageClose. rewrite Ha, Hr, drop_app_length. simpl.
  assert (HF : flushJournal v next = (v, next)) by (unfold flushJournal; by rewrite Hj).
  destruct (_ && _).
  - simpl. rewrite HF. eexists. split; [done|]. by split.
  - rewrite Hj. unfold verifyScope. rewrite orb_false_r, orb_diag.
    assert ((if isTerminalEvent ev then map_err (inl ∘ TDiscipline) (walker_end (pv_walker v))
             else Ok tt) = @Ok (termErr + StreamTerminalError) _ tt) as Ht.
    { destruct (isTerminalEvent ev) eqn:E; [|done].
      by rewrite (end_after_terminal w0 ev (pv_walker v) (walkAll_inv _ _ Hw0) Hev E). }
    change (pv_walker (recountCloses v)) with (pv_walker v). rewrite Ht. simpl.
    rewrite (checkScope_mirror lp (recountCloses v) _ (pv_walker v)); simpl; try congruence.
    unfold flushJournal. simpl. rewrite Hj. eexists. split; [done|]. by split.
Qed.

Lemma stage_mirror lp acc v g ev w :
  identity_plugin lp → mirror acc v → walkAll walker0 (acc ++ [ev]) = Ok w →
  ∃ v' g', stage Guest protoSize lp v g [ev] = Ok (v', g', [ev]) ∧ mirror (acc ++ [ev]) v'.
Proof.
  intros Hid Hm Hw. pose proof Hm as [Hj Hd Ha Hr Hv]. rewrite (walkAll_snoc _ _ _ _ Hv) in Hw.
  destruct (stageEvent_mirror lp acc v g [] ev w Hid Hm Hw) as (v1 & g1 & H1 & Hm1 & <-).
  destruct (stageClose_mirror lp acc v1 [ev] ev _ Hm1 Hv Hw) as (v2 & H2 & Hm2).
  exists v2, g1. split; [|done]. unfold stage. cbn [foldM]. rewrite H1. cbn [res_bind app].
  by rewrite Ha, Hr, H2.
Qed.

Lemma pipeline_mirror l vs gs acc ev w :
  Forall identity_plugin l → Forall (mirror acc) vs → length vs = length l → length gs = length l →
  walkAll walker0 (acc ++ [ev]) = Ok w →
  ∃ vs' gs', pipeline Guest protoSize l vs gs [ev] = Ok (vs', gs', [ev]) ∧
    Forall (mirror (acc ++ [ev])) vs' ∧ length vs' = length l ∧ length gs' = length l.
Proof.
  intros Hid. revert vs gs; induction Hid as [|lp l Hlp _ IH]; intros [|v vs] [|g gs] Hm; try done.
  - intros _ _ _. by exists [], [].
  - intros [= Hv] [= Hg] Hw. inversion Hm as [|? ? Hm1 Hm2]; subst.
    destruct (stage_mirror lp acc v g ev w Hlp Hm1 Hw) as (v' & g' & Hs & Hm').
    destruct (IH vs gs Hm2 Hv Hg Hw) as (vs' & gs' & Hp & Hms & ? & ?).
    exists (v' :: vs'), (g' :: gs'). simpl. rewrite Hs. simpl. rewrite Hp. simpl.
    split; [done|]. split; [by constructor|]. simpl. by split; f_equal.
Qed.

Lemma end_mirror l vs acc w :
  Forall (mirror acc) vs → walkAll walker0 acc = Ok w → walker_end w = Ok tt →
  endPlugins Guest l vs = Ok tt ∧ endScopes Guest l vs = Ok tt.
Proof.
  intros Hm Hw He. revert l; induction Hm as [|v vs [Hj Hd Ha Hr Hv] _ IH]; intros [|lp l]; try done.
  destruct (IH l) as [H1 H2]. rewrite Hw in Hv. inv_ok. simpl. rewrite He. split; [done|].
  case_dec; [done|]. rewrite (checkScope_mirror lp v _ (pv_walker v)); [done|congruence|done].
Qed.

Lemma run_mirror ins s chunk w :
  lps ≠ [] → Forall identity_plugin lps →
  (∃ outs fwd, req_inv ins outs fwd s) →
  (∀ vs, rs_verify Guest s = Some vs → Forall (mirror (provided ins)) (plugins vs) ∧ length (plugins vs) = length lps) →
  walkAll walker0 (provided (ins ++ [chunk])) = Ok w →
  ∃ evs s' vs', Run chunk s = (Events evs, s') ∧ rs_verify Guest s' = Some vs' ∧
    convertAll (rs_tracker Guest s) [ToPBStreamEvent chunk] = Ok (rs_tracker Guest s', evs) ∧
    Forall (mirror (provided (ins ++ [chunk]))) (plugins vs') ∧ length (plugins vs') = length lps.
Proof.
  intros Hne Hid (outs & fwd & HI) Hm Hw.
  assert (He : ∃ vs, rs_verify Guest (ensureVerifier Guest lps s) = Some vs ∧
    Forall (mirror (provided ins)) (plugins vs) ∧ length (plugins vs) = length lps).
  { unfold ensureVerifier. destruct (rs_verify Guest s) as [vs|] eqn:E; [rewrite E; naive_solver|].
    destruct HI as [_ _ _ _ H5]. rewrite E in H5. destruct H5 as (-> & _ & _).
    unfold enforces. rewrite bool_decide_eq_false_2 by (destruct lps; simpl; done).
    eexists. split; [done|]. simpl. rewrite length_fmap. split; [|done].
    apply Forall_fmap, Forall_true. intros lp. by split. }
  destruct He as (vs & Hvs & Hmir & Hlen).
  destruct (req_inv_ensure _ _ _ _ Hne HI) as (vs2 & Hvs2 & [_ Hcv _ Hg H5]).
  rewrite Hvs in H5. destruct H5 as (Hterm & Hh & _).
  pose proof (run_step _ _ _ _ chunk Hne HI) as HS. revert HS.
  unfold RunOnStreamChunkVerified. rewrite Hvs. change (Some vs ≫= terminal) with (terminal vs).
  rewrite Hterm. unfold runOnStreamChunk. rewrite Hvs.
  rewrite provided_snoc, (walkAll_snoc _ _ _ _ Hh) in Hw. rewrite Hw.
  assert (Hw' : walkAll walker0 (provided ins ++ [ToPBStreamEvent chunk]) = Ok w)
    by (by rewrite (walkAll_snoc _ _ _ _ Hh)).
  destruct (pipeline_mirror lps (plugins vs) _ _ _ w Hid Hmir Hlen Hg Hw') as (vs' & gs' & Hp & Hm' & Hl' & _).
  rewrite Hp. assert (rs_tracker Guest (ensureVerifier Guest lps s) = rs_tracker Guest s) as ->
    by (unfold ensureVerifier; by destruct (rs_verify Guest s)).
  destruct (convertAll (rs_tracker Guest s) _) as [[tr evs]|]; [|by intros []]. intros _.
  eexists evs, _, _. split; [reflexivity|]. simpl. rewrite provided_snoc. split; [reflexivity|]. auto.
Qed.

(** C9. Plugins that change nothing are transparent, under any grants and
    failure modes: on every disciplined provider stream the request never
    terminates early, what is forwarded is exactly the stream's own
    conversion, and the end of stream is accepted exactly when the provider's
    stream is a complete message. *)
Theorem identity_plugins_transparent gs ins w :
  lps ≠ [] → Forall identity_plugin lps → length gs = length lps →
  walkAll walker0 (provided ins) = Ok w →
  ∃ outs s, reaches gs ins outs s ∧
    convertAll tracker0 (provided ins) = Ok (rs_tracker Guest s, outs) ∧
    (ins ≠ [] → EndStreamVerified Guest lps s = None ↔ validateAcceptedStream (provided ins) = Ok tt).
Proof.
  intros Hne Hid Hg Hw.
  enough (∃ outs s, reaches gs ins outs s ∧ convertAll tracker0 (provided ins) = Ok (rs_tracker Guest s, outs) ∧
    (∀ vs, rs_verify Guest s = Some vs → Forall (mirror (provided ins)) (plugins vs) ∧ length (plugins vs) = length lps)) as
    (outs & s & Hr & Hc & Hm).
  { exists outs, s. split; [done|]. split; [done|]. intros Hins.
    destruct (reaches_inv _ _ _ _ Hne Hr) as (fwd & [_ _ _ _ H5]). unfold EndStreamVerified.
    rewrite validate_walk_eq, Hw. simpl.
    destruct (rs_verify Guest s) as [vs|]; [|naive_solver]. destruct H5 as (-> & Hh & _).
    rewrite Hw in Hh. inv_ok. destruct (walker_end (host vs)) as [[]|] eqn:E; simpl; [|done].
    destruct (Hm vs eq_refl) as [Hmv _]. destruct (end_mirror lps _ _ _ Hmv Hw E) as [-> ->]. done. }
  revert w Hw. induction ins as [|chunk ins IH] using rev_ind; intros w Hw.
  - eexists _, _. split; [by apply reach_start|]. done.
  - pose proof Hw as Hw'. rewrite provided_snoc in Hw'. apply walkAll_prefix in Hw' as (w1 & Hw1 & _).
    destruct (IH w1 Hw1) as (outs & s & Hr & Hc & Hm).
    destruct (run_mirror ins s chunk w Hne Hid) as (evs & s' & vs' & HR & Hv' & Hc' & Hm' & Hl'); [|done..|].
    { destruct (reaches_inv _ _ _ _ Hne Hr) as [fwd ?]. eauto. }
    exists (outs ++ evs), s'. split; [by eapply reach_step|]. split.
    + rewrite provided_snoc, convertAll_app, Hc. cbn [res_bind]. by rewrite Hc'.
    + intros vs. rewrite Hv'. by intros [= <-].
Qed.
End Request.

(** ** A request

    Two plugins with no grants: one changes nothing, the other suppresses the
    start of a tool call and emits it with the first delta, so that the block is
    held in its journal. *)

Definition demo_chunks : list StreamEvent :=
  match convertAll tracker0 signed_stream with Ok (_, es) => es | Err _ => [] end.

Definition quiet : loadedPlugin (option pbEvent) :=
  mkLoadedPlugin _ "quiet" "block" no_grants 4096 (λ g ev, (Ok NoResult, g)).

Definition deferring : loadedPlugin (option pbEvent) :=
  mkLoadedPlugin _ "deferring" "pass" no_grants 4096 (λ g ev,
    match ev, g with
    | EvContentBlockStart _ (BlockToolCall _), _ => (Ok Suppress, Some ev)
    | EvToolCallDelta _ _ _, Some start => (Ok (EmitEvents [start; ev]), None)
    | _, _ => (Ok NoResult, g)
    end).

(** Every event a hundred bytes. *)
Definition hundred : pbEvent → Z := λ _, 100%Z.

#[local] Existing Instance documented_policy.
#[local] Existing Instance documented_policy_laws.
#[local] Existing Instance small_inventory.
#[local] Existing Instance small_inventory_laws.

Definition demo_run (chunks : list StreamEvent) :=
  runStream (option pbEvent) hundred [quiet; deferring] (mkReqState _ None tracker0 [None; None]) chunks.

(** The journal holds the tool block back until it closes, then everything has
    been forwarded. *)
Example demo_run_holds :
  (length <$> (fst <$> demo_run (take 6 demo_chunks)), fst <$> demo_run demo_chunks)
  = (Some 4, Some demo_chunks).
Proof. vm_compute. reflexivity. Qed.

Ltac run_demo H :=
  match goal with
  | |- context [demo_run ?c] =>
      assert (E : match demo_run c with Some _ => true | None => false end = true)
        by (vm_compute; reflexivity);
      destruct (demo_run c) as [[outs s]|] eqn:H; [clear E|discriminate E]
  end;
  unfold demo_run in H; apply runStream_reaches in H; [|reflexivity].


Lemma host_blamed_exactly_witness :
  match demo_run (take 6 demo_chunks) with
  | Some (outs, s) =>
      (∀ chunk t s', RunOnStreamChunkVerified _ hundred [quiet; deferring] chunk s = (Terminal t, s') →
         term_kind t = streamTerminalHost
         ↔ ∃ e, walkAll walker0 (provided (take 6 demo_chunks ++ [chunk])) = Err e) ∧
      (∀ t, EndStreamVerified _ [quiet; deferring] s = Some t →
         term_kind t = streamTerminalHost
         ↔ ∃ e, validateAcceptedStream (provided (take 6 demo_chunks)) = Err e)
  | None => False
  end.
Proof.
  run_demo H. eapply (host_blamed_exactly _ hundred [quiet; deferring]); [discriminate|exact H].
Defined.

(** A delta for a block that was never opened. *)
Definition stray : StreamEvent := ev_tool_delta (mkToolCallDelta 9 "{}" None).
Definition fresh_request : reqState (option pbEvent) := mkReqState _ None tracker0 [None; None].

Lemma terminal_is_final_witness :
  match RunOnStreamChunkVerified _ hundred [quiet; deferring] stray fresh_request with
  | (Terminal t, s') =>
      (∀ chunk', RunOnStreamChunkVerified _ hundred [quiet; deferring] chunk' s' = (Terminal t, s')) ∧
      EndStreamVerified _ [quiet; deferring] s' = Some t
  | _ => False
  end.
Proof.
  assert (E : match fst (RunOnStreamChunkVerified _ hundred [quiet; deferring] stray fresh_request) with
              | Terminal _ => true | _ => false end = true) by (vm_compute; reflexivity).
  destruct (RunOnStreamChunkVerified _ hundred [quiet; deferring] stray fresh_request) as [[] s'] eqn:H;
    try discriminate E.
  apply (terminal_is_final _ hundred [quiet; deferring] stray fresh_request t s' H).
Defined.


Lemma identity_plugins_transparent_witness :
  ∃ outs s, reaches _ hundred [quiet; quiet] [None; None] demo_chunks outs s ∧
    convertAll tracker0 (provided demo_chunks) = Ok (rs_tracker _ s, outs) ∧
    (demo_chunks ≠ [] →
     EndStreamVerified _ [quiet; quiet] s = None ↔ validateAcceptedStream (provided demo_chunks) = Ok tt).
Proof.
  assert (E : is_ok (walkAll walker0 (provided demo_chunks)) = true) by (vm_compute; reflexivity).
  destruct (walkAll walker0 (provided demo_chunks)) as [w|e] eqn:H; [|discriminate E].
  apply (identity_plugins_transparent _ hundred [quiet; quiet] [None; None] demo_chunks w);
    [discriminate|by repeat constructor|reflexivity|exact H].
Defined.
