(* ===== verification/PluginState.v ===== *)
(** * The plugin state store: specification and model

    [internal/pluginstate/store.go] is a plugin-namespaced, versioned key/value
    store with two backends: two maps under a mutex (no path), and a bbolt
    database (a path).  This file holds

    - the abstract store [spec]: entries, a version counter, quotas;
    - the interface [Bolt] to the bbolt library, with what the store relies on
      as [BoltLaws];
    - the model of [Store]: every method, with both branches.

    A method is a function of the store; methods run under the mutex or in one
    bbolt transaction, so a concurrent history is a sequence of them.  When a
    method returns an error its other results are not modelled. *)

From stdpp Require Import base list strings gmap sets numbers pretty sorting.
From S2P Require Import Prelude ByteStrings.

Inductive stateErr :=
| ErrRequired | ErrNotConfigured | ErrValueTooLarge | ErrKeyLimit | ErrTotalLimit
| ErrVersionExhausted | ErrInvalidRecord | ErrMissingCount | ErrInvalidCount
| ErrInvalidMetadata | ErrInvalidBucket | ErrInvalidEntry | ErrKeyCountLimit | ErrValueLimit
| ErrSizeOverflow | ErrCountMismatch | ErrBytesMismatch | ErrCounterBehind
| ErrScanBounds | ErrInvalidCursor | ErrFirstEntry
| ErrFilesystem | ErrOpen
| ErrBackend (msg : string).

(** [strconv.FormatUint(v, 10)]. *)
Definition FormatUint (v : N) : string := pretty v.

Definition entrySize (key value : string) : Z := (len key + len value)%Z.

(** ** Abstract store *)

Record limits := mkLimits { maxV : Z; maxT : Z; maxK : Z }.

(** An entry is its version and its value. *)
Abbreviation bucket := (gmap string (N * string)).

Record spec := mkSpec { entries : gmap string bucket; sp_counter : N }.

Definition spec0 : spec := mkSpec ∅ 0.

Definition bucket_of (a : spec) (plugin : string) : bucket := default ∅ (entries a !! plugin).
Definition spec_lookup (a : spec) (plugin key : string) : option (N * string) :=
  bucket_of a plugin !! key.

Definition bucket_bytes (b : bucket) : Z := map_sum (λ k e, entrySize k e.2) b.
Definition spec_total (a : spec) : Z := map_sum (λ _ b, bucket_bytes b) (entries a).

Definition spec_get (a : spec) (plugin key : string) : res stateErr (string * string * bool) :=
  if bool_decide (plugin = "") || bool_decide (key = "") then Err ErrRequired
  else match spec_lookup a plugin key with
  | Some (n, v) => Ok (v, FormatUint n, true)
  | None => Ok ("", "", false)
  end.

(** Whether a conditional write is refused: it expects no entry and there is
    one, or it expects a version and the entry has another one, or none. *)
Definition refused (conditional : bool) (expected : option string) (old : option N) : bool :=
  conditional &&
  match expected, old with
  | None, Some _ => true
  | None, None => false
  | Some _, None => true
  | Some e, Some n => negb (String.eqb e (FormatUint n))
  end.

Definition old_size (key : string) (old : option (N * string)) : Z :=
  match old with Some (_, v) => entrySize key v | None => 0%Z end.

Definition put_entry (a : spec) (plugin key value : string) : spec :=
  mkSpec (<[plugin := <[key := (sp_counter a + 1, value)%N]> (bucket_of a plugin)]> (entries a))
    (sp_counter a + 1).

Definition spec_set (l : limits) (a : spec) (plugin key value : string)
    (expected : option string) (conditional : bool) : res stateErr (bool * string) * spec :=
  if bool_decide (plugin = "") || bool_decide (key = "") then (Err ErrRequired, a)
  else if bool_decide (maxV l < len value)%Z then (Err ErrValueTooLarge, a)
  else
    let old := spec_lookup a plugin key in
    if refused conditional expected (fst <$> old) then (Ok (false, ""), a)
    else if bool_decide (old = None) && bool_decide (maxK l ≤ Z.of_nat (size (bucket_of a plugin)))%Z
    then (Err ErrKeyLimit, a)
    else if bool_decide (maxT l < spec_total a - old_size key old + entrySize key value)%Z
    then (Err ErrTotalLimit, a)
    else if bool_decide (sp_counter a = max_uint64) then (Err ErrVersionExhausted, a)
    else (Ok (true, FormatUint (sp_counter a + 1)), put_entry a plugin key value).

Definition drop_entry (a : spec) (plugin key : string) : spec :=
  let b := delete key (bucket_of a plugin) in
  mkSpec (if bool_decide (b = ∅) then delete plugin (entries a) else <[plugin := b]> (entries a))
    (sp_counter a).

Definition spec_delete (a : spec) (plugin key : string) : res stateErr unit * spec :=
  if bool_decide (plugin = "") || bool_decide (key = "") then (Err ErrRequired, a)
  else match spec_lookup a plugin key with
  | Some _ => (Ok tt, drop_entry a plugin key)
  | None => (Ok tt, a)
  end.

Definition spec_compare_delete (a : spec) (plugin key expected : string) : res stateErr bool * spec :=
  if bool_decide (expected = "") then (Err ErrRequired, a)
  else if bool_decide (plugin = "") || bool_decide (key = "") then (Err ErrNotConfigured, a)
  else match spec_lookup a plugin key with
  | Some (n, _) =>
      if String.eqb (FormatUint n) expected then (Ok true, drop_entry a plugin key)
      else (Ok false, a)
  | None => (Ok false, a)
  end.

Definition sorted_keys {A} (m : gmap string A) : list string :=
  sort_Strings (elements (dom m)).

Definition spec_keys (a : spec) (plugin : string) : list string :=
  if bool_decide (plugin = "") then [] else sorted_keys (bucket_of a plugin).

(** ** bbolt *)

(** The contents a transaction sees, and bbolt's operations on a bucket given
    by the path of its name. [Keys] is the order of [ForEach] and of cursors. *)
Class Bolt := {
  bolt : Type;
  HasBucket : bolt → list string → bool;
  Get : bolt → list string → string → option string;
  Put : bolt → list string → string → string → res string bolt;
  DeleteKey : bolt → list string → string → res string bolt;
  CreateBucketIfNotExists : bolt → list string → res string bolt;
  DeleteBucket : bolt → list string → res string bolt;
  Keys : bolt → list string → list string;
  KeyN : bolt → list string → N;
  Commit : bolt → res string bolt }.

(** The documented behaviour: buckets are maps from keys to values in byte
    order of the keys, nested buckets are listed among the keys of their
    parent, and a successful operation has exactly its own effect. *)
Class BoltLaws (B : Bolt) := {
  view : bolt → gmap (list string) (gmap string string);
  has_bucket_view : ∀ b p, HasBucket b p = bool_decide (is_Some (view b !! p));
  get_view : ∀ b p k, Get b p k = view b !! p ≫= λ m, m !! k;
  put_view : ∀ b p k v b', Put b p k v = Ok b' → view b' = alter (<[k := v]>) p (view b);
  delete_view : ∀ b p k b', DeleteKey b p k = Ok b' → view b' = alter (delete k) p (view b);
  create_view : ∀ b p b', CreateBucketIfNotExists b p = Ok b' →
    view b' = match view b !! p with Some _ => view b | None => <[p := ∅]> (view b) end;
  drop_view : ∀ b p b', DeleteBucket b p = Ok b' →
    ∀ q, view b' !! q = if bool_decide (p `prefix_of` q) then None else view b !! q;
  keys_view : ∀ b p, StronglySorted str_lt (Keys b p) ∧
    ∀ k, k ∈ Keys b p ↔ is_Some (Get b p k) ∨ HasBucket b (p ++ [k]) = true;
  parent_view : ∀ b p k, HasBucket b (p ++ [k]) = true → HasBucket b p = true;
  nested_view : ∀ b p k, HasBucket b (p ++ [k]) = true → Get b p k = None;
  keyn_view : ∀ b p m, view b !! p = Some m → (∀ k, HasBucket b (p ++ [k]) = false) →
    KeyN b p = N.of_nat (size m);
  commit_view : ∀ b b', Commit b = Ok b' → view b' = view b }.

(** ** Records *)

Definition encodeRecord (version : N) (value : string) : string := PutUint64 version +:+ value.

Definition decodeRecord (raw : string) : N * string * bool :=
  if bool_decide (String.length raw < 8) then (0%N, "", false)
  else let version := Uint64 (str_take 8 raw) in
       (version, str_drop 8 raw, negb (N.eqb version 0)).

Definition readUint64 (raw : option string) : N :=
  match raw with
  | Some r => if bool_decide (String.length r = 8) then Uint64 r else 0%N
  | None => 0%N
  end.

#[global] Arguments encodeRecord version value : simpl never.
#[global] Arguments decodeRecord raw : simpl never.
#[global] Arguments readUint64 raw : simpl never.

Definition bucketMetadata : string := "metadata".
Definition bucketPlugins : string := "plugins".
Definition bucketPluginCounts : string := "plugin_key_counts".
Definition keyCounter : string := "counter".
Definition keyTotalBytes : string := "total_bytes".

Definition meta : list string := [bucketMetadata].
Definition counts : list string := [bucketPluginCounts].
Definition pluginPath (plugin : string) : list string := [bucketPlugins; plugin].

(** ** The store *)

Section Model.
Context `{B : Bolt}.

Record Store := mkStore {
  data : gmap string (gmap string string);
  versions : gmap string (gmap string string);
  counter : N;
  total : Z;
  db : option bolt;
  path : string;
  maxValueBytes : Z;
  maxTotalBytes : Z;
  maxKeysPerPlugin : Z;
  readOnly : bool }.

Definition with_db (d : option bolt) (s : Store) : Store :=
  mkStore (data s) (versions s) (counter s) (total s) d (path s)
    (maxValueBytes s) (maxTotalBytes s) (maxKeysPerPlugin s) (readOnly s).

Definition with_maps (d v : gmap string (gmap string string)) (c : N) (t : Z) (s : Store) : Store :=
  mkStore d v c t (db s) (path s) (maxValueBytes s) (maxTotalBytes s) (maxKeysPerPlugin s) (readOnly s).

(** Go's [m[plugin][key]] on a map of maps. *)
Definition lookup2 (m : gmap string (gmap string string)) (plugin key : string) : option string :=
  m !! plugin ≫= λ kv, kv !! key.

Definition unconfigured (s : Store) : bool :=
  readOnly s || (bool_decide (db s = None) && negb (bool_decide (path s = ""))).

Definition putUint64 (b : bolt) (p : list string) (key : string) (value : N) : res stateErr bolt :=
  map_err ErrBackend (Put b p key (PutUint64 value)).

(** [db.Update]: an error of the function or of the commit leaves the database
    as it was. *)
Definition Update {A} (f : bolt → res stateErr (bolt * A)) (b : bolt) (s : Store)
    : res stateErr A * Store :=
  match ('(b', a) ←? f b; b'' ←? map_err ErrBackend (Commit b'); Ok (b'', a)) with
  | Ok (b', a) => (Ok a, with_db (Some b') s)
  | Err e => (Err e, s)
  end.

Definition GetVersioned (s : Store) (plugin key : string) : res stateErr (string * string * bool) :=
  if bool_decide (plugin = "") || bool_decide (key = "") then Err ErrRequired
  else if unconfigured s then Err ErrNotConfigured
  else match db s with
  | None =>
      Ok (default "" (lookup2 (data s) plugin key), default "" (lookup2 (versions s) plugin key),
          bool_decide (is_Some (lookup2 (data s) plugin key)))
  | Some b =>
      if negb (HasBucket b (pluginPath plugin)) then Ok ("", "", false)
      else match Get b (pluginPath plugin) key with
      | None => Ok ("", "", false)
      | Some record =>
          let '(v, text, ok) := decodeRecord record in
          if ok then Ok (text, FormatUint v, true) else Err ErrInvalidRecord
      end
  end.

Definition StoreGet (s : Store) (plugin key : string) : res stateErr (string * bool) :=
  '(value, _, found) ←? GetVersioned s plugin key; Ok (value, found).

Definition validateWrite (s : Store) (plugin key value : string) : res stateErr unit :=
  if unconfigured s then Err ErrNotConfigured
  else if bool_decide (plugin = "") || bool_decide (key = "") then Err ErrRequired
  else if bool_decide (maxValueBytes s < len value)%Z then Err ErrValueTooLarge
  else Ok tt.

(** The [conditional] guard of both backends. [old] is the version there is. *)
Definition casRefused (conditional : bool) (expected : option string) (old : option string) : bool :=
  if conditional then
    match expected, old with
    | None, Some _ => true
    | None, None => false
    | Some _, None => true
    | Some e, Some v => negb (String.eqb v e)
    end
  else false.

Definition setMemory (s : Store) (plugin key value : string)
    (expected : option string) (conditional : bool) : res stateErr (bool * string) * Store :=
  let old := lookup2 (data s) plugin key in
  let exists_ := bool_decide (is_Some old) in
  if casRefused conditional expected
       (if exists_ then Some (default "" (lookup2 (versions s) plugin key)) else None)
  then (Ok (false, ""), s)
  else if negb exists_ &&
          bool_decide (maxKeysPerPlugin s ≤ Z.of_nat (size (default ∅ (data s !! plugin))))%Z
  then (Err ErrKeyLimit, s)
  else
    let total1 := (total s + entrySize key value)%Z in
    let total2 := match old with Some v => (total1 - entrySize key v)%Z | None => total1 end in
    if bool_decide (maxTotalBytes s < total2)%Z then (Err ErrTotalLimit, s)
    else if bool_decide (counter s = max_uint64) then (Err ErrVersionExhausted, s)
    else
      let '(d, vs) :=
        match data s !! plugin with
        | None => (<[plugin := ∅]> (data s), <[plugin := ∅]> (versions s))
        | Some _ => (data s, versions s)
        end in
      let c := (counter s + 1)%N in
      let version := FormatUint c in
      (Ok (true, version),
       with_maps (alter (<[key := value]>) plugin d) (alter (<[key := version]>) plugin vs) c total2 s).

(** The record a transaction finds under [plugin]/[key]. *)
Definition oldRecord (b : bolt) (plugin key : string) : res stateErr (option (N * string)) :=
  if HasBucket b (pluginPath plugin) then
    match Get b (pluginPath plugin) key with
    | Some record =>
        let '(v, text, ok) := decodeRecord record in
        if ok then Ok (Some (v, text)) else Err ErrInvalidRecord
    | None => Ok None
    end
  else Ok None.

Definition setTx (s : Store) (plugin key value : string) (expected : option string)
    (conditional : bool) (b : bolt) : res stateErr (bolt * (bool * string)) :=
  old ←? oldRecord b plugin key;
  if casRefused conditional expected ((FormatUint ∘ fst) <$> old) then Ok (b, (false, FormatUint 0))
  else
    let count := readUint64 (Get b counts plugin) in
    if HasBucket b (pluginPath plugin) && bool_decide (Get b counts plugin = None)
    then Err ErrMissingCount
    else if bool_decide (old = None) && bool_decide (maxKeysPerPlugin s ≤ Z.of_N count)%Z
    then Err ErrKeyLimit
    else
      b1 ←? (if HasBucket b (pluginPath plugin) then Ok b
             else map_err ErrBackend (CreateBucketIfNotExists b (pluginPath plugin)));
      let total0 := Z.of_N (readUint64 (Get b1 meta keyTotalBytes)) in
      let total1 := match old with
                    | Some (_, v) => uint64_of (total0 - entrySize key v)
                    | None => total0 end in
      let total2 := uint64_of (total1 + entrySize key value) in
      if bool_decide (maxTotalBytes s < total2)%Z then Err ErrTotalLimit
      else
        let counter := readUint64 (Get b1 meta keyCounter) in
        if bool_decide (counter = max_uint64) then Err ErrVersionExhausted
        else
          let version := (counter + 1)%N in
          b2 ←? map_err ErrBackend (Put b1 (pluginPath plugin) key (encodeRecord version value));
          b3 ←? (if bool_decide (old = None) then putUint64 b2 counts plugin (count + 1)%N else Ok b2);
          b4 ←? putUint64 b3 meta keyCounter version;
          b5 ←? putUint64 b4 meta keyTotalBytes (Z.to_N total2);
          Ok (b5, (true, FormatUint version)).

Definition set (s : Store) (plugin key value : string) (expected : option string)
    (conditional : bool) : res stateErr (bool * string) * Store :=
  match validateWrite s plugin key value with
  | Err e => (Err e, s)
  | Ok _ =>
      match db s with
      | None => setMemory s plugin key value expected conditional
      | Some b => Update (setTx s plugin key value expected conditional) b s
      end
  end.

Definition Set_ (s : Store) (plugin key value : string) : res stateErr unit * Store :=
  let '(r, s') := set s plugin key value None false in
  (match r with Ok _ => Ok tt | Err e => Err e end, s').

Definition CompareAndSet (s : Store) (plugin key value : string) (expected : option string)
    : res stateErr (bool * string) * Store := set s plugin key value expected true.

(** Removing the entry from the two maps, and the plugin's maps when empty. *)
Definition deleteMemory (s : Store) (plugin key : string) (size : Z) : Store :=
  let d := alter (delete key) plugin (data s) in
  let v := alter (delete key) plugin (versions s) in
  if bool_decide (default ∅ (d !! plugin) = ∅)
  then with_maps (delete plugin d) (delete plugin v) (counter s) (total s - size)%Z s
  else with_maps d v (counter s) (total s - size)%Z s.

(** The tail both delete transactions share. *)
Definition removeTx (b : bolt) (plugin key value : string) : res stateErr bolt :=
  b1 ←? map_err ErrBackend (DeleteKey b (pluginPath plugin) key);
  b2 ←? putUint64 b1 meta keyTotalBytes
          (Z.to_N (uint64_of (Z.of_N (readUint64 (Get b1 meta keyTotalBytes)) - entrySize key value)));
  let countRaw := Get b2 counts plugin in
  if negb (bool_decide (String.length (default "" countRaw) = 8)) || N.eqb (readUint64 countRaw) 0
  then Err ErrInvalidCount
  else
    let count := (readUint64 countRaw - 1)%N in
    if N.eqb count 0 then
      b3 ←? map_err ErrBackend (DeleteKey b2 counts plugin);
      map_err ErrBackend (DeleteBucket b3 (pluginPath plugin))
    else putUint64 b2 counts plugin count.

Definition deleteTx (plugin key : string) (b : bolt) : res stateErr (bolt * unit) :=
  if negb (HasBucket b (pluginPath plugin)) then Ok (b, tt)
  else match Get b (pluginPath plugin) key with
  | None => Ok (b, tt)
  | Some record =>
      let '(_, value, ok) := decodeRecord record in
      if ok then b' ←? removeTx b plugin key value; Ok (b', tt)
      else Err ErrInvalidRecord
  end.

Definition Delete (s : Store) (plugin key : string) : res stateErr unit * Store :=
  if bool_decide (plugin = "") || bool_decide (key = "") then (Err ErrRequired, s)
  else if unconfigured s then (Err ErrNotConfigured, s)
  else match db s with
  | None =>
      match lookup2 (data s) plugin key with
      | Some value => (Ok tt, deleteMemory s plugin key (entrySize key value))
      | None => (Ok tt, s)
      end
  | Some b => Update (deleteTx plugin key) b s
  end.

Definition compareDeleteTx (plugin key expected : string) (b : bolt)
    : res stateErr (bolt * bool) :=
  if negb (HasBucket b (pluginPath plugin)) then Ok (b, false)
  else
    let '(version, value, ok) := decodeRecord (default "" (Get b (pluginPath plugin) key)) in
    if negb ok || negb (String.eqb (FormatUint version) expected) then Ok (b, false)
    else b' ←? removeTx b plugin key value; Ok (b', true).

Definition CompareAndDelete (s : Store) (plugin key expected : string)
    : res stateErr bool * Store :=
  if bool_decide (expected = "") then (Err ErrRequired, s)
  else if bool_decide (plugin = "") || bool_decide (key = "") || unconfigured s
  then (Err ErrNotConfigured, s)
  else match db s with
  | None =>
      if negb (String.eqb (default "" (lookup2 (versions s) plugin key)) expected)
      then (Ok false, s)
      else
        let value := default "" (lookup2 (data s) plugin key) in
        (Ok true, deleteMemory s plugin key (entrySize key value))
  | Some b => Update (compareDeleteTx plugin key expected) b s
  end.

Definition StoreKeys (s : Store) (plugin : string) : list string :=
  if bool_decide (plugin = "") then []
  else match db s with
  | None => sorted_keys (default ∅ (data s !! plugin))
  | Some b => if HasBucket b (pluginPath plugin) then Keys b (pluginPath plugin) else []
  end.

Definition Len (s : Store) (plugin : string) : Z :=
  match db s with
  | None => Z.of_nat (size (default ∅ (data s !! plugin)))
  | Some b => if HasBucket b (pluginPath plugin) then Z.of_N (KeyN b (pluginPath plugin)) else 0%Z
  end.

Definition TotalBytes (s : Store) : Z :=
  match db s with
  | None => total s
  | Some b => Z.of_N (readUint64 (Get b meta keyTotalBytes))
  end.

(** ** Opening *)

Record Options := mkOptions {
  opt_path : string; opt_maxValue : Z; opt_maxTotal : Z; opt_maxKeys : Z }.

Definition DefaultMaxValueBytes : Z := Z.shiftl 256 10.
Definition DefaultMaxTotalBytes : Z := Z.shiftl 32 20.
Definition DefaultMaxKeysPerPlugin : Z := 10000.

(** What the walk over the entries accumulates. *)
Record scanState := mkScanState { sc_total : Z; sc_highest : N }.

(** One entry of a plugin bucket; [actual] counts the entries before it. *)
Definition checkEntry (s : Store) (b : bolt) (plugin : string) (declared : N)
    (st : scanState * N) (key : string) : res stateErr (scanState * N) :=
  let '(acc, actual) := st in
  let raw := Get b (pluginPath plugin) key in
  match raw with
  | None => Err ErrInvalidEntry
  | Some record =>
      if bool_decide (key = "") then Err ErrInvalidEntry
      else
        let '(version, text, ok) := decodeRecord record in
        if negb ok then Err ErrInvalidRecord
        else if bool_decide (maxValueBytes s < len text)%Z then Err ErrValueLimit
        else
          let size := entrySize key text in
          if bool_decide (uint64_max - sc_total acc < size)%Z then Err ErrSizeOverflow
          else
            let acc' := mkScanState (sc_total acc + size)%Z (N.max (sc_highest acc) version) in
            if bool_decide (declared < actual + 1)%N then Err ErrCountMismatch
            else Ok (acc', actual + 1)%N
  end.

Definition checkPlugin (s : Store) (b : bolt) (acc : scanState) (plugin : string)
    : res stateErr scanState :=
  if bool_decide (plugin = "") || bool_decide (is_Some (Get b [bucketPlugins] plugin))
  then Err ErrInvalidBucket
  else if negb (HasBucket b (pluginPath plugin)) then Err ErrInvalidBucket
  else
    let countRaw := Get b counts plugin in
    if negb (bool_decide (String.length (default "" countRaw) = 8)) then Err ErrMissingCount
    else
      let declared := readUint64 countRaw in
      if bool_decide (maxKeysPerPlugin s < Z.of_N declared)%Z then Err ErrKeyCountLimit
      else
        '(acc', _) ←? foldM (checkEntry s b plugin declared) (acc, 0%N) (Keys b (pluginPath plugin));
        Ok acc'.

Definition checkCount (b : bolt) (u : unit) (plugin : string) : res stateErr unit :=
  let raw := Get b counts plugin in
  if bool_decide (plugin = "") || negb (bool_decide (String.length (default "" raw) = 8))
     || negb (HasBucket b (pluginPath plugin))
  then Err ErrInvalidCount
  else if negb (N.eqb (KeyN b (pluginPath plugin)) (readUint64 raw)) then Err ErrCountMismatch
  else Ok tt.

Definition validateDatabase (s : Store) (b : bolt) : res stateErr unit :=
  if negb (HasBucket b meta) || negb (HasBucket b [bucketPlugins]) || negb (HasBucket b counts)
     || negb (bool_decide (String.length (default "" (Get b meta keyCounter)) = 8))
     || negb (bool_decide (String.length (default "" (Get b meta keyTotalBytes)) = 8))
  then Err ErrInvalidMetadata
  else
    acc ←? foldM (checkPlugin s b) (mkScanState 0 0) (Keys b [bucketPlugins]);
    _ ←? foldM (checkCount b) tt (Keys b counts);
    if negb (Z.eqb (sc_total acc) (Z.of_N (readUint64 (Get b meta keyTotalBytes))))
    then Err ErrBytesMismatch
    else if bool_decide (maxTotalBytes s < sc_total acc)%Z then Err ErrTotalLimit
    else if bool_decide (readUint64 (Get b meta keyCounter) < sc_highest acc)%N then Err ErrCounterBehind
    else Ok tt.

Definition initTx (s : Store) (b : bolt) : res stateErr (bolt * unit) :=
  b1 ←? map_err ErrBackend (CreateBucketIfNotExists b meta);
  b2 ←? map_err ErrBackend (CreateBucketIfNotExists b1 [bucketPlugins]);
  b3 ←? (if bool_decide (Get b2 meta keyCounter = None) then putUint64 b2 meta keyCounter 0 else Ok b2);
  b4 ←? (if bool_decide (Get b3 meta keyTotalBytes = None) then putUint64 b3 meta keyTotalBytes 0 else Ok b3);
  b5 ←? map_err ErrBackend (CreateBucketIfNotExists b4 counts);
  _ ←? validateDatabase s b5;
  Ok (b5, tt).

Definition initialize (s : Store) (b : bolt) : res stateErr unit * Store := Update (initTx s) b s.

(** What the file system and [bolt.Open] answer. *)
Record openEnv := mkOpenEnv { env_mkdir : bool; env_open : option bolt; env_chmod : bool }.

Definition orDefault (n d : Z) : Z := if bool_decide (n ≤ 0)%Z then d else n.

Definition set_readOnly (s : Store) : Store :=
  mkStore (data s) (versions s) (counter s) (total s) None (path s)
    (maxValueBytes s) (maxTotalBytes s) (maxKeysPerPlugin s) true.

(** [New] returns a store and, beside it, an error. *)
Definition New (opts : Options) (env : openEnv) : Store * option stateErr :=
  let s := mkStore ∅ ∅ 0 0 None (opt_path opts)
             (orDefault (opt_maxValue opts) DefaultMaxValueBytes)
             (orDefault (opt_maxTotal opts) DefaultMaxTotalBytes)
             (orDefault (opt_maxKeys opts) DefaultMaxKeysPerPlugin) false in
  if bool_decide (opt_path opts = "") then (s, None)
  else if negb (env_mkdir env) then (set_readOnly s, Some ErrFilesystem)
  else match env_open env with
  | None => (set_readOnly s, Some ErrOpen)
  | Some b =>
      if negb (env_chmod env) then (set_readOnly s, Some ErrFilesystem)
      else match initialize (with_db (Some b) s) b with
      | (Err e, _) => (set_readOnly s, Some e)
      | (Ok _, s') => (s', None)
      end
  end.

Definition Close (s : Store) : Store := with_db None s.

(** ** Calls and responses *)

Inductive op :=
| OpGet (plugin key : string)
| OpSet (plugin key value : string)
| OpCAS (plugin key value : string) (expected : option string)
| OpDelete (plugin key : string)
| OpCAD (plugin key expected : string)
| OpKeys (plugin : string)
| OpLen (plugin : string)
| OpTotal.

Inductive resp :=
| RGet (r : res stateErr (string * string * bool))
| RDone (r : res stateErr unit)
| RCAS (r : res stateErr (bool * string))
| RCAD (r : res stateErr bool)
| RKeys (ks : list string)
| RInt (n : Z).

Definition step (s : Store) (o : op) : resp * Store :=
  match o with
  | OpGet p k => (RGet (GetVersioned s p k), s)
  | OpSet p k v => let '(r, s') := Set_ s p k v in (RDone r, s')
  | OpCAS p k v e => let '(r, s') := CompareAndSet s p k v e in (RCAS r, s')
  | OpDelete p k => let '(r, s') := Delete s p k in (RDone r, s')
  | OpCAD p k e => let '(r, s') := CompareAndDelete s p k e in (RCAD r, s')
  | OpKeys p => (RKeys (StoreKeys s p), s)
  | OpLen p => (RInt (Len s p), s)
  | OpTotal => (RInt (TotalBytes s), s)
  end.

Fixpoint run (s : Store) (ops : list op) : list resp * Store :=
  match ops with
  | [] => ([], s)
  | o :: ops' =>
      let '(r, s1) := step s o in
      let '(rs, s2) := run s1 ops' in (r :: rs, s2)
  end.
End Model.

Definition spec_step (l : limits) (a : spec) (o : op) : resp * spec :=
  match o with
  | OpGet p k => (RGet (spec_get a p k), a)
  | OpSet p k v =>
      let '(r, a') := spec_set l a p k v None false in
      (RDone (match r with Ok _ => Ok tt | Err e => Err e end), a')
  | OpCAS p k v e => let '(r, a') := spec_set l a p k v e true in (RCAS r, a')
  | OpDelete p k => let '(r, a') := spec_delete a p k in (RDone r, a')
  | OpCAD p k e => let '(r, a') := spec_compare_delete a p k e in (RCAD r, a')
  | OpKeys p => (RKeys (spec_keys a p), a)
  | OpLen p => (RInt (Z.of_nat (size (bucket_of a p))), a)
  | OpTotal => (RInt (spec_total a), a)
  end.

Fixpoint spec_run (l : limits) (a : spec) (ops : list op) : list resp * spec :=
  match ops with
  | [] => ([], a)
  | o :: ops' =>
      let '(r, a1) := spec_step l a o in
      let '(rs, a2) := spec_run l a1 ops' in (r :: rs, a2)
  end.

(** ** Properties of the abstract store *)

(** The quotas, and that the counter is ahead of every version. *)
Record spec_inv (l : limits) (a : spec) : Prop := {
  inv_bucket : ∀ p b, entries a !! p = Some b →
    p ≠ "" ∧ (Z.of_nat (size b) ≤ maxK l)%Z ∧
    ∀ k n v, b !! k = Some (n, v) → k ≠ "" ∧ (len v ≤ maxV l)%Z ∧ (0 < n ≤ sp_counter a)%N;
  inv_total : (spec_total a ≤ maxT l)%Z;
  inv_counter : (sp_counter a ≤ max_uint64)%N }.

Lemma entrySize_nonneg k v : (0 ≤ entrySize k v)%Z.
Proof. unfold entrySize. pose proof (len_nonneg k). pose proof (len_nonneg v). lia. Qed.

Lemma bucket_bytes_nonneg b : (0 ≤ bucket_bytes b)%Z.
Proof. apply map_sum_nonneg. intros. apply entrySize_nonneg. Qed.

Lemma spec_total_nonneg a : (0 ≤ spec_total a)%Z.
Proof. apply map_sum_nonneg. intros. apply bucket_bytes_nonneg. Qed.

Lemma bucket_bytes_empty : bucket_bytes ∅ = 0%Z.
Proof. apply map_sum_empty. Qed.

Lemma total_bucket a p f c :
  map_sum (λ _ b, bucket_bytes b) (<[p := f]> (entries a)) =
  (spec_total a - bucket_bytes (bucket_of a p) + bucket_bytes f)%Z ∧
  spec_total (mkSpec (delete p (entries a)) c) = (spec_total a - bucket_bytes (bucket_of a p))%Z.
Proof.
  unfold spec_total, bucket_of; simpl. destruct (entries a !! p) as [b|] eqn:E; simpl.
  - rewrite (map_sum_insert _ _ _ _ b) by done. rewrite (map_sum_delete _ (entries a) p b E). lia.
  - rewrite map_sum_insert_new by done. rewrite delete_id by done.
    rewrite bucket_bytes_empty. lia.
Qed.

Lemma bucket_bytes_insert b k n v :
  bucket_bytes (<[k := (n, v)]> b) = (bucket_bytes b - old_size k (b !! k) + entrySize k v)%Z.
Proof.
  unfold bucket_bytes. destruct (b !! k) as [[m w]|] eqn:E; simpl.
  - by rewrite (map_sum_insert _ _ _ _ (m, w)) by done.
  - rewrite map_sum_insert_new by done. simpl. lia.
Qed.

Lemma bucket_bytes_delete b k :
  bucket_bytes (delete k b) = (bucket_bytes b - old_size k (b !! k))%Z.
Proof.
  unfold bucket_bytes. destruct (b !! k) as [[m w]|] eqn:E; simpl.
  - rewrite (map_sum_delete _ b k (m, w) E). simpl. lia.
  - rewrite delete_id by done. lia.
Qed.

Lemma put_entry_total a p k v :
  spec_total (put_entry a p k v) =
  (spec_total a - old_size k (spec_lookup a p k) + entrySize k v)%Z.
Proof.
  unfold put_entry, spec_total; simpl. rewrite (proj1 (total_bucket a p _ 0)).
  rewrite bucket_bytes_insert. fold (spec_lookup a p k). unfold spec_total. lia.
Qed.

Lemma drop_entry_total a p k :
  spec_total (drop_entry a p k) = (spec_total a - old_size k (spec_lookup a p k))%Z.
Proof.
  pose proof (bucket_bytes_delete (bucket_of a p) k) as Hb. fold (spec_lookup a p k) in Hb.
  unfold drop_entry. destruct (bool_decide_reflect (delete k (bucket_of a p) = ∅)) as [E|E].
  - rewrite (proj2 (total_bucket a p ∅ _)). rewrite E, bucket_bytes_empty in Hb. lia.
  - unfold spec_total at 1; simpl. rewrite (proj1 (total_bucket a p _ 0)). lia.
Qed.

Lemma lookup_bucket a p k e : spec_lookup a p k = Some e →
  ∃ b, entries a !! p = Some b ∧ b !! k = Some e.
Proof.
  unfold spec_lookup, bucket_of. destruct (entries a !! p) as [b|]; simpl; [eauto|].
  by rewrite lookup_empty.
Qed.

Lemma put_entry_inv l a p k v :
  spec_inv l a → p ≠ "" → k ≠ "" → (len v ≤ maxV l)%Z →
  (spec_lookup a p k = None → Z.of_nat (size (bucket_of a p)) < maxK l)%Z →
  (spec_total a - old_size k (spec_lookup a p k) + entrySize k v ≤ maxT l)%Z →
  sp_counter a ≠ max_uint64 →
  spec_inv l (put_entry a p k v).
Proof.
  intros [Hb Ht Hc] Hp Hk Hv Hn Htot Hmax. split; simpl.
  - intros q b. destruct (decide (p = q)) as [<-|Hne].
    + rewrite lookup_insert_eq. intros [= <-]. split; [done|]. split.
      * unfold spec_lookup, bucket_of in Hn. destruct (entries a !! p) as [b|] eqn:E; unfold bucket_of; rewrite E; simpl in *.
        -- destruct (Hb p b E) as (_ & Hs & _). destruct (b !! k) eqn:Ek.
           ++ rewrite map_size_insert_Some by eauto. done.
           ++ rewrite map_size_insert_None by done. specialize (Hn eq_refl). lia.
        -- rewrite lookup_empty in Hn. specialize (Hn eq_refl).
           rewrite map_size_insert_None by apply lookup_empty. lia.
      * intros k' n w. destruct (decide (k = k')) as [<-|Hnk].
        -- rewrite lookup_insert_eq. intros [= <- <-]. split; [done|]. split; [done|lia].
        -- rewrite lookup_insert_ne by done. intros H.
           apply (lookup_bucket a p k') in H as (b & E & Ek).
           destruct (Hb p b E) as (_ & _ & Hall). destruct (Hall _ _ _ Ek) as (? & ? & ?).
           split; [done|]. split; [done|lia].
    + rewrite lookup_insert_ne by done. intros E. destruct (Hb q b E) as (? & ? & Hall).
      split; [done|]. split; [done|]. intros k' n w Ek. destruct (Hall _ _ _ Ek) as (? & ? & ?).
      split; [done|]. split; [done|lia].
  - by rewrite put_entry_total.
  - lia.
Qed.

Lemma drop_entry_inv l a p k : spec_inv l a → spec_inv l (drop_entry a p k).
Proof.
  intros [Hb Ht Hc]. split; [| |done].
  - intros q b. unfold drop_entry; simpl.
    destruct (bool_decide_reflect (delete k (bucket_of a p) = ∅)) as [E|E];
      destruct (decide (p = q)) as [<-|Hne].
    + by rewrite lookup_delete_eq.
    + rewrite lookup_delete_ne by done. apply Hb.
    + rewrite lookup_insert_eq. intros [= <-]. unfold bucket_of in *.
      destruct (entries a !! p) as [b|] eqn:Ep; simpl in *; [|by rewrite delete_empty in E].
      destruct (Hb p b Ep) as (? & Hs & Hall). split; [done|]. split.
      * rewrite map_size_delete. destruct (b !! k); simpl; lia.
      * intros k' n v [_ Hk]%lookup_delete_Some. eauto.
    + rewrite lookup_insert_ne by done. apply Hb.
  - rewrite drop_entry_total.
    assert (0 ≤ old_size k (spec_lookup a p k))%Z; [|lia].
    unfold old_size. destruct (spec_lookup a p k) as [[]|]; [apply entrySize_nonneg|done].
Qed.

Lemma spec_set_inv l a p k v e c : spec_inv l a → spec_inv l (spec_set l a p k v e c).2.
Proof.
  intros H. unfold spec_set.
  destruct (bool_decide_reflect (p = "")); [done|].
  destruct (bool_decide_reflect (k = "")); [done|]. simpl.
  case_bool_decide; [done|]. destruct (refused _ _ _); [done|].
  destruct (bool_decide (spec_lookup a p k = None) && _) eqn:E1; [done|].
  case_dec; [done|]. case_dec; [done|]. simpl.
  apply put_entry_inv; auto; try lia.
  intros Hnone. rewrite bool_decide_eq_true_2 in E1 by done. simpl in E1.
  apply bool_decide_eq_false in E1. lia.
Qed.

Lemma spec_step_inv l a o : spec_inv l a → spec_inv l (spec_step l a o).2.
Proof.
  intros H. destruct o; simpl; auto.
  - pose proof (spec_set_inv l a plugin key value None false H).
    destruct (spec_set _ _ _ _ _ _ _). done.
  - pose proof (spec_set_inv l a plugin key value expected true H).
    destruct (spec_set _ _ _ _ _ _ _). done.
  - unfold spec_delete. destruct (_ || _); [done|].
    destruct (spec_lookup a plugin key); [|done]. by apply drop_entry_inv.
  - unfold spec_compare_delete. case_bool_decide; [done|]. destruct (_ || _); [done|].
    destruct (spec_lookup a plugin key) as [[]|]; [|done].
    destruct (String.eqb _ _); [|done]. by apply drop_entry_inv.
Qed.

Lemma spec_run_inv l a ops : spec_inv l a → spec_inv l (spec_run l a ops).2.
Proof.
  revert a; induction ops as [|o ops IH]; intros a H; simpl; [done|].
  pose proof (spec_step_inv l a o H) as H1. destruct (spec_step l a o) as [r a1]. simpl in H1.
  specialize (IH a1 H1). by destruct (spec_run l a1 ops).
Qed.

Lemma spec0_inv l : (0 ≤ maxT l)%Z → spec_inv l spec0.
Proof.
  intros. split; simpl; [by intros ? ? ?| |unfold max_uint64; lia].
  unfold spec_total; simpl. by rewrite map_sum_empty.
Qed.

(** * The memory backend refines the abstract store

    [mem_refines l a s] relates an abstract store [a] with limits [l] to a
    [Store] without a database: its two maps are the two projections of the
    entries and [total] is their size.  Every method keeps the relation and
    returns what the abstract store returns ([mem_step]). *)

Lemma casRefused_spec c e o : casRefused c e (FormatUint <$> o) = refused c e o.
Proof. destruct c, e, o; simpl; try done. by rewrite String.eqb_sym. Qed.

(** One component of every entry, as the code's map of maps. *)
Definition project (f : N * string → string) (m : gmap string bucket) : gmap string (gmap string string) :=
  (λ b : bucket, f <$> b) <$> m.

Section Memory.
Context `{B : Bolt}.

Record mem_refines (l : limits) (a : spec) (s : Store) : Prop := {
  mr_db : db s = None;
  mr_path : path s = "";
  mr_ro : readOnly s = false;
  mr_limits : maxV l = maxValueBytes s ∧ maxT l = maxTotalBytes s ∧ maxK l = maxKeysPerPlugin s;
  mr_data : data s = project snd (entries a);
  mr_versions : versions s = project (FormatUint ∘ fst) (entries a);
  mr_counter : counter s = sp_counter a;
  mr_total : total s = spec_total a }.

Lemma lookup2_fmap (f : N * string → string) (a : spec) p k :
  lookup2 (project f (entries a)) p k = f <$> spec_lookup a p k.
Proof.
  unfold lookup2, project, spec_lookup, bucket_of. rewrite lookup_fmap.
  destruct (entries a !! p) as [b|]; simpl; [apply lookup_fmap|by rewrite lookup_empty].
Qed.

Lemma default_fmap (f : N * string → string) (a : spec) p :
  default ∅ (project f (entries a) !! p) = f <$> bucket_of a p.
Proof.
  unfold bucket_of, project. rewrite lookup_fmap. destruct (entries a !! p); simpl; [done|].
  by rewrite fmap_empty.
Qed.

Lemma mem_configured l a s : mem_refines l a s → unconfigured s = false.
Proof. intros H. unfold unconfigured. by rewrite (mr_ro _ _ _ H), (mr_path _ _ _ H), (mr_db _ _ _ H). Qed.

Lemma mem_put l a s p k v t :
  mem_refines l a s → t = spec_total (put_entry a p k v) →
  let '(d, vs) := match data s !! p with
    | None => (<[p := ∅]> (data s), <[p := ∅]> (versions s))
    | Some _ => (data s, versions s) end in
  mem_refines l (put_entry a p k v)
    (with_maps (alter (<[k := v]>) p d) (alter (<[k := FormatUint (sp_counter a + 1)]>) p vs)
       (sp_counter a + 1) t s).
Proof.
  intros [Hdb Hp Hro Hl Hd Hv Hc Ht] ->. unfold project in *. rewrite Hd, Hv, lookup_fmap.
  destruct (entries a !! p) as [b|] eqn:E; simpl; split; simpl; auto;
    unfold bucket_of; rewrite ?E; simpl; unfold project;
    apply map_eq; intros q; destruct (decide (p = q)) as [<-|];
    rewrite ?lookup_alter_eq, ?lookup_alter_ne, ?lookup_insert_eq, ?lookup_insert_ne, ?lookup_fmap by done;
    rewrite ?lookup_insert_eq, ?lookup_insert_ne, ?lookup_fmap, ?E by done;
    simpl; by rewrite ?fmap_insert, ?fmap_empty.
Qed.

Lemma mem_drop l a s p k x :
  mem_refines l a s → spec_lookup a p k = Some x →
  mem_refines l (drop_entry a p k) (deleteMemory s p k (entrySize k x.2)).
Proof.
  intros [Hdb Hp Hro Hl Hd Hv Hc Ht] Hx. unfold project in *.
  assert (Htot : (total s - entrySize k x.2)%Z = spec_total (drop_entry a p k)).
  { rewrite drop_entry_total, Hx, Ht. by destruct x. }
  destruct (lookup_bucket _ _ _ _ Hx) as (b & E & _).
  assert (Hcond : bool_decide (default ∅ (alter (delete k) p (data s) !! p) = ∅)
                  = bool_decide (delete k (bucket_of a p) = ∅)).
  { apply bool_decide_ext. rewrite lookup_alter_eq, Hd, lookup_fmap, E. unfold bucket_of. rewrite E; simpl.
    rewrite <- fmap_delete. apply fmap_empty_iff. }
  unfold deleteMemory. rewrite Hcond. unfold drop_entry in *.
  destruct (bool_decide (delete k (bucket_of a p) = ∅)); split; simpl; auto; rewrite ?Hd, ?Hv;
    unfold project; apply map_eq; intros q; destruct (decide (p = q)) as [<-|];
    rewrite ?lookup_delete_eq, ?lookup_delete_ne, ?lookup_alter_eq,
      ?lookup_alter_ne, ?lookup_insert_eq, ?lookup_insert_ne, ?lookup_fmap by done;
    rewrite ?lookup_delete_eq, ?lookup_delete_ne, ?lookup_alter_ne, ?lookup_insert_eq,
      ?lookup_insert_ne, ?lookup_fmap by done;
    try done; unfold bucket_of; rewrite ?E; simpl; by rewrite ?fmap_delete.
Qed.

Lemma mem_set l a s p k v e c :
  mem_refines l a s →
  (set s p k v e c).1 = (spec_set l a p k v e c).1 ∧
  mem_refines l (spec_set l a p k v e c).2 (set s p k v e c).2.
Proof.
  intros H. unfold set, validateWrite, spec_set. rewrite (mem_configured _ _ _ H).
  destruct (mr_limits _ _ _ H) as (HV & HT & HK).
  destruct (bool_decide (p = "") || bool_decide (k = "")); [done|]. rewrite HV.
  case_dec; [done|]. rewrite (mr_db _ _ _ H). unfold setMemory.
  rewrite (mr_data _ _ _ H), (mr_versions _ _ _ H), !lookup2_fmap.
  assert (Hcas : casRefused c e (if bool_decide (is_Some (snd <$> spec_lookup a p k))
      then Some (default "" (FormatUint ∘ fst <$> spec_lookup a p k)) else None)
    = refused c e (fst <$> spec_lookup a p k)).
  { rewrite <- casRefused_spec. by destruct (spec_lookup a p k). }
  rewrite Hcas. destruct (refused _ _ _); [done|].
  rewrite default_fmap, map_size_fmap, HK.
  assert (Hx : negb (bool_decide (is_Some (snd <$> spec_lookup a p k)))
               = bool_decide (spec_lookup a p k = None)) by by destruct (spec_lookup a p k).
  rewrite Hx. destruct (bool_decide (spec_lookup a p k = None) && _); [done|].
  rewrite HT, (mr_total _ _ _ H), (mr_counter _ _ _ H).
  assert (Ht2 : match snd <$> spec_lookup a p k with
      | Some w => (spec_total a + entrySize k v - entrySize k w)%Z
      | None => (spec_total a + entrySize k v)%Z end
    = (spec_total a - old_size k (spec_lookup a p k) + entrySize k v)%Z).
  { destruct (spec_lookup a p k) as [[? w]|]; simpl; lia. }
  rewrite Ht2. case_dec; [done|]. case_dec; [done|].
  pose proof (mem_put l a s p k v (spec_total (put_entry a p k v)) H eq_refl) as Hput.
  rewrite put_entry_total in Hput. rewrite (mr_data _ _ _ H), (mr_versions _ _ _ H) in Hput.
  destruct (project snd (entries a) !! p); done.
Qed.

Lemma mem_step l a s o :
  mem_refines l a s →
  (step s o).1 = (spec_step l a o).1 ∧ mem_refines l (spec_step l a o).2 (step s o).2.
Proof.
  intros H. pose proof (mem_configured _ _ _ H) as Hu.
  destruct o as [p k|p k v|p k v e|p k|p k e|p|p|]; simpl.
  - split; [|done]. f_equal. unfold GetVersioned, spec_get. rewrite Hu, (mr_db _ _ _ H).
    destruct (_ || _); [done|].
    rewrite (mr_data _ _ _ H), (mr_versions _ _ _ H), !lookup2_fmap.
    by destruct (spec_lookup a p k) as [[]|].
  - unfold Set_. destruct (mem_set l a s p k v None false H) as [H1 H2].
    destruct (set s p k v None false) as [r s'], (spec_set l a p k v None false) as [r' a'].
    simpl in *. by subst.
  - unfold CompareAndSet. destruct (mem_set l a s p k v e true H) as [H1 H2].
    destruct (set s p k v e true) as [r s'], (spec_set l a p k v e true) as [r' a'].
    simpl in *. by subst.
  - unfold Delete, spec_delete. rewrite Hu, (mr_db _ _ _ H). destruct (_ || _); [done|].
    rewrite (mr_data _ _ _ H), !lookup2_fmap.
    destruct (spec_lookup a p k) as [x|] eqn:E; simpl; [|done].
    split; [done|]. by eapply mem_drop.
  - unfold CompareAndDelete, spec_compare_delete. rewrite Hu, (mr_db _ _ _ H).
    case_dec; [done|]. rewrite orb_false_r. destruct (_ || _); [done|].
    rewrite (mr_data _ _ _ H), (mr_versions _ _ _ H), !lookup2_fmap.
    destruct (spec_lookup a p k) as [[m w]|] eqn:E; simpl.
    + destruct (String.eqb _ e); simpl; [|done]. split; [done|]. by eapply (mem_drop _ _ _ _ _ (m, w)).
    + by destruct e.
  - split; [|done]. unfold StoreKeys, spec_keys. rewrite (mr_db _ _ _ H). case_dec; [done|].
    rewrite (mr_data _ _ _ H), default_fmap. unfold sorted_keys. by rewrite dom_fmap_L.
  - split; [|done]. unfold Len. by rewrite (mr_db _ _ _ H), (mr_data _ _ _ H), default_fmap, map_size_fmap.
  - split; [|done]. unfold TotalBytes. by rewrite (mr_db _ _ _ H), (mr_total _ _ _ H).
Qed.

Lemma mem_run l a s ops :
  mem_refines l a s →
  (run s ops).1 = (spec_run l a ops).1 ∧ mem_refines l (spec_run l a ops).2 (run s ops).2.
Proof.
  revert a s; induction ops as [|o ops IH]; intros a s H; simpl; [done|].
  destruct (mem_step l a s o H) as [H1 H2].
  destruct (step s o) as [r s1], (spec_step l a o) as [r' a1]. simpl in *. subst.
  destruct (IH a1 s1 H2) as [H3 H4].
  destruct (run s1 ops), (spec_run l a1 ops). simpl in *. by subst.
Qed.
End Memory.
