(* ===== verification/PluginStateBolt.v ===== *)
(** * The bbolt backend refines the abstract store

    [tx_rel a b] relates an abstract store to the contents of the database: a
    nested bucket per plugin with encoded records, a bucket of key counts, and
    the two metadata integers.  Every transaction of the store either fails in
    bbolt and changes nothing, or does what the abstract store does. *)

From stdpp Require Import base list strings gmap sets numbers pretty sorting.
From S2P Require Import Prelude ByteStrings PluginState.

Definition encode_entry (e : N * string) : string := encodeRecord e.1 e.2.
Definition encode_bucket (kv : bucket) : gmap string string := encode_entry <$> kv.
Definition encode_count (kv : bucket) : string := PutUint64 (N.of_nat (size kv)).

Lemma decode_encode n v :
  (n ≤ max_uint64)%N → decodeRecord (encodeRecord n v) = (n, v, negb (N.eqb n 0)).
Proof.
  intros Hn. unfold decodeRecord, encodeRecord.
  rewrite str_length_app, PutUint64_length, bool_decide_eq_false_2 by lia.
  rewrite str_take_len, str_drop_len by apply PutUint64_length. by rewrite Uint64_PutUint64.
Qed.

Lemma put_len8 n : bool_decide (String.length (PutUint64 n) = 8) = true.
Proof. apply bool_decide_eq_true, PutUint64_length. Qed.

Lemma readUint64_Put n : (n ≤ max_uint64)%N → readUint64 (Some (PutUint64 n)) = n.
Proof.
  intros. unfold readUint64. rewrite PutUint64_length. simpl. by apply Uint64_PutUint64.
Qed.

(** Distinct bucket paths. *)
Ltac path_ne := solve [done | unfold pluginPath; congruence].

Section Bolt.
Context `{B : Bolt} {L : BoltLaws B}.

Record tx_rel (a : spec) (b : bolt) : Prop := {
  tr_meta : ∃ m, view b !! meta = Some m ∧ m !! keyCounter = Some (PutUint64 (sp_counter a)) ∧
                 m !! keyTotalBytes = Some (PutUint64 (Z.to_N (spec_total a)));
  tr_counts : view b !! counts = Some (encode_count <$> entries a);
  tr_bucket : ∀ p, view b !! pluginPath p = encode_bucket <$> entries a !! p;
  tr_nested : ∀ p k, view b !! [bucketPlugins; p; k] = None;
  tr_plugins : view b !! [bucketPlugins] = Some ∅;
  tr_flat : ∀ p, view b !! [bucketPluginCounts; p] = None }.

Lemma tx_rel_view a b b' : view b' = view b → tx_rel a b → tx_rel a b'.
Proof. intros Hv [Hm Hc Hb Hn Hp Hfl]. split; rewrite ?Hv; auto; intros; rewrite Hv; auto. Qed.

Record bolt_refines (l : limits) (a : spec) (s : Store) : Prop := {
  br_db : ∃ b, db s = Some b ∧ tx_rel a b;
  br_ro : readOnly s = false;
  br_limits : maxV l = maxValueBytes s ∧ maxT l = maxTotalBytes s ∧ maxK l = maxKeysPerPlugin s }.

(** The limits are Go [int]s, and no key is near the size of the address space. *)
Definition limits_fit (l : limits) : Prop :=
  (0 ≤ maxV l < 2 ^ 62 ∧ maxT l < 2 ^ 63 ∧ maxK l < 2 ^ 63)%Z.

Definition key_fits (key : string) : Prop := (len key < 2 ^ 62)%Z.

(** ** Reads *)

Lemma has_plugin a b p : tx_rel a b →
  HasBucket b (pluginPath p) = bool_decide (is_Some (entries a !! p)).
Proof.
  intros H. rewrite has_bucket_view, (tr_bucket _ _ H). by destruct (entries a !! p).
Qed.

Lemma get_record a b p k : tx_rel a b →
  Get b (pluginPath p) k = encode_entry <$> spec_lookup a p k.
Proof.
  intros H. rewrite get_view, (tr_bucket _ _ H). unfold spec_lookup, bucket_of, encode_bucket.
  destruct (entries a !! p); simpl; [apply lookup_fmap|by rewrite lookup_empty].
Qed.

Lemma get_count a b p : tx_rel a b → Get b counts p = encode_count <$> entries a !! p.
Proof. intros H. rewrite get_view, (tr_counts _ _ H). simpl. apply lookup_fmap. Qed.

Lemma get_meta a b : tx_rel a b →
  Get b meta keyCounter = Some (PutUint64 (sp_counter a)) ∧
  Get b meta keyTotalBytes = Some (PutUint64 (Z.to_N (spec_total a))).
Proof. intros (m & Hm & H1 & H2)%tr_meta. by rewrite !get_view, Hm; simpl. Qed.

Lemma lookup_version l a p k n v : spec_inv l a → spec_lookup a p k = Some (n, v) →
  (0 < n ≤ max_uint64)%N ∧ (len v ≤ maxV l)%Z ∧ (entrySize k v ≤ spec_total a)%Z.
Proof.
  intros [Hb _ Hc] H. destruct (lookup_bucket _ _ _ _ H) as (b & E & Ek).
  destruct (Hb p b E) as (_ & _ & Hall). destruct (Hall _ _ _ Ek) as (_ & Hlen & ? & ?).
  split; [lia|]. split; [done|]. unfold spec_total. rewrite (map_sum_delete _ _ _ _ E).
  unfold bucket_bytes at 1. rewrite (map_sum_delete _ _ _ _ Ek). simpl.
  assert (0 ≤ map_sum (λ k e, entrySize k e.2) (delete k b))%Z by apply bucket_bytes_nonneg.
  assert (0 ≤ map_sum (λ _ b, bucket_bytes b) (delete p (entries a)))%Z
    by (apply map_sum_nonneg; intros; apply bucket_bytes_nonneg). lia.
Qed.

Lemma old_record l a b p k : spec_inv l a → tx_rel a b →
  oldRecord b p k = Ok (spec_lookup a p k).
Proof.
  intros Hi H. unfold oldRecord. rewrite (has_plugin _ _ _ H), (get_record _ _ _ _ H).
  destruct (spec_lookup a p k) as [[n v]|] eqn:E.
  - destruct (lookup_version _ _ _ _ _ _ Hi E) as ((? & ?) & _).
    destruct (lookup_bucket _ _ _ _ E) as (bk & -> & _).
    change (encode_entry <$> Some (n, v)) with (Some (encodeRecord n v)).
    rewrite bool_decide_eq_true_2, decode_encode by eauto.
    destruct (N.eqb_spec n 0); [lia|done].
  - by destruct (bool_decide _).
Qed.

Lemma count_value l a b p : limits_fit l → spec_inv l a → tx_rel a b →
  Z.of_N (readUint64 (Get b counts p)) = Z.of_nat (size (bucket_of a p)).
Proof.
  intros (_ & _ & HK) [Hb _ _] H. rewrite (get_count _ _ _ H). unfold bucket_of.
  destruct (entries a !! p) as [kv|] eqn:E; simpl fmap; simpl default; [|done].
  destruct (Hb p kv E) as (_ & Hs & _). unfold encode_count.
  rewrite readUint64_Put; [lia|]. unfold max_uint64. lia.
Qed.

Lemma total_value l a b : limits_fit l → spec_inv l a → tx_rel a b →
  Z.of_N (readUint64 (Get b meta keyTotalBytes)) = spec_total a.
Proof.
  intros (_ & HT & _) [_ Ht _] H. destruct (get_meta _ _ H) as [_ ->].
  pose proof (spec_total_nonneg a). rewrite readUint64_Put; [lia|]. unfold max_uint64. lia.
Qed.

Lemma counter_value l a b : spec_inv l a → tx_rel a b →
  readUint64 (Get b meta keyCounter) = sp_counter a.
Proof.
  intros [_ _ Hc] H. destruct (get_meta _ _ H) as [-> _]. by apply readUint64_Put.
Qed.

(** ** Writes *)

Lemma path_ne_meta p : pluginPath p ≠ meta. Proof. done. Qed.
Lemma path_ne_counts p : pluginPath p ≠ counts. Proof. done. Qed.
Lemma meta_ne_counts : meta ≠ counts. Proof. done. Qed.

Lemma put_lookup b p k v b' q : Put b p k v = Ok b' →
  view b' !! q = if decide (p = q) then <[k := v]> <$> view b !! q else view b !! q.
Proof.
  intros ->%put_view. rewrite lookup_alter. by destruct (decide (p = q)) as [->|].
Qed.

Lemma delete_lookup b p k b' q : DeleteKey b p k = Ok b' →
  view b' !! q = if decide (p = q) then delete k <$> view b !! q else view b !! q.
Proof.
  intros ->%delete_view. rewrite lookup_alter. by destruct (decide (p = q)) as [->|].
Qed.

(** The metadata writes at the end of both kinds of transaction. *)
Lemma meta_puts a b c t b1 b2 m :
  view b !! meta = Some m →
  Put b meta keyCounter (PutUint64 c) = Ok b1 → Put b1 meta keyTotalBytes (PutUint64 t) = Ok b2 →
  sp_counter a = c → Z.to_N (spec_total a) = t →
  (∃ m', view b2 !! meta = Some m' ∧ m' !! keyCounter = Some (PutUint64 (sp_counter a)) ∧
         m' !! keyTotalBytes = Some (PutUint64 (Z.to_N (spec_total a)))) ∧
  (∀ q, q ≠ meta → view b2 !! q = view b !! q).
Proof.
  intros Hm H1 H2 <- <-. split.
  - rewrite (put_lookup _ _ _ _ _ _ H2), (put_lookup _ _ _ _ _ _ H1), Hm. simpl.
    eexists. split; [done|]. by rewrite lookup_insert_ne, !lookup_insert_eq by done.
  - intros q Hq. rewrite (put_lookup _ _ _ _ _ _ H2), (put_lookup _ _ _ _ _ _ H1).
    destruct (decide (meta = q)); [congruence|done].
Qed.

(** The bucket after [CreateBucketIfNotExists] when it was missing. *)
Lemma ensure_bucket a b p b1 : tx_rel a b →
  (if HasBucket b (pluginPath p) then Ok b
   else map_err ErrBackend (CreateBucketIfNotExists b (pluginPath p))) = Ok b1 →
  view b1 !! pluginPath p = Some (encode_bucket (bucket_of a p)) ∧
  ∀ q, q ≠ pluginPath p → view b1 !! q = view b !! q.
Proof.
  intros H. rewrite (has_plugin _ _ _ H). unfold bucket_of.
  pose proof (tr_bucket _ _ H p) as Hv. destruct (entries a !! p) as [kv|] eqn:E; simpl in *.
  - by intros [= <-].
  - intros Hc%map_err_ok. apply create_view in Hc. rewrite Hv in Hc. rewrite Hc. split.
    + rewrite lookup_insert_eq. unfold encode_bucket. by rewrite fmap_empty.
    + intros q Hq. by rewrite lookup_insert_ne.
Qed.

Lemma put_counts a p k v n :
  n = N.of_nat (size (bucket_of a p)) →
  encode_count <$> entries (put_entry a p k v) =
  if bool_decide (spec_lookup a p k = None)
  then <[p := PutUint64 (n + 1)]> (encode_count <$> entries a)
  else encode_count <$> entries a.
Proof.
  intros ->. unfold put_entry; simpl. rewrite fmap_insert. unfold encode_count at 1.
  unfold spec_lookup. destruct (bool_decide_reflect (bucket_of a p !! k = None)) as [E|E].
  - rewrite map_size_insert_None by done. do 2 f_equal. lia.
  - destruct (bucket_of a p !! k) as [x|] eqn:Ek; [|done].
    rewrite map_size_insert_Some by eauto. apply insert_id.
    destruct (lookup_bucket a p k x Ek) as (kv & Ekv & _). rewrite lookup_fmap.
    unfold bucket_of. by rewrite Ekv.
Qed.

Lemma put_tx a b p k v n b1 b2 b3 b4 b5 :
  tx_rel a b → n = N.of_nat (size (bucket_of a p)) →
  (if HasBucket b (pluginPath p) then Ok b
   else map_err ErrBackend (CreateBucketIfNotExists b (pluginPath p))) = Ok b1 →
  Put b1 (pluginPath p) k (encodeRecord (sp_counter a + 1) v) = Ok b2 →
  (if bool_decide (spec_lookup a p k = None) then putUint64 b2 counts p (n + 1) else Ok b2) = Ok b3 →
  Put b3 meta keyCounter (PutUint64 (sp_counter a + 1)) = Ok b4 →
  Put b4 meta keyTotalBytes (PutUint64 (Z.to_N (spec_total (put_entry a p k v)))) = Ok b5 →
  tx_rel (put_entry a p k v) b5.
Proof.
  intros H Hn Hb1 Hb2 Hb3 Hb4 Hb5.
  destruct (ensure_bucket _ _ _ _ H Hb1) as [V1 W1].
  assert (V2 := λ q, put_lookup _ _ _ _ _ q Hb2).
  assert (V3 : ∀ q, view b3 !! q =
    if decide (counts = q) then Some (encode_count <$> entries (put_entry a p k v)) else view b2 !! q).
  { intros q. rewrite (put_counts _ _ _ _ _ Hn).
    assert (Hc : view b2 !! counts = Some (encode_count <$> entries a)).
    { rewrite V2, decide_False, W1 by done. apply (tr_counts _ _ H). }
    destruct (bool_decide _).
    - apply map_err_ok in Hb3. rewrite (put_lookup _ _ _ _ _ _ Hb3).
      destruct (decide (counts = q)) as [<-|]; [|done]. by rewrite Hc.
    - inv_ok. destruct (decide (counts = q)) as [<-|]; done. }
  assert (Hother : ∀ q, q ≠ counts → q ≠ pluginPath p → view b3 !! q = view b !! q).
  { intros q H1 H2. rewrite V3, decide_False, V2, decide_False by congruence. auto. }
  destruct (tr_meta _ _ H) as (m & Hm & _).
  assert (Hm3 : view b3 !! meta = Some m) by by rewrite Hother.
  destruct (meta_puts (put_entry a p k v) b3 _ _ b4 b5 m Hm3 Hb4 Hb5 eq_refl eq_refl) as [Hmeta Hrest].
  split; [done| | | | |].
  - by rewrite Hrest, V3, decide_True.
  - intros q. rewrite Hrest, V3, decide_False by done. rewrite V2. simpl.
    destruct (decide (p = q)) as [<-|Hne].
    + rewrite decide_True, V1, lookup_insert_eq by done. simpl. unfold encode_bucket.
      by rewrite fmap_insert.
    + rewrite decide_False by path_ne.
      rewrite lookup_insert_ne by done. rewrite W1 by path_ne.
      apply (tr_bucket _ _ H).
  - intros q k'. rewrite Hrest, Hother by done. apply (tr_nested _ _ H).
  - rewrite Hrest, Hother by done. apply (tr_plugins _ _ H).
  - intros q. rewrite Hrest, Hother by done. apply (tr_flat _ _ H).
Qed.

Definition is_backend (e : stateErr) : bool :=
  match e with ErrBackend _ => true | _ => false end.

Lemma backend_err {A} (r : res string A) e : map_err ErrBackend r = Err e → is_backend e = true.
Proof. destruct r; simpl; [done|]. by intros [= <-]. Qed.

(** The uint64 arithmetic on the stored total does not wrap. *)
Lemma new_total l a p k v : limits_fit l → spec_inv l a → key_fits k → (len v ≤ maxV l)%Z →
  uint64_of (match spec_lookup a p k with
             | Some (_, w) => uint64_of (spec_total a - entrySize k w)
             | None => spec_total a end + entrySize k v) =
  (spec_total a - old_size k (spec_lookup a p k) + entrySize k v)%Z.
Proof.
  intros (? & ? & _) Hi Hk Hv. pose proof (inv_total _ _ Hi). pose proof (spec_total_nonneg a).
  unfold key_fits in Hk. pose proof (entrySize_nonneg k v).
  assert (entrySize k v < 2 ^ 63)%Z by (unfold entrySize; lia).
  destruct (spec_lookup a p k) as [[n w]|] eqn:E; simpl old_size.
  - destruct (lookup_version _ _ _ _ _ _ Hi E) as (_ & _ & ?). pose proof (entrySize_nonneg k w).
    rewrite (uint64_of_id (spec_total a - entrySize k w)) by (unfold uint64_max; lia).
    apply uint64_of_id. unfold uint64_max. lia.
  - rewrite uint64_of_id by (unfold uint64_max; lia). lia.
Qed.

Lemma set_tx l s a b p k v e c :
  limits_fit l → spec_inv l a → tx_rel a b → key_fits k →
  maxT l = maxTotalBytes s → maxK l = maxKeysPerPlugin s →
  p ≠ "" → k ≠ "" → (len v ≤ maxV l)%Z →
  match setTx s p k v e c b with
  | Err er => is_backend er = true ∨ spec_set l a p k v e c = (Err er, a)
  | Ok (b', (ok, ver)) =>
      tx_rel (spec_set l a p k v e c).2 b' ∧
      (spec_set l a p k v e c).1 = Ok (ok, if ok then ver else "")
  end.
Proof.
  intros Hf Hi H Hk HT HK Hp Hk0 Hv. unfold setTx, spec_set.
  rewrite (old_record _ _ _ _ _ Hi H). cbn [res_bind].
  rewrite (bool_decide_eq_false_2 (p = "")), (bool_decide_eq_false_2 (k = "")) by done. cbn [orb].
  rewrite (bool_decide_eq_false_2 (maxV l < len v)%Z) by lia.
  rewrite option_fmap_compose, casRefused_spec. destruct (refused _ _ _); [done|].
  assert (Hmiss : HasBucket b (pluginPath p) && bool_decide (Get b counts p = None) = false).
  { rewrite (has_plugin _ _ _ H), (get_count _ _ _ H). by destruct (entries a !! p). }
  rewrite Hmiss, <- HK, (count_value _ _ _ _ Hf Hi H).
  destruct (bool_decide (spec_lookup a p k = None) && _); [by right|].
  destruct (if HasBucket b _ then _ else _) as [b1|er] eqn:Hb1; cbn [res_bind];
    [|left; destruct (HasBucket b _); [done|]; by eapply backend_err].
  destruct (ensure_bucket _ _ _ _ H Hb1) as [V1 W1].
  assert (Hm1 : ∀ key, Get b1 meta key = Get b meta key) by (intros; by rewrite !get_view, W1).
  rewrite !Hm1, (total_value _ _ _ Hf Hi H), (counter_value _ _ _ Hi H).
  rewrite (new_total l a p k v Hf Hi Hk Hv), <- HT. cbv zeta.
  case_dec; [by right|]. case_dec; [by right|].
  rewrite <- put_entry_total.
  destruct (Put b1 _ k _) as [b2|er] eqn:Hb2; cbn [res_bind map_err]; [|by left].
  destruct (if bool_decide (spec_lookup a p k = None) then _ else _) as [b3|er] eqn:Hb3;
    cbn [res_bind];
    [|left; destruct (bool_decide (spec_lookup a p k = None)); [exact (backend_err _ _ Hb3)|done]].
  unfold putUint64 at 1. destruct (Put b3 _ _ _) as [b4|er] eqn:Hb4; cbn [res_bind map_err]; [|by left].
  unfold putUint64 at 1. destruct (Put b4 _ _ _) as [b5|er] eqn:Hb5; cbn [res_bind map_err]; [|by left].
  split; [|done]. eapply (put_tx a b p k v (readUint64 (Get b counts p))); eauto.
  pose proof (count_value _ _ _ p Hf Hi H). lia.
Qed.

(** ** Deletes *)

(** The state of a delete transaction after the key and the byte total are
    written and before the key count is. *)
Record mid (a : spec) (p k : string) (kv : bucket) (b : bolt) : Prop := {
  mid_meta : ∃ m, view b !! meta = Some m ∧ m !! keyCounter = Some (PutUint64 (sp_counter a)) ∧
    m !! keyTotalBytes = Some (PutUint64 (Z.to_N (spec_total (drop_entry a p k))));
  mid_counts : view b !! counts = Some (encode_count <$> entries a);
  mid_plugin : view b !! pluginPath p = Some (encode_bucket (delete k kv));
  mid_others : ∀ q, q ≠ p → view b !! pluginPath q = encode_bucket <$> entries a !! q;
  mid_nested : ∀ q k', view b !! [bucketPlugins; q; k'] = None;
  mid_plugins : view b !! [bucketPlugins] = Some ∅;
  mid_flat : ∀ q, view b !! [bucketPluginCounts; q] = None }.

Lemma delete_mid a b p k kv b1 b2 :
  tx_rel a b → entries a !! p = Some kv →
  DeleteKey b (pluginPath p) k = Ok b1 →
  Put b1 meta keyTotalBytes (PutUint64 (Z.to_N (spec_total (drop_entry a p k)))) = Ok b2 →
  mid a p k kv b2.
Proof.
  intros H Ekv Hb1 Hb2.
  assert (V1 := λ q, delete_lookup _ _ _ _ q Hb1). assert (V2 := λ q, put_lookup _ _ _ _ _ q Hb2).
  split.
  - destruct (tr_meta _ _ H) as (m & Hm & Hm1 & _).
    rewrite V2, decide_True, V1, decide_False, Hm by done. eexists. split; [done|].
    by rewrite lookup_insert_ne, lookup_insert_eq.
  - rewrite V2, decide_False, V1, decide_False by done. apply (tr_counts _ _ H).
  - rewrite V2, decide_False, V1, decide_True, (tr_bucket _ _ H), Ekv by done. simpl.
    unfold encode_bucket. by rewrite fmap_delete.
  - intros q Hq. rewrite V2, decide_False, V1, decide_False by path_ne.
    apply (tr_bucket _ _ H).
  - intros q k'. rewrite V2, decide_False, V1, decide_False by done. apply (tr_nested _ _ H).
  - rewrite V2, decide_False, V1, decide_False by done. apply (tr_plugins _ _ H).
  - intros q. rewrite V2, decide_False, V1, decide_False by done. apply (tr_flat _ _ H).
Qed.

(** The plugin's last key: its count and its bucket go. *)
Lemma mid_last a p k kv b b1 b2 :
  mid a p k kv b → bucket_of a p = kv → delete k kv = ∅ →
  DeleteKey b counts p = Ok b1 → DeleteBucket b1 (pluginPath p) = Ok b2 →
  tx_rel (drop_entry a p k) b2.
Proof.
  intros [Hm Hc Hp Ho Hn Hpl Hfl] Hbk Hemp Hb1 Hb2.
  assert (V1 := λ q, delete_lookup _ _ _ _ q Hb1). pose proof (drop_view _ _ _ Hb2) as V2.
  assert (He : entries (drop_entry a p k) = delete p (entries a)).
  { unfold drop_entry; simpl. by rewrite Hbk, bool_decide_eq_true_2. }
  assert (Hpre : ∀ x, ¬ pluginPath p `prefix_of` [x]).
  { intros x Hx%prefix_length. simpl in Hx. lia. }
  split.
  - by rewrite V2, bool_decide_eq_false_2, V1, decide_False by (done || apply Hpre).
  - rewrite V2, bool_decide_eq_false_2, V1, decide_True, Hc, He by (done || apply Hpre). simpl.
    by rewrite fmap_delete.
  - intros q. rewrite V2, He. destruct (decide (q = p)) as [->|Hne].
    + by rewrite bool_decide_eq_true_2, lookup_delete_eq.
    + rewrite bool_decide_eq_false_2, V1, decide_False, lookup_delete_ne, Ho; try done.
      intros [z Hz]. unfold pluginPath in Hz. simpl in Hz. congruence.
  - intros q k'. rewrite V2. case_dec; [done|]. by rewrite V1, decide_False.
  - by rewrite V2, bool_decide_eq_false_2, V1, decide_False by (done || apply Hpre).
  - intros q. rewrite V2. case_dec; [done|]. by rewrite V1, decide_False.
Qed.

Lemma mid_more a p k kv b b1 :
  mid a p k kv b → entries a !! p = Some kv → is_Some (kv !! k) → delete k kv ≠ ∅ →
  Put b counts p (PutUint64 (N.of_nat (size kv) - 1)) = Ok b1 →
  tx_rel (drop_entry a p k) b1.
Proof.
  intros [Hm Hc Hp Ho Hn Hpl Hfl] Ekv Hk Hne Hb1. assert (V1 := λ q, put_lookup _ _ _ _ _ q Hb1).
  assert (He : entries (drop_entry a p k) = <[p := delete k kv]> (entries a)).
  { unfold drop_entry, bucket_of; simpl. by rewrite Ekv; simpl; rewrite bool_decide_eq_false_2. }
  assert (Hcnt : encode_count (delete k kv) = PutUint64 (N.of_nat (size kv) - 1)).
  { unfold encode_count. rewrite map_size_delete. destruct Hk as [x ->]. f_equal. lia. }
  split.
  - by rewrite V1, decide_False.
  - rewrite V1, decide_True, Hc, He, fmap_insert by done. simpl. by rewrite Hcnt.
  - intros q. rewrite V1, decide_False, He by done. destruct (decide (q = p)) as [->|Hq].
    + by rewrite lookup_insert_eq.
    + rewrite lookup_insert_ne by done. auto.
  - intros q k'. by rewrite V1, decide_False.
  - by rewrite V1, decide_False.
  - intros q. by rewrite V1, decide_False.
Qed.

Lemma remove_tx l a b p k n v :
  limits_fit l → spec_inv l a → tx_rel a b → spec_lookup a p k = Some (n, v) →
  match removeTx b p k v with
  | Err er => is_backend er = true
  | Ok b' => tx_rel (drop_entry a p k) b'
  end.
Proof.
  intros Hf Hi H E. destruct (lookup_bucket _ _ _ _ E) as (kv & Ekv & Ek).
  destruct (lookup_version _ _ _ _ _ _ Hi E) as (_ & _ & Hsz).
  unfold removeTx. destruct (DeleteKey b _ k) as [b1|er] eqn:Hb1; cbn [res_bind map_err]; [|done].
  assert (G1 : Get b1 meta keyTotalBytes = Get b meta keyTotalBytes).
  { by rewrite !get_view, (delete_lookup _ _ _ _ _ Hb1), decide_False. }
  rewrite G1, (total_value _ _ _ Hf Hi H). unfold putUint64 at 1.
  assert (Htot : uint64_of (spec_total a - entrySize k v) = spec_total (drop_entry a p k)).
  { rewrite drop_entry_total, E. simpl. apply uint64_of_id.
    destruct Hf as (? & ? & _). pose proof (inv_total _ _ Hi). pose proof (entrySize_nonneg k v).
    unfold uint64_max. lia. }
  rewrite Htot. destruct (Put b1 _ _ _) as [b2|er] eqn:Hb2; cbn [res_bind map_err]; [|done].
  pose proof (delete_mid _ _ _ _ _ _ _ H Ekv Hb1 Hb2) as Hmid.
  assert (Hc : Get b2 counts p = Some (PutUint64 (N.of_nat (size kv)))).
  { rewrite get_view, (mid_counts _ _ _ _ _ Hmid). simpl. by rewrite lookup_fmap, Ekv. }
  rewrite Hc. unfold default, id.
  rewrite PutUint64_length, bool_decide_eq_true_2 by done. cbn [negb orb].
  destruct (inv_bucket _ _ Hi p kv Ekv) as (_ & Hs & _).
  assert (Hdel : size (delete k kv) = pred (size kv)) by (by rewrite map_size_delete, Ek).
  assert (Hsize : size kv ≠ 0).
  { intros H0. apply map_size_empty_iff in H0 as ->. done. }
  rewrite readUint64_Put by (unfold max_uint64; destruct Hf as (_ & _ & ?); lia).
  destruct (N.eqb_spec (N.of_nat (size kv)) 0); [lia|].
  destruct (N.eqb_spec (N.of_nat (size kv) - 1) 0).
  - destruct (DeleteKey b2 _ _) as [b3|er] eqn:Hb3; cbn [res_bind map_err]; [|done].
    destruct (DeleteBucket b3 _) as [b4|er] eqn:Hb4; cbn [map_err]; [|done].
    eapply mid_last; eauto; [unfold bucket_of; by rewrite Ekv|apply map_size_empty_iff; lia].
  - unfold putUint64. destruct (Put b2 _ _ _) as [b3|er] eqn:Hb3; cbn [map_err]; [|done].
    eapply mid_more; eauto. intros Hemp%map_size_empty_iff. lia.
Qed.

(** ** Every method *)

Definition op_fits (o : op) : Prop :=
  match o with
  | OpGet _ k | OpSet _ k _ | OpCAS _ k _ _ | OpDelete _ k | OpCAD _ k _ => key_fits k
  | _ => True
  end.

(** A response that reports a bbolt failure. *)
Definition resp_backend (r : resp) : bool :=
  match r with
  | RGet (Err e) | RDone (Err e) | RCAS (Err e) | RCAD (Err e) => is_backend e
  | _ => false
  end.

(** The version returned with a refused write carries no information: the
    memory backend returns the empty string and the bbolt backend ["0"]. *)
Definition norm (r : resp) : resp :=
  match r with RCAS (Ok (false, _)) => RCAS (Ok (false, "")) | _ => r end.

Lemma plugin_keys a b p : tx_rel a b →
  (if HasBucket b (pluginPath p) then Keys b (pluginPath p) else []) = sorted_keys (bucket_of a p).
Proof.
  intros H. rewrite (has_plugin _ _ _ H). unfold bucket_of.
  destruct (entries a !! p) as [kv|] eqn:E; simpl; [|done].
  destruct (keys_view b (pluginPath p)) as [Hs Hin]. apply str_sorted_keys; [done|].
  intros k. rewrite Hin, elem_of_dom, (get_record _ _ _ _ H), has_bucket_view.
  unfold spec_lookup, bucket_of. rewrite E. simpl. rewrite (tr_nested _ _ H), fmap_is_Some.
  split; [intros [?|?%bool_decide_eq_true]; [done|by apply is_Some_None in H0]|auto].
Qed.

Lemma plugin_len a b p : tx_rel a b →
  (if HasBucket b (pluginPath p) then Z.of_N (KeyN b (pluginPath p)) else 0%Z)
  = Z.of_nat (size (bucket_of a p)).
Proof.
  intros H. rewrite (has_plugin _ _ _ H). unfold bucket_of.
  pose proof (tr_bucket _ _ H p) as Hv. destruct (entries a !! p) as [kv|] eqn:E; simpl; [|done].
  rewrite (keyn_view _ _ _ Hv).
  - unfold encode_bucket. rewrite map_size_fmap. lia.
  - intros k. by rewrite has_bucket_view; simpl; rewrite (tr_nested _ _ H).
Qed.

(** [Update] with a transaction that meets a specification. *)
Lemma update_ok {A} l a s b (f : bolt → res stateErr (bolt * A)) (r : res stateErr A) a' g :
  bolt_refines l a s →
  match f b with
  | Err er => is_backend er = true ∨ (r = Err er ∧ a' = a)
  | Ok (b', x) => tx_rel a' b' ∧ r = Ok (g x)
  end →
  (∃ er, Update f b s = (Err er, s) ∧ is_backend er = true) ∨
  (bolt_refines l a' (Update f b s).2 ∧
   match (Update f b s).1 with Ok x => r = Ok (g x) | Err er => r = Err er end).
Proof.
  intros [Hdb Hro Hl] Hf. unfold Update. destruct (f b) as [[b' x]|er]; cbn [res_bind].
  - destruct Hf as [Htx ->]. destruct (Commit b') as [b''|er] eqn:Hc; cbn [res_bind map_err].
    + right. split; [|done]. split; simpl; auto. exists b''. split; [done|].
      apply commit_view in Hc. by apply (tx_rel_view _ b').
    + left. eauto.
  - destruct Hf as [Hb|[-> ->]]; [left; eauto|]. right. split; [by split|done].
Qed.

Lemma bolt_configured l a s : bolt_refines l a s → unconfigured s = false.
Proof.
  intros [(b & Hb & _) Hro _]. unfold unconfigured. by rewrite Hro, Hb.
Qed.

Definition set_obs (x : bool * string) : bool * string := (x.1, if x.1 then x.2 else "").

Lemma bolt_set l a s p k v e c :
  limits_fit l → spec_inv l a → key_fits k → bolt_refines l a s →
  (∃ er, set s p k v e c = (Err er, s) ∧ is_backend er = true) ∨
  (bolt_refines l (spec_set l a p k v e c).2 (set s p k v e c).2 ∧
   match (set s p k v e c).1 with
   | Ok x => (spec_set l a p k v e c).1 = Ok (set_obs x)
   | Err er => (spec_set l a p k v e c).1 = Err er end).
Proof.
  intros Hf Hi Hk H. unfold set, validateWrite. rewrite (bolt_configured _ _ _ H).
  destruct (br_limits _ _ _ H) as (HV & HT & HK). rewrite <- HV.
  destruct (bool_decide_reflect (p = "")) as [->|Hp]; [by right|].
  destruct (bool_decide_reflect (k = "")) as [->|Hk0].
  { right. unfold spec_set. rewrite (bool_decide_eq_false_2 _ Hp). by simpl. }
  case_dec.
  { right. unfold spec_set. rewrite (bool_decide_eq_false_2 _ Hp), (bool_decide_eq_false_2 _ Hk0).
    simpl. rewrite bool_decide_eq_true_2 by done. by simpl. }
  simpl. destruct (br_db _ _ _ H) as (b & -> & Htx). apply (update_ok _ a); [done|].
  pose proof (set_tx l s a b p k v e c Hf Hi Htx Hk HT HK Hp Hk0 ltac:(lia)) as Hs.
  destruct (setTx s p k v e c b) as [[b' [ok ver]]|er]; [done|].
  destruct Hs as [?|Hs]; [by left|right]. by rewrite Hs.
Qed.

Lemma delete_tx l a b p k :
  limits_fit l → spec_inv l a → tx_rel a b → p ≠ "" → k ≠ "" →
  match deleteTx p k b with
  | Err er => is_backend er = true ∨ (spec_delete a p k).1 = Err er ∧ (spec_delete a p k).2 = a
  | Ok (b', x) => tx_rel (spec_delete a p k).2 b' ∧ (spec_delete a p k).1 = Ok (id x)
  end.
Proof.
  intros Hf Hi H Hp Hk. unfold deleteTx, spec_delete.
  rewrite (bool_decide_eq_false_2 _ Hp), (bool_decide_eq_false_2 _ Hk); cbn [orb].
  rewrite (has_plugin _ _ _ H), (get_record _ _ _ _ H).
  destruct (spec_lookup a p k) as [[n v]|] eqn:E.
  - destruct (lookup_bucket _ _ _ _ E) as (kv & -> & _). cbn [fmap option_fmap option_map].
    destruct (lookup_version _ _ _ _ _ _ Hi E) as ((? & ?) & _).
    change (encode_entry (n, v)) with (encodeRecord n v).
    rewrite bool_decide_eq_true_2, decode_encode by eauto. cbn [negb].
    destruct (N.eqb_spec n 0); [lia|]. cbn [negb].
    pose proof (remove_tx l a b p k n v Hf Hi H E) as Hr.
    destruct (removeTx b p k v); cbn [res_bind]; [done|by left].
  - by destruct (negb _).
Qed.

Lemma compare_delete_tx l a b p k e :
  limits_fit l → spec_inv l a → tx_rel a b → p ≠ "" → k ≠ "" → e ≠ "" →
  match compareDeleteTx p k e b with
  | Err er => is_backend er = true ∨
      (spec_compare_delete a p k e).1 = Err er ∧ (spec_compare_delete a p k e).2 = a
  | Ok (b', x) => tx_rel (spec_compare_delete a p k e).2 b' ∧ (spec_compare_delete a p k e).1 = Ok (id x)
  end.
Proof.
  intros Hf Hi H Hp Hk He. unfold compareDeleteTx, spec_compare_delete.
  rewrite (bool_decide_eq_false_2 _ Hp), (bool_decide_eq_false_2 _ Hk), (bool_decide_eq_false_2 _ He);
    cbn [orb].
  rewrite (has_plugin _ _ _ H), (get_record _ _ _ _ H).
  destruct (spec_lookup a p k) as [[n v]|] eqn:E.
  - destruct (lookup_bucket _ _ _ _ E) as (kv & -> & _).
    destruct (lookup_version _ _ _ _ _ _ Hi E) as ((? & ?) & _).
    change (default "" (encode_entry <$> Some (n, v))) with (encodeRecord n v).
    rewrite bool_decide_eq_true_2, decode_encode by eauto. cbn [negb].
    destruct (N.eqb_spec n 0); [lia|]. cbn [negb orb].
    destruct (String.eqb (FormatUint n) e); cbn [negb]; [|done].
    pose proof (remove_tx l a b p k n v Hf Hi H E) as Hr.
    destruct (removeTx b p k v); cbn [res_bind]; [done|by left].
  - by destruct (negb _).
Qed.

Lemma bolt_get l a s p k :
  spec_inv l a → bolt_refines l a s → GetVersioned s p k = spec_get a p k.
Proof.
  intros Hi H. destruct (br_db _ _ _ H) as (b & Hdb & Htx).
  unfold GetVersioned, spec_get. rewrite (bolt_configured _ _ _ H), Hdb.
  destruct (_ || _); [done|].
  pose proof (old_record _ _ _ p k Hi Htx) as Ho. unfold oldRecord in Ho.
  destruct (HasBucket b _); cbn [negb].
  - destruct (Get b _ k) as [rec|]; [|by injection Ho as <-].
    destruct (decodeRecord rec) as [[n v] []]; [|done]. by injection Ho as <-.
  - by injection Ho as <-.
Qed.

Lemma bolt_step l a s o :
  limits_fit l → spec_inv l a → op_fits o → bolt_refines l a s →
  (resp_backend (step s o).1 = true ∧ (step s o).2 = s) ∨
  (norm (step s o).1 = (spec_step l a o).1 ∧ bolt_refines l (spec_step l a o).2 (step s o).2).
Proof.
  intros Hf Hi Hk H. pose proof (bolt_configured _ _ _ H) as Hu.
  destruct (br_db _ _ _ H) as (b & Hdb & Htx).
  destruct o as [p k|p k v|p k v e|p k|p k e|p|p|]; simpl in Hk |- *.
  - right. split; [|done]. simpl. f_equal. by apply (bolt_get l).
  - unfold Set_. destruct (bolt_set l a s p k v None false Hf Hi Hk H) as [(er & -> & ?)|[Hr Ho]];
      [by left|right].
    destruct (set s p k v None false) as [[x|er] s'], (spec_set l a p k v None false) as [r' a'];
      simpl in *; by subst.
  - unfold CompareAndSet.
    destruct (bolt_set l a s p k v e true Hf Hi Hk H) as [(er & -> & ?)|[Hr Ho]]; [by left|right].
    destruct (set s p k v e true) as [[[[] x]|er] s'], (spec_set l a p k v e true) as [r' a'];
      simpl in *; by subst.
  - unfold Delete. rewrite Hu, Hdb. destruct (bool_decide_reflect (p = "")) as [->|Hp]; [by right|].
    destruct (bool_decide_reflect (k = "")) as [->|Hk0].
    { right. unfold spec_delete. by rewrite (bool_decide_eq_false_2 _ Hp). }
    simpl. destruct (update_ok l a s b (deleteTx p k) (spec_delete a p k).1 (spec_delete a p k).2 id H)
      as [(er & -> & ?)|[Hr Ho]]; [by apply (delete_tx l)|by left|right].
    destruct (Update _ b s) as [[[]|er] s'], (spec_delete a p k) as [r' a']; simpl in *; by subst.
  - unfold CompareAndDelete. rewrite Hu, Hdb.
    destruct (bool_decide_reflect (e = "")) as [->|He]; [by right|].
    destruct (bool_decide_reflect (p = "")) as [->|Hp].
    { right. unfold spec_compare_delete. by rewrite (bool_decide_eq_false_2 _ He). }
    destruct (bool_decide_reflect (k = "")) as [->|Hk0].
    { right. unfold spec_compare_delete.
      by rewrite (bool_decide_eq_false_2 _ He), (bool_decide_eq_false_2 _ Hp). }
    simpl. destruct (update_ok l a s b (compareDeleteTx p k e) (spec_compare_delete a p k e).1
        (spec_compare_delete a p k e).2 id H)
      as [(er & -> & ?)|[Hr Ho]]; [by apply (compare_delete_tx l)|by left|right].
    destruct (Update _ b s) as [[x|er] s'], (spec_compare_delete a p k e) as [r' a']; simpl in *; by subst.
  - right. split; [|done]. simpl. f_equal. unfold StoreKeys, spec_keys. rewrite Hdb.
    case_dec; [done|]. by apply plugin_keys.
  - right. split; [|done]. simpl. f_equal. unfold Len. rewrite Hdb. by apply plugin_len.
  - right. split; [|done]. simpl. f_equal. unfold TotalBytes. rewrite Hdb. by eapply total_value.
Qed.
End Bolt.
