(* ===== verification/PluginStateOpen.v ===== *)
(** * Opening a database

    [validateDatabase] accepts exactly the databases that represent an abstract
    store within its quotas: acceptance gives the store ([validate_sound]), and
    every store the operations can reach is accepted again
    ([validate_complete]). *)

From stdpp Require Import base list strings gmap sets numbers pretty sorting.
From S2P Require Import Prelude ByteStrings PluginState PluginStateBolt.

Lemma decode_ok raw v t : decodeRecord raw = (v, t, true) →
  raw = encodeRecord v t ∧ (0 < v ≤ max_uint64)%N.
Proof.
  unfold decodeRecord. destruct (bool_decide_reflect (String.length raw < 8)); [done|].
  assert (Hl : String.length (str_take 8 raw) = 8).
  { do 8 (destruct raw as [|? raw]; [simpl in *; lia|]). done. }
  pose proof (str_take_drop 8 raw) as Hcat. revert Hl Hcat.
  generalize (str_take 8 raw), (str_drop 8 raw). intros x y Hl <- [= <- <- Hnz].
  apply negb_true_iff, N.eqb_neq in Hnz. split.
  - unfold encodeRecord, PutUint64, Uint64. by rewrite be_put_fold.
  - pose proof (Uint64_bound _ Hl). lia.
Qed.

Lemma read_put raw : String.length (default "" raw) = 8 →
  raw = Some (PutUint64 (readUint64 raw)) ∧ (readUint64 raw ≤ max_uint64)%N.
Proof.
  destruct raw as [r|]; [|done]. cbn [default from_option id]. unfold default, id. intros Hl.
  unfold readUint64. rewrite bool_decide_eq_true_2 by done.
  split; [|by apply Uint64_bound]. unfold PutUint64, Uint64. by rewrite be_put_fold.
Qed.

#[local] Arguments checkEntry : simpl never.

Section Open.
Context `{B : Bolt} {L : BoltLaws B}.

Definition limits_of (s : Store) : limits :=
  mkLimits (maxValueBytes s) (maxTotalBytes s) (maxKeysPerPlugin s).

(** What a stored record must be. *)
Definition entry_ok (s : Store) (b : bolt) (p k : string) (v : N) (t : string) : Prop :=
  k ≠ "" ∧ Get b (pluginPath p) k = Some (encodeRecord v t) ∧ (0 < v ≤ max_uint64)%N ∧
  (len t ≤ maxValueBytes s)%Z.

Lemma checkEntry_ok s b p d acc n k r :
  checkEntry s b p d (acc, n) k = Ok r ↔
  ∃ v t, entry_ok s b p k v t ∧ (sc_total acc + entrySize k t ≤ uint64_max)%Z ∧ (n + 1 ≤ d)%N ∧
    r = (mkScanState (sc_total acc + entrySize k t) (N.max (sc_highest acc) v), n + 1)%N.
Proof.
  unfold checkEntry, entry_ok. split.
  - destruct (Get b _ k) as [raw|]; [|done]. case_dec; [done|].
    destruct (decodeRecord raw) as [[v t] []] eqn:E; [|done]. simpl.
    apply decode_ok in E as [-> ?].
    do 3 (case_dec; [done|]). intros [= <-]. exists v, t.
    repeat split; try done; lia.
  - intros (v & t & (Hk & -> & Hv & Ht) & Hs & Hn & ->).
    rewrite bool_decide_eq_false_2, decode_encode by (done || lia).
    destruct (N.eqb_spec v 0); [lia|]. simpl.
    rewrite !bool_decide_eq_false_2 by lia. done.
Qed.

(** The value a stored record decodes to. *)
Definition record_at (b : bolt) (p k : string) : N * string :=
  (decodeRecord (default "" (Get b (pluginPath p) k))).1.

Lemma entry_record s b p k v t : entry_ok s b p k v t → record_at b p k = (v, t).
Proof.
  intros (_ & Hg & Hv & _). unfold record_at. rewrite Hg. unfold default, id.
  rewrite decode_encode by lia. done.
Qed.

Definition key_bytes (b : bolt) (p k : string) : Z := entrySize k (record_at b p k).2.

Lemma check_entries s b p d ks acc n r :
  foldM (checkEntry s b p d) (acc, n) ks = Ok r →
  Forall (λ k, ∃ v t, entry_ok s b p k v t ∧ (v ≤ sc_highest r.1)%N) ks ∧
  sc_total r.1 = (sc_total acc + list_sum (key_bytes b p) ks)%Z ∧
  (sc_highest acc ≤ sc_highest r.1)%N ∧ r.2 = (n + N.of_nat (length ks))%N.
Proof.
  revert acc n; induction ks as [|k ks IH]; intros acc n; simpl.
  - intros [= <-]. simpl. repeat split; auto; lia.
  - intros (r1 & (v & t & He & Hs & Hn & ->)%checkEntry_ok & H)%res_bind_ok.
    apply IH in H as (Hall & Htot & Hhi & Hr). simpl in *.
    assert (key_bytes b p k = entrySize k t) by (unfold key_bytes; by rewrite (entry_record _ _ _ _ _ _ He)).
    split; [|split; [|split]]; [|lia|lia|lia].
    constructor; [|done]. exists v, t. split; [done|lia].
Qed.

Lemma check_entries_complete s b p d c ks acc n :
  Forall (λ k, ∃ v t, entry_ok s b p k v t ∧ (v ≤ c)%N) ks →
  (0 ≤ sc_total acc)%Z → (sc_total acc + list_sum (key_bytes b p) ks ≤ uint64_max)%Z →
  (n + N.of_nat (length ks) ≤ d)%N → (sc_highest acc ≤ c)%N →
  ∃ h n', foldM (checkEntry s b p d) (acc, n) ks
        = Ok (mkScanState (sc_total acc + list_sum (key_bytes b p) ks) h, n') ∧ (h ≤ c)%N.
Proof.
  intros Hall. revert acc n; induction Hall as [|k ks (v & t & He & Hv) Hall IH];
    intros acc n H0 Hs Hn Hh; simpl in *.
  - exists (sc_highest acc), n. rewrite Z.add_0_r. by destruct acc.
  - assert (Hkb : key_bytes b p k = entrySize k t)
      by (unfold key_bytes; by rewrite (entry_record _ _ _ _ _ _ He)).
    assert (Hnn : (0 ≤ list_sum (key_bytes b p) ks)%Z).
    { clear. induction ks as [|k ks IH]; simpl; [done|]. unfold key_bytes at 1.
      pose proof (entrySize_nonneg k (record_at b p k).2). lia. }
    pose proof (entrySize_nonneg k t).
    destruct (IH (mkScanState (sc_total acc + entrySize k t) (N.max (sc_highest acc) v)) (n + 1)%N)
      as (h & n' & E & Hle); simpl; try lia.
    exists h, n'. split; [|done].
    rewrite (proj2 (checkEntry_ok s b p d acc n k _)) by (exists v, t; repeat split; try apply He; lia).
    simpl. rewrite E. do 3 f_equal. simpl. lia.
Qed.

Definition plugin_bytes (b : bolt) (p : string) : Z := list_sum (key_bytes b p) (Keys b (pluginPath p)).

Record plugin_ok (s : Store) (b : bolt) (h : N) (p : string) : Prop := {
  po_name : p ≠ "";
  po_value : Get b [bucketPlugins] p = None;
  po_bucket : HasBucket b (pluginPath p) = true;
  po_count : String.length (default "" (Get b counts p)) = 8;
  po_declared : (Z.of_N (readUint64 (Get b counts p)) ≤ maxKeysPerPlugin s)%Z;
  po_entries : Forall (λ k, ∃ v t, entry_ok s b p k v t ∧ (v ≤ h)%N) (Keys b (pluginPath p)) }.

Lemma plugin_ok_mono s b h h' p : (h ≤ h')%N → plugin_ok s b h p → plugin_ok s b h' p.
Proof.
  intros Hh []. split; auto. eapply Forall_impl; [done|].
  intros k (v & t & ? & ?). exists v, t. split; [done|lia].
Qed.

Lemma checkPlugin_ok s b acc p acc' :
  checkPlugin s b acc p = Ok acc' →
  plugin_ok s b (sc_highest acc') p ∧ sc_total acc' = (sc_total acc + plugin_bytes b p)%Z ∧
  (sc_highest acc ≤ sc_highest acc')%N.
Proof.
  unfold checkPlugin. intros H.
  destruct (_ || _) eqn:E1 in H; [done|]. apply orb_false_iff in E1 as [E1 E2].
  destruct (HasBucket b (pluginPath p)) eqn:E3; [|done]. simpl in H.
  destruct (bool_decide (String.length _ = 8)) eqn:E4 in H; [|done]. simpl in H.
  destruct (bool_decide (maxKeysPerPlugin s < _)%Z) eqn:E5 in H; [done|].
  apply res_bind_ok in H as ([a n] & H & [= <-]). apply check_entries in H as (? & ? & ? & _).
  apply bool_decide_eq_false in E1, E2, E5. apply bool_decide_eq_true in E4.
  split; [|done]. split; auto; [by apply eq_None_not_Some|lia].
Qed.

Lemma check_plugins s b ns acc acc' :
  foldM (checkPlugin s b) acc ns = Ok acc' →
  Forall (plugin_ok s b (sc_highest acc')) ns ∧
  sc_total acc' = (sc_total acc + list_sum (plugin_bytes b) ns)%Z ∧
  (sc_highest acc ≤ sc_highest acc')%N.
Proof.
  revert acc; induction ns as [|p ns IH]; intros acc; simpl.
  - intros [= <-]. split; [done|lia].
  - intros (a1 & (Hp & Ht & Hh)%checkPlugin_ok & (Hall & Ht' & Hh')%IH)%res_bind_ok.
    split; [|lia]. constructor; [by eapply plugin_ok_mono|done].
Qed.

Lemma check_counts b ns : foldM (checkCount b) tt ns = Ok tt →
  Forall (λ p, String.length (default "" (Get b counts p)) = 8 ∧ HasBucket b (pluginPath p) = true ∧
               KeyN b (pluginPath p) = readUint64 (Get b counts p)) ns.
Proof.
  induction ns as [|p ns IH]; simpl; [done|]. intros ([] & H & Hns)%res_bind_ok.
  constructor; [|auto]. unfold checkCount in H.
  destruct (_ || _) eqn:E1 in H; [done|]. apply orb_false_iff in E1 as [E1 E2].
  apply orb_false_iff in E1 as [_ E1]. apply negb_false_iff in E1, E2. apply bool_decide_eq_true in E1.
  destruct (N.eqb_spec (KeyN b (pluginPath p)) (readUint64 (Get b counts p))); done.
Qed.

(** The abstract store a database represents. *)
Definition abstract (b : bolt) : spec :=
  mkSpec (map_imap (λ p _, Some ((λ raw, (decodeRecord raw).1) <$> default ∅ (view b !! pluginPath p)))
            (gset_to_gmap tt (list_to_set (Keys b [bucketPlugins]) : gset string)))
    (readUint64 (Get b meta keyCounter)).

Lemma abstract_lookup b p : entries (abstract b) !! p =
  (λ m : gmap string string, (λ raw, (decodeRecord raw).1) <$> m) <$>
    (if decide (p ∈ Keys b [bucketPlugins]) then Some (default ∅ (view b !! pluginPath p)) else None).
Proof.
  unfold abstract; simpl. rewrite map_lookup_imap. destruct (decide _) as [Hin|Hin].
  - rewrite (proj2 (lookup_gset_to_gmap_Some tt _ p tt)); [done|].
    split; [by apply elem_of_list_to_set|done].
  - rewrite (proj2 (lookup_gset_to_gmap_None tt _ p)); [done|].
    by rewrite elem_of_list_to_set.
Qed.

(** What acceptance says, as facts about the buckets. *)
Record accepted (s : Store) (b : bolt) : Prop := {
  ac_buckets : HasBucket b meta = true ∧ HasBucket b [bucketPlugins] = true ∧ HasBucket b counts = true;
  ac_meta : String.length (default "" (Get b meta keyCounter)) = 8 ∧
            String.length (default "" (Get b meta keyTotalBytes)) = 8;
  ac_plugins : Forall (plugin_ok s b (readUint64 (Get b meta keyCounter))) (Keys b [bucketPlugins]);
  ac_counts : Forall (λ p, String.length (default "" (Get b counts p)) = 8 ∧
     HasBucket b (pluginPath p) = true ∧
     KeyN b (pluginPath p) = readUint64 (Get b counts p)) (Keys b counts);
  ac_total : Z.of_N (readUint64 (Get b meta keyTotalBytes)) = list_sum (plugin_bytes b) (Keys b [bucketPlugins]);
  ac_limit : (Z.of_N (readUint64 (Get b meta keyTotalBytes)) ≤ maxTotalBytes s)%Z }.

Lemma validate_accepted s b : validateDatabase s b = Ok tt → accepted s b.
Proof.
  unfold validateDatabase. intros H.
  destruct (_ || _) eqn:E in H; [done|]. repeat rewrite orb_false_iff in E.
  destruct E as ((((E1 & E2) & E3) & E4) & E5). apply negb_false_iff in E1, E2, E3, E4, E5.
  apply bool_decide_eq_true in E4, E5.
  apply res_bind_ok in H as (acc & (Hp & Ht & _)%check_plugins & H).
  apply res_bind_ok in H as ([] & Hc%check_counts & H).
  destruct (Z.eqb_spec (sc_total acc) (Z.of_N (readUint64 (Get b meta keyTotalBytes)))) as [Ez|]; [|done].
  destruct (bool_decide_reflect (maxTotalBytes s < sc_total acc)%Z); [done|].
  destruct (bool_decide_reflect (readUint64 (Get b meta keyCounter) < sc_highest acc)%N); [done|].
  simpl in Ht. split; auto; [|lia|lia].
  eapply Forall_impl; [exact Hp|]. intros p. apply plugin_ok_mono. lia.
Qed.

Section Accepted.
Context (s : Store) (b : bolt) (H : accepted s b).

Definition decode_bucket (m : gmap string string) : bucket := (λ raw, (decodeRecord raw).1) <$> m.

Lemma plugin_listed p : p ∈ Keys b [bucketPlugins] ↔ HasBucket b (pluginPath p) = true.
Proof.
  destruct (keys_view b [bucketPlugins]) as [_ ->]. split; [|by right].
  intros [Hg|?]; [|done]. exfalso.
  assert (Hin : p ∈ Keys b [bucketPlugins]) by (apply keys_view; by left).
  pose proof (ac_plugins _ _ H) as Hall. rewrite Forall_forall in Hall.
  pose proof (po_value _ _ _ _ (Hall p Hin)) as Hn. rewrite Hn in Hg. by destruct Hg.
Qed.

Lemma plugin_facts p m : view b !! pluginPath p = Some m →
  plugin_ok s b (readUint64 (Get b meta keyCounter)) p.
Proof.
  intros Hm. pose proof (ac_plugins _ _ H) as Hall. rewrite Forall_forall in Hall.
  apply Hall, plugin_listed. by rewrite has_bucket_view, Hm.
Qed.

Lemma abstract_bucket p : entries (abstract b) !! p = decode_bucket <$> view b !! pluginPath p.
Proof.
  rewrite abstract_lookup. pose proof (plugin_listed p) as Hl. rewrite has_bucket_view in Hl.
  destruct (decide _) as [Hin|Hin].
  - apply Hl, bool_decide_eq_true in Hin as [m ->]. done.
  - destruct (view b !! pluginPath p) as [m|]; [|done]. destruct Hin. by apply Hl.
Qed.

Lemma stored_entry p m k raw :
  view b !! pluginPath p = Some m → m !! k = Some raw →
  ∃ v t, raw = encodeRecord v t ∧ entry_ok s b p k v t ∧ (v ≤ readUint64 (Get b meta keyCounter))%N.
Proof.
  intros Hm Hk. assert (Hg : Get b (pluginPath p) k = Some raw) by (by rewrite get_view, Hm).
  pose proof (po_entries _ _ _ _ (plugin_facts p m Hm)) as Hall. rewrite Forall_forall in Hall.
  destruct (Hall k) as (v & t & He & Hv).
  { apply keys_view. left. by rewrite Hg. }
  exists v, t. split; [|done]. destruct He as (_ & Hg' & _). congruence.
Qed.

Lemma decode_stored p m k raw v t :
  view b !! pluginPath p = Some m → m !! k = Some raw → (decodeRecord raw).1 = (v, t) →
  entry_ok s b p k v t ∧ (v ≤ readUint64 (Get b meta keyCounter))%N ∧ raw = encodeRecord v t.
Proof.
  intros Hm Hk. destruct (stored_entry p m k raw Hm Hk) as (v' & t' & -> & He & Hv).
  rewrite decode_encode by (destruct He as (_ & _ & ? & _); lia). by intros [= <- <-].
Qed.

Lemma no_nested p k : view b !! [bucketPlugins; p; k] = None.
Proof.
  destruct (view b !! [bucketPlugins; p; k]) as [m|] eqn:E; [exfalso|done].
  assert (Hb : HasBucket b (pluginPath p ++ [k]) = true).
  { rewrite has_bucket_view. unfold pluginPath; simpl. by rewrite E. }
  pose proof (parent_view _ _ _ Hb) as Hp. rewrite has_bucket_view in Hp.
  apply bool_decide_eq_true in Hp as [mp Hmp].
  pose proof (po_entries _ _ _ _ (plugin_facts p mp Hmp)) as Hall. rewrite Forall_forall in Hall.
  destruct (Hall k) as (v & t & (_ & Hg & _) & _); [apply keys_view; by right|].
  by rewrite (nested_view _ _ _ Hb) in Hg.
Qed.

Lemma key_count p m : view b !! pluginPath p = Some m →
  Get b counts p = Some (PutUint64 (N.of_nat (size m))) ∧ (Z.of_nat (size m) ≤ maxKeysPerPlugin s)%Z.
Proof.
  intros Hm. destruct (plugin_facts p m Hm) as [_ _ _ Hl Hd _].
  destruct (read_put _ Hl) as [Hr _].
  pose proof (ac_counts _ _ H) as Hall. rewrite Forall_forall in Hall.
  destruct (Hall p) as (_ & _ & HN); [apply keys_view; left; by rewrite Hr|].
  rewrite (keyn_view b (pluginPath p) m Hm) in HN.
  - rewrite <- HN in Hr, Hd. split; [done|lia].
  - intros k. rewrite has_bucket_view. unfold pluginPath; simpl. by rewrite no_nested.
Qed.

Lemma abstract_total :
  spec_total (abstract b) = Z.of_N (readUint64 (Get b meta keyTotalBytes)).
Proof.
  rewrite (ac_total _ _ H). unfold spec_total. apply map_sum_keys.
  - apply str_sorted_nodup, keys_view.
  - intros p. rewrite plugin_listed, abstract_bucket, fmap_is_Some, has_bucket_view.
    apply bool_decide_eq_true.
  - intros p bk. rewrite abstract_bucket. intros (m & Hm & ->)%fmap_Some.
    unfold bucket_bytes, plugin_bytes. apply map_sum_keys.
    + apply str_sorted_nodup, keys_view.
    + intros k. destruct (keys_view b (pluginPath p)) as [_ ->].
      rewrite get_view, Hm. unfold decode_bucket. simpl. rewrite lookup_fmap, fmap_is_Some.
      split; [|by left]. intros [?|Hn]; [done|]. rewrite has_bucket_view in Hn.
      unfold pluginPath in Hn; simpl in Hn. by rewrite no_nested in Hn.
    + intros k [v t]. unfold decode_bucket. rewrite lookup_fmap. intros (raw & Hraw & Hd)%fmap_Some.
      destruct (decode_stored p m k raw v t Hm Hraw (eq_sym Hd)) as (He & _ & _).
      unfold key_bytes. by rewrite (entry_record _ _ _ _ _ _ He).
Qed.

Lemma accepted_inv : spec_inv (limits_of s) (abstract b).
Proof.
  split.
  - intros p bk. rewrite abstract_bucket. intros (m & Hm & ->)%fmap_Some.
    split; [apply (plugin_facts p m Hm)|]. split.
    + unfold decode_bucket. rewrite map_size_fmap. simpl. apply (key_count p m Hm).
    + intros k v t. unfold decode_bucket. rewrite lookup_fmap. intros (raw & Hraw & Hd)%fmap_Some.
      destruct (decode_stored p m k raw v t Hm Hraw (eq_sym Hd)) as ((Hk & _ & Hv & Ht) & Hc & _).
      simpl. repeat split; try done; lia.
  - rewrite abstract_total. apply (ac_limit _ _ H).
  - simpl. by apply read_put, (ac_meta _ _ H).
Qed.

Lemma accepted_rel : tx_rel (abstract b) b.
Proof.
  split.
  - destruct (ac_buckets _ _ H) as (Hm & _). rewrite has_bucket_view in Hm.
    apply bool_decide_eq_true in Hm as [m Hm]. exists m. split; [done|].
    destruct (ac_meta _ _ H) as [H1 H2]. apply read_put in H1 as [H1 _], H2 as [H2 _].
    rewrite abstract_total, N2Z.id. simpl. rewrite get_view, Hm in H1. rewrite get_view, Hm in H2.
    simpl in H1, H2. split.
    + rewrite H1 at 1. rewrite get_view, Hm. done.
    + rewrite H2 at 1. rewrite get_view, Hm. done.
  - destruct (ac_buckets _ _ H) as (_ & _ & Hc). rewrite has_bucket_view in Hc.
    apply bool_decide_eq_true in Hc as [mc Hc]. rewrite Hc. f_equal. apply map_eq. intros p.
    rewrite lookup_fmap, abstract_bucket.
    assert (Hg : mc !! p = Get b counts p) by (by rewrite get_view, Hc). rewrite Hg.
    destruct (view b !! pluginPath p) as [m|] eqn:Hm; simpl.
    + rewrite (proj1 (key_count p m Hm)). unfold encode_count, decode_bucket. by rewrite map_size_fmap.
    + destruct (Get b counts p) eqn:E; [exfalso|done].
      pose proof (ac_counts _ _ H) as Hall. rewrite Forall_forall in Hall.
      destruct (Hall p) as (_ & Hb & _); [apply keys_view; left; by rewrite E|].
      rewrite has_bucket_view, Hm in Hb. done.
  - intros p. rewrite abstract_bucket. destruct (view b !! pluginPath p) as [m|] eqn:Hm; simpl; [|done].
    f_equal. unfold encode_bucket, decode_bucket. rewrite <- map_fmap_compose.
    apply map_eq. intros k. rewrite lookup_fmap. destruct (m !! k) as [raw|] eqn:Hk; simpl; [|done].
    destruct ((decodeRecord raw).1) as [v t] eqn:E.
    destruct (decode_stored p m k raw v t Hm Hk E) as (_ & _ & ->). done.
  - apply no_nested.
  - destruct (ac_buckets _ _ H) as (_ & Hp & _). rewrite has_bucket_view in Hp.
    apply bool_decide_eq_true in Hp as [m Hm]. rewrite Hm. f_equal. apply map_empty. intros k.
    destruct (m !! k) eqn:Hk; [exfalso|done].
    assert (Hg : is_Some (Get b [bucketPlugins] k)) by (rewrite get_view, Hm; simpl; by rewrite Hk).
    pose proof (ac_plugins _ _ H) as Hall. rewrite Forall_forall in Hall.
    destruct (Hall k) as [_ Hn _ _ _ _]; [apply keys_view; by left|].
    rewrite Hn in Hg. by destruct Hg.
  - intros p. destruct (view b !! [bucketPluginCounts; p]) eqn:E; [exfalso|done].
    assert (Hb : HasBucket b (counts ++ [p]) = true) by (rewrite has_bucket_view; simpl; by rewrite E).
    pose proof (ac_counts _ _ H) as Hall. rewrite Forall_forall in Hall.
    destruct (Hall p) as (Hl & _); [apply keys_view; by right|].
    by rewrite (nested_view _ _ _ Hb) in Hl.
Qed.
End Accepted.

Section Complete.
Context (s : Store) (a : spec) (b : bolt).
Hypothesis fit : limits_fit (limits_of s).
Hypothesis inv : spec_inv (limits_of s) a.
Hypothesis rel : tx_rel a b.

Lemma listed_plugins p : p ∈ Keys b [bucketPlugins] ↔ is_Some (entries a !! p).
Proof.
  destruct (keys_view b [bucketPlugins]) as [_ ->].
  rewrite get_view, (tr_plugins _ _ rel). simpl. rewrite lookup_empty.
  change [bucketPlugins; p] with (pluginPath p). rewrite (has_plugin _ _ _ rel), bool_decide_eq_true.
  split; [by intros [[]|]|by right].
Qed.

Lemma listed_keys p kv k : entries a !! p = Some kv →
  k ∈ Keys b (pluginPath p) ↔ is_Some (kv !! k).
Proof.
  intros E. destruct (keys_view b (pluginPath p)) as [_ ->].
  rewrite (get_record _ _ _ _ rel), fmap_is_Some, has_bucket_view.
  unfold spec_lookup, bucket_of. rewrite E. simpl. rewrite (tr_nested _ _ rel).
  split; [|by left]. by intros [?|?].
Qed.

Lemma entry_complete p kv k n v : entries a !! p = Some kv → kv !! k = Some (n, v) →
  entry_ok s b p k n v ∧ (n ≤ sp_counter a)%N.
Proof.
  intros E Ek. destruct (inv_bucket _ _ inv p kv E) as (_ & _ & Hall).
  destruct (Hall k n v Ek) as (Hk & Hv & Hn). pose proof (inv_counter _ _ inv).
  split; [|lia]. unfold entry_ok. rewrite (get_record _ _ _ _ rel).
  unfold spec_lookup, bucket_of. rewrite E. simpl. rewrite Ek. repeat split; done || lia.
Qed.

Lemma bucket_listed p kv : entries a !! p = Some kv →
  bucket_bytes kv = plugin_bytes b p ∧ length (Keys b (pluginPath p)) = size kv.
Proof.
  intros E. destruct (keys_view b (pluginPath p)) as [Hs _]. split.
  - apply map_sum_keys; [by apply str_sorted_nodup|intros; by apply listed_keys|].
    intros k [n v] Ek. destruct (entry_complete p kv k n v E Ek) as [He _].
    unfold key_bytes. by rewrite (entry_record _ _ _ _ _ _ He).
  - rewrite <- size_dom. rewrite <- (size_list_to_set (C:=gset string)) by by apply str_sorted_nodup.
    f_equal. apply set_eq. intros k. rewrite elem_of_list_to_set, elem_of_dom. by apply listed_keys.
Qed.

Lemma plugin_complete p acc :
  is_Some (entries a !! p) → (0 ≤ sc_total acc)%Z → (sc_highest acc ≤ sp_counter a)%N →
  (sc_total acc + plugin_bytes b p ≤ uint64_max)%Z →
  ∃ h, checkPlugin s b acc p = Ok (mkScanState (sc_total acc + plugin_bytes b p) h) ∧
       (h ≤ sp_counter a)%N.
Proof.
  intros [kv E] H0 Hh Ht. unfold checkPlugin.
  destruct (inv_bucket _ _ inv p kv E) as (Hp & Hs & Hall).
  rewrite (bool_decide_eq_false_2 _ Hp), get_view, (tr_plugins _ _ rel). cbn [mbind option_bind].
  rewrite lookup_empty, (has_plugin _ _ _ rel), E.
  rewrite (bool_decide_eq_false_2 (is_Some None)) by by intros []. simpl negb. cbn [orb].
  rewrite (get_count _ _ _ rel), E. cbn [fmap option_fmap option_map].
  unfold default, id. unfold encode_count at 1. rewrite put_len8. cbn [negb]. unfold encode_count. destruct fit as (_ & _ & HK). simpl in Hs, HK.
  rewrite readUint64_Put by (unfold max_uint64; lia). rewrite bool_decide_eq_false_2 by lia.
  destruct (check_entries_complete s b p (N.of_nat (size kv)) (sp_counter a)
              (Keys b (pluginPath p)) acc 0) as (h & n' & -> & Hle); auto.
  - apply Forall_forall. intros k Hk. apply (listed_keys p kv k E) in Hk as [[n v] Hk].
    exists n, v. by eapply entry_complete.
  - rewrite (proj2 (bucket_listed p kv E)). lia.
  - simpl. eauto.
Qed.

Lemma plugin_bytes_nonneg p : (0 ≤ plugin_bytes b p)%Z.
Proof.
  unfold plugin_bytes. induction (Keys b (pluginPath p)) as [|k ks IH]; simpl; [done|].
  unfold key_bytes at 1. pose proof (entrySize_nonneg k (record_at b p k).2). lia.
Qed.

Lemma plugins_complete ns acc :
  (∀ p, p ∈ ns → is_Some (entries a !! p)) → (0 ≤ sc_total acc)%Z →
  (sc_highest acc ≤ sp_counter a)%N → (sc_total acc + list_sum (plugin_bytes b) ns ≤ uint64_max)%Z →
  ∃ h, foldM (checkPlugin s b) acc ns = Ok (mkScanState (sc_total acc + list_sum (plugin_bytes b) ns) h) ∧
       (h ≤ sp_counter a)%N.
Proof.
  revert acc; induction ns as [|p ns IH]; intros acc Hin H0 Hh Ht; simpl in *.
  - exists (sc_highest acc). rewrite Z.add_0_r. by destruct acc.
  - assert (Hnn : (0 ≤ list_sum (plugin_bytes b) ns)%Z).
    { clear. induction ns as [|p ns IH]; simpl; [done|]. pose proof (plugin_bytes_nonneg p). lia. }
    pose proof (plugin_bytes_nonneg p).
    destruct (plugin_complete p acc) as (h & -> & Hle); [apply Hin; left|done|done|lia|]. simpl.
    destruct (IH (mkScanState (sc_total acc + plugin_bytes b p) h)) as (h' & -> & Hle'); simpl; try lia.
    { intros q Hq. apply Hin. by right. }
    exists h'. split; [|done]. do 2 f_equal. lia.
Qed.

Lemma counts_complete ns :
  (∀ p, p ∈ ns → is_Some (entries a !! p)) → foldM (checkCount b) tt ns = Ok tt.
Proof.
  induction ns as [|p ns IH]; intros Hin; simpl; [done|].
  assert (checkCount b tt p = Ok tt) as ->; [|simpl; apply IH; intros q Hq; apply Hin; by right].
  destruct (Hin p) as [kv E]; [left|]. unfold checkCount.
  destruct (inv_bucket _ _ inv p kv E) as (Hp & Hs & _).
  rewrite (bool_decide_eq_false_2 _ Hp), (get_count _ _ _ rel), (has_plugin _ _ _ rel), E.
  cbn [fmap option_fmap option_map]. unfold default, id. unfold encode_count at 1.
  rewrite put_len8. simpl.
  pose proof (tr_bucket _ _ rel p) as Hv. rewrite E in Hv.
  rewrite (keyn_view _ _ _ Hv).
  - unfold encode_count, encode_bucket. destruct fit as (_ & _ & HK). simpl in Hs, HK.
    rewrite readUint64_Put, map_size_fmap by (unfold max_uint64; lia). by rewrite N.eqb_refl.
  - intros k. by rewrite has_bucket_view; simpl; rewrite (tr_nested _ _ rel).
Qed.

Lemma validate_complete : validateDatabase s b = Ok tt.
Proof.
  unfold validateDatabase.
  rewrite !has_bucket_view, (tr_counts _ _ rel), (tr_plugins _ _ rel).
  destruct (tr_meta _ _ rel) as (m & -> & _). destruct (get_meta _ _ rel) as [-> ->].
  unfold default, id. rewrite !put_len8.
  assert (Hsome : ∀ x : gmap string string, bool_decide (is_Some (Some x)) = true) by done.
  rewrite !Hsome. cbn [negb orb].
  assert (Htot : list_sum (plugin_bytes b) (Keys b [bucketPlugins]) = spec_total a).
  { symmetry. apply map_sum_keys.
    - apply str_sorted_nodup, keys_view.
    - apply listed_plugins.
    - intros p kv E. by apply bucket_listed. }
  destruct fit as (_ & HT & _). pose proof (inv_total _ _ inv) as Ht. pose proof (spec_total_nonneg a).
  simpl in HT, Ht.
  destruct (plugins_complete (Keys b [bucketPlugins]) (mkScanState 0 0)) as (h & -> & Hle);
    cbn [sc_total sc_highest res_bind].
  { intros p. by apply listed_plugins. }
  { done. } { lia. } { rewrite Htot. unfold uint64_max. lia. }
  rewrite counts_complete.
  2:{ intros p Hp. apply (keys_view b counts) in Hp as [Hp|Hp].
      - rewrite (get_count _ _ _ rel) in Hp. by apply fmap_is_Some in Hp.
      - rewrite has_bucket_view in Hp. simpl in Hp. by rewrite (tr_flat _ _ rel) in Hp. }
  cbn [res_bind]. rewrite !readUint64_Put by (apply (inv_counter _ _ inv) || (unfold max_uint64; lia)).
  rewrite Z2N.id, Htot, Z.add_0_l, Z.eqb_refl by done. cbn [negb].
  rewrite !bool_decide_eq_false_2 by lia. done.
Qed.
End Complete.
End Open.
