(* ===== verification/PluginStateTheorems.v ===== *)
(** * The plugin state store: theorems

    The properties of the store a client sees, for both backends: the call
    history it answers, the quotas, compare-and-set, versions that are never
    issued twice, and reopening a database. *)

From stdpp Require Import base list strings gmap sets numbers pretty sorting.
From S2P Require Import Prelude ByteStrings PluginState PluginStateBolt PluginStateOpen.

(** A history of calls: each one is answered as the abstract store answers it,
    or it reports a bbolt failure and changes nothing. *)
Inductive history (l : limits) : spec → list op → list resp → spec → Prop :=
| history_nil a : history l a [] [] a
| history_ok a o ops r rs a1 a2 :
    spec_step l a o = (norm r, a1) → history l a1 ops rs a2 → history l a (o :: ops) (r :: rs) a2
| history_fail a o ops r rs a2 :
    resp_backend r = true → history l a ops rs a2 → history l a (o :: ops) (r :: rs) a2.

Definition opt_limits (opts : Options) : limits :=
  mkLimits (orDefault (opt_maxValue opts) DefaultMaxValueBytes)
    (orDefault (opt_maxTotal opts) DefaultMaxTotalBytes)
    (orDefault (opt_maxKeys opts) DefaultMaxKeysPerPlugin).

(** The versions that successful writes returned. *)
Definition issued (r : resp) : option string :=
  match r with RCAS (Ok (true, v)) => Some v | _ => None end.

Section Theorems.
Context `{B : Bolt} {L : BoltLaws B}.

(** [serves l a s]: the store is in service with contents [a]. *)
Record serves (l : limits) (a : spec) (s : Store) : Prop := {
  sv_fit : limits_fit l;
  sv_inv : spec_inv l a;
  sv_rel : mem_refines l a s ∨ bolt_refines l a s }.

Lemma norm_spec l a o : norm (spec_step l a o).1 = (spec_step l a o).1.
Proof.
  destruct o; simpl; try done.
  - by destruct (spec_set _ _ _ _ _ _ _) as [[|] ?].
  - unfold spec_set. by repeat match goal with |- context [if ?c then _ else _] => destruct c end.
  - by destruct (spec_delete _ _ _) as [[|] ?].
  - by destruct (spec_compare_delete _ _ _ _) as [[|] ?].
Qed.

Lemma serves_step l a s o :
  serves l a s → op_fits o →
  (resp_backend (step s o).1 = true ∧ (step s o).2 = s) ∨
  (norm (step s o).1 = (spec_step l a o).1 ∧ serves l (spec_step l a o).2 (step s o).2).
Proof.
  intros [Hf Hi [H|H]] Ho.
  - right. destruct (mem_step l a s o H) as [H1 H2]. rewrite H1, norm_spec. split; [done|].
    split; [done|by apply spec_step_inv|by left].
  - destruct (bolt_step l a s o Hf Hi Ho H) as [?|[H1 H2]]; [by left|right].
    split; [done|]. split; [done|by apply spec_step_inv|by right].
Qed.

Lemma serves_run l a s ops :
  serves l a s → Forall op_fits ops →
  ∃ a', history l a ops (run s ops).1 a' ∧ serves l a' (run s ops).2.
Proof.
  intros H Hf. revert a s H; induction Hf as [|o ops Ho Hf IH]; intros a s H; simpl.
  - exists a. split; [constructor|done].
  - destruct (serves_step l a s o H Ho) as [[Hb Hs]|[Hn Hs]];
      destruct (step s o) as [r s1]; simpl in *.
    + subst s1. destruct (IH a s H) as (a' & Hh & Hs'). destruct (run s ops) as [rs s2]. simpl in *.
      exists a'. split; [by apply history_fail|done].
    + destruct (IH _ s1 Hs) as (a' & Hh & Hs'). destruct (run s1 ops) as [rs s2]. simpl in *.
      exists a'. split; [|done]. eapply history_ok; [|done].
      destruct (spec_step l a o); simpl in *; by subst.
Qed.

(** On a database that already holds a store, [initialize] only validates. *)
Lemma create_existing b p m b' :
  view b !! p = Some m → map_err ErrBackend (CreateBucketIfNotExists b p) = Ok b' → view b' = view b.
Proof. intros Hm Hc%map_err_ok. apply create_view in Hc. by rewrite Hm in Hc. Qed.

Lemma put_existing b key v r n b' :
  Get b meta key = Some r →
  (if bool_decide (Get b meta key = None) then putUint64 b v key n else Ok b) = Ok b' → b' = b.
Proof. intros ->. by intros [= <-]. Qed.

Lemma init_rel a b s b' :
  tx_rel a b → initTx s b = Ok (b', tt) → tx_rel a b'.
Proof.
  intros H (b1 & H1 & Hx)%res_bind_ok. destruct (tr_meta _ _ H) as (m & Hm & Hm1 & Hm2).
  apply (create_existing _ _ _ _ Hm) in H1.
  apply res_bind_ok in Hx as (b2 & H2 & Hx).
  rewrite <- H1 in Hm. pose proof (tr_plugins _ _ H) as Hp. rewrite <- H1 in Hp.
  apply (create_existing _ _ _ _ Hp) in H2. rewrite <- H2 in Hm.
  apply res_bind_ok in Hx as (b3 & H3 & Hx).
  apply (put_existing _ _ _ (PutUint64 (sp_counter a))) in H3 as ->; [|by rewrite get_view, Hm].
  apply res_bind_ok in Hx as (b4 & H4 & Hx).
  apply (put_existing _ _ _ (PutUint64 (Z.to_N (spec_total a)))) in H4 as ->; [|by rewrite get_view, Hm].
  apply res_bind_ok in Hx as (b5 & H5 & Hx). pose proof (tr_counts _ _ H) as Hc.
  rewrite <- H1, <- H2 in Hc. apply (create_existing _ _ _ _ Hc) in H5.
  apply res_bind_ok in Hx as ([] & _ & [= <-]).
  apply (tx_rel_view _ b); [|done]. congruence.
Qed.

(** It fails only in bbolt. *)
Lemma init_fails a b s e :
  limits_fit (limits_of s) → spec_inv (limits_of s) a → tx_rel a b →
  initTx s b = Err e → is_backend e = true.
Proof.
  intros Hf Hi H. unfold initTx.
  destruct (map_err ErrBackend (CreateBucketIfNotExists b meta)) as [b1|] eqn:H1; cbn [res_bind];
    [|intros [= <-]; by eapply backend_err].
  destruct (tr_meta _ _ H) as (m & Hm & _). apply (create_existing _ _ _ _ Hm) in H1.
  apply (tx_rel_view _ _ _ H1) in H. clear Hm H1 m b.
  destruct (map_err ErrBackend (CreateBucketIfNotExists b1 _)) as [b2|] eqn:H1; cbn [res_bind];
    [|intros [= <-]; by eapply backend_err].
  apply (create_existing _ _ _ _ (tr_plugins _ _ H)) in H1. apply (tx_rel_view _ _ _ H1) in H. clear H1 b1.
  destruct (get_meta _ _ H) as [-> H2]. rewrite bool_decide_eq_false_2 by done. cbn [res_bind].
  rewrite H2, bool_decide_eq_false_2 by done. cbn [res_bind].
  destruct (map_err ErrBackend (CreateBucketIfNotExists b2 _)) as [b3|] eqn:H1; cbn [res_bind];
    [|intros [= <-]; by eapply backend_err].
  apply (create_existing _ _ _ _ (tr_counts _ _ H)) in H1. apply (tx_rel_view _ _ _ H1) in H.
  by rewrite (validate_complete s a b3 Hf Hi H).
Qed.

Lemma new_serves opts env s :
  limits_fit (opt_limits opts) → (0 ≤ maxT (opt_limits opts))%Z → New opts env = (s, None) →
  ∃ a, serves (opt_limits opts) a s ∧
       (opt_path opts = "" → a = spec0 ∧ mem_refines (opt_limits opts) a s).
Proof.
  intros Hf HT. unfold New. destruct (bool_decide_reflect (opt_path opts = "")) as [Hp|Hp].
  - intros [= <-]. exists spec0.
    assert (mem_refines (opt_limits opts) spec0
      (mkStore ∅ ∅ 0 0 None (opt_path opts) (maxV (opt_limits opts)) (maxT (opt_limits opts))
         (maxK (opt_limits opts)) false)).
    { by split. }
    split; [|done]. split; [done|by apply spec0_inv|by left].
  - destruct (env_mkdir env); simpl; [|done]. destruct (env_open env) as [b|]; [|done].
    destruct (env_chmod env); simpl; [|done].
    destruct (initialize _ b) as [[[]|] s'] eqn:E; intros [= <-].
    unfold initialize, Update in E.
    destruct (initTx _ b) as [[b1 []]|] eqn:Ei; cbn [res_bind] in E; [|done].
    destruct (Commit b1) as [b2|] eqn:Ec; cbn [res_bind map_err] in E; [|done].
    injection E as <-. apply commit_view in Ec.
    assert (Hv : validateDatabase (with_db (Some b) (mkStore ∅ ∅ 0 0 None (opt_path opts)
      (maxV (opt_limits opts)) (maxT (opt_limits opts)) (maxK (opt_limits opts)) false)) b1 = Ok tt).
    { unfold initTx in Ei. inv_ok.
      match goal with Hu : validateDatabase _ _ = Ok ?u |- _ => by destruct u end. }
    apply validate_accepted in Hv. pose proof (accepted_inv _ _ Hv) as Hi.
    pose proof (accepted_rel _ _ Hv) as Hr. exists (abstract b1).
    split; [|done]. split; [done|done|right]. split; simpl; auto.
    exists b2. split; [done|]. by apply (tx_rel_view _ b1).
Qed.

(** C3. A store that [New] opened without an error answers every sequence of
    calls as the abstract versioned key/value store does, with the quotas of
    the options: each call returns what the abstract store returns (the version
    beside a refused write aside), or reports a bbolt failure and has no effect.
    In memory the abstract store starts empty and no call fails that way. *)
Theorem store_history opts env s ops :
  limits_fit (opt_limits opts) → (0 ≤ maxT (opt_limits opts))%Z → Forall op_fits ops →
  New opts env = (s, None) →
  ∃ a a', history (opt_limits opts) a ops (run s ops).1 a' ∧
    serves (opt_limits opts) a s ∧ serves (opt_limits opts) a' (run s ops).2 ∧
    (opt_path opts = "" → a = spec0 ∧ (run s ops).1 = (spec_run (opt_limits opts) spec0 ops).1).
Proof.
  intros Hf HT Ho Hn. destruct (new_serves opts env s Hf HT Hn) as (a & Ha & Hmem).
  destruct (serves_run _ a s ops Ha Ho) as (a' & Hh & Ha'). exists a, a'.
  split; [done|]. split; [done|]. split; [done|]. intros Hp. destruct (Hmem Hp) as [-> Hm].
  split; [done|]. by apply mem_run.
Qed.

Lemma serves_reads l a s : serves l a s →
  TotalBytes s = spec_total a ∧ (∀ p, Len s p = Z.of_nat (size (bucket_of a p))) ∧
  ∀ p k, GetVersioned s p k = spec_get a p k.
Proof.
  intros [Hf Hi [H|H]].
  - split; [|split].
    + pose proof (proj1 (mem_step l a s OpTotal H)) as E. simpl in E. congruence.
    + intros p. pose proof (proj1 (mem_step l a s (OpLen p) H)) as E. simpl in E. congruence.
    + intros p k. pose proof (proj1 (mem_step l a s (OpGet p k) H)) as E. simpl in E. congruence.
  - split; [|split].
    + destruct (bolt_step l a s OpTotal Hf Hi I H) as [[? _]|[E _]]; [done|]. simpl in E. congruence.
    + intros p. destruct (bolt_step l a s (OpLen p) Hf Hi I H) as [[? _]|[E _]]; [done|].
      simpl in E. congruence.
    + intros p k. by apply (bolt_get l).
Qed.

Lemma spec_set_applied l a p k v e c ver a' :
  spec_set l a p k v e c = (Ok (true, ver), a') →
  p ≠ "" ∧ k ≠ "" ∧ refused c e (fst <$> spec_lookup a p k) = false ∧
  ver = FormatUint (sp_counter a + 1) ∧ a' = put_entry a p k v.
Proof.
  unfold spec_set. intros H. destruct (bool_decide_reflect (p = "")); [done|].
  destruct (bool_decide_reflect (k = "")); [done|]. simpl in H.
  destruct (bool_decide _) in H; [done|]. destruct (refused _ _ _); [done|].
  destruct (_ && _) in H; [done|]. destruct (bool_decide _) in H; [done|].
  destruct (bool_decide _) in H; [done|]. by injection H as <- <-.
Qed.

(** The quotas hold in every store in service: the accounted bytes are
    within the total limit, no plugin has more keys than the key limit, and
    every value that can be read is within the value limit. *)
Theorem store_quotas l a s :
  serves l a s →
  (0 ≤ TotalBytes s ≤ maxTotalBytes s)%Z ∧
  ∀ p, (Len s p ≤ Z.max 0 (maxKeysPerPlugin s))%Z ∧
  ∀ k v ver, GetVersioned s p k = Ok (v, ver, true) → (len v ≤ maxValueBytes s)%Z.
Proof.
  intros H. destruct (serves_reads l a s H) as (HT & HL & HG).
  assert (Hlim : maxV l = maxValueBytes s ∧ maxT l = maxTotalBytes s ∧ maxK l = maxKeysPerPlugin s)
    by (destruct H as [_ _ [Hr|Hr]]; apply Hr).
  destruct Hlim as (<- & <- & <-). destruct H as [_ [Hb Ht _] _]. rewrite HT.
  split; [pose proof (spec_total_nonneg a); lia|]. intros p. rewrite HL. split.
  - unfold bucket_of. destruct (entries a !! p) as [kv|] eqn:E; simpl; [|rewrite map_size_empty; lia].
    destruct (Hb p kv E) as (_ & ? & _). lia.
  - intros k v ver. rewrite HG. unfold spec_get. destruct (_ || _); [done|].
    destruct (spec_lookup a p k) as [[n w]|] eqn:E; [|done]. intros [= <- _].
    destruct (lookup_bucket _ _ _ _ E) as (kv & Ekv & Ek).
    destruct (Hb p kv Ekv) as (_ & _ & Hall). by destruct (Hall _ _ _ Ek) as (_ & ? & _).
Qed.

(** ** Compare-and-set *)

Lemma FormatUint_inj n m : FormatUint n = FormatUint m → n = m.
Proof. apply (inj pretty). Qed.

Lemma get_put a p k v p' k' : spec_get (put_entry a p k v) p' k' =
  if bool_decide (p' = "") || bool_decide (k' = "") then Err ErrRequired
  else if decide (p' = p ∧ k' = k) then Ok (v, FormatUint (sp_counter a + 1), true)
  else spec_get a p' k'.
Proof.
  unfold spec_get, spec_lookup, bucket_of, put_entry; simpl. destruct (_ || _); [done|].
  destruct (decide (p' = p)) as [->|Hp].
  - rewrite lookup_insert_eq. simpl. destruct (decide (k' = k)) as [->|Hk].
    + by rewrite lookup_insert_eq, decide_True.
    + rewrite lookup_insert_ne, decide_False by (done || naive_solver). done.
  - by rewrite lookup_insert_ne, decide_False by (done || naive_solver).
Qed.

(** What a successful compare-and-set did, for its clients. *)
Lemma cas_effect l a s p k v e ver s' :
  serves l a s → key_fits k →
  CompareAndSet s p k v e = (Ok (true, ver), s') →
  (match e with
   | None => GetVersioned s p k = Ok ("", "", false)
   | Some x => ∃ w, GetVersioned s p k = Ok (w, x, true) end) ∧
  GetVersioned s' p k = Ok (v, ver, true) ∧
  (∀ p' k', (p', k') ≠ (p, k) → GetVersioned s' p' k' = GetVersioned s p' k') ∧
  (∀ p' k' w ver', GetVersioned s p' k' = Ok (w, ver', true) → ver' ≠ ver).
Proof.
  intros H Hk Hc. destruct (serves_reads l a s H) as (_ & _ & HG).
  destruct (serves_step l a s (OpCAS p k v e) H Hk) as [[Hb _]|[Hn Hs]]; simpl in *; rewrite Hc in *;
    simpl in *; [done|].
  destruct (spec_set l a p k v e true) as [r a'] eqn:E. simpl in *.
  destruct (serves_reads l a' s' Hs) as (_ & _ & HG'). injection Hn as Hn. subst r.
  destruct (spec_set_applied l a p k v e true ver a' E) as (Hp & Hk0 & Hr & -> & ->).
  split; [|split; [|split]].
  - unfold refused in Hr. simpl in Hr. rewrite HG. unfold spec_get.
    rewrite (bool_decide_eq_false_2 _ Hp), (bool_decide_eq_false_2 _ Hk0). simpl.
    destruct e as [x|], (spec_lookup a p k) as [[n w]|]; simpl in *; try done.
    apply negb_false_iff, String.eqb_eq in Hr as ->. eauto.
  - rewrite HG', get_put, decide_True by done.
    by rewrite (bool_decide_eq_false_2 _ Hp), (bool_decide_eq_false_2 _ Hk0).
  - intros p' k' Hne. rewrite HG', HG, get_put, decide_False by naive_solver.
    unfold spec_get. by destruct (_ || _).
  - intros p' k' w ver'. rewrite HG. unfold spec_get. destruct (_ || _); [done|].
    destruct (spec_lookup a p' k') as [[n u]|] eqn:El; [|done]. intros [= _ <-] Heq%FormatUint_inj.
    destruct (lookup_bucket _ _ _ _ El) as (kv & Ekv & Ek). destruct H as [_ [Hb _ _] _].
    destruct (Hb p' kv Ekv) as (_ & _ & Hall). destruct (Hall _ _ _ Ek) as (_ & _ & ?). lia.
Qed.

(** A successful compare-and-set: the entry had the expected version (or
    there was none, when none was expected); afterwards the key reads back the
    written value with the returned version and every other key reads as
    before; and no entry of any plugin had that version. *)
Theorem compare_and_set_ok l a s p k v e ver s' :
  serves l a s → key_fits k →
  CompareAndSet s p k v e = (Ok (true, ver), s') →
  (match e with
   | None => GetVersioned s p k = Ok ("", "", false)
   | Some x => ∃ w, GetVersioned s p k = Ok (w, x, true) end) ∧
  GetVersioned s' p k = Ok (v, ver, true) ∧
  (∀ p' k', (p', k') ≠ (p, k) → GetVersioned s' p' k' = GetVersioned s p' k') ∧
  (∀ p' k' w ver', GetVersioned s p' k' = Ok (w, ver', true) → ver' ≠ ver).
Proof. apply cas_effect. Qed.

(** ** Versions *)

Lemma spec_step_counter l a o : (sp_counter a ≤ sp_counter (spec_step l a o).2)%N.
Proof.
  assert (Hset : ∀ p k v e c, (sp_counter a ≤ sp_counter (spec_set l a p k v e c).2)%N).
  { intros. unfold spec_set. repeat match goal with |- context [if ?b then _ else _] => destruct b end;
      simpl; lia. }
  destruct o as [p k|p k v|p k v e|p k|p k e|p|p|]; simpl; try lia.
  - specialize (Hset p k v None false). by destruct (spec_set _ _ _ _ _ _ _).
  - specialize (Hset p k v e true). by destruct (spec_set _ _ _ _ _ _ _).
  - unfold spec_delete. destruct (_ || _); [done|]. by destruct (spec_lookup _ _ _).
  - unfold spec_compare_delete. destruct (bool_decide _); [done|]. destruct (_ || _); [done|].
    destruct (spec_lookup _ _ _) as [[]|]; [|done]. by destruct (String.eqb _ _).
Qed.

Lemma issued_version l a o r a1 ver :
  spec_step l a o = (norm r, a1) → issued r = Some ver →
  ver = FormatUint (sp_counter a + 1) ∧ sp_counter a1 = (sp_counter a + 1)%N.
Proof.
  destruct r as [| |[[[] w]|]| | |]; simpl; try done. intros H [= ->].
  destruct o as [p k|p k v|p k v e|p k|p k e|p|p|]; simpl in H; try done;
    try (destruct (spec_set _ _ _ _ _ _ _); done); try (destruct (spec_delete _ _ _); done);
    try (destruct (spec_compare_delete _ _ _ _); done).
  destruct (spec_set l a p k v e true) as [r' a'] eqn:E. injection H as -> <-.
  by apply spec_set_applied in E as (_ & _ & _ & -> & ->).
Qed.

Lemma history_versions l a ops rs a' :
  history l a ops rs a' →
  Forall (λ ver, ∃ n, ver = FormatUint n ∧ (sp_counter a < n)%N) (omap issued rs) ∧
  NoDup (omap issued rs).
Proof.
  induction 1 as [a|a o ops r rs a1 a2 Hs Hh [IH1 IH2]|a o ops r rs a2 Hb Hh [IH1 IH2]]; simpl.
  - split; constructor.
  - pose proof (spec_step_counter l a o) as Hc. rewrite Hs in Hc. simpl in Hc.
    assert (Hmono : ∀ ver, (∃ n, ver = FormatUint n ∧ (sp_counter a1 < n)%N) →
      ∃ n, ver = FormatUint n ∧ (sp_counter a < n)%N) by (intros ver (n & -> & ?); exists n; split; [done|lia]).
    destruct (issued r) as [ver|] eqn:Ei; [|split; [by eapply Forall_impl|done]].
    destruct (issued_version l a o r a1 ver Hs Ei) as [-> Hc1]. split.
    + constructor; [|by eapply Forall_impl]. eexists. split; [done|lia].
    + constructor; [|done]. intros Hin. rewrite Forall_forall in IH1.
      destruct (IH1 _ Hin) as (n & Heq%FormatUint_inj & ?). lia.
  - assert (issued r = None) as -> by (destruct r as [[]|[]|[[[]]|]|[]| |]; done). done.
Qed.

(** Versions are never issued twice: over any sequence of calls to a store
    in service, with deletions and bbolt failures among them, the versions that
    the successful compare-and-sets returned are pairwise distinct. *)
Theorem versions_never_reused l a s ops :
  serves l a s → Forall op_fits ops → NoDup (omap issued (run s ops).1).
Proof.
  intros H Ho. destruct (serves_run l a s ops H Ho) as (a' & Hh & _).
  by destruct (history_versions l a ops _ a' Hh).
Qed.

(** ** Databases *)

(** [validateDatabase] accepts a database exactly when it represents an
    abstract store within the store's limits: every record decodes, the key
    counts and the byte total are those of the records, and the version
    counter is not behind a record. *)
Theorem validate_exact s b :
  limits_fit (limits_of s) →
  validateDatabase s b = Ok tt ↔ ∃ a, tx_rel a b ∧ spec_inv (limits_of s) a.
Proof.
  intros Hf. split.
  - intros H%validate_accepted. exists (abstract b). split; [by eapply accepted_rel|by apply accepted_inv].
  - intros (a & Hr & Hi). by eapply validate_complete.
Qed.

(** A database survives a restart: opening the database of a store in
    service again, with the same options, either fails in bbolt or yields a
    store in service with the same contents. *)
Theorem reopen_same opts a s b :
  serves (opt_limits opts) a s → opt_path opts ≠ "" → db s = Some b →
  match New opts (mkOpenEnv true (Some b) true) with
  | (s', None) => serves (opt_limits opts) a s'
  | (_, Some e) => is_backend e = true
  end.
Proof.
  intros [Hf Hi [Hm|[(b0 & Hb0 & Hr) _ _]]] Hp Hb; [by rewrite (mr_db _ _ _ Hm) in Hb|].
  rewrite Hb in Hb0. injection Hb0 as <-. unfold New. rewrite (bool_decide_eq_false_2 _ Hp). simpl.
  set (s1 := with_db _ _). unfold initialize, Update.
  destruct (initTx s1 b) as [[b1 []]|e] eqn:Ei; cbn [res_bind].
  - pose proof (init_rel _ _ _ _ Hr Ei) as Hr1.
    destruct (Commit b1) as [b2|e] eqn:Ec; cbn [res_bind map_err]; [|done].
    apply commit_view in Ec. split; [done|done|right]. split; simpl; auto.
    exists b2. split; [done|]. by apply (tx_rel_view _ b1).
  - exact (init_fails a b s1 e Hf Hi Hr Ei).
Qed.
End Theorems.
