(* ===== verification/PluginStateScan.v ===== *)
(** * Paged scans of the plugin state store

    [Scan] returns one page of a plugin's keys under a prefix and a cursor for
    the next one.  The cursor is a JSON token in unpadded URL base64; the two
    encodings are the parameter [CursorCodec], with their round trip as
    [CursorCodecLaws].

    [scan_pages_complete]: following the cursors of a store that does not
    change visits every entry under the prefix once, in key order, whatever the
    page limits. *)

From stdpp Require Import base list strings gmap sets numbers pretty sorting.
From S2P Require Import Prelude ByteStrings Utf8 PluginState PluginStateBolt PluginStateOpen PluginStateTheorems.

Local Open Scope nat_scope.

Record PageEntry := mkPageEntry { pe_key : string; pe_value : string; pe_version : string }.
Record cursorToken := mkToken { tok_plugin : string; tok_prefix : string; tok_last : string }.

(** [json.Marshal] then [base64.RawURLEncoding], and the way back. *)
Class CursorCodec := {
  encodeToken : cursorToken → string;
  decodeToken : string → option cursorToken }.

(** JSON strings are Unicode: a token whose strings are valid UTF-8 comes back. *)
Definition textToken (t : cursorToken) : Prop := isText (tok_plugin t) ∧ isText (tok_prefix t) ∧ isText (tok_last t).
Class CursorCodecLaws (C : CursorCodec) : Prop := {
  token_round_trip : ∀ t, textToken t → decodeToken (encodeToken t) = Some t;
  token_nonempty : ∀ t, encodeToken t ≠ "" }.

Section Scan.
Context `{B : Bolt} `{C : CursorCodec}.

Definition encodeCursor (plugin prefix last : string) : string :=
  encodeToken (mkToken plugin prefix last).

Definition decodeCursor (plugin prefix cursor : string) : res stateErr string :=
  if bool_decide (cursor = "") then Ok ""
  else match decodeToken cursor with
  | None => Err ErrInvalidCursor
  | Some t =>
      if negb (String.eqb (tok_plugin t) plugin) || negb (String.eqb (tok_prefix t) prefix)
      then Err ErrInvalidCursor
      else Ok (tok_last t)
  end.

Definition entryBytes (e : PageEntry) : Z :=
  (len (pe_key e) + len (pe_value e) + len (pe_version e))%Z.

(** The loop over the candidate entries; the flag says whether it stopped
    before the end. An entry that does not decode ends it with an error. *)
Fixpoint pageLoop (limit maxBytes : Z) (out : list PageEntry) (used : Z)
    (l : list (res stateErr PageEntry)) : res stateErr (list PageEntry * bool) :=
  match l with
  | [] => Ok (out, false)
  | Err e :: _ => Err e
  | Ok entry :: l' =>
      let size := entryBytes entry in
      if bool_decide (out = []) && bool_decide (maxBytes < size)%Z then Err ErrFirstEntry
      else if bool_decide (limit ≤ Z.of_nat (length out))%Z || bool_decide (maxBytes < used + size)%Z
      then Ok (out, true)
      else pageLoop limit maxBytes (out ++ [entry]) (used + size)%Z l'
  end.

Definition withCursor (plugin prefix : string) (r : list PageEntry * bool)
    : list PageEntry * string :=
  let '(out, more) := r in
  (out, match last out with
        | Some e => if more then encodeCursor plugin prefix (pe_key e) else ""
        | None => "" end).

Definition scanMemory (s : Store) (plugin prefix last : string) (limit maxBytes : Z)
    : res stateErr (list PageEntry * string) :=
  let keys := sort_Strings (filter (λ k, HasPrefix k prefix = true ∧ str_lt last k)
                (elements (dom (default ∅ (data s !! plugin))))) in
  r ←? pageLoop limit maxBytes [] 0
         ((λ k, Ok (mkPageEntry k (default "" (lookup2 (data s) plugin k))
                     (default "" (lookup2 (versions s) plugin k)))) <$> keys);
  Ok (withCursor plugin prefix r).

(** [c.Seek(seek)] and [c.Next()] over the keys in order. *)
Fixpoint seekFrom (seek : string) (keys : list string) : list string :=
  match keys with
  | [] => []
  | k :: keys' => if decide (str_lt k seek) then seekFrom seek keys' else k :: keys'
  end.

Fixpoint whilePrefix (prefix : string) (keys : list string) : list string :=
  match keys with
  | [] => []
  | k :: keys' => if HasPrefix k prefix then k :: whilePrefix prefix keys' else []
  end.

Definition cursorKeys (prefix last : string) (keys : list string) : list string :=
  let seek := if bool_decide (last = "") then prefix else last in
  let from := seekFrom seek keys in
  let from' := match from with
               | k :: rest => if negb (bool_decide (last = "")) && String.eqb k last then rest else from
               | [] => from end in
  whilePrefix prefix from'.

Definition boltEntry (b : bolt) (plugin key : string) : res stateErr PageEntry :=
  let '(version, value, ok) := decodeRecord (default "" (Get b (pluginPath plugin) key)) in
  if ok then Ok (mkPageEntry key value (FormatUint version)) else Err ErrInvalidRecord.

Definition ScanPage (s : Store) (plugin prefix cursor : string) (limit maxBytes : Z)
    : res stateErr (list PageEntry * string) :=
  if bool_decide (plugin = "") then Err ErrRequired
  else if bool_decide (limit < 1)%Z || bool_decide (256 < limit)%Z || bool_decide (maxBytes < 1)%Z
  then Err ErrScanBounds
  else
    last ←? decodeCursor plugin prefix cursor;
    match db s with
    | None => scanMemory s plugin prefix last limit maxBytes
    | Some b =>
        let keys := if HasBucket b (pluginPath plugin) then Keys b (pluginPath plugin) else [] in
        r ←? pageLoop limit maxBytes [] 0 (boltEntry b plugin <$> cursorKeys prefix last keys);
        Ok (withCursor plugin prefix r)
    end.

(** A client that follows the cursors. *)
Fixpoint scanAll (fuel : nat) (s : Store) (plugin prefix cursor : string) (limit maxBytes : Z)
    : res stateErr (list (list PageEntry)) :=
  match fuel with
  | 0 => Err ErrInvalidCursor
  | S fuel' =>
      '(page, next) ←? ScanPage s plugin prefix cursor limit maxBytes;
      if bool_decide (next = "") then Ok [page]
      else rest ←? scanAll fuel' s plugin prefix next limit maxBytes; Ok (page :: rest)
  end.
End Scan.

(** ** The keys a page starts from *)

Definition after (prefix last : string) (keys : list string) : list string :=
  filter (λ k, HasPrefix k prefix = true ∧ str_lt last k) keys.

Lemma seekFrom_sorted seek keys : StronglySorted str_lt keys →
  seekFrom seek keys = filter (λ k, String.le seek k) keys.
Proof.
  induction 1 as [|k keys Hs IH Hk]; simpl; [done|]. rewrite filter_cons.
  destruct (decide (str_lt k seek)) as [Hlt|Hge].
  - apply str_lt_nle in Hlt as Hnle. rewrite decide_False by done. done.
  - assert (Hle : String.le seek k).
    { destruct (decide (String.le seek k)); [done|]. by destruct Hge; apply str_lt_nle. }
    rewrite decide_True by done. f_equal. symmetry. apply filter_all.
    eapply Forall_impl; [exact Hk|]. intros x [Hx _]. by etrans.
Qed.

Lemma whilePrefix_sorted prefix keys : StronglySorted str_lt keys →
  (∀ k, k ∈ keys → String.le prefix k) →
  whilePrefix prefix keys = filter (λ k, HasPrefix k prefix = true) keys.
Proof.
  induction 1 as [|k keys Hs IH Hk]; intros Hle; simpl; [done|]. rewrite filter_cons.
  destruct (HasPrefix k prefix) eqn:E.
  - rewrite decide_True by done. f_equal. apply IH. intros x Hx. apply Hle. by right.
  - rewrite decide_False by done. symmetry. apply filter_none_nil. intros x Hx Hp.
    assert (HasPrefix k prefix = true); [|congruence].
    apply (prefix_convex prefix prefix k x); auto.
    + clear. unfold HasPrefix. induction prefix as [|c p IH]; [done|]. simpl.
      by destruct (Ascii.ascii_dec c c).
    + apply Hle. left.
    + rewrite Forall_forall in Hk. by destruct (Hk x Hx).
Qed.

Lemma sorted_filter (P : string → Prop) `{∀ k, Decision (P k)} keys :
  StronglySorted str_lt keys → StronglySorted str_lt (filter P keys).
Proof.
  induction 1 as [|k keys Hs IH Hk]; simpl; [constructor|]. rewrite filter_cons.
  destruct (decide (P k)); [|done]. constructor; [done|].
  rewrite Forall_forall in Hk |- *. intros x [_ Hx]%list_elem_of_filter. auto.
Qed.

Lemma skip_last lst keys : StronglySorted str_lt keys →
  match filter (λ k, String.le lst k) keys with
  | k :: rest => if String.eqb k lst then rest else filter (λ k, String.le lst k) keys
  | [] => filter (λ k, String.le lst k) keys end
  = filter (λ k, str_lt lst k) keys.
Proof.
  intros Hs.
  assert (filter (λ k, str_lt lst k) keys = filter (λ k, str_lt lst k) (filter (λ k, String.le lst k) keys)) as ->.
  { rewrite list_filter_filter. apply filter_ext_in. intros x _. split; [|by intros [? ?]].
    intros [? ?]. by repeat split. }
  assert (Hs' : StronglySorted str_lt (filter (λ k, String.le lst k) keys)) by by apply sorted_filter.
  assert (Hall : ∀ x, x ∈ filter (λ k, String.le lst k) keys → String.le lst x)
    by (intros x [? _]%list_elem_of_filter; done).
  destruct (filter _ keys) as [|k rest]; [done|].
  inversion Hs' as [|? ? Hs2 Hk]; subst. rewrite filter_cons.
  assert (Hrest : filter (λ k, str_lt lst k) rest = rest).
  { apply filter_all. rewrite Forall_forall in Hk |- *. intros x Hx.
    specialize (Hk x Hx). specialize (Hall k ltac:(left)).
    destruct (decide (lst = k)) as [->|]; [done|]. by trans k. }
  destruct (String.eqb_spec k lst) as [->|Hne].
  - by rewrite decide_False by apply str_lt_irrefl.
  - rewrite decide_True, Hrest; [done|]. split; [apply Hall; left|done].
Qed.

Lemma cursorKeys_sorted prefix lst keys :
  StronglySorted str_lt keys → "" ∉ keys → lst = "" ∨ HasPrefix lst prefix = true →
  cursorKeys prefix lst keys = after prefix lst keys.
Proof.
  intros Hs Hne Hl. unfold cursorKeys, after.
  destruct (bool_decide_reflect (lst = "")) as [->|Hlst]; cbn [negb andb].
  - rewrite seekFrom_sorted by done.
    assert (∀ l : list string, match l with [] => l | _ :: _ => l end = l) as -> by by intros [].
    rewrite whilePrefix_sorted; [|by apply sorted_filter|by intros k [? _]%list_elem_of_filter].
    rewrite list_filter_filter. apply filter_ext_in. intros k Hk.
    assert (str_lt "" k) by (split; [apply str_le_nil|by intros <-]).
    split; [by intros [? _]|]. intros [? _]. split; [done|by apply str_le_prefix].
  - destruct Hl as [|Hl]; [done|]. rewrite seekFrom_sorted, skip_last by done.
    rewrite whilePrefix_sorted; [|by apply sorted_filter|].
    + rewrite list_filter_filter. done.
    + intros k [[? _] _]%list_elem_of_filter. trans lst; [by apply str_le_prefix|done].
Qed.

Lemma sorted_keys_strict {A} (m : gmap string A) : StronglySorted str_lt (sorted_keys m).
Proof.
  unfold sorted_keys. pose proof (sort_Strings_sorted (elements (dom m))) as Hs.
  apply Sorted_StronglySorted in Hs; [|apply _].
  assert (Hnd : NoDup (sort_Strings (elements (dom m)))).
  { rewrite sort_Strings_perm. apply NoDup_elements. }
  revert Hnd. induction Hs as [|x l Hs IH Hx]; intros Hnd; constructor.
  - apply IH. by apply list.NoDup_cons in Hnd as [_ ?].
  - apply list.NoDup_cons in Hnd as [Hn _]. rewrite Forall_forall in Hx |- *. intros y Hy.
    split; [by apply Hx|]. by intros ->.
Qed.

Lemma sorted_keys_elem {A} (m : gmap string A) k : k ∈ sorted_keys m ↔ is_Some (m !! k).
Proof. unfold sorted_keys. by rewrite sort_Strings_perm, elem_of_elements, elem_of_dom. Qed.

Lemma sort_filter (P : string → Prop) `{∀ k, Decision (P k)} {A} (m : gmap string A) :
  sort_Strings (filter P (elements (dom m))) = filter P (sorted_keys m).
Proof.
  rewrite <- (sort_Strings_id (filter P (sorted_keys m)))
    by apply str_sorted_le, sorted_filter, sorted_keys_strict.
  apply sort_Strings_proper. unfold sorted_keys. by rewrite sort_Strings_perm.
Qed.

(** ** One page *)

Definition page_entry (a : spec) (plugin key : string) : PageEntry :=
  match spec_lookup a plugin key with
  | Some (n, v) => mkPageEntry key v (FormatUint n)
  | None => mkPageEntry key "" ""
  end.

Section Pages.
Context `{B : Bolt} {L : BoltLaws B} `{C : CursorCodec} {CL : CursorCodecLaws C}.

(** The page of the abstract store. *)
Definition spec_page (a : spec) (plugin prefix lst : string) (limit maxBytes : Z) :=
  r ←? pageLoop limit maxBytes [] 0
         (Ok ∘ page_entry a plugin <$> after prefix lst (sorted_keys (bucket_of a plugin)));
  Ok (withCursor plugin prefix r).

Lemma spec_keys_nonempty l a plugin : spec_inv l a → "" ∉ sorted_keys (bucket_of a plugin).
Proof.
  intros Hi Hin. apply sorted_keys_elem in Hin as [[n v] Hx].
  destruct (lookup_bucket a plugin "" (n, v) Hx) as (kv & E & Ek).
  destruct (inv_bucket _ _ Hi plugin kv E) as (_ & _ & Hall). by destruct (Hall _ _ _ Ek).
Qed.

Lemma scan_page l a s plugin prefix cursor lst limit maxBytes :
  serves l a s → plugin ≠ "" → (1 ≤ limit ≤ 256)%Z → (1 ≤ maxBytes)%Z →
  decodeCursor plugin prefix cursor = Ok lst → lst = "" ∨ HasPrefix lst prefix = true →
  ScanPage s plugin prefix cursor limit maxBytes = spec_page a plugin prefix lst limit maxBytes.
Proof.
  intros [Hf Hi Hr] Hp Hlim HmB Hcur Hl. unfold ScanPage.
  rewrite (bool_decide_eq_false_2 _ Hp), !bool_decide_eq_false_2 by lia. simpl. rewrite Hcur. simpl.
  pose proof (spec_keys_nonempty l a plugin Hi) as Hne.
  destruct Hr as [Hr|Hr].
  - rewrite (mr_db _ _ _ Hr). unfold scanMemory, spec_page. cbv zeta.
    rewrite sort_filter, (mr_data _ _ _ Hr), default_fmap.
    assert (sorted_keys (snd <$> bucket_of a plugin) = sorted_keys (bucket_of a plugin)) as ->
      by (unfold sorted_keys; by rewrite dom_fmap_L).
    f_equal. f_equal. apply list_fmap_ext. intros i k _. simpl. f_equal.
    rewrite (mr_versions _ _ _ Hr), !lookup2_fmap. unfold page_entry.
    by destruct (spec_lookup a plugin k) as [[]|].
  - destruct (br_db _ _ _ Hr) as (b & -> & Htx). cbv zeta. rewrite (plugin_keys _ _ _ Htx).
    rewrite cursorKeys_sorted by (done || apply sorted_keys_strict). unfold spec_page.
    f_equal. f_equal. apply list_fmap_ext. intros i k Hk%list_elem_of_lookup_2. simpl.
    apply list_elem_of_filter in Hk as [_ [[n v] Hk]%sorted_keys_elem].
    unfold boltEntry. rewrite (get_record _ _ _ _ Htx). unfold page_entry.
    change (bucket_of a plugin !! k) with (spec_lookup a plugin k) in Hk. rewrite Hk.
    change (default "" (encode_entry <$> Some (n, v))) with (encodeRecord n v).
    destruct (lookup_version _ _ _ _ _ _ Hi Hk) as ((? & ?) & _). rewrite decode_encode by done.
    destruct (N.eqb_spec n 0); [lia|done].
Qed.

Definition page_bytes (page : list PageEntry) : Z := list_sum entryBytes page.

Lemma pageLoop_take limit maxBytes out used l :
  (1 ≤ limit)%Z → (out = [] → used = 0%Z) → (used ≤ maxBytes)%Z → (Z.of_nat (length out) ≤ limit)%Z →
  Forall (λ e, entryBytes e ≤ maxBytes)%Z l →
  ∃ n, pageLoop limit maxBytes out used (Ok <$> l) = Ok (out ++ take n l, bool_decide (n < length l)) ∧
    n ≤ length l ∧ (out = [] → l ≠ [] → 0 < n) ∧
    (Z.of_nat (length out + n) ≤ limit)%Z ∧ (used + page_bytes (take n l) ≤ maxBytes)%Z.
Proof.
  intros Hlim. revert out used; induction l as [|e l IH]; intros out used H0 Hu Hlen Hall; simpl.
  - exists 0. simpl. rewrite app_nil_r. repeat split; try done; try lia.
  - change (list_fmap PageEntry (res stateErr PageEntry) Ok l) with (Ok (E:=stateErr) <$> l).
    inversion Hall as [|? ? He Hl]; subst.
    destruct (bool_decide_reflect (out = [])) as [->|Hne]; cbn [andb length app].
    + rewrite H0 in * by done. rewrite !bool_decide_eq_false_2 by (simpl; lia). cbn [orb].
      destruct (IH [e] (0 + entryBytes e)%Z) as (n & -> & Hn & _ & Hl1 & Hl2).
      { done. } { lia. } { simpl. lia. } { done. }
      exists (S n). simpl in *. repeat split; try lia.
      f_equal. f_equal. apply bool_decide_ext. lia.
    + destruct (bool_decide (limit ≤ _)%Z || _) eqn:E.
      * exists 0. rewrite take_0, app_nil_r, bool_decide_eq_true_2 by lia. unfold page_bytes. simpl.
        repeat split; try done; try lia.
      * apply orb_false_iff in E as [E1%bool_decide_eq_false E2%bool_decide_eq_false].
        destruct (IH (out ++ [e]) (used + entryBytes e)%Z) as (n & -> & Hn & _ & Hl1 & Hl2).
        { by destruct out. } { lia. } { rewrite length_app. simpl. lia. } { done. }
        exists (S n). simpl. rewrite <- app_assoc. simpl. rewrite length_app in Hl1. simpl in Hl1.
        repeat split; try done; try lia. do 2 f_equal. apply bool_decide_ext. lia.
Qed.

Lemma after_drop prefix lst keys n k :
  StronglySorted str_lt keys → last (take n (after prefix lst keys)) = Some k →
  after prefix k keys = drop n (after prefix lst keys).
Proof.
  intros Hs Hk. assert (Hs' : StronglySorted str_lt (after prefix lst keys)) by by apply sorted_filter.
  apply last_Some in Hk as [pre Hpre].
  assert (Hsplit : after prefix lst keys = (pre ++ [k]) ++ drop n (after prefix lst keys))
    by by rewrite <- Hpre, take_drop.
  assert (Hlt : str_lt lst k).
  { assert (k ∈ after prefix lst keys) as [[_ ?] _]%list_elem_of_filter; [|done].
    rewrite Hsplit. apply elem_of_app. left. apply elem_of_app. right. left. }
  assert (after prefix k keys = filter (λ x, str_lt k x) (after prefix lst keys)) as ->.
  { unfold after. rewrite list_filter_filter. apply filter_ext_in. intros x _. split.
    - intros [? ?]. split; [done|]. split; [done|by trans k].
    - by intros [? [? _]]. }
  rewrite Hsplit in Hs' |- * at 1. rewrite list.filter_app.
  rewrite <- app_assoc in Hs'. simpl in Hs'.
  apply StronglySorted_app_1_r in Hs' as Hs2.
  inversion Hs2 as [|? ? _ Hdrop]; subst. rewrite (filter_all (λ x, str_lt k x) (drop _ _)) by done.
  rewrite filter_none_nil; [done|]. intros x [Hx| ->%list_elem_of_singleton]%elem_of_app Hkx.
  - apply (str_lt_irrefl x). trans k; [|done].
    eapply (StronglySorted_app_1_elem_of _ pre); [exact Hs'|done|left].
  - by apply str_lt_irrefl in Hkx.
Qed.

Lemma next_cursor plugin prefix k :
  isText plugin → isText prefix → isText k →
  decodeCursor plugin prefix (encodeCursor plugin prefix k) = Ok k.
Proof.
  intros Hp Hpre Hk. unfold decodeCursor, encodeCursor. rewrite bool_decide_eq_false_2 by apply token_nonempty.
  rewrite token_round_trip by done. simpl. by rewrite !String.eqb_refl.
Qed.

Lemma scan_from l a s plugin prefix limit maxBytes :
  serves l a s → plugin ≠ "" → isText plugin → isText prefix → (1 ≤ limit ≤ 256)%Z → (1 ≤ maxBytes)%Z →
  (∀ k, k ∈ sorted_keys (bucket_of a plugin) →
     isText k ∧ (entryBytes (page_entry a plugin k) ≤ maxBytes)%Z) →
  ∀ fuel cursor lst, decodeCursor plugin prefix cursor = Ok lst →
  lst = "" ∨ HasPrefix lst prefix = true →
  let todo := after prefix lst (sorted_keys (bucket_of a plugin)) in
  length todo < fuel →
  ∃ pages, scanAll fuel s plugin prefix cursor limit maxBytes = Ok pages ∧
    concat pages = page_entry a plugin <$> todo ∧
    Forall (λ page, (Z.of_nat (length page) ≤ limit ∧ page_bytes page ≤ maxBytes)%Z) pages.
Proof.
  intros Hs Hp Htp Htx Hlim HmB Hk. set (keys := sorted_keys (bucket_of a plugin)) in *.
  assert (Hstrict : StronglySorted str_lt keys) by apply sorted_keys_strict.
  induction fuel as [|fuel IH]; intros cursor lst Hc Hl todo Hfuel; [lia|]. simpl.
  rewrite (scan_page l a s plugin prefix cursor lst limit maxBytes) by done.
  unfold spec_page. fold keys. fold todo. rewrite (list_fmap_compose (page_entry a plugin) Ok).
  destruct (pageLoop_take limit maxBytes [] 0 (page_entry a plugin <$> todo))
    as (n & -> & Hn & Hpos & Hlen & Hbytes); try lia; simpl; try lia.
  { apply Forall_fmap, Forall_forall. intros k [_ Hin]%list_elem_of_filter. by apply Hk. }
  rewrite length_fmap in Hn |- *. rewrite <- fmap_take in *.
  rewrite fmap_last. destruct (last (take n todo)) as [k|] eqn:Hlast; simpl.
  - assert (Hkin : k ∈ todo) 
      by (rewrite <- (take_drop n todo); apply elem_of_app; left; by apply last_Some_elem_of).
    apply list_elem_of_filter in Hkin as [[Hpre _] Hkin]. destruct (Hk k Hkin) as [Henc _].
    assert (pe_key (page_entry a plugin k) = k) as -> by (unfold page_entry; by destruct (spec_lookup _ _ _) as [[]|]).
    destruct (bool_decide_reflect (n < length todo)) as [Hlt|Hge].
    + rewrite bool_decide_eq_false_2 by apply token_nonempty. simpl.
      destruct (IH (encodeCursor plugin prefix k) k) as (pages & -> & Hcat & Hall).
      { by apply next_cursor. } { by right. }
      { rewrite (after_drop prefix lst keys n k) by done. fold todo. rewrite length_drop.
        destruct n; [by rewrite take_0 in Hlast|]. lia. }
      rewrite (after_drop prefix lst keys n k) in Hcat by done. fold todo in Hcat.
      exists ((page_entry a plugin <$> take n todo) :: pages). split; [done|]. split.
      * simpl. rewrite Hcat, <- fmap_app. by rewrite take_drop.
      * constructor; [|done]. rewrite length_fmap, length_take. lia.
    + exists [page_entry a plugin <$> take n todo]. rewrite bool_decide_eq_true_2 by done.
      split; [done|]. simpl. rewrite app_nil_r, take_ge by lia. split; [done|].
      constructor; [|done]. rewrite take_ge in Hbytes by lia. rewrite length_fmap. lia.
  - apply last_None in Hlast. rewrite Hlast in *. simpl.
    destruct todo as [|k todo'] eqn:Et.
    + exists [[]]. split; [done|]. split; [done|]. constructor; [|done]. simpl. lia.
    + destruct n; [|done]. specialize (Hpos eq_refl ltac:(done)). lia.
Qed.

(** C4. Paging is complete: a client that follows the cursors of a store that
    does not change gets every entry whose key has the prefix, each once and in
    byte order, in pages within the entry and byte limits.  It takes at most one
    page more than there are entries.  Conditions: the name, the prefix and the keys
    are valid UTF-8, as the strings of the host calls are (the cursor is JSON, which
    cannot carry other bytes), and no single entry exceeds the byte limit (the scan
    returns an error at such an entry). *)
Theorem scan_pages_complete l a s plugin prefix limit maxBytes fuel :
  serves l a s → plugin ≠ "" → isText plugin → isText prefix → (1 ≤ limit ≤ 256)%Z → (1 ≤ maxBytes)%Z →
  (∀ k, k ∈ spec_keys a plugin →
     isText k ∧ (entryBytes (page_entry a plugin k) ≤ maxBytes)%Z) →
  length (spec_keys a plugin) < fuel →
  ∃ pages, scanAll fuel s plugin prefix "" limit maxBytes = Ok pages ∧
    concat pages = page_entry a plugin <$> filter (λ k, HasPrefix k prefix = true) (spec_keys a plugin) ∧
    Forall (λ page, (Z.of_nat (length page) ≤ limit ∧ page_bytes page ≤ maxBytes)%Z) pages.
Proof.
  intros Hs Hp Htp Htx Hlim HmB. unfold spec_keys. rewrite (bool_decide_eq_false_2 _ Hp). intros Hk Hfuel.
  destruct (scan_from l a s plugin prefix limit maxBytes Hs Hp Htp Htx Hlim HmB Hk fuel "" "")
    as (pages & -> & Hcat & Hall); auto.
  { eapply Nat.le_lt_trans; [apply length_filter|done]. }
  exists pages. split; [done|]. split; [|done]. rewrite Hcat. f_equal. apply filter_ext_in.
  intros k Hin. split; [by intros [? _]|]. intros Hpre. split; [done|]. split; [apply str_le_nil|].
  intros <-. by eapply spec_keys_nonempty; [apply Hs|].
Qed.
End Pages.
