(* ===== verification/PluginStateWitness.v ===== *)
(** * A database and a cursor encoding, and the store at work

    A finite-map database and an encoding of cursor tokens that satisfy the
    interfaces [BoltLaws] and [CursorCodecLaws], and the theorems of the store
    applied to a store on them. *)

From Stdlib Require Import Ascii.
From stdpp Require Import base list strings gmap sets numbers pretty sorting.
From S2P Require Import Prelude ByteStrings Utf8 PluginState PluginStateBolt PluginStateOpen PluginStateTheorems PluginStateScan.

Local Open Scope nat_scope.

(** ** A database of nested buckets *)

Definition files := gmap (list string) (gmap string string).

Definition parent_ok (m : files) (q : list string) : bool :=
  match q with
  | [] => true
  | _ => match m !! removelast q with
         | Some kv => bool_decide (kv !! List.last q "" = None)
         | None => false end
  end.

Definition files_wf (m : files) : bool := forallb (λ e, parent_ok m e.1) (map_to_list m).

Record mdb := mkMdb { mdb_map : files; mdb_wf : files_wf mdb_map = true }.

Definition mk_mdb (m : files) : res string mdb :=
  match decide (files_wf m = true) with left H => Ok (mkMdb m H) | right _ => Err "invalid" end.

Definition children (m : files) (p : list string) : gset string :=
  list_to_set (omap (λ e : list string * gmap string string,
    match e.1 with [] => None | q => if decide (removelast q = p) then Some (List.last q "") else None end)
    (map_to_list m)).

#[export] Instance map_bolt : Bolt := {|
  bolt := mdb;
  HasBucket b p := bool_decide (is_Some (mdb_map b !! p));
  Get b p k := mdb_map b !! p ≫= λ m, m !! k;
  Put b p k v := mk_mdb (alter (<[k := v]>) p (mdb_map b));
  DeleteKey b p k := mk_mdb (alter (delete k) p (mdb_map b));
  CreateBucketIfNotExists b p :=
    mk_mdb (match mdb_map b !! p with Some _ => mdb_map b | None => <[p := ∅]> (mdb_map b) end);
  DeleteBucket b p := mk_mdb (filter (λ e, ¬ p `prefix_of` e.1) (mdb_map b));
  Keys b p := sort_Strings (elements (dom (default ∅ (mdb_map b !! p)) ∪ children (mdb_map b) p));
  KeyN b p := N.of_nat (size (default ∅ (mdb_map b !! p)));
  Commit b := Ok b |}.

Lemma mk_mdb_ok m b : mk_mdb m = Ok b → mdb_map b = m.
Proof. unfold mk_mdb. destruct (decide _); [|done]. by intros [= <-]. Qed.

Lemma mdb_parent (b : mdb) p k kv : mdb_map b !! (p ++ [k]) = Some kv →
  ∃ m, mdb_map b !! p = Some m ∧ m !! k = None.
Proof.
  intros H. pose proof (mdb_wf b) as Hw. unfold files_wf in Hw. rewrite forallb_forall in Hw.
  assert (Hin : In (p ++ [k], kv) (map_to_list (mdb_map b))).
  { by apply list_elem_of_In, elem_of_map_to_list. }
  specialize (Hw _ Hin). unfold parent_ok in Hw. simpl in Hw.
  destruct (p ++ [k]) eqn:E; [by destruct p|]. rewrite <- E in Hw.
  rewrite removelast_last, List.last_last in Hw.
  destruct (mdb_map b !! p) as [m|]; [|done]. exists m. split; [done|]. by apply bool_decide_eq_true in Hw.
Qed.

Lemma children_elem m p k : k ∈ children m p ↔ is_Some (m !! (p ++ [k])).
Proof.
  unfold children. rewrite elem_of_list_to_set, list_elem_of_omap. split.
  - intros ([q kv] & Hin & Hq). apply elem_of_map_to_list in Hin.
    assert (Hq' : q = p ++ [k]).
    { destruct q as [|x q]; [done|]. cbn [fst] in Hq. destruct (decide _) as [<-|]; [|done].
      apply (inj Some) in Hq as <-. by apply app_removelast_last. }
    subst q. eauto.
  - intros [kv Hk]. exists (p ++ [k], kv). split; [by apply elem_of_map_to_list|]. cbn [fst].
    pose proof (removelast_last p k) as Hr. pose proof (List.last_last p k "") as Hl.
    destruct (p ++ [k]) eqn:E; [by destruct p|]. by rewrite Hr, Hl, decide_True.
Qed.

Lemma sort_set_strict (X : gset string) : StronglySorted str_lt (sort_Strings (elements X)).
Proof.
  pose proof (sorted_keys_strict (gset_to_gmap tt X)) as H. unfold sorted_keys in H.
  by rewrite dom_gset_to_gmap in H.
Qed.

#[export] Instance map_bolt_laws : BoltLaws map_bolt.
Proof.
  unshelve econstructor; [exact mdb_map|..]; simpl; try done;
    try (intros; by eapply mk_mdb_ok).
  - intros b p b' ->%mk_mdb_ok q. case_dec.
    + apply map_lookup_filter_None. right. intros ? ?. simpl. naive_solver.
    + apply option_eq. intros x. rewrite map_lookup_filter_Some. simpl. naive_solver.
  - intros b p. split; [apply sort_set_strict|]. intros k.
    rewrite sort_Strings_perm, elem_of_elements, elem_of_union, elem_of_dom, children_elem.
    rewrite bool_decide_eq_true. destruct (mdb_map b !! p) as [m|]; simpl; [done|].
    rewrite lookup_empty. done.
  - intros b p k [kv Hk]%bool_decide_eq_true. destruct (mdb_parent b p k kv Hk) as (m & Hm & _).
    apply bool_decide_eq_true. eauto.
  - intros b p k [kv Hk]%bool_decide_eq_true. destruct (mdb_parent b p k kv Hk) as (m & Hm & ?).
    change (mdb_map b !! p ≫= (λ m, m !! k) = None). by rewrite Hm.
  - intros b p m Hm _. change (N.of_nat (size (default ∅ (mdb_map b !! p))) = N.of_nat (size m)).
    change (mdb_map b !! p = Some m) in Hm. by rewrite Hm.
  - by intros b b' [= ->].
Qed.

(** ** A cursor encoding *)

Fixpoint bits (p : positive) : string :=
  match p with
  | xH => "."
  | xO p' => String "0"%char (bits p')
  | xI p' => String "1"%char (bits p')
  end.

Fixpoint unbits (s : string) : option positive :=
  match s with
  | String c s' =>
      if Ascii.eqb c "0"%char then xO <$> unbits s'
      else if Ascii.eqb c "1"%char then xI <$> unbits s' else Some xH
  | "" => None
  end.

Lemma unbits_bits p : unbits (bits p) = Some p.
Proof. induction p as [p IH|p IH|]; simpl; by rewrite ?IH. Qed.

(** What JSON carries of a string: other bytes come back as replacement characters. *)
Definition viaJSON (s : string) : string := from_option bstr "" (Unmarshal (Marshal (lit s))).
Lemma viaJSON_text s : isText s → viaJSON s = s.
Proof. intros Hs. unfold viaJSON. rewrite unmarshal_marshal by done. apply bstr_lit. Qed.

#[export] Instance bits_codec : CursorCodec := {|
  encodeToken t := bits (encode (viaJSON (tok_plugin t), viaJSON (tok_prefix t), viaJSON (tok_last t)));
  decodeToken s := p ← unbits s; '(a, b, c) ← decode p; Some (mkToken a b c) |}.

#[export] Instance bits_codec_laws : CursorCodecLaws bits_codec.
Proof.
  split.
  - intros [a b c] (Ha & Hb & Hc). simpl in *. rewrite unbits_bits. simpl. rewrite countable.decode_encode. simpl. by rewrite !viaJSON_text.
  - intros t. simpl. by destruct (encode _).
Qed.

(** ** The store at work *)

Definition root : mdb := mkMdb {[ [] := ∅ ]} eq_refl.
Definition demo_env : openEnv := mkOpenEnv true (Some root) true.
Definition disk_opts : Options := mkOptions "/state.db" 64 1000 8.
Definition mem_opts : Options := mkOptions "" 64 1000 8.
Definition disk_store : Store := (New disk_opts demo_env).1.
Definition mem_store : Store := (New mem_opts demo_env).1.

Definition demo_ops : list op :=
  [ OpCAS "p" "k1" "v1" None; OpCAS "p" "k1" "v2" (Some "1"); OpCAS "p" "k2" "w" None;
    OpCAS "p" "k1" "x" None; OpDelete "p" "k1"; OpCAS "p" "k1" "v3" None; OpGet "p" "k1" ].

Definition mem_after : Store := (run mem_store demo_ops).2.
Definition spec_after : spec := (spec_run (opt_limits mem_opts) spec0 demo_ops).2.

Lemma demo_fit : limits_fit (opt_limits mem_opts) ∧ (0 ≤ maxT (opt_limits mem_opts))%Z.
Proof. unfold limits_fit. vm_compute. repeat split; discriminate || reflexivity. Qed.

Lemma demo_ops_fit : Forall op_fits demo_ops.
Proof. repeat constructor. Qed.

Lemma disk_opens : New disk_opts demo_env = (disk_store, None).
Proof.
  assert (E : (New disk_opts demo_env).2 = None) by (vm_compute; reflexivity).
  rewrite (surjective_pairing (New disk_opts demo_env)), E. reflexivity.
Qed.

Lemma demo_serves : serves (opt_limits mem_opts) spec_after mem_after.
Proof.
  destruct demo_fit as [Hf HT].
  destruct (new_serves mem_opts demo_env mem_store Hf HT eq_refl) as (a & _ & Hm).
  destruct (Hm eq_refl) as [-> Hr]. split; [done| |left].
  - by apply spec_run_inv, spec0_inv.
  - by apply mem_run.
Qed.

Lemma store_history_witness :
  ∃ a a', history (opt_limits disk_opts) a demo_ops (run disk_store demo_ops).1 a' ∧
    serves (opt_limits disk_opts) a disk_store ∧
    serves (opt_limits disk_opts) a' (run disk_store demo_ops).2 ∧
    (opt_path disk_opts = "" → a = spec0 ∧
       (run disk_store demo_ops).1 = (spec_run (opt_limits disk_opts) spec0 demo_ops).1).
Proof.
  apply (store_history disk_opts demo_env disk_store demo_ops).
  - apply demo_fit.
  - apply demo_fit.
  - apply demo_ops_fit.
  - apply disk_opens.
Defined.

Lemma store_quotas_witness :
  (0 ≤ TotalBytes mem_after ≤ maxTotalBytes mem_after)%Z ∧
  ∀ p, (Len mem_after p ≤ Z.max 0 (maxKeysPerPlugin mem_after))%Z ∧
  ∀ k v ver, GetVersioned mem_after p k = Ok (v, ver, true) → (len v ≤ maxValueBytes mem_after)%Z.
Proof. apply (store_quotas (opt_limits mem_opts) spec_after), demo_serves. Defined.

Lemma compare_and_set_ok_witness :
  (∃ w, GetVersioned mem_after "p" "k1" = Ok (w, "4", true)) ∧
  GetVersioned (CompareAndSet mem_after "p" "k1" "new" (Some "4")).2 "p" "k1" = Ok ("new", "5", true).
Proof.
  destruct (compare_and_set_ok (opt_limits mem_opts) spec_after mem_after "p" "k1" "new" (Some "4") "5"
              (CompareAndSet mem_after "p" "k1" "new" (Some "4")).2 demo_serves) as (H1 & H2 & _).
  - vm_compute. reflexivity.
  - rewrite (surjective_pairing (CompareAndSet _ _ _ _ _)) at 1. reflexivity.
  - split; [exact H1|exact H2].
Defined.

Lemma versions_never_reused_witness :
  omap issued (run mem_after demo_ops).1 = ["5"] ∧ NoDup (omap issued (run mem_after demo_ops).1).
Proof.
  split; [vm_compute; reflexivity|].
  apply (versions_never_reused (opt_limits mem_opts) spec_after), demo_ops_fit. apply demo_serves.
Defined.

Lemma validate_exact_witness :
  ∃ b, db disk_store = Some b ∧
  ∃ a, tx_rel a b ∧ spec_inv (limits_of disk_store) a.
Proof.
  eexists. split; [reflexivity|].
  apply (proj1 (validate_exact disk_store _ (proj1 demo_fit))). vm_compute. reflexivity.
Defined.

Lemma reopen_same_witness :
  ∃ a s b, db s = Some b ∧
  match New disk_opts (mkOpenEnv true (Some b) true) with
  | (s', None) => serves (opt_limits disk_opts) a s'
  | (_, Some e) => is_backend e = true
  end.
Proof.
  destruct (new_serves disk_opts demo_env disk_store (proj1 demo_fit) (proj2 demo_fit))
    as (a & Ha & _); [apply disk_opens|].
  destruct (serves_run _ a disk_store demo_ops Ha demo_ops_fit) as (a' & _ & Ha').
  assert (Hdb : bool_decide (is_Some (db (run disk_store demo_ops).2)) = true)
    by (vm_compute; reflexivity).
  apply bool_decide_eq_true in Hdb as [b Hb].
  exists a', (run disk_store demo_ops).2, b. split; [exact Hb|].
  apply (reopen_same disk_opts a' (run disk_store demo_ops).2 b Ha'); [discriminate|exact Hb].
Defined.

Lemma scan_pages_complete_witness :
  ∃ pages, scanAll 5 mem_after "p" "k" "" 1 100 = Ok pages ∧
    concat pages = page_entry spec_after "p" <$> filter (λ k, HasPrefix k "k" = true) (spec_keys spec_after "p") ∧
    Forall (λ page, (Z.of_nat (length page) ≤ 1 ∧ page_bytes page ≤ 100)%Z) pages.
Proof.
  apply (scan_pages_complete (opt_limits mem_opts) spec_after mem_after).
  - apply demo_serves.
  - discriminate.
  - vm_compute. reflexivity.
  - vm_compute. reflexivity.
  - lia.
  - lia.
  - apply Forall_forall. vm_compute. repeat constructor; discriminate.
  - vm_compute. lia.
Defined.
