(* ===== verification/RawJSON.v ===== *)
(** * JSON authorities and the span editor

    [internal/engine/rawjson.go]: three immutable wrappers around validated JSON
    bytes ([OptionalJSONObject], [RequiredJSONObject], [OptionalJSONArray]) and
    the editor they share, which finds the exact spans of the members of an
    object ([parseObjectSpans]) and splices bytes, so that what is not edited
    keeps its lexemes, order and whitespace.

    The strict validator [jsontext.Validate] belongs to the plugin SDK and is the
    parameter [JSONText].  A nil slice is [None]; error texts are constructors.
    [DecodeArray] reads with [encoding/json]'s streaming decoder and is not
    modelled. *)

From stdpp Require Import base list strings gmap numbers.
From S2P Require Import Prelude Utf8.

Open Scope Z_scope.

Class JSONText := { Validate : bytes → res string unit }.

Inductive jsonErr :=
| KeyNotUTF8
| EmptyNotObject | EmptyNotArray
| Invalid (why : string)
| MustBeObject | MustBeArray
| AbsentNoMembers
| ExpectedSeparator | ExpectedString | Unterminated | MemberName | ExpectedColon | MissingValue
| UnterminatedComposite
| InvalidMember (why : string)
| ProducedInvalid (e : jsonErr)
| OutOfFuel.

(** ** The scanner *)

Definition isJSONSpace (c : Z) : bool := (c =? 0x20) || (c =? 0x09) || (c =? 0x0A) || (c =? 0x0D).

Definition comma : Z := 0x2C.
Definition colon : Z := 0x3A.
Definition lbrace : Z := 0x7B.
Definition rbrace : Z := 0x7D.
Definition lbracket : Z := 0x5B.
Definition rbracket : Z := 0x5D.

Fixpoint spaces (l : bytes) : nat :=
  match l with
  | c :: l' => if isJSONSpace c then S (spaces l') else 0
  | [] => 0
  end%nat.

(** [for p < len(raw) && isJSONSpace(raw[p]) { p++ }] *)
Definition skipSpace (raw : bytes) (p : nat) : nat := (p + spaces (drop p raw))%nat.

(** [p < len(raw) && raw[p] == c] *)
Definition byteAt (raw : bytes) (p : nat) (c : Z) : bool :=
  match drop p raw with x :: _ => x =? c | [] => false end.

(** The bytes up to and with the closing quote. *)
Fixpoint stringBody (l : bytes) : option nat :=
  match l with
  | [] => None
  | c :: l' =>
      if c =? backslash then
        match l' with
        | [] => None
        | _ :: l'' => (λ n, S (S n)) <$> stringBody l''
        end
      else if c =? quote then Some 1%nat
      else S <$> stringBody l'
  end.

Definition scanJSONStringEnd (raw : bytes) (start : nat) : res jsonErr nat :=
  match drop start raw with
  | c :: l =>
      if c =? quote then
        match stringBody l with Some n => Ok (S start + n)%nat | None => Err Unterminated end
      else Err ExpectedString
  | [] => Err ExpectedString
  end.

Definition isDelimiter (c : Z) : bool :=
  (c =? comma) || (c =? rbrace) || (c =? rbracket) || isJSONSpace c.

Fixpoint scalarLen (l : bytes) : nat :=
  match l with
  | c :: l' => if isDelimiter c then 0 else S (scalarLen l')
  | [] => 0
  end%nat.

(** The loop over a composite value. *)
Fixpoint composite (fuel : nat) (raw : bytes) (depth : Z) (p : nat) : res jsonErr nat :=
  match fuel with
  | O => Err OutOfFuel
  | S fuel =>
      match drop p raw with
      | [] => Err UnterminatedComposite
      | c :: _ =>
          if c =? quote then e ←? scanJSONStringEnd raw p; composite fuel raw depth e
          else if (c =? lbrace) || (c =? lbracket) then composite fuel raw (depth + 1) (S p)
          else if (c =? rbrace) || (c =? rbracket) then
            if depth - 1 =? 0 then Ok (S p) else composite fuel raw (depth - 1) (S p)
          else composite fuel raw depth (S p)
      end
  end.

Definition scanJSONValueEnd (raw : bytes) (start : nat) : res jsonErr nat :=
  match drop start raw with
  | [] => Err MissingValue
  | c :: _ =>
      if c =? quote then scanJSONStringEnd raw start
      else if negb (c =? lbrace) && negb (c =? lbracket)
      then Ok (start + scalarLen (drop start raw))%nat
      else composite (S (length raw)) raw 0 start
  end.

(** ** Member spans *)

Record memberSpan := mkSpan {
  keyStart : nat; sepStart : nat; valStart : nat; valEnd : nat; sepEnd : nat }.

(** [raw[a:b]] *)
Definition slice (raw : bytes) (a b : nat) : bytes := take (b - a) (drop a raw).

Abbreviation spanMap := (gmap bytes memberSpan).

(** One member, from the offset after the previous value or the brace. *)
Definition parseMember (raw : bytes) (first : bool) (p : nat)
    : res jsonErr (bytes * memberSpan) :=
  let sep := p in
  p ←? (if first then Ok p
        else if byteAt raw p comma then Ok (skipSpace raw (S p)) else Err ExpectedSeparator);
  let ks := p in
  ke ←? scanJSONStringEnd raw p;
  key ←? match Unmarshal (slice raw ks ke) with Some k => Ok k | None => Err MemberName end;
  let p := skipSpace raw ke in
  if negb (byteAt raw p colon) then Err ExpectedColon else
  let vs := skipSpace raw (S p) in
  ve ←? scanJSONValueEnd raw vs;
  let q := skipSpace raw ve in
  let se := if byteAt raw q comma then skipSpace raw (S q) else ve in
  Ok (key, mkSpan ks sep vs ve se).

Fixpoint parseMembers (fuel : nat) (raw : bytes) (first : bool) (p : nat)
    (order : list bytes) (spans : spanMap) : res jsonErr (list bytes * spanMap * nat) :=
  match fuel with
  | O => Err OutOfFuel
  | S fuel =>
      let p := skipSpace raw p in
      if byteAt raw p rbrace then Ok (order, spans, p)
      else
        '(key, sp) ←? parseMember raw first p;
        parseMembers fuel raw false (valEnd sp) (order ++ [key]) (<[key := sp]> spans)
  end.

Definition parseObjectSpans (raw : bytes) : res jsonErr (list bytes * spanMap * nat) :=
  let p := skipSpace raw 0 in
  if negb (byteAt raw p lbrace) then Err MustBeObject
  else parseMembers (S (length raw)) raw true (S p) [] ∅.

Section Editor.
Context `{V : JSONText}.

(** ** Validation *)

Definition validate (raw : bytes) : res jsonErr unit := map_err Invalid (Validate raw).

Definition validateMemberKey (key : bytes) : res jsonErr unit :=
  if ValidString key then Ok tt else Err KeyNotUTF8.

Fixpoint topLevelJSONByte (raw : bytes) : Z :=
  match raw with
  | c :: raw' => if isJSONSpace c then topLevelJSONByte raw' else c
  | [] => 0
  end.

Definition validateObjectShape (raw : bytes) : res jsonErr unit :=
  if bool_decide (raw = []) then Err EmptyNotObject else
  _ ←? validate raw;
  if topLevelJSONByte raw =? lbrace then Ok tt else Err MustBeObject.

Definition validateObject (raw : bytes) (allowAbsent : bool) : res jsonErr (option bytes) :=
  if bool_decide (raw = []) then (if allowAbsent then Ok None else Err EmptyNotObject) else
  _ ←? validateObjectShape raw; Ok (Some raw).

Definition validateArray (raw : bytes) (allowAbsent : bool) : res jsonErr (option bytes) :=
  if bool_decide (raw = []) then (if allowAbsent then Ok None else Err EmptyNotArray) else
  _ ←? validate raw;
  if topLevelJSONByte raw =? lbracket then Ok (Some raw) else Err MustBeArray.

(** ** The editor *)

(** [bytes.TrimRight(b, " \t\r\n")] *)
Definition trimRight (b : bytes) : bytes := reverse (drop (spaces (reverse b)) (reverse b)).

(** The spliced bytes of [setMember], before they are validated again. *)
Definition setSplice (raw : bytes) (spans : spanMap) (closeBrace : nat) (key value : bytes) : bytes :=
  match spans !! key with
  | Some sp => take (valStart sp) raw ++ value ++ drop (valEnd sp) raw
  | None =>
      let base := trimRight (take closeBrace raw) in
      let innerWS := slice raw (length base) closeBrace in
      base ++ (if bool_decide (list.last base = Some lbrace) then [] else [comma])
        ++ Marshal key ++ [colon] ++ value ++ innerWS ++ [rbrace] ++ drop (S closeBrace) raw
  end.

Definition setMember (raw key value : bytes) : res jsonErr bytes :=
  _ ←? validateMemberKey key;
  _ ←? map_err InvalidMember (Validate value);
  '(_, spans, closeBrace) ←? parseObjectSpans raw;
  let out := setSplice raw spans closeBrace key value in
  _ ←? map_err ProducedInvalid (validateObjectShape out);
  Ok out.

(** The bytes of [deleteMember] for the member at [idx]. *)
Definition deleteSplice (raw : bytes) (order : list bytes) (spans : spanMap) (idx : nat)
    (sp : memberSpan) : bytes :=
  match idx with
  | S i =>
      match order !! i ≫= λ k, spans !! k with
      | Some prev => take (valEnd prev) raw ++ drop (valEnd sp) raw
      | None => raw
      end
  | O =>
      match order !! 1%nat ≫= λ k, spans !! k with
      | Some next => take (keyStart sp) raw ++ drop (keyStart next) raw
      | None => take (keyStart sp) raw ++ drop (valEnd sp) raw
      end
  end.

Definition deleteMember (raw key : bytes) : res jsonErr bytes :=
  _ ←? validateMemberKey key;
  '(order, spans, _) ←? parseObjectSpans raw;
  match list_find (λ k, k = key) order, spans !! key with
  | Some (idx, _), Some sp =>
      let joined := deleteSplice raw order spans idx sp in
      _ ←? map_err ProducedInvalid (validateObjectShape joined);
      Ok joined
  | _, _ => Ok raw
  end.

(** The surviving members of [deleteMembers], each with its own separator. *)
Definition retainedBytes (raw : bytes) (spans : spanMap) (retained : list bytes) : bytes :=
  concat (imap (λ i key,
    match spans !! key with
    | Some sp => (if Nat.eqb i 0 then [] else slice raw (sepStart sp) (keyStart sp))
                   ++ slice raw (keyStart sp) (valEnd sp)
    | None => []
    end) retained).

Definition deleteMembers (raw : bytes) (keys : list bytes) : res jsonErr bytes :=
  '(order, spans, _) ←? parseObjectSpans raw;
  let retained := filter (λ k, k ∉ keys) order in
  if Nat.eqb (length retained) (length order) then Ok raw else
  match list.head order ≫= λ k, spans !! k, list.last order ≫= λ k, spans !! k with
  | Some firstOriginal, Some lastOriginal =>
      let out := take (keyStart firstOriginal) raw ++ retainedBytes raw spans retained
                   ++ drop (valEnd lastOriginal) raw in
      _ ←? map_err ProducedInvalid (validateObjectShape out);
      Ok out
  | _, _ => Ok raw
  end.

(** The ordered view: every member's exact value bytes. *)
Definition decodeObjectView (raw : bytes) : res jsonErr (gmap bytes bytes * list bytes) :=
  '(order, spans, _) ←? parseObjectSpans raw;
  Ok (foldl (λ vals key, match spans !! key with
                         | Some sp => <[key := slice raw (valStart sp) (valEnd sp)]> vals
                         | None => vals end) ∅ order, order).

(** ** The wrappers

    An operation returns its error with the receiver it leaves, which the code
    returns unchanged on every error. *)

Record OptionalJSONObject := mkOptionalObject { oo_bytes : option bytes }.
Record RequiredJSONObject := mkRequiredObject { ro_bytes : option bytes }.
Record OptionalJSONArray := mkOptionalArray { oa_bytes : option bytes }.

Definition emptyObject : bytes := [lbrace; rbrace].

Definition ParseOptionalJSONObject (raw : bytes) : res jsonErr OptionalJSONObject :=
  b ←? validateObject raw true; Ok (mkOptionalObject b).

Definition validateKeys (keys : list bytes) : res jsonErr unit :=
  foldM (λ _ key, validateMemberKey key) tt keys.

Definition ParseOptionalJSONObjectExcluding (raw : bytes) (keys : list bytes)
    : res jsonErr OptionalJSONObject :=
  _ ←? validateKeys keys;
  if bool_decide (raw = []) then Ok (mkOptionalObject None) else
  _ ←? validate raw;
  if topLevelJSONByte raw =? lbrace then
    b ←? deleteMembers raw keys; Ok (mkOptionalObject (Some b))
  else Err MustBeObject.

Definition OptionalObject_IsAbsent (o : OptionalJSONObject) : bool := bool_decide (oo_bytes o = None).
Definition OptionalObject_Bytes (o : OptionalJSONObject) : option bytes := oo_bytes o.
Definition OptionalObject_String (o : OptionalJSONObject) : bytes := default [] (oo_bytes o).
Definition OptionalObject_DecodeObject (o : OptionalJSONObject) : res jsonErr (gmap bytes bytes * list bytes) :=
  match oo_bytes o with None => Err AbsentNoMembers | Some b => decodeObjectView b end.
Definition OptionalObject_Replace (o : OptionalJSONObject) (newBytes : bytes) : res jsonErr OptionalJSONObject :=
  b ←? validateObject newBytes true; Ok (mkOptionalObject b).
Definition OptionalObject_SetMember (o : OptionalJSONObject) (key value : bytes) : res jsonErr OptionalJSONObject :=
  _ ←? validateMemberKey key;
  out ←? setMember (default emptyObject (oo_bytes o)) key value;
  Ok (mkOptionalObject (Some out)).
Definition OptionalObject_DeleteMember (o : OptionalJSONObject) (key : bytes) : res jsonErr OptionalJSONObject :=
  _ ←? validateMemberKey key;
  match oo_bytes o with
  | None => Ok o
  | Some b => out ←? deleteMember b key; Ok (mkOptionalObject (Some out))
  end.
Definition OptionalObject_WithoutMembers (o : OptionalJSONObject) (keys : list bytes) : res jsonErr OptionalJSONObject :=
  _ ←? validateKeys keys;
  match oo_bytes o with
  | None => Ok o
  | Some b => out ←? deleteMembers b keys; Ok (mkOptionalObject (Some out))
  end.

Definition ParseRequiredJSONObject (raw : bytes) : res jsonErr RequiredJSONObject :=
  b ←? validateObject raw false; Ok (mkRequiredObject b).

Definition ParseRequiredObjectOrEmpty (raw : bytes) : res jsonErr RequiredJSONObject :=
  if bool_decide (raw = []) then Ok (mkRequiredObject None) else ParseRequiredJSONObject raw.

Definition RequiredObject_Bytes (r : RequiredJSONObject) : bytes := default emptyObject (ro_bytes r).
Definition RequiredObject_String (r : RequiredJSONObject) : bytes := default emptyObject (ro_bytes r).
Definition RequiredObject_DecodeObject (r : RequiredJSONObject) : res jsonErr (gmap bytes bytes * list bytes) :=
  match ro_bytes r with None => Ok (∅, []) | Some b => decodeObjectView b end.
Definition RequiredObject_Replace (r : RequiredJSONObject) (newBytes : bytes) : res jsonErr RequiredJSONObject :=
  b ←? validateObject newBytes false; Ok (mkRequiredObject b).
Definition RequiredObject_SetMember (r : RequiredJSONObject) (key value : bytes) : res jsonErr RequiredJSONObject :=
  _ ←? validateMemberKey key;
  out ←? setMember (default emptyObject (ro_bytes r)) key value;
  Ok (mkRequiredObject (Some out)).
Definition RequiredObject_DeleteMember (r : RequiredJSONObject) (key : bytes) : res jsonErr RequiredJSONObject :=
  _ ←? validateMemberKey key;
  match ro_bytes r with
  | None => Ok r
  | Some b =>
      out ←? deleteMember b key;
      match parseObjectSpans out with
      | Ok ([], _, _) => Ok (mkRequiredObject None)
      | _ => Ok (mkRequiredObject (Some out))
      end
  end.

Definition ParseOptionalJSONArray (raw : bytes) : res jsonErr OptionalJSONArray :=
  b ←? validateArray raw true; Ok (mkOptionalArray b).

Definition OptionalArray_IsAbsent (a : OptionalJSONArray) : bool := bool_decide (oa_bytes a = None).
Definition OptionalArray_Bytes (a : OptionalJSONArray) : option bytes := oa_bytes a.
Definition OptionalArray_String (a : OptionalJSONArray) : bytes := default [] (oa_bytes a).
Definition OptionalArray_Replace (a : OptionalJSONArray) (newBytes : bytes) : res jsonErr OptionalJSONArray :=
  b ←? validateArray newBytes true; Ok (mkOptionalArray b).
End Editor.
