(* ===== verification/RawJSONGrammar.v ===== *)
(** * JSON texts and the span scanner

    The JSON grammar (RFC 8259) as inductive predicates on bytes, and an object
    as its list of members with the whitespace around each token.  The scanner of
    [RawJSON] does not validate; [parse_text] shows that on every object text it
    finds exactly the members the grammar has, at their exact offsets. *)

From stdpp Require Import base list strings gmap numbers.
From S2P Require Import Prelude Utf8 RawJSON.

Open Scope Z_scope.

(** ** Lexemes *)

Definition all_space (ws : bytes) : Prop := Forall (λ c, isJSONSpace c = true) ws.

Inductive json_chars : bytes → Prop :=
| jc_nil : json_chars []
| jc_plain c s : 0x20 ≤ c → c ≠ quote → c ≠ backslash → json_chars s → json_chars (c :: s)
| jc_escape e s : e ∈ [quote; backslash; 0x2F; 0x62; 0x66; 0x6E; 0x72; 0x74] →
    json_chars s → json_chars (backslash :: e :: s)
| jc_unicode a b c d s : is_Some (hexValue a) → is_Some (hexValue b) → is_Some (hexValue c) →
    is_Some (hexValue d) → json_chars s → json_chars (backslash :: 0x75 :: a :: b :: c :: d :: s).

Definition json_string (l : bytes) : Prop := ∃ s, json_chars s ∧ l = quote :: s ++ [quote].

Definition digits (l : bytes) : Prop := Forall (λ c, 0x30 ≤ c ≤ 0x39) l.

Definition json_number (l : bytes) : Prop :=
  ∃ sign int frac exp, l = sign ++ int ++ frac ++ exp ∧
    (sign = [] ∨ sign = [0x2D]) ∧
    (int = [0x30] ∨ ∃ d ds, int = d :: ds ∧ 0x31 ≤ d ≤ 0x39 ∧ digits ds) ∧
    (frac = [] ∨ ∃ ds, frac = 0x2E :: ds ∧ ds ≠ [] ∧ digits ds) ∧
    (exp = [] ∨ ∃ e sg ds, exp = e :: sg ++ ds ∧ (e = 0x65 ∨ e = 0x45) ∧
       (sg = [] ∨ sg = [0x2B] ∨ sg = [0x2D]) ∧ ds ≠ [] ∧ digits ds).

(** ** Values *)

Record member := mkMember {
  m_pre : bytes; m_key : bytes; m_mid1 : bytes; m_mid2 : bytes; m_val : bytes; m_post : bytes }.

(** A member up to the end of its value, and what separates it from the next. *)
Definition member_head (m : member) : bytes :=
  m_key m ++ m_mid1 m ++ colon :: m_mid2 m ++ m_val m.

(** The rest of an object after a value: whitespace, then the other members. *)
Fixpoint tail_text (ws : bytes) (ms : list member) : bytes :=
  match ms with
  | [] => ws
  | m :: ms' => ws ++ comma :: m_pre m ++ member_head m ++ tail_text (m_post m) ms'
  end.

Definition members_text (inner : bytes) (ms : list member) : bytes :=
  match ms with
  | [] => inner
  | m :: ms' => m_pre m ++ member_head m ++ tail_text (m_post m) ms'
  end.

Definition member_lexical (m : member) : Prop :=
  all_space (m_pre m) ∧ all_space (m_mid1 m) ∧ all_space (m_mid2 m) ∧ all_space (m_post m) ∧
  json_string (m_key m).

Fixpoint elements_text (ws : bytes) (es : list (bytes * bytes * bytes)) : bytes :=
  match es with
  | [] => ws
  | (pre, v, post) :: es' => ws ++ comma :: pre ++ v ++ elements_text post es'
  end.

Inductive json_value : bytes → Prop :=
| jv_string s : json_string s → json_value s
| jv_number s : json_number s → json_value s
| jv_literal s : s ∈ [lit "true"; lit "false"; lit "null"] → json_value s
| jv_object inner ms : all_space inner → Forall member_lexical ms →
    (∀ m, m ∈ ms → json_value (m_val m)) → json_value (lbrace :: members_text inner ms ++ [rbrace])
| jv_array0 ws : all_space ws → json_value (lbracket :: ws ++ [rbracket])
| jv_array pre v post es : all_space pre → all_space post → json_value v →
    (∀ p x q, (p, x, q) ∈ es → all_space p ∧ all_space q) →
    (∀ p x q, (p, x, q) ∈ es → json_value x) →
    json_value (lbracket :: pre ++ v ++ elements_text post es ++ [rbracket]).

Definition json_text (l : bytes) : Prop :=
  ∃ pre v post, all_space pre ∧ json_value v ∧ all_space post ∧ l = pre ++ v ++ post.

(** ** Scanning lexemes *)

Lemma spaces_app ws l : all_space ws → spaces (ws ++ l) = (length ws + spaces l)%nat.
Proof. induction 1 as [|c ws Hc _ IH]; simpl; [done|]. by rewrite Hc, IH. Qed.

Lemma skipSpace_at raw pre ws l : raw = pre ++ ws ++ l → all_space ws → spaces l = 0%nat →
  skipSpace raw (length pre) = length (pre ++ ws).
Proof.
  intros -> Hws Hl. unfold skipSpace. rewrite drop_app_length, spaces_app, Hl, length_app by done. lia.
Qed.

Lemma byteAt_at raw pre c l x : raw = pre ++ c :: l → byteAt raw (length pre) x = (c =? x).
Proof. intros ->. unfold byteAt. by rewrite drop_app_length. Qed.

Lemma hexValue_char c : is_Some (hexValue c) → c ≠ quote ∧ c ≠ backslash ∧ 0x20 ≤ c.
Proof.
  unfold hexValue. intros [v H]. unfold quote, backslash.
  destruct (within 0x30 0x39 c) eqn:E1; [apply within_spec in E1; lia|].
  destruct (within 0x61 0x66 c) eqn:E2; [apply within_spec in E2; lia|].
  destruct (within 0x41 0x46 c) eqn:E3; [apply within_spec in E3; lia|done].
Qed.

Lemma stringBody_plain c l : c ≠ quote → c ≠ backslash → stringBody (c :: l) = S <$> stringBody l.
Proof. intros Hq%Z.eqb_neq Hb%Z.eqb_neq. simpl. by rewrite Hb, Hq. Qed.

Lemma stringBody_escape e l : stringBody (backslash :: e :: l) = (λ n, S (S n)) <$> stringBody l.
Proof. done. Qed.

Lemma stringBody_chars s rest : json_chars s → stringBody (s ++ quote :: rest) = Some (S (length s)).
Proof.
  induction 1 as [|c s Hc Hq Hb _ IH|e s He _ IH|a b c d s Ha Hb Hc Hd _ IH]; rewrite <- ?app_comm_cons.
  - done.
  - by rewrite stringBody_plain, IH.
  - by rewrite stringBody_escape, IH.
  - destruct (hexValue_char a Ha) as (? & ? & _), (hexValue_char b Hb) as (? & ? & _),
      (hexValue_char c Hc) as (? & ? & _), (hexValue_char d Hd) as (? & ? & _).
    by rewrite stringBody_escape, !stringBody_plain, IH.
Qed.

Lemma scan_string raw pre l rest : json_string l → raw = pre ++ l ++ rest →
  scanJSONStringEnd raw (length pre) = Ok (length (pre ++ l)).
Proof.
  intros (s & Hs & ->) ->. unfold scanJSONStringEnd. rewrite drop_app_length. simpl.
  rewrite <- app_assoc. simpl. rewrite stringBody_chars by done.
  f_equal. rewrite !length_app. simpl. rewrite length_app. simpl. lia.
Qed.

(** ** Scanning values *)

(** A byte the composite loop passes over. *)
Definition neutral (c : Z) : bool :=
  negb ((c =? quote) || (c =? lbrace) || (c =? lbracket) || (c =? rbrace) || (c =? rbracket)).

Inductive balanced : bytes → Prop :=
| bal_nil : balanced []
| bal_byte c l : neutral c = true → balanced l → balanced (c :: l)
| bal_string s l : json_string s → balanced l → balanced (s ++ l)
| bal_nest o l1 c l2 : (o = lbrace ∨ o = lbracket) → balanced l1 → (c = rbrace ∨ c = rbracket) →
    (o = lbrace ↔ c = rbrace) → balanced l2 → balanced (o :: l1 ++ c :: l2).

Lemma balanced_app l1 l2 : balanced l1 → balanced l2 → balanced (l1 ++ l2).
Proof.
  intros H1 H2. induction H1 as [|c l Hc _ IH|s l Hs _ IH|o l c l' Ho Hl _ Hc Hm _ IH]; simpl; [done|..].
  - by constructor.
  - rewrite <- app_assoc. by constructor.
  - rewrite <- app_assoc. simpl. by constructor.
Qed.

Lemma balanced_neutral l : Forall (λ c, neutral c = true) l → balanced l.
Proof. induction 1; by constructor. Qed.

Lemma balanced_space ws : all_space ws → balanced ws.
Proof.
  intros H. apply balanced_neutral. eapply Forall_impl; [|exact H]. intros c. unfold isJSONSpace.
  rewrite !orb_true_iff, !Z.eqb_eq. intros [[[->| ->]| ->]| ->]; done.
Qed.

Lemma neutral_step fuel raw d pre c l : neutral c = true → raw = pre ++ c :: l →
  composite (S fuel) raw d (length pre) = composite fuel raw d (S (length pre)).
Proof.
  intros Hc ->. unfold neutral in Hc. apply negb_true_iff in Hc. rewrite !orb_false_iff in Hc.
  destruct Hc as [[[[H1 H2] H3] H4] H5]. cbn [composite]. rewrite drop_app_length, H1, H2, H3, H4, H5. done.
Qed.

(** Inside a composite, balanced text is passed over at the same depth. *)
Lemma composite_skip l : balanced l → ∀ raw pre rest d fuel,
  raw = pre ++ l ++ rest → 1 ≤ d → (length l < fuel)%nat →
  ∃ fuel', (fuel ≤ fuel' + length l)%nat ∧ composite fuel raw d (length pre) = composite fuel' raw d (length (pre ++ l)).
Proof.
  induction 1 as [|c l Hc _ IH|s l Hs _ IH|o l c l' Ho _ IH1 Hc _ _ IH2]; intros raw pre rest d fuel Hraw Hd Hf.
  - exists fuel. rewrite app_nil_r. split; [simpl; lia|done].
  - simpl in Hf. destruct fuel as [|fuel]; [lia|].
    destruct (IH raw (pre ++ [c]) rest d fuel) as (f' & Hf' & He); [by rewrite <- app_assoc|lia|lia|].
    exists f'. split; [simpl; lia|].
    rewrite (neutral_step _ _ _ _ c (l ++ rest) Hc Hraw).
    replace (S (length pre)) with (length (pre ++ [c])) by (rewrite length_app; simpl; lia).
    by rewrite He, <- app_assoc.
  - rewrite length_app in Hf. destruct fuel as [|fuel]; [lia|].
    assert (Hlen : (2 ≤ length s)%nat) by (destruct Hs as (x & _ & ->); simpl; rewrite length_app; simpl; lia).
    destruct (IH raw (pre ++ s) rest d fuel) as (f' & Hf' & He); [by rewrite Hraw, <- !app_assoc|lia|lia|].
    exists f'. split; [rewrite length_app; lia|]. rewrite app_assoc, <- He.
    rewrite <- app_assoc in Hraw. pose proof (scan_string raw pre s (l ++ rest) Hs Hraw) as Hsc.
    cbn [composite]. destruct Hs as (x & Hx & ->). rewrite Hraw at 1. rewrite drop_app_length. simpl.
    by rewrite Hsc.
  - simpl in Hf. rewrite length_app in Hf. simpl in Hf. destruct fuel as [|fuel]; [lia|].
    assert (Hraw1 : raw = (pre ++ [o]) ++ l ++ (c :: l' ++ rest)) by (rewrite Hraw, <- !app_assoc; simpl; by rewrite <- app_assoc).
    destruct (IH1 raw (pre ++ [o]) (c :: l' ++ rest) (d + 1) fuel) as (f1 & Hf1 & He1); [done|lia|lia|].
    destruct f1 as [|f1]; [lia|].
    assert (Hraw2 : raw = ((pre ++ [o]) ++ l ++ [c]) ++ l' ++ rest) by (rewrite Hraw1, <- !app_assoc; done).
    destruct (IH2 raw ((pre ++ [o]) ++ l ++ [c]) rest d f1) as (f2 & Hf2 & He2); [done|lia|lia|].
    exists f2. split; [simpl; rewrite length_app; simpl; lia|].
    assert (Hend : length (pre ++ o :: l ++ c :: l') = length (((pre ++ [o]) ++ l ++ [c]) ++ l'))
      by (rewrite !length_app; simpl; rewrite !length_app; simpl; lia).
    rewrite Hend, <- He2. transitivity (composite fuel raw (d + 1) (length (pre ++ [o]))).
    { cbn [composite]. rewrite Hraw at 1. rewrite drop_app_length, length_app, Nat.add_1_r. simpl.
      by destruct Ho as [->| ->]. }
    rewrite He1. cbn [composite].
    assert (Hdrop : drop (length ((pre ++ [o]) ++ l)) raw = c :: l' ++ rest)
      by (rewrite Hraw1, app_assoc; apply drop_app_length).
    rewrite Hdrop. replace (d + 1 - 1) with d by lia. rewrite (proj2 (Z.eqb_neq d 0)) by lia.
    replace (S (length ((pre ++ [o]) ++ l))) with (length ((pre ++ [o]) ++ l ++ [c]))
      by (rewrite !length_app; simpl; lia).
    by destruct Hc as [->| ->].
Qed.

(** A byte of a number or a literal. *)
Definition scalar_byte (c : Z) : bool := neutral c && negb (isDelimiter c).

Lemma digits_scalar ds : digits ds → Forall (λ c, scalar_byte c = true) ds.
Proof.
  intros H. eapply Forall_impl; [|exact H]. intros c Hc. unfold scalar_byte, neutral, isDelimiter, isJSONSpace,
    quote, lbrace, lbracket, rbrace, rbracket, comma.
  cbv beta in Hc.  repeat match goal with |- context [c =? ?k] => rewrite (proj2 (Z.eqb_neq c k)) by lia end. done.
Qed.

Lemma number_scalar s : json_number s → s ≠ [] ∧ Forall (λ c, scalar_byte c = true) s.
Proof.
  intros (sg & int & fr & ex & -> & Hsg & Hint & Hfr & Hex).
  assert (Forall (λ c, scalar_byte c = true) int ∧ int ≠ []) as [Hi Hne].
  { destruct Hint as [->|(d & ds & -> & Hd & Hds)]; [by split; [repeat constructor|]|].
    split; [|done]. apply (digits_scalar (d :: ds)). constructor; [lia|done]. }
  split. { destruct Hsg as [->| ->]; [|done]. by destruct int. }
  rewrite !Forall_app. repeat split; [|done|..].
  - destruct Hsg as [->| ->]; by repeat constructor.
  - destruct Hfr as [->|(ds & -> & _ & Hds)]; [constructor|]. constructor; [done|by apply digits_scalar].
  - destruct Hex as [->|(e & g & ds & -> & He & Hg & _ & Hds)]; [constructor|].
    constructor; [by destruct He as [->| ->]|]. apply Forall_app. split; [|by apply digits_scalar].
    destruct Hg as [->|[->| ->]]; by repeat constructor.
Qed.

Definition value_shape (v : bytes) : Prop :=
  json_string v ∨ (v ≠ [] ∧ Forall (λ c, scalar_byte c = true) v) ∨
  ∃ o l c, v = o :: l ++ [c] ∧ (o = lbrace ∨ o = lbracket) ∧ balanced l ∧ (c = rbrace ∨ c = rbracket) ∧ (o = lbrace ↔ c = rbrace).

Lemma shape_balanced v : value_shape v → balanced v.
Proof.
  intros [H|[[_ H]|(o & l & c & -> & Ho & Hl & Hc & Hm)]].
  - rewrite <- (app_nil_r v). by constructor; [|constructor].
  - apply balanced_neutral. eapply Forall_impl; [|exact H].
    by intros c [? _]%andb_true_iff.
  - by constructor; [| | | |constructor].
Qed.

Lemma balanced_member m rest : member_lexical m → balanced (m_val m) → balanced rest →
  balanced (m_pre m ++ member_head m ++ rest).
Proof.
  intros (H1 & H2 & H3 & H4 & H5) Hv Hr. unfold member_head. rewrite <- !app_assoc. simpl. rewrite <- !app_assoc.
  apply balanced_app; [by apply balanced_space|]. constructor; [done|].
  apply balanced_app; [by apply balanced_space|]. constructor; [done|].
  apply balanced_app; [by apply balanced_space|]. by apply balanced_app.
Qed.

Lemma balanced_tail ms ws : all_space ws → Forall member_lexical ms → (∀ m, m ∈ ms → balanced (m_val m)) →
  balanced (tail_text ws ms).
Proof.
  intros Hws Hms. revert ws Hws. induction Hms as [|m ms Hm _ IH]; intros ws Hws Hv; simpl.
  - by apply balanced_space.
  - apply balanced_app; [by apply balanced_space|]. constructor; [done|].
    apply balanced_member; [done|apply Hv; left|].
    apply IH; [apply Hm|]. intros x Hx. apply Hv. by right.
Qed.

Lemma balanced_members inner ms : all_space inner → Forall member_lexical ms →
  (∀ m, m ∈ ms → balanced (m_val m)) → balanced (members_text inner ms).
Proof.
  intros Hin Hms Hv. destruct Hms as [|m ms Hm Hms]; [by apply balanced_space|].
  apply balanced_member; [done|apply Hv; left|].
  apply balanced_tail; [apply Hm|done|]. intros x Hx. apply Hv. by right.
Qed.

Lemma balanced_elements es ws : all_space ws → (∀ p x q, (p, x, q) ∈ es → all_space p ∧ all_space q) →
  (∀ p x q, (p, x, q) ∈ es → balanced x) → balanced (elements_text ws es).
Proof.
  revert ws. induction es as [|[[p x] q] es IH]; intros ws Hws Hs Hv; simpl; [by apply balanced_space|].
  destruct (Hs p x q ltac:(left)) as [Hp Hq].
  apply balanced_app; [by apply balanced_space|]. constructor; [done|].
  apply balanced_app; [by apply balanced_space|]. apply balanced_app; [apply (Hv p x q); left|].
  apply IH; [done|..]; intros p' x' q' Hin; [eapply Hs|eapply Hv]; right; exact Hin.
Qed.

Lemma json_value_shape v : json_value v → value_shape v.
Proof.
  induction 1 as [s Hs|s Hs|s Hs|inner ms Hin Hms _ IH|ws Hws|pre v post es Hp Hq _ IHv Hes _ IHe].
  - by left.
  - right; left. by apply number_scalar.
  - right; left. apply elem_of_cons in Hs as [->|[->|[->|[]%not_elem_of_nil]%elem_of_cons]%elem_of_cons];
      (split; [done|by repeat constructor]).
  - right; right. eexists _, _, _. split; [done|]. split; [by left|]. split; [|by split; [left|]].
    apply balanced_members; auto using shape_balanced.
  - right; right. eexists _, _, _. split; [done|]. split; [by right|]. split; [by apply balanced_space|by split; [right|]].
  - right; right. exists lbracket, (pre ++ v ++ elements_text post es), rbracket.
    split; [by rewrite <- !app_assoc|]. split; [by right|]. split; [|by split; [right|]].
    apply balanced_app; [by apply balanced_space|]. apply balanced_app; [by apply shape_balanced|].
    apply balanced_elements; eauto using shape_balanced.
Qed.

(** Text a value may be followed by. *)
Definition ends_value (rest : bytes) : Prop := match rest with [] => True | c :: _ => isDelimiter c = true end.

Lemma scalarLen_app s rest : Forall (λ c, scalar_byte c = true) s → ends_value rest →
  scalarLen (s ++ rest) = length s.
Proof.
  intros Hs Hr. induction Hs as [|c s Hc _ IH]; simpl.
  - destruct rest as [|c rest]; [done|]. simpl in *. by rewrite Hr.
  - unfold scalar_byte in Hc. apply andb_true_iff in Hc as [_ Hc%negb_true_iff]. by rewrite Hc, IH.
Qed.

Lemma scan_value raw pre v rest : json_value v → ends_value rest → raw = pre ++ v ++ rest →
  scanJSONValueEnd raw (length pre) = Ok (length (pre ++ v)).
Proof.
  intros Hv Hr Hraw. unfold scanJSONValueEnd.
  assert (Hd : drop (length pre) raw = v ++ rest) by (rewrite Hraw; apply drop_app_length). rewrite Hd.
  destruct (json_value_shape v Hv) as [Hs|[[Hne Hs]|(o & l & c & -> & Ho & Hl & Hc & _)]].
  - pose proof (scan_string raw pre v rest Hs Hraw) as ->. destruct Hs as (x & _ & ->). done.
  - destruct v as [|x v]; [done|]. rewrite (scalarLen_app _ _ Hs Hr).
    inversion Hs as [|? ? Hx _]; subst x0 l. unfold scalar_byte, neutral in Hx.
    apply andb_true_iff in Hx as [Hx%negb_true_iff _]. rewrite !orb_false_iff in Hx.
    destruct Hx as [[[[H1 H2] H3] _] _]. simpl app. cbv iota beta. rewrite H1, H2, H3. simpl. f_equal. rewrite length_app. simpl. lia.
  - simpl app. cbv iota beta. assert (Hlen : (length l + 2 ≤ length raw)%nat)
      by (rewrite Hraw, !length_app; simpl; rewrite length_app; simpl; lia).
    assert ((o =? quote) = false ∧ negb (o =? lbrace) && negb (o =? lbracket) = false) as [-> ->]
      by (by destruct Ho as [->| ->]).
    destruct (composite_skip l Hl raw (pre ++ [o]) (c :: rest) 1 (length raw)) as (f & Hf & He);
      [by rewrite Hraw, <- !app_assoc; simpl; rewrite <- app_assoc|lia|lia|].
    transitivity (composite (length raw) raw 1 (length (pre ++ [o]))).
    { cbn [composite]. rewrite Hd, length_app, Nat.add_1_r. simpl. by destruct Ho as [->| ->]. }
    rewrite He. destruct f as [|f]; [lia|]. cbn [composite].
    assert (Hraw' : raw = ((pre ++ [o]) ++ l) ++ c :: rest)
      by (rewrite Hraw, <- !app_assoc; simpl; by rewrite <- app_assoc).
    assert (drop (length ((pre ++ [o]) ++ l)) raw = c :: rest) as ->
      by (rewrite Hraw'; apply drop_app_length).
    assert (S (length ((pre ++ [o]) ++ l)) = length (pre ++ o :: l ++ [c])) as <-
      by (rewrite !length_app; simpl; rewrite !length_app; simpl; lia).
    by destruct Hc as [->| ->].
Qed.

(** ** String literals decode *)

Lemma chars_high h l : json_chars (h ++ l) → Forall (λ c, 0x80 ≤ c) h → json_chars l.
Proof.
  intros H Hh. induction Hh as [|c h Hc _ IH]; [done|]. simpl in H. apply IH.
  inversion H; subst; [done|unfold backslash in *; lia..].
Qed.

Lemma split_at_quote l h s : l ++ [quote] = h ++ s → Forall (λ c, c ≠ quote) h →
  ∃ l', l = h ++ l' ∧ s = l' ++ [quote].
Proof.
  intros H Hh. revert l H. induction Hh as [|c h Hc _ IH]; intros l H; [by exists l|].
  destruct l as [|x l]; simpl in H; injection H as Hx H.
  - by subst c.
  - destruct (IH l H) as (l' & -> & ->). exists l'. by subst x.
Qed.

Lemma encodeRune_high r : validRune r = true → 0x7F < r → Forall (λ c, 0x80 ≤ c) (encodeRune r).
Proof.
  intros Hv Hr. unfold encodeRune. rewrite Hv. apply validRune_spec in Hv. decide_ranges.
  pose proof (Z.mod_pos_bound r 64). pose proof (Z.mod_pos_bound (r / 64) 64).
  pose proof (Z.mod_pos_bound (r / 4096) 64). pose proof (Z.div_pos r 64). pose proof (Z.div_pos r 4096).
  pose proof (Z.div_pos r 262144). repeat (destruct (_ <=? _)); repeat constructor; lia.
Qed.

Lemma escape_decodes n e s : e ∈ [quote; backslash; 0x2F; 0x62; 0x66; 0x6E; 0x72; 0x74] →
  is_Some (unquoteF n s) → is_Some (unquoteF (S n) (backslash :: e :: s)).
Proof.
  rewrite !elem_of_cons, elem_of_nil. intros He [x Hx].
  repeat (destruct He as [->|He]; [cbn; rewrite Hx; by eexists|]). done.
Qed.

Lemma getu4_hex a b c d s : is_Some (hexValue a) → is_Some (hexValue b) → is_Some (hexValue c) →
  is_Some (hexValue d) → ∃ r, getu4 (a :: b :: c :: d :: s) = Some (r, s).
Proof. intros [? Ha] [? Hb] [? Hc] [? Hd]. unfold getu4. rewrite Ha, Hb, Hc, Hd. simpl. eauto. Qed.

Lemma lowHalf_chars r s d s' : json_chars s → lowHalf r (s ++ [quote]) = Some (d, s') →
  ∃ t, s' = t ++ [quote] ∧ json_chars t ∧ (length t < length s)%nat.
Proof.
  intros Hs. destruct Hs as [|c s Hc Hq Hb Hs|e s He Hs|a b c x s Ha Hb Hc Hx Hs]; unfold lowHalf.
  - done.
  - destruct s as [|u s]; simpl; [|]; rewrite (proj2 (Z.eqb_neq c backslash)) by done; done.
  - simpl. destruct (e =? 0x75) eqn:E; [|done]. apply Z.eqb_eq in E as ->.
    rewrite !elem_of_cons, elem_of_nil in He. naive_solver.
  - rewrite <- !app_comm_cons. cbn [andb Z.eqb Pos.eqb backslash].
    destruct (getu4_hex a b c x (s ++ [quote]) Ha Hb Hc Hx) as [r1 ->]. cbn [mbind option_bind].
    destruct (decodePair r r1); simpl; [|done]. intros [= <- <-]. exists s. split; [done|]. split; [done|].
    simpl. lia.
Qed.

Lemma chars_decode s : json_chars s → ∀ n, (length s < n)%nat → is_Some (unquoteF n (s ++ [quote])).
Proof.
  remember (length s) as k eqn:Hk. revert s Hk.
  induction (lt_wf k) as [k _ IH]. intros s -> Hs n Hn. destruct n as [|n]; [lia|].
  assert (IH' : ∀ t, json_chars t → (length t < length s)%nat → is_Some (unquoteF n (t ++ [quote])))
    by (intros t Ht Hlt; eapply IH; [exact Hlt|done|done|lia]).
  destruct Hs as [|c s Hc Hq Hb Hs|e s He Hs|a b c d s Ha Hb Hc Hd Hs]; rewrite <- ?app_comm_cons in *.
  - by eexists.
  - cbn [unquoteF]. rewrite (proj2 (Z.eqb_neq c quote)), (proj2 (Z.eqb_neq c backslash)) by done.
    rewrite (proj2 (Z.ltb_ge c _)) by lia.
    destruct (c <=? 0x7F) eqn:E; zbool; [apply fmap_is_Some, IH'; [done|simpl; lia]|].
    destruct (decodeRune (c :: s ++ [quote])) as [[r s']|] eqn:Ed; [|apply fmap_is_Some, IH'; [done|simpl; lia]].
    apply decode_inv in Ed as [Hv Hd]. apply fmap_is_Some.
    assert (Hr : 0x7F < r).
    { destruct (encodeRune_head r Hv) as (b & l & Heq & Hlo & _). rewrite Heq in Hd. simplify_eq.
      destruct (Z.le_gt_cases r 0x7F); [|lia]. naive_solver lia. }
    pose proof (encodeRune_high r Hv Hr) as Hh. rewrite app_comm_cons in Hd.
    destruct (split_at_quote _ _ _ Hd) as (t & Ht & ->).
    { eapply Forall_impl; [|exact Hh]. unfold quote. cbv beta. lia. }
    apply IH'; [apply (chars_high (encodeRune r)); [rewrite <- Ht; by constructor|done]|].
    rewrite Ht, length_app. destruct (encodeRune_head r Hv) as (b & l & -> & _). simpl. lia.
  - apply escape_decodes; [done|]. apply IH'; [done|simpl; lia].
  - cbn [unquoteF]. change (backslash =? quote) with false. change (backslash <? 32) with false.
    change (backslash =? backslash) with true. cbn [Z.eqb Pos.eqb orb quote backslash].
    destruct (getu4_hex a b c d (s ++ [quote]) Ha Hb Hc Hd) as [r ->]. cbn [mbind option_bind].
    destruct (isSurrogate r); [|apply fmap_is_Some, IH'; [done|simpl; lia]].
    destruct (lowHalf r (s ++ [quote])) as [[x s']|] eqn:El; [|apply fmap_is_Some, IH'; [done|simpl; lia]].
    destruct (lowHalf_chars _ _ _ _ Hs El) as (t & -> & Ht & Hlen).
    apply fmap_is_Some, IH'; [done|simpl; lia].
Qed.

Lemma string_decodes l : json_string l → is_Some (Unmarshal l).
Proof.
  intros (s & Hs & ->). unfold Unmarshal. rewrite Z.eqb_refl. apply chars_decode; [done|].
  simpl. rewrite length_app. simpl. lia.
Qed.

(** ** Objects *)

Record object := mkObject { o_pre : bytes; o_inner : bytes; o_members : list member; o_post : bytes }.

Definition object_text (o : object) : bytes :=
  o_pre o ++ lbrace :: members_text (o_inner o) (o_members o) ++ rbrace :: o_post o.

(** The decoded name of a member. *)
Definition name (m : member) : bytes := default [] (Unmarshal (m_key m)).

Record object_wf (o : object) : Prop := {
  wf_pre : all_space (o_pre o);
  wf_inner : all_space (o_inner o);
  wf_post : all_space (o_post o);
  wf_lexical : Forall member_lexical (o_members o);
  wf_values : Forall (λ m, json_value (m_val m)) (o_members o);
  wf_names : NoDup (name <$> o_members o) }.

(** The spans of a member whose key starts at [ks]. *)
Definition span_at (ks sep : nat) (m : member) (ms : list member) : memberSpan :=
  let vs := (ks + length (m_key m) + length (m_mid1 m) + 1 + length (m_mid2 m))%nat in
  let ve := (vs + length (m_val m))%nat in
  mkSpan ks sep vs ve
    (match ms with [] => ve | m2 :: _ => ve + length (m_post m) + 1 + length (m_pre m2) end)%nat.

Fixpoint layoutTail (p : nat) (ws : bytes) (ms : list member) : list (bytes * memberSpan) :=
  match ms with
  | [] => []
  | m :: ms' =>
      let sep := (p + length ws)%nat in
      let sp := span_at (sep + 1 + length (m_pre m)) sep m ms' in
      (name m, sp) :: layoutTail (valEnd sp) (m_post m) ms'
  end.

Definition layout (o : object) : list (bytes * memberSpan) :=
  match o_members o with
  | [] => []
  | m :: ms =>
      let ks := (length (o_pre o) + 1 + length (m_pre m))%nat in
      let sp := span_at ks ks m ms in
      (name m, sp) :: layoutTail (valEnd sp) (m_post m) ms
  end.

Definition close_at (o : object) : nat :=
  (length (o_pre o) + 1 + length (members_text (o_inner o) (o_members o)))%nat.

Definition insert_all (l : list (bytes * memberSpan)) (spans : spanMap) : spanMap :=
  foldl (λ s p, <[p.1 := p.2]> s) spans l.

(** ** The scanner finds the layout *)

Lemma value_nonspace v rest : json_value v → spaces (v ++ rest) = 0%nat.
Proof.
  intros [(x & _ & ->)|[[Hne Hs]|(o & l & c & -> & Ho & _)]]%json_value_shape; [done| |by destruct Ho as [->| ->]].
  destruct v as [|c v]; [done|]. inversion Hs as [|? ? Hc _]; subst. simpl.
  unfold scalar_byte, isDelimiter in Hc. apply andb_true_iff in Hc as [_ Hc%negb_true_iff].
  rewrite !orb_false_iff in Hc. destruct Hc as [_ Hc]. by rewrite Hc.
Qed.

Lemma string_nonspace s rest : json_string s → spaces (s ++ rest) = 0%nat.
Proof. by intros (x & _ & ->). Qed.

Lemma tail_ends ws ms post : all_space ws → ends_value (tail_text ws ms ++ rbrace :: post).
Proof.
  intros Hws. assert (H : ∀ l, ends_value l → ends_value (ws ++ l)).
  { intros l Hl. destruct Hws as [|c ws Hc _]; [done|]. simpl. unfold isDelimiter. by rewrite Hc, orb_true_r. }
  destruct ms as [|m ms]; simpl; rewrite <- ?app_assoc; by apply H.
Qed.

Lemma slice_mid raw pre x rest a b : raw = pre ++ x ++ rest → a = length pre → b = length (pre ++ x) →
  slice raw a b = x.
Proof.
  intros -> -> ->. unfold slice. rewrite drop_app_length, length_app.
  replace (length pre + length x - length pre)%nat with (length x) by lia. apply take_app_length.
Qed.

Lemma drop_at (raw pre rest : bytes) n : raw = pre ++ rest → n = length pre → drop n raw = rest.
Proof. intros -> ->. apply drop_app_length. Qed.

Lemma take_at (raw pre rest : bytes) n : raw = pre ++ rest → n = length pre → take n raw = pre.
Proof. intros -> ->. apply take_app_length. Qed.

(** The separator read ahead after a value. *)
Lemma sepEnd_at raw A ws ms post ve : raw = A ++ tail_text ws ms ++ rbrace :: post → ve = length A →
  all_space ws → Forall member_lexical ms →
  (if byteAt raw (skipSpace raw ve) comma then skipSpace raw (S (skipSpace raw ve)) else ve)
  = (match ms with [] => ve | m2 :: _ => ve + length ws + 1 + length (m_pre m2) end)%nat.
Proof.
  intros Hraw -> Hws Hms. destruct Hms as [|m ms Hm _].
  - simpl in Hraw. rewrite (skipSpace_at raw A ws (rbrace :: post)) by done.
    rewrite (byteAt_at raw (A ++ ws) rbrace post) by (by rewrite <- app_assoc). done.
  - simpl in Hraw. rewrite <- !app_assoc in Hraw. simpl in Hraw. rewrite <- !app_assoc in Hraw.
    rewrite (skipSpace_at _ _ _ _ Hraw) by done. rewrite app_assoc in Hraw.
    rewrite (byteAt_at _ _ _ _ comma Hraw). rewrite Z.eqb_refl. destruct Hm as (Hp & _ & _ & _ & Hk).
    replace (S (length (A ++ ws))) with (length ((A ++ ws) ++ [comma])) by (rewrite length_app; simpl; lia).
    rewrite (skipSpace_at raw ((A ++ ws) ++ [comma]) (m_pre m)
      (member_head m ++ tail_text (m_post m) ms ++ rbrace :: post)); [..|done|].
    + rewrite !length_app. simpl. lia.
    + rewrite Hraw, <- !app_assoc. done.
    + unfold member_head. rewrite <- app_assoc. by apply string_nonspace.
Qed.

Lemma parseMember_at raw A m ms post (first : bool) p :
  raw = A ++ member_head m ++ tail_text (m_post m) ms ++ rbrace :: post →
  member_lexical m → json_value (m_val m) → Forall member_lexical ms →
  (if first then p = length A else byteAt raw p comma = true ∧ skipSpace raw (S p) = length A) →
  parseMember raw first p = Ok (name m, span_at (length A) p m ms).
Proof.
  intros Hraw (Hpre & Hm1 & Hm2 & Hpost & Hkey) Hval Hms Hp. unfold parseMember.
  assert ((if first then Ok p else if byteAt raw p comma then Ok (skipSpace raw (S p)) else Err ExpectedSeparator)
    = Ok (length A)) as ->.
  { destruct first; [by subst|]. by destruct Hp as [-> ->]. }
  cbn [res_bind]. unfold member_head in Hraw. rewrite <- !app_assoc in Hraw. simpl in Hraw. rewrite <- !app_assoc in Hraw.
  rewrite (scan_string _ _ _ _ Hkey Hraw). cbn [res_bind]. rewrite (slice_mid _ _ _ _ _ _ Hraw) by done.
  destruct (string_decodes _ Hkey) as [k Hk]. unfold name. rewrite Hk. cbn [res_bind default from_option].
  rewrite app_assoc in Hraw. rewrite (skipSpace_at _ _ _ _ Hraw) by done.
  rewrite app_assoc in Hraw. rewrite (byteAt_at _ _ _ _ colon Hraw). rewrite Z.eqb_refl. cbn [negb].
  set (B := (A ++ m_key m) ++ m_mid1 m) in *.
  replace (S (length B)) with (length (B ++ [colon])) by (rewrite length_app; simpl; lia).
  assert (Hraw2 : raw = (B ++ [colon]) ++ m_mid2 m ++ m_val m ++ tail_text (m_post m) ms ++ rbrace :: post)
    by (by rewrite <- app_assoc).
  rewrite (skipSpace_at _ _ _ _ Hraw2) by auto using value_nonspace.
  rewrite app_assoc in Hraw2. rewrite (scan_value _ _ _ _ Hval (tail_ends _ _ _ Hpost) Hraw2). cbn [res_bind].
  rewrite app_assoc in Hraw2. rewrite (sepEnd_at _ _ _ _ _ _ Hraw2) by done.
  assert (Hvs : length ((B ++ [colon]) ++ m_mid2 m) = (length A + length (m_key m) + length (m_mid1 m) + 1 + length (m_mid2 m))%nat)
    by (unfold B; rewrite !length_app; simpl; lia).
  unfold span_at. cbv zeta. rewrite <- Hvs. by rewrite (length_app _ (m_val m)).
Qed.

Lemma span_end ks sep m ms : valEnd (span_at ks sep m ms) = (ks + length (member_head m))%nat.
Proof. unfold span_at, member_head; simpl. rewrite !length_app. simpl. rewrite length_app. lia. Qed.

Lemma parseMembers_tail raw A ws ms post fuel order spans :
  raw = A ++ tail_text ws ms ++ rbrace :: post → all_space ws →
  Forall member_lexical ms → Forall (λ m, json_value (m_val m)) ms → (length ms < fuel)%nat →
  parseMembers fuel raw false (length A) order spans
  = Ok (order ++ (name <$> ms), insert_all (layoutTail (length A) ws ms) spans, (length A + length (tail_text ws ms))%nat).
Proof.
  intros Hraw Hws Hms Hv. revert A ws fuel order spans Hraw Hws.
  induction Hms as [|m ms Hm Hms IH]; intros A ws fuel order spans Hraw Hws Hf; (destruct fuel as [|fuel]; [simpl in Hf; lia|]);
    cbn [parseMembers].
  - simpl in Hraw. rewrite (skipSpace_at raw A ws (rbrace :: post)) by done.
    rewrite (byteAt_at raw (A ++ ws) rbrace post) by (by rewrite <- app_assoc).
    rewrite app_nil_r, length_app. done.
  - inversion Hv as [|? ? Hvm Hvs]; subst x l.
    simpl in Hraw. rewrite <- !app_assoc in Hraw. simpl in Hraw. rewrite <- !app_assoc in Hraw.
    rewrite (skipSpace_at _ _ _ _ Hraw) by done.
    assert (Hraw1 : raw = (A ++ ws) ++ comma :: m_pre m ++ member_head m ++ tail_text (m_post m) ms ++ rbrace :: post)
      by (by rewrite <- app_assoc).
    rewrite (byteAt_at _ _ _ _ rbrace Hraw1). change (comma =? rbrace) with false. cbv iota.
    set (A2 := (A ++ ws) ++ comma :: m_pre m).
    assert (Hraw2 : raw = A2 ++ member_head m ++ tail_text (m_post m) ms ++ rbrace :: post)
      by (unfold A2; rewrite Hraw1, <- !app_assoc; done).
    assert (HA2 : length A2 = (length A + length ws + 1 + length (m_pre m))%nat)
      by (unfold A2; rewrite !length_app; simpl; lia).
    rewrite (parseMember_at _ A2 m ms post false _ Hraw2 Hm Hvm Hms).
    2: { split; [by rewrite (byteAt_at _ _ _ _ comma Hraw1)|].
         replace (S (length (A ++ ws))) with (length ((A ++ ws) ++ [comma])) by (rewrite length_app; simpl; lia).
         rewrite (skipSpace_at raw ((A ++ ws) ++ [comma]) (m_pre m)
           (member_head m ++ tail_text (m_post m) ms ++ rbrace :: post)).
         - unfold A2. rewrite <- !app_assoc. done.
         - rewrite Hraw1, <- !app_assoc. done.
         - apply Hm.
         - unfold member_head. rewrite <- app_assoc. apply string_nonspace, Hm. }
    cbn [res_bind]. rewrite span_end.
    assert (Hraw3 : raw = (A2 ++ member_head m) ++ tail_text (m_post m) ms ++ rbrace :: post) by (by rewrite <- app_assoc).
    replace (length A2 + length (member_head m))%nat with (length (A2 ++ member_head m)) by (rewrite length_app; lia).
    rewrite (IH Hvs _ _ _ _ _ Hraw3) by first [apply Hm|simpl in Hf; lia].
    cbn [fmap list_fmap layoutTail]. rewrite span_end. unfold insert_all. cbn [foldl fst snd].
    rewrite HA2, length_app, <- !app_assoc. simpl. rewrite !length_app, HA2. simpl. rewrite !length_app.
    do 2 f_equal. lia.
Qed.

Lemma tail_length ws ms : (length ms ≤ length (tail_text ws ms))%nat.
Proof.
  revert ws; induction ms as [|m ms IH]; intros ws; simpl; [lia|].
  rewrite !length_app; simpl; rewrite !length_app. specialize (IH (m_post m)). lia.
Qed.

(** The scanner returns the members of every object text, in order, with
    their exact spans, and the offset of the closing brace. *)
Lemma parse_lexical o : all_space (o_pre o) → all_space (o_inner o) →
  Forall member_lexical (o_members o) → Forall (λ m, json_value (m_val m)) (o_members o) →
  parseObjectSpans (object_text o)
  = Ok (name <$> o_members o, insert_all (layout o) ∅, close_at o).
Proof.
  destruct o as [pre inner ms post]. intros Hpre Hin Hlex Hval.
  unfold parseObjectSpans, object_text, layout, close_at in *; simpl in *.
  set (raw := pre ++ lbrace :: members_text inner ms ++ rbrace :: post).
  assert (skipSpace raw 0 = length pre) as -> by (by apply (skipSpace_at raw [] pre _ eq_refl)).
  rewrite (byteAt_at raw pre lbrace _ lbrace eq_refl), Z.eqb_refl. cbn [negb].
  set (A := pre ++ [lbrace]). assert (HA : length A = S (length pre)) by (unfold A; rewrite length_app; simpl; lia).
  assert (Hraw : raw = A ++ members_text inner ms ++ rbrace :: post) by (unfold raw, A; by rewrite <- app_assoc).
  rewrite <- HA. clearbody raw A. cbn [parseMembers]. destruct Hlex as [|m ms Hm Hms]; simpl in *.
  - rewrite (skipSpace_at _ _ _ _ Hraw) by done. rewrite app_assoc in Hraw.
    rewrite (byteAt_at _ _ _ _ rbrace Hraw), Z.eqb_refl, !length_app, HA. do 2 f_equal. lia.
  - inversion Hval as [|? ? Hvm Hvs]; subst x l. rewrite <- !app_assoc in Hraw.
    assert (Hk : spaces (member_head m ++ tail_text (m_post m) ms ++ rbrace :: post) = 0%nat)
      by (unfold member_head; rewrite <- app_assoc; apply string_nonspace, Hm).
    rewrite (skipSpace_at _ _ _ _ Hraw) by first [done|apply Hm]. rewrite app_assoc in Hraw.
    assert (byteAt raw (length (A ++ m_pre m)) rbrace = false) as ->.
    { unfold byteAt. rewrite (drop_at _ _ _ _ Hraw eq_refl). unfold member_head.
      destruct Hm as (_ & _ & _ & _ & (x & _ & ->)). done. }
    rewrite (parseMember_at _ _ m ms post true _ Hraw Hm Hvm Hms eq_refl). cbn [res_bind].
    rewrite span_end. rewrite app_assoc in Hraw.
    assert (HA2 : length (A ++ m_pre m) = (length pre + 1 + length (m_pre m))%nat) by (rewrite length_app, HA; lia).
    rewrite <- length_app, (parseMembers_tail _ _ _ _ _ _ _ _ Hraw); try done; [|apply Hm|].
    + replace (length pre + 1 + length (m_pre m) + length (m_key m) + length (m_mid1 m) + 1
        + length (m_mid2 m) + length (m_val m))%nat with (length ((A ++ m_pre m) ++ member_head m))
        by (rewrite length_app, HA2; unfold member_head; rewrite !length_app; simpl; rewrite length_app; lia).
      rewrite <- HA2, !length_app. do 2 f_equal. rewrite HA. lia.
    + pose proof (tail_length (m_post m) ms). rewrite Hraw, !length_app. simpl. lia.
Qed.

Lemma parse_text o : object_wf o →
  parseObjectSpans (object_text o)
  = Ok (name <$> o_members o, insert_all (layout o) ∅, close_at o).
Proof. intros []. by apply parse_lexical. Qed.
