(* ===== verification/RawJSONEdits.v ===== *)
(** * Edits of an object as edits of its members

    Each splice of [RawJSON] is shown to be the text of an edited list of
    members, so that what the editor returns is again a JSON object whose other
    members have their bytes. *)

From stdpp Require Import base list strings gmap numbers.
From S2P Require Import Prelude Utf8 RawJSON RawJSONGrammar.

Open Scope Z_scope.

(** ** Spans by name *)

Lemma insert_all_snoc l x s : insert_all (l ++ [x]) s = <[x.1 := x.2]> (insert_all l s).
Proof. unfold insert_all. by rewrite foldl_app. Qed.

Lemma insert_all_None l k : k ∉ l.*1 → insert_all l ∅ !! k = None.
Proof.
  induction l as [|x l IH] using rev_ind; [done|]. rewrite fmap_app, not_elem_of_app, insert_all_snoc.
  intros [H1 H2]. rewrite lookup_insert_ne; [auto|]. set_solver.
Qed.

Lemma insert_all_Some l k sp i : NoDup l.*1 → l !! i = Some (k, sp) → insert_all l ∅ !! k = Some sp.
Proof.
  induction l as [|x l IH] using rev_ind; [done|]. rewrite fmap_app, list.NoDup_app, insert_all_snoc.
  intros (Hn & Hx & _) [Hi|[? Hi]]%lookup_app_Some.
  - rewrite lookup_insert_ne; [auto|]. intros <-. apply (Hx x.1); [|by left].
    apply list_elem_of_fmap. exists (x.1, sp). split; [done|]. by eapply list_elem_of_lookup_2.
  - destruct (i - length l)%nat; [|done]. simpl in Hi. simplify_eq. simpl. by rewrite lookup_insert_eq.
Qed.

Lemma layoutTail_names p ws ms : (layoutTail p ws ms).*1 = name <$> ms.
Proof. revert p ws; induction ms as [|m ms IH]; intros p ws; simpl; [done|]. by rewrite IH. Qed.

Lemma layout_names o : (layout o).*1 = name <$> o_members o.
Proof. unfold layout. destruct (o_members o); simpl; [done|]. by rewrite layoutTail_names. Qed.

(** ** Texts around a member *)

Lemma tail_text_ws w ws ms : tail_text (w ++ ws) ms = w ++ tail_text ws ms.
Proof. destruct ms; simpl; by rewrite ?app_assoc. Qed.

Lemma tail_text_app ws ms1 m ms2 :
  tail_text ws (ms1 ++ m :: ms2) = tail_text ws ms1 ++ comma :: m_pre m ++ member_head m ++ tail_text (m_post m) ms2.
Proof.
  revert ws; induction ms1 as [|m1 ms1 IH]; intros ws; simpl; [done|].
  rewrite IH. by norm_app.
Qed.

(** What precedes the whitespace in front of a member. *)
Definition lead (ms1 : list member) : bytes :=
  match ms1 with [] => [] | _ => members_text [] ms1 ++ [comma] end.

Lemma members_text_app inner ms1 m ms2 :
  members_text inner (ms1 ++ m :: ms2) = lead ms1 ++ m_pre m ++ member_head m ++ tail_text (m_post m) ms2.
Proof.
  destruct ms1 as [|m1 ms1]; simpl; [done|]. rewrite tail_text_app, <- !app_assoc. done.
Qed.

(** The offset of the separator in front of a member, as the scanner records it. *)
Definition sep_of (o : object) (ms1 : list member) (m : member) : nat :=
  (length (o_pre o) + 1 + match ms1 with [] => length (m_pre m) | _ => length (members_text [] ms1) end)%nat.

Definition before (o : object) (ms1 : list member) (m : member) : bytes :=
  o_pre o ++ lbrace :: lead ms1 ++ m_pre m.

Lemma layoutTail_lookup p ws ms1 m ms2 :
  let sep := (p + length (tail_text ws ms1))%nat in
  layoutTail p ws (ms1 ++ m :: ms2) !! length ms1
  = Some (name m, span_at (sep + 1 + length (m_pre m)) sep m ms2).
Proof.
  revert p ws; induction ms1 as [|m1 ms1 IH]; intros p ws; [done|].
  cbn [app length layoutTail lookup list_lookup]. rewrite IH, span_end. simpl. rewrite !length_app. simpl.
  rewrite !length_app. do 3 f_equal; lia.
Qed.

Lemma layout_lookup o ms1 m ms2 : o_members o = ms1 ++ m :: ms2 →
  layout o !! length ms1 = Some (name m, span_at (length (before o ms1 m)) (sep_of o ms1 m) m ms2).
Proof.
  intros Hms. unfold layout, before, sep_of. rewrite Hms. destruct ms1 as [|m1 ms1].
  - simpl. do 3 f_equal; norm_length; lia.
  - cbn [app length lookup list_lookup lead]. rewrite span_end, layoutTail_lookup. cbn [members_text].
    do 3 f_equal; norm_length; lia.
Qed.

Lemma object_text_split o ms1 m ms2 : o_members o = ms1 ++ m :: ms2 →
  object_text o = before o ms1 m ++ member_head m ++ tail_text (m_post m) ms2 ++ rbrace :: o_post o.
Proof.
  intros Hms. unfold object_text, before. rewrite Hms, members_text_app. by norm_app.
Qed.

(** The spans the scanner records for a member, and the text at them. *)
Lemma span_lookup o ms1 m ms2 : object_wf o → o_members o = ms1 ++ m :: ms2 →
  insert_all (layout o) ∅ !! name m = Some (span_at (length (before o ms1 m)) (sep_of o ms1 m) m ms2).
Proof.
  intros Hwf Hms. eapply insert_all_Some; [|by apply layout_lookup]. rewrite layout_names. apply Hwf.
Qed.

Lemma span_None o k : k ∉ name <$> o_members o → insert_all (layout o) ∅ !! k = None.
Proof. intros H. apply insert_all_None. by rewrite layout_names. Qed.

Lemma text_to_value o ms1 m ms2 : o_members o = ms1 ++ m :: ms2 →
  object_text o = (before o ms1 m ++ m_key m ++ m_mid1 m ++ colon :: m_mid2 m) ++ m_val m
    ++ tail_text (m_post m) ms2 ++ rbrace :: o_post o.
Proof.
  intros Hms. rewrite (object_text_split _ _ _ _ Hms). unfold member_head. by norm_app.
Qed.

Lemma valStart_at o ms1 m ms2 sep :
  valStart (span_at (length (before o ms1 m)) sep m ms2)
  = length (before o ms1 m ++ m_key m ++ m_mid1 m ++ colon :: m_mid2 m).
Proof. simpl. rewrite !length_app. simpl. lia. Qed.

Lemma valEnd_at o ms1 m ms2 sep :
  valEnd (span_at (length (before o ms1 m)) sep m ms2) = length (before o ms1 m ++ member_head m).
Proof. rewrite span_end, length_app. done. Qed.

(** ** Setting a value *)

Definition with_value (m : member) (w1 v w2 : bytes) : member :=
  mkMember (m_pre m) (m_key m) (m_mid1 m) (m_mid2 m ++ w1) v (w2 ++ m_post m).

Definition with_members (o : object) (ms : list member) : object :=
  mkObject (o_pre o) (o_inner o) ms (o_post o).

Lemma setSplice_existing o ms1 m ms2 w1 v w2 close :
  object_wf o → o_members o = ms1 ++ m :: ms2 →
  setSplice (object_text o) (insert_all (layout o) ∅) close (name m) (w1 ++ v ++ w2)
  = object_text (with_members o (ms1 ++ with_value m w1 v w2 :: ms2)).
Proof.
  intros Hwf Hms. unfold setSplice. rewrite (span_lookup _ _ _ _ Hwf Hms), valStart_at, valEnd_at.
  pose proof (text_to_value _ _ _ _ Hms) as Ht. pose proof (object_text_split _ _ _ _ Hms) as Ht2.
  rewrite (take_at _ _ _ _ Ht eq_refl). rewrite app_assoc in Ht2. rewrite (drop_at _ _ _ _ Ht2 eq_refl).
  rewrite (text_to_value (with_members o _) ms1 (with_value m w1 v w2) ms2 eq_refl).
  unfold with_value, before; simpl. rewrite tail_text_ws. by norm_app.
Qed.

(** ** Adding a member *)

Definition with_post (m : member) (ws : bytes) : member :=
  mkMember (m_pre m) (m_key m) (m_mid1 m) (m_mid2 m) (m_val m) ws.

Definition new_member (k w1 v w2 : bytes) : member := mkMember [] (Marshal k) [] w1 v w2.

Lemma trimRight_spaces b ws c : all_space ws → isJSONSpace c = false → trimRight (b ++ c :: ws) = b ++ [c].
Proof.
  intros Hws Hc. unfold trimRight.
  assert (reverse (b ++ c :: ws) = reverse ws ++ c :: reverse b) as ->
    by (rewrite reverse_app, reverse_cons, <- app_assoc; done).
  assert (Hr : all_space (reverse ws)) by (by apply Forall_reverse).
  rewrite (spaces_app _ _ Hr). simpl. rewrite Hc, Nat.add_0_r.
  rewrite drop_app_length. by rewrite reverse_cons, reverse_involutive.
Qed.

(** The last byte of a value. *)
Lemma value_last v : json_value v → ∃ l c, v = l ++ [c] ∧ isJSONSpace c = false ∧ c ≠ lbrace.
Proof.
  intros [(x & _ & ->)|[[Hne Hs]|(o & l & c & -> & _ & _ & Hc & _)]]%json_value_shape.
  - exists (quote :: x), quote. done.
  - destruct v as [|c l _] using rev_ind; [done|]. exists l, c. split; [done|].
    apply Forall_app in Hs as [_ Hc]. inversion Hc as [|? ? Hc' _]; subst.
    unfold scalar_byte, isDelimiter in Hc'. apply andb_true_iff in Hc' as [Hn Hd%negb_true_iff].
    rewrite !orb_false_iff in Hd. split; [apply Hd|]. by intros ->.
  - exists (o :: l), c. by destruct Hc as [->| ->].
Qed.

Lemma close_text o : take (close_at o) (object_text o) = o_pre o ++ lbrace :: members_text (o_inner o) (o_members o)
  ∧ drop (S (close_at o)) (object_text o) = o_post o.
Proof.
  set (A := o_pre o ++ lbrace :: members_text (o_inner o) (o_members o)).
  assert (Ht : object_text o = A ++ rbrace :: o_post o) by (unfold object_text, A; rewrite <- app_assoc; done).
  assert (Hl : close_at o = length A) by (unfold close_at, A; rewrite length_app; simpl; lia).
  split; [by apply (take_at _ _ _ _ Ht)|].
  apply (drop_at _ (A ++ [rbrace])); [by rewrite Ht, <- app_assoc|rewrite length_app; simpl; lia].
Qed.

Definition add_member (o : object) (k w1 v w2 : bytes) : object :=
  match reverse (o_members o) with
  | [] => mkObject (o_pre o) [] [new_member k w1 v (w2 ++ o_inner o)] (o_post o)
  | m :: rms => with_members o (reverse rms ++ [with_post m []; new_member k w1 v (w2 ++ m_post m)])
  end.

(** The bytes from the end of [b] to the closing brace. *)
Lemma inner_slice o b ws : o_pre o ++ lbrace :: members_text (o_inner o) (o_members o) = b ++ ws →
  slice (object_text o) (length b) (close_at o) = ws.
Proof.
  intros Hb. apply (slice_mid _ b ws (rbrace :: o_post o)); [|done|].
  - rewrite app_assoc, <- Hb. unfold object_text. by norm_app.
  - rewrite <- Hb. unfold close_at. norm_length. lia.
Qed.

Lemma setSplice_new o k w1 v w2 : object_wf o → k ∉ name <$> o_members o →
  setSplice (object_text o) (insert_all (layout o) ∅) (close_at o) k (w1 ++ v ++ w2)
  = object_text (add_member o k w1 v w2).
Proof.
  intros [Hpre Hin Hpost Hlex Hval Hn] Hk. unfold setSplice. rewrite span_None by done.
  destruct (close_text o) as [Ht Hd]. rewrite Ht, Hd. unfold add_member.
  destruct (reverse (o_members o)) as [|m rms] eqn:Hr.
  - assert (Hms : o_members o = []) by (by rewrite <- (reverse_involutive (o_members o)), Hr).
    rewrite Hms in *. simpl. rewrite trimRight_spaces by done.
    rewrite (inner_slice o (o_pre o ++ [lbrace]) (o_inner o)) by (rewrite Hms; by norm_app).
    rewrite last_snoc, bool_decide_eq_true_2 by done.
    unfold object_text, member_head; simpl. by norm_app.
  - assert (Hms : o_members o = reverse rms ++ [m])
      by (by rewrite <- (reverse_involutive (o_members o)), Hr, reverse_cons).
    set (ms1 := reverse rms) in *. rewrite Hms in Hval, Hlex. apply Forall_app in Hval as [_ Hv], Hlex as [_ Hl].
    inversion Hv as [|? ? Hvm _]; inversion Hl as [|? ? Hlm _]; subst.
    destruct (value_last _ Hvm) as (l & c & Hlc & Hc & Hne).
    set (b := o_pre o ++ lbrace :: lead ms1 ++ m_pre m ++ m_key m ++ m_mid1 m ++ colon :: m_mid2 m ++ l).
    assert (Hb : o_pre o ++ lbrace :: members_text (o_inner o) (o_members o) = (b ++ [c]) ++ m_post m).
    { rewrite Hms, members_text_app. unfold b, member_head. rewrite Hlc. by norm_app. }
    rewrite Hb. rewrite <- app_assoc. simpl. rewrite trimRight_spaces by (done || apply Hlm).
    rewrite (inner_slice o _ _ Hb), last_snoc, bool_decide_eq_false_2 by (intros [= ?]; done).
    unfold object_text, with_members; simpl. rewrite members_text_app. unfold b, member_head; simpl.
    rewrite Hlc. by norm_app.
Qed.

(** ** Deleting a member *)

Definition with_pre (m : member) (ws : bytes) : member :=
  mkMember ws (m_key m) (m_mid1 m) (m_mid2 m) (m_val m) (m_post m).

Definition delete_at (o : object) (ms1 : list member) (m : member) (ms2 : list member) : object :=
  match reverse ms1, ms2 with
  | p :: rms, _ => with_members o (reverse rms ++ with_post p (m_post m) :: ms2)
  | [], n :: ms3 => with_members o (with_pre n (m_pre m) :: ms3)
  | [], [] => mkObject (o_pre o) (m_pre m ++ m_post m) [] (o_post o)
  end.

Lemma deleteSplice_at o ms1 m ms2 : object_wf o → o_members o = ms1 ++ m :: ms2 →
  deleteSplice (object_text o) (name <$> o_members o) (insert_all (layout o) ∅) (length ms1)
    (span_at (length (before o ms1 m)) (sep_of o ms1 m) m ms2)
  = object_text (delete_at o ms1 m ms2).
Proof.
  intros Hwf Hms. unfold deleteSplice, delete_at.
  pose proof (object_text_split _ _ _ _ Hms) as Ht. rewrite app_assoc in Ht.
  assert (Hd : drop (valEnd (span_at (length (before o ms1 m)) (sep_of o ms1 m) m ms2)) (object_text o)
    = tail_text (m_post m) ms2 ++ rbrace :: o_post o) by (rewrite valEnd_at; by apply (drop_at _ _ _ _ Ht)).
  rewrite Hd. destruct ms1 as [|p ms1 _] using rev_ind.
  - simpl length. simpl reverse. rewrite Hms. destruct ms2 as [|n ms3].
    + simpl. rewrite <- app_assoc in Ht. rewrite (take_at _ _ _ _ Ht eq_refl).
      unfold before, object_text. simpl. by norm_app.
    + cbn [fmap list_fmap app lookup list_lookup mbind option_bind].
      rewrite (span_lookup o [m] n ms3 Hwf Hms). cbn [keyStart span_at].
      rewrite <- app_assoc in Ht. rewrite (take_at _ _ _ _ Ht eq_refl).
      rewrite (drop_at _ (before o [m] n) _ _ (object_text_split o [m] n ms3 Hms) eq_refl).
      unfold before, object_text. simpl. by norm_app.
  - rewrite length_app, Nat.add_1_r, reverse_snoc, reverse_involutive. rewrite Hms.
    rewrite <- app_assoc, list_lookup_fmap, lookup_app_r, Nat.sub_diag by lia.
    cbn [app lookup list_lookup fmap option_fmap option_map mbind option_bind].
    rewrite <- app_assoc in Hms. rewrite (span_lookup o ms1 p (m :: ms2) Hwf Hms), valEnd_at.
    pose proof (object_text_split _ _ _ _ Hms) as Hp. rewrite app_assoc in Hp.
    rewrite (take_at _ _ _ _ Hp eq_refl).
    rewrite (object_text_split (with_members o _) ms1 (with_post p (m_post m)) ms2 eq_refl).
    unfold before; simpl. by norm_app.
Qed.

Lemma find_name ms1 m ms2 : NoDup (name <$> (ms1 ++ m :: ms2)) →
  list_find (λ k, k = name m) (name <$> (ms1 ++ m :: ms2)) = Some (length ms1, name m).
Proof.
  intros Hn. apply list_find_Some. rewrite list_lookup_fmap, lookup_app_r, Nat.sub_diag by lia.
  split; [done|]. split; [done|]. intros j y Hj Hlt ->.
  rewrite fmap_app in Hn. apply list.NoDup_app in Hn as (_ & Hd & _).
  rewrite list_lookup_fmap, lookup_app_l in Hj by done.
  apply (Hd (name m)); [|by left]. apply list_elem_of_fmap.
  apply fmap_Some in Hj as (x & Hx & Hxn). exists x. split; [done|]. by eapply list_elem_of_lookup_2.
Qed.

(** ** Well-formedness of the edited objects *)

Definition member_wf (m : member) : Prop := member_lexical m ∧ json_value (m_val m).

Lemma object_wf_iff o : object_wf o ↔
  all_space (o_pre o) ∧ all_space (o_inner o) ∧ all_space (o_post o) ∧
  Forall member_wf (o_members o) ∧ NoDup (name <$> o_members o).
Proof.
  unfold member_wf. rewrite list.Forall_and. split; [intros []; repeat split; auto|].
  intros (? & ? & ? & [? ?] & ?). by split.
Qed.

Lemma all_space_app a b : all_space (a ++ b) ↔ all_space a ∧ all_space b.
Proof. apply Forall_app. Qed.

Lemma with_value_wf m w1 v w2 : member_wf m → all_space w1 → all_space w2 → json_value v →
  member_wf (with_value m w1 v w2).
Proof.
  intros [(? & ? & ? & ? & ?) ?] ? ? ?. split; [|done]. unfold member_lexical, with_value; simpl.
  rewrite !all_space_app. repeat split; auto.
Qed.
Lemma with_post_wf m ws : member_wf m → all_space ws → member_wf (with_post m ws).
Proof. intros [(? & ? & ? & ? & ?) ?] ?. split; [|done]. unfold member_lexical; simpl. auto. Qed.
Lemma with_pre_wf m ws : member_wf m → all_space ws → member_wf (with_pre m ws).
Proof. intros [(? & ? & ? & ? & ?) ?] ?. split; [|done]. unfold member_lexical; simpl. auto. Qed.

Create HintDb json.
#[export] Hint Resolve with_value_wf with_post_wf with_pre_wf : json.

Lemma wf_post_space m : member_wf m → all_space (m_post m).
Proof. by intros [(? & ? & ? & ? & ?) ?]. Qed.
Lemma wf_pre_space m : member_wf m → all_space (m_pre m).
Proof. by intros [(? & ? & ? & ? & ?) ?]. Qed.
#[export] Hint Resolve wf_post_space wf_pre_space : json.

(** The encoder's literal is a JSON string. *)
Lemma escape_chars r s : validRune r = true → json_chars s → json_chars (escapeRune r ++ s).
Proof.
  intros Hv Hs. pose proof (proj1 (validRune_spec r) Hv) as Hr. unfold escapeRune.
  assert (Hhex : ∀ n, 0 ≤ n < 16 → is_Some (hexValue (hexDigit n))) by (intros n Hn; rewrite hexValue_digit; eauto).
  destruct (r <=? 0x7F) eqn:E; zbool.
  - unfold escapeAscii. destruct (htmlSafe r) eqn:Es.
    { unfold htmlSafe in Es. apply andb_true_iff in Es as [E1%within_spec E2%negb_true_iff].
      rewrite !orb_false_iff, !Z.eqb_neq in E2. simpl. apply jc_plain; [lia|tauto|tauto|done]. }
    destruct ((r =? backslash) || (r =? quote)) eqn:Eb.
    { apply orb_true_iff in Eb as [->%Z.eqb_eq| ->%Z.eqb_eq]; apply jc_escape; [set_solver|done|set_solver|done]. }
    do 5 (match goal with |- context [if r =? ?k then _ else _] => destruct (r =? k) end;
      [apply jc_escape; [set_solver|done]|]).
    apply jc_unicode; try done; apply Hhex.
    + split; [apply Z.div_pos|apply Z.div_lt_upper_bound]; lia.
    + apply Z.mod_pos_bound. lia.
  - destruct ((r =? 0x2028) || (r =? 0x2029)).
    { apply jc_unicode; try done. apply Hhex, Z.mod_pos_bound; lia. }
    pose proof (encodeRune_high r Hv ltac:(lia)) as Hh. clear -Hh Hs.
    induction Hh as [|c l Hc _ IH]; [done|]. simpl. apply jc_plain; unfold quote, backslash in *; auto; lia.
Qed.

Lemma Marshal_string k : ValidString k = true → json_string (Marshal k).
Proof.
  intros (rs & Hrs & ->)%ValidString_runes. rewrite Marshal_runes by done.
  exists (concat (escapeRune <$> rs)). split; [|done].
  induction Hrs as [|r rs Hr _ IH]; simpl; [constructor|]. by apply escape_chars.
Qed.

Lemma name_new k w1 v w2 : ValidString k = true → name (new_member k w1 v w2) = k.
Proof. intros Hk. unfold name, new_member. cbn [m_key]. by rewrite unmarshal_marshal. Qed.

Lemma new_member_wf k w1 v w2 : ValidString k = true → all_space w1 → all_space w2 → json_value v →
  member_wf (new_member k w1 v w2).
Proof.
  intros Hk ? ? ?. split; [|done]. unfold member_lexical; simpl.
  repeat split; auto using Marshal_string; constructor.
Qed.
#[export] Hint Resolve new_member_wf : json.
