(* ===== verification/RawJSONTheorems.v ===== *)
(** * What the JSON editor promises

    With the validator's documented rules as [JSONTextLaws], every edit of a
    validated object is the intended edit of its ordered view: setting, deleting
    and excluding members change the named members only, and keep every other
    value byte for byte and in order. *)

From stdpp Require Import base list strings gmap numbers.
From S2P Require Import Prelude Utf8 RawJSON RawJSONGrammar RawJSONEdits.

Open Scope Z_scope.

(** The documented rules of [jsontext.Validate] the editor relies on: exactly one
    JSON value, and unique decoded member names. *)
Class JSONTextLaws (V : JSONText) : Prop := {
  validate_grammar : ∀ l, Validate l = Ok tt → json_text l;
  validate_names : ∀ o, Forall member_wf (o_members o) → all_space (o_pre o) → all_space (o_inner o) →
    all_space (o_post o) → Validate (object_text o) = Ok tt → NoDup (name <$> o_members o) }.

(** ** Views *)

Definition vals_of (ms : list member) : gmap bytes bytes :=
  list_to_map ((λ m, (name m, m_val m)) <$> ms).

Lemma vals_lookup ms k v : NoDup (name <$> ms) →
  vals_of ms !! k = Some v ↔ ∃ m, m ∈ ms ∧ name m = k ∧ m_val m = v.
Proof.
  intros Hn. unfold vals_of. rewrite <- elem_of_list_to_map.
  - rewrite list_elem_of_fmap. split; [intros (m & [= -> ->] & Hm); eauto|intros (m & Hm & <- & <-); eauto].
  - by rewrite <- list_fmap_compose.
Qed.

Lemma foldl_vals (g : bytes → option bytes) (ks : list bytes) (m0 : gmap bytes bytes) (k : bytes) :
  (∀ x, x ∈ ks → is_Some (g x)) →
  foldl (λ vals key, match g key with Some x => <[key := x]> vals | None => vals end) m0 ks !! k
  = if decide (k ∈ ks) then g k else m0 !! k.
Proof.
  revert m0; induction ks as [|x ks IH]; intros m0 Hg; [by rewrite decide_False by apply not_elem_of_nil|].
  simpl. rewrite IH by (intros; apply Hg; by right).
  destruct (Hg x ltac:(left)) as [y Hy]. rewrite Hy.
  destruct (decide (k ∈ ks)) as [Hk|Hk].
  - by rewrite decide_True by (by right).
  - destruct (decide (x = k)) as [->|Hne].
    + rewrite lookup_insert_eq, decide_True by (by left). done.
    + rewrite lookup_insert_ne by done. by rewrite decide_False by (rewrite not_elem_of_cons; auto).
Qed.

Lemma member_split ms (k : bytes) : k ∈ name <$> ms → ∃ ms1 m ms2, ms = ms1 ++ m :: ms2 ∧ name m = k.
Proof. intros (m & -> & (ms1 & ms2 & ->)%list_elem_of_split)%list_elem_of_fmap. eauto. Qed.

Lemma span_value o ms1 m ms2 : object_wf o → o_members o = ms1 ++ m :: ms2 →
  (λ sp, slice (object_text o) (valStart sp) (valEnd sp)) <$> insert_all (layout o) ∅ !! name m = Some (m_val m).
Proof.
  intros Hwf Hms. rewrite (span_lookup _ _ _ _ Hwf Hms). cbn [fmap option_fmap option_map].
  rewrite valStart_at, valEnd_at. f_equal.
  apply (slice_mid _ _ _ _ _ _ (text_to_value _ _ _ _ Hms)); [done|].
  unfold member_head. f_equal. by norm_app.
Qed.

Lemma decode_text o : object_wf o →
  decodeObjectView (object_text o) = Ok (vals_of (o_members o), name <$> o_members o).
Proof.
  intros Hwf. unfold decodeObjectView. rewrite (parse_text _ Hwf). cbn [res_bind]. do 2 f_equal.
  pose (g k := (λ sp, slice (object_text o) (valStart sp) (valEnd sp)) <$> insert_all (layout o) ∅ !! k).
  assert (Hg : ∀ m, m ∈ o_members o → g (name m) = Some (m_val m)).
  { intros m (ms1 & ms2 & Hms)%list_elem_of_split. by eapply span_value. }
  transitivity (foldl (λ vals key, match g key with Some x => <[key := x]> vals | None => vals end)
    (∅ : gmap bytes bytes) (name <$> o_members o)).
  { generalize (∅ : gmap bytes bytes). induction (name <$> o_members o) as [|k ks IH]; intros m0; [done|].
    simpl. rewrite IH. f_equal. unfold g. by destruct (insert_all _ _ !! k). }
  apply map_eq. intros k. rewrite foldl_vals.
  - apply option_eq. intros v. rewrite vals_lookup by apply Hwf.
    destruct (decide (k ∈ name <$> o_members o)) as [Hk|Hk].
    + apply list_elem_of_fmap in Hk as (m & -> & Hm). rewrite (Hg m Hm). split; [intros [= <-]; eauto|].
      intros (m' & Hm' & Hn & <-). by rewrite <- (Hg m' Hm'), Hn, (Hg m Hm).
    + rewrite lookup_empty. split; [done|]. intros (m & Hm & <- & _). destruct Hk. apply list_elem_of_fmap. eauto.
  - intros k' (m & -> & Hm)%list_elem_of_fmap. rewrite (Hg m Hm). eauto.
Qed.

(** The views of edited lists of members. *)
Lemma vals_set ms1 m m' ms2 : NoDup (name <$> (ms1 ++ m :: ms2)) → name m' = name m →
  vals_of (ms1 ++ m' :: ms2) = <[name m := m_val m']> (vals_of (ms1 ++ m :: ms2)).
Proof.
  intros Hn Hm'. assert (Hn' : NoDup (name <$> (ms1 ++ m' :: ms2)))
    by (rewrite fmap_app, fmap_cons, Hm', <- fmap_cons, <- fmap_app; done).
  apply map_eq. intros k. apply option_eq. intros v. rewrite vals_lookup by done.
  destruct (decide (k = name m)) as [->|Hk].
  - rewrite lookup_insert_eq. split.
    + intros (x & Hx & Hxn & <-). assert (x = m'); [|by subst].
      apply list_elem_of_lookup in Hx as [i Hi].
      assert (Hj : (ms1 ++ m' :: ms2) !! length ms1 = Some m') by (by rewrite lookup_app_r, Nat.sub_diag).
      assert (i = length ms1); [|congruence]. eapply (NoDup_lookup _ _ _ (name m)); [exact Hn'|..];
        rewrite list_lookup_fmap; [by rewrite Hi; simpl; rewrite Hxn|by rewrite Hj; simpl; rewrite Hm'].
    + intros [= <-]. exists m'. split; [set_solver|done].
  - rewrite lookup_insert_ne by done. rewrite vals_lookup by done.
    split; intros (x & Hx & <- & <-); exists x; (split; [|done]); set_solver.
Qed.

Lemma vals_delete ms1 m ms2 : NoDup (name <$> (ms1 ++ m :: ms2)) →
  vals_of (ms1 ++ ms2) = delete (name m) (vals_of (ms1 ++ m :: ms2)).
Proof.
  intros Hn. pose proof Hn as Hn1. rewrite fmap_app, fmap_cons in Hn1. apply list.NoDup_app in Hn1 as (H1 & H2 & H3).
  apply list.NoDup_cons in H3 as [H3 H4].
  assert (Hn' : NoDup (name <$> (ms1 ++ ms2))).
  { rewrite fmap_app. apply list.NoDup_app. split; [done|]. split; [|done]. set_solver. }
  apply map_eq. intros k. apply option_eq. intros v. rewrite vals_lookup, lookup_delete_Some, vals_lookup by done.
  split.
  - intros (x & Hx & <- & <-). split; [|exists x; set_solver].
    intros Heq. rewrite list_elem_of_fmap in H3. apply elem_of_app in Hx as [Hx|Hx].
    + apply (H2 (name x)); [by apply list_elem_of_fmap_2|rewrite Heq; left].
    + apply H3. eauto.
  - intros (Hk & x & Hx & <- & <-). exists x. split; [|done]. set_solver.
Qed.

Lemma add_member_view o k w1 v w2 : object_wf o → k ∉ name <$> o_members o → ValidString k = true →
  all_space w1 → json_value v → all_space w2 →
  let o' := add_member o k w1 v w2 in
  object_wf o' ∧ vals_of (o_members o') = <[k := v]> (vals_of (o_members o)) ∧
  name <$> o_members o' = (name <$> o_members o) ++ [k].
Proof.
  intros Hwf Hk Hu H1 Hv H2. assert (Hnew : ∀ w, name (new_member k w1 v w) = k) by (intros; by apply name_new).
  assert (Hn : name <$> o_members (add_member o k w1 v w2) = (name <$> o_members o) ++ [k] ∧
    ((λ m, (name m, m_val m)) <$> o_members (add_member o k w1 v w2))
    = ((λ m, (name m, m_val m)) <$> o_members o) ++ [(k, v)]).
  { unfold add_member. destruct (reverse (o_members o)) as [|m rms] eqn:Hr.
    - assert (o_members o = []) as -> by (by rewrite <- (reverse_involutive (o_members o)), Hr).
      cbn [o_members fmap list_fmap app]. by rewrite Hnew.
    - assert (o_members o = reverse rms ++ [m]) as ->
        by (by rewrite <- (reverse_involutive (o_members o)), Hr, reverse_cons).
      cbn [o_members with_members]. rewrite !fmap_app. cbn [fmap list_fmap]. rewrite Hnew.
      rewrite <- !app_assoc. done. }
  destruct Hn as [Hn Hp]. apply object_wf_iff in Hwf as (Wp & Wi & Wq & Wm & Wn).
  split; [|split; [|done]].
  - apply object_wf_iff. assert (Hnd : NoDup ((name <$> o_members o) ++ [k]))
      by (apply list.NoDup_app; split; [done|]; split; [set_solver|apply NoDup_singleton]).
    rewrite <- Hn in Hnd. unfold add_member in *. destruct (reverse (o_members o)) as [|m rms] eqn:Hr; simpl.
    + repeat split; auto; [constructor|]. constructor; [|done]. apply new_member_wf; auto. by apply all_space_app.
    + assert (Hms : o_members o = reverse rms ++ [m])
        by (by rewrite <- (reverse_involutive (o_members o)), Hr, reverse_cons).
      rewrite Hms in Wm. apply Forall_app in Wm as [W1 W2]. inversion W2; subst.
      repeat split; auto. apply Forall_app. split; [done|].
      constructor; [apply with_post_wf; [done|constructor]|]. constructor; [|done].
      apply new_member_wf; auto. apply all_space_app. auto with json.
  - unfold vals_of. rewrite Hp, list_to_map_app. simpl. rewrite insert_empty.
    apply map_eq. intros i. destruct (decide (i = k)) as [->|Hi].
    + rewrite lookup_insert_eq, lookup_union_r; [by rewrite lookup_singleton_eq|].
      apply not_elem_of_list_to_map. by rewrite <- list_fmap_compose.
    + rewrite lookup_insert_ne by done. rewrite lookup_union_l; [done|]. by apply lookup_singleton_ne.
Qed.

(** ** Validated texts *)

(** [value] without the whitespace around it. *)
Definition trim (value : bytes) : bytes := trimRight (drop (spaces value) value).

Lemma trim_value w1 v w2 : all_space w1 → json_value v → all_space w2 → trim (w1 ++ v ++ w2) = v.
Proof.
  intros H1 Hv H2. unfold trim. rewrite (spaces_app _ _ H1), (value_nonspace _ _ Hv), Nat.add_0_r, drop_app_length.
  destruct (value_last v Hv) as (l & c & -> & Hc & _). rewrite <- app_assoc. by apply trimRight_spaces.
Qed.

Lemma topLevel_app ws l : all_space ws → topLevelJSONByte (ws ++ l) = topLevelJSONByte l.
Proof. induction 1 as [|c ws Hc _ IH]; simpl; [done|]. by rewrite Hc. Qed.

Lemma object_value v rest : json_value v → topLevelJSONByte (v ++ rest) = lbrace →
  ∃ inner ms, v = lbrace :: members_text inner ms ++ [rbrace] ∧ all_space inner ∧ Forall member_wf ms.
Proof.
  destruct 1 as [s (x & _ & ->)|s Hs|s Hs|inner ms Hin Hms Hv|ws|]; try done.
  - apply number_scalar in Hs as [Hne Hs]. destruct s as [|c s]; [done|].
    inversion Hs as [|? ? Hc _]; subst. unfold scalar_byte, isDelimiter in Hc.
    apply andb_true_iff in Hc as [Hc1 Hc%negb_true_iff]. rewrite !orb_false_iff in Hc. simpl.
    destruct Hc as [_ ->]. intros ->. done.
  - apply elem_of_cons in Hs as [->|[->|[->|[]%not_elem_of_nil]%elem_of_cons]%elem_of_cons]; done.
  - intros _. exists inner, ms. split; [done|]. split; [done|]. apply list.Forall_forall.
    intros m Hm. split; [|by apply Hv]. by apply (proj1 (list.Forall_forall _ _) Hms).
Qed.

Section Laws.
Context `{V : JSONText} {VL : JSONTextLaws V}.

Lemma valid_object raw : validateObjectShape raw = Ok tt → ∃ o, object_wf o ∧ raw = object_text o.
Proof.
  unfold validateObjectShape, validate. case_dec; [done|]. intros H. inv_ok.
  destruct (Z.eqb_spec (topLevelJSONByte raw) lbrace) as [Ht|]; [|done]. destruct x.
  destruct (validate_grammar raw ltac:(eassumption)) as (pre & v & post & Hp & Hv & Hq & ->).
  rewrite topLevel_app in Ht by done.
  destruct (object_value v post Hv Ht) as (inner & ms & -> & Hin & Hms).
  assert (He : pre ++ (lbrace :: members_text inner ms ++ [rbrace]) ++ post = object_text (mkObject pre inner ms post))
    by (unfold object_text; by norm_app).
  exists (mkObject pre inner ms post). split; [|done]. apply object_wf_iff. simpl.
  repeat split; auto. apply (validate_names (mkObject pre inner ms post)); auto. by rewrite <- He.
Qed.

Lemma valid_value value : Validate value = Ok tt →
  ∃ w1 v w2, all_space w1 ∧ json_value v ∧ all_space w2 ∧ value = w1 ++ v ++ w2 ∧ trim value = v.
Proof.
  intros (w1 & v & w2 & H1 & Hv & H2 & ->)%validate_grammar. exists w1, v, w2. repeat split; auto using trim_value.
Qed.

(** An edit whose result is validated before it is returned. *)
Definition revalidated (out : bytes) : res jsonErr bytes :=
  _ ←? map_err ProducedInvalid (validateObjectShape out); Ok out.

(** On every well-formed object text the span scanner returns the names
    of its members in order, the exact spans of each (key, separator, value)
    and the offset of the closing brace: it never fails or runs out, whatever
    the nesting, the strings and the whitespace. *)
Theorem spans_exact o : object_wf o →
  parseObjectSpans (object_text o) = Ok (name <$> o_members o, insert_all (layout o) ∅, close_at o).
Proof. apply parse_text. Qed.

(** C10. Setting a member of a validated object: the result is again an object
    text whose ordered view is the old one with the key bound to the given
    value (without the whitespace around it), in place when the key was present
    and at the end when it was new; it is returned exactly when the validator
    accepts it. *)
Theorem set_member_view raw key value :
  validateObjectShape raw = Ok tt → ValidString key = true → Validate value = Ok tt →
  ∃ out vals order,
    setMember raw key value = revalidated out ∧
    (∃ o, object_wf o ∧ out = object_text o) ∧
    decodeObjectView raw = Ok (vals, order) ∧
    decodeObjectView out
    = Ok (<[key := trim value]> vals, if decide (key ∈ order) then order else order ++ [key]).
Proof.
  intros Hraw Hk Hv. destruct (valid_object raw Hraw) as (o & Hwf & ->).
  destruct (valid_value value Hv) as (w1 & v & w2 & H1 & Hvv & H2 & -> & ->).
  pose proof (parse_text o Hwf) as Hp. unfold setMember, validateMemberKey. rewrite Hk, Hv. cbn [res_bind map_err].
  rewrite Hp. cbn [res_bind].
  destruct (decide (key ∈ name <$> o_members o)) as [Hin|Hin].
  - destruct (member_split _ _ Hin) as (ms1 & m & ms2 & Hms & <-).
    rewrite (setSplice_existing o ms1 m ms2) by done.
    set (o' := with_members o _). assert (Hwf' : object_wf o').
    { apply object_wf_iff in Hwf as (? & ? & ? & Hm & Hn). apply object_wf_iff. unfold o'; simpl.
      rewrite Hms in Hm, Hn. repeat split; auto.
      - apply Forall_app in Hm as [? Hm]. inversion Hm; subst. apply Forall_app. split; [done|].
        constructor; auto with json.
      - rewrite fmap_app, fmap_cons in *. done. }
    exists (object_text o'), (vals_of (o_members o)), (name <$> o_members o). split; [done|]. split; [by eauto|].
    split; [by apply decode_text|]. rewrite decode_text by done. rewrite decide_True by done.
    unfold o'; simpl. rewrite Hms. do 2 f_equal; [|by rewrite !fmap_app].
    apply (vals_set ms1 m (with_value m w1 v w2) ms2); [rewrite <- Hms; apply Hwf|done].
  - rewrite setSplice_new by done. pose proof (add_member_view o key w1 v w2 Hwf Hin Hk H1 Hvv H2) as (Hwf' & Hvals & Hnames).
    exists (object_text (add_member o key w1 v w2)), (vals_of (o_members o)), (name <$> o_members o).
    split; [done|]. split; [by eauto|]. split; [by apply decode_text|].
    rewrite decode_text by done. rewrite decide_False by done. by rewrite Hvals, Hnames.
Qed.
End Laws.

(** * Deleting members of an object

    The views of [deleteMember] and [deleteMembers]: the listed members are gone,
    every other member keeps its value bytes and its place. *)

Open Scope Z_scope.

(** ** One member *)

Lemma delete_at_view o ms1 m ms2 : object_wf o → o_members o = ms1 ++ m :: ms2 →
  let o' := delete_at o ms1 m ms2 in
  object_wf o' ∧ vals_of (o_members o') = vals_of (ms1 ++ ms2) ∧ name <$> o_members o' = name <$> (ms1 ++ ms2).
Proof.
  intros Hwf Hms. apply object_wf_iff in Hwf as (Wp & Wi & Wq & Wm & Wn). rewrite Hms in Wm, Wn.
  apply Forall_app in Wm as [W1 W2]. inversion W2 as [|? ? Wmm W3]; subst x l.
  assert (Hn' : NoDup (name <$> (ms1 ++ ms2))).
  { rewrite fmap_app, fmap_cons in Wn. rewrite fmap_app.
    apply list.NoDup_app in Wn as (? & Hd & [_ ?]%list.NoDup_cons). apply list.NoDup_app.
    split; [done|]. split; [|done]. intros x Hx Hx2. apply (Hd x Hx). by right. }
  unfold delete_at. destruct ms1 as [|p ms1 _] using rev_ind.
  - simpl reverse. cbv iota. destruct ms2 as [|n ms3].
    + split; [|done]. apply object_wf_iff. simpl. repeat split; auto.
      apply all_space_app. auto with json.
    + inversion W3; subst. split; [|done]. apply object_wf_iff. simpl. repeat split; auto.
      constructor; auto with json.
  - rewrite reverse_snoc, reverse_involutive. apply Forall_app in W1 as [W1 Wp1]. inversion Wp1; subst.
    rewrite <- app_assoc in *. split.
    + apply object_wf_iff. simpl. repeat split; auto.
      * apply Forall_app. split; [done|]. constructor; auto with json.
      * rewrite fmap_app in *. done.
    + unfold vals_of. simpl. by rewrite !fmap_app.
Qed.

Section Delete.
Context `{V : JSONText} {VL : JSONTextLaws V}.

Lemma revalidated_same raw : validateObjectShape raw = Ok tt → revalidated raw = Ok raw.
Proof. unfold revalidated. by intros ->. Qed.

(** Deleting a member of a validated object: the result is again an object
    text, whose ordered view is the old one without the key; deleting an absent
    key returns the very bytes. *)
Theorem delete_member_view raw key :
  validateObjectShape raw = Ok tt → ValidString key = true →
  ∃ out vals order,
    deleteMember raw key = revalidated out ∧
    (∃ o, object_wf o ∧ out = object_text o) ∧
    decodeObjectView raw = Ok (vals, order) ∧
    decodeObjectView out = Ok (delete key vals, filter (λ k, k ≠ key) order) ∧
    (key ∉ order → out = raw).
Proof.
  intros Hraw Hk. destruct (valid_object raw Hraw) as (o & Hwf & ->).
  unfold deleteMember, validateMemberKey. rewrite Hk, (parse_text o Hwf). cbn [res_bind].
  destruct (decide (key ∈ name <$> o_members o)) as [Hin|Hin].
  - destruct (member_split _ _ Hin) as (ms1 & m & ms2 & Hms & <-).
    assert (Hn : NoDup (name <$> (ms1 ++ m :: ms2))) by (rewrite <- Hms; apply Hwf).
    pose proof (find_name ms1 m ms2 Hn) as Hf. rewrite <- Hms in Hf. rewrite Hf, (span_lookup _ _ _ _ Hwf Hms).
    rewrite (deleteSplice_at _ _ _ _ Hwf Hms).
    destruct (delete_at_view _ _ _ _ Hwf Hms) as (Hwf' & Hvals & Hnames).
    exists (object_text (delete_at o ms1 m ms2)), (vals_of (o_members o)), (name <$> o_members o).
    split; [done|]. split; [by eauto|]. split; [by apply decode_text|]. split; [|done].
    rewrite decode_text, Hvals, Hnames, (vals_delete ms1 m ms2 Hn), <- Hms by done. do 2 f_equal.
    rewrite Hms in *. rewrite !fmap_app, fmap_cons in *. apply list.NoDup_app in Hn as (_ & Hd & [Hx _]%list.NoDup_cons).
    rewrite list.filter_app, filter_cons_False by (by intros []).
    rewrite !filter_all; [done|..]; apply list.Forall_forall; intros x Hx' ->; [by apply Hx|].
    apply (Hd _ Hx'). by left.
  - assert (list_find (λ k, k = key) (name <$> o_members o) = None) as ->.
    { apply list_find_None, list.Forall_forall. by intros x Hx ->. }
    exists (object_text o), (vals_of (o_members o)), (name <$> o_members o).
    split; [by rewrite revalidated_same|]. split; [by eauto|]. split; [by apply decode_text|]. split; [|done].
    rewrite decode_text by done. do 2 f_equal.
    + symmetry. apply delete_id. apply eq_None_not_Some. intros [v Hv]. apply vals_lookup in Hv as (m & Hm & <- & _); [|apply Hwf].
      apply Hin. apply list_elem_of_fmap. eauto.
    + symmetry. apply filter_all, list.Forall_forall. by intros x Hx ->.
Qed.

(** Setting a new member and deleting it again restores the very bytes of
    the object, for a value with no trailing whitespace. *)
Theorem set_delete_exact raw key value out :
  validateObjectShape raw = Ok tt → trimRight value = value →
  (∀ vals order, decodeObjectView raw = Ok (vals, order) → key ∉ order) →
  setMember raw key value = Ok out → deleteMember out key = Ok raw.
Proof.
  intros Hraw Htrim Hnew Hset. destruct (valid_object raw Hraw) as (o & Hwf & ->).
  specialize (Hnew _ _ (decode_text o Hwf)). unfold setMember, validateMemberKey in Hset.
  destruct (ValidString key) eqn:Hk; [|done]. cbn [res_bind] in Hset.
  destruct (Validate value) as [[]|] eqn:Hv; [|done]. cbn [res_bind map_err] in Hset.
  rewrite (parse_text o Hwf) in Hset. cbn [res_bind] in Hset.
  destruct (valid_value value Hv) as (w1 & v & w2 & H1 & Hvv & H2 & -> & _).
  rewrite (setSplice_new o key w1 v w2 Hwf Hnew) in Hset. apply res_bind_ok in Hset as (? & _ & [= <-]).
  assert (w2 = []) as ->.
  { destruct (value_last v Hvv) as (l & c & -> & Hc & _). rewrite <- app_assoc, app_assoc in Htrim. simpl in Htrim.
    rewrite trimRight_spaces in Htrim by done. apply app_inv_head in Htrim. by injection Htrim. }
  destruct (add_member_view o key w1 v [] Hwf Hnew Hk H1 Hvv H2) as (Hwf' & _ & _).
  assert (Hsplit : ∃ ms1 w, o_members (add_member o key w1 v []) = ms1 ++ [new_member key w1 v w] ∧
    object_text (delete_at (add_member o key w1 v []) ms1 (new_member key w1 v w) []) = object_text o).
  { unfold add_member. destruct (reverse (o_members o)) as [|m rms] eqn:Hr.
    - assert (Hms : o_members o = []) by (by rewrite <- (reverse_involutive (o_members o)), Hr).
      exists [], (o_inner o). split; [done|]. unfold delete_at, object_text. simpl. by rewrite Hms.
    - assert (Hms : o_members o = reverse rms ++ [m])
        by (by rewrite <- (reverse_involutive (o_members o)), Hr, reverse_cons).
      exists (reverse rms ++ [with_post m []]), (m_post m). split; [by norm_app|].
      unfold delete_at. rewrite reverse_snoc, reverse_involutive. unfold object_text. simpl.
      rewrite Hms, !members_text_app. done. }
  destruct Hsplit as (ms1 & w & Hms & Htext). set (o' := add_member o key w1 v []) in *.
  assert (Hname : name (new_member key w1 v w) = key) by by apply name_new.
  unfold deleteMember, validateMemberKey. rewrite Hk, (parse_text o' Hwf'). cbn [res_bind].
  assert (Hn : NoDup (name <$> (ms1 ++ [new_member key w1 v w]))) by (rewrite <- Hms; apply Hwf').
  pose proof (find_name ms1 _ [] Hn) as Hf. rewrite <- Hms, Hname in Hf. rewrite Hf.
  pose proof (span_lookup _ _ _ _ Hwf' Hms) as Hsp. rewrite Hname in Hsp. rewrite Hsp.
  rewrite (deleteSplice_at _ _ _ _ Hwf' Hms), Htext. by rewrite Hraw.
Qed.
End Delete.

(** ** Several members in one pass *)

(** Members in a row with no whitespace before their separators but the last. *)
Fixpoint compact (ms : list member) (ws : bytes) : list member :=
  match ms with
  | [] => []
  | [m] => [with_post m ws]
  | m :: ms' => with_post m [] :: compact ms' ws
  end.

Definition separated (m : member) : bytes := comma :: m_pre m ++ member_head m.

Lemma compact_tail ms ws : ms ≠ [] → tail_text [] (compact ms ws) = concat (separated <$> ms) ++ ws.
Proof.
  induction ms as [|m ms IH]; intros Hne; [done|]. destruct ms as [|m2 ms].
  - unfold separated. by norm_app.
  - change (tail_text [] (compact (m :: m2 :: ms) ws))
      with (comma :: m_pre m ++ member_head m ++ tail_text [] (compact (m2 :: ms) ws)).
    rewrite IH by done. cbn [fmap list_fmap concat]. unfold separated at 3. by norm_app.
Qed.

Lemma compact_wf ms ws : Forall member_wf ms → all_space ws → Forall member_wf (compact ms ws).
Proof.
  intros Hms Hws. induction Hms as [|m ms Hm Hms IH]; [constructor|]. destruct ms as [|m2 ms].
  - constructor; auto with json.
  - constructor; [|exact IH]. apply with_post_wf; [done|constructor].
Qed.

Lemma compact_names {A} (f : member → A) ms ws : (∀ m w, f (with_post m w) = f m) → f <$> compact ms ws = f <$> ms.
Proof.
  intros Hf. induction ms as [|m ms IH]; [done|]. destruct ms as [|m2 ms]; [simpl; by rewrite Hf|].
  change (compact (m :: m2 :: ms) ws) with (with_post m [] :: compact (m2 :: ms) ws).
  by rewrite !fmap_cons, Hf, IH.
Qed.

Definition kept (keys : list bytes) (ms : list member) : list member := filter (λ m, name m ∉ keys) ms.

(** The object [deleteMembers] leaves of [first :: rest] with last member [l]. *)
Definition without (o : object) (keys : list bytes) (first l : member) : object :=
  match kept keys (o_members o) with
  | [] => mkObject (o_pre o) (m_pre first ++ m_post l) [] (o_post o)
  | r :: rs => with_members o (compact (with_pre r (m_pre first) :: rs) (m_post l))
  end.

Lemma compact_text r rs pre ws inner :
  members_text inner (compact (with_pre r pre :: rs) ws) = pre ++ member_head r ++ concat (separated <$> rs) ++ ws.
Proof.
  destruct rs as [|r2 rs]; [done|].
  change (compact (with_pre r pre :: r2 :: rs) ws) with (with_post (with_pre r pre) [] :: compact (r2 :: rs) ws).
  cbn [members_text m_post with_post]. by rewrite compact_tail.
Qed.

Lemma head_slice o ms1 m ms2 : object_wf o → o_members o = ms1 ++ m :: ms2 →
  let sp := span_at (length (before o ms1 m)) (sep_of o ms1 m) m ms2 in
  slice (object_text o) (keyStart sp) (valEnd sp) = member_head m ∧
  (ms1 ≠ [] → slice (object_text o) (sepStart sp) (keyStart sp) = comma :: m_pre m).
Proof.
  intros Hwf Hms sp. pose proof (object_text_split _ _ _ _ Hms) as Ht. split.
  - unfold sp. rewrite valEnd_at. by apply (slice_mid _ _ _ _ _ _ Ht).
  - intros Hne. destruct ms1 as [|m1 ms1]; [done|].
    apply (slice_mid _ (o_pre o ++ lbrace :: members_text [] (m1 :: ms1)) _
      (member_head m ++ tail_text (m_post m) ms2 ++ rbrace :: o_post o)).
    + rewrite Ht. unfold before. cbn [lead]. by norm_app.
    + unfold sp, sep_of. simpl. norm_length. lia.
    + unfold sp, before. cbn [keyStart span_at lead]. norm_length. lia.
Qed.

Lemma concat_imap {A} (g : nat → A → bytes) (h : A → bytes) (l : list A) :
  (∀ i x, x ∈ l → g i x = h x) → concat (imap g l) = concat (h <$> l).
Proof.
  revert g; induction l as [|x l IH]; intros g Hg; [done|]. simpl. rewrite Hg by left.
  f_equal. rewrite (IH (g ∘ S)); [done|]. intros i y Hy. apply Hg. by right.
Qed.

Lemma retained_text o keys : object_wf o →
  retainedBytes (object_text o) (insert_all (layout o) ∅) (name <$> kept keys (o_members o))
  = match kept keys (o_members o) with [] => [] | r :: rs => member_head r ++ concat (separated <$> rs) end.
Proof.
  intros Hwf. assert (Hsub : kept keys (o_members o) `sublist_of` o_members o) by apply sublist_filter.
  unfold retainedBytes. destruct (kept keys (o_members o)) as [|r rs]; [done|].
  rewrite fmap_cons. cbn [imap concat Nat.eqb].
  assert (Hr : r ∈ o_members o) by (eapply sublist_subseteq; [exact Hsub|left]).
  apply list_elem_of_split in Hr as (ms1 & ms2 & Hms).
  rewrite (span_lookup _ _ _ _ Hwf Hms). rewrite (proj1 (head_slice _ _ _ _ Hwf Hms)). cbn [app]. f_equal.
  assert (Htail : ∀ m, m ∈ rs → ∃ ms1 ms2, o_members o = ms1 ++ m :: ms2 ∧ ms1 ≠ []).
  { intros m Hm. destruct (o_members o) as [|x xs]; [by apply sublist_nil_r in Hsub|].
    assert (Hrs : rs `sublist_of` xs).
    { apply sublist_cons_l in Hsub as ([|y k1] & k2 & Heq & Hk); simplify_list_eq; [done|].
      etrans; [exact Hk|]. apply sublist_inserts_l. by apply sublist_cons. }
    assert (m ∈ xs) as (a & b & ->)%list_elem_of_split by (by eapply sublist_subseteq).
    by exists (x :: a), b. }
  rewrite (concat_imap _ (λ k, match insert_all (layout o) ∅ !! k with
    | Some sp => slice (object_text o) (sepStart sp) (keyStart sp) ++ slice (object_text o) (keyStart sp) (valEnd sp)
    | None => [] end)) by done.
  rewrite <- list_fmap_compose. f_equal. apply list_fmap_ext. intros i m Hi. simpl.
  destruct (Htail m) as (a & b & Hm & Hne); [by eapply list_elem_of_lookup_2|].
  rewrite (span_lookup _ _ _ _ Hwf Hm). destruct (head_slice _ _ _ _ Hwf Hm) as [-> ->]; [|done].
  unfold separated. by norm_app.
Qed.

Lemma filter_names keys ms : filter (λ k, k ∉ keys) (name <$> ms) = name <$> kept keys ms.
Proof.
  unfold kept. induction ms as [|m ms IH]; [done|]. rewrite fmap_cons, !filter_cons, IH.
  by destruct (decide (name m ∉ keys)).
Qed.

Lemma deleteMembers_text o keys first rest l init : object_wf o →
  o_members o = first :: rest → o_members o = init ++ [l] →
  take (keyStart (span_at (length (before o [] first)) (sep_of o [] first) first rest)) (object_text o)
    ++ retainedBytes (object_text o) (insert_all (layout o) ∅) (filter (λ k, k ∉ keys) (name <$> o_members o))
    ++ drop (valEnd (span_at (length (before o init l)) (sep_of o init l) l [])) (object_text o)
  = object_text (without o keys first l).
Proof.
  intros Hwf Hf Hl. rewrite filter_names, retained_text by done.
  pose proof (object_text_split o [] first rest Hf) as Ht.
  change (keyStart _) with (length (before o [] first)). rewrite (take_at _ _ _ _ Ht eq_refl).
  pose proof (object_text_split o init l [] Hl) as Ht2. rewrite app_assoc in Ht2.
  rewrite valEnd_at, (drop_at _ _ _ _ Ht2 eq_refl).
  unfold without. destruct (kept keys (o_members o)) as [|r rs]; unfold before, object_text; cbn [lead].
  - simpl. by norm_app.
  - cbn [o_pre o_inner o_members o_post with_members]. rewrite compact_text. by norm_app.
Qed.

Lemma without_view o keys first rest l init : object_wf o →
  o_members o = first :: rest → o_members o = init ++ [l] →
  object_wf (without o keys first l) ∧
  name <$> o_members (without o keys first l) = name <$> kept keys (o_members o) ∧
  vals_of (o_members (without o keys first l)) = vals_of (kept keys (o_members o)).
Proof.
  intros Hwf Hf Hl. apply object_wf_iff in Hwf as (Wp & Wi & Wq & Wm & Wn).
  assert (Hfw : member_wf first) by (rewrite Hf in Wm; by inversion Wm).
  assert (Hlw : member_wf l) by (rewrite Hl in Wm; apply Forall_app in Wm as [_ Wm]; by inversion Wm).
  assert (Hk : Forall member_wf (kept keys (o_members o))) 
    by (apply list.Forall_forall; intros m [_ Hm]%list_elem_of_filter; by apply (proj1 (list.Forall_forall _ _) Wm)).
  assert (Hn : NoDup (name <$> kept keys (o_members o))).
  { eapply sublist_NoDup; [exact Wn|]. apply fmap_sublist. apply sublist_filter. }
  unfold without. destruct (kept keys (o_members o)) as [|r rs].
  - split; [|done]. apply object_wf_iff. simpl. repeat split; auto; [|constructor..].
    apply all_space_app. auto with json.
  - assert (Hnames : name <$> compact (with_pre r (m_pre first) :: rs) (m_post l) = name <$> r :: rs)
      by (rewrite (compact_names name) by done; done).
    split; [|split; [done|]].
    + apply object_wf_iff. cbn [o_pre o_inner o_members o_post with_members]. repeat split; auto.
      * inversion Hk; subst. apply compact_wf; auto with json.
      * by rewrite Hnames.
    + cbn [o_members with_members]. unfold vals_of.
      rewrite (compact_names (λ m, (name m, m_val m))) by done. done.
Qed.

Lemma vals_kept keys ms : NoDup (name <$> ms) →
  vals_of (kept keys ms) = filter (λ kv, kv.1 ∉ keys) (vals_of ms).
Proof.
  intros Hn. assert (Hn' : NoDup (name <$> kept keys ms))
    by (eapply sublist_NoDup; [exact Hn|apply fmap_sublist, sublist_filter]).
  apply map_eq. intros k. apply option_eq. intros v.
  rewrite map_lookup_filter_Some, !vals_lookup by done. unfold kept. split.
  - intros (m & [? ?]%list_elem_of_filter & <- & <-). split; [by exists m|done].
  - intros ((m & ? & <- & <-) & ?). exists m. split; [|done]. by apply list_elem_of_filter.
Qed.
