(* ===== verification/RawJSONAuthority.v ===== *)
(** * The JSON wrappers

    What every reachable wrapper holds, however it was built: an optional object
    is absent or a validated object, a required object always reads as an object.
    A small validator shows the theorems at work. *)

From stdpp Require Import base list strings gmap numbers.
From S2P Require Import Prelude Utf8 RawJSON RawJSONGrammar RawJSONEdits RawJSONTheorems.

Open Scope Z_scope.

Section Authority.
Context `{V : JSONText} {VL : JSONTextLaws V}.

(** Removing a set of members in one pass ([WithoutMembers] and the
    excluding constructor): the result is again an object text, whose ordered
    view is the old one restricted to the other keys. *)
Theorem without_members_view raw keys :
  validateObjectShape raw = Ok tt →
  ∃ out vals order,
    deleteMembers raw keys = revalidated out ∧
    (∃ o, object_wf o ∧ out = object_text o) ∧
    decodeObjectView raw = Ok (vals, order) ∧
    decodeObjectView out = Ok (filter (λ kv, kv.1 ∉ keys) vals, filter (λ k, k ∉ keys) order).
Proof.
  intros Hraw. destruct (valid_object raw Hraw) as (o & Hwf & ->).
  unfold deleteMembers. rewrite (parse_text o Hwf). cbn [res_bind].
  destruct (Nat.eqb_spec (length (filter (λ k, k ∉ keys) (name <$> o_members o))) (length (name <$> o_members o))) as [Hl|Hl].
  - assert (Hk : kept keys (o_members o) = o_members o).
    { apply filter_all, list.Forall_forall. intros m Hm. apply dec_stable. intros Hn.
      rewrite filter_names, !length_fmap in Hl. unfold kept in Hl.
      pose proof (length_filter_lt (λ m, name m ∉ keys) _ _ Hm Hn). lia. }
    exists (object_text o), (vals_of (o_members o)), (name <$> o_members o).
    split; [by rewrite revalidated_same|]. split; [by eauto|]. split; [by apply decode_text|].
    rewrite decode_text, filter_names, Hk, <- vals_kept, Hk by (done || apply Hwf). done.
  - destruct (o_members o) as [|first rest] eqn:Hf; [done|].
    destruct (exists_last (l := first :: rest)) as (init & l & Hlast); [done|].
    assert (Hl' : o_members o = init ++ [l]) by (by rewrite Hf).
    assert (list.head (name <$> first :: rest) = Some (name first)) as -> by done.
    pose proof (span_lookup o [] first rest Hwf Hf) as S1. pose proof (span_lookup o init l [] Hwf Hl') as S2.
    assert (list.last (name <$> first :: rest) = Some (name l)) as -> by (rewrite Hlast, fmap_app; apply last_snoc).
    cbn [mbind option_bind]. rewrite S1, S2. rewrite <- Hf, (deleteMembers_text o keys first rest l init Hwf Hf Hl').
    destruct (without_view o keys first rest l init Hwf Hf Hl') as (Hwf' & Hn & Hv).
    exists (object_text (without o keys first l)), (vals_of (o_members o)), (name <$> o_members o).
    split; [done|]. split; [by eauto|]. split; [by apply decode_text|].
    rewrite decode_text, Hn, Hv, vals_kept, filter_names by (done || apply Hwf). done.
Qed.

(** ** Reachable wrappers *)

Inductive optional_reachable : OptionalJSONObject → Prop :=
| or_zero : optional_reachable (mkOptionalObject None)
| or_parse raw o : ParseOptionalJSONObject raw = Ok o → optional_reachable o
| or_excluding raw keys o : ParseOptionalJSONObjectExcluding raw keys = Ok o → optional_reachable o
| or_replace o b o' : optional_reachable o → OptionalObject_Replace o b = Ok o' → optional_reachable o'
| or_set o k v o' : optional_reachable o → OptionalObject_SetMember o k v = Ok o' → optional_reachable o'
| or_delete o k o' : optional_reachable o → OptionalObject_DeleteMember o k = Ok o' → optional_reachable o'
| or_without o ks o' : optional_reachable o → OptionalObject_WithoutMembers o ks = Ok o' → optional_reachable o'.

Inductive required_reachable : RequiredJSONObject → Prop :=
| rr_zero : required_reachable (mkRequiredObject None)
| rr_parse raw r : ParseRequiredJSONObject raw = Ok r → required_reachable r
| rr_normalize raw r : ParseRequiredObjectOrEmpty raw = Ok r → required_reachable r
| rr_replace r b r' : required_reachable r → RequiredObject_Replace r b = Ok r' → required_reachable r'
| rr_set r k v r' : required_reachable r → RequiredObject_SetMember r k v = Ok r' → required_reachable r'
| rr_delete r k r' : required_reachable r → RequiredObject_DeleteMember r k = Ok r' → required_reachable r'.

(** Absent, or a validated object. *)
Definition authority (b : option bytes) : Prop :=
  match b with None => True | Some b => validateObjectShape b = Ok tt end.

Lemma validateObject_authority raw a b : validateObject raw a = Ok b → authority b.
Proof.
  unfold validateObject. case_dec; [destruct a; intros; by inv_ok|]. intros H; inv_ok. simpl. by destruct x.
Qed.

Lemma setMember_authority raw k v out : setMember raw k v = Ok out → authority (Some out).
Proof.
  unfold setMember. intros H; inv_ok. destruct x1 as [[? ?] ?]. inv_ok. simpl. by destruct x1.
Qed.

Lemma deleteMember_authority raw k out :
  authority (Some raw) → deleteMember raw k = Ok out → authority (Some out).
Proof.
  unfold deleteMember. intros Hr H; inv_ok. destruct x0 as [[order spans] ?].
  destruct (list_find _ _) as [[? ?]|], (spans !! k); inv_ok; auto. simpl. by destruct x0.
Qed.

Lemma deleteMembers_authority raw ks out :
  authority (Some raw) → deleteMembers raw ks = Ok out → authority (Some out).
Proof.
  unfold deleteMembers. intros Hr H; inv_ok. destruct x as [[order spans] ?].
  destruct (Nat.eqb _ _); [by inv_ok|].
  repeat (split_match_in H; inv_ok; auto). simpl. by destruct x.
Qed.

Lemma excluding_authority raw keys o : ParseOptionalJSONObjectExcluding raw keys = Ok o → authority (oo_bytes o).
Proof.
  unfold ParseOptionalJSONObjectExcluding. intros (? & _ & H)%res_bind_ok. revert H.
  case_dec; [by intros [= <-]|]. intros (? & Hv & H)%res_bind_ok.
  destruct (topLevelJSONByte raw =? lbrace) eqn:Ht; [|done]. inv_ok.
  eapply deleteMembers_authority; [|eassumption]. simpl. unfold validateObjectShape.
  rewrite bool_decide_eq_false_2, Hv by done. simpl. by rewrite Ht.
Qed.

Lemma optional_authority_inv o : optional_reachable o → authority (oo_bytes o).
Proof.
  induction 1 as [|raw o H|raw keys o H|o b o' _ _ H|o k v o' _ _ H|o k o' _ IH H|o ks o' _ IH H]; [done|..].
  - unfold ParseOptionalJSONObject in H; inv_ok. eauto using validateObject_authority.
  - eauto using excluding_authority.
  - unfold OptionalObject_Replace in H; inv_ok. eauto using validateObject_authority.
  - unfold OptionalObject_SetMember in H; inv_ok. eauto using setMember_authority.
  - unfold OptionalObject_DeleteMember in H; inv_ok. destruct (oo_bytes o) eqn:E; inv_ok; [|by rewrite E].
    eauto using deleteMember_authority.
  - unfold OptionalObject_WithoutMembers in H; inv_ok. destruct (oo_bytes o) eqn:E; inv_ok; [|by rewrite E].
    eauto using deleteMembers_authority.
Qed.

Lemma required_delete_bytes r k r' : authority (ro_bytes r) → RequiredObject_DeleteMember r k = Ok r' →
  authority (ro_bytes r') ∧ (∀ b order spans c, ro_bytes r' = Some b → parseObjectSpans b = Ok (order, spans, c) → order ≠ []).
Proof.
  unfold RequiredObject_DeleteMember. intros Ha H; inv_ok. destruct (ro_bytes r) as [b|] eqn:E; inv_ok;
    [|rewrite E; by split].
  assert (authority (Some x0)) by eauto using deleteMember_authority.
  destruct (parseObjectSpans x0) as [[[[|k0 order] spans] c]|e] eqn:Hp; inv_ok; simpl; (split; [done|]);
    intros ? ? ? ? [= <-] Hq; rewrite Hp in Hq; by simplify_eq.
Qed.

Lemma required_authority_inv r : required_reachable r → authority (ro_bytes r).
Proof.
  assert (Hp : ∀ raw r, ParseRequiredJSONObject raw = Ok r → authority (ro_bytes r))
    by (unfold ParseRequiredJSONObject; intros; inv_ok; eauto using validateObject_authority).
  induction 1 as [|raw r H|raw r H|r b r' _ _ H|r k v r' _ _ H|r k r' _ IH H]; [done|..].
  - eauto.
  - unfold ParseRequiredObjectOrEmpty in H. revert H. case_dec; [by intros [= <-]|eauto].
  - unfold RequiredObject_Replace in H; inv_ok. eauto using validateObject_authority.
  - unfold RequiredObject_SetMember in H; inv_ok. eauto using setMember_authority.
  - by eapply required_delete_bytes.
Qed.

(** The view of a validated object lists its members once. *)
Lemma authority_view b : validateObjectShape b = Ok tt →
  ∃ vals order, decodeObjectView b = Ok (vals, order) ∧ NoDup order ∧ ∀ k, k ∈ order ↔ is_Some (vals !! k).
Proof.
  intros (o & Hwf & ->)%valid_object. eexists _, _. split; [by apply decode_text|]. split; [apply Hwf|].
  intros k. rewrite list_elem_of_fmap. split.
  - intros (m & -> & Hm). exists (m_val m). apply vals_lookup; [apply Hwf|eauto].
  - intros [v (m & Hm & <- & _)%vals_lookup]; [eauto|apply Hwf].
Qed.

(** C11. However an optional object was built and edited, it is absent or its
    bytes are a validated JSON object, whose view lists every member exactly
    once; there is no unvalidated route into a wrapper. *)
Theorem optional_object_valid o : optional_reachable o →
  match oo_bytes o with
  | None => OptionalObject_DecodeObject o = Err AbsentNoMembers
  | Some b => validateObjectShape b = Ok tt ∧
      ∃ vals order, OptionalObject_DecodeObject o = Ok (vals, order) ∧ NoDup order ∧
        ∀ k, k ∈ order ↔ is_Some (vals !! k)
  end.
Proof.
  intros H%optional_authority_inv. unfold OptionalObject_DecodeObject.
  destruct (oo_bytes o) as [b|]; [|done]. split; [done|]. by apply authority_view.
Qed.

(** A required object is never absent: however it was built and edited it
    decodes to an object view, and deleting its last member yields the
    canonical empty object. *)
Theorem required_object_total r : required_reachable r →
  (∃ vals order, RequiredObject_DecodeObject r = Ok (vals, order) ∧ NoDup order ∧
     ∀ k, k ∈ order ↔ is_Some (vals !! k)) ∧
  (∀ k r' vals, RequiredObject_DeleteMember r k = Ok r' → RequiredObject_DecodeObject r' = Ok (vals, []) →
     RequiredObject_Bytes r' = emptyObject).
Proof.
  intros H%required_authority_inv. split.
  - unfold RequiredObject_DecodeObject. destruct (ro_bytes r) as [b|]; [by apply authority_view|].
    eexists _, _. split; [done|]. split; [constructor|]. intros k. rewrite lookup_empty. split; [by intros ?%not_elem_of_nil|by intros []].
  - intros k r' vals Hd Hv. destruct (required_delete_bytes _ _ _ H Hd) as [_ Hb].
    unfold RequiredObject_DecodeObject in Hv. unfold RequiredObject_Bytes.
    destruct (ro_bytes r') as [b|]; [|done]. unfold decodeObjectView in Hv.
    destruct (parseObjectSpans b) as [[[order spans] c]|] eqn:Hp; [|done]. simpl in Hv. simplify_eq.
    by destruct (Hb b [] spans c).
Qed.
End Authority.

(** ** A validator

    It accepts a handful of texts, which satisfies the documented rules. *)

Definition space : bytes := [0x20].
Definition key_a : bytes := [0x61].
Definition key_b : bytes := [0x62].
Definition member_a (post : bytes) : member := mkMember space (Marshal key_a) space space (lit "null") post.
Definition member_b (pre : bytes) : member := mkMember pre (Marshal key_b) [] [] (lit "true") space.

Definition demo_objects : list object :=
  [ mkObject [] [] [member_a space] []; mkObject [] [] [member_a []; member_b []] [];
    mkObject [] [] [member_b space] []; mkObject [] (space ++ space) [] [] ].

Definition object_a : bytes := object_text (mkObject [] [] [member_a space] []).
Definition object_ab : bytes := object_text (mkObject [] [] [member_a []; member_b []] []).
Definition demo_texts : list bytes := lit "true" :: (object_text <$> demo_objects).

#[local] Instance demo_validator : JSONText :=
  {| Validate l := if bool_decide (l ∈ demo_texts) then Ok tt else Err "syntax" |}.

Lemma member_a_wf post : all_space post → member_wf (member_a post).
Proof.
  intros Hp. split; [|by apply jv_literal; right; right; left].
  unfold member_lexical; simpl. repeat split; auto; try (by repeat constructor). by apply Marshal_string.
Qed.
Lemma member_b_wf pre : all_space pre → member_wf (member_b pre).
Proof.
  intros Hp. split; [|by apply jv_literal; left].
  unfold member_lexical; simpl. repeat split; auto; try (by repeat constructor). by apply Marshal_string.
Qed.

Lemma forallb_space ws : forallb isJSONSpace ws = true → all_space ws.
Proof.
  intros H. apply list.Forall_forall. intros c Hc. eapply forallb_forall; eauto. by apply list_elem_of_In.
Qed.

Lemma demo_wf pre inner ms post : forallb isJSONSpace (pre ++ inner ++ post) = true →
  Forall member_wf ms → bool_decide (NoDup (name <$> ms)) = true → object_wf (mkObject pre inner ms post).
Proof.
  intros Hs Hm Hn%bool_decide_eq_true. rewrite !forallb_app, !andb_true_iff in Hs.
  destruct Hs as (H1 & H2 & H3). apply object_wf_iff. simpl. auto using forallb_space.
Qed.

Lemma demo_objects_wf o : o ∈ demo_objects → object_wf o.
Proof.
  assert (all_space [] ∧ all_space space) as [H0 H1] by (by repeat constructor).
  unfold demo_objects. rewrite !elem_of_cons, elem_of_nil.
  intros [->|[->|[->|[->|[]]]]]; apply demo_wf; try (vm_compute; reflexivity);
    repeat (apply Forall_cons; [first [by apply member_a_wf|by apply member_b_wf]|]); apply Forall_nil.
Qed.

Lemma object_value_text pre inner ms post :
  object_text (mkObject pre inner ms post) = pre ++ (lbrace :: members_text inner ms ++ [rbrace]) ++ post.
Proof. unfold object_text. by norm_app. Qed.

(** The names of every object among the texts are unique. *)
Lemma demo_names l : l ∈ demo_texts →
  match parseObjectSpans l with Ok (order, _, _) => bool_decide (NoDup order) | Err _ => true end = true.
Proof.
  intros Hl%list_elem_of_In. revert l Hl. apply forallb_forall. vm_compute. reflexivity.
Qed.

#[local] Instance demo_validator_laws : JSONTextLaws demo_validator.
Proof.
  split.
  - intros l. simpl. destruct (bool_decide_reflect (l ∈ demo_texts)) as [Hl|]; [|done]. intros _.
    apply elem_of_cons in Hl as [->|([pre inner ms post] & -> & Ho%demo_objects_wf)%list_elem_of_fmap].
    + exists [], (lit "true"), []. split; [constructor|]. split; [by apply jv_literal; left|]. by split; [constructor|].
    + destruct Ho as [Hp Hi Hq Hlex Hv _]; simpl in *.
      exists pre, (lbrace :: members_text inner ms ++ [rbrace]), post. split; [done|]. split; [|split; [done|]].
      * apply jv_object; [done|done|]. by apply list.Forall_forall.
      * apply object_value_text.
  - intros o Hm Hp Hi Hq. simpl. destruct (bool_decide_reflect (object_text o ∈ demo_texts)) as [Hl|]; [|done]. intros _.
    apply list.Forall_and in Hm as [Hlex Hv]. pose proof (demo_names _ Hl) as Hd.
    rewrite parse_lexical in Hd by done. by apply bool_decide_eq_true in Hd.
Qed.

Lemma object_a_valid : validateObjectShape object_a = Ok tt.
Proof. vm_compute. reflexivity. Qed.

Lemma spans_exact_witness :
  parseObjectSpans object_ab
  = Ok ([key_a; key_b], insert_all (layout (mkObject [] [] [member_a []; member_b []] [])) ∅, 22%nat).
Proof. apply (spans_exact (mkObject [] [] [member_a []; member_b []] [])), demo_objects_wf. right. left. Defined.

Lemma set_member_view_witness :
  setMember object_a key_b (lit "true") = Ok object_ab ∧
  ∃ out vals order,
    setMember object_a key_b (lit "true") = revalidated out ∧
    (∃ o, object_wf o ∧ out = object_text o) ∧
    decodeObjectView object_a = Ok (vals, order) ∧
    decodeObjectView out
    = Ok (<[key_b := trim (lit "true")]> vals, if decide (key_b ∈ order) then order else order ++ [key_b]).
Proof.
  split; [vm_compute; reflexivity|].
  apply set_member_view; [apply object_a_valid|vm_compute; reflexivity|vm_compute; reflexivity].
Defined.

Lemma delete_member_view_witness :
  ∃ out vals order,
    deleteMember object_a key_b = revalidated out ∧
    (∃ o, object_wf o ∧ out = object_text o) ∧
    decodeObjectView object_a = Ok (vals, order) ∧
    decodeObjectView out = Ok (delete key_b vals, filter (λ k, k ≠ key_b) order) ∧
    (key_b ∉ order → out = object_a).
Proof. apply delete_member_view; [apply object_a_valid|vm_compute; reflexivity]. Defined.

Lemma set_delete_exact_witness : deleteMember object_ab key_b = Ok object_a.
Proof.
  apply (set_delete_exact object_a key_b (lit "true")).
  - apply object_a_valid.
  - vm_compute. reflexivity.
  - intros vals order H. assert (E : match decodeObjectView object_a with
      | Ok (_, o) => bool_decide (key_b ∉ o) | Err _ => false end = true) by (vm_compute; reflexivity).
    rewrite H in E. by apply bool_decide_eq_true in E.
  - vm_compute. reflexivity.
Defined.

Lemma without_members_view_witness :
  deleteMembers object_ab [key_a] = Ok (object_text (mkObject [] [] [member_b space] [])) ∧
  ∃ out vals order,
    deleteMembers object_ab [key_a] = revalidated out ∧
    (∃ o, object_wf o ∧ out = object_text o) ∧
    decodeObjectView object_ab = Ok (vals, order) ∧
    decodeObjectView out = Ok (filter (λ kv, kv.1 ∉ [key_a]) vals, filter (λ k, k ∉ [key_a]) order).
Proof. split; [vm_compute; reflexivity|]. apply without_members_view. vm_compute. reflexivity. Defined.

Lemma optional_object_valid_witness :
  match oo_bytes (mkOptionalObject (Some object_ab)) with
  | None => OptionalObject_DecodeObject (mkOptionalObject (Some object_ab)) = Err AbsentNoMembers
  | Some b => validateObjectShape b = Ok tt ∧
      ∃ vals order, OptionalObject_DecodeObject (mkOptionalObject (Some object_ab)) = Ok (vals, order) ∧
        NoDup order ∧ ∀ k, k ∈ order ↔ is_Some (vals !! k)
  end.
Proof.
  apply (optional_object_valid (mkOptionalObject (Some object_ab))).
  apply (or_set (mkOptionalObject (Some object_a)) key_b (lit "true")); [|vm_compute; reflexivity].
  apply (or_parse object_a). vm_compute. reflexivity.
Defined.

Lemma required_object_total_witness :
  RequiredObject_DeleteMember (mkRequiredObject (Some object_a)) key_a = Ok (mkRequiredObject None) ∧
  (∃ vals order, RequiredObject_DecodeObject (mkRequiredObject (Some object_a)) = Ok (vals, order) ∧ NoDup order ∧
     ∀ k, k ∈ order ↔ is_Some (vals !! k)) ∧
  (∀ k r' vals, RequiredObject_DeleteMember (mkRequiredObject (Some object_a)) k = Ok r' →
     RequiredObject_DecodeObject r' = Ok (vals, []) → RequiredObject_Bytes r' = emptyObject).
Proof.
  split; [vm_compute; reflexivity|].
  apply (required_object_total (mkRequiredObject (Some object_a))), (rr_parse object_a). vm_compute. reflexivity.
Defined.

(** ** A value with trailing whitespace

    The whitespace after a value is not part of its span: deleting the member
    that was set leaves it in the object. *)
Definition accept_all : JSONText := {| Validate _ := Ok tt |}.

Lemma set_delete_trailing_space :
  setMember (V:=accept_all) emptyObject key_a (lit "1 ") = Ok (lbrace :: Marshal key_a ++ colon :: lit "1 }") ∧
  deleteMember (V:=accept_all) (lbrace :: Marshal key_a ++ colon :: lit "1 }") key_a = Ok (lit "{ }").
Proof. split; vm_compute; reflexivity. Qed.
