(* ===== verification/Framing.v ===== *)
(** * Length-framed hash preimages

    The write-grant verifier of internal/plugin/writegrant.go never compares
    two requests directly: it feeds each section to a SHA-256 hasher through
    [writeFramed] and [writeField] and compares digests.  A hasher is modelled
    by the bytes written to it so far.  This file defines the two writers and
    proves what they are for: a framed value can be split off the front of a
    preimage in one way only.  [PrefixCode] names that property of an encoder;
    its instances build it for pairs, tagged fields, options and lists, so the
    section proofs obtain "equal preimages, equal facts" by instance search. *)

From stdpp Require Import base list strings gmap sets numbers.
From S2P Require Import Prelude ByteStrings.
From Stdlib Require Import Ascii.

(** ** Little-endian integers *)

Fixpoint le_put (k : nat) (n : N) : string :=
  match k with
  | 0 => ""
  | S k' => String (ascii_of_N (n mod 256)) (le_put k' (n / 256))
  end.

(** [binary.LittleEndian.PutUint64(buf[:], n)]; bits above the 64th are lost,
    as in Go's conversion to [uint64]. *)
Definition lePutUint64 (n : N) : string := le_put 8 n.
#[global] Arguments lePutUint64 n : simpl never.

(** [uint64(len(p))]. *)
Definition ulen (p : string) : N := N.of_nat (String.length p).

Lemma le_put_length k n : String.length (le_put k n) = k.
Proof. revert n; induction k; intros n; simpl; auto. Qed.

Lemma lePutUint64_length n : String.length (lePutUint64 n) = 8.
Proof. apply le_put_length. Qed.

Lemma le_put_inj k n m : (n < 256 ^ N.of_nat k)%N → (m < 256 ^ N.of_nat k)%N →
  le_put k n = le_put k m → n = m.
Proof.
  revert n m; induction k as [|k IH]; intros n m Hn Hm H; [simpl in *; lia|].
  rewrite Nat2N.inj_succ, N.pow_succ_r' in *. simpl in H. injection H as Hc H.
  apply (f_equal N_of_ascii) in Hc.
  rewrite !N_ascii_embedding in Hc by (apply N.mod_lt; lia).
  apply IH in H; [|apply N.Div0.div_lt_upper_bound; lia..].
  rewrite (N.div_mod n 256), (N.div_mod m 256) by lia. lia.
Qed.

Definition two64 : N := 18446744073709551616.

Lemma lePutUint64_inj n m : (n < two64)%N → (m < two64)%N →
  lePutUint64 n = lePutUint64 m → n = m.
Proof. apply (le_put_inj 8). Qed.

(** ** The writers *)

(** A [hash.Hash]: what was written to it.  [h.Write(p)] appends. *)
Abbreviation hasher := string.

Definition frame (p : string) : string := lePutUint64 (ulen p) +:+ p.

Fixpoint writeFramed (h : hasher) (parts : list string) : hasher :=
  match parts with
  | [] => h
  | p :: parts' => writeFramed (h +:+ lePutUint64 (ulen p) +:+ p) parts'
  end.

Definition byteStr (b : N) : string := String (ascii_of_N b) "".

Definition writeField (h : hasher) (field : N) (present : bool) (value : string) : hasher :=
  let presence := if present then 1%N else 0%N in
  writeFramed (h +:+ byteStr field +:+ byteStr presence) [value].

(** ** Strings as a monoid *)

Lemma sapp_assoc (a b c : string) : (a +:+ b) +:+ c = a +:+ (b +:+ c).
Proof. induction a as [|x a IH]; [done|]. exact (f_equal (String x) IH). Qed.

Lemma sapp_cancel_len (a b x y : string) :
  String.length a = String.length b → a +:+ x = b +:+ y → a = b ∧ x = y.
Proof.
  revert b; induction a as [|c a IH]; intros [|d b] Hl H; try discriminate Hl; [done|].
  injection Hl as Hl. simpl in H.
  assert (Hcd : c = d ∧ a +:+ x = b +:+ y) by (injection H; auto).
  destruct Hcd as [-> H']. by destruct (IH b Hl H') as [-> ->].
Qed.

Definition sconcat (l : list string) : string := foldr (λ a b, a +:+ b) "" l.

Lemma sconcat_app l1 l2 : sconcat (l1 ++ l2) = sconcat l1 +:+ sconcat l2.
Proof. induction l1; simpl; [done|]. by rewrite IHl1, sapp_assoc. Qed.

Lemma writeFramed_eq h parts : writeFramed h parts = h +:+ sconcat (frame <$> parts).
Proof.
  revert h; induction parts as [|p parts IH]; intros h; simpl.
  - by rewrite app_empty_r.
  - rewrite IH. unfold frame at 2. by rewrite !sapp_assoc.
Qed.

#[global] Arguments writeFramed h parts : simpl never.

Lemma writeField_eq h field present value :
  writeField h field present value
  = h +:+ byteStr field +:+ byteStr (if present then 1 else 0) +:+ frame value.
Proof. unfold writeField. rewrite writeFramed_eq. simpl. by rewrite app_empty_r, !sapp_assoc. Qed.

(** ** Prefix codes *)

(** Strings that fit into a Go heap, which covers 48 bits of address space on
    64-bit platforms.  Their lengths survive the conversion to [uint64]. *)
Definition two48 : N := 281474976710656.
Definition small (s : string) : Prop := (ulen s < two48)%N.

Lemma small_u64 s : small s → (ulen s < two64)%N.
Proof. unfold small, two48, two64. lia. Qed.

Lemma small_app_l a b : small (a +:+ b) → small a.
Proof. unfold small, ulen. rewrite str_length_app. lia. Qed.

Lemma small_app_r a b : small (a +:+ b) → small b.
Proof. unfold small, ulen. rewrite str_length_app. lia. Qed.

(** An encoder no encoding of which is a prefix of another one: for values
    that satisfy [P], the encoded value and the rest of the stream are
    determined by the stream. *)
Class PrefixCode {A} (P : A → Prop) (enc : A → string) : Prop :=
  prefix_code : ∀ a b x y, P a → P b → small (enc a +:+ x) →
    enc a +:+ x = enc b +:+ y → a = b ∧ x = y.

(** No restriction on the encoded value. *)
Definition any {A} (_ : A) : Prop := True.

#[global] Instance frame_code : PrefixCode any frame.
Proof.
  intros p q x y _ _ Hs H. unfold frame in *. rewrite !sapp_assoc in *.
  assert (Hq : small (lePutUint64 (ulen q) +:+ q +:+ y)) by (rewrite <- H; done).
  apply sapp_cancel_len in H as [Hl H]; [|by rewrite !lePutUint64_length].
  apply lePutUint64_inj in Hl.
  - unfold ulen in Hl. apply sapp_cancel_len in H; [done|lia].
  - eapply small_u64, small_app_l, small_app_r, Hs.
  - eapply small_u64, small_app_l, small_app_r, Hq.
Qed.

(** Numbers written as a framed eight-byte buffer. *)
Definition frameU64 (n : N) : string := frame (lePutUint64 n).

Definition isU64 (n : N) : Prop := (n < two64)%N.

Lemma frameU64_cancel n m x y : isU64 n → isU64 m →
  frameU64 n +:+ x = frameU64 m +:+ y → n = m ∧ x = y.
Proof.
  intros Hn Hm H. unfold frameU64, frame in H. unfold ulen in H.
  rewrite !lePutUint64_length in H. rewrite !sapp_assoc in H.
  apply sapp_cancel_len in H as [_ H]; [|done].
  apply sapp_cancel_len in H as [H ->]; [|by rewrite !lePutUint64_length].
  split; [|done]. by apply lePutUint64_inj.
Qed.

#[global] Instance frameU64_code : PrefixCode isU64 frameU64.
Proof. intros n m x y Hn Hm _. by apply frameU64_cancel. Qed.

#[global] Instance pair_code {A B} P Q (f : A → string) (g : B → string) :
  PrefixCode P f → PrefixCode Q g →
  PrefixCode (λ p, P p.1 ∧ Q p.2) (λ p, f p.1 +:+ g p.2).
Proof.
  intros Hf Hg [a b] [a' b'] x y [Pa Qb] [Pa' Qb'] Hs H. simpl in *. rewrite !sapp_assoc in *.
  destruct (prefix_code a a' _ _ Pa Pa' Hs H) as [-> H'].
  destruct (prefix_code b b' _ _ Qb Qb' (small_app_r _ _ Hs) H') as [-> ->]. done.
Qed.

(** A tagged field: tag byte, presence byte, framed value. *)
Definition fieldEnc (tag : N) (v : bool * string) : string :=
  byteStr tag +:+ byteStr (if v.1 then 1 else 0) +:+ frame v.2.

#[global] Instance field_code tag : PrefixCode any (fieldEnc tag).
Proof.
  intros [p v] [q w] x y _ _ Hs H. unfold fieldEnc in *. cbn [fst snd] in *. rewrite !sapp_assoc in *.
  apply sapp_cancel_len in H as [_ H]; [|done]. apply sapp_cancel_len in H as [Hb H']; [|done].
  assert (p = q) as -> by (by destruct p, q).
  destruct (prefix_code v w x y I I) as [-> ->]; [|done..].
  by eapply small_app_r, small_app_r.
Qed.

Lemma writeField_enc h tag p v : writeField h tag p v = h +:+ fieldEnc tag (p, v).
Proof. apply writeField_eq. Qed.

Lemma writeFramed_one h p : writeFramed h [p] = h +:+ frame p.
Proof. rewrite writeFramed_eq. simpl. by rewrite app_empty_r. Qed.

Lemma writeFramed_u64 h n : writeFramed h [lePutUint64 n] = h +:+ frameU64 n.
Proof. apply writeFramed_one. Qed.

(** A list of codewords read to the end of the preimage. *)
Lemma sconcat_code_inj {A} P (enc : A → string) `{!PrefixCode P enc} l1 l2 :
  (∀ a, enc a ≠ "") → Forall P l1 → Forall P l2 → small (sconcat (enc <$> l1)) →
  sconcat (enc <$> l1) = sconcat (enc <$> l2) → l1 = l2.
Proof.
  intros Hne. revert l2; induction l1 as [|a l1 IH]; intros [|b l2] H1 H2 Hs H; [done|..].
  - simpl in H. exfalso. apply (Hne b). by destruct (enc b).
  - simpl in H. exfalso. apply (Hne a). by destruct (enc a).
  - inversion H1; inversion H2; subst. simpl in *.
    edestruct (prefix_code a b) as [-> H']; [done..|].
    f_equal. apply IH; [done..| |done]. by eapply small_app_r.
Qed.

(** A list of a known number of codewords, followed by more. *)
Lemma sconcat_code_cancel {A} P (enc : A → string) `{!PrefixCode P enc} l1 l2 x y :
  length l1 = length l2 → Forall P l1 → Forall P l2 → small (sconcat (enc <$> l1) +:+ x) →
  sconcat (enc <$> l1) +:+ x = sconcat (enc <$> l2) +:+ y → l1 = l2 ∧ x = y.
Proof.
  revert l2; induction l1 as [|a l1 IH]; intros [|b l2] Hl H1 H2 Hs H; try discriminate Hl; [done|].
  inversion H1; inversion H2; subst. injection Hl as Hl. simpl in *. rewrite !sapp_assoc in *.
  edestruct (prefix_code a b) as [-> H']; [done..|].
  destruct (IH l2 Hl) as [-> ->]; [done..|by eapply small_app_r|done|done].
Qed.

Lemma Forall_any {A} (l : list A) : Forall any l.
Proof. by apply Forall_true. Qed.

Lemma frame_nonempty p x : frame p +:+ x ≠ "".
Proof. unfold frame, lePutUint64. done. Qed.

(** A framed eight-byte number opens with its length byte, eight: no field tag
    but the eighth can be mistaken for it. *)
Lemma frameU64_not_field n tag v x y :
  N_of_ascii (ascii_of_N tag) ≠ 8%N → frameU64 n +:+ x ≠ fieldEnc tag v +:+ y.
Proof.
  intros Ht H. apply Ht. unfold frameU64, frame, fieldEnc, byteStr in H.
  rewrite !sapp_assoc in H. unfold ulen in H. rewrite lePutUint64_length in H.
  assert (Hc : ascii_of_N 8 = ascii_of_N tag) by (by injection H).
  by rewrite <- Hc.
Qed.

(** A field with tag eight, whose first byte is also that of a framed
    eight-byte value, is still never the start of a frame with two more bytes
    behind it: read as a length, its bytes claim more than the field holds. *)
Lemma field8_not_frame v x r :
  small (fieldEnc 8 v) → small (frame x +:+ r) → 2 < String.length r →
  fieldEnc 8 v ≠ frame x +:+ r.
Proof.
  intros Hv Hx Hr H. pose proof (f_equal String.length H) as Hl.
  unfold fieldEnc, frame, byteStr in Hl, H. rewrite ?sapp_assoc in *.
  rewrite !str_length_app, !lePutUint64_length in Hl. simpl in Hl.
  assert (Hvx : (ulen x / 65536)%N = ulen v.2).
  { apply (le_put_inj 6).
    - apply N.Div0.div_lt_upper_bound. apply small_app_l, small_app_r, small_u64 in Hx.
      exact Hx.
    - unfold fieldEnc in Hv. do 3 apply small_app_r in Hv. exact Hv.
    - change (lePutUint64 (ulen v.2)) with
        (le_put 6 (ulen v.2) +:+ le_put 2 (ulen v.2 / 256 / 256 / 256 / 256 / 256 / 256)) in H.
      change (lePutUint64 (ulen x)) with
        (byteStr (ulen x mod 256) +:+ byteStr (ulen x / 256 mod 256) +:+ le_put 6 (ulen x / 256 / 256)) in H.
      rewrite !sapp_assoc in H. do 2 (apply sapp_cancel_len in H as [_ H]; [|done]).
      apply sapp_cancel_len in H as [H _]; [|by rewrite !le_put_length].
      by rewrite H, N.Div0.div_div. }
  unfold ulen in Hvx. pose proof (N.Div0.mul_div_le (N.of_nat (String.length x)) 65536).
  lia.
Qed.

(** A counted list. *)
Definition countedEnc {A} (enc : A → string) (l : list A) : string :=
  frameU64 (N.of_nat (length l)) +:+ sconcat (enc <$> l).

#[global] Instance counted_code {A} P (enc : A → string) :
  PrefixCode P enc →
  PrefixCode (λ l, (N.of_nat (length l) < two64)%N ∧ Forall P l) (countedEnc enc).
Proof.
  intros He l l' x y [Hl Pl] [Hl' Pl'] Hs H. unfold countedEnc in *. rewrite !sapp_assoc in *.
  apply frameU64_cancel in H as [Hn H]; [|done..]. apply small_app_r in Hs.
  apply (sconcat_code_cancel P enc) in H; auto. lia.
Qed.

(** ** Digest comparisons

    SHA-256 is a parameter.  No theorem assumes it injective, which it is not:
    each is stated for the byte strings hashed while two requests are
    compared, and assumes that those finitely many strings do not collide. *)

(** The zero digest a Go map lookup returns for an absent role. *)
Definition zeroDigest : string := sconcat (replicate 32 (byteStr 0)).

Record NoCollision (sha : string → string) (hashed : list string) : Prop := {
  nc_small x : x ∈ hashed → small x;
  nc_inj x y : x ∈ hashed → y ∈ hashed → sha x = sha y → x = y;
  nc_zero x : x ∈ hashed → sha x ≠ zeroDigest
}.
