(* ===== verification/RequestIR.v ===== *)
(** * The request a plugin sees

    The protobuf request of the plugin ABI as the write-grant verifier reads
    it: [ChatRequest], its messages, the ordered block body with the oneof of
    block kinds, nested tool-result content, tool definitions.  Field names are
    the ones of the inventory at the end of internal/plugin/writegrant.go.  Go
    strings and byte slices are both byte strings; a float64 is its bit
    pattern; a message also carries the bytes of the fields its schema does not
    know, which the host must refuse.  Elements of repeated fields are never
    nil and a set oneof arm never holds a nil message: that is how the wire
    format decodes.

    The last part is reflection as the verifier uses it: the walk that looks
    for unknown fields, and the block a binding reads by field name. *)

From stdpp Require Import base list strings gmap sets numbers.
From S2P Require Import Prelude ByteStrings.

(** ** Nested tool-result content *)

Inductive ToolResultContentKind :=
| TRText (text : string) (unk : string)
| TRUnknown (kind payload_json : string) (unk : string)
| TRCacheBreakpoint (marker_json : string) (unk : string)
| TRUnset.

Record ToolResultContentBlock := mkTRC { trc_kind : ToolResultContentKind; trc_unk : string }.

(** ** Block kinds *)

Record RequestTextBlock := mkText
  { tx_text : string; tx_signature : string; tx_part_metadata_json : string; tx_unk : string }.

Record RequestThinkingBlock := mkThinking
  { th_text : string; th_signature : string; th_part_metadata_json : string; th_unk : string }.

Record RequestRedactedThinkingBlock := mkRedacted { rd_data : string; rd_unk : string }.

Record RequestToolUseBlock := mkToolUse
  { tu_id : string; tu_name : string; tu_arguments_json : string; tu_signature : string;
    tu_part_metadata_json : string; tu_input_text : option string; tu_invocation_kind : Z;
    tu_unk : string }.

Record RequestToolResultBlock := mkToolResult
  { tr_tool_call_id : string; tr_tool_name : string; tr_content : list ToolResultContentBlock;
    tr_part_metadata_json : string; tr_will_continue : option bool; tr_scheduling : option string;
    tr_signature : string; tr_invocation_kind : Z; tr_is_error : option bool; tr_unk : string }.

Record RequestUnknownBlock := mkUnknown
  { uk_kind : string; uk_payload_json : string; uk_part_metadata_json : string;
    uk_signature : string; uk_unk : string }.

Record RequestTrailingSignatureBlock := mkTrailing
  { ts_signature : string; ts_part_metadata_json : string; ts_unk : string }.

Record RequestCacheBreakpoint := mkCache { cb_marker_json : string; cb_unk : string }.

(** The oneof.  The host gives the refusal arm no structure; its content is
    opaque here too. *)
Inductive RequestBlockKind :=
| RBText (k : RequestTextBlock)
| RBThinking (k : RequestThinkingBlock)
| RBRedactedThinking (k : RequestRedactedThinkingBlock)
| RBToolUse (k : RequestToolUseBlock)
| RBToolResult (k : RequestToolResultBlock)
| RBCacheBreakpoint (k : RequestCacheBreakpoint)
| RBUnknown (k : RequestUnknownBlock)
| RBTrailingSignature (k : RequestTrailingSignatureBlock)
| RBRefusal (content unk : string)
| RBUnset.

Record RequestBlock := mkBlock { rb_kind : RequestBlockKind; rb_unk : string }.

Record Message := mkMessage { m_role : string; m_blocks : list RequestBlock; m_unk : string }.

Record ToolDef := mkToolDef
  { td_name : string; td_description : string; td_parameters_json : string; td_strict : bool;
    td_cache_control_json : string; td_invocation_kind : Z; td_input_format_json : string;
    td_namespace_path : list string; td_unk : string }.

Record OutputFormat := mkOutputFormat
  { of_mode : Z; of_name : string; of_schema_json : string; of_strict : option bool; of_unk : string }.

Record ChatRequest := mkChatRequest
  { Model : string; Messages : list Message; Tools : list ToolDef; Stream : bool;
    MaxTokens : option Z; Temperature : option N; TopP : option N;
    StopSequences : list string; ProviderExtensionsJson : string; SafetySettingsJson : string;
    OutputFormat_ : option OutputFormat; ToranaMetaJson : string; cr_unk : string }.

#[global] Instance trck_eq_dec : EqDecision ToolResultContentKind.
Proof. solve_decision. Defined.
#[global] Instance trc_eq_dec : EqDecision ToolResultContentBlock.
Proof. solve_decision. Defined.
#[global] Instance tx_eq_dec : EqDecision RequestTextBlock.
Proof. solve_decision. Defined.
#[global] Instance th_eq_dec : EqDecision RequestThinkingBlock.
Proof. solve_decision. Defined.
#[global] Instance rd_eq_dec : EqDecision RequestRedactedThinkingBlock.
Proof. solve_decision. Defined.
#[global] Instance tu_eq_dec : EqDecision RequestToolUseBlock.
Proof. solve_decision. Defined.
#[global] Instance tr_eq_dec : EqDecision RequestToolResultBlock.
Proof. solve_decision. Defined.
#[global] Instance uk_eq_dec : EqDecision RequestUnknownBlock.
Proof. solve_decision. Defined.
#[global] Instance ts_eq_dec : EqDecision RequestTrailingSignatureBlock.
Proof. solve_decision. Defined.
#[global] Instance cb_eq_dec : EqDecision RequestCacheBreakpoint.
Proof. solve_decision. Defined.
#[global] Instance rbk_eq_dec : EqDecision RequestBlockKind.
Proof. solve_decision. Defined.
#[global] Instance rb_eq_dec : EqDecision RequestBlock.
Proof. solve_decision. Defined.
#[global] Instance msg_eq_dec : EqDecision Message.
Proof. solve_decision. Defined.
#[global] Instance td_eq_dec : EqDecision ToolDef.
Proof. solve_decision. Defined.

(** The generated getters: the arm, or nil. *)
Definition GetCacheBreakpoint (b : RequestBlock) : option RequestCacheBreakpoint :=
  if rb_kind b is RBCacheBreakpoint k then Some k else None.
Definition GetTrailingSignature (b : RequestBlock) : option RequestTrailingSignatureBlock :=
  if rb_kind b is RBTrailingSignature k then Some k else None.
Definition GetToolResult (b : RequestBlock) : option RequestToolResultBlock :=
  if rb_kind b is RBToolResult k then Some k else None.
Definition trc_GetCacheBreakpoint (c : ToolResultContentBlock) : option string :=
  if trc_kind c is TRCacheBreakpoint marker _ then Some marker else None.
Definition trc_GetText (c : ToolResultContentBlock) : option string :=
  if trc_kind c is TRText text _ then Some text else None.

(** ** Reflection: the tree of message-valued fields *)

(** A message as [protoreflect] shows it to a walk that follows message-valued
    fields only: unknown bytes, then each set field with its elements, marked
    as a list or as a single message. *)
Inductive ptree := PTree (unknown : string) (fields : list (string * bool * list ptree)).

Definition leaf (unk : string) : ptree := PTree unk [].

Definition reflectContent (c : ToolResultContentBlock) : ptree :=
  PTree (trc_unk c)
    match trc_kind c with
    | TRText _ u => [("text", false, [leaf u])]
    | TRUnknown _ _ u => [("unknown", false, [leaf u])]
    | TRCacheBreakpoint _ u => [("cache_breakpoint", false, [leaf u])]
    | TRUnset => []
    end.

Definition reflectBlock (b : RequestBlock) : ptree :=
  PTree (rb_unk b)
    match rb_kind b with
    | RBText k => [("text", false, [leaf (tx_unk k)])]
    | RBThinking k => [("thinking", false, [leaf (th_unk k)])]
    | RBRedactedThinking k => [("redacted_thinking", false, [leaf (rd_unk k)])]
    | RBToolUse k => [("tool_use", false, [leaf (tu_unk k)])]
    | RBToolResult k =>
        [("tool_result", false, [PTree (tr_unk k) [("content", true, reflectContent <$> tr_content k)]])]
    | RBCacheBreakpoint k => [("cache_breakpoint", false, [leaf (cb_unk k)])]
    | RBUnknown k => [("unknown", false, [leaf (uk_unk k)])]
    | RBTrailingSignature k => [("trailing_signature", false, [leaf (ts_unk k)])]
    | RBRefusal _ u => [("refusal", false, [leaf u])]
    | RBUnset => []
    end.

Definition reflectMessage (m : Message) : ptree :=
  PTree (m_unk m) [("blocks", true, reflectBlock <$> m_blocks m)].

(** ** Reflection: fields by name *)

(** A [protoreflect.Value] of the kinds a signature can cover. *)
Inductive pvalue :=
| PVString (s : string)
| PVBytes (s : string)
| PVBool (b : bool)
| PVEnum (z : Z)
| PVList (l : list ToolResultContentBlock)
| PVInvalid.

(** The full name of the arm's message type. *)
Definition armName (k : RequestBlockKind) : string :=
  match k with
  | RBText _ => "torana.v1.RequestTextBlock"
  | RBThinking _ => "torana.v1.RequestThinkingBlock"
  | RBRedactedThinking _ => "torana.v1.RequestRedactedThinkingBlock"
  | RBToolUse _ => "torana.v1.RequestToolUseBlock"
  | RBToolResult _ => "torana.v1.RequestToolResultBlock"
  | RBCacheBreakpoint _ => "torana.v1.RequestCacheBreakpoint"
  | RBUnknown _ => "torana.v1.RequestUnknownBlock"
  | RBTrailingSignature _ => "torana.v1.RequestTrailingSignatureBlock"
  | RBRefusal _ _ => "torana.v1.RequestRefusalBlock"
  | RBUnset => ""
  end.

(** [pm.Get(fd)] for the arm and the field named: the default of an unset
    optional field. *)
Definition getField (k : RequestBlockKind) (f : string) : pvalue :=
  match k with
  | RBText k =>
      if String.eqb f "text" then PVString (tx_text k)
      else if String.eqb f "signature" then PVString (tx_signature k)
      else if String.eqb f "part_metadata_json" then PVBytes (tx_part_metadata_json k)
      else PVInvalid
  | RBThinking k =>
      if String.eqb f "text" then PVString (th_text k)
      else if String.eqb f "signature" then PVString (th_signature k)
      else if String.eqb f "part_metadata_json" then PVBytes (th_part_metadata_json k)
      else PVInvalid
  | RBRedactedThinking k => if String.eqb f "data" then PVString (rd_data k) else PVInvalid
  | RBToolUse k =>
      if String.eqb f "id" then PVString (tu_id k)
      else if String.eqb f "name" then PVString (tu_name k)
      else if String.eqb f "arguments_json" then PVBytes (tu_arguments_json k)
      else if String.eqb f "signature" then PVString (tu_signature k)
      else if String.eqb f "part_metadata_json" then PVBytes (tu_part_metadata_json k)
      else if String.eqb f "input_text" then PVString (default "" (tu_input_text k))
      else if String.eqb f "invocation_kind" then PVEnum (tu_invocation_kind k)
      else PVInvalid
  | RBToolResult k =>
      if String.eqb f "tool_call_id" then PVString (tr_tool_call_id k)
      else if String.eqb f "tool_name" then PVString (tr_tool_name k)
      else if String.eqb f "content" then PVList (tr_content k)
      else if String.eqb f "part_metadata_json" then PVBytes (tr_part_metadata_json k)
      else if String.eqb f "will_continue" then PVBool (default false (tr_will_continue k))
      else if String.eqb f "scheduling" then PVString (default "" (tr_scheduling k))
      else if String.eqb f "signature" then PVString (tr_signature k)
      else if String.eqb f "invocation_kind" then PVEnum (tr_invocation_kind k)
      else if String.eqb f "is_error" then PVBool (default false (tr_is_error k))
      else PVInvalid
  | RBCacheBreakpoint k =>
      if String.eqb f "marker_json" then PVBytes (cb_marker_json k) else PVInvalid
  | RBUnknown k =>
      if String.eqb f "kind" then PVString (uk_kind k)
      else if String.eqb f "payload_json" then PVBytes (uk_payload_json k)
      else if String.eqb f "part_metadata_json" then PVBytes (uk_part_metadata_json k)
      else if String.eqb f "signature" then PVString (uk_signature k)
      else PVInvalid
  | RBTrailingSignature k =>
      if String.eqb f "signature" then PVString (ts_signature k)
      else if String.eqb f "part_metadata_json" then PVBytes (ts_part_metadata_json k)
      else PVInvalid
  | RBRefusal _ _ | RBUnset => PVInvalid
  end.

(** [pm.Has(fd)] for the proto3 optional fields. *)
Definition hasField (k : RequestBlockKind) (f : string) : bool :=
  match k with
  | RBToolUse k => String.eqb f "input_text" && bool_decide (is_Some (tu_input_text k))
  | RBToolResult k =>
      (String.eqb f "will_continue" && bool_decide (is_Some (tr_will_continue k)))
      || (String.eqb f "scheduling" && bool_decide (is_Some (tr_scheduling k)))
      || (String.eqb f "is_error" && bool_decide (is_Some (tr_is_error k)))
  | _ => false
  end.

(** [requestBlockMessage(b, want)]: the block's arm when it is of that type. *)
Definition requestBlockMessage (b : RequestBlock) (want : string) : option RequestBlockKind :=
  match rb_kind b with
  | RBUnset => None
  | k => if String.eqb (armName k) want then Some k else None
  end.
