(* ===== verification/RequestSections.v ===== *)
(** * Section fingerprints of a request

    The part of internal/plugin/writegrant.go that decides which sections of a
    request a plugin changed: the role view of a message, the digest of each
    grantable section, and the comparison that demands a grant for every
    changed one.  SHA-256, the plugin SDK's body fingerprints, deterministic
    protobuf marshalling and the formatting of enums and reflected values are
    code outside this repository: they are the operations of [RequestSDK]. *)

From stdpp Require Import base list strings gmap sets numbers.
From S2P Require Import Prelude ByteStrings Framing RequestIR.

(** ** What the verifier calls *)

Class RequestSDK := {
  sha256 : string → string;
  (** [sdk.RequestBlocksFingerprint]; [None] is its error. *)
  RequestBlocksFingerprint : Message → option string;
  (** [sdk.ToolResultContentFingerprint]. *)
  ToolResultContentFingerprint : list ToolResultContentBlock → option string;
  (** [sdk.MessageWriteSection]: the grant that governs a role. *)
  MessageWriteSection : string → string;
  (** [fmt.Sprint] of the generated enum. *)
  InvocationKind_String : Z → string;
  (** [proto.MarshalOptions{Deterministic: true}.Marshal]. *)
  MarshalOutputFormat : OutputFormat → option string;
  (** [protoreflect.Value.String] on values that are not strings. *)
  FormatValue : pvalue → string
}.

Inductive sectionName :=
| SecTools | SecCacheControl | SecToolResults | SecToolContent | SecToolErrors | SecModel | SecParams.

(** The errors of the verifier, one constructor per message. *)
Inductive requestErr :=
| BodyFingerprint
| ContentFingerprint
| MarshalFailed
| UnknownFields (path : string)
| ToranaMetaChanged
| NamespaceTopologyChanged
| TrailingCarrierEmpty (name : string)
| CoveredContent
| CoveredElement
| SigForged (name : string)
| SigReused (name : string)
| SigAdded (name : string)
| SigConflicting (name : string)
| SigStale (name : string)
| SigDropped (name : string)
| MissingRoleGrant (role grant : string)
| MissingGrant (sec : sectionName).

#[global] Instance sectionName_eq_dec : EqDecision sectionName.
Proof. solve_decision. Defined.
#[global] Instance requestErr_eq_dec : EqDecision requestErr.
Proof. solve_decision. Defined.

(** [for i, x := range l]. *)
Fixpoint rangeFrom {A} (i : N) (l : list A) : list (N * A) :=
  match l with
  | [] => []
  | x :: l' => (i, x) :: rangeFrom (i + 1) l'
  end.
Abbreviation range := (rangeFrom 0).

(** An SDK call whose error is wrapped. *)
Definition orErr {E A} (e : E) (o : option A) : res E A :=
  match o with Some a => Ok a | None => Err e end.

(** ** The role view *)

Definition nul : string := byteStr 0.
Definition roleTextPlaceholder : string := nul +:+ "torana-role-view-text".

Definition roleNestedContent (content : list ToolResultContentBlock) : list ToolResultContentBlock :=
  let visible := existsb (λ c, negb (bool_decide (is_Some (trc_GetCacheBreakpoint c)))) content in
  if negb visible then [] else [mkTRC (TRText roleTextPlaceholder "") ""].

(** The clone of one block with what no role grant governs cleared. *)
Definition roleViewKind (k : RequestBlockKind) : RequestBlockKind :=
  match k with
  | RBText k => RBText (mkText (tx_text k) "" (tx_part_metadata_json k) (tx_unk k))
  | RBThinking k => RBThinking (mkThinking (th_text k) "" (th_part_metadata_json k) (th_unk k))
  | RBToolUse k =>
      RBToolUse (mkToolUse (tu_id k) (tu_name k) (tu_arguments_json k) ""
        (tu_part_metadata_json k) (tu_input_text k) (tu_invocation_kind k) (tu_unk k))
  | RBUnknown k =>
      RBUnknown (mkUnknown (uk_kind k) (uk_payload_json k) (uk_part_metadata_json k) "" (uk_unk k))
  | RBToolResult k =>
      RBToolResult (mkToolResult (tr_tool_call_id k) (tr_tool_name k)
        (roleNestedContent (tr_content k)) (tr_part_metadata_json k) (tr_will_continue k)
        (tr_scheduling k) "" (tr_invocation_kind k) None (tr_unk k))
  | k => k
  end.

Fixpoint roleViewBlocks (bs : list RequestBlock) : list RequestBlock :=
  match bs with
  | [] => []
  | b :: bs' =>
      if GetCacheBreakpoint b is Some _ then roleViewBlocks bs'
      else if GetTrailingSignature b is Some _ then roleViewBlocks bs'
      else mkBlock (roleViewKind (rb_kind b)) (rb_unk b) :: roleViewBlocks bs'
  end.

Definition roleViewMessage (m : Message) : Message :=
  mkMessage (m_role m) (roleViewBlocks (m_blocks m)) "".

Section Fingerprints.
Context {K : RequestSDK}.

(** ** Messages by role *)

Definition messagePreimage (m : Message) (s : string) : hasher :=
  let h := writeField "" 1 (negb (String.eqb (m_role m) "")) (m_role m) in
  writeFramed h [s].

Definition fingerprintMessage (m : Message) : res requestErr string :=
  let body := roleViewMessage m in
  s ←? orErr BodyFingerprint (RequestBlocksFingerprint body);
  Ok (sha256 (messagePreimage m s)).

(** One iteration of the message loop: the role's hasher receives the
    absolute index and the digest. *)
Definition hashMessage (hashers : gmap string hasher) (im : N * Message)
    : res requestErr (gmap string hasher) :=
  let '(i, m) := im in
  let h := default "" (hashers !! m_role m) in
  d ←? fingerprintMessage m;
  Ok (<[m_role m := writeFramed h [lePutUint64 i; d]]> hashers).

Definition hashMessages (ms : list Message) : res requestErr (gmap string hasher) :=
  foldM hashMessage ∅ (range ms).

(** ** Cache breakpoints *)

Definition cacheNested (i bi : N) (h : hasher) (cic : N * ToolResultContentBlock) : hasher :=
  let '(ci, c) := cic in
  match trc_GetCacheBreakpoint c with
  | None => h
  | Some marker =>
      let h := writeFramed h [lePutUint64 i] in
      let h := writeFramed h [lePutUint64 bi] in
      let h := writeFramed h [lePutUint64 ci] in
      writeField h 2 true marker
  end.

Definition cacheBlock (i : N) (h : hasher) (bib : N * RequestBlock) : hasher :=
  let '(bi, b) := bib in
  match GetCacheBreakpoint b with
  | Some cb =>
      let h := writeFramed h [lePutUint64 i] in
      let h := writeFramed h [lePutUint64 bi] in
      writeField h 1 true (cb_marker_json cb)
  | None =>
      match GetToolResult b with
      | Some tr => foldl (cacheNested i bi) h (range (tr_content tr))
      | None => h
      end
  end.

Definition cacheTool (h : hasher) (it : N * ToolDef) : hasher :=
  let '(i, t) := it in
  if String.eqb (td_cache_control_json t) "" then h
  else
    let h := writeFramed h [lePutUint64 i] in
    writeField h 3 true (td_cache_control_json t).

Definition cacheControlPreimage (req : ChatRequest) : hasher :=
  let h := foldl (λ h im, foldl (cacheBlock im.1) h (range (m_blocks im.2))) "" (range (Messages req)) in
  foldl cacheTool h (range (Tools req)).

Definition fingerprintCacheControlSection (req : ChatRequest) : string :=
  sha256 (cacheControlPreimage req).

(** ** Tool-result text *)

Definition resultText (i bi : N) (h : hasher) (cic : N * ToolResultContentBlock) : hasher :=
  let '(ci, item) := cic in
  match trc_GetText item with
  | None => h
  | Some text =>
      let h := writeFramed h [lePutUint64 i] in
      let h := writeFramed h [lePutUint64 bi] in
      let h := writeFramed h [lePutUint64 ci] in
      writeField h 1 true text
  end.

Definition resultBlock (i : N) (h : hasher) (bib : N * RequestBlock) : hasher :=
  let '(bi, b) := bib in
  match GetToolResult b with
  | None => h
  | Some tr => foldl (resultText i bi) h (range (tr_content tr))
  end.

Definition toolResultsPreimage (req : ChatRequest) : hasher :=
  foldl (λ h im, foldl (resultBlock im.1) h (range (m_blocks im.2))) "" (range (Messages req)).

Definition fingerprintToolResultsSection (req : ChatRequest) : string :=
  sha256 (toolResultsPreimage req).

(** ** Tool-result content *)

(** The clone of a content element with a constant for its text. *)
Definition contentPlaceholder (c : ToolResultContentBlock) : ToolResultContentBlock :=
  match trc_kind c with
  | TRText _ u => mkTRC (TRText roleTextPlaceholder u) (trc_unk c)
  | _ => c
  end.

Fixpoint contentView (content : list ToolResultContentBlock) : list ToolResultContentBlock :=
  match content with
  | [] => []
  | item :: content' =>
      if trc_GetCacheBreakpoint item is Some _ then contentView content'
      else contentPlaceholder item :: contentView content'
  end.

Definition contentResult (s : hasher * N) (b : RequestBlock) : res requestErr (hasher * N) :=
  let '(h, occurrence) := s in
  match GetToolResult b with
  | None => Ok (h, occurrence)
  | Some result =>
      digest ←? orErr ContentFingerprint (ToolResultContentFingerprint (contentView (tr_content result)));
      Ok (writeFramed h [lePutUint64 occurrence; digest], (occurrence + 1)%N)
  end.

Definition toolContentPreimage (req : ChatRequest) : res requestErr hasher :=
  '(h, _) ←? foldM (λ s m, foldM contentResult s (m_blocks m)) ("", 0%N) (Messages req);
  Ok h.

Definition fingerprintToolResultContentSection (req : ChatRequest) : res requestErr string :=
  h ←? toolContentPreimage req; Ok (sha256 h).

(** ** Tool-result errors *)

Definition errorResult (h : hasher) (b : RequestBlock) : hasher :=
  match GetToolResult b with
  | None => h
  | Some result =>
      match tr_is_error result with
      | None => writeField h 1 false ""
      | Some e => writeField h 1 true (byteStr (if e then 1 else 0))
      end
  end.

Definition toolErrorsPreimage (req : ChatRequest) : hasher :=
  foldl (λ h m, foldl errorResult h (m_blocks m)) "" (Messages req).

Definition fingerprintToolResultErrorsSection (req : ChatRequest) : string :=
  sha256 (toolErrorsPreimage req).

(** ** Tools, model, parameters *)

Definition hashTool (h : hasher) (t : ToolDef) : hasher :=
  let strict := byteStr (if td_strict t then 1 else 0) in
  let h := writeFramed h [td_name t; td_description t; td_parameters_json t; strict;
                          InvocationKind_String (td_invocation_kind t); td_input_format_json t] in
  let h := writeFramed h [lePutUint64 (N.of_nat (length (td_namespace_path t)))] in
  foldl (λ h segment, writeFramed h [segment]) h (td_namespace_path t).

Definition toolsPreimage (req : ChatRequest) : hasher :=
  let h := writeFramed "" [lePutUint64 (N.of_nat (length (Tools req)))] in
  foldl hashTool h (Tools req).

Definition modelPreimage (req : ChatRequest) : hasher := writeFramed "" [Model req].

(** [uint64(uint32(x))] of an int32. *)
Definition u32 (x : Z) : N := Z.to_N (x mod 4294967296).

Definition writeOptional (h : hasher) (field : N) (v : option N) : hasher :=
  match v with
  | Some n => writeField h field true (lePutUint64 n)
  | None => writeField h field false ""
  end.

Definition paramsPreimage (req : ChatRequest) : res requestErr hasher :=
  let h := writeOptional "" 1 (u32 <$> MaxTokens req) in
  let h := writeOptional h 2 (Temperature req) in
  let h := writeOptional h 3 (TopP req) in
  let h := writeField h 4 true (byteStr (if Stream req then 1 else 0)) in
  let h := writeField h 5 true (ProviderExtensionsJson req) in
  let h := writeField h 6 true (SafetySettingsJson req) in
  let h := h +:+ byteStr 7 in
  let h := foldl (λ h s, writeFramed h [s]) h (StopSequences req) in
  let h := writeFramed h [lePutUint64 (N.of_nat (length (StopSequences req)))] in
  match OutputFormat_ req with
  | Some f =>
      encoded ←? orErr MarshalFailed (MarshalOutputFormat f);
      Ok (writeField h 8 true encoded)
  | None => Ok (writeField h 8 false "")
  end.

(** ** The fingerprint of a request *)

Record requestSections := mkSections {
  rs_messages : gmap string string;
  rs_tools : string;
  rs_model : string;
  rs_params : string;
  rs_cacheControl : string;
  rs_toolResults : string;
  rs_toolContent : string;
  rs_toolErrors : string
}.

Definition fingerprintRequestSections (req : ChatRequest) : res requestErr requestSections :=
  hashers ←? hashMessages (Messages req);
  toolContent ←? fingerprintToolResultContentSection req;
  params ←? paramsPreimage req;
  Ok {| rs_messages := sha256 <$> hashers;
        rs_tools := sha256 (toolsPreimage req);
        rs_model := sha256 (modelPreimage req);
        rs_params := sha256 params;
        rs_cacheControl := fingerprintCacheControlSection req;
        rs_toolResults := fingerprintToolResultsSection req;
        rs_toolContent := toolContent;
        rs_toolErrors := fingerprintToolResultErrorsSection req |}.

(** ** The comparison *)

(** [m[role]]: the zero digest when the role is absent. *)
Definition digestAt (m : gmap string string) (role : string) : string := default zeroDigest (m !! role).

(** The roles one loop marks: present in [a] with another digest in [b]. *)
Definition markedRoles (a b : gmap string string) : list string :=
  (filter (λ rs : string * string, digestAt b rs.1 ≠ rs.2) (map_to_list a)).*1.

(** The sorted union of both loops. *)
Definition changedRoles (acc res : gmap string string) : list string :=
  let roles := markedRoles res acc in
  sort_Strings (roles ++ filter (λ role, role ∉ roles) (markedRoles acc res)).

Fixpoint requireRoleGrants (canWrite : string → bool) (roles : list string) : res requestErr unit :=
  match roles with
  | [] => Ok tt
  | role :: roles' =>
      let grant := MessageWriteSection role in
      if canWrite grant then requireRoleGrants canWrite roles'
      else Err (MissingRoleGrant role grant)
  end.

Definition sectionGrant (s : sectionName) : string :=
  match s with
  | SecTools => "ir.tools.write"
  | SecCacheControl => "ir.cache_control.write"
  | SecToolResults => "ir.tool_results.write"
  | SecToolContent => "ir.tool_result_content.write"
  | SecToolErrors => "ir.tool_result_errors.write"
  | SecModel => "ir.model.write"
  | SecParams => "ir.params.write"
  end.

(** [if acc.x != res.x { if !canWrite(grant) { return ... } }] *)
Definition requireGrant (canWrite : string → bool) (s : sectionName) (a b : string)
    : res requestErr unit :=
  if decide (a = b) then Ok tt
  else if canWrite (sectionGrant s) then Ok tt else Err (MissingGrant s).

Definition verifyGrantedSections (accepted out : ChatRequest) (canWrite : string → bool)
    : res requestErr unit :=
  acc ←? fingerprintRequestSections accepted;
  res ←? fingerprintRequestSections out;
  _ ←? requireRoleGrants canWrite (changedRoles (rs_messages acc) (rs_messages res));
  _ ←? requireGrant canWrite SecTools (rs_tools acc) (rs_tools res);
  _ ←? requireGrant canWrite SecCacheControl (rs_cacheControl acc) (rs_cacheControl res);
  _ ←? requireGrant canWrite SecToolResults (rs_toolResults acc) (rs_toolResults res);
  _ ←? requireGrant canWrite SecToolContent (rs_toolContent acc) (rs_toolContent res);
  _ ←? requireGrant canWrite SecToolErrors (rs_toolErrors acc) (rs_toolErrors res);
  _ ←? requireGrant canWrite SecModel (rs_model acc) (rs_model res);
  requireGrant canWrite SecParams (rs_params acc) (rs_params res).
End Fingerprints.
