(* ===== verification/RequestSectionFacts.v ===== *)
(** * What the section digests stand for

    Each preimage of RequestSections.v is the concatenation of one codeword
    per fact of its section: a breakpoint with its position, a text value with
    its position, a tool definition, and so on.  This file names the facts,
    proves each preimage to be the encoding of its facts, and proves the
    encodings injective, so that equal preimages mean equal facts. *)

From stdpp Require Import base list strings gmap sets numbers.
From S2P Require Import Prelude ByteStrings Framing RequestIR RequestSections.
From Stdlib Require Import Ascii.

(** ** Ranges *)

Lemma elem_of_rangeFrom {A} k (l : list A) i x :
  (i, x) ∈ rangeFrom k l ↔ ∃ j : nat, i = (k + N.of_nat j)%N ∧ l !! j = Some x.
Proof.
  revert k; induction l as [|y l IH]; intros k; simpl.
  - split; [by intros ?%elem_of_nil|]. by intros (j & _ & ?).
  - rewrite elem_of_cons, IH. split.
    + intros [[= -> ->]|(j & -> & Hj)]; [exists 0; split; [lia|done]|].
      exists (S j). split; [lia|done].
    + intros ([|j] & -> & Hj); simpl in Hj; [left; simplify_eq; f_equal; lia|].
      right. exists j. split; [lia|done].
Qed.

(** An index of a Go slice is a [uint64]. *)
Definition sizedList {A} (l : list A) : Prop := (N.of_nat (length l) < two64)%N.

Lemma rangeFrom_sized {A} (l : list A) i x : sizedList l → (i, x) ∈ range l → isU64 i.
Proof.
  intros Hl (j & -> & Hj)%elem_of_rangeFrom. apply lookup_lt_Some in Hj.
  unfold sizedList, isU64 in *. lia.
Qed.

(** Every slice of the request has a length a Go [int] holds. *)
Record sizedRequest (req : ChatRequest) : Prop := {
  sz_messages : sizedList (Messages req);
  sz_tools : sizedList (Tools req);
  sz_stops : sizedList (StopSequences req);
  sz_blocks m : m ∈ Messages req → sizedList (m_blocks m);
  sz_content m b tr : m ∈ Messages req → b ∈ m_blocks m → GetToolResult b = Some tr →
    sizedList (tr_content tr);
  sz_path t : t ∈ Tools req → sizedList (td_namespace_path t);
  sz_max_tokens t : MaxTokens req = Some t → (-2147483648 ≤ t < 2147483648)%Z;
  sz_temperature t : Temperature req = Some t → isU64 t;
  sz_top_p t : TopP req = Some t → isU64 t
}.

(** ** Folding a hasher over facts *)

Lemma foldl_facts {A B} (step : hasher → A → hasher) (facts : A → list B) (enc : B → string) :
  (∀ h x, step h x = h +:+ sconcat (enc <$> facts x)) →
  ∀ h l, foldl step h l = h +:+ sconcat (enc <$> (l ≫= facts)).
Proof.
  intros Hs h l. revert h; induction l as [|x l IH]; intros h; simpl.
  - by rewrite app_empty_r.
  - rewrite IH, Hs, fmap_app, sconcat_app. by rewrite sapp_assoc.
Qed.

Lemma range_snd {A} k (l : list A) : (rangeFrom k l).*2 = l.
Proof. revert k; induction l as [|x l IH]; intros k; simpl; [done|]. by rewrite IH. Qed.

(** ** Cache breakpoints *)

Inductive cacheFact :=
| CacheTop (i bi : N) (marker : string)
| CacheNested (i bi ci : N) (marker : string)
| CacheTool (i : N) (marker : string).

Definition cacheEnc (f : cacheFact) : string :=
  match f with
  | CacheTop i bi m => frameU64 i +:+ frameU64 bi +:+ fieldEnc 1 (true, m)
  | CacheNested i bi ci m => frameU64 i +:+ frameU64 bi +:+ frameU64 ci +:+ fieldEnc 2 (true, m)
  | CacheTool i m => frameU64 i +:+ fieldEnc 3 (true, m)
  end.

Definition cacheSized (f : cacheFact) : Prop :=
  match f with
  | CacheTop i bi _ => isU64 i ∧ isU64 bi
  | CacheNested i bi ci _ => isU64 i ∧ isU64 bi ∧ isU64 ci
  | CacheTool i _ => isU64 i
  end.

(** Peels the codeword two equal streams start with. *)
Ltac peel H Hs :=
  apply frameU64_cancel in H as [? H]; [|done..]; apply small_app_r in Hs.

#[global] Instance cache_code : PrefixCode cacheSized cacheEnc.
Proof.
  assert (Hfield : ∀ t m m' x y, small (fieldEnc t (true, m) +:+ x) →
    fieldEnc t (true, m) +:+ x = fieldEnc t (true, m') +:+ y → m = m' ∧ x = y).
  { intros t m m' x y Hs H. by destruct (prefix_code (P:=any) _ _ _ _ I I Hs H) as [[= ->] ->]. }
  intros a b x y Ha Hb Hs H.
  destruct a, b; simpl in *; rewrite !sapp_assoc in *; destruct_and?;
    peel H Hs; subst;
    try (by exfalso; first [eapply frameU64_not_field, H | symmetry in H; eapply frameU64_not_field, H]);
    try (peel H Hs; subst);
    try (by exfalso; first [eapply frameU64_not_field, H | symmetry in H; eapply frameU64_not_field, H]);
    try (peel H Hs; subst);
    destruct (Hfield _ _ _ _ _ Hs H) as [-> ->]; done.
Qed.

Definition cacheFactsNested (i bi : N) (cic : N * ToolResultContentBlock) : list cacheFact :=
  match trc_GetCacheBreakpoint cic.2 with
  | Some m => [CacheNested i bi cic.1 m]
  | None => []
  end.

Definition cacheFactsBlock (i : N) (bib : N * RequestBlock) : list cacheFact :=
  match GetCacheBreakpoint bib.2 with
  | Some cb => [CacheTop i bib.1 (cb_marker_json cb)]
  | None =>
      match GetToolResult bib.2 with
      | Some tr => range (tr_content tr) ≫= cacheFactsNested i bib.1
      | None => []
      end
  end.

Definition cacheFactsTool (it : N * ToolDef) : list cacheFact :=
  if String.eqb (td_cache_control_json it.2) "" then []
  else [CacheTool it.1 (td_cache_control_json it.2)].

Definition cacheFacts (req : ChatRequest) : list cacheFact :=
  (range (Messages req) ≫= λ im, range (m_blocks im.2) ≫= cacheFactsBlock im.1)
  ++ (range (Tools req) ≫= cacheFactsTool).

Ltac write_norm :=
  rewrite ?writeFramed_u64, ?writeField_enc, ?sapp_assoc; simpl; rewrite ?app_empty_r, ?sapp_assoc; try done.

Lemma cacheControlPreimage_facts req :
  cacheControlPreimage req = sconcat (cacheEnc <$> cacheFacts req).
Proof.
  unfold cacheControlPreimage, cacheFacts.
  rewrite (foldl_facts _ (λ im, range (m_blocks im.2) ≫= cacheFactsBlock im.1) cacheEnc).
  - rewrite (foldl_facts _ cacheFactsTool cacheEnc).
    + by rewrite fmap_app, sconcat_app.
    + intros h [i t]. unfold cacheTool, cacheFactsTool; simpl. destruct (String.eqb _ _); write_norm.
  - intros h [i m]. apply foldl_facts. clear h. intros h [bi b].
    unfold cacheBlock, cacheFactsBlock; simpl. destruct (GetCacheBreakpoint b); [write_norm|].
    destruct (GetToolResult b); [|write_norm].
    apply foldl_facts. clear h. intros h [ci c]. unfold cacheNested, cacheFactsNested; simpl.
    destruct (trc_GetCacheBreakpoint c); write_norm.
Qed.

Lemma cacheFacts_sized req : sizedRequest req → Forall cacheSized (cacheFacts req).
Proof.
  intros Hs. apply list.Forall_forall. intros f. unfold cacheFacts.
  rewrite elem_of_app, !list_elem_of_bind. intros [([i m] & Hf & Him)|([i t] & Hf & Hit)].
  - pose proof (rangeFrom_sized _ _ _ (sz_messages _ Hs) Him) as Hi.
    apply elem_of_rangeFrom in Him as (? & _ & Hm%list_elem_of_lookup_2).
    apply list_elem_of_bind in Hf as ([bi b] & Hf & Hbi). simpl in *.
    pose proof (rangeFrom_sized _ _ _ (sz_blocks _ Hs _ Hm) Hbi) as Hb.
    apply elem_of_rangeFrom in Hbi as (? & _ & Hbm%list_elem_of_lookup_2).
    unfold cacheFactsBlock in Hf; simpl in Hf.
    destruct (GetCacheBreakpoint b); [by apply list_elem_of_singleton in Hf as ->|].
    destruct (GetToolResult b) eqn:Htr; [|by apply elem_of_nil in Hf].
    apply list_elem_of_bind in Hf as ([ci c] & Hf & Hci).
    pose proof (rangeFrom_sized _ _ _ (sz_content _ Hs _ _ _ Hm Hbm Htr) Hci) as Hc.
    unfold cacheFactsNested in Hf; simpl in Hf.
    destruct (trc_GetCacheBreakpoint c); [by apply list_elem_of_singleton in Hf as ->|].
    by apply elem_of_nil in Hf.
  - pose proof (rangeFrom_sized _ _ _ (sz_tools _ Hs) Hit) as Hi.
    unfold cacheFactsTool in Hf; simpl in Hf.
    destruct (String.eqb _ _); [by apply elem_of_nil in Hf|].
    by apply list_elem_of_singleton in Hf as ->.
Qed.

Lemma cacheEnc_nonempty f : cacheEnc f ≠ "".
Proof. destruct f; simpl; apply frame_nonempty. Qed.

Lemma cacheControlPreimage_inj a b : sizedRequest a → sizedRequest b →
  small (cacheControlPreimage a) → cacheControlPreimage a = cacheControlPreimage b →
  cacheFacts a = cacheFacts b.
Proof.
  rewrite !cacheControlPreimage_facts. intros Ha Hb.
  apply sconcat_code_inj with cacheSized; auto using cacheEnc_nonempty, cacheFacts_sized; apply _.
Qed.

(** ** Tool-result text values *)

(** Message, block and content index, and the text. *)
Definition textFact : Type := N * (N * (N * (bool * string))).

Definition textEnc (f : textFact) : string :=
  frameU64 f.1 +:+ (frameU64 f.2.1 +:+ (frameU64 f.2.2.1 +:+ fieldEnc 1 f.2.2.2)).

Definition textSized (f : textFact) : Prop := isU64 f.1 ∧ isU64 f.2.1 ∧ isU64 f.2.2.1 ∧ any f.2.2.2.

#[global] Instance text_code : PrefixCode textSized textEnc.
Proof.
  exact (pair_code _ _ frameU64 _ _ (pair_code _ _ frameU64 _ _
           (pair_code isU64 any frameU64 (fieldEnc 1) _ _))).
Qed.

Definition textFactsContent (i bi : N) (cic : N * ToolResultContentBlock) : list textFact :=
  match trc_GetText cic.2 with
  | Some text => [(i, (bi, (cic.1, (true, text))))]
  | None => []
  end.

Definition textFactsBlock (i : N) (bib : N * RequestBlock) : list textFact :=
  match GetToolResult bib.2 with
  | Some tr => range (tr_content tr) ≫= textFactsContent i bib.1
  | None => []
  end.

Definition textFacts (req : ChatRequest) : list textFact :=
  range (Messages req) ≫= λ im, range (m_blocks im.2) ≫= textFactsBlock im.1.

Lemma toolResultsPreimage_facts req :
  toolResultsPreimage req = sconcat (textEnc <$> textFacts req).
Proof.
  unfold toolResultsPreimage, textFacts.
  rewrite (foldl_facts _ (λ im, range (m_blocks im.2) ≫= textFactsBlock im.1) textEnc); [done|].
  intros h [i m]. apply foldl_facts. clear h. intros h [bi b].
  unfold resultBlock, textFactsBlock; simpl. destruct (GetToolResult b); [|write_norm].
  apply foldl_facts. clear h. intros h [ci c]. unfold resultText, textFactsContent; simpl.
  destruct (trc_GetText c); write_norm.
Qed.

Lemma textFacts_sized req : sizedRequest req → Forall textSized (textFacts req).
Proof.
  intros Hs. apply list.Forall_forall. intros f. unfold textFacts.
  rewrite !list_elem_of_bind. intros ([i m] & Hf & Him).
  pose proof (rangeFrom_sized _ _ _ (sz_messages _ Hs) Him) as Hi.
  apply elem_of_rangeFrom in Him as (? & _ & Hm%list_elem_of_lookup_2).
  apply list_elem_of_bind in Hf as ([bi b] & Hf & Hbi). simpl in *.
  pose proof (rangeFrom_sized _ _ _ (sz_blocks _ Hs _ Hm) Hbi) as Hb.
  apply elem_of_rangeFrom in Hbi as (? & _ & Hbm%list_elem_of_lookup_2).
  unfold textFactsBlock in Hf; simpl in Hf.
  destruct (GetToolResult b) eqn:Htr; [|by apply elem_of_nil in Hf].
  apply list_elem_of_bind in Hf as ([ci c] & Hf & Hci).
  pose proof (rangeFrom_sized _ _ _ (sz_content _ Hs _ _ _ Hm Hbm Htr) Hci) as Hc.
  unfold textFactsContent in Hf; simpl in Hf.
  destruct (trc_GetText c); [by apply list_elem_of_singleton in Hf as ->|].
  by apply elem_of_nil in Hf.
Qed.

Lemma toolResultsPreimage_inj a b : sizedRequest a → sizedRequest b →
  small (toolResultsPreimage a) → toolResultsPreimage a = toolResultsPreimage b →
  textFacts a = textFacts b.
Proof.
  rewrite !toolResultsPreimage_facts. intros Ha Hb.
  apply sconcat_code_inj with textSized; auto using textFacts_sized; apply _.
Qed.

(** ** Tool results in encounter order *)

Definition toolResultsOf (req : ChatRequest) : list RequestToolResultBlock :=
  Messages req ≫= λ m, omap GetToolResult (m_blocks m).

(** Error status: absent, or present with its value. *)
Definition errorEnc (e : option bool) : string :=
  fieldEnc 1 match e with
             | None => (false, "")
             | Some e => (true, byteStr (if e then 1 else 0))
             end.

#[global] Instance error_code : PrefixCode any errorEnc.
Proof.
  intros a b x y _ _ Hs H. unfold errorEnc in *.
  destruct (prefix_code (P:=any) _ _ _ _ I I Hs H) as [He ->]. split; [|done].
  by destruct a as [[]|], b as [[]|].
Qed.

Lemma fmap_bind {A B C} (f : B → C) (g : A → list B) l :
  f <$> (l ≫= g) = l ≫= λ x, f <$> g x.
Proof. induction l as [|x l IH]; [done|]. rewrite !bind_cons, fmap_app. by f_equal. Qed.

Lemma fmap_omap_list {A B C} (f : B → C) (g : A → option B) l :
  f <$> omap g l = l ≫= λ x, option_list (f <$> g x).
Proof. induction l as [|x l IH]; [done|]. rewrite bind_cons, <- IH. simpl. by destruct (g x). Qed.

Lemma toolErrorsPreimage_facts req :
  toolErrorsPreimage req = sconcat (errorEnc <$> (tr_is_error <$> toolResultsOf req)).
Proof.
  unfold toolErrorsPreimage, toolResultsOf. rewrite fmap_bind.
  rewrite (foldl_facts _ (λ m, tr_is_error <$> omap GetToolResult (m_blocks m)) errorEnc); [done|].
  intros h m. rewrite fmap_omap_list. apply foldl_facts. clear h. intros h b.
  unfold errorResult. destruct (GetToolResult b) as [tr|]; simpl; [|write_norm].
  destruct (tr_is_error tr) as [[]|]; write_norm.
Qed.

Lemma toolErrorsPreimage_inj a b : small (toolErrorsPreimage a) →
  toolErrorsPreimage a = toolErrorsPreimage b →
  tr_is_error <$> toolResultsOf a = tr_is_error <$> toolResultsOf b.
Proof.
  rewrite !toolErrorsPreimage_facts. apply sconcat_code_inj with any; [apply _|done|..];
    apply Forall_any.
Qed.

(** What the plugin SDK and the protobuf runtime promise of the functions that
    are not digests: enum names and deterministic encodings are faithful. *)
Class RequestSDKLaws (K : RequestSDK) : Prop := {
  #[global] kind_string_inj :: Inj (=) (=) InvocationKind_String;
  marshal_inj f g s : MarshalOutputFormat f = Some s → MarshalOutputFormat g = Some s → f = g
}.

Section SDK.
Context {K : RequestSDK}.

(** ** Tool-result content in encounter order *)

Definition contentViews (req : ChatRequest) : list (list ToolResultContentBlock) :=
  (λ tr, contentView (tr_content tr)) <$> toolResultsOf req.

Fixpoint ordinalEnc (occurrence : N) (ds : list string) : string :=
  match ds with
  | [] => ""
  | d :: ds' => frameU64 occurrence +:+ (frame d +:+ ordinalEnc (occurrence + 1) ds')
  end.

Lemma ordinalEnc_inj n ds ds' : small (ordinalEnc n ds) →
  ordinalEnc n ds = ordinalEnc n ds' → ds = ds'.
Proof.
  revert n ds'; induction ds as [|d ds IH]; intros n [|d' ds'] Hs H; simpl in *; try done.
  apply (inj (String.app (frameU64 n))) in H. apply small_app_r in Hs.
  destruct (prefix_code (P:=any) _ _ _ _ I I Hs H) as [-> H'].
  f_equal. eapply IH, H'. by eapply small_app_r.
Qed.

Lemma contentResult_fold bs h n h' n' :
  foldM contentResult (h, n) bs = Ok (h', n') →
  ∃ ds, Forall2 (λ tr d, ToolResultContentFingerprint (contentView (tr_content tr)) = Some d)
          (omap GetToolResult bs) ds
        ∧ h' = h +:+ ordinalEnc n ds.
Proof.
  revert h n; induction bs as [|b bs IH]; intros h n H; simpl in *.
  - injection H as -> ->. exists []. rewrite app_empty_r. split; [constructor|done].
  - destruct (GetToolResult b) as [tr|]; simpl in *; [|by apply IH].
    destruct (ToolResultContentFingerprint _) as [d|] eqn:Hd; simpl in H; [|done].
    apply IH in H as (ds & Hds & ->). exists (d :: ds). split; [by constructor|].
    rewrite writeFramed_eq. simpl. by rewrite app_empty_r, !sapp_assoc.
Qed.

Lemma toolContentPreimage_facts req h : toolContentPreimage req = Ok h →
  ∃ ds, Forall2 (λ c d, ToolResultContentFingerprint c = Some d) (contentViews req) ds
        ∧ h = ordinalEnc 0 ds.
Proof.
  unfold toolContentPreimage. rewrite foldM_bind. intros ([h' n'] & H & [= ->])%res_bind_ok.
  apply contentResult_fold in H as (ds & Hds & ->). exists ds. split; [|done].
  unfold contentViews, toolResultsOf. apply Forall2_fmap_l.
  assert (Heq : omap GetToolResult (Messages req ≫= m_blocks)
    = Messages req ≫= λ m, omap GetToolResult (m_blocks m)); [|by rewrite <- Heq].
  clear. induction (Messages req) as [|m ms IH]; [done|].
  rewrite !bind_cons, omap_app. by f_equal.
Qed.

(** ** Tool definitions *)

(** What [ir.tools.write] governs of a tool. *)
Definition toolView (t : ToolDef) :=
  (td_name t, td_description t, td_parameters_json t, td_strict t, td_invocation_kind t,
   td_input_format_json t, td_namespace_path t).

Definition toolCode (t : ToolDef) : string * (string * (string * (string * (string * (string * list string))))) :=
  (td_name t, (td_description t, (td_parameters_json t, (byteStr (if td_strict t then 1 else 0),
    (InvocationKind_String (td_invocation_kind t), (td_input_format_json t, td_namespace_path t)))))).

Definition toolEnc (c : string * (string * (string * (string * (string * (string * list string)))))) : string :=
  frame c.1 +:+ (frame c.2.1 +:+ (frame c.2.2.1 +:+ (frame c.2.2.2.1 +:+ (frame c.2.2.2.2.1
    +:+ (frame c.2.2.2.2.2.1 +:+ countedEnc frame c.2.2.2.2.2.2))))).

Definition toolSized (c : string * (string * (string * (string * (string * (string * list string)))))) : Prop :=
  any c.1 ∧ any c.2.1 ∧ any c.2.2.1 ∧ any c.2.2.2.1 ∧ any c.2.2.2.2.1 ∧ any c.2.2.2.2.2.1
  ∧ (N.of_nat (length c.2.2.2.2.2.2) < two64)%N ∧ Forall any c.2.2.2.2.2.2.

#[global] Instance tool_code : PrefixCode toolSized toolEnc.
Proof.
  exact (pair_code _ _ frame _ _ (pair_code _ _ frame _ _ (pair_code _ _ frame _ _
    (pair_code _ _ frame _ _ (pair_code _ _ frame _ _
      (pair_code any _ frame (countedEnc frame) _ _)))))).
Qed.

Lemma foldl_frames h l :
  foldl (λ h s, writeFramed h [s]) h l = h +:+ sconcat (frame <$> l).
Proof.
  revert h; induction l as [|s l IH]; intros h; simpl; [by rewrite app_empty_r|].
  by rewrite IH, writeFramed_one, sapp_assoc.
Qed.

Lemma hashTool_enc h t : hashTool h t = h +:+ sconcat (toolEnc <$> [toolCode t]).
Proof.
  unfold hashTool. rewrite foldl_frames, writeFramed_u64, writeFramed_eq. simpl.
  unfold toolEnc, countedEnc, frameU64; simpl. rewrite !app_empty_r, !sapp_assoc. done.
Qed.

Lemma toolsPreimage_enc req : toolsPreimage req = countedEnc toolEnc (toolCode <$> Tools req).
Proof.
  unfold toolsPreimage, countedEnc. rewrite writeFramed_u64, length_fmap.
  rewrite (foldl_facts _ (λ t, [toolCode t]) toolEnc) by apply hashTool_enc.
  assert (Heq : ∀ ts, (ts ≫= λ t, [toolCode t]) = toolCode <$> ts); [|by rewrite Heq].
  induction ts as [|t ts IH]; [done|]. by rewrite bind_cons, IH.
Qed.

Lemma toolsPreimage_inj `{!RequestSDKLaws K} a b : sizedRequest a → sizedRequest b →
  small (toolsPreimage a) → toolsPreimage a = toolsPreimage b →
  toolView <$> Tools a = toolView <$> Tools b.
Proof.
  intros Ha Hb Hs H. rewrite !toolsPreimage_enc in *.
  assert (Hsz : ∀ r, sizedRequest r → (N.of_nat (length (toolCode <$> Tools r)) < two64)%N
    ∧ Forall toolSized (toolCode <$> Tools r)).
  { intros r Hr. rewrite length_fmap. split; [apply Hr|]. apply Forall_fmap, list.Forall_forall.
    intros t Ht. repeat split; try done. by apply (sz_path _ Hr). by apply Forall_any. }
  edestruct (prefix_code (enc:=countedEnc toolEnc) (toolCode <$> Tools a) (toolCode <$> Tools b) "" "")
    as [Heq _]; rewrite ?app_empty_r; eauto.
  clear -Heq RequestSDKLaws0. revert Heq. generalize (Tools b).
  induction (Tools a) as [|t ts IH]; intros [|t' ts'] Heq; try discriminate Heq; [done|].
  rewrite !fmap_cons in *. injection Heq as Hn Hd Hp Hst Hk Hf Hpa Hrest.
  f_equal; [|by apply IH]. apply (inj InvocationKind_String) in Hk.
  assert (td_strict t = td_strict t') by (by destruct (td_strict t), (td_strict t')).
  unfold toolView. congruence.
Qed.

(** ** Parameters *)

Definition optEnc (tag : N) (v : option N) : string :=
  fieldEnc tag match v with Some n => (true, lePutUint64 n) | None => (false, "") end.

Definition optSized (v : option N) : Prop := ∀ n, v = Some n → isU64 n.

#[global] Instance opt_code tag : PrefixCode optSized (optEnc tag).
Proof.
  intros a b x y Ha Hb Hs H. unfold optEnc in *.
  destruct (prefix_code (P:=any) _ _ _ _ I I Hs H) as [He ->]. split; [|done].
  destruct a as [a|], b as [b|]; try discriminate He; [|done].
  apply (f_equal snd) in He. f_equal. apply lePutUint64_inj; [by apply Ha|by apply Hb|done].
Qed.

(** The stop sequences, their number and the output format: the number comes
    after the sequences, so the proof has to rule out that it, or the field
    behind it, is read as one more sequence. *)
Definition stopsEnc (l : list string) (n : N) (o : bool * string) : string :=
  sconcat (frame <$> l) +:+ (frameU64 n +:+ fieldEnc 8 o).

Lemma stopsEnc_long l n o : ∃ x r, stopsEnc l n o = frame x +:+ r ∧ 2 < String.length r.
Proof.
  unfold stopsEnc. destruct l as [|s l]; simpl.
  - exists (lePutUint64 n), (fieldEnc 8 o). split; [done|]. unfold fieldEnc, frame.
    rewrite !str_length_app, lePutUint64_length. simpl. lia.
  - eexists _, _. rewrite sapp_assoc. split; [done|].
    unfold frameU64, fieldEnc, frame. rewrite !str_length_app, !lePutUint64_length. lia.
Qed.

Lemma stopsEnc_cons s l n o : stopsEnc (s :: l) n o = frame s +:+ stopsEnc l n o.
Proof. apply sapp_assoc. Qed.

Lemma stopsEnc_inj l l' n n' o o' : isU64 n → isU64 n' → small (stopsEnc l n o) →
  stopsEnc l n o = stopsEnc l' n' o' → l = l' ∧ o = o'.
Proof.
  intros Hn Hn'.
  assert (Hone : ∀ s l n n' o o', small (frameU64 n +:+ fieldEnc 8 o) →
    frameU64 n +:+ fieldEnc 8 o ≠ frame s +:+ stopsEnc l n' o').
  { clear. intros s l n n' o o' Hs H. unfold frameU64 in *.
    destruct (prefix_code (P:=any) _ _ _ _ I I Hs H) as [_ H'].
    destruct (stopsEnc_long l n' o') as (x & r & Hxr & Hlen). rewrite Hxr in H'.
    apply small_app_r in Hs. eapply field8_not_frame, H'; [done| |done]. by rewrite <- H'. }
  revert l'; induction l as [|s l IH]; intros [|s' l'] Hs H.
  - unfold stopsEnc in *; simpl in *. apply frameU64_cancel in H as [_ H]; [|done..].
    apply (small_app_r (frameU64 n)) in Hs.
    destruct (prefix_code (enc:=fieldEnc 8) (P:=any) o o' "" "" I I) as [-> _];
      rewrite ?app_empty_r; done.
  - exfalso. rewrite stopsEnc_cons in H. by apply (Hone s' l' n n' o o').
  - exfalso. rewrite H in Hs. rewrite stopsEnc_cons in H. by apply (Hone s l n' n o' o).
  - rewrite !stopsEnc_cons in H. rewrite stopsEnc_cons in Hs.
    destruct (prefix_code (P:=any) _ _ _ _ I I Hs H) as [-> H'].
    apply small_app_r in Hs. by destruct (IH l' Hs H') as [-> ->].
Qed.

Lemma writeOptional_enc h tag v : writeOptional h tag v = h +:+ optEnc tag v.
Proof. destruct v; apply writeField_enc. Qed.

(** The output format with its deterministic encoding. *)
Definition formatCode (o : option OutputFormat) : option (bool * string) :=
  match o with
  | None => Some (false, "")
  | Some f => (λ s, (true, s)) <$> MarshalOutputFormat f
  end.

Lemma paramsPreimage_enc req h : paramsPreimage req = Ok h →
  ∃ o, formatCode (OutputFormat_ req) = Some o
    ∧ h = optEnc 1 (u32 <$> MaxTokens req) +:+ (optEnc 2 (Temperature req) +:+ (optEnc 3 (TopP req)
          +:+ (fieldEnc 4 (true, byteStr (if Stream req then 1 else 0))
          +:+ (fieldEnc 5 (true, ProviderExtensionsJson req)
          +:+ (fieldEnc 6 (true, SafetySettingsJson req) +:+ (byteStr 7
          +:+ stopsEnc (StopSequences req) (N.of_nat (length (StopSequences req))) o)))))).
Proof.
  unfold paramsPreimage, formatCode, stopsEnc. cbv zeta.
  destruct (OutputFormat_ req) as [f|].
  1: destruct (MarshalOutputFormat f) as [s|]; simpl; [|done].
  all: intros [= <-]; eexists; split; [done|].
  all: rewrite !writeField_enc, writeFramed_u64, foldl_frames, !writeOptional_enc.
  all: by rewrite !sapp_assoc.
Qed.

(** What [ir.params.write] governs. *)
Definition paramsView (req : ChatRequest) :=
  (MaxTokens req, Temperature req, TopP req, Stream req, ProviderExtensionsJson req,
   SafetySettingsJson req, StopSequences req, OutputFormat_ req).

Lemma u32_inj a b : (-2147483648 ≤ a < 2147483648)%Z → (-2147483648 ≤ b < 2147483648)%Z →
  u32 a = u32 b → a = b.
Proof.
  unfold u32. intros Ha Hb H. apply (f_equal Z.of_N) in H.
  rewrite !Z2N.id in H by (apply Z.mod_pos_bound; lia).
  rewrite (Z.div_mod a 4294967296), (Z.div_mod b 4294967296), H by lia.
  assert (a / 4294967296 = b / 4294967296)%Z as ->; [|done].
  pose proof (Z.div_mod a 4294967296). pose proof (Z.div_mod b 4294967296).
  pose proof (Z.mod_pos_bound a 4294967296). lia.
Qed.

Lemma u32_sized (v : option Z) : optSized (u32 <$> v).
Proof.
  intros n Hn. destruct v as [z|]; [|done]. injection Hn as <-. unfold isU64, u32, two64.
  pose proof (Z.mod_pos_bound z 4294967296). lia.
Qed.

Lemma formatCode_inj `{!RequestSDKLaws K} o o' c :
  formatCode o = Some c → formatCode o' = Some c → o = o'.
Proof.
  unfold formatCode. destruct o as [f|], o' as [g|]; try done.
  - destruct (MarshalOutputFormat f) as [s|] eqn:Hf, (MarshalOutputFormat g) as [s'|] eqn:Hg;
      try done. simpl. intros [= <-] [= ->]. f_equal. by eapply marshal_inj.
  - destruct (MarshalOutputFormat f); simpl; [intros [= <-]|]; done.
  - destruct (MarshalOutputFormat g); simpl; [intros [= <-]|]; done.
Qed.

Lemma paramsPreimage_inj `{!RequestSDKLaws K} a b h : sizedRequest a → sizedRequest b →
  small h → paramsPreimage a = Ok h → paramsPreimage b = Ok h → paramsView a = paramsView b.
Proof.
  intros Ha Hb Hs (o & Ho & ->)%paramsPreimage_enc (o' & Ho' & H)%paramsPreimage_enc.
  apply (prefix_code (P:=optSized)) in H as [Hmax H];
    [|apply u32_sized|apply u32_sized|done]. apply small_app_r in Hs.
  apply (prefix_code (P:=optSized)) in H as [Htemp H];
    [|exact (sz_temperature _ Ha)|exact (sz_temperature _ Hb)|done]. apply small_app_r in Hs.
  apply (prefix_code (P:=optSized)) in H as [Htop H];
    [|exact (sz_top_p _ Ha)|exact (sz_top_p _ Hb)|done]. apply small_app_r in Hs.
  apply (prefix_code (P:=any)) in H as [Hstream H]; [|done..]. apply small_app_r in Hs.
  apply (prefix_code (P:=any)) in H as [[= Hext] H]; [|done..]. apply small_app_r in Hs.
  apply (prefix_code (P:=any)) in H as [[= Hsafe] H]; [|done..]. apply small_app_r in Hs.
  apply (inj (String.app (byteStr 7))) in H. apply small_app_r in Hs.
  apply stopsEnc_inj in H as [Hstops ->]; [|exact (sz_stops _ Ha)|exact (sz_stops _ Hb)|done].
  pose proof (formatCode_inj _ _ _ Ho Ho').
  assert (Stream a = Stream b) by (by destruct (Stream a), (Stream b)).
  assert (MaxTokens a = MaxTokens b).
  { destruct (MaxTokens a) eqn:Ea, (MaxTokens b) eqn:Eb; try done. injection Hmax as Hmax.
    f_equal. apply u32_inj in Hmax; [done|exact (sz_max_tokens _ Ha _ Ea)|exact (sz_max_tokens _ Hb _ Eb)]. }
  unfold paramsView. congruence.
Qed.
End SDK.
