(* ===== verification/RequestSectionsProofs.v ===== *)
(** * What an ungranted section cannot hide

    The comparison of section digests, read back as a statement about the two
    requests: when it accepts, every section whose grant the plugin lacks is
    the same on both sides.  The statements are relative to the byte strings
    hashed for the two requests ([hashed]) not colliding, and to the SDK's body
    fingerprints telling those two requests' bodies apart. *)

From stdpp Require Import base list strings gmap sets numbers sorting.
From S2P Require Import Prelude ByteStrings Framing RequestIR RequestSections RequestSectionFacts.

Section Proofs.
Context {K : RequestSDK}.

(** ** The strings hashed *)

Definition hashedMessages (ms : list Message) : list string :=
  omap (λ m, messagePreimage m <$> RequestBlocksFingerprint (roleViewMessage m)) ms.

Definition okList {E A} (r : res E A) : list A := match r with Ok a => [a] | Err _ => [] end.

Definition hashed (req : ChatRequest) : list string :=
  hashedMessages (Messages req)
  ++ (okList (hashMessages (Messages req)) ≫= λ hs, (map_to_list hs).*2)
  ++ [cacheControlPreimage req; toolResultsPreimage req; toolErrorsPreimage req;
      toolsPreimage req; modelPreimage req]
  ++ okList (toolContentPreimage req) ++ okList (paramsPreimage req).

(** The digests of these two requests tell their contents apart. *)
Record FaithfulDigests (a b : ChatRequest) : Prop := {
  fd_hash : NoCollision sha256 (hashed a ++ hashed b);
  fd_body m m' s : m ∈ Messages a → m' ∈ Messages b →
    RequestBlocksFingerprint (roleViewMessage m) = Some s →
    RequestBlocksFingerprint (roleViewMessage m') = Some s →
    roleViewMessage m = roleViewMessage m';
  fd_content c c' s : c ∈ contentViews a → c' ∈ contentViews b →
    ToolResultContentFingerprint c = Some s → ToolResultContentFingerprint c' = Some s → c = c'
}.

Lemma digest_same a b x y : FaithfulDigests a b → x ∈ hashed a → y ∈ hashed b →
  sha256 x = sha256 y → x = y ∧ small x.
Proof.
  intros Hf Hx Hy H. split.
  - apply (nc_inj _ _ (fd_hash _ _ Hf)); [apply elem_of_app; auto..|done].
  - apply (nc_small _ _ (fd_hash _ _ Hf)). apply elem_of_app; auto.
Qed.

(** ** Messages by role *)

Fixpoint roleEntries (r : string) (k : N) (ms : list Message) (ds : list string) : list (N * string) :=
  match ms, ds with
  | m :: ms', d :: ds' =>
      if decide (m_role m = r) then (k, d) :: roleEntries r (k + 1) ms' ds'
      else roleEntries r (k + 1) ms' ds'
  | _, _ => []
  end.

Definition roleEnc (p : N * string) : string := frameU64 p.1 +:+ frame p.2.

#[local] Instance role_code : PrefixCode (λ p, isU64 p.1 ∧ any p.2) roleEnc.
Proof. exact (pair_code isU64 any frameU64 frame _ _). Qed.

Lemma elem_of_roleEntries r k ms ds i d :
  (i, d) ∈ roleEntries r k ms ds ↔
  ∃ (j : nat) m, i = (k + N.of_nat j)%N ∧ ms !! j = Some m ∧ m_role m = r ∧ ds !! j = Some d.
Proof.
  revert k ds; induction ms as [|m ms IH]; intros k [|d' ds]; simpl;
    try (split; [by intros ?%elem_of_nil|by intros (? & ? & _ & ? & _ & ?)]).
  case_decide as Hr; [rewrite elem_of_cons|]; rewrite IH; split.
  - intros [[= -> ->]|(j & m' & -> & ? & ? & ?)]; [exists 0, m; split; [lia|done]|].
    exists (S j), m'. split; [lia|done].
  - intros ([|j] & m' & -> & ? & ? & ?); simplify_eq/=; [left; f_equal; lia|].
    right. exists j, m'. split; [lia|done].
  - intros (j & m' & -> & ? & ? & ?). exists (S j), m'. split; [lia|done].
  - intros ([|j] & m' & -> & ? & ? & ?); simplify_eq/=. exists j, m'. split; [lia|done].
Qed.

Lemma hashMessages_from ms k hs0 hs : foldM hashMessage hs0 (rangeFrom k ms) = Ok hs →
  ∃ ds, Forall2 (λ m d, fingerprintMessage m = Ok d) ms ds ∧
    ∀ r, default "" (hs !! r)
           = default "" (hs0 !! r) +:+ sconcat (roleEnc <$> roleEntries r k ms ds)
         ∧ (hs !! r = None ↔ hs0 !! r = None ∧ roleEntries r k ms ds = []).
Proof.
  revert k hs0; induction ms as [|m ms IH]; intros k hs0 H; simpl in *.
  - injection H as ->. exists []. split; [constructor|]. intros r. simpl. rewrite app_empty_r. naive_solver.
  - apply res_bind_ok in H as (hs1 & H1 & H). apply res_bind_ok in H1 as (d & Hd & [= <-]).
    apply IH in H as (ds & Hds & H). exists (d :: ds). split; [by constructor|].
    intros r. destruct (H r) as [He Hn]. destruct (decide (m_role m = r)) as [<-|Hr].
    + rewrite lookup_insert_eq in He, Hn. split; [|naive_solver]. rewrite He. simpl.
      rewrite writeFramed_eq. simpl. rewrite app_empty_r, !sapp_assoc. done.
    + by rewrite lookup_insert_ne in He, Hn by done.
Qed.

Lemma hashMessages_entries ms hs : hashMessages ms = Ok hs →
  ∃ ds, Forall2 (λ m d, fingerprintMessage m = Ok d) ms ds ∧
    ∀ r, match hs !! r with
         | None => roleEntries r 0 ms ds = []
         | Some h => h = sconcat (roleEnc <$> roleEntries r 0 ms ds)
         end.
Proof.
  intros (ds & Hds & H)%hashMessages_from. exists ds. split; [done|]. intros r.
  destruct (H r) as [He Hn]. rewrite lookup_empty in He, Hn.
  destruct (hs !! r); [done|]. naive_solver.
Qed.

(** The role view at a position, if the message there has the role. *)
Definition roleAt (req : ChatRequest) (r : string) (j : nat) : option Message :=
  m ← Messages req !! j; if decide (m_role m = r) then Some (roleViewMessage m) else None.

Lemma roleAt_some req r j v : roleAt req r j = Some v ↔
  ∃ m, Messages req !! j = Some m ∧ m_role m = r ∧ v = roleViewMessage m.
Proof.
  unfold roleAt. destruct (Messages req !! j) as [m|]; simpl; [|naive_solver].
  case_decide; naive_solver.
Qed.

Lemma hashed_role a hs r h : hashMessages (Messages a) = Ok hs → hs !! r = Some h → h ∈ hashed a.
Proof.
  intros Hh Hr. unfold hashed. rewrite Hh. simpl. rewrite !elem_of_app. right; left; left.
  apply list_elem_of_fmap. exists (r, h). split; [done|].
  by apply elem_of_map_to_list.
Qed.

Lemma hashed_message a m s : m ∈ Messages a → RequestBlocksFingerprint (roleViewMessage m) = Some s →
  messagePreimage m s ∈ hashed a.
Proof.
  intros Hm Hs. unfold hashed, hashedMessages. rewrite !elem_of_app. left.
  apply list_elem_of_omap. exists m. split; [done|]. by rewrite Hs.
Qed.

Lemma messagePreimage_enc m s :
  messagePreimage m s = fieldEnc 1 (negb (String.eqb (m_role m) ""), m_role m) +:+ frame s.
Proof. unfold messagePreimage. by rewrite writeFramed_one, writeField_enc. Qed.

(** Equal message digests come from equal role views. *)
Lemma fingerprintMessage_same a b m m' d : FaithfulDigests a b →
  m ∈ Messages a → m' ∈ Messages b →
  fingerprintMessage m = Ok d → fingerprintMessage m' = Ok d →
  roleViewMessage m = roleViewMessage m'.
Proof.
  intros Hf Hm Hm' H H'. unfold fingerprintMessage in H, H'.
  destruct (RequestBlocksFingerprint (roleViewMessage m)) as [s|] eqn:Hs; [|done].
  destruct (RequestBlocksFingerprint (roleViewMessage m')) as [s'|] eqn:Hs'; [|done].
  simpl in H, H'. injection H as H. injection H' as H'.
  destruct (digest_same a b (messagePreimage m s) (messagePreimage m' s')) as [Heq Hsm];
    [done|by apply hashed_message..|congruence|].
  rewrite !messagePreimage_enc in Heq. rewrite messagePreimage_enc in Hsm.
  destruct (prefix_code (P:=any) _ _ _ _ I I Hsm Heq) as [_ Hss].
  apply (small_app_r (fieldEnc 1 _)) in Hsm.
  destruct (prefix_code (P:=any) (enc:=frame) s s' "" "" I I) as [-> _];
    rewrite ?app_empty_r; [done..|]. by eapply fd_body.
Qed.

Lemma roleEntries_sized r ms ds : sizedList ms →
  Forall (λ p, isU64 p.1 ∧ any p.2) (roleEntries r 0 ms ds).
Proof.
  intros Hs. apply list.Forall_forall. intros [i d] (j & m & -> & Hj & _)%elem_of_roleEntries.
  split; [|done]. apply lookup_lt_Some in Hj. unfold isU64, sizedList in *. simpl. lia.
Qed.

(** One inclusion of the role comparison. *)
Lemma role_included a b r ds ds' j v : 
  (∀ m m' d, m ∈ Messages a → m' ∈ Messages b → fingerprintMessage m = Ok d →
     fingerprintMessage m' = Ok d → roleViewMessage m = roleViewMessage m') →
  Forall2 (λ m d, fingerprintMessage m = Ok d) (Messages a) ds →
  Forall2 (λ m d, fingerprintMessage m = Ok d) (Messages b) ds' →
  roleEntries r 0 (Messages a) ds = roleEntries r 0 (Messages b) ds' →
  roleAt a r j = Some v → roleAt b r j = Some v.
Proof.
  intros Hsame Ha Hb He (m & Hm & Hr & ->)%roleAt_some. apply roleAt_some.
  destruct (Forall2_lookup_l _ _ _ _ _ Ha Hm) as (d & Hd & Hfd).
  assert (Hin : (N.of_nat j, d) ∈ roleEntries r 0 (Messages b) ds').
  { rewrite <- He. apply elem_of_roleEntries. exists j, m. done. }
  apply elem_of_roleEntries in Hin as (j' & m' & Hj & Hm' & Hr' & Hd').
  assert (j' = j) as -> by lia. exists m'. split_and!; [done..|].
  destruct (Forall2_lookup_l _ _ _ _ _ Hb Hm') as (d'' & Hd'' & Hfd').
  assert (d'' = d) as -> by congruence.
  eapply Hsame; eauto using list_elem_of_lookup_2.
Qed.

Lemma role_same a b hs hs' r : FaithfulDigests a b → sizedRequest a → sizedRequest b →
  hashMessages (Messages a) = Ok hs → hashMessages (Messages b) = Ok hs' →
  digestAt (sha256 <$> hs) r = digestAt (sha256 <$> hs') r → ∀ j, roleAt a r j = roleAt b r j.
Proof.
  intros Hf Hsa Hsb Ha Hb Hd.
  destruct (hashMessages_entries _ _ Ha) as (ds & Hds & Hr).
  destruct (hashMessages_entries _ _ Hb) as (ds' & Hds' & Hr'). specialize (Hr r). specialize (Hr' r).
  assert (He : roleEntries r 0 (Messages a) ds = roleEntries r 0 (Messages b) ds').
  { unfold digestAt in Hd. rewrite !lookup_fmap in Hd.
    destruct (hs !! r) as [h|] eqn:E, (hs' !! r) as [h'|] eqn:E'; simpl in Hd.
    - destruct (digest_same a b h h') as [-> Hsm]; [done|by eapply hashed_role..|done|].
      eapply (sconcat_code_inj _ roleEnc);
        [intros ?; apply frame_nonempty|by apply roleEntries_sized, sz_messages..
        |by rewrite <- Hr|congruence].
    - exfalso. eapply (nc_zero _ _ (fd_hash _ _ Hf)); [|exact Hd]. apply elem_of_app. left. by eapply hashed_role.
    - exfalso. eapply (nc_zero _ _ (fd_hash _ _ Hf)); [|exact (eq_sym Hd)]. apply elem_of_app. right. by eapply hashed_role.
    - congruence. }
  intros j. apply option_eq. intros v. split; eapply role_included; eauto.
  - intros m m' d. by apply fingerprintMessage_same.
  - intros m m' d ????. symmetry. eapply fingerprintMessage_same; eauto.
Qed.

(** ** The comparison *)

Lemma elem_of_markedRoles a b r :
  r ∈ markedRoles a b ↔ ∃ s, a !! r = Some s ∧ digestAt b r ≠ s.
Proof.
  unfold markedRoles. rewrite list_elem_of_fmap. split.
  - intros ([r' s] & -> & [Hd Hin%elem_of_map_to_list]%list_elem_of_filter). eauto.
  - intros (s & Hs & Hd). exists (r, s). split; [done|].
    apply list_elem_of_filter. split; [done|]. by apply elem_of_map_to_list.
Qed.

Lemma elem_of_changedRoles a b r : digestAt a r ≠ digestAt b r → r ∈ changedRoles a b.
Proof.
  intros H. unfold changedRoles, sort_Strings.
  rewrite merge_sort_Permutation, elem_of_app, list_elem_of_filter.
  destruct (decide (r ∈ markedRoles b a)) as [|Hn]; [by left|]. right. split; [done|].
  rewrite elem_of_markedRoles in *. unfold digestAt in *.
  destruct (a !! r) as [s|] eqn:Ea, (b !! r) as [t|] eqn:Eb; simpl in *; try done.
  - exists s. split; [done|]. by intros ->.
  - exists s. split; [done|]. by intros <-.
  - exfalso. apply Hn. eauto.
Qed.

Lemma requireRoleGrants_ok cw roles r : requireRoleGrants cw roles = Ok tt →
  r ∈ roles → cw (MessageWriteSection r) = true.
Proof.
  induction roles as [|r' roles IH]; intros H; [by intros ?%elem_of_nil|].
  simpl in H. destruct (cw (MessageWriteSection r')) eqn:E; [|done].
  intros [->|Hr]%elem_of_cons; auto.
Qed.

Lemma requireGrant_ok cw s x y : requireGrant cw s x y = Ok tt → cw (sectionGrant s) = false → x = y.
Proof. unfold requireGrant. intros H Hg. case_decide; [done|]. by rewrite Hg in H. Qed.

Definition sectionDigest (s : sectionName) (rs : requestSections) : string :=
  match s with
  | SecTools => rs_tools rs
  | SecCacheControl => rs_cacheControl rs
  | SecToolResults => rs_toolResults rs
  | SecToolContent => rs_toolContent rs
  | SecToolErrors => rs_toolErrors rs
  | SecModel => rs_model rs
  | SecParams => rs_params rs
  end.

Lemma verifyGrantedSections_ok a b cw : verifyGrantedSections a b cw = Ok tt →
  ∃ sa sb, fingerprintRequestSections a = Ok sa ∧ fingerprintRequestSections b = Ok sb
    ∧ (∀ r, cw (MessageWriteSection r) = false →
         digestAt (rs_messages sa) r = digestAt (rs_messages sb) r)
    ∧ ∀ s, cw (sectionGrant s) = false → sectionDigest s sa = sectionDigest s sb.
Proof.
  unfold verifyGrantedSections.
  intros (sa & Ha & (sb & Hb & H)%res_bind_ok)%res_bind_ok.
  do 7 (apply res_bind_ok in H as ([] & ? & H)).
  exists sa, sb. split_and!; [done..| |].
  - intros r Hr. destruct (decide (digestAt (rs_messages sa) r = digestAt (rs_messages sb) r))
      as [|Hd%elem_of_changedRoles]; [done|].
    eapply requireRoleGrants_ok in Hd; [|done]. congruence.
  - intros []; by apply requireGrant_ok.
Qed.

(** ** Sections as facts *)

(** The facts of one section, the same in both requests. *)
Definition sectionSame (s : sectionName) (a b : ChatRequest) : Prop :=
  match s with
  | SecTools => toolView <$> Tools a = toolView <$> Tools b
  | SecCacheControl => cacheFacts a = cacheFacts b
  | SecToolResults => textFacts a = textFacts b
  | SecToolContent => contentViews a = contentViews b
  | SecToolErrors => tr_is_error <$> toolResultsOf a = tr_is_error <$> toolResultsOf b
  | SecModel => Model a = Model b
  | SecParams => paramsView a = paramsView b
  end.

Lemma contents_same a b h : FaithfulDigests a b → small h →
  toolContentPreimage a = Ok h → toolContentPreimage b = Ok h → contentViews a = contentViews b.
Proof.
  intros Hf Hs (ds & Ha & ->)%toolContentPreimage_facts (ds' & Hb & H)%toolContentPreimage_facts.
  apply ordinalEnc_inj in H as <-; [|done]. clear Hs.
  assert (Hin : ∀ c c' d, c ∈ contentViews a → c' ∈ contentViews b →
    ToolResultContentFingerprint c = Some d → ToolResultContentFingerprint c' = Some d → c = c').
  { intros. eapply fd_content; eauto. }
  clear Hf. revert ds Ha Hb Hin. generalize (contentViews b).
  induction (contentViews a) as [|c cs IH]; intros cs' ds Ha Hb Hin; inversion Ha; subst;
    inversion Hb; subst; [done|].
  f_equal; [eapply Hin; eauto; left|]. eapply IH; [done..|].
  intros c1 c2 d Hc1 Hc2. apply Hin; by right.
Qed.

Lemma modelPreimage_inj a b : small (modelPreimage a) → modelPreimage a = modelPreimage b →
  Model a = Model b.
Proof.
  unfold modelPreimage. rewrite !writeFramed_one. intros Hs H.
  by destruct (prefix_code (P:=any) (enc:=frame) (Model a) (Model b) "" "" I I) as [-> _];
    rewrite ?app_empty_r.
Qed.

(** Equal section digests mean equal section facts. *)
Lemma section_same `{!RequestSDKLaws K} a b sa sb s :
  FaithfulDigests a b → sizedRequest a → sizedRequest b →
  fingerprintRequestSections a = Ok sa → fingerprintRequestSections b = Ok sb →
  sectionDigest s sa = sectionDigest s sb → sectionSame s a b.
Proof.
  intros Hf Ha Hb Fa Fb Hd. unfold fingerprintRequestSections in Fa, Fb.
  apply res_bind_ok in Fa as (hs & Hhs & Fa). apply res_bind_ok in Fa as (tc & Htc & Fa).
  apply res_bind_ok in Fa as (ps & Hps & [= <-]).
  apply res_bind_ok in Fb as (hs' & Hhs' & Fb). apply res_bind_ok in Fb as (tc' & Htc' & Fb).
  apply res_bind_ok in Fb as (ps' & Hps' & [= <-]).
  apply res_bind_ok in Htc as (h & Hh & [= <-]). apply res_bind_ok in Htc' as (h' & Hh' & [= <-]).
  assert (Hin : ∀ req x, x ∈ [cacheControlPreimage req; toolResultsPreimage req;
    toolErrorsPreimage req; toolsPreimage req; modelPreimage req] → x ∈ hashed req).
  { intros req x Hx. unfold hashed. rewrite !elem_of_app. auto. }
  destruct s; simpl in Hd |- *;
    try (edestruct (digest_same a b) as [Heq Hsm]; [exact Hf| | |exact Hd|];
      [by apply Hin; set_solver|by apply Hin; set_solver|]);
    eauto using toolsPreimage_inj, cacheControlPreimage_inj, toolResultsPreimage_inj,
      toolErrorsPreimage_inj, modelPreimage_inj.
  - destruct (digest_same a b h h') as [-> Hsm]; [done| | |done|by eapply contents_same].
    + unfold hashed. rewrite Hh, !elem_of_app. simpl. set_solver.
    + unfold hashed. rewrite Hh', !elem_of_app. simpl. set_solver.
  - destruct (digest_same a b ps ps') as [-> Hsm]; [done| | |done|by eapply paramsPreimage_inj].
    + unfold hashed. rewrite Hps, !elem_of_app. simpl. set_solver.
    + unfold hashed. rewrite Hps', !elem_of_app. simpl. set_solver.
Qed.

(** What the comparison establishes, read back from the digests. *)
Lemma verifyGrantedSections_same `{!RequestSDKLaws K} a b cw :
  FaithfulDigests a b → sizedRequest a → sizedRequest b →
  verifyGrantedSections a b cw = Ok tt →
  (∀ r, cw (MessageWriteSection r) = false → ∀ j, roleAt a r j = roleAt b r j)
  ∧ ∀ s, cw (sectionGrant s) = false → sectionSame s a b.
Proof.
  intros Hf Ha Hb (sa & sb & Fa & Fb & Hr & Hs)%verifyGrantedSections_ok. split.
  - intros r Hg. apply Hr in Hg. unfold fingerprintRequestSections in Fa, Fb.
    apply res_bind_ok in Fa as (hs & Hhs & (? & _ & (? & _ & [= <-])%res_bind_ok)%res_bind_ok).
    apply res_bind_ok in Fb as (hs' & Hhs' & (? & _ & (? & _ & [= <-])%res_bind_ok)%res_bind_ok).
    by eapply role_same.
  - intros s Hg. eapply section_same; eauto.
Qed.
End Proofs.
