(* ===== verification/RequestSignatures.v ===== *)
(** * Provider signatures in a request

    The request half of bound-signature verification in
    internal/plugin/writegrant.go: which blocks carry a provider token and over
    which content (resolved once from the SDK's binding inventory against the
    protobuf descriptors), the occurrences of a binding in a message, and the
    two phases of [verifyRequestSignatures], which align the signed occurrences
    of a plugin's output with the accepted ones. *)

From stdpp Require Import base list strings gmap sets numbers.
From S2P Require Import Prelude ByteStrings Matching Framing RequestIR RequestSections.

(** ** The binding inventory

    [outboundpolicy.AllSignatureBindings] and the protobuf registry are the
    SDK's and the protobuf runtime's: both are arguments. *)

Inductive SignatureScope :=
| SignatureScopeSameMessage
| SignatureScopeTrailingStandalone
| SignatureScopeOther (n : nat).

#[global] Instance SignatureScope_eq_dec : EqDecision SignatureScope.
Proof. solve_decision. Defined.

Record SignatureContentRef := mkRef
  { ref_scope : SignatureScope; ref_message : string; ref_field : string }.

Record SignatureBinding := mkBinding
  { sb_request : bool; sb_message : string; sb_signatureField : string;
    sb_content : list SignatureContentRef }.

Inductive FieldKind := StringKind | BytesKind | BoolKind | EnumKind | MessageKind | OtherKind.

#[global] Instance FieldKind_eq_dec : EqDecision FieldKind.
Proof. solve_decision. Defined.

Record FieldDescriptor := mkField
  { fd_name : string; fd_fullName : string; fd_kind : FieldKind; fd_isList : bool;
    fd_optional : bool }.

(** [fields.ByName(name)]. *)
Definition byName (fields : list FieldDescriptor) (name : string) : option FieldDescriptor :=
  snd <$> list_find (λ fd, fd_name fd = name) fields.

Inductive coveredRefKind :=
| refPlainString | refPlainBytes | refOptionalBool | refOptionalString | refPlainEnum | refPinnedContent.

(** The Go constants start at [iota + 1]; [writeField] hashes them. *)
Definition refKindByte (k : coveredRefKind) : N :=
  match k with
  | refPlainString => 1 | refPlainBytes => 2 | refOptionalBool => 3
  | refOptionalString => 4 | refPlainEnum => 5 | refPinnedContent => 6
  end.

Definition pinnedRepeatedContentTarget : string := "torana.v1.RequestToolResultBlock.content".

Definition classifyCoveredRef (fd : option FieldDescriptor) : option coveredRefKind :=
  match fd with
  | None => None
  | Some fd =>
      if fd_isList fd && bool_decide (fd_kind fd = MessageKind)
         && String.eqb (fd_fullName fd) pinnedRepeatedContentTarget then Some refPinnedContent
      else if fd_isList fd then None
      else if bool_decide (fd_kind fd = BoolKind) && fd_optional fd then Some refOptionalBool
      else if bool_decide (fd_kind fd = StringKind) && fd_optional fd then Some refOptionalString
      else if bool_decide (fd_kind fd = EnumKind) then Some refPlainEnum
      else if bool_decide (fd_kind fd = StringKind) then Some refPlainString
      else if bool_decide (fd_kind fd = BytesKind) then Some refPlainBytes
      else None
  end.

Definition requestTokenName (msg : string) : string :=
  if String.eqb msg "torana.v1.RequestTextBlock" then "content_signature"
  else if String.eqb msg "torana.v1.RequestThinkingBlock" then "thinking_signature"
  else if String.eqb msg "torana.v1.RequestToolUseBlock" then "tool_use_signature"
  else if String.eqb msg "torana.v1.RequestTrailingSignatureBlock" then "trailing_signature"
  else msg.

Record resolvedRef := mkResolved { rr_fd : FieldDescriptor; rr_kind : coveredRefKind }.
Record trailSignatureRef := mkTrail { trf_msg : string; trf_fd : FieldDescriptor }.

Record requestSignatureField := mkSigField {
  sf_message : string;                     (* binding.Message *)
  sf_scope : SignatureScope;
  sf_name : string;
  sf_sig : FieldDescriptor;
  sf_sameRefs : list resolvedRef;
  sf_trailRefs : list trailSignatureRef
}.

(** The startup panics. *)
Inductive bindingPanic :=
| UnknownMessage (field msg : string)
| UnknownTokenField (field msg : string)
| UnknownCoveredMessage (field msg : string)
| UnknownTrailingField (field msg : string)
| UnsupportedCoveredField (field msg ref : string).

Section Resolve.
Context (FindMessageByName : string → option (list FieldDescriptor)).

Definition refState : Type := SignatureScope * list resolvedRef * list trailSignatureRef.

(** One iteration of [for _, ref := range b.Content]. *)
Definition resolveRef (b : SignatureBinding) (fields : list FieldDescriptor) (s : refState)
    (ref : SignatureContentRef) : res bindingPanic refState :=
  let '(scope, sameRefs, trailRefs) := s in
  let scope := if decide (ref_scope ref ≠ SignatureScopeSameMessage) then ref_scope ref else scope in
  if decide (ref_scope ref = SignatureScopeTrailingStandalone) then
    match FindMessageByName (ref_message ref) with
    | None => Err (UnknownCoveredMessage (sb_signatureField b) (ref_message ref))
    | Some cov =>
        match byName cov (ref_field ref) with
        | Some fd =>
            if bool_decide (fd_kind fd = StringKind ∨ fd_kind fd = BytesKind)
            then Ok (scope, sameRefs, trailRefs ++ [mkTrail (ref_message ref) fd])
            else Err (UnknownTrailingField (sb_signatureField b) (ref_message ref))
        | None => Err (UnknownTrailingField (sb_signatureField b) (ref_message ref))
        end
    end
  else
    match byName fields (ref_field ref), classifyCoveredRef (byName fields (ref_field ref)) with
    | Some fd, Some kind => Ok (scope, sameRefs ++ [mkResolved fd kind], trailRefs)
    | _, _ => Err (UnsupportedCoveredField (sb_signatureField b) (sb_message b) (ref_field ref))
    end.

Definition resolveBinding (b : SignatureBinding) : res bindingPanic requestSignatureField :=
  match FindMessageByName (sb_message b) with
  | None => Err (UnknownMessage (sb_signatureField b) (sb_message b))
  | Some fields =>
      match byName fields (sb_signatureField b) with
      | Some sig =>
          if bool_decide (fd_kind sig = StringKind) then
            '(scope, sameRefs, trailRefs) ←?
              foldM (resolveRef b fields) (SignatureScopeSameMessage, [], []) (sb_content b);
            Ok (mkSigField (sb_message b) scope (requestTokenName (sb_message b)) sig sameRefs trailRefs)
          else Err (UnknownTokenField (sb_signatureField b) (sb_message b))
      | None => Err (UnknownTokenField (sb_signatureField b) (sb_message b))
      end
  end.

(** The package variable [requestSignatureFields]. *)
Definition requestSignatureFields (bindings : list SignatureBinding)
    : res bindingPanic (list requestSignatureField) :=
  foldM (λ out b, if sb_request b then f ←? resolveBinding b; Ok (out ++ [f]) else Ok out) [] bindings.
End Resolve.

Section Signatures.
Context {K : RequestSDK}.

(** ** Digests of covered content *)

(** [pm.Get(fd).String()]. *)
Definition fieldString (pm : RequestBlockKind) (fd : FieldDescriptor) : string :=
  match getField pm (fd_name fd) with
  | PVString s => s
  | v => FormatValue v
  end.

Definition contentBlocks (v : pvalue) : res requestErr (list ToolResultContentBlock) :=
  match v with
  | PVList l => Ok l
  | _ => Err CoveredElement
  end.

Definition digestRef (pm : RequestBlockKind) (h : hasher) (ref : resolvedRef) : res requestErr hasher :=
  match rr_kind ref with
  | refPlainString | refPlainBytes | refPlainEnum =>
      Ok (writeFramed h [fieldString pm (rr_fd ref)])
  | refOptionalBool | refOptionalString =>
      Ok (writeField h (refKindByte (rr_kind ref)) (hasField pm (fd_name (rr_fd ref)))
            (fieldString pm (rr_fd ref)))
  | refPinnedContent =>
      blocks ←? contentBlocks (getField pm (fd_name (rr_fd ref)));
      sum ←? orErr CoveredContent (ToolResultContentFingerprint blocks);
      Ok (writeFramed h [sum])
  end.

Definition digestBlockFields (pm : RequestBlockKind) (refs : list resolvedRef) : res requestErr string :=
  h ←? foldM (digestRef pm) "" refs; Ok (sha256 h).

(** The inner loop of [writeTrailingRefs] on one block. *)
Definition trailingRef (b : RequestBlock) (ordinal : N) (s : hasher * bool) (ref : trailSignatureRef)
    : hasher * bool :=
  let '(h, covered) := s in
  match requestBlockMessage b (trf_msg ref) with
  | None => (h, covered)
  | Some pm =>
      let h := if covered then h else writeFramed h [lePutUint64 ordinal] in
      let h := writeFramed h [trf_msg ref +:+ "." +:+ fd_name (trf_fd ref)] in
      (writeFramed h [fieldString pm (trf_fd ref)], true)
  end.

Definition trailingBlock (refs : list trailSignatureRef) (s : hasher * N) (b : RequestBlock) : hasher * N :=
  let '(h, ordinal) := s in
  let '(h, covered) := foldl (trailingRef b ordinal) (h, false) refs in
  (h, if covered then ordinal + 1 else ordinal)%N.

Definition writeTrailingRefs (h : hasher) (m : Message) (refs : list trailSignatureRef) : hasher :=
  (foldl (trailingBlock refs) (h, 0%N) (m_blocks m)).1.

(** ** Occurrences *)

Record tokenOccurrence := mkOcc
  { to_token : string; to_digest : string; to_preceding : string; to_trailAbsent : bool }.

(** The last block of the carrier's type. *)
Definition lastCarrier (r : requestSignatureField) (m : Message) : option RequestBlockKind :=
  foldl (λ trail b, match requestBlockMessage b (sf_message r) with Some pm => Some pm | None => trail end)
    None (m_blocks m).

Definition trailingOccurrence (r : requestSignatureField) (m : Message)
    : res requestErr (list tokenOccurrence) :=
  let trail := lastCarrier r m in
  let token := match trail with Some pm => fieldString pm (sf_sig r) | None => "" end in
  let preceding := sha256 (writeTrailingRefs "" m (sf_trailRefs r)) in
  h ←? match trail with
       | Some pm => sameDigest ←? digestBlockFields pm (sf_sameRefs r); Ok (writeFramed "" [sameDigest])
       | None => Ok ""
       end;
  let sum := sha256 (writeTrailingRefs h m (sf_trailRefs r)) in
  Ok [mkOcc token sum preceding (if trail is Some _ then false else true)].

(** A SameMessage block; its unused preceding digest is Go's zero array. *)
Definition blockOccurrence (r : requestSignatureField) (out : list tokenOccurrence) (b : RequestBlock)
    : res requestErr (list tokenOccurrence) :=
  match requestBlockMessage b (sf_message r) with
  | None => Ok out
  | Some pm =>
      d ←? digestBlockFields pm (sf_sameRefs r);
      Ok (out ++ [mkOcc (fieldString pm (sf_sig r)) d zeroDigest false])
  end.

Definition isTrailing (r : requestSignatureField) : bool :=
  bool_decide (sf_scope r = SignatureScopeTrailingStandalone).

Definition occurrences (r : requestSignatureField) (m : Message) : res requestErr (list tokenOccurrence) :=
  if isTrailing r then trailingOccurrence r m
  else foldM (blockOccurrence r) [] (m_blocks m).

(** ** The two phases *)

(** [byToken], [byContent] and [byPreceding] index the same heap objects, and
    phase 1 marks an object used through one of them.  The model keeps the
    accepted signed occurrences in one list with one flag each; a lookup in an
    index is a filter of that list, in the same order. *)
Record sigState := mkSigState {
  ss_signed : list tokenOccurrence;
  ss_used : list bool;
  ss_unsigned : gmap string nat            (* unsignedByContent *)
}.

Definition acceptOccurrence (s : sigState) (occ : tokenOccurrence) : sigState :=
  if String.eqb (to_token occ) "" then
    mkSigState (ss_signed s) (ss_used s)
      (<[to_digest occ := S (default 0 (ss_unsigned s !! to_digest occ))]> (ss_unsigned s))
  else mkSigState (ss_signed s ++ [occ]) (ss_used s ++ [false]) (ss_unsigned s).

Definition acceptMessage (check : requestSignatureField) (s : sigState) (am : Message)
    : res requestErr sigState :=
  occs ←? occurrences check am; Ok (foldl acceptOccurrence s occs).

(** Is there an unconsumed occurrence with the property? *)
Definition anyUnused (p : tokenOccurrence → bool) (s : sigState) : bool :=
  existsb p (select false (ss_signed s) (ss_used s)).

Definition conflictingContent (occs : list tokenOccurrence) : bool :=
  match occs with
  | [] | [_] => false
  | first :: rest => existsb (λ occ, negb (String.eqb (to_digest occ) (to_digest first))) rest
  end.

Definition consumeToken (check : requestSignatureField) (s : sigState) (tocc : tokenOccurrence)
    : res requestErr sigState :=
  if String.eqb (to_token tocc) "" then Ok s
  else
    match first_free (λ occ, String.eqb (to_token occ) (to_token tocc)
                             && String.eqb (to_digest occ) (to_digest tocc))
            (ss_signed s) (ss_used s) with
    | Some matched => Ok (mkSigState (ss_signed s) (<[matched := true]> (ss_used s)) (ss_unsigned s))
    | None =>
        let unused := filter (λ occ, to_token occ = to_token tocc)
                        (select false (ss_signed s) (ss_used s)) in
        match unused with
        | [] =>
            if anyUnused (λ occ, String.eqb (to_digest occ) (to_digest tocc)) s
            then Err (SigForged (sf_name check))
            else if existsb (λ occ, String.eqb (to_token occ) (to_token tocc)) (ss_signed s)
            then Err (SigReused (sf_name check))
            else Err (SigAdded (sf_name check))
        | _ =>
            if conflictingContent unused then Err (SigConflicting (sf_name check))
            else Err (SigStale (sf_name check))
        end
    end.

Definition phase1Message (check : requestSignatureField) (s : sigState) (om : Message)
    : res requestErr sigState :=
  toccs ←? occurrences check om; foldM (consumeToken check) s toccs.

Definition settleUnsigned (check : requestSignatureField) (s : sigState) (tocc : tokenOccurrence)
    : res requestErr sigState :=
  if negb (String.eqb (to_token tocc) "") then Ok s
  else
    match ss_unsigned s !! to_digest tocc with
    | Some (S n) => Ok (mkSigState (ss_signed s) (ss_used s) (<[to_digest tocc := n]> (ss_unsigned s)))
    | _ =>
        if to_trailAbsent tocc then
          if isTrailing check && anyUnused (λ occ, String.eqb (to_preceding occ) (to_preceding tocc)) s
          then Err (SigDropped (sf_name check)) else Ok s
        else
          if anyUnused (λ occ, String.eqb (to_digest occ) (to_digest tocc)) s
          then Err (SigDropped (sf_name check)) else Ok s
    end.

Definition phase2Message (check : requestSignatureField) (s : sigState) (om : Message)
    : res requestErr sigState :=
  toccs ←? occurrences check om; foldM (settleUnsigned check) s toccs.

(** A present trailing carrier with an empty token. *)
Definition emptyCarrier (check : requestSignatureField) (req : ChatRequest) : bool :=
  existsb (λ m, existsb (λ b,
    match requestBlockMessage b (sf_message check) with
    | Some pm => String.eqb (fieldString pm (sf_sig check)) ""
    | None => false
    end) (m_blocks m)) (Messages req).

Definition verifySignatureField (accepted out : ChatRequest) (check : requestSignatureField)
    : res requestErr unit :=
  if isTrailing check && (emptyCarrier check accepted || emptyCarrier check out)
  then Err (TrailingCarrierEmpty (sf_name check))
  else
    s ←? foldM (acceptMessage check) (mkSigState [] [] ∅) (Messages accepted);
    s ←? foldM (phase1Message check) s (Messages out);
    _ ←? foldM (phase2Message check) s (Messages out);
    Ok tt.

Fixpoint verifyRequestSignatures (fields : list requestSignatureField) (accepted out : ChatRequest)
    : res requestErr unit :=
  match fields with
  | [] => Ok tt
  | check :: fields' =>
      _ ←? verifySignatureField accepted out check;
      verifyRequestSignatures fields' accepted out
  end.
End Signatures.

(** * Request signatures: what acceptance means, exactly

    [verifyRequestSignatures] walks two lists with mutable indexes and eight
    outcomes.  [signaturesKept] says in two clauses what it decides: no signed
    pair of token and covered content is in the output that was not in the
    accepted request, counting repetitions; and content that lost a signed
    occurrence gained no unsigned copy.  The proofs relate each phase to its
    clause and combine them into an equivalence. *)

Section Proofs.
Context {K : RequestSDK}.

(** ** Occurrences of a whole request *)

Fixpoint occsOf (check : requestSignatureField) (ms : list Message) : res requestErr (list tokenOccurrence) :=
  match ms with
  | [] => Ok []
  | m :: ms' => o ←? occurrences check m; os ←? occsOf check ms'; Ok (o ++ os)
  end.

Lemma foldM_occs {S} check (f : S → tokenOccurrence → res requestErr S) s ms s' :
  foldM (λ s m, toccs ←? occurrences check m; foldM f s toccs) s ms = Ok s' ↔
  ∃ O, occsOf check ms = Ok O ∧ foldM f s O = Ok s'.
Proof.
  revert s; induction ms as [|m ms IH]; intros s; simpl; [naive_solver|].
  destruct (occurrences check m) as [o|e]; simpl; [|naive_solver].
  rewrite res_bind_ok. setoid_rewrite IH. split.
  - intros (s1 & H1 & O & -> & H2). simpl. exists (o ++ O). split; [done|]. by rewrite foldM_app, H1.
  - intros (O & HO & H). destruct (occsOf check ms) as [O'|]; [|done]. simpl in HO. injection HO as <-.
    rewrite foldM_app in H. apply res_bind_ok in H as (s1 & H1 & H2). eauto.
Qed.

(** ** Counting *)

Definition isSigned (o : tokenOccurrence) : Prop := to_token o ≠ "".
#[global] Instance isSigned_dec o : Decision (isSigned o) := _.

Definition signedOf (l : list tokenOccurrence) : list tokenOccurrence := filter isSigned l.

(** Unsigned occurrences over the content with digest [d]. *)
Definition unsignedCount (l : list tokenOccurrence) (d : string) : nat :=
  length (filter (λ o, to_token o = "" ∧ to_digest o = d) l).

(** What a signed occurrence has to keep: the token over the content. *)
Definition sigKey (o : tokenOccurrence) : string * string := (to_token o, to_digest o).

(** The content an unsigned occurrence is compared by: all of it, or for a
    trailing carrier the blocks it covers without the carrier's own metadata. *)
Definition claimed (check : requestSignatureField) (o : tokenOccurrence) : string :=
  if isTrailing check then to_preceding o else to_digest o.

Definition claimedCount check (l : list tokenOccurrence) (d : string) : nat :=
  length (filter (λ o, claimed check o = d) l).

Record signaturesKept (check : requestSignatureField) (A O : list tokenOccurrence) : Prop := {
  sk_not_minted : sigKey <$> signedOf O ⊆+ sigKey <$> signedOf A;
  sk_not_dropped d : unsignedCount O d ≤ unsignedCount A d
    ∨ claimedCount check (signedOf A) d ≤ claimedCount check (signedOf O) d
}.

(** ** Building the indexes *)

Definition freeOf (s : sigState) : list tokenOccurrence := select false (ss_signed s) (ss_used s).

Definition aligned (s : sigState) : Prop := length (ss_used s) = length (ss_signed s).

Lemma select_app {X} b (l l' : list X) c c' : length c = length l →
  select b (l ++ l') (c ++ c') = select b l c ++ select b l' c'.
Proof.
  revert c; induction l as [|x l IH]; intros [|f c] H; try discriminate H; [done|].
  injection H as H. simpl. rewrite IH by done. by destruct (Bool.eqb f b).
Qed.

Lemma signedOf_cons o l : signedOf (o :: l) = signedOf [o] ++ signedOf l.
Proof. unfold signedOf. change (o :: l) with ([o] ++ l). apply list.filter_app. Qed.

Lemma unsignedCount_cons o l d : unsignedCount (o :: l) d = unsignedCount [o] d + unsignedCount l d.
Proof.
  unfold unsignedCount. change (o :: l) with ([o] ++ l). by rewrite list.filter_app, length_app.
Qed.

Lemma signedOf_one o : signedOf [o] = if decide (to_token o = "") then [] else [o].
Proof. unfold signedOf, isSigned. rewrite filter_cons, filter_nil. repeat case_decide; naive_solver. Qed.

Lemma unsignedCount_one o d : unsignedCount [o] d
  = if decide (to_token o = "" ∧ to_digest o = d) then 1 else 0.
Proof. unfold unsignedCount. rewrite filter_cons, filter_nil. by case_decide. Qed.

Lemma accept_one o s : aligned s →
  aligned (acceptOccurrence s o) ∧ freeOf (acceptOccurrence s o) = freeOf s ++ signedOf [o]
  ∧ ∀ d, default 0 (ss_unsigned (acceptOccurrence s o) !! d)
         = default 0 (ss_unsigned s !! d) + unsignedCount [o] d.
Proof.
  intros Hs. unfold acceptOccurrence. rewrite signedOf_one. setoid_rewrite unsignedCount_one.
  destruct (String.eqb_spec (to_token o) "") as [Ht|Ht].
  - rewrite decide_True by done. split_and!; [done|by rewrite app_nil_r|].
    intros d. simpl. destruct (decide (to_digest o = d)) as [<-|Hd].
    + rewrite lookup_insert_eq, decide_True by done. simpl. lia.
    + rewrite lookup_insert_ne, decide_False by naive_solver. lia.
  - rewrite decide_False by done. unfold aligned, freeOf in *; simpl. split_and!.
    + rewrite !length_app. simpl. lia.
    + by rewrite select_app.
    + intros d. rewrite decide_False by naive_solver. lia.
Qed.

Lemma accept_spec A s : aligned s →
  let s' := foldl acceptOccurrence s A in
  aligned s' ∧ freeOf s' = freeOf s ++ signedOf A
  ∧ ∀ d, default 0 (ss_unsigned s' !! d) = default 0 (ss_unsigned s !! d) + unsignedCount A d.
Proof.
  revert s; induction A as [|o A IH]; intros s Hs; simpl.
  - split_and!; [done|by rewrite app_nil_r|]. intros d. unfold unsignedCount. rewrite filter_nil. simpl. lia.
  - destruct (accept_one o s Hs) as (H1 & H2 & H3). destruct (IH _ H1) as (Ha & Hf & Hu).
    split_and!; [done| |].
    + by rewrite Hf, H2, (signedOf_cons o A), (assoc_L (++)).
    + intros d. rewrite Hu, H3, (unsignedCount_cons o A). lia.
Qed.

(** ** Phase 1 *)

Lemma consume_ok check s o s' : aligned s → consumeToken check s o = Ok s' →
  aligned s' ∧ ss_unsigned s' = ss_unsigned s ∧ (∀ x, x ∈ freeOf s' → x ∈ freeOf s)
  ∧ sigKey <$> freeOf s ≡ₚ (sigKey <$> signedOf [o]) ++ (sigKey <$> freeOf s').
Proof.
  intros Hs H. unfold consumeToken in H. rewrite signedOf_one.
  destruct (String.eqb_spec (to_token o) "") as [Ht|Ht].
  - injection H as <-. by rewrite decide_True.
  - rewrite decide_False by done. simpl.
    destruct (first_free _ _ _) as [i|] eqn:Hi; [|by repeat case_match].
    injection H as <-. apply first_free_Some in Hi as (x & Hx & Hc & Hk).
    apply andb_true_iff in Hk as [Hk1%String.eqb_eq Hk2%String.eqb_eq].
    unfold aligned, freeOf; simpl. rewrite length_insert.
    split_and!; [done..|by apply select_false_subset|].
    rewrite (select_false_insert _ _ _ _ Hx Hc). simpl.
    by replace (sigKey x) with (sigKey o) by (unfold sigKey; congruence).
Qed.

Lemma consume_runs check s o : aligned s →
  (isSigned o → sigKey o ∈ sigKey <$> freeOf s) → ∃ s', consumeToken check s o = Ok s'.
Proof.
  intros Hs Hin. unfold consumeToken. destruct (String.eqb_spec (to_token o) "") as [Ht|Ht]; [eauto|].
  destruct (first_free _ _ _) as [i|] eqn:Hi; [eauto|]. exfalso.
  apply list_elem_of_fmap in Hin as (x & Hk & Hx); [|done]. injection Hk as Hk1 Hk2.
  eapply first_free_None in Hi; [|done|exact Hx]. simpl in Hi.
  by rewrite Hk1, Hk2, !String.eqb_refl in Hi.
Qed.

Lemma phase1_ok check O s s' : aligned s → foldM (consumeToken check) s O = Ok s' →
  aligned s' ∧ ss_unsigned s' = ss_unsigned s ∧ (∀ x, x ∈ freeOf s' → x ∈ freeOf s)
  ∧ sigKey <$> freeOf s ≡ₚ (sigKey <$> signedOf O) ++ (sigKey <$> freeOf s').
Proof.
  revert s; induction O as [|o O IH]; intros s Hs H; simpl in H.
  - by injection H as ->.
  - apply res_bind_ok in H as (s1 & H1 & H). apply consume_ok in H1 as (Hs1 & Hu1 & F1 & P1); [|done].
    apply IH in H as (Hs' & Hu' & F & P); [|done]. split_and!; [done|congruence|auto|].
    by rewrite P1, P, (signedOf_cons o O), fmap_app, (assoc_L (++)).
Qed.

Lemma phase1_runs check O s : aligned s → sigKey <$> signedOf O ⊆+ sigKey <$> freeOf s →
  ∃ s', foldM (consumeToken check) s O = Ok s'.
Proof.
  revert s; induction O as [|o O IH]; intros s Hs Hsub; [simpl; eauto|].
  assert (Hsplit : sigKey <$> signedOf (o :: O)
    = (sigKey <$> signedOf [o]) ++ (sigKey <$> signedOf O)).
  { by rewrite (signedOf_cons o O), fmap_app. }
  destruct (consume_runs check s o Hs) as [s1 H1].
  { intros Ho. eapply elem_of_submseteq; [|exact Hsub]. rewrite Hsplit, signedOf_one.
    rewrite decide_False by done. simpl. left. }
  simpl. rewrite H1. simpl. apply consume_ok in H1 as (Hs1 & _ & _ & P); [|done].
  apply IH; [done|]. rewrite Hsplit, P in Hsub. by apply submseteq_app_inv_l in Hsub.
Qed.

(** ** Phase 2 *)

(** An unconsumed signed occurrence claims the content. *)
Definition stillClaimed check (s : sigState) (d : string) : bool :=
  anyUnused (λ occ, String.eqb (claimed check occ) d) s.

(** How an unsigned occurrence of a request looks: a missing trailing carrier,
    whose two digests are the same, or a plain unsigned block. *)
Definition unsignedShape check (o : tokenOccurrence) : Prop :=
  to_token o = "" →
  if isTrailing check then to_trailAbsent o = true ∧ to_preceding o = to_digest o
  else to_trailAbsent o = false.

Lemma settle_eq check s o : unsignedShape check o → to_token o = "" →
  settleUnsigned check s o =
    match ss_unsigned s !! to_digest o with
    | Some (S n) => Ok (mkSigState (ss_signed s) (ss_used s) (<[to_digest o := n]> (ss_unsigned s)))
    | _ => if stillClaimed check s (to_digest o) then Err (SigDropped (sf_name check)) else Ok s
    end.
Proof.
  intros Hsh Ht. specialize (Hsh Ht). unfold settleUnsigned, stillClaimed, claimed. rewrite Ht. simpl.
  destruct (isTrailing check); [destruct Hsh as [-> ->]|rewrite Hsh]; done.
Qed.

Lemma phase2_exact check O s : Forall (unsignedShape check) O →
  is_ok (foldM (settleUnsigned check) s O) = true ↔
  ∀ d, unsignedCount O d ≤ default 0 (ss_unsigned s !! d) ∨ stillClaimed check s d = false.
Proof.
  revert s; induction O as [|o O IH]; intros s HO; simpl.
  - split; [|done]. intros _ d. left. unfold unsignedCount. rewrite filter_nil. simpl. lia.
  - inversion HO as [|?? Ho HO']; subst. destruct (decide (to_token o = "")) as [Ht|Ht].
    + rewrite settle_eq by done. setoid_rewrite (unsignedCount_cons o O).
      setoid_rewrite unsignedCount_one.
      destruct (ss_unsigned s !! to_digest o) as [[|n]|] eqn:Hn.
      2:{ simpl. rewrite IH by done. simpl.
          split; intros H d; specialize (H d); unfold stillClaimed, anyUnused in *; simpl in *;
            (destruct (decide (to_digest o = d)) as [<-|Hd];
             [rewrite lookup_insert_eq, ?Hn, ?decide_True in * by done
             |rewrite lookup_insert_ne, ?decide_False in * by naive_solver]);
            rewrite ?Hn; simpl in *; destruct H; auto; left; lia. }
      all: destruct (stillClaimed check s (to_digest o)) eqn:Hc; simpl.
      all: try (split; [done|]; intros H; destruct (H (to_digest o)) as [Hd|Hd]; [|congruence];
                rewrite Hn, decide_True in Hd by done; simpl in Hd; lia).
      all: rewrite IH by done; split; intros H d; destruct (H d) as [Hd|Hd]; auto;
        destruct (decide (to_digest o = d)) as [<-|Hne]; auto;
        rewrite decide_False in * by naive_solver; auto.
    + assert (Hset : settleUnsigned check s o = Ok s).
      { unfold settleUnsigned. by destruct (String.eqb_spec (to_token o) ""). }
      rewrite Hset. simpl. rewrite IH by done. setoid_rewrite (unsignedCount_cons o O).
      setoid_rewrite unsignedCount_one.
      split; intros H d; destruct (H d); auto; left; rewrite decide_False in * by naive_solver; lia.
Qed.

(** ** The shape of occurrences *)

Lemma lastCarrier_some check m pm : lastCarrier check m = Some pm →
  ∃ b, b ∈ m_blocks m ∧ requestBlockMessage b (sf_message check) = Some pm.
Proof.
  unfold lastCarrier.
  enough (H : ∀ bs t, foldl (λ trail b, match requestBlockMessage b (sf_message check) with
      Some pm => Some pm | None => trail end) t bs = Some pm →
    t = Some pm ∨ ∃ b, b ∈ bs ∧ requestBlockMessage b (sf_message check) = Some pm).
  { intros [?|?]%H; done. }
  induction bs as [|b bs IH]; intros t Ht; simpl in Ht; [by left|].
  apply IH in Ht as [Ht|(b' & ? & ?)]; [|right; exists b'; split; [by right|done]].
  destruct (requestBlockMessage b (sf_message check)) eqn:Hb; [|by left].
  right. exists b. split; [left|congruence].
Qed.

Lemma emptyCarrier_false check req m b pm : emptyCarrier check req = false →
  m ∈ Messages req → b ∈ m_blocks m → requestBlockMessage b (sf_message check) = Some pm →
  fieldString pm (sf_sig check) ≠ "".
Proof.
  intros He Hm Hb Hpm Hf. apply not_true_iff_false in He. apply He.
  apply existsb_exists. exists m. split; [by apply list_elem_of_In|].
  apply existsb_exists. exists b. split; [by apply list_elem_of_In|].
  rewrite Hpm. by apply String.eqb_eq.
Qed.

Lemma blockOccurrence_shape check bs l0 l : Forall (λ o, to_trailAbsent o = false) l0 →
  foldM (blockOccurrence check) l0 bs = Ok l → Forall (λ o, to_trailAbsent o = false) l.
Proof.
  revert l0; induction bs as [|b bs IH]; intros l0 H0 H; simpl in H; [by injection H as <-|].
  unfold blockOccurrence in H at 1. destruct (requestBlockMessage b _); simpl in H; [|by eapply IH].
  apply res_bind_ok in H as (l1 & (d & _ & [= <-])%res_bind_ok & H). eapply IH, H.
  apply Forall_app. split; [done|]. by repeat constructor.
Qed.

Lemma occurrences_shape check req m O : m ∈ Messages req →
  (isTrailing check = true → emptyCarrier check req = false) →
  occurrences check m = Ok O → Forall (unsignedShape check) O.
Proof.
  intros Hm He H. unfold occurrences in H. unfold unsignedShape.
  destruct (isTrailing check) eqn:Ht.
  - unfold trailingOccurrence in H. apply res_bind_ok in H as (h & Hh & [= <-]).
    constructor; [|constructor]. simpl. destruct (lastCarrier check m) as [pm|] eqn:Hl; simpl.
    + apply lastCarrier_some in Hl as (b & Hb & Hpm). intros Hf. exfalso.
      eapply emptyCarrier_false; eauto.
    + by injection Hh as <-.
  - apply blockOccurrence_shape in H; [|constructor]. eapply Forall_impl; [|exact H]. auto.
Qed.

Lemma occsOf_shape check req O :
  (isTrailing check = true → emptyCarrier check req = false) →
  occsOf check (Messages req) = Ok O → Forall (unsignedShape check) O.
Proof.
  intros He. assert (Hin : ∀ m, m ∈ Messages req → m ∈ Messages req) by done.
  revert Hin O. generalize (Messages req) at 1 3. induction l as [|m ms IH]; intros Hin O H; simpl in H.
  - injection H as <-. constructor.
  - apply res_bind_ok in H as (o & Ho & (os & Hos & [= <-])%res_bind_ok).
    apply Forall_app. split.
    + eapply occurrences_shape; [apply Hin; left|done..].
    + apply IH; [|done]. intros m' Hm'. apply Hin. by right.
Qed.

(** ** Kept content *)

(** Occurrences with one digest claim one content: what the digests being
    collision free gives. *)
Definition coherent check (A O : list tokenOccurrence) : Prop :=
  ∀ x y, x ∈ A ++ O → y ∈ A ++ O → to_digest x = to_digest y → claimed check x = claimed check y.

Lemma coherent_same check A O : isTrailing check = false → coherent check A O.
Proof. intros Ht x y _ _ H. unfold claimed. by rewrite Ht. Qed.

Lemma claimed_perm check l l' :
  (∀ x y, x ∈ l → y ∈ l' → to_digest x = to_digest y → claimed check x = claimed check y) →
  sigKey <$> l ≡ₚ sigKey <$> l' → claimed check <$> l ≡ₚ claimed check <$> l'.
Proof.
  intros Hc H. apply Permutation_map_inv in H as (l'' & Heq & P).
  rewrite (fmap_Permutation (claimed check) _ _ P).
  assert (Hc' : ∀ x y, x ∈ l → y ∈ l'' → to_digest x = to_digest y → claimed check x = claimed check y).
  { intros x y Hx Hy. apply Hc; [done|]. by rewrite P. }
  clear Hc P l'. change (map sigKey l'') with (sigKey <$> l'') in Heq.
  revert l'' Heq Hc'; induction l as [|x l IH]; intros [|y l''] Heq Hc'; try done.
  rewrite !fmap_cons in *. injection Heq as _ Hd Heq.
  rewrite (Hc' x y) by (done || left). rewrite (IH l''); [done..|].
  intros ????. apply Hc'; by right.
Qed.

Lemma claimedCount_fmap check l d :
  claimedCount check l d = length (filter (λ c, c = d) (claimed check <$> l)).
Proof.
  unfold claimedCount. induction l as [|o l IH]; [done|]. rewrite fmap_cons, !filter_cons.
  destruct (decide (claimed check o = d)); simpl; rewrite ?IH; done.
Qed.

Lemma claimedCount_zero check l d :
  existsb (λ o, String.eqb (claimed check o) d) l = false ↔ claimedCount check l d = 0.
Proof.
  unfold claimedCount. induction l as [|o l IH]; [done|]. simpl. rewrite filter_cons, orb_false_iff, IH.
  destruct (String.eqb_spec (claimed check o) d); case_decide; simpl; naive_solver lia.
Qed.

Lemma claimedCount_split check A O F d : coherent check A O →
  (∀ x, x ∈ F → x ∈ A) →
  sigKey <$> signedOf A ≡ₚ (sigKey <$> signedOf O) ++ (sigKey <$> F) →
  claimedCount check (signedOf A) d = claimedCount check (signedOf O) d + claimedCount check F d.
Proof.
  intros Hc HF P. rewrite <- fmap_app in P. apply (claimed_perm check) in P.
  - rewrite !claimedCount_fmap, P, fmap_app, list.filter_app, length_app. done.
  - intros x y Hx Hy. apply Hc; rewrite elem_of_app.
    + left. by apply list_elem_of_filter in Hx as [_ ?].
    + apply elem_of_app in Hy as [Hy|Hy]; [right|left; auto].
      by apply list_elem_of_filter in Hy as [_ ?].
Qed.

(** ** One binding, and all of them *)

Definition carriersFilled check (req : ChatRequest) : Prop :=
  isTrailing check = true → emptyCarrier check req = false.

Definition bindingKept check (accepted out : ChatRequest) : Prop :=
  carriersFilled check accepted ∧ carriersFilled check out ∧
  ∃ A O, occsOf check (Messages accepted) = Ok A ∧ occsOf check (Messages out) = Ok O
         ∧ signaturesKept check A O.

Definition coherentBinding check (accepted out : ChatRequest) : Prop :=
  ∀ A O, occsOf check (Messages accepted) = Ok A → occsOf check (Messages out) = Ok O →
  coherent check A O.

Lemma phases_exact check A O s0 :
  aligned s0 → freeOf s0 = signedOf A → (∀ d, default 0 (ss_unsigned s0 !! d) = unsignedCount A d) →
  Forall (unsignedShape check) O → coherent check A O →
  (∃ s1, foldM (consumeToken check) s0 O = Ok s1
         ∧ is_ok (foldM (settleUnsigned check) s1 O) = true) ↔ signaturesKept check A O.
Proof.
  intros Ha Hf Hu Hsh Hco.
  assert (Hclaim : ∀ s1 d, foldM (consumeToken check) s0 O = Ok s1 →
    stillClaimed check s1 d = false ↔
    claimedCount check (signedOf A) d ≤ claimedCount check (signedOf O) d).
  { intros s1 d H1. destruct (phase1_ok check O s0 s1 Ha H1) as (Ha1 & _ & F & P). rewrite Hf in P.
    unfold stillClaimed, anyUnused. rewrite claimedCount_zero.
    rewrite (claimedCount_split check A O (freeOf s1) d); [unfold freeOf; lia|done| |done].
    intros x Hx%F. rewrite Hf in Hx. by apply list_elem_of_filter in Hx as [_ ?]. }
  split.
  - intros (s1 & H1 & H2). destruct (phase1_ok check O s0 s1 Ha H1) as (Ha1 & Hu1 & _ & P).
    rewrite Hf in P. split.
    + rewrite P. apply submseteq_inserts_r. done.
    + intros d. rewrite phase2_exact in H2 by done. rewrite Hu1 in H2.
      destruct (H2 d) as [H|H]; [left; by rewrite <- Hu|right; by eapply Hclaim].
  - intros [Hm Hd]. destruct (phase1_runs check O s0 Ha) as [s1 H1]; [by rewrite Hf|].
    exists s1. split; [done|]. apply phase2_exact; [done|]. intros d.
    destruct (phase1_ok check O s0 s1 Ha H1) as (_ & -> & _ & _). rewrite Hu.
    destruct (Hd d); [by left|right; by eapply Hclaim].
Qed.

Lemma accepted_state check ms s :
  foldM (acceptMessage check) (mkSigState [] [] ∅) ms = Ok s ↔
  ∃ A, occsOf check ms = Ok A ∧ s = foldl acceptOccurrence (mkSigState [] [] ∅) A.
Proof.
  rewrite <- (foldM_ext (λ s m, toccs ←? occurrences check m;
    foldM (λ s o, Ok (acceptOccurrence s o)) s toccs)).
  - rewrite foldM_occs. setoid_rewrite foldM_pure. naive_solver.
  - intros s' m. unfold acceptMessage. destruct (occurrences check m); simpl; [|done].
    apply foldM_pure.
Qed.

Lemma verifySignatureField_exact check accepted out : coherentBinding check accepted out →
  verifySignatureField accepted out check = Ok tt ↔ bindingKept check accepted out.
Proof.
  intros Hco. unfold verifySignatureField, bindingKept, carriersFilled.
  destruct (isTrailing check && (emptyCarrier check accepted || emptyCarrier check out)) eqn:He.
  - apply andb_true_iff in He as [Ht H]. split; [done|]. intros (Ha & Ho & _).
    by rewrite (Ha Ht), (Ho Ht) in H.
  - assert (Hfill : (isTrailing check = true → emptyCarrier check accepted = false)
      ∧ (isTrailing check = true → emptyCarrier check out = false)).
    { destruct (isTrailing check); [|done]. by apply orb_false_iff in He as [-> ->]. }
    destruct Hfill as [Hfa Hfo].
    assert (Hmain : ∀ A O, occsOf check (Messages accepted) = Ok A →
      occsOf check (Messages out) = Ok O →
      (∃ s1, foldM (consumeToken check) (foldl acceptOccurrence (mkSigState [] [] ∅) A) O = Ok s1
         ∧ is_ok (foldM (settleUnsigned check) s1 O) = true) ↔ signaturesKept check A O).
    { intros A O HA HO. destruct (accept_spec A (mkSigState [] [] ∅)) as (Ha & Hf & Hu); [done|].
      apply phases_exact; [done|done| |by eapply occsOf_shape|by apply Hco].
      intros d. rewrite Hu. simpl. by rewrite lookup_empty. }
    split.
    + intros (s & (A & HA & ->)%accepted_state & (s1 & (O & HO & H1)%foldM_occs & H)%res_bind_ok)%res_bind_ok.
      apply res_bind_ok in H as (s2 & (O' & HO' & H2)%foldM_occs & _).
      assert (O' = O) as -> by congruence. split_and!; [done..|]. exists A, O. split_and!; [done..|].
      apply Hmain; [done..|]. exists s1. split; [done|]. by rewrite H2.
    + intros (_ & _ & A & O & HA & HO & Hk). apply Hmain in Hk as (s1 & H1 & (s2 & H2)%is_ok_spec); [|done..].
      apply res_bind_ok. eexists. split; [by apply accepted_state; eauto|].
      apply res_bind_ok. exists s1. split; [apply foldM_occs; eauto|].
      apply res_bind_ok. exists s2. split; [apply foldM_occs; eauto|done].
Qed.

(** C13. The signature check accepts a plugin's request exactly when, for every
    binding, each present trailing carrier has a token and the signed
    occurrences were kept: every pair of token and covered content in the
    output is, with multiplicity, one of the accepted request's (nothing
    minted, moved, replaced or duplicated), and content that lost a signed
    occurrence did not gain an unsigned copy (nothing stripped).  The premise
    is that digests of these two requests' covered content do not collide. *)
Theorem request_signatures_exact fields accepted out :
  (∀ f, f ∈ fields → coherentBinding f accepted out) →
  verifyRequestSignatures fields accepted out = Ok tt ↔
  ∀ f, f ∈ fields → bindingKept f accepted out.
Proof.
  induction fields as [|f fields IH]; intros Hco; simpl.
  - split; [|done]. by intros _ f ?%elem_of_nil.
  - rewrite res_bind_ok. destruct IH as [IH1 IH2]; [intros; apply Hco; by right|].
    pose proof (verifySignatureField_exact f accepted out (Hco f ltac:(left))) as Hf. split.
    + intros ([] & H1 & H2) g [->|Hg]%elem_of_cons; [by apply Hf|by apply IH1].
    + intros H. exists tt. split; [apply Hf, H; left|]. apply IH2. intros g Hg. apply H. by right.
Qed.
End Proofs.
