(* ===== verification/RequestGrants.v ===== *)
(** * The write-grant check of a request

    The entry points of internal/plugin/writegrant.go: the invariants no grant
    can lift (unknown fields, host metadata, tool namespace topology, provider
    signatures), the full check, the fast path of a plugin that holds every
    request grant, and what they guarantee. *)

From stdpp Require Import base list strings gmap sets numbers pretty.
From S2P Require Import Prelude ByteStrings Matching Framing RequestIR RequestSections RequestSectionFacts RequestSectionsProofs RequestSignatures.

(** ** Unknown fields *)

Definition elemPath (path name : string) (isList : bool) (j : nat) : string :=
  if isList then path +:+ "." +:+ name +:+ "[" +:+ pretty j +:+ "]" else path +:+ "." +:+ name.

Fixpoint verifyUnknownInTree (t : ptree) (path : string) : res requestErr unit :=
  match t with
  | PTree unknown fields =>
      if String.eqb unknown "" then
        (fix perField (fs : list (string * bool * list ptree)) : res requestErr unit :=
           match fs with
           | [] => Ok tt
           | (name, isList, elems) :: fs' =>
               _ ←? (fix perElem (j : nat) (es : list ptree) : res requestErr unit :=
                       match es with
                       | [] => Ok tt
                       | e :: es' =>
                           _ ←? verifyUnknownInTree e (elemPath path name isList j);
                           perElem (S j) es'
                       end) 0 elems;
               perField fs'
           end) fields
      else Err (UnknownFields path)
  end.

Definition indexPath (name : string) (i : N) : string := name +:+ "[" +:+ pretty i +:+ "]".

(** The accepted request is not consulted: the rule is unconditional on [out]. *)
Definition verifyUnknownFields (accepted out : ChatRequest) : res requestErr unit :=
  if negb (String.eqb (cr_unk out) "") then Err (UnknownFields "request")
  else
    _ ←? foldM (λ _ im, verifyUnknownInTree (reflectMessage im.2) (indexPath "messages" im.1))
           tt (range (Messages out));
    foldM (λ _ it, if String.eqb (td_unk it.2) "" then Ok tt
                   else Err (UnknownFields (indexPath "tools" it.1)))
      tt (range (Tools out)).

(** ** Host-owned facts *)

Definition namespacePaths (tools : list ToolDef) : list (list string) :=
  filter (λ p, p ≠ []) (td_namespace_path <$> tools).

Definition sameNamespacedToolTopology (before after : list ToolDef) : bool :=
  bool_decide (namespacePaths before = namespacePaths after).

Section Grants.
Context {K : RequestSDK}.
(** The resolved binding inventory. *)
Context (fields : list requestSignatureField).

Definition verifyUnconditionalInvariants (accepted out : ChatRequest) : res requestErr unit :=
  _ ←? verifyUnknownFields accepted out;
  if negb (String.eqb (ToranaMetaJson accepted) (ToranaMetaJson out)) then Err ToranaMetaChanged
  else if negb (sameNamespacedToolTopology (Tools accepted) (Tools out))
  then Err NamespaceTopologyChanged
  else verifyRequestSignatures fields accepted out.

Definition verifyRequestMutation (accepted out : ChatRequest) (canWrite : string → bool)
    : res requestErr unit :=
  _ ←? verifyUnconditionalInvariants accepted out;
  verifyGrantedSections accepted out canWrite.

Definition verifyFastPath (accepted out : ChatRequest) : res requestErr unit :=
  verifyUnconditionalInvariants accepted out.
End Grants.

Definition allRequestGrants : list string :=
  ["ir.cache_control.write";
   "ir.messages.write.user";
   "ir.messages.write.assistant";
   "ir.messages.write.system";
   "ir.messages.write.tool";
   "ir.messages.write.developer";
   "ir.messages.write.other";
   "ir.tool_result_content.write";
   "ir.tool_result_errors.write";
   "ir.tool_results.write";
   "ir.tools.write";
   "ir.model.write";
   "ir.params.write"].

Definition holdsAllRequestGrants (HasGrant : string → bool) : bool :=
  forallb HasGrant allRequestGrants.

(** ** Requests without unknown fields *)

Fixpoint cleanTree (t : ptree) : bool :=
  match t with
  | PTree unknown fields =>
      String.eqb unknown "" && forallb (λ f, forallb cleanTree f.2) fields
  end.

Definition cleanMessage (m : Message) : bool := cleanTree (reflectMessage m).

(** What the walk covers: the request, its message trees, its tools. *)
Definition cleanRequest (req : ChatRequest) : bool :=
  String.eqb (cr_unk req) "" && forallb cleanMessage (Messages req)
  && forallb (λ t, String.eqb (td_unk t) "") (Tools req).

Lemma ptree_ind' (P : ptree → Prop) :
  (∀ u fs, Forall (λ f, Forall P f.2) fs → P (PTree u fs)) → ∀ t, P t.
Proof.
  intros H. fix IH 1. intros [u fs]. apply H.
  induction fs as [|[name elems] fs IHfs]; constructor; [|exact IHfs]. simpl.
  induction elems as [|e elems IHe]; constructor; [apply IH|exact IHe].
Qed.

Lemma verifyUnknownInTree_ok t path : is_ok (verifyUnknownInTree t path) = cleanTree t.
Proof.
  revert path; induction t as [u fs IH] using ptree_ind'; intros path. simpl.
  destruct (String.eqb u ""); simpl; [|done].
  induction fs as [|[[name l] elems] fs IHfs]; simpl; [done|].
  inversion IH as [|?? He IH']; subst. simpl in He.
  match goal with |- is_ok (res_bind (?f 0 _) _) = _ => set (go := f) end.
  assert (Hgo : ∀ j, is_ok (go j elems) = forallb cleanTree elems).
  { clear -He. induction elems as [|e elems IHe]; intros j; simpl; [done|].
    inversion He as [|?? H1 H2]; subst. rewrite <- (H1 (elemPath path name l j)).
    destruct (verifyUnknownInTree e _); simpl; [|done]. by apply IHe. }
  rewrite <- (Hgo 0). destruct (go 0 elems); simpl; [|done]. by apply IHfs.
Qed.

(** A validation loop accepts when every element passes. *)
Lemma foldM_each_ok {E A} (f : A → res E unit) l :
  foldM (λ _ x, f x) tt l = Ok tt ↔ ∀ x, x ∈ l → is_ok (f x) = true.
Proof.
  induction l as [|x l IH]; simpl; [split; [by intros _ x ?%elem_of_nil|done]|].
  destruct (f x) as [[]|] eqn:Hx; simpl.
  - rewrite IH. split.
    + intros H y [->|Hy]%elem_of_cons; [by rewrite Hx|auto].
    + intros H y Hy. apply H. by right.
  - split; [done|]. intros H. specialize (H x ltac:(left)). by rewrite Hx in H.
Qed.

Lemma forallb_elem {A} (p : A → bool) l : forallb p l = true ↔ ∀ x, x ∈ l → p x = true.
Proof. rewrite forallb_forall. by setoid_rewrite list_elem_of_In. Qed.

Lemma verifyUnknownFields_ok accepted out :
  verifyUnknownFields accepted out = Ok tt ↔ cleanRequest out = true.
Proof.
  unfold verifyUnknownFields, cleanRequest. destruct (String.eqb (cr_unk out) ""); simpl; [|done].
  rewrite andb_true_iff, !forallb_elem, res_bind_ok.
  assert (Hr : ∀ {A} (l : list A) (p : A → bool), (∀ x, x ∈ l → p x = true)
    ↔ ∀ ix, ix ∈ range l → p ix.2 = true).
  { intros A l p. split.
    - intros H [i x] (j & _ & Hx%list_elem_of_lookup_2)%elem_of_rangeFrom. by apply H.
    - intros H x [j Hj]%list_elem_of_lookup. apply (H (N.of_nat j, x)).
      apply elem_of_rangeFrom. exists j. split; [lia|done]. }
  rewrite (Hr _ (Messages out)), (Hr _ (Tools out)). split.
  - intros ([] & H1 & H2). rewrite foldM_each_ok in H1. rewrite foldM_each_ok in H2. split.
    + intros x Hx. unfold cleanMessage.
      rewrite <- (verifyUnknownInTree_ok _ (indexPath "messages" x.1)). by apply H1.
    + intros x Hx. specialize (H2 x Hx). by destruct (String.eqb _ _).
  - intros [H1 H2]. exists tt. split; apply foldM_each_ok; intros x Hx.
    + etrans; [apply (verifyUnknownInTree_ok (reflectMessage x.2))|by apply H1].
    + by rewrite H2.
Qed.

Lemma sameNamespacedToolTopology_ok a b :
  sameNamespacedToolTopology a b = true ↔ namespacePaths a = namespacePaths b.
Proof. apply bool_decide_eq_true. Qed.

Section GrantFacts.
Context {K : RequestSDK} (fields : list requestSignatureField).

Lemma verifyUnconditionalInvariants_ok a b :
  verifyUnconditionalInvariants fields a b = Ok tt ↔
  cleanRequest b = true ∧ ToranaMetaJson a = ToranaMetaJson b
  ∧ namespacePaths (Tools a) = namespacePaths (Tools b)
  ∧ verifyRequestSignatures fields a b = Ok tt.
Proof.
  unfold verifyUnconditionalInvariants. rewrite <- (verifyUnknownFields_ok a), res_bind_ok.
  rewrite <- sameNamespacedToolTopology_ok.
  destruct (String.eqb_spec (ToranaMetaJson a) (ToranaMetaJson b)); simpl;
    destruct (sameNamespacedToolTopology _ _); simpl; split.
  all: try (by intros ([] & ? & ?)); try (by intros (? & ? & ? & ?)).
  intros (? & _ & _ & ?). by exists tt.
Qed.

Lemma verifyRequestMutation_ok a b cw : verifyRequestMutation fields a b cw = Ok tt ↔
  verifyUnconditionalInvariants fields a b = Ok tt ∧ verifyGrantedSections a b cw = Ok tt.
Proof. unfold verifyRequestMutation. rewrite res_bind_ok. split; [intros ([] & ?)|exists tt]; done. Qed.
End GrantFacts.
