(* ===== verification/RequestIdentity.v ===== *)
(** * A plugin without grants returns the request it was given

    The section facts of two requests, put together again: when no section
    changed, the requests are equal except for provider tokens, which no
    section contains.  The difficulty is that the facts overlap only in part:
    the role view has no cache markers, no tool-result text, no content
    topology, no error status, and the sections that do have them key them by
    absolute position or by encounter order.  [interleave_same] is the lemma
    that merges a marker section with the view the markers were removed from. *)

From stdpp Require Import base list strings gmap sets numbers.
From S2P Require Import Prelude ByteStrings Framing RequestIR RequestSections RequestSectionFacts RequestSectionsProofs RequestGrants.

(** ** Merging positions with the rest *)

Section Interleave.
Context {A M B : Type} (g : A → option M) (f : A → B).

(** The elements that are not marked, viewed. *)
Definition unmarked (l : list A) : list B :=
  omap (λ x, match g x with None => Some (f x) | Some _ => None end) l.

Lemma interleave_same l1 l2 :
  (∀ (j : nat) m, l1 !! j ≫= g = Some m ↔ l2 !! j ≫= g = Some m) →
  unmarked l1 = unmarked l2 →
  Forall2 (λ x y, g x = g y ∧ (g x = None → f x = f y)) l1 l2.
Proof.
  revert l2; induction l1 as [|x l1 IH]; intros [|y l2] Hm Hu.
  - constructor.
  - exfalso. unfold unmarked in Hu. simpl in Hu. destruct (g y) as [m|] eqn:Hy; [|done].
    specialize (Hm 0 m). simpl in Hm. rewrite Hy in Hm. destruct Hm as [_ Hm]. by specialize (Hm eq_refl).
  - exfalso. unfold unmarked in Hu. simpl in Hu. destruct (g x) as [m|] eqn:Hx; [|done].
    specialize (Hm 0 m). simpl in Hm. rewrite Hx in Hm. destruct Hm as [Hm _]. by specialize (Hm eq_refl).
  - assert (Hxy : g x = g y) by (apply option_eq; intros m; apply (Hm 0 m)).
    unfold unmarked in Hu. simpl in Hu. rewrite Hxy in Hu. rewrite <- Hxy in Hu.
    constructor.
    + split; [done|]. intros Hx. rewrite Hx in Hu. by injection Hu.
    + apply IH; [intros j m; apply (Hm (S j) m)|].
      destruct (g x); [done|]. by injection Hu.
Qed.
End Interleave.

(** ** Positions in the facts *)

Lemma elem_of_range {A} (l : list A) i x : (i, x) ∈ range l ↔ ∃ j : nat, i = N.of_nat j ∧ l !! j = Some x.
Proof. rewrite elem_of_rangeFrom. by setoid_rewrite N.add_0_l. Qed.

(** The fact at a position is there exactly when the element at the position has it. *)
Lemma elem_of_cacheTop req (i bi : nat) mk :
  CacheTop (N.of_nat i) (N.of_nat bi) mk ∈ cacheFacts req ↔
  ∃ m b cb, Messages req !! i = Some m ∧ m_blocks m !! bi = Some b
    ∧ GetCacheBreakpoint b = Some cb ∧ mk = cb_marker_json cb.
Proof.
  unfold cacheFacts. rewrite elem_of_app, !list_elem_of_bind. split.
  - intros [([i' m] & Hf & (? & -> & Hm)%elem_of_range)|([? t] & Hf & _)].
    + apply list_elem_of_bind in Hf as ([? b] & Hf & (? & -> & Hb)%elem_of_range).
      unfold cacheFactsBlock in Hf. simpl in *. destruct (GetCacheBreakpoint b) as [cb|] eqn:Hcb.
      * apply list_elem_of_singleton in Hf. simplify_eq. exists m, b, cb. done.
      * destruct (GetToolResult b); [|by apply elem_of_nil in Hf].
        apply list_elem_of_bind in Hf as ([? c] & Hf & _). unfold cacheFactsNested in Hf.
        destruct (trc_GetCacheBreakpoint _); set_solver.
    + unfold cacheFactsTool in Hf. destruct (String.eqb _ _); set_solver.
  - intros (m & b & cb & Hm & Hb & Hcb & ->). left. exists (N.of_nat i, m).
    split; [|apply elem_of_range; eauto]. apply list_elem_of_bind. exists (N.of_nat bi, b).
    split; [|apply elem_of_range; eauto]. unfold cacheFactsBlock. simpl. rewrite Hcb. left.
Qed.

Lemma elem_of_cacheNested req (i bi ci : nat) mk :
  CacheNested (N.of_nat i) (N.of_nat bi) (N.of_nat ci) mk ∈ cacheFacts req ↔
  ∃ m b tr c, Messages req !! i = Some m ∧ m_blocks m !! bi = Some b
    ∧ GetToolResult b = Some tr ∧ tr_content tr !! ci = Some c ∧ trc_GetCacheBreakpoint c = Some mk.
Proof.
  unfold cacheFacts. rewrite elem_of_app, !list_elem_of_bind. split.
  - intros [([i' m] & Hf & (? & -> & Hm)%elem_of_range)|([? t] & Hf & _)].
    + apply list_elem_of_bind in Hf as ([? b] & Hf & (? & -> & Hb)%elem_of_range).
      unfold cacheFactsBlock in Hf. simpl in *. destruct (GetCacheBreakpoint b) as [cb|]; [set_solver|].
      destruct (GetToolResult b) as [tr|] eqn:Htr; [|by apply elem_of_nil in Hf].
      apply list_elem_of_bind in Hf as ([? c] & Hf & (? & -> & Hc)%elem_of_range).
      unfold cacheFactsNested in Hf. simpl in Hf.
      destruct (trc_GetCacheBreakpoint c) eqn:Hmk; [|by apply elem_of_nil in Hf].
      apply list_elem_of_singleton in Hf. simplify_eq. by exists m, b, tr, c.
    + unfold cacheFactsTool in Hf. destruct (String.eqb _ _); set_solver.
  - intros (m & b & tr & c & Hm & Hb & Htr & Hc & Hmk). left. exists (N.of_nat i, m).
    split; [|apply elem_of_range; eauto]. apply list_elem_of_bind. exists (N.of_nat bi, b).
    split; [|apply elem_of_range; eauto]. unfold cacheFactsBlock, GetCacheBreakpoint. simpl.
    unfold GetToolResult in *. destruct (rb_kind b); try done. injection Htr as ->.
    apply list_elem_of_bind. exists (N.of_nat ci, c). split; [|apply elem_of_range; eauto].
    unfold cacheFactsNested. simpl. rewrite Hmk. left.
Qed.

Lemma elem_of_cacheTool req (i : nat) mk :
  CacheTool (N.of_nat i) mk ∈ cacheFacts req ↔
  ∃ t, Tools req !! i = Some t ∧ td_cache_control_json t = mk ∧ mk ≠ "".
Proof.
  unfold cacheFacts. rewrite elem_of_app, !list_elem_of_bind. split.
  - intros [([i' m] & Hf & _)|([? t] & Hf & (? & -> & Ht)%elem_of_range)].
    + apply list_elem_of_bind in Hf as ([? b] & Hf & _). unfold cacheFactsBlock in Hf. simpl in Hf.
      destruct (GetCacheBreakpoint b); [set_solver|]. destruct (GetToolResult b); [|set_solver].
      apply list_elem_of_bind in Hf as ([? c] & Hf & _). unfold cacheFactsNested in Hf.
      destruct (trc_GetCacheBreakpoint _); set_solver.
    + unfold cacheFactsTool in Hf. simpl in Hf.
      destruct (String.eqb_spec (td_cache_control_json t) ""); [set_solver|].
      apply list_elem_of_singleton in Hf. simplify_eq. eauto.
  - intros (t & Ht & <- & Hne). right. exists (N.of_nat i, t). split; [|apply elem_of_range; eauto].
    unfold cacheFactsTool. simpl. destruct (String.eqb_spec (td_cache_control_json t) ""); [done|left].
Qed.

Lemma elem_of_textFacts req (i bi ci : nat) p s :
  (N.of_nat i, (N.of_nat bi, (N.of_nat ci, (p, s)))) ∈ textFacts req ↔
  p = true ∧ ∃ m b tr c, Messages req !! i = Some m ∧ m_blocks m !! bi = Some b
    ∧ GetToolResult b = Some tr ∧ tr_content tr !! ci = Some c ∧ trc_GetText c = Some s.
Proof.
  unfold textFacts. rewrite list_elem_of_bind. split.
  - intros ([i' m] & Hf & (? & -> & Hm)%elem_of_range).
    apply list_elem_of_bind in Hf as ([? b] & Hf & (? & -> & Hb)%elem_of_range).
    unfold textFactsBlock in Hf. simpl in *.
    destruct (GetToolResult b) as [tr|] eqn:Htr; [|by apply elem_of_nil in Hf].
    apply list_elem_of_bind in Hf as ([? c] & Hf & (? & -> & Hc)%elem_of_range).
    unfold textFactsContent in Hf. simpl in Hf.
    destruct (trc_GetText c) eqn:Hmk; [|by apply elem_of_nil in Hf].
    apply list_elem_of_singleton in Hf. simplify_eq. split; [done|]. by exists m, b, tr, c.
  - intros (-> & m & b & tr & c & Hm & Hb & Htr & Hc & Hmk). exists (N.of_nat i, m).
    split; [|apply elem_of_range; eauto]. apply list_elem_of_bind. exists (N.of_nat bi, b).
    split; [|apply elem_of_range; eauto]. unfold textFactsBlock. simpl. rewrite Htr.
    apply list_elem_of_bind. exists (N.of_nat ci, c). split; [|apply elem_of_range; eauto].
    unfold textFactsContent. simpl. rewrite Hmk. left.
Qed.

(** ** Requests up to provider tokens *)

(** The block without its token. *)
Definition stripKind (k : RequestBlockKind) : RequestBlockKind :=
  match k with
  | RBText k => RBText (mkText (tx_text k) "" (tx_part_metadata_json k) (tx_unk k))
  | RBThinking k => RBThinking (mkThinking (th_text k) "" (th_part_metadata_json k) (th_unk k))
  | RBToolUse k =>
      RBToolUse (mkToolUse (tu_id k) (tu_name k) (tu_arguments_json k) ""
        (tu_part_metadata_json k) (tu_input_text k) (tu_invocation_kind k) (tu_unk k))
  | RBUnknown k =>
      RBUnknown (mkUnknown (uk_kind k) (uk_payload_json k) (uk_part_metadata_json k) "" (uk_unk k))
  | RBToolResult k =>
      RBToolResult (mkToolResult (tr_tool_call_id k) (tr_tool_name k) (tr_content k)
        (tr_part_metadata_json k) (tr_will_continue k) (tr_scheduling k) "" (tr_invocation_kind k)
        (tr_is_error k) (tr_unk k))
  | k => k
  end.

Definition stripBlock (b : RequestBlock) : RequestBlock := mkBlock (stripKind (rb_kind b)) (rb_unk b).

Definition isTrailingBlock (b : RequestBlock) : bool :=
  if GetTrailingSignature b is Some _ then true else false.

(** The body without trailing carriers. *)
Fixpoint core (bs : list RequestBlock) : list RequestBlock :=
  match bs with
  | [] => []
  | b :: bs' => if isTrailingBlock b then core bs' else b :: core bs'
  end.

Definition stripMessage (m : Message) : Message :=
  mkMessage (m_role m) (stripBlock <$> core (m_blocks m)) (m_unk m).

Definition stripSignatures (req : ChatRequest) : ChatRequest :=
  mkChatRequest (Model req) (stripMessage <$> Messages req) (Tools req) (Stream req) (MaxTokens req)
    (Temperature req) (TopP req) (StopSequences req) (ProviderExtensionsJson req)
    (SafetySettingsJson req) (OutputFormat_ req) (ToranaMetaJson req) (cr_unk req).

(** The SDK's replacement validator admits a trailing carrier only at the end
    of a body. *)
Fixpoint trailingLast (bs : list RequestBlock) : bool :=
  match bs with
  | [] => true
  | b :: bs' => if isTrailingBlock b then forallb isTrailingBlock bs' else trailingLast bs'
  end.

Lemma core_all_trailing bs : forallb isTrailingBlock bs = true → core bs = [].
Proof.
  induction bs as [|b bs IH]; simpl; [done|]. rewrite andb_true_iff. intros [-> H]. by apply IH.
Qed.

Lemma core_lookup bs (j : nat) b : trailingLast bs = true →
  core bs !! j = Some b ↔ bs !! j = Some b ∧ isTrailingBlock b = false.
Proof.
  revert j; induction bs as [|x bs IH]; intros j; simpl; [naive_solver|].
  destruct (isTrailingBlock x) eqn:Hx.
  - intros Ht. rewrite core_all_trailing by done. split; [done|]. intros [Hj Hb]. exfalso.
    destruct j as [|j]; simpl in Hj; [congruence|].
    eapply forallb_elem in Ht; [|by eapply list_elem_of_lookup_2]. congruence.
  - intros Ht. destruct j as [|j]; simpl; [naive_solver|]. by apply IH.
Qed.

Lemma core_lookup_1 bs (j : nat) b : trailingLast bs = true → core bs !! j = Some b → bs !! j = Some b.
Proof. intros Ht H. by apply core_lookup in H as [? _]. Qed.

Lemma core_lookup_marked {M} (g : RequestBlock → option M) bs (j : nat) :
  trailingLast bs = true → (∀ b, isTrailingBlock b = true → g b = None) →
  core bs !! j ≫= g = bs !! j ≫= g.
Proof.
  intros Ht Hg. destruct (bs !! j) as [b|] eqn:Hb; simpl.
  - destruct (isTrailingBlock b) eqn:Hx.
    + rewrite Hg by done. destruct (core bs !! j) as [b'|] eqn:Hc; [|done]. simpl.
      apply core_lookup in Hc as [? ?]; [|done]. congruence.
    + assert (core bs !! j = Some b) as -> by (by apply core_lookup). done.
  - destruct (core bs !! j) as [b'|] eqn:Hc; [|done]. simpl.
    apply core_lookup in Hc as [? ?]; [|done]. congruence.
Qed.

(** ** The views as unmarked elements *)

Definition blockMarker (b : RequestBlock) : option string := cb_marker_json <$> GetCacheBreakpoint b.
Definition blockView (b : RequestBlock) : RequestBlock := mkBlock (roleViewKind (rb_kind b)) (rb_unk b).

Lemma roleViewBlocks_core bs : roleViewBlocks bs = unmarked blockMarker blockView (core bs).
Proof.
  unfold unmarked. induction bs as [|b bs IH]; simpl; [done|].
  unfold isTrailingBlock, GetCacheBreakpoint, GetTrailingSignature.
  destruct (rb_kind b) eqn:Hk; simpl; unfold blockMarker, GetCacheBreakpoint; rewrite ?Hk; simpl; rewrite ?IH;
    unfold blockView; rewrite ?Hk; done.
Qed.

Lemma contentView_unmarked c : contentView c = unmarked trc_GetCacheBreakpoint contentPlaceholder c.
Proof.
  unfold unmarked. induction c as [|x c IH]; simpl; [done|].
  destruct (trc_GetCacheBreakpoint x); simpl; by rewrite IH.
Qed.

Lemma trailing_not_result b : isTrailingBlock b = true → GetToolResult b = None.
Proof. unfold isTrailingBlock, GetTrailingSignature, GetToolResult. by destruct (rb_kind b). Qed.

Lemma trailing_not_marker b : isTrailingBlock b = true → blockMarker b = None.
Proof. unfold isTrailingBlock, GetTrailingSignature, blockMarker, GetCacheBreakpoint. by destruct (rb_kind b). Qed.

Lemma toolResults_core bs : omap GetToolResult (core bs) = omap GetToolResult bs.
Proof.
  induction bs as [|b bs IH]; [done|]. simpl core.
  destruct (isTrailingBlock b) eqn:Hb; csimpl; rewrite IH; [|done]. by rewrite trailing_not_result.
Qed.

(** ** Aligning tool results *)

Definition bothResults (x y : RequestBlock) : Prop := is_Some (GetToolResult x) ↔ is_Some (GetToolResult y).

Lemma align_results {X} (F : RequestToolResultBlock → X) l l' r r' :
  Forall2 bothResults l l' →
  (F <$> omap GetToolResult l) ++ r = (F <$> omap GetToolResult l') ++ r' →
  Forall2 (λ x y, F <$> GetToolResult x = F <$> GetToolResult y) l l' ∧ r = r'.
Proof.
  induction 1 as [|x y l l' Hxy Hl IH]; simpl; [done|]. unfold bothResults in Hxy.
  destruct (GetToolResult x) as [tr|] eqn:Hx, (GetToolResult y) as [tr'|] eqn:Hy.
  - simpl. intros [= HF H]. apply IH in H as [H ->]. split; [|done]. constructor; [|done].
    by rewrite Hx, Hy; simpl; rewrite HF.
  - destruct Hxy as [Hxy _]. destruct Hxy; [by eexists|done].
  - destruct Hxy as [_ Hxy]. destruct Hxy; [by eexists|done].
  - intros H. apply IH in H as [H ->]. split; [|done]. constructor; [|done]. by rewrite Hx, Hy.
Qed.

Lemma align_messages {X} (F : RequestToolResultBlock → X) ms ms' :
  Forall2 (λ m m', Forall2 bothResults (core (m_blocks m)) (core (m_blocks m'))) ms ms' →
  F <$> (ms ≫= λ m, omap GetToolResult (m_blocks m))
    = F <$> (ms' ≫= λ m, omap GetToolResult (m_blocks m)) →
  Forall2 (λ m m', Forall2 (λ x y, F <$> GetToolResult x = F <$> GetToolResult y)
                     (core (m_blocks m)) (core (m_blocks m'))) ms ms'.
Proof.
  induction 1 as [|m m' ms ms' Hm Hms IH]; [constructor|].
  rewrite !bind_cons, !fmap_app. intros H.
  rewrite <- (toolResults_core (m_blocks m)), <- (toolResults_core (m_blocks m')) in H.
  apply align_results in H as [H1 H2]; [|done]. constructor; auto.
Qed.

(** ** Clean messages *)

Lemma clean_block m b : cleanMessage m = true → b ∈ m_blocks m → cleanTree (reflectBlock b) = true.
Proof.
  unfold cleanMessage. intros H Hb. simpl in H. apply andb_true_iff in H as [_ H].
  apply andb_true_iff in H as [H _]. rewrite forallb_elem in H. apply H. by apply list_elem_of_fmap_2.
Qed.

Lemma clean_message_unk m : cleanMessage m = true → m_unk m = "".
Proof. unfold cleanMessage. simpl. rewrite !andb_true_iff. by intros (?%String.eqb_eq & _). Qed.

Definition cleanContent (c : ToolResultContentBlock) : Prop := cleanTree (reflectContent c) = true.

(** ** Nested content *)

Lemma content_element x y : cleanContent x → cleanContent y →
  trc_GetCacheBreakpoint x = trc_GetCacheBreakpoint y →
  (trc_GetCacheBreakpoint x = None → contentPlaceholder x = contentPlaceholder y) →
  (∀ s, trc_GetText x = Some s → trc_GetText y = Some s) → x = y.
Proof.
  destruct x as [kx ux], y as [ky uy]. unfold cleanContent, trc_GetCacheBreakpoint, trc_GetText, contentPlaceholder.
  simpl. intros Hx Hy Hc Hp Ht.
  destruct kx, ky; simpl in *; rewrite ?andb_true_iff, ?String.eqb_eq in Hx, Hy; destruct_and?;
    try done; try (specialize (Hp eq_refl)); simplify_eq; try done.
  specialize (Ht _ eq_refl). congruence.
Qed.

Lemma content_same c c' : Forall cleanContent c → Forall cleanContent c' →
  contentView c = contentView c' →
  (∀ (j : nat) m, c !! j ≫= trc_GetCacheBreakpoint = Some m ↔ c' !! j ≫= trc_GetCacheBreakpoint = Some m) →
  (∀ (j : nat) s, c !! j ≫= trc_GetText = Some s ↔ c' !! j ≫= trc_GetText = Some s) → c = c'.
Proof.
  rewrite !contentView_unmarked. intros Hc Hc' Hv Hm Ht.
  pose proof (interleave_same _ _ _ _ Hm Hv) as H. clear Hv Hm.
  induction H as [|x y c c' [Hg Hf] H IH]; [done|].
  inversion Hc; inversion Hc'; subst. f_equal.
  - apply content_element; auto. intros s. apply (Ht 0 s).
  - apply IH; [done..|]. intros j s. apply (Ht (S j) s).
Qed.

(** ** Blocks, messages, requests *)

Lemma block_same x y :
  cleanTree (reflectBlock x) = true → cleanTree (reflectBlock y) = true →
  blockMarker x = blockMarker y → (blockMarker x = None → blockView x = blockView y) →
  tr_is_error <$> GetToolResult x = tr_is_error <$> GetToolResult y →
  (∀ tr tr', GetToolResult x = Some tr → GetToolResult y = Some tr' → tr_content tr = tr_content tr') →
  stripBlock x = stripBlock y.
Proof.
  destruct x as [kx ux], y as [ky uy]. unfold blockMarker, blockView, stripBlock, GetCacheBreakpoint, GetToolResult.
  simpl. intros Hx Hy Hm Hv He Hc.
  destruct kx as [[]|[]|[]|[]|[]|[]|[]|[]| |], ky as [[]|[]|[]|[]|[]|[]|[]|[]| |];
    simpl in *; try discriminate Hm; try specialize (Hv eq_refl); try discriminate Hv;
    try (specialize (Hc _ _ eq_refl eq_refl)); simpl in *; simplify_eq; try done.
  rewrite !andb_true_iff, !String.eqb_eq in Hx, Hy. destruct_and?. by subst.
Qed.

Lemma bothResults_view x y : blockMarker x = blockMarker y →
  (blockMarker x = None → blockView x = blockView y) → bothResults x y.
Proof.
  destruct x as [kx ux], y as [ky uy].
  unfold blockMarker, blockView, bothResults, GetCacheBreakpoint, GetToolResult. simpl. intros Hm Hv.
  destruct kx, ky; simpl in *; try discriminate Hm; try specialize (Hv eq_refl); try discriminate Hv;
    split; intros [? ?]; try done; eexists; done.
Qed.

Lemma clean_content b tr : cleanTree (reflectBlock b) = true → GetToolResult b = Some tr →
  Forall cleanContent (tr_content tr).
Proof.
  destruct b as [k u]. unfold GetToolResult. simpl. destruct k; try done. intros H [= ->].
  simpl in H. rewrite !andb_true_iff, forallb_elem in H. destruct_and?.
  apply list.Forall_forall. intros c Hc. match goal with H : ∀ x, _ |- _ => apply H end.
  by apply list_elem_of_fmap_2.
Qed.

Section Same.
Context (a b : ChatRequest).
Context (Hroles : ∀ r j, roleAt a r j = roleAt b r j).
Context (Hcache : cacheFacts a = cacheFacts b) (Htext : textFacts a = textFacts b).
Context (Hcontent : contentViews a = contentViews b).
Context (Herrors : tr_is_error <$> toolResultsOf a = tr_is_error <$> toolResultsOf b).
Context (Hca : cleanRequest a = true) (Hcb : cleanRequest b = true).
Context (Hta : ∀ m, m ∈ Messages a → trailingLast (m_blocks m) = true).
Context (Htb : ∀ m, m ∈ Messages b → trailingLast (m_blocks m) = true).

Lemma views_same : roleViewMessage <$> Messages a = roleViewMessage <$> Messages b.
Proof.
  apply list_eq. intros j. rewrite !list_lookup_fmap. apply option_eq. intros v.
  assert (H : ∀ req, roleViewMessage <$> Messages req !! j = Some v ↔ ∃ r, roleAt req r j = Some v).
  { intros req. setoid_rewrite roleAt_some. rewrite fmap_Some. naive_solver. }
  rewrite !H. by setoid_rewrite Hroles.
Qed.

Lemma clean_of req m : cleanRequest req = true → m ∈ Messages req → cleanMessage m = true.
Proof.
  unfold cleanRequest. rewrite !andb_true_iff, forallb_elem. intros ((_ & H) & _). apply H.
Qed.

(** The top-level markers of two messages at one position. *)
Lemma marker_at i m m' (bi : nat) mk : Messages a !! i = Some m → Messages b !! i = Some m' →
  m_blocks m !! bi ≫= blockMarker = Some mk ↔ m_blocks m' !! bi ≫= blockMarker = Some mk.
Proof.
  intros Hm Hm'.
  assert (H : ∀ req m0, Messages req !! i = Some m0 → m_blocks m0 !! bi ≫= blockMarker = Some mk
    ↔ CacheTop (N.of_nat i) (N.of_nat bi) mk ∈ cacheFacts req).
  { intros req m0 Hm0. rewrite elem_of_cacheTop, bind_Some. unfold blockMarker.
    setoid_rewrite fmap_Some. naive_solver. }
  by rewrite (H a m Hm), (H b m' Hm'), Hcache.
Qed.

Lemma blocks_view i m m' : Messages a !! i = Some m → Messages b !! i = Some m' →
  Forall2 (λ x y, blockMarker x = blockMarker y ∧ (blockMarker x = None → blockView x = blockView y))
    (core (m_blocks m)) (core (m_blocks m')).
Proof.
  intros Hm Hm'. apply interleave_same.
  - intros j mk. rewrite !core_lookup_marked; eauto using trailing_not_marker, list_elem_of_lookup_2.
    by eapply marker_at.
  - rewrite <- !roleViewBlocks_core. pose proof (f_equal (lookup i) views_same) as H.
    rewrite !list_lookup_fmap, Hm, Hm' in H. by injection H.
Qed.

(** Tool results at one position. *)
Lemma content_at i bi m m' x y tr tr' :
  Messages a !! i = Some m → Messages b !! i = Some m' →
  m_blocks m !! bi = Some x → m_blocks m' !! bi = Some y →
  GetToolResult x = Some tr → GetToolResult y = Some tr' →
  contentView (tr_content tr) = contentView (tr_content tr') → tr_content tr = tr_content tr'.
Proof.
  intros Hm Hm' Hx Hy Htr Htr' Hv. apply content_same; [..|done| |].
  - eapply clean_content; [|done]. eapply clean_block, list_elem_of_lookup_2, Hx.
    eapply clean_of, list_elem_of_lookup_2, Hm. done.
  - eapply clean_content; [|done]. eapply clean_block, list_elem_of_lookup_2, Hy.
    eapply clean_of, list_elem_of_lookup_2, Hm'. done.
  - intros j mk.
    assert (H : ∀ req m0 b0 tr0, Messages req !! i = Some m0 → m_blocks m0 !! bi = Some b0 →
      GetToolResult b0 = Some tr0 → tr_content tr0 !! j ≫= trc_GetCacheBreakpoint = Some mk
      ↔ CacheNested (N.of_nat i) (N.of_nat bi) (N.of_nat j) mk ∈ cacheFacts req).
    { intros req m0 b0 tr0 H1 H2 H3. rewrite elem_of_cacheNested, bind_Some. naive_solver. }
    by rewrite (H a m x tr), (H b m' y tr'), Hcache.
  - intros j s.
    assert (H : ∀ req m0 b0 tr0, Messages req !! i = Some m0 → m_blocks m0 !! bi = Some b0 →
      GetToolResult b0 = Some tr0 → tr_content tr0 !! j ≫= trc_GetText = Some s
      ↔ (N.of_nat i, (N.of_nat bi, (N.of_nat j, (true, s)))) ∈ textFacts req).
    { intros req m0 b0 tr0 H1 H2 H3. rewrite elem_of_textFacts, bind_Some. naive_solver. }
    by rewrite (H a m x tr), (H b m' y tr'), Htext.
Qed.

(** The blocks of all messages, pairwise, on one view. *)
Lemma results_at {X} (F : RequestToolResultBlock → X) i m m' :
  F <$> toolResultsOf a = F <$> toolResultsOf b →
  Messages a !! i = Some m → Messages b !! i = Some m' →
  Forall2 (λ x y, F <$> GetToolResult x = F <$> GetToolResult y) (core (m_blocks m)) (core (m_blocks m')).
Proof.
  intros HF Hm Hm'. unfold toolResultsOf in HF. apply align_messages in HF.
  - eapply Forall2_lookup_lr in HF; eauto.
  - apply Forall2_same_length_lookup. split.
    + pose proof (f_equal length views_same) as H. by rewrite !length_fmap in H.
    + intros j m1 m2 H1 H2. eapply Forall2_impl; [|exact (blocks_view j m1 m2 H1 H2)].
      intros x y [? ?]. by apply bothResults_view.
Qed.

Lemma message_same i m m' : Messages a !! i = Some m → Messages b !! i = Some m' →
  stripMessage m = stripMessage m'.
Proof.
  intros Hm Hm'.
  assert (Hin : m ∈ Messages a) by (by eapply list_elem_of_lookup_2).
  assert (Hin' : m' ∈ Messages b) by (by eapply list_elem_of_lookup_2).
  unfold stripMessage.
  rewrite (clean_message_unk m), (clean_message_unk m') by eauto using clean_of.
  pose proof (f_equal (lookup i) views_same) as Hv. rewrite !list_lookup_fmap, Hm, Hm' in Hv.
  injection Hv as Hr _. rewrite Hr. f_equal.
  pose proof (blocks_view i m m' Hm Hm') as Hb.
  pose proof (results_at _ i m m' Herrors Hm Hm') as He.
  pose proof (results_at _ i m m' Hcontent Hm Hm') as Hc.
  apply list_eq. intros bi. rewrite !list_lookup_fmap.
  destruct (core (m_blocks m) !! bi) as [x|] eqn:Hx.
  - destruct (Forall2_lookup_l _ _ _ _ _ Hb Hx) as (y & Hy & Hmk & Hvw). rewrite Hy. simpl. f_equal.
    pose proof (Forall2_lookup_lr _ _ _ _ _ _ He Hx Hy) as He1.
    pose proof (Forall2_lookup_lr _ _ _ _ _ _ Hc Hx Hy) as Hc1.
    apply core_lookup_1 in Hx; [|auto]. apply core_lookup_1 in Hy; [|auto].
    apply block_same; auto.
    + eapply clean_block, list_elem_of_lookup_2, Hx. exact (clean_of a m Hca Hin).
    + eapply clean_block, list_elem_of_lookup_2, Hy. exact (clean_of b m' Hcb Hin').
    + intros tr tr' Htr Htr'. cbv beta in Hc1. rewrite Htr, Htr' in Hc1. simpl in Hc1.
      eapply content_at; eauto. by injection Hc1.
  - apply Forall2_length in Hb. apply lookup_ge_None in Hx.
    assert (core (m_blocks m') !! bi = None) as ->; [apply lookup_ge_None; lia|done].
Qed.

Context (Htools : toolView <$> Tools a = toolView <$> Tools b).

Lemma tools_same : Tools a = Tools b.
Proof.
  apply list_eq. intros i. pose proof (f_equal (lookup i) Htools) as H. rewrite !list_lookup_fmap in H.
  assert (Hcc : ∀ mk, CacheTool (N.of_nat i) mk ∈ cacheFacts a ↔ CacheTool (N.of_nat i) mk ∈ cacheFacts b)
    by (intros; by rewrite Hcache).
  assert (Hunk : ∀ req t, cleanRequest req = true → Tools req !! i = Some t → td_unk t = "").
  { intros req t. unfold cleanRequest. rewrite !andb_true_iff, !forallb_elem. intros [_ Hc] Ht.
    apply String.eqb_eq, Hc. by eapply list_elem_of_lookup_2. }
  destruct (Tools a !! i) as [t|] eqn:Ht, (Tools b !! i) as [t'|] eqn:Ht'; try done.
  assert (Hmark : ∀ mk, (td_cache_control_json t = mk ∧ mk ≠ "") ↔ (td_cache_control_json t' = mk ∧ mk ≠ "")).
  { intros mk. specialize (Hcc mk). rewrite !elem_of_cacheTool in Hcc. naive_solver. }
  assert (td_cache_control_json t = td_cache_control_json t').
  { destruct (decide (td_cache_control_json t = "")) as [He|Hne].
    - destruct (decide (td_cache_control_json t' = "")) as [|Hne]; [congruence|].
      destruct (Hmark (td_cache_control_json t')) as [_ []]; [done|congruence].
    - destruct (Hmark (td_cache_control_json t)) as [[] _]; [done|congruence]. }
  pose proof (Hunk a t Hca Ht). pose proof (Hunk b t' Hcb Ht').
  f_equal. destruct t, t'. unfold toolView in H. simpl in *. congruence.
Qed.

Lemma request_same : Model a = Model b → paramsView a = paramsView b →
  ToranaMetaJson a = ToranaMetaJson b → stripSignatures a = stripSignatures b.
Proof.
  intros HM HP HT. unfold stripSignatures, paramsView in *.
  assert (stripMessage <$> Messages a = stripMessage <$> Messages b) as ->.
  { apply list_eq. intros i. rewrite !list_lookup_fmap.
    pose proof (f_equal (lookup i) views_same) as H. rewrite !list_lookup_fmap in H.
    destruct (Messages a !! i) eqn:Hm, (Messages b !! i) eqn:Hm'; try done.
    simpl. f_equal. by eapply message_same. }
  assert (Hunk : ∀ req, cleanRequest req = true → cr_unk req = "").
  { intros req. unfold cleanRequest. rewrite !andb_true_iff. by intros ((?%String.eqb_eq & _) & _). }
  rewrite (Hunk a), (Hunk b), tools_same by done. congruence.
Qed.
End Same.
