(* ===== verification/RequestTheorems.v ===== *)
(** * What the write-grant check guarantees

    The theorems about [verifyRequestMutation] and [verifyFastPath], with a
    concrete SDK and a concrete pair of requests on which their hypotheses
    hold. *)

From stdpp Require Import base list strings gmap sets numbers pretty countable.
From S2P Require Import Prelude ByteStrings Matching Framing RequestIR RequestSections RequestSectionFacts RequestSectionsProofs RequestSignatures RequestGrants RequestIdentity.

Section Theorems.
Context {K : RequestSDK} `{!RequestSDKLaws K} (fields : list requestSignatureField).

(** C12. A replacement the check accepts keeps every section the plugin has no
    grant for: for a role without its grant, the same positions hold messages
    of that role with the same role view; without the grant of a section, the
    section's facts are the same (tool definitions, breakpoints with their
    positions, tool-result texts with their positions, content topology, error
    status, model, parameters).  Whatever the grants, host metadata and tool
    namespaces are unchanged, and the request, its messages at any depth and its
    tools have no unknown fields; the output format, which that check does not
    enter, is unchanged with its unknown fields without [ir.params.write]. *)
Theorem ungranted_sections_kept a b cw :
  FaithfulDigests a b → sizedRequest a → sizedRequest b →
  verifyRequestMutation fields a b cw = Ok tt →
  (∀ r, cw (MessageWriteSection r) = false → ∀ j, roleAt a r j = roleAt b r j)
  ∧ (∀ s, cw (sectionGrant s) = false → sectionSame s a b)
  ∧ ToranaMetaJson a = ToranaMetaJson b
  ∧ namespacePaths (Tools a) = namespacePaths (Tools b)
  ∧ cleanRequest b = true
  ∧ (cw "ir.params.write" = false → OutputFormat_ a = OutputFormat_ b).
Proof.
  intros Hf Ha Hb (Hu & Hg)%verifyRequestMutation_ok.
  apply verifyUnconditionalInvariants_ok in Hu as (Hc & Hm & Hn & _).
  destruct (verifyGrantedSections_same a b cw) as [Hr Hs]; auto. split_and!; auto.
  intros Hp. specialize (Hs SecParams Hp). unfold sectionSame, paramsView in Hs. congruence.
Qed.

(** A plugin that holds no grant can return only the request it was
    given: an accepted replacement is equal to it in every field, except that
    provider tokens may differ (they answer to the signature check alone). *)
Theorem no_grants_request_same a b cw :
  FaithfulDigests a b → sizedRequest a → sizedRequest b →
  cleanRequest a = true →
  (∀ m, m ∈ Messages a → trailingLast (m_blocks m) = true) →
  (∀ m, m ∈ Messages b → trailingLast (m_blocks m) = true) →
  (∀ g, cw g = false) →
  verifyRequestMutation fields a b cw = Ok tt →
  stripSignatures a = stripSignatures b.
Proof.
  intros Hf Ha Hb Hca Hta Htb Hcw (Hu & Hg)%verifyRequestMutation_ok.
  apply verifyUnconditionalInvariants_ok in Hu as (Hc & Hm & _ & _).
  destruct (verifyGrantedSections_same a b cw) as [Hr Hs]; auto.
  apply request_same; auto.
  - exact (Hs SecCacheControl (Hcw _)).
  - exact (Hs SecToolResults (Hcw _)).
  - exact (Hs SecToolContent (Hcw _)).
  - exact (Hs SecToolErrors (Hcw _)).
  - exact (Hs SecTools (Hcw _)).
  - exact (Hs SecModel (Hcw _)).
  - exact (Hs SecParams (Hcw _)).
Qed.

Lemma all_grants_granted cw a b :
  holdsAllRequestGrants cw = true → (∀ r, MessageWriteSection r ∈ allRequestGrants) →
  is_ok (fingerprintRequestSections a) = true → is_ok (fingerprintRequestSections b) = true →
  verifyGrantedSections a b cw = Ok tt.
Proof.
  intros Hall Hr [sa Ha]%is_ok_spec [sb Hb]%is_ok_spec.
  unfold holdsAllRequestGrants in Hall. rewrite forallb_elem in Hall.
  assert (Hs : ∀ s x y, requireGrant cw s x y = Ok tt).
  { intros s x y. unfold requireGrant. case_decide; [done|]. rewrite Hall; [done|].
    destruct s; simpl; set_solver. }
  unfold verifyGrantedSections. rewrite Ha, Hb. simpl.
  assert (Hroles : ∀ roles, requireRoleGrants cw roles = Ok tt).
  { induction roles as [|r roles IH]; simpl; [done|]. by rewrite Hall. }
  by rewrite Hroles, !Hs.
Qed.

(** The fast path is the full check: for a plugin that holds every request
    grant, skipping the section comparison changes no verdict, acceptance or
    error, on requests whose bodies the SDK can fingerprint. *)
Theorem fast_path_agrees a b cw :
  holdsAllRequestGrants cw = true → (∀ r, MessageWriteSection r ∈ allRequestGrants) →
  is_ok (fingerprintRequestSections a) = true → is_ok (fingerprintRequestSections b) = true →
  verifyRequestMutation fields a b cw = verifyFastPath fields a b.
Proof.
  intros Hall Hr Ha Hb. unfold verifyRequestMutation, verifyFastPath.
  rewrite all_grants_granted by done. by destruct (verifyUnconditionalInvariants fields a b) as [[]|].
Qed.
End Theorems.

(** ** A concrete SDK and binding inventory *)

Definition demoText (b : RequestBlock) : string :=
  match rb_kind b with
  | RBText k => "t" +:+ tx_text k
  | RBToolResult k => "r" +:+ tr_tool_call_id k
  | _ => "."
  end.

Definition demoFormat (f : OutputFormat) : string :=
  pretty (N.pos (encode (of_mode f, of_name f, of_schema_json f, of_strict f, of_unk f))).

Definition knownRoles : list string := ["user"; "assistant"; "system"; "tool"; "developer"].

#[export] Instance demoSDK : RequestSDK := {|
  sha256 x := "#" +:+ x;
  RequestBlocksFingerprint m := Some (m_role m +:+ sconcat (demoText <$> m_blocks m));
  ToolResultContentFingerprint c := Some (pretty (length c));
  MessageWriteSection r :=
    "ir.messages.write." +:+ (if bool_decide (r ∈ knownRoles) then r else "other");
  InvocationKind_String := pretty;
  MarshalOutputFormat f := Some (demoFormat f);
  FormatValue v := match v with PVBytes s => s | PVBool true => "true" | PVBool false => "false"
                   | PVEnum z => pretty z | _ => "" end
|}.

#[export] Instance demoSDK_laws : RequestSDKLaws demoSDK.
Proof.
  split.
  - intros x y. simpl. apply (inj pretty).
  - intros [? ? ? ? ?] [? ? ? ? ?] s [= <-] [= H]. unfold demoFormat in H. simpl in H.
    apply (inj pretty) in H. injection H as H. apply (inj encode) in H. congruence.
Qed.

Definition demoRegistry (name : string) : option (list FieldDescriptor) :=
  if String.eqb name "torana.v1.RequestTextBlock" then
    Some [mkField "text" "torana.v1.RequestTextBlock.text" StringKind false false;
          mkField "signature" "torana.v1.RequestTextBlock.signature" StringKind false false]
  else if String.eqb name "torana.v1.RequestTrailingSignatureBlock" then
    Some [mkField "signature" "torana.v1.RequestTrailingSignatureBlock.signature" StringKind false false;
          mkField "part_metadata_json" "torana.v1.RequestTrailingSignatureBlock.part_metadata_json"
            BytesKind false false]
  else None.

Definition demoBindings : list SignatureBinding :=
  [mkBinding true "torana.v1.RequestTextBlock" "signature"
     [mkRef SignatureScopeSameMessage "torana.v1.RequestTextBlock" "text"];
   mkBinding true "torana.v1.RequestTrailingSignatureBlock" "signature"
     [mkRef SignatureScopeSameMessage "torana.v1.RequestTrailingSignatureBlock" "part_metadata_json";
      mkRef SignatureScopeTrailingStandalone "torana.v1.RequestTextBlock" "text"]].

Definition demoFields : list requestSignatureField :=
  match requestSignatureFields demoRegistry demoBindings with Ok fs => fs | Err _ => [] end.

Definition textBlock (t sig : string) : RequestBlock := mkBlock (RBText (mkText t sig "" "")) "".

Definition demoRequest (sig1 sig2 : string) : ChatRequest :=
  mkChatRequest "model"
    [mkMessage "user" [textBlock "question" ""] "";
     mkMessage "assistant"
       [textBlock "step" sig1; mkBlock (RBCacheBreakpoint (mkCache "{}" "")) "";
        textBlock "step" sig2; mkBlock (RBTrailingSignature (mkTrailing "tail" "" "")) ""] "";
     mkMessage "tool"
       [mkBlock (RBToolResult (mkToolResult "call" "name"
          [mkTRC (TRText "output" "") ""; mkTRC (TRCacheBreakpoint "{}" "") ""]
          "" None None "" 0 (Some false) "")) ""] ""]
    [mkToolDef "name" "d" "{}" true "{}" 0 "" ["ns"] ""]
    true (Some 100%Z) (Some 4607182418800017408%N) None ["stop"; "halt"] "{}" "" None "{}" "".

(** The accepted request, and a replacement in which the plugin exchanged the
    tokens of two blocks with the same text. *)
Definition demoAccepted : ChatRequest := demoRequest "sigA" "sigB".
Definition demoSwapped : ChatRequest := demoRequest "sigB" "sigA".

Ltac enum_elem :=
  repeat match goal with
  | H : _ ∈ _ :: _ |- _ => apply elem_of_cons in H as [->|H]
  | H : _ ∈ [] |- _ => by apply elem_of_nil in H
  end.

Lemma demo_sized sig1 sig2 : sizedRequest (demoRequest sig1 sig2).
Proof.
  split; unfold demoRequest; cbn [Messages Tools StopSequences MaxTokens Temperature TopP];
    intros; unfold sizedList, isU64, two64; enum_elem; simplify_eq; simpl in *; enum_elem;
    unfold GetToolResult in *; simpl in *; simplify_eq; simpl; lia.
Qed.

Lemma demo_faithful : FaithfulDigests demoAccepted demoSwapped.
Proof.
  split.
  - split.
    + intros x Hx.
      assert (Hall : forallb (λ x, N.ltb (ulen x) two48) (hashed demoAccepted ++ hashed demoSwapped) = true)
        by (vm_compute; reflexivity).
      rewrite forallb_elem in Hall. apply Hall in Hx. by apply N.ltb_lt in Hx.
    + intros x y _ _ H. by injection H.
    + intros x _ H. unfold zeroDigest, byteStr in H. simpl in H. by injection H.
  - intros m m' s Hm Hm' H H'. unfold demoAccepted, demoSwapped, demoRequest in Hm, Hm'.
    cbn [Messages] in Hm, Hm'. enum_elem; simpl in H, H'; simplify_eq; reflexivity.
  - intros c c' s Hc Hc' _ _.
    assert (E : contentViews demoAccepted = contentViews demoSwapped) by reflexivity.
    unfold contentViews, demoAccepted, demoSwapped in Hc, Hc'. simpl in Hc, Hc'. enum_elem. done.
Qed.

Lemma demo_trailing sig1 sig2 m : m ∈ Messages (demoRequest sig1 sig2) → trailingLast (m_blocks m) = true.
Proof. unfold demoRequest. cbn [Messages]. intros Hm. enum_elem; reflexivity. Qed.

Lemma ungranted_sections_kept_witness :
  verifyRequestMutation demoFields demoAccepted demoSwapped (λ _, false) = Ok tt ∧
  sectionSame SecToolResults demoAccepted demoSwapped.
Proof.
  assert (H : verifyRequestMutation demoFields demoAccepted demoSwapped (λ _, false) = Ok tt)
    by (vm_compute; reflexivity).
  split; [exact H|].
  destruct (ungranted_sections_kept demoFields demoAccepted demoSwapped (λ _, false)
    demo_faithful (demo_sized _ _) (demo_sized _ _) H) as (_ & Hs & _).
  by apply Hs.
Defined.

Lemma no_grants_request_same_witness :
  demoAccepted ≠ demoSwapped ∧ stripSignatures demoAccepted = stripSignatures demoSwapped.
Proof.
  split; [discriminate|].
  apply (no_grants_request_same demoFields demoAccepted demoSwapped (λ _, false));
    [exact demo_faithful|apply demo_sized|apply demo_sized|vm_compute; reflexivity
    |apply demo_trailing|apply demo_trailing|reflexivity|vm_compute; reflexivity].
Defined.

Lemma fast_path_agrees_witness :
  verifyRequestMutation demoFields demoAccepted demoSwapped (λ _, true)
  = verifyFastPath demoFields demoAccepted demoSwapped.
Proof.
  apply (fast_path_agrees demoFields demoAccepted demoSwapped (λ _, true));
    [reflexivity| |vm_compute; reflexivity|vm_compute; reflexivity].
  intros r. simpl. case_bool_decide as Hr.
  - unfold knownRoles in Hr. enum_elem; vm_compute; repeat constructor.
  - vm_compute; repeat constructor.
Defined.

(** The accepted and the returned token sets of the demonstration agree, and
    so does the signature check. *)
Lemma request_signatures_exact_witness :
  Forall (λ f, bindingKept f demoAccepted demoSwapped) demoFields.
Proof.
  apply list.Forall_forall.
  apply (request_signatures_exact demoFields demoAccepted demoSwapped); [|vm_compute; reflexivity].
  intros f Hf A O HA HO. destruct (isTrailing f) eqn:Ht; [|by apply coherent_same].
  assert (E : demoFields = [nth 0 demoFields (mkSigField "" SignatureScopeSameMessage "" (mkField "" "" OtherKind false false) [] []);
                            nth 1 demoFields (mkSigField "" SignatureScopeSameMessage "" (mkField "" "" OtherKind false false) [] [])])
    by (vm_compute; reflexivity).
  rewrite E in Hf. enum_elem; [vm_compute in Ht; discriminate Ht|]. clear Ht E.
  vm_compute in HA, HO. injection HA as <-. injection HO as <-.
  intros x y Hx Hy. simpl in Hx, Hy. enum_elem; vm_compute; congruence.
Defined.

(** ** Unknown fields of the output format *)

Definition withFormat (f : OutputFormat) (req : ChatRequest) : ChatRequest :=
  mkChatRequest (Model req) (Messages req) (Tools req) (Stream req) (MaxTokens req) (Temperature req)
    (TopP req) (StopSequences req) (ProviderExtensionsJson req) (SafetySettingsJson req)
    (Some f) (ToranaMetaJson req) (cr_unk req).

(** The walk for unknown fields does not enter the output format: with every
    grant, and with [ir.params.write] alone, a replacement that adds unknown
    bytes there is accepted. *)
Lemma output_format_unknown_accepted :
  let a := withFormat (mkOutputFormat 1 "n" "{}" None "") demoAccepted in
  let b := withFormat (mkOutputFormat 1 "n" "{}" None "smuggled") demoAccepted in
  verifyFastPath demoFields a b = Ok tt
  ∧ verifyRequestMutation demoFields a b (String.eqb "ir.params.write") = Ok tt.
Proof. vm_compute. split; reflexivity. Qed.
