(* ===== verification/Verdicts.v ===== *)
(** * Request-scoped plugin state in the host

    internal/wasm/verdicts.go and the request-scoped part of
    internal/wasm/runtime.go: the verdicts plugins record for a request, the
    trap rule that discards them, and the metadata buffers plugins keep in host
    memory, with their budgets.  The maps keyed by request id are [gmap]s; the
    mutexes make each operation atomic, so the operations are functions on the
    runtime state. *)

From stdpp Require Import base list strings gmap sets numbers pretty fin_maps.
From S2P Require Import Prelude ByteStrings Framing.

(** ** Verdicts *)

Record BlockVerdict := mkBlockVerdict
  { bv_plugin : string; bv_status : Z; bv_code : string; bv_message : string }.
(** A synthetic response, opaque to the host here. *)
Record RespondVerdict := mkRespondVerdict { rv_plugin : string; rv_response : string }.
Record RouteVerdict := mkRouteVerdict
  { ro_plugin : string; ro_provider : string; ro_model : string; ro_effort : Z }.
Record IdentityVerdict := mkIdentityVerdict { iv_plugin : string; iv_identity : string }.

Record RequestVerdicts := mkVerdicts {
  v_block : option BlockVerdict;
  v_respond : option RespondVerdict;
  v_route : option RouteVerdict;
  v_identity : option IdentityVerdict
}.

Definition noVerdicts : RequestVerdicts := mkVerdicts None None None None.

(** First block wins. *)
Definition setBlock (plugin : string) (status : Z) (code message : string) (v : RequestVerdicts)
    : RequestVerdicts :=
  match v_block v with
  | Some _ => v
  | None => mkVerdicts (Some (mkBlockVerdict plugin status code message))
              (v_respond v) (v_route v) (v_identity v)
  end.

Definition setRespond (plugin response : string) (v : RequestVerdicts) : RequestVerdicts :=
  match v_respond v with
  | Some _ => v
  | None => mkVerdicts (v_block v) (Some (mkRespondVerdict plugin response)) (v_route v) (v_identity v)
  end.

(** [efforts ...pbv1.Effort]: the first, or unspecified. *)
Definition setRoute (plugin provider model : string) (efforts : list Z) (v : RequestVerdicts)
    : RequestVerdicts :=
  let effort := match efforts with e :: _ => e | [] => 0%Z end in
  mkVerdicts (v_block v) (v_respond v) (Some (mkRouteVerdict plugin provider model effort)) (v_identity v).

Definition setIdentity (plugin identity : string) (v : RequestVerdicts) : RequestVerdicts :=
  mkVerdicts (v_block v) (v_respond v) (v_route v) (Some (mkIdentityVerdict plugin identity)).

(** [if x != nil && x.Plugin == plugin { x = nil }]. *)
Definition dropFrom {A} (owner : A → string) (plugin : string) (o : option A) : option A :=
  match o with
  | Some x => if String.eqb (owner x) plugin then None else Some x
  | None => None
  end.

Definition discardFrom (plugin : string) (v : RequestVerdicts) : RequestVerdicts :=
  mkVerdicts (v_block v) (dropFrom rv_plugin plugin (v_respond v))
    (dropFrom ro_plugin plugin (v_route v)) (dropFrom iv_plugin plugin (v_identity v)).

(** ** The runtime *)

Record Runtime := mkRuntime {
  rt_verdicts : gmap N RequestVerdicts;
  rt_meta : gmap N (gmap string string)
}.

Definition VerdictsFor (r : Runtime) (reqID : N) : option RequestVerdicts := rt_verdicts r !! reqID.

(** The nil-receiver cases of [Block] and [discardFrom]. *)
Definition Block (v : option RequestVerdicts) : option BlockVerdict := v ≫= v_block.

Definition DiscardTrappedVerdicts (reqID : N) (plugin : string) (r : Runtime) : Runtime :=
  match VerdictsFor r reqID with
  | None => r
  | Some v => mkRuntime (<[reqID := discardFrom plugin v]> (rt_verdicts r)) (rt_meta r)
  end.

(** [r.verdictsBucket(reqID).f()]: the bucket is created on first use. *)
Definition withBucket (reqID : N) (f : RequestVerdicts → RequestVerdicts) (r : Runtime) : Runtime :=
  mkRuntime (<[reqID := f (default noVerdicts (rt_verdicts r !! reqID))]> (rt_verdicts r)) (rt_meta r).

Definition EndRequest (reqID : N) (r : Runtime) : Runtime :=
  mkRuntime (delete reqID (rt_verdicts r)) (delete reqID (rt_meta r)).

(** ** Metadata buffers *)

Definition metaKey (plugin key : string) : string :=
  "meta" +:+ byteStr 0 +:+ pretty (String.length plugin) +:+ byteStr 0 +:+ plugin +:+ key.

Definition maxMetaValueBytes : Z := 4 * 2 ^ 20.
Definition maxMetaRequestBytes : Z := 16 * 2 ^ 20.

Inductive metaErr := MetaValueLimit | MetaRequestLimit.

(** [for k, v := range bucket { total += len(k) + len(v) }]. *)
Definition bucketBytes (bucket : gmap string string) : Z :=
  map_fold (λ k v total, total + (len k + len v))%Z 0%Z bucket.

Definition checkMetaBudget (bucket : gmap string string) (finalLen delta : Z) : res metaErr unit :=
  if bool_decide (maxMetaValueBytes < finalLen)%Z then Err MetaValueLimit
  else
    let total := (delta + bucketBytes bucket)%Z in
    if bool_decide (maxMetaRequestBytes < total)%Z then Err MetaRequestLimit else Ok tt.

Definition setBucket (reqID : N) (bucket : gmap string string) (r : Runtime) : Runtime :=
  mkRuntime (rt_verdicts r) (<[reqID := bucket]> (rt_meta r)).

(** Returns the buffer (empty on an acknowledged write), its presence, an error. *)
Definition metaAppend (reqID : N) (key fragment : string) (r : Runtime)
    : (string * bool * option metaErr) * Runtime :=
  match rt_meta r !! reqID with
  | None =>
      if String.eqb fragment "" then (("", false, None), r)
      else
        let r := setBucket reqID ∅ r in
        match checkMetaBudget ∅ (0 + len fragment) (len fragment) with
        | Err e => (("", false, Some e), r)
        | Ok _ => (("", true, None), setBucket reqID (<[key := fragment]> ∅) r)
        end
  | Some bucket =>
      let existing := default "" (bucket !! key) in
      let present := bool_decide (is_Some (bucket !! key)) in
      if String.eqb fragment "" then ((existing, present, None), r)
      else
        match checkMetaBudget bucket (len existing + len fragment) (len fragment) with
        | Err e => ((existing, present, Some e), r)
        | Ok _ => (("", true, None), setBucket reqID (<[key := existing +:+ fragment]> bucket) r)
        end
  end.

Definition metaSetBounded (reqID : N) (key value : string) (r : Runtime) : res metaErr unit * Runtime :=
  let bucket := default ∅ (rt_meta r !! reqID) in
  let r := setBucket reqID bucket r in
  match checkMetaBudget bucket (len value) (len value - len (default "" (bucket !! key))) with
  | Err e => (Err e, r)
  | Ok _ => (Ok tt, setBucket reqID (<[key := value]> bucket) r)
  end.

Definition metaGetPresence (reqID : N) (key : string) (r : Runtime) : string * bool :=
  match rt_meta r !! reqID ≫= λ b, b !! key with
  | Some v => (v, true)
  | None => ("", false)
  end.

(** ** Budgets *)

(** The memory one request's buffers take, against the longest key. *)
Definition longestKey (bucket : gmap string string) : Z :=
  map_fold (λ k _ m, Z.max (len k) m) 0%Z bucket.

Definition withinBudget (bucket : gmap string string) : Prop :=
  (∀ k v, bucket !! k = Some v → (len v ≤ maxMetaValueBytes)%Z)
  ∧ (bucketBytes bucket ≤ maxMetaRequestBytes + longestKey bucket)%Z.

Definition metaWithin (r : Runtime) : Prop := ∀ reqID b, rt_meta r !! reqID = Some b → withinBudget b.

Lemma bucketBytes_insert_fresh b k v : b !! k = None →
  bucketBytes (<[k := v]> b) = (bucketBytes b + (len k + len v))%Z.
Proof.
  intros Hk. unfold bucketBytes. rewrite map_fold_insert_L; [done| |done]. intros; lia.
Qed.

Lemma bucketBytes_delete b k v : b !! k = Some v →
  bucketBytes b = (bucketBytes (delete k b) + (len k + len v))%Z.
Proof.
  intros Hk. rewrite <- (insert_delete_id _ _ _ Hk) at 1.
  apply bucketBytes_insert_fresh, lookup_delete_eq.
Qed.

Lemma bucketBytes_insert b k v :
  bucketBytes (<[k := v]> b) =
  match b !! k with
  | Some old => (bucketBytes b - len old + len v)%Z
  | None => (bucketBytes b + (len k + len v))%Z
  end.
Proof.
  destruct (b !! k) as [old|] eqn:Hk; [|by apply bucketBytes_insert_fresh].
  rewrite <- insert_delete_eq, bucketBytes_insert_fresh by apply lookup_delete_eq.
  rewrite (bucketBytes_delete b k old Hk). lia.
Qed.

Lemma longestKey_nonneg b : (0 ≤ longestKey b)%Z.
Proof.
  unfold longestKey. apply (map_fold_weak_ind (λ m _, (0 ≤ m)%Z)); [done|]. intros. lia.
Qed.

Lemma longestKey_insert_fresh b k v : b !! k = None →
  longestKey (<[k := v]> b) = Z.max (len k) (longestKey b).
Proof.
  intros Hk. unfold longestKey. rewrite map_fold_insert_L; [done| |done]. intros; lia.
Qed.

Lemma longestKey_insert b k v : (len k ≤ longestKey (<[k := v]> b))%Z.
Proof.
  rewrite <- insert_delete_eq, longestKey_insert_fresh by apply lookup_delete_eq. lia.
Qed.

(** An accepted write stays within the budgets. *)
Lemma write_within b k v : withinBudget b →
  checkMetaBudget b (len v) (len v - len (default "" (b !! k))) = Ok tt →
  withinBudget (<[k := v]> b).
Proof.
  intros [Hv Hb] H. unfold checkMetaBudget in H.
  case_bool_decide as H1; [done|]. case_bool_decide as H2; [done|]. split.
  - intros k' v'. rewrite lookup_insert_Some. intros [[-> <-]|[_ ?]]; [lia|by eapply Hv].
  - pose proof (longestKey_insert b k v). pose proof (longestKey_nonneg (<[k := v]> b)).
    rewrite bucketBytes_insert. destruct (b !! k) as [old|]; simpl in *; unfold len in *; simpl in *; lia.
Qed.

Lemma empty_within : withinBudget ∅.
Proof. split; [by intros k v ?%lookup_empty_Some|]. vm_compute. done. Qed.

Lemma setBucket_within reqID b r : metaWithin r → withinBudget b → metaWithin (setBucket reqID b r).
Proof.
  intros Hr Hb i b'. simpl. rewrite lookup_insert_Some. intros [[_ <-]|[_ ?]]; [done|by eapply Hr].
Qed.

(** What a plugin can ask of the buffers, and the end of the request. *)
Inductive metaOp :=
| OpAppend (reqID : N) (key fragment : string)
| OpSet (reqID : N) (key value : string)
| OpEnd (reqID : N).

Definition metaStep (r : Runtime) (op : metaOp) : Runtime :=
  match op with
  | OpAppend i k f => (metaAppend i k f r).2
  | OpSet i k v => (metaSetBounded i k v r).2
  | OpEnd i => EndRequest i r
  end.

Lemma metaAppend_within i k f r : metaWithin r → metaWithin (metaAppend i k f r).2.
Proof.
  intros Hr. unfold metaAppend. destruct (rt_meta r !! i) as [b|] eqn:Hb.
  - destruct (String.eqb f ""); [done|].
    destruct (checkMetaBudget _ _ _) as [[]|] eqn:Hc; [|done]. simpl.
    apply setBucket_within; [done|]. apply write_within; [by eapply Hr|].
    rewrite len_app. by replace (len (default "" (b !! k)) + len f - len (default "" (b !! k)))%Z with (len f) by lia.
  - destruct (String.eqb f ""); [done|].
    pose proof (setBucket_within i ∅ r Hr empty_within) as Hr'.
    destruct (checkMetaBudget _ _ _) as [[]|] eqn:Hc; [|done]. simpl.
    apply setBucket_within; [done|]. apply write_within; [apply empty_within|].
    rewrite lookup_empty. simpl. by replace (len f - len "")%Z with (len f) by (unfold len; simpl; lia).
Qed.

Lemma metaSet_within i k v r : metaWithin r → metaWithin (metaSetBounded i k v r).2.
Proof.
  intros Hr. unfold metaSetBounded.
  assert (Hb : withinBudget (default ∅ (rt_meta r !! i))).
  { destruct (rt_meta r !! i) eqn:E; [by eapply Hr|apply empty_within]. }
  destruct (checkMetaBudget _ _ _) as [[]|] eqn:Hc; simpl; repeat apply setBucket_within; try done.
  by apply write_within.
Qed.

(** C15. Whatever plugins append and set, for however many requests, no buffer
    exceeds 4 MiB, and the buffers of one request take at most 16 MiB plus the
    length of one key: the check charges an entry's key only once the entry
    exists, so the entry that is being created can overshoot by its key. *)
Theorem meta_budget_kept ops r :
  metaWithin r → metaWithin (foldl metaStep r ops).
Proof.
  revert r; induction ops as [|op ops IH]; intros r Hr; simpl; [done|]. apply IH.
  destruct op; simpl; [by apply metaAppend_within|by apply metaSet_within|].
  intros i b Hb. simpl in Hb. apply lookup_delete_Some in Hb as [_ Hb]. by eapply Hr.
Qed.

Lemma meta_budget_kept_witness :
  metaWithin (foldl metaStep (mkRuntime ∅ ∅) [OpSet 1 "key" "value"; OpAppend 1 "key" "s"; OpEnd 2]).
Proof. apply (meta_budget_kept _ (mkRuntime ∅ ∅)). intros i b Hb. simpl in Hb. by apply lookup_empty_Some in Hb. Defined.

(** The overshoot is real: a key as long as one likes, with an empty value, is
    accepted into an empty bucket. *)
Lemma meta_key_uncharged reqID key v :
  let r := (metaSetBounded reqID key "" (mkRuntime v ∅)).2 in
  (metaSetBounded reqID key "" (mkRuntime v ∅)).1 = Ok tt
  ∧ bucketBytes (default ∅ (rt_meta r !! reqID)) = len key.
Proof.
  unfold metaSetBounded. simpl. rewrite lookup_empty. simpl. rewrite lookup_empty.
  change (checkMetaBudget ∅ (len "") (len "" - len (default "" None))) with (Ok (E:=metaErr) tt).
  simpl. split; [done|]. rewrite lookup_insert_eq. simpl. rewrite bucketBytes_insert, lookup_empty.
  unfold bucketBytes. rewrite map_fold_empty. unfold len. simpl. lia.
Qed.
