(* ===== verification/HeaderPolicy.v ===== *)
(** * Which request headers a plugin sees

    internal/plugin/headerpolicy.go: the fixed lists, the resolution of a
    policy name against an untrusted header map, the two projections, and the
    injection of host-owned metadata around one hook call.  A Go map is a
    [gmap]; its iteration order is the order of [map_to_list], and
    [resolveHeader_order] shows that no order gives another answer. *)

From stdpp Require Import base list strings gmap sets numbers.
From S2P Require Import Prelude ByteStrings Framing RequestIR.
From Stdlib Require Import Ascii.

(** ** [http.CanonicalHeaderKey] *)

Definition between (lo hi : ascii) (c : ascii) : bool :=
  (N_of_ascii lo <=? N_of_ascii c)%N && (N_of_ascii c <=? N_of_ascii hi)%N.

(** [validHeaderFieldByte]: the token characters of RFC 7230. *)
Definition validHeaderFieldByte (c : ascii) : bool :=
  between "0" "9" c || between "a" "z" c || between "A" "Z" c
  || bool_decide (c ∈ ["!"%char; "#"%char; "$"%char; "%"%char; "&"%char; "'"%char; "*"%char;
                       "+"%char; "-"%char; "."%char; "^"%char; "_"%char; "`"%char; "|"%char; "~"%char]).

Fixpoint allBytes (p : ascii → bool) (s : string) : bool :=
  match s with
  | "" => true
  | String c s' => p c && allBytes p s'
  end.

Fixpoint canonicalFrom (upper : bool) (s : string) : string :=
  match s with
  | "" => ""
  | String c s' =>
      let c := if upper && between "a" "z" c then ascii_of_N (N_of_ascii c - 32)
               else if negb upper && between "A" "Z" c then ascii_of_N (N_of_ascii c + 32)
               else c in
      String c (canonicalFrom (bool_decide (c = "-"%char)) s')
  end.

Definition CanonicalHeaderKey (s : string) : string :=
  if allBytes validHeaderFieldByte s then canonicalFrom true s else s.

(** ** The policy *)

Definition requestHeadersKey : string := "_request_headers".
Definition httpOperationalHeaders : list string := ["Accept"; "Content-Type"; "User-Agent"].
Definition credentialHeaders : list string :=
  ["Authorization"; "X-Api-Key"; "X-Torana-User"; "X-Torana-Team"; "X-Torana-Tenant"].

Abbreviation headers := (gmap string (list string)).

(** A copy of every slice; [None] is the nil map. *)
Definition snapshotHeaders (raw : headers) : option headers :=
  if bool_decide (size raw = 0) then None else Some raw.

Inductive resolved := Absent | Found (values : list string) | Ambiguous.

(** The loop of [resolveHeader] over one iteration order. *)
Fixpoint resolveLoop (canonical : string) (found : option (list string))
    (l : list (string * list string)) : resolved :=
  match l with
  | [] => match found with Some values => Found values | None => Absent end
  | (k, v) :: l' =>
      if String.eqb (CanonicalHeaderKey k) canonical then
        match found with
        | Some _ => Ambiguous
        | None => resolveLoop canonical (Some v) l'
        end
      else resolveLoop canonical found l'
  end.

Definition resolveHeader (raw : headers) (canonical : string) : resolved :=
  resolveLoop canonical None (map_to_list raw).

Definition filterInto (raw : headers) (out : headers) (canonical : string) : headers :=
  match resolveHeader raw canonical with
  | Found values => <[canonical := values]> out
  | _ => out
  end.

Definition filterHTTPHeaders (raw : headers) (credentialsGranted : bool) : headers :=
  let out := foldl (filterInto raw) ∅ httpOperationalHeaders in
  if credentialsGranted then foldl (filterInto raw) out credentialHeaders else out.

Definition projectInto (raw : headers) (out : gmap string string) (name : string) : gmap string string :=
  match resolveHeader raw name with
  | Found (v :: _) => if String.eqb v "" then out else <[name := v]> out
  | _ => out
  end.

Definition projectChatHeaders (raw : headers) : gmap string string :=
  foldl (projectInto raw) ∅ credentialHeaders.

(** ** Metadata around one hook call

    The metadata is a JSON object; its decoding into a map of raw members and
    the encodings are [encoding/json]'s, taken as operations. *)
Class MetaCodec := {
  (** [json.Unmarshal] into [map[string]json.RawMessage]; [Some None] is the
      nil map that the JSON null decodes to. *)
  UnmarshalMeta : string → option (option (gmap string string));
  MarshalMeta : gmap string string → option string;
  MarshalHeaders : gmap string string → option string
}.

Section Inject.
Context {J : MetaCodec}.

Definition withMeta (meta : string) (req : ChatRequest) : ChatRequest :=
  mkChatRequest (Model req) (Messages req) (Tools req) (Stream req) (MaxTokens req) (Temperature req)
    (TopP req) (StopSequences req) (ProviderExtensionsJson req) (SafetySettingsJson req)
    (OutputFormat_ req) meta (cr_unk req).

(** The decoded map, or [None] when the host metadata is malformed. *)
Definition currentMeta (req : ChatRequest) : option (gmap string string) :=
  if bool_decide (0 < len (ToranaMetaJson req))%Z
  then default ∅ <$> UnmarshalMeta (ToranaMetaJson req)
  else Some ∅.

Definition injectRequestHeaders (current : ChatRequest) (hs : gmap string string) : ChatRequest :=
  match currentMeta current with
  | None => current
  | Some meta =>
      match MarshalHeaders hs with
      | None => current
      | Some encoded =>
          match MarshalMeta (<[requestHeadersKey := encoded]> meta) with
          | None => current
          | Some b => withMeta b current
          end
      end
  end.

Definition injectSuggestionOutcomes (current : ChatRequest) (outcomes : string) : ChatRequest :=
  match currentMeta current with
  | None => current
  | Some meta =>
      match MarshalMeta (<["_suggestions" := outcomes]> meta) with
      | None => current
      | Some encoded => withMeta encoded current
      end
  end.

(** [restoreRequestHeaders]: the exact bytes that were there before. *)
Definition restoreRequestHeaders (target : ChatRequest) (saved : string) : ChatRequest :=
  withMeta saved target.

Lemma withMeta_id req : withMeta (ToranaMetaJson req) req = req.
Proof. by destruct req. Qed.

Lemma withMeta_withMeta a b req : withMeta a (withMeta b req) = withMeta a req.
Proof. done. Qed.

(** Injection changes the metadata and nothing else. *)
Lemma inject_only_meta req hs : ∃ meta, injectRequestHeaders req hs = withMeta meta req.
Proof. unfold injectRequestHeaders. repeat case_match; eauto using eq_sym, withMeta_id. Qed.

Lemma suggest_only_meta req o : ∃ meta, injectSuggestionOutcomes req o = withMeta meta req.
Proof. unfold injectSuggestionOutcomes. repeat case_match; eauto using eq_sym, withMeta_id. Qed.
End Inject.

(** ** Iteration order *)

Lemma resolveLoop_spec canonical found l :
  resolveLoop canonical found l =
  match found, filter (λ kv : string * list string, CanonicalHeaderKey kv.1 = canonical) l with
  | None, [] => Absent
  | None, [kv] => Found kv.2
  | Some v, [] => Found v
  | _, _ => Ambiguous
  end.
Proof.
  revert found; induction l as [|[k v] l IH]; intros found; simpl; [by destruct found|].
  rewrite filter_cons. simpl. destruct (String.eqb_spec (CanonicalHeaderKey k) canonical) as [Hk|Hk].
  - rewrite decide_True by done. destruct found; [done|]. rewrite IH.
    by destruct (filter _ l).
  - rewrite decide_False by done. apply IH.
Qed.

(** Map iteration order never decides which header wins. *)
Lemma resolveHeader_order canonical l l' : l ≡ₚ l' →
  resolveLoop canonical None l = resolveLoop canonical None l'.
Proof.
  intros Hp. rewrite !resolveLoop_spec.
  apply (filter_Permutation (λ kv : string * list string, CanonicalHeaderKey kv.1 = canonical)) in Hp.
  destruct (filter _ l) as [|kv [|kv2 fl]] eqn:E.
  - apply Permutation_nil_l in Hp. by rewrite <- Hp.
  - apply Permutation_singleton_l in Hp. by rewrite <- Hp.
  - destruct (filter _ l') as [|kv' [|kv2' fl']] eqn:E'; [..|done]; apply Permutation_length in Hp; simpl in Hp; lia.
Qed.

(** Only policy names reach a plugin, and credentials only with the grant. *)
Lemma filterInto_dom raw names out k :
  is_Some (foldl (filterInto raw) out names !! k) → is_Some (out !! k) ∨ k ∈ names.
Proof.
  revert out; induction names as [|n names IH]; intros out; simpl; [by left|].
  intros H%IH. destruct H as [H|H]; [|right; by right]. unfold filterInto in H.
  destruct (resolveHeader raw n); try (by left). destruct (decide (n = k)) as [->|Hn].
  - right. left.
  - rewrite lookup_insert_ne in H by done. by left.
Qed.

Lemma filterHTTPHeaders_dom raw granted k : is_Some (filterHTTPHeaders raw granted !! k) →
  k ∈ httpOperationalHeaders ∨ (granted = true ∧ k ∈ credentialHeaders).
Proof.
  unfold filterHTTPHeaders. destruct granted.
  - intros [H|H]%filterInto_dom; [|by right].
    apply filterInto_dom in H as [[? ?%lookup_empty_Some]|H]; [done|by left].
  - intros [[? ?%lookup_empty_Some]|H]%filterInto_dom; [done|by left].
Qed.

Example canonical_credential : CanonicalHeaderKey "x-API-key" = "X-Api-Key".
Proof. reflexivity. Qed.

Example canonical_invalid_unchanged : CanonicalHeaderKey "x api key" = "x api key".
Proof. reflexivity. Qed.
