(* ===== verification/RequestPipeline.v ===== *)
(** * The request pipeline

    [runBeforeRequestPlugin] and the plugin loop of [RunBeforeRequestTracked]
    in internal/plugin/discovery.go.  Each plugin sees the current request with
    host metadata injected for the call; a replacement must pass the
    write-grant check against exactly what the plugin saw; the metadata is
    restored on every exit; a recorded block ends the chain.  The request the
    Go code mutates and restores in place ([current]) is part of the state, so
    the restoration is something to prove.

    Guests are arbitrary: a guest maps the request it is shown to the verdict
    host calls it makes and to a reply or a trap.  The ABI codec and the
    optional host hooks are parameters. *)

From stdpp Require Import base list strings gmap sets numbers.
From S2P Require Import Prelude ByteStrings Framing RequestIR RequestSections RequestSectionFacts RequestSectionsProofs RequestSignatures RequestGrants Verdicts HeaderPolicy RequestIdentity RequestTheorems.

(** ** The hook ABI (internal/plugin/hookabi.go) *)

Inductive hookAction := ReplaceRequest (req : ChatRequest) | OtherAction.
Record HookResult := mkHookResult { hr_action : option hookAction }.

Class HookABI := {
  (** [HookInput.Validate] and [proto.Marshal] accept the envelope. *)
  HookInputValid : ChatRequest → bool;
  (** [pbv1.DecodeHookResult]. *)
  DecodeHookResult : string → option HookResult;
  (** [res.ValidateFor(HOOK_BEFORE_REQUEST)]. *)
  ValidateFor : HookResult → bool
}.

Inductive beforeErr :=
| InvalidHookInput
| PluginFailed (name : string)
| PluginInvalidResult (name : string)
| InvalidReplacement (name : string) (e : requestErr)
| ProviderInvalid (name : string).

Definition decodeHookResult `{HookABI} (raw : string) : res unit (option HookResult) :=
  if String.eqb raw "" then Ok None
  else
    match DecodeHookResult raw with
    | None => Err tt
    | Some r =>
        if negb (ValidateFor r) then Err tt
        else match hr_action r with None => Ok None | Some _ => Ok (Some r) end
    end.

Definition GetReplaceRequest (r : HookResult) : option ChatRequest :=
  if hr_action r is Some (ReplaceRequest req) then Some req else None.

(** ** Guests *)

(** The verdict host calls, as the dispatcher admits them. *)
Inductive hostCall :=
| HCBlock (status : Z) (code message : string)
| HCRespond (response : string)
| HCRoute (provider model : string) (effort : Z)
| HCIdentity (identity : string).

Definition recordCall (plugin : string) (v : RequestVerdicts) (c : hostCall) : RequestVerdicts :=
  match c with
  | HCBlock s c m => setBlock plugin s c m v
  | HCRespond r => setRespond plugin r v
  | HCRoute p m e => setRoute plugin p m [e] v
  | HCIdentity i => setIdentity plugin i v
  end.

(** One call: the host calls made, and the reply bytes or a trap. *)
Record guestRun := mkGuestRun { gr_calls : list hostCall; gr_reply : option string }.

Record beforePlugin := mkBeforePlugin {
  bp_name : string;
  bp_failureMode : string;
  bp_HasGrant : string → bool;
  bp_guest : ChatRequest → guestRun
}.

(** ** Pipeline state *)

Record pipeState := mkPipe {
  ps_runtime : Runtime;
  ps_invoked : gmap N (list string)          (* requestPlugins: names in first-fire order *)
}.

Definition recordInvocation (reqID : N) (name : string) (s : pipeState) : pipeState :=
  let names := default [] (ps_invoked s !! reqID) in
  if bool_decide (name ∈ names) then s
  else mkPipe (ps_runtime s) (<[reqID := names ++ [name]]> (ps_invoked s)).

Definition blocked (reqID : N) (s : pipeState) : bool :=
  bool_decide (is_Some (Block (VerdictsFor (ps_runtime s) reqID))).

Definition discardTrapped (reqID : N) (plugin : string) (s : pipeState) : pipeState :=
  mkPipe (DiscardTrappedVerdicts reqID plugin (ps_runtime s)) (ps_invoked s).

Definition applyCalls (reqID : N) (plugin : string) (calls : list hostCall) (s : pipeState) : pipeState :=
  mkPipe (foldl (λ r c, withBucket reqID (λ v, recordCall plugin v c) r) (ps_runtime s) calls)
    (ps_invoked s).

Section Pipeline.
Context {K : RequestSDK} {J : MetaCodec} {ABI : HookABI}.
Context (fields : list requestSignatureField).
(** [SuggestionOutcomesFunc]: unset, or per plugin an error or outcomes. *)
Context (suggestionOutcomes : option (string → option (option string))).
(** [candidateValidator] applied to the request's topology facts: does it accept? *)
Context (candidateValidator : option (ChatRequest → ChatRequest → bool)).
Context (reqID : N).

(** The projection one plugin is shown. *)
Definition injectFor (lp : beforePlugin) (headers : option headers) (current : ChatRequest) : ChatRequest :=
  let current :=
    match suggestionOutcomes with
    | Some f => match f (bp_name lp) with
                | Some (Some outcomes) => injectSuggestionOutcomes current outcomes
                | _ => current
                end
    | None => current
    end in
  match headers with
  | Some hs => if bp_HasGrant lp "env.request_headers"
               then injectRequestHeaders current (projectChatHeaders hs) else current
  | None => current
  end.

(** The write-grant branch. *)
Definition verifyReplacement (lp : beforePlugin) (current replacement : ChatRequest) : res requestErr unit :=
  if holdsAllRequestGrants (bp_HasGrant lp) then verifyFastPath fields current replacement
  else verifyRequestMutation fields current replacement (bp_HasGrant lp).

(** [next, stop], with [next] the accepted replacement. *)
Definition hookOutcome : Type := res beforeErr (option ChatRequest * bool).

(** The failure exit shared by traps and malformed results. *)
Definition failedCall (lp : beforePlugin) (e : beforeErr) (s : pipeState) : hookOutcome * pipeState :=
  let s := discardTrapped reqID (bp_name lp) s in
  if blocked reqID s then (Ok (None, true), s)
  else if String.eqb (bp_failureMode lp) "block" then (Err e, s)
  else (Ok (None, false), s).

(** What is left of a replacement after both checks: kept, dropped, or an error
    for the caller. *)
Definition checkReplacement (lp : beforePlugin) (current replacement : ChatRequest) (s : pipeState)
    : res beforeErr (option ChatRequest) * pipeState :=
  match verifyReplacement lp current replacement with
  | Err verr =>
      let s := discardTrapped reqID (bp_name lp) s in
      if String.eqb (bp_failureMode lp) "block" then (Err (InvalidReplacement (bp_name lp) verr), s)
      else (Ok None, s)
  | Ok _ =>
      match candidateValidator with
      | Some validate =>
          if validate current replacement then (Ok (Some replacement), s)
          else
            let s := discardTrapped reqID (bp_name lp) s in
            if String.eqb (bp_failureMode lp) "block" then (Err (ProviderInvalid (bp_name lp)), s)
            else (Ok None, s)
      | None => (Ok (Some replacement), s)
      end
  end.

(** The body before the deferred restoration, on the injected request. *)
Definition callPlugin (lp : beforePlugin) (savedMeta : string) (current : ChatRequest) (s : pipeState)
    : hookOutcome * pipeState :=
  if negb (HookInputValid current) then (Err InvalidHookInput, s)
  else
    let s := recordInvocation reqID (bp_name lp) s in
    let run := bp_guest lp current in
    let s := applyCalls reqID (bp_name lp) (gr_calls run) s in
    match gr_reply run with
    | None => failedCall lp (PluginFailed (bp_name lp)) s
    | Some outBytes =>
        match decodeHookResult outBytes with
        | Err _ => failedCall lp (PluginInvalidResult (bp_name lp)) s
        | Ok r =>
            match r ≫= GetReplaceRequest with
            | None => (Ok (None, blocked reqID s), s)
            | Some replacement =>
                match checkReplacement lp current replacement s with
                | (Err e, s) => (Err e, s)
                | (Ok (Some accepted), s) =>
                    (Ok (Some (restoreRequestHeaders accepted savedMeta), blocked reqID s), s)
                | (Ok None, s) => (Ok (None, blocked reqID s), s)
                end
            end
        end
    end.

(** The deferred restoration runs on every exit, on the request that chains
    and on the replacement. *)
Definition runBeforeRequestPlugin (lp : beforePlugin) (headers : option headers)
    (current : ChatRequest) (s : pipeState) : hookOutcome * ChatRequest * pipeState :=
  let savedMeta := ToranaMetaJson current in
  let injected := injectFor lp headers current in
  let '(out, s) := callPlugin lp savedMeta injected s in
  let current := restoreRequestHeaders injected savedMeta in
  match out with
  | Ok (Some next, stop) => (Ok (Some (restoreRequestHeaders next savedMeta), stop), current, s)
  | _ => (out, current, s)
  end.

(** The loop over [pp.beforePlugins]: the request to forward and whether a
    replacement was accepted. *)
Fixpoint runBeforePlugins (plugins : list beforePlugin) (headers : option headers)
    (current : ChatRequest) (modified : bool) (s : pipeState)
    : res beforeErr (ChatRequest * bool) * pipeState :=
  match plugins with
  | [] => (Ok (current, modified), s)
  | lp :: plugins' =>
      match runBeforeRequestPlugin lp headers current s with
      | (Err e, _, s) => (Err e, s)
      | (Ok (next, stop), current, s) =>
          let current := match next with Some r => r | None => current end in
          let modified := if next is Some _ then true else modified in
          if stop then (Ok (current, modified), s)
          else runBeforePlugins plugins' headers current modified s
      end
  end.

(** ** Authorised steps *)

(** One accepted replacement: the plugin, what it was shown, what it returned. *)
Record comparison := mkComparison { cmp_plugin : beforePlugin; cmp_in : ChatRequest; cmp_out : ChatRequest }.

(** [steps] leads from [a] to [b] by replacements of some of the plugins, in
    order, each of which passed the check of its plugin against what the plugin
    was shown: the current request but for its metadata. *)
Inductive authorisedSteps : list beforePlugin → ChatRequest → list comparison → ChatRequest → Prop :=
| steps_done lps a : authorisedSteps lps a [] a
| steps_skip lp lps a st b : authorisedSteps lps a st b → authorisedSteps (lp :: lps) a st b
| steps_accept lp lps a meta r st b :
    verifyReplacement lp (withMeta meta a) r = Ok tt →
    authorisedSteps lps (withMeta (ToranaMetaJson a) r) st b →
    authorisedSteps (lp :: lps) a (mkComparison lp (withMeta meta a) r :: st) b.

Lemma injectFor_meta lp hs current : ∃ meta, injectFor lp hs current = withMeta meta current.
Proof.
  unfold injectFor.
  set (c1 := match suggestionOutcomes with Some f => _ | None => current end).
  assert (H1 : ∃ meta, c1 = withMeta meta current).
  { subst c1. repeat case_match; eauto using suggest_only_meta, eq_sym, withMeta_id. }
  destruct H1 as [m1 ->]. destruct hs as [hs|]; [|eauto].
  destruct (bp_HasGrant lp _); [|eauto].
  destruct (inject_only_meta (withMeta m1 current) (projectChatHeaders hs)) as [m2 ->]. eauto.
Qed.

Lemma checkReplacement_ok lp current r s r' s' :
  checkReplacement lp current r s = (Ok (Some r'), s') → r' = r ∧ verifyReplacement lp current r = Ok tt.
Proof.
  unfold checkReplacement. destruct (verifyReplacement lp current r) as [[]|]; [|by case_match].
  repeat case_match; intros [= <- _]; done.
Qed.

(** The request that chains is the one the plugin was called with, and an
    accepted replacement carries its metadata. *)
Lemma runBeforeRequestPlugin_spec lp hs current s out current' s' :
  runBeforeRequestPlugin lp hs current s = (out, current', s') →
  current' = current ∧
  match out with
  | Ok (Some next, _) => ∃ meta r, verifyReplacement lp (withMeta meta current) r = Ok tt
                                   ∧ next = withMeta (ToranaMetaJson current) r
  | _ => True
  end.
Proof.
  unfold runBeforeRequestPlugin, restoreRequestHeaders.
  destruct (injectFor_meta lp hs current) as [meta ->].
  destruct (callPlugin _ _ _ _) as [o s1] eqn:Hc. rewrite withMeta_withMeta, withMeta_id.
  intros H. assert (Hc' : current' = current) by (repeat case_match; simplify_eq; done).
  split; [done|]. destruct out as [[[next|] stop]|]; [|done..].
  destruct o as [[[r0|] stop0]|]; simplify_eq.
  unfold callPlugin, failedCall in Hc.
  repeat (case_match; simplify_eq/=; try done).
  match goal with H : checkReplacement _ _ _ _ = _ |- _ => apply checkReplacement_ok in H as [-> ?] end.
  eauto.
Qed.

Lemma runBeforePlugins_steps lps hs a m s b m' s' :
  runBeforePlugins lps hs a m s = (Ok (b, m'), s') →
  ∃ st, authorisedSteps lps a st b ∧ (m' = false → st = []) ∧ (m = true → m' = true).
Proof.
  revert a m s; induction lps as [|lp lps IH]; intros a m s H; simpl in H.
  - simplify_eq. exists []. split; [constructor|]. done.
  - destruct (runBeforeRequestPlugin lp hs a s) as [[[[next stop]|] a'] s1] eqn:Hr; [|done].
    apply runBeforeRequestPlugin_spec in Hr as [-> Hn]. destruct next as [next|].
    + destruct Hn as (meta & r & Hv & ->). destruct stop.
      * simplify_eq. eexists. split; [eapply steps_accept, steps_done; done|]. done.
      * apply IH in H as (st & Hst & _ & Hm). eexists. split; [by eapply steps_accept|].
        specialize (Hm eq_refl). split; [congruence|done].
    + destruct stop.
      * simplify_eq. exists []. split; [constructor|]. done.
      * apply IH in H as (st & Hst & Hm1 & Hm2). exists st. split; [by constructor|]. done.
Qed.

(** ** Composition with the section guarantees *)

(** Section facts do not depend on the metadata. *)
Lemma sectionSame_meta sec m a b : sectionSame sec (withMeta m a) b ↔ sectionSame sec a b.
Proof. by destruct sec. Qed.

Lemma sectionSame_meta_r sec m a b : sectionSame sec a (withMeta m b) ↔ sectionSame sec a b.
Proof. by destruct sec. Qed.

Lemma sectionSame_trans sec a b c : sectionSame sec a b → sectionSame sec b c → sectionSame sec a c.
Proof. destruct sec; simpl; congruence. Qed.

Lemma sectionSame_refl sec a : sectionSame sec a a.
Proof. by destruct sec. Qed.

(** A plugin that lacks one of the request grants is on the full path. *)
Lemma verifyReplacement_full lp a r g :
  bp_HasGrant lp g = false → g ∈ allRequestGrants → verifyReplacement lp a r = Ok tt →
  verifyRequestMutation fields a r (bp_HasGrant lp) = Ok tt.
Proof.
  intros Hg Hin Hv. unfold verifyReplacement in Hv. destruct (holdsAllRequestGrants (bp_HasGrant lp)) eqn:Hall; [|done].
  unfold holdsAllRequestGrants in Hall. rewrite forallb_elem in Hall. by rewrite Hall in Hg.
Qed.

(** Writing a section, or the messages of a role, takes this grant. *)
Lemma sectionGrant_request sec : sectionGrant sec ∈ allRequestGrants.
Proof. destruct sec; simpl; set_solver. Qed.

(** The digests of one step are faithful. *)
Definition soundComparison (c : comparison) : Prop :=
  FaithfulDigests (cmp_in c) (cmp_out c) ∧ sizedRequest (cmp_in c) ∧ sizedRequest (cmp_out c).

(** What every step without a grant keeps, the pipeline keeps. *)
Lemma steps_keep `{!RequestSDKLaws K} (same : ChatRequest → ChatRequest → Prop) lps a st b g :
  g ∈ allRequestGrants → (∀ x, same x x) → (∀ x y z, same x y → same y z → same x z) →
  (∀ m x y, same (withMeta m x) y ↔ same x y) →
  (∀ x y cw, FaithfulDigests x y → sizedRequest x → sizedRequest y → verifyGrantedSections x y cw = Ok tt → cw g = false → same x y) →
  authorisedSteps lps a st b → (∀ c, c ∈ st → soundComparison c) → (∀ lp, lp ∈ lps → bp_HasGrant lp g = false) → same a b.
Proof.
  intros Hin Hrefl Htrans Hmeta Hstep.
  induction 1 as [lps a|lp lps a st b _ IH|lp lps a meta r st b Hv _ IH]; intros Hc Hg; [done|apply IH; [done|]; intros; apply Hg; by right|].
  apply Htrans with r.
  - destruct (Hc (mkComparison lp (withMeta meta a) r)) as (Hf & Hs1 & Hs2); [left|]. apply (Hmeta meta).
    assert (Hno : bp_HasGrant lp g = false) by (apply Hg; left).
    destruct (proj1 (verifyRequestMutation_ok fields _ _ _) (verifyReplacement_full lp (withMeta meta a) r g Hno Hin Hv)) as [_ Hgr].
    by eapply Hstep.
  - apply (Hmeta (ToranaMetaJson a)). apply IH; intros; [apply Hc|apply Hg]; by right.
Qed.

Lemma steps_section `{!RequestSDKLaws K} lps a st b sec :
  authorisedSteps lps a st b → (∀ c, c ∈ st → soundComparison c) →
  (∀ lp, lp ∈ lps → bp_HasGrant lp (sectionGrant sec) = false) → sectionSame sec a b.
Proof.
  apply (steps_keep (sectionSame sec)); [apply sectionGrant_request|apply sectionSame_refl|apply sectionSame_trans|apply sectionSame_meta|].
  intros x y cw Hf Hx Hy Hv Hg. destruct (verifyGrantedSections_same x y cw) as [_ Hs]; auto.
Qed.

Lemma steps_role `{!RequestSDKLaws K} lps a st b r :
  MessageWriteSection r ∈ allRequestGrants → authorisedSteps lps a st b → (∀ c, c ∈ st → soundComparison c) →
  (∀ lp, lp ∈ lps → bp_HasGrant lp (MessageWriteSection r) = false) → ∀ j, roleAt a r j = roleAt b r j.
Proof.
  intros Hin. apply (steps_keep (λ x y, ∀ j, roleAt x r j = roleAt y r j)); [done|done| |done|].
  - intros x y z Hxy Hyz j. by rewrite Hxy.
  - intros x y cw Hf Hx Hy Hv Hg. destruct (verifyGrantedSections_same x y cw) as [Hr _]; auto.
Qed.

Lemma steps_nil lps a b : authorisedSteps lps a [] b → b = a.
Proof. intros H. remember [] as st eqn:E. induction H; [done|auto|discriminate E]. Qed.

Lemma steps_meta lps a st b : authorisedSteps lps a st b → ToranaMetaJson b = ToranaMetaJson a.
Proof. induction 1 as [| |lp lps a meta r st b Hv Hst IH]; [done..|]. by rewrite IH. Qed.

(** C14. The request a pipeline forwards was reached by authorised steps: each
    change is the replacement of one plugin, accepted by that plugin's check
    against the request it was shown; host metadata leaves the pipeline as it
    came, whatever was injected for single calls; without an accepted
    replacement the request is the original.  And the guarantee composes: where
    the digests compared in the steps are faithful, a section that no plugin of
    the pipeline may write (tools, breakpoints, tool-result texts, contents and
    errors, model, parameters) is the same in the forwarded request as in the
    original, and so are, position by position, the messages of a role that no
    plugin may write. *)
Theorem forwarded_request_authorised `{!RequestSDKLaws K} lps hs a s b modified s' :
  runBeforePlugins lps hs a false s = (Ok (b, modified), s') →
  ∃ st, authorisedSteps lps a st b
    ∧ ToranaMetaJson b = ToranaMetaJson a
    ∧ (modified = false → b = a)
    ∧ ((∀ c, c ∈ st → soundComparison c) →
       (∀ sec, (∀ lp, lp ∈ lps → bp_HasGrant lp (sectionGrant sec) = false) → sectionSame sec a b)
       ∧ ∀ r, MessageWriteSection r ∈ allRequestGrants → (∀ lp, lp ∈ lps → bp_HasGrant lp (MessageWriteSection r) = false) →
              ∀ j, roleAt a r j = roleAt b r j).
Proof.
  intros (st & Hst & Hm & _)%runBeforePlugins_steps. exists st. split_and!.
  - done.
  - by eapply steps_meta.
  - intros ->. specialize (Hm eq_refl). subst st. by eapply steps_nil.
  - intros Hc. split; [intros; by eapply steps_section|]. intros r Hr Hg. by eapply steps_role.
Qed.

(** ** Blocks and traps *)

Definition blockOf (s : pipeState) : option BlockVerdict := Block (VerdictsFor (ps_runtime s) reqID).

Lemma blocked_spec s : blocked reqID s = true ↔ is_Some (blockOf s).
Proof. apply bool_decide_eq_true. Qed.

Lemma blockOf_discard plugin s : blockOf (discardTrapped reqID plugin s) = blockOf s.
Proof.
  unfold blockOf, discardTrapped, DiscardTrappedVerdicts, VerdictsFor. simpl.
  destruct (rt_verdicts (ps_runtime s) !! reqID) as [v|] eqn:Hv; simpl; [|by rewrite Hv].
  by rewrite lookup_insert_eq.
Qed.

Lemma blockOf_invocation name s : blockOf (recordInvocation reqID name s) = blockOf s.
Proof. unfold recordInvocation. by case_match. Qed.

(** A guest's calls can set a block where there was none, in its own name. *)
Lemma blockOf_calls plugin calls s :
  blockOf (applyCalls reqID plugin calls s) = blockOf s
  ∨ (blockOf s = None ∧ ∃ v, blockOf (applyCalls reqID plugin calls s) = Some v ∧ bv_plugin v = plugin).
Proof.
  unfold applyCalls, blockOf. simpl. generalize (ps_runtime s) as r. clear s.
  induction calls as [|c calls IH]; intros r; simpl; [by left|].
  assert (Hone : Block (VerdictsFor (withBucket reqID (λ v, recordCall plugin v c) r) reqID)
      = Block (VerdictsFor r reqID)
    ∨ (Block (VerdictsFor r reqID) = None ∧ ∃ v,
        Block (VerdictsFor (withBucket reqID (λ v, recordCall plugin v c) r) reqID) = Some v
        ∧ bv_plugin v = plugin)).
  { unfold withBucket, VerdictsFor, Block. simpl. rewrite lookup_insert_eq. simpl.
    destruct (rt_verdicts r !! reqID) as [v|]; simpl; destruct c; simpl; try by left.
    all: unfold setBlock, setRespond; simpl; repeat case_match; simpl; try (by left); eauto. }
  destruct (IH (withBucket reqID (λ v, recordCall plugin v c) r)) as [->|(Hn & v & Hv & Hp)]; [done|].
  destruct Hone as [Hone|(? & v' & Hv' & _)]; [|congruence].
  right. rewrite <- Hone. eauto.
Qed.

Lemma failedCall_state lp e s out s' : failedCall lp e s = (out, s') →
  blockOf s' = blockOf s ∧ (is_Some (blockOf s) → out = Ok (None, true)).
Proof.
  unfold failedCall. pose proof (blockOf_discard (bp_name lp) s) as Hd.
  destruct (blocked reqID (discardTrapped reqID (bp_name lp) s)) eqn:Hb.
  - intros [= <- <-]. done.
  - intros H. assert (Hn : ¬ is_Some (blockOf s)).
    { intros Hs. rewrite <- Hd in Hs. apply blocked_spec in Hs. congruence. }
    split; [by case_match; simplify_eq|done].
Qed.

Lemma checkReplacement_state lp current r s out s' :
  checkReplacement lp current r s = (out, s') → blockOf s' = blockOf s.
Proof.
  unfold checkReplacement. repeat case_match; intros; simplify_eq; rewrite ?blockOf_discard; done.
Qed.

(** A plugin leaves either no block, or its own; with a block, the loop ends. *)
Lemma plugin_block lp hs current s out current' s' : blockOf s = None →
  runBeforeRequestPlugin lp hs current s = (out, current', s') →
  ∀ v, blockOf s' = Some v →
  bv_plugin v = bp_name lp ∧ match out with Ok (_, stop) => stop = true | Err _ => True end.
Proof.
  intros Hs. unfold runBeforeRequestPlugin. destruct (callPlugin _ _ _ _) as [o s1] eqn:Hc. intros H v Hv.
  assert (Ho : s1 = s' ∧ (match o with Ok (_, stop) => stop = true | Err _ => True end →
    match out with Ok (_, stop) => stop = true | Err _ => True end)).
  { repeat case_match; simplify_eq; done. }
  destruct Ho as [-> Ho]. clear H.
  enough (bv_plugin v = bp_name lp ∧ match o with Ok (_, stop) => stop = true | Err _ => True end)
    by naive_solver.
  clear Ho out current'. unfold callPlugin in Hc. case_match; [by simplify_eq|].
  set (cur := injectFor lp hs current) in *.
  set (s2 := applyCalls reqID (bp_name lp) (gr_calls (bp_guest lp cur)) _) in *.
  assert (H2 : ∀ v, blockOf s2 = Some v → bv_plugin v = bp_name lp).
  { intros w Hw. destruct (blockOf_calls (bp_name lp) (gr_calls (bp_guest lp cur))
      (recordInvocation reqID (bp_name lp) s)) as [E|(_ & w' & E & Hp)].
    - subst s2. rewrite E, blockOf_invocation in Hw. congruence.
    - subst s2. congruence. }
  assert (Hst : ∀ sx, blockOf sx = blockOf s2 → blockOf sx = Some v → blocked reqID sx = true).
  { intros sx _ Hx. apply blocked_spec. by rewrite Hx. }
  destruct (gr_reply _) as [raw|].
  - destruct (decodeHookResult raw) as [r|].
    + destruct (r ≫= GetReplaceRequest) as [rep|].
      * destruct (checkReplacement lp cur rep s2) as [o3 s3] eqn:Hk.
        apply checkReplacement_state in Hk.
        destruct o3 as [[acc|]|]; simplify_eq; (split; [apply H2; congruence|]); try done;
          apply Hst; congruence.
      * simplify_eq. split; [by apply H2|]. by apply Hst.
    + apply failedCall_state in Hc as [Hb Hk]. split; [apply H2; congruence|].
      rewrite Hk; [done|]. rewrite <- Hb, Hv. eauto.
  - apply failedCall_state in Hc as [Hb Hk]. split; [apply H2; congruence|].
    rewrite Hk; [done|]. rewrite <- Hb, Hv. eauto.
Qed.

(** A block ends the chain: when the run of a request that nobody had
    blocked leaves a block, the plugin it is attributed to is in the pipeline,
    and the plugins after it have no part in the outcome, whatever they are:
    the run is the same with any others in their place. *)
Theorem block_ends_chain lps hs a m s r s' v :
  blockOf s = None → runBeforePlugins lps hs a m s = (r, s') → blockOf s' = Some v →
  ∃ pre lp post, lps = pre ++ lp :: post ∧ bp_name lp = bv_plugin v
    ∧ ∀ post', runBeforePlugins (pre ++ lp :: post') hs a m s = (r, s').
Proof.
  revert a m s; induction lps as [|lp lps IH]; intros a m s Hs H Hv; simpl in H; [congruence|].
  destruct (runBeforeRequestPlugin lp hs a s) as [[out a'] s1] eqn:Hr.
  destruct (blockOf s1) as [w|] eqn:Hw.
  - destruct (plugin_block lp hs a s out a' s1 Hs Hr w Hw) as [Hp Hstop].
    assert (Hend : (r, s') = match out with
      | Err e => (Err e, s1)
      | Ok (next, _) => (Ok (match next with Some x => x | None => a' end,
                             if next is Some _ then true else m), s1) end).
    { destruct out as [[next stop]|]; [subst stop|]; congruence. }
    assert (s' = s1) as -> by (destruct out as [[]|]; congruence).
    exists [], lp, lps. split_and!; [done|congruence|]. intros post'. simpl. rewrite Hr.
    destruct out as [[next stop]|]; [subst stop|]; congruence.
  - destruct out as [[next stop]|]; [|congruence]. destruct stop; [congruence|].
    destruct (IH _ _ _ Hw H Hv) as (pre & lp' & post & -> & Hp & Hpost).
    exists (lp :: pre), lp', post. split_and!; [done..|]. intros post'. simpl. by rewrite Hr, Hpost.
Qed.
End Pipeline.

(** * A pipeline of three plugins

    One rewriter without grants that exchanges two tokens, one that blocks,
    one that would change the model: the concrete run on which the pipeline
    theorems are instantiated. *)

#[local] Instance demoCodec : MetaCodec := {|
  UnmarshalMeta _ := Some (Some ∅);
  MarshalMeta m := Some (sconcat ((λ kv, kv.1 +:+ kv.2) <$> map_to_list m));
  MarshalHeaders m := Some (sconcat ((λ kv, kv.1 +:+ kv.2) <$> map_to_list m))
|}.

#[local] Instance demoABI : HookABI := {|
  HookInputValid _ := true;
  DecodeHookResult raw :=
    if String.eqb raw "swap" then Some (mkHookResult (Some (ReplaceRequest demoSwapped))) else None;
  ValidateFor _ := true
|}.

Definition swapper : beforePlugin :=
  mkBeforePlugin "swapper" "pass" (λ _, false) (λ _, mkGuestRun [] (Some "swap")).
Definition blocker : beforePlugin :=
  mkBeforePlugin "blocker" "pass" (λ _, false) (λ _, mkGuestRun [HCBlock 403 "refused" ""] None).
Definition latecomer : beforePlugin :=
  mkBeforePlugin "latecomer" "block" (λ _, true) (λ _, mkGuestRun [] (Some "garbage")).

Definition idle : pipeState := mkPipe (mkRuntime ∅ ∅) ∅.

Lemma forwarded_request_authorised_witness :
  ∃ st, authorisedSteps demoFields [swapper; blocker] demoAccepted st demoSwapped
    ∧ ToranaMetaJson demoSwapped = ToranaMetaJson demoAccepted.
Proof.
  destruct (forwarded_request_authorised demoFields None None 7 [swapper; blocker] None demoAccepted idle
    demoSwapped true
    (runBeforePlugins demoFields None None 7 [swapper; blocker] None demoAccepted false idle).2)
    as (st & H1 & H2 & _).
  - vm_compute. reflexivity.
  - by exists st.
Defined.

Lemma block_ends_chain_witness :
  ∃ pre lp post, [swapper; blocker; latecomer] = pre ++ lp :: post ∧ bp_name lp = "blocker".
Proof.
  destruct (block_ends_chain demoFields None None 7 [swapper; blocker; latecomer] None demoAccepted false idle
    (Ok (demoSwapped, true))
    (runBeforePlugins demoFields None None 7 [swapper; blocker; latecomer] None demoAccepted false idle).2
    (mkBlockVerdict "blocker" 403 "refused" "")) as (pre & lp & post & H1 & H2 & _).
  - reflexivity.
  - vm_compute. reflexivity.
  - vm_compute. reflexivity.
  - by exists pre, lp, post.
Defined.
