(* ===== verification/EngineRequest.v ===== *)
(** * The canonical request

    The engine-side request of internal/engine (types.go, block.go), which every
    provider format is parsed into, and the structural validator of
    internal/engine/pbconv/validate_engine.go that runs before a plugin sees
    it.  A block is a struct of pointers, so the type also holds blocks with no
    arm and with several arms: excluding them is the validator's work.  A float64
    is its bit pattern, a Go [int] a 64-bit integer, a pointer to a scalar an
    option.  JSON members are the wrappers of [RawJSON]. *)

From stdpp Require Import base list strings numbers.
From S2P Require Import Prelude StreamEvents Utf8 RawJSON.

Open Scope Z_scope.

(** ** Blocks (internal/engine/block.go) *)

Record engine_TextBlock := mkETextBlock
  { et_Text : string; et_Signature : string; et_PartMetadataJson : OptionalJSONObject }.
Record engine_ThinkingBlock := mkEThinkingBlock
  { eh_Text : string; eh_Signature : string; eh_PartMetadataJson : OptionalJSONObject }.
Record engine_RedactedThinkingBlock := mkERedacted { er_Data : string }.

Record engine_ToolUseBlock := mkEToolUse
  { eu_ID : string; eu_Name : string; eu_Arguments : RequiredJSONObject;
    eu_InputText : option string; eu_InvocationKind : Z; eu_Signature : string;
    eu_PartMetadataJson : OptionalJSONObject }.

Record engine_CacheBreakpointBlock := mkECache { ec_Marker : RequiredJSONObject }.

Record engine_UnknownBlock := mkEUnknown
  { ek_Kind : string; ek_Payload : RequiredJSONObject;
    ek_PartMetadataJson : OptionalJSONObject; ek_Signature : string }.

Record engine_ToolResultContentBlock := mkEContent
  { en_Text : string; en_Unknown : option engine_UnknownBlock;
    en_CacheBreakpoint : option engine_CacheBreakpointBlock }.

Record engine_ToolResultBlock := mkEToolResult
  { el_ToolCallID : string; el_ToolName : string; el_IsError : option bool;
    el_Content : list engine_ToolResultContentBlock; el_PartMetadataJson : OptionalJSONObject;
    el_WillContinue : option bool; el_Scheduling : option string; el_Signature : string;
    el_InvocationKind : Z }.

Record engine_TrailingSignatureBlock := mkETrailing
  { eg_Signature : string; eg_PartMetadataJson : OptionalJSONObject }.

Record engine_Block := mkEBlock {
  eb_Text : option engine_TextBlock;
  eb_Thinking : option engine_ThinkingBlock;
  eb_RedactedThinking : option engine_RedactedThinkingBlock;
  eb_ToolUse : option engine_ToolUseBlock;
  eb_ToolResult : option engine_ToolResultBlock;
  eb_CacheBreakpoint : option engine_CacheBreakpointBlock;
  eb_Unknown : option engine_UnknownBlock;
  eb_TrailingSignature : option engine_TrailingSignatureBlock
}.

(** The composite literals [engine.Block{Arm: x}]. *)
Definition blockText x := mkEBlock (Some x) None None None None None None None.
Definition blockThinking x := mkEBlock None (Some x) None None None None None None.
Definition blockRedactedThinking x := mkEBlock None None (Some x) None None None None None.
Definition blockToolUse x := mkEBlock None None None (Some x) None None None None.
Definition blockToolResult x := mkEBlock None None None None (Some x) None None None.
Definition blockCacheBreakpoint x := mkEBlock None None None None None (Some x) None None.
Definition blockUnknown x := mkEBlock None None None None None None (Some x) None.
Definition blockTrailingSignature x := mkEBlock None None None None None None None (Some x).

(** ** Requests (internal/engine/types.go) *)

Record engine_Message := mkEMessage { em_Role : string; em_Blocks : list engine_Block }.

Record engine_ToolDef := mkEToolDef
  { ed_Name : string; ed_Description : string; ed_Parameters : RequiredJSONObject;
    ed_Strict : bool; ed_CacheControl : OptionalJSONObject; ed_InvocationKind : Z;
    ed_InputFormat : RequiredJSONObject; ed_NamespacePath : list string }.

Record engine_OutputFormat := mkEOutputFormat
  { ef_Mode : Z; ef_Name : string; ef_Schema : OptionalJSONObject; ef_Strict : option bool }.

(** The host-only facts of a request, which never cross to a plugin. *)
Record TopologyFacts := mkTopology
  { CodeAssist : bool; OpenAIVariant : Z; ResponsesInstructions : bool;
    ResponsesInputLayout : OptionalJSONArray }.
Definition topology0 : TopologyFacts := mkTopology false 0 false (mkOptionalArray None).

Record engine_ChatRequest := mkERequest
  { eq_Model : string; eq_Messages : list engine_Message; eq_Tools : list engine_ToolDef;
    eq_Stream : bool; eq_MaxTokens : option Z; eq_Temperature : option N; eq_TopP : option N;
    eq_StopSequences : list string; eq_OutputFormat : option engine_OutputFormat;
    eq_SafetySettings : OptionalJSONArray; eq_ProviderExtensions : OptionalJSONObject;
    eq_ToranaMeta : OptionalJSONObject; eq_topology : TopologyFacts }.

(** [chat.CodeAssist = …] and its three siblings. *)
Definition withTopology (t : TopologyFacts) (c : engine_ChatRequest) : engine_ChatRequest :=
  mkERequest (eq_Model c) (eq_Messages c) (eq_Tools c) (eq_Stream c) (eq_MaxTokens c)
    (eq_Temperature c) (eq_TopP c) (eq_StopSequences c) (eq_OutputFormat c) (eq_SafetySettings c)
    (eq_ProviderExtensions c) (eq_ToranaMeta c) t.

(** [Message.TextBlocks] and [Message.Text]. *)
Definition TextBlocks (m : engine_Message) : list string :=
  omap (λ b, et_Text <$> eb_Text b) (em_Blocks m).
Definition Message_Text (m : engine_Message) : string := String.concat "" (TextBlocks m).

(** ** The structural validator (internal/engine/pbconv/validate_engine.go) *)

Inductive engineErr :=
| BadMaxTokens
| BadTemperature
| BadTopP
| BadBlock (i j : nat) (e : blockShapeErr)
| EmptyToolName (i : nat)
with blockShapeErr :=
| ZeroArms
| ManyArms (n : nat)
| EmptyNestedContent
| ConflictingContent (k n : nat).

Definition MaxInt32 : Z := 2147483647.

(** [math.IsNaN] and [math.IsInf(f, 0)] on the bits of a float64. *)
Definition exponentBits (f : N) : N := N.land (N.shiftr f 52) 2047.
Definition mantissaBits (f : N) : N := N.land f (N.pred (2 ^ 52)).
Definition IsNaN (f : N) : bool := N.eqb (exponentBits f) 2047 && negb (N.eqb (mantissaBits f) 0).
Definition IsInf (f : N) : bool := N.eqb (exponentBits f) 2047 && N.eqb (mantissaBits f) 0.

Definition present {A} (o : option A) : nat := if o is Some _ then 1%nat else 0%nat.

Definition arms (b : engine_Block) : nat :=
  (present (eb_Text b) + present (eb_Thinking b) + present (eb_RedactedThinking b)
   + present (eb_ToolUse b) + present (eb_ToolResult b) + present (eb_CacheBreakpoint b)
   + present (eb_Unknown b) + present (eb_TrailingSignature b))%nat.

Definition nestedArms (c : engine_ToolResultContentBlock) : nat :=
  ((if String.eqb (en_Text c) "" then 0 else 1) + present (en_Unknown c)
   + present (en_CacheBreakpoint c))%nat.

Fixpoint validateContents (k : nat) (cs : list engine_ToolResultContentBlock) : res blockShapeErr unit :=
  match cs with
  | [] => Ok tt
  | c :: cs' => if (1 <? nestedArms c)%nat then Err (ConflictingContent k (nestedArms c))
                else validateContents (S k) cs'
  end.

Definition validateEngineBlock (b : engine_Block) : res blockShapeErr unit :=
  match arms b with
  | O => Err ZeroArms
  | 1%nat =>
      match eb_ToolResult b with
      | Some tr => if bool_decide (el_Content tr = []) then Err EmptyNestedContent
                   else validateContents 0 (el_Content tr)
      | None => Ok tt
      end
  | n => Err (ManyArms n)
  end.

Fixpoint validateEngineMessage (i j : nat) (bs : list engine_Block) : res engineErr unit :=
  match bs with
  | [] => Ok tt
  | b :: bs' => _ ←? map_err (BadBlock i j) (validateEngineBlock b); validateEngineMessage i (S j) bs'
  end.

Fixpoint validateMessages (i : nat) (ms : list engine_Message) : res engineErr unit :=
  match ms with
  | [] => Ok tt
  | m :: ms' => _ ←? validateEngineMessage i 0 (em_Blocks m); validateMessages (S i) ms'
  end.

Fixpoint validateToolNames (i : nat) (ts : list engine_ToolDef) : res engineErr unit :=
  match ts with
  | [] => Ok tt
  | t :: ts' => if String.eqb (ed_Name t) "" then Err (EmptyToolName i) else validateToolNames (S i) ts'
  end.

Definition badFloat (f : option N) : bool :=
  if f is Some f then IsNaN f || IsInf f else false.

Definition badMaxTokens (n : option Z) : bool :=
  if n is Some n then (n <? 1) || (MaxInt32 <? n) else false.

Definition ValidateEngineRequest (c : engine_ChatRequest) : res engineErr unit :=
  if badMaxTokens (eq_MaxTokens c) then Err BadMaxTokens
  else if badFloat (eq_Temperature c) then Err BadTemperature
  else if badFloat (eq_TopP c) then Err BadTopP
  else
    _ ←? validateMessages 0 (eq_Messages c);
    validateToolNames 0 (eq_Tools c).

(** ** What it accepts *)

(** A nested element holds one of text, unknown content and a breakpoint. *)
Definition contentShape (c : engine_ToolResultContentBlock) : Prop := (nestedArms c ≤ 1)%nat.

(** Exactly one arm, and a tool result with a body. *)
Inductive blockShape : engine_Block → Prop :=
| shape_text x : blockShape (blockText x)
| shape_thinking x : blockShape (blockThinking x)
| shape_redacted x : blockShape (blockRedactedThinking x)
| shape_tool_use x : blockShape (blockToolUse x)
| shape_tool_result x :
    el_Content x ≠ [] → Forall contentShape (el_Content x) → blockShape (blockToolResult x)
| shape_cache x : blockShape (blockCacheBreakpoint x)
| shape_unknown x : blockShape (blockUnknown x)
| shape_trailing x : blockShape (blockTrailingSignature x).

Lemma validateContents_ok k cs : validateContents k cs = Ok tt ↔ Forall contentShape cs.
Proof.
  revert k; induction cs as [|c cs IH]; intros k; simpl; [by split|].
  rewrite Forall_cons_iff, <- (IH (S k)). unfold contentShape. destruct (Nat.ltb_spec 1 (nestedArms c)).
  - split; [done|]. intros [? _]; lia.
  - split; [|by intros [_ ?]]. intros. split; [lia|done].
Qed.

Lemma validateEngineBlock_ok b : validateEngineBlock b = Ok tt ↔ blockShape b.
Proof.
  split.
  - destruct b as [[] [] [] [] [tr|] [] [] []]; unfold validateEngineBlock; simpl;
      try done; try by constructor.
    case_dec; [done|]. rewrite validateContents_ok. by constructor.
  - destruct 1 as [| | | |x Hne Hc| | |]; try done. unfold validateEngineBlock; simpl.
    rewrite bool_decide_eq_false_2 by done. by apply validateContents_ok.
Qed.

Lemma validateEngineMessage_ok i j bs : validateEngineMessage i j bs = Ok tt ↔ Forall blockShape bs.
Proof.
  revert j; induction bs as [|b bs IH]; intros j; simpl; [by split|].
  rewrite Forall_cons_iff, <- (IH (S j)), <- validateEngineBlock_ok.
  destruct (validateEngineBlock b) as [[]|]; simpl; naive_solver.
Qed.

Lemma validateMessages_ok i ms :
  validateMessages i ms = Ok tt ↔ Forall (λ m, Forall blockShape (em_Blocks m)) ms.
Proof.
  revert i; induction ms as [|m ms IH]; intros i; simpl; [by split|].
  rewrite Forall_cons_iff, <- (IH (S i)), <- (validateEngineMessage_ok i 0), res_bind_ok.
  split; [by intros ([] & ? & ?)|intros []; by exists tt].
Qed.

Lemma validateToolNames_ok i ts : validateToolNames i ts = Ok tt ↔ Forall (λ t, ed_Name t ≠ "") ts.
Proof.
  revert i; induction ts as [|t ts IH]; intros i; simpl; [by split|].
  rewrite Forall_cons_iff, <- (IH (S i)). destruct (String.eqb_spec (ed_Name t) ""); naive_solver.
Qed.

Lemma nan_or_inf f : IsNaN f || IsInf f = N.eqb (exponentBits f) 2047.
Proof. unfold IsNaN, IsInf. by destruct (N.eqb _ _), (N.eqb _ _). Qed.

Definition finite (f : N) : Prop := exponentBits f ≠ 2047%N.

(** The closed domain of the conversion: one arm per block, bodies of tool
    results, finite parameters, a positive 32-bit token limit, named tools. *)
Lemma ValidateEngineRequest_ok c :
  ValidateEngineRequest c = Ok tt ↔
  (∀ n, eq_MaxTokens c = Some n → 1 ≤ n ≤ MaxInt32) ∧
  (∀ f, eq_Temperature c = Some f → finite f) ∧ (∀ f, eq_TopP c = Some f → finite f) ∧
  Forall (λ m, Forall blockShape (em_Blocks m)) (eq_Messages c) ∧
  Forall (λ t, ed_Name t ≠ "") (eq_Tools c).
Proof.
  assert (Hf : ∀ o, badFloat o = false ↔ ∀ f, o = Some f → finite f).
  { intros [f|]; [|by split]. unfold badFloat. rewrite nan_or_inf, N.eqb_neq.
    split; [by intros ? ? [= <-]|intros H; by apply H]. }
  assert (Hn : badMaxTokens (eq_MaxTokens c) = false ↔ ∀ n, eq_MaxTokens c = Some n → 1 ≤ n ≤ MaxInt32).
  { destruct (eq_MaxTokens c) as [n|]; [|by split]. unfold badMaxTokens.
    rewrite orb_false_iff, !Z.ltb_ge. split; [by intros ? ? [= <-]|intros H; by apply H]. }
  unfold ValidateEngineRequest.
  rewrite <- Hn, <- (Hf (eq_Temperature c)), <- (Hf (eq_TopP c)), <- (validateMessages_ok 0), <- (validateToolNames_ok 0).
  destruct (badMaxTokens _), (badFloat (eq_Temperature c)), (badFloat (eq_TopP c));
    try (split; [discriminate|intros (? & ? & ? & _); discriminate]).
  rewrite res_bind_ok. split; [intros ([] & ? & ?)|intros (_ & _ & _ & ? & ?); exists tt]; auto.
Qed.
