(* ===== verification/RequestConv.v ===== *)
(** * Engine requests and plugin requests

    The request half of internal/engine/pbconv: [toPBChatRequest] and
    [FromPBChatRequest] with their message, block and content helpers, and the
    checked boundary of validate_engine.go.  The SDK's validators
    ([ValidateReplacement], [OutputFormat.Validate]) are parameters.

    The projections at the end say what a trip through the other representation
    leaves of a value: that is the specification of the round trips. *)

From stdpp Require Import base list strings numbers.
From S2P Require Import Prelude StreamEvents Utf8 RawJSON EngineRequest ByteStrings RequestIR.

Open Scope Z_scope.

(** ** Bytes fields *)

(** A nil slice and an empty one are the same bytes field. *)
Definition pbBytes (b : option bytes) : string := bstr (default [] b).
Definition optionalBytes (o : OptionalJSONObject) : string := pbBytes (OptionalObject_Bytes o).
Definition requiredBytes (r : RequiredJSONObject) : string := bstr (RequiredObject_Bytes r).

(** ** Engine to plugin *)

Definition toPBContent (c : engine_ToolResultContentBlock) : ToolResultContentBlock :=
  mkTRC
    (if en_Unknown c is Some u then TRUnknown (ek_Kind u) (requiredBytes (ek_Payload u)) ""
     else if en_CacheBreakpoint c is Some cb then TRCacheBreakpoint (requiredBytes (ec_Marker cb)) ""
     else TRText (en_Text c) "") "".

Definition toPBToolUse (u : engine_ToolUseBlock) : RequestToolUseBlock :=
  let freeform := eu_InvocationKind u =? ToolInvocationFreeform in
  mkToolUse (eu_ID u) (eu_Name u)
    (if freeform then "" else requiredBytes (eu_Arguments u))
    (eu_Signature u) (optionalBytes (eu_PartMetadataJson u))
    (if freeform then eu_InputText u else None)
    (int32_of (eu_InvocationKind u)) "".

Definition toPBToolResult (r : engine_ToolResultBlock) : RequestToolResultBlock :=
  mkToolResult (el_ToolCallID r) (el_ToolName r) (toPBContent <$> el_Content r)
    (optionalBytes (el_PartMetadataJson r)) (el_WillContinue r) (el_Scheduling r)
    (el_Signature r) (int32_of (el_InvocationKind r)) (el_IsError r) "".

(** The switch of [toPBMessage]: the first arm that is set. *)
Definition toPBKind (b : engine_Block) : RequestBlockKind :=
  if eb_Text b is Some x then
    RBText (mkText (et_Text x) (et_Signature x) (optionalBytes (et_PartMetadataJson x)) "")
  else if eb_Thinking b is Some x then
    RBThinking (mkThinking (eh_Text x) (eh_Signature x) (optionalBytes (eh_PartMetadataJson x)) "")
  else if eb_RedactedThinking b is Some x then RBRedactedThinking (mkRedacted (er_Data x) "")
  else if eb_ToolUse b is Some x then RBToolUse (toPBToolUse x)
  else if eb_ToolResult b is Some x then RBToolResult (toPBToolResult x)
  else if eb_CacheBreakpoint b is Some x then
    RBCacheBreakpoint (mkCache (requiredBytes (ec_Marker x)) "")
  else if eb_Unknown b is Some x then
    RBUnknown (mkUnknown (ek_Kind x) (requiredBytes (ek_Payload x))
                 (optionalBytes (ek_PartMetadataJson x)) (ek_Signature x) "")
  else if eb_TrailingSignature b is Some x then
    RBTrailingSignature (mkTrailing (eg_Signature x) (optionalBytes (eg_PartMetadataJson x)) "")
  else RBUnset.

Definition toPBMessage (m : engine_Message) : Message :=
  mkMessage (em_Role m) ((λ b, mkBlock (toPBKind b) "") <$> em_Blocks m) "".

Definition toPBToolDef (t : engine_ToolDef) : ToolDef :=
  let freeform := ed_InvocationKind t =? ToolInvocationFreeform in
  mkToolDef (ed_Name t) (ed_Description t)
    (if freeform then "" else requiredBytes (ed_Parameters t))
    (ed_Strict t) (optionalBytes (ed_CacheControl t)) (int32_of (ed_InvocationKind t))
    (if freeform then requiredBytes (ed_InputFormat t) else "")
    (ed_NamespacePath t) "".

Definition toPBOutputFormat (f : engine_OutputFormat) : OutputFormat :=
  mkOutputFormat (ef_Mode f) (ef_Name f) (optionalBytes (ef_Schema f)) (ef_Strict f) "".

Definition toPBChatRequest (c : engine_ChatRequest) : ChatRequest :=
  mkChatRequest (eq_Model c) (toPBMessage <$> eq_Messages c) (toPBToolDef <$> eq_Tools c)
    (eq_Stream c) (int32_of <$> eq_MaxTokens c) (eq_Temperature c) (eq_TopP c) (eq_StopSequences c)
    (optionalBytes (eq_ProviderExtensions c)) (pbBytes (OptionalArray_Bytes (eq_SafetySettings c)))
    (toPBOutputFormat <$> eq_OutputFormat c) (optionalBytes (eq_ToranaMeta c)) "".

(** ** Plugin to engine *)

Inductive contentErr := ContentNoArm | ContentPayload (e : jsonErr) | ContentMarker (e : jsonErr).

Inductive blockErr :=
| BlockNoArm
| BlockMetadata (arm : string) (e : jsonErr)
| BlockArguments (e : jsonErr)
| BlockMarker (e : jsonErr)
| BlockPayload (e : jsonErr)
| BlockContent (c : nat) (e : contentErr).

Inductive convErr :=
| ConvFormat (e : string)
| ConvSchema (e : jsonErr)
| ConvExtensions (e : jsonErr)
| ConvSafety (e : jsonErr)
| ConvMeta (e : jsonErr)
| ConvBlock (j : nat) (e : blockErr)
| ConvToolInput (name : string) (e : jsonErr)
| ConvToolParameters (name : string) (e : jsonErr)
| ConvToolCache (name : string) (e : jsonErr).

(** A loop that converts every element and reports the first failure with its
    index. *)
Fixpoint mapiM {E F A B} (w : nat → E → F) (f : A → res E B) (i : nat) (l : list A) : res F (list B) :=
  match l with
  | [] => Ok []
  | x :: l' => y ←? map_err (w i) (f x); ys ←? mapiM w f (S i) l'; Ok (y :: ys)
  end.

Lemma mapiM_ok {E F A B} (w : nat → E → F) (f : A → res E B) i l ys :
  mapiM w f i l = Ok ys ↔ Forall2 (λ x y, f x = Ok y) l ys.
Proof.
  revert i ys; induction l as [|x l IH]; intros i ys; simpl.
  - split; [intros [= <-]; constructor|]. by intros ->%Forall2_nil_inv_l.
  - split.
    + intros H. inv_ok. constructor; [done|]. by eapply IH.
    + intros (y & ys' & Hy & Hys & ->)%Forall2_cons_inv_l. rewrite Hy. simpl.
      by rewrite (proj2 (IH (S i) ys') Hys).
Qed.

(** The SDK's validators of a whole replacement and of an output format. *)
Class ReplacementSDK := {
  ValidateReplacement : ChatRequest → res string unit;
  OutputFormat_Validate : OutputFormat → res string unit
}.

Section Conversion.
Context `{V : JSONText} {SDK : ReplacementSDK}.

Definition pbPartMetadata (raw arm : string) : res blockErr OptionalJSONObject :=
  map_err (BlockMetadata arm) (ParseOptionalJSONObject (lit raw)).

Definition fromPBToolResultContent (cb : ToolResultContentBlock)
    : res contentErr engine_ToolResultContentBlock :=
  match trc_kind cb with
  | TRText text _ => Ok (mkEContent text None None)
  | TRUnknown kind payload_json _ =>
      payload ←? map_err ContentPayload (ParseRequiredJSONObject (lit payload_json));
      Ok (mkEContent "" (Some (mkEUnknown kind payload (mkOptionalObject None) "")) None)
  | TRCacheBreakpoint marker_json _ =>
      marker ←? map_err ContentMarker (ParseRequiredJSONObject (lit marker_json));
      Ok (mkEContent "" None (Some (mkECache marker)))
  | TRUnset => Err ContentNoArm
  end.

Definition fromPBToolUse (k : RequestToolUseBlock) : res blockErr engine_Block :=
  args ←? (if negb (tu_invocation_kind k =? ToolInvocationFreeform)
           then map_err BlockArguments (ParseRequiredObjectOrEmpty (lit (tu_arguments_json k)))
           else Ok (mkRequiredObject None));
  pm ←? pbPartMetadata (tu_part_metadata_json k) "tool_use";
  Ok (blockToolUse (mkEToolUse (tu_id k) (tu_name k) args (tu_input_text k) (tu_invocation_kind k)
                      (tu_signature k) pm)).

Definition fromPBToolResult (k : RequestToolResultBlock) : res blockErr engine_Block :=
  pm ←? pbPartMetadata (tr_part_metadata_json k) "tool_result";
  content ←? mapiM BlockContent fromPBToolResultContent 0 (tr_content k);
  Ok (blockToolResult (mkEToolResult (tr_tool_call_id k) (tr_tool_name k) (tr_is_error k) content pm
                         (tr_will_continue k) (tr_scheduling k) (tr_signature k) (tr_invocation_kind k))).

Definition fromPBBlock (b : RequestBlock) : res blockErr engine_Block :=
  match rb_kind b with
  | RBText k =>
      pm ←? pbPartMetadata (tx_part_metadata_json k) "text";
      Ok (blockText (mkETextBlock (tx_text k) (tx_signature k) pm))
  | RBThinking k =>
      pm ←? pbPartMetadata (th_part_metadata_json k) "thinking";
      Ok (blockThinking (mkEThinkingBlock (th_text k) (th_signature k) pm))
  | RBRedactedThinking k => Ok (blockRedactedThinking (mkERedacted (rd_data k)))
  | RBToolUse k => fromPBToolUse k
  | RBToolResult k => fromPBToolResult k
  | RBCacheBreakpoint k =>
      marker ←? map_err BlockMarker (ParseRequiredJSONObject (lit (cb_marker_json k)));
      Ok (blockCacheBreakpoint (mkECache marker))
  | RBUnknown k =>
      payload ←? map_err BlockPayload (ParseRequiredJSONObject (lit (uk_payload_json k)));
      pm ←? pbPartMetadata (uk_part_metadata_json k) "unknown";
      Ok (blockUnknown (mkEUnknown (uk_kind k) payload pm (uk_signature k)))
  | RBTrailingSignature k =>
      pm ←? pbPartMetadata (ts_part_metadata_json k) "trailing_signature";
      Ok (blockTrailingSignature (mkETrailing (ts_signature k) pm))
  | RBRefusal _ _ | RBUnset => Err BlockNoArm
  end.

Definition fromPBMessage (m : Message) : res convErr engine_Message :=
  blocks ←? mapiM ConvBlock fromPBBlock 0 (m_blocks m); Ok (mkEMessage (m_role m) blocks).

(** [if len(raw) > 0 { v, err := ParseOptional…(raw) }]: the zero wrapper for
    an empty field. *)
Definition parsePresentObject (w : jsonErr → convErr) (raw : string) : res convErr OptionalJSONObject :=
  if String.eqb raw "" then Ok (mkOptionalObject None) else map_err w (ParseOptionalJSONObject (lit raw)).
Definition parsePresentArray (w : jsonErr → convErr) (raw : string) : res convErr OptionalJSONArray :=
  if String.eqb raw "" then Ok (mkOptionalArray None) else map_err w (ParseOptionalJSONArray (lit raw)).

Definition fromPBToolDef (t : ToolDef) : res convErr engine_ToolDef :=
  '(params, inputFormat) ←?
    (if td_invocation_kind t =? ToolInvocationFreeform then
       f ←? map_err (ConvToolInput (td_name t)) (ParseRequiredJSONObject (lit (td_input_format_json t)));
       Ok (mkRequiredObject None, f)
     else
       p ←? map_err (ConvToolParameters (td_name t)) (ParseRequiredObjectOrEmpty (lit (td_parameters_json t)));
       Ok (p, mkRequiredObject None));
  cc ←? parsePresentObject (ConvToolCache (td_name t)) (td_cache_control_json t);
  Ok (mkEToolDef (td_name t) (td_description t) params (td_strict t) cc (td_invocation_kind t)
        inputFormat (td_namespace_path t)).

Definition fromPBOutputFormat (f : OutputFormat) : res convErr engine_OutputFormat :=
  _ ←? map_err ConvFormat (OutputFormat_Validate f);
  schema ←? map_err ConvSchema (ParseOptionalJSONObject (lit (of_schema_json f)));
  Ok (mkEOutputFormat (of_mode f) (of_name f) schema (of_strict f)).

Definition FromPBChatRequest (c : ChatRequest) : res convErr engine_ChatRequest :=
  format ←? (match OutputFormat_ c with
             | Some f => f' ←? fromPBOutputFormat f; Ok (Some f')
             | None => Ok None
             end);
  ext ←? parsePresentObject ConvExtensions (ProviderExtensionsJson c);
  safety ←? parsePresentArray ConvSafety (SafetySettingsJson c);
  meta ←? parsePresentObject ConvMeta (ToranaMetaJson c);
  messages ←? mapiM (λ _ e, e) fromPBMessage 0 (Messages c);
  tools ←? mapiM (λ _ e, e) fromPBToolDef 0 (Tools c);
  Ok (mkERequest (Model c) messages tools (Stream c) (MaxTokens c) (Temperature c) (TopP c)
        (StopSequences c) format safety ext meta topology0).

(** ** The checked boundary (validate_engine.go) *)

Inductive fullErr := InvalidEngine (e : engineErr) | FailsReplacement (e : string).

Definition ValidateFullRequest (c : engine_ChatRequest) : res fullErr unit :=
  _ ←? map_err InvalidEngine (ValidateEngineRequest c);
  map_err FailsReplacement (ValidateReplacement (toPBChatRequest c)).

Definition ToPBChatRequestChecked (c : engine_ChatRequest) : res fullErr ChatRequest :=
  _ ←? ValidateFullRequest c; Ok (toPBChatRequest c).
End Conversion.
