(* ===== verification/RequestConvProofs.v ===== *)
(** * Round trips of the request conversion

    What is left of an engine request after a trip to the plugin ABI and back
    ([projectRequest]), and of a plugin's request after a trip to the engine
    and back ([canonicalRequest]).  Both are written on the data, without the
    conversions; the theorems say the conversions compute them. *)

From stdpp Require Import base list strings numbers.
From S2P Require Import Prelude StreamEvents Utf8 RawJSON EngineRequest ByteStrings RequestIR RequestConv.

Open Scope Z_scope.

(** ** Projections of an engine request *)

Definition absentObject : OptionalJSONObject := mkOptionalObject None.
Definition zeroObject : RequiredJSONObject := mkRequiredObject None.

(** A required object is stored with its bytes, [{}] included. *)
Definition spelled (r : RequiredJSONObject) : RequiredJSONObject :=
  mkRequiredObject (Some (RequiredObject_Bytes r)).

Definition isFreeform (kind : Z) : bool := kind =? ToolInvocationFreeform.

(** Nested unknown content has no metadata and no token in the ABI. *)
Definition projectContent (c : engine_ToolResultContentBlock) : engine_ToolResultContentBlock :=
  mkEContent (en_Text c)
    ((λ u, mkEUnknown (ek_Kind u) (spelled (ek_Payload u)) absentObject "") <$> en_Unknown c)
    ((λ b, mkECache (spelled (ec_Marker b))) <$> en_CacheBreakpoint c).

(** A free-form call has input text and no arguments, a function call the
    converse. *)
Definition projectToolUse (u : engine_ToolUseBlock) : engine_ToolUseBlock :=
  mkEToolUse (eu_ID u) (eu_Name u)
    (if isFreeform (eu_InvocationKind u) then zeroObject else spelled (eu_Arguments u))
    (if isFreeform (eu_InvocationKind u) then eu_InputText u else None)
    (eu_InvocationKind u) (eu_Signature u) (eu_PartMetadataJson u).

Definition projectToolResult (r : engine_ToolResultBlock) : engine_ToolResultBlock :=
  mkEToolResult (el_ToolCallID r) (el_ToolName r) (el_IsError r) (projectContent <$> el_Content r)
    (el_PartMetadataJson r) (el_WillContinue r) (el_Scheduling r) (el_Signature r) (el_InvocationKind r).

Definition projectUnknown (u : engine_UnknownBlock) : engine_UnknownBlock :=
  mkEUnknown (ek_Kind u) (spelled (ek_Payload u)) (ek_PartMetadataJson u) (ek_Signature u).

(** Arm by arm: no arm and no order is lost. *)
Definition projectBlock (b : engine_Block) : engine_Block :=
  mkEBlock (eb_Text b) (eb_Thinking b) (eb_RedactedThinking b) (projectToolUse <$> eb_ToolUse b)
    (projectToolResult <$> eb_ToolResult b) ((λ x, mkECache (spelled (ec_Marker x))) <$> eb_CacheBreakpoint b)
    (projectUnknown <$> eb_Unknown b) (eb_TrailingSignature b).

Definition projectMessage (m : engine_Message) : engine_Message :=
  mkEMessage (em_Role m) (projectBlock <$> em_Blocks m).

Definition projectToolDef (t : engine_ToolDef) : engine_ToolDef :=
  mkEToolDef (ed_Name t) (ed_Description t)
    (if isFreeform (ed_InvocationKind t) then zeroObject else spelled (ed_Parameters t))
    (ed_Strict t) (ed_CacheControl t) (ed_InvocationKind t)
    (if isFreeform (ed_InvocationKind t) then spelled (ed_InputFormat t) else zeroObject)
    (ed_NamespacePath t).

Definition projectRequest (c : engine_ChatRequest) : engine_ChatRequest :=
  mkERequest (eq_Model c) (projectMessage <$> eq_Messages c) (projectToolDef <$> eq_Tools c)
    (eq_Stream c) (eq_MaxTokens c) (eq_Temperature c) (eq_TopP c) (eq_StopSequences c)
    (eq_OutputFormat c) (eq_SafetySettings c) (eq_ProviderExtensions c) (eq_ToranaMeta c) topology0.

(** ** Projections of a plugin request *)

Definition orEmptyObject (raw : string) : string := if String.eqb raw "" then "{}" else raw.

Definition canonicalContent (c : ToolResultContentBlock) : ToolResultContentBlock :=
  mkTRC match trc_kind c with
        | TRText t _ => TRText t ""
        | TRUnknown k p _ => TRUnknown k p ""
        | TRCacheBreakpoint m _ => TRCacheBreakpoint m ""
        | TRUnset => TRUnset
        end "".

Definition canonicalToolUse (k : RequestToolUseBlock) : RequestToolUseBlock :=
  mkToolUse (tu_id k) (tu_name k)
    (if isFreeform (tu_invocation_kind k) then "" else orEmptyObject (tu_arguments_json k))
    (tu_signature k) (tu_part_metadata_json k)
    (if isFreeform (tu_invocation_kind k) then tu_input_text k else None) (tu_invocation_kind k) "".

Definition canonicalKind (k : RequestBlockKind) : RequestBlockKind :=
  match k with
  | RBText k => RBText (mkText (tx_text k) (tx_signature k) (tx_part_metadata_json k) "")
  | RBThinking k => RBThinking (mkThinking (th_text k) (th_signature k) (th_part_metadata_json k) "")
  | RBRedactedThinking k => RBRedactedThinking (mkRedacted (rd_data k) "")
  | RBToolUse k => RBToolUse (canonicalToolUse k)
  | RBToolResult k =>
      RBToolResult (mkToolResult (tr_tool_call_id k) (tr_tool_name k) (canonicalContent <$> tr_content k)
        (tr_part_metadata_json k) (tr_will_continue k) (tr_scheduling k) (tr_signature k)
        (tr_invocation_kind k) (tr_is_error k) "")
  | RBCacheBreakpoint k => RBCacheBreakpoint (mkCache (cb_marker_json k) "")
  | RBUnknown k =>
      RBUnknown (mkUnknown (uk_kind k) (uk_payload_json k) (uk_part_metadata_json k) (uk_signature k) "")
  | RBTrailingSignature k => RBTrailingSignature (mkTrailing (ts_signature k) (ts_part_metadata_json k) "")
  | k => k
  end.

Definition canonicalMessage (m : Message) : Message :=
  mkMessage (m_role m) ((λ b, mkBlock (canonicalKind (rb_kind b)) "") <$> m_blocks m) "".

Definition canonicalToolDef (t : ToolDef) : ToolDef :=
  mkToolDef (td_name t) (td_description t)
    (if isFreeform (td_invocation_kind t) then "" else orEmptyObject (td_parameters_json t))
    (td_strict t) (td_cache_control_json t) (td_invocation_kind t)
    (if isFreeform (td_invocation_kind t) then td_input_format_json t else "")
    (td_namespace_path t) "".

Definition canonicalRequest (c : ChatRequest) : ChatRequest :=
  mkChatRequest (Model c) (canonicalMessage <$> Messages c) (canonicalToolDef <$> Tools c) (Stream c)
    (MaxTokens c) (Temperature c) (TopP c) (StopSequences c) (ProviderExtensionsJson c)
    (SafetySettingsJson c)
    ((λ f, mkOutputFormat (of_mode f) (of_name f) (of_schema_json f) (of_strict f) "") <$> OutputFormat_ c)
    (ToranaMetaJson c) "".

(** The 32-bit fields of a plugin request hold 32-bit values. *)
Definition narrowKind (k : RequestBlockKind) : Prop :=
  match k with
  | RBToolUse k => in_int32 (tu_invocation_kind k) = true
  | RBToolResult k => in_int32 (tr_invocation_kind k) = true
  | _ => True
  end.

Definition narrowRequest (c : ChatRequest) : Prop :=
  (∀ n, MaxTokens c = Some n → in_int32 n = true) ∧
  Forall (λ m, Forall (λ b, narrowKind (rb_kind b)) (m_blocks m)) (Messages c) ∧
  Forall (λ t, in_int32 (td_invocation_kind t) = true) (Tools c).

(** ** Loops over elements *)

Lemma Forall2_fmap_ok {E A B C} (f : A → B) (g : B → res E C) (h : A → C) (P : A → Prop) (l : list A) :
  (∀ x, P x → g (f x) = Ok (h x)) → Forall P l → Forall2 (λ x y, g x = Ok y) (f <$> l) (h <$> l).
Proof. intros H. induction 1; simpl; constructor; auto. Qed.

Lemma mapiM_fmap {E F A B C} (w : nat → E → F) (f : A → B) (g : B → res E C) (h : A → C) (P : A → Prop) i l :
  (∀ x, P x → g (f x) = Ok (h x)) → Forall P l → mapiM w g i (f <$> l) = Ok (h <$> l).
Proof. intros H Hl. apply mapiM_ok. by eapply Forall2_fmap_ok. Qed.

Lemma mapiM_back {E F A B} (w : nat → E → F) (f : A → res E B) (g : B → A) (h : A → A)
    (P : A → Prop) (Q : B → Prop) i l ys :
  (∀ x y, P x → f x = Ok y → g y = h x ∧ Q y) → Forall P l → mapiM w f i l = Ok ys →
  g <$> ys = h <$> l ∧ Forall Q ys.
Proof.
  intros H Hl Hm. apply mapiM_ok in Hm. revert Hl. induction Hm as [|x y l ys Hx _ IH]; [done|].
  intros [Hp Hl]%Forall_cons_iff. destruct (H x y Hp Hx) as [H1 H2], (IH Hl) as [H3 H4].
  rewrite !fmap_cons. split; [by f_equal|by constructor].
Qed.

Section RoundTrip.
Context `{V : JSONText} {SDK : ReplacementSDK}.

(** ** Well-formed wrappers: absent, or validated bytes *)

Definition objectBytes (b : bytes) : Prop := Forall isByte b ∧ validateObjectShape b = Ok tt.

Definition optionalWf (o : OptionalJSONObject) : Prop :=
  if oo_bytes o is Some b then objectBytes b else True.
Definition requiredWf (r : RequiredJSONObject) : Prop :=
  if ro_bytes r is Some b then objectBytes b else True.
Definition arrayWf (a : OptionalJSONArray) : Prop :=
  if oa_bytes a is Some b then Forall isByte b ∧ validateArray b false = Ok (Some b) else True.

Definition contentWf (c : engine_ToolResultContentBlock) : Prop :=
  (if en_Unknown c is Some u then requiredWf (ek_Payload u) else True) ∧
  (if en_CacheBreakpoint c is Some b then requiredWf (ec_Marker b) else True).

Definition blockWf (b : engine_Block) : Prop :=
  (if eb_Text b is Some x then optionalWf (et_PartMetadataJson x) else True) ∧
  (if eb_Thinking b is Some x then optionalWf (eh_PartMetadataJson x) else True) ∧
  (if eb_ToolUse b is Some x then
     requiredWf (eu_Arguments x) ∧ optionalWf (eu_PartMetadataJson x)
     ∧ in_int32 (eu_InvocationKind x) = true else True) ∧
  (if eb_ToolResult b is Some x then
     Forall contentWf (el_Content x) ∧ optionalWf (el_PartMetadataJson x)
     ∧ in_int32 (el_InvocationKind x) = true else True) ∧
  (if eb_CacheBreakpoint b is Some x then requiredWf (ec_Marker x) else True) ∧
  (if eb_Unknown b is Some x then requiredWf (ek_Payload x) ∧ optionalWf (ek_PartMetadataJson x) else True) ∧
  (if eb_TrailingSignature b is Some x then optionalWf (eg_PartMetadataJson x) else True).

Definition toolWf (t : engine_ToolDef) : Prop :=
  requiredWf (ed_Parameters t) ∧ requiredWf (ed_InputFormat t) ∧ optionalWf (ed_CacheControl t)
  ∧ in_int32 (ed_InvocationKind t) = true.

Definition requestWf (c : engine_ChatRequest) : Prop :=
  Forall (λ m, Forall blockWf (em_Blocks m)) (eq_Messages c) ∧ Forall toolWf (eq_Tools c) ∧
  (if eq_OutputFormat c is Some f then optionalWf (ef_Schema f) else True) ∧
  arrayWf (eq_SafetySettings c) ∧ optionalWf (eq_ProviderExtensions c) ∧ optionalWf (eq_ToranaMeta c).

(** The canonical empty object is a JSON text, and a replacement the SDK
    accepts has an output format it accepts. *)
Class ReplacementLaws : Prop := {
  validate_empty : Validate emptyObject = Ok tt;
  validate_format : ∀ r f, ValidateReplacement r = Ok tt → OutputFormat_ r = Some f →
    OutputFormat_Validate f = Ok tt }.
Context {L : ReplacementLaws}.

(** ** Parsing what was written *)

Lemma shape_nonempty b : validateObjectShape b = Ok tt → b ≠ [].
Proof. intros H ->. discriminate H. Qed.

Lemma validateObject_bytes b a : validateObjectShape b = Ok tt → validateObject b a = Ok (Some b).
Proof.
  intros H. unfold validateObject. rewrite bool_decide_eq_false_2 by by apply shape_nonempty.
  by rewrite H.
Qed.

Lemma empty_object_bytes : objectBytes emptyObject.
Proof.
  split; [repeat constructor; done|]. unfold validateObjectShape, validate. simpl.
  by rewrite validate_empty.
Qed.

Lemma required_object r : requiredWf r → objectBytes (RequiredObject_Bytes r).
Proof.
  unfold requiredWf, RequiredObject_Bytes. destruct (ro_bytes r); simpl; [done|].
  intros _. apply empty_object_bytes.
Qed.

Lemma parse_required r : requiredWf r → ParseRequiredJSONObject (lit (requiredBytes r)) = Ok (spelled r).
Proof.
  intros [Hb Hv]%required_object. unfold requiredBytes, ParseRequiredJSONObject.
  by rewrite lit_bstr, validateObject_bytes.
Qed.

Lemma parse_required_or_empty r :
  requiredWf r → ParseRequiredObjectOrEmpty (lit (requiredBytes r)) = Ok (spelled r).
Proof.
  intros Hr. unfold ParseRequiredObjectOrEmpty. rewrite bool_decide_eq_false_2; [by apply parse_required|].
  destruct (required_object r Hr) as [Hb Hv]. unfold requiredBytes. rewrite lit_bstr by done.
  by apply shape_nonempty.
Qed.

Lemma parse_optional o : optionalWf o → ParseOptionalJSONObject (lit (optionalBytes o)) = Ok o.
Proof.
  destruct o as [[b|]]; [|done]. intros [Hb Hv].
  unfold ParseOptionalJSONObject, optionalBytes, pbBytes; simpl.
  by rewrite lit_bstr, validateObject_bytes.
Qed.

Lemma parse_metadata arm o : optionalWf o → pbPartMetadata (optionalBytes o) arm = Ok o.
Proof. intros H. unfold pbPartMetadata. by rewrite parse_optional. Qed.

Lemma present_object w o : optionalWf o → parsePresentObject w (optionalBytes o) = Ok o.
Proof.
  intros H. unfold parsePresentObject. destruct (String.eqb_spec (optionalBytes o) "") as [He|].
  - pose proof (parse_optional o H) as Hp. rewrite He in Hp. by injection Hp as <-.
  - by rewrite parse_optional.
Qed.

Lemma present_array w a : arrayWf a → parsePresentArray w (pbBytes (OptionalArray_Bytes a)) = Ok a.
Proof.
  destruct a as [[b|]]; [|done]. intros [Hb Hv]. unfold parsePresentArray, pbBytes; simpl.
  assert (Hn : b ≠ []) by (intros ->; discriminate Hv).
  destruct (String.eqb_spec (bstr b) "") as [He|]; [by destruct b|].
  unfold ParseOptionalJSONArray. rewrite lit_bstr by done. unfold validateArray in *.
  rewrite bool_decide_eq_false_2 in Hv |- * by done. by rewrite Hv.
Qed.

(** ** Engine to plugin and back *)

Lemma content_round_trip c :
  contentWf c ∧ contentShape c → fromPBToolResultContent (toPBContent c) = Ok (projectContent c).
Proof.
  destruct c as [t [u|] [b|]]; intros [[Hu Hb] Hs]; unfold contentShape, nestedArms in Hs; simpl in Hs;
    try lia; unfold fromPBToolResultContent, toPBContent, projectContent; simpl in *.
  - rewrite parse_required by done. simpl. destruct (String.eqb_spec t ""); [by subst|lia].
  - rewrite parse_required by done. simpl. destruct (String.eqb_spec t ""); [by subst|lia].
  - done.
Qed.

Lemma tool_use_round_trip u :
  requiredWf (eu_Arguments u) → optionalWf (eu_PartMetadataJson u) → in_int32 (eu_InvocationKind u) = true →
  fromPBToolUse (toPBToolUse u) = Ok (blockToolUse (projectToolUse u)).
Proof.
  intros Ha Hp Hk. unfold fromPBToolUse, toPBToolUse, projectToolUse, isFreeform. simpl.
  rewrite int32_of_id by done. destruct (eu_InvocationKind u =? ToolInvocationFreeform); simpl.
  - by rewrite parse_metadata.
  - by rewrite parse_required_or_empty, parse_metadata.
Qed.

Lemma tool_result_round_trip r :
  Forall contentWf (el_Content r) → Forall contentShape (el_Content r) →
  optionalWf (el_PartMetadataJson r) → in_int32 (el_InvocationKind r) = true →
  fromPBToolResult (toPBToolResult r) = Ok (blockToolResult (projectToolResult r)).
Proof.
  intros Hc Hs Hp Hk. unfold fromPBToolResult, toPBToolResult, projectToolResult. simpl.
  rewrite parse_metadata by done. simpl.
  rewrite (mapiM_fmap _ _ _ projectContent (λ c, contentWf c ∧ contentShape c)) by
    (apply content_round_trip || by apply Forall_and). simpl.
  by rewrite int32_of_id.
Qed.

Lemma block_round_trip b :
  blockWf b ∧ blockShape b → fromPBBlock (mkBlock (toPBKind b) "") = Ok (projectBlock b).
Proof.
  intros [Hw Hs]. destruct Hs as [x|x|x|x|x Hne Hc|x|x|x];
    destruct Hw as (H1 & H2 & H3 & H4 & H5 & H6 & H7); unfold fromPBBlock; simpl in *;
    rewrite ?parse_metadata, ?parse_required by (done || apply H6); simpl; try by destruct x.
  - destruct H3 as (? & ? & ?). by apply tool_use_round_trip.
  - destruct H4 as (? & ? & ?). by apply tool_result_round_trip.
Qed.

Lemma message_round_trip m :
  Forall blockWf (em_Blocks m) ∧ Forall blockShape (em_Blocks m) →
  fromPBMessage (toPBMessage m) = Ok (projectMessage m).
Proof.
  intros [H1 H2]. unfold fromPBMessage, toPBMessage. simpl.
  by rewrite (mapiM_fmap _ _ _ projectBlock _ _ _ block_round_trip) by by apply Forall_and.
Qed.

Lemma tool_round_trip t : toolWf t → fromPBToolDef (toPBToolDef t) = Ok (projectToolDef t).
Proof.
  intros (Hp & Hi & Hc & Hk). unfold fromPBToolDef, toPBToolDef, projectToolDef, isFreeform. simpl.
  rewrite int32_of_id by done. destruct (ed_InvocationKind t =? ToolInvocationFreeform); simpl.
  - rewrite parse_required by done. simpl. by rewrite present_object.
  - rewrite parse_required_or_empty by done. simpl. by rewrite present_object.
Qed.

Lemma max_tokens_narrow c : ValidateEngineRequest c = Ok tt → int32_of <$> eq_MaxTokens c = eq_MaxTokens c.
Proof.
  intros (H & _)%ValidateEngineRequest_ok. destruct (eq_MaxTokens c) as [n|]; [|done]. simpl.
  specialize (H n eq_refl). unfold MaxInt32 in H. rewrite int32_of_id; [done|].
  apply bool_decide_eq_true. lia.
Qed.

(** C16. A request that passes the checked boundary survives the trip to the
    plugin ABI and back, up to what [projectRequest] spells out: every message,
    block, arm, nested element, tool, parameter and byte of JSON is kept in
    order; a zero required object is spelled [{}]; the unused payload family of
    an invocation, the metadata and token of nested unknown content and the
    host-only topology are not carried.  In particular the conversion back
    never fails. *)
Theorem request_round_trip c :
  requestWf c → ValidateFullRequest c = Ok tt →
  FromPBChatRequest (toPBChatRequest c) = Ok (projectRequest c).
Proof.
  intros (Hm & Ht & Hf & Hs & He & Hmeta) Hv. unfold ValidateFullRequest in Hv. inv_ok.
  match goal with H : ValidateEngineRequest c = Ok ?u |- _ => destruct u; rename H into Hve end.
  pose proof (max_tokens_narrow c Hve) as Hmax.
  apply ValidateEngineRequest_ok in Hve as (_ & _ & _ & Hshape & _).
  unfold FromPBChatRequest, toPBChatRequest. cbn [OutputFormat_ ProviderExtensionsJson SafetySettingsJson
    ToranaMetaJson Messages Tools Model Stream MaxTokens Temperature TopP StopSequences].
  assert (Hfmt : (match toPBOutputFormat <$> eq_OutputFormat c with
                  | Some f => f' ←? fromPBOutputFormat f; Ok (Some f') | None => Ok None end)
                 = Ok (eq_OutputFormat c)).
  { destruct (eq_OutputFormat c) as [f|] eqn:Ef; [|done]. simpl. unfold fromPBOutputFormat.
    rewrite (validate_format (toPBChatRequest c)); [|done|unfold toPBChatRequest; simpl; by rewrite Ef].
    simpl. rewrite parse_optional by done. simpl. by destruct f. }
  rewrite Hfmt. cbn [res_bind]. rewrite present_object by done. cbn [res_bind].
  rewrite present_array by done. cbn [res_bind]. rewrite present_object by done. cbn [res_bind].
  rewrite (mapiM_fmap _ _ _ projectMessage _ _ _ message_round_trip) by by apply Forall_and.
  cbn [res_bind]. rewrite (mapiM_fmap _ _ _ projectToolDef _ _ _ tool_round_trip) by done.
  cbn [res_bind]. by rewrite Hmax.
Qed.
(** ** Plugin to engine and back *)

Lemma validateObject_same b a o : validateObject b a = Ok (Some o) → o = b.
Proof. unfold validateObject. case_dec; [by destruct a|]. intros H. by inv_ok. Qed.

Lemma optional_back s o : ParseOptionalJSONObject (lit s) = Ok o → optionalBytes o = s.
Proof.
  unfold ParseOptionalJSONObject. intros H. inv_ok. unfold optionalBytes, pbBytes. simpl.
  destruct x as [b|]; simpl.
  - match goal with H : _ = Ok (Some b) |- _ => apply validateObject_same in H as -> end. apply bstr_lit.
  - match goal with H : validateObject _ _ = _ |- _ => revert H end.
    unfold validateObject. case_dec; [|intros H; inv_ok].
    match goal with H : lit s = [] |- _ => by apply lit_nil in H as -> end.
Qed.

Lemma required_back s r : ParseRequiredJSONObject (lit s) = Ok r → requiredBytes r = s.
Proof.
  unfold ParseRequiredJSONObject. intros H. inv_ok. unfold requiredBytes, RequiredObject_Bytes. simpl.
  destruct x as [b|]; simpl.
  - match goal with H : _ = Ok (Some b) |- _ => apply validateObject_same in H as -> end. apply bstr_lit.
  - match goal with H : validateObject _ _ = _ |- _ => revert H end.
    unfold validateObject. case_dec; [done|]. intros H. inv_ok.
Qed.

Lemma required_or_empty_back s r :
  ParseRequiredObjectOrEmpty (lit s) = Ok r → requiredBytes r = orEmptyObject s.
Proof.
  unfold ParseRequiredObjectOrEmpty, orEmptyObject. destruct (String.eqb_spec s "") as [->|Hs].
  - by intros [= <-].
  - rewrite bool_decide_eq_false_2 by (by rewrite lit_nil). apply required_back.
Qed.

Lemma present_object_back w s o : parsePresentObject w s = Ok o → optionalBytes o = s.
Proof.
  unfold parsePresentObject. destruct (String.eqb_spec s "") as [->|]; [by intros [= <-]|].
  intros H. inv_ok. by apply optional_back.
Qed.

Lemma present_array_back w s a : parsePresentArray w s = Ok a → pbBytes (OptionalArray_Bytes a) = s.
Proof.
  unfold parsePresentArray. destruct (String.eqb_spec s "") as [->|Hs]; [by intros [= <-]|].
  unfold ParseOptionalJSONArray, validateArray.
  rewrite bool_decide_eq_false_2 by (by rewrite lit_nil). intros H. inv_ok. case_match; inv_ok.
  apply bstr_lit.
Qed.

Lemma content_back cb c :
  fromPBToolResultContent cb = Ok c → toPBContent c = canonicalContent cb ∧ contentShape c.
Proof.
  unfold fromPBToolResultContent, toPBContent, canonicalContent, contentShape, nestedArms.
  destruct (trc_kind cb); intros H; inv_ok; simpl; repeat match goal with
    | H : ParseRequiredJSONObject _ = Ok _ |- _ => apply required_back in H as -> end;
    (split; [done|]); try case_match; lia.
Qed.

Lemma tool_use_back k b : in_int32 (tu_invocation_kind k) = true → fromPBToolUse k = Ok b →
  toPBKind b = RBToolUse (canonicalToolUse k) ∧ blockShape b.
Proof.
  intros Hk. unfold fromPBToolUse, pbPartMetadata. intros H. inv_ok. split; [|constructor].
  unfold toPBKind, toPBToolUse, canonicalToolUse, isFreeform; simpl.
  match goal with H : ParseOptionalJSONObject _ = Ok _ |- _ => apply optional_back in H as -> end.
  rewrite int32_of_id by done. destruct (tu_invocation_kind k =? ToolInvocationFreeform); simpl in *; inv_ok; [done|].
  match goal with H : ParseRequiredObjectOrEmpty _ = Ok _ |- _ => by apply required_or_empty_back in H as -> end.
Qed.

(** Every tool result of a request has a body. *)
Definition hasBody (k : RequestBlockKind) : Prop :=
  if k is RBToolResult r then tr_content r ≠ [] else True.

Lemma block_back rb b : narrowKind (rb_kind rb) ∧ hasBody (rb_kind rb) → fromPBBlock rb = Ok b →
  toPBKind b = canonicalKind (rb_kind rb) ∧ blockShape b.
Proof.
  intros [Hn Hb]. unfold fromPBBlock. destruct (rb_kind rb) as [k|k|k|k|k|k|k|k| |]; simpl in *; try done;
    [..|by apply tool_use_back| | | |]; unfold pbPartMetadata; intros H; inv_ok;
    try (split; [|by constructor]; unfold toPBKind; simpl; repeat match goal with
      | H : ParseOptionalJSONObject _ = Ok _ |- _ => apply optional_back in H as ->
      | H : ParseRequiredJSONObject _ = Ok _ |- _ => apply required_back in H as -> end; done).
  unfold fromPBToolResult, pbPartMetadata in H. inv_ok.
  match goal with H : mapiM _ _ _ _ = Ok _ |- _ => rename H into Hm end.
  destruct (mapiM_back _ _ toPBContent canonicalContent (λ _, True) contentShape _ _ _
              (λ x y _, content_back x y) (Forall_true _ _ (λ _, I)) Hm) as [Hc Hs].
  split; [|constructor; [|done]].
  - unfold toPBKind, toPBToolResult; simpl.
    match goal with H : ParseOptionalJSONObject _ = Ok _ |- _ => apply optional_back in H as -> end.
    by rewrite int32_of_id, Hc.
  - simpl. intros ->. by apply mapiM_ok, Forall2_nil_inv_r in Hm.
Qed.

Lemma message_back m em :
  Forall (λ b, narrowKind (rb_kind b) ∧ hasBody (rb_kind b)) (m_blocks m) → fromPBMessage m = Ok em →
  toPBMessage em = canonicalMessage m ∧ Forall blockShape (em_Blocks em).
Proof.
  intros Hb H. unfold fromPBMessage in H. inv_ok.
  match goal with H : mapiM _ _ _ _ = Ok _ |- _ => rename H into Hm end.
  destruct (mapiM_back _ _ (λ b, mkBlock (toPBKind b) "") (λ b, mkBlock (canonicalKind (rb_kind b)) "")
              _ blockShape _ _ _
              ltac:(intros rb b Hrb Hbk; destruct (block_back rb b Hrb Hbk) as [-> ?]; done) Hb Hm) as [H1 H2].
  split; [|done]. unfold toPBMessage, canonicalMessage. simpl. by rewrite H1.
Qed.

Lemma tool_back t et : in_int32 (td_invocation_kind t) = true → fromPBToolDef t = Ok et →
  toPBToolDef et = canonicalToolDef t ∧ ed_Name et = td_name t.
Proof.
  intros Hk H. unfold fromPBToolDef in H. inv_ok. destruct x as [params input]. inv_ok. split; [|done].
  match goal with H : parsePresentObject _ _ = Ok _ |- _ => apply present_object_back in H as Hcc end.
  unfold toPBToolDef, canonicalToolDef, isFreeform. simpl. rewrite int32_of_id, Hcc by done.
  destruct (td_invocation_kind t =? ToolInvocationFreeform); inv_ok.
  - match goal with H : ParseRequiredJSONObject _ = Ok _ |- _ => by apply required_back in H as -> end.
  - match goal with H : ParseRequiredObjectOrEmpty _ = Ok _ |- _ =>
      by apply required_or_empty_back in H as -> end.
Qed.

Lemma format_back f ef : fromPBOutputFormat f = Ok ef →
  toPBOutputFormat ef = mkOutputFormat (of_mode f) (of_name f) (of_schema_json f) (of_strict f) "".
Proof.
  unfold fromPBOutputFormat. intros H. inv_ok. unfold toPBOutputFormat. simpl.
  match goal with H : ParseOptionalJSONObject _ = Ok _ |- _ => by apply optional_back in H as -> end.
Qed.

(** Every tool result of the request has a body. *)
Definition bodiesPresent (r : ChatRequest) : Prop :=
  Forall (λ m, Forall (λ b, hasBody (rb_kind b)) (m_blocks m)) (Messages r).

(** A request a plugin returned is the request the provider adapters see:
    converted to the engine and back it is the same request byte for byte, up
    to what [canonicalRequest] spells out (unknown protobuf bytes, the unused
    payload family of an invocation, an empty parameter or argument object
    spelled [{}]).  The engine request holds exactly one arm per block and no
    conflicting nested content, so it passes the structural validator as soon
    as its token limit, floats and tool names do, and it carries no topology. *)
Theorem replacement_round_trip r c :
  narrowRequest r → bodiesPresent r → FromPBChatRequest r = Ok c →
  toPBChatRequest c = canonicalRequest r ∧ eq_topology c = topology0 ∧
  Forall (λ m, Forall blockShape (em_Blocks m)) (eq_Messages c) ∧
  ed_Name <$> eq_Tools c = td_name <$> Tools r.
Proof.
  intros (Hmax & Hms & Hts) Hbody H. unfold FromPBChatRequest in H. inv_ok.
  assert (Hboth : Forall (λ m, Forall (λ b, narrowKind (rb_kind b) ∧ hasBody (rb_kind b)) (m_blocks m)) (Messages r)).
  { eapply Forall_impl; [|exact (Forall_and Hms Hbody)]. intros m [? ?]. by apply Forall_and. }
  repeat match goal with
  | H : parsePresentObject _ _ = Ok _ |- _ => apply present_object_back in H
  | H : parsePresentArray _ _ = Ok _ |- _ => apply present_array_back in H
  end.
  match goal with H : mapiM _ fromPBMessage _ _ = Ok _ |- _ => rename H into Hm end.
  match goal with H : mapiM _ fromPBToolDef _ _ = Ok _ |- _ => rename H into Ht end.
  destruct (mapiM_back _ _ toPBMessage canonicalMessage _ (λ m, Forall blockShape (em_Blocks m)) _ _ _
    message_back Hboth Hm) as [Hm1 Hm2].
  destruct (mapiM_back _ _ toPBToolDef canonicalToolDef _ (λ _, True) _ _ _
    ltac:(intros t et Hn Hto; destruct (tool_back t et Hn Hto); by split) Hts Ht) as [Ht1 _].
  assert (Hnames : ed_Name <$> x4 = td_name <$> Tools r).
  { change (ed_Name <$> x4) with ((λ t, td_name (toPBToolDef t)) <$> x4).
    rewrite (list_fmap_compose toPBToolDef td_name), Ht1, <- list_fmap_compose. done. }
  split; [|by split]. unfold toPBChatRequest, canonicalRequest. simpl. rewrite Hm1, Ht1. f_equal; auto.
  - destruct (MaxTokens r); simpl; [|done]. by rewrite int32_of_id by auto.
  - destruct (OutputFormat_ r); inv_ok; [|done]. simpl. f_equal. by apply format_back.
Qed.

(** ** What the conversion produces is well formed *)

Lemma validateObject_wf s a b : validateObject (lit s) a = Ok (Some b) → objectBytes b.
Proof.
  intros H. pose proof (validateObject_same _ _ _ H) as ->. split; [apply lit_bytes|].
  revert H. unfold validateObject. case_dec; [by destruct a|]. intros H. inv_ok. by destruct x.
Qed.

Lemma optional_wf s o : ParseOptionalJSONObject (lit s) = Ok o → optionalWf o.
Proof.
  unfold ParseOptionalJSONObject, optionalWf. intros H. inv_ok. simpl. destruct x; [|done].
  by eapply validateObject_wf.
Qed.

Lemma required_wf s r : ParseRequiredJSONObject (lit s) = Ok r → requiredWf r.
Proof.
  unfold ParseRequiredJSONObject, requiredWf. intros H. inv_ok. simpl. destruct x; [|done].
  by eapply validateObject_wf.
Qed.

Lemma required_or_empty_wf s r : ParseRequiredObjectOrEmpty (lit s) = Ok r → requiredWf r.
Proof.
  unfold ParseRequiredObjectOrEmpty. case_dec; [by intros [= <-]|]. apply required_wf.
Qed.

Lemma present_object_wf w s o : parsePresentObject w s = Ok o → optionalWf o.
Proof.
  unfold parsePresentObject. case_match; [by intros [= <-]|]. intros Hp. inv_ok. by eapply optional_wf.
Qed.

Lemma present_array_wf w s a : parsePresentArray w s = Ok a → arrayWf a.
Proof.
  unfold parsePresentArray, arrayWf. case_match; [by intros [= <-]|].
  unfold ParseOptionalJSONArray, validateArray. case_dec; [by intros [= <-]|].
  intros H'. inv_ok. case_match; inv_ok. simpl. split; [apply lit_bytes|].
  rewrite bool_decide_eq_false_2 by done.
  match goal with H : validate _ = Ok _ |- _ => rewrite H end. simpl.
  by match goal with H : (_ =? lbracket) = true |- _ => rewrite H end.
Qed.

Lemma mapiM_post {E F A B} (w : nat → E → F) (f : A → res E B) (P : A → Prop) (Q : B → Prop) i l ys :
  (∀ x y, P x → f x = Ok y → Q y) → Forall P l → mapiM w f i l = Ok ys → Forall Q ys.
Proof.
  intros H Hl Hm%mapiM_ok. revert Hl. induction Hm as [|x y l ys Hx _ IH]; [done|].
  intros [Hp Hl]%Forall_cons_iff. constructor; eauto.
Qed.

Lemma content_wf cb c : fromPBToolResultContent cb = Ok c → contentWf c.
Proof.
  unfold fromPBToolResultContent. destruct (trc_kind cb); intros H; inv_ok; split; simpl; try done;
    by eapply required_wf.
Qed.

Lemma tool_result_wf k b : in_int32 (tr_invocation_kind k) = true → fromPBToolResult k = Ok b → blockWf b.
Proof.
  intros Hn. unfold fromPBToolResult, pbPartMetadata. intros H. inv_ok. unfold blockWf; simpl.
  split_and!; try done; [|by eapply optional_wf].
  eapply (mapiM_post _ _ (λ _, True)); [|by apply Forall_true|done]. intros x' y _. apply content_wf.
Qed.

Lemma block_wf rb b : narrowKind (rb_kind rb) → fromPBBlock rb = Ok b → blockWf b.
Proof.
  unfold fromPBBlock, pbPartMetadata. destruct (rb_kind rb) as [k|k|k|k|k|k|k|k| |]; simpl; try done;
    [..|by apply tool_result_wf| | |];
    intros Hn H; try unfold fromPBToolUse, pbPartMetadata in H; inv_ok; unfold blockWf; simpl;
    split_and!; try done; try (by eapply optional_wf); try (by eapply required_wf).
  destruct (negb _); inv_ok; [by eapply required_or_empty_wf|done].
Qed.

Lemma tool_wf t et : in_int32 (td_invocation_kind t) = true → fromPBToolDef t = Ok et → toolWf et.
Proof.
  intros Hn. unfold fromPBToolDef. intros H. inv_ok. destruct x as [p f]. inv_ok.
  match goal with H : parsePresentObject _ _ = Ok _ |- _ => apply present_object_wf in H end.
  unfold toolWf. simpl. destruct (td_invocation_kind t =? ToolInvocationFreeform); inv_ok; split_and!; try done.
  - by eapply required_wf.
  - by eapply required_or_empty_wf.
Qed.

(** The engine request of a plugin's request is well formed, so it may enter
    the conversion again. *)
Lemma FromPB_wf r c : narrowRequest r → FromPBChatRequest r = Ok c → requestWf c.
Proof.
  intros (_ & Hms & Hts) H. unfold FromPBChatRequest in H. inv_ok. unfold requestWf. simpl. split_and!.
  - eapply mapiM_post; [|exact Hms|done]. intros m em Hm Hf. unfold fromPBMessage in Hf. inv_ok.
    eapply mapiM_post; [|exact Hm|done]. intros ? ?. apply block_wf.
  - eapply mapiM_post; [|exact Hts|done]. intros ? ?. apply tool_wf.
  - destruct (OutputFormat_ r) as [f|]; inv_ok; [|done].
    match goal with H : fromPBOutputFormat _ = Ok _ |- _ => unfold fromPBOutputFormat in H end.
    inv_ok. by eapply optional_wf.
  - by eapply present_array_wf.
  - by eapply present_object_wf.
  - by eapply present_object_wf.
Qed.

End RoundTrip.
