(* ===== verification/RequestTracked.v ===== *)
(** * The before-request entry point

    [RunBeforeRequestTracked] of internal/plugin/discovery.go: the checked
    conversion of the engine request, the plugin chain of [RequestPipeline], the
    conversion of an accepted replacement, and the restoration of the host-only
    topology. *)

From stdpp Require Import base list strings gmap sets numbers.
From S2P Require Import Prelude StreamEvents Utf8 RawJSON EngineRequest ByteStrings Framing RequestIR RequestConv RequestConvProofs RequestSections RequestSectionFacts RequestSectionsProofs RequestSignatures RequestGrants Verdicts HeaderPolicy RequestPipeline RequestIdentity RequestTheorems.

(** ** The JSON fields of a plugin request *)

Section Fields.
Context `{V : JSONText} {SDK : ReplacementSDK}.

Definition objectField (s : string) : bool := is_ok (ParseRequiredJSONObject (lit s)).
Definition optionalField (s : string) : bool := is_ok (ParseOptionalJSONObject (lit s)).
Definition normalizedField (s : string) : bool := is_ok (ParseRequiredObjectOrEmpty (lit s)).
Definition arrayField (s : string) : bool := is_ok (ParseOptionalJSONArray (lit s)).

Definition contentFields (c : ToolResultContentBlock) : bool :=
  match trc_kind c with
  | TRText _ _ => true
  | TRUnknown _ payload _ => objectField payload
  | TRCacheBreakpoint marker _ => objectField marker
  | TRUnset => false
  end.

Definition blockFields (b : RequestBlock) : bool :=
  match rb_kind b with
  | RBText k => optionalField (tx_part_metadata_json k)
  | RBThinking k => optionalField (th_part_metadata_json k)
  | RBRedactedThinking _ => true
  | RBToolUse k =>
      (isFreeform (tu_invocation_kind k) || normalizedField (tu_arguments_json k))
      && optionalField (tu_part_metadata_json k)
  | RBToolResult k => optionalField (tr_part_metadata_json k) && forallb contentFields (tr_content k)
  | RBCacheBreakpoint k => objectField (cb_marker_json k)
  | RBUnknown k => objectField (uk_payload_json k) && optionalField (uk_part_metadata_json k)
  | RBTrailingSignature k => optionalField (ts_part_metadata_json k)
  | RBRefusal _ _ | RBUnset => false
  end.

Definition toolFields (t : ToolDef) : bool :=
  (if isFreeform (td_invocation_kind t) then objectField (td_input_format_json t)
   else normalizedField (td_parameters_json t)) && optionalField (td_cache_control_json t).

Definition formatField (f : OutputFormat) : bool :=
  is_ok (OutputFormat_Validate f) && optionalField (of_schema_json f).

(** Every block has an arm and every JSON field is what its name says. *)
Definition requestFields (r : ChatRequest) : bool :=
  forallb (λ m, forallb blockFields (m_blocks m)) (Messages r) && forallb toolFields (Tools r)
  && match OutputFormat_ r with Some f => formatField f | None => true end
  && optionalField (ProviderExtensionsJson r) && arrayField (SafetySettingsJson r)
  && optionalField (ToranaMetaJson r).

Lemma is_ok_map_err {E F A} (w : E → F) (r : res E A) : is_ok (map_err w r) = is_ok r.
Proof. by destruct r. Qed.

Lemma is_ok_bind {E A B} (r : res E A) (k : A → res E B) :
  is_ok r = true → (∀ a, r = Ok a → is_ok (k a) = true) → is_ok (res_bind r k) = true.
Proof. destruct r; simpl; [auto|done]. Qed.

Lemma mapiM_is_ok {E F A B} (w : nat → E → F) (f : A → res E B) (p : A → bool) i l :
  (∀ x, p x = true → is_ok (f x) = true) → forallb p l = true → is_ok (mapiM w f i l) = true.
Proof.
  intros H. revert i; induction l as [|x l IH]; intros i; simpl; [done|].
  intros [Hx Hl]%andb_true_iff. apply is_ok_bind; [by rewrite is_ok_map_err; auto|]. intros y _.
  by apply is_ok_bind; [apply IH|].
Qed.

(** Convert a chain of parses, each of which a hypothesis says succeeds. *)
Local Ltac parses :=
  repeat match goal with
  | |- is_ok (Ok _) = true => reflexivity
  | |- is_ok (res_bind _ _) = true => apply is_ok_bind; [|intros ? ?]
  | |- is_ok (map_err _ _) = true => rewrite is_ok_map_err
  | |- is_ok (if String.eqb ?s "" then _ else _) = true => destruct (String.eqb s "")
  | _ => assumption
  end.

Lemma content_converts c : contentFields c = true → is_ok (fromPBToolResultContent c) = true.
Proof.
  unfold contentFields, fromPBToolResultContent, objectField. destruct (trc_kind c); intros; parses.
Qed.

Lemma block_converts b : blockFields b = true → is_ok (fromPBBlock b) = true.
Proof.
  unfold blockFields, fromPBBlock, pbPartMetadata, objectField, optionalField.
  destruct (rb_kind b) as [k|k|k|k|k|k|k|k| |]; intros H;
    try match type of H with _ && _ = true => apply andb_true_iff in H as [? ?] end; parses.
  - unfold fromPBToolUse, pbPartMetadata, isFreeform, normalizedField in *. apply is_ok_bind; [|intros; parses].
    by destruct (tu_invocation_kind k =? ToolInvocationFreeform)%Z; simpl in *; [|rewrite is_ok_map_err].
  - unfold fromPBToolResult, pbPartMetadata. parses. by eapply mapiM_is_ok; [apply content_converts|].
Qed.

Lemma tool_converts t : toolFields t = true → is_ok (fromPBToolDef t) = true.
Proof.
  unfold toolFields, fromPBToolDef, parsePresentObject, objectField, normalizedField, optionalField.
  intros [H1 H2]%andb_true_iff. apply is_ok_bind.
  - unfold isFreeform in H1. destruct (td_invocation_kind t =? ToolInvocationFreeform)%Z; parses.
  - intros [] _. parses.
Qed.

Lemma FromPB_total r : requestFields r = true → ∃ c, FromPBChatRequest r = Ok c.
Proof.
  unfold requestFields, FromPBChatRequest. rewrite !andb_true_iff. intros (((((Hm & Ht) & Hf) & He) & Hs) & Hmeta).
  apply is_ok_spec. unfold parsePresentObject, parsePresentArray, optionalField, arrayField in *.
  apply is_ok_bind; [|intros ? _; apply is_ok_bind; [by parses|]; intros ? _;
    apply is_ok_bind; [by parses|]; intros ? _;
    apply is_ok_bind; [by parses|]; intros ? _; parses].
  - destruct (OutputFormat_ r) as [f|]; [|done]. unfold formatField, optionalField in Hf.
    apply andb_true_iff in Hf as [? ?]. unfold fromPBOutputFormat. parses.
  - eapply mapiM_is_ok; [|exact Hm]. intros m Hb. unfold fromPBMessage. parses.
    eapply mapiM_is_ok; [apply block_converts|done].
  - eapply mapiM_is_ok; [apply tool_converts|done].
Qed.
End Fields.

(** ** The entry point *)

Inductive trackedErr :=
| TEInvalidRequest (e : fullErr)
| TEPlugin (e : beforeErr)
| TEConvert (e : convErr).

Section Tracked.
Context `{V : JSONText} {SDK : ReplacementSDK} {K : RequestSDK} {J : MetaCodec} {ABI : HookABI}.
Context (fields : list requestSignatureField).
Context (suggestionOutcomes : option (string → option (option string))).
Context (candidateValidator : option (TopologyFacts → ChatRequest → ChatRequest → bool)).
Context (reqID : N).

Definition RunBeforeRequestTracked (plugins : list beforePlugin) (chat : engine_ChatRequest)
    (rawHeaders : headers) (s : pipeState) : res trackedErr (engine_ChatRequest * bool) * pipeState :=
  let acceptedTopo := eq_topology chat in
  let hs := snapshotHeaders rawHeaders in
  match ToPBChatRequestChecked chat with
  | Err e => (Err (TEInvalidRequest e), s)
  | Ok current =>
      match runBeforePlugins fields suggestionOutcomes
              ((λ validate, validate acceptedTopo) <$> candidateValidator) reqID plugins hs current false s with
      | (Err e, s) => (Err (TEPlugin e), s)
      | (Ok (_, false), s) => (Ok (chat, false), s)
      | (Ok (current, true), s) =>
          match FromPBChatRequest current with
          | Err e => (Err (TEConvert e), s)
          | Ok chat => (Ok (withTopology acceptedTopo chat, true), s)
          end
      end
  end.

Definition RunBeforeRequest (plugins : list beforePlugin) (chat : engine_ChatRequest)
    (rawHeaders : headers) (s : pipeState) : res trackedErr engine_ChatRequest * pipeState :=
  match RunBeforeRequestTracked plugins chat rawHeaders s with
  | (Ok (out, _), s) => (Ok out, s)
  | (Err e, s) => (Err e, s)
  end.

(** What the SDK promises of results: a result it accepts for this hook holds
    a replacement that passed [ValidateReplacement], and such a replacement
    has well-formed JSON fields. *)
Class HookABILaws : Prop := {
  validated_result : ∀ r req, ValidateFor r = true → GetReplaceRequest r = Some req →
    ValidateReplacement req = Ok tt;
  validated_fields : ∀ req, ValidateReplacement req = Ok tt → requestFields req = true }.

Abbreviation run := (runBeforePlugins fields suggestionOutcomes).

(** What chains is the request at hand or a validated replacement that carries
    its metadata. *)
Lemma plugin_next cv lp hs current s next stop current' s' :
  runBeforeRequestPlugin fields suggestionOutcomes cv reqID lp hs current s
    = (Ok (Some next, stop), current', s') →
  ∃ r req, ValidateFor r = true ∧ GetReplaceRequest r = Some req
    ∧ next = withMeta (ToranaMetaJson current) req.
Proof.
  unfold runBeforeRequestPlugin, restoreRequestHeaders.
  destruct (callPlugin _ _ _ _ _ _ _) as [[[[r0|] stop0]|] s1] eqn:Hc; intros [= <- _ _ _].
  unfold callPlugin, failedCall in Hc. case_match; [done|].
  destruct (gr_reply _) as [raw|]; [|by repeat case_match].
  destruct (decodeHookResult raw) as [[r|]|] eqn:Hd; simpl in Hc; [|done|by repeat case_match].
  destruct (GetReplaceRequest r) as [req|] eqn:Hr; [|done].
  destruct (checkReplacement _ _ _ _ _ _ _) as [[[acc|]|] s2] eqn:Hk; [|done..].
  apply checkReplacement_ok in Hk as [-> _]. injection Hc as <- _ _.
  exists r, req. split; [|split; [done|]].
  - unfold decodeHookResult in Hd. repeat (case_match; try done). simplify_eq.
    by match goal with H : negb _ = false |- _ => apply negb_false_iff in H end.
  - unfold restoreRequestHeaders. by rewrite withMeta_withMeta.
Qed.

Lemma plugins_next cv lps hs a m s b m' s' :
  run cv reqID lps hs a m s = (Ok (b, m'), s') →
  b = a ∨ ∃ r req, ValidateFor r = true ∧ GetReplaceRequest r = Some req
            ∧ b = withMeta (ToranaMetaJson a) req.
Proof.
  revert a m s; induction lps as [|lp lps IH]; intros a m s H; simpl in H; [simplify_eq; by left|].
  destruct (runBeforeRequestPlugin _ _ _ _ lp hs a s) as [[[[next stop]|] a'] s1] eqn:Hr; [|done].
  destruct (runBeforeRequestPlugin_spec _ _ _ _ _ _ _ _ _ _ _ Hr) as [-> _].
  destruct next as [next|].
  - apply plugin_next in Hr as (r & req & H1 & H2 & ->). right. destruct stop.
    + simplify_eq. eauto.
    + apply IH in H as [->|(r' & req' & ? & ? & ->)]; eauto 10.
  - destruct stop; [simplify_eq; by left|eauto].
Qed.

Lemma requestFields_meta `{!HookABILaws} a req :
  optionalField (ToranaMetaJson a) = true → ValidateReplacement req = Ok tt →
  requestFields (withMeta (ToranaMetaJson a) req) = true.
Proof.
  intros Ha Hr%validated_fields. revert Hr. unfold requestFields. simpl. rewrite !andb_true_iff. tauto.
Qed.

Lemma meta_of_request (L : ReplacementLaws) chat : requestWf chat →
  ParseOptionalJSONObject (lit (ToranaMetaJson (toPBChatRequest chat))) = Ok (eq_ToranaMeta chat).
Proof. intros (_ & _ & _ & _ & _ & H). by apply parse_optional. Qed.

Lemma FromPB_meta r c : FromPBChatRequest r = Ok c →
  parsePresentObject ConvMeta (ToranaMetaJson r) = Ok (eq_ToranaMeta c) ∧ eq_topology c = topology0.
Proof. unfold FromPBChatRequest. intros H. by inv_ok. Qed.

(** C17. The before-request hook as its callers see it.  A request outside the
    closed domain is refused before any plugin runs.  Otherwise the conversion
    of what the plugins left cannot fail; without an accepted replacement the
    caller gets its own request back, untouched by any conversion; with one it
    gets the conversion of a request reached by authorised steps, under the
    accepted request's own topology facts and metadata, which no plugin can
    forge or lose. *)
Theorem tracked_request `{!HookABILaws} (L : ReplacementLaws) plugins chat raw s out s' :
  requestWf chat →
  RunBeforeRequestTracked plugins chat raw s = (out, s') →
  match out with
  | Err (TEInvalidRequest e) => ValidateFullRequest chat = Err e ∧ s' = s
  | Err (TEConvert _) => False
  | Err (TEPlugin _) => ValidateFullRequest chat = Ok tt
  | Ok (chat', false) => chat' = chat
  | Ok (chat', true) =>
      eq_topology chat' = eq_topology chat ∧ eq_ToranaMeta chat' = eq_ToranaMeta chat ∧
      ∃ st current, authorisedSteps fields plugins (toPBChatRequest chat) st current ∧
        FromPBChatRequest current = Ok (withTopology topology0 chat')
  end.
Proof.
  intros Hwf. unfold RunBeforeRequestTracked, ToPBChatRequestChecked.
  destruct (ValidateFullRequest chat) as [[]|e] eqn:Hv; cbn [res_bind]; [|by intros [= <- <-]].
  destruct (run _ _ _ _ _ _ _) as [[[b []]|e] s1] eqn:Hr; [| |by intros [= <- <-]]; [|by intros [= <- <-]].
  pose proof (meta_of_request L chat Hwf) as Hmeta.
  assert (Htotal : ∃ c, FromPBChatRequest b = Ok c).
  { destruct (plugins_next _ _ _ _ _ _ _ _ _ Hr) as [->|(r & req & H1 & H2 & ->)].
    - eexists. by apply request_round_trip.
    - apply FromPB_total, requestFields_meta; [unfold optionalField; by rewrite Hmeta|].
      by eapply validated_result. }
  apply runBeforePlugins_steps in Hr as (st & Hst & _ & _).
  destruct Htotal as [c Hc]. rewrite Hc. intros [= <- <-]. simpl. split; [done|].
  destruct (FromPB_meta b c Hc) as [Hp Ht]. rewrite (steps_meta _ _ _ _ _ Hst) in Hp.
  destruct Hwf as (_ & _ & _ & _ & _ & Hm). simpl in Hp. rewrite present_object in Hp by done.
  injection Hp as <-. split; [done|]. exists st, b. split; [done|]. rewrite Hc.
  destruct c. simpl in *. by subst.
Qed.
End Tracked.

(** * The request conversion on a concrete request

    An engine request with every kind of host-only fact, converted, sent through
    a plugin that exchanges two tokens and converted back; and a fact the checked
    boundary does not see. *)

(** A validator that refuses only the empty text, and an SDK that checks the
    JSON fields. *)
#[local] Instance convText : JSONText := {|
  Validate b := if bool_decide (b = []) then Err "empty" else Ok tt |}.

#[local] Instance convFormats : ReplacementSDK := {|
  ValidateReplacement _ := Ok tt;
  OutputFormat_Validate f := if bool_decide (0 ≤ of_mode f ≤ 2)%Z then Ok tt else Err "mode" |}.

#[local] Instance convSDK : ReplacementSDK := {|
  ValidateReplacement r := if requestFields (SDK:=convFormats) r then Ok tt else Err "fields";
  OutputFormat_Validate := OutputFormat_Validate (ReplacementSDK:=convFormats) |}.

Lemma convSDK_fields r :
  ValidateReplacement (ReplacementSDK:=convSDK) r = Ok tt → requestFields (SDK:=convSDK) r = true.
Proof. simpl. by destruct (requestFields r). Qed.

Lemma convSDK_laws : ReplacementLaws.
Proof.
  split; [reflexivity|]. intros r f Hr%convSDK_fields Hf. unfold requestFields in Hr. rewrite Hf in Hr.
  rewrite !andb_true_iff in Hr. destruct Hr as ((((_ & Hr) & _) & _) & _). unfold formatField in Hr.
  apply andb_true_iff in Hr as [Hr _]. apply is_ok_spec in Hr as [[] Hr]. exact Hr.
Qed.

#[local] Instance convCodec : MetaCodec := {|
  UnmarshalMeta _ := Some (Some ∅);
  MarshalMeta _ := Some "{}";
  MarshalHeaders _ := Some "{}" |}.

#[local] Instance convABI : HookABI := {|
  HookInputValid _ := true;
  DecodeHookResult raw :=
    if String.eqb raw "swap" then Some (mkHookResult (Some (ReplaceRequest demoSwapped))) else None;
  ValidateFor r := if GetReplaceRequest r is Some req then is_ok (ValidateReplacement req) else true |}.

#[local] Instance convABI_laws : HookABILaws.
Proof.
  split; [|apply convSDK_fields]. intros r req H Hr.
  unfold ValidateFor, convABI in H. rewrite Hr in H. apply is_ok_spec in H as [[] H]. exact H.
Qed.

Definition demoTopology : TopologyFacts := mkTopology true 1 true (mkOptionalArray (Some (lit "[1]"))).

Definition demoChat : engine_ChatRequest :=
  match FromPBChatRequest demoAccepted with
  | Ok c => withTopology demoTopology c
  | Err _ => mkERequest "" [] [] false None None None [] None (mkOptionalArray None)
               (mkOptionalObject None) (mkOptionalObject None) topology0
  end.

Definition exchange : beforePlugin :=
  mkBeforePlugin "exchange" "pass" (λ _, false) (λ _, mkGuestRun [] (Some "swap")).

Definition convIdle : pipeState := mkPipe (mkRuntime ∅ ∅) ∅.

Definition demoTracked : res trackedErr (engine_ChatRequest * bool) * pipeState :=
  RunBeforeRequestTracked demoFields None None 7 [exchange] demoChat ∅ convIdle.

Lemma demo_narrow sig1 sig2 : narrowRequest (demoRequest sig1 sig2).
Proof.
  split_and!; cbn; [by intros ? [= <-] || done| |]; repeat constructor; done.
Qed.

Lemma demoChat_wf : requestWf demoChat.
Proof.
  assert (H : ∃ c, FromPBChatRequest demoAccepted = Ok c) by (eexists; vm_compute; reflexivity).
  destruct H as [c H]. unfold demoChat. rewrite H.
  destruct (FromPB_wf demoAccepted c (demo_narrow _ _) H) as (? & ? & ? & ? & ? & ?). by split_and!.
Qed.

Lemma request_round_trip_witness :
  FromPBChatRequest (toPBChatRequest demoChat) = Ok (projectRequest demoChat).
Proof.
  apply (request_round_trip (L:=convSDK_laws) demoChat demoChat_wf). vm_compute. reflexivity.
Defined.

Lemma replacement_round_trip_witness :
  match FromPBChatRequest demoSwapped with
  | Ok c => toPBChatRequest c = canonicalRequest demoSwapped ∧ eq_topology c = topology0
  | Err _ => False
  end.
Proof.
  assert (E : is_ok (FromPBChatRequest demoSwapped) = true) by (vm_compute; reflexivity).
  destruct (FromPBChatRequest demoSwapped) as [c|] eqn:H; [|discriminate E].
  destruct (replacement_round_trip demoSwapped c (demo_narrow _ _)) as (H1 & H2 & _); [|exact H|by split].
  repeat constructor; cbn; done.
Defined.

(** The tokens of the text blocks of a request, in order. *)
Definition textTokens (c : engine_ChatRequest) : list string :=
  eq_Messages c ≫= λ m, omap (λ b, et_Signature <$> eb_Text b) (em_Blocks m).

Lemma tracked_request_witness :
  match demoTracked with
  | (Ok (chat', true), _) => eq_topology chat' = demoTopology ∧ textTokens chat' = [""; "sigB"; "sigA"]
  | _ => False
  end.
Proof.
  assert (E : match fst demoTracked with
              | Ok (c, true) => bool_decide (textTokens c = [""; "sigB"; "sigA"])
              | _ => false end = true) by (vm_compute; reflexivity).
  destruct demoTracked as [[[c []]|] s'] eqn:H; try discriminate E.
  pose proof (tracked_request demoFields None None 7 convSDK_laws [exchange] demoChat ∅ convIdle _ _ demoChat_wf H)
    as (H1 & _). split; [exact H1|]. by apply bool_decide_eq_true in E.
Defined.

(** ** A fact the checked boundary does not see

    A token on the unknown content nested in a tool result passes the
    structural validator, and the conversion drops it. *)
Definition nestedToken : engine_ChatRequest :=
  mkERequest "m"
    [mkEMessage "tool" [blockToolResult (mkEToolResult "c" "t" None
       [mkEContent "" (Some (mkEUnknown "image" zeroObject absentObject "token")) None]
       absentObject None None "" 0)]]
    [] false None None None [] None (mkOptionalArray None) absentObject absentObject topology0.

Lemma nested_token_dropped :
  ValidateFullRequest nestedToken = Ok tt ∧
  ∃ c, FromPBChatRequest (toPBChatRequest nestedToken) = Ok c ∧
    toPBChatRequest c = toPBChatRequest nestedToken ∧
    (∀ m b r x u, m ∈ eq_Messages c → b ∈ em_Blocks m → eb_ToolResult b = Some r → x ∈ el_Content r →
       en_Unknown x = Some u → ek_Signature u = "").
Proof.
  split; [vm_compute; reflexivity|]. eexists. split; [vm_compute; reflexivity|]. split; [vm_compute; reflexivity|].
  intros m b r x u Hm Hb Hr Hx Hu. cbn in Hm. enum_elem. cbn in Hb. enum_elem. cbn in Hr. simplify_eq.
  cbn in Hx. enum_elem. cbn in Hu. simplify_eq. done.
Qed.
