(* ===== verification/ResponseHook.v ===== *)
(** * The after-response hook

    [RunAfterResponse] of internal/plugin/discovery.go with the response half
    of internal/engine/pbconv and the relative checks of
    internal/plugin/response_validate.go.  A plugin sees a completed response
    and may return a replacement; the host accepts one only as an edit of text,
    tool names and arguments in place, and clears a token that was left over
    content it does not cover.

    The JSON codec of the provider extensions and the SDK's envelope codec and
    token classification are parameters; guests are arbitrary. *)

From stdpp Require Import base list strings gmap sets numbers.
From S2P Require Import Prelude ByteStrings StreamEvents Discipline SignatureScan SignatureVerify RequestIR Verdicts RequestPipeline.

(** ** Responses *)

Record engine_ResponseToolCall := mkERToolCall
  { rtc_ID : string; rtc_Name : string; rtc_ArgumentsJSON : string; rtc_Signature : string }.
(** Both pointers of the struct may be set or unset. *)
Record engine_ResponseBlock := mkERBlock
  { erb_Text : option string; erb_ToolCall : option engine_ResponseToolCall }.

(** The wire response: the oneof of a block, and usage as four 32-bit counts. *)
Record pbToolCall := mkToolCall
  { tc_id : string; tc_name : string; tc_arguments_json : string; tc_signature : string }.
Inductive ResponseBlockKind := RespText (text : string) | RespToolCall (tc : pbToolCall) | RespUnset.
Record pbUsage := mkUsage
  { u_input : Z; u_output : Z; u_cache_read : Z; u_cache_write : Z }.

Record pbChatResponse := mkPBResponse
  { pr_Model : string; pr_Provider : string; pr_CompletedAtUnixMs : Z; pr_Id : string;
    pr_Message : option (list ResponseBlockKind); pr_FinishReason : string; pr_Usage : option pbUsage;
    pr_UpstreamStatus : Z; pr_DurationMs : Z; pr_ProviderExtensionsJson : string;
    pr_ToranaMetaJson : string }.

#[global] Instance usage_eq_dec : EqDecision pbUsage.
Proof. solve_decision. Defined.

(** [json.Marshal] of the extensions map (nil on error) and the map that
    [json.Unmarshal] leaves in a nil map. *)
Class ExtensionsCodec := {
  Extensions : Type;
  nilExtensions : Extensions;
  ext_len : Extensions → nat;
  MarshalExt : Extensions → string;
  UnmarshalExt : string → Extensions }.

Class ResponseABI := {
  ResponseInputValid : pbChatResponse → bool → bool;
  (** [pbv1.DecodeHookResult]: the action, if any. *)
  DecodeResponseResult : string → option (option (option pbChatResponse));
  ValidateForAfter : option (option pbChatResponse) → bool }.

Section Conversion.
Context {X : ExtensionsCodec}.

Record engine_ChatResponse := mkEResponse
  { er_Model : string; er_Provider : string; er_CompletedAtUnixMS : Z; er_ID : string;
    er_Message : option (list engine_ResponseBlock); er_FinishReason : string;
    er_Usage : option StreamUsage; er_UpstreamStatus : Z; er_DurationMS : Z;
    er_ProviderExtensions : Extensions; er_ToranaMetaJSON : string }.

Definition toPBResponseBlock (b : engine_ResponseBlock) : option ResponseBlockKind :=
  match erb_Text b, erb_ToolCall b with
  | Some t, _ => Some (RespText t)
  | None, Some tc =>
      Some (RespToolCall (mkToolCall (rtc_ID tc) (rtc_Name tc) (rtc_ArgumentsJSON tc) (rtc_Signature tc)))
  | None, None => None
  end.

Definition toPBResponseMessage (m : list engine_ResponseBlock) : list ResponseBlockKind :=
  omap toPBResponseBlock m.

Definition ToPBChatResponse (r : engine_ChatResponse) : pbChatResponse :=
  mkPBResponse (er_Model r) (er_Provider r) (er_CompletedAtUnixMS r) (er_ID r)
    (toPBResponseMessage <$> er_Message r) (er_FinishReason r)
    ((λ u, mkUsage (int32_of (su_input u)) (int32_of (su_output u))
             (int32_of (su_cache_read u)) (int32_of (su_cache_write u))) <$> er_Usage r)
    (int32_of (er_UpstreamStatus r)) (er_DurationMS r)
    (if (0 <? ext_len (er_ProviderExtensions r))%nat then MarshalExt (er_ProviderExtensions r) else "")
    (er_ToranaMetaJSON r).

Definition fromPBResponseBlock (k : ResponseBlockKind) : option engine_ResponseBlock :=
  match k with
  | RespText t => Some (mkERBlock (Some t) None)
  | RespToolCall tc =>
      Some (mkERBlock None (Some (mkERToolCall (tc_id tc) (tc_name tc) (tc_arguments_json tc) (tc_signature tc))))
  | RespUnset => None
  end.

Definition fromPBResponseMessage (m : list ResponseBlockKind) : list engine_ResponseBlock :=
  omap fromPBResponseBlock m.

Definition FromPBChatResponse (r : pbChatResponse) : engine_ChatResponse :=
  mkEResponse (pr_Model r) (pr_Provider r) (pr_CompletedAtUnixMs r) (pr_Id r)
    (fromPBResponseMessage <$> pr_Message r) (pr_FinishReason r)
    ((λ u, mkStreamUsage (u_input u) (u_output u) (u_cache_read u) (u_cache_write u)) <$> pr_Usage r)
    (pr_UpstreamStatus r) (pr_DurationMs r)
    (if String.eqb (pr_ProviderExtensionsJson r) "" then nilExtensions
     else UnmarshalExt (pr_ProviderExtensionsJson r))
    (pr_ToranaMetaJson r).
End Conversion.

(** ** Relative checks (response_validate.go) *)

Inductive responseErr :=
| DroppedMessage | InventedMessage
| ChangedModel | ChangedId | ChangedFinishReason | ChangedUsage | ChangedUpstreamStatus
| ChangedDuration | ChangedExtensions | ChangedMeta
| ChangedCardinality
| ChangedArm (i : nat) | ChangedToolId (i : nat) | BadSignature (i : nat) (c : SignatureMutation)
| UnknownArm (i : nat).

Definition usageEqual (current replacement : option pbUsage) : bool :=
  match current, replacement with
  | Some a, Some b =>
      (u_input a =? u_input b)%Z && (u_output a =? u_output b)%Z
      && (u_cache_read a =? u_cache_read b)%Z && (u_cache_write a =? u_cache_write b)%Z
  | None, None => true
  | _, _ => false
  end.

Definition nameOrArgsChanged (cur rep : pbToolCall) : bool :=
  negb (String.eqb (tc_name rep) (tc_name cur)) || negb (String.eqb (tc_arguments_json rep) (tc_arguments_json cur)).

Definition isStale (c : SignatureMutation) : bool := if c is SignatureStale then true else false.

Section Validate.
Context {P : SignaturePolicy}.

Definition validateResponseBlock (i : nat) (cur rep : ResponseBlockKind) : res responseErr unit :=
  match cur with
  | RespText _ => if rep is RespText _ then Ok tt else Err (ChangedArm i)
  | RespToolCall c =>
      match rep with
      | RespToolCall r =>
          if negb (String.eqb (tc_id r) (tc_id c)) then Err (ChangedToolId i)
          else
            let class := ClassifySignatureMutation (tc_signature c) (tc_signature r) (nameOrArgsChanged c r) in
            if negb (Allowed class) && negb (isStale class) then Err (BadSignature i class) else Ok tt
      | _ => Err (ChangedArm i)
      end
  | RespUnset => Err (UnknownArm i)
  end.

(** The positional loop, once the lengths agree. *)
Fixpoint validateResponseBlocks (i : nat) (cur rep : list ResponseBlockKind) : res responseErr unit :=
  match cur, rep with
  | c :: cur', r :: rep' => _ ←? validateResponseBlock i c r; validateResponseBlocks (S i) cur' rep'
  | _, _ => Ok tt
  end.

Definition validateResponseReplacement (current replacement : pbChatResponse) : res responseErr unit :=
  if bool_decide (pr_Message replacement = None) && bool_decide (is_Some (pr_Message current)) then Err DroppedMessage
  else if bool_decide (is_Some (pr_Message replacement)) && bool_decide (pr_Message current = None) then Err InventedMessage
  else if negb (String.eqb (pr_Model replacement) (pr_Model current)) then Err ChangedModel
  else if negb (String.eqb (pr_Id replacement) (pr_Id current)) then Err ChangedId
  else if negb (String.eqb (pr_FinishReason replacement) (pr_FinishReason current)) then Err ChangedFinishReason
  else if negb (usageEqual (pr_Usage current) (pr_Usage replacement)) then Err ChangedUsage
  else if negb (pr_UpstreamStatus replacement =? pr_UpstreamStatus current)%Z then Err ChangedUpstreamStatus
  else if negb (pr_DurationMs replacement =? pr_DurationMs current)%Z then Err ChangedDuration
  else if negb (String.eqb (pr_ProviderExtensionsJson replacement) (pr_ProviderExtensionsJson current)) then Err ChangedExtensions
  else if negb (String.eqb (pr_ToranaMetaJson replacement) (pr_ToranaMetaJson current)) then Err ChangedMeta
  else
    match pr_Message current, pr_Message replacement with
    | Some cur, Some rep =>
        if negb (length rep =? length cur)%nat then Err ChangedCardinality
        else validateResponseBlocks 0 cur rep
    | _, _ => Ok tt
    end.

(** One tool call of [clearStaleSignatures]. *)
Definition clearStale (cur rep : ResponseBlockKind) : ResponseBlockKind :=
  match cur, rep with
  | RespToolCall c, RespToolCall r =>
      if String.eqb (tc_signature r) "" || negb (String.eqb (tc_signature r) (tc_signature c)) then rep
      else if nameOrArgsChanged c r
           then RespToolCall (mkToolCall (tc_id r) (tc_name r) (tc_arguments_json r) "")
           else rep
  | _, _ => rep
  end.

Fixpoint clearStaleBlocks (cur rep : list ResponseBlockKind) : list ResponseBlockKind :=
  match rep, cur with
  | r :: rep', c :: cur' => clearStale c r :: clearStaleBlocks cur' rep'
  | _, _ => rep
  end.

Definition withMessage (m : option (list ResponseBlockKind)) (r : pbChatResponse) : pbChatResponse :=
  mkPBResponse (pr_Model r) (pr_Provider r) (pr_CompletedAtUnixMs r) (pr_Id r) m (pr_FinishReason r)
    (pr_Usage r) (pr_UpstreamStatus r) (pr_DurationMs r) (pr_ProviderExtensionsJson r) (pr_ToranaMetaJson r).

Definition clearStaleSignatures (current replacement : pbChatResponse) : pbChatResponse :=
  match pr_Message current, pr_Message replacement with
  | Some cur, Some rep => withMessage (Some (clearStaleBlocks cur rep)) replacement
  | _, _ => replacement
  end.
End Validate.

(** ** The plugin chain *)

Inductive afterErr :=
| AfterInput
| AfterFailed (name : string)
| AfterInvalidResult (name : string)
| AfterInvalidReplacement (name : string) (e : responseErr).

Record afterPlugin := mkAfterPlugin {
  ap_name : string;
  ap_failureMode : string;
  ap_guest : pbChatResponse → bool → guestRun
}.

Section AfterResponse.
Context {P : SignaturePolicy} {ABI : ResponseABI}.
Context (reqID : N).

(** [decodeHookResult] for this hook: no result, or an action with or without
    a replacement. *)
Definition decodeAfterResult (raw : string) : res unit (option (option pbChatResponse)) :=
  if String.eqb raw "" then Ok None
  else
    match DecodeResponseResult raw with
    | None => Err tt
    | Some action => if negb (ValidateForAfter action) then Err tt else Ok action
    end.

(** What one plugin leaves: an error for the caller, or its accepted and
    normalized replacement. *)
Definition runAfterPlugin (lp : afterPlugin) (mutable : bool) (current : pbChatResponse) (s : pipeState)
    : res afterErr (option pbChatResponse) * pipeState :=
  if negb (ResponseInputValid current mutable) then (Err AfterInput, s)
  else
    let s := recordInvocation reqID (ap_name lp) s in
    let run := ap_guest lp current mutable in
    let s := applyCalls reqID (ap_name lp) (gr_calls run) s in
    let failed e : res afterErr (option pbChatResponse) * pipeState :=
      if String.eqb (ap_failureMode lp) "block" then (Err e, s) else (Ok None, s) in
    match gr_reply run with
    | None => failed (AfterFailed (ap_name lp))
    | Some outBytes =>
        match decodeAfterResult outBytes with
        | Err _ => failed (AfterInvalidResult (ap_name lp))
        | Ok (Some (Some replacement)) =>
            if negb mutable then (Ok None, s)
            else
              match validateResponseReplacement current replacement with
              | Err e => failed (AfterInvalidReplacement (ap_name lp) e)
              | Ok _ => (Ok (Some (clearStaleSignatures current replacement)), s)
              end
        | Ok _ => (Ok None, s)
        end
    end.

Fixpoint runAfterPlugins (plugins : list afterPlugin) (mutable : bool) (current : pbChatResponse)
    (modified : bool) (s : pipeState) : res afterErr (pbChatResponse * bool) * pipeState :=
  match plugins with
  | [] => (Ok (current, modified), s)
  | lp :: plugins' =>
      match runAfterPlugin lp mutable current s with
      | (Err e, s) => (Err e, s)
      | (Ok None, s) => runAfterPlugins plugins' mutable current modified s
      | (Ok (Some next), s) => runAfterPlugins plugins' mutable next true s
      end
  end.

Definition RunAfterResponse `{ExtensionsCodec} (plugins : list afterPlugin) (resp : engine_ChatResponse)
    (mutable : bool) (s : pipeState) : res afterErr engine_ChatResponse * pipeState :=
  match runAfterPlugins plugins mutable (ToPBChatResponse resp) false s with
  | (Err e, s) => (Err e, s)
  | (Ok (_, false), s) => (Ok resp, s)
  | (Ok (current, true), s) => (Ok (FromPBChatResponse current), s)
  end.
End AfterResponse.

(** ** What an accepted replacement keeps *)

(** A token is the provider's, over the name and arguments it was issued for,
    or there is none. *)
Inductive blockKept : ResponseBlockKind → ResponseBlockKind → Prop :=
| kept_text t t' : blockKept (RespText t) (RespText t')
| kept_call c r :
    tc_id r = tc_id c →
    (tc_signature r = "" ∨
     tc_signature r = tc_signature c ∧ tc_name r = tc_name c ∧ tc_arguments_json r = tc_arguments_json c) →
    blockKept (RespToolCall c) (RespToolCall r).

Definition messageKept (a b : option (list ResponseBlockKind)) : Prop :=
  match a, b with
  | Some cur, Some rep => Forall2 blockKept cur rep
  | None, None => True
  | _, _ => False
  end.

Record responseKept (a b : pbChatResponse) : Prop := {
  kept_model : pr_Model b = pr_Model a;
  kept_id : pr_Id b = pr_Id a;
  kept_finish : pr_FinishReason b = pr_FinishReason a;
  kept_usage : pr_Usage b = pr_Usage a;
  kept_status : pr_UpstreamStatus b = pr_UpstreamStatus a;
  kept_duration : pr_DurationMs b = pr_DurationMs a;
  kept_extensions : pr_ProviderExtensionsJson b = pr_ProviderExtensionsJson a;
  kept_meta : pr_ToranaMetaJson b = pr_ToranaMetaJson a;
  kept_message : messageKept (pr_Message a) (pr_Message b) }.

Lemma blockKept_trans a b c : blockKept a b → blockKept b c → blockKept a c.
Proof.
  intros [|x y Hid Hs]; inversion 1 as [|? z Hid' Hs']; subst; constructor; [congruence|].
  destruct Hs as [Hs|(? & ? & ?)], Hs' as [Hs'|(? & ? & ?)]; [left; congruence..|]. right. split_and!; congruence.
Qed.

Lemma Forall2_blockKept_trans a b c : Forall2 blockKept a b → Forall2 blockKept b c → Forall2 blockKept a c.
Proof.
  intros H. revert c. induction H; intros c' Hc; inversion Hc; subst; constructor;
    eauto using blockKept_trans.
Qed.

#[global] Instance responseKept_transitive : Transitive responseKept.
Proof.
  intros a b c [] []. split; try congruence.
  destruct (pr_Message a), (pr_Message b), (pr_Message c); simpl in *; try done.
  by eapply Forall2_blockKept_trans.
Qed.

Lemma usageEqual_eq a b : usageEqual a b = true → b = a.
Proof.
  destruct a as [[]|], b as [[]|]; simpl; try done. rewrite !andb_true_iff, !Z.eqb_eq.
  intros (((-> & ->) & ->) & ->). done.
Qed.

Lemma nameOrArgsChanged_false c r : nameOrArgsChanged c r = false →
  tc_name r = tc_name c ∧ tc_arguments_json r = tc_arguments_json c.
Proof.
  unfold nameOrArgsChanged. rewrite orb_false_iff, !negb_false_iff, !String.eqb_eq. done.
Qed.

(** The rule for the stale class: it names a token kept over changed
    content. *)
Class StaleLaw (P : SignaturePolicy) : Prop := {
  stale_kept : ∀ a r ch, ClassifySignatureMutation a r ch = SignatureStale → r = a ∧ ch = true }.

Section Kept.
Context {P : SignaturePolicy} {PL : SignaturePolicyLaws P} {SL : StaleLaw P}.

Lemma block_cleared i c r : validateResponseBlock i c r = Ok tt → blockKept c (clearStale c r).
Proof.
  destruct c as [t|c|], r as [t'|r|]; simpl; try done; [constructor|].
  destruct (String.eqb_spec (tc_id r) (tc_id c)) as [Hid|]; simpl; [|done].
  destruct (negb _ && negb _) eqn:Hc; [done|]. intros _.
  assert (Hsig : tc_signature r = "" ∨ tc_signature r = tc_signature c).
  { destruct (decide (tc_signature r = "")) as [|Hne]; [by left|right].
    apply andb_false_iff in Hc as [Hc|Hc]; apply negb_false_iff in Hc.
    - by destruct (allowed_token _ _ _ Hc Hne).
    - unfold isStale in Hc. case_match eqn:E; try done. by apply stale_kept in E as [? _]. }
  destruct (String.eqb_spec (tc_signature r) "") as [He|Hne]; simpl; [constructor; auto|].
  destruct (String.eqb_spec (tc_signature r) (tc_signature c)) as [Hs|Hs]; simpl; [|by destruct Hsig].
  destruct (nameOrArgsChanged c r) eqn:Hch; constructor; simpl; auto.
  right. by apply nameOrArgsChanged_false in Hch.
Qed.

Lemma blocks_cleared i cur rep : length rep = length cur → validateResponseBlocks i cur rep = Ok tt →
  Forall2 blockKept cur (clearStaleBlocks cur rep).
Proof.
  revert i rep; induction cur as [|c cur IH]; intros i [|r rep]; simpl; try done.
  intros [= Hl] H. inv_ok. constructor; [|by eapply IH].
  destruct x. by eapply block_cleared.
Qed.

Lemma replacement_kept cur rep :
  validateResponseReplacement cur rep = Ok tt → responseKept cur (clearStaleSignatures cur rep).
Proof.
  unfold validateResponseReplacement.
  repeat match goal with |- (if negb ?b then _ else _) = _ → _ =>
    let E := fresh "E" in destruct b eqn:E; simpl; [|discriminate]
  | |- (if ?b then Err _ else _) = _ → _ =>
    let E := fresh "E" in destruct b eqn:E; [discriminate|] end.
  intros Hb. repeat match goal with
  | H : String.eqb _ _ = true |- _ => apply String.eqb_eq in H
  | H : (_ =? _)%Z = true |- _ => apply Z.eqb_eq in H
  | H : usageEqual _ _ = true |- _ => apply usageEqual_eq in H end.
  unfold clearStaleSignatures. destruct (pr_Message cur) as [mc|] eqn:Hc, (pr_Message rep) as [mr|] eqn:Hr;
    try (vm_compute in E, E0; discriminate); split; simpl; rewrite ?Hc, ?Hr; try done.
  destruct (Nat.eqb_spec (length mr) (length mc)); [|done]. simpl in Hb. by eapply blocks_cleared.
Qed.
End Kept.

(** ** The chain *)

Section Chain.
Context {P : SignaturePolicy} {PL : SignaturePolicyLaws P} {SL : StaleLaw P} {ABI : ResponseABI}.
Context {X : ExtensionsCodec} (reqID : N).

Lemma runAfterPlugin_kept lp mutable cur s next s' :
  runAfterPlugin reqID lp mutable cur s = (Ok (Some next), s') → mutable = true ∧ responseKept cur next.
Proof.
  unfold runAfterPlugin. intros H. repeat (case_match; try discriminate).
  injection H as <- _. split; [by destruct mutable|].
  match goal with H : validateResponseReplacement _ _ = Ok ?u |- _ => destruct u end.
  by apply replacement_kept.
Qed.

Lemma runAfterPlugins_kept lps mutable cur m s out m' s' :
  runAfterPlugins reqID lps mutable cur m s = (Ok (out, m'), s') →
  (out = cur ∧ m' = m) ∨ (mutable = true ∧ responseKept cur out ∧ m' = true).
Proof.
  revert cur m s; induction lps as [|lp lps IH]; intros cur m s H; simpl in H; [simplify_eq; by left|].
  destruct (runAfterPlugin reqID lp mutable cur s) as [[[next|]|] s1] eqn:Hr; [|eauto|done].
  apply runAfterPlugin_kept in Hr as [Hm Hk]. right.
  apply IH in H as [[-> ->]|(_ & Hk' & ->)]; [done|]. split_and!; [done|by etrans|done].
Qed.

(** A response as the adapters build it: one arm per block, 32-bit counts. *)
Definition oneArm (b : engine_ResponseBlock) : Prop :=
  match erb_Text b, erb_ToolCall b with Some _, None | None, Some _ => True | _, _ => False end.

Record responseNarrow (r : engine_ChatResponse) : Prop := {
  narrow_arms : ∀ m, er_Message r = Some m → Forall oneArm m;
  narrow_status : in_int32 (er_UpstreamStatus r) = true;
  narrow_usage : ∀ u, er_Usage r = Some u →
    in_int32 (su_input u) = true ∧ in_int32 (su_output u) = true
    ∧ in_int32 (su_cache_read u) = true ∧ in_int32 (su_cache_write u) = true }.

(** [blockKept] on the engine's blocks. *)
Definition engineBlockKept (a b : engine_ResponseBlock) : Prop :=
  match erb_Text a, erb_ToolCall a, erb_Text b, erb_ToolCall b with
  | Some _, None, Some _, None => True
  | None, Some c, None, Some r =>
      rtc_ID r = rtc_ID c ∧
      (rtc_Signature r = "" ∨ rtc_Signature r = rtc_Signature c ∧ rtc_Name r = rtc_Name c
                              ∧ rtc_ArgumentsJSON r = rtc_ArgumentsJSON c)
  | _, _, _, _ => False
  end.

Lemma message_engine_kept m cur : Forall oneArm m → Forall2 blockKept (toPBResponseMessage m) cur →
  Forall2 engineBlockKept m (fromPBResponseMessage cur).
Proof.
  intros Hm. revert cur. induction Hm as [|[[t|] [c|]] m Hb _ IH]; intros cur; try (by destruct Hb);
    unfold toPBResponseMessage; simpl; intros H; inversion H as [|? k ? cur' Hk Hrest]; subst; clear H.
  - constructor.
  - inversion Hk; subst. unfold fromPBResponseMessage. simpl. constructor; [done|by apply IH].
  - inversion Hk; subst. unfold fromPBResponseMessage. simpl. constructor; [done|by apply IH].
Qed.

(** The extensions of a response after a trip to the plugins: encoded, and decoded. *)
Definition reencoded (e : Extensions) : Extensions :=
  let raw := if (0 <? ext_len e)%nat then MarshalExt e else "" in
  if String.eqb raw "" then nilExtensions else UnmarshalExt raw.

(** C18. What reaches the caller after the response hooks.  On an immutable path
    it is the response itself, whatever the plugins returned.  On a mutable one
    every host-owned fact that the check covers (model, id, finish reason, usage,
    upstream status, duration, provider extensions up to their JSON encoding,
    metadata) is the provider's, the message has the same blocks in the same order with the same arms and tool identities, and a
    tool call carries either no token or the provider's token over exactly the
    name and arguments the provider signed, through any chain of plugins. *)
Theorem response_chain_kept plugins resp mutable s resp' s' :
  responseNarrow resp →
  RunAfterResponse reqID plugins resp mutable s = (Ok resp', s') →
  (mutable = false → resp' = resp) ∧
  er_Model resp' = er_Model resp ∧ er_ID resp' = er_ID resp ∧ er_FinishReason resp' = er_FinishReason resp ∧
  er_Usage resp' = er_Usage resp ∧ er_UpstreamStatus resp' = er_UpstreamStatus resp ∧
  er_DurationMS resp' = er_DurationMS resp ∧ er_ToranaMetaJSON resp' = er_ToranaMetaJSON resp ∧
  er_ProviderExtensions resp' ∈ [er_ProviderExtensions resp; reencoded (er_ProviderExtensions resp)] ∧
  match er_Message resp, er_Message resp' with
  | Some m, Some m' => Forall2 engineBlockKept m m'
  | None, None => True
  | _, _ => False
  end.
Proof.
  intros Hn. unfold RunAfterResponse.
  destruct (runAfterPlugins _ _ _ _ _ _) as [[[cur []]|] s1] eqn:Hr; [| |done].
  - apply runAfterPlugins_kept in Hr as [[_ ?]|(Hm & Hk & _)]; [done|]. intros [= <- _].
    destruct Hk as [? ? ? Hu Hs ? Hx ? Hmsg]. simpl in *.
    split; [by rewrite Hm|]. rewrite Hx. rewrite Hs, int32_of_id by apply Hn. split_and!; try done.
    + rewrite Hu. destruct (er_Usage resp) as [[]|] eqn:E; [|done]. simpl.
      destruct (narrow_usage resp Hn _ E) as (? & ? & ? & ?). simpl in *. by rewrite !int32_of_id.
    + right. left.
    + destruct (er_Message resp) as [m|] eqn:E, (pr_Message cur); simpl in *; try done.
      apply message_engine_kept; [|done]. by eapply narrow_arms.
  - intros [= <- _]. split_and!; try done; [left|]. destruct (er_Message resp) as [m|] eqn:E; [|done].
    pose proof (narrow_arms resp Hn m E) as Ha. clear -Ha.
    induction Ha as [|[[t|] [c|]] m Hb _ IH]; try (by destruct Hb); constructor; simpl; auto.
    unfold engineBlockKept; simpl. auto.
Qed.
End Chain.

(** ** A chain at work *)

#[local] Existing Instances documented_policy documented_policy_laws.

#[local] Instance documented_policy_stale : StaleLaw documented_policy.
Proof.
  split. intros a r ch. simpl. unfold documented_classify.
  destruct (String.eqb_spec a r) as [->|]; [|by repeat case_match].
  destruct (signed r), ch; done.
Qed.

#[local] Instance noExtensions : ExtensionsCodec :=
  {| Extensions := unit; nilExtensions := tt; ext_len _ := 0%nat; MarshalExt _ := ""; UnmarshalExt _ := tt |}.

Definition demoCall (name args sig : string) : engine_ResponseBlock :=
  mkERBlock None (Some (mkERToolCall "call-1" name args sig)).

Definition demoResponse : engine_ChatResponse :=
  mkEResponse "m" "anthropic" 1000 "resp-1"
    (Some [mkERBlock (Some "hello") None; demoCall "read" "{}" "token"]) "tool_use"
    (Some (mkStreamUsage 10 20 0 0)) 200 5 tt "".

(** The reply of the first plugin rewrites the arguments and keeps the token;
    that of the second claims another provider. *)
Definition rewritten : pbChatResponse :=
  withMessage (Some [RespText "hi"; RespToolCall (mkToolCall "call-1" "read" "{1}" "token")])
    (ToPBChatResponse demoResponse).
Definition reassigned : pbChatResponse :=
  mkPBResponse "m" "elsewhere" 1 "resp-1" (Some [RespText "hi"; RespToolCall (mkToolCall "call-1" "read" "{1}" "")])
    "tool_use" (Some (mkUsage 10 20 0 0)) 200 5 "" "".

#[local] Instance responseABI : ResponseABI :=
  {| ResponseInputValid _ _ := true;
     DecodeResponseResult raw :=
       if String.eqb raw "rewrite" then Some (Some (Some rewritten))
       else if String.eqb raw "reassign" then Some (Some (Some reassigned)) else None;
     ValidateForAfter _ := true |}.

Definition rewriter : afterPlugin := mkAfterPlugin "rewriter" "block" (λ _ _, mkGuestRun [] (Some "rewrite")).
Definition reassigner : afterPlugin := mkAfterPlugin "reassigner" "block" (λ _ _, mkGuestRun [] (Some "reassign")).

Definition demoAfter (plugins : list afterPlugin) : res afterErr engine_ChatResponse * pipeState :=
  RunAfterResponse 1 plugins demoResponse true (mkPipe (mkRuntime ∅ ∅) ∅).

Lemma demoResponse_narrow : responseNarrow demoResponse.
Proof.
  split; [intros m [= <-]; repeat constructor|done|]. intros u [= <-]. done.
Qed.

Lemma response_chain_kept_witness :
  match demoAfter [rewriter; reassigner] with
  | (Ok resp', _) =>
      er_Model resp' = "m" ∧ er_Message resp' = Some [mkERBlock (Some "hi") None; demoCall "read" "{1}" ""]
  | _ => False
  end.
Proof.
  assert (E : (er_Message <$> match fst (demoAfter [rewriter; reassigner]) with Ok r => Some r | _ => None end)
    = Some (Some [mkERBlock (Some "hi") None; demoCall "read" "{1}" ""])) by (vm_compute; reflexivity).
  destruct (demoAfter [rewriter; reassigner]) as [[resp'|] s'] eqn:H; [|discriminate E].
  destruct (response_chain_kept 1 [rewriter; reassigner] demoResponse true _ _ _ demoResponse_narrow H)
    as (_ & Hm & _). simpl in E. split; [exact Hm|]. by injection E.
Defined.

(** The provider and the completion time of a response are not compared: a
    replacement that forges both is accepted and becomes the next plugin's
    input. *)
Lemma provider_forged :
  validateResponseReplacement (ToPBChatResponse demoResponse)
    (mkPBResponse "m" "elsewhere" 1 "resp-1"
       (Some [RespText "hello"; RespToolCall (mkToolCall "call-1" "read" "{}" "token")]) "tool_use"
       (Some (mkUsage 10 20 0 0)) 200 5 "" "") = Ok tt ∧
  pr_Provider (ToPBChatResponse demoResponse) = "anthropic".
Proof. split; vm_compute; reflexivity. Qed.
