(* ===== verification/BoundedMetadata.v ===== *)
(** * Byte-bounded metadata

    [validIdentity] and [boundedMetadata] of internal/conversation/registry.go,
    with what they use of Go's [strings.ToValidUTF8] and [utf8.RuneStart].  The
    bound is a promise about the output: it is valid UTF-8 and fits, whatever
    the input ([boundedMetadata_ok]). *)

From stdpp Require Import base list strings numbers.
From S2P Require Import Prelude Utf8.

Open Scope Z_scope.

(** [utf8.RuneStart]. *)
Definition RuneStart (b : Z) : bool := negb (Z.land b 0xC0 =? 0x80).

(** [strings.ToValidUTF8]: each maximal run of invalid bytes becomes one
    replacement. *)
Fixpoint toValidF (fuel : nat) (invalid : bool) (s repl : bytes) : bytes :=
  match fuel, s with
  | S fuel, b :: s1 =>
      match decodeRune s with
      | Some (r, s') => encodeRune r ++ toValidF fuel false s' repl
      | None => (if invalid then [] else repl) ++ toValidF fuel true s1 repl
      end
  | _, _ => []
  end.
Definition ToValidUTF8 (s repl : bytes) : bytes := toValidF (length s) false s repl.

Definition MaxIdentityBytes : Z := 128.
Definition MaxProviderBytes : Z := 128.
Definition MaxModelBytes : Z := 512.
Definition MaxFormatBytes : Z := 64.
Definition MaxPathBytes : Z := 4096.

Definition validIdentity (value : bytes) : bool :=
  negb (bool_decide (value = [])) && (Z.of_nat (length value) <=? MaxIdentityBytes) && ValidString value.

(** [for end > 0 && !utf8.RuneStart(value[end]) { end-- }] *)
Fixpoint backToStart (value : bytes) (end_ : nat) : nat :=
  match end_ with
  | O => O
  | S e => if RuneStart (nth end_ value 0) then end_ else backToStart value e
  end.

Definition replacementRune : bytes := [0xEF; 0xBF; 0xBD].
Definition omitted : bytes := [0xE2; 0x80; 0xA6].

Definition boundedMetadata (value : bytes) (limit : Z) : bytes :=
  let value := if ValidString value then value else ToValidUTF8 value replacementRune in
  if Z.of_nat (length value) <=? limit then value
  else if limit <? 3 then
    if limit <=? 0 then [] else take (backToStart value (Z.to_nat limit)) value
  else take (backToStart value (Z.to_nat (limit - 3))) value ++ omitted.

(** ** Valid strings are closed under concatenation and normalization *)

Lemma encodeAll_app a b : encodeAll (a ++ b) = encodeAll a ++ encodeAll b.
Proof. unfold encodeAll. by rewrite fmap_app, concat_app. Qed.

Lemma valid_app a b : ValidString a = true → ValidString b = true → ValidString (a ++ b) = true.
Proof.
  rewrite !ValidString_runes. intros (x & Hx & ->) (y & Hy & ->). exists (x ++ y).
  split; [by apply Forall_app|]. by rewrite encodeAll_app.
Qed.

Lemma valid_rune r : validRune r = true → ValidString (encodeRune r) = true.
Proof.
  intros Hr. apply ValidString_runes. exists [r]. split; [by constructor|].
  unfold encodeAll. simpl. by rewrite app_nil_r.
Qed.

Lemma toValidF_valid fuel invalid s repl :
  ValidString repl = true → ValidString (toValidF fuel invalid s repl) = true.
Proof.
  intros Hr. revert invalid s; induction fuel as [|fuel IH]; intros invalid [|b s]; try done.
  cbn [toValidF]. destruct (decodeRune (b :: s)) as [[r s']|] eqn:E; apply valid_app; auto.
  - apply decode_inv in E as [Hv _]. by apply valid_rune.
  - by destruct invalid.
Qed.

(** ** Rune boundaries *)

Lemma RuneStart_range b : 0 ≤ b < 256 → RuneStart b = negb (within 0x80 0xBF b).
Proof.
  assert (H : forallb (λ n, Bool.eqb (RuneStart (Z.of_nat n)) (negb (within 0x80 0xBF (Z.of_nat n)))) (seq 0 256) = true)
    by (vm_compute; reflexivity).
  rewrite forallb_forall in H. intros Hb. specialize (H (Z.to_nat b)).
  rewrite Z2Nat.id in H by lia. apply Bool.eqb_prop, H. apply in_seq. lia.
Qed.

Lemma start_byte b : 0 ≤ b < 256 → b < 0x80 ∨ 0xC0 ≤ b → RuneStart b = true.
Proof. intros Hb H. rewrite RuneStart_range by done. apply negb_true_iff, within_false. lia. Qed.

Lemma continuation_byte b : 0x80 ≤ b ≤ 0xBF → RuneStart b = false.
Proof. intros H. rewrite RuneStart_range by lia. apply negb_false_iff, within_spec. lia. Qed.

(** The first byte of an encoded rune starts it and no other byte does. *)
Lemma encodeRune_start r : validRune r = true →
  ∃ b cs, encodeRune r = b :: cs ∧ (isByte b ∧ RuneStart b = true)
    ∧ Forall (λ c, isByte c ∧ RuneStart c = false) cs.
Proof.
  assert (Hstart : ∀ b, 0 ≤ b < 256 → b < 0x80 ∨ 0xC0 ≤ b → isByte b ∧ RuneStart b = true)
    by (split; [done|by apply start_byte]).
  assert (Hcont : ∀ b, 0x80 ≤ b ≤ 0xBF → isByte b ∧ RuneStart b = false)
    by (split; [unfold isByte; lia|by apply continuation_byte]).
  intros Hr. unfold encodeRune. rewrite Hr. apply validRune_spec in Hr as [Hr _].
  pose proof (Z.mod_pos_bound r 64 ltac:(lia)).
  pose proof (Z.mod_pos_bound (r / 64) 64 ltac:(lia)). pose proof (Z.mod_pos_bound (r / 4096) 64 ltac:(lia)).
  destruct (Z.leb_spec r 0x7F).
  { exists r, []. split; [done|]. split; [apply Hstart; lia|constructor]. }
  destruct (Z.leb_spec r 0x7FF).
  { assert (0 ≤ r / 64 < 32) by (split; [apply Z.div_pos; lia|apply Z.div_lt_upper_bound; lia]).
    eexists _, _. split; [done|]. split; [apply Hstart; lia|].
    repeat constructor; apply Hcont; lia. }
  destruct (Z.leb_spec r 0xFFFF).
  { assert (0 ≤ r / 4096 < 16) by (split; [apply Z.div_pos; lia|apply Z.div_lt_upper_bound; lia]).
    eexists _, _. split; [done|]. split; [apply Hstart; lia|].
    repeat constructor; apply Hcont; lia. }
  assert (0 ≤ r / 262144 < 8) by (split; [apply Z.div_pos; lia|apply Z.div_lt_upper_bound; lia]).
  eexists _, _. split; [done|]. split; [apply Hstart; lia|].
  repeat constructor; apply Hcont; lia.
Qed.

Lemma valid_bytes s : ValidString s = true → Forall isByte s.
Proof.
  intros (rs & Hrs & ->)%ValidString_runes. induction Hrs as [|r rs Hr _ IH]; [constructor|].
  change (encodeAll (r :: rs)) with (encodeRune r ++ encodeAll rs).
  destruct (encodeRune_start r Hr) as (b & cs & -> & [Hb _] & Hc). apply Forall_app. split; [|done].
  constructor; [done|]. eapply Forall_impl; [|exact Hc]. by intros ? [? _].
Qed.

(** Inside the first rune the loop runs to the beginning. *)
Lemma back_inside b cs t n : Forall (λ c, RuneStart c = false) cs → (n ≤ length cs)%nat →
  backToStart (b :: cs ++ t) n = 0%nat.
Proof.
  intros Hc. induction n as [|n IH]; intros Hn; [done|]. cbn [backToStart nth].
  rewrite app_nth1 by lia. rewrite (proj1 (Forall_forall _ _) Hc); [apply IH; lia|].
  apply nth_In. lia.
Qed.

(** Past a boundary it stops there at the latest. *)
Lemma back_past a t n b t' : t = b :: t' → RuneStart b = true → (length a ≤ n)%nat →
  backToStart (a ++ t) n = (length a + backToStart t (n - length a))%nat.
Proof.
  intros -> Hb. induction n as [|n IH]; intros Hn; [destruct a; [done|simpl in Hn; lia]|].
  destruct (decide (length a = S n)) as [He|Hne].
  - cbn [backToStart]. rewrite <- He, Nat.sub_diag, nth_middle, Hb. simpl. lia.
  - replace (S n - length a)%nat with (S (n - length a))%nat by lia. cbn [backToStart].
    rewrite app_nth2 by lia. replace (S n - length a)%nat with (S (n - length a))%nat by lia.
    destruct (RuneStart (nth _ _ _)); [lia|]. apply IH. lia.
Qed.

Lemma back_boundary rs n : Forall (λ r, validRune r = true) rs → (n < length (encodeAll rs))%nat →
  ∃ pre post, rs = pre ++ post ∧ backToStart (encodeAll rs) n = length (encodeAll pre)
    ∧ (length (encodeAll pre) ≤ n)%nat.
Proof.
  intros Hrs. revert n. induction Hrs as [|r rs Hr Hrs IH]; intros n Hn; [simpl in Hn; lia|].
  change (encodeAll (r :: rs)) with (encodeRune r ++ encodeAll rs) in *.
  destruct (encodeRune_start r Hr) as (b & cs & He & [_ Hb] & Hc).
  destruct (decide (n < length (encodeRune r))%nat) as [Hlt|Hge].
  - exists [], (r :: rs). split; [done|]. rewrite He in *. simpl in Hlt. split; [|simpl; lia].
    apply back_inside; [|lia]. eapply Forall_impl; [|exact Hc]. by intros ? [_ ?].
  - destruct rs as [|r' rs']; [rewrite app_nil_r in Hn; simpl in Hn; rewrite ?app_nil_r in Hn; lia|].
    rewrite length_app in Hn. destruct (IH (n - length (encodeRune r))%nat) as (pre & post & Hrs' & Hback & Hle); [lia|].
    assert (Hhead : ∃ b' t', encodeAll (r' :: rs') = b' :: t' ∧ RuneStart b' = true).
    { inversion Hrs as [|? ? Hr']; subst. destruct (encodeRune_start r' Hr') as (b' & cs' & He' & [_ Hb'] & _).
      exists b', (cs' ++ encodeAll rs'). split; [|done].
      change (encodeAll (r' :: rs')) with (encodeRune r' ++ encodeAll rs'). by rewrite He'. }
    destruct Hhead as (b' & t' & Ht & Hb'). exists (r :: pre), post. split; [by rewrite Hrs'|].
    rewrite (back_past _ _ _ _ _ Ht Hb') by lia. rewrite Hback.
    change (encodeAll (r :: pre)) with (encodeRune r ++ encodeAll pre). rewrite length_app. lia.
Qed.

(** Cutting a valid string back to a rune start gives a valid prefix. *)
Lemma cut_valid s n : ValidString s = true → (n < length s)%nat →
  ValidString (take (backToStart s n) s) = true ∧ (length (take (backToStart s n) s) ≤ n)%nat.
Proof.
  intros (rs & Hrs & ->)%ValidString_runes Hn.
  destruct (back_boundary rs n Hrs Hn) as (pre & post & -> & -> & Hle).
  rewrite encodeAll_app, take_app_length. split; [|done].
  apply ValidString_runes. exists pre. apply Forall_app in Hrs as [? _]. done.
Qed.

(** What is stored for any input: valid UTF-8 within the limit; a valid value
    that fits is stored as it is. *)
Lemma boundedMetadata_ok value limit : 0 ≤ limit →
  ValidString (boundedMetadata value limit) = true ∧
  Z.of_nat (length (boundedMetadata value limit)) ≤ limit ∧
  (ValidString value = true → Z.of_nat (length value) ≤ limit → boundedMetadata value limit = value).
Proof.
  intros Hl. unfold boundedMetadata.
  set (v := if ValidString value then value else ToValidUTF8 value replacementRune).
  assert (Hv : ValidString v = true).
  { subst v. destruct (ValidString value) eqn:E; [done|]. by apply toValidF_valid. }
  split_and!.
  - repeat match goal with |- context [if ?b then _ else _] => destruct b eqn:? end; auto.
    + apply cut_valid; [done|]. lia.
    + apply valid_app; [|done]. apply cut_valid; [done|]. lia.
  - destruct (Z.leb_spec (Z.of_nat (length v)) limit); [done|].
    destruct (Z.ltb_spec limit 3).
    + destruct (Z.leb_spec limit 0); [simpl; lia|].
      destruct (cut_valid v (Z.to_nat limit) Hv); lia.
    + rewrite length_app. destruct (cut_valid v (Z.to_nat (limit - 3)) Hv); [lia|]. simpl. lia.
  - intros H1 H2. subst v. rewrite H1. destruct (Z.leb_spec (Z.of_nat (length value)) limit); [done|lia].
Qed.
