(* ===== verification/ConversationRegistry.v ===== *)
(** * The conversation registry

    [Registry] of internal/conversation/registry.go: which conversations passed
    through the proxy recently.  Every operation runs under one mutex, so a run
    of the registry is a sequence of operations ([regOp]) in the order in which
    they took the lock, each with the clock readings it made.  The janitor
    goroutine contributes eviction steps until it is stopped.

    Times are nanoseconds.  Go's [int] and [int64] counters wrap at 64 bits. *)

From stdpp Require Import base list strings gmap sorting numbers.
From S2P Require Import Prelude Utf8 ByteStrings BoundedMetadata.

Open Scope Z_scope.

Definition int64_of (z : Z) : Z := (z + 9223372036854775808) mod 18446744073709551616 - 9223372036854775808.

Record ConvRecord := mkConvRecord {
  ID : string; CachePrefixKey_ : string; Provider : string; ModelName : string; Format : string;
  Path : string; FirstSeen : Z; LastActive : Z; Turns : Z; LastCacheRead : Z; LastCacheWrite : Z;
  TokensIn : Z; TokensOut : Z; CacheReadTotal : Z; CacheWriteTotal : Z }.

Record Observation := mkObservation {
  obs_TokensIn : Z; obs_TokensOut : Z; obs_ID : string; obs_CachePrefixKey : string;
  obs_Provider : string; obs_Model : string; obs_Format : string; obs_Path : string;
  obs_CacheRead : Z; obs_CacheWrite : Z }.

Record Registry := mkRegistry {
  records : gmap string ConvRecord;
  maxRecords : Z;
  idleTTL : Z;
  stopped : bool }.

Definition DefaultMaxRecords : Z := 500.
Definition DefaultIdleTTL : Z := 6 * 3600 * 1000000000.

(** [New(Options{MaxRecords, IdleTTL})]. *)
Definition Registry_New (max_ ttl : Z) : Registry :=
  mkRegistry ∅ (if max_ <=? 0 then DefaultMaxRecords else max_)
    (if ttl <=? 0 then DefaultIdleTTL else ttl) false.

Definition with_records (m : gmap string ConvRecord) (r : Registry) : Registry :=
  mkRegistry m (maxRecords r) (idleTTL r) (stopped r).

(** The less functions of the two [sort.Slice] calls: least recently active
    first for eviction, most recently active first for listing; identifiers
    break ties. *)
Definition older (a b : ConvRecord) : Prop :=
  LastActive a < LastActive b ∨ LastActive a = LastActive b ∧ String.le (ID a) (ID b).
Definition newer (a b : ConvRecord) : Prop :=
  LastActive b < LastActive a ∨ LastActive a = LastActive b ∧ String.le (ID a) (ID b).

#[global] Instance older_dec : RelDecision older.
Proof. intros a b. unfold older. apply _. Defined.
#[global] Instance newer_dec : RelDecision newer.
Proof. intros a b. unfold newer. apply _. Defined.

Definition older_entry (p q : string * ConvRecord) : Prop := older p.2 q.2.
#[global] Instance older_entry_dec : RelDecision older_entry.
Proof. intros p q. unfold older_entry. apply _. Defined.

(** The records an eviction at [now] finds still alive. *)
Definition live (now : Z) (r : Registry) : gmap string ConvRecord :=
  filter (λ kv, ¬ (LastActive kv.2 < now - idleTTL r)) (records r).

Definition deleteAll (ids : list (string * ConvRecord)) (m : gmap string ConvRecord) : gmap string ConvRecord :=
  foldl (λ m p, delete p.1 m) m ids.

Definition evictLocked (now : Z) (r : Registry) : Registry :=
  let m := live now r in
  if Z.of_nat (size m) <=? maxRecords r then with_records m r
  else
    let ids := merge_sort older_entry (map_to_list m) in
    with_records (deleteAll (take (Z.to_nat (Z.of_nat (size m) - maxRecords r)) ids) m) r.

(** A metadata field, stored within its byte limit. *)
Definition bounded (value : string) (limit : Z) : string := bstr (boundedMetadata (lit value) limit).

Definition newRecord (id : string) (now : Z) : ConvRecord :=
  mkConvRecord id "" "" "" "" "" now 0 0 0 0 0 0 0 0.

Definition updateRecord (obs : Observation) (now : Z) (rec : ConvRecord) : ConvRecord :=
  mkConvRecord (ID rec) (obs_CachePrefixKey obs)
    (bounded (obs_Provider obs) MaxProviderBytes) (bounded (obs_Model obs) MaxModelBytes)
    (bounded (obs_Format obs) MaxFormatBytes)
    (if String.eqb (obs_Path obs) "" then Path rec else bounded (obs_Path obs) MaxPathBytes)
    (FirstSeen rec) now (int64_of (Turns rec + 1)) (obs_CacheRead obs) (obs_CacheWrite obs)
    (int64_of (TokensIn rec + Z.max (obs_TokensIn obs) 0))
    (int64_of (TokensOut rec + Z.max (obs_TokensOut obs) 0))
    (int64_of (CacheReadTotal rec + Z.max (obs_CacheRead obs) 0))
    (int64_of (CacheWriteTotal rec + Z.max (obs_CacheWrite obs) 0)).

Definition observable (obs : Observation) : bool :=
  validIdentity (lit (obs_ID obs))
  && (String.eqb (obs_CachePrefixKey obs) "" || validIdentity (lit (obs_CachePrefixKey obs))).

(** [Observe]: [now] is the reading at entry, [now'] the one inside the
    eviction. *)
Definition Observe (obs : Observation) (now now' : Z) (r : Registry) : Registry :=
  if negb (observable obs) then r
  else
    let rec := default (newRecord (obs_ID obs) now) (records r !! obs_ID obs) in
    evictLocked now' (with_records (<[obs_ID obs := updateRecord obs now rec]> (records r)) r).

Definition Registry_List (r : Registry) : list ConvRecord := merge_sort newer (map_to_list (records r)).*2.
Definition Registry_Get (id : string) (r : Registry) : option ConvRecord :=
  if String.eqb id "" then None else records r !! id.
Definition Registry_Len (r : Registry) : Z := Z.of_nat (size (records r)).
Definition Registry_Close (r : Registry) : Registry := mkRegistry (records r) (maxRecords r) (idleTTL r) true.

(** One round of the janitor: it returns once [stop] is closed. *)
Definition janitorTick (now : Z) (r : Registry) : Registry :=
  if stopped r then r else evictLocked now r.

Inductive regOp :=
| OpObserve (obs : Observation) (now now' : Z)
| OpTick (now : Z)
| OpClose.

Definition regStep (r : Registry) (op : regOp) : Registry :=
  match op with
  | OpObserve obs now now' => Observe obs now now' r
  | OpTick now => janitorTick now r
  | OpClose => Registry_Close r
  end.

Definition regRun (ops : list regOp) (r : Registry) : Registry := foldl regStep r ops.

(** ** The orders *)

#[global] Instance older_total : Total older.
Proof.
  intros a b. unfold older. destruct (Z.lt_total (LastActive a) (LastActive b)) as [?|[?|?]]; [by left; left| |by right; left].
  destruct (total String.le (ID a) (ID b)); [left|right]; right; by split.
Qed.
#[global] Instance older_trans : Transitive older.
Proof.
  intros a b c [?|[? ?]] [?|[? ?]]; unfold older; [left; lia..|]. right. split; [lia|]. by etrans.
Qed.
#[global] Instance newer_total : Total newer.
Proof.
  intros a b. unfold newer. destruct (Z.lt_total (LastActive b) (LastActive a)) as [?|[?|?]]; [by left; left| |by right; left].
  destruct (total String.le (ID a) (ID b)); [left|right]; right; by split.
Qed.
#[global] Instance newer_trans : Transitive newer.
Proof.
  intros a b c [?|[? ?]] [?|[? ?]]; unfold newer; [left; lia..|]. right. split; [lia|]. by etrans.
Qed.
#[global] Instance older_entry_total : Total older_entry.
Proof. intros p q. apply (total older). Qed.
#[global] Instance older_entry_trans : Transitive older_entry.
Proof. intros p q s. apply (transitivity (R:=older)). Qed.

(** ** Eviction *)

Lemma deleteAll_app a b : NoDup (a ++ b).*1 →
  deleteAll a (list_to_map (a ++ b) : gmap string ConvRecord) = list_to_map b.
Proof.
  unfold deleteAll. induction a as [|[k v] a IH]; [done|].
  intros Hn. apply NoDup_cons_1_1 in Hn as Hk. apply NoDup_cons_1_2 in Hn. simpl.
  rewrite delete_insert_id; [by apply IH|]. by apply not_elem_of_list_to_map.
Qed.

(** What an eviction leaves: the live records when they fit, else the most
    recently active [maxRecords] of them. *)
Lemma evict_spec now r : 0 ≤ maxRecords r →
  ∃ gone kept, gone ++ kept ≡ₚ map_to_list (live now r) ∧
    records (evictLocked now r) = list_to_map kept ∧ NoDup (gone ++ kept).*1 ∧
    Z.of_nat (length kept) ≤ maxRecords r ∧
    (∀ p q, p ∈ gone → q ∈ kept → older_entry p q) ∧
    (gone = [] ∨ Z.of_nat (length kept) = maxRecords r).
Proof.
  intros Hmax. unfold evictLocked. set (m := live now r).
  destruct (Z.leb_spec (Z.of_nat (size m)) (maxRecords r)) as [Hle|Hgt].
  - exists [], (map_to_list m). simpl. split_and!; try done.
    + by rewrite list_to_map_to_list.
    + apply NoDup_fst_map_to_list.
    + by rewrite length_map_to_list.
    + by intros ? ? ?%elem_of_nil.
    + by left.
  - set (ids := merge_sort older_entry (map_to_list m)). set (k := Z.to_nat (Z.of_nat (size m) - maxRecords r)).
    assert (Hp : ids ≡ₚ map_to_list m) by apply merge_sort_Permutation.
    assert (Hn : NoDup ids.*1) by (rewrite Hp; apply NoDup_fst_map_to_list).
    assert (Hm : m = list_to_map ids).
    { rewrite <- (list_to_map_to_list m) at 1. by apply list_to_map_proper; [apply NoDup_fst_map_to_list|]. }
    exists (take k ids), (drop k ids). rewrite (take_drop k ids). split_and!; try done.
    + simpl. rewrite Hm at 1. rewrite <- (take_drop k ids) at 2. apply deleteAll_app. by rewrite take_drop.
    + rewrite length_drop, Hp, length_map_to_list. lia.
    + intros p q Hpk Hqk. pose proof (StronglySorted_merge_sort older_entry (map_to_list m)) as Hs.
      fold ids in Hs. rewrite <- (take_drop k ids) in Hs. by eapply StronglySorted_app_1_elem_of.
    + right. rewrite length_drop, Hp, length_map_to_list. lia.
Qed.

Lemma evict_size now r : 0 ≤ maxRecords r → Z.of_nat (size (records (evictLocked now r))) ≤ maxRecords r.
Proof.
  intros Hmax. destruct (evict_spec now r Hmax) as (gone & kept & _ & -> & Hn & Hl & _).
  rewrite fmap_app in Hn. apply list.NoDup_app in Hn as (_ & _ & Hn).
  rewrite <- length_map_to_list, map_to_list_to_map by done. done.
Qed.

(** A survivor is a record of the registry. *)
Lemma evict_subset now r id rec : 0 ≤ maxRecords r →
  records (evictLocked now r) !! id = Some rec →
  records r !! id = Some rec ∧ ¬ (LastActive rec < now - idleTTL r).
Proof.
  intros Hmax H. destruct (evict_spec now r Hmax) as (gone & kept & Hp & Hr & _).
  rewrite Hr in H. apply elem_of_list_to_map_2 in H.
  assert (Hin : (id, rec) ∈ map_to_list (live now r)) by (rewrite <- Hp; apply elem_of_app; by right).
  apply elem_of_map_to_list, map_lookup_filter_Some in Hin. done.
Qed.

(** A record that does not survive had expired, or every survivor was more
    recently active. *)
Lemma evict_lru now r id rec : 0 ≤ maxRecords r →
  records r !! id = Some rec → records (evictLocked now r) !! id = None →
  LastActive rec < now - idleTTL r ∨
  (∀ id' rec', records (evictLocked now r) !! id' = Some rec' → older rec rec') ∧
  Z.of_nat (size (records (evictLocked now r))) = maxRecords r.
Proof.
  intros Hmax Hr Hgone. destruct (decide (LastActive rec < now - idleTTL r)) as [|Hl]; [by left|right].
  destruct (evict_spec now r Hmax) as (gone & kept & Hp & Hkept & Hn & Hlen & Hold & Hfit).
  assert (Hin : (id, rec) ∈ gone ++ kept).
  { rewrite Hp. apply elem_of_map_to_list, map_lookup_filter_Some. done. }
  rewrite fmap_app in Hn. apply list.NoDup_app in Hn as (Hng & _ & Hnk).
  apply elem_of_app in Hin as [Hin|Hin].
  - split.
    + intros id' rec' H'. rewrite Hkept in H'. apply elem_of_list_to_map_2 in H'. by apply (Hold _ _ Hin H').
    + rewrite Hkept, <- length_map_to_list, map_to_list_to_map by done.
      destruct Hfit as [->|?]; [by apply elem_of_nil in Hin|done].
  - rewrite Hkept in Hgone. apply (elem_of_list_to_map_1 _ _ _ Hnk) in Hin. congruence.
Qed.

(** ** The invariant *)

Definition fitsField (s : string) (limit : Z) : Prop :=
  ValidString (lit s) = true ∧ Z.of_nat (String.length s) ≤ limit.

Record recordOk (id : string) (rec : ConvRecord) : Prop := {
  ok_id : ID rec = id;
  ok_identity : validIdentity (lit id) = true;
  ok_prefix : CachePrefixKey_ rec = "" ∨ validIdentity (lit (CachePrefixKey_ rec)) = true;
  ok_provider : fitsField (Provider rec) MaxProviderBytes;
  ok_model : fitsField (ModelName rec) MaxModelBytes;
  ok_format : fitsField (Format rec) MaxFormatBytes;
  ok_path : fitsField (Path rec) MaxPathBytes }.

(** The bytes of the strings of a record. *)
Definition recordBytes (rec : ConvRecord) : Z :=
  Z.of_nat (String.length (ID rec) + String.length (CachePrefixKey_ rec) + String.length (Provider rec)
            + String.length (ModelName rec) + String.length (Format rec) + String.length (Path rec)).
Definition MaxRecordBytes : Z := 5056.

Record regOk (r : Registry) : Prop := {
  ok_max : 0 < maxRecords r;
  ok_ttl : 0 < idleTTL r;
  ok_size : Registry_Len r ≤ maxRecords r;
  ok_records : ∀ id rec, records r !! id = Some rec → recordOk id rec }.

Lemma lit_length s : length (lit s) = String.length s.
Proof. induction s; simpl; auto. Qed.

Lemma bounded_fits s limit : 0 ≤ limit → fitsField (bounded s limit) limit.
Proof.
  intros Hl. destruct (boundedMetadata_ok (lit s) limit Hl) as (Hv & Hlen & _). unfold bounded, fitsField.
  rewrite <- lit_length, lit_bstr by by apply valid_bytes. done.
Qed.

Lemma empty_fits limit : 0 ≤ limit → fitsField "" limit.
Proof. done. Qed.

Lemma identity_fits s : validIdentity (lit s) = true → Z.of_nat (String.length s) ≤ MaxIdentityBytes.
Proof.
  unfold validIdentity. rewrite !andb_true_iff, Z.leb_le, lit_length. by intros ((_ & H) & _).
Qed.

Lemma newRecord_ok id now : validIdentity (lit id) = true → recordOk id (newRecord id now).
Proof. intros H. split; try done; try (by left). all: by apply empty_fits. Qed.

Lemma updateRecord_ok obs now rec : observable obs = true → recordOk (obs_ID obs) rec →
  recordOk (obs_ID obs) (updateRecord obs now rec).
Proof.
  unfold observable. rewrite andb_true_iff, orb_true_iff. intros [Hid Hpre] [Hi _ _ _ _ _ Hp].
  split; simpl; try done; try (by apply bounded_fits).
  - destruct Hpre as [?%String.eqb_eq|?]; auto.
  - case_match; [done|]. by apply bounded_fits.
Qed.

Lemma evict_ok now r : 0 < maxRecords r → 0 < idleTTL r →
  (∀ id rec, records r !! id = Some rec → recordOk id rec) → regOk (evictLocked now r).
Proof.
  intros Hm Ht Hr.
  assert (Hs : maxRecords (evictLocked now r) = maxRecords r ∧ idleTTL (evictLocked now r) = idleTTL r)
    by (unfold evictLocked; by case_match).
  destruct Hs as [Hs1 Hs2]. split; rewrite ?Hs1, ?Hs2; try done.
  - unfold Registry_Len. apply evict_size. lia.
  - intros id rec Hin. apply evict_subset in Hin as [Hin _]; [eauto|lia].
Qed.

Lemma regStep_ok r op : regOk r → regOk (regStep r op).
Proof.
  intros Hr. destruct op as [obs now now'|now|]; simpl.
  - unfold Observe. destruct (observable obs) eqn:Ho; simpl; [|done].
    destruct Hr as [Hm Ht _ Hr]. apply evict_ok; try done. simpl.
    intros id rec. rewrite lookup_insert_Some. intros [[<- <-]|[_ ?]]; [|eauto].
    apply updateRecord_ok; [done|]. destruct (records r !! obs_ID obs) eqn:E; simpl; [eauto|].
    apply newRecord_ok. unfold observable in Ho. by apply andb_true_iff in Ho as [? _].
  - unfold janitorTick. case_match; [done|]. destruct Hr. by apply evict_ok.
  - by destruct Hr.
Qed.

Lemma New_ok max_ ttl : regOk (Registry_New max_ ttl).
Proof.
  unfold Registry_New, DefaultMaxRecords, DefaultIdleTTL. split; simpl.
  - destruct (Z.leb_spec max_ 0); lia.
  - destruct (Z.leb_spec ttl 0); lia.
  - unfold Registry_Len. simpl. rewrite map_size_empty. destruct (Z.leb_spec max_ 0); lia.
  - intros id rec. by rewrite lookup_empty.
Qed.

Lemma regRun_ok ops r : regOk r → regOk (regRun ops r).
Proof. revert r; induction ops; intros r Hr; simpl; auto using regStep_ok. Qed.

Lemma recordBytes_bound id rec : recordOk id rec → recordBytes rec ≤ MaxRecordBytes.
Proof.
  intros [Hi Hid Hpre [_ H1] [_ H2] [_ H3] [_ H4]]. unfold recordBytes, MaxRecordBytes.
  rewrite Hi. apply identity_fits in Hid.
  assert (Z.of_nat (String.length (CachePrefixKey_ rec)) ≤ MaxIdentityBytes)
    by (destruct Hpre as [->|?%identity_fits]; done).
  unfold MaxIdentityBytes, MaxProviderBytes, MaxModelBytes, MaxFormatBytes, MaxPathBytes in *. lia.
Qed.

Lemma map_sum_bound (f : string → ConvRecord → Z) b (m : gmap string ConvRecord) :
  (∀ k x, m !! k = Some x → f k x ≤ b) → map_sum f m ≤ b * Z.of_nat (size m).
Proof.
  induction m as [|k x m Hk IH] using map_ind; intros H; [rewrite map_sum_empty, map_size_empty; lia|].
  rewrite map_sum_insert_new, map_size_insert_None by done.
  assert (f k x ≤ b) by (apply H, lookup_insert_eq).
  assert (map_sum f m ≤ b * Z.of_nat (size m)); [|lia].
  apply IH. intros k' x' Hk'. apply H. rewrite lookup_insert_ne; [done|congruence].
Qed.

(** C19. The registry is a bounded structure under any sequence of observations,
    janitor rounds and closings: never more than [maxRecords] conversations,
    every record filed under its own valid identity with metadata that is valid
    UTF-8 within its limit, and so never more than [maxRecords] times 5056
    bytes of strings, however large the strings of the requests. *)
Theorem registry_bounded max_ ttl ops :
  let r := regRun ops (Registry_New max_ ttl) in
  Registry_Len r ≤ maxRecords r ∧
  (∀ id rec, records r !! id = Some rec → recordOk id rec) ∧
  map_sum (λ _ rec, recordBytes rec) (records r) ≤ MaxRecordBytes * maxRecords r.
Proof.
  intros r. pose proof (regRun_ok ops _ (New_ok max_ ttl)) as Hok. fold r in Hok.
  destruct Hok as [Hm _ Hs Hr]. split_and!; [done|done|].
  transitivity (MaxRecordBytes * Registry_Len r); [|unfold MaxRecordBytes; nia].
  apply map_sum_bound. intros k x Hk. eapply recordBytes_bound. eauto.
Qed.

(** A listing is complete and deterministic: the records of the registry,
    most recently active first, ties broken by identifier; any list of exactly
    these records in that order is this one, so neither the iteration order of
    the map nor the sorting algorithm can show. *)
Theorem list_deterministic max_ ttl ops :
  let r := regRun ops (Registry_New max_ ttl) in
  Registry_List r ≡ₚ (map_to_list (records r)).*2 ∧ StronglySorted newer (Registry_List r) ∧ NoDup (ID <$> Registry_List r) ∧
  (∀ l, l ≡ₚ (map_to_list (records r)).*2 → Sorted newer l → l = Registry_List r).
Proof.
  intros r. pose proof (regRun_ok ops _ (New_ok max_ ttl)) as Hok. fold r in Hok.
  assert (Hp : Registry_List r ≡ₚ (map_to_list (records r)).*2) by apply merge_sort_Permutation.
  assert (Hids : ID <$> (map_to_list (records r)).*2 = (map_to_list (records r)).*1).
  { rewrite <- list_fmap_compose. apply list_fmap_ext. intros i [id rec] Hi. simpl.
    apply list_elem_of_lookup_2, elem_of_map_to_list in Hi. eapply ok_id, ok_records; eauto. }
  assert (Hn : NoDup (ID <$> (map_to_list (records r)).*2))
    by (rewrite Hids; apply NoDup_fst_map_to_list).
  split_and!; [done|apply (StronglySorted_merge_sort newer)|by rewrite Hp|].
  intros l Hl Hs. apply (Sorted_unique_strong newer); [|done|apply Sorted_merge_sort, _|by rewrite Hl, Hp].
  intros a b Ha Hb Hab Hba. rewrite Hl in Ha. rewrite Hp in Hb.
  apply list_elem_of_lookup in Ha as [i Ha]. apply list_elem_of_lookup in Hb as [j Hb].
  assert (Heq : ID a = ID b).
  { destruct Hab as [?|[? H1]], Hba as [?|[? H2]]; try lia. by apply (anti_symm String.le). }
  enough (i = j) by (subst; congruence).
  apply (NoDup_lookup (ID <$> (map_to_list (records r)).*2) i j (ID a) Hn);
    rewrite list_lookup_fmap, ?Ha, ?Hb; simpl; congruence.
Qed.

(** An observation under a clock that has moved on: the conversation is
    listed with its turn recorded, whatever the load; no other record changes;
    and one that disappears had been idle for longer than the limit, or was
    less recently active than everything that stays while the registry is
    full. *)
Theorem observe_effect max_ ttl ops obs now now' :
  let r := regRun ops (Registry_New max_ ttl) in
  let r' := Observe obs now now' r in
  observable obs = true → (∀ id rec, records r !! id = Some rec → LastActive rec < now) →
  now' - idleTTL r ≤ now →
  Registry_Get (obs_ID obs) r' = Some (updateRecord obs now (default (newRecord (obs_ID obs) now) (records r !! obs_ID obs))) ∧
  ∀ id rec, id ≠ obs_ID obs → records r !! id = Some rec →
    records r' !! id = Some rec ∨
    records r' !! id = None ∧
    (LastActive rec < now' - idleTTL r ∨
     Registry_Len r' = maxRecords r ∧ ∀ id' rec', records r' !! id' = Some rec' → older rec rec').
Proof.
  intros r r' Ho Hclock Hfresh. pose proof (regRun_ok ops _ (New_ok max_ ttl)) as Hok. fold r in Hok.
  destruct Hok as [Hm _ _ Hr]. subst r'. unfold Observe. rewrite Ho. cbn [negb].
  set (rec0 := updateRecord obs now _). set (r1 := with_records (<[obs_ID obs := rec0]> (records r)) r).
  assert (Hmax : 0 ≤ maxRecords r1) by (simpl; lia). split.
  - assert (Hid : obs_ID obs ≠ "").
    { intros E. unfold observable in Ho. rewrite E in Ho. by vm_compute in Ho. }
    unfold Registry_Get. destruct (String.eqb_spec (obs_ID obs) ""); [done|].
    assert (H1 : records r1 !! obs_ID obs = Some rec0) by apply lookup_insert_eq.
    destruct (records (evictLocked now' r1) !! obs_ID obs) as [x|] eqn:E.
    { apply evict_subset in E as [E _]; [congruence|done]. }
    destruct (evict_lru now' r1 _ _ Hmax H1 E) as [Hx|[Hold Hfull]]; [simpl in Hx; lia|].
    destruct (map_choose (records (evictLocked now' r1))) as (id' & rec' & Hs).
    { intros He. rewrite He, map_size_empty in Hfull. simpl in Hfull. lia. }
    pose proof (Hold id' rec' Hs) as Hlt. pose proof Hs as Hs'. apply evict_subset in Hs as [Hs _]; [|done].
    simpl in Hs. apply lookup_insert_Some in Hs as [[<- _]|[_ Hs]]; [congruence|].
    specialize (Hclock _ _ Hs). destruct Hlt as [Hlt|[Hlt _]]; simpl in Hlt; lia.
  - intros id rec Hne Hid. assert (H1 : records r1 !! id = Some rec) by (simpl; by rewrite lookup_insert_ne).
    destruct (records (evictLocked now' r1) !! id) as [x|] eqn:E.
    { left. apply evict_subset in E as [E _]; [congruence|done]. }
    right. split; [done|]. destruct (evict_lru now' r1 _ _ Hmax H1 E) as [?|[? ?]]; [by left|by right].
Qed.

(** ** A registry of two *)

Definition demoObs (id model : string) : Observation :=
  mkObservation 10 5 id "" "openai" model "chat" "/v1/chat" 0 0.

(** Three conversations, one per second, in a registry of two. *)
Definition demoOps : list regOp :=
  [OpObserve (demoObs "a" "m") 1000 1000; OpObserve (demoObs "b" "m") 2000 2000].

Lemma observe_effect_witness :
  Registry_Get "c" (Observe (demoObs "c" "n") 3000 3000 (regRun demoOps (Registry_New 2 100000)))
    = Some (updateRecord (demoObs "c" "n") 3000 (newRecord "c" 3000)) ∧
  Registry_Len (Observe (demoObs "c" "n") 3000 3000 (regRun demoOps (Registry_New 2 100000))) = 2.
Proof.
  split; [|vm_compute; reflexivity].
  apply (observe_effect 2 100000 demoOps (demoObs "c" "n") 3000 3000).
  - vm_compute. reflexivity.
  - intros id rec H.
    assert (Hall : forallb (λ kv, LastActive kv.2 <? 3000)
      (map_to_list (records (regRun demoOps (Registry_New 2 100000)))) = true) by (vm_compute; reflexivity).
    rewrite forallb_forall in Hall. apply Z.ltb_lt, (Hall (id, rec)).
    apply list_elem_of_In, elem_of_map_to_list, H.
  - vm_compute. discriminate.
Defined.

(** Two conversations of the same clock reading in a registry of one: the one
    observed last is the one dropped when its identifier is the smaller. *)
Lemma tie_drops_latest :
  Registry_Get "a" (Observe (demoObs "a" "m") 1000 1000
             (regRun [OpObserve (demoObs "b" "m") 1000 1000] (Registry_New 1 100000))) = None.
Proof. vm_compute. reflexivity. Qed.
