(* ===== verification/ConversationKeys.v ===== *)
(** * Conversation labels and cache keys

    internal/engine/conversation.go: [ConversationID], derived from the
    messages that do not change as a conversation grows,
    [ExternalConversationID], and [CachePrefixKey], all truncated SHA-256
    digests of length-framed fields.  A hasher is the bytes written to it.  The
    digest and the SDK's observable prefix are parameters. *)

From stdpp Require Import base list strings pretty numbers.
From Stdlib Require Import Ascii.
From S2P Require Import Prelude StreamEvents Utf8 RawJSON EngineRequest ByteStrings RequestIR RequestConv Framing.

(** ** Writers *)

Definition writeHashFieldBytes (h : hasher) (b : string) : hasher := h +:+ PutUint64 (ulen b) +:+ b.
Definition writeHashField (h : hasher) (s : string) : hasher := h +:+ PutUint64 (ulen s) +:+ s.

Definition keyBytes : nat := 6.
Definition domainConversation : string := "torana/conversation/v1".
Definition domainExternalConversation : string := "torana/conversation/external/v1".
Definition domainCachePrefix : string := "torana/cache-prefix/v1".

(** [hex.EncodeToString]. *)
Definition hexChar (n : N) : ascii := ascii_of_N (if (n <? 10)%N then 48 + n else 87 + n)%N.
Fixpoint EncodeToString (s : string) : string :=
  match s with
  | EmptyString => ""
  | String c s' =>
      String (hexChar (N_of_ascii c / 16)) (String (hexChar (N_of_ascii c mod 16)) (EncodeToString s'))
  end.

Fixpoint stake (n : nat) (s : string) : string :=
  match n, s with
  | S n, String c s' => String c (stake n s')
  | _, _ => ""
  end.

Section Keys.
Context (sha256 : string → string).
(** [pb.RequestObservablePrefix]: [None] outside the SDK's domain. *)
Context (RequestObservablePrefix : ChatRequest → option string).

Definition shortHex (h : hasher) : string := EncodeToString (stake keyBytes (sha256 h)).

Definition ExternalConversationID (source value : string) : string :=
  if String.eqb source "" || String.eqb value "" then ""
  else shortHex (writeHashField (writeHashField (writeHashField "" domainExternalConversation) source) value).

(** The loop of [ConversationID]: every system message until the first user
    message, which ends it. *)
Fixpoint hashRoots (h : hasher) (stable : nat) (ms : list engine_Message) : string :=
  match ms with
  | [] => if (stable =? 0)%nat then "" else shortHex h
  | m :: ms' =>
      if String.eqb (em_Role m) "system" then
        hashRoots (writeHashField (writeHashField h "system") (Message_Text m)) (S stable) ms'
      else if String.eqb (em_Role m) "user" then
        shortHex (writeHashField (writeHashField h "user") (Message_Text m))
      else hashRoots h stable ms'
  end.

Definition ConversationID (c : engine_ChatRequest) : string :=
  if bool_decide (eq_Messages c = []) then ""
  else hashRoots (writeHashField "" domainConversation) 0 (eq_Messages c).

Definition CachePrefixKeyTopology (pbReq : ChatRequest) (topo : TopologyFacts) : string :=
  match RequestObservablePrefix pbReq with
  | None => ""
  | Some prefix =>
      let h := writeHashField "" domainCachePrefix in
      let h := writeHashFieldBytes h prefix in
      let h := writeHashField h "topology" in
      let h := writeHashField h (if CodeAssist topo then "codeassist" else "bare") in
      let h := writeHashField h "variant" in
      let h := writeHashField h (pretty (OpenAIVariant topo)) in
      let h := writeHashField h (if ResponsesInstructions topo then "responses-instructions"
                                 else "responses-input-only") in
      shortHex (writeHashFieldBytes h (pbBytes (OptionalArray_Bytes (ResponsesInputLayout topo))))
  end.

Definition CachePrefixKey (pbReq : ChatRequest) : string := CachePrefixKeyTopology pbReq topology0.

(** ** Keys as digests of field lists *)

Definition beFrame (s : string) : string := PutUint64 (ulen s) +:+ s.
Definition framed (fields : list string) : string := sconcat (beFrame <$> fields).

#[global] Instance beFrame_code : PrefixCode any beFrame.
Proof.
  intros p q x y _ _ Hs H. unfold beFrame in *. rewrite !sapp_assoc in *.
  assert (Hq : small (PutUint64 (ulen q) +:+ q +:+ y)) by (rewrite <- H; done).
  apply sapp_cancel_len in H as [Hl H]; [|by rewrite !PutUint64_length].
  apply (f_equal Uint64) in Hl. pose proof (small_u64 p) as H1. pose proof (small_u64 q) as H2.
  rewrite !Uint64_PutUint64 in Hl.
  - unfold ulen in Hl. apply sapp_cancel_len in H; [done|lia].
  - apply small_app_r, small_app_l in Hq. apply H2 in Hq. unfold two64, max_uint64 in *. lia.
  - apply small_app_r, small_app_l in Hs. apply H1 in Hs. unfold two64, max_uint64 in *. lia.
Qed.

Lemma framed_inj l k : small (framed l) → framed l = framed k → l = k.
Proof.
  intros Hs H. apply (sconcat_code_inj any beFrame); [|by apply Forall_true..|done|done].
  intros a Ha. apply (f_equal String.length) in Ha. unfold beFrame in Ha.
  rewrite str_length_app, PutUint64_length in Ha. simpl in Ha. lia.
Qed.

Lemma framed_snoc l s : framed l +:+ PutUint64 (ulen s) +:+ s = framed (l ++ [s]).
Proof. unfold framed. rewrite fmap_app, sconcat_app. simpl. by rewrite app_empty_r. Qed.

(** ** What a key is derived from *)

(** The roots of a conversation: the system messages before the first user
    message, and that message. *)
Fixpoint roots (ms : list engine_Message) : list (string * string) :=
  match ms with
  | [] => []
  | m :: ms' =>
      if String.eqb (em_Role m) "system" then ("system", Message_Text m) :: roots ms'
      else if String.eqb (em_Role m) "user" then [("user", Message_Text m)]
      else roots ms'
  end.

Definition rootFields (rs : list (string * string)) : list string := rs ≫= λ r, [r.1; r.2].

Lemma hashRoots_roots h stable ms :
  hashRoots (framed h) stable ms =
  if (stable + length (roots ms) =? 0)%nat then "" else shortHex (framed (h ++ rootFields (roots ms))).
Proof.
  revert h stable; induction ms as [|m ms IH]; intros h stable; simpl.
  - rewrite Nat.add_0_r, app_nil_r. done.
  - unfold writeHashField. destruct (String.eqb (em_Role m) "system").
    + rewrite !framed_snoc, IH. simpl. rewrite <- !app_assoc. simpl. by rewrite Nat.add_succ_r.
    + destruct (String.eqb (em_Role m) "user"); [|apply IH].
      rewrite !framed_snoc. simpl. rewrite Nat.add_1_r. simpl. by rewrite <- !app_assoc.
Qed.

(** The label is a digest of the roots, and empty without them. *)
Lemma ConversationID_roots c :
  ConversationID c =
  match roots (eq_Messages c) with
  | [] => ""
  | rs => shortHex (framed (domainConversation :: rootFields rs))
  end.
Proof.
  unfold ConversationID. case_bool_decide as Hm; [by rewrite Hm|].
  change (writeHashField "" domainConversation) with (framed [domainConversation]).
  rewrite hashRoots_roots. by destruct (roots (eq_Messages c)).
Qed.

Definition hasUser (ms : list engine_Message) : bool := existsb (λ m, String.eqb (em_Role m) "user") ms.

Lemma roots_user pre m rest : em_Role m = "user" → hasUser pre = false →
  roots (pre ++ m :: rest) = roots pre ++ [("user", Message_Text m)].
Proof.
  intros Hm. induction pre as [|x pre IH]; simpl; intros H.
  - rewrite Hm. done.
  - apply orb_false_iff in H as [Hx Hp]. rewrite Hx, (IH Hp).
    by destruct (String.eqb (em_Role x) "system").
Qed.

(** Turns that are neither system nor user messages leave no trace. *)
Lemma roots_filter ms :
  roots (filter (λ m, em_Role m = "system" ∨ em_Role m = "user") ms) = roots ms.
Proof.
  induction ms as [|m ms IH]; [done|]. rewrite filter_cons. simpl.
  destruct (decide _) as [[H|H]|H]; simpl; rewrite ?H, ?IH; try done.
  destruct (String.eqb_spec (em_Role m) "system"); [by destruct H; left|].
  destruct (String.eqb_spec (em_Role m) "user"); [by destruct H; right|]. done.
Qed.

(** A conversation keeps its label as it grows: once it has a user message,
    appending turns, changing model, tools or any other field, and rewriting
    the messages of the assistant and of tools leave the label as it is. *)
Theorem conversation_label_stable c c' extra :
  hasUser (eq_Messages c) = true →
  filter (λ m, em_Role m = "system" ∨ em_Role m = "user") (eq_Messages c')
    = filter (λ m, em_Role m = "system" ∨ em_Role m = "user") (eq_Messages c ++ extra) →
  ConversationID c' = ConversationID c.
Proof.
  intros Hu Hf. rewrite !ConversationID_roots, <- (roots_filter (eq_Messages c')), Hf, roots_filter.
  enough (roots (eq_Messages c ++ extra) = roots (eq_Messages c)) as -> by done.
  clear Hf. induction (eq_Messages c) as [|m ms IH]; [done|]. simpl in *.
  destruct (String.eqb (em_Role m) "system") eqn:Hs.
  - apply String.eqb_eq in Hs. rewrite Hs in Hu. simpl in Hu. by rewrite IH.
  - destruct (String.eqb (em_Role m) "user"); [done|]. by apply IH.
Qed.

(** ** Separation *)

(** Everything a key can name. *)
Inductive keyed :=
| KConversation (rs : list (string * string))
| KExternal (source value : string)
| KCachePrefix (prefix : string) (topo : TopologyFacts).

Definition keyFields (k : keyed) : list string :=
  match k with
  | KConversation rs => domainConversation :: rootFields rs
  | KExternal s v => [domainExternalConversation; s; v]
  | KCachePrefix p t =>
      [domainCachePrefix; p; "topology"; if CodeAssist t then "codeassist" else "bare"; "variant";
       pretty (OpenAIVariant t);
       if ResponsesInstructions t then "responses-instructions" else "responses-input-only";
       pbBytes (OptionalArray_Bytes (ResponsesInputLayout t))]
  end.

Definition keyOf (k : keyed) : string := shortHex (framed (keyFields k)).

Lemma ConversationID_key c : roots (eq_Messages c) ≠ [] →
  ConversationID c = keyOf (KConversation (roots (eq_Messages c))).
Proof. rewrite ConversationID_roots. by destruct (roots (eq_Messages c)). Qed.

Lemma ExternalConversationID_key s v : s ≠ "" → v ≠ "" → ExternalConversationID s v = keyOf (KExternal s v).
Proof.
  intros Hs Hv. unfold ExternalConversationID.
  destruct (String.eqb_spec s ""), (String.eqb_spec v ""); try done. simpl. unfold keyOf, writeHashField.
  change (("" +:+ PutUint64 (ulen domainExternalConversation) +:+ domainExternalConversation))
    with (framed [domainExternalConversation]).
  by rewrite !framed_snoc.
Qed.

Lemma CachePrefixKey_key r t p : RequestObservablePrefix r = Some p →
  CachePrefixKeyTopology r t = keyOf (KCachePrefix p t).
Proof.
  intros Hp. unfold CachePrefixKeyTopology, keyOf, writeHashField, writeHashFieldBytes. rewrite Hp.
  change (("" +:+ PutUint64 (ulen domainCachePrefix) +:+ domainCachePrefix)) with (framed [domainCachePrefix]).
  by rewrite !framed_snoc.
Qed.

Lemma rootFields_inj a b : rootFields a = rootFields b → a = b.
Proof.
  unfold rootFields. revert b; induction a as [|[x y] a IH]; intros [|[x' y'] b]; simpl; try done.
  intros [= -> -> H]. by rewrite (IH b H).
Qed.

(** A layout is absent or holds bytes. *)
Definition layoutOk (k : keyed) : Prop :=
  if k is KCachePrefix _ t then
    if oa_bytes (ResponsesInputLayout t) is Some b then b ≠ [] ∧ Forall isByte b else True
  else True.

Lemma pbBytes_inj a b :
  (if a is Some x then x ≠ [] ∧ Forall isByte x else True) →
  (if b is Some x then x ≠ [] ∧ Forall isByte x else True) → pbBytes a = pbBytes b → a = b.
Proof.
  unfold pbBytes. destruct a as [a|], b as [b|]; simpl; try done.
  - intros [_ Ha] [_ Hb] H. apply (f_equal lit) in H. rewrite !lit_bstr in H by done. by subst.
  - intros [Ha _] _ H. by destruct a.
  - intros _ [Hb _] H. by destruct b.
Qed.

Lemma keyFields_inj a b : layoutOk a → layoutOk b → keyFields a = keyFields b → a = b.
Proof.
  destruct a as [ra|sa va|pa [ca va ia [la]]], b as [rb|sb vb|pb [cb vb ib [lb]]]; simpl; intros Ha Hb H;
    try discriminate H.
  - injection H as H. f_equal. by apply rootFields_inj.
  - by injection H as -> ->.
  - injection H as -> Hc Hv Hi Hl. apply (inj pretty) in Hv. apply pbBytes_inj in Hl; [|done..].
    assert (ca = cb) by (by destruct ca, cb). assert (ia = ib) by (by destruct ia, ib). by subst.
Qed.

(** Keys name what they are derived from.  The fields are framed and every
    kind of key has its own domain, so two hashed records are the same only for
    the same roots, the same external identity under the same source, or the
    same observable prefix under the same topology facts: unless the truncated
    digest collides on these two records, equal keys name equal things, and a
    label is never a cache key. *)
Theorem keys_separate a b :
  layoutOk a → layoutOk b → small (framed (keyFields a)) →
  (shortHex (framed (keyFields a)) = shortHex (framed (keyFields b)) →
   framed (keyFields a) = framed (keyFields b)) →
  keyOf a = keyOf b → a = b.
Proof. intros Ha Hb Hs Hc Hk. apply keyFields_inj, framed_inj, Hc, Hk; done. Qed.
End Keys.

(** ** Concrete keys *)

Definition demoDigest (s : string) : string := PutUint64 (be_fold 0 s mod 281474976710597 * 65536).

Definition demoMessages : list engine_Message :=
  [mkEMessage "system" [blockText (mkETextBlock "be brief" "" (mkOptionalObject None))];
   mkEMessage "user" [blockText (mkETextBlock "hello" "" (mkOptionalObject None))]].
Definition demoConversation (ms : list engine_Message) : engine_ChatRequest :=
  mkERequest "m" ms [] false None None None [] None (mkOptionalArray None) (mkOptionalObject None)
    (mkOptionalObject None) topology0.
Definition demoTurn : engine_Message :=
  mkEMessage "assistant" [blockText (mkETextBlock "hi" "" (mkOptionalObject None))].

Lemma conversation_label_stable_witness :
  ConversationID demoDigest (demoConversation (demoMessages ++ [demoTurn]))
  = ConversationID demoDigest (demoConversation demoMessages).
Proof.
  apply (conversation_label_stable demoDigest (demoConversation demoMessages)
    (demoConversation (demoMessages ++ [demoTurn])) []); vm_compute; reflexivity.
Defined.

Definition demoThread : keyed := KExternal "codex-thread" "1".
Definition demoSession : keyed := KExternal "codex-session" "1".

Lemma keys_separate_witness : keyOf demoDigest demoThread ≠ keyOf demoDigest demoSession.
Proof.
  intros H. enough (demoThread = demoSession) by discriminate.
  apply (keys_separate demoDigest demoThread demoSession I I); [vm_compute; reflexivity| |exact H].
  intros Hs. exfalso. revert Hs. vm_compute. discriminate.
Defined.
