(* ===== verification/LocalCache.v ===== *)
(** * The local cache

    [LocalCache] of internal/cache/cache.go: a key/value store with expiry, and
    with entry and byte bounds enforced by least-recently-used eviction.  The
    map and the recency list are two structures that must agree, and a running
    byte count summarises both.  List elements are represented by their keys,
    front first.  Operations run under one mutex; the eviction goroutine
    contributes [OpSweep] steps.

    The specification is a map without bounds ([specStep]): a hit is always the
    last value set and not deleted, before its expiry. *)

From stdpp Require Import base list strings gmap numbers.
From S2P Require Import Prelude ByteStrings.

Open Scope Z_scope.

Record cacheEntry := mkEntry { ce_value : string; ce_expiresAt : Z; ce_size : Z }.

Record LocalCache := mkCache {
  entries : gmap string cacheEntry;
  lru : list string;
  defaultTTL : Z;
  maxEntries : Z;
  maxBytes : Z;
  usedBytes : Z }.

Definition newLocalCache (ttl maxE maxB : Z) : LocalCache := mkCache ∅ [] ttl maxE maxB 0.

Inductive cacheErr := CtxDone | NegativeTTL | ErrTooLarge.

Definition strLen (s : string) : Z := Z.of_nat (String.length s).

Definition removeLocked (key : string) (e : cacheEntry) (l : LocalCache) : LocalCache :=
  mkCache (delete key (entries l)) (filter (λ k, k ≠ key) (lru l)) (defaultTTL l) (maxEntries l)
    (maxBytes l) (usedBytes l - ce_size e).

Definition overBounds (l : LocalCache) : bool :=
  ((0 <? maxEntries l) && (maxEntries l <? Z.of_nat (size (entries l))))
  || ((0 <? maxBytes l) && (maxBytes l <? usedBytes l)).

(** The loop removes the back of the list while a bound is exceeded; one round
    per element is enough. *)
Fixpoint evictBounds (fuel : nat) (l : LocalCache) : LocalCache :=
  match fuel with
  | O => l
  | S fuel =>
      if overBounds l then
        match list.last (lru l) with
        | None => l
        | Some key =>
            match entries l !! key with
            | Some e => evictBounds fuel (removeLocked key e l)
            | None => l
            end
        end
      else l
  end.
Definition evictBoundsLocked (l : LocalCache) : LocalCache := evictBounds (length (lru l)) l.

Definition pushEntry (key value : string) (expires : Z) (l : LocalCache) : LocalCache :=
  let sz := strLen key + strLen value in
  mkCache (<[key := mkEntry value expires sz]> (entries l)) (key :: lru l) (defaultTTL l) (maxEntries l)
    (maxBytes l) (usedBytes l + sz).

Definition dropKey (key : string) (l : LocalCache) : LocalCache :=
  match entries l !! key with Some e => removeLocked key e l | None => l end.

(** [Set]; [done] says whether the caller's context has ended, [now] is the
    reading of the clock. *)
Definition cacheSet (done : bool) (key value : string) (ttl now : Z) (l : LocalCache)
    : res cacheErr unit * LocalCache :=
  if done then (Err CtxDone, l)
  else if ttl <? 0 then (Err NegativeTTL, l)
  else
    let ttl := if ttl =? 0 then defaultTTL l else ttl in
    if (0 <? maxBytes l) && (maxBytes l <? strLen key + strLen value) then (Err ErrTooLarge, l)
    else (Ok tt, evictBoundsLocked (pushEntry key value (now + ttl) (dropKey key l))).

Definition cacheGet (done : bool) (key : string) (now : Z) (l : LocalCache)
    : res cacheErr (option string) * LocalCache :=
  if done then (Err CtxDone, l)
  else
    match entries l !! key with
    | None => (Ok None, l)
    | Some e =>
        if negb (now <? ce_expiresAt e) then (Ok None, removeLocked key e l)
        else (Ok (Some (ce_value e)),
              mkCache (entries l) (key :: filter (λ k, k ≠ key) (lru l)) (defaultTTL l) (maxEntries l)
                (maxBytes l) (usedBytes l))
    end.

Definition cacheDelete (done : bool) (key : string) (l : LocalCache) : res cacheErr unit * LocalCache :=
  if done then (Err CtxDone, l) else (Ok tt, dropKey key l).

Definition cacheLen (l : LocalCache) : Z := Z.of_nat (size (entries l)).

(** [evict]: the sweep over the map removes every expired entry. *)
Definition cacheEvict (now : Z) (l : LocalCache) : LocalCache :=
  foldl (λ l kv, if negb (now <? ce_expiresAt kv.2) then removeLocked kv.1 kv.2 l else l) l
    (map_to_list (entries l)).

Inductive cacheOp :=
| OpSet (done : bool) (key value : string) (ttl now : Z)
| OpGet (done : bool) (key : string) (now : Z)
| OpDelete (done : bool) (key : string)
| OpSweep (now : Z).

Definition cacheStep (l : LocalCache) (op : cacheOp) : LocalCache :=
  match op with
  | OpSet d k v ttl now => (cacheSet d k v ttl now l).2
  | OpGet d k now => (cacheGet d k now l).2
  | OpDelete d k => (cacheDelete d k l).2
  | OpSweep now => cacheEvict now l
  end.

Definition cacheRun (ops : list cacheOp) (l : LocalCache) : LocalCache := foldl cacheStep l ops.

(** ** Consistency *)

Record cacheOk (l : LocalCache) : Prop := {
  ok_nodup : NoDup (lru l);
  ok_keys : ∀ k, k ∈ lru l ↔ is_Some (entries l !! k);
  ok_sizes : ∀ k e, entries l !! k = Some e → ce_size e = strLen k + strLen (ce_value e);
  ok_bytes : usedBytes l = map_sum (λ _ e, ce_size e) (entries l) }.

Definition withinBounds (l : LocalCache) : Prop :=
  (0 < maxEntries l → Z.of_nat (size (entries l)) ≤ maxEntries l) ∧ (0 < maxBytes l → usedBytes l ≤ maxBytes l).

Lemma overBounds_false l : overBounds l = false ↔ withinBounds l.
Proof.
  unfold overBounds, withinBounds. rewrite orb_false_iff, !andb_false_iff, !Z.ltb_ge. lia.
Qed.

Lemma size_lru l : cacheOk l → size (entries l) = length (lru l).
Proof.
  intros [Hn Hk _ _]. rewrite <- (size_dom (entries l) (D:=gset string)).
  assert (dom (entries l) = list_to_set (lru l)) as ->.
  { apply set_eq. intros k. rewrite elem_of_dom, elem_of_list_to_set. symmetry. apply Hk. }
  by apply size_list_to_set.
Qed.

Lemma removeLocked_ok key e l : cacheOk l → entries l !! key = Some e → cacheOk (removeLocked key e l).
Proof.
  intros [Hn Hk Hs Hb] He. split; simpl.
  - by apply list.NoDup_filter.
  - intros k. rewrite list_elem_of_filter, lookup_delete_is_Some, Hk. naive_solver.
  - intros k e' H. apply lookup_delete_Some in H as [_ H]. eauto.
  - rewrite Hb, (map_sum_delete _ _ _ _ He). lia.
Qed.

Lemma dropKey_ok key l : cacheOk l → cacheOk (dropKey key l) ∧ entries (dropKey key l) !! key = None.
Proof.
  intros Hl. unfold dropKey. destruct (entries l !! key) as [e|] eqn:E; [|done].
  split; [by apply removeLocked_ok|]. simpl. apply lookup_delete_eq.
Qed.

Lemma pushEntry_ok key value expires l : cacheOk l → entries l !! key = None →
  cacheOk (pushEntry key value expires l).
Proof.
  intros [Hn Hk Hs Hb] He. split; simpl.
  - apply list.NoDup_cons. split; [|done]. rewrite Hk, He. by intros [].
  - intros k. rewrite elem_of_cons, Hk, lookup_insert_is_Some. destruct (decide (key = k)); naive_solver.
  - intros k e H. apply lookup_insert_Some in H as [[<- <-]|[_ H]]; [done|eauto].
  - rewrite Hb, map_sum_insert_new by done. simpl. lia.
Qed.

(** Eviction keeps the front of the list: what survives is a prefix in recency
    order with the entries untouched, and nothing is removed needlessly. *)
Lemma evictBounds_spec n l : cacheOk l → (length (lru l) ≤ n)%nat →
  let l' := evictBounds n l in
  cacheOk l' ∧ (lru l' = [] ∨ withinBounds l') ∧ maxEntries l' = maxEntries l ∧ maxBytes l' = maxBytes l ∧
  defaultTTL l' = defaultTTL l ∧
  (∃ gone, lru l = lru l' ++ gone ∧ ∀ k, k ∉ gone → entries l' !! k = entries l !! k).
Proof.
  revert l; induction n as [|n IH]; intros l Hl Hn; simpl.
  - split_and!; try done; [left; destruct (lru l); [done|simpl in Hn; lia]|]. exists []. by rewrite app_nil_r.
  - destruct (overBounds l) eqn:Ho.
    + destruct (list.last (lru l)) as [key|] eqn:Hlast.
      * apply last_Some in Hlast as [front Hfront].
        assert (Hin : is_Some (entries l !! key)).
        { apply (ok_keys l Hl). rewrite Hfront. apply elem_of_app. right. by left. }
        destruct Hin as [e He]. rewrite He.
        assert (Hlru : lru (removeLocked key e l) = front).
        { simpl. rewrite Hfront, list.filter_app, filter_cons_False by auto. rewrite filter_nil, app_nil_r.
          apply filter_all, list.Forall_forall. intros k Hk ->. pose proof (ok_nodup l Hl) as Hnd.
          rewrite Hfront in Hnd. apply list.NoDup_app in Hnd as (_ & Hd & _). apply (Hd key Hk). by left. }
        destruct (IH (removeLocked key e l)) as (H1 & H2 & H3 & H4 & H5 & gone & Hg & Hkeep).
        { by apply removeLocked_ok. }
        { rewrite Hlru. rewrite Hfront, length_app in Hn. simpl in Hn. lia. }
        split_and!; try done. exists (gone ++ [key]). rewrite Hfront, <- Hlru, Hg, <- app_assoc. split; [done|].
        intros k Hk. rewrite Hkeep by set_solver. simpl. apply lookup_delete_ne. set_solver.
      * apply last_None in Hlast. split_and!; try done; [by left|]. exists []. by rewrite app_nil_r.
    + split_and!; try done; [right; by apply overBounds_false|]. exists []. by rewrite app_nil_r.
Qed.

Lemma no_entries_within l : cacheOk l → lru l = [] → withinBounds l.
Proof.
  intros Hl Hlru. pose proof (size_lru l Hl) as Hs. rewrite Hlru in Hs. simpl in Hs.
  assert (He : entries l = ∅) by (by apply map_size_empty_inv). unfold withinBounds.
  rewrite (ok_bytes l Hl), He, map_sum_empty, map_size_empty. lia.
Qed.

Lemma evictBoundsLocked_spec l : cacheOk l →
  let l' := evictBoundsLocked l in
  cacheOk l' ∧ withinBounds l' ∧ maxEntries l' = maxEntries l ∧ maxBytes l' = maxBytes l ∧
  defaultTTL l' = defaultTTL l ∧
  (∃ gone, lru l = lru l' ++ gone ∧ ∀ k, k ∉ gone → entries l' !! k = entries l !! k).
Proof.
  intros Hl. destruct (evictBounds_spec (length (lru l)) l Hl ltac:(done)) as (H1 & H2 & H3).
  split; [done|]. split; [|done]. destruct H2 as [H2|H2]; [by apply no_entries_within|done].
Qed.

(** The back of a list of at least two, removed: the front stays. *)
Lemma back_removed l k rest key e : cacheOk l → lru l = k :: rest → rest ≠ [] →
  list.last (lru l) = Some key → k ≠ key ∧ ∃ rest', lru (removeLocked key e l) = k :: rest'.
Proof.
  intros Hl Hlru Hne Hlast. pose proof (ok_nodup l Hl) as Hn. rewrite Hlru in Hn, Hlast.
  assert (Hin : key ∈ rest).
  { destruct rest as [|x rest]; [done|]. change (list.last (x :: rest) = Some key) in Hlast.
    apply last_Some in Hlast as [f ->]. apply elem_of_app. right. by left. }
  assert (k ≠ key) by (intros ->; by apply NoDup_cons_1_1 in Hn). split; [done|].
  exists (filter (λ x, x ≠ key) rest). simpl. by rewrite Hlru, filter_cons_True.
Qed.

(** A front entry that fits on its own survives every eviction. *)
Lemma evict_front n l k rest e : cacheOk l → lru l = k :: rest → entries l !! k = Some e →
  (0 < maxBytes l → ce_size e ≤ maxBytes l) → entries (evictBounds n l) !! k = Some e.
Proof.
  revert l rest; induction n as [|n IH]; intros l rest Hl Hlru He Hfit; simpl; [done|].
  destruct (overBounds l) eqn:Ho; [|done]. destruct (list.last (lru l)) as [key|] eqn:Hlast; [|done].
  destruct (entries l !! key) as [e'|] eqn:He'; [|done]. destruct (decide (rest = [])) as [->|Hne].
  - exfalso. apply not_false_iff_true in Ho. apply Ho, overBounds_false.
    assert (Hm : entries l = {[k := e]}).
    { apply map_eq. intros k'. destruct (decide (k' = k)) as [->|]; [by rewrite lookup_singleton_eq|].
      rewrite lookup_singleton_ne by done. apply eq_None_not_Some. rewrite <- (ok_keys l Hl), Hlru. set_solver. }
    unfold withinBounds. rewrite (ok_bytes l Hl), Hm, map_size_singleton.
    rewrite <- insert_empty, map_sum_insert_new, map_sum_empty by done. lia.
  - destruct (back_removed l k rest key e' Hl Hlru Hne Hlast) as [Hkk [rest' Hr]].
    eapply IH; [by apply removeLocked_ok|exact Hr| |done]. simpl. by rewrite lookup_delete_ne.
Qed.

(** A cache whose entries are among those of another. *)
Lemma within_sub l l' : maxEntries l' = maxEntries l → maxBytes l' = maxBytes l →
  (size (entries l') ≤ size (entries l))%nat → usedBytes l' ≤ usedBytes l → withinBounds l → withinBounds l'.
Proof. unfold withinBounds. intros -> ->. lia. Qed.

Lemma removeLocked_within key e l : cacheOk l → entries l !! key = Some e → withinBounds l →
  withinBounds (removeLocked key e l).
Proof.
  intros Hl He. apply within_sub; simpl; [done|done| |].
  - rewrite map_size_delete, He. simpl. lia.
  - rewrite (ok_sizes l Hl _ _ He). unfold strLen. lia.
Qed.

Lemma sweep_spec now m l : cacheOk l → withinBounds l → NoDup m.*1 →
  (∀ k e, (k, e) ∈ m → entries l !! k = Some e) →
  let l' := foldl (λ l kv, if negb (now <? ce_expiresAt kv.2) then removeLocked kv.1 kv.2 l else l) l m in
  cacheOk l' ∧ withinBounds l' ∧ (∀ k e, entries l' !! k = Some e → entries l !! k = Some e).
Proof.
  revert l; induction m as [|[k e] m IH]; intros l Hl Hw Hn Hm; simpl; [done|].
  pose proof (NoDup_cons_1_1 _ _ Hn) as Hk. apply NoDup_cons_1_2 in Hn.
  assert (He : entries l !! k = Some e) by (apply Hm; left).
  destruct (now <? ce_expiresAt e); simpl.
  - apply IH; auto. intros k' e' H. apply Hm. by right.
  - destruct (IH (removeLocked k e l)) as (H1 & H2 & H3).
    + by apply removeLocked_ok.
    + by apply removeLocked_within.
    + done.
    + intros k' e' H. simpl. rewrite lookup_delete_ne; [apply Hm; by right|].
      intros ->. apply Hk, list_elem_of_fmap. by exists (k', e').
    + split_and!; try done. intros k' e' H. apply H3 in H. simpl in H. by apply lookup_delete_Some in H as [_ ?].
Qed.

Lemma cacheStep_ok l op : cacheOk l ∧ withinBounds l → cacheOk (cacheStep l op) ∧ withinBounds (cacheStep l op).
Proof.
  intros [Hl Hw]. destruct op as [d k v ttl now|d k now|d k|now]; simpl.
  - unfold cacheSet. destruct d; [done|]. destruct (ttl <? 0); [done|]. destruct (_ && _); [done|].
    destruct (dropKey_ok k l Hl) as [Hd Hnone].
    destruct (evictBoundsLocked_spec _ (pushEntry_ok k v (now + (if ttl =? 0 then defaultTTL l else ttl)) _ Hd Hnone))
      as (Hok & Hin & _). done.
  - unfold cacheGet. destruct d; [done|]. destruct (entries l !! k) as [e|] eqn:He; [|done].
    destruct (now <? ce_expiresAt e); simpl.
    + split; [|done]. destruct Hl as [Hn Hk Hs Hb]. split; simpl; try done.
      * apply list.NoDup_cons. rewrite list_elem_of_filter. split; [naive_solver|by apply list.NoDup_filter].
      * intros k'. rewrite elem_of_cons, list_elem_of_filter, <- Hk.
        assert (k ∈ lru l) by (apply Hk; eauto). destruct (decide (k' = k)); naive_solver.
    + split; [by apply removeLocked_ok|by apply removeLocked_within].
  - unfold cacheDelete. destruct d; [done|]. simpl. split; [by apply dropKey_ok|].
    unfold dropKey. destruct (entries l !! k) eqn:He; [by apply removeLocked_within|done].
  - unfold cacheEvict. destruct (sweep_spec now (map_to_list (entries l)) l Hl Hw) as (H1 & H2 & _); try done.
    + apply NoDup_fst_map_to_list.
    + intros k e. by rewrite elem_of_map_to_list.
Qed.

Lemma cacheRun_ok ops l : cacheOk l ∧ withinBounds l → cacheOk (cacheRun ops l) ∧ withinBounds (cacheRun ops l).
Proof. revert l; induction ops as [|op ops IH]; intros l Hl; simpl; [done|]. by apply IH, cacheStep_ok. Qed.

Lemma newLocalCache_ok ttl maxE maxB :
  cacheOk (newLocalCache ttl maxE maxB) ∧ withinBounds (newLocalCache ttl maxE maxB).
Proof.
  split; [split; simpl|split; simpl; rewrite ?map_size_empty; lia].
  - constructor.
  - intros k. rewrite lookup_empty. split; [by intros ?%elem_of_nil|by intros []].
  - by intros k e; rewrite lookup_empty.
  - by rewrite map_sum_empty.
Qed.

(** ** The specification *)

(** The last value set for a key and not deleted, with its expiry; a set that
    was refused does not count. *)
Definition specStep (ttl0 maxB : Z) (m : gmap string (string * Z)) (op : cacheOp) : gmap string (string * Z) :=
  match op with
  | OpSet false k v ttl now =>
      if ttl <? 0 then m
      else if (0 <? maxB) && (maxB <? strLen k + strLen v) then m
      else <[k := (v, now + (if ttl =? 0 then ttl0 else ttl))]> m
  | OpDelete false k => delete k m
  | _ => m
  end.

Definition specRun (ttl0 maxB : Z) (ops : list cacheOp) : gmap string (string * Z) :=
  foldl (specStep ttl0 maxB) ∅ ops.

(** Every entry is the specification's. *)
Definition cacheSub (l : LocalCache) (m : gmap string (string * Z)) : Prop :=
  ∀ k e, entries l !! k = Some e → m !! k = Some (ce_value e, ce_expiresAt e).

Lemma removeLocked_sub key e l m : cacheSub l m → cacheSub (removeLocked key e l) m.
Proof. intros H k e' Hk. simpl in Hk. apply lookup_delete_Some in Hk as [_ Hk]. eauto. Qed.

(** The configuration is fixed. *)
Definition sameConfig (l l' : LocalCache) : Prop :=
  maxEntries l' = maxEntries l ∧ maxBytes l' = maxBytes l ∧ defaultTTL l' = defaultTTL l.

Lemma evicted_lookup l k e : cacheOk l → entries (evictBoundsLocked l) !! k = Some e → entries l !! k = Some e.
Proof.
  intros Hl He. destruct (evictBoundsLocked_spec l Hl) as (Hok & _ & _ & _ & _ & gone & Hlru & Hkeep).
  rewrite <- Hkeep; [done|]. intros Hg. pose proof (ok_nodup l Hl) as Hn. rewrite Hlru in Hn.
  apply list.NoDup_app in Hn as (_ & Hd & _). apply (Hd k); [|done].
  apply (ok_keys _ Hok). rewrite He. eauto.
Qed.

Lemma dropKey_sub k l m : cacheSub l m → cacheSub (dropKey k l) (delete k m).
Proof.
  intros H k' e. unfold dropKey. destruct (entries l !! k) as [e0|] eqn:E; simpl; intros Hk'.
  - apply lookup_delete_Some in Hk' as [Hne Hk']. rewrite lookup_delete_ne by done. auto.
  - rewrite lookup_delete_ne by congruence. auto.
Qed.

Lemma dropKey_config k l : sameConfig l (dropKey k l).
Proof. unfold dropKey. by case_match. Qed.

Lemma sweep_sub now ms l m : cacheSub l m →
  let l' := foldl (λ l kv, if negb (now <? ce_expiresAt kv.2) then removeLocked kv.1 kv.2 l else l) l ms in
  cacheSub l' m ∧ sameConfig l l'.
Proof.
  revert l; induction ms as [|[k e] ms IH]; intros l Hl; simpl; [done|].
  destruct (negb _); [|by apply IH]. destruct (IH (removeLocked k e l)) as [H1 H2]; [by apply removeLocked_sub|].
  done.
Qed.

Lemma cacheStep_sub l m op : cacheOk l ∧ withinBounds l → cacheSub l m →
  cacheSub (cacheStep l op) (specStep (defaultTTL l) (maxBytes l) m op) ∧ sameConfig l (cacheStep l op).
Proof.
  intros [Hl _] Hm. destruct op as [d k v ttl now|d k now|d k|now]; simpl.
  - unfold cacheSet. destruct d; [done|]. destruct (ttl <? 0); [done|]. destruct (_ && _); [done|].
    destruct (dropKey_ok k l Hl) as [Hd Hnone]. pose proof (dropKey_config k l) as (Hc1 & Hc2 & Hc3).
    set (x := now + _). pose proof (pushEntry_ok k v x _ Hd Hnone) as Hp.
    destruct (evictBoundsLocked_spec _ Hp) as (_ & _ & H1 & H2 & H3 & _). simpl in *.
    split; [|unfold sameConfig; simpl; rewrite H1, H2, H3; done].
    intros k' e He. apply evicted_lookup in He; [|done]. simpl in He.
    apply lookup_insert_Some in He as [[<- <-]|[Hne He]]; [by rewrite lookup_insert_eq|].
    rewrite lookup_insert_ne by done. apply (dropKey_sub k l m Hm) in He. by apply lookup_delete_Some in He as [_ ?].
  - unfold cacheGet. destruct d; [done|]. destruct (entries l !! k) as [e|] eqn:He; [|done].
    destruct (negb _); simpl; [|done]. split; [by apply removeLocked_sub|done].
  - unfold cacheDelete. destruct d; [done|]. split; [by apply dropKey_sub|apply dropKey_config].
  - by apply sweep_sub.
Qed.

Lemma cacheRun_sub ttl maxE maxB ops :
  let l := cacheRun ops (newLocalCache ttl maxE maxB) in
  cacheSub l (specRun ttl maxB ops) ∧ sameConfig (newLocalCache ttl maxE maxB) l.
Proof.
  induction ops as [|op ops IH] using rev_ind; simpl.
  { split; [|done]. intros k e He. simpl in He. by rewrite lookup_empty in He. }
  unfold cacheRun, specRun in *. rewrite !foldl_app. simpl. destruct IH as [Hs (H1 & H2 & H3)].
  pose proof (cacheRun_ok ops _ (newLocalCache_ok ttl maxE maxB)) as Hok. unfold cacheRun in Hok.
  destruct (cacheStep_sub _ _ op Hok Hs) as [Hs' (H4 & H5 & H6)]. rewrite H2, H3 in Hs'. simpl in *.
  split; [done|]. unfold sameConfig in *. simpl. rewrite H4, H5, H6. done.
Qed.

(** C40. The cache under any sequence of operations, sweeps and evictions.  It
    is consistent and bounded: the recency list holds each key of the map once,
    the byte count is the sum of the sizes, and both bounds hold.  It never
    lies: a hit returns the last value set for that key and not deleted since,
    before its expiry.  A value that was just accepted is there, however full the
    cache was.  A [Set] whose context has ended is refused and stores nothing,
    against the comment above it. *)
Theorem cache_refines ttl maxE maxB ops :
  let l := cacheRun ops (newLocalCache ttl maxE maxB) in
  cacheOk l ∧ withinBounds l ∧
  (∀ d k now v, (cacheGet d k now l).1 = Ok (Some v) →
     ∃ expires, specRun ttl maxB ops !! k = Some (v, expires) ∧ now < expires) ∧
  (∀ d k v t now now', (cacheSet d k v t now l).1 = Ok tt → now' < now + (if t =? 0 then ttl else t) →
     (cacheGet false k now' (cacheSet d k v t now l).2).1 = Ok (Some v)) ∧
  (∀ k v t now, cacheSet true k v t now l = (Err CtxDone, l)).
Proof.
  intros l. destruct (cacheRun_ok ops _ (newLocalCache_ok ttl maxE maxB)) as [Hok Hw]. fold l in Hok, Hw.
  destruct (cacheRun_sub ttl maxE maxB ops) as [Hs (Hc1 & Hc2 & Hc3)]. fold l in Hs, Hc1, Hc2, Hc3.
  split_and!; try done.
  - intros d k now v. unfold cacheGet. destruct d; [done|]. destruct (entries l !! k) as [e|] eqn:He; [|done].
    destruct (Z.ltb_spec now (ce_expiresAt e)); simpl; [|done]. intros [= <-]. exists (ce_expiresAt e). eauto.
  - intros d k v t now now'. unfold cacheSet. destruct d; [done|]. destruct (t <? 0); [done|].
    destruct (_ && _) eqn:Hbig; [done|]. intros _ Hnow. simpl in Hc3. rewrite Hc3. cbn [snd].
    destruct (dropKey_ok k l Hok) as [Hd Hnone]. set (x := now + _) in *.
    pose proof (pushEntry_ok k v x _ Hd Hnone) as Hp. set (l1 := pushEntry k v x (dropKey k l)) in *.
    assert (Hk : entries (evictBoundsLocked l1) !! k = Some (mkEntry v x (strLen k + strLen v))).
    { eapply evict_front; [done|done|apply lookup_insert_eq|]. simpl.
      destruct (dropKey_config k l) as (_ & -> & _). intros Hpos. apply andb_false_iff in Hbig.
      rewrite !Z.ltb_ge in Hbig. lia. }
    unfold cacheGet. rewrite Hk. simpl. destruct (Z.ltb_spec now' x); [done|lia].
Qed.

(** ** A cache of two *)

Definition demoCache : list cacheOp :=
  [OpSet false "a" "1" 0 0; OpSet false "b" "2" 0 1; OpGet false "a" 2; OpSet false "c" "3" 0 3].

Example demo_cache_lru :
  lru (cacheRun demoCache (newLocalCache 100 2 0)) = ["c"; "a"].
Proof. vm_compute. reflexivity. Qed.
