(* ===== verification/GoStrings.v ===== *)
(** * Go's [strings], [strconv] and [net/url] helpers

    Splitting and joining at a one-byte separator, [strings.Cut],
    [strings.Contains], prefix and suffix trimming, and the query-component
    escaping of [net/url], with the facts that relate them; [strconv.Atoi], which
    reads back the decimal digits [fmt] writes ([Atoi_pretty]). *)

From stdpp Require Import base list strings gmap numbers pretty.
From Stdlib Require Import Ascii.
From S2P Require Import Prelude ByteStrings Framing HeaderPolicy.

(** [strings.Contains(s, string(c))]. *)
Fixpoint ContainsByte (c : ascii) (s : string) : bool :=
  match s with
  | "" => false
  | String d s' => Ascii.eqb d c || ContainsByte c s'
  end.

(** [strings.Split(s, string(c))]: never empty. *)
Fixpoint Split (c : ascii) (s : string) : list string :=
  match s with
  | "" => [""]
  | String d s' =>
      if Ascii.eqb d c then "" :: Split c s'
      else match Split c s' with
           | part :: rest => String d part :: rest
           | [] => [String d ""]
           end
  end.

(** [strings.Join(l, sep)]. *)
Fixpoint Join (sep : string) (l : list string) : string :=
  match l with
  | [] => ""
  | [s] => s
  | s :: l' => s +:+ sep +:+ Join sep l'
  end.

(** [before, after, found := strings.Cut(s, string(c))]. *)
Fixpoint Cut (c : ascii) (s : string) : string * string * bool :=
  match s with
  | "" => ("", "", false)
  | String d s' =>
      if Ascii.eqb d c then ("", s', true)
      else let '(before, after, found) := Cut c s' in (String d before, after, found)
  end.

Definition TrimPrefix (s p : string) : string :=
  if HasPrefix s p then str_drop (String.length p) s else s.

Fixpoint HasSuffix (s suf : string) : bool :=
  String.eqb s suf || match s with "" => false | String _ s' => HasSuffix s' suf end.

Definition TrimSuffix (s suf : string) : string :=
  if HasSuffix s suf then str_take (String.length s - String.length suf) s else s.

(** ** Query components *)

Definition unhex (c : ascii) : option N :=
  if between "0" "9" c then Some (N_of_ascii c - 48)%N
  else if between "a" "f" c then Some (N_of_ascii c - 87)%N
  else if between "A" "F" c then Some (N_of_ascii c - 55)%N
  else None.

Fixpoint QueryUnescape (s : string) : option string :=
  match s with
  | "" => Some ""
  | String "%" s' =>
      match s' with
      | String a (String b rest) =>
          match unhex a, unhex b with
          | Some x, Some y => String (ascii_of_N (16 * x + y)) <$> QueryUnescape rest
          | _, _ => None
          end
      | _ => None
      end
  | String "+" s' => String " " <$> QueryUnescape s'
  | String c s' => String c <$> QueryUnescape s'
  end.

Definition upperHex (n : N) : ascii := ascii_of_N (if (n <? 10)%N then 48 + n else 55 + n)%N.
Definition unreserved (c : ascii) : bool :=
  between "a" "z" c || between "A" "Z" c || between "0" "9" c
  || bool_decide (c ∈ ["-"%char; "_"%char; "."%char; "~"%char]).

Fixpoint QueryEscape (s : string) : string :=
  match s with
  | "" => ""
  | String c s' =>
      if unreserved c then String c (QueryEscape s')
      else if Ascii.eqb c " " then String "+" (QueryEscape s')
      else String "%" (String (upperHex (N_of_ascii c / 16)) (String (upperHex (N_of_ascii c mod 16)) (QueryEscape s')))
  end.

(** The loop of [url.ParseQuery]: the values in order of appearance, and whether
    some component was malformed. *)
Fixpoint parseComponents (parts : list string) (m : gmap string (list string)) (bad : bool)
    : gmap string (list string) * bool :=
  match parts with
  | [] => (m, bad)
  | part :: rest =>
      if ContainsByte ";" part then parseComponents rest m true
      else if String.eqb part "" then parseComponents rest m bad
      else
        let '(key, value, _) := Cut "=" part in
        match QueryUnescape key, QueryUnescape value with
        | Some key, Some value => parseComponents rest (<[key := default [] (m !! key) ++ [value]]> m) bad
        | _, _ => parseComponents rest m true
        end
  end.

Definition ParseQuery (query : string) : gmap string (list string) * bool :=
  if String.eqb query "" then (∅, false) else parseComponents (Split "&" query) ∅ false.

(** [Values.Encode]: sorted by key. *)
Definition encodePairs (m : gmap string (list string)) : list string :=
  sort_Strings (map_to_list m).*1 ≫= λ k,
    (λ v, QueryEscape k +:+ "=" +:+ QueryEscape v) <$> default [] (m !! k).
Definition Encode (m : gmap string (list string)) : string := Join "&" (encodePairs m).

(** ** Facts *)

Definition free (c : ascii) (s : string) : Prop := ContainsByte c s = false.
#[global] Instance free_dec c s : Decision (free c s).
Proof. unfold free. apply _. Defined.

Lemma contains_app c a b : ContainsByte c (a +:+ b) = ContainsByte c a || ContainsByte c b.
Proof. induction a as [|d a IH]; simpl; [done|]. by rewrite IH, orb_assoc. Qed.

Lemma Split_free c s : Forall (free c) (Split c s).
Proof.
  induction s as [|d s IH]; simpl; [by repeat constructor|].
  destruct (Ascii.eqb d c) eqn:E; [by constructor|].
  destruct (Split c s) as [|part rest]; [by repeat constructor; unfold free; simpl; rewrite E|].
  inversion IH as [|? ? H1 H2]; subst. constructor; [|done]. unfold free. simpl. by rewrite E.
Qed.

Lemma Split_ne c s : Split c s ≠ [].
Proof. destruct s as [|d s]; simpl; [done|]. destruct (Ascii.eqb d c); [done|]. by destruct (Split c s). Qed.

Lemma Split_of_free c s : free c s → Split c s = [s].
Proof.
  unfold free. induction s as [|d s IH]; simpl; [done|]. intros [E H]%orb_false_iff. by rewrite E, IH.
Qed.

Lemma Split_app c a b : free c a → Split c (a +:+ String c b) = a :: Split c b.
Proof.
  unfold free. induction a as [|d a IH]; simpl; intros H.
  - by rewrite Ascii.eqb_refl.
  - apply orb_false_iff in H as [-> H]. by rewrite IH.
Qed.

Lemma Join_cons sep s l : l ≠ [] → Join sep (s :: l) = s +:+ sep +:+ Join sep l.
Proof. by destruct l. Qed.

Lemma Split_Join c l : l ≠ [] → Forall (free c) l → Split c (Join (String c "") l) = l.
Proof.
  intros Hne H. induction H as [|s l Hs H IH]; [done|]. destruct l as [|s' l].
  - by apply Split_of_free.
  - rewrite Join_cons by done. change (String c "" +:+ ?x) with (String c x).
    rewrite Split_app by done. by rewrite IH.
Qed.

Lemma Join_Split c s : Join (String c "") (Split c s) = s.
Proof.
  induction s as [|d s IH]; simpl; [done|]. destruct (Ascii.eqb_spec d c) as [->|].
  - rewrite Join_cons by apply Split_ne. by rewrite IH.
  - destruct (Split c s) as [|part [|p2 rest]] eqn:E; [by destruct (Split_ne c s)|by rewrite <- IH|].
    rewrite Join_cons in * by done. by rewrite <- IH.
Qed.

Lemma Join_app sep l k : l ≠ [] → k ≠ [] → Join sep (l ++ k) = Join sep l +:+ sep +:+ Join sep k.
Proof.
  intros Hl Hk. induction l as [|s l IH]; [done|]. destruct l as [|s' l].
  - simpl. by destruct k.
  - change ((s :: s' :: l) ++ k) with (s :: ((s' :: l) ++ k)). rewrite !Join_cons, IH by done.
    by rewrite !sapp_assoc.
Qed.

(** ** Numbers *)

Local Open Scope Z_scope.

(** [strconv.Atoi]: an optional sign and decimal digits, within an int. *)
Fixpoint digitsValue (acc : Z) (s : string) : option Z :=
  match s with
  | "" => Some acc
  | String c s => if between "0" "9" c then digitsValue (acc * 10 + (Z.of_N (N_of_ascii c) - 48)) s else None
  end.
Definition decimal (s : string) : option Z := if String.eqb s "" then None else digitsValue 0 s.
Definition Atoi (s : string) : option Z :=
  v ← match s with
      | String "-" s => Z.opp <$> decimal s
      | String "+" s => decimal s
      | _ => decimal s
      end;
  if (- 2 ^ 63 <=? v) && (v <? 2 ^ 63) then Some v else None.

Lemma digit_char (n : N) : (n < 10)%N →
  between "0" "9" (pretty_N_char n) = true ∧ Z.of_N (N_of_ascii (pretty_N_char n)) - 48 = Z.of_N n.
Proof.
  intros Hn. assert (n ∈ [0; 1; 2; 3; 4; 5; 6; 7; 8; 9]%N) as Hin.
  { rewrite !elem_of_cons. lia. }
  rewrite !elem_of_cons in Hin. repeat (destruct Hin as [->|Hin]; [by vm_compute|]). by apply not_elem_of_nil in Hin.
Qed.

Lemma digitsValue_digit acc n s : (n < 10)%N → digitsValue acc (String (pretty_N_char n) s) = digitsValue (acc * 10 + Z.of_N n) s.
Proof. intros Hn. destruct (digit_char n Hn) as [H1 H2]. cbn [digitsValue]. by rewrite H1, H2. Qed.

Lemma digitsValue_go n s : digitsValue 0 (pretty_N_go n s) = digitsValue (Z.of_N n) s.
Proof.
  revert s. induction (N.lt_wf_0 n) as [n _ IH]. intros s. destruct (decide (n = 0)%N) as [->|Hn]; [by rewrite pretty_N_go_0|].
  rewrite pretty_N_go_step by lia. rewrite IH by (apply N.div_lt; lia). rewrite digitsValue_digit by (apply N.mod_lt; lia).
  f_equal. pose proof (N.div_mod n 10 ltac:(lia)). lia.
Qed.

Lemma digitsValue_pretty (n : N) : digitsValue 0 (pretty n) = Some (Z.of_N n).
Proof.
  unfold pretty, pretty_N. case_decide as Hz; [by subst|]. by rewrite digitsValue_go.
Qed.

Lemma pretty_go_ne m t : t ≠ "" → pretty_N_go m t ≠ "".
Proof.
  revert t. induction (N.lt_wf_0 m) as [m _ IH]. intros t Ht. destruct (decide (m = 0)%N) as [->|]; [by rewrite pretty_N_go_0|].
  rewrite pretty_N_go_step by lia. apply IH; [apply N.div_lt; lia|done].
Qed.

Lemma pretty_ne (n : N) : pretty n ≠ "".
Proof.
  unfold pretty, pretty_N. case_decide as Hz; [done|]. rewrite pretty_N_go_step by lia. by apply pretty_go_ne.
Qed.

Lemma Atoi_pretty (n : N) : Z.of_N n < 2 ^ 63 → Atoi (pretty n) = Some (Z.of_N n).
Proof.
  intros Hn. pose proof (digitsValue_pretty n) as Hd. pose proof (pretty_ne n) as Hne.
  destruct (pretty n) as [|c s] eqn:E; [done|].
  assert (decimal (String c s) = Some (Z.of_N n)) as Hdec by (unfold decimal; cbn [String.eqb]; exact Hd).
  assert (Hc : between "0" "9" c = true).
  { cbn [digitsValue] in Hd. by destruct (between "0" "9" c). }
  assert (Hs : match String c s with String "-" s => Z.opp <$> decimal s | String "+" s => decimal s | _ => decimal (String c s) end
    = decimal (String c s)).
  { clear -Hc. destruct c as [[] [] [] [] [] [] [] []]; try done; vm_compute in Hc; discriminate. }
  unfold Atoi. rewrite Hs, Hdec. cbn [mbind option_bind].
  rewrite (proj2 (Z.leb_le _ _)), (proj2 (Z.ltb_lt _ _)) by lia. done.
Qed.
