(* ===== verification/Credential.v ===== *)
(** * Caller and provider credentials

    internal/proxy/credential.go: the snapshot of the caller's credentials taken
    at ingress, their separation from the ordinary query, the enforcement of a
    provider's authentication mode on an outgoing request, and the identity
    under which a caller is rate limited.  The credential resolver is a
    parameter.  [credentials_enforced]: whatever credentials the live request
    carries, what leaves is exactly what the provider's mode prescribes. *)

From stdpp Require Import base list strings gmap sets numbers.
From Stdlib Require Import Ascii.
From S2P Require Import Prelude ByteStrings Framing HeaderPolicy GoStrings.

(** ** [http.Header] *)

Definition Values (h : headers) (name : string) : list string := default [] (h !! CanonicalHeaderKey name).
Definition Del (h : headers) (name : string) : headers := delete (CanonicalHeaderKey name) h.
Definition SetHeader (h : headers) (name value : string) : headers := <[CanonicalHeaderKey name := [value]]> h.
Definition AddHeader (h : headers) (name value : string) : headers :=
  <[CanonicalHeaderKey name := default [] (h !! CanonicalHeaderKey name) ++ [value]]> h.

(** ** Requests and providers *)

(** A body that yields its content and then ends, or fails. *)
Record Reader := mkReader { content : string; failure : option string }.

(** The parts of an outgoing [http.Request] that routing and authentication
    touch. *)
Record Request := mkRequest {
  r_Header : headers;
  r_Scheme : string;
  r_URLHost : string;
  r_Path : string;
  r_RawPath : string;
  r_RawQuery : string;
  r_Host : string;
  r_Body : option Reader;
  r_ContentLength : Z }.

Definition setHeaders (h : headers) (r : Request) : Request :=
  mkRequest h (r_Scheme r) (r_URLHost r) (r_Path r) (r_RawPath r) (r_RawQuery r) (r_Host r) (r_Body r) (r_ContentLength r).
Definition setRawQuery (q : string) (r : Request) : Request :=
  mkRequest (r_Header r) (r_Scheme r) (r_URLHost r) (r_Path r) (r_RawPath r) q (r_Host r) (r_Body r) (r_ContentLength r).

Record ProviderAuth := mkAuth { Mode : string; CredentialName : string }.
Definition EffectiveMode (a : ProviderAuth) : string := if String.eqb (Mode a) "" then "caller" else Mode a.

Record Provider := mkProvider {
  p_URL : string;
  p_Format : string;
  p_Bridge : bool;        (* whether a bridge is configured *)
  p_Auth : ProviderAuth;
  p_Fallback : list string }.

(** ** The ingress snapshot *)

Record callerCredentials := mkCaller { cc_headers : headers; cc_query : list string }.
Definition noCaller : callerCredentials := mkCaller ∅ [].

Definition callerForwardedHeaders : list string :=
  ["Authorization"; "X-Api-Key"; "X-Goog-Api-Key"; "Api-Key"; "X-Amz-Security-Token"; "X-Goog-Api-Client"].
Definition neverForwardedHeaders : list string := ["Cookie"; "Proxy-Authorization"].

Definition credentialParameter (part : string) : bool :=
  let '(name, _, _) := Cut "=" part in
  match QueryUnescape name with
  | Some name => bool_decide (name ∈ ["key"; "api_key"; "api-key"; "access_token"])
  | None => false
  end.

(** One component of the loop of [splitCredentialQuery]. *)
Definition splitPart (acc : list string * list string) (part : string) : list string * list string :=
  if ContainsByte ";" part then acc
  else if credentialParameter part then (acc.1, acc.2 ++ [part])
  else (acc.1 ++ [part], acc.2).

Definition splitCredentialQuery (raw : string) : string * list string :=
  let '(kept, credentials) := foldl splitPart ([], []) (Split "&" raw) in
  (Join "&" kept, credentials).

Definition snapshotInto (h : headers) (snapshot : headers) (name : string) : headers :=
  match Values h name with
  | [] => snapshot
  | values => <[CanonicalHeaderKey name := values]> snapshot
  end.

(** [None] is a nil request. *)
Definition callerCredentialsFrom (req : option Request) : callerCredentials :=
  match req with
  | None => noCaller
  | Some req =>
      mkCaller (foldl (snapshotInto (r_Header req)) ∅ callerForwardedHeaders)
        (splitCredentialQuery (r_RawQuery req)).2
  end.

(** ** The rate-limit identity *)

Definition NUL : string := String "000"%char "".

Fixpoint headerIdentity (c : callerCredentials) (names : list string) : option string :=
  match names with
  | [] => None
  | name :: rest =>
      match Values (cc_headers c) name with
      | [] => headerIdentity c rest
      | values => Some (CanonicalHeaderKey name +:+ NUL +:+ Join NUL values)
      end
  end.

Definition rateIdentity (c : callerCredentials) : string :=
  match headerIdentity c ["Authorization"; "X-Api-Key"; "X-Goog-Api-Key"; "Api-Key"] with
  | Some identity => identity
  | None =>
      match cc_query c with
      | [] => ""
      | query =>
          let '(values, bad) := ParseQuery (Join "&" query) in
          if negb bad && bool_decide (values ≠ ∅) then "query" +:+ NUL +:+ Encode values
          else "query-raw" +:+ NUL +:+ Join "&" query
      end
  end.

(** ** Enforcement *)

Definition credErr := string.

(** The protocol's own credential header. *)
Definition nativeHeader (format : string) : string :=
  if String.eqb format "anthropic" then "X-Api-Key"
  else if String.eqb format "gemini" then "X-Goog-Api-Key"
  else "Authorization".
Definition nativeValue (format secret : string) : string :=
  if String.eqb format "anthropic" then secret
  else if String.eqb format "gemini" then secret
  else "Bearer " +:+ secret.

Section Enforce.
(** The resolver; [None] is a nil function. *)
Context (resolve : option (string → res credErr string)).

Definition restoreHeader (h : headers) (kv : string * list string) : headers :=
  foldl (λ h v, AddHeader h kv.1 v) h kv.2.

Definition applyProviderCredentialHeaders (req : Request) (target : Provider) (caller : callerCredentials)
    : Request * res credErr unit :=
  let stripped := foldl Del (foldl Del (r_Header req) callerForwardedHeaders) neverForwardedHeaders in
  let req := setHeaders stripped req in
  let mode := EffectiveMode (p_Auth target) in
  if String.eqb mode "caller" then
    (setHeaders (foldl restoreHeader stripped (map_to_list (cc_headers caller))) req, Ok tt)
  else if String.eqb mode "credential" then
    match resolve with
    | None => (req, Err "credential resolver is not configured")
    | Some resolve =>
        match resolve (CredentialName (p_Auth target)) with
        | Err e => (req, Err e)
        | Ok secret =>
            if (String.length secret =? 0)%nat then (req, Err "credential is empty")
            else (setHeaders (SetHeader stripped (nativeHeader (p_Format target))
                                (nativeValue (p_Format target) secret)) req, Ok tt)
        end
    end
  else if String.eqb mode "none" then (req, Ok tt)
  else (req, Err "provider auth mode is invalid").

Definition callerQuery (raw : string) (caller : callerCredentials) : string :=
  let '(ordinary, current) := splitCredentialQuery raw in
  if negb (bool_decide (current = cc_query caller)) || ContainsByte ";" raw then
    match cc_query caller with
    | [] => ordinary
    | q => ordinary +:+ (if String.eqb ordinary "" then "" else "&") +:+ Join "&" q
    end
  else raw.

Definition applyProviderCredential (req : Request) (target : Provider) (caller : callerCredentials)
    : Request * res credErr unit :=
  let query := if String.eqb (EffectiveMode (p_Auth target)) "caller" then callerQuery (r_RawQuery req) caller
               else (splitCredentialQuery (r_RawQuery req)).1 in
  applyProviderCredentialHeaders (setRawQuery query req) target caller.
End Enforce.

(** ** What a mode prescribes *)

(** The credentials an outgoing request must carry; an error leaves none. *)
Definition prescribed (resolve : option (string → res credErr string)) (target : Provider)
    (caller : callerCredentials) : callerCredentials * bool :=
  let mode := EffectiveMode (p_Auth target) in
  if String.eqb mode "caller" then (caller, true)
  else if String.eqb mode "credential" then
    match resolve ≫= λ f, match f (CredentialName (p_Auth target)) with Ok s => Some s | Err _ => None end with
    | Some (String c s) =>
        (mkCaller {[ nativeHeader (p_Format target) := [nativeValue (p_Format target) (String c s)] ]} [], true)
    | _ => (noCaller, false)
    end
  else (noCaller, String.eqb mode "none").

(** * Credential enforcement

    The facts behind [credentials_enforced] and [identity_separates], and the
    theorems themselves. *)

(** ** The query *)

Definition ordinaryPart (p : string) : Prop := free ";" p ∧ credentialParameter p = false.
Definition credentialPart (p : string) : Prop := free ";" p ∧ credentialParameter p = true.
#[global] Instance ordinaryPart_dec p : Decision (ordinaryPart p).
Proof. unfold ordinaryPart. apply _. Defined.
#[global] Instance credentialPart_dec p : Decision (credentialPart p).
Proof. unfold credentialPart. apply _. Defined.

Lemma foldl_splitPart a b parts :
  foldl splitPart (a, b) parts = (a ++ filter ordinaryPart parts, b ++ filter credentialPart parts).
Proof.
  revert a b; induction parts as [|p parts IH]; intros a b; simpl; [by rewrite !app_nil_r|].
  unfold splitPart at 2. rewrite !filter_cons.
  destruct (ContainsByte ";" p) eqn:E1, (credentialParameter p) eqn:E2; repeat case_decide;
    unfold ordinaryPart, credentialPart, free in *; try (exfalso; naive_solver congruence);
    rewrite IH; simpl; rewrite <- ?app_assoc; done.
Qed.

Lemma splitCredentialQuery_eq raw :
  splitCredentialQuery raw =
  (Join "&" (filter ordinaryPart (Split "&" raw)), filter credentialPart (Split "&" raw)).
Proof. unfold splitCredentialQuery. by rewrite foldl_splitPart. Qed.

(** The components of a query assembled from parts. *)
Lemma split_parts l :
  Forall (free "&") l → splitCredentialQuery (Join "&" l) =
  (Join "&" (filter ordinaryPart l), filter credentialPart l).
Proof.
  intros H. rewrite splitCredentialQuery_eq. destruct l as [|p l]; [by vm_compute|].
  by rewrite (Split_Join "&") by done.
Qed.

Lemma filter_free P `{∀ p, Decision (P p)} raw : Forall (free "&") (filter P (Split "&" raw)).
Proof. apply list.Forall_forall. intros p [_ Hp]%list_elem_of_filter. by eapply list.Forall_forall in Hp; [|apply Split_free]. Qed.

Lemma filter_filter_none {A} (P Q : A → Prop) `{∀ x, Decision (P x)} `{∀ x, Decision (Q x)} (l : list A) :
  (∀ x, P x → ¬ Q x) → filter Q (filter P l) = [].
Proof. intros H'. apply filter_none_nil. intros x [Hx _]%list_elem_of_filter. auto. Qed.

Lemma filter_idem {A} (P : A → Prop) `{∀ x, Decision (P x)} (l : list A) : filter P (filter P l) = filter P l.
Proof. apply filter_all. apply list.Forall_forall. by intros x [? _]%list_elem_of_filter. Qed.

Lemma ordinary_not_credential p : ordinaryPart p → ¬ credentialPart p.
Proof. unfold ordinaryPart, credentialPart. intros [_ ->] [_ ?]. done. Qed.

(** Dropping the credentials leaves none, and is idempotent. *)
Lemma ordinary_query raw :
  splitCredentialQuery (splitCredentialQuery raw).1 = ((splitCredentialQuery raw).1, []).
Proof.
  rewrite (splitCredentialQuery_eq raw). simpl. rewrite split_parts by apply filter_free.
  rewrite filter_idem, filter_filter_none by apply ordinary_not_credential. done.
Qed.

(** Query credentials as a snapshot holds them. *)
Definition snapshotQuery (q : list string) : Prop := Forall (free "&") q ∧ Forall credentialPart q.

Lemma ingress_query raw : snapshotQuery (splitCredentialQuery raw).2.
Proof.
  rewrite splitCredentialQuery_eq. split; simpl; [apply filter_free|].
  apply list.Forall_forall. by intros p [? _]%list_elem_of_filter.
Qed.

Lemma rebuild_query k q : Forall (free "&") k → Forall ordinaryPart k → snapshotQuery q → q ≠ [] →
  splitCredentialQuery (Join "&" k +:+ (if String.eqb (Join "&" k) "" then "" else "&") +:+ Join "&" q)
  = (Join "&" k, q).
Proof.
  intros Hk Ho [Hq Hc] Hne.
  assert (Hno : filter ordinaryPart q = []).
  { apply filter_none_nil. intros p Hp Hop. apply (ordinary_not_credential p Hop).
    by eapply list.Forall_forall in Hc. }
  assert (Hnc : filter credentialPart k = []).
  { apply filter_none_nil. intros p Hp. eapply list.Forall_forall in Ho; [|done]. by apply ordinary_not_credential. }
  destruct (String.eqb_spec (Join "&" k) "") as [E|E].
  - rewrite E. change ("" +:+ ("" +:+ ?x)) with x. rewrite split_parts by done.
    by rewrite Hno, filter_all by done.
  - rewrite <- Join_app by (by intros -> || done). rewrite split_parts by by apply Forall_app.
    by rewrite !list.filter_app, Hno, Hnc, !filter_all, app_nil_r by done.
Qed.

(** Caller mode puts exactly the snapshot's parameters back, after the ordinary
    ones. *)
Lemma callerQuery_restores raw caller : snapshotQuery (cc_query caller) →
  splitCredentialQuery (callerQuery raw caller) = ((splitCredentialQuery raw).1, cc_query caller).
Proof.
  intros Hq. unfold callerQuery. pose proof (ordinary_query raw) as Hord.
  rewrite (splitCredentialQuery_eq raw) in *. simpl in *.
  case_match eqn:Eg; cycle 1.
  { apply orb_false_iff in Eg as [Eg _]. apply negb_false_iff, bool_decide_eq_true in Eg.
    by rewrite splitCredentialQuery_eq, Eg. }
  destruct (cc_query caller) as [|p q] eqn:E; [done|]. apply (rebuild_query _ (p :: q)); [apply filter_free| |done..].
  apply list.Forall_forall. by intros x [? _]%list_elem_of_filter.
Qed.

(** ** The headers *)

Definition canonical (name : string) : Prop := CanonicalHeaderKey name = name.

Lemma forwarded_canonical : Forall canonical callerForwardedHeaders.
Proof. repeat constructor. Qed.
Lemma never_canonical : Forall canonical neverForwardedHeaders.
Proof. repeat constructor. Qed.

Lemma foldl_Del h names k : Forall canonical names →
  foldl Del h names !! k = if decide (k ∈ names) then None else h !! k.
Proof.
  intros H. revert h; induction H as [|n names Hn H IH]; intros h; cbn [foldl].
  { by rewrite decide_False by apply not_elem_of_nil. }
  rewrite IH. unfold Del. rewrite Hn. destruct (decide (k ∈ names)).
  - by rewrite decide_True by by right.
  - rewrite lookup_delete. destruct (decide (n = k)) as [->|].
    + by rewrite decide_True by left.
    + rewrite decide_False; [done|]. rewrite elem_of_cons. naive_solver.
Qed.

(** The snapshot's value under a name. *)
Definition snapshotValue (h : headers) (k : string) : option (list string) :=
  match h !! k with Some (v :: vs) => Some (v :: vs) | _ => None end.

Lemma foldl_snapshot h s names k : Forall canonical names →
  foldl (snapshotInto h) s names !! k =
  if decide (k ∈ names) then (match snapshotValue h k with Some v => Some v | None => s !! k end) else s !! k.
Proof.
  intros H. revert s; induction H as [|n names Hn H IH]; intros s; cbn [foldl].
  { by rewrite decide_False by apply not_elem_of_nil. }
  assert (Hs : snapshotInto h s n !! k =
    if decide (n = k) then match snapshotValue h k with Some v => Some v | None => s !! k end else s !! k).
  { unfold snapshotInto, Values, snapshotValue. rewrite Hn. destruct (decide (n = k)) as [->|Hne].
    - destruct (h !! k) as [[|v vs]|]; simpl; try done. by rewrite lookup_insert_eq.
    - destruct (default [] (h !! n)); [done|]. by rewrite lookup_insert_ne. }
  rewrite IH, Hs. destruct (decide (k ∈ names)), (decide (n = k)) as [->|];
    rewrite ?decide_True by (by left || by right); try done.
  - by destruct (snapshotValue h k).
  - rewrite decide_False; [done|]. rewrite elem_of_cons. naive_solver.
Qed.

Lemma snapshot_lookup req k :
  cc_headers (callerCredentialsFrom (Some req)) !! k =
  if decide (k ∈ callerForwardedHeaders) then snapshotValue (r_Header req) k else None.
Proof.
  unfold callerCredentialsFrom, cc_headers.
  rewrite (foldl_snapshot _ ∅ callerForwardedHeaders k forwarded_canonical), lookup_empty.
  destruct (decide _); [|done]. by destruct (snapshotValue _ k).
Qed.

Lemma restoreHeader_eq h name vs : canonical name →
  restoreHeader h (name, vs) =
  match vs with [] => h | _ => <[name := default [] (h !! name) ++ vs]> h end.
Proof.
  intros Hn. unfold restoreHeader. simpl. revert h; induction vs as [|v vs IH]; intros h; simpl; [done|].
  rewrite IH. unfold AddHeader. rewrite Hn. destruct vs as [|v' vs]; [done|].
  rewrite lookup_insert_eq, insert_insert_eq. simpl. by rewrite <- app_assoc.
Qed.

Lemma foldl_restore h l k : NoDup l.*1 → Forall (λ kv, canonical kv.1) l →
  (∀ kv, kv ∈ l → kv.2 ≠ [] ∧ h !! kv.1 = None) →
  foldl restoreHeader h l !! k = match (list_to_map l : headers) !! k with Some v => Some v | None => h !! k end.
Proof.
  revert h; induction l as [|[n vs] l IH]; intros h Hnd Hc Hh; simpl; [by rewrite lookup_empty|].
  apply list.NoDup_cons in Hnd as [Hn Hnd]. inversion Hc as [|? ? Hcn Hc']; subst. simpl in *.
  destruct (Hh (n, vs) ltac:(left)) as [Hvs Hnone]. simpl in *. rewrite restoreHeader_eq, Hnone by done.
  destruct vs as [|v vs]; [done|]. simpl. rewrite IH; [|done|done|].
  - destruct (decide (n = k)) as [->|].
    + rewrite !lookup_insert_eq. rewrite (not_elem_of_list_to_map_1 l k) by done. done.
    + by rewrite !lookup_insert_ne by done.
  - intros kv Hkv. destruct (Hh kv ltac:(by right)) as [? ?]. split; [done|].
    rewrite lookup_insert_ne; [done|]. intros ->. apply Hn. by apply list_elem_of_fmap_2.
Qed.

(** ** Enforcement *)

Definition guarded (name : string) : Prop := name ∈ callerForwardedHeaders ∨ name ∈ neverForwardedHeaders.

Definition strip (h : headers) : headers := foldl Del (foldl Del h callerForwardedHeaders) neverForwardedHeaders.

Lemma strip_lookup h k : strip h !! k = if decide (guarded k) then None else h !! k.
Proof.
  unfold strip. rewrite foldl_Del by apply never_canonical.
  rewrite foldl_Del by apply forwarded_canonical. unfold guarded.
  repeat case_decide; naive_solver.
Qed.

Lemma strip_guarded h k : guarded k → strip h !! k = None.
Proof. intros H. by rewrite strip_lookup, decide_True. Qed.

Lemma forwarded_guarded k : k ∈ callerForwardedHeaders → guarded k.
Proof. by left. Qed.

Lemma disjoint_headers k : k ∈ callerForwardedHeaders → k ∈ neverForwardedHeaders → False.
Proof. unfold callerForwardedHeaders, neverForwardedHeaders. set_solver. Qed.

(** An outgoing request carries the credentials [c] and nothing else of the
    guarded names, and is otherwise the request it was made from. *)
Record carries (c : callerCredentials) (req req' : Request) : Prop := {
  carries_credentials : callerCredentialsFrom (Some req') = c;
  carries_never : ∀ name, name ∈ neverForwardedHeaders → r_Header req' !! name = None;
  carries_headers : ∀ name, ¬ guarded name → r_Header req' !! name = r_Header req !! name;
  carries_query : (splitCredentialQuery (r_RawQuery req')).1 = (splitCredentialQuery (r_RawQuery req)).1;
  carries_rest : setHeaders ∅ (setRawQuery "" req') = setHeaders ∅ (setRawQuery "" req) }.

(** A request built on stripped headers carries what was put on top of them. *)
Lemma carries_built req q added query :
  (∀ k v, added !! k = Some v → k ∈ callerForwardedHeaders ∧ v ≠ []) →
  splitCredentialQuery q = ((splitCredentialQuery (r_RawQuery req)).1, query) →
  ∀ h, (∀ k, h !! k = match added !! k with Some v => Some v | None => strip (r_Header req) !! k end) →
  carries (mkCaller added query) req (setHeaders h (setRawQuery q req)).
Proof.
  intros Hadd Hq h Hh. set (req' := setHeaders h (setRawQuery q req)). split.
  - change (callerCredentialsFrom (Some req')) with
      (mkCaller (cc_headers (callerCredentialsFrom (Some req'))) (splitCredentialQuery q).2).
    f_equal; [|by rewrite Hq]. apply map_eq. intros k. rewrite snapshot_lookup.
    change (r_Header req') with h. unfold snapshotValue. rewrite Hh. destruct (added !! k) as [v|] eqn:E.
    + destruct (Hadd k v E) as [Hk Hv]. rewrite decide_True by done. by destruct v.
    + destruct (decide _) as [Hk|]; [|done]. by rewrite strip_guarded by by apply forwarded_guarded.
  - intros k Hk. simpl. rewrite Hh. destruct (added !! k) as [v|] eqn:E.
    + destruct (disjoint_headers k); [by eapply Hadd|done].
    + apply strip_guarded. by right.
  - intros k Hk. simpl. rewrite Hh, strip_lookup, decide_False by done. destruct (added !! k) as [v|] eqn:E; [|done].
    destruct Hk. left. by eapply Hadd.
  - simpl. by rewrite Hq.
  - done.
Qed.

Lemma ingress_headers ingress k v : cc_headers (callerCredentialsFrom ingress) !! k = Some v →
  k ∈ callerForwardedHeaders ∧ v ≠ [].
Proof.
  destruct ingress as [req|]; [|done]. rewrite snapshot_lookup. destruct (decide _); [|done].
  unfold snapshotValue. destruct (r_Header req !! k) as [[|]|]; naive_solver.
Qed.

Lemma ingress_snapshotQuery ingress : snapshotQuery (cc_query (callerCredentialsFrom ingress)).
Proof. destruct ingress as [req|]; [apply ingress_query|split; constructor]. Qed.

(** The headers of caller mode. *)
Lemma restore_lookup h ingress k :
  foldl restoreHeader (strip h) (map_to_list (cc_headers (callerCredentialsFrom ingress))) !! k =
  match cc_headers (callerCredentialsFrom ingress) !! k with Some v => Some v | None => strip h !! k end.
Proof.
  set (m := cc_headers _). assert (Hm : ∀ kv, kv ∈ map_to_list m → kv.1 ∈ callerForwardedHeaders ∧ kv.2 ≠ []).
  { intros [n v] ?%elem_of_map_to_list. by apply (ingress_headers ingress). }
  rewrite foldl_restore; [by rewrite list_to_map_to_list|apply NoDup_fst_map_to_list| |].
  - apply list.Forall_forall. intros kv [Hk _]%Hm. by eapply list.Forall_forall in Hk; [|apply forwarded_canonical].
  - intros kv [Hk Hv]%Hm. split; [done|]. by apply strip_guarded, forwarded_guarded.
Qed.

Lemma carries_none req :
  carries noCaller req (setHeaders (strip (r_Header req)) (setRawQuery (splitCredentialQuery (r_RawQuery req)).1 req)).
Proof. apply carries_built; [done|apply ordinary_query|]. intros k. by rewrite lookup_empty. Qed.

Lemma caller_eta c : c = mkCaller (cc_headers c) (cc_query c).
Proof. by destruct c. Qed.

Lemma native_forwarded format : nativeHeader format ∈ callerForwardedHeaders.
Proof. unfold nativeHeader, callerForwardedHeaders. repeat case_match; set_solver. Qed.

(** The enforcement, for the clients that send the request. *)
Lemma applyProviderCredential_carries resolve req target ingress :
  let caller := callerCredentialsFrom ingress in
  let '(req', r) := applyProviderCredential resolve req target caller in
  carries (prescribed resolve target caller).1 req req'
  ∧ is_ok r = (prescribed resolve target caller).2.
Proof.
  intros caller. unfold applyProviderCredential, applyProviderCredentialHeaders, prescribed. fold (strip (r_Header req)).
  destruct (String.eqb (EffectiveMode (p_Auth target)) "caller") eqn:Ecaller.
  { split; [|done]. cbn [fst]. rewrite (caller_eta caller) at 1.
    apply carries_built; [apply ingress_headers|apply callerQuery_restores, ingress_snapshotQuery|].
    apply restore_lookup. }
  pose proof (carries_none req) as Hnone.
  destruct (String.eqb (EffectiveMode (p_Auth target)) "credential"); [|by destruct (String.eqb _ "none")].
  destruct resolve as [f|]; simpl; [|done]. destruct (f _) as [[|c s]|e]; simpl; [done| |done].
  split; [|done].
  apply carries_built; [|apply ordinary_query|].
  - intros k v [<- <-]%lookup_singleton_Some. split; [apply native_forwarded|done].
  - intros k. unfold SetHeader.
    assert (canonical (nativeHeader (p_Format target))) as ->.
    { eapply list.Forall_forall; [apply forwarded_canonical|apply native_forwarded]. }
    destruct (decide (nativeHeader (p_Format target) = k)) as [<-|].
    + by rewrite lookup_insert_eq, lookup_singleton_eq.
    + by rewrite lookup_insert_ne, lookup_singleton_ne.
Qed.

(** C21. Whatever credentials the live request carries (the primary provider's,
    after a failover), the request that leaves carries exactly the credentials
    the target's mode prescribes: the caller's ingress snapshot in caller mode,
    the one resolved secret under the protocol's own header in credential mode,
    none otherwise and none when an error is returned.  Cookies and proxy
    credentials never leave, the ordinary query and every other header are
    kept, and an error is returned exactly when the mode cannot be honoured. *)
Theorem credentials_enforced resolve req target ingress :
  let caller := callerCredentialsFrom ingress in
  let '(req', r) := applyProviderCredential resolve req target caller in
  carries (prescribed resolve target caller).1 req req'
  ∧ is_ok r = (prescribed resolve target caller).2.
Proof. apply applyProviderCredential_carries. Qed.

(** ** The rate-limit identity *)

(** The header a caller authenticates with, and its values. *)
Fixpoint firstAuth (c : callerCredentials) (names : list string) : option (string * list string) :=
  match names with
  | [] => None
  | name :: rest =>
      match Values (cc_headers c) name with
      | [] => firstAuth c rest
      | values => Some (CanonicalHeaderKey name, values)
      end
  end.
Definition authNames : list string := ["Authorization"; "X-Api-Key"; "X-Goog-Api-Key"; "Api-Key"].

(** A header value the HTTP server accepts holds no NUL. *)
Definition cleanHeaders (c : callerCredentials) : Prop :=
  ∀ name vs, cc_headers c !! name = Some vs → Forall (free "000") vs.

Lemma headerIdentity_first c names :
  headerIdentity c names = (λ nv, nv.1 +:+ NUL +:+ Join NUL nv.2) <$> firstAuth c names.
Proof. induction names as [|n names IH]; simpl; [done|]. by destruct (Values _ n). Qed.

Lemma firstAuth_spec c names nv : firstAuth c names = Some nv →
  nv.1 ∈ CanonicalHeaderKey <$> names ∧ nv.2 ≠ [] ∧ cc_headers c !! nv.1 = Some nv.2.
Proof.
  induction names as [|n names IH]; simpl; [done|]. unfold Values.
  destruct (cc_headers c !! CanonicalHeaderKey n) as [[|v vs]|] eqn:E; simpl; try by intros (? & ? & ?)%IH; set_solver.
  intros [= <-]. simpl. split_and!; [left|done|done].
Qed.

Lemma authNames_domain n : n ∈ CanonicalHeaderKey <$> authNames →
  free "000" n ∧ n ∉ [""; "query"; "query-raw"].
Proof.
  change (CanonicalHeaderKey <$> authNames) with authNames. intros Hn. revert n Hn. apply list.Forall_forall.
  repeat constructor; by apply (bool_decide_unpack _).
Qed.

Lemma identity_parts c nv : cleanHeaders c → firstAuth c authNames = Some nv →
  Split "000" (rateIdentity c) = nv.1 :: nv.2.
Proof.
  intros Hc Hf. unfold rateIdentity. fold authNames. rewrite headerIdentity_first, Hf. simpl.
  apply firstAuth_spec in Hf as (Hn & Hne & Hv). apply Hc in Hv.
  apply authNames_domain in Hn as [Hn _].
  change (NUL +:+ ?x) with (String "000" x). rewrite Split_app by done. f_equal. by apply (Split_Join "000").
Qed.

(** Without an authentication header the identity is in another domain. *)
Lemma identity_query c : firstAuth c authNames = None →
  ∃ x, rateIdentity c ∈ [""; "query" +:+ NUL +:+ x; "query-raw" +:+ NUL +:+ x].
Proof.
  intros Hf. unfold rateIdentity. fold authNames. rewrite headerIdentity_first, Hf. simpl.
  destruct (cc_query c) as [|p q]; [exists ""; left|].
  destruct (ParseQuery _) as [values bad]. case_match; eexists; [right; left|right; right; left].
Qed.

(** Two callers share a rate-limit identity only when they authenticate with the
    same header and the same values, or neither with a header. *)
Theorem identity_separates c c' : cleanHeaders c → cleanHeaders c' →
  rateIdentity c = rateIdentity c' → firstAuth c authNames = firstAuth c' authNames.
Proof.
  assert (Hcross : ∀ c c' nv, cleanHeaders c → rateIdentity c = rateIdentity c' →
    firstAuth c authNames = Some nv → firstAuth c' authNames = None → False).
  { intros d d' nv Hd He Hf [x Hx]%identity_query. pose proof (identity_parts d nv Hd Hf) as Hp.
    apply firstAuth_spec in Hf as (Hn & Hne & _). rewrite He in Hp.
    assert (Hhd : head (Split "000" (rateIdentity d')) = Some nv.1) by by rewrite Hp.
    apply authNames_domain in Hn as [_ Hn].
    repeat (apply elem_of_cons in Hx as [Hx|Hx]; [rewrite Hx in Hhd|]); [..|by apply not_elem_of_nil in Hx];
      simpl in Hhd; injection Hhd as Hhd; apply Hn; rewrite <- Hhd; set_solver. }
  intros Hc Hc' He. destruct (firstAuth c authNames) as [nv|] eqn:E, (firstAuth c' authNames) as [nv'|] eqn:E'.
  - pose proof (identity_parts c nv Hc E) as H1. rewrite He, (identity_parts c' nv' Hc' E') in H1.
    destruct nv, nv'; simpl in *; congruence.
  - by destruct (Hcross c c' nv).
  - by destruct (Hcross c' c nv').
  - done.
Qed.
