(* ===== verification/RateLimit.v ===== *)
(** * Per-identity rate limiting

    internal/proxy/ratelimit.go: token buckets with a concurrency counter, one
    per caller identity, live updates of the limits, the janitor that evicts
    idle buckets, and the leases that admissions hand out.  Buckets are shared
    objects: the map holds their addresses and a lease keeps the address it was
    granted on, so an evicted bucket and its successor are told apart.  A
    [float64] is the Standard Library's specification of binary64; times are
    nanosecond readings of the clock, one argument per [time.Now]. *)

From stdpp Require Import base list strings gmap numbers.
From Stdlib Require Import SpecFloat.
From S2P Require Import Prelude ByteStrings ConversationKeys.

(** ** Machine numbers *)

Definition float64 := spec_float.
Definition f_add : float64 → float64 → float64 := SFadd 53 1024.
Definition f_sub : float64 → float64 → float64 := SFsub 53 1024.
Definition f_mul : float64 → float64 → float64 := SFmul 53 1024.
Definition f_div : float64 → float64 → float64 := SFdiv 53 1024.
Definition f_of_int (z : Z) : float64 := binary_normalize 53 1024 z 0 false.

Definition max_int64 : Z := 9223372036854775807.
Definition min_int64 : Z := -9223372036854775808.
(** Two's complement addition of Go's [int]. *)
Definition int_of (z : Z) : Z := ((z + 9223372036854775808) mod 18446744073709551616 - 9223372036854775808)%Z.

Lemma int_of_id z : (min_int64 ≤ z ≤ max_int64)%Z → int_of z = z.
Proof. unfold int_of, min_int64, max_int64. intros H. rewrite Z.mod_small; lia. Qed.

Definition second : Z := 1000000000.
(** [Time.Sub] saturates. *)
Definition time_Sub (t u : Z) : Z := Z.max min_int64 (Z.min max_int64 (t - u)).
Definition Seconds (d : Z) : float64 :=
  f_add (f_of_int (Z.quot d second)) (f_div (f_of_int (Z.rem d second)) (f_of_int second)).

(** ** State *)

Definition limiterIdleTTL : Z := (10 * 60 * second)%Z.

Record Limiter := mkLimiter {
  tokens : float64;
  lastRefill : Z;
  lastSeen : Z;
  active : Z }.

Abbreviation addr := positive.

(** [heap] holds every bucket ever allocated; [limits] the addresses the map
    holds now. *)
Record RateLimiter := mkRateLimiter {
  heap : gmap addr Limiter;
  limits : gmap string addr;
  rpm : Z;
  maxConn : Z;
  stopJanitor : bool;   (* the channel is closed *)
  janitorOnce : bool }.

Definition NewRateLimiter (rpm maxConn : Z) : RateLimiter :=
  mkRateLimiter ∅ ∅ rpm maxConn false false.

Definition with_heap (h : gmap addr Limiter) (rl : RateLimiter) : RateLimiter :=
  mkRateLimiter h (limits rl) (rpm rl) (maxConn rl) (stopJanitor rl) (janitorOnce rl).
Definition with_limits (m : gmap string addr) (rl : RateLimiter) : RateLimiter :=
  mkRateLimiter (heap rl) m (rpm rl) (maxConn rl) (stopJanitor rl) (janitorOnce rl).
Definition with_policy (rpm maxConn : Z) (rl : RateLimiter) : RateLimiter :=
  mkRateLimiter (heap rl) (limits rl) rpm maxConn (stopJanitor rl) (janitorOnce rl).

(** ** Operations *)

(** The body of [Update]'s loop. *)
Definition updateLimiter (previousRPM rpm now : Z) (l : Limiter) : Limiter :=
  let tokens' :=
    if (rpm =? 0)%Z then f_of_int 0
    else if (previousRPM <=? 0)%Z || SFltb (f_of_int rpm) (tokens l) then f_of_int rpm
    else tokens l in
  mkLimiter tokens' now now (active l).

Definition alter_all {A} (f : A → A) (ps : list addr) (h : gmap addr A) : gmap addr A :=
  foldl (λ h p, alter f p h) h ps.

Definition Update (rl : option RateLimiter) (rpm' maxConn' now : Z) : option RateLimiter :=
  match rl with
  | None => None
  | Some rl =>
      let ps := snd <$> map_to_list (limits rl) in
      Some (with_heap (alter_all (updateLimiter (rpm rl) rpm' now) ps (heap rl))
              (with_policy rpm' maxConn' rl))
  end.

(** Closing a closed channel panics ([None]). *)
Definition close_chan (rl : RateLimiter) : option RateLimiter :=
  if stopJanitor rl then None
  else Some (mkRateLimiter (heap rl) (limits rl) (rpm rl) (maxConn rl) true (janitorOnce rl)).

Definition Close (rl : RateLimiter) : option RateLimiter :=
  if janitorOnce rl then Some rl
  else close_chan (mkRateLimiter (heap rl) (limits rl) (rpm rl) (maxConn rl) (stopJanitor rl) true).

Definition idle (h : gmap addr Limiter) (cutoff : Z) (p : addr) : bool :=
  match h !! p with
  | Some l => (active l =? 0)%Z && (lastSeen l <? cutoff)%Z
  | None => false
  end.

(** One tick of [janitor]. *)
Definition janitorTick (rl : RateLimiter) (now : Z) : RateLimiter :=
  let cutoff := (now - limiterIdleTTL)%Z in
  with_limits (filter (λ kp, idle (heap rl) cutoff kp.2 = false) (limits rl)) rl.

Section Hashed.
Context (sha256 : string → string).

Definition hashIdentity (identity : string) : string := EncodeToString (stake 16 (sha256 identity)).

Definition getLimiterLocked (rl : RateLimiter) (key : string) (t1 t2 : Z) : RateLimiter * addr :=
  match limits rl !! key with
  | Some p => (rl, p)
  | None =>
      let p := fresh (dom (heap rl)) in
      (with_limits (<[key := p]> (limits rl))
         (with_heap (<[p := mkLimiter (f_of_int (rpm rl)) t1 t2 0]> (heap rl)) rl), p)
  end.

(** The readings of the clock in one [acquire]. *)
Record Readings := mkReadings { newRefill : Z; newSeen : Z; seen : Z; refill : Z }.

(** The bucket after the RPM check and whether it admits. *)
Definition takeToken (rpm now : Z) (l : Limiter) : Limiter * bool :=
  let elapsed := Seconds (time_Sub now (lastRefill l)) in
  let rate := f_div (f_of_int rpm) (f_of_int 60) in
  let filled := f_add (tokens l) (f_mul elapsed rate) in
  let filled := if SFltb (f_of_int rpm) filled then f_of_int rpm else filled in
  if SFltb filled (f_of_int 1) then (mkLimiter filled now (lastSeen l) (active l), false)
  else (mkLimiter (f_sub filled (f_of_int 1)) now (lastSeen l) (active l), true).

(** What [acquire] does to the bucket it has locked. *)
Definition judge (rpm maxConn : Z) (t : Readings) (l : Limiter) : Limiter * bool :=
  let l := mkLimiter (tokens l) (lastRefill l) (seen t) (active l) in
  if (0 <? maxConn)%Z && (maxConn <=? active l)%Z then (l, false)
  else
    let '(l, ok) := if (0 <? rpm)%Z then takeToken rpm (refill t) l else (l, true) in
    if ok then (mkLimiter (tokens l) (lastRefill l) (lastSeen l) (int_of (active l + 1)), true)
    else (l, false).

Definition acquire (rl : option RateLimiter) (identity : string) (t : Readings)
    : option RateLimiter * (option addr * bool) :=
  match rl with
  | None => (None, (None, true))
  | Some rl =>
      let key := hashIdentity identity in
      let '(rl, p) :=
        if (0 <? rpm rl)%Z || (0 <? maxConn rl)%Z then
          let '(rl, p) := getLimiterLocked rl key (newRefill t) (newSeen t) in (rl, Some p)
        else (rl, limits rl !! key) in
      match p ≫= λ p, pair p <$> heap rl !! p with
      | None => (Some rl, (None, true))
      | Some (p, l) =>
          let '(l', ok) := judge (rpm rl) (maxConn rl) t l in
          (Some (with_heap (<[p := l']> (heap rl)) rl), (if ok then Some p else None, ok))
      end
  end.

Definition releaseLimiter (rl : RateLimiter) (p : option addr) (now : Z) : RateLimiter :=
  match p with
  | None => rl
  | Some p =>
      with_heap (alter (λ l, mkLimiter (tokens l) (lastRefill l) now
                               (if (0 <? active l)%Z then active l - 1 else active l)%Z) p (heap rl)) rl
  end.

(** The function [acquireLease] returns: the bucket it is bound to and whether
    its [sync.OnceFunc] has run.  The empty function is bound to no bucket. *)
Record Lease := mkLease { target : option addr; fired : bool }.

Definition acquireLease (rl : option RateLimiter) (identity : string) (t : Readings)
    : option RateLimiter * (Lease * bool) :=
  let '(rl, (l, ok)) := acquire rl identity t in (rl, (mkLease l false, ok)).

Definition release (rl : RateLimiter) (le : Lease) (now : Z) : RateLimiter * Lease :=
  if fired le then (rl, le)
  else (releaseLimiter rl (target le) now, mkLease (target le) true).
End Hashed.

(** * The rate limiter: leases and concurrency

    Sequences of operations on one limiter, with the leases handed out so far.
    [leases_accounted]: whatever the order of admissions, releases, updates of
    the limits and janitor ticks, the counter of a caller's live bucket is the
    number of that caller's counted leases not yet released.
    [concurrency_bounded]: while a concurrency limit of at most [m] is in force
    no caller ever holds more than [m] unreleased admissions.

    An operation is one step: [acquire] takes the bucket's mutex before it gives
    up the map's, [Update] and the janitor hold the map's mutex throughout and
    take each bucket's, and a release touches one bucket under its mutex. *)

(** ** Sequences of operations *)

(** What one call of [acquireLease] returned, and to whom. *)
Record Grant := mkGrant { grantee : string; lease : Lease; admitted : bool }.

Inductive Event :=
| Acquires (who : string) (t : Readings)
| Releases (i : nat) (now : Z)
| Updates (rpm maxConn now : Z)
| Ticks (now : Z)
| Closes
| JanitorReturns.

Record System := mkSystem {
  limiter : RateLimiter;
  grants : list Grant;
  janitorLive : bool }.

Section Runs.
Context (sha256 : string → string).

(** A lease may be released at any time and any number of times; the janitor
    returns only once the channel is closed, and may serve ticks before it
    notices. *)
Definition exec (s : System) (e : Event) : System :=
  let '(mkSystem rl gs live) := s in
  match e with
  | Acquires who t =>
      match acquireLease sha256 (Some rl) who t with
      | (Some rl, (le, ok)) => mkSystem rl (gs ++ [mkGrant who le ok]) live
      | (None, _) => s
      end
  | Releases i now =>
      match gs !! i with
      | Some g => let '(rl, le) := release rl (lease g) now in
                  mkSystem rl (<[i := mkGrant (grantee g) le (admitted g)]> gs) live
      | None => s
      end
  | Updates rpm maxConn now =>
      match Update (Some rl) rpm maxConn now with Some rl => mkSystem rl gs live | None => s end
  | Ticks now => if live then mkSystem (janitorTick rl now) gs live else s
  | Closes => match Close rl with Some rl => mkSystem rl gs live | None => s end
  | JanitorReturns => if stopJanitor rl then mkSystem rl gs false else s
  end.

Definition start (rpm maxConn : Z) : System := mkSystem (NewRateLimiter rpm maxConn) [] true.
Definition run (rpm maxConn : Z) (es : list Event) : System := foldl exec (start rpm maxConn) es.

(** ** Counting leases *)

Definition flag (b : bool) : Z := if b then 1%Z else 0%Z.

(** An unreleased lease bound to the bucket at [p]. *)
Definition bound (p : addr) (g : Grant) : bool :=
  negb (fired (lease g)) && bool_decide (target (lease g) = Some p).

(** An unreleased counted lease of the callers that share a key. *)
Definition counted (key : string) (g : Grant) : bool :=
  negb (fired (lease g)) && bool_decide (is_Some (target (lease g)))
  && bool_decide (hashIdentity sha256 (grantee g) = key).

(** An unreleased admission of those callers. *)
Definition held (key : string) (g : Grant) : bool :=
  negb (fired (lease g)) && admitted g && bool_decide (hashIdentity sha256 (grantee g) = key).

Definition count {A} (P : A → bool) (l : list A) : Z := list_sum (λ x, flag (P x)) l.

Definition liveActive (rl : RateLimiter) (key : string) : Z :=
  match limits rl !! key ≫= λ p, heap rl !! p with Some l => active l | None => 0%Z end.

Lemma count_app {A} (P : A → bool) l k : count P (l ++ k) = (count P l + count P k)%Z.
Proof. unfold count. induction l as [|x l IH]; simpl; [done|]. rewrite IH. lia. Qed.

Lemma count_one {A} (P : A → bool) x : count P [x] = flag (P x).
Proof. unfold count. simpl. lia. Qed.

Lemma count_insert {A} (P : A → bool) l i x y : l !! i = Some x →
  count P (<[i := y]> l) = (count P l - flag (P x) + flag (P y))%Z.
Proof.
  unfold count. revert i; induction l as [|z l IH]; intros [|i]; simpl; try done.
  - intros [= ->]. lia.
  - intros H. rewrite (IH _ H). lia.
Qed.

Lemma count_bounds {A} (P : A → bool) l : (0 ≤ count P l ≤ Z.of_nat (length l))%Z.
Proof. unfold count, flag. induction l as [|x l IH]; simpl; [lia|]. destruct (P x); lia. Qed.

Lemma count_ext {A} (P Q : A → bool) l : (∀ x, x ∈ l → P x = Q x) → count P l = count Q l.
Proof.
  unfold count. induction l as [|x l IH]; simpl; intros H; [done|].
  rewrite IH by (intros; apply H; by right). by rewrite (H x) by left.
Qed.

Lemma count_mono {A} (P Q : A → bool) l :
  (∀ x, x ∈ l → P x = true → Q x = true) → (count P l ≤ count Q l)%Z.
Proof.
  unfold count. induction l as [|x l IH]; simpl; intros H; [done|].
  assert (flag (P x) ≤ flag (Q x))%Z.
  { destruct (P x) eqn:E; [by rewrite (H x) by (done || left)|unfold flag; by destruct (Q x)]. }
  assert (∀ y, y ∈ l → P y = true → Q y = true) by (intros; apply H; [by right|done]).
  specialize (IH ltac:(done)). lia.
Qed.

Lemma count_none {A} (P : A → bool) l : (∀ x, x ∈ l → P x = false) → count P l = 0%Z.
Proof.
  intros H. rewrite (count_ext P (λ _, false)) by done. clear H. unfold count. by induction l.
Qed.

Lemma count_pos {A} (P : A → bool) l i x : l !! i = Some x → P x = true → (0 < count P l)%Z.
Proof.
  intros Hi Hx. rewrite <- (take_drop_middle l i x Hi), count_app.
  change (count P (x :: drop (S i) l)) with (flag (P x) + count P (drop (S i) l))%Z. rewrite Hx. simpl.
  pose proof (count_bounds P (take i l)). pose proof (count_bounds P (drop (S i) l)). lia.
Qed.

Lemma list_elem_of_insert_inv {A} (l : list A) i x y : y ∈ <[i := x]> l → y = x ∨ y ∈ l.
Proof.
  intros (j & Hj)%list_elem_of_lookup. apply list_lookup_insert_Some in Hj as [(_ & -> & _)|[_ Hj]]; [by left|].
  right. by eapply list_elem_of_lookup_2.
Qed.

Lemma bound_spec p g : bound p g = true ↔ fired (lease g) = false ∧ target (lease g) = Some p.
Proof. unfold bound. rewrite andb_true_iff, negb_true_iff, bool_decide_eq_true. done. Qed.

(** ** The invariant *)

Record Inv (s : System) : Prop := {
  inv_alive : ∀ k p, limits (limiter s) !! k = Some p → is_Some (heap (limiter s) !! p);
  inv_inj : ∀ k k' p, limits (limiter s) !! k = Some p → limits (limiter s) !! k' = Some p → k = k';
  inv_bound : ∀ g p, g ∈ grants s → bound p g = true →
    limits (limiter s) !! hashIdentity sha256 (grantee g) = Some p;
  inv_active : ∀ p l, heap (limiter s) !! p = Some l → active l = count (bound p) (grants s) }.

Lemma inv_start rpm maxConn : Inv (start rpm maxConn).
Proof. split; simpl; intros *; rewrite ?lookup_empty; try done. by intros ?%not_elem_of_nil. Qed.

(** A bucket the map does not hold has no unreleased lease. *)
Lemma inv_orphan s p : Inv s → (∀ k, limits (limiter s) !! k ≠ Some p) → count (bound p) (grants s) = 0%Z.
Proof.
  intros I H. apply count_none. intros g Hg. destruct (bound p g) eqn:E; [|done].
  by destruct (H _ (inv_bound s I g p Hg E)).
Qed.

(** Steps that keep the counters and the leases. *)
Lemma inv_heap s h rl live :
  Inv s → limits rl = limits (limiter s) → heap rl = h →
  (∀ p, active <$> h !! p = active <$> heap (limiter s) !! p) →
  Inv (mkSystem rl (grants s) live).
Proof.
  intros [I1 I2 I3 I4] Hl Hh Ha. split; simpl; rewrite ?Hl, ?Hh; [|done|done|].
  - intros k p Hk. apply I1 in Hk as [l Hk]. specialize (Ha p). rewrite Hk in Ha.
    destruct (h !! p); [eauto|done].
  - intros p l Hp. specialize (Ha p). rewrite Hp in Ha. destruct (heap (limiter s) !! p) eqn:E; [|done].
    simpl in Ha. injection Ha as ->. by apply I4.
Qed.

(** ** Every step keeps it *)

Lemma judge_active rpm maxConn t l l' ok : judge rpm maxConn t l = (l', ok) →
  active l' = if ok then int_of (active l + 1) else active l.
Proof. unfold judge, takeToken. intros H. repeat split_match_in H; simplify_eq/=; done. Qed.

(** An admission under a concurrency limit found the counter below it. *)
Lemma judge_below rpm maxConn t l l' : judge rpm maxConn t l = (l', true) →
  (0 < maxConn)%Z → (active l < maxConn)%Z.
Proof.
  unfold judge. simpl. intros H Hm.
  destruct (Z.ltb_spec 0 maxConn), (Z.leb_spec maxConn (active l)); simpl in H; try lia; done.
Qed.

Lemma inv_get s key t1 t2 rl p : Inv s → getLimiterLocked (limiter s) key t1 t2 = (rl, p) →
  Inv (mkSystem rl (grants s) (janitorLive s)) ∧ limits rl !! key = Some p
  ∧ rpm rl = rpm (limiter s) ∧ maxConn rl = maxConn (limiter s).
Proof.
  intros I. unfold getLimiterLocked. destruct (limits (limiter s) !! key) as [q|] eqn:E.
  { intros [= <- <-]. by destruct s. }
  intros [= <- <-]. simpl. rewrite lookup_insert_eq. split; [|done].
  set (p := fresh (dom (heap (limiter s)))).
  assert (Hp : heap (limiter s) !! p = None) by apply not_elem_of_dom, is_fresh.
  assert (Hn : ∀ k, limits (limiter s) !! k ≠ Some p).
  { intros k Hk. apply (inv_alive s I) in Hk. rewrite Hp in Hk. by destruct Hk. }
  split; simpl.
  - intros k q [[_ <-]|[_ Hk]]%lookup_insert_Some; [by rewrite lookup_insert_eq|].
    rewrite lookup_insert_ne; [by apply (inv_alive s I k)|]. intros <-. by apply (Hn k).
  - intros k k' q [[<- <-]|[Hk1 Hk]]%lookup_insert_Some [[<- Hq]|[Hk1' Hk']]%lookup_insert_Some;
      try done; [by destruct (Hn k')|subst; by destruct (Hn k)|by apply (inv_inj s I _ _ q)].
  - intros g q Hg Hb. pose proof (inv_bound s I g q Hg Hb) as H. rewrite lookup_insert_ne; [done|congruence].
  - intros q l [[<- <-]|[Hq Hl]]%lookup_insert_Some; [|by apply (inv_active s I)].
    simpl. symmetry. by apply inv_orphan.
Qed.

Lemma inv_judge s who p l t l' ok live :
  Inv s → limits (limiter s) !! hashIdentity sha256 who = Some p → heap (limiter s) !! p = Some l →
  (Z.of_nat (length (grants s)) < max_int64)%Z →
  judge (rpm (limiter s)) (maxConn (limiter s)) t l = (l', ok) →
  Inv (mkSystem (with_heap (<[p := l']> (heap (limiter s))) (limiter s))
         (grants s ++ [mkGrant who (mkLease (if ok then Some p else None) false) ok]) live).
Proof.
  intros I Hk Hp Hlen Ha. apply judge_active in Ha. split; simpl.
  - intros k q Hq. destruct (decide (p = q)) as [<-|]; [by rewrite lookup_insert_eq|].
    rewrite lookup_insert_ne by done. by apply (inv_alive s I k).
  - apply (inv_inj s I).
  - intros g q [Hg|Hg]%elem_of_app; [by apply (inv_bound s I)|].
    apply list_elem_of_singleton in Hg as ->. rewrite bound_spec. simpl. destruct ok; [|naive_solver].
    intros [_ [= <-]]. done.
  - intros q l0 Hq. rewrite count_app, count_one. unfold bound at 2. simpl.
    apply lookup_insert_Some in Hq as [[<- <-]|[Hne Hq]].
    + rewrite Ha, (inv_active s I p l Hp). pose proof (count_bounds (bound p) (grants s)).
      destruct ok; simpl; [|lia]. rewrite bool_decide_true by done. simpl.
      apply int_of_id. unfold min_int64. lia.
    + rewrite bool_decide_false by (destruct ok; congruence). simpl. rewrite Z.add_0_r. by apply (inv_active s I).
Qed.

(** The two outcomes of [acquireLease]: an uncounted admission while nothing is
    enforced, or a verdict on the caller's live bucket. *)
Lemma acquireLease_spec s who t rl' le ok :
  Inv s → acquireLease sha256 (Some (limiter s)) who t = (rl', (le, ok)) →
  (rl' = Some (limiter s) ∧ le = mkLease None false ∧ ok = true
     ∧ (rpm (limiter s) ≤ 0)%Z ∧ (maxConn (limiter s) ≤ 0)%Z)
  ∨ ∃ rl p l l', Inv (mkSystem rl (grants s) (janitorLive s))
     ∧ limits rl !! hashIdentity sha256 who = Some p ∧ heap rl !! p = Some l
     ∧ rpm rl = rpm (limiter s) ∧ maxConn rl = maxConn (limiter s)
     ∧ judge (rpm rl) (maxConn rl) t l = (l', ok)
     ∧ rl' = Some (with_heap (<[p := l']> (heap rl)) rl)
     ∧ le = mkLease (if ok then Some p else None) false.
Proof.
  intros I. unfold acquireLease, acquire.
  assert (Hlive : ∀ rl p, Inv (mkSystem rl (grants s) (janitorLive s)) →
    limits rl !! hashIdentity sha256 who = Some p → ∃ l, heap rl !! p = Some l).
  { intros rl p I' Hk. by apply (inv_alive _ I') in Hk as [l Hl]; eauto. }
  destruct ((0 <? rpm (limiter s))%Z || (0 <? maxConn (limiter s))%Z) eqn:Epol.
  - destruct (getLimiterLocked _ _ _ _) as [rl p] eqn:Eg.
    apply (inv_get s) in Eg as (I' & Hk & Hr & Hm); [|done].
    destruct (Hlive rl p I' Hk) as [l Hl]. simpl. rewrite Hl. simpl.
    destruct (judge _ _ _ _) as [l' b] eqn:Ea. intros [= <- <- <-]. right. by exists rl, p, l, l'.
  - assert (Inv (mkSystem (limiter s) (grants s) (janitorLive s))) as I' by by destruct s.
    destruct (limits (limiter s) !! hashIdentity sha256 who) as [p|] eqn:Hk.
    + destruct (Hlive _ p I' Hk) as [l Hl]. simpl. rewrite Hl. simpl.
      destruct (judge _ _ _ _) as [l' b] eqn:Ea. intros [= <- <- <-]. right. by exists (limiter s), p, l, l'.
    + simpl. intros [= <- <- <-]. left. apply orb_false_iff in Epol as [H1 H2].
      apply Z.ltb_ge in H1, H2. done.
Qed.

Lemma inv_acquire s who t :
  Inv s → (Z.of_nat (length (grants s)) < max_int64)%Z → Inv (exec s (Acquires who t)).
Proof.
  intros I Hlen. pose proof (acquireLease_spec s who t) as H. destruct s as [rl gs live]. simpl in *.
  destruct (acquireLease _ _ _ _) as [rl' [le ok]].
  destruct (H _ _ _ I eq_refl) as [(-> & -> & -> & _)|(rl1 & p & l & l' & I' & Hk & Hl & _ & _ & Ha & -> & ->)].
  - destruct I as [I1 I2 I3 I4]. split; simpl in *; [done..| |].
    + intros g p [Hg|Hg]%elem_of_app; [by apply I3|]. apply list_elem_of_singleton in Hg as ->.
      by intros [_ [=]]%bound_spec.
    + intros p l Hp. rewrite count_app, count_one, Z.add_0_r. by apply I4.
  - by apply (inv_judge (mkSystem rl1 gs live) who p l t).
Qed.

Lemma inv_release s i now : Inv s → Inv (exec s (Releases i now)).
Proof.
  intros I. destruct s as [rl gs live]. simpl. destruct (gs !! i) as [[who [tg fi] ok]|] eqn:Ei; [|done].
  unfold release. destruct fi; simpl.
  { rewrite list_insert_id by done. done. }
  assert (Hg : ∀ g q, g ∈ <[i := mkGrant who (mkLease tg true) ok]> gs → bound q g = true →
    limits rl !! hashIdentity sha256 (grantee g) = Some q).
  { intros g q Hg Hb. apply list_elem_of_insert_inv in Hg as [-> |Hg]; [by apply bound_spec in Hb as [? _]|].
    by apply (inv_bound _ I). }
  assert (Hc : ∀ q, count (bound q) (<[i := mkGrant who (mkLease tg true) ok]> gs)
                    = (count (bound q) gs - flag (bool_decide (tg = Some q)))%Z).
  { intros q. rewrite (count_insert _ _ _ _ _ Ei). unfold bound at 2 3. simpl. lia. }
  destruct I as [I1 I2 I3 I4]. destruct tg as [p|]; simpl in *; split; simpl; try done.
  - intros k q Hq. rewrite lookup_alter_is_Some. eauto.
  - intros q l. rewrite Hc, lookup_alter. intros Hq. case_decide as Hpq; subst.
    + apply fmap_Some in Hq as (l0 & Hl0 & ->). simpl. rewrite (I4 _ _ Hl0), bool_decide_true by done.
      pose proof (count_pos (bound q) gs i _ Ei) as Hpos.
      rewrite bound_spec in Hpos. specialize (Hpos (conj eq_refl eq_refl)).
      rewrite (proj2 (Z.ltb_lt _ _)) by done. simpl. lia.
    + rewrite bool_decide_false by congruence. simpl. rewrite Z.sub_0_r. by apply I4.
  - intros q l Hq. rewrite Hc. simpl. rewrite Z.sub_0_r. by apply I4.
Qed.

Lemma alter_all_active (f : Limiter → Limiter) ps h p : (∀ l, active (f l) = active l) →
  active <$> alter_all f ps h !! p = active <$> h !! p.
Proof.
  intros Hf. unfold alter_all. revert h; induction ps as [|q ps IH]; intros h; simpl; [done|].
  rewrite IH, lookup_alter. case_decide; [subst|done]. destruct (h !! p); simpl; [by rewrite Hf|done].
Qed.

Lemma inv_update s r m now : Inv s → Inv (exec s (Updates r m now)).
Proof.
  intros I. destruct s as [rl gs live]. simpl.
  eapply (inv_heap (mkSystem rl gs live)); [done..|]. intros p. by apply alter_all_active.
Qed.

(** The janitor evicts only buckets without unreleased leases. *)
Lemma inv_tick s now : Inv s → Inv (exec s (Ticks now)).
Proof.
  intros I. destruct s as [rl gs live]. simpl. destruct live; [|done]. destruct I as [I1 I2 I3 I4].
  simpl in *. split; simpl.
  - intros k p [Hk _]%map_lookup_filter_Some. eauto.
  - intros k k' p [Hk _]%map_lookup_filter_Some [Hk' _]%map_lookup_filter_Some. eauto.
  - intros g p Hg Hb. apply map_lookup_filter_Some. split; [by apply I3|]. simpl.
    unfold idle. destruct (heap rl !! p) as [l|] eqn:Hl; [|done].
    apply list_elem_of_lookup in Hg as [i Hi]. pose proof (count_pos _ _ _ _ Hi Hb).
    rewrite (I4 _ _ Hl), (proj2 (Z.eqb_neq _ _)) by lia. done.
  - done.
Qed.

Lemma inv_close s : Inv s → Inv (exec s Closes).
Proof.
  intros I. destruct s as [rl gs live]. simpl. unfold Close, close_chan.
  repeat case_match; simplify_eq/=; try done; by apply (inv_heap _ (heap rl) _ _ I).
Qed.

Lemma inv_returns s : Inv s → Inv (exec s JanitorReturns).
Proof. intros I. destruct s as [rl gs live]. simpl. case_match; [by apply (inv_heap _ (heap rl) _ _ I)|done]. Qed.

Lemma inv_exec s e : Inv s → (Z.of_nat (length (grants s)) < max_int64)%Z → Inv (exec s e).
Proof.
  intros I Hl. destruct e;
    auto using inv_acquire, inv_release, inv_update, inv_tick, inv_close, inv_returns.
Qed.

Lemma exec_grants s e : length (grants (exec s e)) ≤ S (length (grants s)).
Proof.
  destruct s as [rl gs live]. destruct e; simpl; repeat case_match; simpl;
    rewrite ?length_app, ?length_insert; simpl; lia.
Qed.

(** Induction over a run: an invariant of the steps taken, given the leases'
    accounting. *)
Lemma run_ind (P : System → Prop) r m es :
  P (start r m) → (Z.of_nat (length es) ≤ max_int64)%Z →
  (∀ s e, e ∈ es → Inv s → P s → P (exec s e)) →
  Inv (run r m es) ∧ P (run r m es).
Proof.
  intros H0 Hlen Hstep. unfold run.
  cut (Inv (foldl exec (start r m) es) ∧ P (foldl exec (start r m) es)
       ∧ length (grants (foldl exec (start r m) es)) ≤ length es); [naive_solver|].
  induction es as [|e es IH] using rev_ind; [by split_and!; [apply inv_start|..]|].
  rewrite length_app in Hlen. simpl in Hlen.
  destruct IH as (I & HP & Hl); [lia|by intros; apply Hstep; [set_solver|..]|].
  rewrite foldl_snoc, length_app. simpl. pose proof (exec_grants (foldl exec (start r m) es) e).
  split_and!; [apply inv_exec; [done|lia]|apply Hstep; [set_solver|done..]|lia].
Qed.

(** ** Theorems *)

(** The counter of a key's live bucket counts that key's leases. *)
Lemma inv_live s key : Inv s → liveActive (limiter s) key = count (counted key) (grants s).
Proof.
  intros I. assert (Hb : ∀ g, g ∈ grants s → counted key g = true →
    ∃ q, bound q g = true ∧ limits (limiter s) !! key = Some q).
  { intros g Hg Hc. unfold counted in Hc. rewrite !andb_true_iff, !bool_decide_eq_true, negb_true_iff in Hc.
    destruct Hc as [[Hf [q Hq]] <-]. exists q.
    assert (bound q g = true) by by apply bound_spec. eauto using inv_bound. }
  unfold liveActive. destruct (limits (limiter s) !! key) as [p|] eqn:Hk; simpl.
  - destruct (inv_alive s I _ _ Hk) as [l Hl]. rewrite Hl, (inv_active s I _ _ Hl). apply count_ext.
    intros g Hg. destruct (bound p g) eqn:Eb.
    + pose proof (inv_inj s I _ _ _ Hk (inv_bound s I g p Hg Eb)) as ->. apply bound_spec in Eb as [Hf Ht].
      unfold counted. by rewrite Hf, Ht, !bool_decide_true by eauto.
    + destruct (counted key g) eqn:Ec; [|done]. destruct (Hb g Hg Ec) as (q & Hq & Hk'). congruence.
  - symmetry. apply count_none. intros g Hg. destruct (counted key g) eqn:Ec; [|done].
    by destruct (Hb g Hg Ec) as (? & _ & ?).
Qed.

(** C20. After any sequence of admissions, releases (of any lease, any number of
    times), updates of the limits, janitor ticks and shutdowns, the concurrency
    counter of a caller's live bucket is exactly the number of that caller's
    counted leases that have not been released: no lease is counted twice, an
    uncounted admission releases nothing, a second release does nothing, and no
    eviction forgets a lease. *)
Theorem leases_accounted r m es key :
  (Z.of_nat (length es) ≤ max_int64)%Z →
  liveActive (limiter (run r m es)) key = count (counted key) (grants (run r m es)).
Proof.
  intros Hlen. apply inv_live. by apply (run_ind (λ _, True)).
Qed.

(** An event that leaves a concurrency limit between 1 and [m] in force. *)
Definition limited (m : Z) (e : Event) : bool :=
  match e with Updates _ c _ => (0 <? c)%Z && (c <=? m)%Z | _ => true end.

(** Under such a limit every admission is counted and no counter passes it. *)
Record Limited (m : Z) (s : System) : Prop := {
  lim_policy : (0 < maxConn (limiter s) ≤ m)%Z;
  lim_active : ∀ p, (count (bound p) (grants s) ≤ m)%Z;
  lim_counted : ∀ g, g ∈ grants s → admitted g = true → is_Some (target (lease g)) }.

Lemma limited_acquire m s who t : Inv s → Limited m s → Limited m (exec s (Acquires who t)).
Proof.
  intros I [L1 L2 L3]. pose proof (acquireLease_spec s who t) as H. destruct s as [rl gs live]. simpl in *.
  destruct (acquireLease _ _ _ _) as [rl' [le ok]].
  destruct (H _ _ _ I eq_refl) as
    [(_ & _ & _ & _ & ?)|(rl1 & p & l & l' & I' & _ & Hl & _ & Hm & Ha & -> & ->)]; [lia|].
  split; simpl; [lia| |].
  - intros q. rewrite count_app, count_one. unfold bound at 2. simpl.
    case_bool_decide as Hq; simpl; [|by rewrite Z.add_0_r]. destruct ok; [|done]. injection Hq as <-.
    apply judge_below in Ha; [|lia]. pose proof (inv_active _ I' p l Hl). simpl in *. lia.
  - intros g [Hg|Hg]%elem_of_app; [by apply L3|]. apply list_elem_of_singleton in Hg as ->. simpl.
    intros ->. eauto.
Qed.

Lemma limited_release m s i now : Limited m s → Limited m (exec s (Releases i now)).
Proof.
  intros [L1 L2 L3]. destruct s as [rl gs live]. simpl in *.
  destruct (gs !! i) as [[who [tg fi] ok]|] eqn:Ei; [|done].
  unfold release. destruct fi; simpl; [by rewrite list_insert_id by done|].
  split; simpl; [by destruct tg| |].
  - intros q. rewrite (count_insert _ _ _ _ _ Ei). unfold bound at 2 3. simpl. specialize (L2 q).
    case_bool_decide; simpl; lia.
  - intros g [-> |Hg]%list_elem_of_insert_inv; [|by apply L3]. simpl.
    apply (L3 _ (list_elem_of_lookup_2 _ _ _ Ei)).
Qed.

Lemma limited_exec m s e : limited m e = true → Inv s → Limited m s → Limited m (exec s e).
Proof.
  intros He I L. destruct e as [who t|i now|r c now|now| |];
    [by apply limited_acquire|by apply limited_release|..]; destruct L as [L1 L2 L3], s as [rl gs live]; simpl in *.
  - apply andb_true_iff in He as [?%Z.ltb_lt ?%Z.leb_le]. done.
  - by destruct live.
  - unfold Close, close_chan. by destruct (janitorOnce rl), (stopJanitor rl).
  - by destruct (stopJanitor rl).
Qed.

(** While a concurrency limit of at most [m] is in force, from the start and
    through every update, the callers that share a bucket never hold more than
    [m] admissions they have not released, whatever the order of operations. *)
Theorem concurrency_bounded r c m es key :
  (0 < c ≤ m)%Z → forallb (limited m) es = true → (Z.of_nat (length es) ≤ max_int64)%Z →
  (count (held key) (grants (run r c es)) ≤ m)%Z.
Proof.
  intros Hc He Hlen. rewrite forallb_forall in He.
  destruct (run_ind (Limited m) r c es) as [I [L1 L2 L3]]; [|done|..].
  { split; simpl; [done|intros _; unfold count; simpl; lia|by intros ? ?%not_elem_of_nil]. }
  { intros s e ?%list_elem_of_In. auto using limited_exec. }
  etrans; [apply (count_mono _ (counted key))|].
  - intros g Hg. unfold held, counted. rewrite !andb_true_iff, !bool_decide_eq_true. naive_solver.
  - rewrite <- (inv_live _ _ I). unfold liveActive.
    destruct (limits _ !! key) as [p|] eqn:Hk; simpl; [|lia].
    destruct (heap _ !! p) as [l|] eqn:Hl; [|lia]. by rewrite (inv_active _ I _ _ Hl).
Qed.

Lemma acquireLease_janitor rl who t rl' x : acquireLease sha256 (Some rl) who t = (Some rl', x) →
  stopJanitor rl' = stopJanitor rl ∧ janitorOnce rl' = janitorOnce rl.
Proof.
  unfold acquireLease, acquire, getLimiterLocked. intros H. repeat split_match_in H; by simplify_eq/=.
Qed.

(** Shutting down twice does not close the channel twice. *)
Lemma close_total r m es : (Z.of_nat (length es) ≤ max_int64)%Z → is_Some (Close (limiter (run r m es))).
Proof.
  intros Hlen. destruct (run_ind (λ s, stopJanitor (limiter s) = true → janitorOnce (limiter s) = true) r m es)
    as [_ H]; [done..| |].
  - intros [rl gs live] e _ _ H. destruct e as [who t|i now|r' c now|now| |]; simpl in *.
    + destruct (acquireLease _ _ _ _) as [[rl'|] [le ok]] eqn:E; [|done].
      apply acquireLease_janitor in E as [E1 E2]. by rewrite <- E1, <- E2 in H.
    + destruct (gs !! i) as [[who [[p|] []] ok]|]; done.
    + done.
    + by destruct live.
    + unfold Close, close_chan. simpl. destruct (janitorOnce rl) eqn:Eo; simpl; [by rewrite Eo|].
      destruct (stopJanitor rl); simpl; [by specialize (H eq_refl)|done].
    + by destruct (stopJanitor rl) eqn:Es; simpl; rewrite ?Es.
  - unfold Close, close_chan. destruct (janitorOnce _) eqn:E; [eauto|]. simpl.
    destruct (stopJanitor _); [by specialize (H eq_refl)|eauto].
Qed.
End Runs.

(** ** Concrete runs *)

Definition at_time (t : Z) : Readings := mkReadings t t t t.

(** A caller at a limit of one is refused until it releases, releasing twice
    frees one slot, and an admission made while nothing is enforced frees none. *)
Definition sample : list Event :=
  [Acquires "a" (at_time 0); Acquires "a" (at_time 1); Releases 0 2; Releases 0 3;
   Acquires "a" (at_time 4); Acquires "b" (at_time 5); Ticks 700000000000;
   Updates 60 1 800000000000; Closes; Closes; JanitorReturns; Ticks 900000000000].

Lemma leases_accounted_witness :
  liveActive (limiter (run id 60 1 sample)) (hashIdentity id "a")
    = count (counted id (hashIdentity id "a")) (grants (run id 60 1 sample))
  ∧ count (counted id (hashIdentity id "a")) (grants (run id 60 1 sample)) = 1%Z.
Proof. split; [apply (leases_accounted id); vm_compute; discriminate|vm_compute; reflexivity]. Defined.

Lemma concurrency_bounded_witness :
  (count (held id (hashIdentity id "a")) (grants (run id 60 1 sample)) ≤ 1)%Z
  ∧ (admitted <$> grants (run id 60 1 sample)) = [true; false; true; true].
Proof.
  split; [|vm_compute; reflexivity].
  apply (concurrency_bounded id 60 1 1 sample); [lia|vm_compute; reflexivity|vm_compute; discriminate].
Defined.

(** With no concurrency limit an uncounted admission may precede an enforced one. *)
Example uncounted_admission :
  let s := run id 0 0 [Acquires "a" (at_time 0); Updates 0 1 1; Acquires "a" (at_time 2);
                       Releases 0 3; Acquires "a" (at_time 4)] in
  (target ∘ lease <$> grants s) = [None; Some 1%positive; None]
  ∧ (admitted <$> grants s) = [true; true; false].
Proof. vm_compute. done. Qed.

(** The limiter of the MCP endpoints: a burst at one instant is admitted 120
    times and refused after that; one token is back half a second later. *)
Definition burst (n : nat) (t : Z) : list Event :=
  List.concat (map (λ i, [Acquires "tool" (at_time t); Releases i t]) (seq 0 n)).

Example mcp_burst :
  let s := run id 120 8 (burst 121 0 ++ [Acquires "tool" (at_time (second / 2))]) in
  (admitted <$> grants s) = repeat true 120 ++ [false; true].
Proof. vm_compute. reflexivity. Qed.
