(* ===== verification/Failover.v ===== *)
(** * Failover

    internal/proxy/failover.go: one round trip to the primary provider and, when
    it fails or answers 429 or 5xx, to its configured fallbacks in order, under
    one admission of the rate limiter.

    The transport, the live configuration, URL parsing, the credential resolver
    and the protocol bridge's rewriting of a retry are parameters.  The
    transport answers from everything sent so far; the configuration is read
    once at the start and once per fallback.  A response body is named by the
    attempt that produced it, so that closing it is observable. *)

From stdpp Require Import base list strings gmap sets numbers.
From Stdlib Require Import Ascii.
From S2P Require Import Prelude ByteStrings HeaderPolicy GoStrings RateLimit Credential.

(** ** Data *)

Inductive Body :=
| NopCloser (bytes : string)
| Upstream (attempt : nat)
| Limited (attempt : option nat).   (* [rateLimitBody] around a transport's body *)

Record Response := mkResponse {
  StatusCode : Z;
  ContentType : string;
  ResponseBody : option Body }.

Record BlockResponse := mkBlock { b_Status : Z; b_ContentType : string; b_Body : string }.

Record RouteContext := mkRoute {
  ProviderName : string;
  StrippedPath : string;
  Identity : string;
  Block : option BlockResponse }.

(** The fields of [reqState] that a round trip reads or writes. *)
Record reqState := mkReqState {
  Synthetic : bool;
  Verdict : string;
  AuditErrorCode : string;
  AuditUpstreamRequestBytes : Z;
  CompactionReports : list string;
  CompactionRequestPrepared : bool;
  CompactionReportsCommitted : bool;
  CallerCredentials : callerCredentials;
  rs_Provider : string;
  rs_Model : string;
  ActualFormat : string;
  ActualPath : string;
  CachePrefix : string }.

(** What a transport returned: a status, and whether there is a body. *)
Record Received := mkReceived { t_Status : Z; t_ContentType : string; t_HasBody : bool }.

Record ParsedURL := mkURL { u_Scheme : string; u_Host : string; u_Path : string }.

Definition maxBodySize : Z := 10 * 1024 * 1024.

(** Everything a round trip changes outside its own variables. *)
Record World := mkWorld {
  w_limiter : option RateLimiter;
  w_lease : Lease;
  w_once : bool;                        (* the wrapper's [sync.Once] has run *)
  w_sent : list (string * Request);     (* the attempts, with the provider each is for *)
  w_closed : list nat;                  (* the transport bodies closed *)
  w_rs : option reqState }.

Definition onReqState (f : reqState → reqState) (w : World) : World :=
  mkWorld (w_limiter w) (w_lease w) (w_once w) (w_sent w) (w_closed w) (f <$> w_rs w).
Definition with_closed (l : list nat) (w : World) : World :=
  mkWorld (w_limiter w) (w_lease w) (w_once w) (w_sent w) l (w_rs w).
Definition with_sent (l : list (string * Request)) (w : World) : World :=
  mkWorld (w_limiter w) (w_lease w) (w_once w) l (w_closed w) (w_rs w).
Definition with_lease (rl : option RateLimiter) (le : Lease) (w : World) : World :=
  mkWorld rl le (w_once w) (w_sent w) (w_closed w) (w_rs w).
Definition with_once (w : World) : World :=
  mkWorld (w_limiter w) (w_lease w) true (w_sent w) (w_closed w) (w_rs w).

(** The update of [reqState] on a refused admission. *)
Definition rateLimited (rs : reqState) : reqState :=
  mkReqState true "rate_limit" "local_rate_limit" 0 [] false false (CallerCredentials rs)
    (rs_Provider rs) (rs_Model rs) (ActualFormat rs) (ActualPath rs) (CachePrefix rs).

Definition discardCompactionReports (rs : reqState) : reqState :=
  mkReqState (Synthetic rs) (Verdict rs) (AuditErrorCode rs) (AuditUpstreamRequestBytes rs) [] false false
    (CallerCredentials rs) (rs_Provider rs) (rs_Model rs) (ActualFormat rs) (ActualPath rs) (CachePrefix rs).

Definition readFailed (rs : reqState) : reqState :=
  mkReqState (Synthetic rs) "host_error" "request_body_read_failed" 0 (CompactionReports rs)
    (CompactionRequestPrepared rs) (CompactionReportsCommitted rs)
    (CallerCredentials rs) (rs_Provider rs) (rs_Model rs) (ActualFormat rs) (ActualPath rs) (CachePrefix rs).

Definition commitReports (rs : reqState) : reqState :=
  if CompactionRequestPrepared rs then
    mkReqState (Synthetic rs) (Verdict rs) (AuditErrorCode rs) (AuditUpstreamRequestBytes rs)
      (CompactionReports rs) (CompactionRequestPrepared rs) true
      (CallerCredentials rs) (rs_Provider rs) (rs_Model rs) (ActualFormat rs) (ActualPath rs) (CachePrefix rs)
  else rs.

(** The attempt's coordinates; a bridged attempt also records what it sends. *)
Definition recordAttempt (name format path : string) (bridged : option (option (string * string) * Z))
    (rs : reqState) : reqState :=
  let '(model, prefix) := match bridged with Some (Some (m, k), _) => (m, k) | _ => (rs_Model rs, CachePrefix rs) end in
  mkReqState (Synthetic rs) (Verdict rs) (AuditErrorCode rs)
    (match bridged with Some (_, n) => n | None => AuditUpstreamRequestBytes rs end)
    (CompactionReports rs) (CompactionRequestPrepared rs) (CompactionReportsCommitted rs)
    (CallerCredentials rs) name model format path prefix.

Definition setProvider (name : string) (rs : reqState) : reqState :=
  mkReqState (Synthetic rs) (Verdict rs) (AuditErrorCode rs) (AuditUpstreamRequestBytes rs)
    (CompactionReports rs) (CompactionRequestPrepared rs) (CompactionReportsCommitted rs)
    (CallerCredentials rs) name (rs_Model rs) (ActualFormat rs) (ActualPath rs) (CachePrefix rs).

Definition shouldRetry (r : Response) : bool := (StatusCode r =? 429)%Z || (500 <=? StatusCode r)%Z.

Definition setBody (b : option Reader) (n : Z) (r : Request) : Request :=
  mkRequest (r_Header r) (r_Scheme r) (r_URLHost r) (r_Path r) (r_RawPath r) (r_RawQuery r) (r_Host r) b n.

(** [req.Clone] copies the headers and the URL. *)
Definition cloneWithBody (req : Request) (body : option string) : Request :=
  match body with
  | Some b => setBody (Some (mkReader b None)) (len b) req
  | None => req
  end.

(** [io.ReadAll(io.LimitReader(r, n))]. *)
Definition readLimited (n : Z) (r : Reader) : res string string :=
  if (n <=? len (content r))%Z then Ok (str_take (Z.to_nat n) (content r))
  else match failure r with Some e => Err e | None => Ok (content r) end.

Definition joinURLPath (base rel : string) : string :=
  let bs := TrimSuffix base "/" in
  let rs := TrimPrefix rel "/" in
  if String.eqb rs "" then (if String.eqb bs "" then "/" else bs)
  else bs +:+ "/" +:+ rs.

(** The fallback's address on a request that no bridge rewrote. *)
Definition retarget (u : ParsedURL) (rc : option RouteContext) (r : Request) : Request :=
  mkRequest (r_Header r) (u_Scheme u) (u_Host u)
    (match rc with Some rc => joinURLPath (u_Path u) (StrippedPath rc) | None => u_Path u end)
    "" (r_RawQuery r) (u_Host u) (r_Body r) (r_ContentLength r).

Definition Providers := gmap string Provider.

Definition fallbackNamesForProvider (name : string) (cfg : Providers) : list string :=
  match cfg !! name with Some p => p_Fallback p | None => [] end.

Definition extractFallbacks (rc : option RouteContext) (cfg : Providers) : string * list string :=
  match rc with
  | None => ("", [])
  | Some rc =>
      if String.eqb (ProviderName rc) "" then ("", [])
      else match cfg !! ProviderName rc with
           | None => (ProviderName rc, [])
           | Some _ => (ProviderName rc, fallbackNamesForProvider (ProviderName rc) cfg)
           end
  end.

(** The JSON object whose error member says the rate limit is exceeded. *)
Definition quoted (s : string) : string := String "034"%char (s +:+ String "034"%char "").
Definition rateLimitText : string := "{" +:+ quoted "error" +:+ ":" +:+ quoted "rate limit exceeded" +:+ "}".

Section Trip.
Context (sha256 : string → string).
Context (base : list Request → Request → option Received * option string).
Context (cfg : nat → Providers).
Context (parseURL : string → option ParsedURL).
Context (resolve : option (string → res credErr string)).
(** The exchange of a bridged request: the rewriting of a retry for a provider,
    with the model and cache key of what it sends. *)
Context (bridge : option (Request → Provider → res string (Request * option (string * string)))).
(** The response of a refused admission in a bridged exchange. *)
Context (bridgeLocal : BlockResponse).
Context (acquired : Readings) (released : Z).

Definition callRelease (w : World) : World :=
  match w_limiter w with
  | None => with_lease None (mkLease (target (w_lease w)) true) w
  | Some rl => let '(rl, le) := release rl (w_lease w) released in with_lease (Some rl) le w
  end.

Definition closeBody (w : World) (b : Body) : World :=
  match b with
  | NopCloser _ => w
  | Upstream i => with_closed (w_closed w ++ [i]) w
  | Limited i =>
      if w_once w then w
      else let w := callRelease (with_once w) in
           match i with Some i => with_closed (w_closed w ++ [i]) w | None => w end
  end.

(** Closing the body of a response, where there is one. *)
Definition closeResponse (w : World) (r : option Response) : World :=
  match r ≫= ResponseBody with Some b => closeBody w b | None => w end.

Definition attemptOf (b : option Body) : option nat :=
  match b with Some (Upstream i) => Some i | _ => None end.

Definition wrap (r : Response) : Response :=
  mkResponse (StatusCode r) (ContentType r) (Some (Limited (attemptOf (ResponseBody r)))).

(** Wrap the body so that closing it releases, or release now. *)
Definition settle (w : World) (r : option Response) : World * option Response :=
  match r with
  | Some resp => match ResponseBody resp with
                 | Some _ => (w, Some (wrap resp))
                 | None => (callRelease w, Some resp)
                 end
  | None => (callRelease w, None)
  end.

(** One call of the transport. *)
Definition attempt (w : World) (name : string) (req : Request) : World * (option Response * option string) :=
  let '(r, e) := base (w_sent w).*2 req in
  (with_sent (w_sent w ++ [(name, req)]) w,
   ((λ r, mkResponse (t_Status r) (t_ContentType r)
            (if t_HasBody r then Some (Upstream (length (w_sent w))) else None)) <$> r, e)).

Definition Outcome : Type := option Response * option string.

(** The request for one fallback, or [None] where the loop skips it. *)
Definition prepareRetry (w : World) (rc : option RouteContext) (provName : string) (req : Request)
    (bodyBytes : option string) (live : Providers) (fbName : string)
    : option (Request * Provider * option (option (string * string) * Z)) :=
  fb ← live !! fbName;
  let primary := default (mkProvider "" "" false (mkAuth "" "") []) (live !! provName) in
  if bool_decide (bridge = None ∧ (p_Format primary ≠ p_Format fb ∨ p_Bridge fb = true)) then None
  else
    fbURL ← parseURL (p_URL fb);
    let retryReq := cloneWithBody req bodyBytes in
    '(retryReq, bridged) ←
      match bridge with
      | None => Some (retryReq, None)
      | Some translate => match translate retryReq fb with
                          | Ok (r, chat) => Some (r, Some chat)
                          | Err _ => None
                          end
      end;
    let caller := match w_rs w with Some rs => CallerCredentials rs | None => noCaller end in
    match applyProviderCredential resolve retryReq fb caller with
    | (_, Err _) => None
    | (retryReq, Ok _) =>
        let retryReq := match bridged with None => retarget fbURL rc retryReq | Some _ => retryReq end in
        Some (retryReq, fb, (λ chat, (chat, r_ContentLength retryReq)) <$> bridged)
    end.

(** The loop over the fallbacks; [None] is a nil dereference. *)
Fixpoint tryFallbacks (w : World) (rc : option RouteContext) (provName : string) (req : Request)
    (bodyBytes : option string) (i : nat) (names : list string) (last : Outcome) : option (World * Outcome) :=
  match names with
  | [] => let '(w, r) := settle w last.1 in Some (w, (r, last.2))
  | fbName :: names =>
      match prepareRetry w rc provName req bodyBytes (cfg i) fbName with
      | None => tryFallbacks w rc provName req bodyBytes (S i) names last
      | Some (retryReq, fb, bridged) =>
          let w := onReqState (recordAttempt fbName (p_Format fb) (r_Path retryReq) bridged) w in
          let '(w, (retryResp, retryErr)) := attempt w fbName retryReq in
          let w := closeResponse w last.1 in
          match retryErr, retryResp with
          | Some _, _ => tryFallbacks w rc provName req bodyBytes (S i) names (retryResp, retryErr)
          | None, None => None
          | None, Some resp =>
              if shouldRetry resp then tryFallbacks w rc provName req bodyBytes (S i) names (retryResp, retryErr)
              else Some (onReqState (setProvider fbName) w, (Some (wrap resp), None))
          end
      end
  end.

(** Buffering for a retry: the request of the first attempt, the bytes kept for
    retries and the fallbacks left, or the read error. *)
Definition bufferBody (req : Request) (fallbacks : list string)
    : res string (Request * option string * list string) :=
  match fallbacks, r_Body req with
  | _ :: _, Some body =>
      b ←? readLimited (maxBodySize + 1) body;
      if (maxBodySize <? len b)%Z then Ok (req, None, [])
      else Ok (setBody (Some (mkReader b None)) (r_ContentLength req) req, Some b, fallbacks)
  | _, _ => Ok (req, None, fallbacks)
  end.

(** The first attempt and what follows it. *)
Definition tripAdmitted (w : World) (rc : option RouteContext) (provName : string) (fallbacks : list string)
    (req : Request) : option (World * Outcome) :=
  match bufferBody req fallbacks with
  | Err e =>
      Some (onReqState readFailed (onReqState discardCompactionReports (callRelease w)),
            (None, Some ("failover: reading the request body for retry: " +:+ e)))
  | Ok (req, bodyBytes, fallbacks) =>
      let w := onReqState commitReports w in
      let '(w, (resp, err)) := attempt w provName req in
      match err, resp with
      | None, None => None
      | _, _ =>
          if bool_decide (err = None) && negb (from_option shouldRetry true resp) then
            Some (w, (wrap <$> resp, None))
          else match fallbacks with
               | [] => let '(w, r) := settle w resp in Some (w, (r, err))
               | _ => tryFallbacks w rc provName req bodyBytes 1 fallbacks (resp, err)
               end
      end
  end.

Definition RoundTrip (limiter : option RateLimiter) (rc : option RouteContext) (rs : option reqState)
    (req : Request) : option (World * Outcome) :=
  let '(provName, fallbacks) := extractFallbacks rc (cfg 0) in
  let w := mkWorld limiter (mkLease None false) false [] [] rs in
  match rc ≫= Block with
  | Some b => Some (w, (Some (mkResponse (b_Status b) (b_ContentType b) (Some (NopCloser (b_Body b)))), None))
  | None =>
      let identity := match rc with
                      | Some rc => if String.eqb (Identity rc) "" then "default" else Identity rc
                      | None => "default"
                      end in
      let '(limiter, (le, admitted)) := acquireLease sha256 limiter identity acquired in
      let w := with_lease limiter le w in
      if admitted then tripAdmitted w rc provName fallbacks req
      else
        let resp := match bridge with
                    | None => mkResponse 429 "" (Some (NopCloser rateLimitText))
                    | Some _ => mkResponse (b_Status bridgeLocal) (b_ContentType bridgeLocal)
                                  (Some (NopCloser (b_Body bridgeLocal)))
                    end in
        Some (onReqState rateLimited w, (Some resp, None))
  end.
End Trip.

(** * Failover: leases, bodies, order and credentials

    [lease_settled]: a round trip always returns; once its response is closed
    the admission it took has been released exactly once and every transport
    body has been closed exactly once.  [attempts_in_order]: the providers tried
    are the primary and then fallbacks in configuration order, each only after
    a failure of the one before, each with its own credentials and the original
    body, and what is returned is the last attempt's answer. *)

Section Proofs.
Context (sha256 : string → string).
Context (base : list Request → Request → option Received * option string).
Context (cfg : nat → Providers).
Context (parseURL : string → option ParsedURL).
Context (resolve : option (string → res credErr string)).
Context (bridge : option (Request → Provider → res string (Request * option (string * string)))).
Context (bridgeLocal : BlockResponse).
Context (acquired : Readings) (released : Z).
(** The contract of [http.RoundTripper]: a response or an error. *)
Context (Hbase : ∀ h r, base h r ≠ (None, None)).

Local Abbreviation try := (tryFallbacks base cfg parseURL resolve bridge released).
Local Abbreviation trip := (RoundTrip sha256 base cfg parseURL resolve bridge bridgeLocal acquired released).
Local Abbreviation close := (closeResponse released).

(** ** The transport's answers, replayed from what was sent *)

Definition answer (sent : list (string * Request)) (i : nat) : option Received * option string :=
  match sent !! i with Some (_, r) => base (take i sent).*2 r | None => (None, None) end.

Definition hasBody (a : option Received * option string) : bool :=
  match a.1 with Some r => t_HasBody r | None => false end.

(** The attempts whose answer had a body, in order. *)
Definition bodiesOf (sent : list (string * Request)) : list nat :=
  filter (λ i, hasBody (answer sent i) = true) (seq 0 (length sent)).

(** An answer that makes the caller try the next provider. *)
Definition retryable (a : option Received * option string) : bool :=
  match a with
  | (_, Some _) => true
  | (Some r, None) => (t_Status r =? 429)%Z || (500 <=? t_Status r)%Z
  | (None, None) => false
  end.

Lemma answer_app sent x i : i < length sent → answer (sent ++ [x]) i = answer sent i.
Proof. intros Hi. unfold answer. by rewrite lookup_app_l, take_app_le by lia. Qed.

Lemma answer_last sent name r : answer (sent ++ [(name, r)]) (length sent) = base sent.*2 r.
Proof.
  unfold answer. rewrite lookup_app_r, Nat.sub_diag by lia. simpl. by rewrite take_app_length.
Qed.

Lemma bodiesOf_snoc sent name r :
  bodiesOf (sent ++ [(name, r)]) =
  bodiesOf sent ++ (if hasBody (base sent.*2 r) then [length sent] else []).
Proof.
  unfold bodiesOf. rewrite length_app, seq_app, list.filter_app. simpl. f_equal.
  - apply filter_ext_in. intros i [_ Hi]%elem_of_seq. by rewrite answer_app by lia.
  - rewrite filter_cons, answer_last. by destruct (hasBody _).
Qed.

(** ** The admission *)

(** Admitted with [le] on [rl], and not released. *)
Definition holding (rl : option RateLimiter) (le : Lease) (w : World) : Prop :=
  w_limiter w = rl ∧ w_lease w = le ∧ w_once w = false.

(** Released, once. *)
Definition releasedOnce (rl : option RateLimiter) (le : Lease) (w : World) : Prop :=
  w_limiter w = (λ rl, releaseLimiter rl (target le) released) <$> rl ∧ fired (w_lease w) = true.

Lemma callRelease_once rl le w : fired le = false → w_limiter w = rl → w_lease w = le →
  releasedOnce rl le (callRelease released w).
Proof.
  intros Hf <- <-. unfold callRelease, releasedOnce. destruct (w_limiter w) as [r|]; [|done].
  unfold release. by rewrite Hf.
Qed.

Lemma callRelease_kept w : w_sent (callRelease released w) = w_sent w ∧ w_closed (callRelease released w) = w_closed w
  ∧ w_rs (callRelease released w) = w_rs w.
Proof. unfold callRelease. destruct (w_limiter w); [by destruct (release _ _ _)|done]. Qed.

(** ** One attempt after another *)

(** What the round tripper makes of the answer to attempt [i]. *)
Definition view (i : nat) (a : option Received * option string) : Outcome :=
  ((λ r, mkResponse (t_Status r) (t_ContentType r) (if t_HasBody r then Some (Upstream i) else None)) <$> a.1, a.2).

Definition opened (i : nat) (a : option Received * option string) : list nat := if hasBody a then [i] else [].

(** After at least one attempt: the admission is held, every body but the last
    attempt's is closed, and every attempt but the last failed. *)
Record Pending (rl : option RateLimiter) (le : Lease) (w : World) (last : Outcome) : Prop := {
  pend_holding : holding rl le w;
  pend_last : ∃ n, length (w_sent w) = S n ∧ last = view n (answer (w_sent w) n)
    ∧ w_closed w ++ opened n (answer (w_sent w) n) = bodiesOf (w_sent w)
    ∧ ∀ i, i < n → retryable (answer (w_sent w) i) = true }.

(** A finished round trip. *)
Record Settled (rl : option RateLimiter) (le : Lease) (w : World) (o : Outcome) : Prop := {
  set_released : releasedOnce rl le (close w o.1);
  set_closed : w_closed (close w o.1) = bodiesOf (w_sent w);
  set_body : match o.1 ≫= ResponseBody with
             | Some b => holding rl le w ∧ ∃ i, b = Limited i
             | None => releasedOnce rl le w end;
  set_last : ∃ n, length (w_sent w) = S n
    ∧ StatusCode <$> o.1 = t_Status <$> (answer (w_sent w) n).1 ∧ o.2 = (answer (w_sent w) n).2
    ∧ ∀ i, i < n → retryable (answer (w_sent w) i) = true }.

Lemma holding_rs rl le f w : holding rl le w → holding rl le (onReqState f w).
Proof. done. Qed.

Lemma attempt_eq w name req :
  attempt base w name req =
  (with_sent (w_sent w ++ [(name, req)]) w, view (length (w_sent w)) (base (w_sent w).*2 req)).
Proof. unfold attempt, view. by destruct (base _ _) as [[r|] e]. Qed.

Lemma close_view_sent w i a : w_sent (close w (view i a).1) = w_sent w ∧ w_rs (close w (view i a).1) = w_rs w.
Proof. destruct a as [[[st ct []]|] e]; done. Qed.

Lemma close_view w i a rl le : holding rl le w →
  holding rl le (close w (view i a).1) ∧ w_closed (close w (view i a).1) = w_closed w ++ opened i a.
Proof. destruct a as [[[st ct []]|] e]; simpl; rewrite ?app_nil_r; done. Qed.

(** The first attempt. *)
Lemma pending_first rl le w name req : holding rl le w → w_sent w = [] → w_closed w = [] →
  Pending rl le (attempt base w name req).1 (attempt base w name req).2.
Proof.
  intros Hh Hs Hc. rewrite attempt_eq. split; simpl; [done|]. exists 0. rewrite Hs, Hc.
  split_and!; [done|done| |lia]. change ([] ++ ?l) with l at 1.
  rewrite (bodiesOf_snoc [] name req), (answer_last [] name req : answer _ 0 = _). done.
Qed.

(** The next attempt, after a failure; the previous body is closed. *)
Lemma pending_next rl le w last name req f :
  Pending rl le w last →
  (∀ n, length (w_sent w) = S n → retryable (answer (w_sent w) n) = true) →
  let '(w', o) := attempt base (onReqState f w) name req in
  Pending rl le (close w' last.1) o.
Proof.
  intros [Hh (n & Hn & -> & Hc & Hr)] Hl. rewrite attempt_eq. simpl w_sent.
  set (w' := with_sent _ _). assert (Hh' : holding rl le w') by done.
  destruct (close_view w' n (answer (w_sent w) n) rl le Hh') as [H1 H2].
  destruct (close_view_sent w' n (answer (w_sent w) n)) as [H3 _].
  split; [done|]. exists (S n). rewrite H3, H2. unfold w'. simpl.
  rewrite length_app, Hn, bodiesOf_snoc. simpl.
  assert (Ha : answer (w_sent w ++ [(name, req)]) (S n) = base (w_sent w).*2 req)
    by (rewrite <- Hn; apply answer_last).
  split_and!; [lia|by rewrite Ha| |].
  - rewrite Ha, Hc, Hn. done.
  - intros i Hi. rewrite answer_app by lia. destruct (decide (i = n)) as [->|]; [by apply Hl|apply Hr; lia].
Qed.

(** Returning the last answer, whatever it is. *)
Lemma pending_settle rl le w last : fired le = false → Pending rl le w last →
  Settled rl le (settle released w last.1).1 ((settle released w last.1).2, last.2).
Proof.
  intros Hf [(Hl & He & Ho) (n & Hn & -> & Hc & Hr)].
  destruct (answer (w_sent w) n) as [[[st ct b]|] e] eqn:Ea; [destruct b|];
    unfold opened, hasBody in Hc; simpl in *.
  - split; unfold closeResponse, closeBody; simpl.
    + rewrite Ho. by apply (callRelease_once rl le (with_once w) Hf Hl He).
    + rewrite Ho. simpl. destruct (callRelease_kept (with_once w)) as (_ & -> & _). done.
    + split; [done|eauto].
    + exists n. by rewrite Ea.
  - pose proof (callRelease_once rl le w Hf Hl He). destruct (callRelease_kept w) as (H1 & H2 & _).
    split; unfold closeResponse; simpl; [done| |done|exists n; by rewrite H1, Ea]. rewrite H1, H2. by rewrite <- Hc, app_nil_r.
  - pose proof (callRelease_once rl le w Hf Hl He). destruct (callRelease_kept w) as (H1 & H2 & _).
    split; unfold closeResponse; simpl; [done| |done|exists n; by rewrite H1, Ea]. rewrite H1, H2. by rewrite <- Hc, app_nil_r.
Qed.

(** Returning an answer that is not retried. *)
Lemma pending_wrap rl le w resp e f : fired le = false → Pending rl le w (Some resp, e) →
  Settled rl le (onReqState f w) (Some (wrap resp), e).
Proof.
  intros Hf [(Hl & He & Ho) (n & Hn & Hv & Hc & Hr)].
  destruct (answer (w_sent w) n) as [[[st ct b]|] e'] eqn:Ea; [|done]. injection Hv as -> ->.
  pose proof (callRelease_once rl le (with_once (onReqState f w)) Hf Hl He) as H0.
  destruct (callRelease_kept (with_once (onReqState f w))) as (H1 & H2 & H3).
  destruct b; unfold opened, hasBody in Hc; simpl in *; (split; unfold closeResponse, closeBody; simpl; [by rewrite Ho|rewrite Ho; simpl|by split; [|eauto]|exists n; by rewrite Ea]).
  - simpl in H2. by rewrite H2, <- Hc.
  - simpl in H2. by rewrite H2, <- Hc, app_nil_r.
Qed.

(** The loop over the fallbacks returns, and settles. *)
Lemma tryFallbacks_settles rl le rc provName req bodyBytes names : fired le = false →
  ∀ w i last, Pending rl le w last →
  (∀ n, length (w_sent w) = S n → retryable (answer (w_sent w) n) = true) →
  ∃ w' o, try w rc provName req bodyBytes i names last = Some (w', o) ∧ Settled rl le w' o.
Proof.
  intros Hf. induction names as [|fbName names IH]; intros w i last Hp Hr; simpl.
  { pose proof (pending_settle rl le w last Hf Hp) as H. destruct (settle released w last.1) as [w' r]. eauto. }
  destruct (prepareRetry _ _ _ _ _ _ _ _ _ _) as [[[retryReq fb] bridged]|]; [|by apply IH].
  pose proof (pending_next rl le w last fbName retryReq
    (recordAttempt fbName (p_Format fb) (r_Path retryReq) bridged) Hp Hr) as Hnext.
  rewrite attempt_eq in Hnext |- *.
  pose proof (Hbase (w_sent w).*2 retryReq) as Hb. simpl w_sent in *.
  set (w1 := with_sent _ _) in *. destruct Hp as [_ (n & Hn & -> & _)].
  assert (Hlast : ∀ m, length (w_sent (close w1 (view n (answer (w_sent w) n)).1)) = S m →
    answer (w_sent (close w1 (view n (answer (w_sent w) n)).1)) m = base (w_sent w).*2 retryReq).
  { intros m. destruct (close_view_sent w1 n (answer (w_sent w) n)) as [-> _]. unfold w1. simpl.
    rewrite length_app. simpl. intros Hm. replace m with (length (w_sent w)) by lia. apply answer_last. }
  destruct (base (w_sent w).*2 retryReq) as [[r|] [e|]]; simpl in *; [| | |done].
  - apply IH; [done|]. intros m Hm. by rewrite (Hlast m Hm).
  - unfold shouldRetry. simpl. destruct ((t_Status r =? 429)%Z || (500 <=? t_Status r)%Z) eqn:Es.
    + apply IH; [done|]. intros m Hm. by rewrite (Hlast m Hm).
    + do 2 eexists. split; [done|]. by apply pending_wrap.
  - apply IH; [done|]. intros m Hm. by rewrite (Hlast m Hm).
Qed.

Lemma onReqState_id w : onReqState id w = w.
Proof. by destruct w as [? ? ? ? ? []]. Qed.

(** An admitted round trip that reads its body. *)
Lemma tripAdmitted_settles rl le w rc provName fallbacks req :
  fired le = false → holding rl le w → w_sent w = [] → w_closed w = [] →
  ∃ w' o, tripAdmitted base cfg parseURL resolve bridge released w rc provName fallbacks req = Some (w', o) ∧
    (Settled rl le w' o ∨ w_sent w' = [] ∧ w_closed w' = [] ∧ o.1 = None ∧ releasedOnce rl le w').
Proof.
  intros Hf Hh Hs Hc. unfold tripAdmitted. destruct (bufferBody req fallbacks) as [[[req1 bytes] fbs]|e].
  2: { do 2 eexists. split; [done|]. right. simpl. destruct (callRelease_kept w) as (-> & -> & _).
       destruct Hh as (H1 & H2 & _). split_and!; [done..|]. by apply callRelease_once. }
  pose proof (pending_first rl le (onReqState commitReports w) provName req1 Hh Hs Hc) as Hp.
  rewrite attempt_eq in Hp |- *. simpl w_sent in *. rewrite Hs in *. cbn [fmap list_fmap length app] in Hp |- *.
  pose proof (Hbase [] req1) as Hb.
  set (w1 := with_sent _ _) in *. set (last := view 0 _) in *.
  assert (Hretry : retryable (base [] req1) = true → ∃ w' o,
    match fbs with
    | [] => let '(w, r) := settle released w1 last.1 in Some (w, (r, last.2))
    | _ => try w1 rc provName req1 bytes 1 fbs last
    end = Some (w', o) ∧ Settled rl le w' o).
  { intros Hr. destruct fbs as [|fb fbs].
    - pose proof (pending_settle rl le w1 last Hf Hp) as H. destruct (settle released w1 last.1). eauto.
    - apply tryFallbacks_settles; [done|done|]. intros n [= <-]. done. }
  clearbody w1. unfold last in *. destruct (base [] req1) as [[r|] [e|]]; simpl in *; [| |  |done].
  - destruct Hretry as (w' & o & H1 & H2); [done|]. exists w', o. auto.
  - unfold shouldRetry. simpl. destruct ((t_Status r =? 429)%Z || (500 <=? t_Status r)%Z) eqn:Es; simpl.
    + destruct Hretry as (w' & o & H1 & H2); [done|]. exists w', o. auto.
    + do 2 eexists. split; [done|]. left. rewrite <- (onReqState_id w1). by apply pending_wrap.
  - destruct Hretry as (w' & o & H1 & H2); [done|]. exists w', o. auto.
Qed.

(** ** Theorems *)

Definition identityOf (rc : option RouteContext) : string :=
  match rc with
  | Some rc => if String.eqb (Identity rc) "" then "default" else Identity rc
  | None => "default"
  end.

(** C22. A round trip always returns.  A blocked or refused request reaches no
    provider.  An admitted one releases its admission exactly once: while the
    returned response has a body, its wrapper holds the admission and closing
    it releases it; without a body it is released already.  When the response
    is closed every body a provider returned has been closed exactly once, in
    order. *)
Theorem lease_settled limiter rc rs req :
  ∃ w o, trip limiter rc rs req = Some (w, o) ∧
  w_closed (close w o.1) = bodiesOf (w_sent w) ∧
  match rc ≫= Block, acquireLease sha256 limiter (identityOf rc) acquired with
  | Some _, _ => w_limiter w = limiter ∧ w_sent w = []
  | None, (rl, (_, false)) => w_limiter w = rl ∧ w_sent w = []
  | None, (rl, (le, true)) =>
      releasedOnce rl le (close w o.1) ∧
      match o.1 ≫= ResponseBody with
      | Some b => holding rl le w ∧ ∃ i, b = Limited i
      | None => releasedOnce rl le w
      end
  end.
Proof.
  unfold RoundTrip, identityOf. destruct (extractFallbacks rc (cfg 0)) as [provName fallbacks].
  destruct (rc ≫= Block) as [b|]; [by do 2 eexists|].
  destruct (acquireLease _ _ _ _) as [rl [le ok]] eqn:Ea. destruct ok; cycle 1.
  { do 2 eexists. split; [done|]. by destruct bridge. }
  assert (Hf : fired le = false) by (unfold acquireLease in Ea; destruct (acquire _ _ _ _) as [? []]; naive_solver).
  set (w0 := with_lease _ _ _). destruct (tripAdmitted_settles rl le w0 rc provName fallbacks req Hf)
    as (w & o & Hw & [Hset|(Hs & Hc & Ho & Hrel)]); [done..| |].
  - exists w, o. split; [done|]. destruct Hset. auto.
  - exists w, o. unfold closeResponse. rewrite Ho. simpl. rewrite Hs, Hc. done.
Qed.

(** ** Which attempts are made *)

Definition callerOf (rs : option reqState) : callerCredentials :=
  match rs with Some rs => CallerCredentials rs | None => noCaller end.

Local Abbreviation prep := (prepareRetry parseURL resolve bridge).

Lemma prepareRetry_caller w w' rc provName req bytes live name :
  callerOf (w_rs w) = callerOf (w_rs w') →
  prep w rc provName req bytes live name = prep w' rc provName req bytes live name.
Proof. unfold prepareRetry, callerOf. intros ->. done. Qed.

(** The requests for the fallbacks that are not skipped, in order. *)
Fixpoint prepared (w : World) (rc : option RouteContext) (provName : string) (req : Request)
    (bytes : option string) (i : nat) (names : list string) : list (string * Request) :=
  match names with
  | [] => []
  | name :: names =>
      match prep w rc provName req bytes (cfg i) name with
      | Some (r, _, _) => (name, r) :: prepared w rc provName req bytes (S i) names
      | None => prepared w rc provName req bytes (S i) names
      end
  end.

Lemma prepared_caller w w' rc provName req bytes i names :
  callerOf (w_rs w) = callerOf (w_rs w') →
  prepared w rc provName req bytes i names = prepared w' rc provName req bytes i names.
Proof.
  intros H. revert i; induction names as [|n names IH]; intros i; simpl; [done|].
  by rewrite (prepareRetry_caller w w'), !IH.
Qed.

Lemma callerOf_record name f path b rs : callerOf (recordAttempt name f path b <$> rs) = callerOf rs.
Proof. destruct rs as [rs|]; [|done]. unfold recordAttempt. simpl. by repeat case_match. Qed.

(** The loop makes the prepared attempts, stopping only at an answer that is not
    retried. *)
Lemma tryFallbacks_sends rc provName req bytes names : ∀ w i last w' o n,
  length (w_sent w) = S n → last = view n (answer (w_sent w) n) → retryable (answer (w_sent w) n) = true →
  try w rc provName req bytes i names last = Some (w', o) →
  ∃ t, w_sent w' = w_sent w ++ t ∧ t `prefix_of` prepared w rc provName req bytes i names ∧
    (retryable (answer (w_sent w') (length (w_sent w') - 1)) = true → t = prepared w rc provName req bytes i names).
Proof.
  induction names as [|name names IH]; intros w i last w' o n Hn Hlast Hr; simpl.
  { intros H. exists []. split_and!; [|done|done]. rewrite app_nil_r.
    unfold settle in H. destruct last as [[[st ct [b|]]|] e]; simpl in H; simplify_eq/=;
      rewrite ?(proj1 (callRelease_kept w)); done. }
  destruct (prep _ _ _ _ _ _ _) as [[[retryReq fb] bridged]|] eqn:Ep; [|by intros H; eapply IH].
  rewrite attempt_eq. set (w1 := with_sent _ _). subst last.
  destruct (close_view_sent w1 n (answer (w_sent w) n)) as [Hs Hrs].
  set (w2 := close w1 _) in *. simpl w_sent in *.
  assert (Hs2 : w_sent w2 = w_sent w ++ [(name, retryReq)]) by done.
  assert (Hl2 : length (w_sent w2) = S (S n)) by (rewrite Hs2, length_app; simpl; lia).
  assert (Ha : answer (w_sent w2) (S n) = base (w_sent w).*2 retryReq) by (rewrite Hs2, <- Hn; apply answer_last).
  assert (Hprep : prepared w2 rc provName req bytes (S i) names = prepared w rc provName req bytes (S i) names).
  { apply prepared_caller. rewrite Hrs. unfold w1. simpl. apply callerOf_record. }
  assert (Hrec : retryable (answer (w_sent w2) (S n)) = true →
    try w2 rc provName req bytes (S i) names (view (length (w_sent w)) (base (w_sent w).*2 retryReq)) = Some (w', o) →
    ∃ t, w_sent w' = w_sent w ++ t ∧ t `prefix_of` (name, retryReq) :: prepared w rc provName req bytes (S i) names ∧
      (retryable (answer (w_sent w') (length (w_sent w') - 1)) = true →
       t = (name, retryReq) :: prepared w rc provName req bytes (S i) names)).
  { intros Hr2 H.
    assert (Hv : view (length (w_sent w)) (base (w_sent w).*2 retryReq) = view (S n) (answer (w_sent w2) (S n)))
      by by rewrite Ha, Hn.
    destruct (IH w2 (S i) _ w' o (S n) Hl2 Hv Hr2 H) as (t & Ht & Hpre & Hall).
    exists ((name, retryReq) :: t). rewrite Hprep in *. split_and!.
    - by rewrite Ht, Hs2, <- app_assoc.
    - by apply prefix_cons.
    - intros H'. by rewrite Hall. }
  rewrite Ha in Hrec. unfold view in Hrec |- *. destruct (base (w_sent w).*2 retryReq) as [[r|] [e|]] eqn:Eb; simpl in *.
  - by apply Hrec.
  - unfold shouldRetry. simpl. destruct ((t_Status r =? 429)%Z || (500 <=? t_Status r)%Z) eqn:Es; [by apply Hrec|].
    intros [= <- <-]. exists [(name, retryReq)]. simpl. split_and!; [done|by apply prefix_cons, prefix_nil|].
    rewrite Hl2. replace (S (S n) - 1) with (S n) by lia. rewrite Ha. simpl. by rewrite Es.
  - by apply Hrec.
  - done.
Qed.

(** An attempt on a fallback: the credentials its provider prescribes and no
    others, and the original body unless a bridge rewrote the request. *)
Definition proper (ingress : option Request) (body : option Reader) (live : Providers) (x : string * Request) : Prop :=
  ∃ fb, live !! x.1 = Some fb
  ∧ prescribed resolve fb (callerCredentialsFrom ingress) = (callerCredentialsFrom (Some x.2), true)
  ∧ (∀ name, name ∈ neverForwardedHeaders → r_Header x.2 !! name = None)
  ∧ (bridge = None → r_Body x.2 = body).

Lemma retarget_credentials u rc r : callerCredentialsFrom (Some (retarget u rc r)) = callerCredentialsFrom (Some r).
Proof. done. Qed.

Lemma prepareRetry_proper w rc provName req bytes live name r fb b ingress :
  callerOf (w_rs w) = callerCredentialsFrom ingress →
  prep w rc provName req bytes live name = Some (r, fb, b) →
  proper ingress (r_Body (cloneWithBody req bytes)) live (name, r).
Proof.
  intros Hc. unfold prepareRetry. fold (callerOf (w_rs w)). rewrite Hc.
  intros (fb' & Hlive & H)%bind_Some. case_bool_decide; [done|].
  apply bind_Some in H as (u & Hu & H). apply bind_Some in H as ([rr bridged] & Hb & H).
  pose proof (applyProviderCredential_carries resolve rr fb' ingress) as Hcred. simpl in Hcred.
  destruct (applyProviderCredential _ _ _ _) as [req' [[]|e]]; [|done]. destruct Hcred as [[H1 H2 _ _ H5] Hok].
  assert (Hbody : r_Body req' = r_Body rr) by exact (f_equal r_Body H5).
  simplify_eq. exists fb. simpl in Hok.
  destruct (prescribed _ _ _) as [c ok]. simpl in *. subst.
  destruct bridge as [translate|]; simpl in *; [destruct (translate _ _) as [[? ?]|]|]; simplify_eq;
    (split_and!; [done|by rewrite ?retarget_credentials|done|done]).
Qed.

Lemma prepared_proper w rc provName req bytes ingress :
  callerOf (w_rs w) = callerCredentialsFrom ingress → ∀ names i,
  (prepared w rc provName req bytes i names).*1 `sublist_of` names
  ∧ Forall (λ x, ∃ j, proper ingress (r_Body (cloneWithBody req bytes)) (cfg j) x)
      (prepared w rc provName req bytes i names).
Proof.
  intros Hc. induction names as [|name names IH]; intros i; simpl; [by repeat constructor|].
  destruct (IH (S i)) as [H1 H2].
  destruct (prep _ _ _ _ _ _ _) as [[[r fb] b]|] eqn:Ep; simpl; [|by split; [apply sublist_cons|]].
  split; [by apply sublist_skip|]. constructor; [|done]. exists i. by eapply prepareRetry_proper.
Qed.

(** Buffering keeps the request as it is. *)
Lemma bufferBody_same req fallbacks req' bytes names :
  bufferBody req fallbacks = Ok (req', bytes, names) →
  req' = req ∧ names `sublist_of` fallbacks ∧ (names ≠ [] → r_Body (cloneWithBody req bytes) = r_Body req).
Proof.
  unfold bufferBody. destruct fallbacks as [|f fs]; [by intros [= <- <- <-]|].
  destruct (r_Body req) as [body|] eqn:Eb; [|by intros [= <- <- <-]].
  intros (b & Hb & H)%res_bind_ok. destruct (Z.ltb_spec maxBodySize (len b)) as [|Hle];
    [injection H as <- <- <-; split_and!; [done|apply sublist_nil_l|done]|]. injection H as <- <- <-.
  unfold readLimited in Hb. destruct (Z.leb_spec (maxBodySize + 1) (len (content body))) as [Hge|].
  - revert Hle Hge Hb. generalize maxBodySize as m. intros m Hle Hge [= <-].
    unfold len in *. rewrite str_take_length in Hle. lia.
  - destruct body as [c [e|]]; [done|]. injection Hb as <-. simpl.
    split_and!; [|done|done]. destruct req; simpl in *; by subst.
Qed.

Lemma tripAdmitted_sends w rc provName fallbacks req req1 bytes names w' o :
  w_sent w = [] → bufferBody req fallbacks = Ok (req1, bytes, names) →
  tripAdmitted base cfg parseURL resolve bridge released w rc provName fallbacks req = Some (w', o) →
  ∃ t, w_sent w' = (provName, req1) :: t ∧ t `prefix_of` prepared w rc provName req1 bytes 1 names ∧
    (retryable (answer (w_sent w') (length t)) = true → t = prepared w rc provName req1 bytes 1 names).
Proof.
  intros Hs Hb. unfold tripAdmitted. rewrite Hb, attempt_eq. simpl w_sent. rewrite Hs.
  cbn [fmap list_fmap length app]. set (w1 := with_sent _ _).
  assert (Hprep : prepared w1 rc provName req1 bytes 1 names = prepared w rc provName req1 bytes 1 names).
  { apply prepared_caller. unfold w1. simpl. destruct (w_rs w) as [rs|]; [|done]. simpl.
    unfold commitReports. by destruct (CompactionRequestPrepared rs). }
  assert (Hstop : ∀ x, Some (w1, x) = Some (w', o) → retryable (base [] req1) = false →
    ∃ t, w_sent w' = (provName, req1) :: t ∧ t `prefix_of` prepared w rc provName req1 bytes 1 names ∧
    (retryable (answer (w_sent w') (length t)) = true → t = prepared w rc provName req1 bytes 1 names)).
  { intros x [= <- <-] Hr. exists []. split_and!; [done|apply prefix_nil|]. unfold answer. simpl. by rewrite Hr. }
  assert (Hretry : retryable (base [] req1) = true →
    match names with
    | [] => let '(w, r) := settle released w1 (view 0 (base [] req1)).1 in Some (w, (r, (view 0 (base [] req1)).2))
    | _ => try w1 rc provName req1 bytes 1 names (view 0 (base [] req1))
    end = Some (w', o) →
    ∃ t, w_sent w' = (provName, req1) :: t ∧ t `prefix_of` prepared w rc provName req1 bytes 1 names ∧
    (retryable (answer (w_sent w') (length t)) = true → t = prepared w rc provName req1 bytes 1 names)).
  { intros Hr H. assert (H' : try w1 rc provName req1 bytes 1 names (view 0 (base [] req1)) = Some (w', o))
      by by destruct names.
    apply (tryFallbacks_sends _ _ _ _ _ w1 1 _ w' o 0) in H' as (t & Ht & Hp & Ha); [|done..].
    rewrite Hprep in *. exists t. rewrite Ht in *. split_and!; [done|done|]. intros H2. apply Ha.
    unfold w1 in *. simpl in *. by rewrite Nat.sub_0_r. }
  unfold view in *. destruct (base [] req1) as [[r|] [e|]]; simpl in *; [by apply Hretry| |by apply Hretry|done].
  unfold shouldRetry. simpl. destruct ((t_Status r =? 429)%Z || (500 <=? t_Status r)%Z) eqn:Es; simpl;
    [by apply Hretry|intros H; by eapply Hstop].
Qed.

(** What a round trip sends.  Nothing, when the request is blocked, refused
    or its body cannot be read.  Otherwise the request itself to the primary,
    then the prepared retries of a prefix of the fallbacks in configuration
    order, each with exactly the credentials its provider prescribes (from the
    ingress snapshot, not from an earlier attempt) and the original body.  Every
    attempt but the last failed or was answered 429 or 5xx, no usable fallback
    is left untried after a final failure, and the caller gets the last
    attempt's status and error. *)
Theorem attempts_in_order limiter rc rs req ingress w o :
  callerOf rs = callerCredentialsFrom ingress →
  trip limiter rc rs req = Some (w, o) →
  let '(provName, fallbacks) := extractFallbacks rc (cfg 0) in
  let start := mkWorld limiter (mkLease None false) false [] [] rs in
  w_sent w = [] ∧ (is_Some (rc ≫= Block) ∨ (acquireLease sha256 limiter (identityOf rc) acquired).2.2 = false
                   ∨ is_ok (bufferBody req fallbacks) = false)
  ∨ ∃ t bytes names, bufferBody req fallbacks = Ok (req, bytes, names)
    ∧ w_sent w = (provName, req) :: t
    ∧ t `prefix_of` prepared start rc provName req bytes 1 names
    ∧ t.*1 `sublist_of` fallbacks
    ∧ Forall (λ x, ∃ j, proper ingress (r_Body req) (cfg j) x) t
    ∧ (∀ i, i < length t → retryable (answer (w_sent w) i) = true)
    ∧ (retryable (answer (w_sent w) (length t)) = true → t = prepared start rc provName req bytes 1 names)
    ∧ StatusCode <$> o.1 = t_Status <$> (answer (w_sent w) (length t)).1
    ∧ o.2 = (answer (w_sent w) (length t)).2.
Proof.
  intros Hcaller. unfold RoundTrip, identityOf. destruct (extractFallbacks rc (cfg 0)) as [provName fallbacks].
  destruct (rc ≫= Block) as [b|]; [intros [= <- <-]; left; eauto|].
  destruct (acquireLease _ _ _ _) as [rl [le ok]] eqn:Ea. destruct ok; cycle 1.
  { intros [= <- <-]. left. eauto. }
  set (w0 := with_lease _ _ _). intros Htrip.
  destruct (bufferBody req fallbacks) as [[[req1 bytes] names]|e] eqn:Eb.
  2: { unfold tripAdmitted in Htrip. rewrite Eb in Htrip. injection Htrip as <- <-. left. simpl.
       destruct (callRelease_kept w0) as (-> & _). auto. }
  right. destruct (bufferBody_same _ _ _ _ _ Eb) as (-> & Hsub & Hbody).
  assert (Hf : fired le = false) by (unfold acquireLease in Ea; destruct (acquire _ _ _ _) as [? []]; naive_solver).
  destruct (tripAdmitted_sends w0 rc provName fallbacks req req bytes names w o eq_refl Eb Htrip)
    as (t & Ht & Hpre & Hall).
  destruct (tripAdmitted_settles rl le w0 rc provName fallbacks req Hf)
    as (w' & o' & Hw' & [[_ _ _ (n & Hn & H1 & H2 & H3)]|(Hnil & _)]); [done..| |];
    rewrite Htrip in Hw'; injection Hw' as <- <-; [|by rewrite Hnil in Ht].
  assert (n = length t) as -> by (rewrite Ht in Hn; simpl in Hn; lia).
  destruct (prepared_proper w0 rc provName req bytes ingress Hcaller names 1) as [Hs Hp].
  assert (prepared (mkWorld limiter (mkLease None false) false [] [] rs) rc provName req bytes 1 names
          = prepared w0 rc provName req bytes 1 names) as Hst by by apply prepared_caller.
  destruct Hpre as [rest Hrest]. rewrite Hrest, fmap_app in Hs. rewrite Hrest, Forall_app in Hp.
  exists t, bytes, names. rewrite Hst. split_and!; [done|done|by exists rest| | |done|done|done|done].
  - etrans; [by apply sublist_inserts_r|]. by etrans.
  - destruct (decide (names = [])) as [->|Hne]; [by destruct t|]. by rewrite Hbody in Hp by done; destruct Hp.
Qed.
End Proofs.

(** ** A concrete failover *)

Module Sample.
(** The primary answers 503, the first fallback fails, the second answers 200. *)
Definition base (h : list Request) (r : Request) : option Received * option string :=
  match length h with
  | 0 => (Some (mkReceived 503 "" true), None)
  | 1 => (None, Some "connection reset")
  | _ => (Some (mkReceived 200 "" true), None)
  end.

Definition cfg (_ : nat) : Providers :=
  <["primary" := mkProvider "p" "openai" false (mkAuth "credential" "p-key") ["b"; "gone"; "other"; "c"]]>
  (<["b" := mkProvider "b" "openai" false (mkAuth "" "") []]>
  (<["other" := mkProvider "o" "anthropic" false (mkAuth "none" "") []]>
  {["c" := mkProvider "c" "openai" false (mkAuth "credential" "c-key") []]})).

Definition parseURL (u : string) : option ParsedURL := Some (mkURL "https" u "/v1").
Definition resolve : option (string → res credErr string) := Some (λ name, Ok ("secret of " +:+ name)).
Definition refused : BlockResponse := mkBlock 429 "application/json" "".

Definition ingress : Request :=
  mkRequest (<["Authorization" := ["Bearer caller"]]> {["Cookie" := ["session"]]})
    "http" "localhost" "/chat" "" "key=k1&x=1" "localhost" (Some (mkReader "{}" None)) 2.

(** As the primary's credential left it. *)
Definition outgoing : Request :=
  mkRequest {["Authorization" := ["Bearer secret of p-key"]]}
    "https" "p" "/v1/chat" "" "x=1" "p" (Some (mkReader "{}" None)) 2.

Definition rs : reqState :=
  mkReqState false "" "" 2 [] false false (callerCredentialsFrom (Some ingress)) "primary" "" "openai" "/chat" "".
Definition rc : RouteContext := mkRoute "primary" "/chat" "caller" None.

Definition trip : option (World * Outcome) :=
  RoundTrip id base cfg parseURL resolve None refused (mkReadings 0 0 0 0) 1
    (Some (NewRateLimiter 60 1)) (Some rc) (Some rs) outgoing.

Lemma base_contract h r : base h r ≠ (None, None).
Proof. unfold base. by destruct (length h) as [|[|]]. Qed.

Definition summary (wo : World * Outcome) :=
  let sent := w_sent wo.1 in
  (map fst sent, map (λ x, r_Header x.2 !! "Authorization") sent, map (λ x, r_RawQuery x.2) sent,
   w_closed wo.1, option_map ResponseBody wo.2.1).

Example attempts : option_map summary trip =
  Some (["primary"; "b"; "c"], [Some ["Bearer secret of p-key"]; Some ["Bearer caller"]; Some ["Bearer secret of c-key"]],
    ["x=1"; "x=1&key=k1"; "x=1"], [0], Some (Some (Limited (Some 2)))).
Proof. vm_compute. reflexivity. Qed.
End Sample.

Lemma lease_settled_witness :
  ∃ w o, Sample.trip = Some (w, o) ∧ w_closed (closeResponse 1 w o.1) = [0; 2].
Proof.
  destruct (lease_settled id Sample.base Sample.cfg Sample.parseURL Sample.resolve None Sample.refused
    (mkReadings 0 0 0 0) 1 Sample.base_contract (Some (NewRateLimiter 60 1)) (Some Sample.rc) (Some Sample.rs)
    Sample.outgoing) as (w & o & Hw & Hc & _).
  exists w, o. split; [exact Hw|]. rewrite Hc. vm_compute in Hw. injection Hw as <- <-. vm_compute. reflexivity.
Defined.

Lemma attempts_in_order_witness :
  ∃ w o t, Sample.trip = Some (w, o) ∧ w_sent w = ("primary", Sample.outgoing) :: t ∧ t.*1 `sublist_of` ["b"; "gone"; "other"; "c"].
Proof.
  destruct Sample.trip as [[w o]|] eqn:E; [|vm_compute in E; discriminate].
  pose proof (attempts_in_order id Sample.base Sample.cfg Sample.parseURL Sample.resolve None Sample.refused
    (mkReadings 0 0 0 0) 1 Sample.base_contract (Some (NewRateLimiter 60 1)) (Some Sample.rc) (Some Sample.rs)
    Sample.outgoing (Some Sample.ingress) w o eq_refl E) as H. simpl in H.
  destruct H as [[Hs _]|(t & bytes & names & _ & Hs & _ & Hsub & _)].
  - exfalso. vm_compute in E. injection E as <- <-. discriminate.
  - exists w, o, t. auto.
Defined.
