(* ===== verification/PluginManifest.v ===== *)
(** * Plugin manifests

    The manifest of a plugin bundle and its validation, from
    internal/plugin/discovery.go: identity, versions, hooks, permissions,
    declared resources, requirements and conflicts.  [validateManifest_exact]
    characterises the manifests that pass.

    Semantic versions, URLs and IP addresses are read by libraries, and the
    vocabulary of hooks and permissions is the SDK's: class [ManifestLibs].  So
    is Unicode upper-casing, which is only compared with its argument. *)

From stdpp Require Import base list strings gmap sets numbers.
From Stdlib Require Import Ascii.
From S2P Require Import Prelude ByteStrings Utf8 GoStrings.

Close Scope Z_scope.

(** ** Data *)

Record CredentialDeclaration := mkCredentialDecl { cd_Slot : string; cd_Description : string; cd_Required : bool }.
Record FileDeclaration := mkFileDecl {
  fd_Path : string; fd_Operations : list string; fd_Required : bool; fd_MaxBytes : Z; fd_RetainedFiles : Z }.
Record HTTPEndpointDeclaration := mkEndpointDecl {
  he_Name : string; he_Description : string; he_Origin : string; he_Methods : list string; he_Required : bool;
  he_TimeoutMS : Z; he_MaxRequestBytes : Z; he_MaxResponseBytes : Z; he_MaxCallsPerMinute : Z }.
Record ModelServiceDeclaration := mkServiceDecl {
  md_Name : string; md_Description : string; md_Required : bool; md_TimeoutMS : Z; md_MaxTokens : Z;
  md_MaxInputBytes : Z; md_MaxCallsPerMinute : Z; md_MaxTokensPerHour : Z }.
Record PricingDeclaration := mkPricingDecl {
  pd_Name : string; pd_Description : string; pd_Required : bool; pd_ForModelService : string }.
Record PromptCacheDeclaration := mkCacheDecl { cp_Name : string; cp_Description : string; cp_Required : bool }.

(** Hooks and permissions by name. *)
Record PluginManifest := mkManifest {
  SchemaVersion : Z;
  ManifestID : string;
  ManifestName : string;
  Version : string;
  ABIVersion : string;
  MinimumToranaVersion : string;
  MaximumToranaVersion : string;
  FailureMode : string;
  Repository : string;
  Hooks : list string;
  Permissions : list string;
  Credentials : list CredentialDeclaration;
  Files : list FileDeclaration;
  HTTPEndpoints : list HTTPEndpointDeclaration;
  ModelServices : list ModelServiceDeclaration;
  PricingResources : list PricingDeclaration;
  PromptCachePolicies : list PromptCacheDeclaration;
  RequiresUpstream : list string;
  ConflictsWith : list string }.

Definition defaultPluginFileMaxBytes : Z := Z.shiftl 16 20.
Definition defaultPluginRetainedFiles : Z := 5.
Definition MaxPluginFileBytes : Z := Z.shiftl 64 20.
Definition MaxPluginRetainedFiles : Z := 15.
Definition MaxPluginFileTotalBytes : Z := Z.shiftl 256 20.

Inductive manifestErr :=
| UnsupportedSchema (n : Z) | IdentityRequired | UnsupportedABI (v : string)
| InvalidVersion (field v : string) | VersionsCrossed | BadFailureMode | RepositoryRequired
| UnsupportedHook (h : string) | DuplicateHook (h : string)
| UnsupportedPermission (p : string) | DuplicatePermission (p : string)
| IncompleteDeclaration (kind : string) | DuplicateDeclaration (kind name : string)
| PermissionRequired (kind name permission : string)
| UnsafePath (path : string) | FileLimits (path : string) | FileLimitsNegative (path : string) | FileCeiling
| UnsupportedOperation (path op : string) | DuplicateOperation (path op : string) | NoOperation (path : string)
| BadOrigin (name : string) | MethodsRequired (name : string) | MethodCase (name method : string)
| DuplicateMethod (name method : string) | EndpointLimits (name : string)
| ServiceLimits (name : string) | UndeclaredService (name service : string)
| BlankRequirement | SelfRequirement | DuplicateRequirement (id : string)
| BlankConflict | SelfConflict | DuplicateConflict (id : string) | RequiredConflict (id : string)
| HostTooOld (minimum : string) | HostTooNew (maximum : string).

(** ** Libraries *)

(** What [net/url] tells of a parsed URL. *)
Record URLParts := mkURL {
  u_Scheme : string; u_Host : string; u_User : bool; u_RawQuery : string; u_Fragment : string; u_Path : string;
  u_Hostname : string }.

Class ManifestLibs := {
  SDKHooks : list string;
  SDKPermissions : list string;
  semverIsValid : string → bool;
  semverCompare : string → string → Z;
  IsPseudoVersion : string → bool;
  ParseURL : string → option URLParts;
  ParseRequestURI : string → option URLParts;
  (* the host is a literal IP address of the loopback network *)
  literalLoopback : string → bool;
  ToUpper : string → string }.

(** [unicode.IsSpace]. *)
Definition IsSpace (r : Z) : bool :=
  within 9 13 r || bool_decide (r ∈ [0x20; 0x85; 0xA0; 0x1680; 0x2028; 0x2029; 0x202F; 0x205F; 0x3000]%Z)
  || within 0x2000 0x200A r.

(** [strings.TrimSpace(s) == ""]; a byte that is not UTF-8 is not space. *)
Fixpoint blankF (fuel : nat) (s : bytes) : bool :=
  match fuel, s with
  | _, [] => true
  | O, _ => false
  | S fuel, _ => match decodeRune s with Some (r, s') => IsSpace r && blankF fuel s' | None => false end
  end.
Definition blank (s : string) : bool := blankF (length (lit s)) (lit s).

(** [if cond { return err }]. *)
Definition refuse {E} (cond : bool) (e : E) : res E unit := if cond then Err e else Ok tt.

(** The loops that collect names in a set: checks before the duplicate test, the
    test, checks after it. *)
Fixpoint uniqueLoop {E A} (name : A → string) (before : A → res E unit) (dup : A → E) (after : A → res E unit)
    (seen : gset string) (l : list A) : res E (gset string) :=
  match l with
  | [] => Ok seen
  | x :: l =>
      _ ←? before x;
      _ ←? refuse (bool_decide (name x ∈ seen)) (dup x);
      _ ←? after x;
      uniqueLoop name before dup after ({[name x]} ∪ seen) l
  end.
Definition always {E A} (_ : A) : res E unit := Ok tt.

(** ** Versions *)

Section Validation.
Context {ML : ManifestLibs}.

Definition canonicalSemver (raw : string) : string := if HasPrefix raw "v" then raw else "v" +:+ raw.
Definition parseSemver (raw : string) : option string :=
  let version := canonicalSemver raw in if semverIsValid version then Some version else None.
Definition compareSemver (left right : string) : Z := semverCompare (canonicalSemver left) (canonicalSemver right).

Definition validVersion (field raw : string) : res manifestErr unit :=
  match parseSemver raw with Some _ => Ok tt | None => Err (InvalidVersion field raw) end.
Definition validOptionalVersion (field raw : string) : res manifestErr unit :=
  if String.eqb raw "" then Ok tt else validVersion field raw.

Definition validateHostCompatibility (manifest : PluginManifest) (hostVersion : string) : res manifestErr unit :=
  if IsPseudoVersion (canonicalSemver hostVersion) then Ok tt
  else match parseSemver hostVersion with
       | None => Ok tt
       | Some host =>
           _ ←? refuse (negb (String.eqb (MinimumToranaVersion manifest) "")
                        && (semverCompare host (canonicalSemver (MinimumToranaVersion manifest)) <? 0)%Z)
                  (HostTooOld (MinimumToranaVersion manifest));
           refuse (negb (String.eqb (MaximumToranaVersion manifest) "")
                   && (0 <? semverCompare host (canonicalSemver (MaximumToranaVersion manifest)))%Z)
             (HostTooNew (MaximumToranaVersion manifest))
       end.

(** ** Declared resources *)

Definition validateLogicalPluginPath (path : string) : bool :=
  negb (String.eqb path "" || (240 <? len path)%Z || negb (ValidString (lit path)) || ContainsByte "\"%char path
        || HasPrefix path "/")
  && forallb (λ component, negb (String.eqb component "" || String.eqb component "." || String.eqb component ".."))
       (Split "/"%char path).

Definition validatePluginHTTPOrigin (raw : string) : bool :=
  match ParseURL raw with
  | None => false
  | Some u =>
      negb (String.eqb (u_Scheme u) "" || String.eqb (u_Host u) "" || u_User u || negb (String.eqb (u_RawQuery u) "")
            || negb (String.eqb (u_Fragment u) "")
            || negb (String.eqb (u_Path u) "") && negb (String.eqb (u_Path u) "/"))
      && (String.eqb (u_Scheme u) "https" || String.eqb (u_Scheme u) "http" && literalLoopback (u_Hostname u))
  end.

(** The limits with the defaults filled in. *)
Definition fileLimits (maxBytes retained : Z) (defaults : bool) : option (Z * Z) :=
  let maxBytes := if defaults && (maxBytes =? 0)%Z then defaultPluginFileMaxBytes else maxBytes in
  let retained := if defaults && (retained =? 0)%Z then defaultPluginRetainedFiles else retained in
  if (maxBytes <=? 0)%Z || (MaxPluginFileBytes <? maxBytes)%Z then None
  else if (retained <? 0)%Z || (MaxPluginRetainedFiles <? retained)%Z then None
  else if (Z.quot MaxPluginFileTotalBytes (retained + 1) <? maxBytes)%Z then None
  else Some (maxBytes, retained).

Definition fileOperations : list string := ["append"; "read"; "write"; "list"; "delete"].

Section Resources.
Context (permissions : gset string).

Definition needs (kind name permission : string) : res manifestErr unit :=
  refuse (negb (bool_decide (permission ∈ permissions))) (PermissionRequired kind name permission).

Definition described (kind name description : string) : res manifestErr unit :=
  refuse (blank name || blank description) (IncompleteDeclaration kind).

Definition validateOperation (path operation : string) : res manifestErr unit :=
  refuse (negb (bool_decide (operation ∈ fileOperations))) (UnsupportedOperation path operation).

(** One file declaration; the paths seen and the bytes requested so far. *)
Definition validateFile (st : gset string * Z) (d : FileDeclaration) : res manifestErr (gset string * Z) :=
  let '(paths, requested) := st in
  _ ←? refuse (negb (validateLogicalPluginPath (fd_Path d))) (UnsafePath (fd_Path d));
  _ ←? refuse (bool_decide (fd_Path d ∈ paths)) (DuplicateDeclaration "file" (fd_Path d));
  _ ←? refuse ((fd_MaxBytes d <? 0)%Z || (fd_RetainedFiles d <? 0)%Z) (FileLimitsNegative (fd_Path d));
  match fileLimits (fd_MaxBytes d) (fd_RetainedFiles d) true with
  | None => Err (FileLimits (fd_Path d))
  | Some (maxBytes, retained) =>
      let requested := (requested + maxBytes * (retained + 1))%Z in
      _ ←? refuse (MaxPluginFileTotalBytes <? requested)%Z FileCeiling;
      _ ←? uniqueLoop id (validateOperation (fd_Path d)) (DuplicateOperation (fd_Path d))
             (λ operation, needs "file" (fd_Path d) ("env.file_" +:+ operation)) ∅ (fd_Operations d);
      _ ←? refuse (bool_decide (fd_Operations d = [])) (NoOperation (fd_Path d));
      Ok ({[fd_Path d]} ∪ paths, requested)
  end.

(** What follows the duplicate test of an endpoint. *)
Definition validateEndpoint (d : HTTPEndpointDeclaration) : res manifestErr unit :=
  _ ←? needs "HTTP endpoint" (he_Name d) "env.http_request";
  _ ←? refuse (negb (String.eqb (he_Origin d) "") && negb (validatePluginHTTPOrigin (he_Origin d))) (BadOrigin (he_Name d));
  _ ←? refuse (bool_decide (he_Methods d = [])) (MethodsRequired (he_Name d));
  _ ←? uniqueLoop id
         (λ method, refuse (String.eqb method "" || negb (String.eqb method (ToUpper method))) (MethodCase (he_Name d) method))
         (DuplicateMethod (he_Name d)) always ∅ (he_Methods d);
  refuse ((he_TimeoutMS d <? 0)%Z || (he_MaxRequestBytes d <? 0)%Z || (he_MaxResponseBytes d <? 0)%Z
          || (he_MaxCallsPerMinute d <? 0)%Z) (EndpointLimits (he_Name d)).

(** The positive bounded limits of a model service, declared or approved. *)
Definition serviceLimits (timeout tokens input calls hourly : Z) : bool :=
  negb ((timeout <=? 0) || (120000 <? timeout) || (tokens =? 0) || (Z.shiftl 1 31 - 1 <? tokens) || (input <=? 0)
        || (Z.shiftl 8 20 <? input) || (calls <=? 0) || (hourly <=? 0))%Z.

Definition validateService (d : ModelServiceDeclaration) : res manifestErr unit :=
  _ ←? needs "model service" (md_Name d) "env.model_complete";
  refuse (negb (serviceLimits (md_TimeoutMS d) (md_MaxTokens d) (md_MaxInputBytes d) (md_MaxCallsPerMinute d)
                  (md_MaxTokensPerHour d))) (ServiceLimits (md_Name d)).

Definition validatePricing (services : gset string) (d : PricingDeclaration) : res manifestErr unit :=
  _ ←? needs "pricing resource" (pd_Name d) "env.model_pricing";
  refuse (negb (String.eqb (pd_ForModelService d) "") && negb (bool_decide (pd_ForModelService d ∈ services)))
    (UndeclaredService (pd_Name d) (pd_ForModelService d)).

Definition validateResourceDeclarations (m : PluginManifest) : res manifestErr unit :=
  _ ←? uniqueLoop cd_Slot (λ d, described "credential" (cd_Slot d) (cd_Description d))
         (λ d, DuplicateDeclaration "credential" (cd_Slot d)) always ∅ (Credentials m);
  _ ←? (if bool_decide (Credentials m = []) then Ok tt else needs "credential" "" "env.credential_get");
  _ ←? foldM validateFile (∅, 0%Z) (Files m);
  _ ←? uniqueLoop he_Name (λ d, described "HTTP endpoint" (he_Name d) (he_Description d))
         (λ d, DuplicateDeclaration "HTTP endpoint" (he_Name d)) validateEndpoint ∅ (HTTPEndpoints m);
  services ←? uniqueLoop md_Name (λ d, described "model service" (md_Name d) (md_Description d))
                (λ d, DuplicateDeclaration "model service" (md_Name d)) validateService ∅ (ModelServices m);
  _ ←? uniqueLoop pd_Name (λ d, described "pricing resource" (pd_Name d) (pd_Description d))
         (λ d, DuplicateDeclaration "pricing resource" (pd_Name d)) (validatePricing services) ∅ (PricingResources m);
  _ ←? uniqueLoop cp_Name (λ d, described "prompt cache policy" (cp_Name d) (cp_Description d))
         (λ d, DuplicateDeclaration "prompt cache policy" (cp_Name d))
         (λ d, needs "prompt cache policy" (cp_Name d) "env.cache_policy") ∅ (PromptCachePolicies m);
  Ok tt.
End Resources.

(** ** The manifest *)

Definition supported (vocabulary : list string) (e : string → manifestErr) (name : string) : res manifestErr unit :=
  refuse (negb (bool_decide (name ∈ vocabulary))) (e name).

Definition validateManifest (m : PluginManifest) : res manifestErr unit :=
  _ ←? refuse (negb (SchemaVersion m =? 1)%Z) (UnsupportedSchema (SchemaVersion m));
  _ ←? refuse (String.eqb (ManifestID m) "" || String.eqb (ManifestName m) "") IdentityRequired;
  _ ←? refuse (negb (String.eqb (ABIVersion m) "v1")) (UnsupportedABI (ABIVersion m));
  _ ←? validVersion "version" (Version m);
  _ ←? validOptionalVersion "minimum_torana_version" (MinimumToranaVersion m);
  _ ←? validOptionalVersion "maximum_torana_version" (MaximumToranaVersion m);
  _ ←? refuse (negb (String.eqb (MinimumToranaVersion m) "") && negb (String.eqb (MaximumToranaVersion m) "")
               && (0 <? compareSemver (MinimumToranaVersion m) (MaximumToranaVersion m))%Z) VersionsCrossed;
  _ ←? refuse (negb (String.eqb (FailureMode m) "pass") && negb (String.eqb (FailureMode m) "block")) BadFailureMode;
  _ ←? refuse (HasPrefix (ManifestID m) "torana/" && String.eqb (Repository m) "") RepositoryRequired;
  _ ←? uniqueLoop id (supported SDKHooks UnsupportedHook) DuplicateHook always ∅ (Hooks m);
  permissions ←? uniqueLoop id (supported SDKPermissions UnsupportedPermission) DuplicatePermission always ∅ (Permissions m);
  _ ←? validateResourceDeclarations permissions m;
  requirements ←? uniqueLoop id
      (λ r, _ ←? refuse (blank r) BlankRequirement; refuse (String.eqb r (ManifestID m)) SelfRequirement)
      DuplicateRequirement always ∅ (RequiresUpstream m);
  _ ←? uniqueLoop id
      (λ c, _ ←? refuse (blank c) BlankConflict; refuse (String.eqb c (ManifestID m)) SelfConflict)
      DuplicateConflict (λ c, refuse (bool_decide (c ∈ requirements)) (RequiredConflict c)) ∅ (ConflictsWith m);
  Ok tt.
End Validation.

(** ** What passes *)

Lemma refuse_ok {E} (b : bool) (e : E) : refuse b e = Ok tt ↔ b = false.
Proof. unfold refuse. destruct b; split; by intros. Qed.

Lemma step_ok {E A B} (a : res E A) (k : res E B) x : res_bind a (λ _, k) = Ok x ↔ (∃ y, a = Ok y) ∧ k = Ok x.
Proof. destruct a; naive_solver. Qed.
Lemma unit_ok {E} (a : res E unit) : (∃ y, a = Ok y) ↔ a = Ok tt.
Proof. split; [by intros [[] ?]|eauto]. Qed.

(** The names are distinct and new, and every element passes its checks. *)
Lemma uniqueLoop_ok {E A} name before (dup : A → E) after seen l s :
  uniqueLoop name before dup after seen l = Ok s ↔
  NoDup (name <$> l) ∧ Forall (λ x, name x ∉ seen ∧ before x = Ok tt ∧ after x = Ok tt) l
  ∧ s = list_to_set (name <$> l) ∪ seen.
Proof.
  revert seen; induction l as [|x l IH]; intros seen; simpl.
  { split; [intros [= ->]; split_and!; [constructor|constructor|set_solver]|intros (_ & _ & ->); f_equal; set_solver]. }
  rewrite !step_ok, !unit_ok, IH, refuse_ok, bool_decide_eq_false, list.NoDup_cons, list.Forall_cons, !list.Forall_forall,
    list_elem_of_fmap.
  split.
  - intros (H1 & H2 & H3 & H4 & H5 & ->). split_and!; [|done|done..| |set_solver].
    + intros (y & Hy & Hin). destruct (H5 y Hin) as [Hn _]. set_solver.
    + intros y Hy. destruct (H5 y Hy) as [Hn ?]. set_solver.
  - intros ((Hn & Hd) & ((H1 & H2 & H3) & H4) & ->). split_and!; [done..| |set_solver].
    intros y Hy. destruct (H4 y Hy) as [Hs ?]. split; [|done]. intros [Heq%elem_of_singleton|?]%elem_of_union; [|done].
    apply Hn. by exists y.
Qed.

Lemma uniqueLoop_new {E A} name before (dup : A → E) after l :
  (∃ s, uniqueLoop name before dup after ∅ l = Ok s) ↔
  NoDup (name <$> l) ∧ Forall (λ x, before x = Ok tt ∧ after x = Ok tt) l.
Proof.
  rewrite list.Forall_forall. split.
  - intros [s (Hd & H & _)%uniqueLoop_ok]. rewrite list.Forall_forall in H. split; [done|]. intros x Hx. by destruct (H x Hx).
  - intros [Hd H]. eexists. apply uniqueLoop_ok. rewrite list.Forall_forall. split_and!; [done| |done].
    intros x Hx. split; [set_solver|auto].
Qed.

Section Exact.
Context {ML : ManifestLibs}.

(** The storage a file declaration asks for. *)
Definition fileBytes (d : FileDeclaration) : Z :=
  match fileLimits (fd_MaxBytes d) (fd_RetainedFiles d) true with Some (b, r) => (b * (r + 1))%Z | None => 0%Z end.
Definition storage (l : list FileDeclaration) : Z := foldr (λ d n, fileBytes d + n)%Z 0%Z l.

Record fileOk (permissions : gset string) (d : FileDeclaration) : Prop := {
  file_path : validateLogicalPluginPath (fd_Path d) = true;
  file_limits : (0 <= fd_MaxBytes d ∧ 0 <= fd_RetainedFiles d)%Z
    ∧ is_Some (fileLimits (fd_MaxBytes d) (fd_RetainedFiles d) true);
  file_operations : fd_Operations d ≠ [] ∧ NoDup (fd_Operations d)
    ∧ ∀ o, o ∈ fd_Operations d → o ∈ fileOperations ∧ "env.file_" +:+ o ∈ permissions }.

Lemma fileLimits_range b r d b' r' : fileLimits b r d = Some (b', r') →
  (0 < b' ∧ 0 <= r' ∧ b' * (r' + 1) <= MaxPluginFileTotalBytes)%Z.
Proof.
  unfold fileLimits. set (x := if d && _ then _ else b). set (y := if d && _ then _ else r).
  destruct (Z.leb_spec x 0); [done|]. destruct (Z.ltb_spec MaxPluginFileBytes x); [done|]. simpl.
  destruct (Z.ltb_spec y 0); [done|]. destruct (Z.ltb_spec MaxPluginRetainedFiles y); [done|]. simpl.
  destruct (Z.ltb_spec (Z.quot MaxPluginFileTotalBytes (y + 1)) x); [done|]. intros [= <- <-].
  assert (0 <= MaxPluginFileTotalBytes)%Z by done. rewrite Z.quot_div_nonneg in * by lia.
  pose proof (Z.mul_div_le MaxPluginFileTotalBytes (y + 1)). nia.
Qed.

Lemma fileBytes_nonneg d : (0 <= fileBytes d)%Z.
Proof. unfold fileBytes. destruct (fileLimits _ _ _) as [[b r]|] eqn:E; [|lia]. apply fileLimits_range in E. nia. Qed.

Lemma validateFile_ok permissions paths n d st :
  validateFile permissions (paths, n) d = Ok st ↔
  fileOk permissions d ∧ fd_Path d ∉ paths ∧ (n + fileBytes d <= MaxPluginFileTotalBytes)%Z
  ∧ st = ({[fd_Path d]} ∪ paths, (n + fileBytes d)%Z).
Proof.
  unfold validateFile, fileBytes. rewrite !step_ok, !unit_ok, !refuse_ok, negb_false_iff, bool_decide_eq_false, orb_false_iff, !Z.ltb_ge.
  destruct (fileLimits _ _ _) as [[b r]|] eqn:E.
  - rewrite !step_ok, !unit_ok, !refuse_ok, uniqueLoop_new, bool_decide_eq_false, Z.ltb_ge, list_fmap_id, list.Forall_forall.
    unfold validateOperation, needs. setoid_rewrite refuse_ok. setoid_rewrite negb_false_iff. setoid_rewrite bool_decide_eq_true.
    split.
    + intros (H1 & H2 & H3 & H4 & [H5 H6] & H7 & [= <-]). split_and!; [|done..]. split; [done|by rewrite E|by split_and!].
    + intros ([H1 [H2 _] (H3 & H4 & H5)] & H6 & H7 & ->). split_and!; naive_solver.
  - split; [naive_solver|]. intros ([_ [_ [? H]] _] & _). by rewrite E in H.
Qed.

Lemma files_ok permissions l paths n :
  (∃ st, foldM (validateFile permissions) (paths, n) l = Ok st) ↔
  Forall (fileOk permissions) l ∧ NoDup (fd_Path <$> l) ∧ (∀ d, d ∈ l → fd_Path d ∉ paths)
  ∧ (l = [] ∨ n + storage l <= MaxPluginFileTotalBytes)%Z.
Proof.
  revert paths n; induction l as [|d l IH]; intros paths n; simpl.
  { split; [|eauto]. intros _. split_and!; [done|constructor|set_solver|by left]. }
  rewrite list.Forall_cons, list.NoDup_cons, list_elem_of_fmap. setoid_rewrite res_bind_ok.
  assert (Hs : ∀ l, (0 <= storage l)%Z).
  { clear. induction l as [|d l IH]; simpl; [lia|]. pose proof (fileBytes_nonneg d). lia. }
  split.
  - intros (st & [paths' n'] & Hd & Hl). apply validateFile_ok in Hd as (H1 & H2 & H3 & [= -> ->]).
    destruct (proj1 (IH _ _) ltac:(eauto)) as (H4 & H5 & H6 & H7). split_and!; [done..| |done|set_solver|right].
    + intros (y & Hy & Hin%H6). set_solver.
    + destruct H7 as [->|H7]; simpl; lia.
  - intros ([H1 H2] & [H3 H4] & H5 & [H6|H6]); [done|].
    destruct (proj2 (IH ({[fd_Path d]} ∪ paths) (n + fileBytes d)%Z)) as [st Hst].
    { split_and!; [done..| |right; lia]. intros y Hy. specialize (H5 y). set_solver. }
    exists st. eexists. split; [|done]. apply validateFile_ok. split_and!; [done|set_solver| |done].
    specialize (Hs l). lia.
Qed.

(** Declarations with distinct names, each named and described. *)
Definition declared {A} (name description : A → string) (l : list A) : Prop :=
  NoDup (name <$> l) ∧ ∀ d, d ∈ l → blank (name d) = false ∧ blank (description d) = false.

Record endpointOk (d : HTTPEndpointDeclaration) : Prop := {
  endpoint_origin : he_Origin d = "" ∨ validatePluginHTTPOrigin (he_Origin d) = true;
  endpoint_methods : he_Methods d ≠ [] ∧ NoDup (he_Methods d)
    ∧ ∀ x, x ∈ he_Methods d → x ≠ "" ∧ ToUpper x = x;
  endpoint_limits : (0 <= he_TimeoutMS d ∧ 0 <= he_MaxRequestBytes d ∧ 0 <= he_MaxResponseBytes d
    ∧ 0 <= he_MaxCallsPerMinute d)%Z }.

(** The resources a manifest with these permissions may declare. *)
Record resourcesOk (permissions : gset string) (m : PluginManifest) : Prop := {
  ok_credentials : declared cd_Slot cd_Description (Credentials m)
    ∧ (Credentials m ≠ [] → "env.credential_get" ∈ permissions);
  ok_files : Forall (fileOk permissions) (Files m) ∧ NoDup (fd_Path <$> Files m)
    ∧ (storage (Files m) <= MaxPluginFileTotalBytes)%Z;
  ok_endpoints : declared he_Name he_Description (HTTPEndpoints m)
    ∧ ∀ d, d ∈ HTTPEndpoints m → endpointOk d ∧ "env.http_request" ∈ permissions;
  ok_services : declared md_Name md_Description (ModelServices m)
    ∧ ∀ d, d ∈ ModelServices m → "env.model_complete" ∈ permissions
      ∧ serviceLimits (md_TimeoutMS d) (md_MaxTokens d) (md_MaxInputBytes d) (md_MaxCallsPerMinute d) (md_MaxTokensPerHour d)
        = true;
  ok_pricing : declared pd_Name pd_Description (PricingResources m)
    ∧ ∀ d, d ∈ PricingResources m → "env.model_pricing" ∈ permissions
      ∧ (pd_ForModelService d = "" ∨ pd_ForModelService d ∈ md_Name <$> ModelServices m);
  ok_policies : declared cp_Name cp_Description (PromptCachePolicies m)
    ∧ ∀ d, d ∈ PromptCachePolicies m → "env.cache_policy" ∈ permissions }.

(** A set of plugin IDs without blanks, repetitions or the plugin itself. *)
Definition otherIDs (m : PluginManifest) (l : list string) : Prop :=
  NoDup l ∧ ∀ x, x ∈ l → blank x = false ∧ x ≠ ManifestID m.

Record manifestOk (m : PluginManifest) : Prop := {
  ok_identity : SchemaVersion m = 1%Z ∧ ManifestID m ≠ "" ∧ ManifestName m ≠ "" ∧ ABIVersion m = "v1";
  ok_versions : is_Some (parseSemver (Version m))
    ∧ (MinimumToranaVersion m ≠ "" → is_Some (parseSemver (MinimumToranaVersion m)))
    ∧ (MaximumToranaVersion m ≠ "" → is_Some (parseSemver (MaximumToranaVersion m)))
    ∧ (MinimumToranaVersion m ≠ "" → MaximumToranaVersion m ≠ "" →
       compareSemver (MinimumToranaVersion m) (MaximumToranaVersion m) <= 0)%Z;
  ok_failure : FailureMode m ∈ ["pass"; "block"];
  ok_repository : HasPrefix (ManifestID m) "torana/" = true → Repository m ≠ "";
  ok_hooks : NoDup (Hooks m) ∧ Hooks m ⊆ SDKHooks;
  ok_permissions : NoDup (Permissions m) ∧ Permissions m ⊆ SDKPermissions;
  ok_resources : resourcesOk (list_to_set (Permissions m)) m;
  ok_requires : otherIDs m (RequiresUpstream m);
  ok_conflicts : otherIDs m (ConflictsWith m) ∧ ∀ x, x ∈ ConflictsWith m → x ∉ RequiresUpstream m }.

Lemma described_ok kind name description :
  described kind name description = Ok tt ↔ blank name = false ∧ blank description = false.
Proof. unfold described. by rewrite refuse_ok, orb_false_iff. Qed.
Lemma needs_ok permissions kind name permission : needs permissions kind name permission = Ok tt ↔ permission ∈ permissions.
Proof. unfold needs. by rewrite refuse_ok, negb_false_iff, bool_decide_eq_true. Qed.

(** The loops over declarations. *)
Lemma declared_ok {A} (name description : A → string) kind dup after (l : list A) :
  (∃ s, uniqueLoop name (λ d, described kind (name d) (description d)) dup after ∅ l = Ok s) ↔
  declared name description l ∧ ∀ d, d ∈ l → after d = Ok tt.
Proof.
  rewrite uniqueLoop_new, list.Forall_forall. unfold declared. setoid_rewrite described_ok. naive_solver.
Qed.

Lemma endpoint_ok permissions d : validateEndpoint permissions d = Ok tt ↔ endpointOk d ∧ "env.http_request" ∈ permissions.
Proof.
  unfold validateEndpoint.
  rewrite !step_ok, !unit_ok, needs_ok, !refuse_ok, uniqueLoop_new, list_fmap_id, list.Forall_forall, bool_decide_eq_false,
    andb_false_iff, !orb_false_iff, !negb_false_iff, String.eqb_eq, !Z.ltb_ge.
  setoid_rewrite refuse_ok. setoid_rewrite orb_false_iff. setoid_rewrite negb_false_iff. setoid_rewrite String.eqb_eq.
  setoid_rewrite String.eqb_neq. split.
  - intros (H1 & H2 & H3 & [H4 H5] & H6). split; [|done]. split; [done| |naive_solver].
    split_and!; [done..|]. intros x Hx. destruct (H5 x Hx) as [[? ?] _]. done.
  - intros ([H1 (H2 & H3 & H4) H5] & H6). split_and!; naive_solver.
Qed.

Lemma service_ok permissions d : validateService permissions d = Ok tt ↔ "env.model_complete" ∈ permissions
  ∧ serviceLimits (md_TimeoutMS d) (md_MaxTokens d) (md_MaxInputBytes d) (md_MaxCallsPerMinute d) (md_MaxTokensPerHour d) = true.
Proof. unfold validateService. by rewrite step_ok, unit_ok, needs_ok, refuse_ok, negb_false_iff. Qed.

Lemma pricing_ok permissions services d : validatePricing permissions services d = Ok tt ↔
  "env.model_pricing" ∈ permissions ∧ (pd_ForModelService d = "" ∨ pd_ForModelService d ∈ services).
Proof.
  unfold validatePricing. by rewrite step_ok, unit_ok, needs_ok, refuse_ok, andb_false_iff, !negb_false_iff, String.eqb_eq,
    bool_decide_eq_true.
Qed.

Lemma services_seen permissions l :
  ∀ s, uniqueLoop md_Name (λ d, described "model service" (md_Name d) (md_Description d))
         (λ d, DuplicateDeclaration "model service" (md_Name d)) (validateService permissions) ∅ l = Ok s →
       s = list_to_set (md_Name <$> l).
Proof. intros s (_ & _ & ->)%uniqueLoop_ok. set_solver. Qed.

Lemma credentials_need permissions (l : list CredentialDeclaration) :
  (if bool_decide (l = []) then Ok tt else needs permissions "credential" "" "env.credential_get") = Ok tt ↔
  (l ≠ [] → "env.credential_get" ∈ permissions).
Proof. case_bool_decide; [naive_solver|]. rewrite needs_ok. naive_solver. Qed.

Lemma resources_exact permissions m : validateResourceDeclarations permissions m = Ok tt ↔ resourcesOk permissions m.
Proof.
  unfold validateResourceDeclarations. rewrite !step_ok, !declared_ok, unit_ok, credentials_need, files_ok.
  rewrite res_bind_ok. split.
  - intros ([H1 _] & H2 & (H3 & H4 & _ & H5) & [H6 H7] & services & Hs & Hr).
    rewrite !step_ok, !declared_ok in Hr. destruct Hr as ([H8 H9] & [H10 H11] & _).
    pose proof (services_seen _ _ _ Hs) as ->. destruct (proj1 (declared_ok _ _ _ _ _ _) ltac:(eauto)) as [H12 H13].
    split; split_and!; try done.
    + destruct H5 as [->|H5]; [done|lia].
    + intros d Hd. by apply endpoint_ok, H7.
    + intros d Hd. by apply service_ok, H13.
    + intros d Hd%H9. apply pricing_ok in Hd. by rewrite elem_of_list_to_set in Hd.
    + intros d Hd%H11. by apply needs_ok in Hd.
  - intros [[H1 H2] (H3 & H4 & H5) [H6 H7] [H8 H9] [H10 H11] [H12 H13]].
    split_and!; try done; try (by right); [by intros d Hd; apply endpoint_ok, H7|].
    destruct (proj2 (declared_ok md_Name md_Description "model service" (λ d, DuplicateDeclaration "model service" (md_Name d))
      (validateService permissions) (ModelServices m))) as [services Hs].
    { split; [done|]. intros d Hd. by apply service_ok, H9. }
    exists services. split; [done|]. rewrite !step_ok, !declared_ok. pose proof (services_seen _ _ _ Hs) as ->.
    split_and!; try done.
    + intros d Hd. apply pricing_ok. rewrite elem_of_list_to_set. auto.
    + intros d Hd. apply needs_ok. eauto.
Qed.

Lemma vocabulary_ok vocabulary e dup (l : list string) :
  (∃ s, uniqueLoop id (supported vocabulary e) dup always ∅ l = Ok s) ↔ NoDup l ∧ l ⊆ vocabulary.
Proof.
  rewrite uniqueLoop_new, list_fmap_id, list.Forall_forall. unfold supported, always. setoid_rewrite refuse_ok.
  setoid_rewrite negb_false_iff. setoid_rewrite bool_decide_eq_true. unfold subseteq, list_subseteq. naive_solver.
Qed.

Lemma unique_seen {E} before (dup : string → E) after l s : uniqueLoop id before dup after ∅ l = Ok s → s = list_to_set l.
Proof. intros (_ & _ & ->)%uniqueLoop_ok. rewrite list_fmap_id. set_solver. Qed.

Lemma otherIDs_ok m eb es dup after (l : list string) :
  (∃ s, uniqueLoop id (λ r, _ ←? refuse (blank r) eb; refuse (String.eqb r (ManifestID m)) es) dup after ∅ l
        = Ok (E := manifestErr) s) ↔ otherIDs m l ∧ ∀ x, x ∈ l → after x = Ok tt.
Proof.
  rewrite uniqueLoop_new, list_fmap_id, list.Forall_forall. unfold otherIDs. setoid_rewrite step_ok.
  setoid_rewrite unit_ok. setoid_rewrite refuse_ok. setoid_rewrite String.eqb_neq. naive_solver.
Qed.

Lemma version_ok field raw : validVersion field raw = Ok tt ↔ is_Some (parseSemver raw).
Proof. unfold validVersion. destruct (parseSemver raw) eqn:E; split; [eauto|done|done|by intros [? ?]]. Qed.
Lemma optional_version_ok field raw : validOptionalVersion field raw = Ok tt ↔ (raw ≠ "" → is_Some (parseSemver raw)).
Proof. unfold validOptionalVersion. destruct (String.eqb_spec raw ""); [naive_solver|]. rewrite version_ok. naive_solver. Qed.

(** The head of the validator, up to the hooks. *)
Lemma crossed_ok m : refuse (negb (String.eqb (MinimumToranaVersion m) "") && negb (String.eqb (MaximumToranaVersion m) "")
    && (0 <? compareSemver (MinimumToranaVersion m) (MaximumToranaVersion m))%Z) VersionsCrossed = Ok tt ↔
  (MinimumToranaVersion m ≠ "" → MaximumToranaVersion m ≠ "" →
   compareSemver (MinimumToranaVersion m) (MaximumToranaVersion m) <= 0)%Z.
Proof.
  rewrite refuse_ok, !andb_false_iff, !negb_false_iff, !String.eqb_eq, Z.ltb_ge.
  destruct (decide (MinimumToranaVersion m = "")), (decide (MaximumToranaVersion m = "")); naive_solver.
Qed.
Lemma failure_ok m : refuse (negb (String.eqb (FailureMode m) "pass") && negb (String.eqb (FailureMode m) "block")) BadFailureMode
  = Ok tt ↔ FailureMode m ∈ ["pass"; "block"].
Proof. rewrite refuse_ok, andb_false_iff, !negb_false_iff, !String.eqb_eq. set_solver. Qed.
Lemma repository_ok m : refuse (HasPrefix (ManifestID m) "torana/" && String.eqb (Repository m) "") RepositoryRequired = Ok tt ↔
  (HasPrefix (ManifestID m) "torana/" = true → Repository m ≠ "").
Proof. rewrite refuse_ok, andb_false_iff, String.eqb_neq. destruct (HasPrefix _ _); naive_solver. Qed.

Lemma manifest_exact m : validateManifest m = Ok tt ↔ manifestOk m.
Proof.
  unfold validateManifest.
  rewrite !step_ok, !unit_ok, version_ok, !optional_version_ok, crossed_ok, failure_ok, repository_ok, vocabulary_ok, !refuse_ok,
    !negb_false_iff, orb_false_iff, Z.eqb_eq, !String.eqb_neq, String.eqb_eq, res_bind_ok. split.
  - intros (H1 & [H2 H3] & H4 & H5 & H6 & H7 & H8 & H9 & H10 & H11 & permissions & Hp & Hr).
    rewrite step_ok, unit_ok, resources_exact, res_bind_ok in Hr. destruct Hr as (H12 & requirements & Hq & Hc).
    rewrite step_ok, otherIDs_ok in Hc. destruct Hc as [[H13 H14] _]. setoid_rewrite refuse_ok in H14.
    pose proof (unique_seen _ _ _ _ _ Hp) as ->. pose proof (unique_seen _ _ _ _ _ Hq) as ->.
    split; [done|done|done|done|done|by eapply vocabulary_ok; eauto|done|by eapply otherIDs_ok; eauto|split; [done|]].
    intros x Hx%H14. rewrite bool_decide_eq_false, elem_of_list_to_set in Hx. done.
  - intros [(H1 & H2 & H3 & H4) (H5 & H6 & H7 & H8) H9 H10 [H11 H11'] H12 H13 H14 [H15 H16]].
    split_and!; try done; [].
    destruct (proj2 (vocabulary_ok SDKPermissions UnsupportedPermission DuplicatePermission (Permissions m)) H12) as [permissions Hp].
    exists permissions. split; [done|]. pose proof (unique_seen _ _ _ _ _ Hp) as ->.
    rewrite step_ok, unit_ok, resources_exact, res_bind_ok. split; [done|].
    destruct (proj2 (otherIDs_ok m BlankRequirement SelfRequirement DuplicateRequirement always (RequiresUpstream m)))
      as [requirements Hq]; [by split|].
    exists requirements. split; [done|]. pose proof (unique_seen _ _ _ _ _ Hq) as ->. rewrite step_ok, otherIDs_ok.
    split; [split; [done|]|done]. intros x Hx. rewrite refuse_ok, bool_decide_eq_false, elem_of_list_to_set. auto.
Qed.
(** A manifest is accepted exactly when it is well formed: the supported
    schema and ABI, valid and ordered versions, distinct known hooks and
    permissions, resources that are named, described, distinct, bounded, within
    the storage ceiling and covered by a requested permission, and disjoint
    requirements and conflicts that do not name the plugin itself. *)
Theorem validateManifest_exact m : validateManifest m = Ok tt ↔ manifestOk m.
Proof. apply manifest_exact. Qed.
End Exact.
