(* ===== verification/PluginResources.v ===== *)
(** * Approved resources

    [ResolvePluginResources] of internal/plugin/discovery.go: the operator's
    approval is checked against the manifest and turned into the snapshot of
    resources the runtime hands to the plugin.  [resources_within]: everything in
    the snapshot was declared by the manifest and approved by the operator, every
    required resource is there, and no limit exceeds what was asked for.

    Go iterates over its maps in any order; the model takes one, and only the
    choice of the reported error depends on it. *)

From stdpp Require Import base list strings gmap sets numbers.
From Stdlib Require Import Ascii.
From S2P Require Import Prelude ByteStrings Framing GoStrings RateLimit PluginManifest.

(** ** Data *)

Record FileApproval := mkFileApproval { fa_MaxBytes : Z; fa_RetainedFiles : Z }.
Record HTTPApproval := mkHTTPApproval {
  ha_Origin : string; ha_Methods : list string; ha_TimeoutMS : Z; ha_MaxRequestBytes : Z; ha_MaxResponseBytes : Z;
  ha_MaxCallsPerMinute : Z }.
Record ModelServiceApproval := mkServiceApproval {
  sa_Provider : string; sa_Model : string; sa_Path : string; sa_TimeoutMS : Z; sa_MaxTokens : Z; sa_MaxInputBytes : Z;
  sa_MaxCallsPerMinute : Z; sa_MaxTokensPerHour : Z }.

(** [pb.ModelPricing]: four optional prices. *)
Record ModelPricing := mkPricing {
  InputUsdPerMtok : option float64; OutputUsdPerMtok : option float64; CacheReadUsdPerMtok : option float64;
  CacheWriteUsdPerMtok : option float64 }.
Record PricingModelApproval := mkPricingModel { pm_Provider : string; pm_Model : string; pm_Prices : ModelPricing }.

(** [pb.PromptCachePolicy]. *)
Record PromptCacheTier := mkTier { TtlSeconds : Z; WriteMultiplier : option float64; MarkerJson : string }.
Record PromptCachePolicy := mkPolicy {
  pol_CacheRead : option float64; pol_CacheWrite : option float64; RefreshOnRead : bool; Tiers : list PromptCacheTier;
  WarmIntervalSeconds : option Z }.
Record PromptCacheModelApproval := mkPolicyModel { cm_Provider : string; cm_Model : string; cm_Policy : PromptCachePolicy }.

Record Approval := mkApproval {
  ap_Digest : string;
  ap_Permissions : list string;
  ap_FailureMode : string;
  ap_Credentials : gmap string string;
  ap_Files : gmap string FileApproval;
  ap_HTTPEndpoints : gmap string HTTPApproval;
  ap_ModelServices : gmap string ModelServiceApproval;
  ap_PricingResources : gmap string (list PricingModelApproval);
  ap_PromptCachePolicies : gmap string (list PromptCacheModelApproval) }.

(** The runtime's side, internal/wasm/runtime.go. *)
Record FileResource := mkFileResource { fr_Operations : gset string; fr_MaxBytes : Z; fr_RetainedFiles : Z }.
Record HTTPResource := mkHTTPResource {
  hr_Name : string; hr_Origin : string; hr_Methods : gset string; hr_Timeout : Z; hr_MaxRequestBytes : Z;
  hr_MaxResponseBytes : Z; hr_MaxCallsPerMinute : Z }.
Record ModelServiceResource := mkServiceResource {
  sr_Name : string; sr_Provider : string; sr_Model : string; sr_Path : string; sr_Timeout : Z; sr_MaxTokens : Z;
  sr_MaxInputBytes : Z; sr_MaxCallsPerMinute : Z; sr_MaxTokensPerHour : Z }.
Record PricingResource := mkPricingResource {
  pr_Name : string; pr_ForModelService : string; pr_Prices : gmap string ModelPricing }.
Record PromptCacheResource := mkCacheResource { cr_Name : string; cr_Policies : gmap string PromptCachePolicy }.
Record PluginResources := mkResources {
  res_Credentials : gmap string string;
  res_Files : gmap string FileResource;
  res_HTTP : gmap string HTTPResource;
  res_ModelServices : gmap string ModelServiceResource;
  res_Pricing : gmap string PricingResource;
  res_Policies : gmap string PromptCacheResource }.

Inductive resourceErr :=
| NotDeclared (kind name : string) | NotApproved (kind name : string) | BlankCredential (slot : string)
| DeclaredLimits (path : string) | ApprovedLimits (kind name : string) | ExceedsRequest (kind name : string) | ApprovalCeiling
| ApprovedOrigin (name : string) | ApprovedMethods (name : string) | MethodNotDeclared (name method : string)
| MethodRepeated (name method : string) | CallsRequired (name : string) | ProviderRequired (name : string)
| NoModels (kind name : string) | ServiceNotApproved (name service : string) | OneModel (name service : string)
| ServiceMismatch (name service : string) | Coordinates (kind name : string) | InvalidEntry (kind name : string)
| RepeatedModel (kind name : string).

(** The SDK's validators. *)
Class PricingLibs := {
  validPricing : ModelPricing → bool;
  validPolicy : PromptCachePolicy → bool }.

(** ** Coordinates *)

(** Provider and model, each behind its length as a little-endian [uint64]. *)
Definition PricingCoordinate (provider model : string) : string := frame provider +:+ frame model.

(** ** Loops over maps *)

Definition declaredBy {A} (name : A → string) (l : list A) : gmap string A := foldl (λ m d, <[name d := d]> m) ∅ l.

(** [for k, v := range src { ...; dst[k] = f(k, v) }]. *)
Definition buildMap {E A B} (f : string → A → res E B) (src : gmap string A) : res E (gmap string B) :=
  foldM (λ dst kv, b ←? f kv.1 kv.2; Ok (<[kv.1 := b]> dst)) ∅ (map_to_list src).

(** [for k, d := range declared { if d.Required && !have(k) { return err } }]. *)
Definition requireAll {E A} (required : A → bool) (have : string → bool) (e : string → E) (declared : gmap string A) : res E unit :=
  foldM (λ _ kd, refuse (required kd.2 && negb (have kd.1)) (e kd.1)) tt (map_to_list declared).

Definition has {A} (m : gmap string A) (k : string) : bool := bool_decide (is_Some (m !! k)).
Definition orElse (n m : Z) : Z := if (n =? 0)%Z then m else n.

Section Resolve.
Context {ML : ManifestLibs} {PL : PricingLibs}.

Definition resolveCredential (declared : gmap string CredentialDeclaration) (slot credentialID : string) : res resourceErr string :=
  _ ←? refuse (negb (has declared slot)) (NotDeclared "credential" slot);
  _ ←? refuse (blank credentialID) (BlankCredential slot);
  Ok credentialID.

(** One approved file, on the resources and bytes so far. *)
Definition resolveFile (declared : gmap string FileDeclaration) (st : gmap string FileResource * Z) (kv : string * FileApproval)
    : res resourceErr (gmap string FileResource * Z) :=
  let '(files, approved) := st in
  let '(path, binding) := kv in
  match declared !! path with
  | None => Err (NotDeclared "file" path)
  | Some d =>
      match fileLimits (fd_MaxBytes d) (fd_RetainedFiles d) true with
      | None => Err (DeclaredLimits path)
      | Some (requestedMax, requestedRetained) =>
          match fileLimits (fa_MaxBytes binding) (fa_RetainedFiles binding) false with
          | None => Err (ApprovedLimits "file" path)
          | Some (maxBytes, retained) =>
              _ ←? refuse ((requestedMax <? maxBytes)%Z || (requestedRetained <? retained)%Z) (ExceedsRequest "file" path);
              let approved := (approved + maxBytes * (retained + 1))%Z in
              _ ←? refuse (MaxPluginFileTotalBytes <? approved)%Z ApprovalCeiling;
              Ok (<[path := mkFileResource (list_to_set (fd_Operations d)) maxBytes retained]> files, approved)
          end
      end
  end.

(** The Duration of a number of milliseconds, at 64 bits. *)
Definition milliseconds (n : Z) : Z := int_of (n * 1000000)%Z.

Definition resolveEndpoint (declared : gmap string HTTPEndpointDeclaration) (name : string) (binding : HTTPApproval)
    : res resourceErr HTTPResource :=
  match declared !! name with
  | None => Err (NotDeclared "HTTP endpoint" name)
  | Some d =>
      _ ←? refuse (negb (validatePluginHTTPOrigin (ha_Origin binding))) (ApprovedOrigin name);
      _ ←? refuse ((ha_TimeoutMS binding <? 0)%Z || (ha_MaxRequestBytes binding <? 0)%Z || (ha_MaxResponseBytes binding <? 0)%Z
                   || (ha_MaxCallsPerMinute binding <? 0)%Z) (ApprovedLimits "HTTP endpoint" name);
      _ ←? refuse (bool_decide (ha_Methods binding = [])) (ApprovedMethods name);
      methods ←? uniqueLoop id
                   (λ method, refuse (negb (bool_decide (method ∈ he_Methods d))) (MethodNotDeclared name method))
                   (MethodRepeated name) always ∅ (ha_Methods binding);
      let timeout := orElse (orElse (ha_TimeoutMS binding) (he_TimeoutMS d)) 5000 in
      let maxRequest := orElse (orElse (ha_MaxRequestBytes binding) (he_MaxRequestBytes d)) (Z.shiftl 1 20) in
      let maxResponse := orElse (orElse (ha_MaxResponseBytes binding) (he_MaxResponseBytes d)) (Z.shiftl 4 20) in
      let calls := orElse (ha_MaxCallsPerMinute binding) (he_MaxCallsPerMinute d) in
      _ ←? refuse (calls =? 0)%Z (CallsRequired name);
      Ok (mkHTTPResource name (ha_Origin binding) methods (milliseconds timeout) maxRequest maxResponse calls)
  end.

Definition validateModelServicePath (path : string) : bool :=
  HasPrefix path "/" && negb (HasPrefix path "//") && negb (ContainsByte "#"%char path)
  && match ParseRequestURI path with
     | None => false
     | Some u => String.eqb (u_Scheme u) "" && String.eqb (u_Host u) "" && negb (u_User u)
     end.

Definition resolveService (declared : gmap string ModelServiceDeclaration) (name : string) (binding : ModelServiceApproval)
    : res resourceErr ModelServiceResource :=
  match declared !! name with
  | None => Err (NotDeclared "model service" name)
  | Some d =>
      _ ←? refuse (blank (sa_Provider binding)
                   || negb (String.eqb (sa_Path binding) "") && negb (validateModelServicePath (sa_Path binding)))
             (ProviderRequired name);
      _ ←? refuse (negb (serviceLimits (sa_TimeoutMS binding) (sa_MaxTokens binding) (sa_MaxInputBytes binding)
                           (sa_MaxCallsPerMinute binding) (sa_MaxTokensPerHour binding))) (ApprovedLimits "model service" name);
      _ ←? refuse ((md_TimeoutMS d <? sa_TimeoutMS binding) || (md_MaxTokens d <? sa_MaxTokens binding)
                   || (md_MaxInputBytes d <? sa_MaxInputBytes binding) || (md_MaxCallsPerMinute d <? sa_MaxCallsPerMinute binding)
                   || (md_MaxTokensPerHour d <? sa_MaxTokensPerHour binding))%Z (ExceedsRequest "model service" name);
      Ok (mkServiceResource name (sa_Provider binding) (sa_Model binding) (sa_Path binding)
            (milliseconds (sa_TimeoutMS binding)) (sa_MaxTokens binding) (sa_MaxInputBytes binding)
            (sa_MaxCallsPerMinute binding) (sa_MaxTokensPerHour binding))
  end.

(** The loop over the models of a binding: a valid entry under fresh coordinates. *)
Definition addModel {A} (kind name : string) (valid : A → bool) (entries : gmap string A) (x : string * string * A)
    : res resourceErr (gmap string A) :=
  let '(provider, model, entry) := x in
  _ ←? refuse (blank provider || blank model) (Coordinates kind name);
  _ ←? refuse (negb (valid entry)) (InvalidEntry kind name);
  let key := PricingCoordinate provider model in
  _ ←? refuse (has entries key) (RepeatedModel kind name);
  Ok (<[key := entry]> entries).

(** The provider and model a pricing resource is bound to, if it is. *)
Definition boundService (services : gmap string ModelServiceResource) (name : string) (d : PricingDeclaration)
    (models : list PricingModelApproval) : res resourceErr (option (string * string)) :=
  if String.eqb (pd_ForModelService d) "" then Ok None
  else match services !! pd_ForModelService d with
       | None => Err (ServiceNotApproved name (pd_ForModelService d))
       | Some service =>
           match models with
           | [model] =>
               _ ←? refuse (negb (String.eqb (pm_Provider model) "") && negb (String.eqb (pm_Provider model) (sr_Provider service))
                            || negb (String.eqb (pm_Model model) "") && negb (String.eqb (pm_Model model) (sr_Model service)))
                      (ServiceMismatch name (pd_ForModelService d));
               Ok (Some (sr_Provider service, sr_Model service))
           | _ => Err (OneModel name (pd_ForModelService d))
           end
       end.

Definition coordinatesOf (bound : option (string * string)) (model : PricingModelApproval) : string * string * ModelPricing :=
  match bound with
  | Some (p, m) => (p, m, pm_Prices model)
  | None => (pm_Provider model, pm_Model model, pm_Prices model)
  end.

Definition resolvePricing (declared : gmap string PricingDeclaration) (services : gmap string ModelServiceResource)
    (name : string) (models : list PricingModelApproval) : res resourceErr PricingResource :=
  match declared !! name with
  | None => Err (NotDeclared "pricing resource" name)
  | Some d =>
      _ ←? refuse (bool_decide (models = [])) (NoModels "pricing resource" name);
      bound ←? boundService services name d models;
      prices ←? foldM (addModel "pricing resource" name validPricing) ∅ (coordinatesOf bound <$> models);
      Ok (mkPricingResource name (pd_ForModelService d) prices)
  end.

Definition resolvePolicy (declared : gmap string PromptCacheDeclaration) (name : string) (models : list PromptCacheModelApproval)
    : res resourceErr PromptCacheResource :=
  _ ←? refuse (negb (has declared name)) (NotDeclared "prompt cache policy" name);
  _ ←? refuse (bool_decide (models = [])) (NoModels "prompt cache policy" name);
  policies ←? foldM (addModel "prompt cache policy" name validPolicy) ∅
                ((λ m, (cm_Provider m, cm_Model m, cm_Policy m)) <$> models);
  Ok (mkCacheResource name policies).

Definition ResolvePluginResources (m : PluginManifest) (approval : Approval) : res resourceErr PluginResources :=
  let slots := declaredBy cd_Slot (Credentials m) in
  credentials ←? buildMap (resolveCredential slots) (ap_Credentials approval);
  _ ←? requireAll cd_Required (λ slot, negb (String.eqb (default "" (credentials !! slot)) "")) (NotApproved "credential") slots;
  let paths := declaredBy fd_Path (Files m) in
  '(files, _) ←? foldM (resolveFile paths) (∅, 0%Z) (map_to_list (ap_Files approval));
  _ ←? requireAll fd_Required (has files) (NotApproved "file") paths;
  let endpoints := declaredBy he_Name (HTTPEndpoints m) in
  http ←? buildMap (resolveEndpoint endpoints) (ap_HTTPEndpoints approval);
  _ ←? requireAll he_Required (has http) (NotApproved "HTTP endpoint") endpoints;
  let models := declaredBy md_Name (ModelServices m) in
  services ←? buildMap (resolveService models) (ap_ModelServices approval);
  _ ←? requireAll md_Required (has services) (NotApproved "model service") models;
  let pricings := declaredBy pd_Name (PricingResources m) in
  pricing ←? buildMap (resolvePricing pricings services) (ap_PricingResources approval);
  _ ←? requireAll pd_Required (has pricing) (NotApproved "pricing resource") pricings;
  let caches := declaredBy cp_Name (PromptCachePolicies m) in
  policies ←? buildMap (resolvePolicy caches) (ap_PromptCachePolicies approval);
  _ ←? requireAll cp_Required (has policies) (NotApproved "prompt cache policy") caches;
  Ok (mkResources credentials files http services pricing policies).
End Resolve.

(** * What an approval can give

    [resources_within]: the snapshot of resources a plugin receives is within
    both its manifest and the operator's approval.  [coordinate_inj]: the key of
    a price determines provider and model. *)

(** ** Coordinates *)

(** Provider and model can be read back from a coordinate. *)
Lemma coordinate_inj p m p' m' : small (PricingCoordinate p m) →
  PricingCoordinate p m = PricingCoordinate p' m' → p = p' ∧ m = m'.
Proof.
  unfold PricingCoordinate. intros Hs H. destruct (prefix_code p p' (frame m) (frame m') I I Hs H) as [-> H'].
  apply small_app_r in Hs. split; [done|]. apply (prefix_code (enc := frame) m m' "" "" I I); rewrite !app_empty_r; done.
Qed.

(** ** The loops *)

Lemma buildMap_ok {E A B} (f : string → A → res E B) src m : buildMap f src = Ok m →
  (∀ k b, m !! k = Some b → ∃ a, src !! k = Some a ∧ f k a = Ok b) ∧ dom m = dom src.
Proof.
  unfold buildMap. intros H.
  assert ((∀ k b, m !! k = Some b → ∃ a, (k, a) ∈ map_to_list src ∧ f k a = Ok b)
    ∧ ∀ k a, (k, a) ∈ map_to_list src → is_Some (m !! k)) as [H1 H2].
  { revert m H. apply (foldM_ind _ (λ l m, (∀ k b, m !! k = Some b → ∃ a, (k, a) ∈ l ∧ f k a = Ok b)
      ∧ ∀ k a, (k, a) ∈ l → is_Some (m !! k))); [split; [by intros ? ? ?%lookup_empty_Some|by intros ? ? ?%not_elem_of_nil]|].
    intros l m [k a] m' [IH1 IH2] (b & Hb & [= <-])%res_bind_ok. simpl in *. split.
    - intros k' b' [[<- <-]|[Hne Hk]]%lookup_insert_Some; [exists a; set_solver|].
      destruct (IH1 k' b' Hk) as (a' & ? & ?). exists a'. set_solver.
    - intros k' a' [Hin|[= -> ->]%list_elem_of_singleton]%elem_of_app; [|by rewrite lookup_insert_eq].
      destruct (decide (k = k')) as [->|]; [by rewrite lookup_insert_eq|]. rewrite lookup_insert_ne by done. eauto. }
  split; [by intros k b (a & Hin%elem_of_map_to_list & ?)%H1; exists a|].
  apply set_eq. intros k. rewrite !elem_of_dom. split.
  - intros [b (a & Hin%elem_of_map_to_list & _)%H1]. eauto.
  - intros [a Ha%elem_of_map_to_list]. eauto.
Qed.

Lemma requireAll_ok {E A} required have (e : string → E) (declared : gmap string A) :
  requireAll required have e declared = Ok tt → ∀ k d, declared !! k = Some d → required d = true → have k = true.
Proof.
  unfold requireAll. intros H k d Hk%elem_of_map_to_list Hd. revert k d Hk Hd. generalize (map_to_list declared) H. clear H.
  intros l. induction l as [|[k' d'] l IH]; simpl; [by intros _ ? ? ?%not_elem_of_nil|].
  intros ([] & Hr & Hl)%res_bind_ok k d [[= -> ->]|Hin]%elem_of_cons Hd; [|eauto]. simpl in Hr. rewrite Hd in Hr.
  apply refuse_ok in Hr. by destruct (have k').
Qed.

Lemma declaredBy_snoc {A} (name : A → string) l d : declaredBy name (l ++ [d]) = <[name d := d]> (declaredBy name l).
Proof. unfold declaredBy. by rewrite foldl_app. Qed.
Lemma declaredBy_Some {A} (name : A → string) l k d : declaredBy name l !! k = Some d → d ∈ l ∧ name d = k.
Proof.
  induction l as [|x l IH] using rev_ind; [done|]. rewrite declaredBy_snoc.
  intros [[<- <-]|[_ [? ?]%IH]]%lookup_insert_Some; set_solver.
Qed.
Lemma declaredBy_lookup {A} (name : A → string) l d : NoDup (name <$> l) → d ∈ l → declaredBy name l !! name d = Some d.
Proof.
  induction l as [|x l IH] using rev_ind; [by intros _ ?%not_elem_of_nil|]. rewrite fmap_app, declaredBy_snoc.
  intros (Hl & Hx & _)%list.NoDup_app [Hd| ->%list_elem_of_singleton]%elem_of_app; [|by rewrite lookup_insert_eq].
  rewrite lookup_insert_ne; [auto|]. intros Heq. apply (Hx (name d)); [by apply list_elem_of_fmap_2|]. rewrite <- Heq. set_solver.
Qed.
Lemma has_true {A} (m : gmap string A) k : has m k = true ↔ is_Some (m !! k).
Proof. unfold has. apply bool_decide_eq_true. Qed.

(** A required declaration of a valid manifest. *)
Lemma required_there {E A} (name : A → string) required have (e : string → E) l d :
  requireAll required have e (declaredBy name l) = Ok tt → NoDup (name <$> l) → d ∈ l → required d = true → have (name d) = true.
Proof. intros H Hn Hd Hr. eapply requireAll_ok; [done|by apply declaredBy_lookup|done]. Qed.

Section Within.
Context {ML : ManifestLibs} {PL : PricingLibs}.

(** ** The snapshot *)

Definition keptBytes (_ : string) (f : FileResource) : Z := (fr_MaxBytes f * (fr_RetainedFiles f + 1))%Z.

(** A file is one the manifest declares, with the declared operations, under the
    approved limits, which do not exceed those asked for. *)
Definition fileWithin (m : PluginManifest) (a : Approval) (path : string) (f : FileResource) : Prop :=
  ∃ d b asked askedRetained, d ∈ Files m ∧ fd_Path d = path ∧ ap_Files a !! path = Some b
    ∧ f = mkFileResource (list_to_set (fd_Operations d)) (fa_MaxBytes b) (fa_RetainedFiles b)
    ∧ fileLimits (fd_MaxBytes d) (fd_RetainedFiles d) true = Some (asked, askedRetained)
    ∧ (0 < fa_MaxBytes b <= asked)%Z ∧ (0 <= fa_RetainedFiles b <= askedRetained)%Z.

(** An endpoint has the approved origin and methods, which the manifest declares. *)
Definition endpointWithin (m : PluginManifest) (a : Approval) (name : string) (e : HTTPResource) : Prop :=
  ∃ d b, d ∈ HTTPEndpoints m ∧ he_Name d = name ∧ ap_HTTPEndpoints a !! name = Some b
    ∧ hr_Name e = name ∧ hr_Origin e = ha_Origin b ∧ validatePluginHTTPOrigin (hr_Origin e) = true
    ∧ hr_Methods e = list_to_set (ha_Methods b) ∧ hr_Methods e ≠ ∅ ∧ ha_Methods b ⊆ he_Methods d
    ∧ hr_MaxCallsPerMinute e ≠ 0%Z.

(** A model service is the approved one, within the declared limits. *)
Definition serviceWithin (m : PluginManifest) (a : Approval) (name : string) (s : ModelServiceResource) : Prop :=
  ∃ d b, d ∈ ModelServices m ∧ md_Name d = name ∧ ap_ModelServices a !! name = Some b
    ∧ sr_Name s = name ∧ sr_Provider s = sa_Provider b ∧ sr_Model s = sa_Model b ∧ blank (sr_Provider s) = false
    ∧ (0 < sr_Timeout s <= md_TimeoutMS d * 1000000)%Z ∧ (sr_MaxTokens s ≠ 0 ∧ sr_MaxTokens s <= md_MaxTokens d)%Z
    ∧ (0 < sr_MaxInputBytes s <= md_MaxInputBytes d)%Z ∧ (0 < sr_MaxCallsPerMinute s <= md_MaxCallsPerMinute d)%Z
    ∧ (0 < sr_MaxTokensPerHour s <= md_MaxTokensPerHour d)%Z.

Lemma credential_within m a slot id : resolveCredential (declaredBy cd_Slot (Credentials m)) slot id = Ok a →
  a = id ∧ slot ∈ cd_Slot <$> Credentials m ∧ blank id = false.
Proof.
  unfold resolveCredential. rewrite !step_ok, !unit_ok, !refuse_ok, negb_false_iff, has_true.
  intros ([d [Hd <-]%declaredBy_Some] & Hb & [= <-]). split_and!; [done| |done]. by apply list_elem_of_fmap_2.
Qed.

Lemma endpoint_within m a name b e : ap_HTTPEndpoints a !! name = Some b →
  resolveEndpoint (declaredBy he_Name (HTTPEndpoints m)) name b = Ok e → endpointWithin m a name e.
Proof.
  intros Hb. unfold resolveEndpoint. destruct (declaredBy _ _ !! name) as [d|] eqn:Hd; [|done].
  apply declaredBy_Some in Hd as [Hd Hn]. rewrite !step_ok, !unit_ok, !refuse_ok, negb_false_iff, bool_decide_eq_false, res_bind_ok.
  intros (Ho & _ & Hm & methods & Hu & Hr). rewrite step_ok, unit_ok, refuse_ok, Z.eqb_neq in Hr. destruct Hr as [Hc [= <-]].
  apply uniqueLoop_ok in Hu as (_ & Hall & ->). rewrite list_fmap_id, list.Forall_forall in *.
  exists d, b. simpl. rewrite (right_id_L ∅ (∪)). split_and!; try done.
  - destruct (ha_Methods b); [done|]. set_solver.
  - intros x Hx. destruct (Hall x Hx) as (_ & Hr & _). by rewrite refuse_ok, negb_false_iff, bool_decide_eq_true in Hr.
Qed.

Lemma serviceLimits_ok timeout tokens input calls hourly : serviceLimits timeout tokens input calls hourly = true →
  (0 < timeout <= 120000 ∧ tokens ≠ 0 ∧ 0 < input ∧ 0 < calls ∧ 0 < hourly)%Z.
Proof.
  unfold serviceLimits. rewrite negb_true_iff, !orb_false_iff, !Z.leb_gt, !Z.ltb_ge, Z.eqb_neq. lia.
Qed.

Lemma service_within m a name b s : ap_ModelServices a !! name = Some b →
  resolveService (declaredBy md_Name (ModelServices m)) name b = Ok s → serviceWithin m a name s.
Proof.
  intros Hb. unfold resolveService. destruct (declaredBy _ _ !! name) as [d|] eqn:Hd; [|done].
  apply declaredBy_Some in Hd as [Hd Hn].
  rewrite !step_ok, !unit_ok, !refuse_ok, negb_false_iff, !orb_false_iff, !Z.ltb_ge.
  intros ([Hp _] & Hl%serviceLimits_ok & Hx & [= <-]). exists d, b. simpl. unfold milliseconds.
  rewrite int_of_id by (unfold min_int64, max_int64; lia). split_and!; try done; lia.
Qed.

(** The files: each within its declaration, all within the ceiling. *)
Lemma files_within m a l files total :
  (∀ path b, (path, b) ∈ l → ap_Files a !! path = Some b) → NoDup l.*1 →
  foldM (resolveFile (declaredBy fd_Path (Files m))) (∅, 0%Z) l = Ok (files, total) →
  (∀ path f, files !! path = Some f → path ∈ l.*1 ∧ fileWithin m a path f)
  ∧ map_sum keptBytes files = total ∧ (total <= MaxPluginFileTotalBytes)%Z.
Proof.
  intros Hl Hn. revert files total. induction l as [|[path b] l IH] using rev_ind; intros files total.
  { intros [= <- <-]. split_and!; [by intros ? ? ?%lookup_empty_Some|apply map_sum_empty|done]. }
  rewrite fmap_app in Hn. apply list.NoDup_app in Hn as (Hn & Hp & _).
  intros ([files0 total0] & H0 & Hs)%foldM_snoc_ok. destruct (IH ltac:(set_solver) Hn files0 total0 H0) as (I1 & I2 & I3).
  unfold resolveFile in Hs. destruct (declaredBy _ _ !! path) as [d|] eqn:Hd; [|done].
  apply declaredBy_Some in Hd as [Hd Hpath].
  destruct (fileLimits (fd_MaxBytes d) _ _) as [[asked askedRetained]|] eqn:Ea; [|done].
  destruct (fileLimits (fa_MaxBytes b) _ _) as [[maxBytes retained]|] eqn:Eb; [|done].
  assert (maxBytes = fa_MaxBytes b ∧ retained = fa_RetainedFiles b) as [-> ->].
  { unfold fileLimits in Eb. simpl in Eb. repeat case_match; by simplify_eq. }
  pose proof (fileLimits_range _ _ _ _ _ Eb).
  rewrite !step_ok, !unit_ok, !refuse_ok, orb_false_iff, !Z.ltb_ge in Hs. destruct Hs as ([H1 H2] & H3 & [= <- <-]).
  assert (Hfresh : files0 !! path = None).
  { destruct (files0 !! path) as [f|] eqn:Ef; [|done]. destruct (I1 path f Ef) as [Hin _]. exfalso. apply (Hp path Hin). set_solver. }
  split_and!.
  - intros p f [[<- <-]|[_ [Hin Hf]%I1]]%lookup_insert_Some; [|rewrite fmap_app; set_solver].
    split; [rewrite fmap_app; set_solver|]. exists d, b, asked, askedRetained. split_and!; try done; [|lia..].
    apply Hl. set_solver.
  - rewrite map_sum_insert_new by done. unfold keptBytes at 1. simpl. lia.
  - done.
Qed.

(** The prices of a resource: those approved, under the coordinates of its
    entries, or under those of the model service it is bound to. *)
Definition pricingWithin (m : PluginManifest) (a : Approval) (services : gmap string ModelServiceResource)
    (name : string) (p : PricingResource) : Prop :=
  ∃ d models, d ∈ PricingResources m ∧ pd_Name d = name ∧ ap_PricingResources a !! name = Some models ∧ models ≠ []
    ∧ pr_Name p = name ∧ pr_ForModelService p = pd_ForModelService d
    ∧ (∀ key price, pr_Prices p !! key = Some price → validPricing price = true
        ∧ ∃ x, x ∈ models ∧ price = pm_Prices x
          ∧ if String.eqb (pd_ForModelService d) "" then key = PricingCoordinate (pm_Provider x) (pm_Model x)
            else ∃ s, services !! pd_ForModelService d = Some s ∧ key = PricingCoordinate (sr_Provider s) (sr_Model s)).

Lemma addModel_ok {A} kind name (valid : A → bool) l entries :
  foldM (addModel kind name valid) ∅ l = Ok entries →
  ∀ key e, entries !! key = Some e → valid e = true ∧ ∃ p q, (p, q, e) ∈ l ∧ key = PricingCoordinate p q.
Proof.
  revert entries. apply (foldM_ind _ (λ l entries, ∀ key e, entries !! key = Some e →
    valid e = true ∧ ∃ p q, (p, q, e) ∈ l ∧ key = PricingCoordinate p q)); [by intros ? ? ?%lookup_empty_Some|].
  intros l' entries [[p q] x] entries' IH Hs. simpl in Hs. rewrite !step_ok, !unit_ok, !refuse_ok, negb_false_iff in Hs.
  destruct Hs as (_ & Hv & _ & [= <-]). intros key e [[<- <-]|[_ Hk]]%lookup_insert_Some.
  - split; [done|]. exists p, q. set_solver.
  - destruct (IH key e Hk) as [? (p' & q' & ? & ?)]. split; [done|]. exists p', q'. set_solver.
Qed.

Lemma pricing_within m a services name models p : ap_PricingResources a !! name = Some models →
  resolvePricing (declaredBy pd_Name (PricingResources m)) services name models = Ok p → pricingWithin m a services name p.
Proof.
  intros Hb. unfold resolvePricing. destruct (declaredBy _ _ !! name) as [d|] eqn:Hd; [|done].
  apply declaredBy_Some in Hd as [Hd Hn]. rewrite step_ok, unit_ok, refuse_ok, bool_decide_eq_false.
  intros (Hm & (bound & Hbd & (prices & Hp & [= <-])%res_bind_ok)%res_bind_ok).
  exists d, models. simpl. split_and!; try done. intros key price Hk.
  destruct (addModel_ok _ _ _ _ _ Hp key price Hk) as [Hv (pv & md & Hin & ->)]. split; [done|].
  apply list_elem_of_fmap in Hin as (x & Hx & Hin). exists x. split; [done|]. unfold boundService in Hbd.
  destruct (String.eqb (pd_ForModelService d) ""); [injection Hbd as <-; by injection Hx as -> -> ->|].
  destruct (services !! pd_ForModelService d) as [s|]; [|done]. destruct models as [|y [|]]; [done| |done].
  rewrite step_ok in Hbd. destruct Hbd as [_ [= <-]]. injection Hx as -> -> ->. split; [done|]. by exists s.
Qed.

(** A policy is one of the approved ones, valid, under its own coordinates. *)
Definition policyWithin (m : PluginManifest) (a : Approval) (name : string) (p : PromptCacheResource) : Prop :=
  ∃ models, name ∈ cp_Name <$> PromptCachePolicies m ∧ ap_PromptCachePolicies a !! name = Some models ∧ models ≠ []
    ∧ cr_Name p = name
    ∧ (∀ key e, cr_Policies p !! key = Some e → validPolicy e = true
        ∧ ∃ x, x ∈ models ∧ e = cm_Policy x ∧ key = PricingCoordinate (cm_Provider x) (cm_Model x)).

Lemma policy_within m a name models p : ap_PromptCachePolicies a !! name = Some models →
  resolvePolicy (declaredBy cp_Name (PromptCachePolicies m)) name models = Ok p → policyWithin m a name p.
Proof.
  intros Hb. unfold resolvePolicy. rewrite !step_ok, !unit_ok, !refuse_ok, negb_false_iff, has_true, bool_decide_eq_false.
  intros ([d [Hd <-]%declaredBy_Some] & Hm & (policies & Hp & [= <-])%res_bind_ok).
  exists models. split_and!; try done; [by apply list_elem_of_fmap_2|]. intros key e Hk.
  destruct (addModel_ok _ _ _ _ _ Hp key e Hk) as [Hv (pv & md & Hin & ->)]. split; [done|].
  apply list_elem_of_fmap in Hin as (x & [= -> -> ->] & Hin). by exists x.
Qed.

Record snapshotWithin (m : PluginManifest) (a : Approval) (r : PluginResources) : Prop := {
  within_credentials : ∀ slot id, res_Credentials r !! slot = Some id →
    slot ∈ cd_Slot <$> Credentials m ∧ ap_Credentials a !! slot = Some id ∧ blank id = false;
  within_files : map_Forall (fileWithin m a) (res_Files r);
  within_storage : (map_sum keptBytes (res_Files r) <= MaxPluginFileTotalBytes)%Z;
  within_http : map_Forall (endpointWithin m a) (res_HTTP r);
  within_services : map_Forall (serviceWithin m a) (res_ModelServices r);
  within_pricing : map_Forall (pricingWithin m a (res_ModelServices r)) (res_Pricing r);
  within_policies : map_Forall (policyWithin m a) (res_Policies r) }.

(** Nothing the manifest requires is missing. *)
Record requiredPresent (m : PluginManifest) (r : PluginResources) : Prop := {
  present_credentials : ∀ d, d ∈ Credentials m → cd_Required d = true → is_Some (res_Credentials r !! cd_Slot d);
  present_files : ∀ d, d ∈ Files m → fd_Required d = true → is_Some (res_Files r !! fd_Path d);
  present_http : ∀ d, d ∈ HTTPEndpoints m → he_Required d = true → is_Some (res_HTTP r !! he_Name d);
  present_services : ∀ d, d ∈ ModelServices m → md_Required d = true → is_Some (res_ModelServices r !! md_Name d);
  present_pricing : ∀ d, d ∈ PricingResources m → pd_Required d = true → is_Some (res_Pricing r !! pd_Name d);
  present_policies : ∀ d, d ∈ PromptCachePolicies m → cp_Required d = true → is_Some (res_Policies r !! cp_Name d) }.

Lemma buildMap_all {E A B} (f : string → A → res E B) (P : string → B → Prop) src m : buildMap f src = Ok m →
  (∀ k a b, src !! k = Some a → f k a = Ok b → P k b) → map_Forall P m.
Proof. intros [H _]%buildMap_ok HP k b (a & ? & ?)%H. eauto. Qed.

(** The resources a plugin with a valid manifest receives are within both
    the manifest and the operator's approval: only declared and approved ones,
    with the declared operations and methods, limits that do not exceed those
    asked for, and file storage under the ceiling; and everything the manifest
    requires is there. *)
Theorem resources_within m a r : validateManifest m = Ok tt → ResolvePluginResources m a = Ok r →
  snapshotWithin m a r ∧ requiredPresent m r.
Proof.
  intros [_ _ _ _ _ _ [[[N1 _] _] (_ & N2 & _) [[N3 _] _] [[N4 _] _] [[N5 _] _] [[N6 _] _]] _ _]%manifest_exact.
  unfold ResolvePluginResources. rewrite res_bind_ok. intros (creds & Hc & H). rewrite step_ok, unit_ok, res_bind_ok in H.
  destruct H as (Rc & [files total] & Hf & H). rewrite step_ok, unit_ok, res_bind_ok in H.
  destruct H as (Rf & http & Hh & H). rewrite step_ok, unit_ok, res_bind_ok in H.
  destruct H as (Rh & services & Hs & H). rewrite step_ok, unit_ok, res_bind_ok in H.
  destruct H as (Rs & pricing & Hp & H). rewrite step_ok, unit_ok, res_bind_ok in H.
  destruct H as (Rp & policies & Ho & H). rewrite step_ok, unit_ok in H. destruct H as (Ro & [= <-]).
  destruct (files_within m a (map_to_list (ap_Files a)) files total) as (F1 & F2 & F3); [|apply NoDup_fst_map_to_list|done|].
  { intros path b. apply elem_of_map_to_list. }
  split; split; simpl.
  - intros slot id Hid. destruct (buildMap_ok _ _ _ Hc) as [Hb _]. destruct (Hb slot id Hid) as (id' & Ha & Hr).
    destruct (credential_within m _ _ _ Hr) as (-> & ? & ?). done.
  - intros path f [_ ?]%F1. done.
  - lia.
  - eapply buildMap_all; [exact Hh|]. intros k b e. apply endpoint_within.
  - eapply buildMap_all; [exact Hs|]. intros k b e. apply service_within.
  - eapply buildMap_all; [exact Hp|]. intros k b e. apply pricing_within.
  - eapply buildMap_all; [exact Ho|]. intros k b e. apply policy_within.
  - intros d Hd Hr. pose proof (required_there _ _ _ _ _ d Rc N1 Hd Hr) as Hx. simpl in Hx.
    destruct (creds !! cd_Slot d); [eauto|done].
  - intros d Hd Hr. apply has_true. by apply (required_there _ _ _ _ _ d Rf).
  - intros d Hd Hr. apply has_true. by apply (required_there _ _ _ _ _ d Rh).
  - intros d Hd Hr. apply has_true. by apply (required_there _ _ _ _ _ d Rs).
  - intros d Hd Hr. apply has_true. by apply (required_there _ _ _ _ _ d Rp).
  - intros d Hd Hr. apply has_true. by apply (required_there _ _ _ _ _ d Ro).
Qed.
End Within.
