(* ===== verification/PipelineBuild.v ===== *)
(** * Building a plugin pipeline

    [reloadPipeline] of internal/plugin/discovery.go: from the bundles found on
    disk and the operator's configuration to the plugins that run, the order of
    each hook and the plugins that were skipped.

    Reading the plugin directory and compiling a module are parameters: the
    bundles are an argument, and class [Guests] tells which modules compile and
    export the hooks they declare.  The runtime is the set of plugin names it
    has published; when an error is returned the caller closes it. *)

From stdpp Require Import base list strings gmap sets numbers.
From S2P Require Import Prelude ByteStrings PluginManifest PluginResources.

(** ** Data *)

(** An agent descriptor is carried along and not inspected here. *)
Record PluginBundle (Agent : Type) := mkBundle {
  b_Manifest : PluginManifest; b_WASMBytes : string; b_Digest : string; b_Agent : option Agent }.
Arguments mkBundle {Agent}.
Arguments b_Manifest {Agent}.
Arguments b_WASMBytes {Agent}.
Arguments b_Digest {Agent}.
Arguments b_Agent {Agent}.

Record PluginConfig := mkPluginConfig {
  Order : list string;
  HookOrder : gmap string (list string);
  Config : gmap string string;
  Approvals : gmap string Approval;
  HostVersion : string;
  AllowUnapproved : bool;
  Strict : bool }.

(** A loaded plugin, with what was set on its runtime handle. *)
Record LoadedPlugin (Agent : Type) := mkLoaded {
  l_manifest : PluginManifest; l_digest : string; l_agent : option Agent; l_failureMode : string;
  l_grants : list string; l_resources : PluginResources; l_config : string }.
Arguments mkLoaded {Agent}.
Arguments l_manifest {Agent}.
Arguments l_digest {Agent}.
Arguments l_agent {Agent}.
Arguments l_failureMode {Agent}.
Arguments l_grants {Agent}.
Arguments l_resources {Agent}.
Arguments l_config {Agent}.

Record SkippedPlugin := mkSkipped { sk_Name : string; sk_Digest : string; sk_Reason : string }.

Record Pipeline (Agent : Type) := mkPipeline {
  plugins : list (LoadedPlugin Agent);
  beforePlugins : list (LoadedPlugin Agent);
  afterPlugins : list (LoadedPlugin Agent);
  streamPlugins : list (LoadedPlugin Agent);
  tickPlugins : list (LoadedPlugin Agent);
  skipped : list SkippedPlugin }.
Arguments mkPipeline {Agent}.
Arguments plugins {Agent}.
Arguments beforePlugins {Agent}.
Arguments afterPlugins {Agent}.
Arguments streamPlugins {Agent}.
Arguments tickPlugins {Agent}.
Arguments skipped {Agent}.

Inductive buildErr :=
| DuplicateOrder (name : string) | MissingPlugin (name : string) | InvalidManifest (name : string) (e : manifestErr)
| Incompatible (name : string) (e : manifestErr) | InvalidApproval (name reason : string)
| UpstreamNotApproved (name id : string) | UpstreamNotLoaded (name id : string)
| RouteAfterGate (name : string) | WriteAfterGate (name : string) | Conflict (name other : string)
| HookUnsupported (hook : string) | HookDuplicate (hook name : string) | HookNotEnabled (hook name : string)
| HookMissingPlugin (hook name : string) | HookNotDeclared (hook name : string) | HookIncomplete (hook name : string)
| HookCount (hook : string) | HookUpstream (hook name id : string)
| InvalidResources (name : string) (e : resourceErr) | LoadFailed (name : string) | HookValidation (name : string).

(** The WASM engine and the SDK's hook vocabulary. *)
Class Guests := {
  compiles : string → bool;
  knownHook : string → bool;
  exports : string → list string → bool }.

Definition hasHook (m : PluginManifest) (hook : string) : bool := bool_decide (hook ∈ Hooks m).

(** ** Approvals *)

Definition defaultFileApprovals (m : PluginManifest) : gmap string FileApproval :=
  foldl (λ out d, match fileLimits (fd_MaxBytes d) (fd_RetainedFiles d) true with
                  | None => out
                  | Some (maxBytes, retained) => <[fd_Path d := mkFileApproval maxBytes retained]> out
                  end) ∅ (Files m).

Definition defaultHTTPApprovals (m : PluginManifest) : gmap string HTTPApproval :=
  foldl (λ out d, if String.eqb (he_Origin d) "" then out
                  else <[he_Name d := mkHTTPApproval (he_Origin d) (he_Methods d) (he_TimeoutMS d) (he_MaxRequestBytes d)
                                        (he_MaxResponseBytes d) (he_MaxCallsPerMinute d)]> out) ∅ (HTTPEndpoints m).

Section Build.
Context {ML : ManifestLibs} {PL : PricingLibs} {G : Guests} {Agent : Type}.
Local Abbreviation bundle := (PluginBundle Agent).
Local Abbreviation loadedPlugin := (LoadedPlugin Agent).

(** The first of the keys that is not empty and has an approval. *)
Fixpoint firstApproval (approvals : gmap string Approval) (keys : list string) : option Approval :=
  match keys with
  | [] => None
  | key :: keys =>
      match (if String.eqb key "" then None else approvals !! key) with
      | Some approval => Some approval
      | None => firstApproval approvals keys
      end
  end.

Definition approvalFor (c : PluginConfig) (b : bundle) : option Approval :=
  let m := b_Manifest b in
  if AllowUnapproved c then
    Some (mkApproval (b_Digest b) (Permissions m) (FailureMode m) ∅ (defaultFileApprovals m) (defaultHTTPApprovals m) ∅ ∅ ∅)
  else firstApproval (Approvals c) [ManifestID m; ManifestName m].

Definition effectiveMode (approved declared : string) : string :=
  let mode := if String.eqb approved "" then declared else approved in
  if String.eqb mode "" then "pass" else mode.

(** The grants and the failure mode. *)
Definition validateApproval (b : bundle) (approval : Approval) : res string (list string * string) :=
  let requested := Permissions (b_Manifest b) in
  _ ←? refuse (String.eqb (ap_Digest approval) "" || negb (String.eqb (ap_Digest approval) (b_Digest b))) "digest mismatch";
  _ ←? refuse (negb (forallb (λ p, bool_decide (p ∈ requested)) (ap_Permissions approval))) "permission was not requested";
  _ ←? refuse (negb (forallb (λ p, bool_decide (p ∈ ap_Permissions approval)) requested)) "permission was not approved";
  let mode := effectiveMode (ap_FailureMode approval) (FailureMode (b_Manifest b)) in
  _ ←? refuse (negb (String.eqb mode "pass") && negb (String.eqb mode "block")) "failure_mode must be pass or block";
  Ok (ap_Permissions approval, mode).

Definition ValidateBundleApproval (b : bundle) (approval : Approval) : res (string + resourceErr) unit :=
  _ ←? map_err inl (validateApproval b approval);
  _ ←? map_err inr (ResolvePluginResources (b_Manifest b) approval);
  Ok tt.

(** ** Constraints on the order *)

Definition routes (grants : list string) : bool := bool_decide ("env.route_request" ∈ grants).
Definition writesResults (grants : list string) : bool := bool_decide ("ir.tool_results.write" ∈ grants).
Definition gates (grants : list string) : bool := bool_decide ("env.host_call.torana_evaluate_compaction" ∈ grants).

(** What a plugin may not do behind a compaction gate. *)
Definition behindGate (name : string) (grants : list string) : option buildErr :=
  if routes grants then Some (RouteAfterGate name)
  else if writesResults grants && negb (gates grants) then Some (WriteAfterGate name)
  else None.

Fixpoint upstream (e : string → buildErr) (have : gset string) (required : list string) : res buildErr unit :=
  match required with
  | [] => Ok tt
  | id :: required => _ ←? refuse (negb (bool_decide (id ∈ have))) (e id); upstream e have required
  end.

Definition validateActivePluginConflicts (active : list bundle) : res buildErr unit :=
  let byID : gmap string bundle := foldl (λ m b, <[ManifestID (b_Manifest b) := b]> m) ∅ active in
  foldM (λ _ b,
      foldM (λ _ id, match byID !! id with
                     | None => Ok tt
                     | Some other => Err (Conflict (ManifestName (b_Manifest b)) (ManifestName (b_Manifest other)))
                     end) tt (ConflictsWith (b_Manifest b))) tt active.

Definition orderedMultiPluginHooks : list string :=
  ["run_before_request"; "run_after_response"; "run_on_stream_chunk"; "run_on_tick"].
Definition supportedOrderedHook (name : string) : bool := bool_decide (name ∈ orderedMultiPluginHooks).

Definition declares (byName : gmap string bundle) (hook name : string) : bool :=
  match byName !! name with Some b => hasHook (b_Manifest b) hook | None => false end.

(** The manifest of a name; the zero manifest of Go's map is never reached. *)
Definition idOf (byName : gmap string bundle) (name : string) : string :=
  from_option (λ b, ManifestID (b_Manifest b)) "" (byName !! name).
Definition requiresOf (byName : gmap string bundle) (name : string) : list string :=
  from_option (λ b, RequiresUpstream (b_Manifest b)) [] (byName !! name).

(** The last position of each plugin ID. *)
Fixpoint indexByID (byName : gmap string bundle) (i : nat) (order : list string) (index : gmap string nat) : gmap string nat :=
  match order with
  | [] => index
  | name :: order => indexByID byName (S i) order (<[idOf byName name := i]> index)
  end.

(** [requires_upstream] within one hook. *)
Definition upstreamInHook (hook : string) (index : gmap string nat) (i : nat) (name : string) (required : list string)
    : res buildErr unit :=
  foldM (λ _ id, match index !! id with
                 | Some j => refuse (bool_decide (i ≤ j)) (HookUpstream hook name id)
                 | None => Ok tt
                 end) tt required.
Fixpoint upstreamLoop (byName : gmap string bundle) (hook : string) (index : gmap string nat) (i : nat) (order : list string)
    : res buildErr unit :=
  match order with
  | [] => Ok tt
  | name :: order =>
      _ ←? upstreamInHook hook index i name (requiresOf byName name);
      upstreamLoop byName hook index (S i) order
  end.

(** One override: an exact permutation of the enabled plugins with the hook. *)
Definition validateHookOrder (c : PluginConfig) (byName : gmap string bundle) (hook : string) (order : list string)
    : res buildErr unit :=
  let expected := filter (λ name, declares byName hook name = true) (Order c) in
  seen ←? uniqueLoop id always (HookDuplicate hook)
            (λ name,
               _ ←? refuse (negb (bool_decide (name ∈ Order c))) (HookNotEnabled hook name);
               match byName !! name with
               | None => Err (HookMissingPlugin hook name)
               | Some b => refuse (negb (hasHook (b_Manifest b) hook)) (HookNotDeclared hook name)
               end) ∅ order;
  _ ←? foldM (λ _ name, refuse (negb (bool_decide (name ∈ seen))) (HookIncomplete hook name)) tt expected;
  _ ←? refuse (negb (size seen =? size (list_to_set expected : gset string))%nat) (HookCount hook);
  upstreamLoop byName hook (indexByID byName 0 order ∅) 0 order.

Definition validateHookOrders (c : PluginConfig) (byName : gmap string bundle) : res buildErr unit :=
  match sort_Strings (filter (λ hook, supportedOrderedHook hook = false) (map_to_list (HookOrder c)).*1) with
  | hook :: _ => Err (HookUnsupported hook)
  | [] =>
      foldM (λ _ hook, match HookOrder c !! hook with
                       | None => Ok tt
                       | Some order => validateHookOrder c byName hook order
                       end) tt orderedMultiPluginHooks
  end.

(** The grants of a name that is present, approved and validly so. *)
Definition approvedGrants (c : PluginConfig) (byName : gmap string bundle) (name : string) : option (list string) :=
  b ← byName !! name; a ← approvalFor c b;
  match validateApproval b a with Ok (grants, _) => Some grants | Err _ => None end.

Fixpoint economicLoop (c : PluginConfig) (byName : gmap string bundle) (seen : bool) (order : list string) : res buildErr unit :=
  match order with
  | [] => Ok tt
  | name :: order =>
      match approvedGrants c byName name with
      | None => economicLoop c byName seen order
      | Some grants =>
          match (if seen then behindGate name grants else None) with
          | Some e => Err e
          | None => economicLoop c byName (seen || gates grants) order
          end
      end
  end.

Definition validateBeforeHookEconomicOrder (c : PluginConfig) (byName : gmap string bundle) : res buildErr unit :=
  match HookOrder c !! "run_before_request" with
  | None => Ok tt
  | Some order => economicLoop c byName false order
  end.

(** The last plugin of a name, as the map is built. *)
Definition loadedByName (loaded : list loadedPlugin) : gmap string loadedPlugin :=
  foldl (λ m lp, <[ManifestName (l_manifest lp) := lp]> m) ∅ loaded.

Definition loadedPluginsForHook (loaded : list loadedPlugin) (overrides : gmap string (list string)) (hook : string)
    : list loadedPlugin :=
  match overrides !! hook with
  | Some order => omap (λ name, loadedByName loaded !! name) order
  | None => filter (λ lp, hasHook (l_manifest lp) hook = true) loaded
  end.

(** ** The first pass *)

Record Checked := mkChecked {
  ck_gate : bool; ck_error : option buildErr; ck_approved : gset string; ck_active : list bundle }.

(** [continue], or an error in strict mode. *)
Definition lenient {S} (c : PluginConfig) (e : buildErr) (s : S) : res buildErr S := if Strict c then Err e else Ok s.

Definition checkEnabled (c : PluginConfig) (byName : gmap string bundle) (st : Checked) (name : string) : res buildErr Checked :=
  match byName !! name with
  | None => lenient c (MissingPlugin name) st
  | Some b =>
      let m := b_Manifest b in
      _ ←? (if AllowUnapproved c then Ok tt
            else _ ←? map_err (InvalidManifest name) (validateManifest m);
                 map_err (Incompatible name) (validateHostCompatibility m (HostVersion c)));
      match approvalFor c b with
      | None => Ok st
      | Some approval =>
          match validateApproval b approval with
          | Err reason => lenient c (InvalidApproval name reason) st
          | Ok (grants, _) =>
              _ ←? (if AllowUnapproved c then Ok tt
                    else upstream (UpstreamNotApproved name) (ck_approved st) (RequiresUpstream m));
              let error := match ck_error st with
                           | Some e => Some e
                           | None => if ck_gate st then behindGate name grants else None
                           end in
              Ok (mkChecked (ck_gate st || gates grants) error
                    (if AllowUnapproved c then ck_approved st else {[ManifestID m]} ∪ ck_approved st)
                    (ck_active st ++ [b]))
          end
      end
  end.

(** ** The second pass *)

Record Loading := mkLoading {
  ld_loaded : list loadedPlugin; ld_skipped : list SkippedPlugin; ld_upstream : gset string; ld_published : gset string }.

Definition servedAgent (b : bundle) (grants : list string) : option Agent :=
  if bool_decide ("env.serve_http" ∈ grants) then b_Agent b else None.

Definition loadPlugin (c : PluginConfig) (byName : gmap string bundle) (st : Loading) (name : string) : res buildErr Loading :=
  match byName !! name with
  | None => lenient c (MissingPlugin name) st
  | Some b =>
      let m := b_Manifest b in
      match approvalFor c b with
      | None => Ok (mkLoading (ld_loaded st)
                      (ld_skipped st ++ [mkSkipped name (b_Digest b) "no operator approval for this bundle digest"])
                      (ld_upstream st) (ld_published st))
      | Some approval =>
          _ ←? (if AllowUnapproved c then Ok tt
                else upstream (UpstreamNotLoaded name) (ld_upstream st) (RequiresUpstream m));
          match validateApproval b approval with
          | Err reason => lenient c (InvalidApproval name reason) st
          | Ok (grants, failureMode) =>
              match ResolvePluginResources m approval with
              | Err e => lenient c (InvalidResources name e) st
              | Ok resources =>
                  if bool_decide (name ∈ ld_published st) || negb (compiles (b_WASMBytes b)) then
                    lenient c (LoadFailed name) st
                  else
                    let published := {[name]} ∪ ld_published st in
                    if negb (forallb knownHook (Hooks m)) || negb (exports (b_WASMBytes b) (Hooks m)) then
                      lenient c (HookValidation name)
                        (mkLoading (ld_loaded st) (ld_skipped st) (ld_upstream st) (published ∖ {[name]}))
                    else
                      let lp := mkLoaded m (b_Digest b) (servedAgent b grants) failureMode grants resources
                                  (default "" (Config c !! name)) in
                      Ok (mkLoading (ld_loaded st ++ [lp]) (ld_skipped st)
                            (if AllowUnapproved c then ld_upstream st else {[ManifestID m]} ∪ ld_upstream st) published)
              end
          end
      end
  end.

(** ** The pipeline *)

Definition byNameOf (bundles : list bundle) : gmap string bundle :=
  foldl (λ m b, <[ManifestName (b_Manifest b) := b]> m) ∅ bundles.

Definition pipelineOf (c : PluginConfig) (loaded : list loadedPlugin) (skipped : list SkippedPlugin) : Pipeline Agent :=
  let dispatch := loadedPluginsForHook loaded (HookOrder c) in
  mkPipeline loaded (dispatch "run_before_request") (dispatch "run_after_response") (dispatch "run_on_stream_chunk")
    (dispatch "run_on_tick") skipped.

(** The pipeline, and the plugins published in its runtime. *)
Definition reloadPipeline (bundles : list bundle) (c : PluginConfig) : res buildErr (Pipeline Agent * gset string) :=
  let byName := byNameOf bundles in
  _ ←? uniqueLoop id always DuplicateOrder always ∅ (Order c);
  checked ←? foldM (checkEnabled c byName) (mkChecked false None ∅ []) (Order c);
  _ ←? validateActivePluginConflicts (ck_active checked);
  _ ←? match ck_error checked with Some e => Err e | None => Ok tt end;
  _ ←? validateHookOrders c byName;
  _ ←? validateBeforeHookEconomicOrder c byName;
  loading ←? foldM (loadPlugin c byName) (mkLoading [] [] ∅ ∅) (Order c);
  Ok (pipelineOf c (ld_loaded loading) (ld_skipped loading), ld_published loading).
End Build.
