(* ===== verification/PipelineBuildProofs.v ===== *)
(** * What a built pipeline guarantees

    [pipeline_sound]: the plugins of a pipeline are enabled, approved for their
    exact bundle and within that approval, after everything they require, free of
    conflicts, and no routing or rewriting plugin runs behind a compaction gate.
    [hook_lists_exact]: each hook runs exactly the loaded plugins that declare it,
    in the order configured for it. *)

From stdpp Require Import base list strings gmap sets numbers sorting.
From S2P Require Import Prelude ByteStrings PluginManifest PluginResources PipelineBuild.

(** ** Orders *)

(** What may follow a plugin with these grants. *)
Definition mayFollow (before after : list string) : Prop :=
  gates before = true → routes after = false ∧ (writesResults after = true → gates after = true).
Abbreviation gateOrdered := (StronglySorted mayFollow).

Lemma behindGate_none name grants : behindGate name grants = None →
  routes grants = false ∧ (writesResults grants = true → gates grants = true).
Proof. unfold behindGate. destruct (routes grants), (writesResults grants), (gates grants); naive_solver. Qed.

Lemma gateOrdered_snoc l x : gateOrdered l →
  (existsb gates l = true → routes x = false ∧ (writesResults x = true → gates x = true)) → gateOrdered (l ++ [x]).
Proof.
  intros Hl Hx. apply StronglySorted_app. split_and!; [|done|by repeat constructor].
  intros y z Hy ->%list_elem_of_singleton Hg. apply Hx. apply existsb_exists. exists y. by rewrite <- list_elem_of_In.
Qed.

Lemma sublist_sorted {A} (R : A → A → Prop) l k : l `sublist_of` k → StronglySorted R k → StronglySorted R l.
Proof.
  induction 1 as [|x l k Hs IH|x l k Hs IH]; intros Hk; [constructor| |]; apply StronglySorted_inv in Hk as [Hk Hx]; [|auto].
  constructor; [auto|]. rewrite !list.Forall_forall in *. intros y Hy. apply Hx. by eapply elem_of_sublist.
Qed.

Lemma sublist_map {A B} (f : A → B) l k : l `sublist_of` k → (f <$> l) `sublist_of` (f <$> k).
Proof. induction 1; simpl; by constructor. Qed.

Section Build.
Context {ML : ManifestLibs} {PL : PricingLibs} {G : Guests} {Agent : Type}.
Local Abbreviation bundle := (PluginBundle Agent).
Local Abbreviation loadedPlugin := (LoadedPlugin Agent).
Context (c : PluginConfig) (bundles : list bundle).
Local Abbreviation byName := (byNameOf bundles).
Local Abbreviation nameOf := (λ lp : loadedPlugin, ManifestName (l_manifest lp)).
Local Abbreviation idOfPlugin := (λ lp : loadedPlugin, ManifestID (l_manifest lp)).

Lemma byName_name name (b : bundle) : byName !! name = Some b → ManifestName (b_Manifest b) = name ∧ b ∈ bundles.
Proof.
  unfold byNameOf. induction bundles as [|x l IH] using rev_ind; [done|]. rewrite foldl_app. simpl.
  intros [[<- <-]|[_ [? ?]%IH]]%lookup_insert_Some; set_solver.
Qed.

(** ** The first pass *)

Definition activeAt (name : string) : option bundle :=
  b ← byName !! name; match approvedGrants c byName name with Some _ => Some b | None => None end.

Record checkedOk (names : list string) (st : Checked (Agent := Agent)) : Prop := {
  checked_active : ck_active st = omap activeAt names;
  checked_gate : ck_gate st = existsb gates (omap (approvedGrants c byName) names);
  checked_order : ck_error st = None → gateOrdered (omap (approvedGrants c byName) names);
  checked_manifests : AllowUnapproved c = false → ∀ name b, name ∈ names → byName !! name = Some b →
    manifestOk (b_Manifest b) ∧ validateHostCompatibility (b_Manifest b) (HostVersion c) = Ok tt }.

Lemma lenient_ok {S} e (s s' : S) : lenient c e s = Ok s' → s' = s.
Proof. unfold lenient. destruct (Strict c); [done|]. by intros [= <-]. Qed.

Lemma manifests_snoc (b : bundle) names name : byName !! name = Some b →
  (if AllowUnapproved c then Ok tt
   else _ ←? map_err (InvalidManifest name) (validateManifest (b_Manifest b));
        map_err (Incompatible name) (validateHostCompatibility (b_Manifest b) (HostVersion c))) = Ok tt →
  (AllowUnapproved c = false → ∀ n b, n ∈ names → byName !! n = Some b →
     manifestOk (b_Manifest b) ∧ validateHostCompatibility (b_Manifest b) (HostVersion c) = Ok tt) →
  AllowUnapproved c = false → ∀ n b, n ∈ names ++ [name] → byName !! n = Some b →
    manifestOk (b_Manifest b) ∧ validateHostCompatibility (b_Manifest b) (HostVersion c) = Ok tt.
Proof.
  intros Hb Hc IH Ha n b' [Hn| ->%list_elem_of_singleton]%elem_of_app Hb'; [by apply (IH Ha n)|]. simplify_eq.
  rewrite Ha, step_ok, unit_ok in Hc. destruct Hc as [H1%map_err_ok H2%map_err_ok]. by apply manifest_exact in H1.
Qed.

Lemma check_step names st name st' : checkedOk names st → checkEnabled c byName st name = Ok st' →
  checkedOk (names ++ [name]) st'.
Proof.
  intros [I1 I2 I3 I4] Hs. unfold checkEnabled in Hs.
  destruct (byName !! name) as [b|] eqn:Eb.
  2:{ apply lenient_ok in Hs as ->.
      assert (activeAt name = None ∧ approvedGrants c byName name = None) as [Hn Hn'].
      { unfold activeAt, approvedGrants. by rewrite Eb. }
      split; rewrite ?omap_app; simpl; rewrite ?Hn, ?Hn', ?(right_id_L [] (++)); try done.
      intros Ha n b' [Hn1| ->%list_elem_of_singleton]%elem_of_app Hb'; [by apply (I4 Ha n)|congruence]. }
  apply step_ok in Hs as [[[] Hm] Hs]. pose proof (manifests_snoc b names name Eb Hm I4) as Hman.
  assert (Hskip : approvedGrants c byName name = None → checkedOk (names ++ [name]) st).
  { intros Hn. assert (activeAt name = None) as Hn' by (unfold activeAt; by rewrite Eb, Hn).
    split; rewrite ?omap_app; simpl; rewrite ?Hn, ?Hn', ?(right_id_L [] (++)); done. }
  destruct (approvalFor c b) as [a|] eqn:Ea.
  2:{ injection Hs as <-. apply Hskip. unfold approvedGrants. by rewrite Eb; simpl; rewrite Ea. }
  destruct (validateApproval b a) as [[grants mode]|] eqn:Ev.
  2:{ apply lenient_ok in Hs as ->. apply Hskip. unfold approvedGrants. by rewrite Eb; simpl; rewrite Ea; simpl; rewrite Ev. }
  apply step_ok in Hs as [_ [= <-]].
  assert (approvedGrants c byName name = Some grants) as Hg by (unfold approvedGrants; by rewrite Eb; simpl; rewrite Ea; simpl; rewrite Ev).
  assert (activeAt name = Some b) as Hb by (unfold activeAt; by rewrite Eb, Hg).
  split; rewrite ?omap_app; simpl; rewrite ?Hg, ?Hb; simpl; try done.
  - by rewrite I1.
  - rewrite existsb_app, I2. simpl. by rewrite orb_false_r.
  - intros He. destruct (ck_error st) as [e|]; [done|]. apply gateOrdered_snoc; [auto|]. rewrite <- I2. intros Hgate.
    rewrite Hgate in He. by eapply behindGate_none.
Qed.

Lemma check_pass names st : foldM (checkEnabled c byName) (mkChecked false None ∅ []) names = Ok st → checkedOk names st.
Proof.
  revert names st. apply foldM_ind; [|intros; by eapply check_step].
  split; simpl; try done; [by intros _; constructor|]. by intros _ ? ? ?%not_elem_of_nil.
Qed.

(** ** The second pass *)

(** A plugin stands for the bundle of its name, approved for its digest. *)
Record standsFor (lp : loadedPlugin) : Prop := {
  stands_bundle : ∃ b a, byName !! ManifestName (l_manifest lp) = Some b ∧ approvalFor c b = Some a
    ∧ l_manifest lp = b_Manifest b ∧ l_digest lp = b_Digest b
    ∧ validateApproval b a = Ok (l_grants lp, l_failureMode lp)
    ∧ ResolvePluginResources (b_Manifest b) a = Ok (l_resources lp)
    ∧ l_agent lp = servedAgent b (l_grants lp)
    ∧ compiles (b_WASMBytes b) = true ∧ exports (b_WASMBytes b) (Hooks (b_Manifest b)) = true
    ∧ forallb knownHook (Hooks (b_Manifest b)) = true }.

(** A plugin that can be loaded: its bundle is present, its approval is valid, its
    resources resolve, its code compiles, and its hooks are known and exported. *)
Definition loadable (name : string) : Prop :=
  ∃ b a g r, byName !! name = Some b ∧ approvalFor c b = Some a ∧ validateApproval b a = Ok g
    ∧ ResolvePluginResources (b_Manifest b) a = Ok r ∧ compiles (b_WASMBytes b) = true
    ∧ exports (b_WASMBytes b) (Hooks (b_Manifest b)) = true ∧ forallb knownHook (Hooks (b_Manifest b)) = true.

Lemma stands_loadable lp : standsFor lp → loadable (nameOf lp).
Proof. intros [(b & a & H1 & H2 & H3 & H4 & H5 & H6 & H7 & H8 & H9 & H10)]. by exists b, a, (l_grants lp, l_failureMode lp), (l_resources lp). Qed.

(** Everything a plugin requires comes before it. *)
Inductive upstreamMet : list loadedPlugin → Prop :=
| met_nil : upstreamMet []
| met_snoc l lp : upstreamMet l → RequiresUpstream (l_manifest lp) ⊆ idOfPlugin <$> l → upstreamMet (l ++ [lp]).

Definition skippedAt (name : string) : option SkippedPlugin :=
  b ← byName !! name;
  match approvalFor c b with
  | None => Some (mkSkipped name (b_Digest b) "no operator approval for this bundle digest")
  | Some _ => None
  end.

Record loadingOk (names : list string) (st : Loading (Agent := Agent)) : Prop := {
  loading_sub : (nameOf <$> ld_loaded st) `sublist_of` names;
  loading_stands : Forall standsFor (ld_loaded st);
  loading_upstream : AllowUnapproved c = false →
    upstreamMet (ld_loaded st) ∧ ld_upstream st = list_to_set (idOfPlugin <$> ld_loaded st);
  loading_published : ld_published st = list_to_set (nameOf <$> ld_loaded st);
  loading_skipped : ld_skipped st = omap skippedAt names;
  loading_complete : ∀ name, name ∈ names → loadable name → name ∈ nameOf <$> ld_loaded st;
  loading_strict : Strict c = true → ∀ name, name ∈ names → name ∈ nameOf <$> ld_loaded st ∨ is_Some (skippedAt name) }.

Lemma upstream_ok e have required : upstream e have required = Ok tt → ∀ id, id ∈ required → id ∈ have.
Proof.
  induction required as [|id required IH]; simpl; [by intros _ ? ?%not_elem_of_nil|].
  rewrite step_ok, unit_ok, refuse_ok, negb_false_iff, bool_decide_eq_true. intros [H1 H2] id' [->|?]%elem_of_cons; auto.
Qed.

Lemma elem_of_snoc (names : list string) name x : x ∈ names ++ [name] → x ∈ names ∨ x = name.
Proof. rewrite elem_of_app, list_elem_of_singleton. tauto. Qed.

Lemma loading_skip names st e name s' : loadingOk names st → skippedAt name = None →
  (loadable name → name ∈ nameOf <$> ld_loaded st) → lenient c e st = Ok s' → loadingOk (names ++ [name]) s'.
Proof.
  intros [I1 I2 I3 I4 I5 I6 I7] Hn Hl Hs. assert (Strict c = false) as Hx by (revert Hs; unfold lenient; by destruct (Strict c)).
  apply lenient_ok in Hs as ->. split; try done.
  - by apply sublist_inserts_r.
  - rewrite omap_app. simpl. by rewrite Hn, (right_id_L [] (++)).
  - intros x [Hin| ->]%elem_of_snoc; auto.
  - by rewrite Hx.
Qed.

Lemma unpublish (name : string) (published : gset string) : name ∉ published → ({[name]} ∪ published) ∖ {[name]} = published.
Proof. set_solver. Qed.

Lemma load_step names st name st' : loadingOk names st → loadPlugin c byName st name = Ok st' →
  loadingOk (names ++ [name]) st'.
Proof.
  intros I Hs. pose proof I as [I1 I2 I3 I4 I5 I6 I7]. unfold loadPlugin in Hs. destruct (byName !! name) as [b|] eqn:Eb.
  2:{ refine (loading_skip _ _ _ _ _ I _ _ Hs); [unfold skippedAt; by rewrite Eb|]. intros (? & ? & ? & ? & ? & _). congruence. }
  destruct (approvalFor c b) as [a|] eqn:Ea.
  2:{ assert (Hn : skippedAt name = Some (mkSkipped name (b_Digest b) "no operator approval for this bundle digest"))
        by (unfold skippedAt; by rewrite Eb; simpl; rewrite Ea).
      injection Hs as <-. split; simpl; try done; [by apply sublist_inserts_r|rewrite omap_app, I5; simpl; by rewrite Hn|..].
      - intros x [Hin| ->]%elem_of_snoc; [auto|]. intros (? & ? & ? & ? & ? & ? & _). congruence.
      - intros Hx x [Hin| ->]%elem_of_snoc; [auto|]. rewrite Hn. right. by eexists. }
  assert (Hn : skippedAt name = None) by (unfold skippedAt; by rewrite Eb; simpl; rewrite Ea).
  assert (Hload : loadable name → ∃ g r, validateApproval b a = Ok g ∧ ResolvePluginResources (b_Manifest b) a = Ok r
    ∧ compiles (b_WASMBytes b) = true ∧ exports (b_WASMBytes b) (Hooks (b_Manifest b)) = true ∧ forallb knownHook (Hooks (b_Manifest b)) = true).
  { intros (b' & a' & g & r & H1 & H2 & H3). simplify_eq. by exists g, r. }
  apply step_ok in Hs as [[[] Hu] Hs].
  destruct (validateApproval b a) as [[grants mode]|] eqn:Ev.
  2:{ refine (loading_skip _ _ _ _ _ I Hn _ Hs). intros (? & ? & ? & _)%Hload. done. }
  destruct (ResolvePluginResources _ a) as [resources|] eqn:Er.
  2:{ refine (loading_skip _ _ _ _ _ I Hn _ Hs). intros (? & ? & _ & ? & _)%Hload. done. }
  destruct (bool_decide (name ∈ ld_published st)) eqn:Ep; simpl in Hs.
  { refine (loading_skip _ _ _ _ _ I Hn _ Hs). intros _. apply bool_decide_eq_true in Ep. rewrite I4 in Ep. by apply elem_of_list_to_set in Ep. }
  destruct (compiles (b_WASMBytes b)) eqn:Ec; simpl in Hs.
  2:{ refine (loading_skip _ _ _ _ _ I Hn _ Hs). intros (? & ? & _ & _ & ? & _)%Hload. done. }
  apply bool_decide_eq_false in Ep. destruct (_ || _) eqn:Eh.
  { refine (loading_skip _ _ _ _ _ _ Hn _ Hs); [split; simpl; try done; by rewrite <- I4, unpublish|].
    intros (? & ? & _ & _ & _ & Hx & Hk)%Hload. by rewrite Hx, Hk in Eh. }
  apply orb_false_iff in Eh as [Ek%negb_false_iff Eh%negb_false_iff]. injection Hs as <-.
  destruct (byName_name name b Eb) as [Hname _].
  split; simpl.
  - rewrite fmap_app. simpl. rewrite Hname. by apply sublist_app.
  - apply Forall_app. split; [done|]. apply list.Forall_singleton. split. simpl. rewrite Hname. by exists b, a.
  - intros Ha. rewrite Ha in *. destruct (I3 eq_refl) as [Hm Hs]. split.
    + constructor; [done|]. simpl. intros id Hid. apply (upstream_ok _ _ _ Hu) in Hid. rewrite Hs in Hid. set_solver.
    + rewrite fmap_app, Hs. set_solver.
  - rewrite fmap_app, I4. simpl. rewrite Hname. set_solver.
  - rewrite omap_app, I5. simpl. by rewrite Hn, (right_id_L [] (++)).
  - intros x [Hin| ->]%elem_of_snoc Hx; rewrite fmap_app, elem_of_app; [left; auto|]. right. simpl. rewrite Hname. by apply list_elem_of_singleton.
  - intros Hstrict x [Hin| ->]%elem_of_snoc; rewrite fmap_app, elem_of_app; [destruct (I7 Hstrict x Hin); auto|].
    left. right. simpl. rewrite Hname. by apply list_elem_of_singleton.
Qed.

Lemma load_pass names st : foldM (loadPlugin c byName) (mkLoading [] [] ∅ ∅) names = Ok st → loadingOk names st.
Proof.
  revert names st. apply foldM_ind; [|intros; by eapply load_step].
  split; simpl; try done; [intros _; split; [constructor|done]|..]; intros; set_solver.
Qed.

Lemma loaded_nodup names st : loadingOk names st → NoDup names → NoDup (nameOf <$> ld_loaded st).
Proof. intros [H _ _ _ _ _ _] Hn. by eapply sublist_NoDup. Qed.

(** ** Conflicts *)

Lemma foldM_unit {E A} (f : A → res E unit) l : foldM (λ _ x, f x) tt l = Ok tt ↔ Forall (λ x, f x = Ok tt) l.
Proof.
  induction l as [|x l IH]; simpl; [done|]. rewrite list.Forall_cons, <- IH. destruct (f x) as [[]|]; naive_solver.
Qed.

Lemma byID_some (active : list bundle) b : b ∈ active →
  is_Some ((foldl (λ m b, <[ManifestID (b_Manifest b) := b]> m) ∅ active : gmap string bundle) !! ManifestID (b_Manifest b)).
Proof.
  induction active as [|x l IH] using rev_ind; [by intros ?%not_elem_of_nil|]. rewrite foldl_app. simpl.
  intros [Hb%IH| ->%list_elem_of_singleton]%elem_of_app; [|by rewrite lookup_insert_eq].
  destruct (decide (ManifestID (b_Manifest x) = ManifestID (b_Manifest b))) as [->|]; [by rewrite lookup_insert_eq|].
  by rewrite lookup_insert_ne.
Qed.

Lemma conflicts_ok (active : list bundle) : validateActivePluginConflicts active = Ok tt →
  ∀ b b', b ∈ active → b' ∈ active → ManifestID (b_Manifest b') ∉ ConflictsWith (b_Manifest b).
Proof.
  unfold validateActivePluginConflicts. rewrite foldM_unit, list.Forall_forall. intros H b b' Hb Hb' Hin.
  specialize (H b Hb). simpl in H. rewrite foldM_unit, list.Forall_forall in H. specialize (H _ Hin). simpl in H.
  destruct (byID_some active b' Hb') as [x Hx]. by rewrite Hx in H.
Qed.

(** ** Hook orders *)

Record hookOrderOk (hook : string) (order : list string) : Prop := {
  order_nodup : NoDup order;
  order_members : ∀ name, name ∈ order ↔ name ∈ Order c ∧ declares byName hook name = true;
  order_upstream : ∀ i j name name', order !! i = Some name → order !! j = Some name' →
    idOf byName name' ∈ requiresOf byName name → j < i }.

Lemma indexByID_mono i order index id n : index !! id = Some n → n ≤ i →
  ∃ n', indexByID byName i order index !! id = Some n' ∧ n ≤ n'.
Proof.
  revert i index n; induction order as [|name order IH]; intros i index n Hn Hle; simpl; [eauto|].
  destruct (decide (idOf byName name = id)) as [<-|Hne].
  - destruct (IH (S i) (<[idOf byName name := i]> index) i) as (n' & ? & ?); [by rewrite lookup_insert_eq|lia|].
    exists n'. split; [done|lia].
  - apply (IH (S i) _ n); [by rewrite lookup_insert_ne|lia].
Qed.

Lemma indexByID_last i order index j name : order !! j = Some name →
  ∃ n, indexByID byName i order index !! idOf byName name = Some n ∧ i + j ≤ n.
Proof.
  revert i index j; induction order as [|x order IH]; intros i index [|j] Hj; simplify_eq/=.
  - destruct (indexByID_mono (S i) order (<[idOf byName name := i]> index) (idOf byName name) i) as (n & ? & ?);
      [by rewrite lookup_insert_eq|lia|]. exists n. split; [done|lia].
  - destruct (IH (S i) (<[idOf byName x := i]> index) j Hj) as (n & ? & ?). exists n. split; [done|lia].
Qed.

Lemma upstreamLoop_ok hook index k order : upstreamLoop byName hook index k order = Ok tt →
  ∀ i name id n, order !! i = Some name → id ∈ requiresOf byName name → index !! id = Some n → n < k + i.
Proof.
  revert k; induction order as [|x order IH]; intros k; simpl; [done|]. rewrite step_ok, unit_ok. intros [H1 H2] [|i] name id n Hi Hid Hn.
  - injection Hi as <-. unfold upstreamInHook in H1. rewrite foldM_unit, list.Forall_forall in H1. specialize (H1 id Hid). simpl in H1.
    rewrite Hn, refuse_ok, bool_decide_eq_false in H1. lia.
  - specialize (IH (S k) H2 i name id n Hi Hid Hn). lia.
Qed.

Lemma hookOrder_ok hook order : validateHookOrder c byName hook order = Ok tt → hookOrderOk hook order.
Proof.
  unfold validateHookOrder. rewrite res_bind_ok. intros (seen & Hs & H).
  rewrite !step_ok, !unit_ok, foldM_unit, list.Forall_forall in H. destruct H as (Hexp & _ & Hup).
  apply uniqueLoop_ok in Hs as (Hd & Hall & ->). rewrite list_fmap_id, list.Forall_forall in *.
  split; [done| |].
  - intros name. split.
    + intros Hin. destruct (Hall name Hin) as (_ & _ & Ha). rewrite step_ok, unit_ok, refuse_ok, negb_false_iff, bool_decide_eq_true in Ha.
      destruct Ha as [? Hh]. split; [done|]. unfold declares. destruct (byName !! name); [|done].
      by rewrite refuse_ok, negb_false_iff in Hh.
    + intros [Hin Hdec]. assert (Hin' : name ∈ filter (λ name, declares byName hook name = true) (Order c)).
      { by apply list_elem_of_filter. }
      specialize (Hexp name Hin'). rewrite refuse_ok, negb_false_iff, bool_decide_eq_true in Hexp. set_solver.
  - intros i j name name' Hi Hj Hid. destruct (indexByID_last 0 order ∅ j name' Hj) as (n & Hn & Hle).
    pose proof (upstreamLoop_ok _ _ _ _ Hup i name _ n Hi Hid Hn). lia.
Qed.

Lemma hookOrders_ok : validateHookOrders c byName = Ok tt → ∀ hook order, HookOrder c !! hook = Some order →
  hook ∈ orderedMultiPluginHooks ∧ hookOrderOk hook order.
Proof.
  unfold validateHookOrders. destruct (sort_Strings _) as [|x l] eqn:E; [|done].
  rewrite foldM_unit, list.Forall_forall. intros H hook order Hh.
  assert (Hin : hook ∈ orderedMultiPluginHooks).
  { destruct (supportedOrderedHook hook) eqn:Es; [by apply bool_decide_eq_true in Es|exfalso].
    assert (Hf : hook ∈ filter (λ hook, supportedOrderedHook hook = false) (map_to_list (HookOrder c)).*1).
    { apply list_elem_of_filter. split; [done|]. apply (list_elem_of_fmap_2 fst _ (hook, order)). by apply elem_of_map_to_list. }
    rewrite <- (sort_Strings_perm _), E in Hf. by apply not_elem_of_nil in Hf. }
  split; [done|]. specialize (H hook Hin). simpl in H. rewrite Hh in H. by apply hookOrder_ok.
Qed.

Lemma economicLoop_ok seen order : economicLoop c byName seen order = Ok tt →
  gateOrdered (omap (approvedGrants c byName) order)
  ∧ (seen = true → Forall (λ g, routes g = false ∧ (writesResults g = true → gates g = true)) (omap (approvedGrants c byName) order)).
Proof.
  revert seen; induction order as [|name order IH]; intros seen; simpl; [by repeat constructor|].
  destruct (approvedGrants c byName name) as [g|]; [|apply IH].
  destruct (if seen then _ else _) as [e|] eqn:E; [done|]. intros [H1 H2]%IH. split.
  - constructor; [done|]. destruct (gates g) eqn:Eg.
    + apply (list.Forall_impl _ _ _ (H2 (orb_true_r seen))). by intros x Hx _.
    + apply list.Forall_true. intros x. unfold mayFollow. by rewrite Eg.
  - intros ->. constructor; [by eapply behindGate_none|]. auto.
Qed.

(** ** The pipeline *)

Lemma reload_inv pp published : reloadPipeline bundles c = Ok (pp, published) →
  ∃ checked loading, NoDup (Order c) ∧ checkedOk (Order c) checked ∧ loadingOk (Order c) loading
    ∧ (∀ b b', b ∈ ck_active checked → b' ∈ ck_active checked → ManifestID (b_Manifest b') ∉ ConflictsWith (b_Manifest b))
    ∧ gateOrdered (omap (approvedGrants c byName) (Order c))
    ∧ (∀ hook order, HookOrder c !! hook = Some order → hook ∈ orderedMultiPluginHooks ∧ hookOrderOk hook order)
    ∧ (∀ order, HookOrder c !! "run_before_request" = Some order → gateOrdered (omap (approvedGrants c byName) order))
    ∧ pp = pipelineOf c (ld_loaded loading) (ld_skipped loading) ∧ published = ld_published loading.
Proof.
  unfold reloadPipeline. rewrite step_ok, uniqueLoop_new, list_fmap_id, res_bind_ok.
  intros ([Hn _] & checked & Hc & H). rewrite !step_ok, !unit_ok in H.
  destruct H as (Hconf & He & Hh & Hb & (loading & Hl & [= <- <-])%res_bind_ok).
  apply check_pass in Hc. apply load_pass in Hl. exists checked, loading. split_and!; try done.
  - by apply conflicts_ok.
  - apply Hc. by destruct (ck_error checked).
  - by apply hookOrders_ok.
  - intros order Ho. unfold validateBeforeHookEconomicOrder in Hb. rewrite Ho in Hb. by apply economicLoop_ok in Hb as [? _].
Qed.

(** An approval of the operator for exactly this bundle. *)
Record approvedFor (lp : loadedPlugin) : Prop := {
  approved_bundle : ∃ b a, b ∈ bundles ∧ approvalFor c b = Some a ∧ l_manifest lp = b_Manifest b ∧ l_digest lp = b_Digest b
    ∧ ap_Digest a = l_digest lp ∧ l_digest lp ≠ "" ∧ l_grants lp = ap_Permissions a
    ∧ ResolvePluginResources (l_manifest lp) a = Ok (l_resources lp)
    ∧ (AllowUnapproved c = false → Approvals c !! ManifestID (l_manifest lp) = Some a ∨ Approvals c !! ManifestName (l_manifest lp) = Some a);
  approved_grants : ∀ p, p ∈ l_grants lp ↔ p ∈ Permissions (l_manifest lp);
  approved_mode : l_failureMode lp ∈ ["pass"; "block"];
  approved_agent : is_Some (l_agent lp) → "env.serve_http" ∈ l_grants lp;
  approved_manifest : AllowUnapproved c = false →
    manifestOk (l_manifest lp) ∧ validateHostCompatibility (l_manifest lp) (HostVersion c) = Ok tt }.

Lemma firstApproval_some approvals keys a : firstApproval approvals keys = Some a → ∃ key, key ∈ keys ∧ approvals !! key = Some a.
Proof.
  induction keys as [|key keys IH]; simpl; [done|]. destruct (String.eqb key ""); simpl.
  - intros (k & ? & ?)%IH. exists k. set_solver.
  - destruct (approvals !! key) as [a'|] eqn:E; [intros [= <-]; exists key; set_solver|]. intros (k & ? & ?)%IH. exists k. set_solver.
Qed.

Lemma validateApproval_ok (b : bundle) a grants mode : validateApproval b a = Ok (grants, mode) →
  ap_Digest a = b_Digest b ∧ b_Digest b ≠ "" ∧ grants = ap_Permissions a ∧ (∀ p, p ∈ grants ↔ p ∈ Permissions (b_Manifest b))
  ∧ mode ∈ ["pass"; "block"].
Proof.
  unfold validateApproval. rewrite !step_ok, !unit_ok, !refuse_ok, orb_false_iff, !negb_false_iff, andb_false_iff, !negb_false_iff,
    !String.eqb_eq, String.eqb_neq, !forallb_forall.
  intros ([Hd Heq] & H1 & H2 & Hm & [= <- <-]). split_and!; [done|congruence|done| |set_solver].
  intros p. split; intros Hp; [apply list_elem_of_In in Hp; apply H1 in Hp|apply list_elem_of_In in Hp; apply H2 in Hp];
    by apply bool_decide_eq_true in Hp.
Qed.

Lemma stands_approved checked loading lp : checkedOk (Order c) checked → loadingOk (Order c) loading → lp ∈ ld_loaded loading →
  approvedFor lp ∧ ManifestName (l_manifest lp) ∈ Order c ∧ approvedGrants c byName (ManifestName (l_manifest lp)) = Some (l_grants lp).
Proof.
  intros Hck [Hsub Hst _ _ _] Hin. rewrite list.Forall_forall in Hst.
  destruct (Hst lp Hin) as [(b & a & Hb & Ha & Hm & Hd & Hv & Hr & Hag & _ & _)].
  assert (Ho : ManifestName (l_manifest lp) ∈ Order c) by (eapply elem_of_sublist; [by apply (list_elem_of_fmap_2 nameOf)|done]).
  destruct (validateApproval_ok _ _ _ _ Hv) as (H1 & H2 & H3 & H4 & H5). destruct (byName_name _ _ Hb) as [_ Hbun].
  split_and!; [|done|unfold approvedGrants; by rewrite Hb; simpl; rewrite Ha; simpl; rewrite Hv].
  split.
  - exists b, a. rewrite Hm, Hd. split_and!; try done. intros Hun. unfold approvalFor in Ha. rewrite Hun in Ha.
    apply firstApproval_some in Ha as (key & Hk & Ha). set_solver.
  - by rewrite Hm.
  - done.
  - rewrite Hag. unfold servedAgent. case_bool_decide; [done|by intros [? ?]].
  - intros Hun. rewrite Hm. by apply (checked_manifests _ _ Hck Hun _ _ Ho).
Qed.

Lemma upstreamMet_index l i lp id : upstreamMet l → l !! i = Some lp → id ∈ RequiresUpstream (l_manifest lp) →
  ∃ j q, j < i ∧ l !! j = Some q ∧ ManifestID (l_manifest q) = id.
Proof.
  induction 1 as [|l x Hl IH Hx]; [done|]. intros Hi Hid. apply lookup_app_Some in Hi as [Hi|[Hle Hi]].
  - destruct (IH Hi Hid) as (j & q & ? & ? & ?). exists j, q. split_and!; [done|by apply lookup_app_l_Some|done].
  - apply list_lookup_singleton_Some in Hi as [Hi <-]. apply Hx, list_elem_of_fmap in Hid as (q & -> & Hq).
    apply list_elem_of_lookup in Hq as [j Hj]. pose proof (lookup_lt_Some _ _ _ Hj). exists j, q.
    split_and!; [lia|by apply lookup_app_l_Some|done].
Qed.

(** Grants in an order that the loaded plugins follow. *)
Lemma grants_sublist (l : list loadedPlugin) order :
  Forall (λ lp, approvedGrants c byName (ManifestName (l_manifest lp)) = Some (l_grants lp)) l →
  (nameOf <$> l) `sublist_of` order → (l_grants <$> l) `sublist_of` omap (approvedGrants c byName) order.
Proof.
  intros Hl. revert l Hl. induction order as [|name order IH]; intros l Hl Hs; simpl.
  - apply sublist_nil_r, fmap_nil_inv in Hs as ->. constructor.
  - apply sublist_cons_r in Hs as [Hs|(l' & Heq & Hs)].
    + specialize (IH l Hl Hs). destruct (approvedGrants c byName name); [by constructor|done].
    + destruct l as [|lp l]; [done|]. injection Heq as <- <-. apply list.Forall_cons in Hl as [Hlp Hl].
      rewrite Hlp. simpl. constructor. auto.
Qed.

(** ** Dispatch *)

Lemma loadedByName_spec (loaded : list loadedPlugin) name lp : NoDup (nameOf <$> loaded) →
  loadedByName loaded !! name = Some lp ↔ lp ∈ loaded ∧ ManifestName (l_manifest lp) = name.
Proof.
  unfold loadedByName. induction loaded as [|x l IH] using rev_ind; [set_solver|]. rewrite foldl_app, fmap_app. simpl.
  intros (Hl & Hx & _)%list.NoDup_app. rewrite lookup_insert_Some, (IH Hl), elem_of_app, list_elem_of_singleton. split.
  - naive_solver.
  - intros [[Hin| ->] <-]; [right|by left]. split; [|done]. intros Heq. apply (Hx (ManifestName (l_manifest lp))).
    + by apply (list_elem_of_fmap_2 nameOf).
    + rewrite <- Heq. set_solver.
Qed.

(** An override runs the loaded plugins it names, in its order. *)
Lemma omap_names (loaded : list loadedPlugin) order : NoDup (nameOf <$> loaded) →
  (nameOf <$> omap (λ name, loadedByName loaded !! name) order) `sublist_of` order.
Proof.
  intros Hn. induction order as [|name order IH]; simpl; [constructor|].
  destruct (loadedByName loaded !! name) as [lp|] eqn:E; simpl; [|by constructor].
  apply loadedByName_spec in E as [_ ->]; [|done]. by constructor.
Qed.

Lemma dispatch_names (loaded : list loadedPlugin) hook : NoDup (nameOf <$> loaded) →
  (nameOf <$> loadedPluginsForHook loaded (HookOrder c) hook) `sublist_of`
  default (nameOf <$> loaded) (HookOrder c !! hook).
Proof.
  intros Hn. unfold loadedPluginsForHook. destruct (HookOrder c !! hook) as [order|]; simpl; [by apply omap_names|].
  apply sublist_map, sublist_filter.
Qed.

Lemma dispatch_exact checked loading hook : checkedOk (Order c) checked → loadingOk (Order c) loading → NoDup (Order c) →
  (∀ order, HookOrder c !! hook = Some order → hookOrderOk hook order) →
  loadedPluginsForHook (ld_loaded loading) (HookOrder c) hook
  ≡ₚ filter (λ lp, hasHook (l_manifest lp) hook = true) (ld_loaded loading).
Proof.
  intros Hck Hld Hn Ho. assert (Hnl : NoDup (nameOf <$> ld_loaded loading)) by by eapply loaded_nodup.
  assert (Hnn : NoDup (ld_loaded loading)) by by eapply NoDup_fmap_1.
  unfold loadedPluginsForHook. destruct (HookOrder c !! hook) as [order|]; [|done]. specialize (Ho order eq_refl) as [O1 O2 _].
  apply NoDup_Permutation.
  - apply (NoDup_fmap_1 nameOf). by eapply sublist_NoDup; [|apply omap_names].
  - by apply NoDup_filter.
  - intros lp. rewrite list_elem_of_omap, list_elem_of_filter. setoid_rewrite loadedByName_spec; [|done]. split.
    + intros (name & Hin & Hlp & <-). split; [|done]. apply O2 in Hin as [_ Hd]. unfold declares in Hd.
      destruct (proj1 (list.Forall_forall _ _) (loading_stands _ _ Hld) lp Hlp) as [(b & a & Hb & _ & Hm & _)].
      rewrite Hb in Hd. by rewrite Hm.
    + intros [Hh Hlp]. exists (ManifestName (l_manifest lp)). split_and!; [|done|done]. apply O2.
      destruct (stands_approved _ _ _ Hck Hld Hlp) as (_ & Hin & _). split; [done|]. unfold declares.
      destruct (proj1 (list.Forall_forall _ _) (loading_stands _ _ Hld) lp Hlp) as [(b & a & Hb & _ & Hm & _)].
      by rewrite Hb, <- Hm.
Qed.

Lemma gate_dispatch checked loading hook : checkedOk (Order c) checked → loadingOk (Order c) loading → NoDup (Order c) →
  gateOrdered (omap (approvedGrants c byName) (Order c)) →
  (∀ order, HookOrder c !! hook = Some order → gateOrdered (omap (approvedGrants c byName) order)) →
  gateOrdered (l_grants <$> loadedPluginsForHook (ld_loaded loading) (HookOrder c) hook).
Proof.
  intros Hck Hld Hn Hg Hh. assert (Hnl : NoDup (nameOf <$> ld_loaded loading)) by by eapply loaded_nodup.
  assert (Hall : ∀ l : list loadedPlugin, l ⊆ ld_loaded loading →
    Forall (λ lp, approvedGrants c byName (ManifestName (l_manifest lp)) = Some (l_grants lp)) l).
  { intros l Hl. apply list.Forall_forall. intros lp Hlp. by destruct (stands_approved _ _ lp Hck Hld (Hl lp Hlp)) as (_ & _ & ?). }
  pose proof (dispatch_names (ld_loaded loading) hook Hnl) as Hs.
  assert (Hsub : loadedPluginsForHook (ld_loaded loading) (HookOrder c) hook ⊆ ld_loaded loading).
  { unfold loadedPluginsForHook. destruct (HookOrder c !! hook) as [order|].
    - intros lp (name & _ & [? _]%loadedByName_spec)%list_elem_of_omap; done.
    - intros lp [_ ?]%list_elem_of_filter. done. }
  destruct (HookOrder c !! hook) as [order|] eqn:E; simpl in Hs.
  - eapply sublist_sorted; [by apply grants_sublist; [apply Hall|]|]. auto.
  - eapply sublist_sorted; [apply grants_sublist; [by apply Hall|]|exact Hg]. etrans; [exact Hs|apply Hld].
Qed.

(** C25. The plugins of a pipeline that was built are distinct enabled ones in
    the configured order; each runs under an approval for its exact bundle, with
    exactly the permissions it requested, the approved resources and a valid
    manifest; everything it requires is loaded before it; no two conflict; no
    plugin that routes or rewrites tool results follows a compaction gate, also
    in the before-request order.  Nothing else is left out: an enabled plugin is
    loaded exactly when it is [loadable] (present, with a valid approval and
    resources, compiling, its hooks known and exported).  The skipped plugins are
    those present without an approval, and only those; in strict mode every enabled
    plugin is loaded or skipped.  The runtime holds the loaded plugins and no other. *)
Theorem pipeline_sound pp published : reloadPipeline bundles c = Ok (pp, published) →
  ((nameOf <$> plugins pp) `sublist_of` Order c ∧ NoDup (nameOf <$> plugins pp))
  ∧ Forall approvedFor (plugins pp)
  ∧ (AllowUnapproved c = false → ∀ i lp id, plugins pp !! i = Some lp → id ∈ RequiresUpstream (l_manifest lp) →
       ∃ j q, j < i ∧ plugins pp !! j = Some q ∧ ManifestID (l_manifest q) = id)
  ∧ (∀ p q, p ∈ plugins pp → q ∈ plugins pp → ManifestID (l_manifest q) ∉ ConflictsWith (l_manifest p))
  ∧ gateOrdered (l_grants <$> plugins pp) ∧ gateOrdered (l_grants <$> beforePlugins pp)
  ∧ (∀ name, name ∈ Order c → name ∈ nameOf <$> plugins pp ↔ loadable name)
  ∧ skipped pp = omap skippedAt (Order c)
  ∧ (Strict c = true → ∀ name, name ∈ Order c → name ∈ nameOf <$> plugins pp ∨ is_Some (skippedAt name))
  ∧ published = list_to_set (nameOf <$> plugins pp).
Proof.
  intros (checked & loading & Hn & Hck & Hld & Hconf & Hg & _ & Hb & -> & ->)%reload_inv. simpl.
  assert (Hst : ∀ lp, lp ∈ ld_loaded loading → _) by (intros lp; exact (stands_approved checked loading lp Hck Hld)).
  split_and!; [apply Hld|by eapply loaded_nodup| | | | | | |apply Hld|apply Hld|apply Hld].
  - apply list.Forall_forall. intros lp Hlp. apply (Hst lp Hlp).
  - intros Hun i lp id. apply upstreamMet_index. by apply (loading_upstream _ _ Hld).
  - intros p q Hp Hq.
    assert (Hact : ∀ lp, lp ∈ ld_loaded loading → ∃ b, b ∈ ck_active checked ∧ l_manifest lp = b_Manifest b).
    { intros lp Hlp. destruct (Hst lp Hlp) as (_ & Hin & Hag).
      destruct (proj1 (list.Forall_forall _ _) (loading_stands _ _ Hld) lp Hlp) as [(b & a & Hb' & _ & Hm & _)].
      exists b. split; [|done]. rewrite (checked_active _ _ Hck), list_elem_of_omap. exists (ManifestName (l_manifest lp)).
      split; [done|]. unfold activeAt. by rewrite Hb', Hag. }
    destruct (Hact p Hp) as (b & Hbin & ->), (Hact q Hq) as (b' & Hbin' & ->). auto.
  - eapply sublist_sorted; [|exact Hg]. apply grants_sublist; [|apply Hld]. apply list.Forall_forall. intros lp Hlp. apply (Hst lp Hlp).
  - by eapply gate_dispatch.
  - intros name Hin. split; [|by apply Hld]. intros (lp & -> & Hlp)%list_elem_of_fmap.
    by apply stands_loadable, (proj1 (list.Forall_forall _ _) (loading_stands _ _ Hld)).
Qed.

Definition dispatchOf (pp : Pipeline Agent) (hook : string) : list loadedPlugin :=
  if String.eqb hook "run_before_request" then beforePlugins pp
  else if String.eqb hook "run_after_response" then afterPlugins pp
  else if String.eqb hook "run_on_stream_chunk" then streamPlugins pp
  else tickPlugins pp.

(** Each hook runs exactly the loaded plugins that declare it: in the order
    of the pipeline, or in the order configured for the hook, in which a plugin
    comes after every plugin of the order it requires. *)
Theorem hook_lists_exact pp published hook : reloadPipeline bundles c = Ok (pp, published) → hook ∈ orderedMultiPluginHooks →
  dispatchOf pp hook ≡ₚ filter (λ lp, hasHook (l_manifest lp) hook = true) (plugins pp)
  ∧ match HookOrder c !! hook with
    | None => dispatchOf pp hook = filter (λ lp, hasHook (l_manifest lp) hook = true) (plugins pp)
    | Some order => (nameOf <$> dispatchOf pp hook) `sublist_of` order
        ∧ (∀ i j name name', order !! i = Some name → order !! j = Some name' →
             idOf byName name' ∈ requiresOf byName name → j < i)
    end.
Proof.
  intros (checked & loading & Hn & Hck & Hld & _ & _ & Hh & _ & -> & _)%reload_inv Hin.
  assert (Hnl : NoDup (nameOf <$> ld_loaded loading)) by by eapply loaded_nodup.
  assert (dispatchOf (pipelineOf c (ld_loaded loading) (ld_skipped loading)) hook
    = loadedPluginsForHook (ld_loaded loading) (HookOrder c) hook) as ->.
  { unfold orderedMultiPluginHooks in Hin. unfold dispatchOf. rewrite !elem_of_cons in Hin.
    destruct Hin as [->|[->|[->|[->|?%not_elem_of_nil]]]]; done. }
  split.
  - eapply dispatch_exact; [done..|]. intros order Ho. by apply Hh.
  - pose proof (dispatch_names (ld_loaded loading) hook Hnl) as Hs. destruct (HookOrder c !! hook) as [order|] eqn:E; simpl in Hs.
    + split; [done|]. by apply (Hh hook order E).
    + unfold loadedPluginsForHook. by rewrite E.
Qed.
End Build.

(** * A small pipeline

    Two plugins, a router and a compaction gate that requires it, under
    operator approvals and with an order for the tick hook. *)

#[local] Instance smallLibs : ManifestLibs := {|
  SDKHooks := orderedMultiPluginHooks;
  SDKPermissions := ["env.route_request"; "env.host_call.torana_evaluate_compaction"; "env.file_append"; "env.credential_get"];
  semverIsValid v := HasPrefix v "v";
  semverCompare _ _ := 0%Z;
  IsPseudoVersion _ := false;
  ParseURL _ := None;
  ParseRequestURI _ := None;
  literalLoopback _ := false;
  ToUpper s := s |}.
#[local] Instance smallPricing : PricingLibs := {| validPricing _ := true; validPolicy _ := true |}.
#[local] Instance smallGuests : Guests := {| compiles _ := true; knownHook _ := true; exports _ _ := true |}.

Definition routerManifest : PluginManifest :=
  mkManifest 1 "acme/router" "router" "1.0.0" "v1" "" "" "block" "" ["run_before_request"; "run_on_tick"]
    ["env.route_request"] [] [] [] [] [] [] [] [].
Definition gateManifest : PluginManifest :=
  mkManifest 1 "acme/gate" "gate" "1.2.0" "v1" "" "" "pass" "" ["run_before_request"; "run_on_tick"]
    ["env.host_call.torana_evaluate_compaction"; "env.file_append"; "env.credential_get"]
    [mkCredentialDecl "key" "The key" true] [mkFileDecl "logs/gate.log" ["append"] true 1024 2] [] [] [] [] ["acme/router"] [].

Definition routerBundle : PluginBundle unit := mkBundle routerManifest "wasm-r" "digest-r" None.
Definition gateBundle : PluginBundle unit := mkBundle gateManifest "wasm-g" "digest-g" None.

Definition routerApproval : Approval := mkApproval "digest-r" ["env.route_request"] "" ∅ ∅ ∅ ∅ ∅ ∅.
Definition gateApproval : Approval :=
  mkApproval "digest-g" ["env.credential_get"; "env.file_append"; "env.host_call.torana_evaluate_compaction"] ""
    {["key" := "cred-1"]} {["logs/gate.log" := mkFileApproval 512 1]} ∅ ∅ ∅ ∅.

Definition smallConfig : PluginConfig :=
  mkPluginConfig ["router"; "gate"] {["run_on_tick" := ["router"; "gate"]]} ∅
    {["acme/router" := routerApproval; "gate" := gateApproval]} "1.0.0" false true.

Definition gateResources : PluginResources :=
  mkResources {["key" := "cred-1"]} {["logs/gate.log" := mkFileResource {["append"]} 512 1]} ∅ ∅ ∅ ∅.
Definition loadedRouter : LoadedPlugin unit :=
  mkLoaded routerManifest "digest-r" None "block" ["env.route_request"] (mkResources ∅ ∅ ∅ ∅ ∅ ∅) "".
Definition loadedGate : LoadedPlugin unit :=
  mkLoaded gateManifest "digest-g" None "pass" (ap_Permissions gateApproval) gateResources "".
Definition smallPipeline : Pipeline unit :=
  let l := [loadedRouter; loadedGate] in mkPipeline l l [] [] l [].

Lemma small_built : reloadPipeline [gateBundle; routerBundle] smallConfig = Ok (smallPipeline, {["gate"; "router"]}).
Proof. vm_compute. reflexivity. Qed.

Lemma resources_within_witness : snapshotWithin gateManifest gateApproval gateResources ∧ requiredPresent gateManifest gateResources.
Proof. apply (resources_within gateManifest gateApproval gateResources); vm_compute; reflexivity. Defined.

Lemma pipeline_sound_witness : plugins smallPipeline !! 1 = Some loadedGate
  ∧ ∃ j q, j < 1 ∧ plugins smallPipeline !! j = Some q ∧ ManifestID (l_manifest q) = "acme/router".
Proof.
  split; [reflexivity|].
  destruct (pipeline_sound smallConfig [gateBundle; routerBundle] smallPipeline {["gate"; "router"]} small_built)
    as (_ & _ & H & _).
  apply (H eq_refl 1 loadedGate "acme/router"); [reflexivity|]. left.
Defined.

Lemma hook_lists_exact_witness :
  ((λ lp, ManifestName (l_manifest lp)) <$> dispatchOf smallPipeline "run_on_tick") `sublist_of` ["router"; "gate"].
Proof.
  apply (hook_lists_exact smallConfig [gateBundle; routerBundle] smallPipeline {["gate"; "router"]} "run_on_tick" small_built).
  repeat (first [left | right]).
Defined.

(** The reverse order is refused: the gate may not run before the router. *)
Lemma reversed_refused :
  reloadPipeline [gateBundle; routerBundle]
    (mkPluginConfig ["gate"; "router"] ∅ ∅ (Approvals smallConfig) "1.0.0" false true)
  = Err (UpstreamNotApproved "gate" "acme/router").
Proof. vm_compute. reflexivity. Qed.

(** A bundle whose approval is for an older digest is left out without being reported. *)
Lemma stale_approval_unreported :
  reloadPipeline [routerBundle]
    (mkPluginConfig ["router"] ∅ ∅ {["acme/router" := mkApproval "digest-old" ["env.route_request"] "" ∅ ∅ ∅ ∅ ∅ ∅]} "1.0.0" false false)
  = Ok (mkPipeline [] [] [] [] [] [], ∅).
Proof. vm_compute. reflexivity. Qed.
