(* ===== verification/PipelineLifecycle.v ===== *)
(** * The life of a pipeline

    Admission, pinning and draining of a plugin pipeline, from
    internal/plugin/discovery.go: requests pin the pipeline they run on
    ([TryAcquire]), hook calls and stream goroutines of a pinned request pin it
    again ([Acquire]), and a replaced pipeline is drained before its runtime is
    closed ([DrainAndClose]).  [Acquire] does not look at [draining]; the tick loop
    calls it without holding a pin ([TicksEnabled]).  [drain_safe]: until an
    [Acquire] is made on a pipeline that has drained, no interleaving closes a
    channel twice or closes the runtime under a pin, and a draining pipeline admits
    nothing; [TicksEnabled] panics exactly on a pipeline that has drained.

    The second part is the first-fire record of the plugins of a request. *)

From stdpp Require Import base list strings gmap sets numbers relations.
From S2P Require Import Prelude.

(** ** Pins *)

Record Life := mkLife {
  active : Z;
  draining : bool;
  drained : bool;       (* the channel is closed *)
  rtClosed : bool;      (* the runtime *)
  closed : bool }.      (* the channel *)

Definition fresh : Life := mkLife 0 false false false false.

Definition TryAcquire (l : Life) : bool * Life :=
  if draining l then (false, l) else (true, mkLife (active l + 1) (draining l) (drained l) (rtClosed l) (closed l)).

Definition Acquire (l : Life) : Life := mkLife (active l + 1) (draining l) (drained l) (rtClosed l) (closed l).

(** [close(pp.drained)]; [None] is the panic of closing it twice. *)
Definition closeDrained (l : Life) : option Life :=
  if drained l then None else Some (mkLife (active l) (draining l) true (rtClosed l) (closed l)).

Definition Release (l : Life) : option Life :=
  let l := mkLife (active l - 1) (draining l) (drained l) (rtClosed l) (closed l) in
  if (active l =? 0)%Z && draining l then closeDrained l else Some l.

(** [DrainAndClose]: the body of its [sync.Once], then the goroutine that waits
    for [drained] and closes the runtime. *)
Definition beginDrain (l : Life) : option Life :=
  let l := mkLife (active l) true (drained l) (rtClosed l) (closed l) in
  if (active l =? 0)%Z then closeDrained l else Some l.
Definition closeRuntime (l : Life) : Life := mkLife (active l) (draining l) (drained l) true true.

(** [TicksEnabled] on the grants of the tick plugins. *)
Definition TicksEnabled (granted : bool) (l : Life) : option (bool * Life) :=
  l' ← Release (Acquire l); Some (granted, l').

(** [acquireRequestPipeline]: at most three candidates; those after the first are
    read from the server's pointer. *)
Fixpoint acquireRequestPipeline (attempts : nat) (candidate : option nat) (next : list (option nat)) (lives : gmap nat Life)
    : option nat * gmap nat Life :=
  match attempts with
  | O => (None, lives)
  | S attempts =>
      let retry lives := acquireRequestPipeline attempts (default None (head next)) (tail next) lives in
      match candidate ≫= λ p, (λ l, (p, l)) <$> lives !! p with
      | Some (p, l) => match TryAcquire l with (true, l') => (Some p, <[p := l']> lives) | (false, _) => retry lives end
      | None => retry lives
      end
  end.

(** ** Interleavings *)

(** A pipeline and the pins that are held on it; [None] after a panic.  [late]: some
    [Acquire] was made after the pipeline had drained. *)
Record World := mkWorld { life : option Life; pins : nat; begun : bool; late : bool }.

(** Any goroutine may acquire at any time, whether it holds a pin or not. *)
Inductive act : World → World → Prop :=
| act_admit l n b d l' : TryAcquire l = (true, l') → act (mkWorld (Some l) n b d) (mkWorld (Some l') (S n) b d)
| act_acquire l n b d : act (mkWorld (Some l) n b d) (mkWorld (Some (Acquire l)) (S n) b (d || drained l))
| act_release l n b d r : Release l = r → act (mkWorld (Some l) (S n) b d) (mkWorld r n b d)
| act_drain l n d r : beginDrain l = r → act (mkWorld (Some l) n false d) (mkWorld r n true d)
| act_close l n d : drained l = true → act (mkWorld (Some l) n true d) (mkWorld (Some (closeRuntime l)) n true d).

Definition start : World := mkWorld (Some fresh) 0 false false.

Record lifeOk (w : World) (l : Life) : Prop := {
  life_there : life w = Some l;
  life_active : active l = Z.of_nat (pins w);
  life_begun : draining l = begun w;
  life_drained : drained l = begun w && (pins w =? 0)%nat;
  life_closed : closed l = rtClosed l ∧ (rtClosed l = true → drained l = true) }.

Ltac life_is := eexists; split; [reflexivity|..]; simpl.

Lemma act_late w w' : act w w' → late w' = false → late w = false.
Proof. destruct 1; simpl; try done. by intros [? _]%orb_false_iff. Qed.

Lemma act_ok w w' l : act w w' → late w' = false → lifeOk w l → ∃ l', lifeOk w' l'.
Proof.
  destruct 1 as [l0 n b d l' Ht|l0 n b d|l0 n b d r <-|l0 n d r <-|l0 n d Hd]; simpl; intros Hlate [[= <-] Ha Hb Hdr [Hc1 Hc2]]; simpl in *.
  - unfold TryAcquire in Ht. rewrite Hb in Ht. destruct b; [done|]. injection Ht as <-. life_is; [lia|done|done|done].
  - apply orb_false_iff in Hlate as [_ Hlate]. life_is; [lia|done| |done]. by rewrite Hlate, andb_false_r.
  - unfold Release. cbn [active draining]. rewrite Ha, Hb. destruct n as [|n].
    + destruct b; simpl; [|by life_is]. unfold closeDrained. simpl. rewrite Hdr. simpl. life_is; try done.
    + destruct (Z.eqb_spec (Z.of_nat (S (S n)) - 1) 0) as [|_]; [lia|]. simpl. life_is; [lia|done|done|done].
  - unfold beginDrain. simpl. rewrite Ha. destruct n as [|n]; simpl; [|by life_is].
    unfold closeDrained. simpl. rewrite Hdr. simpl. by life_is.
  - by life_is.
Qed.

Lemma acts_ok w w' : rtc act w w' → late w' = false → (∃ l, lifeOk w l) → late w = false ∧ ∃ l, lifeOk w' l.
Proof.
  induction 1 as [|w1 w2 w3 Hs Hr IH]; [done|]. intros Hlate [l Hl].
  assert (late w2 = false) as H2. { clear -Hr Hlate. induction Hr as [|x y z Hs _ IH]; [done|]. by eapply act_late, IH. }
  split; [by eapply act_late|]. apply IH; [done|]. by eapply act_ok.
Qed.

Lemma reach_ok w : rtc act start w → late w = false → ∃ l, lifeOk w l.
Proof. intros H Hlate. apply (acts_ok _ _ H Hlate). by life_is. Qed.

(** Once the runtime is closed no pin is taken. *)
Lemma closed_empty w l w' : lifeOk w l → begun w = true → pins w = 0 → rtc act w w' → late w' = false → pins w' = 0.
Proof.
  intros Hl Hb Hp Hw. revert l Hl Hb Hp. induction Hw as [|w1 w2 w3 Hs Hr IH]; [done|]. intros l Hl Hb Hp Hlate.
  assert (late w2 = false) as H2. { clear -Hr Hlate. induction Hr as [|x y z Hs _ IH]; [done|]. by eapply act_late, IH. }
  destruct (act_ok _ _ _ Hs H2 Hl) as [l2 Hl2]. apply (IH l2 Hl2); [by destruct Hs| |done].
  destruct Hl as [Hl _ Hd Hdr _]. destruct Hs as [l0 n b d l' Ht|l0 n b d| | |]; simpl in *; simplify_eq/=; try done.
  - unfold TryAcquire in Ht. by rewrite Hb in Ht.
  - apply orb_false_iff in H2 as [_ H2]. by rewrite Hdr, Hb in H2.
Qed.

Lemma ticks_panic w l granted : lifeOk w l → TicksEnabled granted l = None ↔ begun w = true ∧ pins w = 0.
Proof.
  intros [_ Ha Hb Hd _]. unfold TicksEnabled, Release, Acquire. cbn [active draining]. rewrite Ha, Hb.
  destruct (pins w) as [|n]; simpl in *; [|destruct (Z.eqb_spec (Z.of_nat (S n) + 1 - 1) 0); [lia|]; simpl; naive_solver].
  destruct (begun w); simpl; [|naive_solver]. unfold closeDrained. simpl. rewrite Hd. simpl. naive_solver.
Qed.

(** C26. However requests, acquisitions with and without a pin, releases and the
    drain of a pipeline interleave, until some [Acquire] is made after the pipeline has
    drained: no channel is closed twice (there is no panic); the count is the number of
    pins; the runtime is closed only after the drain began and while no pin is held,
    from when on nothing is admitted; and once the drain has begun and the last pin is
    gone the way to closing it is open.  The tick loop's unpinned [TicksEnabled] panics
    exactly when the pipeline has drained. *)
Theorem drain_safe w : rtc act start w → late w = false →
  ∃ l, life w = Some l ∧ active l = Z.of_nat (pins w)
    ∧ (rtClosed l = true → begun w = true ∧ pins w = 0 ∧ ∀ w', rtc act w w' → late w' = false → pins w' = 0)
    ∧ (begun w = true → (TryAcquire l).1 = false)
    ∧ (begun w = true → pins w = 0 → act w (mkWorld (Some (closeRuntime l)) 0 true false))
    ∧ (∀ granted, TicksEnabled granted l = None ↔ begun w = true ∧ pins w = 0).
Proof.
  intros Hw Hlate. destruct (reach_ok w Hw Hlate) as [l Hok]. pose proof Hok as [H1 H2 H3 H4 [H5 H6]]. exists l. split_and!; [done|done| | | |].
  - intros Hc. pose proof (H6 Hc) as Hd. rewrite H4 in Hd. apply andb_true_iff in Hd as [Hb Hp%Nat.eqb_eq]. split_and!; [done..|].
    intros w'. by apply (closed_empty w l).
  - intros Hb. unfold TryAcquire. by rewrite H3, Hb.
  - intros Hb Hp. destruct w as [lf n b d]. simpl in *. rewrite Hb, Hp, H1, Hlate in *. apply act_close. by rewrite H4.
  - intros granted. by apply ticks_panic.
Qed.

(** [TicksEnabled] is an acquisition and a release. *)
Lemma ticks_steps granted l n b d : drained l = false →
  rtc act (mkWorld (Some l) n b d) (mkWorld (snd <$> TicksEnabled granted l) n b d).
Proof.
  intros Hd. eapply rtc_l; [apply act_acquire|]. rewrite Hd, orb_false_r. eapply rtc_l; [by apply act_release|].
  unfold TicksEnabled. destruct (Release (Acquire l)); apply rtc_refl.
Qed.

(** The tick loop passes by, a pin is taken, a drain begun and the pin released. *)
Definition drainedLife : Life := mkLife 0 true true false false.
Lemma drain_reached : rtc act start (mkWorld (Some drainedLife) 0 true false).
Proof.
  etrans; [by apply (ticks_steps true fresh)|].
  eapply rtc_l; [by apply (act_admit fresh 0 false)|].
  eapply rtc_l; [by apply (act_drain _ 1)|]. simpl.
  eapply rtc_l; [by apply (act_release _ 0)|]. apply rtc_refl.
Qed.

Lemma drain_safe_witness : (TryAcquire drainedLife).1 = false ∧ TicksEnabled true drainedLife = None.
Proof.
  destruct (drain_safe (mkWorld (Some drainedLife) 0 true false) drain_reached eq_refl) as (l & [= <-] & _ & _ & H & _ & Ht).
  split; [apply H; reflexivity|]. apply Ht. split; reflexivity.
Defined.

(** The tick loop calls [TicksEnabled] on a pipeline it has not pinned.  When the
    pipeline was replaced and drained in between, the call closes [drained] a
    second time. *)
Theorem ticks_enabled_panics granted : TicksEnabled granted drainedLife = None.
Proof. reflexivity. Qed.

(** A request that was given a pipeline holds a pin on it, taken while it was not
    draining; without one, nothing was pinned. *)
Lemma acquireRequestPipeline_ok attempts candidate next lives p lives' :
  acquireRequestPipeline attempts candidate next lives = (p, lives') →
  match p with
  | None => lives' = lives
  | Some p => ∃ l, lives !! p = Some l ∧ draining l = false ∧ lives' = <[p := Acquire l]> lives
  end.
Proof.
  revert candidate next; induction attempts as [|attempts IH]; intros candidate next; simpl; [by intros [= <- <-]|].
  destruct candidate as [q|]; simpl; [|apply IH]. destruct (lives !! q) as [l|] eqn:E; simpl; [|apply IH].
  unfold TryAcquire. destruct (draining l) eqn:Ed; [apply IH|]. intros [= <- <-]. exists l. unfold Acquire. by rewrite Ed.
Qed.

(** ** Invocations *)

Section Invocations.
(** The other per-request maps are only ever dropped here. *)
Context {Kinds Verify : Type}.

Record requestPluginInvocations := mkInvocations { inv_names : list string; inv_seen : gset string }.
Record Tracking := mkTracking {
  streamKinds : gmap Z Kinds; streamVerify : gmap Z Verify; requestPlugins : gmap Z requestPluginInvocations }.

Definition recordInvocation (reqID : Z) (name : string) (t : Tracking) : Tracking :=
  let invocations := default (mkInvocations [] ∅) (requestPlugins t !! reqID) in
  let invocations := if bool_decide (name ∈ inv_seen invocations) then invocations
                     else mkInvocations (inv_names invocations ++ [name]) ({[name]} ∪ inv_seen invocations) in
  mkTracking (streamKinds t) (streamVerify t) (<[reqID := invocations]> (requestPlugins t)).

Definition InvokedPlugins (reqID : Z) (t : Tracking) : list string :=
  from_option inv_names [] (requestPlugins t !! reqID).

Definition dropRequestTracking (reqID : Z) (t : Tracking) : Tracking :=
  mkTracking (delete reqID (streamKinds t)) (delete reqID (streamVerify t)) (delete reqID (requestPlugins t)).

Definition invocationsOk (t : Tracking) : Prop :=
  map_Forall (λ _ i, inv_seen i = list_to_set (inv_names i) ∧ NoDup (inv_names i)) (requestPlugins t).

(** Each plugin once, where it fired first. *)
Fixpoint firstFires (seen : list string) (names : list string) : list string :=
  match names with
  | [] => seen
  | name :: names => firstFires (if bool_decide (name ∈ seen) then seen else seen ++ [name]) names
  end.

Lemma record_ok reqID name t : invocationsOk t →
  invocationsOk (recordInvocation reqID name t)
  ∧ InvokedPlugins reqID (recordInvocation reqID name t) = firstFires (InvokedPlugins reqID t) [name]
  ∧ ∀ other, other ≠ reqID → InvokedPlugins other (recordInvocation reqID name t) = InvokedPlugins other t.
Proof.
  intros Ht. unfold recordInvocation, InvokedPlugins. simpl.
  set (i := default (mkInvocations [] ∅) (requestPlugins t !! reqID)).
  assert (inv_seen i = list_to_set (inv_names i) ∧ NoDup (inv_names i)) as [Hs Hn].
  { unfold i. destruct (requestPlugins t !! reqID) as [x|] eqn:E; simpl; [by apply (Ht reqID)|]. split; [done|constructor]. }
  assert (from_option inv_names [] (requestPlugins t !! reqID) = inv_names i) as ->.
  { unfold i. by destruct (requestPlugins t !! reqID). }
  assert (Hb : bool_decide (name ∈ inv_seen i) = bool_decide (name ∈ inv_names i)).
  { apply bool_decide_ext. rewrite Hs. set_solver. }
  rewrite lookup_insert_eq. simpl. rewrite Hb. clear Hb. split_and!.
  - unfold invocationsOk. simpl. apply map_Forall_insert_2; [|done]. case_bool_decide; [by split|]. simpl. split; [set_solver|].
    apply list.NoDup_app. split_and!; [done|set_solver|apply NoDup_singleton].
  - by case_bool_decide.
  - intros other Ho. by rewrite lookup_insert_ne.
Qed.

(** The record of a request lists its plugins in the order they first fired. *)
Lemma invoked_first reqID names t : invocationsOk t →
  InvokedPlugins reqID (foldl (λ t name, recordInvocation reqID name t) t names) = firstFires (InvokedPlugins reqID t) names.
Proof.
  revert t; induction names as [|name names IH]; intros t Ht; simpl; [done|].
  destruct (record_ok reqID name t Ht) as (Ht' & Hn & _). rewrite IH by done. by rewrite Hn.
Qed.

Lemma dropped_forgotten reqID t : InvokedPlugins reqID (dropRequestTracking reqID t) = [].
Proof. unfold InvokedPlugins. simpl. by rewrite lookup_delete_eq. Qed.
End Invocations.
