(* ===== verification/CasUpdate.v ===== *)
(** * Compare-and-set updates of one document

    The pattern shared by internal/suggest's [update] and
    [ClaimTranscriptTicket]: read a versioned value, decode it, let a closure
    change it, encode it and write it back under the version that was read, at
    most eight times.  One attempt is two accesses to the state store, and other
    clients may act between them.

    The second half of the file lets any number of clients run updates of one
    document in any interleaving; [cas_linearizes] shows that the document is
    then the result of the closures whose writes were applied, one after
    another. *)

From stdpp Require Import base list strings gmap sets numbers relations.
From S2P Require Import Prelude ByteStrings PluginState.

Definition stateNamespace : string := "@torana/suggestions".
Inductive suggErr :=
| ErrNotFound | ErrConflict | ErrLimit
| ErrStoreRequired | ErrDecode (msg : string) | ErrCollision | ErrEncode (msg : string)
| ErrState (e : stateErr) | ErrArgument (msg : string) | ErrRandom.
#[global] Instance stateErr_eq_dec : EqDecision stateErr.
Proof. solve_decision. Defined.
#[global] Instance suggErr_eq_dec : EqDecision suggErr.
Proof. solve_decision. Defined.

(** ** The state store *)

(** [suggest.State]. *)
Class StateOps (St : Type) := {
  st_get : St → string → string → res stateErr (string * string * bool);
  st_cas : St → string → string → string → option string → res stateErr (bool * string) * St }.

(** What the store relies on: a successful compare-and-set found what it
    expected, changes one key, and gives it a version under which that key never
    holds another value; an unsuccessful one changes nothing.  [evolves] relates
    a state to the states later calls can reach, and [fits] the keys a store
    accepts. *)
Class StateLaws (St : Type) {SO : StateOps St} := {
  valid : St → Prop;
  fits : string → Prop;
  evolves : St → St → Prop;
  evolves_pre :: PreOrder evolves;
  valid_cas : ∀ s p k v e, valid s → fits k → valid (st_cas s p k v e).2;
  cas_evolves : ∀ s p k v e, valid s → fits k → evolves s (st_cas s p k v e).2;
  cas_applied : ∀ s p k v e ver s', valid s → fits k → st_cas s p k v e = (Ok (true, ver), s') →
    (match e with
     | None => st_get s p k = Ok ("", "", false)
     | Some x => ∃ w, st_get s p k = Ok (w, x, true) end)
    ∧ st_get s' p k = Ok (v, ver, true)
    ∧ (∀ p' k', (p', k') ≠ (p, k) → st_get s' p' k' = st_get s p' k');
  cas_refused : ∀ s p k v e r s', valid s → fits k → st_cas s p k v e = (r, s') →
    (∀ ver, r ≠ Ok (true, ver)) → ∀ p' k', st_get s' p' k' = st_get s p' k';
  version_value : ∀ s s' p k v v' ver, valid s → evolves s s' →
    st_get s p k = Ok (v, ver, true) → st_get s' p k = Ok (v', ver, true) → v = v' }.

(** ** The loop *)

Inductive Phase :=
| Finished (r : res suggErr unit)
| Writing (value : string) (expected : option string).

Definition maxAttempts : nat := 8.

Section Update.
Context {St : Type} {SO : StateOps St}.
(** The document, the variables a closure captures, the decoding of a stored
    value, the encoding, the document of an absent key, and the key. *)
Context {D V : Type} (decode : string → res suggErr D) (encode : D → res string string) (doc0 : D) (key : string).

(** Whether to write, the document as the closure leaves it, and the variables;
    the first argument is the attempt. *)
Definition Closure : Type := nat → V → D → res suggErr bool * D * V.

Definition readDoc (s : St) : res suggErr (D * string * bool) :=
  match st_get s stateNamespace key with
  | Err e => Err (ErrState e)
  | Ok (value, version, found) =>
      if negb found then Ok (doc0, version, false)
      else match decode value with
           | Err e => Err e
           | Ok current => Ok (current, version, true)
           end
  end.

(** The first half of an attempt: it ends the update, or has a value to write. *)
Definition readPhase (s : St) (change : Closure) (n : nat) (v : V) : Phase * V :=
  match readDoc s with
  | Err e => (Finished (Err e), v)
  | Ok (current, version, found) =>
      match change n v current with
      | (Err e, _, v) => (Finished (Err e), v)
      | (Ok false, _, v) => (Finished (Ok tt), v)
      | (Ok true, current, v) =>
          match encode current with
          | Err e => (Finished (Err (ErrEncode e)), v)
          | Ok value => (Writing value (if found then Some version else None), v)
          end
      end
  end.

(** The second half; [None] asks for another attempt. *)
Definition writePhase (s : St) (value : string) (expected : option string) : option (res suggErr unit) * St :=
  match st_cas s stateNamespace key value expected with
  | (Err e, s) => (Some (Err (ErrState e)), s)
  | (Ok (true, _), s) => (Some (Ok tt), s)
  | (Ok (false, _), s) => (None, s)
  end.

(** [others n] is what other clients do during attempt [n]. *)
Fixpoint updateFrom (fuel n : nat) (others : nat → St → St) (change : Closure) (s : St) (v : V)
    : res suggErr unit * V * St :=
  match fuel with
  | O => (Err ErrConflict, v, s)
  | S fuel =>
      match readPhase s change n v with
      | (Finished r, v) => (r, v, s)
      | (Writing value expected, v) =>
          match writePhase (others n s) value expected with
          | (Some r, s) => (r, v, s)
          | (None, s) => updateFrom fuel (S n) others change s v
          end
      end
  end.

Definition updateDoc (others : nat → St → St) (change : Closure) (s : St) (v : V) : res suggErr unit * V * St :=
  updateFrom maxAttempts 0 others change s v.
End Update.
Arguments Closure : clear implicits.

(** ** Clients *)

Inductive ClientPhase :=
| Ready
| Going (value : string) (expected : option string)
| Done (r : res suggErr unit).

(** Two entries of a log are two elements of its operations. *)
Lemma two_selected {O} (P : O → bool) (log : list (nat * O)) j j' o o' :
  (j, o) ∈ log → (j', o') ∈ log → j ≠ j' → P o = true → P o' = true →
  2 ≤ length (filter (λ o, P o = true) log.*2).
Proof.
  intros H H' Hne Hc Hc'. apply list_elem_of_split in H as (l1 & l2 & ->).
  rewrite fmap_app, list.filter_app, fmap_cons, filter_cons_True, length_app by done. simpl.
  assert (Hin : o' ∈ filter (λ o, P o = true) l1.*2 ∨ o' ∈ filter (λ o, P o = true) l2.*2).
  { apply elem_of_app in H' as [H'|[[= -> ->]|H']%elem_of_cons]; [left|done|right]; apply list_elem_of_filter;
      (split; [done|]); by apply (list_elem_of_fmap_2 snd _ _) in H'. }
  assert (Hpos : ∀ l : list O, o' ∈ l → 1 ≤ length l) by (intros [|? ?]; [by intros ?%not_elem_of_nil|simpl; lia]).
  destruct Hin as [Hin|Hin]; apply Hpos in Hin; lia.
Qed.

Section Clients.
Context {St : Type} {SO : StateOps St} {SL : StateLaws St}.
Context {D V O : Type} (decode : string → res suggErr D) (encode : D → res string string) (doc0 : D) (key : string).
(** The closures of the operations clients run, and the variables they start
    with. *)
Context (closure : O → Closure D V) (start : V).
Context (allowed : O → Prop).
(** The documents that encoding preserves. *)
Context (good : D → Prop).
Context (Hfits : fits key).
Context (Hround : ∀ d w, good d → encode d = Ok w → decode w = Ok d).
Context (Hkeep : ∀ o n v d d' v', allowed o → good d → closure o n v d = (Ok true, d', v') → good d').

(** A client inside an update. *)
Record Client := mkClient { cl_op : O; cl_attempt : nat; cl_vars : V; cl_phase : ClientPhase }.

Definition after (ph : Phase) : ClientPhase :=
  match ph with Finished r => Done r | Writing value expected => Going value expected end.

(** The client after its compare-and-set: done, or one attempt later. *)
Definition afterWrite (c : Client) (r : option (res suggErr unit)) : Client :=
  match r with
  | Some r => mkClient (cl_op c) (cl_attempt c) (cl_vars c) (Done r)
  | None => mkClient (cl_op c) (S (cl_attempt c)) (cl_vars c)
              (if (S (cl_attempt c) =? maxAttempts)%nat then Done (Err ErrConflict) else Ready)
  end.

(** The shared state, the clients, and the writes that were applied. *)
Record Sys := mkSys { sys_state : St; sys_clients : list Client; sys_log : list (nat * O) }.

(** The operations applied one after another, from one document to another. *)
Inductive applied : list O → D → D → Prop :=
| applied_nil r : applied [] r r
| applied_snoc l o n v r r1 r2 v' :
    applied l r r1 → closure o n v r1 = (Ok true, r2, v') → applied (l ++ [o]) r r2.

Inductive step : Sys → Sys → Prop :=
| step_spawn s cs log o :
    allowed o → step (mkSys s cs log) (mkSys s (cs ++ [mkClient o 0 start Ready]) log)
| step_read s cs log j c ph v :
    cs !! j = Some c → cl_phase c = Ready →
    readPhase decode encode doc0 key s (closure (cl_op c)) (cl_attempt c) (cl_vars c) = (ph, v) →
    step (mkSys s cs log) (mkSys s (<[j := mkClient (cl_op c) (cl_attempt c) v (after ph)]> cs) log)
| step_write s cs log j c value expected r s' :
    cs !! j = Some c → cl_phase c = Going value expected →
    writePhase key s value expected = (r, s') →
    step (mkSys s cs log)
      (mkSys s' (<[j := afterWrite c r]> cs) (match r with Some (Ok _) => log ++ [(j, cl_op c)] | _ => log end))
| step_other s s' cs log :
    valid s' → evolves s s' → st_get s' stateNamespace key = st_get s stateNamespace key →
    step (mkSys s cs log) (mkSys s' cs log).

(** ** The invariant *)

(** What a client about to write has read, at an earlier moment. *)
Definition hasRead (s : St) (c : Client) (value : string) (expected : option string) : Prop :=
  ∃ s0 cur ver found v0 r', valid s0 ∧ evolves s0 s
    ∧ readDoc decode doc0 key s0 = Ok (cur, ver, found)
    ∧ closure (cl_op c) (cl_attempt c) v0 cur = (Ok true, r', cl_vars c)
    ∧ encode r' = Ok value ∧ expected = (if found then Some ver else None).

(** A finished client that reports success applied its write, or its closure had
    nothing to change. *)
Definition accounted (log : list (nat * O)) (j : nat) (c : Client) : Prop :=
  (j, cl_op c) ∈ log ∨ ∃ n v r r' v', closure (cl_op c) n v r = (Ok false, r', v').

Record Inv (r0 : D) (y : Sys) : Prop := {
  inv_valid : valid (sys_state y);
  inv_record : ∃ cur ver found, readDoc decode doc0 key (sys_state y) = Ok (cur, ver, found)
    ∧ applied (sys_log y).*2 r0 cur ∧ good cur;
  inv_allowed : ∀ j c, sys_clients y !! j = Some c → allowed (cl_op c);
  inv_going : ∀ j c value expected, sys_clients y !! j = Some c → cl_phase c = Going value expected →
    hasRead (sys_state y) c value expected;
  inv_done : ∀ j c, sys_clients y !! j = Some c → cl_phase c = Done (Ok tt) → accounted (sys_log y) j c;
  inv_log : ∀ j o, (j, o) ∈ sys_log y → ∃ c, sys_clients y !! j = Some c ∧ cl_op c = o ∧ cl_phase c = Done (Ok tt);
  inv_nodup : NoDup (sys_log y).*1 }.

Lemma read_get s s' : st_get s' stateNamespace key = st_get s stateNamespace key →
  readDoc decode doc0 key s' = readDoc decode doc0 key s.
Proof. unfold readDoc. by intros ->. Qed.

Lemma hasRead_evolves s s' c value expected : evolves s s' → hasRead s c value expected → hasRead s' c value expected.
Proof. intros He (s0 & cur & ver & found & v0 & r' & H1 & H2 & H). do 6 eexists. split; [exact H1|]. split; [by etrans|done]. Qed.

(** What the store holds decides what is read. *)
Lemma read_found s cur ver : readDoc decode doc0 key s = Ok (cur, ver, true) →
  ∃ w, st_get s stateNamespace key = Ok (w, ver, true) ∧ decode w = Ok cur.
Proof.
  unfold readDoc. destruct (st_get _ _ _) as [[[w ver'] []]|]; simpl; try done.
  destruct (decode w) as [r|] eqn:E; [|done]. intros [= <- <-]. eauto.
Qed.
Lemma read_absent s cur ver : readDoc decode doc0 key s = Ok (cur, ver, false) →
  cur = doc0 ∧ ∃ w, st_get s stateNamespace key = Ok (w, ver, false).
Proof.
  unfold readDoc. destruct (st_get _ _ _) as [[[w ver'] []]|]; simpl; try done.
  - by destruct (decode w) as [r|].
  - intros [= <- <-]. eauto.
Qed.

(** A successful compare-and-set wrote over the record the client had read. *)
Lemma write_applied s c value expected s' ver :
  valid s → hasRead s c value expected →
  st_cas s stateNamespace key value expected = (Ok (true, ver), s') →
  ∃ cur ver0 found v0 r', readDoc decode doc0 key s = Ok (cur, ver0, found)
    ∧ closure (cl_op c) (cl_attempt c) v0 cur = (Ok true, r', cl_vars c) ∧ encode r' = Ok value
    ∧ st_get s' stateNamespace key = Ok (value, ver, true).
Proof.
  intros Hv (s0 & cur & ver0 & found & v0 & r' & Hv0 & He & Hr & Hc & Hm & ->) Hcas.
  destruct (cas_applied _ _ _ _ _ _ _ Hv Hfits Hcas) as (Hexp & Hget & _).
  exists cur, (if found then ver0 else ""), found, v0, r'. split_and!; [|done..].
  destruct found; simpl in Hexp.
  - destruct Hexp as [w' Hw']. apply read_found in Hr as (w & Hw & Hu).
    assert (w = w') as <- by by eapply version_value. unfold readDoc. by rewrite Hw'; simpl; rewrite Hu.
  - apply read_absent in Hr as [-> _]. unfold readDoc. by rewrite Hexp.
Qed.

(** ** Every step keeps it *)

Lemma insert_lookup_cases {A} (l : list A) j x i y : <[j := x]> l !! i = Some y →
  i = j ∧ y = x ∨ i ≠ j ∧ l !! i = Some y.
Proof. intros [(-> & -> & _)|[H1 H2]]%list_lookup_insert_Some; auto. Qed.

Lemma inv_spawn r0 s cs log o : allowed o → Inv r0 (mkSys s cs log) →
  Inv r0 (mkSys s (cs ++ [mkClient o 0 start Ready]) log).
Proof.
  intros Ho [I1 I2 I3 I4 I5 I6 I7]. simpl in *.
  assert (Hc : ∀ j c, (cs ++ [mkClient o 0 start Ready]) !! j = Some c →
    cs !! j = Some c ∨ c = mkClient o 0 start Ready).
  { intros j c [H|[_ H]]%lookup_app_Some; [by left|]. right. apply list_lookup_singleton_Some in H. naive_solver. }
  split; simpl; try done.
  - intros j c [H| ->]%Hc; [by eapply I3|done].
  - intros j c value expected [H| ->]%Hc; [by apply (I4 j)|done].
  - intros j c [H| ->]%Hc; [by apply I5|done].
  - intros j o' (c & Hj & H)%I6. exists c. split; [by apply lookup_app_l_Some|done].
Qed.

(** Replacing one client by a later version of itself. *)
Lemma inv_client r0 s cs log j c c' : Inv r0 (mkSys s cs log) → cs !! j = Some c → cl_op c' = cl_op c →
  cl_phase c ≠ Done (Ok tt) →
  (∀ value expected, cl_phase c' = Going value expected → hasRead s c' value expected) →
  (cl_phase c' = Done (Ok tt) → accounted log j c') →
  Inv r0 (mkSys s (<[j := c']> cs) log).
Proof.
  intros [I1 I2 I3 I4 I5 I6 I7] Hj Ho Hp Hg Hd. simpl in *. split; simpl; try done.
  - intros i x [[-> ->]|[_ Hi]]%insert_lookup_cases; [rewrite Ho|]; by eapply I3.
  - intros i x value expected [[-> ->]|[_ Hi]]%insert_lookup_cases; [by apply Hg|by apply (I4 i)].
  - intros i x [[-> ->]|[_ Hi]]%insert_lookup_cases; [by apply Hd|by apply I5].
  - intros i o (x & Hi & Hx & Hxp)%I6. exists x. rewrite list_lookup_insert_ne; [done|]. intros ->. congruence.
Qed.

(** A change of the state that keeps the record readable. *)
Lemma inv_state r0 s s' cs log : Inv r0 (mkSys s cs log) → valid s' → evolves s s' →
  st_get s' stateNamespace key = st_get s stateNamespace key → Inv r0 (mkSys s' cs log).
Proof.
  intros [I1 I2 I3 I4 I5 I6 I7] Hv He Hg. simpl in *. split; simpl; try done.
  - by rewrite (read_get _ _ Hg).
  - intros j c value expected Hj Hp. eapply hasRead_evolves; [done|]. by apply (I4 j).
Qed.

Lemma inv_read r0 s cs log j c ph v : cs !! j = Some c → cl_phase c = Ready →
  readPhase decode encode doc0 key s (closure (cl_op c)) (cl_attempt c) (cl_vars c) = (ph, v) →
  Inv r0 (mkSys s cs log) → Inv r0 (mkSys s (<[j := mkClient (cl_op c) (cl_attempt c) v (after ph)]> cs) log).
Proof.
  intros Hj Hp Hr I. eapply inv_client; [done|done|done|by rewrite Hp|..]; simpl.
  - intros value expected Ha. destruct ph; [done|]. injection Ha as -> ->. unfold readPhase in Hr.
    destruct (readDoc _ _ _ _) as [[[cur ver] found]|] eqn:Er; [|done].
    destruct (closure _ _ _ _) as [[[[]|] r'] v'] eqn:Ec; try done.
    destruct (encode r') eqn:Em; [|done]. injection Hr as <- <- <-.
    exists s, cur, ver, found, (cl_vars c), r'. split_and!; try done. by apply (inv_valid _ _ I).
  - intros Ha. destruct ph; [|done]. injection Ha as ->. right. unfold readPhase in Hr.
    destruct (readDoc _ _ _ _) as [[[cur ver] found]|] eqn:Er; [|done].
    destruct (closure _ _ _ _) as [[[[]|] r'] v'] eqn:Ec; try done; [by destruct (encode r')|].
    do 5 eexists. exact Ec.
Qed.

Lemma read_written s' r' value ver : good r' → encode r' = Ok value →
  st_get s' stateNamespace key = Ok (value, ver, true) → readDoc decode doc0 key s' = Ok (r', ver, true).
Proof. intros Hg Hm Hs. unfold readDoc. rewrite Hs. simpl. by rewrite (Hround _ _ Hg Hm). Qed.

(** The applied write extends the log. *)
Lemma inv_applied r0 s cs log j c value expected ver s' :
  cs !! j = Some c → cl_phase c = Going value expected →
  st_cas s stateNamespace key value expected = (Ok (true, ver), s') → Inv r0 (mkSys s cs log) →
  valid s' → evolves s s' →
  Inv r0 (mkSys s' (<[j := afterWrite c (Some (Ok tt))]> cs) (log ++ [(j, cl_op c)])).
Proof.
  intros Hj Hp Hcas [I1 I2 I3 I4 I5 I6 I7] Hv' He. simpl in *.
  destruct (write_applied s c value expected s' ver I1 (I4 j c value expected Hj Hp) Hcas)
    as (cur & ver0 & found & v0 & r' & Hr & Hc & Hm & Hg).
  destruct I2 as (cur' & ver' & found' & Hr' & Hap & Hsv). rewrite Hr in Hr'. simplify_eq.
  assert (Hs' : good r') by by eapply Hkeep; [by eapply I3|..].
  assert (Hlt : j < length cs) by by eapply lookup_lt_Some.
  assert (Hnotin : j ∉ log.*1).
  { intros ([j' o] & -> & (x & Hx & _ & Hxp)%I6)%list_elem_of_fmap. simpl in *. congruence. }
  split; simpl; try done.
  - exists r', ver, true. split_and!; [|rewrite fmap_app; by eapply applied_snoc|done].
    by eapply read_written.
  - intros i x [[-> ->]|[_ Hi]]%insert_lookup_cases; simpl; by eapply I3.
  - intros i x value' expected' [[-> ->]|[_ Hi]]%insert_lookup_cases Hx; [done|].
    eapply hasRead_evolves; [done|]. by apply (I4 i).
  - intros i x [[-> ->]|[_ Hi]]%insert_lookup_cases Hx; [left; set_solver|].
    destruct (I5 i x Hi Hx) as [?|?]; [left; set_solver|by right].
  - intros i o [(x & Hi & Hx & Hxp)%I6|[= -> ->]%list_elem_of_singleton]%elem_of_app.
    + exists x. rewrite list_lookup_insert_ne; [done|]. intros ->. congruence.
    + exists (afterWrite c (Some (Ok tt))). rewrite list_lookup_insert_eq by done. done.
  - rewrite fmap_app. apply NoDup_app. split_and!; [done| |apply NoDup_singleton]. set_solver.
Qed.

Lemma inv_write r0 s cs log j c value expected r s' : cs !! j = Some c → cl_phase c = Going value expected →
  writePhase key s value expected = (r, s') → Inv r0 (mkSys s cs log) →
  Inv r0 (mkSys s' (<[j := afterWrite c r]> cs)
            (match r with Some (Ok _) => log ++ [(j, cl_op c)] | _ => log end)).
Proof.
  intros Hj Hp Hw I. pose proof (inv_valid _ _ I) as Hv. simpl in Hv.
  pose proof (valid_cas s stateNamespace key value expected Hv Hfits) as Hv'.
  pose proof (cas_evolves s stateNamespace key value expected Hv Hfits) as He.
  unfold writePhase in Hw. destruct (st_cas _ _ _ _ _) as [res1 s1] eqn:Ecas. simpl in *.
  assert (Hkeepst : (∀ ver, res1 ≠ Ok (true, ver)) → Inv r0 (mkSys s1 cs log)).
  { intros Hne. eapply inv_state; [done..|]. by eapply cas_refused. }
  destruct res1 as [[[] ver]|e]; injection Hw as <- <-.
  - by eapply inv_applied.
  - eapply inv_client; [by apply Hkeepst|done|done|by rewrite Hp|..]; simpl; by case_match.
  - eapply inv_client; [by apply Hkeepst|done|done|by rewrite Hp|..]; done.
Qed.

Lemma inv_step r0 y y' : step y y' → Inv r0 y → Inv r0 y'.
Proof.
  destruct 1; intros I; [by apply inv_spawn|by eapply inv_read|by eapply inv_write|by eapply inv_state].
Qed.

Lemma inv_steps r0 y y' : rtc step y y' → Inv r0 y → Inv r0 y'.
Proof. induction 1; eauto using inv_step. Qed.

Lemma inv_initial r0 s ver found : valid s → readDoc decode doc0 key s = Ok (r0, ver, found) → good r0 →
  Inv r0 (mkSys s [] []).
Proof.
  intros Hv Hr Hs. split; simpl; try done; [|by intros ? ? ?%not_elem_of_nil|constructor].
  exists r0, ver, found. split_and!; [done|constructor|done].
Qed.

(** However the clients interleave, the document is the result of applying one
    after another exactly the closures whose writes succeeded; every such write
    belongs to one client that reports success, and a client that reports
    success wrote once or had nothing to change. *)
Lemma cas_linearizes r0 s ver found y :
  valid s → readDoc decode doc0 key s = Ok (r0, ver, found) → good r0 → rtc step (mkSys s [] []) y →
  (∃ cur ver' found', readDoc decode doc0 key (sys_state y) = Ok (cur, ver', found')
     ∧ applied (sys_log y).*2 r0 cur)
  ∧ NoDup (sys_log y).*1
  ∧ (∀ j o, (j, o) ∈ sys_log y →
       allowed o ∧ ∃ c, sys_clients y !! j = Some c ∧ cl_op c = o ∧ cl_phase c = Done (Ok tt))
  ∧ (∀ j c, sys_clients y !! j = Some c → cl_phase c = Done (Ok tt) → accounted (sys_log y) j c).
Proof.
  intros Hv Hr Hs Hy. destruct (inv_steps r0 _ _ Hy (inv_initial r0 s ver found Hv Hr Hs))
    as [_ (cur & ver' & found' & H1 & H2 & _) H3 _ H5 H6 H7].
  split_and!; [by exists cur, ver', found'|done| |done].
  intros j o Hin. destruct (H6 j o Hin) as (c & Hc & <- & Hd). eauto.
Qed.

(** Operations of which at most one can be applied, and which always write, are
    reported as successful to at most one client. *)
Lemma claimed_once (P : O → bool) r0 s ver found y j j' c c' :
  valid s → readDoc decode doc0 key s = Ok (r0, ver, found) → good r0 → rtc step (mkSys s [] []) y →
  (∀ o n v r b r' v', P o = true → closure o n v r = (Ok b, r', v') → b = true) →
  (∀ l r, Forall allowed l → applied l r0 r → length (filter (λ o, P o = true) l) ≤ 1) →
  sys_clients y !! j = Some c → sys_clients y !! j' = Some c' →
  P (cl_op c) = true → P (cl_op c') = true →
  cl_phase c = Done (Ok tt) → cl_phase c' = Done (Ok tt) → j = j'.
Proof.
  intros Hv Hr Hs Hy Hwr Hone Hj Hj' Hc Hc' Hd Hd'.
  destruct (cas_linearizes r0 s ver found y Hv Hr Hs Hy) as ((cur & _ & _ & _ & Hap) & _ & Hlog & Hacc).
  assert (Hin : ∀ i x, sys_clients y !! i = Some x → P (cl_op x) = true → cl_phase x = Done (Ok tt) →
    (i, cl_op x) ∈ sys_log y).
  { intros i x Hi Hcx Hx. destruct (Hacc i x Hi Hx) as [?|(n & v & r & r' & v' & Hcl)]; [done|].
    by apply Hwr in Hcl. }
  destruct (decide (j = j')) as [|Hne]; [done|]. exfalso.
  assert (Hall : Forall allowed (sys_log y).*2).
  { apply list.Forall_forall. intros o ([i o'] & -> & [? _]%Hlog)%list_elem_of_fmap. done. }
  pose proof (Hone _ _ Hall Hap).
  pose proof (two_selected P (sys_log y) j j' _ _ (Hin _ _ Hj Hc Hd) (Hin _ _ Hj' Hc' Hd') Hne Hc Hc'). lia.
Qed.
End Clients.
