(* ===== verification/Suggest.v ===== *)
(** * The suggestion store: records and operations

    internal/suggest: one JSON record per conversation, kept in the plugin state
    store under a reserved namespace and changed by compare-and-set with at most
    eight attempts.  An operation is the closure it hands to [update]: a
    function of the record and of the variables it captures, which live across
    attempts.  Clock readings and random bytes are arguments, indexed by the
    attempt and by their order within it.

    SHA-256 and the SDK's argument validation are parameters; see SuggestStore
    for the state store and the JSON encoding. *)

From stdpp Require Import base list strings gmap sets numbers.
From Stdlib Require Import Ascii.
From S2P Require Import Prelude ByteStrings HeaderPolicy PluginState ConversationKeys RateLimit CasUpdate.

(** ** Data *)

Definition maxRecords : nat := 128.
Definition maxChanges : nat := 16.
Definition defaultExpiry : Z := 3.
Definition codeAlphabet : string := "23456789abcdefghjkmnpqrstuvwxyz".

Record Action := mkAction { act_ID : string; act_Label : string }.

Record Suggestion := mkSuggestion {
  sg_ID : string;
  sg_Code : string;
  sg_Plugin : string;
  sg_Conversation : string;
  sg_Kind : string;
  sg_DedupeKey : string;
  sg_Title : string;
  sg_Body : string;
  sg_Actions : list Action;
  sg_CostUSD : option float64;
  sg_HarnessTargetModel : string;
  sg_CreatedAt : Z;
  sg_CreatedTurn : Z;
  sg_ExpiresAfterUserTurns : Z;
  sg_Status : string;
  sg_Via : string;
  sg_Action : string;
  sg_Outcome : string;
  sg_HookAnnounced : bool }.

(** The zero value [Suggestion{}]. *)
Definition suggestion0 : Suggestion :=
  mkSuggestion "" "" "" "" "" "" "" "" [] None "" 0 0 0 "" "" "" "" false.

Definition with_status (st : string) (s : Suggestion) : Suggestion :=
  mkSuggestion (sg_ID s) (sg_Code s) (sg_Plugin s) (sg_Conversation s) (sg_Kind s) (sg_DedupeKey s) (sg_Title s)
    (sg_Body s) (sg_Actions s) (sg_CostUSD s) (sg_HarnessTargetModel s) (sg_CreatedAt s) (sg_CreatedTurn s)
    (sg_ExpiresAfterUserTurns s) st (sg_Via s) (sg_Action s) (sg_Outcome s) (sg_HookAnnounced s).
(** [item.Status, item.Action, item.Via = status, status, via]. *)
Definition resolveAs (st via : string) (s : Suggestion) : Suggestion :=
  mkSuggestion (sg_ID s) (sg_Code s) (sg_Plugin s) (sg_Conversation s) (sg_Kind s) (sg_DedupeKey s) (sg_Title s)
    (sg_Body s) (sg_Actions s) (sg_CostUSD s) (sg_HarnessTargetModel s) (sg_CreatedAt s) (sg_CreatedTurn s)
    (sg_ExpiresAfterUserTurns s) st via st (sg_Outcome s) (sg_HookAnnounced s).
Definition announce (s : Suggestion) : Suggestion :=
  mkSuggestion (sg_ID s) (sg_Code s) (sg_Plugin s) (sg_Conversation s) (sg_Kind s) (sg_DedupeKey s) (sg_Title s)
    (sg_Body s) (sg_Actions s) (sg_CostUSD s) (sg_HarnessTargetModel s) (sg_CreatedAt s) (sg_CreatedTurn s)
    (sg_ExpiresAfterUserTurns s) (sg_Status s) (sg_Via s) (sg_Action s) (sg_Outcome s) true.
Definition with_outcome (o : string) (s : Suggestion) : Suggestion :=
  mkSuggestion (sg_ID s) (sg_Code s) (sg_Plugin s) (sg_Conversation s) (sg_Kind s) (sg_DedupeKey s) (sg_Title s)
    (sg_Body s) (sg_Actions s) (sg_CostUSD s) (sg_HarnessTargetModel s) (sg_CreatedAt s) (sg_CreatedTurn s)
    (sg_ExpiresAfterUserTurns s) (sg_Status s) (sg_Via s) (sg_Action s) o (sg_HookAnnounced s).

Record operationRecord := mkOperation {
  op_SealedIntent : string;
  op_ExpiresAt : Z;
  op_Execution : string;
  op_IntentDigest : string }.
Definition operation0 : operationRecord := mkOperation "" 0 "" "".

Record changeRecord := mkChange {
  ch_ID : string;
  ch_Status : string;
  ch_CreatedAt : Z;
  ch_Code : string;
  ch_SealedUndo : string;
  ch_Revision : string }.

Record record := mkRecord {
  Conversation : string;
  UserTurns : Z;
  LastUserSignature : string;
  NoticeDisabled : bool;
  SetupHintSeen : bool;
  Suggestions : list Suggestion;
  Operations : gmap string operationRecord;
  Changes : gmap string changeRecord;
  LastHarnessModel : string;
  LastHarnessSwitchSource : string }.

Definition record0 (conversation : string) : record :=
  mkRecord conversation 0 "" false false [] ∅ ∅ "" "".

Definition with_items (l : list Suggestion) (ops : gmap string operationRecord) (r : record) : record :=
  mkRecord (Conversation r) (UserTurns r) (LastUserSignature r) (NoticeDisabled r) (SetupHintSeen r) l ops
    (Changes r) (LastHarnessModel r) (LastHarnessSwitchSource r).
Definition with_changes (c : gmap string changeRecord) (r : record) : record :=
  mkRecord (Conversation r) (UserTurns r) (LastUserSignature r) (NoticeDisabled r) (SetupHintSeen r) (Suggestions r)
    (Operations r) c (LastHarnessModel r) (LastHarnessSwitchSource r).

(** The fields of [pb.SuggestArgs] the store reads. *)
Record SuggestArgs := mkArgs {
  a_Kind : string;
  a_DedupeKey : string;
  a_Title : string;
  a_Body : string;
  a_Actions : list Action;
  a_CostUsd : option float64;
  a_HarnessTargetModel : option string;
  a_ExpiresAfterUserTurns : Z }.

(** ** Randomness *)

Definition alphabetAt (alphabet : string) (n : nat) : ascii := default "0"%char (String.get n alphabet).

Fixpoint map_string (f : ascii → ascii) (s : string) : string :=
  match s with "" => "" | String c s' => String (f c) (map_string f s') end.

(** [randomCode] on its four random bytes. *)
Definition randomCode (raw : string) : string :=
  map_string (λ c, alphabetAt codeAlphabet (N.to_nat (N_of_ascii c) mod String.length codeAlphabet)) raw.

(** Lower-case base32 of twelve bytes, without padding: 96 bits and four zero
    bits, five at a time. *)
Fixpoint base32Digits (n : nat) (v : N) : string :=
  match n with
  | O => ""
  | S n => base32Digits n (v / 32) +:+
           String (alphabetAt "abcdefghijklmnopqrstuvwxyz234567" (N.to_nat (v mod 32))) ""
  end.
Definition randomID (raw : string) : string := "sg_" +:+ base32Digits 20 (be_fold 0 raw * 16).

(** ** Helpers on a record *)

(** Whether [expire] retires an item, given its operation. *)
Definition retires (turn now : Z) (operation : option operationRecord) (item : Suggestion) : bool :=
  let timedOut := match operation with Some o => negb (now <? op_ExpiresAt o)%Z | None => false end in
  let turnExpired := match operation with
                     | Some _ => false
                     | None => (sg_CreatedTurn item <=? turn)%Z
                               && (sg_ExpiresAfterUserTurns item <=? turn - sg_CreatedTurn item)%Z
                     end in
  (String.eqb (sg_Status item) "pending"
   || match operation with
      | Some o => String.eqb (sg_Status item) "accepted" && String.eqb (op_Execution o) ""
      | None => false
      end)
  && (timedOut || turnExpired).

(** The loop of [expire]; the clock is read per item. *)
Fixpoint expireLoop (turn : Z) (now : nat → Z) (i : nat) (items : list Suggestion)
    (ops : gmap string operationRecord) : list Suggestion * gmap string operationRecord * bool :=
  match items with
  | [] => ([], ops, false)
  | item :: items =>
      let gone := retires turn (now i) (ops !! sg_ID item) item in
      let '(item', ops') := if gone then (with_status "expired" item, delete (sg_ID item) ops) else (item, ops) in
      let '(items', ops', changed) := expireLoop turn now (S i) items ops' in
      (item' :: items', ops', gone || changed)
  end.

Definition expire (turn : Z) (now : nat → Z) (r : record) : record * bool :=
  let '(items, ops, changed) := expireLoop turn now 0 (Suggestions r) (Operations r) in
  (with_items items ops r, changed).

Definition pending (item : Suggestion) : bool := String.eqb (sg_Status item) "pending".
Definition accepted (item : Suggestion) : bool := String.eqb (sg_Status item) "accepted".

Definition pruneOperationPayloads (r : record) : record :=
  let kept := list_to_set (sg_ID <$> filter (λ i, pending i = true ∨ accepted i = true) (Suggestions r)) : gset string in
  with_items (Suggestions r) (filter (λ kv, kv.1 ∈ kept) (Operations r)) r.

Fixpoint sameActions (items args : list Action) : bool :=
  match items, args with
  | [], [] => true
  | a :: items, b :: args => String.eqb (act_ID a) (act_ID b) && String.eqb (act_Label a) (act_Label b) && sameActions items args
  | _, _ => false
  end.

Definition sameSuggestionIntent (item : Suggestion) (args : SuggestArgs) : bool :=
  String.eqb (sg_Kind item) (a_Kind args)
  && String.eqb (sg_HarnessTargetModel item) (default "" (a_HarnessTargetModel args))
  && sameActions (sg_Actions item) (a_Actions args).

(** The first item satisfying a condition, by position. *)
Fixpoint firstIndex {A} (p : A → bool) (l : list A) : option nat :=
  match l with
  | [] => None
  | x :: l => if p x then Some 0 else S <$> firstIndex p l
  end.

(** Rewrite the first item satisfying a condition, and return it. *)
Definition onFirst (p : Suggestion → bool) (f : Suggestion → Suggestion) (l : list Suggestion)
    : list Suggestion * option Suggestion :=
  match firstIndex p l with
  | Some i => (alter f i l, f <$> l !! i)
  | None => (l, None)
  end.

Definition acceptHarnessSwitch (model via : string) (l : list Suggestion) : list Suggestion * list Suggestion :=
  let hit item := pending item && String.eqb (sg_HarnessTargetModel item) model && negb (String.eqb model "") in
  (map (λ item, if hit item then resolveAs "accepted" via item else item) l,
   map (resolveAs "accepted" via) (List.filter hit l)).

(** ** The closures *)

(** The variables the closures capture. *)
Record Vars := mkVars {
  v_item : Suggestion;          (* selected, resolved *)
  v_items : list Suggestion;    (* accepted *)
  v_turn : Z;
  v_text : string;              (* created, intent, the undo's id *)
  v_undo : string }.
Definition vars0 : Vars := mkVars suggestion0 [] 0 "" "".

Definition setItem (x : Suggestion) (v : Vars) : Vars := mkVars x (v_items v) (v_turn v) (v_text v) (v_undo v).
Definition setItems (l : list Suggestion) (v : Vars) : Vars := mkVars (v_item v) l (v_turn v) (v_text v) (v_undo v).
Definition setTurn (n : Z) (v : Vars) : Vars := mkVars (v_item v) (v_items v) n (v_text v) (v_undo v).
Definition setText (s : string) (v : Vars) : Vars := mkVars (v_item v) (v_items v) (v_turn v) s (v_undo v).
Definition setUndo (s : string) (v : Vars) : Vars := mkVars (v_item v) (v_items v) (v_turn v) (v_text v) s.

Abbreviation RecordClosure := (Closure record Vars).
Abbreviation clock := (nat → nat → Z).

Definition claimHookChange (turn : Z) (clk : clock) : RecordClosure := λ n v r,
  let v := setItem suggestion0 v in
  let '(r, changed) := expire turn (clk n) r in
  match onFirst (λ i, pending i && negb (sg_HookAnnounced i)) announce (Suggestions r) with
  | (items, Some item) => (Ok true, with_items items (Operations r) r, setItem item v)
  | (_, None) => (Ok changed, r, v)
  end.

Definition observeSwitchChange (model source : string) (turn : Z) (clk : clock) : RecordClosure := λ n v r,
  let v := setItems [] v in
  let '(r, changed) := expire turn (clk n) r in
  let moved := negb (String.eqb (LastHarnessModel r) model) || negb (String.eqb (LastHarnessSwitchSource r) source) in
  let r := if moved then
             mkRecord (Conversation r) (UserTurns r) (LastUserSignature r) (NoticeDisabled r) (SetupHintSeen r)
               (Suggestions r) (Operations r) (Changes r) model source
           else r in
  if negb (String.eqb source "auto") && negb (String.eqb source "resume") then
    let '(items, hits) := acceptHarnessSwitch model "adapter" (Suggestions r) in
    (Ok (changed || moved || negb (bool_decide (hits = []))), with_items items (Operations r) r, setItems hits v)
  else (Ok (changed || moved), r, v).

Definition disableNoticesChange : RecordClosure := λ _ v r,
  if NoticeDisabled r then (Ok false, r, v)
  else (Ok true, mkRecord (Conversation r) (UserTurns r) (LastUserSignature r) true (SetupHintSeen r) (Suggestions r)
                   (Operations r) (Changes r) (LastHarnessModel r) (LastHarnessSwitchSource r), v).

Definition observeTurnChange (signature : string) : RecordClosure := λ _ v r,
  if String.eqb (LastUserSignature r) signature then (Ok false, r, setTurn (UserTurns r) v)
  else
    let turn := uint64_of (UserTurns r + 1) in
    (Ok true, mkRecord (Conversation r) turn signature (NoticeDisabled r) (SetupHintSeen r) (Suggestions r)
                (Operations r) (Changes r) (LastHarnessModel r) (LastHarnessSwitchSource r), setTurn turn v).

(** The loop that draws a code not in use; [None] is a failed read. *)
Fixpoint pickCode (n j : nat) (draw : nat → option string) (used : gset string) : res suggErr string :=
  match n with
  | O => Err ErrConflict
  | S n =>
      match draw j with
      | None => Err ErrRandom
      | Some raw => let candidate := randomCode raw in
                    if bool_decide (candidate ∈ used) then pickCode n (S j) draw used else Ok candidate
      end
  end.

Definition orDefaultExpiry (n : Z) : Z := if (n =? 0)%Z then defaultExpiry else n.

(** The superseded items of a new or refreshed intent. *)
Definition supersedes (plugin : string) (args : SuggestArgs) (operation : option operationRecord) (item : Suggestion) : bool :=
  pending item && String.eqb (sg_Plugin item) plugin
  && match operation with None => true | Some _ => String.eqb (sg_DedupeKey item) (a_DedupeKey args) end.

Definition refreshable (plugin : string) (args : SuggestArgs) (operation : option operationRecord)
    (ops : gmap string operationRecord) (item : Suggestion) : bool :=
  match operation with
  | Some o => String.eqb (op_IntentDigest (default operation0 (ops !! sg_ID item))) (op_IntentDigest o)
  | None => true
  end
  && pending item && String.eqb (sg_Plugin item) plugin && String.eqb (sg_DedupeKey item) (a_DedupeKey args)
  && sameSuggestionIntent item args.

Definition refreshItem (turn : Z) (args : SuggestArgs) (s : Suggestion) : Suggestion :=
  mkSuggestion (sg_ID s) (sg_Code s) (sg_Plugin s) (sg_Conversation s) (sg_Kind s) (sg_DedupeKey s) (a_Title args)
    (a_Body args) (sg_Actions s) (a_CostUsd args) (sg_HarnessTargetModel s) (sg_CreatedAt s) turn
    (orDefaultExpiry (a_ExpiresAfterUserTurns args)) (sg_Status s) (sg_Via s) (sg_Action s) (sg_Outcome s)
    (sg_HookAnnounced s).

Definition putOperation (id : string) (operation : option operationRecord) (ops : gmap string operationRecord)
    : gmap string operationRecord :=
  match operation with Some o => <[id := o]> ops | None => ops end.

(** What one creation is given: identifier, code draws and creation time. *)
Record Fresh := mkFresh { f_ID : string; f_Draw : nat → nat → option string; f_Made : nat → Z }.

Definition newItem (conversation plugin code : string) (turn : Z) (args : SuggestArgs) (id : string) (made : Z) : Suggestion :=
  mkSuggestion id code plugin conversation (a_Kind args) (a_DedupeKey args) (a_Title args) (a_Body args) (a_Actions args)
    (a_CostUsd args) (default "" (a_HarnessTargetModel args)) made turn
    (orDefaultExpiry (a_ExpiresAfterUserTurns args)) "pending" "" "" "" false.

Definition usedCodes (r : record) : gset string :=
  list_to_set ((ch_Code ∘ snd) <$> map_to_list (Changes r)) ∪ list_to_set (sg_Code <$> Suggestions r).

Definition roomFor (r : record) (items : list Suggestion) : option (list Suggestion) :=
  if (maxRecords <=? length items)%nat then
    let kept := filter (λ i, pending i = true ∨ is_Some (Operations r !! sg_ID i) ∧ accepted i = true) items in
    if (maxRecords <=? length kept)%nat then None else Some kept
  else Some items.

Definition createChange (conversation plugin : string) (turn : Z) (args : SuggestArgs)
    (operation : option operationRecord) (fresh : Fresh) (clk : clock) : RecordClosure := λ n v r,
  let r := pruneOperationPayloads (expire turn (clk n) r).1 in
  match firstIndex (refreshable plugin args operation (Operations r)) (Suggestions r) with
  | Some k =>
      let items := imap (λ i item, if (i =? k)%nat then refreshItem turn args item
                                   else if supersedes plugin args operation item then with_status "superseded" item
                                   else item) (Suggestions r) in
      let id := match Suggestions r !! k with Some item => sg_ID item | None => "" end in
      (Ok true, with_items items (putOperation id operation (Operations r)) r, setText id v)
  | None =>
      let used := usedCodes r in
      let items := map (λ item, if supersedes plugin args operation item then with_status "superseded" item else item)
                     (Suggestions r) in
      match roomFor r items with
      | None => (Err ErrLimit, r, v)
      | Some items =>
          match pickCode 16 0 (f_Draw fresh n) used with
          | Err e => (Err e, r, v)
          | Ok code =>
              let item := newItem conversation plugin code turn args (f_ID fresh) (f_Made fresh n) in
              let r := with_items (items ++ [item]) (putOperation (f_ID fresh) operation (Operations r)) r in
              (Ok true, pruneOperationPayloads r, setText (f_ID fresh) v)
          end
      end
  end.

Definition expireChange (turn : Z) (clk : clock) : RecordClosure := λ n v r,
  let '(r, changed) := expire turn (clk n) r in (Ok changed, r, v).

(** [ResolveCode] and [ResolveID] differ in what selects the item. *)
Definition resolveChange (sel : Suggestion → bool) (action via : string) (turn : Z) (clk : clock) : RecordClosure := λ n v r,
  let '(r, expired) := expire turn (clk n) r in
  match onFirst (λ i, sel i && pending i) (resolveAs action via) (Suggestions r) with
  | (items, Some item) => (Ok true, with_items items (Operations r) r, setItem item v)
  | (_, None) => (Ok expired, r, v)
  end.

Definition acceptSwitchChange (model via : string) (turn : Z) (clk : clock) : RecordClosure := λ n v r,
  let '(r, changed) := expire turn (clk n) r in
  let v := setItems [] v in
  if String.eqb via "harness_switch" && negb (String.eqb (LastHarnessSwitchSource r) "") then (Ok changed, r, v)
  else
    let '(items, hits) := acceptHarnessSwitch model via (Suggestions r) in
    (Ok (changed || negb (bool_decide (hits = []))), with_items items (Operations r) r, setItems hits v).

(** ** Operations and their undo history *)

Definition acceptedItem (id : string) (item : Suggestion) : bool := String.eqb (sg_ID item) id && accepted item.

(** A stored operation that may still be claimed. *)
Definition claimable (now : Z) (o : operationRecord) : bool :=
  String.eqb (op_Execution o) "" && (now <? op_ExpiresAt o)%Z.

Definition applying (o : operationRecord) : operationRecord :=
  mkOperation (op_SealedIntent o) (op_ExpiresAt o) "applying" (op_IntentDigest o).

Definition claimOperationChange (id : string) (now : nat → Z) : RecordClosure := λ n v r,
  if existsb (acceptedItem id) (Suggestions r) then
    match Operations r !! id with
    | Some o =>
        if claimable (now n) o then
          (Ok true, with_items (Suggestions r) (<[id := applying o]> (Operations r)) r, setText (op_SealedIntent o) v)
        else (Err ErrNotFound, r, v)
    | None => (Err ErrNotFound, r, v)
    end
  else (Err ErrNotFound, r, v).

Definition finishChangeRecord (outcome : string) (c : changeRecord) : changeRecord :=
  mkChange (ch_ID c) outcome (ch_CreatedAt c) (ch_Code c)
    (if String.eqb outcome "applied" then ch_SealedUndo c else "") (ch_Revision c).

Definition finishOperationChange (id outcome : string) : RecordClosure := λ _ v r,
  match Operations r !! id with
  | Some o =>
      if String.eqb (op_Execution o) "applying" then
        match onFirst (acceptedItem id) (with_outcome outcome) (Suggestions r) with
        | (items, Some _) =>
            (Ok true, with_items items (delete id (Operations r))
                        (with_changes (alter (finishChangeRecord outcome) id (Changes r)) r), v)
        | (_, None) => (Err ErrNotFound, r, v)
        end
      else (Err ErrNotFound, r, v)
  | None => (Err ErrNotFound, r, v)
  end.

(** The oldest change whose outcome is settled, in one iteration order; the empty
    key stands for none. *)
Definition olderChange (changes : gmap string changeRecord) (oldest : string) (kc : string * changeRecord) : string :=
  if String.eqb (ch_Status kc.2) "prepared" || String.eqb (ch_Status kc.2) "undoing" then oldest
  else if String.eqb oldest ""
          || (ch_CreatedAt kc.2 <? from_option ch_CreatedAt 0 (changes !! oldest))%Z then kc.1
  else oldest.
Definition oldestChange (changes : gmap string changeRecord) : string :=
  foldl (olderChange changes) "" (map_to_list changes).

Definition prepareChange (id sealedUndo postRevision : string) (now made : nat → Z) : RecordClosure := λ n v r,
  match Operations r !! id with
  | Some o =>
      if claimable (now n) o then
        match firstIndex (acceptedItem id) (Suggestions r) ≫= λ i, Suggestions r !! i with
        | None => (Err ErrNotFound, r, v)
        | Some item =>
            let room := if (maxChanges <=? size (Changes r))%nat then
                          let oldest := oldestChange (Changes r) in
                          if String.eqb oldest "" then None else Some (delete oldest (Changes r))
                        else Some (Changes r) in
            match room with
            | None => (Err ErrLimit, r, v)
            | Some changes =>
                let c := mkChange id "prepared" (made n) (sg_Code item) sealedUndo postRevision in
                (Ok true, with_items (Suggestions r) (<[id := applying o]> (Operations r))
                            (with_changes (<[id := c]> changes) r), setText (op_SealedIntent o) v)
            end
        end
      else (Err ErrNotFound, r, v)
  | None => (Err ErrNotFound, r, v)
  end.

Definition claimUndoChange (changeID actualRevision : string) : RecordClosure := λ _ v r,
  match Changes r !! changeID with
  | Some c =>
      if negb (String.eqb (ch_Status c) "applied") then (Err ErrNotFound, r, v)
      else if negb (String.eqb actualRevision (ch_Revision c)) then (Err ErrConflict, r, v)
      else
        let c' := mkChange (ch_ID c) "undoing" (ch_CreatedAt c) (ch_Code c) (ch_SealedUndo c) (ch_Revision c) in
        (Ok true, with_changes (<[changeID := c']> (Changes r)) r, setUndo (ch_SealedUndo c) (setText changeID v))
  | None => (Err ErrNotFound, r, v)
  end.

Definition finishUndoChange (id outcome : string) : RecordClosure := λ _ v r,
  match Changes r !! id with
  | Some c =>
      if String.eqb (ch_Status c) "undoing" then
        (Ok true, with_changes (<[id := mkChange (ch_ID c) outcome (ch_CreatedAt c) (ch_Code c) "" (ch_Revision c)]>
                                  (Changes r)) r, v)
      else (Err ErrNotFound, r, v)
  | None => (Err ErrNotFound, r, v)
  end.

(** The closure of [SetupHint]. *)
Definition setupItem (conversation id name : string) (turn now : Z) : Suggestion :=
  mkSuggestion id "" "torana" conversation "torana_setup" ("setup/" +:+ name) "Connect Torana to your harness"
    ("Connect Torana's MCP server to inspect plugins and propose changes from your harness. " +:+
     if String.eqb name "antigravity" then "See the Torana harness setup guide for generic stdio configuration."
     else "Preview with torana harness setup " +:+ name +:+ " --dry-run, then run it without --dry-run to review and apply.")
    [mkAction "dismiss" "Dismiss"] None "" now turn defaultExpiry "pending" "" "" "" false.

Definition setupHintChange (conversation id name : string) (turn now : Z) : RecordClosure := λ _ v r,
  if SetupHintSeen r then (Ok false, r, v)
  else
    let r := mkRecord (Conversation r) (UserTurns r) (LastUserSignature r) (NoticeDisabled r) true (Suggestions r)
               (Operations r) (Changes r) (LastHarnessModel r) (LastHarnessSwitchSource r) in
    if (maxRecords <=? length (Suggestions r))%nat then (Ok true, r, v)
    else (Ok true, with_items (Suggestions r ++ [setupItem conversation id name turn now]) (Operations r) r, setText id v).
