(* ===== verification/SuggestStore.v ===== *)
(** * The suggestion store: reading, writing and entry points

    [read], [update] and the methods of internal/suggest over the interfaces they
    use.  What other clients do between the two accesses of an attempt is an
    argument. *)

From stdpp Require Import base list strings gmap sets numbers sorting.
From stdpp Require Import base list strings gmap sets numbers.
From stdpp Require Import base list strings gmap sets numbers relations.
From S2P Require Import Prelude ByteStrings PluginState ConversationKeys CasUpdate Suggest.

(** ** Interfaces *)

(** [encoding/json] on a record. *)
Class RecordCodec := {
  marshal : record → res string string;
  unmarshal : string → res string record }.

Section Store.
Context {St : Type} `{SO : StateOps St} `{C : RecordCodec}.
Context (sha256 : string → string).

Definition conversationKey (conversation : string) : string :=
  "conversation/" +:+ EncodeToString (sha256 conversation).

Definition decodeConversation (conversation value : string) : res suggErr record :=
  match unmarshal value with
  | Err e => Err (ErrDecode e)
  | Ok current => if String.eqb (Conversation current) conversation then Ok current else Err ErrCollision
  end.

(** [read] on a configured store. *)
Definition read (s : St) (conversation : string) : res suggErr (record * string * bool) :=
  if String.eqb conversation "" then Err ErrStoreRequired
  else readDoc (decodeConversation conversation) (record0 conversation) (conversationKey conversation) s.

(** [update]; its first [read] refuses an empty conversation in any state. *)
Definition update (others : nat → St → St) (conversation : string) (change : RecordClosure) (s : St)
    : res suggErr unit * Vars * St :=
  if String.eqb conversation "" then (Err ErrStoreRequired, vars0, s)
  else updateDoc (decodeConversation conversation) marshal (record0 conversation) (conversationKey conversation)
         others change s vars0.

(** ** Entry points *)

(** [pb.SuggestArgs.Validate]. *)
Context (ValidateArgs : SuggestArgs → res string unit).
Context (others : nat → St → St).

(** An operation that reports an error or the variables of its closure; the value
    Go returns beside an error is not kept. *)
Definition report {A} (x : res suggErr unit * Vars * St) (f : Vars → res suggErr A) : res suggErr A * St :=
  let '(r, v, s) := x in (match r with Ok _ => f v | Err e => Err e end, s).

Definition ClaimHookAnnouncement (s : St) (conversation : string) (turn : Z) (clk : clock) :=
  report (update others conversation (claimHookChange turn clk) s) (λ v, Ok (v_item v)).

Definition ObserveAdapterSwitch (s : St) (conversation model source : string) (turn : Z) (clk : clock)
    : res suggErr (list Suggestion) * St :=
  if bool_decide (source ∈ ["command"; "picker"; "sdk"; "auto"; "resume"]) then
    report (update others conversation (observeSwitchChange model source turn clk) s) (λ v, Ok (v_items v))
  else (Err (ErrArgument "invalid adapter switch source"), s).

Definition DisableNotices (s : St) (conversation : string) :=
  report (update others conversation disableNoticesChange s) (λ _, Ok tt).

Definition NoticesDisabled (s : St) (conversation : string) : res suggErr bool :=
  '(current, _, _) ←? read s conversation; Ok (NoticeDisabled current).

Definition ObserveUserTurn (s : St) (conversation signature : string) : res suggErr Z * St :=
  if String.eqb signature "" then
    ('(current, _, _) ←? read s conversation; Ok (UserTurns current), s)
  else report (update others conversation (observeTurnChange signature) s) (λ v, Ok (v_turn v)).

(** The random bytes of [randomID] come with the call. *)
Definition create (s : St) (conversation plugin : string) (turn : Z) (args : option SuggestArgs)
    (operation : option operationRecord) (rawID : option string) (draw : nat → nat → option string)
    (made : nat → Z) (clk : clock) : res suggErr string * St :=
  match args with
  | None => (Err (ErrArgument "plugin and suggestion are required"), s)
  | Some args =>
      if String.eqb plugin "" then (Err (ErrArgument "plugin and suggestion are required"), s)
      else match ValidateArgs args, rawID with
           | Err e, _ => (Err (ErrArgument e), s)
           | Ok _, None => (Err ErrRandom, s)
           | Ok _, Some raw =>
               report (update others conversation
                         (createChange conversation plugin turn args operation (mkFresh (randomID raw) draw made) clk) s)
                 (λ v, Ok (v_text v))
           end
  end.

Definition Create (s : St) (conversation plugin : string) (turn : Z) (args : option SuggestArgs)
    (rawID : option string) (draw : nat → nat → option string) (made : nat → Z) (clk : clock) :=
  if String.eqb plugin "torana" || from_option (λ a, HasPrefix (a_Kind a) "torana_") false args then
    (Err (ErrArgument "host suggestion kinds are reserved"), s)
  else create s conversation plugin turn args None rawID draw made clk.

Record OperationProposal := mkProposal {
  IntentKey : string; IntentDigest : string; ProposalTitle : string; ProposalBody : string;
  SealedIntent : string; ExpiresAt : Z }.

Definition sealedLimit : Z := Z.shiftl 128 10.

Definition CreateOperation (s : St) (conversation : string) (turn : Z) (p : OperationProposal) (now : Z)
    (rawID : option string) (draw : nat → nat → option string) (made : nat → Z) (clk : clock) :=
  if String.eqb (IntentDigest p) "" || (128 <? len (IntentDigest p))%Z || negb (HasPrefix (SealedIntent p) "enc:")
     || (sealedLimit <? len (SealedIntent p))%Z || negb (now <? ExpiresAt p)%Z then
    (Err (ErrArgument "sealed operation intent and a future expiry are required"), s)
  else
    create s conversation "torana" turn
      (Some (mkArgs "torana_operation" (IntentKey p) (ProposalTitle p) (ProposalBody p) [] None None 100))
      (Some (mkOperation (SealedIntent p) (ExpiresAt p) "" (IntentDigest p))) rawID draw made clk.

Definition List (s : St) (conversation plugin : string) (turn : Z) (clk : clock) : res suggErr (list Suggestion) * St :=
  match update others conversation (expireChange turn clk) s with
  | (Err e, _, s) => (Err e, s)
  | (Ok _, _, s) =>
      ('(current, _, _) ←? read s conversation;
       Ok (filter (λ i, plugin = "" ∨ sg_Plugin i = plugin) (Suggestions current)), s)
  end.

(** The zero value of the captured suggestion means that nothing was resolved. *)
Definition resolved (v : Vars) : res suggErr Suggestion :=
  if String.eqb (sg_ID (v_item v)) "" then Err ErrNotFound else Ok (v_item v).

Definition validAction (action : string) : bool := String.eqb action "accepted" || String.eqb action "dismissed".

Definition ResolveCode (s : St) (conversation code action via : string) (turn : Z) (clk : clock) :=
  if validAction action then
    report (update others conversation (resolveChange (λ i, String.eqb (sg_Code i) code) action via turn clk) s) resolved
  else (Err (ErrArgument "invalid suggestion action"), s).

Definition ResolveID (s : St) (conversation id action via : string) (turn : Z) (clk : clock) :=
  if negb (validAction action) then (Err (ErrArgument "invalid suggestion action"), s)
  else if String.eqb id "" then (Err ErrNotFound, s)
  else report (update others conversation (resolveChange (λ i, String.eqb (sg_ID i) id) action via turn clk) s) resolved.

Definition AcceptHarnessSwitchVia (s : St) (conversation model via : string) (turn : Z) (clk : clock) :=
  if String.eqb via "harness_switch" || String.eqb via "adapter" then
    report (update others conversation (acceptSwitchChange model via turn clk) s) (λ v, Ok (v_items v))
  else (Err (ErrArgument "invalid harness switch source"), s).

Definition AcceptHarnessSwitch (s : St) (conversation model : string) (turn : Z) (clk : clock) :=
  AcceptHarnessSwitchVia s conversation model "harness_switch" turn clk.

Definition AcceptedOperationIntent (s : St) (conversation id : string) (now : Z) : res suggErr string :=
  '(current, _, _) ←? read s conversation;
  match Operations current !! id with
  | Some o => if claimable now o && existsb (acceptedItem id) (Suggestions current) then Ok (op_SealedIntent o)
              else Err ErrNotFound
  | None => Err ErrNotFound
  end.

Definition ClaimOperation (s : St) (conversation id : string) (now : nat → Z) :=
  report (update others conversation (claimOperationChange id now) s) (λ v, Ok (v_text v)).

Definition FinishOperation (s : St) (conversation id outcome : string) : res suggErr unit * St :=
  if bool_decide (outcome ∈ ["applied"; "failed"; "conflict"]) then
    report (update others conversation (finishOperationChange id outcome) s) (λ _, Ok tt)
  else (Err (ErrArgument "invalid operation outcome"), s).

Definition PrepareOperationChange (s : St) (conversation id sealedUndo postRevision : string) (now made : nat → Z) :=
  if negb (HasPrefix sealedUndo "enc:") || (sealedLimit <? len sealedUndo)%Z || String.eqb postRevision "" then
    (Err (ErrArgument "encrypted undo snapshot and candidate revision are required"), s)
  else report (update others conversation (prepareChange id sealedUndo postRevision now made) s) (λ v, Ok (v_text v)).

(** What a listing shows of a change, by creation time, then by ID. *)
Record Change := mkShown { shown_ID : string; shown_Status : string; shown_CreatedAt : Z }.
Definition shown (c : changeRecord) : Change := mkShown (ch_ID c) (ch_Status c) (ch_CreatedAt c).

Definition changeBefore (a b : Change) : Prop :=
  (shown_CreatedAt a < shown_CreatedAt b)%Z
  ∨ shown_CreatedAt a = shown_CreatedAt b ∧ String.le (shown_ID a) (shown_ID b).
#[global] Instance changeBefore_dec : RelDecision changeBefore.
Proof. intros a b. unfold changeBefore. apply _. Defined.

Definition ListChanges (s : St) (conversation : string) : res suggErr (list Change) :=
  '(current, _, _) ←? read s conversation;
  Ok (merge_sort changeBefore (shown ∘ snd <$> map_to_list (Changes current))).

Definition ClaimUndo (s : St) (conversation changeID actualRevision : string) : res suggErr (string * string) * St :=
  report (update others conversation (claimUndoChange changeID actualRevision) s) (λ v, Ok (v_text v, v_undo v)).

Definition FinishUndo (s : St) (conversation id outcome : string) : res suggErr unit * St :=
  if bool_decide (outcome ∈ ["undone"; "failed"; "conflict"]) then
    report (update others conversation (finishUndoChange id outcome) s) (λ _, Ok tt)
  else (Err (ErrArgument "invalid undo outcome"), s).
End Store.

(** * The suggestion store: what a closure does to a record

    [Op] names the closures the store runs.  [op_progress]: towards one
    operation no closure makes a settled item pending again or a claimed
    operation claimable, unless it draws that operation's identifier.
    [op_bounded]: the lists stay within their limits. *)

Inductive Op :=
| OpHook (turn : Z) (clk : clock)
| OpSwitch (model source : string) (turn : Z) (clk : clock)
| OpDisable
| OpTurn (signature : string)
| OpCreate (conversation plugin : string) (turn : Z) (args : SuggestArgs) (operation : option operationRecord)
    (fresh : Fresh) (clk : clock)
| OpExpire (turn : Z) (clk : clock)
| OpResolve (sel : Suggestion → bool) (action via : string) (turn : Z) (clk : clock)
| OpHarness (model via : string) (turn : Z) (clk : clock)
| OpClaim (id : string) (now : nat → Z)
| OpFinish (id outcome : string)
| OpPrepare (id sealedUndo postRevision : string) (now made : nat → Z)
| OpClaimUndo (changeID actualRevision : string)
| OpFinishUndo (id outcome : string)
| OpSetup (conversation id name : string) (turn now : Z).

Definition closure (o : Op) : RecordClosure :=
  match o with
  | OpHook turn clk => claimHookChange turn clk
  | OpSwitch model source turn clk => observeSwitchChange model source turn clk
  | OpDisable => disableNoticesChange
  | OpTurn signature => observeTurnChange signature
  | OpCreate conversation plugin turn args operation fresh clk =>
      createChange conversation plugin turn args operation fresh clk
  | OpExpire turn clk => expireChange turn clk
  | OpResolve sel action via turn clk => resolveChange sel action via turn clk
  | OpHarness model via turn clk => acceptSwitchChange model via turn clk
  | OpClaim id now => claimOperationChange id now
  | OpFinish id outcome => finishOperationChange id outcome
  | OpPrepare id sealedUndo rev now made => prepareChange id sealedUndo rev now made
  | OpClaimUndo changeID rev => claimUndoChange changeID rev
  | OpFinishUndo id outcome => finishUndoChange id outcome
  | OpSetup conversation id name turn now => setupHintChange conversation id name turn now
  end.

(** The two closures that claim an operation for execution. *)
Definition claims (id : string) (o : Op) : bool :=
  match o with
  | OpClaim id' _ | OpPrepare id' _ _ _ _ => String.eqb id' id
  | _ => false
  end.

(** The identifier a closure may give to a new item. *)
Definition draws (o : Op) : option string :=
  match o with
  | OpCreate _ _ _ _ _ fresh _ => Some (f_ID fresh)
  | OpSetup _ id _ _ _ => Some id
  | _ => None
  end.

(** A resolution settles its item: its action is not to leave it pending. *)
Definition settles (o : Op) : bool :=
  match o with OpResolve _ action _ _ _ => validAction action | _ => true end.

Section Progress.
Context (id : string).

(** ** Items of one operation *)

Definition named (l : list Suggestion) : list Suggestion := filter (λ i, sg_ID i = id) l.

(** [b] is [a] after a step: the same name, and pending only if [a] was. *)
Definition keeps (a b : Suggestion) : Prop := sg_ID b = sg_ID a ∧ (pending b = true → pending a = true).

(** The operation may be claimed now or after an acceptance. *)
Definition open (r : record) : Prop :=
  (∃ o, Operations r !! id = Some o ∧ op_Execution o = "") ∨ (∃ a, a ∈ named (Suggestions r) ∧ pending a = true).

Record progress (r r' : record) : Prop := {
  prog_length : length (named (Suggestions r')) ≤ length (named (Suggestions r));
  prog_pending : ∀ b, b ∈ named (Suggestions r') → pending b = true → ∃ a, a ∈ named (Suggestions r) ∧ pending a = true;
  prog_open : ∀ o, Operations r' !! id = Some o → op_Execution o = "" → open r }.

#[global] Instance progress_preorder : PreOrder progress.
Proof.
  split.
  - intros r. split; [done|eauto|unfold open; eauto].
  - intros r1 r2 r3 [A1 A2 A3] [B1 B2 B3]. split; [lia| |].
    + intros b Hb Hp. destruct (B2 b Hb Hp) as (a & Ha & Hp'). eauto.
    + intros o Ho He. destruct (B3 o Ho He) as [(o' & Ho' & He')|(a & Ha & Hp)]; [eauto|].
      right. eauto.
Qed.

Lemma named_keeps l l' : Forall2 keeps l l' →
  length (named l') = length (named l) ∧
  ∀ b, b ∈ named l' → pending b = true → ∃ a, a ∈ named l ∧ pending a = true.
Proof.
  unfold named. induction 1 as [|a b l l' [Hid Hp] H [IH1 IH2]]; [by split; [|by intros ? ?%not_elem_of_nil]|].
  rewrite !filter_cons, Hid. case_decide as Ha; [|done]. simpl. split; [lia|].
  intros c [->|Hc]%elem_of_cons Hpc; [exists a; split; [left|auto]|].
  destruct (IH2 c Hc Hpc) as (a' & ? & ?). exists a'. split; [by right|done].
Qed.

(** Steps that keep the items and touch the operations only to remove them. *)
Lemma progress_keeps r l ops : Forall2 keeps (Suggestions r) l →
  (∀ o, ops !! id = Some o → op_Execution o = "" → open r) →
  progress r (with_items l ops r).
Proof.
  intros H Ho. destruct (named_keeps _ _ H) as [H1 H2]. split; simpl; [lia|done|done].
Qed.

Lemma progress_sub r l ops : Forall2 keeps (Suggestions r) l → ops ⊆ Operations r →
  progress r (with_items l ops r).
Proof.
  intros H Hs. apply progress_keeps; [done|]. intros o Ho He. left. exists o. split; [|done].
  by eapply lookup_weaken.
Qed.

Lemma keeps_refl l : Forall2 keeps l l.
Proof. induction l; constructor; [done|done]. Qed.

Lemma keeps_map (f : Suggestion → Suggestion) l : (∀ x, keeps x (f x)) → Forall2 keeps l (map f l).
Proof. intros H. induction l; simpl; constructor; auto. Qed.

Lemma keeps_imap (f : nat → Suggestion → Suggestion) l : (∀ i x, keeps x (f i x)) → Forall2 keeps l (imap f l).
Proof. revert f; induction l as [|x l IH]; intros f H; simpl; constructor; [done|]. apply IH. intros i y. apply H. Qed.

Lemma keeps_alter f i l : (∀ x, keeps x (f x)) → Forall2 keeps l (alter f i l).
Proof.
  intros H. revert i; induction l as [|x l IH]; intros [|i]; simpl; [done..| |].
  - constructor; [done|apply keeps_refl].
  - constructor; [done|apply IH].
Qed.

Lemma keeps_onFirst p f l l' o : (∀ x, keeps x (f x)) → onFirst p f l = (l', o) → Forall2 keeps l l'.
Proof.
  intros H. unfold onFirst. destruct (firstIndex p l); intros [= <- <-]; auto using keeps_alter, keeps_refl.
Qed.

Lemma keeps_status st x : st ≠ "pending" → keeps x (with_status st x).
Proof. intros H. split; [done|]. unfold pending. simpl. by intros ?%String.eqb_eq. Qed.
Lemma keeps_resolve st via x : st ≠ "pending" → keeps x (resolveAs st via x).
Proof. intros H. split; [done|]. unfold pending. simpl. by intros ?%String.eqb_eq. Qed.

(** [expire] and pruning. *)
Lemma expireLoop_keeps turn now i items ops items' ops' c :
  expireLoop turn now i items ops = (items', ops', c) → Forall2 keeps items items' ∧ ops' ⊆ ops.
Proof.
  revert i ops items' ops' c; induction items as [|x items IH]; intros i ops items' ops' c; simpl.
  { by intros [= <- <- <-]. }
  destruct (retires _ _ _ _); destruct (expireLoop _ _ _ _ _) as [[items1 ops1] c1] eqn:E; intros [= <- <- <-];
    apply IH in E as [H1 H2]; (split; [constructor; [|done]|]).
  - by apply keeps_status.
  - etrans; [done|]. apply delete_subseteq.
  - done.
  - done.
Qed.

Lemma expire_progress turn now r r' c : expire turn now r = (r', c) → progress r r'.
Proof.
  unfold expire. destruct (expireLoop _ _ _ _ _) as [[items ops] c'] eqn:E. intros [= <- <-].
  apply expireLoop_keeps in E as [H1 H2]. by apply progress_sub.
Qed.

Lemma prune_progress r : progress r (pruneOperationPayloads r).
Proof. apply progress_sub; [apply keeps_refl|apply map_filter_subseteq]. Qed.

(** A step within the same record of items and operations, whatever else it sets. *)
Lemma progress_same r r' : Suggestions r' = Suggestions r → Operations r' = Operations r → progress r r'.
Proof. intros H1 H2. split; rewrite ?H1, ?H2; unfold open; eauto. Qed.

(** ** Each closure *)

Lemma putOperation_other id' operation ops : id' ≠ id → putOperation id' operation ops !! id = ops !! id.
Proof. intros H. unfold putOperation. destruct operation; [by rewrite lookup_insert_ne|done]. Qed.

Lemma refresh_keeps turn args x : keeps x (refreshItem turn args x).
Proof. done. Qed.

Lemma supersede_keeps plugin args operation x :
  keeps x (if supersedes plugin args operation x then with_status "superseded" x else x).
Proof. destruct (supersedes _ _ _ _); [by apply keeps_status|done]. Qed.

Lemma firstIndex_spec {A} (p : A → bool) l k : firstIndex p l = Some k → ∃ x, l !! k = Some x ∧ p x = true.
Proof.
  revert k; induction l as [|x l IH]; intros k; simpl; [done|]. destruct (p x) eqn:E.
  - intros [= <-]. eauto.
  - intros (k' & Hk' & ->)%fmap_Some. simpl. eauto.
Qed.

(** The refreshed item was pending. *)
Lemma refreshed_open plugin args operation r k item :
  firstIndex (refreshable plugin args operation (Operations r)) (Suggestions r) = Some k →
  Suggestions r !! k = Some item → sg_ID item = id → open r.
Proof.
  intros (x & Hx & Hp)%firstIndex_spec Hi Hid. rewrite Hi in Hx. injection Hx as <-. right. exists item. split.
  - apply list_elem_of_filter. split; [done|]. by eapply list_elem_of_lookup_2.
  - unfold refreshable in Hp. by rewrite !andb_true_iff in Hp; destruct_and!.
Qed.

Lemma named_app l x : sg_ID x ≠ id → named (l ++ [x]) = named l.
Proof. intros H. unfold named. rewrite list.filter_app, filter_cons_False by done. by rewrite app_nil_r. Qed.

Lemma named_sublist l' l : l' `sublist_of` l → named l' `sublist_of` named l.
Proof.
  unfold named. induction 1 as [|x l' l H IH|x l' l H IH]; [done| |]; rewrite ?filter_cons; case_decide;
    [by constructor|done|by constructor|done].
Qed.

(** Dropping items and appending one of another name. *)
Lemma progress_append r l l' ops x : Forall2 keeps (Suggestions r) l → l' `sublist_of` l → sg_ID x ≠ id →
  ops !! id = Operations r !! id → progress r (with_items (l' ++ [x]) ops r).
Proof.
  intros Hk Hs Hx Ho. destruct (named_keeps _ _ Hk) as [H1 H2]. split; simpl; rewrite ?named_app by done.
  - rewrite <- H1. by apply sublist_length, named_sublist.
  - intros b Hb. apply H2. by eapply elem_of_sublist, named_sublist.
  - intros o. rewrite Ho. intros Ho' He. left. eauto.
Qed.

Lemma roomFor_sublist r items l : roomFor r items = Some l → l `sublist_of` items.
Proof.
  unfold roomFor. destruct (_ <=? _)%nat; [|by intros [= <-]]. destruct (_ <=? _)%nat; [done|].
  intros [= <-]. apply sublist_filter.
Qed.

Lemma create_progress conversation plugin turn args operation fresh clk n v r r' v' :
  f_ID fresh ≠ id → createChange conversation plugin turn args operation fresh clk n v r = (Ok true, r', v') →
  progress r r'.
Proof.
  intros Hid. unfold createChange. set (r1 := pruneOperationPayloads _).
  assert (H1 : progress r r1).
  { unfold r1. destruct (expire turn (clk n) r) as [r0 c] eqn:E. etrans; [by eapply expire_progress|apply prune_progress]. }
  intros H. etrans; [exact H1|]. clearbody r1. clear H1.
  destruct (firstIndex _ _) as [k|] eqn:Ek.
  - injection H as <- _. apply progress_keeps.
    + apply keeps_imap. intros i x. destruct (i =? k)%nat; [done|apply supersede_keeps].
    + intros o Ho He. destruct (firstIndex_spec _ _ _ Ek) as (item & Ei & _). rewrite Ei in Ho.
      destruct (decide (sg_ID item = id)) as [Hi|Hi]; [by eapply refreshed_open|].
      rewrite putOperation_other in Ho by done. left. eauto.
  - destruct (roomFor _ _) as [items|] eqn:Er; [|done]. destruct (pickCode _ _ _ _) as [code|]; [|done].
    injection H as <- _. etrans; [|apply prune_progress].
    eapply progress_append; [by apply keeps_map, supersede_keeps|by eapply roomFor_sublist|done|].
    by apply putOperation_other.
Qed.

Ltac progress_onFirst E :=
  apply keeps_onFirst in E; [apply progress_sub; [exact E|done]|].

Lemma resolve_progress sel action via turn clk n v r r' v' :
  action ≠ "pending" → resolveChange sel action via turn clk n v r = (Ok true, r', v') → progress r r'.
Proof.
  intros Ha. unfold resolveChange. destruct (expire turn (clk n) r) as [r0 c] eqn:Ee. apply expire_progress in Ee.
  destruct (onFirst _ _ _) as [items [item|]] eqn:E; intros [= ]; subst; (etrans; [exact Ee|]); [|done].
  progress_onFirst E. intros x. by apply keeps_resolve.
Qed.

Lemma hook_progress turn clk n v r r' v' :
  claimHookChange turn clk n v r = (Ok true, r', v') → progress r r'.
Proof.
  unfold claimHookChange. destruct (expire turn (clk n) r) as [r0 c] eqn:Ee. apply expire_progress in Ee.
  destruct (onFirst _ _ _) as [items [item|]] eqn:E; intros [= ]; subst; (etrans; [exact Ee|]); [|done].
  by progress_onFirst E.
Qed.

Lemma harness_keeps model via l : Forall2 keeps l (acceptHarnessSwitch model via l).1.
Proof. apply keeps_map. intros x. destruct (_ && _); [by apply keeps_resolve|done]. Qed.

Lemma switch_progress model source turn clk n v r r' v' :
  observeSwitchChange model source turn clk n v r = (Ok true, r', v') → progress r r'.
Proof.
  unfold observeSwitchChange. destruct (expire turn (clk n) r) as [r0 c] eqn:Ee. apply expire_progress in Ee.
  set (r1 := if _ : bool then mkRecord _ _ _ _ _ _ _ _ _ _ else r0).
  assert (H1 : progress r0 r1) by (unfold r1; by case_match; apply progress_same).
  intros H. etrans; [exact Ee|]. etrans; [exact H1|]. clearbody r1. destruct (_ && _); [|by simplify_eq].
  pose proof (harness_keeps model "adapter" (Suggestions r1)). destruct (acceptHarnessSwitch _ _ _) as [items hits].
  simplify_eq. by apply progress_sub.
Qed.

Lemma accept_progress model via turn clk n v r r' v' :
  acceptSwitchChange model via turn clk n v r = (Ok true, r', v') → progress r r'.
Proof.
  unfold acceptSwitchChange. destruct (expire turn (clk n) r) as [r0 c] eqn:Ee. apply expire_progress in Ee.
  intros H. etrans; [exact Ee|]. destruct (_ && _); [by simplify_eq|].
  pose proof (harness_keeps model via (Suggestions r0)). destruct (acceptHarnessSwitch _ _ _) as [items hits].
  simplify_eq. by apply progress_sub.
Qed.

(** A claim of any operation leaves it unclaimable. *)
Lemma applying_progress r id' o c : Operations r !! id' = Some o →
  progress r (with_items (Suggestions r) (<[id' := applying o]> (Operations r)) (with_changes c r)).
Proof.
  intros Ho. etrans; [by apply (progress_same r (with_changes c r))|].
  apply progress_keeps; [apply keeps_refl|]. intros o' [[<- <-]|[_ Ho']]%lookup_insert_Some He; [done|left; eauto].
Qed.

Lemma claim_progress id' now n v r r' v' :
  claimOperationChange id' now n v r = (Ok true, r', v') → progress r r'.
Proof.
  unfold claimOperationChange. intros H. repeat split_match_in H; simplify_eq.
  by apply (applying_progress r id' _ (Changes r)).
Qed.

Lemma prepare_progress id' undo rev now made n v r r' v' :
  prepareChange id' undo rev now made n v r = (Ok true, r', v') → progress r r'.
Proof. unfold prepareChange. intros H. repeat split_match_in H; simplify_eq; by apply applying_progress. Qed.

Lemma finish_progress id' outcome n v r r' v' :
  finishOperationChange id' outcome n v r = (Ok true, r', v') → progress r r'.
Proof.
  unfold finishOperationChange. destruct (Operations r !! id'); [|done]. destruct (String.eqb _ _); [|done].
  destruct (onFirst _ _ _) as [items [item|]] eqn:E; [|done]. intros [= <- _].
  etrans; [by apply (progress_same r (with_changes (alter (finishChangeRecord outcome) id' (Changes r)) r))|].
  apply keeps_onFirst in E; [|done]. apply progress_sub; [done|]. apply delete_subseteq.
Qed.

(** No closure reopens an operation it did not create. *)
Lemma op_progress o n v r r' v' : draws o ≠ Some id → settles o = true →
  closure o n v r = (Ok true, r', v') → progress r r'.
Proof.
  intros Hd Hs. destruct o; simpl in *.
  - apply hook_progress.
  - apply switch_progress.
  - unfold disableNoticesChange. intros H. split_match_in H; simplify_eq. by apply progress_same.
  - unfold observeTurnChange. intros H. split_match_in H; simplify_eq. by apply progress_same.
  - apply create_progress. congruence.
  - unfold expireChange. destruct (expire _ _ _) as [r0 c] eqn:E. intros [= _ <- _]. by eapply expire_progress.
  - apply resolve_progress. intros ->. done.
  - apply accept_progress.
  - apply claim_progress.
  - apply finish_progress.
  - apply prepare_progress.
  - unfold claimUndoChange. intros H. repeat split_match_in H; simplify_eq. by apply progress_same.
  - unfold finishUndoChange. intros H. repeat split_match_in H; simplify_eq. by apply progress_same.
  - unfold setupHintChange. intros H. repeat split_match_in H; simplify_eq; [by apply progress_same|].
    set (r1 := mkRecord _ _ _ _ _ _ _ _ _ _). etrans; [by apply (progress_same r r1)|].
    apply (progress_append r1 (Suggestions r) (Suggestions r)); [apply keeps_refl|done|simpl; congruence|done].
Qed.

(** ** Claims *)

Lemma not_both item : accepted item = true → pending item = true → False.
Proof. unfold accepted, pending. by intros ->%String.eqb_eq. Qed.

(** With one item of that name, and that one accepted, a claimed operation is
    closed. *)
Lemma applied_closed r c item o : length (named (Suggestions r)) ≤ 1 → item ∈ Suggestions r → acceptedItem id item = true →
  ¬ open (with_items (Suggestions r) (<[id := applying o]> (Operations r)) (with_changes c r)).
Proof.
  intros Hu Hi Ha. apply andb_true_iff in Ha as [Hid%String.eqb_eq Hacc].
  assert (Hn : item ∈ named (Suggestions r)) by by apply list_elem_of_filter.
  intros [(o' & Ho & He)|(a & Hin & Hp)]; simpl in *; [by rewrite lookup_insert_eq in Ho; simplify_eq|].
  destruct (named (Suggestions r)) as [|x [|y l]]; simpl in Hu; [by apply not_elem_of_nil in Hn| |lia].
  apply list_elem_of_singleton in Hn, Hin. subst. by eapply not_both.
Qed.

Lemma claimable_fresh now o : claimable now o = true → op_Execution o = "".
Proof. unfold claimable. by intros [?%String.eqb_eq _]%andb_true_iff. Qed.

Lemma claim_closes o n v r r' v' : claims id o = true → length (named (Suggestions r)) ≤ 1 →
  closure o n v r = (Ok true, r', v') → open r ∧ ¬ open r'.
Proof.
  intros Hc Hu. destruct o as [| | | | | | | |id' now| |id' undo rev now made| | |]; simpl in Hc; try done;
    apply String.eqb_eq in Hc; subst id'; simpl.
  - unfold claimOperationChange. destruct (existsb _ _) eqn:Ex; [|done].
    apply List.existsb_exists in Ex as (item & Hi%list_elem_of_In & Ha).
    destruct (Operations r !! id) as [o|] eqn:Eo; [|done]. destruct (claimable _ _) eqn:Ec; [|done]. intros [= <- _].
    split; [left; eauto using claimable_fresh|]. by eapply (applied_closed r (Changes r)).
  - unfold prepareChange. destruct (Operations r !! id) as [o|] eqn:Eo; [|done].
    destruct (claimable _ _) eqn:Ec; [|done].
    destruct (firstIndex _ _) as [k|] eqn:Ek; [|done]. simpl.
    apply firstIndex_spec in Ek as (item & Hk & Ha). rewrite Hk.
    intros H. repeat split_match_in H; simplify_eq; (split; [left; eauto using claimable_fresh|]);
      (eapply applied_closed; [done|by eapply list_elem_of_lookup_2|done]).
Qed.

Lemma claim_writes o n v r r' v' b : claims id o = true → closure o n v r = (Ok b, r', v') → b = true.
Proof.
  destruct o as [| | | | | | | |id' now| |id' undo rev now made| | |]; simpl; try done; intros _;
    [unfold claimOperationChange|unfold prepareChange]; intros H; repeat split_match_in H; by simplify_eq.
Qed.

Definition admissible (o : Op) : Prop := draws o ≠ Some id ∧ settles o = true.

Lemma applied_progress l r r' : applied closure l r r' → Forall admissible l → progress r r'.
Proof.
  induction 1 as [|l o n v r r1 r2 v' H IH Hc]; intros Hl; [done|].
  apply Forall_app in Hl as [Hl Ho]. inversion Ho as [|? ? [Hd Hs] _]; subst.
  etrans; [by apply IH|]. by eapply op_progress.
Qed.

(** At most one of them claims the operation, and none from a closed record. *)
Lemma applied_claims l r r' : applied closure l r r' → Forall admissible l → length (named (Suggestions r)) ≤ 1 →
  length (filter (λ o, claims id o = true) l) ≤ 1
  ∧ (filter (λ o, claims id o = true) l ≠ [] → ¬ open r').
Proof.
  induction 1 as [|l o n v r r1 r2 v' H IH Hc]; intros Hl Hu; [by split; [simpl; lia|]|].
  apply Forall_app in Hl as [Hl Ho]. inversion Ho as [|? ? [Hd Hs] _]; subst.
  destruct (IH Hl Hu) as [IH1 IH2]. rewrite list.filter_app, length_app.
  pose proof (applied_progress _ _ _ H Hl) as Hp. pose proof (op_progress o n v r1 r2 v' Hd Hs Hc) as Hp2.
  assert (Hu1 : length (named (Suggestions r1)) ≤ 1) by (destruct Hp; lia).
  rewrite filter_cons. case_decide as Ec; simpl.
  - destruct (claim_closes o n v r1 r2 v' Ec Hu1 Hc) as [Hopen Hclosed].
    destruct (filter _ l) eqn:E; [|by destruct IH2]. simpl. split; [lia|done].
  - rewrite app_nil_r, Nat.add_0_r. split; [done|]. intros Hne Hopen. apply (IH2 Hne).
    destruct Hopen as [(o' & Ho' & He)|(b & Hb & Hpb)]; [by eapply (prog_open _ _ Hp2)|].
    right. by eapply (prog_pending _ _ Hp2).
Qed.
End Progress.

(** ** Limits *)

Definition bounded (r : record) : Prop := length (Suggestions r) ≤ maxRecords ∧ size (Changes r) ≤ maxChanges.

Lemma expire_shape turn now r r' c : expire turn now r = (r', c) →
  length (Suggestions r') = length (Suggestions r) ∧ Changes r' = Changes r.
Proof.
  unfold expire. destruct (expireLoop _ _ _ _ _) as [[items ops] c'] eqn:E. intros [= <- <-].
  apply expireLoop_keeps in E as [H _]. simpl. by apply Forall2_length in H.
Qed.

Lemma onFirst_length p f l l' o : onFirst p f l = (l', o) → length l' = length l.
Proof. unfold onFirst. destruct (firstIndex p l); intros [= <- <-]; [apply length_alter|done]. Qed.

Lemma roomFor_bound r items l : roomFor r items = Some l → length l < maxRecords.
Proof.
  unfold roomFor. intros H. repeat split_match_in H; simplify_eq;
    match goal with E : (_ <=? _)%nat = false |- _ => apply Nat.leb_gt in E; exact E end.
Qed.

Lemma olderChange_in changes l oldest : oldest = "" ∨ is_Some (changes !! oldest) →
  (∀ kc, kc ∈ l → changes !! kc.1 = Some kc.2) →
  foldl (olderChange changes) oldest l = "" ∨ is_Some (changes !! foldl (olderChange changes) oldest l).
Proof.
  revert oldest; induction l as [|kc l IH]; intros oldest Ho Hl; simpl; [done|].
  apply IH; [|intros; apply Hl; by right]. unfold olderChange. repeat case_match; [done| |done].
  right. rewrite (Hl kc) by left. eauto.
Qed.

Lemma oldestChange_in changes : oldestChange changes ≠ "" → is_Some (changes !! oldestChange changes).
Proof.
  intros H. destruct (olderChange_in changes (map_to_list changes) "") as [?|?]; [by left| |done|done].
  by intros [k c] ?%elem_of_map_to_list.
Qed.

Lemma onFirst_bounded p f r r1 items o ops : bounded r → length (Suggestions r1) = length (Suggestions r) →
  Changes r1 = Changes r → onFirst p f (Suggestions r1) = (items, o) → bounded (with_items items ops r1).
Proof. intros [H1 H2] Hl Hc E. apply onFirst_length in E. split; simpl; [lia|by rewrite Hc]. Qed.

Lemma map_bounded f r r1 ops : bounded r → length (Suggestions r1) = length (Suggestions r) →
  Changes r1 = Changes r → bounded (with_items (map f (Suggestions r1)) ops r1).
Proof. intros [H1 H2] Hl Hc. split; simpl; [rewrite length_map; lia|by rewrite Hc]. Qed.

Lemma shape_bounded r r1 : bounded r → length (Suggestions r1) = length (Suggestions r) →
  size (Changes r1) = size (Changes r) → bounded r1.
Proof. intros [H1 H2] Hl Hc. split; lia. Qed.

Lemma create_bounded conversation plugin turn args operation fresh clk n v r r' v' :
  bounded r → createChange conversation plugin turn args operation fresh clk n v r = (Ok true, r', v') → bounded r'.
Proof.
  intros Hb. unfold createChange. destruct (expire _ _ _) as [r0 c] eqn:Ee. apply expire_shape in Ee as [E1 E2].
  cbn [fst]. destruct (firstIndex _ _).
  - intros [= <- _]. apply (shape_bounded r); simpl; rewrite ?length_imap, ?E1, ?E2; done.
  - destruct (roomFor _ _) as [items|] eqn:Er; [|done]. destruct (pickCode _ _ _ _); [|done]. intros [= <- _].
    apply roomFor_bound in Er. destruct Hb as [_ Hc]. split; simpl; rewrite ?length_app, ?E2; simpl; [lia|done].
Qed.

Lemma prepare_bounded id undo rev now made n v r r' v' :
  bounded r → prepareChange id undo rev now made n v r = (Ok true, r', v') → bounded r'.
Proof.
  intros [Hs Hc]. unfold prepareChange. destruct (Operations r !! id); [|done]. destruct (claimable _ _); [|done].
  destruct (_ ≫= _) as [item|]; [|done].
  assert (Hins : ∀ (m : gmap string changeRecord) c, size m < maxChanges → size (<[id := c]> m) ≤ maxChanges).
  { intros m c Hm. rewrite map_size_insert. destruct (m !! id); simpl; lia. }
  destruct (Nat.leb_spec maxChanges (size (Changes r))) as [Hge|Hlt].
  - destruct (String.eqb_spec (oldestChange (Changes r)) "") as [|Hne]; [done|]. intros [= <- _].
    split; simpl; [done|]. apply Hins. destruct (oldestChange_in _ Hne) as [c Hc'].
    rewrite map_size_delete, Hc'. unfold maxChanges in *. simpl. lia.
  - intros [= <- _]. split; simpl; [done|auto].
Qed.

(** No closure takes a record past its limits. *)
Lemma op_bounded o n v r r' v' : bounded r → closure o n v r = (Ok true, r', v') → bounded r'.
Proof.
  intros Hb. destruct o; simpl.
  - unfold claimHookChange. destruct (expire _ _ _) as [r0 c] eqn:Ee. apply expire_shape in Ee as [E1 E2].
    destruct (onFirst _ _ _) as [items [item|]] eqn:E; intros H; simplify_eq;
      [by eapply onFirst_bounded|apply (shape_bounded r); congruence].
  - unfold observeSwitchChange, acceptHarnessSwitch. destruct (expire _ _ _) as [r0 c] eqn:Ee. apply expire_shape in Ee as [E1 E2].
    set (r1 := if _ : bool then mkRecord _ _ _ _ _ _ _ _ _ _ else r0).
    assert (H1 : length (Suggestions r1) = length (Suggestions r)) by (unfold r1; by case_match).
    assert (H2 : Changes r1 = Changes r) by (unfold r1; by case_match).
    clearbody r1. intros H. destruct (negb _ && negb _); simplify_eq; [by apply (map_bounded _ r)|apply (shape_bounded r); congruence].
  - unfold disableNoticesChange. intros H. split_match_in H; by simplify_eq.
  - unfold observeTurnChange. intros H. split_match_in H; by simplify_eq.
  - by apply create_bounded.
  - unfold expireChange. destruct (expire _ _ _) as [r0 c] eqn:Ee. apply expire_shape in Ee as [E1 E2].
    intros [= _ <- _]. apply (shape_bounded r); congruence.
  - unfold resolveChange. destruct (expire _ _ _) as [r0 c] eqn:Ee. apply expire_shape in Ee as [E1 E2].
    destruct (onFirst _ _ _) as [items [item|]] eqn:E; intros H; simplify_eq;
      [by eapply onFirst_bounded|apply (shape_bounded r); congruence].
  - unfold acceptSwitchChange, acceptHarnessSwitch. destruct (expire _ _ _) as [r0 c] eqn:Ee. apply expire_shape in Ee as [E1 E2].
    intros H. destruct (String.eqb via _ && _); simplify_eq; [apply (shape_bounded r); congruence|by apply (map_bounded _ r)].
  - unfold claimOperationChange. intros H. repeat split_match_in H; by simplify_eq.
  - unfold finishOperationChange. intros H. repeat split_match_in H; simplify_eq.
    match goal with E : onFirst _ _ _ = _ |- _ => apply onFirst_length in E as El end.
    apply (shape_bounded r); simpl; [done|done|]. by rewrite <- !(size_dom (D := gset string)), dom_alter_L.
  - by apply prepare_bounded.
  - unfold claimUndoChange. intros H. repeat split_match_in H; simplify_eq.
    apply (shape_bounded r); [done|done|]. simpl. by erewrite map_size_insert_Some.
  - unfold finishUndoChange. intros H. repeat split_match_in H; simplify_eq.
    apply (shape_bounded r); [done|done|]. simpl. by erewrite map_size_insert_Some.
  - unfold setupHintChange. intros H. repeat split_match_in H; simplify_eq; [done|].
    match goal with E : (_ <=? _)%nat = false |- _ => apply Nat.leb_gt in E; simpl in E end.
    destruct Hb. split; simpl; [rewrite length_app; simpl; lia|done].
Qed.

(** * The suggestion store: concurrent clients

    Any number of clients run operations on one conversation's record; their
    reads and compare-and-sets interleave in any order, and other keys of the
    state store change at any time.  [updates_linearize]: the stored record is
    always the result of applying, one after another, exactly the closures whose
    writes succeeded, each to the record it found.  [operation_claimed_once]:
    of all clients that claim an operation for execution at most one is told to
    execute it. *)

(** A record that JSON preserves: one whose strings are UTF-8. *)
Class CodecLaws `{C : RecordCodec} := {
  survives : record → Prop;
  round_trip : ∀ r v, survives r → marshal r = Ok v → unmarshal v = Ok r }.

(** Every closure keeps the record's conversation. *)
Lemma expire_conversation turn now r r' c : expire turn now r = (r', c) → Conversation r' = Conversation r.
Proof. unfold expire. destruct (expireLoop _ _ _ _ _) as [[? ?] ?]. by intros [= <- <-]. Qed.

Ltac conversation_of_expire :=
  match goal with |- context [expire ?t ?n ?r] =>
    let E := fresh "E" in let r0 := fresh "r" in let c := fresh "c" in
    destruct (expire t n r) as [r0 c] eqn:E; apply expire_conversation in E end.

Lemma op_conversation o n v r b r' v' : closure o n v r = (Ok b, r', v') → Conversation r' = Conversation r.
Proof.
  destruct o; simpl;
    unfold claimHookChange, observeSwitchChange, disableNoticesChange, observeTurnChange, createChange, expireChange,
      resolveChange, acceptSwitchChange, claimOperationChange, finishOperationChange, prepareChange, claimUndoChange,
      finishUndoChange, setupHintChange; try conversation_of_expire;
    intros H; repeat split_match_in H; simplify_eq/=; done.
Qed.

Section System.
Context {St : Type} {SO : StateOps St} {SL : StateLaws St} {C : RecordCodec} {CL : CodecLaws}.
Context (sha256 : string → string) (conversation : string).
(** The operations clients run. *)
Context (allowed : Op → Prop).
Context (Hfits : fits (conversationKey sha256 conversation)).
Context (Hkeep : ∀ o n v r r' v', allowed o → survives r → closure o n v r = (Ok true, r', v') → survives r').

Local Abbreviation key := (conversationKey sha256 conversation).
Local Abbreviation clientStep :=
  (step (decodeConversation conversation) marshal (record0 conversation) key closure vars0 allowed).
Local Abbreviation readHere := (readDoc (decodeConversation conversation) (record0 conversation) key).

Definition stays (r : record) : Prop := survives r ∧ Conversation r = conversation.

Lemma stays_round r w : stays r → marshal r = Ok w → decodeConversation conversation w = Ok r.
Proof. intros [Hs Hc] Hm. unfold decodeConversation. by rewrite (round_trip _ _ Hs Hm), Hc, String.eqb_refl. Qed.

Lemma stays_kept o n v r r' v' : allowed o → stays r → closure o n v r = (Ok true, r', v') → stays r'.
Proof.
  intros Ho [Hs Hc] Hcl. split; [by eapply Hkeep|]. rewrite <- Hc. by eapply op_conversation.
Qed.

Lemma read_stays s r ver found : read sha256 s conversation = Ok (r, ver, found) → survives r →
  readHere s = Ok (r, ver, found) ∧ stays r ∧ conversation ≠ "".
Proof.
  unfold read. destruct (String.eqb_spec conversation ""); [done|]. intros Hr Hs. split_and!; [done| |done].
  split; [done|]. unfold readDoc in Hr. destruct (st_get _ _ _) as [[[w ver'] []]|]; simpl in Hr; try done.
  - unfold decodeConversation in Hr. destruct (unmarshal w) as [x|]; [|done].
    destruct (String.eqb_spec (Conversation x) conversation); [|done]. by injection Hr as -> _.
  - by injection Hr as <- _.
Qed.

(** ** Theorems *)

Lemma applied_bounded l r r' : applied closure l r r' → bounded r → bounded r'.
Proof. induction 1; eauto using op_bounded. Qed.

(** C23. However the reads and writes of any number of clients interleave, with
    any activity on other keys, the stored record is the result of applying one
    after another exactly the closures whose writes succeeded, and stays within
    its limits; every such write belongs to one client that reports success, and
    a client that reports success wrote once or had nothing to change. *)
Theorem updates_linearize r0 s ver found y :
  valid s → read sha256 s conversation = Ok (r0, ver, found) → survives r0 →
  rtc clientStep (mkSys s [] []) y →
  (∃ cur ver' found', read sha256 (sys_state y) conversation = Ok (cur, ver', found')
     ∧ applied closure (sys_log y).*2 r0 cur ∧ (bounded r0 → bounded cur))
  ∧ NoDup (sys_log y).*1
  ∧ (∀ j o, (j, o) ∈ sys_log y → ∃ c, sys_clients y !! j = Some c ∧ cl_op c = o ∧ cl_phase c = Done (Ok tt))
  ∧ (∀ j c, sys_clients y !! j = Some c → cl_phase c = Done (Ok tt) → accounted closure (sys_log y) j c).
Proof.
  intros Hv Hr Hs Hy. destruct (read_stays _ _ _ _ Hr Hs) as (Hr' & Hst & Hne).
  destruct (cas_linearizes _ _ _ _ closure vars0 allowed stays Hfits stays_round stays_kept r0 s ver found y Hv Hr' Hst Hy)
    as ((cur & ver' & found' & H1 & H2) & H3 & H4 & H5).
  split_and!; [|done|naive_solver|done]. exists cur, ver', found'. split_and!; [|done|eauto using applied_bounded].
  unfold read. by rewrite (proj2 (String.eqb_neq _ _) Hne).
Qed.

(** C24. Of all clients that claim an operation for execution, however they
    interleave with each other and with every other operation on the
    conversation, at most one is told to execute it: provided no later item
    draws the operation's identifier. *)
Theorem operation_claimed_once id r0 s ver found y j j' c c' :
  valid s → read sha256 s conversation = Ok (r0, ver, found) → survives r0 →
  (∀ o, allowed o → admissible id o) → length (named id (Suggestions r0)) ≤ 1 →
  rtc clientStep (mkSys s [] []) y →
  sys_clients y !! j = Some c → sys_clients y !! j' = Some c' →
  claims id (cl_op c) = true → claims id (cl_op c') = true →
  cl_phase c = Done (Ok tt) → cl_phase c' = Done (Ok tt) → j = j'.
Proof.
  intros Hv Hr Hs Hall Hu Hy. destruct (read_stays _ _ _ _ Hr Hs) as (Hr' & Hst & Hne).
  apply (claimed_once (decodeConversation conversation) marshal (record0 conversation) key closure vars0 allowed stays Hfits stays_round stays_kept (claims id) r0 s ver found);
    [done..| |].
  - intros o n v r b r' v'. apply claim_writes.
  - intros l r Hl Hap. apply (applied_claims id l r0 r Hap); [|done].
    apply (list.Forall_impl _ _ _ Hl). auto.
Qed.
End System.
