(* ===== verification/SuggestTicket.v ===== *)
(** * The suggestion store: transcript tickets

    [ClaimTranscriptTicket] of internal/suggest/ticket.go: one durable document
    holds the nonces of used tickets with their expiries.  A claim prunes expired
    entries, refuses a nonce that is present, and adds its own, through the same
    compare-and-set loop as the records.  [ticket_claimed_once]: while the clock
    is before a ticket's expiry, at most one claim of it succeeds, however any
    number of claims of any tickets interleave. *)

From stdpp Require Import base list strings gmap sets numbers relations.
From S2P Require Import Prelude ByteStrings PluginState RateLimit CasUpdate.

Definition transcriptTicketKey : string := "transcript-tickets/v1".
Definition maxTranscriptTickets : nat := 512.

Abbreviation transcriptTickets := (gmap string Z).

(** [time.Time.Unix] of nanoseconds. *)
Definition Unix (t : Z) : Z := (t / second)%Z.

(** [encoding/json] on the document.  The keys it preserves are UTF-8 text. *)
Class TicketCodec := {
  marshalTickets : transcriptTickets → res string string;
  unmarshalTickets : string → res string transcriptTickets }.
Class TicketCodecLaws `{TicketCodec} := {
  textual : string → Prop;
  tickets_round_trip : ∀ m w, map_Forall (λ k _, textual k) m → marshalTickets m = Ok w → unmarshalTickets w = Ok m }.

(** One attempt on the document that was read; [now] is the clock of each
    attempt. *)
Definition claimTicketChange (nonce : string) (expires : Z) (now : nat → Z) : Closure transcriptTickets unit :=
  λ n v current,
    let current : transcriptTickets := filter (λ kv, ¬ (kv.2 <= Unix (now n))%Z) current in
    match current !! nonce with
    | Some _ => (Err (ErrArgument "transcript ticket was already used"), current, v)
    | None =>
        if (maxTranscriptTickets <=? size current)%nat then (Err ErrLimit, current, v)
        else (Ok true, <[nonce := Unix expires]> current, v)
    end.

Section Tickets.
Context {St : Type} {SO : StateOps St} `{C : TicketCodec}.

Definition decodeTickets (value : string) : res suggErr transcriptTickets :=
  match unmarshalTickets value with
  | Err _ => Err (ErrDecode "invalid transcript ticket state")
  | Ok current => Ok current
  end.

(** On a configured store; [start] is the clock of the first check. *)
Definition ClaimTranscriptTicket (others : nat → St → St) (s : St) (nonce : string) (expires start : Z) (now : nat → Z)
    : res suggErr unit * St :=
  if String.eqb nonce "" || negb (start <? expires)%Z then
    (Err (ErrArgument "valid transcript ticket is required"), s)
  else
    let '(r, _, s) := updateDoc decodeTickets marshalTickets ∅ transcriptTicketKey others
                        (claimTicketChange nonce expires now) s tt in (r, s).
End Tickets.

(** ** The document *)

Lemma claim_ticket_inv nonce expires now n v m b m' v' :
  claimTicketChange nonce expires now n v m = (Ok b, m', v') →
  b = true ∧ size m' ≤ maxTranscriptTickets ∧ m' !! nonce = Some (Unix expires)
  ∧ (∀ e, m !! nonce = Some e → (e <= Unix (now n))%Z)
  ∧ (∀ k, k ≠ nonce → m' !! k = (e ← m !! k; if bool_decide (e <= Unix (now n))%Z then None else Some e)).
Proof.
  unfold claimTicketChange. set (f := filter _ m). destruct (f !! nonce) eqn:E; [done|].
  destruct (Nat.leb_spec maxTranscriptTickets (size f)); [done|]. intros [= <- <- <-]. split_and!; [done|..].
  - rewrite map_size_insert, E. lia.
  - apply lookup_insert_eq.
  - intros e He. destruct (decide (e <= Unix (now n))%Z) as [|Hn]; [done|]. exfalso.
    unfold f in E. rewrite (map_lookup_filter_Some_2 _ _ _ _ He Hn) in E. done.
  - intros k Hk. rewrite lookup_insert_ne by done. unfold f. rewrite map_lookup_filter.
    destruct (m !! k) as [e|]; simpl; [|done]. repeat case_guard; case_bool_decide; naive_solver.
Qed.

(** ** Concurrent claims *)

(** The arguments of a claim that passed the first check. *)
Record TicketOp := mkTicketOp { t_nonce : string; t_expires : Z; t_now : nat → Z }.
Definition ticketClosure (o : TicketOp) : Closure transcriptTickets unit :=
  claimTicketChange (t_nonce o) (t_expires o) (t_now o).

(** Until the second [deadline]: no attempt reads a later clock, and the ticket
    [nonce] does not expire before. *)
Record until (nonce : string) (deadline : Z) (o : TicketOp) : Prop := {
  until_clock : ∀ n, (Unix (t_now o n) < deadline)%Z;
  until_expiry : t_nonce o = nonce → (deadline <= Unix (t_expires o))%Z }.

Lemma until_kept nonce deadline o n v m b m' v' e : until nonce deadline o →
  m !! nonce = Some e → (deadline <= e)%Z → ticketClosure o n v m = (Ok b, m', v') →
  t_nonce o ≠ nonce ∧ m' !! nonce = Some e.
Proof.
  intros [Hu _] He Hd (_ & _ & _ & Hold & Hk)%claim_ticket_inv. specialize (Hu n).
  destruct (decide (t_nonce o = nonce)) as [<-|Hne]; [apply Hold in He; lia|]. split; [done|].
  rewrite Hk, He by done. simpl. rewrite bool_decide_eq_false_2 by lia. done.
Qed.

(** A ticket claimed before the deadline stays in the document. *)
Lemma claims_applied nonce deadline l m m' : applied ticketClosure l m m' → Forall (until nonce deadline) l →
  let claims := length (filter (λ o, bool_decide (t_nonce o = nonce) = true) l) in
  claims ≤ 1 ∧ (claims = 1 → ∃ e, m' !! nonce = Some e ∧ (deadline <= e)%Z).
Proof.
  induction 1 as [|l o n v m m1 m2 v' _ IH Hc]; simpl; [lia|]. intros [Hl Ho]%Forall_app. rewrite list.Forall_singleton in Ho.
  destruct (IH Hl) as [H1 H2]. rewrite list.filter_app, length_app, filter_cons, filter_nil.
  destruct (decide (t_nonce o = nonce)) as [Heq|Hne].
  - rewrite decide_True by by apply bool_decide_eq_true. simpl. pose proof (claim_ticket_inv _ _ _ _ _ _ _ _ _ Hc) as (_ & _ & Hn & _).
    destruct (decide (length (filter (λ o, bool_decide (t_nonce o = nonce) = true) l) = 1)) as [H|H].
    + destruct (H2 H) as (e & He & Hd). by destruct (until_kept _ _ _ _ _ _ _ _ _ _ Ho He Hd Hc).
    + split; [lia|]. intros _. rewrite Heq in Hn. exists (Unix (t_expires o)). split; [done|by apply (until_expiry _ _ _ Ho)].
  - rewrite decide_False by by rewrite bool_decide_eq_true. simpl. rewrite Nat.add_0_r. split; [done|].
    intros H. destruct (H2 H) as (e & He & Hd). exists e. split; [|done].
    by destruct (until_kept _ _ _ _ _ _ _ _ _ _ Ho He Hd Hc).
Qed.

Section System.
Context {St : Type} {SO : StateOps St} {SL : StateLaws St} {C : TicketCodec} {CL : TicketCodecLaws}.
Context (Hfits : fits transcriptTicketKey).
(** The ticket in question and the second before which everything happens. *)
Context (nonce : string) (deadline : Z).

Definition ticketAllowed (o : TicketOp) : Prop := textual (t_nonce o) ∧ until nonce deadline o.
Definition textualTickets (m : transcriptTickets) : Prop := map_Forall (λ k _, textual k) m.

Lemma tickets_decode m w : textualTickets m → marshalTickets m = Ok w → decodeTickets w = Ok m.
Proof. intros Hg Hm. unfold decodeTickets. by rewrite (tickets_round_trip m w Hg Hm). Qed.

Lemma tickets_kept o n v m m' v' : ticketAllowed o → textualTickets m →
  ticketClosure o n v m = (Ok true, m', v') → textualTickets m'.
Proof.
  intros [Ht _] Hg (_ & _ & _ & _ & Hk)%claim_ticket_inv k e He.
  destruct (decide (k = t_nonce o)) as [->|Hne]; [done|]. rewrite Hk in He by done.
  destruct (m !! k) as [e'|] eqn:E; [|done]. by apply (Hg k e').
Qed.

(** While the clock is before a ticket's expiry, at most one claim of the
    ticket succeeds, however the reads and writes of any number of claims of this
    and other tickets interleave. *)
Theorem ticket_claimed_once m0 s ver found y j j' c c' :
  valid s → readDoc decodeTickets ∅ transcriptTicketKey s = Ok (m0, ver, found) → textualTickets m0 →
  rtc (step decodeTickets marshalTickets ∅ transcriptTicketKey ticketClosure tt ticketAllowed) (mkSys s [] []) y →
  sys_clients y !! j = Some c → sys_clients y !! j' = Some c' →
  t_nonce (cl_op c) = nonce → t_nonce (cl_op c') = nonce →
  cl_phase c = Done (Ok tt) → cl_phase c' = Done (Ok tt) → j = j'.
Proof.
  intros Hv Hr Hg Hy Hj Hj' Hc Hc'.
  apply (claimed_once decodeTickets marshalTickets ∅ transcriptTicketKey ticketClosure tt ticketAllowed textualTickets
    Hfits tickets_decode tickets_kept (λ o, bool_decide (t_nonce o = nonce)) m0 s ver found y j j' c c' Hv Hr Hg Hy);
    [| |done|done|by apply bool_decide_eq_true..].
  - intros o n v m b m' v' _ Hcl. by apply claim_ticket_inv in Hcl as [? _].
  - intros l m Hl Hap. apply (claims_applied nonce deadline l m0 m Hap).
    apply (list.Forall_impl _ _ _ Hl). by intros o [_ ?].
Qed.
End System.
