(* ===== verification/SuggestSetup.v ===== *)
(** * The suggestion store: the setup hint

    [SetupHint] of internal/suggest/setup.go with its two in-memory caches: the
    cooldown of each harness and the conversations known to have had the hint.
    [setup_hint_spaced]: a hint is only created when the harness has no stored
    hint younger than a week, and the claim is stored before the hint is.
    [setup_hint_quiet]: after a call that created a hint, no call for the harness
    within the week touches the store. *)

From stdpp Require Import base list strings gmap sets numbers.
From S2P Require Import Prelude ByteStrings PluginState ConversationKeys RateLimit CasUpdate Suggest SuggestStore.

(** The fields of [Store] that [setupMu] guards. *)
Record SetupCache := mkSetupCache { setupCooldown : gmap string Z; setupSeen : gset string }.

(** The zero [time.Time], in nanoseconds of the Unix epoch. *)
Definition zeroTime : Z := (-62135596800 * second)%Z.
Definition minute : Z := (60 * second)%Z.
Definition week : Z := (7 * 24 * 3600 * second)%Z.

(** [encoding/json] on a time. *)
Class TimeCodec := {
  marshalTime : Z → res string string;
  unmarshalTime : string → res string Z }.

Definition harnessName (source : string) : option string :=
  if String.eqb source "claude-code-session" then Some "claude-code"
  else if bool_decide (source ∈ ["codex-thread"; "codex-session"; "codex-client-thread"]) then Some "codex"
  else if String.eqb source "gemini-code-assist-session" then Some "antigravity"
  else None.

Definition setCooldown (name : string) (t : Z) (m : SetupCache) : SetupCache :=
  mkSetupCache (<[name := t]> (setupCooldown m)) (setupSeen m).

Definition rememberSetupSeen (conversation : string) (m : SetupCache) : SetupCache :=
  mkSetupCache (setupCooldown m)
    ({[conversation]} ∪ (if (4096 <=? size (setupSeen m))%nat then ∅ else setupSeen m)).

Section Setup.
Context {St : Type} `{SO : StateOps St} `{C : RecordCodec} `{TC : TimeCodec}.
Context (sha256 : string → string) (others : nat → St → St).

Definition cooldownKey (name : string) : string := "setup-cooldown/" +:+ name.

(** The hint or nothing, with an error or without; then the cache and the state. *)
Definition Answer : Type := string * option suggErr * SetupCache * St.

(** The store holds no hint of the week: claim the week, then add the hint.
    [between] is what other clients do between the read and the claim. *)
Definition claimWeek (between : St → St) (m : SetupCache) (s : St) (conversation name id : string) (turn now : Z)
    (expected : option string) : Answer :=
  match marshalTime now with
  | Err e => ("", Some (ErrEncode e), m, s)
  | Ok raw =>
      match st_cas (between s) stateNamespace (cooldownKey name) raw expected with
      | (Err e, s) => ("", Some (ErrState e), m, s)
      | (Ok (false, _), s) => ("", None, m, s)
      | (Ok (true, _), s) =>
          let m := setCooldown name (now + week) m in
          match update sha256 others conversation (setupHintChange conversation id name turn now) s with
          | (Ok _, v, s) => (v_text v, None, rememberSetupSeen conversation m, s)
          | (Err e, v, s) => (v_text v, Some e, m, s)
          end
      end
  end.

(** [arrive] is what other clients do between the reads of the record and of the
    cooldown. *)
Definition SetupHint (arrive between : St → St) (m : SetupCache) (s : St) (conversation source : string) (turn now : Z)
    (rawID : option string) : Answer :=
  match harnessName source with
  | None => ("", None, m, s)
  | Some name =>
      if bool_decide (conversation ∈ setupSeen m) || (now <? default zeroTime (setupCooldown m !! name))%Z then
        ("", None, m, s)
      else
        let m := setCooldown name (now + minute) m in
        match read sha256 s conversation with
        | Err e => ("", Some e, m, s)
        | Ok (current, _, _) =>
            if SetupHintSeen current then ("", None, rememberSetupSeen conversation m, s)
            else match rawID with
            | None => ("", Some ErrRandom, m, s)
            | Some raw =>
                let s := arrive s in
                match st_get s stateNamespace (cooldownKey name) with
                | Err e => ("", Some (ErrState e), m, s)
                | Ok (_, _, false) => claimWeek between m s conversation name (randomID raw) turn now None
                | Ok (value, version, true) =>
                    match unmarshalTime value with
                    | Err e => ("", Some (ErrDecode e), m, s)
                    | Ok previous =>
                        if (now <? previous + week)%Z then ("", None, setCooldown name (previous + week) m, s)
                        else claimWeek between m s conversation name (randomID raw) turn now (Some version)
                    end
                end
            end
        end
  end.

(** ** What a hint means *)

(** Some previous hint of the harness is stored and younger than a week. *)
Definition recent (s : St) (name : string) (now : Z) : Prop :=
  ∃ value version previous, st_get s stateNamespace (cooldownKey name) = Ok (value, version, true)
    ∧ unmarshalTime value = Ok previous ∧ (now < previous + week)%Z.

Lemma claimWeek_created between m s conversation name id turn now expected hint e m' s' :
  claimWeek between m s conversation name id turn now expected = (hint, e, m', s') → hint ≠ "" →
  setupCooldown m' !! name = Some (now + week)%Z
  ∧ ∃ raw ver s1, marshalTime now = Ok raw
    ∧ st_cas (between s) stateNamespace (cooldownKey name) raw expected = (Ok (true, ver), s1).
Proof.
  unfold claimWeek. intros H Hh. destruct (marshalTime now) as [raw|] eqn:Em; [|by simplify_eq].
  destruct (st_cas _ _ _ _ _) as [[[[] ver]|] s1] eqn:Ec; [|by simplify_eq..].
  destruct (update _ _ _ _ _) as [[[] v] s2]; simplify_eq/=; (split; [apply lookup_insert_eq|]); by exists raw, ver, s1.
Qed.

(** The state and the cache that [SetupHint] claims with. *)
Lemma setup_hint_claim arrive between m s conversation source turn now rawID hint e m' s' :
  SetupHint arrive between m s conversation source turn now rawID = (hint, e, m', s') → hint ≠ "" →
  ∃ name id expected m1, harnessName source = Some name ∧ ¬ recent (arrive s) name now
    ∧ (∃ r ver found, read sha256 s conversation = Ok (r, ver, found) ∧ SetupHintSeen r = false)
    ∧ (expected = None ∨ ∃ w x, expected = Some x ∧ st_get (arrive s) stateNamespace (cooldownKey name) = Ok (w, x, true))
    ∧ claimWeek between m1 (arrive s) conversation name id turn now expected = (hint, e, m', s').
Proof.
  unfold SetupHint. intros H Hh. destruct (harnessName source) as [name|]; [|by simplify_eq].
  destruct (_ || _); [by simplify_eq|].
  destruct (read _ s conversation) as [[[r ver] found]|] eqn:Er; [|by simplify_eq].
  destruct (SetupHintSeen r) eqn:Es; [by simplify_eq|]. destruct rawID as [raw|]; [|by simplify_eq].
  destruct (st_get _ _ _) as [[[value version] []]|] eqn:Eg; [| |by simplify_eq].
  - destruct (unmarshalTime value) as [previous|] eqn:Eu; [|by simplify_eq].
    destruct (Z.ltb_spec now (previous + week)); [by simplify_eq|].
    eexists name, (randomID raw), (Some version), _. split_and!; [done| |by exists r, ver, found| |exact H].
    + intros (w & x & p & Hw & Hp & Hlt). rewrite Eg in Hw. injection Hw as <- <-. rewrite Eu in Hp.
      injection Hp as <-. lia.
    + right. by exists value, version.
  - eexists name, (randomID raw), None, _. split_and!; [done| |by exists r, ver, found|by left|exact H].
    intros (w & x & p & Hw & _). by rewrite Eg in Hw.
Qed.

(** A hint is created only in a conversation that had none, for a harness
    without a stored hint of the last week, and after its own time was stored
    over what was read. *)
Lemma setup_hint_spaced arrive between m s conversation source turn now rawID hint e m' s' :
  SetupHint arrive between m s conversation source turn now rawID = (hint, e, m', s') → hint ≠ "" →
  ∃ name, harnessName source = Some name ∧ ¬ recent (arrive s) name now
    ∧ (∃ r ver found, read sha256 s conversation = Ok (r, ver, found) ∧ SetupHintSeen r = false)
    ∧ ∃ raw expected ver s1, marshalTime now = Ok raw
      ∧ (expected = None ∨ ∃ w x, expected = Some x ∧ st_get (arrive s) stateNamespace (cooldownKey name) = Ok (w, x, true))
      ∧ st_cas (between (arrive s)) stateNamespace (cooldownKey name) raw expected = (Ok (true, ver), s1).
Proof.
  intros H Hh. destruct (setup_hint_claim _ _ _ _ _ _ _ _ _ _ _ _ _ H Hh) as (name & id & expected & m1 & Hn & Hr & Hc & He & Hw).
  apply claimWeek_created in Hw as (_ & raw & ver & s1 & H1 & H2); [|done].
  exists name. split_and!; [done..|]. by exists raw, expected, ver, s1.
Qed.

(** Within the week of a hint, calls for the harness leave cache and store alone. *)
Lemma setup_hint_quiet arrive between m s conversation source turn now rawID hint e m' s' :
  SetupHint arrive between m s conversation source turn now rawID = (hint, e, m', s') → hint ≠ "" →
  ∀ arrive' between' s2 conversation' source' turn' now' rawID',
    harnessName source' = harnessName source → (now' < now + week)%Z →
    SetupHint arrive' between' m' s2 conversation' source' turn' now' rawID' = ("", None, m', s2).
Proof.
  intros H Hh arrive' between' s2 conversation' source' turn' now' rawID' Hs Hlt.
  destruct (setup_hint_claim _ _ _ _ _ _ _ _ _ _ _ _ _ H Hh) as (name & id & expected & m1 & Hn & _ & _ & _ & Hw).
  apply claimWeek_created in Hw as [Hm _]; [|done].
  unfold SetupHint. rewrite Hs, Hn, Hm. simpl. by rewrite (proj2 (Z.ltb_lt _ _) Hlt), orb_true_r.
Qed.
End Setup.

Lemma add_size (x : string) (a : gset string) : size ({[x]} ∪ a) ≤ S (size a).
Proof. rewrite size_union_alt, size_singleton. apply le_n_S, subseteq_size. set_solver. Qed.

(** The cache of conversations stays bounded. *)
Lemma rememberSetupSeen_bounded conversation m :
  size (setupSeen m) ≤ 4096 → size (setupSeen (rememberSetupSeen conversation m)) ≤ 4096.
Proof.
  intros H. unfold rememberSetupSeen, setupSeen at 1. rewrite add_size.
  destruct (Nat.leb_spec 4096 (size (setupSeen m))); [rewrite size_empty|]; lia.
Qed.
