(* ===== verification/SuggestState.v ===== *)
(** * The plugin state store as the suggestions' store

    The model of internal/pluginstate discharges the interface [StateLaws]: the
    versions it issues are never reused, so a version determines the value a key
    held under it. *)

From stdpp Require Import base list strings gmap sets numbers pretty.
From S2P Require Import Prelude ByteStrings PluginState PluginStateBolt PluginStateTheorems.
From S2P Require Import CasUpdate.

(** ** Entries of the abstract store *)

Lemma lookup_put a p k v p' k' :
  spec_lookup (put_entry a p k v) p' k' =
  if decide (p' = p ∧ k' = k) then Some (sp_counter a + 1, v)%N else spec_lookup a p' k'.
Proof.
  unfold spec_lookup, bucket_of, put_entry. simpl. destruct (decide (p' = p)) as [->|Hp].
  - rewrite lookup_insert_eq. simpl. destruct (decide (k' = k)) as [->|Hk].
    + by rewrite lookup_insert_eq, decide_True.
    + by rewrite lookup_insert_ne, decide_False by naive_solver.
  - by rewrite lookup_insert_ne, decide_False by naive_solver.
Qed.

Lemma lookup_drop a p k p' k' e : spec_lookup (drop_entry a p k) p' k' = Some e → spec_lookup a p' k' = Some e.
Proof.
  unfold spec_lookup, drop_entry, bucket_of. simpl. destruct (decide (p' = p)) as [->|Hp].
  - case_bool_decide; [by rewrite lookup_delete_eq|]. rewrite lookup_insert_eq. simpl.
    by intros [_ ?]%lookup_delete_Some.
  - case_bool_decide; [by rewrite lookup_delete_ne|by rewrite lookup_insert_ne].
Qed.

(** An entry whose version a store had already issued was there before. *)
Lemma spec_step_old l a o p k n v : spec_lookup (spec_step l a o).2 p k = Some (n, v) → (n ≤ sp_counter a)%N →
  spec_lookup a p k = Some (n, v).
Proof.
  assert (Hset : ∀ p' k' v' e c, spec_lookup (spec_set l a p' k' v' e c).2 p k = Some (n, v) → (n ≤ sp_counter a)%N →
    spec_lookup a p k = Some (n, v)).
  { intros p' k' v' e c. unfold spec_set.
    repeat match goal with |- context [if ?b then _ else _] => destruct b end; simpl; try done.
    rewrite lookup_put. case_decide; [|done]. intros [= <- <-]. lia. }
  destruct o as [p' k'|p' k' v'|p' k' v' e|p' k'|p' k' e|p'|p'|]; simpl; try done.
  - specialize (Hset p' k' v' None false). by destruct (spec_set _ _ _ _ _ _ _).
  - specialize (Hset p' k' v' e true). by destruct (spec_set _ _ _ _ _ _ _).
  - unfold spec_delete. destruct (_ || _); [done|]. destruct (spec_lookup a p' k'); simpl; [|done].
    intros H _. by eapply lookup_drop.
  - unfold spec_compare_delete. destruct (bool_decide _); [done|]. destruct (_ || _); [done|].
    destruct (spec_lookup a p' k') as [[]|]; simpl; [|done]. destruct (String.eqb _ _); simpl; [|done].
    intros H _. by eapply lookup_drop.
Qed.

Lemma history_old l a ops rs a' p k n v : history l a ops rs a' →
  spec_lookup a' p k = Some (n, v) → (n ≤ sp_counter a)%N → spec_lookup a p k = Some (n, v).
Proof.
  induction 1 as [a|a o ops r rs a1 a2 Hs Hh IH|a o ops r rs a2 Hb Hh IH]; intros Hl Hn; [done| |auto].
  pose proof (spec_step_counter l a o) as Hc. pose proof (spec_step_old l a o p k n v) as Ho.
  rewrite Hs in Hc, Ho. simpl in *. apply Ho; [|done]. apply IH; [done|lia].
Qed.

Lemma spec_get_found a p k v ver : spec_get a p k = Ok (v, ver, true) →
  ∃ n, spec_lookup a p k = Some (n, v) ∧ ver = FormatUint n.
Proof.
  unfold spec_get. destruct (_ || _); [done|]. destruct (spec_lookup a p k) as [[n w]|]; [|done].
  intros [= <- <-]. eauto.
Qed.

(** ** The instance *)

Section Instance.
Context `{B : Bolt} {L : BoltLaws B}.

#[global] Instance pluginState : StateOps Store := {|
  st_get := GetVersioned;
  st_cas := CompareAndSet |}.

Definition in_service (s : Store) : Prop := ∃ l a, serves l a s.
Definition later (s s' : Store) : Prop := ∃ ops, Forall op_fits ops ∧ s' = (run s ops).2.

Lemma run_app s ops ops' : (run s (ops ++ ops')).2 = (run (run s ops).2 ops').2.
Proof.
  revert s; induction ops as [|o ops IH]; intros s; simpl; [done|].
  destruct (PluginState.step s o) as [r s1]. specialize (IH s1). destruct (run s1 (ops ++ ops')), (run s1 ops). done.
Qed.

#[global] Instance later_preorder : PreOrder later.
Proof.
  split.
  - intros s. exists []. split; [constructor|done].
  - intros s1 s2 s3 (o1 & H1 & ->) (o2 & H2 & ->). exists (o1 ++ o2). split; [by apply Forall_app|].
    by rewrite run_app.
Qed.

Lemma cas_step s p k v e : (CompareAndSet s p k v e).2 = (run s [OpCAS p k v e]).2.
Proof. simpl. by destruct (CompareAndSet s p k v e). Qed.

Lemma later_service s s' : in_service s → later s s' → in_service s'.
Proof.
  intros (l & a & H) (ops & Ho & ->). destruct (serves_run l a s ops H Ho) as (a' & _ & H').
  by exists l, a'.
Qed.

Lemma cas_later s p k v e : key_fits k → later s (CompareAndSet s p k v e).2.
Proof. intros Hk. rewrite cas_step. exists [OpCAS p k v e]. split; [|done]. by repeat constructor. Qed.

(** A compare-and-set that does not apply leaves every key as it was. *)
Lemma cas_noop s p k v e r s' : in_service s → key_fits k → CompareAndSet s p k v e = (r, s') →
  (∀ ver, r ≠ Ok (true, ver)) → ∀ p' k', GetVersioned s' p' k' = GetVersioned s p' k'.
Proof.
  intros (l & a & H) Hk Hc Hne p' k'. destruct (serves_reads l a s H) as (_ & _ & HG).
  destruct (serves_step l a s (OpCAS p k v e) H Hk) as [[_ Hs]|[Hn Hs]]; simpl in *; rewrite Hc in *; simpl in *.
  { by subst. }
  destruct (spec_set l a p k v e true) as [r0 a'] eqn:E. simpl in *.
  assert (a' = a) as ->; [|by destruct (serves_reads l a s' Hs) as (_ & _ & ->); rewrite HG].
  destruct r as [[[] ver]|er]; [by destruct (Hne ver)| |]; injection Hn as Hn; subst r0;
    unfold spec_set in E; repeat match type of E with context [if ?b then _ else _] => destruct b end; by simplify_eq.
Qed.

Lemma version_fixes s s' p k v v' ver : in_service s → later s s' →
  GetVersioned s p k = Ok (v, ver, true) → GetVersioned s' p k = Ok (v', ver, true) → v = v'.
Proof.
  intros (l & a & H) (ops & Ho & ->) Hg Hg'. destruct (serves_run l a s ops H Ho) as (a' & Hh & H').
  destruct (serves_reads l a s H) as (_ & _ & HG). destruct (serves_reads l a' _ H') as (_ & _ & HG').
  rewrite HG in Hg. rewrite HG' in Hg'. apply spec_get_found in Hg as (n & Hn & ->), Hg' as (n' & Hn' & Hv).
  apply FormatUint_inj in Hv as <-.
  destruct (lookup_bucket _ _ _ _ Hn) as (kv & Ekv & Ek). destruct H as [_ [Hb _ _] _].
  destruct (Hb p kv Ekv) as (_ & _ & Hall). destruct (Hall _ _ _ Ek) as (_ & _ & Hle).
  pose proof (history_old _ _ _ _ _ _ _ _ _ Hh Hn' ltac:(lia)). congruence.
Qed.

Lemma cas_found s p k v e ver s' : in_service s → key_fits k → CompareAndSet s p k v e = (Ok (true, ver), s') →
  (match e with
   | None => GetVersioned s p k = Ok ("", "", false)
   | Some x => ∃ w, GetVersioned s p k = Ok (w, x, true) end)
  ∧ GetVersioned s' p k = Ok (v, ver, true)
  ∧ (∀ p' k', (p', k') ≠ (p, k) → GetVersioned s' p' k' = GetVersioned s p' k').
Proof. intros (l & a & H) Hk Hc. destruct (cas_effect l a s p k v e ver s' H Hk Hc) as (? & ? & ? & _). done. Qed.

#[global] Instance pluginState_laws : StateLaws Store := {|
  valid := in_service;
  fits := key_fits;
  evolves := later;
  evolves_pre := later_preorder;
  valid_cas s p k v e Hs Hk := later_service s _ Hs (cas_later s p k v e Hk);
  cas_evolves s p k v e _ Hk := cas_later s p k v e Hk;
  cas_applied := cas_found;
  cas_refused := cas_noop;
  version_value := version_fixes |}.
End Instance.
