(* ===== verification/SuggestWitness.v ===== *)
(** * The suggestion store at work

    A table encoding of the documents involved, the in-memory plugin store, and
    short histories: an operation that is claimed, two clients that resolve one
    suggestion at the same time, and a ticket that is claimed twice. *)

From stdpp Require Import base list strings gmap sets numbers relations.
From Stdlib Require Import SpecFloat.
From S2P Require Import Prelude ByteStrings PluginState PluginStateBolt PluginStateTheorems PluginStateWitness.
From S2P Require Import ConversationKeys RateLimit CasUpdate Suggest SuggestStore.
From S2P Require Import SuggestTicket SuggestState.

#[global] Instance float_eq_dec : EqDecision float64.
Proof. unfold float64. solve_decision. Defined.
#[global] Instance Action_eq_dec : EqDecision Action.
Proof. solve_decision. Defined.
#[global] Instance Suggestion_eq_dec : EqDecision Suggestion.
Proof. solve_decision. Defined.
#[global] Instance operationRecord_eq_dec : EqDecision operationRecord.
Proof. solve_decision. Defined.
#[global] Instance changeRecord_eq_dec : EqDecision changeRecord.
Proof. solve_decision. Defined.
#[global] Instance record_eq_dec : EqDecision record.
Proof. solve_decision. Defined.

(** ** A codec for the records of a table *)

Definition table (A : Type) := list (string * A).

Fixpoint encodeIn {A} `{EqDecision A} (t : table A) (r : A) : res string string :=
  match t with
  | [] => Err "not in the table"
  | (k, x) :: t => if decide (x = r) then Ok k else encodeIn t r
  end.
Fixpoint decodeIn {A} (t : table A) (k : string) : res string A :=
  match t with
  | [] => Err "not in the table"
  | (k', x) :: t => if String.eqb k' k then Ok x else decodeIn t k
  end.

Definition tableCodec (t : table record) : RecordCodec := {| marshal := encodeIn t; unmarshal := decodeIn t |}.

Lemma encodeIn_key `{EqDecision A} (t : table A) r k : encodeIn t r = Ok k → k ∈ t.*1.
Proof.
  induction t as [|[k' x] t IH]; simpl; [done|]. destruct (decide (x = r)); [intros [= <-]; left|]. intros H. right. auto.
Qed.

Lemma table_round_trip `{EqDecision A} (t : table A) r k : NoDup t.*1 → encodeIn t r = Ok k → decodeIn t k = Ok r.
Proof.
  induction t as [|[k' x] t IH]; simpl; [done|]. intros [Hn Hd]%list.NoDup_cons H.
  destruct (decide (x = r)) as [->|]; [injection H as <-; by rewrite String.eqb_refl|].
  destruct (String.eqb_spec k' k) as [->|]; [by apply encodeIn_key in H|]. auto.
Qed.

Definition tableLaws (t : table record) (H : NoDup t.*1) : @CodecLaws (tableCodec t) :=
  @Build_CodecLaws (tableCodec t) (λ _, True) (λ r v _, table_round_trip t r v H).

(** ** The store *)

Definition memory : Store := (New (mkOptions "" 0 0 0) (mkOpenEnv true None true)).1.

Definition conv : string := "c".
Definition convKey : string := conversationKey id conv.
Definition stored (v : string) : Store := (Set_ memory stateNamespace convKey v).2.

Lemma memory_service : in_service memory.
Proof.
  destruct (new_serves (mkOptions "" 0 0 0) (mkOpenEnv true None true) memory) as (a & Ha & _).
  - by vm_compute.
  - by vm_compute.
  - reflexivity.
  - by eexists _, a.
Qed.

Lemma stored_service v : in_service (stored v).
Proof.
  eapply later_service; [apply memory_service|]. exists [OpSet stateNamespace convKey v].
  split; [by repeat constructor|]. unfold stored. simpl. by destruct (Set_ _ _ _ _).
Qed.

(** ** Two clients resolve one suggestion *)

Definition item (status via : string) : Suggestion :=
  mkSuggestion "sg_a" "k2x9" "router" conv "switch" "d" "Title" "Body" [] None "" 0 0 3 status via
    (if String.eqb status "pending" then "" else status) "" false.

Definition withItem (i : Suggestion) : record := mkRecord conv 0 "" false false [i] ∅ ∅ "" "".

Definition resolveTable : table record :=
  [("p", withItem (item "pending" "")); ("d", withItem (item "dismissed" "mcp"));
   ("a", withItem (item "accepted" "api"))].

Definition noClock : clock := λ _ _, 0%Z.
Definition quiet (_ : nat) (s : Store) : Store := s.

(** The other client dismisses the suggestion between the first client's read and
    its write. *)
Definition dismisses (n : nat) (s : Store) : Store :=
  match n with
  | O => (@ResolveID Store _ (tableCodec resolveTable) id quiet s conv "sg_a" "dismissed" "mcp" 0 noClock).2
  | _ => s
  end.

(** A client whose write lost the race reports the resolution it failed to make:
    the captured suggestion of its first attempt is not cleared, and its second
    attempt finds nothing to resolve and writes nothing.  It returns an accepted
    suggestion, while the stored one is dismissed. *)
Theorem resolve_reports_lost_write :
  let out := @ResolveID Store _ (tableCodec resolveTable) id dismisses (stored "p") conv "sg_a" "accepted" "api" 0 noClock in
  out.1 = Ok (item "accepted" "api")
  ∧ @read Store _ (tableCodec resolveTable) id out.2 conv = Ok (withItem (item "dismissed" "mcp"), "2", true).
Proof. vm_compute. split; reflexivity. Qed.

(** ** An operation is claimed *)

Definition operation (execution : string) : operationRecord := mkOperation "enc:intent" 100 execution "digest".

Definition opItem : Suggestion :=
  mkSuggestion "sg_a" "k2x9" "torana" conv "torana_operation" "d" "Title" "Body" [] None "" 0 0 100 "accepted" "mcp"
    "accepted" "" false.
Definition withOperation (execution : string) : record :=
  mkRecord conv 0 "" false false [opItem] {["sg_a" := operation execution]} ∅ "" "".

Definition claimTable : table record := [("open", withOperation ""); ("claimed", withOperation "applying")].

Lemma claimTable_nodup : NoDup claimTable.*1.
Proof. apply (bool_decide_unpack _). vm_compute. exact I. Qed.

Definition claimOp : Op := OpClaim "sg_a" (λ _, 1%Z).
Definition onlyClaims (o : Op) : Prop := o = claimOp.

Local Existing Instance map_bolt_laws.
Definition claimLaws : @CodecLaws (tableCodec claimTable) := tableLaws claimTable claimTable_nodup.

(** Two clients claim; both read before either writes. *)
Definition claimed : Store :=
  (writePhase convKey (stored "open") "claimed" (Some "1")).2.
(** The second write finds another version and changes nothing. *)
Definition refusedAt : Store :=
  (writePhase convKey claimed "claimed" (Some "1")).2.
Definition client (n : nat) (text : string) (ph : ClientPhase) : Client := mkClient claimOp n (setText text vars0) ph.

Definition raced : Sys :=
  mkSys refusedAt [client 0 "enc:intent" (Done (Ok tt)); client 1 "enc:intent" (Done (Err ErrNotFound))] [(0, claimOp)].

Local Abbreviation claimStep :=
  (step (@decodeConversation (tableCodec claimTable) conv) (encodeIn claimTable) (record0 conv) convKey closure vars0 onlyClaims).

Lemma pair_of {A B} (x : A * B) a : x.1 = a → x = (a, x.2).
Proof. destruct x. simpl. by intros ->. Qed.

Lemma claim_race : rtc claimStep (mkSys (stored "open") [] []) raced.
Proof.
  eapply rtc_l; [by apply step_spawn|].
  eapply rtc_l; [by apply step_spawn|]. simpl.
  eapply rtc_l.
  { eapply step_read with (j := 0) (ph := (Writing "claimed" (Some "1"))) (v := setText "enc:intent" vars0); [done|done|].
    vm_compute. reflexivity. }
  eapply rtc_l.
  { eapply step_read with (j := 1) (ph := (Writing "claimed" (Some "1"))) (v := setText "enc:intent" vars0); [done|done|].
    vm_compute. reflexivity. }
  eapply rtc_l.
  { eapply step_write with (j := 0) (value := "claimed") (expected := Some "1") (r := (Some (Ok tt))) (s' := claimed); [done|done|].
    apply pair_of. vm_compute. reflexivity. }
  eapply rtc_l.
  { eapply step_write with (j := 1) (value := "claimed") (expected := Some "1") (r := None) (s' := refusedAt); [done|done|].
    apply pair_of. vm_compute. reflexivity. }
  eapply rtc_l.
  { eapply step_read with (j := 1) (ph := (Finished (Err ErrNotFound))) (v := setText "enc:intent" vars0); [done|done|].
    vm_compute. reflexivity. }
  exact (rtc_refl _ _).
Qed.

Lemma claims_kept o n v r r' v' : onlyClaims o → True → closure o n v r = (Ok true, r', v') → True.
Proof. done. Qed.

Lemma convKey_fits : key_fits convKey.
Proof. vm_compute. reflexivity. Qed.

Lemma onlyClaims_admissible o : onlyClaims o → admissible "sg_a" o.
Proof. intros ->. by split. Qed.

Lemma updates_linearize_witness :
  applied closure [claimOp] (withOperation "") (withOperation "applying") ∧ bounded (withOperation "applying").
Proof.
  pose proof (@updates_linearize Store pluginState pluginState_laws (tableCodec claimTable) claimLaws id conv onlyClaims convKey_fits
    claims_kept (withOperation "") (stored "open") "1" true raced (stored_service "open")
    ltac:(vm_compute; reflexivity) I claim_race) as [(cur & ver & found & Hr & Ha & Hb) _].
  assert (cur = withOperation "applying") as -> by (vm_compute in Hr; injection Hr as <- _ _; vm_compute; reflexivity).
  split; [exact Ha|]. apply Hb. split; vm_compute; lia.
Defined.

Lemma operation_claimed_once_witness :
  sys_clients raced !! 0 = Some (client 0 "enc:intent" (Done (Ok tt))) ∧ 0 = 0.
Proof.
  split; [reflexivity|].
  apply (@operation_claimed_once Store pluginState pluginState_laws (tableCodec claimTable) claimLaws id conv onlyClaims convKey_fits
    claims_kept "sg_a" (withOperation "") (stored "open") "1" true raced 0 0
    (client 0 "enc:intent" (Done (Ok tt))) (client 0 "enc:intent" (Done (Ok tt))));
    [apply stored_service|vm_compute; reflexivity|exact I|apply onlyClaims_admissible|vm_compute; lia|apply claim_race|
     reflexivity..].
Defined.

(** ** A ticket is claimed *)

Definition used : transcriptTickets := {["n" := 10%Z]}.
Definition ticketTable : table transcriptTickets := [("used", used)].
#[global] Instance ticketCodec : TicketCodec :=
  {| marshalTickets := encodeIn ticketTable; unmarshalTickets := decodeIn ticketTable |}.

Lemma ticketTable_nodup : NoDup ticketTable.*1.
Proof. apply NoDup_singleton. Qed.
#[global] Instance ticketCodecLaws : TicketCodecLaws :=
  {| textual := λ _, True; tickets_round_trip m w _ := table_round_trip ticketTable m w ticketTable_nodup |}.

(** A second claim passes the first check half a second before the expiry and
    reads the clock again after it: it prunes the entry that would refuse it. *)
Theorem ticket_claimed_twice_at_expiry :
  let first := ClaimTranscriptTicket quiet memory "n" (10 * second) (9 * second) (λ _, (9 * second)%Z) in
  first.1 = Ok tt
  ∧ (ClaimTranscriptTicket quiet first.2 "n" (10 * second) (9 * second + 500000000) (λ _, (10 * second)%Z)).1 = Ok tt.
Proof. vm_compute. split; reflexivity. Qed.

(** Two claims at nine seconds; both read before either writes. *)
Definition ticketOp : TicketOp := mkTicketOp "n" (10 * second) (λ _, (9 * second)%Z).
Definition ticketTaken : Store := (writePhase transcriptTicketKey memory "used" None).2.
Definition ticketRefused : Store := (writePhase transcriptTicketKey ticketTaken "used" None).2.
Definition ticketClient (n : nat) (ph : ClientPhase) : Client (V := unit) := mkClient ticketOp n tt ph.
Definition ticketEnd : Sys :=
  mkSys ticketRefused
    [ticketClient 0 (Done (Ok tt)); ticketClient 1 (Done (Err (ErrArgument "transcript ticket was already used")))]
    [(0, ticketOp)].

Lemma ticketOp_allowed : ticketAllowed "n" 10 ticketOp.
Proof. split; [exact I|]. split; vm_compute; [intros _; reflexivity|discriminate]. Qed.

Lemma ticket_race :
  rtc (step decodeTickets marshalTickets ∅ transcriptTicketKey ticketClosure tt (ticketAllowed "n" 10))
    (mkSys memory [] []) ticketEnd.
Proof.
  eapply rtc_l; [apply step_spawn, ticketOp_allowed|].
  eapply rtc_l; [apply step_spawn, ticketOp_allowed|]. simpl.
  eapply rtc_l; [eapply step_read with (j := 0) (ph := Writing "used" None) (v := tt); [done|done|vm_compute; reflexivity]|].
  eapply rtc_l; [eapply step_read with (j := 1) (ph := Writing "used" None) (v := tt); [done|done|vm_compute; reflexivity]|].
  eapply rtc_l.
  { eapply step_write with (j := 0) (value := "used") (expected := None) (r := Some (Ok tt)) (s' := ticketTaken); [done|done|].
    apply pair_of. vm_compute. reflexivity. }
  eapply rtc_l.
  { eapply step_write with (j := 1) (value := "used") (expected := None) (r := None) (s' := ticketRefused); [done|done|].
    apply pair_of. vm_compute. reflexivity. }
  eapply rtc_l.
  { eapply step_read with (j := 1) (v := tt) (ph := Finished (Err (ErrArgument "transcript ticket was already used")));
      [done|done|vm_compute; reflexivity]. }
  exact (rtc_refl _ _).
Qed.

Lemma ticketKey_fits : key_fits transcriptTicketKey.
Proof. vm_compute. reflexivity. Qed.

Lemma ticket_claimed_once_witness : sys_clients ticketEnd !! 0 = Some (ticketClient 0 (Done (Ok tt))) ∧ 0 = 0.
Proof.
  split; [reflexivity|].
  apply (@ticket_claimed_once Store pluginState pluginState_laws ticketCodec ticketCodecLaws ticketKey_fits "n" 10 ∅ memory ""
    false ticketEnd 0 0 (ticketClient 0 (Done (Ok tt))) (ticketClient 0 (Done (Ok tt))));
    [apply memory_service|vm_compute; reflexivity|intros ? ? ?; exact I|apply ticket_race|reflexivity..].
Defined.
