(* ===== verification/Notice.v ===== *)
(** * Signed notices

    internal/annotate/notice.go: a notice is appended to a finished assistant
    turn between two markers that carry the notice's ID and the first six bytes
    of a MAC over the conversation and the ID, and is taken out of the replayed
    history before a provider or a plugin sees it.  The signer is a parameter.
    [Strip]'s loop runs on fuel; [stripLoop_total] shows that the length of the
    text bounds it.

    [Strip_inverts] is the round trip: a history of plain segments with signed
    notices between them is stripped to the segments. *)

From stdpp Require Import base list strings pretty numbers.
From Stdlib Require Import Ascii SpecFloat.
From stdpp Require Import base list strings pretty numbers relations.
From S2P Require Import Prelude ByteStrings GoStrings ConversationKeys RateLimit Suggest Framing.

(** ** Strings *)

Definition newline : ascii := "010".
Definition nl : string := String newline "".

(** [strings.Index]; [None] for -1. *)
Fixpoint Index (s p : string) : option nat :=
  if HasPrefix s p then Some 0
  else match s with
       | EmptyString => None
       | String _ s' => S <$> Index s' p
       end.
Definition IndexByte (s : string) (c : ascii) : option nat := Index s (String c "").

(** [text[i:j]] with [i <= j <= len(text)]. *)
Definition slice (i j : nat) (s : string) : string := str_take (j - i) (str_drop i s).

(** [fmt]'s [%.2f]: the exact value rounded to two decimals, ties to even. *)
Definition hundredths (m : positive) (e : Z) : N :=
  if (0 <=? e)%Z then (Npos m * 100 * 2 ^ Z.to_N e)%N
  else
    let d := (2 ^ Z.to_N (- e))%N in
    let q := (Npos m * 100 / d)%N in
    let r := (Npos m * 100 mod d)%N in
    if (d <? 2 * r)%N || ((2 * r =? d)%N && N.odd q) then (q + 1)%N else q.
Definition fmt_2f (f : float64) : string :=
  match f with
  | S754_nan => "NaN"
  | S754_infinity s => if s then "-Inf" else "+Inf"
  | S754_zero s => if s then "-0.00" else "0.00"
  | S754_finite s m e =>
      let n := hundredths m e in
      (if s then "-" else "") +:+ pretty (n / 100)%N +:+ "." +:+ pretty (n / 10 mod 10)%N +:+ pretty (n mod 10)%N
  end.

(** ** Markers *)

Definition markerPurpose : string := "torana/notice/v1".
Definition beginPrefix : string := "[torana:begin:".
Definition endPrefix : string := "[torana:end:".

Inductive noticeErr :=
| ErrStripFailed
| ErrIdentityRequired          (* conversation and notice ID are required *)
| ErrShortMAC                  (* notice MAC is too short *)
| ErrSigner (msg : string).

Section Signer.
(** [Signer.MAC]. *)
Context (MAC : string → string → res string string).

Definition signature (conversation id : string) : res noticeErr string :=
  if String.eqb conversation "" || String.eqb id "" then Err ErrIdentityRequired
  else
    mac ←? map_err ErrSigner (MAC markerPurpose (conversation +:+ String "000" id));
    if (String.length mac <? 6)%nat then Err ErrShortMAC
    else Ok (EncodeToString (str_take 6 mac)).

Definition Render (conversation : string) (item : Suggestion) : res noticeErr string :=
  sig ←? signature conversation (sg_ID item);
  Ok (nl +:+ nl +:+ beginPrefix +:+ sg_ID item +:+ ":" +:+ sig +:+ "]" +:+ nl
      +:+ "[torana] Suggestion: " +:+ sg_Title item +:+ nl
      +:+ (if String.eqb (sg_Body item) "" then "" else "Why: " +:+ sg_Body item +:+ nl)
      +:+ (match sg_CostUSD item with
           | Some c => "One-time cost estimate: $" +:+ fmt_2f c +:+ nl
           | None => ""
           end)
      +:+ (if String.eqb (sg_HarnessTargetModel item) "" then
             "Review this suggestion in Torana (torana suggestions list)." +:+ nl
           else
             "Switch your harness to " +:+ sg_HarnessTargetModel item
             +:+ ", or review this suggestion in Torana (torana suggestions list)." +:+ nl)
      +:+ endPrefix +:+ sg_ID item +:+ ":" +:+ sig +:+ "]" +:+ nl).

Definition probeID : string := "probe_v1".
Definition RenderProbe (conversation : string) : res noticeErr string :=
  sig ←? signature conversation probeID;
  Ok (nl +:+ nl +:+ beginPrefix +:+ probeID +:+ ":" +:+ sig +:+ "]" +:+ nl
      +:+ "[torana] Notice probe: this is a local display test." +:+ nl
      +:+ endPrefix +:+ probeID +:+ ":" +:+ sig +:+ "]" +:+ nl).

(** ** [Strip] *)

(** What one pass of the loop does: leave it, search on from an offset, or
    return. *)
Inductive stripStep :=
| Break
| Continue (text : string) (search : nat) (changed : bool)
| Return (text : string) (changed : bool) (err : noticeErr).

(** A newline after the end marker, and the blank line before the begin marker,
    go with the span. *)
Definition spanEnd (text : string) (stop : nat) : nat :=
  if (stop <? String.length text)%nat && String.eqb (slice stop (S stop) text) nl then S stop else stop.
Definition spanStart (text : string) (start : nat) : nat :=
  if (2 <=? start)%nat && String.eqb (slice (start - 2) start text) (nl +:+ nl) then (start - 2)%nat else start.

Definition stripBody (conversation text : string) (search : nat) (changed : bool) : stripStep :=
  match Index (str_drop search text) beginPrefix with
  | None => Break
  | Some relative =>
      let start := (search + relative)%nat in
      match IndexByte (str_drop start text) "]" with
      | None => Break
      | Some e =>
          let markerEnd := (e + start)%nat in
          let marker := slice (start + String.length beginPrefix) markerEnd text in
          let '(id, supplied, ok) := Cut ":" marker in
          if negb ok || negb (String.length supplied =? 12)%nat then Continue text (S markerEnd) changed
          else
            match signature conversation id with
            | Err err => Return text changed err
            | Ok expected =>
                if negb (String.eqb supplied expected) then Continue text (S markerEnd) changed
                else
                  let endMarker := endPrefix +:+ id +:+ ":" +:+ supplied +:+ "]" in
                  match Index (str_drop (S markerEnd) text) endMarker with
                  | None => Return text changed ErrStripFailed
                  | Some endRelative =>
                      let stop := spanEnd text (S markerEnd + endRelative + String.length endMarker) in
                      let removeStart := spanStart text start in
                      Continue (str_take removeStart text +:+ str_drop stop text) removeStart true
                  end
            end
      end
  end.

(** [None] when the fuel runs out. *)
Fixpoint stripLoop (fuel : nat) (conversation text : string) (search : nat) (changed : bool)
    : option (string * bool * option noticeErr) :=
  if negb (search <? String.length text)%nat then Some (text, changed, None)
  else
    match fuel with
    | O => None
    | S fuel =>
        match stripBody conversation text search changed with
        | Break => Some (text, changed, None)
        | Continue text search changed => stripLoop fuel conversation text search changed
        | Return text changed err => Some (text, changed, Some err)
        end
    end.

Definition Strip (conversation text : string) : option (string * bool * option noticeErr) :=
  stripLoop (String.length text) conversation text 0 false.
End Signer.

(** * Signed notices: proofs

    Search lemmas for [Index], termination of [Strip], what it removes, and the
    round trip with [Render]. *)

#[local] Arguments String.append !_ _ /.
#[local] Arguments HasPrefix _ _ /.

(** ** Searching *)

Lemma HasPrefix_app p s : HasPrefix (p +:+ s) p = true.
Proof. unfold HasPrefix. induction p as [|c p IH]; [by destruct s|]. cbn. by destruct (ascii_dec c c). Qed.

Lemma HasPrefix_spec s p : HasPrefix s p = true → s = p +:+ str_drop (String.length p) s.
Proof.
  revert s. induction p as [|c p IH]; intros [|d s]; cbn; try done.
  destruct (ascii_dec c d) as [->|]; [|done]. intros H%IH. by rewrite H at 1.
Qed.

(** An occurrence of [p] cannot lie across a byte that [p] does not have. *)
Lemma HasPrefix_sep p d a r : free d p → HasPrefix (a +:+ String d r) p = HasPrefix a p.
Proof.
  unfold free. revert a. induction p as [|c p IH]; intros [|x a] Hf; cbn in *; try done.
  - apply orb_false_iff in Hf as [Hc _]. destruct (ascii_dec c d) as [->|]; [|done]. by rewrite Ascii.eqb_refl in Hc.
  - apply orb_false_iff in Hf as [_ Hf]. destruct (ascii_dec c x); [by apply IH|done].
Qed.

Lemma Index_cons c s p : Index (String c s) p = if HasPrefix (String c s) p then Some 0 else S <$> Index s p.
Proof. done. Qed.

Lemma Index_sep p d a r : free d p → p ≠ "" →
  Index (a +:+ String d r) p =
    match Index a p with Some i => Some i | None => (λ i, S (String.length a + i)) <$> Index r p end.
Proof.
  intros Hf Hp. induction a as [|c a IH].
  - change ("" +:+ String d r) with (String d r). rewrite Index_cons.
    pose proof (HasPrefix_sep p d "" r Hf) as E. change ("" +:+ String d r) with (String d r) in E. rewrite E.
    destruct p; [done|]. cbn. by destruct (Index r _).
  - change (String c a +:+ String d r) with (String c (a +:+ String d r)). rewrite !Index_cons.
    pose proof (HasPrefix_sep p d (String c a) r Hf) as E.
    change (String c a +:+ String d r) with (String c (a +:+ String d r)) in E. rewrite E.
    destruct (HasPrefix (String c a) p); [done|]. rewrite IH. by destruct (Index a p), (Index r p).
Qed.

Lemma Index_here p s : Index (p +:+ s) p = Some 0.
Proof.
  pose proof (HasPrefix_app p s) as E. destruct (p +:+ s) as [|c t]; [by destruct p|]. by rewrite Index_cons, E.
Qed.

Lemma Index_Some s p i : Index s p = Some i →
  s = str_take i s +:+ p +:+ str_drop (i + String.length p) s ∧ i + String.length p ≤ String.length s.
Proof.
  revert i. induction s as [|c s IH]; intros i.
  - destruct p; [|done]. by intros [= <-].
  - rewrite Index_cons. destruct (HasPrefix (String c s) p) eqn:E.
    + intros [= <-]. pose proof (HasPrefix_spec _ _ E) as E'. split; [done|].
      apply (f_equal String.length) in E'. rewrite str_length_app in E'. lia.
    + destruct (Index s p) as [j|]; [|done]. intros [= <-]. destruct (IH j eq_refl) as [Hs Hl].
      split; [|cbn; lia]. change (String c s = String c (str_take j s +:+ p +:+ str_drop (j + String.length p) s)).
      by f_equal.
Qed.

Lemma HasPrefix_shorter s p q : HasPrefix s (p +:+ q) = true → HasPrefix s p = true.
Proof. intros ->%HasPrefix_spec. rewrite sapp_assoc. apply HasPrefix_app. Qed.

(** A longer pattern occurs only where its prefix does. *)
Lemma Index_longer s p q : Index s p = None → Index s (p +:+ q) = None.
Proof.
  induction s as [|c s IH]; [by destruct p|]. rewrite !Index_cons.
  destruct (HasPrefix (String c s) (p +:+ q)) eqn:E; [by rewrite (HasPrefix_shorter _ _ _ E)|].
  destruct (HasPrefix (String c s) p); [done|]. destruct (Index s p); [done|]. by rewrite IH.
Qed.

Lemma Index_byte_app a c s : free c a → IndexByte (a +:+ String c s) c = Some (String.length a).
Proof.
  unfold free, IndexByte. induction a as [|x a IH]; cbn; intros Hf.
  - destruct (ascii_dec c c); [by destruct s|done].
  - apply orb_false_iff in Hf as [Hx Hf]. destruct (ascii_dec c x) as [->|].
    + by rewrite Ascii.eqb_refl in Hx.
    + by rewrite IH.
Qed.

Lemma Index_of_free c p s : free c s → Index s (String c p) = None.
Proof.
  unfold free. induction s as [|x s IH]; cbn; [done|]. intros [Hx Hf]%orb_false_iff.
  destruct (ascii_dec c x) as [->|]; [by rewrite Ascii.eqb_refl in Hx|]. by rewrite IH.
Qed.

Lemma str_drop_drop i j s : str_drop i (str_drop j s) = str_drop (j + i) s.
Proof. revert s. induction j as [|j IH]; intros [|c s]; cbn; try done. by destruct i. Qed.

Lemma str_drop_length n s : String.length (str_drop n s) = String.length s - n.
Proof. revert s. induction n as [|n IH]; intros [|c s]; cbn; try done. Qed.

Lemma Cut_app c a b : free c a → Cut c (a +:+ String c b) = (a, b, true).
Proof.
  unfold free. induction a as [|x a IH]; cbn; intros Hf.
  - by rewrite Ascii.eqb_refl.
  - apply orb_false_iff in Hf as [Hx Hf]. by rewrite Hx, (IH Hf).
Qed.

Lemma free_neq c s d : free c s → ContainsByte d s = true → Ascii.eqb d c = false.
Proof.
  unfold free. induction s as [|x s IH]; [done|]. cbn. intros [Hx Hf]%orb_false_iff [->%Ascii.eqb_eq|H]%orb_true_iff; auto.
Qed.

Lemma slice_app a b c i j : i = String.length a → j = String.length a + String.length b →
  slice i j (a +:+ b +:+ c) = b.
Proof. intros -> ->. unfold slice. rewrite str_drop_app. apply str_take_len. lia. Qed.

(** ** The ends of a span *)

Lemma spanStart_le text n : spanStart text n ≤ n.
Proof. unfold spanStart. case_match; lia. Qed.
Lemma spanEnd_ge text n : n ≤ spanEnd text n.
Proof. unfold spanEnd. case_match; lia. Qed.

Lemma spanEnd_newline a b : spanEnd (a +:+ nl +:+ b) (String.length a) = S (String.length a).
Proof.
  unfold spanEnd. rewrite slice_app by (cbn; lia). rewrite !str_length_app.
  replace (_ <? _)%nat with true; [done|]. symmetry. apply Nat.ltb_lt. cbn. lia.
Qed.

Lemma spanStart_blank a b : spanStart (a +:+ (nl +:+ nl) +:+ b) (String.length a + 2) = String.length a.
Proof.
  unfold spanStart. rewrite slice_app by (cbn; lia). replace (2 <=? _)%nat with true; [cbn; lia|].
  symmetry. apply Nat.leb_le. lia.
Qed.

(** ** Termination *)

Section Signer.
Context (MAC : string → string → res string string).

Lemma stripBody_decreases conversation text search changed text' search' changed' :
  search < String.length text →
  stripBody MAC conversation text search changed = Continue text' search' changed' →
  String.length text' - search' < String.length text - search.
Proof.
  intros Hs. unfold stripBody. destruct (Index _ beginPrefix) as [relative|]; [|done].
  destruct (IndexByte _ _) as [e|] eqn:He; [|done]. destruct (Cut _ _) as [[id supplied] ok].
  case_match; [intros [= <- <- _]; lia|].
  destruct (signature _ _ _) as [expected|]; [|done].
  case_match; [intros [= <- <- _]; lia|].
  generalize (endPrefix +:+ id +:+ ":" +:+ supplied +:+ "]"). intros marker.
  destruct (Index (str_drop _ _) marker) as [r|] eqn:Hr; [|done]. intros [= <- <- _].
  apply Index_Some in Hr as [_ Hr]. rewrite str_drop_length in Hr.
  pose proof (spanStart_le text (search + relative)).
  pose proof (spanEnd_ge text (S (e + (search + relative) + r + String.length marker))).
  rewrite str_length_app, str_take_length, str_drop_length. lia.
Qed.

Lemma stripLoop_total fuel conversation text search changed :
  String.length text - search ≤ fuel → is_Some (stripLoop MAC fuel conversation text search changed).
Proof.
  revert text search changed. induction fuel as [|fuel IH]; intros text search changed Hf; cbn [stripLoop];
    (case_match eqn:Hs; [by eexists|]); apply negb_false_iff, Nat.ltb_lt in Hs; [lia|].
  destruct (stripBody _ _ _ _ _) eqn:Hb; [by eexists| |by eexists].
  apply IH. apply stripBody_decreases in Hb; lia.
Qed.

Lemma stripLoop_mono fuel fuel' conversation text search changed r :
  fuel ≤ fuel' → stripLoop MAC fuel conversation text search changed = Some r →
  stripLoop MAC fuel' conversation text search changed = Some r.
Proof.
  revert fuel' text search changed. induction fuel as [|fuel IH]; intros [|fuel'] text search changed Hle;
    cbn [stripLoop]; try lia; case_match; try done.
  destruct (stripBody _ _ _ _ _); try done. apply IH; lia.
Qed.

(** Any fuel that suffices gives [Strip]'s result. *)
Lemma Strip_unique fuel conversation text r :
  stripLoop MAC fuel conversation text 0 false = Some r → Strip MAC conversation text = Some r.
Proof.
  intros H. destruct (stripLoop_total (String.length text) conversation text 0 false) as [r' Hr']; [lia|].
  unfold Strip. rewrite Hr'.
  apply (stripLoop_mono _ (fuel + String.length text)) in H; [|lia].
  apply (stripLoop_mono _ (fuel + String.length text)) in Hr'; [|lia]. congruence.
Qed.

(** ** Round trip *)

Lemma hex_free c s : free c "0123456789abcdef" → free c (EncodeToString s).
Proof.
  intros Hc. assert (Hd : ∀ n, (n < 16)%N → Ascii.eqb (hexChar n) c = false).
  { intros n Hn. apply (free_neq c "0123456789abcdef"); [done|]. by repeat (destruct n as [|n] || destruct n; try lia). }
  unfold free. induction s as [|d s IH]; [done|]. cbn.
  rewrite IH, !Hd; [done|by apply N.mod_lt|].
  apply N.Div0.div_lt_upper_bound. pose proof (N_ascii_bounded d). lia.
Qed.

Lemma signature_shape conversation id sig : signature MAC conversation id = Ok sig →
  String.length sig = 12 ∧ ∀ c, free c "0123456789abcdef" → free c sig.
Proof.
  unfold signature. case_match; [done|]. destruct (MAC _ _) as [mac|]; [|done]. cbn [map_err res_bind].
  case_match eqn:Hl; [done|]. intros H6. assert (sig = EncodeToString (str_take 6 mac)) as -> by congruence. apply Nat.ltb_ge in Hl.
  split; [|by intros c; apply hex_free].
  assert (∀ s, String.length (EncodeToString s) = 2 * String.length s) as Hd.
  { intros s. induction s as [|x s IH]; [done|]. cbn. rewrite IH. lia. }
  rewrite Hd, str_take_length. lia.
Qed.

Definition cleanID (id : string) : Prop := free ":" id ∧ free "]" id ∧ free newline id.

(** The text of a notice: the begin marker, the lines in between, the end
    marker, a blank line before and a newline after. *)
Definition opening (id sig : string) : string := beginPrefix +:+ id +:+ ":" +:+ sig.
Definition closing (id sig : string) : string := endPrefix +:+ id +:+ ":" +:+ sig +:+ "]".
Definition noticeText (id sig lines : string) : string :=
  (nl +:+ nl) +:+ opening id sig +:+ "]" +:+ lines +:+ nl +:+ closing id sig +:+ nl.

Lemma str_drop_split a b n text : text = a +:+ b → n = String.length a → str_drop n text = b.
Proof. intros -> ->. apply str_drop_app. Qed.

Lemma str_take_len' a text : (∃ b, text = a +:+ b) → str_take (String.length a) text = a.
Proof. intros [b ->]. apply str_take_app. Qed.

Lemma slice_split a b c i j text : text = a +:+ b +:+ c → i = String.length a →
  j = String.length a + String.length b → slice i j text = b.
Proof. intros ->. apply slice_app. Qed.

Lemma free_app c a b : free c a → free c b → free c (a +:+ b).
Proof. unfold free. rewrite contains_app. by intros -> ->. Qed.

Lemma Index_closing id sig lines rest : free newline (closing id sig) → Index lines endPrefix = None →
  Index (lines +:+ nl +:+ closing id sig +:+ rest) (closing id sig) = Some (S (String.length lines)).
Proof.
  intros Hf Hl. change (nl +:+ closing id sig +:+ rest) with (String newline (closing id sig +:+ rest)).
  rewrite Index_sep by done. unfold closing at 1. rewrite Index_longer by done.
  rewrite Index_here. cbn. f_equal. lia.
Qed.

Lemma Index_opening s rest : Index s beginPrefix = None →
  Index (s +:+ (nl +:+ nl) +:+ beginPrefix +:+ rest) beginPrefix = Some (String.length s + 2).
Proof.
  intros Hs. change ((nl +:+ nl) +:+ beginPrefix +:+ rest) with (String newline (String newline (beginPrefix +:+ rest))).
  rewrite Index_sep by done. rewrite Hs.
  change (String newline (beginPrefix +:+ rest)) with ("" +:+ String newline (beginPrefix +:+ rest)).
  rewrite Index_sep by done. rewrite Index_here. cbn. f_equal. lia.
Qed.

Lemma stripBody_notice conversation pre s id sig lines rest changed :
  Index s beginPrefix = None → cleanID id → signature MAC conversation id = Ok sig → Index lines endPrefix = None →
  stripBody MAC conversation (pre +:+ s +:+ noticeText id sig lines +:+ rest) (String.length pre) changed
  = Continue ((pre +:+ s) +:+ rest) (String.length (pre +:+ s)) true.
Proof.
  intros Hs (Hc & Hb & Hn) Hsig Hl. destruct (signature_shape _ _ _ Hsig) as [H12 Hfree].
  set (P := pre +:+ s). set (tail := lines +:+ nl +:+ closing id sig +:+ nl +:+ rest).
  assert (Ht : pre +:+ s +:+ noticeText id sig lines +:+ rest = P +:+ (nl +:+ nl) +:+ opening id sig +:+ "]" +:+ tail).
  { unfold P, tail, noticeText. by rewrite !sapp_assoc. }
  assert (Hlen : String.length pre + (String.length s + 2) = String.length (P +:+ nl +:+ nl))
    by (unfold P; rewrite !str_length_app; cbn; lia).
  assert (HlenP : String.length (P +:+ nl +:+ nl) = String.length P + 2) by (rewrite str_length_app; cbn; lia).
  unfold stripBody.
  replace (Index _ beginPrefix) with (Some (String.length s + 2)).
  2: { rewrite str_drop_app. unfold noticeText, opening. rewrite !sapp_assoc. symmetry. by apply Index_opening. }
  rewrite Hlen, Ht, HlenP. clear Ht Hlen HlenP. generalize P. clear P. intros P. cbv zeta.
  replace (IndexByte _ "]") with (Some (String.length (opening id sig))).
  2: { rewrite (str_drop_split (P +:+ nl +:+ nl) (opening id sig +:+ "]" +:+ tail)).
       - symmetry. apply Index_byte_app. unfold opening. repeat apply free_app; try done. by apply Hfree.
       - by rewrite !sapp_assoc.
       - rewrite !str_length_app. cbn. lia. }
  cbv beta iota.
  replace (slice _ _ _) with (id +:+ String ":" sig).
  2: { symmetry. apply (slice_split ((P +:+ nl +:+ nl) +:+ beginPrefix) _ ("]" +:+ tail)).
       - unfold opening. by rewrite !sapp_assoc.
       - rewrite !str_length_app. cbn. lia.
       - unfold opening. rewrite !str_length_app. cbn. lia. }
  rewrite (Cut_app ":" id sig Hc), H12. cbn [negb orb Nat.eqb]. rewrite Hsig, String.eqb_refl. cbn [negb].
  change (endPrefix +:+ id +:+ ":" +:+ sig +:+ "]") with (closing id sig).
  assert (Hm : S (String.length (opening id sig) + (String.length P + 2))
               = String.length (P +:+ (nl +:+ nl) +:+ opening id sig +:+ "]")) by (rewrite !str_length_app; cbn; lia).
  rewrite Hm, (str_drop_split (P +:+ (nl +:+ nl) +:+ opening id sig +:+ "]") tail); [|by rewrite !sapp_assoc|done].
  unfold tail. rewrite Index_closing; [|repeat apply free_app; try done; by apply Hfree|done].
  set (body := P +:+ (nl +:+ nl) +:+ opening id sig +:+ "]" +:+ lines +:+ nl +:+ closing id sig).
  assert (Hstop : String.length (P +:+ (nl +:+ nl) +:+ opening id sig +:+ "]") + S (String.length lines)
                  + String.length (closing id sig) = String.length body)
    by (unfold body; rewrite !str_length_app; cbn [nl String.length]; lia).
  rewrite Hstop. assert (Ht : P +:+ (nl +:+ nl) +:+ opening id sig +:+ "]" +:+ lines +:+ nl +:+ closing id sig +:+ nl +:+ rest
    = body +:+ nl +:+ rest) by (unfold body; by rewrite !sapp_assoc).
  rewrite spanStart_blank, Ht, spanEnd_newline.
  rewrite (str_drop_split (body +:+ nl) rest); [|by rewrite sapp_assoc|rewrite str_length_app; cbn; lia].
  unfold body. rewrite !sapp_assoc, str_take_app. done.
Qed.

(** A notice that [Render] or [RenderProbe] writes for the conversation. *)
Definition signed (conversation n : string) : Prop :=
  ∃ id sig lines, n = noticeText id sig lines ∧ cleanID id ∧ signature MAC conversation id = Ok sig
                  ∧ Index lines endPrefix = None.
Definition plain (s : string) : Prop := Index s beginPrefix = None.

(** A history: a plain segment, then notices each followed by one. *)
Fixpoint withNotices (l : list (string * string)) : string :=
  match l with [] => "" | (n, s) :: l' => n +:+ s +:+ withNotices l' end.
Fixpoint withoutNotices (l : list (string * string)) : string :=
  match l with [] => "" | (_, s) :: l' => s +:+ withoutNotices l' end.

Lemma stripLoop_plain fuel conversation pre s changed : plain s →
  stripLoop MAC (S fuel) conversation (pre +:+ s) (String.length pre) changed = Some (pre +:+ s, changed, None).
Proof.
  intros Hs. cbn [stripLoop]. case_match; [done|]. unfold stripBody. rewrite str_drop_app. by rewrite Hs.
Qed.

Lemma stripLoop_S fuel conversation text search changed :
  stripLoop MAC (S fuel) conversation text search changed =
    if negb (search <? String.length text)%nat then Some (text, changed, None)
    else match stripBody MAC conversation text search changed with
         | Break => Some (text, changed, None)
         | Continue text search changed => stripLoop MAC fuel conversation text search changed
         | Return text changed err => Some (text, changed, Some err)
         end.
Proof. done. Qed.

Lemma stripLoop_history conversation l : Forall (λ p, signed conversation p.1 ∧ plain p.2) l →
  ∀ pre s changed, plain s →
  stripLoop MAC (S (length l)) conversation (pre +:+ s +:+ withNotices l) (String.length pre) changed
  = Some (pre +:+ s +:+ withoutNotices l, match l with [] => changed | _ => true end, None).
Proof.
  induction l as [|[n s'] l IH]; intros Hl pre s changed Hs.
  - cbn [withNotices withoutNotices length]. rewrite app_empty_r. by apply stripLoop_plain.
  - apply list.Forall_cons in Hl as [[(id & sig & lines & Hn & Hid & Hsig & Hi) Hs'] Hl].
    cbn [withNotices withoutNotices length fst snd] in *. subst n.
    assert (Hlt : (String.length pre <? String.length (pre +:+ s +:+ noticeText id sig lines +:+ s' +:+ withNotices l))%nat = true).
    { apply Nat.ltb_lt. rewrite !str_length_app. unfold noticeText. rewrite !str_length_app. cbn [String.length nl]. lia. }
    rewrite stripLoop_S, Hlt. cbn [negb]. rewrite stripBody_notice by done.
    rewrite (IH Hl (pre +:+ s) s' true Hs'), !sapp_assoc. by destruct l.
Qed.

(** What a suggestion may say: none of its texts contains an end marker. *)
Definition quotable (s : string) : Prop := Index s endPrefix = None.
Definition cleanItem (item : Suggestion) : Prop :=
  cleanID (sg_ID item) ∧ quotable (sg_Title item) ∧ quotable (sg_Body item) ∧ quotable (sg_HarnessTargetModel item).

Lemma quotable_sep d a r : free d endPrefix → quotable a → quotable r → quotable (a +:+ String d r).
Proof. unfold quotable. intros Hd Ha Hr. rewrite Index_sep by done. by rewrite Ha, Hr. Qed.
Lemma quotable_free a : free "[" a → quotable a.
Proof. apply Index_of_free. Qed.

Lemma pretty_free (n : N) : free "[" (pretty n).
Proof.
  unfold pretty, pretty_N. case_decide as Hz; [done|]. clear Hz.
  assert (∀ s, free "[" s → free "[" (pretty_N_go n s)) as H; [|by apply H].
  induction (N.lt_wf_0 n) as [m _ IH]. intros s Hs. destruct (decide (0 < m)%N).
  - rewrite pretty_N_go_step by done. apply IH; [apply N.div_lt; lia|].
    unfold free in *. cbn. rewrite Hs, orb_false_r. unfold pretty_N_char. by repeat case_match.
  - assert (m = 0%N) as -> by lia. by rewrite pretty_N_go_0.
Qed.

Lemma fmt_2f_free f : free "[" (fmt_2f f).
Proof. destruct f as [[]|[]| |[] m e]; try done; cbn; repeat apply free_app; try done; apply pretty_free. Qed.

Definition costLine (c : option float64) : string :=
  match c with Some c => nl +:+ "One-time cost estimate: $" +:+ fmt_2f c | None => "" end.
Definition whyLine (body : string) : string := if String.eqb body "" then "" else nl +:+ "Why: " +:+ body.
Definition switchLine (model : string) : string :=
  if String.eqb model "" then nl +:+ "Review this suggestion in Torana (torana suggestions list)."
  else nl +:+ "Switch your harness to " +:+ model +:+ ", or review this suggestion in Torana (torana suggestions list).".
Definition itemLines (item : Suggestion) : string :=
  nl +:+ "[torana] Suggestion: " +:+ sg_Title item +:+ whyLine (sg_Body item) +:+ costLine (sg_CostUSD item)
  +:+ switchLine (sg_HarnessTargetModel item).

Lemma Render_text conversation item sig : signature MAC conversation (sg_ID item) = Ok sig →
  Render MAC conversation item = Ok (noticeText (sg_ID item) sig (itemLines item)).
Proof.
  intros Hs. unfold Render. rewrite Hs. cbn [res_bind].
  unfold noticeText, itemLines, whyLine, costLine, switchLine, opening, closing.
  case_match; case_match; case_match; by rewrite !sapp_assoc.
Qed.

(** Complete lines keep a text quotable. *)
Definition block (s : string) : Prop := s = "" ∨ ∃ r, s = nl +:+ r ∧ quotable r.

Lemma quotable_block a s : quotable a → block s → quotable (a +:+ s).
Proof. intros Ha [->|(r & -> & Hr)]; [by rewrite app_empty_r|]. by apply quotable_sep. Qed.
Lemma block_app a b : block a → block b → block (a +:+ b).
Proof.
  intros [->|(r & -> & Hr)] Hb; [done|]. right. exists (r +:+ b). split; [by rewrite sapp_assoc|]. by apply quotable_block.
Qed.

Lemma itemLines_quotable item : cleanItem item → quotable (itemLines item).
Proof.
  intros (_ & Ht & Hb & Hm). unfold itemLines. apply (quotable_sep newline ""); [done..|].
  apply (quotable_sep " " "[torana] Suggestion:"); [done..|]. apply quotable_block; [done|].
  repeat apply block_app.
  - unfold whyLine. case_match; [by left|]. right. eexists; split; [done|]. by apply (quotable_sep " " "Why:").
  - unfold costLine. case_match; [|by left]. right. eexists; split; [done|].
    apply (quotable_sep "$" "One-time cost estimate: "); [done..|]. apply quotable_free, fmt_2f_free.
  - unfold switchLine. case_match; right; (eexists; split; [done|]); [done|].
    apply (quotable_sep " " "Switch your harness to"); [done..|]. by apply quotable_sep.
Qed.

Lemma Render_signed conversation item n :
  Render MAC conversation item = Ok n → cleanItem item → signed conversation n.
Proof.
  intros Hr Hc. destruct (signature MAC conversation (sg_ID item)) as [sig|] eqn:Hs;
    [|unfold Render in Hr; by rewrite Hs in Hr].
  rewrite (Render_text _ _ _ Hs) in Hr. injection Hr as <-.
  exists (sg_ID item), sig, (itemLines item). split; [done|]. split; [apply Hc|]. split; [done|]. by apply itemLines_quotable.
Qed.

Lemma RenderProbe_signed conversation n : RenderProbe MAC conversation = Ok n → signed conversation n.
Proof.
  unfold RenderProbe. destruct (signature MAC conversation probeID) as [sig|] eqn:Hs; [|done]. cbn [res_bind].
  intros [= <-]. exists probeID, sig, (nl +:+ "[torana] Notice probe: this is a local display test.").
  split; [|done]. unfold noticeText, opening, closing. by rewrite !sapp_assoc.
Qed.

(** IDs the suggestion store draws are clean. *)
Lemma randomID_clean raw : cleanID (randomID raw).
Proof.
  assert (H : ∀ c, free c "abcdefghijklmnopqrstuvwxyz234567" → ∀ n v, free c (base32Digits n v)).
  { intros c Hc n. induction n as [|n IH]; intros v; [done|]. cbn [base32Digits]. apply free_app; [apply IH|].
    unfold free. cbn [ContainsByte]. rewrite orb_false_r. apply (free_neq _ _ _ Hc).
    assert (Hv : N.to_nat (v mod 32) < 32) by (pose proof (N.mod_lt v 32 ltac:(done)); lia).
    revert Hv. generalize (N.to_nat (v mod 32)). intros k Hk. by do 32 (destruct k as [|k]; [done|]); lia. }
  unfold randomID. split_and!; apply free_app; try done; by apply H.
Qed.

(** ** What [Strip] takes out *)

(** One signed span, with the blank line before it and the newline after it if
    they are there. *)
Definition removal (conversation t t' : string) : Prop :=
  ∃ pre lead id sig lines trail post,
    t = pre +:+ lead +:+ opening id sig +:+ "]" +:+ lines +:+ closing id sig +:+ trail +:+ post
    ∧ t' = pre +:+ post ∧ signature MAC conversation id = Ok sig
    ∧ lead ∈ [""; nl +:+ nl] ∧ trail ∈ [""; nl].

Lemma Index_byte_skip a c s : free c a → IndexByte (a +:+ s) c = (λ i, String.length a + i) <$> IndexByte s c.
Proof.
  unfold free, IndexByte. induction a as [|x a IH]; intros Hf.
  - change ("" +:+ s) with s. by destruct (Index s _).
  - change (String x a +:+ s) with (String x (a +:+ s)). cbn in Hf. apply orb_false_iff in Hf as [Hx Hf].
    rewrite Index_cons. cbn [HasPrefix String.prefix]. destruct (ascii_dec c x) as [->|]; [by rewrite Ascii.eqb_refl in Hx|].
    rewrite (IH Hf). by destruct (Index s _).
Qed.

Lemma Index_split s p i : Index s p = Some i → ∃ a b, s = a +:+ p +:+ b ∧ String.length a = i.
Proof.
  intros [Hs Hl]%Index_Some. eexists _, _. split; [exact Hs|]. rewrite str_take_length. lia.
Qed.

Lemma Cut_spec c s a b : Cut c s = (a, b, true) → s = a +:+ String c b.
Proof.
  revert a. induction s as [|x s IH]; intros a; cbn; [done|].
  destruct (Ascii.eqb_spec x c) as [->|]; [by intros [= <- <-]|].
  destruct (Cut c s) as [[a' b'] f]. intros [= <- <- ->]. by rewrite (IH a' eq_refl).
Qed.

Lemma str_drop_search s n : n < String.length s → ∃ a, s = a +:+ str_drop n s ∧ String.length a = n.
Proof. intros H. exists (str_take n s). rewrite str_take_drop, str_take_length. split; [done|lia]. Qed.

Lemma spanEnd_split a b : ∃ trail post, b = trail +:+ post ∧ trail ∈ [""; nl]
  ∧ spanEnd (a +:+ b) (String.length a) = String.length (a +:+ trail).
Proof.
  unfold spanEnd, slice. rewrite str_drop_app. case_match eqn:E.
  - apply andb_true_iff in E as [_ E%String.eqb_eq]. replace (S _ - _) with 1 in E by lia.
    destruct b as [|c b]; [done|]. exists nl, b. cbn in E. injection E as ->. split; [done|]. split; [set_solver|].
    rewrite str_length_app. cbn. lia.
  - exists "", b. split; [done|]. split; [set_solver|]. by rewrite app_empty_r.
Qed.

Lemma spanStart_split a b : ∃ pre lead, a = pre +:+ lead ∧ lead ∈ [""; nl +:+ nl]
  ∧ spanStart (a +:+ b) (String.length a) = String.length pre.
Proof.
  unfold spanStart. case_match eqn:E.
  - apply andb_true_iff in E as [H2%Nat.leb_le E%String.eqb_eq].
    exists (str_take (String.length a - 2) a), (nl +:+ nl). rewrite str_take_length. split; [|split; [set_solver|lia]].
    rewrite <- E. unfold slice. replace (_ - (_ - 2)) with 2 by lia.
    assert (Ha : str_drop (String.length a - 2) (a +:+ b) = str_drop (String.length a - 2) a +:+ b).
    { rewrite <- (str_take_drop (String.length a - 2) a) at 2. rewrite sapp_assoc. apply str_drop_len.
      rewrite str_take_length. lia. }
    rewrite Ha, str_take_len by (rewrite str_drop_length; lia). by rewrite str_take_drop.
  - exists a, "". rewrite app_empty_r. split; [done|]. split; [set_solver|done].
Qed.

Lemma stripBody_found conversation text search changed text' search' changed' :
  search < String.length text →
  stripBody MAC conversation text search changed = Continue text' search' changed' →
  (text' = text ∧ changed' = changed) ∨
  ∃ A id sig L U, signature MAC conversation id = Ok sig
    ∧ text = A +:+ opening id sig +:+ "]" +:+ L +:+ closing id sig +:+ U
    ∧ text' = str_take (spanStart text (String.length A)) text +:+
              str_drop (spanEnd text (String.length (A +:+ opening id sig +:+ "]" +:+ L +:+ closing id sig))) text
    ∧ changed' = true.
Proof.
  intros Hs. unfold stripBody. destruct (str_drop_search _ _ Hs) as (A0 & Htext & HA0).
  destruct (Index _ beginPrefix) as [relative|] eqn:Hr; [|done]. apply Index_split in Hr as (A1 & R & HR & <-).
  assert (Ht : text = (A0 +:+ A1) +:+ beginPrefix +:+ R) by (rewrite Htext, HR; by rewrite sapp_assoc).
  assert (Hlen : search + String.length A1 = String.length (A0 +:+ A1)) by (rewrite str_length_app; lia).
  rewrite Hlen. clear Hlen HR Htext HA0 Hs. revert Ht. generalize (A0 +:+ A1). clear A0 A1. intros A Ht.
  rewrite Ht at 1. rewrite str_drop_app, Index_byte_skip by done.
  destruct (IndexByte R "]") as [e|] eqn:He; [|done]. apply Index_split in He as (K & T & -> & <-). cbn [fmap option_fmap option_map].
  assert (HK : slice (String.length A + String.length beginPrefix)
                 (String.length beginPrefix + String.length K + String.length A) text = K).
  { apply (slice_split (A +:+ beginPrefix) _ ("]" +:+ T)); [by rewrite Ht, !sapp_assoc| |];
      rewrite str_length_app; lia. }
  cbv zeta. rewrite HK. destruct (Cut ":" K) as [[id supplied] ok] eqn:HC.
  case_match eqn:Hok; [by intros [= <- _ <-]; left|].
  apply orb_false_iff in Hok as [->%negb_false_iff _]. apply Cut_spec in HC.
  destruct (signature MAC conversation id) as [expected|] eqn:Hsig; [|done].
  case_match eqn:Heq; [by intros [= <- _ <-]; left|]. apply negb_false_iff, String.eqb_eq in Heq as ->.
  change (endPrefix +:+ id +:+ ":" +:+ expected +:+ "]") with (closing id expected).
  set (B := A +:+ opening id expected +:+ "]").
  assert (HB : text = B +:+ T) by (rewrite Ht, HC; unfold B, opening; by rewrite !sapp_assoc).
  assert (HBl : S (String.length beginPrefix + String.length K + String.length A) = String.length B)
    by (unfold B, opening; rewrite HC, !str_length_app; cbn; lia).
  rewrite HBl. rewrite HB at 1. rewrite str_drop_app.
  destruct (Index T (closing id expected)) as [r|] eqn:Hr; [|done]. apply Index_split in Hr as (L & U & HT & <-).
  intros H. right. exists A, id, expected, L, U. split; [done|].
  split; [rewrite HB, HT; unfold B; by rewrite !sapp_assoc|].
  replace (String.length (A +:+ _)) with (String.length B + String.length L + String.length (closing id expected))
    by (unfold B; rewrite !str_length_app; lia).
  split; congruence.
Qed.

Lemma stripBody_removes conversation text search changed text' search' changed' :
  search < String.length text →
  stripBody MAC conversation text search changed = Continue text' search' changed' →
  (text' = text ∧ changed' = changed) ∨ (removal conversation text text' ∧ changed' = true).
Proof.
  intros Hs [H|(A & id & sig & L & U & Hsig & Ht & Ht' & ->)]%(stripBody_found _ _ _ _ _ _ _ Hs); [by left|right].
  split; [|done]. set (D := A +:+ opening id sig +:+ "]" +:+ L +:+ closing id sig) in *.
  assert (HD : text = D +:+ U) by (rewrite Ht; unfold D; by rewrite !sapp_assoc).
  destruct (spanEnd_split D U) as (trail & post & HU & Htr & Hse).
  destruct (spanStart_split A (opening id sig +:+ "]" +:+ L +:+ closing id sig +:+ U)) as (pre & lead & HA & Hle & Hss).
  rewrite <- Ht in Hss. rewrite <- HD in Hse. rewrite Hss, Hse in Ht'.
  exists pre, lead, id, sig, L, trail, post. split; [rewrite Ht, HA, HU; by rewrite !sapp_assoc|].
  split; [|done]. rewrite Ht'. f_equal.
  - apply str_take_len'. exists (lead +:+ opening id sig +:+ "]" +:+ L +:+ closing id sig +:+ U).
    rewrite Ht, HA. by rewrite !sapp_assoc.
  - apply (str_drop_split (D +:+ trail)); [|done]. rewrite HD, HU. by rewrite sapp_assoc.
Qed.

Lemma stripBody_returns conversation text search changed text' changed' err :
  stripBody MAC conversation text search changed = Return text' changed' err → text' = text ∧ changed' = changed.
Proof. unfold stripBody. repeat case_match; try done; by intros [= <- <- _]. Qed.

Lemma stripLoop_removes fuel conversation text search changed text' changed' err :
  stripLoop MAC fuel conversation text search changed = Some (text', changed', err) →
  rtc (removal conversation) text text' ∧ (changed' = false → text' = text ∧ changed = false).
Proof.
  revert text search changed. induction fuel as [|fuel IH]; intros text search changed; cbn [stripLoop];
    (case_match eqn:Hs; [by intros [= <- <- _]|]); [done|]. apply negb_false_iff, Nat.ltb_lt in Hs.
  destruct (stripBody _ _ _ _ _) as [|t sr ch|t ch e] eqn:Hb; [by intros [= <- <- _]| |].
  - intros [Hr Hc]%IH. apply stripBody_removes in Hb as [[-> ->]|[Hrem ->]]; [done|split; [by eapply rtc_l|]|done].
    by intros [_ ?]%Hc.
  - apply stripBody_returns in Hb as [-> ->]. by intros [= <- <- _].
Qed.
End Signer.

(** C27. Adding notices and stripping them are inverse.  Take any replayed text
    made of segments without begin markers, with notices between them that
    [Render] or [RenderProbe] wrote for the conversation, about suggestions whose
    texts contain no end marker.  [Strip] terminates without error and returns
    exactly the segments, and reports a change exactly when there was a notice. *)
Theorem Strip_inverts MAC conversation s l : plain s →
  Forall (λ p, ((∃ item, Render MAC conversation item = Ok p.1 ∧ cleanItem item) ∨ RenderProbe MAC conversation = Ok p.1)
               ∧ plain p.2) l →
  Strip MAC conversation (s +:+ withNotices l) = Some (s +:+ withoutNotices l, negb (bool_decide (l = [])), None).
Proof.
  intros Hs Hl. apply (Strip_unique MAC (S (length l))).
  etrans; [refine (stripLoop_history MAC conversation l _ "" s false Hs)|by destruct l].
  eapply Forall_impl; [exact Hl|]. cbn. intros p [[(item & Hr & Hc)|Hr] Hp]; split; try done.
  - by eapply Render_signed.
  - by apply RenderProbe_signed.
Qed.

Definition echoMAC (purpose value : string) : res string string := Ok (value +:+ purpose).
Definition noted : Suggestion :=
  mkSuggestion (randomID "abcdefghijkl") "" "p" "c" "k" "" "Switch model" "It is cheaper" [] (Some (S754_finite false 1 (-3)%Z))
    "small" 0 1 3 "pending" "" "" "" false.

Lemma Strip_inverts_witness : ∃ n, Render echoMAC "conv" noted = Ok n ∧
  Strip echoMAC "conv" ("Hello" +:+ withNotices [(n, " world")]) = Some ("Hello world", true, None).
Proof.
  eexists. split; [vm_compute; reflexivity|].
  match goal with |- Strip _ _ (_ +:+ withNotices ?l) = _ => apply (Strip_inverts echoMAC "conv" "Hello" l) end.
  - reflexivity.
  - constructor; [|constructor]. split; [|reflexivity]. left. exists noted. split; [vm_compute; reflexivity|].
    repeat split; vm_compute; reflexivity.
Defined.

(** [Strip] terminates on every text and takes out nothing but signed
    spans: what it returns is reached from the text by deleting, one after
    another, spans that run from a begin marker to the matching end marker, both
    carrying the signature of their ID for this conversation, with at most the
    blank line before and the newline after; with no change reported it returns
    the text itself. *)
Theorem Strip_only_signed MAC conversation text : ∃ text' changed err,
  Strip MAC conversation text = Some (text', changed, err)
  ∧ rtc (removal MAC conversation) text text' ∧ (changed = false → text' = text).
Proof.
  destruct (stripLoop_total MAC (String.length text) conversation text 0 false) as [[[t c] e] H]; [lia|].
  exists t, c, e. split; [done|]. destruct (stripLoop_removes _ _ _ _ _ _ _ _ _ H) as [Hr Hc]. split; [done|].
  intros Hf. by apply Hc in Hf as [? _].
Qed.
