(* ===== verification/NoticeStream.v ===== *)
(** * Notices on a streamed turn

    internal/proxy/notice_stream.go: [appendNoticeEvents] forwards a stream and
    holds its finish event back until the source closes, so that a notice can be
    put in a text block of its own just before it.  A send can lose against the
    cancellation of the request; [sent k] says whether the [k]-th one wins, and
    [ctxErr] whether the context is done when the source has closed.

    [notice_stream_exact] gives the forwarded events, [notice_disciplined] shows
    that a stream that keeps the block discipline keeps it with a notice. *)

From stdpp Require Import base list strings gmap sets numbers.
From S2P Require Import Prelude StreamEvents Discipline.

Record noticeVars := mkNoticeVars {
  nv_finish : StreamEvent;
  nv_maxIndex : Z;
  nv_hadTool : bool;
  nv_failed : bool }.
Definition noticeVars0 : noticeVars := mkNoticeVars ev0 (-1) false false.

Definition raise (i m : Z) : Z := if (m <? i)%Z then i else m.

(** What the loop records of an event before it forwards it or holds it back. *)
Definition observe (v : noticeVars) (e : StreamEvent) : noticeVars :=
  let m := match evBlockStart e with Some b => raise (bs_index b) (nv_maxIndex v) | None => nv_maxIndex v end in
  let m := match evToolCallStart e with Some t => raise (tcs_index t) m | None => m end in
  mkNoticeVars
    (if String.eqb (FinishReason e) "" then nv_finish v else e) m
    (nv_hadTool v || bool_decide (evToolCallStart e ≠ None))
    (nv_failed v || bool_decide (Error e ≠ None)).

(** What was sent, the number of sends, and the outcome reported. *)
Record noticeResult := mkNoticeResult { forwarded : list StreamEvent; outcome : string }.
Definition ahead (es : list StreamEvent) (r : noticeResult) : noticeResult := mkNoticeResult (es ++ forwarded r) (outcome r).

Section Context.
Context (sent : nat → bool) (ctxErr : bool).

Definition finishNotice (notice : string) (v : noticeVars) (k : nat) : noticeResult :=
  let finish := nv_finish v in
  if ctxErr then mkNoticeResult [] "interrupted"
  else if nv_failed v then mkNoticeResult [] "stream_error"
  else if String.eqb (FinishReason finish) "" then mkNoticeResult [] "truncated"
  else
    let close k outcome := if sent k then mkNoticeResult [finish] outcome else mkNoticeResult [] "interrupted" in
    if String.eqb (FinishReason finish) "stop" && negb (nv_hadTool v) then
      let index := (nv_maxIndex v + 1)%Z in
      let start := ev_block_start (mkBlockStart index BlockKindText "") in
      if negb (sent k) then mkNoticeResult [] "interrupted"
      else if negb (sent (S k)) then mkNoticeResult [start] "interrupted"
      else if negb (sent (S (S k))) then mkNoticeResult [start; ev_text notice] "interrupted"
      else ahead [start; ev_text notice; ev_block_stop index] (close (S (S (S k))) "delivered")
    else close k "not_completed".

Fixpoint noticeLoop (notice : string) (v : noticeVars) (k : nat) (input : list StreamEvent) : noticeResult :=
  match input with
  | [] => finishNotice notice v k
  | e :: input' =>
      let v := observe v e in
      if negb (String.eqb (FinishReason e) "") then noticeLoop notice v k input'
      else if sent k then ahead [e] (noticeLoop notice v (S k) input')
      else mkNoticeResult [] "interrupted"
  end.

(** [None] as the outcome: nothing is reported. *)
Definition appendNoticeEvents (notice : string) (input : list StreamEvent) : list StreamEvent * option string :=
  if String.eqb notice "" then (input, None)
  else let r := noticeLoop notice noticeVars0 0 input in (forwarded r, Some (outcome r)).
End Context.

(** ** What is forwarded *)

Definition isFinish (e : StreamEvent) : bool := negb (String.eqb (FinishReason e) "").
Definition contents (input : list StreamEvent) : list StreamEvent := List.filter (negb ∘ isFinish) input.
Definition lastFinish (input : list StreamEvent) : option StreamEvent := list.last (List.filter isFinish input).
Definition completed (input : list StreamEvent) : bool :=
  match lastFinish input with
  | Some f => String.eqb (FinishReason f) "stop" && forallb (λ e, bool_decide (evToolCallStart e = None)) input
  | None => false
  end.
Definition indexes (e : StreamEvent) : list Z :=
  match evBlockStart e with Some b => [bs_index b] | None => [] end
  ++ match evToolCallStart e with Some t => [tcs_index t] | None => [] end.
Definition freshIndex (input : list StreamEvent) : Z := foldl Z.max (-1)%Z (concat (map indexes input)) + 1.

Definition noticeBlock (index : Z) (notice : string) : list StreamEvent :=
  [ev_block_start (mkBlockStart index BlockKindText ""); ev_text notice; ev_block_stop index].

(** The events after the contents, when nothing is cancelled. *)
Definition ending (notice : string) (input : list StreamEvent) : list StreamEvent * string :=
  if existsb (λ e, bool_decide (Error e ≠ None)) input then ([], "stream_error")
  else match lastFinish input with
       | None => ([], "truncated")
       | Some f => if completed input then (noticeBlock (freshIndex input) notice ++ [f], "delivered")
                   else ([f], "not_completed")
       end.

Lemma raise_max i m : raise i m = Z.max m i.
Proof. unfold raise. case_match; lia. Qed.

(** The loop's variables after a prefix of the input. *)
Definition seenVars (input : list StreamEvent) : noticeVars := foldl observe noticeVars0 input.

Lemma seenVars_spec input :
  nv_finish (seenVars input) = default ev0 (lastFinish input)
  ∧ (nv_maxIndex (seenVars input) + 1 = freshIndex input)%Z
  ∧ nv_hadTool (seenVars input) = negb (forallb (λ e, bool_decide (evToolCallStart e = None)) input)
  ∧ nv_failed (seenVars input) = existsb (λ e, bool_decide (Error e ≠ None)) input.
Proof.
  unfold seenVars, lastFinish, freshIndex. induction input as [|e input (IH1 & IH2 & IH3 & IH4)] using rev_ind; [done|].
  rewrite foldl_app, List.filter_app, forallb_app, existsb_app, map_app, concat_app, foldl_app. cbn [foldl].
  split_and!.
  - cbn [observe nv_finish]. cbn [List.filter]. unfold isFinish. case_match eqn:E; cbn [negb].
    + rewrite app_nil_r. apply IH1.
    + by rewrite list.last_snoc.
  - cbn [observe nv_maxIndex map concat].
    revert IH2. generalize (foldl Z.max (-1)%Z (concat (map indexes input))). intros m Hm. unfold indexes.
    destruct (evBlockStart e), (evToolCallStart e); rewrite ?raise_max; cbn; lia.
  - cbn [observe nv_hadTool forallb]. rewrite IH3, andb_true_r, negb_andb. f_equal. by rewrite bool_decide_not.
  - cbn [observe nv_failed existsb]. by rewrite IH4, orb_false_r.
Qed.

Section Uncancelled.
Context (sent : nat → bool).

Lemma noticeLoop_exact notice input prior k : (∀ i, sent i = true) →
  noticeLoop sent false notice (seenVars prior) k input
  = let '(tail, o) := ending notice (prior ++ input) in mkNoticeResult (contents input ++ tail) o.
Proof.
  intros Hsent. revert prior k. induction input as [|e input IH]; intros prior k.
  - rewrite app_nil_r. cbn [noticeLoop contents List.filter app].
    destruct (seenVars_spec prior) as (H1 & H2 & H3 & H4).
    unfold finishNotice, ending, completed. cbv zeta. rewrite H1, H2, H3, H4, !Hsent. case_match; [done|].
    destruct (lastFinish prior) as [f|] eqn:Hf; [|done]. change (default ev0 (Some f)) with f.
    assert (isFinish f = true) as Hfin.
    { unfold lastFinish in Hf. apply list.last_Some in Hf as [l Hl].
      assert (f ∈ List.filter isFinish prior) as Hin by (rewrite Hl; set_solver).
      by apply list_elem_of_In, filter_In in Hin as [_ ?]. }
    unfold isFinish in Hfin. apply negb_true_iff in Hfin. rewrite Hfin, negb_involutive. by case_match.
  - assert (prior ++ e :: input = (prior ++ [e]) ++ input) as -> by (rewrite <- app_assoc; done).
    cbn [noticeLoop]. assert (observe (seenVars prior) e = seenVars (prior ++ [e])) as ->
      by (unfold seenVars; by rewrite foldl_app).
    unfold contents. cbn [List.filter compose]. unfold isFinish at 1. rewrite negb_involutive.
    destruct (String.eqb (FinishReason e) ""); cbn [negb]; rewrite ?Hsent, IH; by destruct (ending _ _).
Qed.
End Uncancelled.

Definition int32_indexes (e : StreamEvent) : Prop := Forall (λ i, (-2147483648 ≤ i < 2147483647)%Z) (indexes e).

(** ** The discipline *)

(** A walker that has not seen the finish event, next to one that has. *)
Definition unstopped (p : nat) (w : streamDisciplineWalker) : streamDisciplineWalker :=
  set_pos p (set_messageStopped false w).

Lemma walk_unstopped p w ev w1 : (∀ r, ev ≠ EvMessageStop r) → walkR w ev = Ok w1 →
  walkR (unstopped p w) ev = Ok (unstopped (S p) w1).
Proof.
  intros Hne. destruct w as [nt ot sn se ms so st ps]. unfold walkR, walk, startNonToolAt, unstopped. cbn.
  destruct se; [done|]. destruct ms; cbn; destruct ev as [| | |idx []| | | | | | |]; cbn; try done;
    try (by intros [= <-]); repeat (case_match; cbn; try done); simplify_eq/=; try (by intros [= <-]);
    by edestruct Hne.
Qed.

Lemma walk_finish w r w1 : walkR w (EvMessageStop r) = Ok w1 → ∃ p, w1 = set_messageStopped true (set_pos p w).
Proof.
  unfold walkR, walk. cbn. destruct (sawError w); [done|]. destruct (messageStopped w); [done|]. cbn.
  destruct (bool_decide _ || bool_decide _); [done|]. intros [= <-]. by exists (S (pos w)).
Qed.

(** What an accepted event does to the walker's record of indexes, errors and
    the end of the message. *)
Lemma walk_marks w ev w1 : walkR w ev = Ok w1 →
  seen w1 = match ev with EvContentBlockStart i _ => {[i]} ∪ seen w | _ => seen w end
  ∧ sawError w1 = (sawError w || match ev with EvError _ _ => true | _ => false end)
  ∧ messageStopped w1 = (messageStopped w || match ev with EvMessageStop _ => true | _ => false end).
Proof.
  destruct w as [nt ot sn se ms so st ps]. unfold walkR, walk, startNonToolAt. cbn.
  destruct se; [done|]. destruct ms; cbn; destruct ev as [| | |idx []| | | | | | |]; cbn; try done;
    try (by intros [= <-]); repeat (case_match; cbn; try done); simplify_eq/=; by intros [= <-].
Qed.

Lemma pb_not_stop e : single e → isFinish e = false → ∀ r, ToPBStreamEvent e ≠ EvMessageStop r.
Proof.
  intros H Hf r. destruct H as [ | | |[? [] ?]| | | | | | r' Hr | | | ]; try done.
  unfold isFinish in Hf. cbn in Hf. by apply negb_false_iff, String.eqb_eq in Hf.
Qed.

Lemma pb_finish e : single e → isFinish e = true → ToPBStreamEvent e = EvMessageStop (FinishReason e) ∧ indexes e = [] ∧ Error e = None.
Proof. intros H Hf. destruct H; try done. unfold isFinish in Hf. cbn in *. by rewrite Hf. Qed.

Lemma pb_error e : single e → bool_decide (Error e ≠ None) = match ToPBStreamEvent e with EvError _ _ => true | _ => false end.
Proof. intros []; try done; cbn; repeat case_match; done. Qed.

Lemma pb_index e i b : single e → int32_indexes e → ToPBStreamEvent e = EvContentBlockStart i b → i ∈ indexes e.
Proof.
  intros Hs Hi. assert (∀ j, j ∈ indexes e → int32_of j = j) as Hid.
  { intros j Hj. unfold int32_indexes in Hi. rewrite list.Forall_forall in Hi. apply Hi in Hj. unfold int32_of.
    rewrite Z.mod_small; lia. }
  destruct Hs as [ | | |[j [] k]| | |t| | | r Hr| | | ]; cbn; try done; try (case_match; done); intros [= <- _];
    rewrite Hid; set_solver.
Qed.

Lemma freshIndex_snoc input e : (freshIndex (input ++ [e]) = foldl Z.max (freshIndex input - 1) (indexes e) + 1)%Z.
Proof.
  unfold freshIndex. rewrite map_app, concat_app, foldl_app. cbn [map concat]. rewrite app_nil_r.
  f_equal. f_equal. lia.
Qed.

Lemma foldl_max_ge m l : (m ≤ foldl Z.max m l)%Z ∧ ∀ i, i ∈ l → (i ≤ foldl Z.max m l)%Z.
Proof.
  revert m. induction l as [|x l IH]; intros m; cbn; [split; [lia|set_solver]|].
  destruct (IH (m `max` x)%Z) as [H1 H2]. split; [lia|]. intros i [->|Hi]%elem_of_cons; [lia|auto].
Qed.

Lemma freshIndex_bound input : Forall int32_indexes input → (freshIndex input < 2147483648)%Z.
Proof.
  induction input as [|e input IH] using rev_ind; [done|].
  intros [Hi%IH [He _]%list.Forall_cons]%Forall_app. rewrite freshIndex_snoc. unfold int32_indexes in He.
  assert (∀ l m, Forall (λ i, -2147483648 ≤ i < 2147483647)%Z l → (m < 2147483647)%Z → (foldl Z.max m l < 2147483647)%Z) as H.
  { induction l as [|x l IHl]; intros m Hl Hm; [done|]. apply list.Forall_cons in Hl as [Hx Hl]. cbn. apply IHl; [done|lia]. }
  specialize (H (indexes e) (freshIndex input - 1)%Z He). lia.
Qed.

Lemma contents_snoc input e : contents (input ++ [e]) = contents input ++ if isFinish e then [] else [e].
Proof. unfold contents. rewrite List.filter_app. cbn. by destruct (isFinish e). Qed.

(** The contents alone keep the discipline, up to the end of the message. *)
Lemma walk_contents input w : Forall single input → Forall int32_indexes input →
  walkAll walker0 (map ToPBStreamEvent input) = Ok w →
  (∃ p, walkAll walker0 (map ToPBStreamEvent (contents input)) = Ok (unstopped p w))
  ∧ (∀ i, i ∈ seen w → (i < freshIndex input)%Z)
  ∧ (lastFinish input ≠ None → messageStopped w = true)
  ∧ sawError w = existsb (λ e, bool_decide (Error e ≠ None)) input.
Proof.
  revert w. induction input as [|e input IH] using rev_ind; intros w Hs Hi.
  { intros [= <-]. split; [by exists 0|]. by split_and!; try set_solver. }
  apply Forall_app in Hs as [Hs [Hse _]%list.Forall_cons]. apply Forall_app in Hi as [Hi [Hie _]%list.Forall_cons].
  rewrite map_app. intros (w0 & Hw0 & Hw)%foldM_snoc_ok. destruct (IH w0 Hs Hi Hw0) as ((p & Hp) & Hseen & Hfin & Herr).
  destruct (walk_marks _ _ _ Hw) as (Hs1 & He1 & Hm1).
  destruct (foldl_max_ge (freshIndex input - 1) (indexes e)) as [Hge Hin].
  rewrite contents_snoc, freshIndex_snoc. split_and!.
  - destruct (isFinish e) eqn:Hf.
    + rewrite app_nil_r. destruct (pb_finish e Hse Hf) as [Hpb _]. rewrite Hpb in Hw.
      apply walk_finish in Hw as [q ->]. exists p. by rewrite Hp.
    + exists (S p). rewrite map_app. apply foldM_snoc_ok. exists (unstopped p w0). split; [done|].
      apply walk_unstopped; [by apply pb_not_stop|done].
  - intros i. rewrite Hs1. destruct (ToPBStreamEvent e) as [| | |j b| | | | | | |] eqn:Hpb;
      try (intros Hin0%Hseen; lia).
    intros [->%elem_of_singleton|Hin0%Hseen]%elem_of_union; [|lia].
    apply Z.lt_succ_r, Hin. by eapply pb_index.
  - unfold lastFinish. rewrite List.filter_app. cbn [List.filter]. destruct (isFinish e) eqn:Hf.
    + intros _. destruct (pb_finish e Hse Hf) as [Hpb _]. rewrite Hm1, Hpb. apply orb_true_r.
    + rewrite app_nil_r. intros Hstop%Hfin. by rewrite Hm1, Hstop.
  - rewrite He1, Herr, existsb_app. cbn. by rewrite orb_false_r, pb_error.
Qed.

Lemma no_tools_open : bool_decide ((∅ : gmap Z Z) ≠ ∅) = false.
Proof. apply bool_decide_eq_false. by intros []. Qed.

(** The notice's own block is accepted where nothing is open. *)
Lemma walk_block w index notice : nonTool w = None → openTools w = ∅ → sawError w = false → messageStopped w = false →
  (-2147483648 ≤ index < 2147483648)%Z → index ∉ seen w →
  ∃ w', walkAll w (map ToPBStreamEvent (noticeBlock index notice)) = Ok w'
        ∧ nonTool w' = None ∧ openTools w' = ∅ ∧ sawError w' = false ∧ messageStopped w' = false.
Proof.
  destruct w as [nt ot sn se ms so st ps]. cbn. intros -> -> -> -> Hi Hn.
  assert (Hid : int32_of index = index) by (unfold int32_of; rewrite Z.mod_small; lia).
  unfold walkAll, noticeBlock. cbn [map ToPBStreamEvent ev_block_start TextDelta ThinkingDelta evToolCallStart MessageStart
    evBlockStart bs_kind bs_index ev_text ev_block_stop SignatureDelta evToolCallDelta evBlockStop]. rewrite Hid.
  cbn [foldM]. unfold walkR at 1, walk at 1, startNonToolAt. cbn. rewrite decide_False by done. cbn.
  rewrite no_tools_open. cbn [res_bind]. unfold walkR, walk. cbn. rewrite decide_False by (intros []; done). cbn.
  rewrite lookup_empty, decide_True by done. cbn. eauto 10.
Qed.

Lemma walk_close w r : nonTool w = None → openTools w = ∅ → sawError w = false → messageStopped w = false →
  ∃ w', walkR w (EvMessageStop r) = Ok w' ∧ walker_end w' = Ok tt.
Proof.
  destruct w as [nt ot sn se ms so st ps]. cbn. intros -> -> -> ->. unfold walkR, walk, walker_end. cbn.
  rewrite no_tools_open. cbn. eexists. split; [done|]. cbn. by rewrite no_tools_open.
Qed.

Lemma lastFinish_finish input f : lastFinish input = Some f → f ∈ input ∧ isFinish f = true.
Proof.
  unfold lastFinish. intros [l Hl]%list.last_Some.
  assert (f ∈ List.filter isFinish input) as [? ?]%list_elem_of_In%filter_In by (rewrite Hl; set_solver).
  by rewrite list_elem_of_In.
Qed.

Lemma ending_walks notice input w p : Forall single input → (freshIndex input < 2147483648)%Z →
  walker_inv w → walker_end w = Ok tt →
  (∀ i, i ∈ seen w → (i < freshIndex input)%Z) → (lastFinish input ≠ None → messageStopped w = true) →
  sawError w = existsb (λ e, bool_decide (Error e ≠ None)) input →
  ∃ w', walkAll (unstopped p w) (map ToPBStreamEvent (ending notice input).1) = Ok w' ∧ walker_end w' = Ok tt.
Proof.
  intros Hsi Hfr Hinv Hend Hseen Hfin Herr. unfold ending. rewrite <- Herr.
  destruct (sawError w) eqn:He; [by exists (unstopped p w); unfold walker_end; cbn; rewrite He|].
  destruct (lastFinish input) as [f|] eqn:Hf; [|by exists (unstopped p w)].
  destruct (inv_stopped _ Hinv (Hfin ltac:(done))) as [Hn Ht].
  destruct (lastFinish_finish _ _ Hf) as [Hin Hff].
  assert (Hpb : ToPBStreamEvent f = EvMessageStop (FinishReason f))
    by (rewrite list.Forall_forall in Hsi; apply pb_finish; auto).
  destruct (completed input); cbn [fst].
  - destruct (walk_block (unstopped p w) (freshIndex input) notice) as (w1 & Hw1 & ? & ? & ? & ?); try done.
    { unfold freshIndex in *. pose proof (foldl_max_ge (-1) (concat (map indexes input))) as [? _]. lia. }
    { intros Hi%Hseen. lia. }
    destruct (walk_close w1 (FinishReason f)) as (w2 & Hw2 & Hw2'); try done.
    exists w2. split; [|done]. rewrite map_app. apply foldM_snoc_ok. exists w1. by rewrite Hpb.
  - destruct (walk_close (unstopped p w) (FinishReason f)) as (w2 & Hw2 & Hw2'); try done.
    exists w2. split; [|done]. cbn [map]. rewrite Hpb. unfold walkAll. cbn [foldM]. by rewrite Hw2.
Qed.

(** Unless the request is cancelled, [appendNoticeEvents] forwards every
    event that is not a finish event, unchanged and in order, and then: nothing
    after a stream error or a truncated stream, the held finish event alone
    after a turn that called a tool or did not stop normally, and otherwise one
    text block with the notice, at an index above every index of the turn,
    before the finish event. *)
Theorem notice_stream_exact sent notice input : (∀ k, sent k = true) → notice ≠ "" →
  appendNoticeEvents sent false notice input =
    (contents input ++ (ending notice input).1, Some (ending notice input).2).
Proof.
  intros Hsent Hn. unfold appendNoticeEvents. apply String.eqb_neq in Hn. rewrite Hn.
  pose proof (noticeLoop_exact sent notice input [] 0 Hsent) as H. change (seenVars []) with noticeVars0 in H.
  rewrite H. cbn [app]. by destruct (ending notice input).
Qed.

Definition plainTurn : list StreamEvent :=
  [ev_message_start (mkStreamMessageStart "assistant" "m" "x"); ev_block_start (mkBlockStart 0 BlockKindText "");
   ev_text "hi"; ev_block_stop 0; ev_finish "stop"; ev_usage (mkStreamUsage 1 2 0 0)].

Lemma notice_stream_exact_witness :
  appendNoticeEvents (λ _, true) false "note" plainTurn =
    ([ev_message_start (mkStreamMessageStart "assistant" "m" "x"); ev_block_start (mkBlockStart 0 BlockKindText "");
      ev_text "hi"; ev_block_stop 0; ev_usage (mkStreamUsage 1 2 0 0); ev_block_start (mkBlockStart 1 BlockKindText "");
      ev_text "note"; ev_block_stop 1; ev_finish "stop"], Some "delivered").
Proof. rewrite (notice_stream_exact (λ _, true) "note" plainTurn) by done. vm_compute. reflexivity. Defined.

(** A notice never breaks the stream: if a turn of canonical events with
    32-bit indexes is accepted by the stream discipline, so is what
    [appendNoticeEvents] forwards, whatever the notice. *)
Theorem notice_disciplined sent notice input : (∀ k, sent k = true) → Forall single input → Forall int32_indexes input →
  validateAcceptedStream (map ToPBStreamEvent input) = Ok tt →
  validateAcceptedStream (map ToPBStreamEvent (appendNoticeEvents sent false notice input).1) = Ok tt.
Proof.
  intros Hsent Hs Hi Hv. unfold appendNoticeEvents. destruct (String.eqb notice ""); [done|].
  pose proof (noticeLoop_exact sent notice input [] 0 Hsent) as H. change (seenVars []) with noticeVars0 in H.
  rewrite H. cbn [app]. clear H.
  rewrite validate_walk_eq in *. apply res_bind_ok in Hv as (w & Hw & Hend).
  destruct (walk_contents _ _ Hs Hi Hw) as ((p & Hp) & Hseen & Hfin & Herr).
  destruct (ending_walks notice input w p) as (w' & Hw' & Hend'); try done.
  { by apply freshIndex_bound. }
  { by eapply walkAll_inv. }
  destruct (ending notice input) as [tail o]. cbn [fst forwarded] in *. rewrite map_app. unfold walkAll in *.
  rewrite foldM_app, Hp. cbn [res_bind]. by rewrite Hw'.
Qed.

Lemma notice_disciplined_witness :
  validateAcceptedStream (map ToPBStreamEvent plainTurn) = Ok tt
  ∧ validateAcceptedStream (map ToPBStreamEvent (appendNoticeEvents (λ _, true) false "note" plainTurn).1) = Ok tt.
Proof.
  split; [vm_compute; reflexivity|]. apply (notice_disciplined (λ _, true) "note" plainTurn).
  - done.
  - unfold plainTurn. repeat (constructor; try done).
  - unfold plainTurn, int32_indexes. repeat (constructor; cbn; try lia).
  - vm_compute. reflexivity.
Defined.
