(* ===== verification/NoticeRuntime.v ===== *)
(** * Notices on the proxy path

    internal/proxy/notice_runtime.go and the lines of the request path that pin
    a request's notice fields: which conversations may be shown a notice, which
    suggestion is shown, and the composition with [Strip].  The configuration is
    an argument; the suggestion store is the one of SuggestStore. *)

From stdpp Require Import base list strings sets numbers.
From Stdlib Require Import SpecFloat.
From S2P Require Import Prelude ByteStrings PluginState CasUpdate Suggest SuggestStore SuggestWitness Notice.

Definition knownNoticeHarnessSource (source : string) : bool :=
  bool_decide (source ∈ ["claude-code-session"; "codex-thread"; "codex-session"; "codex-client-thread";
                         "gemini-code-assist-session"]).

(** The part of the configuration the path reads. *)
Record NoticeConfig := mkNoticeConfig {
  SuggestionsEnabled : bool;
  Harnesses : string → bool;
  Probe : bool }.

(** [reqState]'s fields that concern notices. *)
Record reqNotice := mkReqNotice {
  ConversationID : string;
  UserTurn : Z;
  NoticeEnabled : bool;
  NoticeProbe : bool;
  NoticeSource : string }.

Section Runtime.
Context {St : Type} `{SO : StateOps St} `{C : RecordCodec}.
Context (sha256 : string → string) (others : nat → St → St).
Context (MAC : string → string → res string string).

(** The notice fields of a request, pinned when it is admitted.  [configured]:
    the server has a secret store and a suggestion store. *)
Definition pinNotice (cfg : NoticeConfig) (configured : bool) (s : St) (id source : string) (turn : Z) : reqNotice :=
  let enabled := SuggestionsEnabled cfg && knownNoticeHarnessSource source && Harnesses cfg source && configured in
  let enabled :=
    if enabled then match NoticesDisabled sha256 s id with Ok disabled => negb disabled | Err _ => false end
    else enabled in
  mkReqNotice id turn enabled (enabled && Probe cfg) (if enabled then source else "").

(** The newest pending suggestion of this user turn: the loop runs from the end
    of the list. *)
Fixpoint newestPending (turn : Z) (items : list Suggestion) : option Suggestion :=
  match items with
  | [] => None
  | item :: items' =>
      match newestPending turn items' with
      | Some i => Some i
      | None => if String.eqb (sg_Status item) "pending" && (sg_CreatedTurn item =? turn)%Z then Some item else None
      end
  end.

(** [pendingNotice]: the notice and the ID it is about, empty for none; the
    suggestion store after the listing. *)
Definition pendingNotice (configured : bool) (rs : option reqNotice) (s : St) (clk : clock) : string * string * St :=
  match rs with
  | None => ("", "", s)
  | Some rs =>
      if negb (NoticeEnabled rs) || String.eqb (ConversationID rs) "" || (UserTurn rs =? 0)%Z || negb configured
      then ("", "", s)
      else if NoticeProbe rs then
        match RenderProbe MAC (ConversationID rs) with
        | Ok probe => (probe, probeID, s)
        | Err _ => ("", "", s)
        end
      else
        match List sha256 others s (ConversationID rs) "" (UserTurn rs) clk with
        | (Err _, s) => ("", "", s)
        | (Ok items, s) =>
            match newestPending (UserTurn rs) items with
            | None => ("", "", s)
            | Some item =>
                match Render MAC (ConversationID rs) item with
                | Ok notice => (notice, sg_ID item, s)
                | Err _ => ("", "", s)
                end
            end
        end
  end.

Lemma newestPending_spec turn items item : newestPending turn items = Some item →
  item ∈ items ∧ sg_Status item = "pending" ∧ sg_CreatedTurn item = turn.
Proof.
  induction items as [|i items IH]; cbn; [done|]. destruct (newestPending turn items) as [j|].
  - intros [= ->]. destruct (IH eq_refl) as (? & ?). split; [set_solver|done].
  - case_match eqn:E; [|done]. intros [= <-]. apply andb_true_iff in E as [?%String.eqb_eq ?%Z.eqb_eq].
    split; [set_solver|done].
Qed.

(** What a shown notice is. *)
Lemma pendingNotice_rendered configured rs s clk notice id s' : notice ≠ "" →
  pendingNotice configured (Some rs) s clk = (notice, id, s') →
  NoticeEnabled rs = true ∧ ConversationID rs ≠ "" ∧
  (RenderProbe MAC (ConversationID rs) = Ok notice
   ∨ ∃ items item, List sha256 others s (ConversationID rs) "" (UserTurn rs) clk = (Ok items, s')
       ∧ item ∈ items ∧ sg_Status item = "pending" ∧ sg_CreatedTurn item = UserTurn rs
       ∧ sg_ID item = id ∧ Render MAC (ConversationID rs) item = Ok notice).
Proof.
  intros Hne. unfold pendingNotice. case_match eqn:E; [by intros [= <-]|].
  rewrite !orb_false_iff, !negb_false_iff in E. destruct E as [[[He Hc] _] _]. apply String.eqb_neq in Hc.
  intros H. split; [done|]. split; [done|]. destruct (NoticeProbe rs).
  - destruct (RenderProbe MAC (ConversationID rs)); [|by injection H as <-]. left. by injection H as <- _ _.
  - right. destruct (List _ _ _ _ _ _ _) as [[items|] s1]; [|by injection H as <-].
    destruct (newestPending _ _) as [item|] eqn:Hp; [|by injection H as <-].
    apply newestPending_spec in Hp as (Hin & Hst & Htu).
    destruct (Render MAC (ConversationID rs) item) eqn:Hr; [|by injection H as <-]. injection H as <- <- <-. eauto 10.
Qed.
End Runtime.

Section Theorems.
Context {St : Type} `{SO : StateOps St} `{C : RecordCodec}.

(** C28. Notices on the request path are safe to show: a request is shown one
    only if its conversation comes from a harness the code knows, that the
    operator allowed and that is not under the durable strip-failure stop; it is
    the probe or, of the suggestions the store lists for the conversation, one that
    is pending and was made in this user turn; and when the client replays the reply with the notice appended, [Strip]
    returns the reply.  (The suggestions' texts contain no end marker and the
    reply no begin marker.) *)
Theorem notice_shown_and_stripped sha256 others MAC cfg configured (s1 s2 s3 : St) conv source turn clk notice id reply :
  let rs := pinNotice sha256 cfg configured s1 conv source turn in
  pendingNotice sha256 others MAC configured (Some rs) s2 clk = (notice, id, s3) → notice ≠ "" →
  (∀ items, (List sha256 others s2 conv "" turn clk).1 = Ok items → Forall cleanItem items) →
  plain reply →
  knownNoticeHarnessSource source = true ∧ Harnesses cfg source = true ∧ NoticesDisabled sha256 s1 conv = Ok false
  ∧ (RenderProbe MAC conv = Ok notice
     ∨ ∃ items item, (List sha256 others s2 conv "" turn clk).1 = Ok items ∧ item ∈ items ∧ sg_ID item = id
         ∧ sg_Status item = "pending" ∧ sg_CreatedTurn item = turn ∧ Render MAC conv item = Ok notice)
  ∧ Strip MAC conv (reply +:+ notice) = Some (reply, true, None).
Proof.
  intros rs Hp Hne Hclean Hreply. apply pendingNotice_rendered in Hp as (He & Hc & Hr); [|done]. cbn in *.
  destruct (SuggestionsEnabled cfg && knownNoticeHarnessSource source && Harnesses cfg source && configured) eqn:E;
    [|done].
  rewrite !andb_true_iff in E. destruct E as [[[_ Hk] Hh] _].
  destruct (NoticesDisabled sha256 s1 conv) as [[]|]; try done.
  assert (Hs : signed MAC conv notice ∧ (RenderProbe MAC conv = Ok notice
     ∨ ∃ items item, (List sha256 others s2 conv "" turn clk).1 = Ok items ∧ item ∈ items ∧ sg_ID item = id
         ∧ sg_Status item = "pending" ∧ sg_CreatedTurn item = turn ∧ Render MAC conv item = Ok notice)).
  { destruct Hr as [Hr|(items & item & Hl & Hin & Hst & Htu & Hid & Hr)]; [split; [by apply RenderProbe_signed|by left]|].
    split; [|right; exists items, item; by rewrite Hl]. apply (Render_signed MAC conv item); [done|].
    specialize (Hclean items). rewrite Hl in Hclean. specialize (Hclean eq_refl). rewrite list.Forall_forall in Hclean. auto. }
  destruct Hs as [Hs Hwhat]. split_and!; try done. apply (Strip_unique MAC 2).
  pose proof (stripLoop_history MAC conv [(notice, "")] ltac:(by repeat constructor) "" reply false Hreply) as H.
  cbn [withNotices withoutNotices] in H. rewrite !app_empty_r in H. exact H.
Qed.
End Theorems.

(** A store that holds one pending suggestion of user turn 1. *)
Definition turnItem : Suggestion :=
  mkSuggestion "sg_a" "k2x9" "router" conv "switch" "d" "Title" "Body" [] None "" 0 1 3 "pending" "" "" "" false.
Definition shownTable : table record := [("p", withItem turnItem)].
Definition allowAll : NoticeConfig := mkNoticeConfig true (λ _, true) false.

Definition shownNotice : string * string * Store :=
  @pendingNotice Store _ (tableCodec shownTable) id quiet echoMAC true
    (Some (@pinNotice Store _ (tableCodec shownTable) id allowAll true (stored "p") conv "codex-thread" 1)) (stored "p") noClock.

Lemma notice_shown_and_stripped_witness : shownNotice.1.1 ≠ "" ∧ shownNotice.1.2 = "sg_a"
  ∧ Strip echoMAC conv ("Done." +:+ shownNotice.1.1) = Some ("Done.", true, None).
Proof.
  assert (Hne : shownNotice.1.1 ≠ "") by (vm_compute; discriminate).
  split; [exact Hne|]. split; [vm_compute; reflexivity|].
  refine (proj2 (proj2 (proj2 (proj2
    (@notice_shown_and_stripped Store _ (tableCodec shownTable) id quiet echoMAC allowAll true (stored "p") (stored "p")
       shownNotice.2 conv "codex-thread" 1 noClock shownNotice.1.1 shownNotice.1.2 "Done." _ Hne _ _))))).
  - change (shownNotice = (shownNotice.1.1, shownNotice.1.2, shownNotice.2)). by destruct shownNotice as [[??]?].
  - intros items H. vm_compute in H. injection H as <-. repeat constructor; vm_compute; reflexivity.
  - reflexivity.
Defined.
