(* ===== verification/BridgeStream.v ===== *)
(** * Streams across provider protocols

    internal/bridge/protocol.go and internal/bridge/stream.go: [ParseStream]
    applies the bridge's completion contract to the events of a provider's
    native parser, [guardStream] applies it again, with the limits of the
    protocol pair, before the destination's serializer; [normalizeStreamUsage]
    converts token accounting.

    The native parser runs beside an observer of the wire bytes.  What the
    observer reports when [ParseStream] looks at it depends on how far the
    parser has read, so each event comes with that report.  A Go [error] is its
    text, the only part of it the code uses.  SHA-256, the random bytes and the
    request's cancellation are parameters. *)

From stdpp Require Import base list strings gmap sets numbers pretty.
From S2P Require Import Prelude ByteStrings StreamEvents Utf8 RawJSON RequestConv ConversationKeys RateLimit.

Open Scope Z_scope.

(** ** Protocols *)

Definition Protocol := string.
Definition OpenAIChat : Protocol := "openai-chat".
Definition OpenAIResponses : Protocol := "openai-responses".
Definition Anthropic : Protocol := "anthropic".
Definition Gemini : Protocol := "gemini".
Definition GeminiCodeAssist : Protocol := "gemini-codeassist".

Definition Format (p : Protocol) : string :=
  if bool_decide (p ∈ [OpenAIChat; OpenAIResponses]) then "openai"
  else if String.eqb p Anthropic then "anthropic"
  else if String.eqb p Gemini then "gemini"
  else if String.eqb p GeminiCodeAssist then "gemini-codeassist"
  else "".
Definition Valid (p : Protocol) : bool := negb (String.eqb (Format p) "").

Definition unsupported (feature : string) : string := "protocol translation does not support " +:+ feature.

Definition isGemini (p : Protocol) : bool := String.eqb p Gemini || String.eqb p GeminiCodeAssist.
Definition supportsBlockSignatures (p : Protocol) : bool :=
  String.eqb p Anthropic || String.eqb p Gemini || String.eqb p GeminiCodeAssist.
Definition supportsToolSignatures (p : Protocol) : bool := String.eqb p Gemini || String.eqb p GeminiCodeAssist.
Definition supportsFreeform (p : Protocol) : bool := String.eqb p OpenAIResponses.

(** ** Tool identities (internal/bridge/response.go) *)

(** [for _, r := range s] over valid text, every rune satisfying [p]. *)
Fixpoint rangeAll (p : Z → bool) (fuel : nat) (s : bytes) : bool :=
  match fuel, s with
  | _, [] => true
  | O, _ => false
  | S fuel, _ => match decodeRune s with Some (r, s') => p r && rangeAll p fuel s' | None => false end
  end.

Definition portableRune (r : Z) : bool :=
  within 0x61 0x7A r || within 0x41 0x5A r || within 0x30 0x39 r || (r =? 0x5F) || (r =? 0x2D).

Definition portableToolName (name : string) : bool :=
  if String.eqb name "" || (64 <? len name) || negb (ValidString (lit name)) then false
  else rangeAll portableRune (length (lit name)) (lit name).

Definition asciiLetterOrUnderscore (c : Z) : bool := within 0x61 0x7A c || within 0x41 0x5A c || (c =? 0x5F).

Definition portableToolID (id : string) : bool :=
  if String.eqb id "" || negb (ValidString (lit id)) then false
  else rangeAll portableRune (length (lit id)) (lit id).

Definition portableOpaqueID (id : string) : bool :=
  if String.eqb id "" || negb (ValidString (lit id)) then false
  else rangeAll (λ r, negb ((r <? 0x20) || (r =? 0x7F))) (length (lit id)) (lit id).

Definition validateToolIdentity (p : Protocol) (name id : string) : res string unit :=
  if negb (portableToolName name) then Err (unsupported (p +:+ " tool-call name grammar"))
  else if isGemini p && negb (asciiLetterOrUnderscore (default 0 (list.head (lit name))))
  then Err (unsupported (p +:+ " tool-call name grammar"))
  else if String.eqb id "" then Ok tt
  else if String.eqb p Anthropic then
    if negb (portableToolID id) then Err (unsupported "anthropic tool-call id grammar") else Ok tt
  else if negb (portableOpaqueID id) then Err (unsupported (p +:+ " tool-call id grammar"))
  else Ok tt.

(** ** Helpers *)

Definition maxStreamToolCalls : nat := 128.
Definition MaxFrameBytes : Z := 2 * 1024 * 1024.

Definition streamError (err : string) : StreamError := mkStreamError (-1) err.
Definition sanitizedSourceError (from : Protocol) (code : Z) : StreamError :=
  mkStreamError code ("protocol bridge: upstream " +:+ from +:+ " stream failed").

(** [entropy]: twelve random bytes, or the next value of the process counter
    when they cannot be read. *)
Definition generatedResponseID (entropy : string + Z) (p : Protocol) : string :=
  let prefix := if String.eqb p OpenAIChat then "chatcmpl-torana"
                else if String.eqb p Anthropic then "msg_torana" else "resp_torana" in
  match entropy with
  | inl raw => prefix +:+ "_" +:+ EncodeToString raw
  | inr counter => prefix +:+ "_" +:+ pretty counter
  end.

Definition fallbackMessageStart (entropy : string + Z) (p : Protocol) : StreamMessageStart :=
  mkStreamMessageStart "assistant" (generatedResponseID entropy p) "".

Definition generatedCallID (sha256 : string → string) (responseID : string) (index : Z) : string :=
  "call_torana_" +:+ EncodeToString (stake 6 (sha256 responseID)) +:+ "_" +:+ pretty index.

(** An event with one field replaced. *)
Definition with_message_start (m : StreamMessageStart) (e : StreamEvent) : StreamEvent :=
  mkStreamEvent (TextDelta e) (ThinkingDelta e) (evBlockStart e) (evBlockStop e) (Some m) (evToolCallStart e)
    (evToolCallDelta e) (evToolCallEnd e) (FinishReason e) (Usage e) (Error e) (SignatureDelta e).
Definition with_tool_start (t : ToolCallStart) (e : StreamEvent) : StreamEvent :=
  mkStreamEvent (TextDelta e) (ThinkingDelta e) (evBlockStart e) (evBlockStop e) (MessageStart e) (Some t)
    (evToolCallDelta e) (evToolCallEnd e) (FinishReason e) (Usage e) (Error e) (SignatureDelta e).

Definition knownKind (k : Z) : bool := (k =? ToolInvocationFunction) || (k =? ToolInvocationFreeform).

(** ** [ParseStream] *)

Record parsedToolState := mkParsedTool { pt_id : string; pt_kind : Z; pt_args : string }.

(** The goroutine's variables. *)
Record parseVars := mkParseVars {
  pv_finish : string;
  pv_usage : option StreamUsage;
  pv_started : bool;
  pv_finished : bool;
  pv_activeTools : gmap Z parsedToolState;
  pv_toolIDs : gset string;
  pv_toolIndexes : gset Z;
  pv_hadTools : bool;
  pv_messageID : string;
  pv_bufferedToolBytes : Z }.
Definition parseVars0 : parseVars := mkParseVars "" None false false ∅ ∅ ∅ false "" 0.

Definition pv_withFinish (f : string) (v : parseVars) : parseVars :=
  mkParseVars f (pv_usage v) (pv_started v) true (pv_activeTools v) (pv_toolIDs v) (pv_toolIndexes v) (pv_hadTools v)
    (pv_messageID v) (pv_bufferedToolBytes v).
Definition pv_withUsage (u : StreamUsage) (v : parseVars) : parseVars :=
  mkParseVars (pv_finish v) (Some u) (pv_started v) (pv_finished v) (pv_activeTools v) (pv_toolIDs v) (pv_toolIndexes v)
    (pv_hadTools v) (pv_messageID v) (pv_bufferedToolBytes v).
Definition pv_start (id : string) (v : parseVars) : parseVars :=
  mkParseVars (pv_finish v) (pv_usage v) true (pv_finished v) (pv_activeTools v) (pv_toolIDs v) (pv_toolIndexes v)
    (pv_hadTools v) id (pv_bufferedToolBytes v).
Definition pv_withTools (m : gmap Z parsedToolState) (bytes : Z) (v : parseVars) : parseVars :=
  mkParseVars (pv_finish v) (pv_usage v) (pv_started v) (pv_finished v) m (pv_toolIDs v) (pv_toolIndexes v)
    (pv_hadTools v) (pv_messageID v) bytes.
Definition pv_openTool (index : Z) (id : string) (kind : Z) (v : parseVars) : parseVars :=
  mkParseVars (pv_finish v) (pv_usage v) (pv_started v) (pv_finished v)
    (<[index := mkParsedTool id kind ""]> (pv_activeTools v)) ({[id]} ∪ pv_toolIDs v) ({[index]} ∪ pv_toolIndexes v)
    true (pv_messageID v) (pv_bufferedToolBytes v).

(** One read of the native channel: the observer's report and the event. *)
Record nativeStep := mkNativeStep { ns_issue : option string; ns_event : StreamEvent }.
(** The channel until it closes, and what the observer says then. *)
Record nativeStream := mkNativeStream {
  nt_steps : list nativeStep;
  nt_issue : option string;
  nt_terminal : bool }.

Section Bridge.
Context `{V : JSONText} (sha256 : string → string).

(** [engine.ParseRequiredJSONObject(args)] succeeds. *)
Definition completeObject (args : string) : bool := is_ok (ParseRequiredJSONObject (lit args)).

Section Parse.
Context (entropy : string + Z) (from : Protocol).

Definition parseMessageStart (v : parseVars) (e : StreamEvent) : res string (parseVars * StreamEvent) :=
  match MessageStart e with
  | None => Ok (v, e)
  | Some m =>
      if pv_started v then Err "protocol bridge: multiple source message starts"
      else if String.eqb (sms_id m) "" then
        let id := generatedResponseID entropy from in
        Ok (pv_start id v, with_message_start (mkStreamMessageStart (sms_role m) id (sms_model m)) e)
      else Ok (pv_start (sms_id m) v, e)
  end.

Definition parseToolStart (v : parseVars) (e : StreamEvent) : res string (parseVars * StreamEvent) :=
  match evToolCallStart e with
  | None => Ok (v, e)
  | Some tc =>
      if (tcs_index tc <? 0) || negb (knownKind (tcs_kind tc)) then
        Err "protocol bridge: invalid streamed tool-call identity"
      else if (maxStreamToolCalls <=? size (pv_toolIndexes v))%nat then
        Err "protocol bridge: source stream has too many tool calls"
      else if bool_decide (tcs_index tc ∈ pv_toolIndexes v) then
        Err "protocol bridge: duplicate streamed tool-call index"
      else
        let tc' := if String.eqb (tcs_id tc) ""
                   then mkToolCallStart (tcs_index tc) (generatedCallID sha256 (pv_messageID v) (tcs_index tc)) (tcs_name tc)
                          (tcs_signature tc) (tcs_kind tc)
                   else tc in
        let e := with_tool_start tc' e in
        _ ←? validateToolIdentity from (tcs_name tc') (tcs_id tc');
        if bool_decide (tcs_id tc' ∈ pv_toolIDs v) then Err "protocol bridge: duplicate streamed tool-call ID"
        else Ok (pv_openTool (tcs_index tc') (tcs_id tc') (tcs_kind tc') v, e)
  end.

Definition parseToolDelta (v : parseVars) (e : StreamEvent) : res string parseVars :=
  match evToolCallDelta e with
  | None => Ok v
  | Some d =>
      match pv_activeTools v !! tcd_index d with
      | None => Err "protocol bridge: tool-call delta has no matching start"
      | Some state =>
          if pt_kind state =? ToolInvocationFreeform then Ok v
          else
            let fragment := tcd_arguments d in
            if MaxFrameBytes <? pv_bufferedToolBytes v + len fragment then
              Err "protocol bridge: streamed tool arguments exceed the size limit"
            else Ok (pv_withTools
                       (<[tcd_index d := mkParsedTool (pt_id state) (pt_kind state) (pt_args state +:+ fragment)]>
                          (pv_activeTools v))
                       (pv_bufferedToolBytes v + len fragment) v)
      end
  end.

Definition parseToolEnd (v : parseVars) (e : StreamEvent) : res string parseVars :=
  match evToolCallEnd e with
  | None => Ok v
  | Some i =>
      match pv_activeTools v !! i with
      | None => Err "protocol bridge: tool-call end has no matching start"
      | Some state =>
          if negb (pt_kind state =? ToolInvocationFreeform) && negb (completeObject (pt_args state)) then
            Err "protocol bridge: streamed tool arguments are not a complete JSON object"
          else Ok (pv_withTools (delete i (pv_activeTools v)) (pv_bufferedToolBytes v) v)
      end
  end.

(** The checks of one content event, and the event to forward. *)
Definition parseContent (v : parseVars) (e : StreamEvent) : res string (parseVars * StreamEvent) :=
  '(v, e) ←? parseMessageStart v e;
  '(v, e) ←? parseToolStart v e;
  v ←? parseToolDelta v e;
  v ←? parseToolEnd v e;
  Ok (v, e).

(** One pass of the loop: the events sent, and the variables or the error event
    that ends the stream. *)
Definition parseStep (v : parseVars) (s : nativeStep) : list StreamEvent * res StreamError parseVars :=
  let e := ns_event s in
  let fail err := ([], Err (streamError err)) in
  match ns_issue s with
  | Some issue => fail issue
  | None =>
  match Error e with
  | Some x => ([], Err (sanitizedSourceError from (se_code x)))
  | None =>
  if negb (String.eqb (FinishReason e) "") then
    if pv_finished v then fail "protocol bridge: multiple source finish events"
    else ([], Ok (pv_withFinish (FinishReason e) v))
  else match Usage e with
  | Some u => ([], Ok (pv_withUsage u v))
  | None =>
  if pv_finished v then fail "protocol bridge: source content followed its finish event"
  else
    let '(v, pre) :=
      if bool_decide (MessageStart e = None) && negb (pv_started v) then
        let fallback := fallbackMessageStart entropy from in
        (pv_start (sms_id fallback) v, [ev_message_start fallback])
      else (v, []) in
    match parseContent v e with
    | Err err => (pre, Err (streamError err))
    | Ok (v, e) => (pre ++ [e], Ok v)
    end
  end end end.

Definition parseEnd (v : parseVars) (issue : option string) (terminal : bool) : list StreamEvent :=
  let fail err := [ev_error (streamError err)] in
  match issue with
  | Some issue => fail issue
  | None =>
      if negb terminal then fail "protocol bridge: upstream stream ended before its terminal marker"
      else if negb (pv_finished v) then fail "protocol bridge: upstream terminal marker carried no finish reason"
      else if bool_decide (pv_activeTools v ≠ ∅) then fail "protocol bridge: upstream stream ended with an open tool call"
      else
        (if pv_started v then [] else [ev_message_start (fallbackMessageStart entropy from)])
        ++ match pv_usage v with Some u => [ev_usage u] | None => [] end
        ++ [ev_finish (if bool_decide (from ∈ [OpenAIResponses; Gemini; GeminiCodeAssist])
                          && String.eqb (pv_finish v) "stop" && pv_hadTools v
                       then "tool_calls" else pv_finish v)]
  end.

Fixpoint parseLoop (v : parseVars) (steps : list nativeStep) (issue : option string) (terminal : bool) : list StreamEvent :=
  match steps with
  | [] => parseEnd v issue terminal
  | s :: steps' =>
      match parseStep v s with
      | (out, Err err) => out ++ [ev_error err]
      | (out, Ok v) => out ++ parseLoop v steps' issue terminal
      end
  end.

Definition ParseStream (native : nativeStream) : list StreamEvent :=
  if negb (Valid from) then [ev_error (streamError (unsupported "source streaming protocol"))]
  else parseLoop parseVars0 (nt_steps native) (nt_issue native) (nt_terminal native).
End Parse.

(** ** Usage *)

Definition streamCheckedAdd (a b : Z) : option Z :=
  if (a <? 0) || (b <? 0) || (max_int64 - b <? a) then None else Some (a + b).
Definition streamCheckedAdd3 (a b c : Z) : option Z :=
  match streamCheckedAdd a b with None => None | Some ab => streamCheckedAdd ab c end.

Definition normalizeStreamUsage (source : StreamUsage) (from to : Protocol) : res string StreamUsage :=
  if (su_input source <? 0) || (su_output source <? 0) || (su_cache_read source <? 0) || (su_cache_write source <? 0) then
    Err "protocol bridge: stream usage must be non-negative"
  else match streamCheckedAdd (su_cache_read source) (su_cache_write source) with
  | None => Err "protocol bridge: stream cache usage overflows"
  | Some cache =>
  if negb (String.eqb from Anthropic) && (su_input source <? cache) then
    Err "protocol bridge: stream cache usage exceeds input usage"
  else
    input ←? (if String.eqb from Anthropic && negb (String.eqb to Anthropic) then
                match streamCheckedAdd3 (su_input source) (su_cache_read source) (su_cache_write source) with
                | None => Err "protocol bridge: stream input usage overflows"
                | Some total => Ok total
                end
              else Ok (su_input source));
    let input := if negb (String.eqb from Anthropic) && String.eqb to Anthropic then input - cache else input in
    match streamCheckedAdd input (su_output source) with
    | None => Err "protocol bridge: stream total usage overflows"
    | Some _ => Ok (mkStreamUsage input (su_output source) (su_cache_read source) (su_cache_write source))
    end
  end.

(** ** [guardStream] *)

Record guardedToolState := mkGuardedTool { gt_kind : Z; gt_args : string }.

(** The maps and the counter [guardStreamEvent] is handed. *)
Record guardTools := mkGuardTools {
  gd_active : gmap Z guardedToolState;
  gd_seen : gset Z;
  gd_bytes : Z }.
Definition guardTools0 : guardTools := mkGuardTools ∅ ∅ 0.

Section Guard.
Context (from to : Protocol).

Definition guardToolStart (g : guardTools) (tc : ToolCallStart) : res string guardTools :=
  if (tcs_index tc <? 0) || negb (knownKind (tcs_kind tc)) then
    Err "protocol bridge: invalid streamed tool-call identity"
  else
    _ ←? validateToolIdentity from (tcs_name tc) (tcs_id tc);
    _ ←? validateToolIdentity to (tcs_name tc) (tcs_id tc);
    if (maxStreamToolCalls <=? size (gd_seen g))%nat then Err "protocol bridge: stream has too many tool calls"
    else if bool_decide (tcs_index tc ∈ gd_seen g) then Err "protocol bridge: duplicate tool-call start index"
    else if (tcs_kind tc =? ToolInvocationFreeform) && (negb (supportsFreeform from) || negb (supportsFreeform to)) then
      Err (unsupported "streamed free-form tool calls across these protocols")
    else if negb (String.eqb (tcs_signature tc) "")
            && (negb (String.eqb from to) || negb (supportsToolSignatures from) || negb (supportsToolSignatures to)) then
      Err (unsupported "streamed tool-call signatures across these protocols")
    else Ok (mkGuardTools (<[tcs_index tc := mkGuardedTool (tcs_kind tc) ""]> (gd_active g))
               ({[tcs_index tc]} ∪ gd_seen g) (gd_bytes g)).

Definition guardToolDelta (g : guardTools) (d : ToolCallDelta) : res string guardTools :=
  match gd_active g !! tcd_index d with
  | None => Err "protocol bridge: tool-call delta has no matching start"
  | Some state =>
      if gt_kind state =? ToolInvocationFreeform then
        if bool_decide (tcd_input d = None) || negb (String.eqb (tcd_arguments d) "") then
          Err "protocol bridge: free-form tool delta has the wrong payload family"
        else Ok g
      else if bool_decide (tcd_input d ≠ None) then Err "protocol bridge: function tool delta has free-form input"
      else
        let fragment := tcd_arguments d in
        if MaxFrameBytes <? gd_bytes g + len fragment then
          Err "protocol bridge: streamed tool arguments exceed the size limit"
        else Ok (mkGuardTools (<[tcd_index d := mkGuardedTool (gt_kind state) (gt_args state +:+ fragment)]> (gd_active g))
                   (gd_seen g) (gd_bytes g + len fragment))
  end.

Definition guardToolEnd (g : guardTools) (i : Z) : res string guardTools :=
  match gd_active g !! i with
  | None => Err "protocol bridge: tool-call end has no matching start"
  | Some state =>
      if negb (gt_kind state =? ToolInvocationFreeform) && negb (completeObject (gt_args state)) then
        Err "protocol bridge: streamed tool arguments are not a complete JSON object"
      else Ok (mkGuardTools (delete i (gd_active g)) (gd_seen g) (gd_bytes g))
  end.

Definition guardStreamEvent (g : guardTools) (e : StreamEvent) : res string guardTools :=
  match evBlockStart e with
  | Some b =>
      if bool_decide (bs_kind b = BlockKindProvider) && negb (String.eqb from to) then
        Err (unsupported "provider-specific streaming content blocks")
      else if bool_decide (bs_kind b = BlockKindThinking) && negb (String.eqb from to) then
        Err (unsupported "streamed thinking blocks across these protocols")
      else Ok g
  | None =>
  match ThinkingDelta e with
  | Some _ =>
      if negb (String.eqb from to) then Err (unsupported "streamed thinking blocks across these protocols") else Ok g
  | None =>
  match SignatureDelta e with
  | Some _ =>
      if negb (String.eqb from to) || negb (supportsBlockSignatures from) || negb (supportsBlockSignatures to) then
        Err (unsupported "streamed provider signatures across these protocols")
      else Ok g
  | None =>
  match evToolCallStart e with
  | Some tc => guardToolStart g tc
  | None =>
  match evToolCallDelta e with
  | Some d => guardToolDelta g d
  | None =>
  match evToolCallEnd e with
  | Some i => guardToolEnd g i
  | None => Ok g
  end end end end end end.

(** The loop's variables. *)
Record guardVars := mkGuardVars {
  gv_finish : string;
  gv_usage : option StreamUsage;
  gv_finished : bool;
  gv_messageStarted : bool;
  gv_contentStarted : bool;
  gv_tools : guardTools }.
Definition guardVars0 : guardVars := mkGuardVars "" None false false false guardTools0.

Context (emitUsage : bool) (fallbackModel : string).

(** A received event: nothing to send yet, an event to send, or the error event
    and the error [guardStream] returns. *)
Inductive guardStep :=
| GuardHold (v : guardVars)
| GuardSend (e : StreamEvent) (v : guardVars)
| GuardFail (x : StreamError) (err : string).
Definition guardFail (err : string) : guardStep := GuardFail (streamError err) err.

Definition guardMessageStart (v : guardVars) (e : StreamEvent) : res string (guardVars * StreamEvent) :=
  match MessageStart e with
  | Some m =>
      if gv_messageStarted v || gv_contentStarted v then Err "protocol bridge: message start arrived after stream content"
      else
        let v := mkGuardVars (gv_finish v) (gv_usage v) (gv_finished v) true (gv_contentStarted v) (gv_tools v) in
        Ok (v, if String.eqb (sms_model m) "" && negb (String.eqb fallbackModel "")
               then with_message_start (mkStreamMessageStart (sms_role m) (sms_id m) fallbackModel) e else e)
  | None => Ok (mkGuardVars (gv_finish v) (gv_usage v) (gv_finished v) (gv_messageStarted v) true (gv_tools v), e)
  end.

Definition guardEvent (v : guardVars) (e : StreamEvent) : guardStep :=
  match Error e with
  | Some x =>
      let safe := se_message (sanitizedSourceError from (se_code x)) in
      GuardFail (mkStreamError (se_code x) safe) safe
  | None =>
  if negb (String.eqb (FinishReason e) "") then
    if gv_finished v then guardFail "protocol bridge: multiple finish events"
    else GuardHold (mkGuardVars (FinishReason e) (gv_usage v) true (gv_messageStarted v) (gv_contentStarted v) (gv_tools v))
  else match Usage e with
  | Some u =>
      match normalizeStreamUsage u from to with
      | Err err => guardFail err
      | Ok normalized =>
          if emitUsage && negb (su_cache_write normalized =? 0) && (String.eqb to OpenAIChat || isGemini to) then
            guardFail (unsupported ("cache write token accounting in " +:+ to +:+ " streams"))
          else GuardHold (mkGuardVars (gv_finish v) (Some normalized) (gv_finished v) (gv_messageStarted v)
                            (gv_contentStarted v) (gv_tools v))
      end
  | None =>
  if gv_finished v then guardFail "protocol bridge: content followed the finish event"
  else match guardMessageStart v e with
  | Err err => guardFail err
  | Ok (v, e) =>
      match guardStreamEvent (gv_tools v) e with
      | Err err => guardFail err
      | Ok g => GuardSend e (mkGuardVars (gv_finish v) (gv_usage v) (gv_finished v) (gv_messageStarted v) (gv_contentStarted v) g)
      end
  end end end.

(** Cancellation: [sent k] and [received k] say whether the [k]-th send and
    receive win against it, [ctxErr] whether it has happened when the source
    closes. *)
Context (sent received : nat → bool) (ctxErr : bool).

Inductive guardErr := Cancelled | Failed (err : string).
Definition guardResult : Type := list StreamEvent * res guardErr unit.
Definition before (es : list StreamEvent) (r : guardResult) : guardResult := (es ++ r.1, r.2).

(** A send, then what follows it if it wins. *)
Definition sendThen (k : nat) (e : StreamEvent) (next : guardResult) : guardResult :=
  if sent k then before [e] next else ([], Err Cancelled).

Definition guardEnd (v : guardVars) (k : nat) : guardResult :=
  let fail err := sendThen k (ev_error (streamError err)) ([], Err (Failed err)) in
  if ctxErr then ([], Err Cancelled)
  else if negb (gv_finished v) then fail "protocol bridge: event stream closed before a finish event"
  else if bool_decide (gd_active (gv_tools v) ≠ ∅) then fail "protocol bridge: event stream closed with an open tool call"
  else if String.eqb to Anthropic && bool_decide (gv_usage v = None) then
    fail "protocol bridge: Anthropic destination requires terminal stream usage"
  else if String.eqb to OpenAIChat then
    sendThen k (ev_finish (gv_finish v))
      match gv_usage v with
      | Some u => if emitUsage then sendThen (S k) (ev_usage u) ([], Ok tt) else ([], Ok tt)
      | None => ([], Ok tt)
      end
  else
    match gv_usage v with
    | Some u => sendThen k (ev_usage u) (sendThen (S k) (ev_finish (gv_finish v)) ([], Ok tt))
    | None => sendThen k (ev_finish (gv_finish v)) ([], Ok tt)
    end.

Fixpoint guardLoop (v : guardVars) (n k : nat) (events : list StreamEvent) : guardResult :=
  if negb (received n) then ([], Err Cancelled)
  else match events with
  | [] => guardEnd v k
  | e :: events' =>
      match guardEvent v e with
      | GuardHold v => guardLoop v (S n) k events'
      | GuardSend e v => sendThen k e (guardLoop v (S n) (S k) events')
      | GuardFail x err => sendThen k (ev_error x) ([], Err (Failed err))
      end
  end.

Definition guardStream (events : list StreamEvent) : guardResult := guardLoop guardVars0 0 0 events.
End Guard.
End Bridge.
