(* ===== verification/BridgeStreamProofs.v ===== *)
(** * Streams across provider protocols: proofs

    A tool call's events, taken alone, are a start, deltas and an end: [trace].
    [table_ok] ties the maps that [ParseStream] and [guardStream] keep to the
    traces of the events they have forwarded; both loops share its lemmas. *)

From stdpp Require Import base list strings gmap sets numbers pretty.
From S2P Require Import Prelude ByteStrings StreamEvents Utf8 RawJSON RequestConv ConversationKeys RateLimit BridgeStream.

Open Scope Z_scope.

(** ** Tool calls in a stream *)

Inductive action := AStart (t : ToolCallStart) | ADelta (d : ToolCallDelta) | AEnd (i : Z).

Definition act_index (a : action) : Z :=
  match a with AStart t => tcs_index t | ADelta d => tcd_index d | AEnd i => i end.

(** The tool actions of an event, in the order the code handles them. *)
Definition actions (e : StreamEvent) : list action :=
  match evToolCallStart e with Some t => [AStart t] | None => [] end
  ++ match evToolCallDelta e with Some d => [ADelta d] | None => [] end
  ++ match evToolCallEnd e with Some i => [AEnd i] | None => [] end.
Definition allActions (es : list StreamEvent) : list action := concat (map actions es).

Definition starts (acts : list action) : list ToolCallStart :=
  omap (λ a, match a with AStart t => Some t | _ => None end) acts.
(** What a stream says about one index. *)
Definition proj (i : Z) (acts : list action) : list action := filter (λ a, act_index a = i) acts.

Fixpoint arguments (ds : list ToolCallDelta) : string :=
  match ds with [] => "" | d :: ds' => tcd_arguments d +:+ arguments ds' end.

Lemma arguments_snoc ds d : arguments (ds ++ [d]) = arguments ds +:+ tcd_arguments d.
Proof.
  induction ds as [|x ds IH]; cbn; [apply app_empty_r|]. rewrite IH. clear. generalize (tcd_arguments x). intros s.
  induction s as [|c s IH]; [done|]. change (String c (s +:+ arguments ds +:+ tcd_arguments d)
    = String c ((s +:+ arguments ds) +:+ tcd_arguments d)). by rewrite IH.
Qed.

Lemma proj_snoc i acts a : proj i (acts ++ [a]) = proj i acts ++ if decide (act_index a = i) then [a] else [].
Proof. unfold proj. rewrite filter_app, filter_cons, filter_nil. by case_decide. Qed.

Section Tools.
Context `{V : JSONText}.

(** Nothing, or a complete call: one start, its deltas, one end; the arguments
    of a function call are a JSON object. *)
Definition closedTrace (l : list action) : Prop :=
  l = [] ∨ ∃ t ds i, l = AStart t :: (ADelta <$> ds) ++ [AEnd i]
                     ∧ (tcs_kind t ≠ ToolInvocationFreeform → completeObject (arguments ds) = true).
Definition openTrace (l : list action) : Prop := ∃ t ds, l = AStart t :: (ADelta <$> ds).
Definition trace (l : list action) : Prop := closedTrace l ∨ openTrace l.

(** ** The tables of the two loops *)

Section Table.
Context {S : Type} (kind : S → Z) (args : S → string).

Definition table_ok (active : gmap Z S) (seen : gset Z) (acts : list action) : Prop :=
  ∀ i, match active !! i with
       | Some st => i ∈ seen ∧ ∃ t ds, proj i acts = AStart t :: (ADelta <$> ds) ∧ tcs_kind t = kind st
                      ∧ (kind st ≠ ToolInvocationFreeform → args st = arguments ds)
       | None => closedTrace (proj i acts) ∧ (proj i acts ≠ [] ↔ i ∈ seen)
       end.

Lemma table_ok_0 : table_ok ∅ ∅ [].
Proof. intros i. rewrite lookup_empty. split; [by left|]. cbn. set_solver. Qed.

Lemma table_trace active seen acts i : table_ok active seen acts → trace (proj i acts).
Proof.
  intros H. specialize (H i). destruct (active !! i); [|by left; destruct H].
  destruct H as (_ & t & ds & Hp & _). right. by exists t, ds.
Qed.

Lemma table_closed seen acts i : table_ok ∅ seen acts → closedTrace (proj i acts).
Proof. intros H. specialize (H i). rewrite lookup_empty in H. by destruct H. Qed.

Lemma table_seen active seen acts i st : table_ok active seen acts → active !! i = Some st → i ∈ seen.
Proof. intros H Hst. specialize (H i). rewrite Hst in H. apply H. Qed.

Lemma table_other active active' seen seen' acts a :
  table_ok active seen acts → (∀ j, j ≠ act_index a → active' !! j = active !! j) → seen' = {[act_index a]} ∪ seen →
  match active' !! act_index a with
  | Some st => act_index a ∈ seen' ∧ ∃ t ds, proj (act_index a) acts ++ [a] = AStart t :: (ADelta <$> ds) ∧ tcs_kind t = kind st
                 ∧ (kind st ≠ ToolInvocationFreeform → args st = arguments ds)
  | None => closedTrace (proj (act_index a) acts ++ [a])
  end → table_ok active' seen' (acts ++ [a]).
Proof.
  intros H Ho Hs Ha j. rewrite proj_snoc. case_decide as Hj.
  - subst j. destruct (active' !! act_index a); [done|]. split; [apply Ha|]. split; [set_solver|].
    intros _. by destruct (proj _ acts).
  - rewrite app_nil_r, Ho by congruence. specialize (H j). destruct (active !! j); [|set_solver].
    destruct H as (? & ?). split; [set_solver|done].
Qed.

Lemma table_start active seen acts t st : table_ok active seen acts → tcs_index t ∉ seen →
  kind st = tcs_kind t → args st = "" →
  table_ok (<[tcs_index t := st]> active) ({[tcs_index t]} ∪ seen) (acts ++ [AStart t]).
Proof.
  intros H Hn Hk Ha. apply (table_other active _ seen); [done| |done|]; cbn [act_index].
  - intros j Hj. by rewrite lookup_insert_ne.
  - rewrite lookup_insert_eq. split; [set_solver|]. exists t, []. specialize (H (tcs_index t)).
    destruct (active !! tcs_index t); [by destruct H|]. destruct H as [_ H].
    assert (proj (tcs_index t) acts = []) as ->; [|done].
    destruct (proj (tcs_index t) acts); [done|]. exfalso. by apply Hn, H.
Qed.

Lemma table_delta active seen acts d st st' : table_ok active seen acts → active !! tcd_index d = Some st →
  kind st' = kind st → (kind st ≠ ToolInvocationFreeform → args st' = args st +:+ tcd_arguments d) →
  table_ok (<[tcd_index d := st']> active) seen (acts ++ [ADelta d]).
Proof.
  intros H Hst Hk Ha. pose proof (table_seen _ _ _ _ _ H Hst) as Hin.
  apply (table_other active _ seen); [done| |cbn [act_index]; set_solver|]; cbn [act_index].
  - intros j Hj. by rewrite lookup_insert_ne.
  - rewrite lookup_insert_eq. specialize (H (tcd_index d)). rewrite Hst in H.
    destruct H as (_ & t & ds & Hp & Ht & Hargs). split; [done|]. exists t, (ds ++ [d]).
    rewrite Hp, fmap_app, Hk. split; [done|]. split; [done|]. intros Hf. rewrite Ha, Hargs, arguments_snoc; done.
Qed.

Lemma table_end active seen acts i st : table_ok active seen acts → active !! i = Some st →
  (kind st ≠ ToolInvocationFreeform → completeObject (args st) = true) →
  table_ok (delete i active) seen (acts ++ [AEnd i]).
Proof.
  intros H Hst Hc. pose proof (table_seen _ _ _ _ _ H Hst) as Hin.
  apply (table_other active _ seen); [done| |cbn [act_index]; set_solver|]; cbn [act_index].
  - intros j Hj. by rewrite lookup_delete_ne.
  - rewrite lookup_delete_eq. specialize (H i). rewrite Hst in H. destruct H as (_ & t & ds & Hp & Ht & Hargs).
    right. exists t, ds, i. rewrite Hp. split; [done|]. intros Hf. rewrite <- Hargs by congruence.
    apply Hc. congruence.
Qed.
End Table.

(** ** [ParseStream] *)

Section Parse.
Context (sha256 : string → string) (entropy : string + Z) (from : Protocol).

(** What the bridge guarantees of a tool call's start. *)
Definition goodStart (t : ToolCallStart) : Prop :=
  0 ≤ tcs_index t ∧ knownKind (tcs_kind t) = true ∧ tcs_id t ≠ "" ∧ validateToolIdentity from (tcs_name t) (tcs_id t) = Ok tt.

Record tools_inv (v : parseVars) (acts : list action) : Prop := {
  ti_table : table_ok pt_kind pt_args (pv_activeTools v) (pv_toolIndexes v) acts;
  ti_count : size (pv_toolIndexes v) = length (starts acts) ∧ (size (pv_toolIndexes v) ≤ maxStreamToolCalls)%nat;
  ti_ids : pv_toolIDs v = list_to_set (tcs_id <$> starts acts) ∧ NoDup (tcs_id <$> starts acts);
  ti_good : Forall goodStart (starts acts) }.

Lemma tools_inv_0 : tools_inv parseVars0 [].
Proof.
  split; [apply table_ok_0| |by split; [|constructor]|constructor].
  cbn [parseVars0 pv_toolIndexes]. rewrite size_empty. unfold maxStreamToolCalls. split; [done|lia].
Qed.

(** The invariant reads the tool fields only. *)
Lemma tools_inv_frame v v' acts : pv_activeTools v' = pv_activeTools v → pv_toolIndexes v' = pv_toolIndexes v →
  pv_toolIDs v' = pv_toolIDs v → tools_inv v acts → tools_inv v' acts.
Proof. intros H1 H2 H3 []. split; rewrite ?H1, ?H2, ?H3; done. Qed.

Lemma starts_app a b : starts (a ++ b) = starts a ++ starts b.
Proof. apply omap_app. Qed.

Lemma generatedCallID_ne id i : generatedCallID sha256 id i ≠ "".
Proof. done. Qed.

Lemma parseToolStart_inv v e v' e' acts : parseToolStart sha256 from v e = Ok (v', e') → tools_inv v acts →
  tools_inv v' (acts ++ match evToolCallStart e' with Some t => [AStart t] | None => [] end)
  ∧ evToolCallDelta e' = evToolCallDelta e ∧ evToolCallEnd e' = evToolCallEnd e.
Proof.
  unfold parseToolStart. destruct (evToolCallStart e) as [tc|] eqn:Hs; [|intros [= <- <-]; by rewrite Hs, app_nil_r].
  case_match eqn:Hi; [done|]. case_match eqn:Hm; [done|]. case_bool_decide as Hd; [done|].
  set (tc' := if String.eqb (tcs_id tc) "" then _ else _).
  assert (Hidx : tcs_index tc' = tcs_index tc ∧ tcs_kind tc' = tcs_kind tc ∧ tcs_id tc' ≠ "").
  { unfold tc'. destruct (String.eqb_spec (tcs_id tc) ""); [done|done]. }
  clearbody tc'. destruct Hidx as (Hidx & Hkind & Hne). cbv zeta.
  destruct (validateToolIdentity _ _ _) as [[]|] eqn:Hv; [|done]. cbn [res_bind].
  case_bool_decide as Hid; [done|]. intros [= <- <-] [Ht [Hc1 Hc2] [Hids Hnd] Hg]. cbn [with_tool_start evToolCallStart evToolCallDelta evToolCallEnd].
  apply orb_false_iff in Hi as [Hneg%Z.ltb_ge Hk%negb_false_iff]. apply Nat.leb_gt in Hm. split; [|done].
  assert (Hst : starts (acts ++ [AStart tc']) = starts acts ++ [tc']) by apply starts_app.
  split; rewrite ?Hst, ?fmap_app; cbn [pv_openTool pv_activeTools pv_toolIndexes pv_toolIDs].
  - apply table_start; try done. by rewrite Hidx.
  - rewrite size_union by (apply disjoint_singleton_l; by rewrite Hidx). rewrite size_singleton, length_app. cbn [length]. lia.
  - split; [rewrite Hids, list_to_set_app_L; set_solver|]. apply list.NoDup_app. split; [done|].
    split; [|apply list.NoDup_singleton]. intros x Hx ->%list_elem_of_singleton. apply Hid. rewrite Hids.
    by apply elem_of_list_to_set.
  - apply Forall_app. split; [done|]. constructor; [|constructor]. unfold goodStart. rewrite Hidx, Hkind. done.
Qed.

Lemma tools_inv_step v acts m bytes a : tools_inv v acts → starts [a] = [] →
  table_ok pt_kind pt_args m (pv_toolIndexes v) (acts ++ [a]) → tools_inv (pv_withTools m bytes v) (acts ++ [a]).
Proof. intros [Ht Hc Hi Hg] Ha H. split; rewrite ?starts_app, ?Ha, ?app_nil_r; done. Qed.

Lemma parseToolDelta_inv v e v' acts : parseToolDelta v e = Ok v' → tools_inv v acts →
  tools_inv v' (acts ++ match evToolCallDelta e with Some d => [ADelta d] | None => [] end).
Proof.
  unfold parseToolDelta. destruct (evToolCallDelta e) as [d|]; [|intros [= <-]; by rewrite app_nil_r].
  destruct (pv_activeTools v !! tcd_index d) as [st|] eqn:Hst; [|done]. case_match eqn:Hk.
  - intros [= <-] Hinv. apply Z.eqb_eq in Hk.
    assert (v = pv_withTools (<[tcd_index d := st]> (pv_activeTools v)) (pv_bufferedToolBytes v) v) as ->
      by (rewrite insert_id by done; by destruct v).
    apply tools_inv_step; [done|done|]. destruct v; cbn in *. rewrite insert_id by done.
    rewrite <- (insert_id _ _ _ Hst). eapply table_delta; [apply Hinv|done|done|done].
  - case_match; [done|]. intros [= <-] Hinv. apply tools_inv_step; [done|done|].
    eapply table_delta; [apply Hinv|done|done|done].
Qed.

Lemma parseToolEnd_inv v e v' acts : parseToolEnd v e = Ok v' → tools_inv v acts →
  tools_inv v' (acts ++ match evToolCallEnd e with Some i => [AEnd i] | None => [] end).
Proof.
  unfold parseToolEnd. destruct (evToolCallEnd e) as [i|]; [|intros [= <-]; by rewrite app_nil_r].
  destruct (pv_activeTools v !! i) as [st|] eqn:Hst; [|done]. case_match eqn:Hk; [done|].
  intros [= <-] Hinv. apply tools_inv_step; [done|done|]. eapply table_end; [apply Hinv|done|].
  intros Hf%Z.eqb_neq. rewrite Hf in Hk. cbn in Hk. by apply negb_false_iff in Hk.
Qed.

(** Content: no error, finish or usage. *)
Definition quiet (e : StreamEvent) : Prop := Error e = None ∧ FinishReason e = "" ∧ Usage e = None.

(** A stream that has begun: one message start, with an ID, before everything
    else. *)
Definition headed (es : list StreamEvent) : Prop :=
  ∃ e m rest, es = e :: rest ∧ MessageStart e = Some m ∧ sms_id m ≠ "" ∧ Forall (λ e, MessageStart e = None) rest.

Record frame_inv (v : parseVars) (content : list StreamEvent) : Prop := {
  fi_quiet : Forall quiet content;
  fi_head : if pv_started v then headed content else content = [];
  fi_finish : pv_finished v = true → pv_finish v ≠ "" }.

Lemma generatedResponseID_ne : generatedResponseID entropy from ≠ "".
Proof. unfold generatedResponseID. destruct entropy; by repeat case_match. Qed.

Lemma headed_snoc content e : headed content → MessageStart e = None → headed (content ++ [e]).
Proof.
  intros (e0 & m & rest & -> & Hm & Hid & Hr) He. exists e0, m, (rest ++ [e]). split; [done|]. split; [done|].
  split; [done|]. apply Forall_app. split; [done|]. by constructor.
Qed.

(** The sub-steps keep what the frame reads. *)
Lemma parseTools_frame v e v' e' : 
  ('(v, e) ←? parseToolStart sha256 from v e; v ←? parseToolDelta v e; v ←? parseToolEnd v e; Ok (v, e)) = Ok (v', e') →
  pv_started v' = pv_started v ∧ pv_finished v' = pv_finished v ∧ pv_finish v' = pv_finish v
  ∧ MessageStart e' = MessageStart e ∧ Error e' = Error e ∧ FinishReason e' = FinishReason e ∧ Usage e' = Usage e.
Proof.
  intros H. apply res_bind_ok in H as ([v1 e1] & H1 & H). cbn in H. apply res_bind_ok in H as (v2 & H2 & H).
  apply res_bind_ok in H as (v3 & H3 & H). injection H as <- <-.
  assert (A1 : pv_started v1 = pv_started v ∧ pv_finished v1 = pv_finished v ∧ pv_finish v1 = pv_finish v
    ∧ MessageStart e1 = MessageStart e ∧ Error e1 = Error e ∧ FinishReason e1 = FinishReason e ∧ Usage e1 = Usage e).
  { unfold parseToolStart in H1. destruct (evToolCallStart e); [|by injection H1 as <- <-].
    repeat (case_match; try done); inv_ok; done. }
  assert (A2 : pv_started v2 = pv_started v1 ∧ pv_finished v2 = pv_finished v1 ∧ pv_finish v2 = pv_finish v1).
  { unfold parseToolDelta in H2. repeat (case_match; try done); inv_ok; done. }
  assert (A3 : pv_started v3 = pv_started v2 ∧ pv_finished v3 = pv_finished v2 ∧ pv_finish v3 = pv_finish v2).
  { unfold parseToolEnd in H3. repeat (case_match; try done); inv_ok; done. }
  destruct_and! A1. destruct_and! A2. destruct_and! A3. split_and!; congruence.
Qed.

Lemma parseTools_inv v e v' e' acts :
  ('(v, e) ←? parseToolStart sha256 from v e; v ←? parseToolDelta v e; v ←? parseToolEnd v e; Ok (v, e)) = Ok (v', e') →
  tools_inv v acts → tools_inv v' (acts ++ actions e').
Proof.
  intros H Ht. apply res_bind_ok in H as ([v2 e2] & H2 & H). cbn beta iota in H. apply res_bind_ok in H as (v3 & H3 & H).
  apply res_bind_ok in H as (v4 & H4 & H). injection H as <- <-.
  destruct (parseToolStart_inv _ _ _ _ _ H2 Ht) as (T2 & _ & _).
  pose proof (parseToolDelta_inv _ _ _ _ H3 T2) as T3. pose proof (parseToolEnd_inv _ _ _ _ H4 T3) as T4.
  rewrite <- !app_assoc in T4. exact T4.
Qed.

Lemma parseContent_inv v e v' e' content : parseContent sha256 entropy from v e = Ok (v', e') →
  tools_inv v (allActions content) → frame_inv v content → quiet e → (MessageStart e = None → pv_started v = true) →
  tools_inv v' (allActions (content ++ [e'])) ∧ frame_inv v' (content ++ [e']) ∧ pv_finished v' = pv_finished v.
Proof.
  unfold parseContent. intros H Ht [Fq Fh Ff] He Hst. apply res_bind_ok in H as ([v1 e1] & H1 & H).
  assert (A : pv_finished v1 = pv_finished v ∧ pv_finish v1 = pv_finish v ∧ pv_started v1 = true ∧ quiet e1
    ∧ tools_inv v1 (allActions content) ∧ evToolCallStart e1 = evToolCallStart e
    ∧ (∀ e2, MessageStart e2 = MessageStart e1 → headed (content ++ [e2]))).
  { unfold parseMessageStart in H1. destruct (MessageStart e) as [m|] eqn:Hm.
    - destruct (pv_started v) eqn:Hs; [done|]. subst content. case_match eqn:Hid; injection H1 as <- <-.
      + split_and!; try done; [by eapply tools_inv_frame; [..|exact Ht]|].
        intros e2 He2. exists e2, (mkStreamMessageStart (sms_role m) (generatedResponseID entropy from) (sms_model m)), [].
        split_and!; try done. apply generatedResponseID_ne.
      + split_and!; try done; [by eapply tools_inv_frame; [..|exact Ht]|].
        intros e2 He2. exists e2, m, []. rewrite Hm in He2. split_and!; try done. by apply String.eqb_neq.
    - injection H1 as <- <-. specialize (Hst eq_refl). rewrite Hst in Fh. split_and!; try done.
      intros e2 He2. apply headed_snoc; [done|congruence]. }
  destruct A as (A1 & A2 & A3 & (A4 & A5 & A6) & A7 & A8 & A9). cbn beta iota in H.
  destruct (parseTools_frame _ _ _ _ H) as (B1 & B2 & B3 & B4 & B5 & B6 & B7).
  pose proof (parseTools_inv _ _ _ _ _ H A7) as T4.
  split; [|split; [split|congruence]].
  - unfold allActions, actions. rewrite map_app, concat_app. cbn [map concat]. by rewrite app_nil_r.
  - apply Forall_app. split; [done|]. constructor; [|constructor]. unfold quiet. by rewrite B5, B6, B7.
  - rewrite B1, A3. apply A9. congruence.
  - intros Hf. rewrite B3, A2. apply Ff. congruence.
Qed.

(** What is guaranteed of the forwarded content at every moment. *)
Record safeContent (content : list StreamEvent) : Prop := {
  sc_quiet : Forall quiet content;
  sc_head : content = [] ∨ headed content;
  sc_trace : ∀ i, trace (proj i (allActions content));
  sc_count : (length (starts (allActions content)) ≤ maxStreamToolCalls)%nat;
  sc_ids : NoDup (tcs_id <$> starts (allActions content));
  sc_good : Forall goodStart (starts (allActions content)) }.

Lemma inv_safe v content : tools_inv v (allActions content) → frame_inv v content → safeContent content.
Proof.
  intros [Ht [Hc Hc'] [_ Hi] Hg] [Fq Fh _]. split; try done.
  - destruct (pv_started v); auto.
  - intros i. by eapply table_trace.
  - lia.
Qed.

Lemma quiet_step e : Error e = None → String.eqb (FinishReason e) "" = true → Usage e = None → quiet e.
Proof. intros ? ?%String.eqb_eq ?. done. Qed.

Definition isFinishing (s : nativeStep) : bool := negb (String.eqb (FinishReason (ns_event s)) "").
(** What a pass that does not fail has seen. *)
Definition cleanStep (s : nativeStep) : Prop := ns_issue s = None ∧ Error (ns_event s) = None.

Lemma parseStep_inv v s content out r : tools_inv v (allActions content) → frame_inv v content →
  parseStep sha256 entropy from v s = (out, r) →
  match r with
  | Ok v' => tools_inv v' (allActions (content ++ out)) ∧ frame_inv v' (content ++ out) ∧ cleanStep s
             ∧ (if isFinishing s then pv_finished v = false ∧ pv_finished v' = true else pv_finished v' = pv_finished v)
  | Err _ => safeContent (content ++ out)
  end.
Proof.
  intros Ht Hf. unfold parseStep, cleanStep, isFinishing. pose proof (inv_safe _ _ Ht Hf) as Hsafe.
  assert (Hnil : safeContent (content ++ [])) by by rewrite app_nil_r.
  destruct (ns_issue s); [by intros [= <- <-]|]. destruct (Error (ns_event s)) eqn:He; [by intros [= <- <-]|].
  case_match eqn:Hfin; [case_match eqn:Hfd|].
  { by intros [= <- <-]. }
  { intros [= <- <-]. rewrite app_nil_r. apply negb_true_iff, String.eqb_neq in Hfin. split_and!; try done;
      [by eapply tools_inv_frame; [..|exact Ht]|]. destruct Hf. by split. }
  apply negb_false_iff in Hfin. destruct (Usage (ns_event s)) eqn:Hu.
  { intros [= <- <-]. rewrite app_nil_r. split_and!; try done; [by eapply tools_inv_frame; [..|exact Ht]|].
    destruct Hf. by split. }
  pose proof (quiet_step _ He Hfin Hu) as Hq. destruct (pv_finished v) eqn:Hfd; [by intros [= <- <-]|].
  destruct (bool_decide (MessageStart (ns_event s) = None) && negb (pv_started v)) eqn:Hm.
  - apply andb_true_iff in Hm as [Hm%bool_decide_eq_true Hs%negb_true_iff].
    destruct Hf as [Fq Fh Ff]. rewrite Hs in Fh. subst content.
    set (v1 := pv_start _ v). set (pre := [_]).
    assert (T1 : tools_inv v1 (allActions pre)) by by eapply tools_inv_frame; [..|exact Ht].
    assert (F1 : frame_inv v1 pre).
    { split; [apply list.Forall_singleton; done| |cbn; by rewrite Hfd]. eexists _, _, []. split_and!; try done. apply generatedResponseID_ne. }
    destruct (parseContent _ _ _ v1 (ns_event s)) as [[v2 e2]|] eqn:Hc.
    + intros [= <- <-]. destruct (parseContent_inv _ _ _ _ _ Hc T1 F1 Hq ltac:(done)) as (? & ? & Hfin2).
      split_and!; try done. cbn in Hfin2. congruence.
    + intros [= <- <-]. by eapply inv_safe.
  - assert (Hst : MessageStart (ns_event s) = None → pv_started v = true).
    { intros Hn. rewrite bool_decide_true in Hm by done. by apply negb_false_iff in Hm. }
    destruct (parseContent _ _ _ v (ns_event s)) as [[v2 e2]|] eqn:Hc.
    + intros [= <- <-]. destruct (parseContent_inv _ _ _ _ _ Hc Ht Hf Hq Hst) as (? & ? & Hfin2). split_and!; try done. congruence.
    + by intros [= <- <-].
Qed.

(** A finished stream: every tool call complete, then the last usage report if
    there was one, then the finish reason. *)
Definition completeStream (content tail : list StreamEvent) : Prop :=
  headed content ∧ (∀ i, closedTrace (proj i (allActions content)))
  ∧ ∃ usage f, tail = match usage with Some u => [ev_usage u] | None => [] end ++ [ev_finish f] ∧ f ≠ "".

Definition cleanUpstream (steps : list nativeStep) (issue : option string) (terminal : bool) : Prop :=
  Forall cleanStep steps ∧ issue = None ∧ terminal = true.

Lemma parseEnd_contract v content issue terminal : tools_inv v (allActions content) → frame_inv v content →
  ∃ more tail, parseEnd entropy from v issue terminal = more ++ tail ∧ safeContent (content ++ more)
    ∧ ((∃ x, tail = [ev_error x])
       ∨ (completeStream (content ++ more) tail ∧ issue = None ∧ terminal = true ∧ pv_finished v = true)).
Proof.
  intros Ht Hf. pose proof (inv_safe _ _ Ht Hf) as Hsafe. unfold parseEnd.
  assert (Hfail : ∀ err, ∃ more tail, [ev_error (streamError err)] = more ++ tail ∧ safeContent (content ++ more)
    ∧ ((∃ x, tail = [ev_error x])
       ∨ (completeStream (content ++ more) tail ∧ issue = None ∧ terminal = true ∧ pv_finished v = true))).
  { intros err. exists [], [ev_error (streamError err)]. rewrite app_nil_r. eauto. }
  destruct issue; [apply Hfail|]. destruct terminal; [cbn [negb]|apply Hfail].
  destruct (pv_finished v) eqn:Hfin; [cbn [negb]|apply Hfail]. case_bool_decide as Ha; [apply Hfail|].
  assert (pv_activeTools v = ∅) as Hnone by (destruct (decide (pv_activeTools v = ∅)); [done|by exfalso]).
  destruct Ht as [Htab Hcnt Hids Hgood]. rewrite Hnone in Htab. destruct Hf as [Fq Fh Ff].
  exists (if pv_started v then [] else [ev_message_start (fallbackMessageStart entropy from)]). eexists.
  split; [done|].
  assert (Hh : headed (content ++ if pv_started v then [] else [ev_message_start (fallbackMessageStart entropy from)])).
  { destruct (pv_started v); [by rewrite app_nil_r|]. subst content. eexists _, _, []. split_and!; try done.
    apply generatedResponseID_ne. }
  assert (Hacts : allActions (content ++ if pv_started v then [] else [ev_message_start (fallbackMessageStart entropy from)])
                  = allActions content).
  { destruct (pv_started v); [by rewrite app_nil_r|]. unfold allActions. rewrite map_app, concat_app. by rewrite app_nil_r. }
  split; [|right; unfold completeStream; split_and!; try done].
  - destruct Hsafe. split; rewrite ?Hacts; try done; [|by right].
    apply Forall_app. split; [done|]. destruct (pv_started v); by repeat constructor.
  - intros i. rewrite Hacts. by eapply table_closed.
  - eexists (pv_usage v), _. split; [done|]. by destruct (_ && _ && _); [|apply Ff].
Qed.

Definition finishes (steps : list nativeStep) : nat := length (List.filter isFinishing steps).

Lemma parseLoop_contract steps issue terminal v content : tools_inv v (allActions content) → frame_inv v content →
  ∃ more tail, parseLoop sha256 entropy from v steps issue terminal = more ++ tail ∧ safeContent (content ++ more)
    ∧ ((∃ x, tail = [ev_error x])
       ∨ (completeStream (content ++ more) tail ∧ cleanUpstream steps issue terminal
          ∧ (finishes steps + (if pv_finished v then 1 else 0))%nat = 1%nat)).
Proof.
  revert v content. induction steps as [|s steps IH]; intros v content Ht Hf; cbn [parseLoop].
  { destruct (parseEnd_contract v content issue terminal Ht Hf) as (more & tail & -> & Hs & Hc). exists more, tail.
    split_and!; try done. destruct Hc as [?|(? & -> & -> & ->)]; [by left|]. right. split_and!; done. }
  destruct (parseStep _ _ _ v s) as [out r] eqn:Hstep. pose proof (parseStep_inv _ _ _ _ _ Ht Hf Hstep) as Hinv.
  destruct r as [v'|x].
  - destruct Hinv as (Ht' & Hf' & Hcl & Hfin). destruct (IH v' (content ++ out) Ht' Hf') as (more & tail & -> & Hs & Hc).
    exists (out ++ more), tail. rewrite !app_assoc. split; [done|]. split; [done|].
    destruct Hc as [?|(? & (? & -> & ->) & Hn)]; [by left|right]. split; [done|]. split; [split; [by constructor|done]|].
    unfold finishes in *. cbn [List.filter]. destruct (isFinishing s).
    + destruct Hfin as [-> Hfin]. rewrite Hfin in Hn. cbn [length]. lia.
    + by rewrite <- Hfin.
  - exists out, [ev_error x]. eauto.
Qed.
End Parse.

Lemma ParseStream_parts sha256 entropy from native : Valid from = true →
  ∃ content tail, ParseStream sha256 entropy from native = content ++ tail ∧ safeContent from content
    ∧ ((∃ x, tail = [ev_error x])
       ∨ (completeStream content tail ∧ cleanUpstream (nt_steps native) (nt_issue native) (nt_terminal native)
          ∧ finishes (nt_steps native) = 1%nat)).
Proof.
  intros Hv. unfold ParseStream. rewrite Hv. cbn [negb].
  destruct (parseLoop_contract sha256 entropy from (nt_steps native) (nt_issue native) (nt_terminal native) parseVars0 [])
    as (more & tail & -> & Hs & Hc).
  - apply tools_inv_0.
  - split; [constructor|done|done].
  - exists more, tail. split_and!; try done. destruct Hc as [?|(? & ? & Hn)]; [by left|]. right. split_and!; try done.
    cbn in Hn. lia.
Qed.

(** Canonical events stay canonical. *)
Lemma single_finish_any r : single (ev_finish r).
Proof. destruct r; [exact single_empty|by apply single_finish]. Qed.

Lemma parseContent_single sha256 entropy from v e v' e' :
  parseContent sha256 entropy from v e = Ok (v', e') → single e → single e'.
Proof.
  unfold parseContent. intros H Hs. apply res_bind_ok in H as ([v1 e1] & H1 & H).
  assert (Hs1 : single e1).
  { unfold parseMessageStart in H1. destruct (MessageStart e) as [m|] eqn:Hm; [|by injection H1 as <- <-].
    destruct Hs as [ | | | | |m'| | | | | | | ]; try done. destruct (pv_started v); [done|].
    case_match; injection H1 as <- <-; [apply (single_message_start _)|constructor]. }
  cbn beta iota in H. apply res_bind_ok in H as ([v2 e2] & H2 & H). cbn beta iota in H.
  apply res_bind_ok in H as (v3 & _ & H). apply res_bind_ok in H as (v4 & _ & H). injection H as <- <-.
  unfold parseToolStart in H2. destruct (evToolCallStart e1) as [tc|] eqn:Ht; [|by injection H2 as <- <-].
  destruct Hs1 as [ | | | | | |tc'| | | | | | ]; try done.
  repeat (case_match; try done); inv_ok; apply (single_tool_start _).
Qed.

Lemma parseStep_single sha256 entropy from v s out r : parseStep sha256 entropy from v s = (out, r) →
  single (ns_event s) → Forall single out.
Proof.
  unfold parseStep. intros H Hs. repeat (case_match; try (by injection H as <- <-));
    injection H as <- <-; simplify_eq; repeat (constructor; try done); rewrite ?Forall_app; split_and?;
    repeat (constructor; try done); by eapply parseContent_single.
Qed.

Lemma ParseStream_single sha256 entropy from native : Forall single (ns_event <$> nt_steps native) →
  Forall single (ParseStream sha256 entropy from native).
Proof.
  unfold ParseStream. destruct (Valid from); [cbn [negb]|by repeat constructor]. generalize parseVars0. intros v.
  revert v. induction (nt_steps native) as [|s steps IH]; intros v; cbn [parseLoop].
  - intros _. unfold parseEnd. repeat (case_match; try (by repeat constructor));
      repeat (apply single_finish_any || constructor).
  - cbn [fmap list_fmap]. intros [Hs Hss]%list.Forall_cons. destruct (parseStep _ _ _ v s) as [out [v'|x]] eqn:Hstep;
      apply Forall_app; (split; [by eapply parseStep_single|]); [by apply IH|by repeat constructor].
Qed.

(** ** [guardStream] *)

Section Guard.
Context (from to : Protocol).

(** A tool call both protocols can carry. *)
Definition bridgeableStart (t : ToolCallStart) : Prop :=
  0 ≤ tcs_index t ∧ knownKind (tcs_kind t) = true
  ∧ validateToolIdentity from (tcs_name t) (tcs_id t) = Ok tt ∧ validateToolIdentity to (tcs_name t) (tcs_id t) = Ok tt
  ∧ (tcs_kind t = ToolInvocationFreeform → supportsFreeform from = true ∧ supportsFreeform to = true)
  ∧ (tcs_signature t ≠ "" → from = to ∧ supportsToolSignatures from = true).

(** Content both protocols can carry. *)
Definition bridgeable (e : StreamEvent) : Prop :=
  (∀ b, evBlockStart e = Some b → from ≠ to → bs_kind b ≠ BlockKindProvider ∧ bs_kind b ≠ BlockKindThinking)
  ∧ (ThinkingDelta e ≠ None → from = to)
  ∧ (SignatureDelta e ≠ None → from = to ∧ supportsBlockSignatures from = true).

Record guard_inv (g : guardTools) (acts : list action) : Prop := {
  gi_table : table_ok gt_kind gt_args (gd_active g) (gd_seen g) acts;
  gi_count : size (gd_seen g) = length (starts acts) ∧ (size (gd_seen g) ≤ maxStreamToolCalls)%nat;
  gi_good : Forall bridgeableStart (starts acts) }.

Lemma guardToolStart_inv g tc g' acts : guardToolStart from to g tc = Ok g' → guard_inv g acts →
  guard_inv g' (acts ++ [AStart tc]).
Proof.
  unfold guardToolStart. case_match eqn:Hi; [done|].
  destruct (validateToolIdentity from _ _) as [[]|] eqn:Hv1; [|done]. cbn [res_bind].
  destruct (validateToolIdentity to _ _) as [[]|] eqn:Hv2; [|done]. cbn [res_bind].
  case_match eqn:Hm; [done|]. case_bool_decide as Hd; [done|]. case_match eqn:Hk; [done|]. case_match eqn:Hs; [done|].
  intros [= <-] [Ht [Hc1 Hc2] Hg]. apply orb_false_iff in Hi as [Hneg%Z.ltb_ge Hkn%negb_false_iff]. apply Nat.leb_gt in Hm.
  assert (Hst : starts (acts ++ [AStart tc]) = starts acts ++ [tc]) by apply starts_app.
  split; rewrite ?Hst; cbn [gd_active gd_seen].
  - by apply table_start.
  - rewrite size_union by (by apply disjoint_singleton_l). rewrite size_singleton, length_app. cbn [length]. lia.
  - apply Forall_app. split; [done|]. constructor; [|constructor]. split_and!; try done.
    + intros Hf. rewrite Hf in Hk. cbn in Hk. apply orb_false_iff in Hk as [?%negb_false_iff ?%negb_false_iff]. done.
    + intros Hf%String.eqb_neq. rewrite Hf in Hs. cbn in Hs. rewrite !orb_false_iff, !negb_false_iff in Hs.
      destruct Hs as [[?%String.eqb_eq ?] _]. done.
Qed.

Lemma guardToolDelta_inv g d g' acts : guardToolDelta g d = Ok g' → guard_inv g acts → guard_inv g' (acts ++ [ADelta d]).
Proof.
  unfold guardToolDelta. destruct (gd_active g !! tcd_index d) as [st|] eqn:Hst; [|done].
  assert (Hs0 : starts (acts ++ [ADelta d]) = starts acts) by (rewrite starts_app; apply app_nil_r).
  case_match eqn:Hk.
  - case_match; [done|]. intros [= <-] [Ht Hc Hg]. split; rewrite ?Hs0; try done.
    rewrite <- (insert_id _ _ _ Hst). eapply table_delta; try done. intros []. by apply Z.eqb_eq.
  - case_bool_decide; [done|]. case_match; [done|]. intros [= <-] [Ht Hc Hg]. split; rewrite ?Hs0; try done.
    cbn [gd_active gd_seen]. by eapply table_delta.
Qed.

Lemma guardToolEnd_inv g i g' acts : guardToolEnd g i = Ok g' → guard_inv g acts → guard_inv g' (acts ++ [AEnd i]).
Proof.
  unfold guardToolEnd. destruct (gd_active g !! i) as [st|] eqn:Hst; [|done].
  assert (Hs0 : starts (acts ++ [AEnd i]) = starts acts) by (rewrite starts_app; apply app_nil_r).
  case_match eqn:Hk; [done|]. intros [= <-] [Ht Hc Hg]. split; rewrite ?Hs0; try done. cbn [gd_active gd_seen].
  eapply table_end; try done. intros Hf%Z.eqb_neq. rewrite Hf in Hk. by apply negb_false_iff in Hk.
Qed.

Lemma guardStreamEvent_inv g e g' acts : guardStreamEvent from to g e = Ok g' → single e → guard_inv g acts →
  guard_inv g' (acts ++ actions e) ∧ bridgeable e.
Proof.
  intros H Hs Hg. unfold bridgeable.
  destruct Hs as [ | | |b| | |tc|d|i| | | | ]; unfold guardStreamEvent in H; cbn in H |- *; rewrite ?app_nil_r;
    try (injection H as <-; split_and!; done).
  - destruct (String.eqb_spec from to) as [->|Hne]; [injection H as <-; by split_and!|done].
  - destruct (String.eqb_spec from to) as [->|Hne].
    + rewrite !andb_false_r in H. injection H as <-. by split_and!.
    + rewrite !andb_true_r in H. repeat (case_bool_decide; [done|]). injection H as <-. split_and!; try done.
      intros b' [= ->] _. done.
  - split_and!; try done. by eapply guardToolStart_inv.
  - split_and!; try done. by eapply guardToolDelta_inv.
  - split_and!; try done. by eapply guardToolEnd_inv.
  - case_match eqn:Hc; [done|]. injection H as <-. rewrite !orb_false_iff, !negb_false_iff in Hc.
    destruct Hc as [[->%String.eqb_eq ?] _]. by split_and!.
Qed.

(** What is guaranteed of the content a client's serializer receives. *)
Record guardSafe (content : list StreamEvent) : Prop := {
  gs_quiet : Forall quiet content;
  gs_head : Forall (λ e, MessageStart e = None) (tail content);
  gs_trace : ∀ i, trace (proj i (allActions content));
  gs_count : (length (starts (allActions content)) ≤ maxStreamToolCalls)%nat;
  gs_good : Forall bridgeableStart (starts (allActions content));
  gs_bridgeable : Forall bridgeable content }.

Record guardVars_inv (v : guardVars) (content : list StreamEvent) : Prop := {
  vi_tools : guard_inv (gv_tools v) (allActions content);
  vi_quiet : Forall quiet content;
  vi_bridgeable : Forall bridgeable content;
  vi_head : Forall (λ e, MessageStart e = None) (tail content);
  vi_begun : content ≠ [] → gv_messageStarted v || gv_contentStarted v = true;
  vi_finish : gv_finished v = true → gv_finish v ≠ "";
  vi_usage : ∀ u, gv_usage v = Some u → ∃ source, normalizeStreamUsage source from to = Ok u }.

Lemma guardVars_safe v content : guardVars_inv v content → guardSafe content.
Proof.
  intros [[Ht [Hc Hc'] Hg] Hq Hb Hh _ _ _]. split; try done; [|lia]. intros i. by eapply table_trace.
Qed.

Lemma guardVars_inv_0 : guardVars_inv guardVars0 [].
Proof.
  split; try done; try constructor; cbn; [apply table_ok_0| |constructor].
  rewrite size_empty. unfold maxStreamToolCalls. split; [done|lia].
Qed.

Context (emitUsage : bool) (fallbackModel : string).

Lemma guardMessageStart_inv v e v' e' content : guardMessageStart fallbackModel v e = Ok (v', e') →
  guardVars_inv v content → single e → quiet e →
  guardVars_inv (mkGuardVars (gv_finish v') (gv_usage v') (gv_finished v') (gv_messageStarted v) (gv_contentStarted v) (gv_tools v')) content
  ∧ gv_messageStarted v' || gv_contentStarted v' = true ∧ single e' ∧ quiet e' ∧ actions e' = actions e
  ∧ Forall (λ e, MessageStart e = None) (tail (content ++ [e'])) ∧ (bridgeable e → bridgeable e').
Proof.
  unfold guardMessageStart. intros H [Ht Hq Hb Hh Hc Hf Hu] Hs Hqe.
  destruct (MessageStart e) as [m|] eqn:Hm.
  - destruct (gv_messageStarted v || gv_contentStarted v) eqn:Hst; [done|]. injection H as <- <-.
    assert (content = []) as -> by (destruct content; [done|]; by specialize (Hc ltac:(done)); congruence).
    split; [by split|]. destruct Hs as [ | | | | |m'| | | | | | | ]; try done.
    destruct (_ && _); (split; [done|]); (split; [apply (single_message_start _)|]); split_and!; try done; constructor.
  - injection H as <- <-. split; [by split|]. split_and!; try done; [apply orb_true_r|].
    destruct content; [constructor|]. cbn. apply Forall_app. split; [done|]. by constructor.
Qed.

Lemma guardEvent_inv v e content : guardVars_inv v content → single e →
  match guardEvent from to emitUsage fallbackModel v e with
  | GuardHold v' => guardVars_inv v' content ∧ Error e = None
  | GuardSend e' v' => guardVars_inv v' (content ++ [e']) ∧ Error e = None ∧ FinishReason e' = ""
  | GuardFail _ _ => True
  end.
Proof.
  intros Hi Hs. unfold guardEvent. destruct (Error e) eqn:He; [done|]. destruct (String.eqb (FinishReason e) "") eqn:Hfin; cbn [negb].
  2: { destruct (gv_finished v); [done|]. split; [|done]. destruct Hi. split; try done. intros _. by apply String.eqb_neq. }
  destruct (Usage e) as [u|] eqn:Hu.
  { destruct (normalizeStreamUsage u from to) as [u'|] eqn:Hn; [|done]. destruct (emitUsage && _ && _); [done|]. split; [|done].
    destruct Hi. split; try done. cbn. intros ? [= <-]. eauto. }
  destruct (gv_finished v) eqn:Hfd; [done|]. apply String.eqb_eq in Hfin.
  destruct (guardMessageStart _ v e) as [[v1 e1]|] eqn:Hm; [|done].
  destruct (guardMessageStart_inv _ _ _ _ _ Hm Hi Hs ltac:(done)) as (Hi1 & Hst & Hs1 & Hq1 & Ha & Hh & _).
  destruct (guardStreamEvent from to (gv_tools v1) e1) as [g|] eqn:Hg; [|done].
  destruct Hi1 as [Ht1 Hq Hb _ _ Hf Hu1]. destruct (guardStreamEvent_inv _ _ _ _ Hg Hs1 Ht1) as [Ht2 Hb1].
  split; [|split; [done|apply Hq1]]. split; try done.
  - unfold allActions. rewrite map_app, concat_app. cbn [map concat]. by rewrite app_nil_r.
  - apply Forall_app. split; [done|]. by constructor.
  - apply Forall_app. split; [done|]. by constructor.
Qed.

Context (sent received : nat → bool) (ctxErr : bool).

(** The terminal events, in the order the destination needs. *)
Definition clientTail (usage : option StreamUsage) (f : string) : list StreamEvent :=
  let report := match usage with Some u => [ev_usage u] | None => [] end in
  if String.eqb to OpenAIChat then ev_finish f :: (if emitUsage then report else [])
  else report ++ [ev_finish f].

Definition guardOutcome (content tl : list StreamEvent) (r : res guardErr unit) : Prop :=
  match r with
  | Ok _ => (∀ i, closedTrace (proj i (allActions content)))
            ∧ ∃ usage f, tl = clientTail usage f ∧ f ≠ "" ∧ (to = Anthropic → usage ≠ None)
                ∧ ∀ u, usage = Some u → ∃ source, normalizeStreamUsage source from to = Ok u
  | Err (Failed _) => ∃ x, tl = [ev_error x]
  | Err Cancelled => tl = [] ∨ (∃ u, tl = [ev_usage u]) ∨ (∃ f, tl = [ev_finish f] ∧ to = OpenAIChat)
  end.

Lemma sendThen_out k e next content :
  (∃ tl, next.1 = tl ∧ guardOutcome content (e :: tl) next.2) → guardOutcome content [] (Err Cancelled) →
  guardOutcome content (sendThen sent k e next).1 (sendThen sent k e next).2.
Proof. intros (tl & Ht & H) Hc. unfold sendThen. destruct (sent k); [|done]. cbn. by rewrite Ht. Qed.

Lemma guardEnd_outcome v k content : guardVars_inv v content →
  guardOutcome content (guardEnd to emitUsage sent ctxErr v k).1 (guardEnd to emitUsage sent ctxErr v k).2.
Proof.
  intros [[Ht _ _] _ _ _ _ Hf Hu]. unfold guardEnd.
  assert (Hc : guardOutcome content [] (Err Cancelled)) by by left.
  assert (Hfail : ∀ err, guardOutcome content
    (sendThen sent k (ev_error (streamError err)) ([], Err (Failed err))).1
    (sendThen sent k (ev_error (streamError err)) ([], Err (Failed err))).2).
  { intros err. apply sendThen_out; [|done]. eexists. split; [done|]. cbn. eauto. }
  destruct ctxErr; [done|]. destruct (gv_finished v) eqn:Hfin; [cbn [negb]|apply Hfail].
  case_bool_decide as Ha; [apply Hfail|].
  assert (gd_active (gv_tools v) = ∅) as Hnone by (destruct (decide (gd_active (gv_tools v) = ∅)); [done|by exfalso]).
  rewrite Hnone in Ht. assert (Hclosed : ∀ i, closedTrace (proj i (allActions content))) by (intros i; by eapply table_closed).
  destruct (String.eqb to Anthropic && bool_decide (gv_usage v = None)) eqn:Han; [apply Hfail|].
  assert (Han' : to = Anthropic → gv_usage v ≠ None).
  { intros -> Hn. rewrite Hn in Han. by cbn in Han. }
  assert (Hok : guardOutcome content (clientTail (gv_usage v) (gv_finish v)) (Ok tt)).
  { split; [done|]. exists (gv_usage v), (gv_finish v). split_and!; auto. }
  unfold clientTail in Hok. destruct (String.eqb_spec to OpenAIChat) as [Hto|Hto].
  - apply sendThen_out; [|done]. eexists. split; [done|]. destruct (gv_usage v) as [u|]; [|by destruct emitUsage].
    destruct emitUsage; [|done]. unfold sendThen. destruct (sent (S k)); [done|]. cbn. right. right. eauto.
  - destruct (gv_usage v) as [u|].
    + apply sendThen_out; [|done]. eexists. split; [done|]. unfold sendThen. destruct (sent (S k)); [done|]. right. left. eauto.
    + apply sendThen_out; [|done]. by eexists.
Qed.

Lemma guardLoop_contract events v n k content : guardVars_inv v content → Forall single events →
  ∃ more tl, (guardLoop from to emitUsage fallbackModel sent received ctxErr v n k events).1 = more ++ tl
    ∧ guardSafe (content ++ more)
    ∧ guardOutcome (content ++ more) tl (guardLoop from to emitUsage fallbackModel sent received ctxErr v n k events).2.
Proof.
  revert v n k content. induction events as [|e events IH]; intros v n k content Hi Hs; cbn [guardLoop];
    (destruct (received n); cbn [negb]; [|exists [], []; rewrite !app_nil_r; split_and!; [done|by eapply guardVars_safe|by left]]).
  { exists [], (guardEnd to emitUsage sent ctxErr v k).1. rewrite app_nil_r. split_and!; [done|by eapply guardVars_safe|by apply guardEnd_outcome]. }
  apply list.Forall_cons in Hs as [He Hs]. pose proof (guardEvent_inv v e content Hi He) as Hstep.
  destruct (guardEvent _ _ _ _ v e) as [v'|e' v'|x err].
  - destruct Hstep as [Hi' _]. by apply IH.
  - destruct Hstep as (Hi' & _ & _). unfold sendThen. destruct (sent k).
    + destruct (IH v' (S n) (S k) (content ++ [e']) Hi' Hs) as (more & tl & Hout & Hsafe & Ho).
      exists (e' :: more), tl. rewrite <- app_assoc in *. cbn [before fst snd] in *. rewrite Hout. done.
    + exists [], []. rewrite !app_nil_r. split_and!; [done|by eapply guardVars_safe|by left].
  - exists []. rewrite !app_nil_r. unfold sendThen. destruct (sent k).
    + exists [ev_error x]. split_and!; [done|by eapply guardVars_safe|]. cbn. eauto.
    + exists []. split_and!; [done|by eapply guardVars_safe|by left].
Qed.

(** A finish event is sent only when the source has closed without an error. *)
Lemma sendThen_finish k e next : Exists (λ e, FinishReason e ≠ "") (sendThen sent k e next).1 →
  FinishReason e ≠ "" ∨ Exists (λ e, FinishReason e ≠ "") next.1.
Proof. unfold sendThen. destruct (sent k); cbn; [|by intros ?%Exists_nil]. intros []%Exists_cons; auto. Qed.

Lemma guardLoop_finish events v n k content : guardVars_inv v content → Forall single events →
  Exists (λ e, FinishReason e ≠ "") (guardLoop from to emitUsage fallbackModel sent received ctxErr v n k events).1 →
  Forall (λ e, Error e = None) events.
Proof.
  revert v n k content. induction events as [|e events IH]; intros v n k content Hi Hs; cbn [guardLoop]; [by constructor|].
  destruct (received n); cbn [negb]; [|by intros ?%Exists_nil].
  apply list.Forall_cons in Hs as [He Hs]. pose proof (guardEvent_inv v e content Hi He) as Hstep.
  destruct (guardEvent _ _ _ _ v e) as [v'|e' v'|x err].
  - destruct Hstep as [Hi' Hn]. intros H. constructor; [done|]. by eapply IH.
  - destruct Hstep as (Hi' & Hn & Hq). intros [H|H]%sendThen_finish; [done|]. constructor; [done|]. by eapply IH.
  - by intros [H|H%Exists_nil]%sendThen_finish.
Qed.
End Guard.
End Tools.
