(* ===== verification/BridgeStreamTheorems.v ===== *)
(** * Streams across provider protocols: theorems

    The contract of [ParseStream] and of [guardStream], their composition, the
    transparency of [ParseStream] on streams that satisfy the contract, and the
    conversion of token accounting. *)

From stdpp Require Import base list strings gmap sets numbers pretty.
From S2P Require Import Prelude ByteStrings StreamEvents Utf8 RawJSON RequestConv ConversationKeys RateLimit RawJSONAuthority BridgeStream BridgeStreamProofs.

Open Scope Z_scope.

Section Theorems.
Context `{V : JSONText}.

(** ** What comes next in a trace *)

Lemma deltas_split l1 x l2 ds tl : tl = [] ∨ (∃ j, tl = [AEnd j]) → l1 ++ x :: l2 = (ADelta <$> ds) ++ tl →
  ∃ ds', l1 = ADelta <$> ds' ∧ match x with AStart _ => False | ADelta _ => True | AEnd _ => ds' = ds end.
Proof.
  intros Htl. revert ds. induction l1 as [|a l1 IH]; intros [|d ds] H.
  - exists []. split; [done|]. destruct Htl as [->|[j ->]]; [done|]. by injection H as -> _.
  - exists []. split; [done|]. by injection H as -> _.
  - destruct Htl as [->|[j ->]]; [done|]. injection H as -> H. by destruct l1.
  - injection H as -> H. destruct (IH ds H) as (ds' & -> & Hx). exists (d :: ds'). split; [done|].
    destruct x; try done. by subst.
Qed.

Lemma trace_split l1 x l2 : trace (l1 ++ x :: l2) →
  match x with
  | AStart _ => l1 = []
  | ADelta _ => openTrace l1
  | AEnd _ => ∃ t ds, l1 = AStart t :: (ADelta <$> ds)
                ∧ (tcs_kind t ≠ ToolInvocationFreeform → completeObject (arguments ds) = true)
  end.
Proof.
  assert (Hgen : ∀ t ds tl, (tl = [] ∨ (∃ j, tl = [AEnd j]
      ∧ (tcs_kind t ≠ ToolInvocationFreeform → completeObject (arguments ds) = true))) →
    l1 ++ x :: l2 = AStart t :: (ADelta <$> ds) ++ tl →
    match x with
    | AStart _ => l1 = []
    | ADelta _ => openTrace l1
    | AEnd _ => ∃ t ds, l1 = AStart t :: (ADelta <$> ds)
                  ∧ (tcs_kind t ≠ ToolInvocationFreeform → completeObject (arguments ds) = true)
    end).
  { intros t ds tl Htl H. destruct l1 as [|a l1]; [injection H as -> _; done|]. injection H as -> H.
    destruct (deltas_split l1 x l2 ds tl) as (ds' & -> & Hx); [naive_solver|done|].
    destruct x; [done|by exists t, ds'|]. subst ds'. exists t, ds. split; [done|].
    destruct Htl as [->|(j & -> & Hc)]; [|done]. exfalso. rewrite app_nil_r in H.
    assert (AEnd i ∈ ADelta <$> ds) as (? & ? & ?)%list_elem_of_fmap by (rewrite <- H; set_solver). done. }
  intros [[H|(t & ds & j & H & Hc)]|(t & ds & H)].
  - by destruct l1.
  - by apply (Hgen t ds [AEnd j]); [right; eauto|].
  - apply (Hgen t ds []); [by left|]. by rewrite app_nil_r.
Qed.

Lemma proj_mid i a acts rest : act_index a = i → proj i (acts ++ a :: rest) = proj i acts ++ a :: proj i rest.
Proof. intros Hi. unfold proj. rewrite filter_app, filter_cons. by rewrite decide_True. Qed.

Section Next.
Context {S : Type} (kind : S → Z) (args : S → string).

Lemma next_start active seen acts t rest : table_ok kind args active seen acts →
  trace (proj (tcs_index t) (acts ++ AStart t :: rest)) → tcs_index t ∉ seen.
Proof.
  intros H Ht Hin. rewrite proj_mid in Ht by done. apply trace_split in Ht. specialize (H (tcs_index t)).
  destruct (active !! _); [|by destruct H as [_ [_ H]]; apply H in Hin].
  destruct H as (_ & t' & ds & Hp & _). by rewrite Hp in Ht.
Qed.

Lemma next_open active seen acts i t ds : table_ok kind args active seen acts →
  proj i acts = AStart t :: (ADelta <$> ds) →
  ∃ st, active !! i = Some st ∧ kind st = tcs_kind t ∧ (kind st ≠ ToolInvocationFreeform → args st = arguments ds).
Proof.
  intros H Hp. specialize (H i). destruct (active !! i) as [st|].
  - destruct H as (_ & t' & ds' & Hp' & Hk & Ha). rewrite Hp in Hp'. injection Hp' as -> Hds.
    apply list_fmap_eq_inj in Hds; [|by intros ?? [= ->]]. subst ds'. eauto.
  - destruct H as [[H|(t' & ds' & j & H & _)] _]; rewrite Hp in H; [done|]. injection H as _ H. exfalso.
    assert (AEnd j ∈ ADelta <$> ds) as (? & ? & ?)%list_elem_of_fmap by (rewrite H; set_solver). done.
Qed.

Lemma next_delta active seen acts d rest : table_ok kind args active seen acts →
  trace (proj (tcd_index d) (acts ++ ADelta d :: rest)) → ∃ st, active !! tcd_index d = Some st.
Proof.
  intros H Ht. rewrite proj_mid in Ht by done. apply trace_split in Ht as (t & ds & Hp).
  destruct (next_open _ _ _ _ _ _ H Hp) as (st & ? & _). eauto.
Qed.

Lemma next_end active seen acts i rest : table_ok kind args active seen acts →
  trace (proj i (acts ++ AEnd i :: rest)) →
  ∃ st, active !! i = Some st ∧ (kind st ≠ ToolInvocationFreeform → completeObject (args st) = true).
Proof.
  intros H Ht. rewrite proj_mid in Ht by done. apply trace_split in Ht as (t & ds & Hp & Hc).
  destruct (next_open _ _ _ _ _ _ H Hp) as (st & Hst & Hk & Ha). exists st. split; [done|].
  intros Hf. rewrite Ha by done. apply Hc. congruence.
Qed.
End Next.

(** ** Transparency of [ParseStream] *)

Section Transparent.
Context (sha256 : string → string) (entropy : string + Z) (from : Protocol).

Fixpoint deltaBytes (acts : list action) : Z :=
  match acts with [] => 0 | ADelta d :: acts' => len (tcd_arguments d) + deltaBytes acts' | _ :: acts' => deltaBytes acts' end.

Lemma deltaBytes_app a b : deltaBytes (a ++ b) = deltaBytes a + deltaBytes b.
Proof. induction a as [|[] a IH]; cbn; lia. Qed.
Lemma deltaBytes_nonneg a : 0 ≤ deltaBytes a.
Proof. induction a as [|[t|d|i] a IH]; cbn; try lia. pose proof (len_nonneg (tcd_arguments d)). lia. Qed.

Lemma allActions_app a b : allActions (a ++ b) = allActions a ++ allActions b.
Proof. unfold allActions. by rewrite map_app, concat_app. Qed.
Lemma allActions_cons e es : allActions (e :: es) = actions e ++ allActions es.
Proof. done. Qed.

(** The variables after the content [done] of a stream that the loop accepts. *)
Record passed (v : parseVars) (sofar : list StreamEvent) : Prop := {
  pa_tools : tools_inv from v (allActions sofar);
  pa_started : pv_started v = negb (bool_decide (sofar = []));
  pa_open : pv_finished v = false;
  pa_usage : pv_usage v = None;
  pa_had : pv_hadTools v = negb (bool_decide (starts (allActions sofar) = []));
  pa_bytes : pv_bufferedToolBytes v ≤ deltaBytes (allActions sofar) }.

(** The next action of an accepted stream is accepted. *)
Lemma tool_accepts v e acts rest : tools_inv from v acts → single e →
  (∀ i, trace (proj i (acts ++ actions e ++ rest))) →
  (length (starts (acts ++ actions e ++ rest)) ≤ maxStreamToolCalls)%nat →
  NoDup (tcs_id <$> starts (acts ++ actions e ++ rest)) → Forall (goodStart from) (starts (acts ++ actions e ++ rest)) →
  pv_bufferedToolBytes v + deltaBytes (actions e) ≤ MaxFrameBytes →
  ∃ v', ('(v, e) ←? parseToolStart sha256 from v e; v ←? parseToolDelta v e; v ←? parseToolEnd v e; Ok (v, e)) = Ok (v', e)
    ∧ pv_usage v' = pv_usage v ∧ pv_hadTools v' = pv_hadTools v || negb (bool_decide (starts (actions e) = []))
    ∧ pv_bufferedToolBytes v' ≤ pv_bufferedToolBytes v + deltaBytes (actions e).
Proof.
  intros [Ht [Hc _] [Hids _] _] Hs Htr Hcnt Hnd Hgood Hby.
  rewrite !starts_app, !fmap_app in *. rewrite !length_app in Hcnt. apply list.NoDup_app in Hnd as (_ & Hnd & _).
  apply Forall_app in Hgood as [_ [Hgood _]%Forall_app].
  destruct Hs as [ | | |b| | |tc|d|i| | | | ]; try (eexists; split_and!; [reflexivity|done|by rewrite orb_false_r|cbn; lia]).
  - specialize (Htr (tcs_index tc)). pose proof (next_start _ _ _ _ _ _ _ Ht Htr) as Hn.
    cbn [actions ev_tool_start evToolCallStart evToolCallDelta evToolCallEnd app starts omap list_omap fmap list_fmap length] in *.
    apply list.Forall_cons in Hgood as [(Hi & Hk & Hid & Hv) _].
    assert (Hdup : tcs_id tc ∉ pv_toolIDs v).
    { rewrite Hids. intros Hin%elem_of_list_to_set. by apply (Hnd _ Hin); left. }
    exists (pv_openTool (tcs_index tc) (tcs_id tc) (tcs_kind tc) v). split; [|split_and!; [reflexivity| |cbn; lia]].
    + unfold parseToolStart. cbn [ev_tool_start evToolCallStart].
      rewrite (proj2 (Z.ltb_ge _ _) Hi), Hk. cbn [orb negb].
      rewrite (proj2 (Nat.leb_gt _ _)) by lia. rewrite bool_decide_false by done.
      apply String.eqb_neq in Hid. rewrite Hid. rewrite Hv. cbn [res_bind]. rewrite bool_decide_false by done. reflexivity.
    + cbn. by rewrite orb_true_r.
  - specialize (Htr (tcd_index d)). destruct (next_delta _ _ _ _ _ _ _ Ht Htr) as [st Hst].
    unfold parseToolStart, parseToolDelta, parseToolEnd. cbn [ev_tool_delta evToolCallStart evToolCallDelta evToolCallEnd res_bind].
    rewrite Hst. cbn in Hby. rewrite Z.add_0_r in Hby. rewrite (proj2 (Z.ltb_ge _ _)) by lia.
    pose proof (len_nonneg (tcd_arguments d)).
    destruct (_ =? _); (eexists; split_and!; [reflexivity|done|by rewrite orb_false_r|cbn; lia]).
  - specialize (Htr i). destruct (next_end _ _ _ _ _ _ _ Ht Htr) as (st & Hst & Hcomp).
    unfold parseToolStart, parseToolDelta, parseToolEnd. cbn [ev_tool_end evToolCallStart evToolCallDelta evToolCallEnd res_bind].
    rewrite Hst. assert (negb (pt_kind st =? ToolInvocationFreeform) && negb (completeObject (pt_args st)) = false) as ->.
    { destruct (Z.eqb_spec (pt_kind st) ToolInvocationFreeform); [done|]. by rewrite Hcomp. }
    eexists; split_and!; [reflexivity|done|by rewrite orb_false_r|cbn; lia].
Qed.

Lemma step_accepts v e sofar rest : passed v sofar → single e → quiet e →
  headed (sofar ++ e :: rest) → safeContent from (sofar ++ e :: rest) →
  deltaBytes (allActions (sofar ++ e :: rest)) ≤ MaxFrameBytes →
  ∃ v', parseStep sha256 entropy from v (mkNativeStep None e) = ([e], Ok v') ∧ passed v' (sofar ++ [e]).
Proof.
  intros [Ht Hst Hop Hus Had Hby] Hs (He & Hf & Hu) Hh [_ _ Htr Hcnt Hids Hgood] Hmax.
  assert (Hacts : allActions (sofar ++ e :: rest) = allActions sofar ++ actions e ++ allActions rest) by apply allActions_app.
  rewrite Hacts in *. rewrite !deltaBytes_app in Hmax. pose proof (deltaBytes_nonneg (allActions rest)) as Hge.
  (* the message start *)
  assert (Hm : ∃ v1, parseMessageStart entropy from v e = Ok (v1, e) ∧ tools_inv from v1 (allActions sofar)
    ∧ pv_started v1 = true ∧ pv_finished v1 = false ∧ pv_usage v1 = None ∧ pv_hadTools v1 = pv_hadTools v
    ∧ pv_bufferedToolBytes v1 = pv_bufferedToolBytes v ∧ bool_decide (MessageStart e = None) && negb (pv_started v) = false).
  { destruct Hh as (e0 & m & rest0 & Heq & Hm & Hid & Hr). destruct sofar as [|x sofar].
    - injection Heq as -> ->. unfold parseMessageStart. rewrite Hm, Hst. cbn [negb bool_decide]. 
      apply String.eqb_neq in Hid. rewrite Hid. eexists. split; [reflexivity|].
      split; [by eapply tools_inv_frame; [..|exact Ht]|]. by rewrite bool_decide_false.
    - injection Heq as -> <-. apply Forall_app in Hr as [_ [Hr _]%list.Forall_cons].
      unfold parseMessageStart. rewrite Hr. exists v. rewrite Hst. by split_and!. }
  destruct Hm as (v1 & Hm1 & Ht1 & Hst1 & Hop1 & Hus1 & Had1 & Hby1 & Hfb).
  destruct (tool_accepts v1 e (allActions sofar) (allActions rest) Ht1 Hs Htr Hcnt Hids Hgood) as (v2 & Hv2 & Hus2 & Had2 & Hby2); [lia|].
  assert (Hc : parseContent sha256 entropy from v e = Ok (v2, e)) by (unfold parseContent; by rewrite Hm1).
  exists v2. split.
  - unfold parseStep. cbn [ns_issue ns_event]. rewrite He, Hf, Hu, Hop, Hfb. cbn. by rewrite Hc.
  - destruct (parseTools_frame _ _ _ _ _ _ Hv2) as (B1 & B2 & _).
    assert (Hacts1 : allActions (sofar ++ [e]) = allActions sofar ++ actions e).
    { rewrite allActions_app. unfold allActions at 2. cbn. by rewrite app_nil_r. }
    split; rewrite ?Hacts1; [|rewrite B1, Hst1; by destruct sofar|congruence|congruence| |rewrite deltaBytes_app; lia].
    + by apply (parseTools_inv sha256 from v1 e v2 e).
    + rewrite Had2, Had1, Had, starts_app. destruct (starts (allActions sofar)), (starts (actions e)); done.
Qed.

Lemma loop_accepts tl rest v sofar : passed v sofar → Forall single rest → Forall quiet rest →
  headed (sofar ++ rest) → safeContent from (sofar ++ rest) → deltaBytes (allActions (sofar ++ rest)) ≤ MaxFrameBytes →
  ∃ v', passed v' (sofar ++ rest) ∧
    parseLoop sha256 entropy from v (map (mkNativeStep None) rest ++ tl) None true
    = rest ++ parseLoop sha256 entropy from v' tl None true.
Proof.
  revert v sofar. induction rest as [|e rest IH]; intros v sofar Hp Hs Hq Hh Hsafe Hmax.
  - rewrite app_nil_r. by exists v.
  - apply list.Forall_cons in Hs as [He Hs]. apply list.Forall_cons in Hq as [Hqe Hq].
    destruct (step_accepts v e sofar rest Hp He Hqe Hh Hsafe Hmax) as (v1 & Hstep & Hp1).
    assert (Ha : sofar ++ e :: rest = (sofar ++ [e]) ++ rest) by by rewrite <- app_assoc.
    rewrite Ha in *. destruct (IH v1 (sofar ++ [e]) Hp1 Hs Hq Hh Hsafe Hmax) as (v2 & Hp2 & Hloop).
    exists v2. split; [done|]. cbn [map app parseLoop]. rewrite Hstep. cbn [app]. by rewrite Hloop.
Qed.

(** The native stream of some content, a usage report if any, and a finish
    reason, with an observer that sees the terminal marker and no issue. *)
Definition cleanNative (content : list StreamEvent) (usage : option StreamUsage) (f : string) : nativeStream :=
  mkNativeStream (map (mkNativeStep None) content ++ map (mkNativeStep None)
    (match usage with Some u => [ev_usage u] | None => [] end ++ [ev_finish f])) None true.

Definition finishReason (content : list StreamEvent) (f : string) : string :=
  if bool_decide (from ∈ [OpenAIResponses; Gemini; GeminiCodeAssist]) && String.eqb f "stop"
     && negb (bool_decide (starts (allActions content) = []))
  then "tool_calls" else f.

Lemma parse_clean content usage f : Valid from = true → Forall single content → headed content → safeContent from content →
  (∀ i, closedTrace (proj i (allActions content))) → deltaBytes (allActions content) ≤ MaxFrameBytes → f ≠ "" →
  ParseStream sha256 entropy from (cleanNative content usage f)
  = content ++ match usage with Some u => [ev_usage u] | None => [] end ++ [ev_finish (finishReason content f)].
Proof.
  intros Hv Hs Hh Hsafe Hclosed Hmax Hf. unfold ParseStream. rewrite Hv. cbn [negb cleanNative nt_steps nt_issue nt_terminal].
  destruct (loop_accepts (map (mkNativeStep None) (match usage with Some u => [ev_usage u] | None => [] end ++ [ev_finish f]))
    content parseVars0 []) as (v & [Ht Hst Hop Hus Had _] & ->); try done.
  { split; try done. apply tools_inv_0. }
  { apply Hsafe. }
  cbn [app] in *. f_equal. assert (Hact : pv_activeTools v = ∅).
  { apply map_eq. intros i. rewrite lookup_empty. destruct Ht as [Ht _ _ _]. specialize (Ht i).
    destruct (pv_activeTools v !! i); [|done]. destruct Ht as (_ & t & ds & Hp & _).
    destruct (Hclosed i) as [H|(t' & ds' & j & H & _)]; rewrite Hp in H; [done|]. injection H as _ H. exfalso.
    assert (AEnd j ∈ ADelta <$> ds) as (? & ? & ?)%list_elem_of_fmap by (rewrite H; set_solver). done. }
  assert (Hstart : pv_started v = true) by (rewrite Hst; destruct Hh as (? & ? & ? & -> & _); done).
  apply String.eqb_neq in Hf.
  destruct usage; cbn; unfold parseStep; cbn; rewrite Hf, Hop; cbn; unfold parseEnd; cbn; rewrite Hact, ?Hus, Hstart, Had;
    rewrite bool_decide_false by (by intros []); done.
Qed.
End Transparent.

(** C29. The contract of [ParseStream], for every sequence of native events and
    observer reports: it forwards content, then a tail.  At every moment the
    content begins with its only message start, which has an ID; at most 128 tool
    calls start, with distinct non-empty IDs and portable identities, and the
    events of each index are a start, deltas and at most one end, arguments of an
    ended function call being a JSON object.  The tail is one error event, or a
    complete stream: every call ended, the usage if any, one finish reason; the
    latter only if the observer never reported an issue and saw the terminal
    marker, and the source sent exactly one finish event and no error. *)
Theorem ParseStream_contract sha256 entropy from native : Valid from = true →
  ∃ content tail, ParseStream sha256 entropy from native = content ++ tail ∧ safeContent from content
    ∧ ((∃ x, tail = [ev_error x])
       ∨ (completeStream content tail ∧ cleanUpstream (nt_steps native) (nt_issue native) (nt_terminal native)
          ∧ finishes (nt_steps native) = 1%nat)).
Proof. apply ParseStream_parts. Qed.

(** [ParseStream] is transparent on streams that keep the contract: content
    that begins with a message start, whose tool calls are complete and
    identified, in canonical events with at most [MaxFrameBytes] of arguments, is
    forwarded event by event, followed by the usage and the finish reason; a
    normal stop after a tool call is renamed for the three sources that do not
    distinguish it. *)
Theorem ParseStream_transparent sha256 entropy from content usage f : Valid from = true → Forall single content →
  headed content → safeContent from content → (∀ i, closedTrace (proj i (allActions content))) →
  deltaBytes (allActions content) ≤ MaxFrameBytes → f ≠ "" →
  ParseStream sha256 entropy from (cleanNative content usage f)
  = content ++ match usage with Some u => [ev_usage u] | None => [] end ++ [ev_finish (finishReason from content f)].
Proof. apply parse_clean. Qed.

(** C30. The contract of [guardStream], wherever the request is cancelled: what
    the destination's serializer receives is content, then a tail.  The content
    has at most one message start, at its head; its tool calls are traces, at
    most 128, with identities both protocols accept, free-form and signed calls
    only where both have them, and no thinking, provider or signature event
    crosses between different protocols.  A nil result means that every call
    ended and the tail is the finish reason with the normalized usage, in the
    destination's order (Anthropic never without usage); a failure sends one
    error event; a cancellation never a completed stream. *)
Theorem guardStream_contract from to emitUsage fallbackModel sent received ctxErr events : Forall single events →
  ∃ content tl, (guardStream from to emitUsage fallbackModel sent received ctxErr events).1 = content ++ tl
    ∧ guardSafe from to content
    ∧ guardOutcome from to emitUsage content tl (guardStream from to emitUsage fallbackModel sent received ctxErr events).2.
Proof.
  intros Hs. unfold guardStream.
  exact (guardLoop_contract from to emitUsage fallbackModel sent received ctxErr events guardVars0 0 0 []
    (guardVars_inv_0 from to) Hs).
Qed.

(** Across both halves of the bridge: the client is sent a finish event only
    if the upstream stream was complete.  Whatever the cancellation, if any event
    [guardStream] forwards from [ParseStream]'s output carries a finish reason,
    then the source protocol is valid, the observer never reported an issue and
    saw the terminal marker, and the source sent exactly one finish event and no
    error. *)
Theorem bridge_finish_clean sha256 entropy from to emitUsage fallbackModel sent received ctxErr native :
  Forall single (ns_event <$> nt_steps native) →
  Exists (λ e, FinishReason e ≠ "")
    (guardStream from to emitUsage fallbackModel sent received ctxErr (ParseStream sha256 entropy from native)).1 →
  Valid from = true ∧ cleanUpstream (nt_steps native) (nt_issue native) (nt_terminal native)
  ∧ finishes (nt_steps native) = 1%nat.
Proof.
  intros Hs Hex. pose proof (ParseStream_single sha256 entropy from native Hs) as Hps.
  apply (guardLoop_finish _ _ _ _ _ _ _ _ _ _ _ [] (guardVars_inv_0 from to) Hps) in Hex.
  destruct (Valid from) eqn:Hv.
  - split; [done|]. destruct (ParseStream_parts sha256 entropy from native Hv) as (content & tl & Hout & _ & [[x ->]|(_ & ? & ?)]); [|done].
    rewrite Hout in Hex. apply Forall_app in Hex as [_ [Hx _]%list.Forall_cons]. done.
  - unfold ParseStream in Hex. rewrite Hv in Hex. by apply list.Forall_cons in Hex as [Hx _].
Qed.

(** ** Token accounting *)

(** All input tokens, in the accounting of a protocol: Anthropic reports cached
    tokens beside the input, the others inside it. *)
Definition inputTotal (p : Protocol) (u : StreamUsage) : Z :=
  if String.eqb p Anthropic then su_input u + su_cache_read u + su_cache_write u else su_input u.

Lemma streamCheckedAdd_spec a b c : streamCheckedAdd a b = Some c ↔ 0 ≤ a ∧ 0 ≤ b ∧ a + b ≤ max_int64 ∧ c = a + b.
Proof.
  unfold streamCheckedAdd. destruct (_ || _) eqn:E.
  - rewrite !orb_true_iff, !Z.ltb_lt in E. split; [done|lia].
  - rewrite !orb_false_iff, !Z.ltb_ge in E. split; [intros [= <-]; lia|]. by intros (? & ? & ? & ->).
Qed.

(** When the conversion succeeds, and with what. *)
Definition usage_ok (u : StreamUsage) (from to : Protocol) (u' : StreamUsage) : Prop :=
  0 ≤ su_input u ∧ 0 ≤ su_output u ∧ 0 ≤ su_cache_read u ∧ 0 ≤ su_cache_write u
  ∧ su_cache_read u + su_cache_write u ≤ max_int64
  ∧ (from ≠ Anthropic → su_cache_read u + su_cache_write u ≤ su_input u)
  ∧ (from = Anthropic → to ≠ Anthropic → inputTotal from u ≤ max_int64)
  ∧ u' = mkStreamUsage (inputTotal from u - (if String.eqb to Anthropic then su_cache_read u + su_cache_write u else 0))
           (su_output u) (su_cache_read u) (su_cache_write u)
  ∧ su_input u' + su_output u' ≤ max_int64.

Lemma streamCheckedAdd3_spec a b c d :
  streamCheckedAdd3 a b c = Some d ↔ 0 ≤ a ∧ 0 ≤ b ∧ 0 ≤ c ∧ a + b + c ≤ max_int64 ∧ d = a + b + c.
Proof.
  unfold streamCheckedAdd3. destruct (streamCheckedAdd a b) as [ab|] eqn:E.
  - apply streamCheckedAdd_spec in E as (? & ? & ? & ->). rewrite streamCheckedAdd_spec. lia.
  - split; [done|]. intros (H1 & H2 & H3 & H4 & _). assert (streamCheckedAdd a b = Some (a + b)) as Hs; [|congruence].
    apply streamCheckedAdd_spec. lia.
Qed.

Lemma normalizeStreamUsage_spec u from to u' : normalizeStreamUsage u from to = Ok u' ↔ usage_ok u from to u'.
Proof.
  unfold normalizeStreamUsage, usage_ok, inputTotal. destruct u as [i o r w]. cbn [su_input su_output su_cache_read su_cache_write].
  split.
  - destruct (_ || _) eqn:Hneg; [done|]. rewrite !orb_false_iff, !Z.ltb_ge in Hneg.
    destruct (streamCheckedAdd r w) as [cache|] eqn:Hc; [|done]. apply streamCheckedAdd_spec in Hc as (_ & _ & Hcm & ->).
    destruct (_ && (i <? r + w)) eqn:Hlt; [done|]. rewrite andb_false_iff, negb_false_iff, Z.ltb_ge in Hlt.
    intros (x & Hx & H)%res_bind_ok. destruct (streamCheckedAdd _ o) as [t|] eqn:Ho; [|done].
    apply streamCheckedAdd_spec in Ho as (_ & _ & Hom & _). injection H as <-. cbn.
    destruct (String.eqb_spec from Anthropic), (String.eqb_spec to Anthropic); cbn in *;
      try (destruct (streamCheckedAdd3 i r w) as [y|] eqn:H3; [apply streamCheckedAdd3_spec in H3|done]);
      injection Hx as <-; split_and!; try done; try lia; f_equal; lia.
  - intros (H1 & H2 & H3 & H4 & H5 & H6 & H7 & -> & H9). cbn in H9.
    assert ((i <? 0) || (o <? 0) || (r <? 0) || (w <? 0) = false) as -> by (rewrite !orb_false_iff, !Z.ltb_ge; lia).
    rewrite (proj2 (streamCheckedAdd_spec r w (r + w))) by lia.
    destruct (String.eqb_spec from Anthropic), (String.eqb_spec to Anthropic); cbn [negb andb] in *;
      rewrite ?(proj2 (Z.ltb_ge i (r + w))) by (by apply H6);
      rewrite ?(proj2 (streamCheckedAdd3_spec i r w (i + r + w))) by (split_and!; try done; by apply H7); cbn [res_bind];
      erewrite (proj2 (streamCheckedAdd_spec _ _ _)) by (split_and!; [..|reflexivity]; try lia; specialize (H6 ltac:(done)); lia);
      f_equal; f_equal; lia.
Qed.

(** Converting token accounting between protocols conserves it.  When
    [normalizeStreamUsage] succeeds, all counts are non-negative, output and cache
    counts are unchanged, the total input in the destination's accounting is the
    total input in the source's, nothing overflowed; and if the source's own
    counts were acceptable, converting back gives the original. *)
Theorem normalizeStreamUsage_conserves u from to u' : normalizeStreamUsage u from to = Ok u' →
  0 ≤ su_input u' ∧ 0 ≤ su_output u' ∧ 0 ≤ su_cache_read u' ∧ 0 ≤ su_cache_write u'
  ∧ su_output u' = su_output u ∧ su_cache_read u' = su_cache_read u ∧ su_cache_write u' = su_cache_write u
  ∧ inputTotal to u' = inputTotal from u ∧ su_input u' + su_output u' ≤ max_int64
  ∧ (normalizeStreamUsage u from from = Ok u → inputTotal from u ≤ max_int64 → normalizeStreamUsage u' to from = Ok u).
Proof.
  rewrite !normalizeStreamUsage_spec. unfold usage_ok, inputTotal. destruct u as [i o r w], u' as [i' o' r' w'].
  cbn [su_input su_output su_cache_read su_cache_write].
  destruct (String.eqb_spec from Anthropic) as [Hf|Hf], (String.eqb_spec to Anthropic) as [Ht|Ht];
    intros (H1 & H2 & H3 & H4 & H5 & H6 & H7 & [= -> -> -> ->] & H9); cbn in *;
    try specialize (H6 Hf); try specialize (H7 Hf Ht);
    (split_and!; try done; try lia; intros (_ & _ & _ & _ & _ & _ & _ & _ & Hs) Htot;
     split_and!; try done; try lia; f_equal; lia).
Qed.
End Theorems.

(** ** A concrete stream: one tool call with the arguments [{}] *)

Definition callStart : ToolCallStart := mkToolCallStart 0 "call_1" "look_up" "" ToolInvocationFunction.
Definition callDelta : ToolCallDelta := mkToolCallDelta 0 "{}" None.
Definition callContent : list StreamEvent :=
  [ev_message_start (mkStreamMessageStart "assistant" "msg_1" "model"); ev_tool_start callStart; ev_tool_delta callDelta;
   ev_tool_end 0].
Definition callUsage : StreamUsage := mkStreamUsage 10 5 3 0.
#[local] Instance anyJSON : JSONText := accept_all.

Lemma callContent_single : Forall single callContent.
Proof. unfold callContent. repeat (constructor; try done). Defined.

Lemma callContent_closed i : closedTrace (proj i (allActions callContent)).
Proof.
  change (allActions callContent) with [AStart callStart; ADelta callDelta; AEnd 0]. unfold proj.
  rewrite !filter_cons, filter_nil. cbn [act_index callStart callDelta tcs_index tcd_index].
  destruct (decide (0 = i)) as [<-|]; [|by left]. right. exists callStart, [callDelta], 0. split; [done|].
  intros _. vm_compute. reflexivity.
Defined.

Lemma callContent_headed : headed callContent.
Proof. eexists _, _, _. split; [reflexivity|]. split; [reflexivity|]. split; [done|]. repeat (constructor; try done). Defined.

Lemma callContent_safe : safeContent OpenAIChat callContent.
Proof.
  split.
  - repeat (constructor; try done).
  - right. apply callContent_headed.
  - intros i. left. apply callContent_closed.
  - vm_compute. lia.
  - vm_compute. repeat constructor. set_solver.
  - repeat constructor; try done; vm_compute; done.
Defined.

Lemma ParseStream_contract_witness : Valid OpenAIChat = true ∧
  ∃ content tail, ParseStream id (inr 1) OpenAIChat (cleanNative callContent (Some callUsage) "tool_calls") = content ++ tail
    ∧ safeContent OpenAIChat content ∧ (∀ x, tail ≠ [ev_error x]).
Proof.
  split; [reflexivity|].
  destruct (ParseStream_contract id (inr 1) OpenAIChat (cleanNative callContent (Some callUsage) "tool_calls"))
    as (content & tail & Hout & Hsafe & Htail); [reflexivity|].
  exists content, tail. split; [exact Hout|]. split; [exact Hsafe|]. intros x ->.
  assert (Hl : list.last (ParseStream id (inr 1) OpenAIChat (cleanNative callContent (Some callUsage) "tool_calls"))
               = Some (ev_finish "tool_calls")) by (vm_compute; reflexivity).
  rewrite Hout, list.last_snoc in Hl. discriminate Hl.
Defined.

Lemma ParseStream_transparent_witness :
  ParseStream id (inr 1) OpenAIChat (cleanNative callContent (Some callUsage) "tool_calls")
  = callContent ++ [ev_usage callUsage; ev_finish "tool_calls"].
Proof.
  rewrite (ParseStream_transparent id (inr 1) OpenAIChat callContent (Some callUsage) "tool_calls").
  - reflexivity.
  - reflexivity.
  - apply callContent_single.
  - apply callContent_headed.
  - apply callContent_safe.
  - apply callContent_closed.
  - vm_compute. discriminate.
  - done.
Defined.

Definition callParsed : list StreamEvent := callContent ++ [ev_usage callUsage; ev_finish "tool_calls"].

Lemma guardStream_contract_witness :
  (guardStream OpenAIChat Anthropic true "" (λ _, true) (λ _, true) false callParsed).2 = Ok tt ∧
  ∃ content tl, (guardStream OpenAIChat Anthropic true "" (λ _, true) (λ _, true) false callParsed).1 = content ++ tl
    ∧ guardSafe OpenAIChat Anthropic content ∧ guardOutcome OpenAIChat Anthropic true content tl (Ok tt).
Proof.
  split; [vm_compute; reflexivity|].
  refine (guardStream_contract OpenAIChat Anthropic true "" (λ _, true) (λ _, true) false callParsed _).
  unfold callParsed. apply Forall_app. split; [apply callContent_single|]. repeat (constructor; try done).
Defined.

Lemma bridge_finish_clean_witness :
  finishes (nt_steps (cleanNative callContent (Some callUsage) "tool_calls")) = 1%nat.
Proof.
  refine (proj2 (proj2 (bridge_finish_clean id (inr 1) OpenAIChat Anthropic true "" (λ _, true) (λ _, true) false
    (cleanNative callContent (Some callUsage) "tool_calls") _ _))).
  - unfold cleanNative, callContent. cbn. repeat (constructor; try done).
  - apply list.Exists_exists. exists (ev_finish "tool_calls"). split; [|done].
    apply (list_elem_of_lookup_2 _ 5). vm_compute. reflexivity.
Defined.

Lemma normalizeStreamUsage_conserves_witness :
  inputTotal Anthropic (mkStreamUsage 7 5 3 0) = 10
  ∧ normalizeStreamUsage (mkStreamUsage 7 5 3 0) Anthropic OpenAIChat = Ok callUsage.
Proof.
  destruct (normalizeStreamUsage_conserves callUsage OpenAIChat Anthropic (mkStreamUsage 7 5 3 0))
    as (_ & _ & _ & _ & _ & _ & _ & H & _ & Hback); [reflexivity|].
  split; [exact H|]. apply Hback; [reflexivity|]. vm_compute. discriminate.
Defined.
