(* ===== verification/Correlation.v ===== *)
(** * Binding MCP calls to conversations

    internal/mcpserver/correlation.go and the observers of observe.go and
    observe_stream.go: an MCP call that arrives out of band is bound to the
    conversation whose response carried it, by the tool and a hash of its
    arguments.  A record grants one binding; ambiguous and contradictory evidence
    grants none.

    The canonical form of JSON arguments and SHA-256 are parameters.  Readings
    of the clock are arguments; a [time.Time] is a number of nanoseconds, the zero
    value the beginning of year 1.  Where the code ranges over a map and the order
    matters, the order is an argument.  The observers take the lock once per step, so
    a history interleaves the single steps of any number of them ([lockStep]). *)

From stdpp Require Import base list strings gmap sets numbers pretty.
From S2P Require Import Prelude ByteStrings StreamEvents GoStrings.

Open Scope Z_scope.

Definition zeroTime : Z := -62135596800 * 1000000000.
Definition correlationTTL : Z := 120 * 1000000000.
Definition correlationLimit : nat := 4096.
Definition connectedTTL : Z := 24 * 3600 * 1000000000.

Record Binding := mkBinding { ConversationID : string; CallID : string }.
#[export] Instance Binding_eq_dec : EqDecision Binding.
Proof. solve_decision. Defined.
#[export] Instance Binding_countable : Countable Binding.
Proof.
  refine (inj_countable' (λ b, (ConversationID b, CallID b)) (λ p, mkBinding p.1 p.2) _). by intros [].
Defined.

Record correlationRecord := mkRecord {
  rec_binding : Binding;
  rec_tool : string;
  rec_hash : string;
  rec_expires : Z;
  rec_consumed : bool }.
Definition consume (r : correlationRecord) : correlationRecord :=
  mkRecord (rec_binding r) (rec_tool r) (rec_hash r) (rec_expires r) true.

Record Correlator := mkCorrelator {
  records : gmap Binding correlationRecord;
  saturatedUntil : Z;
  saturatedTools : gmap string Z;
  connected : gmap string Z }.

Definition NewCorrelator : Correlator := mkCorrelator ∅ zeroTime ∅ ∅.

Definition with_records (m : gmap Binding correlationRecord) (c : Correlator) : Correlator :=
  mkCorrelator m (saturatedUntil c) (saturatedTools c) (connected c).
Definition with_saturation (u : Z) (tools : gmap string Z) (c : Correlator) : Correlator :=
  mkCorrelator (records c) u tools (connected c).
Definition with_connected (m : gmap string Z) (c : Correlator) : Correlator :=
  mkCorrelator (records c) (saturatedUntil c) (saturatedTools c) m.

(** ** Presence *)

(** [!now.Before(expiry)] is expiry. *)
Definition dropExpired {K} `{Countable K} (now : Z) (m : gmap K Z) : gmap K Z := filter (λ p, now < p.2) m.

Definition MarkConnected (conversation : string) (now : Z) (c : Correlator) : Correlator :=
  if String.eqb conversation "" then c
  else
    let m := if (correlationLimit <=? size (connected c))%nat then dropExpired now (connected c) else connected c in
    let m := if bool_decide (is_Some (m !! conversation)) || (size m <? correlationLimit)%nat
             then <[conversation := now + connectedTTL]> m else m in
    with_connected m c.

Definition RecentlyConnected (conversation : string) (now : Z) (c : Correlator) : bool * Correlator :=
  if now <? default zeroTime (connected c !! conversation) then (true, c)
  else (false, with_connected (delete conversation (connected c)) c).

(** ** Tools *)

Definition toolNames : list string := ["torana_namespaces"; "torana_describe"; "torana_search"; "torana_invoke"].

Fixpoint firstTool (name : string) (tools : list string) : string :=
  match tools with
  | [] => ""
  | tool :: tools' => if String.eqb name tool || HasSuffix name ("__" +:+ tool) then tool else firstTool name tools'
  end.
Definition canonicalTool (name : string) : string := firstTool name toolNames.

Definition serverNames (name tool server : string) : bool :=
  negb (String.eqb server "")
  && (String.eqb name ("mcp__" +:+ server +:+ "__" +:+ tool) || String.eqb name (server +:+ "__" +:+ tool)).
Definition responseTool (name : string) (servers : list string) : string :=
  let tool := canonicalTool name in
  if String.eqb tool "" then ""
  else if String.eqb name tool then tool
  else if existsb (serverNames name tool) servers then tool else "".

Section Correlation.
(** The arguments decoded with their numerals kept and marshalled again; [None]
    when they are not exactly one JSON object. *)
Context (canonicalJSON : string → option string) (sha256 : string → string).

Definition argumentHash (input : string) : option string := sha256 <$> canonicalJSON input.

(** ** Records *)

Definition prune (now : Z) (c : Correlator) : Correlator :=
  mkCorrelator (filter (λ p, now < rec_expires p.2) (records c)) (saturatedUntil c)
    (dropExpired now (saturatedTools c)) (connected c).

Definition recordLocked (r : correlationRecord) (now : Z) (c : Correlator) : bool * Correlator :=
  match records c !! rec_binding r with
  | Some old =>
      (false, if negb (String.eqb (rec_tool old) (rec_tool r)) || negb (String.eqb (rec_hash old) (rec_hash r))
              then with_records (<[rec_binding r := consume old]> (records c)) c else c)
  | None =>
      if (correlationLimit <=? size (records c))%nat then
        (false, with_saturation (now + correlationTTL) (saturatedTools c) c)
      else (true, with_records (<[rec_binding r := r]> (records c)) c)
  end.

Definition RecordCall (name input : string) (b : Binding) (now : Z) (c : Correlator) : bool * Correlator :=
  let tool := canonicalTool name in
  match argumentHash input with
  | Some hash =>
      if String.eqb tool "" || String.eqb (ConversationID b) "" || String.eqb (CallID b) "" then (false, c)
      else recordLocked (mkRecord b tool hash (now + correlationTTL) false) now (prune now c)
  | None => (false, c)
  end.

(** [CommitFrom]'s two loops, [order] being the staged records in the order they
    were copied. *)
Definition mergeTools (staged tools : gmap string Z) : gmap string Z :=
  union_with (λ a b, Some (Z.max a b)) (filter (λ p, zeroTime < p.2) staged) tools.
Definition commitRecord (now : Z) (c : Correlator) (r : correlationRecord) : Correlator :=
  if now <? rec_expires r then (recordLocked r now c).2 else c.
Definition CommitFrom (staged : Correlator) (order : list correlationRecord) (now : Z) (c : Correlator) : Correlator :=
  let c := prune now c in
  let c := with_saturation (Z.max (saturatedUntil c) (saturatedUntil staged))
             (mergeTools (saturatedTools staged) (saturatedTools c)) c in
  foldl (commitRecord now) c order.

(** The unconsumed records a call could be. *)
Definition matching (tool hash : string) (c : Correlator) : list correlationRecord :=
  filter (λ r, rec_consumed r = false ∧ rec_tool r = tool ∧ rec_hash r = hash) (map_to_list (records c)).*2.

Definition Consume (name input : string) (now : Z) (c : Correlator) : option Binding * Correlator :=
  let tool := canonicalTool name in
  match argumentHash input with
  | Some hash =>
      if String.eqb tool "" then (None, c)
      else
        let c := prune now c in
        if (now <? saturatedUntil c) || (now <? default zeroTime (saturatedTools c !! tool)) then (None, c)
        else match matching tool hash c with
             | [r] => (Some (rec_binding r), with_records (<[rec_binding r := consume r]> (records c)) c)
             | _ => (None, c)
             end
  | None => (None, c)
  end.

(** ** [ObserveStream] *)

Definition observedArgumentLimit : Z := 64 * 1024.
Definition observedCallLimit : nat := 64.

Record observedCall := mkObserved {
  oc_id : string; oc_tool : string; oc_name : string; oc_arguments : string; oc_complete : bool }.

Record observeVars := mkObserveVars {
  ov_calls : gmap Z observedCall;
  ov_finish : string;
  ov_failed : bool;
  ov_overflow : gset string }.
Definition observeVars0 : observeVars := mkObserveVars ∅ "" false ∅.

Context (shape conversation requestID : string) (servers : list string).

Definition observeStart (v : observeVars) (e : StreamEvent) : observeVars :=
  match evToolCallStart e with
  | None => v
  | Some start =>
      let tool := responseTool (tcs_name start) servers in
      if String.eqb tool "" then v
      else
        let failed := ov_failed v || (tcs_index start <? 0) || bool_decide (is_Some (ov_calls v !! tcs_index start)) in
        if (observedCallLimit <=? size (ov_calls v))%nat then
          mkObserveVars (ov_calls v) (ov_finish v) failed ({[tool]} ∪ ov_overflow v)
        else mkObserveVars (<[tcs_index start := mkObserved (tcs_id start) tool (tcs_name start) "" false]> (ov_calls v))
               (ov_finish v) failed (ov_overflow v)
  end.

Definition observeDelta (v : observeVars) (e : StreamEvent) : observeVars :=
  match evToolCallDelta e with
  | None => v
  | Some d =>
      match ov_calls v !! tcd_index d with
      | None => v
      | Some call =>
          let failed := ov_failed v || oc_complete call || bool_decide (tcd_input d ≠ None) in
          if observedArgumentLimit - len (oc_arguments call) <? len (tcd_arguments d) then
            mkObserveVars (ov_calls v) (ov_finish v) failed ({[oc_tool call]} ∪ ov_overflow v)
          else if bool_decide (oc_tool call ∈ ov_overflow v) then
            mkObserveVars (ov_calls v) (ov_finish v) failed (ov_overflow v)
          else mkObserveVars
                 (<[tcd_index d := mkObserved (oc_id call) (oc_tool call) (oc_name call)
                                     (oc_arguments call +:+ tcd_arguments d) (oc_complete call)]> (ov_calls v))
                 (ov_finish v) failed (ov_overflow v)
      end
  end.

Definition observeEnd (v : observeVars) (e : StreamEvent) : observeVars :=
  match evToolCallEnd e with
  | None => v
  | Some i =>
      match ov_calls v !! i with
      | None => v
      | Some call =>
          mkObserveVars (<[i := mkObserved (oc_id call) (oc_tool call) (oc_name call) (oc_arguments call) true]> (ov_calls v))
            (ov_finish v) (ov_failed v) (ov_overflow v)
      end
  end.

(** What the tee records of one event. *)
Definition observeEvent (v : observeVars) (e : StreamEvent) : observeVars :=
  let v := mkObserveVars (ov_calls v) (if String.eqb (FinishReason e) "" then ov_finish v else FinishReason e)
             (ov_failed v || bool_decide (Error e ≠ None)) (ov_overflow v) in
  observeEnd (observeDelta (observeStart v e) e) e.

Definition cleanFinish (finish : string) : bool :=
  bool_decide (finish ∈ ["stop"; "tool_calls"; "tool_use"; "end_turn"; "STOP"]).
Definition knownShape : bool :=
  bool_decide (shape ∈ ["anthropic"; "openai-chat"; "openai-responses"; "gemini"; "gemini-codeassist"]).

Definition observedID (id name : string) (index : Z) : string :=
  if HasPrefix shape "gemini" && (String.eqb id "" || String.eqb id name) then
    if String.eqb requestID "" then "" else "gemini:" +:+ requestID +:+ ":" +:+ pretty index
  else id.

(** What an observer does under one acquisition of the lock. *)
Inductive lockStep :=
| SaturateTools (tools : gset string)
| RecordOne (tool arguments : string) (b : Binding).
Definition applyStep (now : Z) (c : Correlator) (s : lockStep) : Correlator :=
  match s with
  | SaturateTools tools =>
      with_saturation (saturatedUntil c) (set_fold (λ tool m, <[tool := now + correlationTTL]> m) (saturatedTools c) tools) c
  | RecordOne tool arguments b => (RecordCall tool arguments b now c).2
  end.

Definition recordObserved (overflow : gset string) (x : Z * observedCall) : option lockStep :=
  let '(index, call) := x in
  if bool_decide (oc_tool call ∈ overflow) then None
  else Some (RecordOne (oc_tool call) (oc_arguments call) (mkBinding conversation (observedID (oc_id call) (oc_name call) index))).

(** [range calls]: every entry once, in the order of [order] where that is one of
    their indexes, else in some order. *)
Definition rangeCalls (order : list Z) (calls : gmap Z observedCall) : list (Z * observedCall) :=
  if bool_decide (order ≡ₚ (map_to_list calls).*1) then omap (λ i, (λ call, (i, call)) <$> calls !! i) order
  else map_to_list calls.

(** After the source has closed: the steps taken one after another, each under the
    lock and with the time read once before them. *)
Definition observeClose (ctxErr : bool) (v : observeVars) (order : list Z) : list lockStep :=
  if ctxErr || ov_failed v then []
  else
    (if bool_decide (ov_overflow v = ∅) then [] else [SaturateTools (ov_overflow v)])
    ++ (if negb (cleanFinish (ov_finish v)) || negb knownShape then []
        else if existsb (λ x, negb (oc_complete x.2)) (map_to_list (ov_calls v)) then []
        else omap (recordObserved (ov_overflow v)) (rangeCalls order (ov_calls v))).

(** [delivered]: how many events the client took before the context ended, all
    of them when [None].  The events forwarded, and the steps on the correlator. *)
Definition ObserveStream (delivered : option nat) (ctxErr : bool) (input : list StreamEvent) (order : list Z)
    : list StreamEvent * list lockStep :=
  match delivered with
  | Some n => (take n input, [])
  | None => (input, observeClose ctxErr (foldl observeEvent observeVars0 input) order)
  end.

(** ** [ObserveResponse] *)

Record responseCall := mkResponseCall { rc_ID : string; rc_Name : string; rc_ArgumentsJSON : string }.
(** The part of [engine.ChatResponse] it reads: a block's tool call, if any. *)
Record observedResponse := mkObservedResponse {
  or_UpstreamStatus : Z;
  or_FinishReason : string;
  or_Blocks : list (option responseCall) }.

(** One pass of the loop. *)
Definition observeBlock (i : nat) (b : option responseCall) : option lockStep :=
  match b with
  | None => None
  | Some call =>
      let tool := responseTool (rc_Name call) servers in
      if String.eqb tool "" then None
      else Some (RecordOne tool (rc_ArgumentsJSON call)
                   (mkBinding conversation (observedID (rc_ID call) (rc_Name call) (Z.of_nat i))))
  end.

Definition responseSteps (response : option observedResponse) : list lockStep :=
  match response with
  | None => []
  | Some r =>
      if (or_UpstreamStatus r <? 200) || (300 <=? or_UpstreamStatus r) || negb (cleanFinish (or_FinishReason r)) || negb knownShape
      then []
      else omap id (imap observeBlock (or_Blocks r))
  end.

Definition countRecorded (now : Z) (x : nat * Correlator) (s : lockStep) : nat * Correlator :=
  match s with
  | SaturateTools _ => (x.1, applyStep now x.2 s)
  | RecordOne tool arguments b => let '(ok, c) := RecordCall tool arguments b now x.2 in ((if ok then S x.1 else x.1), c)
  end.
(** Its steps when nothing runs in between, and the number of records it reports. *)
Definition ObserveResponse (response : option observedResponse) (now : Z) (c : Correlator) : nat * Correlator :=
  foldl (countRecorded now) (O, c) (responseSteps response).
End Correlation.

(** * Binding MCP calls to conversations: proofs

    [keyed] is the invariant of the record table.  [settled] is what a binding's
    record is after it has been granted; every operation keeps it until the record
    expires, whatever responses are replayed. *)

Open Scope Z_scope.

Section Proofs.
Context (canonicalJSON : string → option string) (sha256 : string → string).

Definition keyed (c : Correlator) : Prop := ∀ b r, records c !! b = Some r → rec_binding r = b.
Definition bounded (c : Correlator) : Prop :=
  (size (records c) ≤ correlationLimit)%nat ∧ (size (connected c) ≤ correlationLimit)%nat.

(** ** One operation *)

Inductive Op :=
| OpRecord (name input : string) (b : Binding)
| OpCommit (staged : Correlator) (order : list correlationRecord)
| OpConsume (name input : string)
| OpMark (conversation : string)
| OpRecent (conversation : string)
| OpStream (shape conversation requestID : string) (servers : list string) (delivered : option nat) (ctxErr : bool)
    (input : list StreamEvent) (order : list Z) (step : nat)
| OpResponse (shape conversation requestID : string) (servers : list string) (response : option observedResponse) (step : nat).

(** One step of an observer. *)
Definition oneStep (steps : list lockStep) (i : nat) (now : Z) (c : Correlator) : Correlator :=
  from_option (applyStep canonicalJSON sha256 now c) c (steps !! i).

Definition perform (op : Op) (now : Z) (c : Correlator) : option Binding * Correlator :=
  match op with
  | OpRecord name input b => (None, (RecordCall canonicalJSON sha256 name input b now c).2)
  | OpCommit staged order => (None, CommitFrom staged order now c)
  | OpConsume name input => Consume canonicalJSON sha256 name input now c
  | OpMark conversation => (None, MarkConnected conversation now c)
  | OpRecent conversation => (None, (RecentlyConnected conversation now c).2)
  | OpStream shape conversation requestID servers delivered ctxErr input order step =>
      (None, oneStep (ObserveStream shape conversation requestID servers delivered ctxErr input order).2 step now c)
  | OpResponse shape conversation requestID servers response step =>
      (None, oneStep (responseSteps shape conversation requestID servers response) step now c)
  end.

(** The records an operation can put in the table: of a host-observed call, with a
    tool name and arguments; a streamed call only from a stream that was
    delivered, completed cleanly and had every call complete. *)
Definition recorded (name input : string) (b : Binding) (now : Z) (r : correlationRecord) : Prop :=
  canonicalTool name ≠ "" ∧ ConversationID b ≠ "" ∧ CallID b ≠ ""
  ∧ ∃ hash, argumentHash canonicalJSON sha256 input = Some hash
            ∧ r = mkRecord b (canonicalTool name) hash (now + correlationTTL) false.

Definition offers (op : Op) (now : Z) (r : correlationRecord) : Prop :=
  match op with
  | OpRecord name input b => recorded name input b now r
  | OpCommit staged order => r ∈ order ∧ now < rec_expires r
  | OpStream shape conversation requestID servers delivered ctxErr input order _ =>
      let v := foldl (observeEvent servers) observeVars0 input in
      delivered = None ∧ ctxErr = false ∧ ov_failed v = false ∧ cleanFinish (ov_finish v) = true ∧ knownShape shape = true
      ∧ map_Forall (λ _ call, oc_complete call = true) (ov_calls v)
      ∧ ∃ i call, ov_calls v !! i = Some call ∧ (oc_tool call ∉ ov_overflow v)
          ∧ recorded (oc_tool call) (oc_arguments call)
              (mkBinding conversation (observedID shape requestID (oc_id call) (oc_name call) i)) now r
  | OpResponse shape conversation requestID servers response _ =>
      ∃ resp i call, response = Some resp ∧ 200 ≤ or_UpstreamStatus resp ∧ or_UpstreamStatus resp < 300 ∧ cleanFinish (or_FinishReason resp) = true
        ∧ knownShape shape = true ∧ or_Blocks resp !! i = Some (Some call)
        ∧ recorded (responseTool (rc_Name call) servers) (rc_ArgumentsJSON call)
            (mkBinding conversation (observedID shape requestID (rc_ID call) (rc_Name call) (Z.of_nat i))) now r
  | _ => False
  end.

(** The steps of a response one after another are the call. *)
Lemma ObserveResponse_sequential shape conversation requestID servers response now c :
  (ObserveResponse canonicalJSON sha256 shape conversation requestID servers response now c).2
  = foldl (applyStep canonicalJSON sha256 now) c (responseSteps shape conversation requestID servers response).
Proof.
  unfold ObserveResponse. generalize (responseSteps shape conversation requestID servers response). intros l.
  assert (∀ n, (foldl (countRecorded canonicalJSON sha256 now) (n, c) l).2 = foldl (applyStep canonicalJSON sha256 now) c l) as H; [|done].
  revert c. induction l as [|s l IH]; intros c n; [done|]. cbn [foldl]. destruct s as [tools|tool arguments b]; cbn; [apply IH|].
  destruct (RecordCall _ _ _ _ _ _ _). apply IH.
Qed.

(** A history: the bindings granted and the correlator it leaves. *)
Fixpoint run (c : Correlator) (ops : list (Op * Z)) : list Binding * Correlator :=
  match ops with
  | [] => ([], c)
  | (op, now) :: ops' =>
      let '(granted, c) := perform op now c in
      let '(rest, c) := run c ops' in
      (match granted with Some b => b :: rest | None => rest end, c)
  end.

(** A property that the four steps on records keep is kept by every operation. *)
Section Kept.
Context (P : Correlator → Prop) (now : Z).
Context (P_prune : ∀ c, P c → P (prune now c)).
Context (Q : correlationRecord → Prop).
Context (P_record : ∀ r c, Q r → P c → P (recordLocked r now c).2).
Context (P_other : ∀ c c', records c' = records c → (size (connected c') ≤ size (connected c) ∨ (size (connected c') ≤ correlationLimit))%nat → P c → P c').

Lemma RecordCall_kept name input b c : (∀ r, recorded name input b now r → Q r) → P c →
  P (RecordCall canonicalJSON sha256 name input b now c).2.
Proof.
  intros HQ Hc. unfold RecordCall. destruct (argumentHash _ _ _) as [hash|] eqn:Hh; [|done].
  destruct (_ || _) eqn:E; [done|]. rewrite !orb_false_iff, !String.eqb_neq in E. destruct E as [[Ht Hv] Hid].
  apply P_record; [|by apply P_prune]. apply HQ. split_and!; try done. by exists hash.
Qed.

Lemma CommitFrom_kept staged order c : (∀ r, offers (OpCommit staged order) now r → Q r) → P c → P (CommitFrom staged order now c).
Proof.
  intros HQ Hc. unfold CommitFrom. set (c0 := with_saturation _ _ _).
  assert (H0 : P c0) by (apply (P_other (prune now c)); [done|by left|by apply P_prune]). clearbody c0. clear Hc. cbn in HQ.
  revert c0 H0. induction order as [|r order IH]; intros c0 H0; [done|]. cbn. apply IH.
  - intros r' [Hin He]. apply HQ. split; [by right|done].
  - unfold commitRecord. destruct (Z.ltb_spec now (rec_expires r)); [|done]. apply P_record; [|done]. apply HQ. split; [left|done].
Qed.

(** A step of an observer keeps it when what it records may be recorded. *)
Lemma oneStep_kept steps i c :
  (∀ tool arguments b, RecordOne tool arguments b ∈ steps → ∀ r, recorded tool arguments b now r → Q r) → P c →
  P (oneStep steps i now c).
Proof.
  intros HQ Hc. unfold oneStep. destruct (steps !! i) as [s|] eqn:E; [|done]. apply list_elem_of_lookup_2 in E. cbn.
  destruct s as [tools|tool arguments b]; cbn; [apply (P_other c); [done|by left|done]|]. apply RecordCall_kept; [by apply HQ|done].
Qed.

Lemma rangeCalls_in order calls i call : (i, call) ∈ rangeCalls order calls → calls !! i = Some call.
Proof.
  unfold rangeCalls. case_bool_decide; [|by rewrite elem_of_map_to_list]. rewrite list_elem_of_omap.
  intros (j & _ & (x & Hx & [= -> ->])%fmap_Some). done.
Qed.

Lemma ObserveStream_steps shape conversation requestID servers delivered ctxErr input order step tool arguments b :
  RecordOne tool arguments b ∈ (ObserveStream shape conversation requestID servers delivered ctxErr input order).2 →
  ∀ r, recorded tool arguments b now r → offers (OpStream shape conversation requestID servers delivered ctxErr input order step) now r.
Proof.
  unfold ObserveStream. destruct delivered; [by intros ?%not_elem_of_nil|]. cbn [snd offers].
  generalize (foldl (observeEvent servers) observeVars0 input). intros v. cbv zeta. unfold observeClose.
  destruct (ctxErr || ov_failed v) eqn:Hf; [by intros ?%not_elem_of_nil|]. apply orb_false_iff in Hf as [Hctx Hf].
  intros [Hin|Hin]%elem_of_app r Hr.
  { case_bool_decide; [by apply not_elem_of_nil in Hin|]. by apply list_elem_of_singleton in Hin. }
  destruct (_ || _) eqn:Hs; [by apply not_elem_of_nil in Hin|]. apply orb_false_iff in Hs as [Hs1%negb_false_iff Hs2%negb_false_iff].
  destruct (existsb _ _) eqn:Hx; [by apply not_elem_of_nil in Hin|]. split_and!; try done.
  - intros i call Hi. destruct (oc_complete call) eqn:Ec; [done|].
    enough (existsb (λ x, negb (oc_complete x.2)) (map_to_list (ov_calls v)) = true) by congruence. apply existsb_exists.
    exists (i, call). split; [by apply list_elem_of_In, elem_of_map_to_list|]. cbn. by rewrite Ec.
  - apply list_elem_of_omap in Hin as ([i call] & Hin%rangeCalls_in & Hrec). exists i, call. unfold recordObserved in Hrec.
    case_bool_decide; [done|]. injection Hrec as <- <- <-. done.
Qed.

Lemma ObserveResponse_steps shape conversation requestID servers response step tool arguments b :
  RecordOne tool arguments b ∈ responseSteps shape conversation requestID servers response →
  ∀ r, recorded tool arguments b now r → offers (OpResponse shape conversation requestID servers response step) now r.
Proof.
  unfold responseSteps. destruct response as [resp|]; [|by intros ?%not_elem_of_nil].
  destruct (_ || _) eqn:E; [by intros ?%not_elem_of_nil|].
  rewrite !orb_false_iff, !negb_false_iff, Z.ltb_ge, Z.leb_gt in E. destruct E as [[[Hlo Hhi] Hfin] Hsh].
  intros (x & (i & blk & -> & Hi)%elem_of_lookup_imap & Hstep)%list_elem_of_omap r Hr. cbn in Hstep. unfold observeBlock in Hstep.
  destruct blk as [call|]; [|done]. case_match; [done|]. injection Hstep as <- <- <-. exists resp, i, call. done.
Qed.

Lemma MarkConnected_kept conversation c : P c → P (MarkConnected conversation now c).
Proof.
  intros Hc. unfold MarkConnected. case_match; [done|].
  apply (P_other c); [done| |done]. cbn [with_connected connected].
  set (m := if (correlationLimit <=? size (connected c))%nat then _ else _).
  assert (Hm : (size m ≤ size (connected c))%nat).
  { unfold m, dropExpired. case_match; [|done]. apply map_subseteq_size, map_filter_subseteq. }
  case_match eqn:E; [|by left]. apply orb_true_iff in E as [E%bool_decide_eq_true|E%Nat.ltb_lt].
  - left. rewrite map_size_insert_Some; done.
  - right. rewrite map_size_insert. destruct (m !! conversation); cbn; lia.
Qed.

Lemma RecentlyConnected_kept conversation c : P c → P (RecentlyConnected conversation now c).2.
Proof.
  intros Hc. unfold RecentlyConnected. case_match; [done|]. apply (P_other c); [done| |done]. left. cbn.
  apply map_subseteq_size, delete_subseteq.
Qed.

(** Granting a binding changes the granted record only. *)
Context (P_consume : ∀ c r, P c → records c !! rec_binding r = Some r →
  P (with_records (<[rec_binding r := consume r]> (records c)) c)).
Context (P_keyed : ∀ c, P c → keyed c).

Lemma matching_spec tool hash c r : r ∈ matching tool hash c ↔
  ∃ b, records c !! b = Some r ∧ rec_consumed r = false ∧ rec_tool r = tool ∧ rec_hash r = hash.
Proof.
  unfold matching. rewrite list_elem_of_filter, list_elem_of_fmap. split.
  - intros (Hm & [b r'] & -> & Hin%elem_of_map_to_list). by exists b.
  - intros (b & Hb & Hm). split; [done|]. exists (b, r). by rewrite elem_of_map_to_list.
Qed.

Lemma Consume_kept name input c : P c → P (Consume canonicalJSON sha256 name input now c).2.
Proof.
  intros Hc. unfold Consume. destruct (argumentHash _ _ _) as [hash|]; [|done]. case_match; [done|].
  assert (H0 : P (prune now c)) by by apply P_prune. case_match; [done|].
  destruct (matching _ _ _) as [|r [|]] eqn:Hm; try done. cbn [snd]. apply P_consume; [done|].
  assert (r ∈ matching (canonicalTool name) hash (prune now c)) as (b & Hb & _)%matching_spec by (rewrite Hm; left).
  by rewrite (P_keyed _ H0 _ _ Hb).
Qed.

Lemma perform_kept op c : (∀ r, offers op now r → Q r) → P c → P (perform op now c).2.
Proof.
  destruct op; intros HQ; cbn; [by apply RecordCall_kept|by apply CommitFrom_kept|apply Consume_kept|apply MarkConnected_kept
    |apply RecentlyConnected_kept
    |intros Hc; apply oneStep_kept; [intros tool arguments b Hin r Hr; apply HQ; by eapply ObserveStream_steps|done]
    |intros Hc; apply oneStep_kept; [intros tool arguments b Hin r Hr; apply HQ; by eapply ObserveResponse_steps|done]].
Qed.
End Kept.

(** ** The invariants *)

Lemma keyed_insert c r : keyed c → keyed (with_records (<[rec_binding r := r]> (records c)) c).
Proof. intros H b r'. cbn. rewrite lookup_insert_Some. intros [[<- <-]|[_ Hb]]; [done|by apply H]. Qed.

Lemma keyed_consume c r b : keyed c → rec_binding r = b → keyed (with_records (<[b := consume r]> (records c)) c).
Proof. intros H <- b' r'. cbn. rewrite lookup_insert_Some. intros [[<- <-]|[_ Hb]]; [done|by apply H]. Qed.

Lemma keyed_prune now c : keyed c → keyed (prune now c).
Proof. intros H b r. cbn. intros [Hb _]%map_lookup_filter_Some. by apply H. Qed.

Lemma keyed_record now r c : keyed c → keyed (recordLocked r now c).2.
Proof.
  intros H. unfold recordLocked. destruct (records c !! rec_binding r) as [old|] eqn:Ho.
  - cbn. case_match; [|done]. apply keyed_consume; [done|]. by apply H.
  - case_match; [done|]. by apply keyed_insert.
Qed.

Lemma perform_keyed op now c : keyed c → keyed (perform op now c).2.
Proof.
  intros H. refine (perform_kept keyed now (keyed_prune now) (λ _, True) (λ r c0 _, keyed_record now r c0) _ _ _ op c (λ _ _, I) H).
  - intros c0 c1 Hr _ Hk b r. rewrite Hr. apply Hk.
  - intros c0 r Hk _. by apply keyed_consume.
  - done.
Qed.

Definition consistent (c : Correlator) : Prop := keyed c ∧ bounded c.

Lemma consistent_new : consistent NewCorrelator.
Proof. split; [done|]. split; cbn; rewrite map_size_empty; unfold correlationLimit; lia. Qed.

Lemma recordLocked_size now r c : bounded c → bounded (recordLocked r now c).2.
Proof.
  intros [Hr Hc]. unfold recordLocked. destruct (records c !! rec_binding r) as [old|] eqn:Ho.
  - cbn. case_match; [|done]. split; [|done]. cbn. by rewrite map_size_insert_Some by (by eexists).
  - case_match eqn:E; [done|]. apply Nat.leb_gt in E. split; [|done]. cbn. rewrite map_size_insert_None by done. lia.
Qed.

Lemma perform_consistent op now c : consistent c → consistent (perform op now c).2.
Proof.
  intros H. refine (perform_kept consistent now _ (λ _, True) _ _ _ _ op c (λ _ _, I) H).
  - intros c0 [Hk [Hr Hc]]. split; [by apply keyed_prune|]. split; [|done]. cbn.
    etrans; [apply map_subseteq_size, map_filter_subseteq|done].
  - intros r c0 _ [Hk Hb]. split; [by apply keyed_record|by apply recordLocked_size].
  - intros c0 c1 Hr Hc [Hk [Hb1 Hb2]]. split; [intros b r; rewrite Hr; apply Hk|]. split; [by rewrite Hr|]. lia.
  - intros c0 r [Hk [Hr Hc]] Hl. split; [by apply keyed_consume|]. split; [|done]. cbn. rewrite map_size_insert_Some; [done|].
    by eexists.
  - by intros c0 [Hk _].
Qed.

Lemma run_consistent ops c : consistent c → consistent (run c ops).2.
Proof.
  revert c. induction ops as [|[op now] ops IH]; intros c H; [done|]. cbn.
  destruct (perform op now c) as [g c1] eqn:E. specialize (IH c1). destruct (run c1 ops) as [rest c2]. apply IH.
  replace c1 with (perform op now c).2 by by rewrite E. by apply perform_consistent.
Qed.

(** The record of a granted binding, until it expires. *)
Definition settled (b : Binding) (e : Z) (c : Correlator) : Prop :=
  keyed c ∧ ∃ r, records c !! b = Some r ∧ rec_consumed r = true ∧ rec_expires r = e.

Lemma perform_settled op now c b e : now < e → settled b e c → settled b e (perform op now c).2.
Proof.
  intros He H. refine (perform_kept (settled b e) now _ (λ _, True) _ _ _ _ op c (λ _ _, I) H).
  - intros c0 (Hk & r & Hr & Hc & Hx). split; [by apply keyed_prune|]. exists r. split; [|done]. cbn.
    apply map_lookup_filter_Some. split; [done|]. cbn. lia.
  - intros r c0 _ (Hk & r0 & Hr & Hc & Hx). split; [by apply keyed_record|]. unfold recordLocked.
    destruct (decide (rec_binding r = b)) as [<-|Hne].
    + rewrite Hr. cbn. case_match; [|by exists r0]. exists (consume r0). cbn. by rewrite lookup_insert_eq.
    + exists r0. destruct (records c0 !! rec_binding r); cbn; case_match; try done; cbn; by rewrite lookup_insert_ne.
  - intros c0 c1 Hr _ (Hk & r & Hb & Hc & Hx). split; [intros b' r'; rewrite Hr; apply Hk|]. exists r. by rewrite Hr.
  - intros c0 r (Hk & r0 & Hr & Hc & Hx) Hl. split; [by apply keyed_consume|].
    destruct (decide (rec_binding r = b)) as [<-|Hne].
    + exists (consume r). cbn. rewrite lookup_insert_eq. split; [done|]. split; [done|]. congruence.
    + exists r0. cbn. by rewrite lookup_insert_ne.
  - by intros c0 [Hk _].
Qed.

(** ** What [Consume] grants *)

(** The evidence for a call: live, unconsumed, of the same tool and arguments. *)
Definition candidate (tool hash : string) (now : Z) (c : Correlator) (b : Binding) (r : correlationRecord) : Prop :=
  records c !! b = Some r ∧ now < rec_expires r ∧ rec_consumed r = false ∧ rec_tool r = tool ∧ rec_hash r = hash.
Definition saturated (tool : string) (now : Z) (c : Correlator) : Prop :=
  now < saturatedUntil c ∨ ∃ e, saturatedTools c !! tool = Some e ∧ now < e.

Lemma matching_prune tool hash now c r : r ∈ matching tool hash (prune now c) ↔ ∃ b, candidate tool hash now c b r.
Proof.
  rewrite matching_spec. unfold candidate. cbn. setoid_rewrite map_lookup_filter_Some. naive_solver.
Qed.

Lemma matching_nodup tool hash c : keyed c → NoDup (matching tool hash c).
Proof.
  intros Hk. unfold matching. apply list.NoDup_filter. apply NoDup_fmap_2_strong; [|apply NoDup_map_to_list].
  intros [b1 r1] [b2 r2] H1%elem_of_map_to_list H2%elem_of_map_to_list. cbn. intros ->.
  by rewrite <- (Hk _ _ H1), <- (Hk _ _ H2).
Qed.

Lemma Consume_inv name input now c b c' : keyed c → Consume canonicalJSON sha256 name input now c = (Some b, c') →
  ∃ hash r, argumentHash canonicalJSON sha256 input = Some hash ∧ canonicalTool name ≠ ""
    ∧ ¬ saturated (canonicalTool name) now (prune now c)
    ∧ candidate (canonicalTool name) hash now c b r
    ∧ (∀ b' r', candidate (canonicalTool name) hash now c b' r' → b' = b)
    ∧ c' = with_records (<[b := consume r]> (records (prune now c))) (prune now c).
Proof.
  intros Hk. unfold Consume. destruct (argumentHash _ _ _) as [hash|]; [|done].
  destruct (String.eqb_spec (canonicalTool name) "") as [|Ht]; [done|]. destruct (_ || _) eqn:Hs; [done|].
  destruct (matching _ _ _) as [|r [|]] eqn:Hm; try done. intros [= <- <-]. exists hash, r.
  assert (r ∈ matching (canonicalTool name) hash (prune now c)) as (b & Hc)%matching_prune by (rewrite Hm; left).
  rewrite (Hk _ _ (proj1 Hc)) in *. split_and!; try done.
  - apply orb_false_iff in Hs as [Hs1%Z.ltb_ge Hs2%Z.ltb_ge]. intros [?|(e & He & ?)]; [cbn in *; lia|].
    rewrite He in Hs2. cbn in Hs2. lia.
  - intros b' r' Hc'. assert (r' ∈ matching (canonicalTool name) hash (prune now c)) as Hin by (apply matching_prune; eauto).
    rewrite Hm in Hin. apply list_elem_of_singleton in Hin as ->. by rewrite <- (Hk _ _ (proj1 Hc)), <- (Hk _ _ (proj1 Hc')).
Qed.

Lemma Consume_complete name input now c b r hash : keyed c → zeroTime ≤ now →
  argumentHash canonicalJSON sha256 input = Some hash → canonicalTool name ≠ "" →
  ¬ saturated (canonicalTool name) now (prune now c) → candidate (canonicalTool name) hash now c b r →
  (∀ b' r', candidate (canonicalTool name) hash now c b' r' → b' = b) →
  (Consume canonicalJSON sha256 name input now c).1 = Some b.
Proof.
  intros Hk Hz Hh Ht Hs Hc Hu. unfold Consume. rewrite Hh. apply String.eqb_neq in Ht. rewrite Ht.
  destruct (_ || _) eqn:E.
  - exfalso. apply Hs. apply orb_true_iff in E as [E%Z.ltb_lt|E%Z.ltb_lt]; [by left|right].
    destruct (saturatedTools _ !! _) as [e|]; [by exists e|]. cbn in E. lia.
  - pose proof (matching_nodup (canonicalTool name) hash (prune now c) (keyed_prune now c Hk)) as Hnd.
    assert (Hall : ∀ r', r' ∈ matching (canonicalTool name) hash (prune now c) → r' = r).
    { intros r' (b' & Hc')%matching_prune. pose proof (Hu _ _ Hc') as ->. destruct Hc as [Hc _], Hc' as [Hc' _]. congruence. }
    assert (Hin : r ∈ matching (canonicalTool name) hash (prune now c)) by (apply matching_prune; eauto).
    destruct (matching _ _ _) as [|r1 [|r2 l]]; [by apply not_elem_of_nil in Hin| |].
    + cbn. rewrite (Hall r1) by left. f_equal. by apply Hk, Hc.
    + exfalso. apply list.NoDup_cons in Hnd as [Hnd _]. apply Hnd. rewrite (Hall r1), <- (Hall r2); [left|right; left|left].
Qed.

(** Every record of a correlator comes from an offer of its history. *)
Definition sameEvidence (r0 r : correlationRecord) : Prop :=
  rec_binding r0 = rec_binding r ∧ rec_tool r0 = rec_tool r ∧ rec_hash r0 = rec_hash r ∧ rec_expires r0 = rec_expires r.
Definition backed (hist : list (Op * Z)) (c : Correlator) : Prop :=
  keyed c ∧ ∀ b r, records c !! b = Some r → ∃ op t r0, (op, t) ∈ hist ∧ offers op t r0 ∧ sameEvidence r0 r.

Lemma perform_backed hist op now c : (op, now) ∈ hist → backed hist c → backed hist (perform op now c).2.
Proof.
  intros Hin H. refine (perform_kept (backed hist) now _ (offers op now) _ _ _ _ op c (λ _, id) H).
  - intros c0 [Hk Hb]. split; [by apply keyed_prune|]. intros b r. cbn. intros [Hr _]%map_lookup_filter_Some. by eapply Hb.
  - intros r c0 Hr [Hk Hb]. split; [by apply keyed_record|]. intros b r'. unfold recordLocked.
    destruct (records c0 !! rec_binding r) as [old|] eqn:Ho; cbn; (case_match; [|]); try apply Hb; cbn;
      rewrite lookup_insert_Some; (intros [[<- <-]|[_ Hr']]; [|by eapply Hb]).
    + destruct (Hb _ _ Ho) as (op0 & t & r0 & ? & ? & ?). by exists op0, t, r0.
    + by exists op, now, r.
  - intros c0 c1 Hr _ [Hk Hb]. split; [intros b r; rewrite Hr; apply Hk|]. intros b r. rewrite Hr. apply Hb.
  - intros c0 r [Hk Hb] Hr. split; [by apply keyed_consume|]. intros b r'. cbn. rewrite lookup_insert_Some.
    intros [[<- <-]|[_ Hr']]; [|by eapply Hb]. destruct (Hb _ _ Hr) as (op0 & t & r0 & ? & ? & ?). by exists op0, t, r0.
  - by intros c0 [Hk _].
Qed.

Lemma run_backed hist ops c : (∀ x, x ∈ ops → x ∈ hist) → backed hist c → backed hist (run c ops).2.
Proof.
  revert c. induction ops as [|[op now] ops IH]; intros c Hin H; [done|]. cbn.
  destruct (perform op now c) as [g c1] eqn:E. specialize (IH c1). destruct (run c1 ops) as [rest c2].
  apply IH; [intros x Hx; apply Hin; by right|].
  replace c1 with (perform op now c).2 by by rewrite E. apply perform_backed; [apply Hin; left|done].
Qed.

Lemma run_settled ops c b e : (∀ op t, (op, t) ∈ ops → t < e) → settled b e c → b ∉ (run c ops).1.
Proof.
  revert c. induction ops as [|[op now] ops IH]; intros c Ht H; [by apply not_elem_of_nil|]. cbn.
  assert (Hnow : now < e) by (apply (Ht op); left). pose proof (perform_settled op now c b e Hnow H) as H1.
  destruct (perform op now c) as [g c1] eqn:E. cbn in H1. specialize (IH c1 ltac:(intros op0 t0 Hx; apply (Ht op0); by right) H1).
  destruct (run c1 ops) as [rest c2]. cbn in *. destruct g as [b'|]; [|done]. intros [<-|Hin]%elem_of_cons; [|done].
  destruct op; cbn in E; try (by injection E). destruct H as (Hk & r & Hr & Hc & _).
  destruct (Consume_inv _ _ _ _ _ _ Hk E) as (hash & r' & _ & _ & _ & (Hr' & _ & Hc' & _) & _). congruence.
Qed.
End Proofs.

(** ** Theorems *)

(** An MCP call is bound exactly when the evidence is unambiguous: for a
    table keyed by binding (as every reachable one is), [Consume] returns [b] if
    and only if the arguments have a hash, the name is a Torana tool that is not
    saturated, [b]'s record is live, unconsumed and of that tool and hash, and no
    other binding has such a record. *)
Theorem Consume_exact canonicalJSON sha256 name input now c b : keyed c → zeroTime ≤ now →
  (Consume canonicalJSON sha256 name input now c).1 = Some b ↔
  ∃ hash r, argumentHash canonicalJSON sha256 input = Some hash ∧ canonicalTool name ≠ ""
    ∧ ¬ saturated (canonicalTool name) now (prune now c) ∧ candidate (canonicalTool name) hash now c b r
    ∧ ∀ b' r', candidate (canonicalTool name) hash now c b' r' → b' = b.
Proof.
  intros Hk Hz. split.
  - destruct (Consume _ _ _ _ _ _) as [g c'] eqn:E. cbn. intros ->.
    destruct (Consume_inv _ _ _ _ _ _ _ _ Hk E) as (hash & r & ? & ? & ? & ? & ? & _). exists hash, r. done.
  - intros (hash & r & ? & ? & ? & ? & ?). by eapply Consume_complete.
Qed.

(** A binding is granted once: after [Consume] returns [b], no operation of
    any later history, however responses are recorded, staged, committed or
    replayed, makes a [Consume] return [b] again before the granted record's own
    expiry. *)
Theorem Consume_once canonicalJSON sha256 name input now c b c' : keyed c →
  Consume canonicalJSON sha256 name input now c = (Some b, c') →
  ∃ r, records c !! b = Some r ∧ now < rec_expires r ∧
    ∀ ops, (∀ op t, (op, t) ∈ ops → t < rec_expires r) → b ∉ (run canonicalJSON sha256 c' ops).1.
Proof.
  intros Hk H. destruct (Consume_inv _ _ _ _ _ _ _ _ Hk H) as (hash & r & _ & _ & _ & (Hr & He & _) & _ & ->).
  exists r. split; [done|]. split; [done|]. intros ops Ht. apply (run_settled _ _ ops _ b (rec_expires r) Ht).
  assert (rec_binding r = b) as Hb by by apply Hk. split.
  - apply keyed_consume; [by apply keyed_prune|done].
  - exists (consume r). cbn. by rewrite lookup_insert_eq.
Qed.

(** C31. Bindings rest on host-observed evidence: in every history from a new
    correlator, if [Consume] grants [b], then an earlier operation offered a
    record of [b] with this tool and these arguments that has not expired: a
    recorded call, a committed staged record, a successful response, or a stream
    that was delivered in full, ended cleanly without an error or a repeated index,
    and whose every Torana call was complete, the offered one within the limits.
    The tables never hold more than 4096 entries. *)
Theorem binding_evidence canonicalJSON sha256 hist name input now b :
  let c := (run canonicalJSON sha256 NewCorrelator hist).2 in
  bounded c ∧
  ((Consume canonicalJSON sha256 name input now c).1 = Some b →
   ∃ op t r, (op, t) ∈ hist ∧ offers canonicalJSON sha256 op t r ∧ rec_binding r = b
     ∧ rec_tool r = canonicalTool name ∧ argumentHash canonicalJSON sha256 input = Some (rec_hash r) ∧ now < rec_expires r).
Proof.
  intros c. split; [apply (run_consistent _ _ hist), consistent_new|].
  destruct (run_backed canonicalJSON sha256 hist hist NewCorrelator ltac:(done) ltac:(done)) as [Hk Hb].
  destruct (Consume _ _ _ _ _ c) as [g c'] eqn:E. cbn [fst]. intros ->.
  destruct (Consume_inv _ _ _ _ _ _ _ _ Hk E) as (hash & r & Hh & _ & _ & (Hr & He & _ & Ht & Hhash) & _).
  destruct (Hb _ _ Hr) as (op & t & r0 & Hin & Ho & H1 & H2 & H3 & H4). exists op, t, r0. split_and!; try done; try congruence.
  rewrite H1. by apply Hk.
Qed.

(** ** Two conversations ask for the same call *)

Definition askA : Binding := mkBinding "conv-a" "call_1".
Definition askB : Binding := mkBinding "conv-b" "call_2".
Definition oneAsk : Correlator :=
  (run Some id NewCorrelator [(OpRecord "torana_search" "{}" askA, 0)]).2.

Lemma oneAsk_records : records oneAsk = {[askA := mkRecord askA "torana_search" "{}" correlationTTL false]}.
Proof. vm_compute. reflexivity. Qed.

Lemma Consume_exact_witness : keyed oneAsk ∧ (Consume Some id "mcp__torana__torana_search" "{}" 5 oneAsk).1 = Some askA.
Proof.
  assert (Hk : keyed oneAsk) by apply (run_consistent Some id _ NewCorrelator consistent_new).
  split; [exact Hk|]. apply (Consume_exact Some id); [exact Hk|vm_compute; discriminate|].
  exists "{}", (mkRecord askA "torana_search" "{}" correlationTTL false). split_and!; try done.
  - intros [H|(e & H & _)]; [by vm_compute in H|by vm_compute in H].
  - intros b' r' (Hr & _). rewrite oneAsk_records in Hr. by apply lookup_singleton_Some in Hr as [<- _].
Defined.

(** The second conversation's record makes the call ambiguous, and after the grant
    a replayed response grants nothing. *)
Lemma ambiguous_refused :
  let c := (run Some id NewCorrelator [(OpRecord "torana_search" "{}" askA, 0); (OpRecord "torana_search" "{}" askB, 1)]).2 in
  (Consume Some id "torana_search" "{}" 5 c).1 = None.
Proof. vm_compute. reflexivity. Qed.

Lemma Consume_once_witness :
  askA ∉ (run Some id (Consume Some id "torana_search" "{}" 5 oneAsk).2
            [(OpRecord "torana_search" "{}" askA, 6); (OpConsume "torana_search" "{}", 7)]).1.
Proof.
  assert (Hk : keyed oneAsk) by apply (run_consistent Some id _ NewCorrelator consistent_new).
  destruct (Consume_once Some id "torana_search" "{}" 5 oneAsk askA (Consume Some id "torana_search" "{}" 5 oneAsk).2 Hk)
    as (r & Hr & _ & H); [vm_compute; reflexivity|].
  apply H. intros op t Hin. rewrite oneAsk_records, lookup_singleton in Hr. rewrite decide_True in Hr by done.
  injection Hr as <-. cbn. unfold correlationTTL. repeat (apply elem_of_cons in Hin as [[= _ ->]|Hin]; [lia|]).
  by apply not_elem_of_nil in Hin.
Defined.

Lemma binding_evidence_witness :
  bounded oneAsk ∧ ∃ op t r, (op, t) ∈ [(OpRecord "torana_search" "{}" askA, 0)] ∧ offers Some id op t r ∧ rec_binding r = askA.
Proof.
  destruct (binding_evidence Some id [(OpRecord "torana_search" "{}" askA, 0)] "torana_search" "{}" 5 askA) as [Hb He].
  split; [exact Hb|]. destruct He as (op & t & r & ? & ? & ? & _); [vm_compute; reflexivity|]. by exists op, t, r.
Defined.
