(* ===== verification/McpAuth.v ===== *)
(** * The MCP instance token

    internal/mcpauth/token.go: one sealed token in the host's reserved namespace
    of the plugin state store.  [Ensure] creates it if there is none, [Rotate]
    replaces it, both by compare-and-set with at most eight attempts; [Current]
    reads it.  The store is the interface of CasUpdate, the sealer and the random
    bytes are parameters.

    The second half lets any number of managers run these operations in any
    interleaving. *)

From stdpp Require Import base list strings gmap numbers relations.
From Stdlib Require Import Ascii.
From S2P Require Import Prelude ByteStrings PluginState PluginStateBolt PluginStateWitness CasUpdate SuggestState SuggestWitness.

Definition namespace : string := "@torana/mcp-auth".
Definition tokenKey : string := "instance-token".

Inductive tokenErr :=
| TokenUnavailable | TokenConflict | TokenState (e : stateErr) | TokenRandom | TokenSealer (msg : string).

(** [base64.RawURLEncoding.EncodeToString]. *)
Definition urlAlphabet : string := "ABCDEFGHIJKLMNOPQRSTUVWXYZabcdefghijklmnopqrstuvwxyz0123456789-_".
Definition urlDigit (n : N) : ascii := default "A"%char (String.get (N.to_nat n) urlAlphabet).
Definition digit4 (v : N) (k : N) : ascii := urlDigit (v / 64 ^ k mod 64).
Fixpoint RawURLEncode (s : string) : string :=
  match s with
  | String a (String b (String c s')) =>
      let v := (N_of_ascii a * 65536 + N_of_ascii b * 256 + N_of_ascii c)%N in
      String (digit4 v 3) (String (digit4 v 2) (String (digit4 v 1) (String (digit4 v 0) (RawURLEncode s'))))
  | String a (String b "") =>
      let v := (N_of_ascii a * 65536 + N_of_ascii b * 256)%N in
      String (digit4 v 3) (String (digit4 v 2) (String (digit4 v 1) ""))
  | String a "" =>
      let v := (N_of_ascii a * 65536)%N in String (digit4 v 3) (String (digit4 v 2) "")
  | "" => ""
  end.

(** [Sealer]: the argument of [Encrypt] is what it draws. *)
Class Sealer := {
  Encrypt : string → string → res string string;
  Decrypt : string → res string string }.
Class SealerLaws (S : Sealer) : Prop := {
  decrypt_encrypt : ∀ n t w, Encrypt n t = Ok w → Decrypt w = Ok t }.

Section Manager.
Context {St : Type} {SO : StateOps St} {S : Sealer}.

Definition openToken (sealed : string) : res tokenErr string := map_err TokenSealer (Decrypt sealed).

(** [configured]: the manager has a store and a sealer.  An empty token means that
    none is set. *)
Definition Current (configured : bool) (s : St) : res tokenErr string :=
  if negb configured then Err TokenUnavailable
  else match st_get s namespace tokenKey with
       | Err e => Err (TokenState e)
       | Ok (sealed, _, found) => if negb found then Ok "" else openToken sealed
       end.

(** One attempt up to the write: it ends, or has a token, its sealed form and the
    version to replace. *)
Inductive TokenPhase :=
| TokenEnded (r : res tokenErr string)
| TokenWriting (token sealed : string) (expected : option string).

Definition readToken (rotate : bool) (random : option string) (nonce : string) (s : St) : TokenPhase :=
  match st_get s namespace tokenKey with
  | Err e => TokenEnded (Err (TokenState e))
  | Ok (previous, version, found) =>
      if found && negb rotate then TokenEnded (openToken previous)
      else match random with
           | None => TokenEnded (Err TokenRandom)
           | Some raw =>
               let token := RawURLEncode raw in
               match Encrypt nonce token with
               | Err e => TokenEnded (Err (TokenSealer e))
               | Ok sealed => TokenWriting token sealed (if found then Some version else None)
               end
           end
  end.

(** The write; [None] asks for another attempt. *)
Definition writeToken (token sealed : string) (expected : option string) (s : St) : option (res tokenErr string) * St :=
  match st_cas s namespace tokenKey sealed expected with
  | (Err e, s) => (Some (Err (TokenState e)), s)
  | (Ok (true, _), s) => (Some (Ok token), s)
  | (Ok (false, _), s) => (None, s)
  end.

Definition tokenAttempts : nat := 8.

(** [others n]: what other clients do between the read and the write of attempt [n]. *)
Fixpoint writeFrom (fuel n : nat) (rotate : bool) (random : nat → option string) (nonce : nat → string)
    (others : nat → St → St) (s : St) : res tokenErr string * St :=
  match fuel with
  | O => (Err TokenConflict, s)
  | Datatypes.S fuel =>
      match readToken rotate (random n) (nonce n) s with
      | TokenEnded r => (r, s)
      | TokenWriting token sealed expected =>
          match writeToken token sealed expected (others n s) with
          | (Some r, s) => (r, s)
          | (None, s) => writeFrom fuel (Datatypes.S n) rotate random nonce others s
          end
      end
  end.

Definition write (rotate configured : bool) (random : nat → option string) (nonce : nat → string)
    (others : nat → St → St) (s : St) : res tokenErr string * St :=
  if negb configured then (Err TokenUnavailable, s) else writeFrom tokenAttempts 0 rotate random nonce others s.
Definition Ensure := write false.
Definition Rotate := write true.
End Manager.

(** ** Interleaved managers *)

Section Managers.
Context {St : Type} {SO : StateOps St} {SL : StateLaws St} {S : Sealer} {SLaws : SealerLaws S}.
Context (Hfits : fits tokenKey).

(** A manager inside [write]. *)
Inductive managerPhase :=
| MReady
| MWriting (token sealed : string) (expected : option string)
| MDone (r : res tokenErr string).
Record Manager := mkManager { mg_rotate : bool; mg_attempt : nat; mg_phase : managerPhase }.

Definition afterRead (p : TokenPhase) : managerPhase :=
  match p with TokenEnded r => MDone r | TokenWriting t w e => MWriting t w e end.
Definition afterTokenWrite (m : Manager) (r : option (res tokenErr string)) : Manager :=
  match r with
  | Some r => mkManager (mg_rotate m) (mg_attempt m) (MDone r)
  | None => mkManager (mg_rotate m) (Datatypes.S (mg_attempt m))
              (if (Datatypes.S (mg_attempt m) =? tokenAttempts)%nat then MDone (Err TokenConflict) else MReady)
  end.

(** The store and the managers; other clients of the store leave the token alone. *)
Inductive mstep : St * list Manager → St * list Manager → Prop :=
| mstep_spawn s ms rotate : mstep (s, ms) (s, ms ++ [mkManager rotate 0 MReady])
| mstep_read s ms j m random nonce :
    ms !! j = Some m → mg_phase m = MReady →
    mstep (s, ms) (s, <[j := mkManager (mg_rotate m) (mg_attempt m) (afterRead (readToken (mg_rotate m) random nonce s))]> ms)
| mstep_write s ms j m token sealed expected r s' :
    ms !! j = Some m → mg_phase m = MWriting token sealed expected → writeToken token sealed expected s = (r, s') →
    mstep (s, ms) (s', <[j := afterTokenWrite m r]> ms)
| mstep_other s s' ms :
    evolves s s' → valid s' → st_get s' namespace tokenKey = st_get s namespace tokenKey → mstep (s, ms) (s', ms).

(** What a manager about to write, or done, knows. *)
Definition sealedOf (m : Manager) : Prop :=
  match mg_phase m with MWriting token sealed _ => Decrypt sealed = Ok token | _ => True end.
Definition expectsNone (m : Manager) : Prop :=
  match mg_phase m with MWriting _ _ e => mg_rotate m = false → e = None | _ => True end.

Lemma readToken_writing rotate random nonce (s : St) token sealed expected :
  readToken rotate random nonce s = TokenWriting token sealed expected →
  Decrypt sealed = Ok token ∧ (rotate = false → expected = None).
Proof.
  unfold readToken. destruct (st_get s namespace tokenKey) as [[[previous version] found]|]; [|done].
  destruct (found && negb rotate) eqn:E; [done|]. destruct random; [|done]. destruct (Encrypt _ _) eqn:He; [|done].
  intros [= <- <- <-]. split; [by eapply decrypt_encrypt|]. intros ->. destruct found; done.
Qed.

(** The store holds a sealed form of [t]. *)
Definition stored (s : St) (t : string) : Prop :=
  ∃ w v, st_get s namespace tokenKey = Ok (w, v, true) ∧ Decrypt w = Ok t.

Lemma stored_Current s t : stored s t → Current true s = Ok t.
Proof. intros (w & v & Hg & Hd). unfold Current, openToken. cbn. rewrite Hg. cbn. by rewrite Hd. Qed.

Lemma readToken_ended rotate random nonce (s : St) t :
  readToken rotate random nonce s = TokenEnded (Ok t) → stored s t.
Proof.
  unfold readToken, stored, openToken. destruct (st_get s namespace tokenKey) as [[[previous version] found]|]; [|done].
  destruct (found && negb rotate) eqn:E.
  - destruct found; [|done]. destruct (Decrypt previous) eqn:Ed; [|done]. intros [= <-]. eauto.
  - destruct random; [|done]. by destruct (Encrypt _ _).
Qed.

Lemma writeToken_spec token sealed expected (s s' : St) r : valid s → writeToken token sealed expected s = (r, s') →
  valid s' ∧ evolves s s' ∧
  match r with
  | Some (Ok t) => t = token ∧ (∃ v, st_get s' namespace tokenKey = Ok (sealed, v, true))
                   ∧ (expected = None → st_get s namespace tokenKey = Ok ("", "", false))
  | _ => st_get s' namespace tokenKey = st_get s namespace tokenKey
  end.
Proof.
  intros Hv. unfold writeToken. destruct (st_cas s namespace tokenKey sealed expected) as [r0 s0] eqn:E.
  pose proof (valid_cas s namespace tokenKey sealed expected Hv Hfits) as Hv'.
  pose proof (cas_evolves s namespace tokenKey sealed expected Hv Hfits) as He. rewrite E in Hv', He. cbn in Hv', He.
  destruct r0 as [[[] v]|e]; intros [= <- <-]; (split; [done|]); (split; [done|]).
  - destruct (cas_applied _ _ _ _ _ _ _ Hv Hfits E) as (Hpre & Hget & _). split; [done|]. split; [by exists v|].
    intros ->. exact Hpre.
  - by eapply (cas_refused _ _ _ _ _ _ _ Hv Hfits E).
  - by eapply (cas_refused _ _ _ _ _ _ _ Hv Hfits E).
Qed.

Lemma writeToken_stored token sealed expected (s s' : St) t :
  valid s → Decrypt sealed = Ok token → writeToken token sealed expected s = (Some (Ok t), s') → stored s' t.
Proof. intros Hv Hd Hw. destruct (writeToken_spec _ _ _ _ _ _ Hv Hw) as (_ & _ & -> & (v & Hg) & _). by exists sealed, v. Qed.

Lemma stored_same s s' t : st_get s' namespace tokenKey = st_get s namespace tokenKey → stored s t → stored s' t.
Proof. unfold stored. by intros ->. Qed.

(** ** One manager among other clients *)

Lemma writeFrom_stored others fuel n rotate random nonce s s' t : (∀ n s, valid s → valid (others n s)) → valid s →
  writeFrom fuel n rotate random nonce others s = (Ok t, s') → stored s' t.
Proof.
  intros Ho. revert n s. induction fuel as [|fuel IH]; intros n s Hv; cbn; [done|].
  destruct (readToken rotate (random n) (nonce n) s) as [r|token sealed expected] eqn:Er.
  - intros [= -> <-]. by eapply readToken_ended.
  - apply readToken_writing in Er as [Hd _]. destruct (writeToken _ _ _ _) as [[r|] s1] eqn:Ew.
    + intros [= -> <-]. eapply writeToken_stored; [..|exact Ew]; auto.
    + destruct (writeToken_spec _ _ _ _ _ _ (Ho n s Hv) Ew) as (Hv1 & _). by apply IH.
Qed.

(** ** The system *)

Definition phaseSound (m : Manager) : Prop := sealedOf m ∧ expectsNone m.
Definition onlyEnsure (ms : list Manager) : Prop := Forall (λ m, mg_rotate m = false) ms.
Definition converged (s : St) (ms : list Manager) : Prop :=
  ∀ j m t, ms !! j = Some m → mg_phase m = MDone (Ok t) → stored s t.
Record minv (c : St * list Manager) : Prop := {
  mi_valid : valid c.1;
  mi_sound : Forall phaseSound c.2;
  mi_conv : onlyEnsure c.2 → converged c.1 c.2 }.

Lemma phaseSound_afterRead m random nonce s :
  phaseSound (mkManager (mg_rotate m) (mg_attempt m) (afterRead (readToken (mg_rotate m) random nonce s))).
Proof.
  unfold phaseSound, sealedOf, expectsNone. cbn. destruct (readToken _ _ _ _) eqn:E; cbn; [done|].
  by apply readToken_writing in E.
Qed.

Lemma afterTokenWrite_phase m r t : mg_phase (afterTokenWrite m r) = MDone (Ok t) → r = Some (Ok t).
Proof. destruct r as [r|]; cbn; [by intros [= ->]|]. by destruct (_ =? _)%nat. Qed.

Lemma phaseSound_afterWrite m r : phaseSound (afterTokenWrite m r).
Proof. destruct r; unfold phaseSound, sealedOf, expectsNone; cbn; [done|]. by destruct (_ =? _)%nat. Qed.

Lemma onlyEnsure_insert ms j m m' : ms !! j = Some m → mg_rotate m' = mg_rotate m →
  onlyEnsure (<[j:=m']> ms) → onlyEnsure ms.
Proof.
  unfold onlyEnsure. rewrite !list.Forall_lookup. intros Hj Hr H i x Hx. destruct (decide (i = j)) as [->|].
  - simplify_eq. rewrite <- Hr. apply (H j). apply list.list_lookup_insert_eq. by eapply lookup_lt_Some.
  - apply (H i). by rewrite list.list_lookup_insert_ne.
Qed.

Lemma converged_insert s s' ms j m' : (∀ t, stored s t → stored s' t) →
  (∀ t, mg_phase m' = MDone (Ok t) → stored s' t) → converged s ms → converged s' (<[j:=m']> ms).
Proof.
  intros Hs Hm Hc i m t. rewrite list.list_lookup_insert_Some. intros [(-> & <- & _)|[_ Hi]] Hp; eauto.
Qed.

(** A write that commits found no token, so no earlier call had returned one. *)
Lemma write_converges s s' ms j m token sealed expected r :
  valid s → Forall phaseSound ms → onlyEnsure ms → converged s ms →
  ms !! j = Some m → mg_phase m = MWriting token sealed expected → writeToken token sealed expected s = (r, s') →
  converged s' (<[j:=afterTokenWrite m r]> ms).
Proof.
  intros Hv Hs Ho Hc Hj Hp Hw. unfold onlyEnsure in Ho. rewrite list.Forall_lookup in Hs, Ho.
  pose proof (Hs _ _ Hj) as [Hd He]. unfold sealedOf, expectsNone in Hd, He. rewrite Hp in Hd, He.
  apply converged_insert with (s := s); [| |done].
  - intros t Ht. destruct (writeToken_spec _ _ _ _ _ _ Hv Hw) as (_ & _ & Hr).
    destruct r as [[t'|]|]; try by eapply stored_same. destruct Hr as (_ & _ & Hn).
    specialize (Hn (He (Ho _ _ Hj))). destruct Ht as (w & v & Hg & _). congruence.
  - intros t ->%afterTokenWrite_phase. by eapply writeToken_stored.
Qed.

Lemma minv_step c c' : minv c → mstep c c' → minv c'.
Proof.
  intros [Hv Hs Hc] Hst. destruct Hst as [s ms rotate|s ms j m random nonce Hj Hp|s ms j m token sealed expected r s' Hj Hp Hw|s s' ms He Hv' Hg];
    cbn in *.
  - split; cbn; [done| |].
    + apply Forall_app. split; [done|]. by repeat constructor.
    + intros [Ho _]%Forall_app. intros i m t Hi Hm. apply lookup_app_Some in Hi as [Hi|[_ Hi]]; [by eapply Hc|].
      apply list.list_lookup_singleton_Some in Hi as [_ <-]. done.
  - split; cbn; [done| |].
    + apply list.Forall_insert; [done|apply phaseSound_afterRead].
    + intros Ho%(onlyEnsure_insert _ _ m); [|done..]. apply converged_insert with (s := s); [done| |auto].
      cbn. intros t Ht. destruct (readToken _ _ _ _) eqn:E; [|done]. injection Ht as ->. by eapply readToken_ended.
  - destruct (writeToken_spec _ _ _ _ _ _ Hv Hw) as (Hv' & _ & _). split; cbn; [done| |].
    + apply list.Forall_insert; [done|apply phaseSound_afterWrite].
    + intros Ho%(onlyEnsure_insert _ _ m); [|done|by destruct r]. apply (write_converges s s' ms j m token sealed expected r); auto.
  - split; cbn; [done..|]. intros Ho i m t Hi Hm. eapply stored_same; [done|]. by eapply Hc.
Qed.

Lemma minv_reachable s0 c : valid s0 → rtc mstep (s0, []) c → minv c.
Proof.
  intros Hv H. assert (minv (s0, [])) as H0 by (split; [done|constructor|by intros _ ? ? ?]).
  revert H0. induction H as [|? ? ? Hs _ IH]; intros Hi; [done|]. apply IH. by eapply minv_step.
Qed.

(** The step in which a call returns a token leaves that token stored. *)
Lemma mstep_returns s ms s' ms' j m t : minv (s, ms) → mstep (s, ms) (s', ms') →
  ms' !! j = Some m → mg_phase m = MDone (Ok t) → ms !! j ≠ Some m → stored s' t.
Proof.
  intros [Hv Hs _] Hst Hj Hp Hne. cbn in *.
  inversion Hst as [? ? rotate|? ? i m0 random nonce Hi Hp0|? ? i m0 token sealed expected r ? Hi Hp0 Hw|]; subst; [| | |done].
  - apply lookup_app_Some in Hj as [Hj|[_ Hj]]; [done|].
    by apply list.list_lookup_singleton_Some in Hj as [_ <-].
  - apply list.list_lookup_insert_Some in Hj as [(-> & <- & _)|[_ ?]]; [|done]. cbn in Hp.
    destruct (readToken _ _ _ _) eqn:E; [|done]. injection Hp as ->. by eapply readToken_ended.
  - apply list.list_lookup_insert_Some in Hj as [(-> & <- & _)|[_ ?]]; [|done].
    apply afterTokenWrite_phase in Hp as ->. rewrite list.Forall_lookup in Hs. destruct (Hs _ _ Hi) as [Hd _].
    unfold sealedOf in Hd. rewrite Hp0 in Hd. by eapply writeToken_stored.
Qed.

(** C32. Concurrent calls of [Ensure] and [Rotate] hand out no orphaned credential:
    in every interleaving with each other and with the other clients of the store, the
    step in which a call returns a token leaves that token the current one, and as
    long as nobody rotates, every call that has returned a token returned the one
    that is current now, so all of them returned the same. *)
Theorem tokens_converge (s0 s s' : St) (ms ms' : list Manager) : valid s0 → rtc mstep (s0, []) (s, ms) →
  (∀ j m t, mstep (s, ms) (s', ms') → ms' !! j = Some m → mg_phase m = MDone (Ok t) → ms !! j ≠ Some m →
            Current true s' = Ok t)
  ∧ (onlyEnsure ms → ∀ j m t, ms !! j = Some m → mg_phase m = MDone (Ok t) → Current true s = Ok t).
Proof.
  intros Hv Hr. pose proof (minv_reachable _ _ Hv Hr) as Hi. split.
  - intros j m t Hst Hj Hp Hne. by eapply stored_Current, mstep_returns.
  - intros Ho j m t Hj Hp. apply stored_Current. by eapply (mi_conv _ Hi).
Qed.
End Managers.

(** ** Two set-up calls at once *)

Definition prefixSealer : Sealer := {|
  Encrypt n t := Ok ("$" +:+ t);
  Decrypt w := match w with String "$" t => Ok t | _ => Err "not sealed" end |}.
Lemma prefixLaws : @SealerLaws prefixSealer.
Proof. split. by intros n t w [= <-]. Qed.

Section Race.
Local Existing Instance prefixSealer.

Definition oneWrote : Store := (writeToken "YQ" "$YQ" None memory).2.
Definition otherRefused : Store := (writeToken "Yg" "$Yg" None oneWrote).2.
Definition raceBefore : Store * list Manager :=
  (otherRefused, [mkManager false 0 (MDone (Ok "YQ")); mkManager false 1 MReady]).
Definition raceAfter : Store * list Manager :=
  (otherRefused, [mkManager false 0 (MDone (Ok "YQ")); mkManager false 1 (MDone (Ok "YQ"))]).

(** Both find no token; the second to write is refused. *)
Lemma token_race : rtc mstep (memory, []) raceBefore.
Proof.
  eapply rtc_l; [apply (mstep_spawn _ _ false)|].
  eapply rtc_l; [apply (mstep_spawn _ _ false)|]. cbn [app].
  eapply rtc_l; [apply (mstep_read _ _ 0 (mkManager false 0 MReady) (Some "a") ""); done|].
  eapply rtc_l; [apply (mstep_read _ _ 1 (mkManager false 0 MReady) (Some "b") ""); done|].
  eapply rtc_l.
  { apply (mstep_write _ _ 0 (mkManager false 0 (MWriting "YQ" "$YQ" None)) "YQ" "$YQ" None (Some (Ok "YQ")) oneWrote);
      [vm_compute; reflexivity|done|apply pair_of; vm_compute; reflexivity]. }
  eapply rtc_l.
  { apply (mstep_write _ _ 1 (mkManager false 0 (MWriting "Yg" "$Yg" None)) "Yg" "$Yg" None None otherRefused);
      [vm_compute; reflexivity|done|apply pair_of; vm_compute; reflexivity]. }
  exact (rtc_refl _ _).
Qed.

Lemma race_ends : mstep raceBefore raceAfter.
Proof.
  refine (eq_ind _ (λ c, mstep raceBefore c) (mstep_read otherRefused raceBefore.2 1 (mkManager false 1 MReady) None "" eq_refl eq_refl)
    raceAfter _). apply (f_equal (pair otherRefused)). vm_compute. reflexivity.
Qed.

Lemma tokenKey_fits : fits tokenKey.
Proof. vm_compute. reflexivity. Qed.

Lemma tokens_converge_witness : Current true otherRefused = Ok "YQ" ∧ Current true otherRefused = Ok "YQ".
Proof.
  pose proof (@tokens_converge Store pluginState pluginState_laws prefixSealer prefixLaws tokenKey_fits
    memory otherRefused otherRefused raceBefore.2 raceAfter.2 memory_service token_race) as [Hret Hall].
  split.
  - apply (Hret 1 (mkManager false 1 (MDone (Ok "YQ")))); [apply race_ends|reflexivity|reflexivity|by intros [=]].
  - apply (Hall ltac:(by repeat constructor) 0 (mkManager false 0 (MDone (Ok "YQ")))); reflexivity.
Defined.
End Race.
