(* ===== verification/RawSpan.v ===== *)
(** * Raw spans of the wire response

    internal/proxy/rawspan.go: the byte offsets of the value at a path in the
    bytes a provider sent, found without decoding the document, so that what
    the pipeline did not touch is shipped as it came.  The scanner is forgiving:
    it does not validate.  [RawSpanTheorems] relates it to the grammar of
    RawJSONGrammar. *)

From stdpp Require Import base list strings numbers.
From stdpp Require Import base list strings gmap numbers.
From S2P Require Import Prelude Utf8 RawJSON RawJSONGrammar RawJSONEdits.

Open Scope Z_scope.

(** A path element is a string or an int. *)
Inductive pathElement := Key (k : bytes) | Index (i : Z).
#[global] Instance pathElement_eq_dec : EqDecision pathElement.
Proof. solve_decision. Defined.

(** [skipWS] *)
Definition skipWS (doc : bytes) (i : nat) : nat := skipSpace doc i.

(** [None] is -1: the string is not terminated.  The loop is that of the span editor
    of the engine, which starts after the quote too. *)
Definition scanStringEnd (doc : bytes) (i : nat) : option nat :=
  (λ n, S i + n)%nat <$> stringBody (drop (S i) doc).

Definition unescapeJSONString (lit : bytes) : option bytes := Unmarshal lit.

Definition isDelim (c : Z) : bool :=
  (c =? comma) || (c =? rbrace) || (c =? rbracket) || (c =? 0x20) || (c =? 0x09) || (c =? 0x0A) || (c =? 0x0D).

(** The loop of [skipContainer]; every round moves [j] on, so [length doc] rounds
    are enough. *)
Fixpoint skipContainerFrom (fuel : nat) (doc : bytes) (opener closer : Z) (depth : Z) (j : nat) : nat :=
  match fuel with
  | O => length doc
  | S fuel =>
      match drop j doc with
      | [] => length doc
      | c :: _ =>
          if c =? quote then
            match scanStringEnd doc j with
            | None => length doc
            | Some e => skipContainerFrom fuel doc opener closer depth e
            end
          else if c =? opener then skipContainerFrom fuel doc opener closer (depth + 1) (S j)
          else if c =? closer then
            if depth - 1 =? 0 then S j else skipContainerFrom fuel doc opener closer (depth - 1) (S j)
          else skipContainerFrom fuel doc opener closer depth (S j)
      end
  end.

Definition skipContainer (doc : bytes) (i : nat) (opener closer : Z) : nat :=
  skipContainerFrom (length doc) doc opener closer 1 (S i).

Fixpoint scalarRun (l : bytes) : nat :=
  match l with
  | c :: l' => if isDelim c then 0 else S (scalarRun l')
  | [] => 0
  end%nat.

Definition skipValue (doc : bytes) (i : nat) : nat :=
  match drop i doc with
  | [] => length doc
  | c :: _ =>
      if c =? lbrace then skipContainer doc i lbrace rbrace
      else if c =? lbracket then skipContainer doc i lbracket rbracket
      else if c =? quote then default (length doc) (scanStringEnd doc i)
      else (i + scalarRun (drop i doc))%nat
  end.

(** One round of the loop over an object: the end of the object, a fault, or a
    decoded key with the start of its value and the offset to go on at. *)
Inductive memberScan := ScanEnd | ScanFault | ScanMember (key : bytes) (start next : nat) (last : bool).

Definition scanMember (doc : bytes) (j : nat) : memberScan :=
  let j := skipWS doc j in
  match drop j doc with
  | [] => ScanEnd
  | c :: _ =>
      if c =? rbrace then ScanEnd
      else if negb (c =? quote) then ScanFault
      else match scanStringEnd doc j with
           | None => ScanFault
           | Some ke =>
               match unescapeJSONString (slice doc j ke) with
               | None => ScanFault
               | Some key =>
                   let j := skipWS doc ke in
                   if negb (byteAt doc j colon) then ScanFault else
                   let start := skipWS doc (S j) in
                   if (length doc <=? start)%nat then ScanFault else
                   let stop := skipValue doc start in
                   let j := skipWS doc stop in
                   if byteAt doc j rbrace then ScanMember key start j true
                   else if byteAt doc j comma then ScanMember key start (S j) false
                   else ScanFault
               end
           end
  end.

(** The loop, with the start of the latest match; the document is longer than the
    number of rounds. *)
Fixpoint objectScan (fuel : nat) (doc el : bytes) (j : nat) (found : option nat) : option nat :=
  match fuel with
  | O => None
  | S fuel =>
      match scanMember doc j with
      | ScanEnd => found
      | ScanFault => None
      | ScanMember key start next last =>
          let found := if bool_decide (key = el) then Some start else found in
          if last then found else objectScan fuel doc el next found
      end
  end.

Fixpoint arrayScan (fuel : nat) (doc : bytes) (el idx : Z) (j : nat) : option nat :=
  match fuel with
  | O => None
  | S fuel =>
      let j := skipWS doc j in
      match drop j doc with
      | [] => None
      | c :: _ =>
          if c =? rbracket then None
          else if idx =? el then Some j
          else
            let j := skipWS doc (skipValue doc j) in
            if byteAt doc j comma then arrayScan fuel doc el (idx + 1) (S j) else None
      end
  end.

Fixpoint spanAt (doc : bytes) (i : nat) (path : list pathElement) : option (nat * nat) :=
  match path with
  | [] => Some (i, skipValue doc i)
  | Key el :: path =>
      if negb (byteAt doc i lbrace) then None
      else start ← objectScan (S (length doc)) doc el (S i) None; spanAt doc start path
  | Index el :: path =>
      if negb (byteAt doc i lbracket) then None
      else start ← arrayScan (S (length doc)) doc el 0 (S i); spanAt doc start path
  end.

Definition rawJSONSpanAt (doc : bytes) (path : list pathElement) : option (nat * nat) :=
  let i := skipWS doc 0 in
  if (length doc <=? i)%nat then None else spanAt doc i path.

Definition rawJSONSpan (doc : bytes) (path : list pathElement) : option bytes :=
  '(s, e) ← rawJSONSpanAt doc path; Some (slice doc s e).

(** * Raw spans on JSON texts

    On every text of the grammar the scanner of RawSpan finds the value a path
    leads to, exactly. *)

Open Scope Z_scope.

(** ** Values *)

Lemma scanStringEnd_at raw pre l rest : json_string l → raw = pre ++ l ++ rest →
  scanStringEnd raw (length pre) = Some (length (pre ++ l)).
Proof.
  intros Hl Hraw. pose proof (scan_string raw pre l rest Hl Hraw) as H. unfold scanStringEnd, scanJSONStringEnd in *.
  destruct (drop (length pre) raw) as [|c l'] eqn:Ed; [done|].
  destruct (c =? quote); [|done]. assert (drop (S (length pre)) raw = l') as ->.
  { replace (S (length pre)) with (length pre + 1)%nat by lia. by rewrite <- drop_drop, Ed. }
  destruct (stringBody l'); [|done]. injection H as <-. done.
Qed.

Definition pairOf (opener closer : Z) : Prop :=
  (opener = lbrace ∧ closer = rbrace) ∨ (opener = lbracket ∧ closer = rbracket).

Lemma container_neutral fuel raw op cl d pre c l : pairOf op cl → neutral c = true → raw = pre ++ c :: l →
  skipContainerFrom (S fuel) raw op cl d (length pre) = skipContainerFrom fuel raw op cl d (S (length pre)).
Proof.
  intros Hp Hc ->. unfold neutral in Hc. apply negb_true_iff in Hc. rewrite !orb_false_iff in Hc.
  destruct Hc as [[[[H1 H2] H3] H4] H5]. cbn [skipContainerFrom]. rewrite drop_app_length, H1.
  destruct Hp as [[-> ->]|[-> ->]]; by rewrite ?H2, ?H3, ?H4, ?H5.
Qed.

(** A nested container of either kind is passed over once what it holds is. *)
Lemma container_nest raw op cl pre o l c rest d fuel f1 : pairOf op cl →
  (o = lbrace ∨ o = lbracket) → (c = rbrace ∨ c = rbracket) → (o = lbrace ↔ c = rbrace) → 1 ≤ d →
  raw = pre ++ o :: l ++ c :: rest →
  (∀ d, 1 ≤ d → skipContainerFrom fuel raw op cl d (length (pre ++ [o])) = skipContainerFrom (S f1) raw op cl d (length ((pre ++ [o]) ++ l))) →
  skipContainerFrom (S fuel) raw op cl d (length pre) = skipContainerFrom f1 raw op cl d (length (pre ++ o :: l ++ [c])).
Proof.
  intros Hp Ho Hc Hm Hd Hraw Hin.
  assert (Hraw1 : raw = ((pre ++ [o]) ++ l) ++ c :: rest) by (rewrite Hraw, <- !app_assoc; done).
  assert (He : length (pre ++ o :: l ++ [c]) = S (length ((pre ++ [o]) ++ l)))
    by (rewrite !length_app; simpl; rewrite !length_app; simpl; lia).
  set (e := if o =? op then d + 1 else d).
  assert (Hopen : skipContainerFrom (S fuel) raw op cl d (length pre) = skipContainerFrom fuel raw op cl e (length (pre ++ [o]))).
  { cbn [skipContainerFrom]. rewrite Hraw at 1. rewrite drop_app_length, length_app, Nat.add_1_r. unfold e.
    by destruct Ho as [->| ->], Hp as [[-> ->]|[-> ->]]. }
  rewrite Hopen, Hin by (unfold e; destruct (o =? op); lia). cbn [skipContainerFrom].
  rewrite Hraw1 at 1. rewrite drop_app_length, He. unfold e.
  destruct Hp as [[-> ->]|[-> ->]], Ho as [->| ->], Hc as [->| ->]; try (exfalso; naive_solver); cbn;
    try done; replace (d + 1 - 1) with d by lia; by rewrite (proj2 (Z.eqb_neq d 0)) by lia.
Qed.

Lemma container_skip l : balanced l → ∀ raw op cl pre rest fuel,
  pairOf op cl → raw = pre ++ l ++ rest → (length l < fuel)%nat →
  ∃ fuel', (fuel ≤ fuel' + length l)%nat ∧ ∀ d, 1 ≤ d →
    skipContainerFrom fuel raw op cl d (length pre) = skipContainerFrom fuel' raw op cl d (length (pre ++ l)).
Proof.
  induction 1 as [|c l Hc _ IH|s l Hs _ IH|o l c l' Ho _ IH1 Hc Hm _ IH2]; intros raw op cl pre rest fuel Hp Hraw Hf.
  - exists fuel. rewrite app_nil_r. split; [simpl; lia|done].
  - simpl in Hf. destruct fuel as [|fuel]; [lia|].
    destruct (IH raw op cl (pre ++ [c]) rest fuel) as (f' & Hf' & He); [done|by rewrite <- app_assoc|lia|].
    exists f'. split; [simpl; lia|]. intros d Hd. rewrite (container_neutral _ _ _ _ _ _ c (l ++ rest) Hp Hc Hraw).
    replace (S (length pre)) with (length (pre ++ [c])) by (rewrite length_app; simpl; lia).
    by rewrite He, <- app_assoc.
  - rewrite length_app in Hf. destruct fuel as [|fuel]; [lia|].
    assert (Hlen : (2 ≤ length s)%nat) by (destruct Hs as (x & _ & ->); simpl; rewrite length_app; simpl; lia).
    destruct (IH raw op cl (pre ++ s) rest fuel) as (f' & Hf' & He); [done|by rewrite Hraw, <- !app_assoc|lia|].
    exists f'. split; [rewrite length_app; lia|]. intros d Hd. rewrite app_assoc, <- He by done.
    rewrite <- app_assoc in Hraw. pose proof (scanStringEnd_at raw pre s (l ++ rest) Hs Hraw) as Hsc.
    cbn [skipContainerFrom]. destruct Hs as (x & Hx & ->). rewrite Hraw at 1. rewrite drop_app_length. simpl. by rewrite Hsc.
  - simpl in Hf. rewrite length_app in Hf. simpl in Hf. destruct fuel as [|fuel]; [lia|].
    assert (Hraw1 : raw = pre ++ o :: l ++ c :: l' ++ rest) by (rewrite Hraw; simpl; by rewrite <- app_assoc).
    destruct (IH1 raw op cl (pre ++ [o]) (c :: l' ++ rest) fuel) as (f1 & Hf1 & He1); [done|by rewrite Hraw1, <- app_assoc|lia|].
    destruct f1 as [|f1]; [lia|].
    destruct (IH2 raw op cl (pre ++ o :: l ++ [c]) rest f1) as (f2 & Hf2 & He2);
      [done|rewrite Hraw1, <- !app_assoc; simpl; by rewrite <- app_assoc|lia|].
    exists f2. split; [simpl; rewrite length_app; simpl; lia|]. intros d Hd.
    rewrite (container_nest raw op cl pre o l c (l' ++ rest) d fuel f1) by done. rewrite He2 by done.
    f_equal. rewrite !length_app; simpl; rewrite !length_app; simpl. lia.
Qed.

Lemma scalarRun_len l : scalarRun l = scalarLen l.
Proof. induction l as [|c l IH]; [done|]. simpl. rewrite IH. unfold isDelim, isDelimiter, isJSONSpace. by rewrite !orb_assoc. Qed.

Lemma skipValue_at raw pre v rest : json_value v → ends_value rest → raw = pre ++ v ++ rest →
  skipValue raw (length pre) = length (pre ++ v).
Proof.
  intros Hv Hr Hraw. unfold skipValue.
  assert (Hd : drop (length pre) raw = v ++ rest) by (rewrite Hraw; apply drop_app_length). rewrite Hd.
  destruct (json_value_shape v Hv) as [Hs|[[Hne Hs]|(o & l & c & -> & Ho & Hl & Hc & Hm)]].
  - pose proof (scanStringEnd_at raw pre v rest Hs Hraw) as ->. destruct Hs as (x & _ & ->). done.
  - destruct v as [|x v]; [done|]. rewrite scalarRun_len, (scalarLen_app _ _ Hs Hr).
    inversion Hs as [|? ? Hx _]; subst x0 l. unfold scalar_byte, neutral in Hx.
    apply andb_true_iff in Hx as [Hx%negb_true_iff _]. rewrite !orb_false_iff in Hx.
    destruct Hx as [[[[H1 H2] H3] _] _]. simpl app. cbv iota beta. rewrite H1, H2, H3, length_app. simpl. lia.
  - assert (pairOf o c) as Hp.
    { unfold pairOf. destruct Ho as [->| ->], Hc as [->| ->]; try (exfalso; naive_solver); auto. }
    assert (Hraw1 : raw = (pre ++ [o]) ++ l ++ c :: rest) by (rewrite Hraw, <- !app_assoc; simpl; by rewrite <- app_assoc).
    assert (Hlen : (length l + 2 ≤ length raw)%nat) by (rewrite Hraw1, !length_app; simpl; lia).
    destruct (container_skip l Hl raw o c (pre ++ [o]) (c :: rest) (length raw) Hp) as (f & Hf & He); [done|lia|].
    transitivity (skipContainer raw (length pre) o c).
    { simpl app. cbv iota beta. by destruct Hp as [[-> ->]|[-> ->]]. }
    unfold skipContainer. replace (S (length pre)) with (length (pre ++ [o])) by (rewrite length_app; simpl; lia).
    rewrite He by lia. destruct f as [|f]; [lia|]. cbn [skipContainerFrom].
    assert (drop (length ((pre ++ [o]) ++ l)) raw = c :: rest) as -> by (rewrite Hraw1, app_assoc; apply drop_app_length).
    assert (S (length ((pre ++ [o]) ++ l)) = length (pre ++ o :: l ++ [c])) as <-
      by (rewrite !length_app; simpl; rewrite !length_app; simpl; lia).
    by destruct Hp as [[-> ->]|[-> ->]].
Qed.

(** ** Members *)

Definition keyPart (m : member) : bytes := m_key m ++ m_mid1 m ++ colon :: m_mid2 m.
Definition whole (m : member) : bytes := m_pre m ++ member_head m ++ m_post m.

Lemma head_key m : member_head m = keyPart m ++ m_val m.
Proof. unfold member_head, keyPart. by norm_app. Qed.

Lemma members_cons inner m ms :
  members_text inner (m :: ms) = whole m ++ match ms with [] => [] | _ => comma :: members_text inner ms end.
Proof. unfold whole. destruct ms; by norm_app; rewrite ?app_nil_r. Qed.

Lemma lead_cons m ms1 : lead (m :: ms1) = whole m ++ comma :: lead ms1.
Proof.
  unfold lead. rewrite members_cons. destruct ms1; by norm_app.
Qed.

Lemma scanMember_at raw A inner m ms post :
  raw = A ++ members_text inner (m :: ms) ++ rbrace :: post → Forall member_wf (m :: ms) →
  let next := length (A ++ whole m) in
  scanMember raw (length A)
  = ScanMember (name m) (length (A ++ m_pre m ++ keyPart m)) (match ms with [] => next | _ => S next end)
      (match ms with [] => true | _ => false end).
Proof.
  intros Hraw [[(Hpre & Hm1 & Hm2 & Hpost & Hkey) Hval] Hms]%list.Forall_cons next. unfold scanMember, skipWS.
  assert (Hend : ∃ c rest, raw = (A ++ whole m) ++ c :: rest ∧ c = match ms with [] => rbrace | _ => comma end).
  { rewrite members_cons in Hraw. destruct ms; eexists _, _; (split; [rewrite Hraw; by norm_app|done]). }
  destruct Hend as (c & rest & Hend & Hc). assert (Hraw1 : raw = A ++ m_pre m ++ m_key m ++ m_mid1 m ++ [colon] ++ m_mid2 m ++ m_val m ++ m_post m ++ c :: rest)
    by (rewrite Hend; unfold whole, member_head; by norm_app).
  clear Hraw Hend. rewrite (skipSpace_at _ _ _ _ Hraw1) by auto using string_nonspace.
  rewrite app_assoc in Hraw1. rewrite (drop_at _ _ _ _ Hraw1 eq_refl).
  pose proof (scanStringEnd_at _ _ _ _ Hkey Hraw1) as Hse. pose proof (slice_mid _ _ _ _ _ _ Hraw1 eq_refl eq_refl) as Hsl.
  destruct (string_decodes _ Hkey) as [k Hk].
  transitivity (match scanStringEnd raw (length (A ++ m_pre m)) with
    | None => ScanFault
    | Some ke =>
        match unescapeJSONString (slice raw (length (A ++ m_pre m)) ke) with
        | None => ScanFault
        | Some key =>
            let j := skipSpace raw ke in
            if negb (byteAt raw j colon) then ScanFault else
            let start := skipSpace raw (S j) in
            if (length raw <=? start)%nat then ScanFault else
            let j := skipSpace raw (skipValue raw start) in
            if byteAt raw j rbrace then ScanMember key start j true
            else if byteAt raw j comma then ScanMember key start (S j) false else ScanFault
        end
    end).
  { by destruct Hkey as (x & _ & ->). }
  rewrite Hse, Hsl. unfold unescapeJSONString. unfold name. rewrite Hk. cbn [default from_option].
  rewrite app_assoc in Hraw1. rewrite (skipSpace_at _ _ _ _ Hraw1) by done. rewrite app_assoc in Hraw1.
  rewrite (byteAt_at _ _ _ _ colon Hraw1), Z.eqb_refl. cbn [negb].
  set (B := ((A ++ m_pre m) ++ m_key m) ++ m_mid1 m) in *.
  replace (S (length B)) with (length (B ++ [colon])) by (rewrite length_app; simpl; lia).
  rewrite app_assoc in Hraw1. rewrite (skipSpace_at _ _ _ _ Hraw1) by auto using value_nonspace.
  rewrite app_assoc in Hraw1.
  assert (Hcd : isDelimiter c = true) by (by subst c; destruct ms).
  assert (Hcs : isJSONSpace c = false) by (by subst c; destruct ms).
  assert (Hends : ends_value (m_post m ++ c :: rest)).
  { destruct Hpost as [|x ws Hx _]; simpl; [done|]. unfold isDelimiter. by rewrite Hx, orb_true_r. }
  rewrite (skipValue_at _ _ _ _ Hval Hends Hraw1).
  assert ((length raw <=? length ((B ++ [colon]) ++ m_mid2 m))%nat = false) as ->.
  { apply Nat.leb_gt. rewrite Hraw1, !length_app. simpl. lia. }
  rewrite app_assoc in Hraw1. rewrite (skipSpace_at _ _ _ _ Hraw1) by (done || by simpl; rewrite Hcs). rewrite app_assoc in Hraw1.
  rewrite !(byteAt_at _ _ _ _ _ Hraw1).
  assert (((((B ++ [colon]) ++ m_mid2 m) ++ m_val m) ++ m_post m) = A ++ whole m) as ->
    by (unfold B, whole, member_head; by norm_app).
  assert ((B ++ [colon]) ++ m_mid2 m = A ++ m_pre m ++ keyPart m) as -> by (unfold B, keyPart; by norm_app).
  subst c. by destruct ms.
Qed.

(** The start of the value of the last member called [el]; the first member begins
    at [p]. *)
Fixpoint lastStart (el : bytes) (p : nat) (ms : list member) (found : option nat) : option nat :=
  match ms with
  | [] => found
  | m :: ms =>
      lastStart el (S (p + length (whole m))) ms
        (if bool_decide (name m = el) then Some (p + length (m_pre m ++ keyPart m))%nat else found)
  end.

Lemma objectScan_at raw el inner post ms : all_space inner → Forall member_wf ms → ∀ A fuel found,
  raw = A ++ members_text inner ms ++ rbrace :: post → (length ms < fuel)%nat →
  objectScan fuel raw el (length A) found = lastStart el (length A) ms found.
Proof.
  intros Hin Hms. induction Hms as [|m ms Hm Hms IH]; intros A fuel found Hraw Hf; (destruct fuel as [|fuel]; [simpl in Hf; lia|]).
  - simpl in Hraw. cbn [objectScan lastStart]. unfold scanMember, skipWS.
    rewrite (skipSpace_at _ _ _ _ Hraw) by done. rewrite app_assoc in Hraw. by rewrite (drop_at _ _ _ _ Hraw eq_refl).
  - cbn [objectScan lastStart]. rewrite (scanMember_at _ _ _ _ _ _ Hraw) by (by constructor).
    rewrite (length_app A (m_pre m ++ keyPart m)). destruct ms as [|m2 ms]; [done|].
    assert (S (length (A ++ whole m)) = length (A ++ whole m ++ [comma])) as ->
      by (rewrite !length_app; simpl; lia).
    rewrite IH; [|rewrite Hraw, members_cons; by norm_app|simpl in *; lia].
    f_equal. rewrite !length_app. simpl. lia.
Qed.

Lemma lastStart_here el ms1 m ms2 p found : name m = el → el ∉ name <$> ms2 →
  lastStart el p (ms1 ++ m :: ms2) found = Some (p + length (lead ms1 ++ m_pre m ++ keyPart m))%nat.
Proof.
  intros Hn Hni. revert p found. induction ms1 as [|m1 ms1 IH]; intros p found.
  - simpl. rewrite bool_decide_true by done. generalize (Some (p + length (m_pre m ++ keyPart m))%nat).
    generalize (S (p + length (whole m))). clear -Hni. induction ms2 as [|m2 ms2 IH]; intros q f; [done|].
    rewrite fmap_cons, not_elem_of_cons in Hni. destruct Hni as [Hne Hni]. simpl. rewrite bool_decide_false by congruence. auto.
  - cbn [app lastStart]. rewrite IH, lead_cons. f_equal. norm_length; lia.
Qed.

Lemma lastStart_split el p ms found s : lastStart el p ms found = Some s →
  (el ∉ name <$> ms ∧ found = Some s) ∨
  ∃ ms1 m ms2, ms = ms1 ++ m :: ms2 ∧ name m = el ∧ el ∉ name <$> ms2.
Proof.
  revert p found. induction ms as [|m ms IH]; intros p found; simpl.
  - intros ->. left. split; [apply not_elem_of_nil|done].
  - intros [[Hni Hf]|(ms1 & m' & ms2 & -> & Hn & Hni)]%IH.
    + case_bool_decide as Hn; [right; exists [], m, ms; done|]. left. split; [|done].
      rewrite not_elem_of_cons. split; [congruence|done].
    + right. exists (m :: ms1), m', ms2. done.
Qed.

(** ** Elements *)

Abbreviation element := (bytes * bytes * bytes)%type.
Definition element_wf (e : element) : Prop := all_space e.1.1 ∧ json_value e.1.2 ∧ all_space e.2.
Definition elementText (e : element) : bytes := e.1.1 ++ e.1.2 ++ e.2.
Definition array_text (es : list element) : bytes :=
  match es with [] => [] | e :: es => e.1.1 ++ e.1.2 ++ elements_text e.2 es end.
Definition elements_lead (es : list element) : bytes := concat ((λ e, elementText e ++ [comma]) <$> es).

Lemma array_cons e es : array_text (e :: es) = elementText e ++ match es with [] => [] | _ => comma :: array_text es end.
Proof. unfold elementText. destruct e as [[p v] q], es as [|[[p' v'] q'] es]; by norm_app; rewrite ?app_nil_r. Qed.

Lemma array_app es1 e es2 :
  array_text (es1 ++ e :: es2) = elements_lead es1 ++ e.1.1 ++ e.1.2 ++ elements_text e.2 es2.
Proof.
  induction es1 as [|e1 es1 IH]; [done|]. unfold elements_lead in *. cbn [app fmap list_fmap concat].
  rewrite array_cons. destruct (es1 ++ e :: es2) eqn:E; [by destruct es1|]. rewrite IH. by norm_app.
Qed.

Fixpoint nthStart (el idx : Z) (p : nat) (es : list element) : option nat :=
  match es with
  | [] => None
  | e :: es =>
      if idx =? el then Some (p + length e.1.1)%nat else nthStart el (idx + 1) (S (p + length (elementText e))) es
  end.

Lemma arrayScan_at raw el post es : Forall element_wf es → es ≠ [] → ∀ A fuel idx,
  raw = A ++ array_text es ++ rbracket :: post → (length es < fuel)%nat →
  arrayScan fuel raw el idx (length A) = nthStart el idx (length A) es.
Proof.
  induction 1 as [|e es (Hp & Hv & Hq) Hes IH]; intros Hne A fuel idx Hraw Hf; [done|].
  destruct fuel as [|fuel]; [simpl in Hf; lia|].
  assert (Hend : ∃ c rest, raw = (A ++ elementText e) ++ c :: rest ∧ c = match es with [] => rbracket | _ => comma end).
  { rewrite array_cons in Hraw. destruct es; eexists _, _; (split; [rewrite Hraw; by norm_app|done]). }
  destruct Hend as (c & rest & Hend & Hc).
  assert (Hraw1 : raw = A ++ e.1.1 ++ e.1.2 ++ e.2 ++ c :: rest) by (rewrite Hend; unfold elementText; by norm_app).
  cbn [arrayScan nthStart]. unfold skipWS. rewrite (skipSpace_at _ _ _ _ Hraw1) by auto using value_nonspace.
  rewrite app_assoc in Hraw1. rewrite (drop_at _ _ _ _ Hraw1 eq_refl).
  assert (Hcd : isDelimiter c = true) by (by subst c; destruct es).
  assert (Hcs : isJSONSpace c = false) by (by subst c; destruct es).
  assert (Hends : ends_value (e.2 ++ c :: rest)).
  { destruct Hq as [|x ws Hx _]; simpl; [done|]. unfold isDelimiter. by rewrite Hx, orb_true_r. }
  destruct (e.1.2 ++ e.2 ++ c :: rest) as [|x l] eqn:Ex; [by destruct e.1.2, e.2|].
  assert ((x =? rbracket) = false) as ->.
  { apply Z.eqb_neq. intros ->. destruct (json_value_shape _ Hv) as [(y & _ & Ey)|[[Hn Hs]|(o & k & c' & Ey & Ho & _)]];
      [rewrite Ey in Ex; done| |rewrite Ey in Ex; by destruct Ho as [->| ->]].
    destruct e.1.2 as [|y v]; [done|]. inversion Hs as [|? ? Hy _]; subst. injection Ex as -> _. done. }
  destruct (idx =? el) eqn:Ei; [by rewrite (length_app A e.1.1)|]. rewrite <- Ex in Hraw1.
  rewrite (skipValue_at _ _ _ _ Hv Hends Hraw1). rewrite app_assoc in Hraw1.
  rewrite (skipSpace_at _ _ _ _ Hraw1) by (done || by simpl; rewrite Hcs). rewrite app_assoc in Hraw1.
  rewrite (byteAt_at _ _ _ _ _ Hraw1). subst c. destruct es as [|e2 es]; [done|]. change (comma =? comma) with true. cbv iota.
  assert (S (length (((A ++ e.1.1) ++ e.1.2) ++ e.2)) = length (A ++ elementText e ++ [comma])) as ->
    by (unfold elementText; norm_length; lia).
  rewrite IH; [|done|rewrite Hraw, array_cons; by norm_app|simpl in *; lia].
  f_equal. norm_length. lia.
Qed.

Lemma nthStart_here idx p es1 e es2 :
  nthStart (idx + Z.of_nat (length es1)) idx p (es1 ++ e :: es2) = Some (p + length (elements_lead es1 ++ e.1.1))%nat.
Proof.
  revert idx p. induction es1 as [|e1 es1 IH]; intros idx p.
  - simpl. by rewrite Z.add_0_r, Z.eqb_refl.
  - cbn [app nthStart length]. rewrite (proj2 (Z.eqb_neq _ _)) by lia.
    replace (idx + Z.of_nat (S (length es1))) with (idx + 1 + Z.of_nat (length es1)) by lia. rewrite IH.
    unfold elements_lead. cbn [fmap list_fmap concat]. f_equal. norm_length. lia.
Qed.

Lemma nthStart_split el idx p es s : nthStart el idx p es = Some s →
  ∃ es1 e es2, es = es1 ++ e :: es2 ∧ el = idx + Z.of_nat (length es1).
Proof.
  revert idx p. induction es as [|e es IH]; intros idx p; simpl; [done|].
  destruct (Z.eqb_spec idx el) as [->|Hne].
  - intros _. exists [], e, es. split; [done|]. simpl. lia.
  - intros (es1 & e' & es2 & -> & ->)%IH. exists (e :: es1), e', es2. split; [done|]. simpl. lia.
Qed.

(** ** The value at a path *)

(** [value_at v path a x b]: the value [v] is [a ++ x ++ b], and [x] is the value the
    path leads to.  A key leads to the last member with that decoded name, as in
    the decoded view. *)
Inductive value_at : bytes → list pathElement → bytes → bytes → bytes → Prop :=
| va_here v : json_value v → value_at v [] [] v []
| va_member inner ms1 m ms2 path a x b :
    all_space inner → Forall member_wf (ms1 ++ m :: ms2) → name m ∉ name <$> ms2 → value_at (m_val m) path a x b →
    value_at (lbrace :: members_text inner (ms1 ++ m :: ms2) ++ [rbrace]) (Key (name m) :: path)
      (lbrace :: (lead ms1 ++ m_pre m ++ keyPart m) ++ a) x (b ++ tail_text (m_post m) ms2 ++ [rbrace])
| va_element es1 e es2 path a x b :
    Forall element_wf (es1 ++ e :: es2) → value_at e.1.2 path a x b →
    value_at (lbracket :: array_text (es1 ++ e :: es2) ++ [rbracket]) (Index (Z.of_nat (length es1)) :: path)
      (lbracket :: (elements_lead es1 ++ e.1.1) ++ a) x (b ++ elements_text e.2 es2 ++ [rbracket]).

Lemma value_at_split v path a x b : value_at v path a x b → v = a ++ x ++ b.
Proof.
  induction 1 as [v|inner ms1 m ms2 path a x b _ _ _ _ IH|es1 e es2 path a x b _ _ IH].
  - by rewrite app_nil_r.
  - rewrite members_text_app, head_key, IH. by norm_app.
  - rewrite array_app, IH. by norm_app.
Qed.

Lemma array_value es : Forall element_wf es → es ≠ [] → json_value (lbracket :: array_text es ++ [rbracket]).
Proof.
  intros H Hne. destruct H as [|[[p v] q] es (Hp & Hv & Hq) Hes]; [done|]. simpl in *. rewrite <- !app_assoc.
  rewrite list.Forall_forall in Hes. constructor; try done; intros p' x q' Hin; by destruct (Hes _ Hin) as (? & ? & ?).
Qed.

Lemma object_is_value inner ms : all_space inner → Forall member_wf ms → json_value (lbrace :: members_text inner ms ++ [rbrace]).
Proof.
  intros Hin Hms. constructor; [done|by eapply Forall_impl; [|exact Hms]; intros ? []|].
  intros m Hm. by apply (proj1 (list.Forall_forall _ _) Hms).
Qed.

Lemma value_at_value v path a x b : value_at v path a x b → json_value v ∧ json_value x.
Proof.
  induction 1 as [v Hv|inner ms1 m ms2 path a x b Hin Hms _ _ IH|es1 e es2 path a x b Hes _ IH].
  - done.
  - split; [by apply object_is_value|apply IH].
  - split; [apply array_value; [done|by destruct es1]|apply IH].
Qed.
