(* ===== verification/RawSpanTheorems.v ===== *)
(** * What a raw span is

    On every JSON text the span of a path is the value the path leads to, by the
    last member of a name as in the decoded view, and there is one exactly when
    the path leads to a value; replacing its bytes by another value is that edit of
    the document. *)

From stdpp Require Import base list strings gmap numbers.
From S2P Require Import Prelude Utf8 RawJSON RawJSONGrammar RawJSONEdits RawJSONTheorems RawSpan.

Open Scope Z_scope.

(** ** One step of a path *)

Lemma space_ends ws c rest : all_space ws → isDelimiter c = true → ends_value (ws ++ c :: rest).
Proof. intros Hws Hc. destruct Hws as [|x ws Hx _]; simpl; [done|]. unfold isDelimiter. by rewrite Hx, orb_true_r. Qed.

Lemma elements_end ws es post : all_space ws → ends_value (elements_text ws es ++ rbracket :: post).
Proof. intros Hws. destruct es as [|[[p v] q] es]; simpl; rewrite <- ?app_assoc; by apply space_ends. Qed.


Lemma child_start (pre l : bytes) c : S (length pre + length l) = length (pre ++ c :: l).
Proof. norm_length. lia. Qed.

Lemma members_length inner ms : (length ms ≤ S (length (members_text inner ms)))%nat.
Proof. destruct ms as [|m ms]; simpl; [lia|]. rewrite !length_app. pose proof (tail_length (m_post m) ms). lia. Qed.

Lemma array_length es : (length es ≤ S (length (array_text es)))%nat.
Proof.
  induction es as [|e es IH]; [simpl; lia|]. rewrite array_cons, length_app. destruct es as [|e2 es]; [simpl; lia|].
  cbn [length] in *. assert (1 ≤ length (elementText e) + length (comma :: array_text (e2 :: es)))%nat by (cbn [length]; lia).
  cbn [length] in *. lia.
Qed.

Lemma spanAt_key raw pre inner ms rest el path : all_space inner → Forall member_wf ms →
  raw = pre ++ (lbrace :: members_text inner ms ++ [rbrace]) ++ rest →
  spanAt raw (length pre) (Key el :: path)
  = (lastStart el (S (length pre)) ms None ≫= λ s, spanAt raw s path).
Proof.
  intros Hin Hms Hraw. cbn [spanAt]. rewrite (byteAt_at raw pre lbrace (members_text inner ms ++ rbrace :: rest))
    by (rewrite Hraw; by norm_app). rewrite Z.eqb_refl. cbn [negb].
  assert (S (length pre) = length (pre ++ [lbrace])) as -> by (rewrite length_app; simpl; lia).
  rewrite (objectScan_at raw el inner rest ms Hin Hms (pre ++ [lbrace])); [done|rewrite Hraw; by norm_app|].
  pose proof (members_length inner ms). rewrite Hraw. norm_length. lia.
Qed.

Lemma spanAt_index raw pre es rest el path : Forall element_wf es → es ≠ [] →
  raw = pre ++ (lbracket :: array_text es ++ [rbracket]) ++ rest →
  spanAt raw (length pre) (Index el :: path)
  = (nthStart el 0 (S (length pre)) es ≫= λ s, spanAt raw s path).
Proof.
  intros Hes Hne Hraw. cbn [spanAt]. rewrite (byteAt_at raw pre lbracket (array_text es ++ rbracket :: rest))
    by (rewrite Hraw; by norm_app). rewrite Z.eqb_refl. cbn [negb].
  assert (S (length pre) = length (pre ++ [lbracket])) as -> by (rewrite length_app; simpl; lia).
  rewrite (arrayScan_at raw el rest es Hes Hne (pre ++ [lbracket])); [done|rewrite Hraw; by norm_app|].
  pose proof (array_length es). rewrite Hraw. norm_length. lia.
Qed.

Lemma value_in_object pre inner ms1 m ms2 rest :
  pre ++ (lbrace :: members_text inner (ms1 ++ m :: ms2) ++ [rbrace]) ++ rest
  = (pre ++ lbrace :: lead ms1 ++ m_pre m ++ keyPart m) ++ m_val m ++ tail_text (m_post m) ms2 ++ rbrace :: rest.
Proof. rewrite members_text_app, head_key. by norm_app. Qed.

Lemma value_in_array pre es1 (e : element) es2 rest :
  pre ++ (lbracket :: array_text (es1 ++ e :: es2) ++ [rbracket]) ++ rest
  = (pre ++ lbracket :: elements_lead es1 ++ e.1.1) ++ e.1.2 ++ elements_text e.2 es2 ++ rbracket :: rest.
Proof. rewrite array_app. by norm_app. Qed.

(** ** Completeness *)

Lemma spanAt_complete v path a x b : value_at v path a x b → ∀ raw pre rest,
  ends_value rest → raw = pre ++ v ++ rest →
  spanAt raw (length pre) path = Some (length (pre ++ a), length (pre ++ a ++ x)).
Proof.
  induction 1 as [v Hv|inner ms1 m ms2 path a x b Hin Hms Hn Hv IH|es1 e es2 path a x b Hes Hv IH]; intros raw pre rest Hr Hraw.
  - cbn [spanAt]. rewrite (skipValue_at _ _ _ _ Hv Hr Hraw). rewrite app_nil_r. done.
  - rewrite (spanAt_key _ _ _ _ _ _ _ Hin Hms Hraw), (lastStart_here _ ms1 m ms2) by done. cbn [mbind option_bind].
    rewrite value_in_object in Hraw. apply Forall_app in Hms as [_ [[Hm _] _]%list.Forall_cons].
    cbn [Nat.add]. rewrite (child_start pre _ lbrace).
    rewrite (IH _ _ _ (tail_ends _ _ _ (proj1 (proj2 (proj2 (proj2 Hm))))) Hraw). do 2 f_equal; norm_length; lia.
  - rewrite (spanAt_index raw pre (es1 ++ e :: es2) rest _ _ Hes ltac:(by destruct es1) Hraw).
    pose proof (nthStart_here 0 (S (length pre)) es1 e es2) as Hs. rewrite Z.add_0_l in Hs. rewrite Hs. cbn [mbind option_bind].
    rewrite value_in_array in Hraw. apply Forall_app in Hes as [_ [(_ & _ & Hq) _]%list.Forall_cons].
    cbn [Nat.add]. rewrite (child_start pre _ lbracket).
    rewrite (IH _ _ _ (elements_end _ _ _ Hq) Hraw). do 2 f_equal; norm_length; lia.
Qed.

(** ** Soundness *)

Lemma value_container v : json_value v →
  (∃ inner ms, v = lbrace :: members_text inner ms ++ [rbrace] ∧ all_space inner ∧ Forall member_wf ms)
  ∨ (∃ ws, v = lbracket :: ws ++ [rbracket] ∧ all_space ws)
  ∨ (∃ es, v = lbracket :: array_text es ++ [rbracket] ∧ es ≠ [] ∧ Forall element_wf es)
  ∨ (∃ c l, v = c :: l ∧ c ≠ lbrace ∧ c ≠ lbracket).
Proof.
  destruct 1 as [s (x & _ & ->)|s Hs|s Hs|inner ms Hin Hms Hv|ws Hws|pre v post es Hp Hq Hv Hes Hev].
  - right; right; right. eauto.
  - apply number_scalar in Hs as [Hne Hs]. destruct s as [|c s]; [done|]. right; right; right. exists c, s.
    inversion Hs as [|? ? Hc _]; subst. split; [done|]. split; by intros ->.
  - right; right; right. apply elem_of_cons in Hs as [->|[->|[->|[]%not_elem_of_nil]%elem_of_cons]%elem_of_cons];
      by eexists _, _.
  - left. exists inner, ms. split; [done|]. split; [done|]. apply list.Forall_forall. intros m Hm. split; [|by apply Hv].
    by apply (proj1 (list.Forall_forall _ _) Hms).
  - right; left. eauto.
  - right; right; left. exists ((pre, v, post) :: es). cbn. split; [by norm_app|]. split; [done|].
    constructor; [done|]. apply list.Forall_forall. intros [[p x] q] Hin. destruct (Hes _ _ _ Hin). split; [done|]. eauto.
Qed.

Lemma spanAt_sound path : ∀ v raw pre rest s e, json_value v → ends_value rest → raw = pre ++ v ++ rest →
  spanAt raw (length pre) path = Some (s, e) →
  ∃ a x b, value_at v path a x b ∧ s = length (pre ++ a) ∧ e = length (pre ++ a ++ x).
Proof.
  induction path as [|el path IH]; intros v raw pre rest s e Hv Hr Hraw Hs.
  { cbn [spanAt] in Hs. rewrite (skipValue_at _ _ _ _ Hv Hr Hraw) in Hs. injection Hs as <- <-.
    exists [], v, []. split; [by constructor|]. by rewrite app_nil_r. }
  destruct (value_container v Hv) as [(inner & ms & -> & Hin & Hms)|[(ws & -> & Hws)|[(es & -> & Hne & Hes)|(c & l & -> & Hb & Hk)]]].
  - destruct el as [k|i].
    2: { cbn [spanAt] in Hs. rewrite (byteAt_at raw pre lbrace _ _ Hraw) in Hs. done. }
    rewrite (spanAt_key _ _ _ _ _ _ _ Hin Hms Hraw) in Hs.
    destruct (lastStart k (S (length pre)) ms None) as [st|] eqn:El; [|done]. cbn [mbind option_bind] in Hs.
    destruct (lastStart_split _ _ _ _ _ El) as [[_ ?]|(ms1 & m & ms2 & -> & <- & Hni)]; [done|].
    rewrite (lastStart_here _ ms1 m ms2) in El by done. injection El as <-. pose proof Hms as Hms'.
    rewrite value_in_object in Hraw. apply Forall_app in Hms as [_ [[Hm Hmv] _]%list.Forall_cons].
    rewrite (child_start pre _ lbrace) in Hs.
    destruct (IH _ _ _ _ _ _ Hmv (tail_ends _ _ _ (proj1 (proj2 (proj2 (proj2 Hm))))) Hraw Hs) as (a & x & b & Hat & -> & ->).
    eexists _, x, _. split; [by apply va_member|]. split; norm_length; lia.
  - destruct el as [k|i]; cbn [spanAt] in Hs; rewrite (byteAt_at raw pre lbracket _ _ Hraw) in Hs; [done|].
    change (negb (lbracket =? lbracket)) with false in Hs. cbv iota in Hs. cbn [arrayScan] in Hs. unfold skipWS in Hs.
    assert (Hraw1 : raw = (pre ++ [lbracket]) ++ ws ++ rbracket :: rest) by (rewrite Hraw; by norm_app).
    replace (S (length pre)) with (length (pre ++ [lbracket])) in Hs by (norm_length; lia).
    rewrite (skipSpace_at _ _ _ _ Hraw1) in Hs by done. rewrite app_assoc in Hraw1.
    by rewrite (drop_at _ _ _ _ Hraw1 eq_refl) in Hs.
  - destruct el as [k|i].
    { cbn [spanAt] in Hs. by rewrite (byteAt_at raw pre lbracket _ _ Hraw) in Hs. }
    rewrite (spanAt_index _ _ _ _ _ _ Hes Hne Hraw) in Hs.
    destruct (nthStart i 0 (S (length pre)) es) as [st|] eqn:El; [|done]. cbn [mbind option_bind] in Hs.
    destruct (nthStart_split _ _ _ _ _ El) as (es1 & e0 & es2 & -> & ->). rewrite nthStart_here in El. injection El as <-.
    pose proof Hes as Hes'. rewrite value_in_array in Hraw. apply Forall_app in Hes as [_ [(_ & He & Hq) _]%list.Forall_cons].
    rewrite (child_start pre _ lbracket) in Hs.
    destruct (IH _ _ _ _ _ _ He (elements_end _ _ _ Hq) Hraw Hs) as (a & x & b & Hat & -> & ->).
    rewrite Z.add_0_l. eexists _, x, _. split; [by apply va_element|]. split; norm_length; lia.
  - assert (byteAt raw (length pre) lbrace = false ∧ byteAt raw (length pre) lbracket = false) as [H1 H2].
    { rewrite !(byteAt_at raw pre c (l ++ rest)) by (rewrite Hraw; done). split; by apply Z.eqb_neq. }
    destruct el; cbn [spanAt] in Hs; by rewrite ?H1, ?H2 in Hs.
Qed.

(** ** What a path reaches *)

Definition reaches (v : bytes) (path : list pathElement) (x : bytes) : Prop := ∃ a b, value_at v path a x b.

Lemma reaches_spanAt v path x : json_value v →
  reaches v path x ↔ ∃ s e, spanAt v 0 path = Some (s, e) ∧ slice v s e = x.
Proof.
  intros Hv. split.
  - intros (a & b & Hat). exists (length a), (length (a ++ x)).
    split; [by apply (spanAt_complete _ _ _ _ _ Hat v [] []); [|rewrite app_nil_r]|].
    by apply (slice_mid _ a x b); [apply (value_at_split _ _ _ _ _ Hat)|..].
  - intros (s & e & Hs & <-). apply (spanAt_sound path v v [] [] s e Hv I) in Hs as (a & x & b & Hat & -> & ->);
      [|by rewrite app_nil_r]. exists a, b. cbn [app].
    by rewrite (slice_mid _ a x b _ _ (value_at_split _ _ _ _ _ Hat) eq_refl eq_refl).
Qed.

(** A span inside a part of the document is the span in that part, shifted. *)
Lemma reaches_inside raw pre v rest path x : json_value v → ends_value rest → raw = pre ++ v ++ rest →
  reaches v path x ↔ ∃ s e, spanAt raw (length pre) path = Some (s, e) ∧ slice raw s e = x.
Proof.
  intros Hv Hr Hraw. assert (Hsl : ∀ a y b, value_at v path a y b → slice raw (length (pre ++ a)) (length (pre ++ a ++ y)) = y).
  { intros a y b Hat. apply (slice_mid _ (pre ++ a) y (b ++ rest)); [|done|by rewrite app_assoc].
    rewrite Hraw, (value_at_split _ _ _ _ _ Hat). by norm_app. }
  split.
  - intros (a & b & Hat). eexists _, _. split; [by eapply spanAt_complete|]. by eapply Hsl.
  - intros (s & e & Hs & <-). apply (spanAt_sound path v) with (rest := rest) in Hs as (a & x & b & Hat & -> & ->); [|done..].
    rewrite (Hsl _ _ _ Hat). by exists a, b.
Qed.

Definition lastNamed (k : bytes) (ms : list member) : option member := list.last (filter (λ m, name m = k) ms).

Lemma lastNamed_here ms1 m ms2 : name m ∉ name <$> ms2 → lastNamed (name m) (ms1 ++ m :: ms2) = Some m.
Proof.
  intros Hn. unfold lastNamed. rewrite list.filter_app, list.filter_cons, decide_True by done.
  assert (filter (λ m', name m' = name m) ms2 = []) as ->; [|by rewrite last_snoc].
  clear -Hn. induction ms2 as [|m2 ms2 IH]; [done|]. rewrite fmap_cons, not_elem_of_cons in Hn. destruct Hn.
  rewrite list.filter_cons, decide_False by congruence. auto.
Qed.

Lemma lastNamed_other k ms1 m m' ms2 : name m = name m' → name m ≠ k →
  lastNamed k (ms1 ++ m :: ms2) = lastNamed k (ms1 ++ m' :: ms2).
Proof. intros Hm Hk. unfold lastNamed. by rewrite !list.filter_app, !list.filter_cons, !decide_False by congruence. Qed.

Lemma lastNamed_split k ms m : lastNamed k ms = Some m →
  ∃ ms1 ms2, ms = ms1 ++ m :: ms2 ∧ name m = k ∧ k ∉ name <$> ms2.
Proof.
  unfold lastNamed. induction ms as [|x ms IH] using rev_ind; [done|].
  rewrite list.filter_app, list.filter_cons, list.filter_nil. case_decide as Hx.
  - rewrite last_snoc. intros [= ->]. exists ms, []. split; [done|]. split; [done|]. apply not_elem_of_nil.
  - rewrite app_nil_r. intros (ms1 & ms2 & -> & Hn & Hni)%IH. exists ms1, (ms2 ++ [x]).
    split; [by norm_app|]. split; [done|]. rewrite fmap_app, not_elem_of_app. split; [done|].
    cbn [fmap list_fmap]. rewrite not_elem_of_cons. split; [congruence|apply not_elem_of_nil].
Qed.

Lemma reaches_key inner ms k path x : all_space inner → Forall member_wf ms →
  reaches (lbrace :: members_text inner ms ++ [rbrace]) (Key k :: path) x
  ↔ ∃ m, lastNamed k ms = Some m ∧ reaches (m_val m) path x.
Proof.
  intros Hin Hms. split.
  - intros (s & e & Hs & Hx)%(reaches_spanAt _ _ _ (object_is_value _ _ Hin Hms)).
    assert (Hraw : lbrace :: members_text inner ms ++ [rbrace] = [] ++ (lbrace :: members_text inner ms ++ [rbrace]) ++ [])
      by (by rewrite app_nil_r).
    rewrite (spanAt_key _ [] _ _ _ _ _ Hin Hms Hraw) in Hs.
    destruct (lastStart k _ ms None) as [st|] eqn:El; [|done]. cbn [mbind option_bind] in Hs.
    destruct (lastStart_split _ _ _ _ _ El) as [[_ ?]|(ms1 & m & ms2 & -> & <- & Hni)]; [done|].
    exists m. split; [by apply lastNamed_here|]. rewrite (lastStart_here _ ms1 m ms2) in El by done. injection El as <-.
    pose proof Hms as [_ [[Hm Hmv] _]%list.Forall_cons]%Forall_app. rewrite value_in_object in Hraw.
    apply (reaches_inside _ _ _ _ _ _ Hmv (tail_ends _ _ _ (proj1 (proj2 (proj2 (proj2 Hm))))) Hraw). eauto.
  - intros (m & (ms1 & ms2 & -> & <- & Hni)%lastNamed_split & a & b & Hat). eexists _, _. by apply va_member.
Qed.

Lemma reaches_index es i path x : Forall element_wf es → es ≠ [] →
  reaches (lbracket :: array_text es ++ [rbracket]) (Index i :: path) x
  ↔ ∃ e, 0 ≤ i ∧ es !! Z.to_nat i = Some e ∧ reaches e.1.2 path x.
Proof.
  intros Hes Hne. split.
  - intros (s & e & Hs & Hx)%(reaches_spanAt _ _ _ (array_value _ Hes Hne)).
    assert (Hraw : lbracket :: array_text es ++ [rbracket] = [] ++ (lbracket :: array_text es ++ [rbracket]) ++ [])
      by (by rewrite app_nil_r).
    rewrite (spanAt_index _ [] _ _ _ _ Hes Hne Hraw) in Hs.
    destruct (nthStart i 0 _ es) as [st|] eqn:El; [|done]. cbn [mbind option_bind] in Hs.
    destruct (nthStart_split _ _ _ _ _ El) as (es1 & e0 & es2 & -> & ->). exists e0. split; [lia|].
    rewrite Z.add_0_l, Nat2Z.id, list_lookup_middle by done. split; [done|]. rewrite nthStart_here in El. injection El as <-.
    pose proof Hes as [_ [(_ & He & Hq) _]%list.Forall_cons]%Forall_app. rewrite value_in_array in Hraw.
    apply (reaches_inside _ _ _ _ _ _ He (elements_end _ _ _ Hq) Hraw). eauto.
  - intros (e & Hi & (es1 & es2 & -> & Hl)%list_elem_of_split_length & a & b & Hat).
    replace i with (Z.of_nat (length es1)) by lia. eexists _, _. by apply va_element.
Qed.

Lemma reaches_object_index inner ms i path x : all_space inner → Forall member_wf ms →
  ¬ reaches (lbrace :: members_text inner ms ++ [rbrace]) (Index i :: path) x.
Proof. intros Hin Hms (s & e & Hs & _)%(reaches_spanAt _ _ _ (object_is_value _ _ Hin Hms)). done. Qed.

Lemma reaches_array_key es k path x : Forall element_wf es → es ≠ [] →
  ¬ reaches (lbracket :: array_text es ++ [rbracket]) (Key k :: path) x.
Proof. intros Hes Hne (s & e & Hs & _)%(reaches_spanAt _ _ _ (array_value _ Hes Hne)). done. Qed.

(** ** Replacing the bytes of a span *)

(** Neither path leads through the other. *)
Fixpoint apart (p q : list pathElement) : Prop :=
  match p, q with
  | a :: p, b :: q => a ≠ b ∨ apart p q
  | _, _ => False
  end.

Definition replaceValue (m : member) (v : bytes) : member :=
  mkMember (m_pre m) (m_key m) (m_mid1 m) (m_mid2 m) v (m_post m).

Lemma replace_member inner ms1 m ms2 a x b y : m_val m = a ++ x ++ b →
  (lbrace :: (lead ms1 ++ m_pre m ++ keyPart m) ++ a) ++ y ++ b ++ tail_text (m_post m) ms2 ++ [rbrace]
  = lbrace :: members_text inner (ms1 ++ replaceValue m (a ++ y ++ b) :: ms2) ++ [rbrace].
Proof. intros Hv. rewrite members_text_app, head_key. unfold keyPart. by norm_app. Qed.

Lemma replace_element es1 (e : element) es2 a x b y : e.1.2 = a ++ x ++ b →
  (lbracket :: (elements_lead es1 ++ e.1.1) ++ a) ++ y ++ b ++ elements_text e.2 es2 ++ [rbracket]
  = lbracket :: array_text (es1 ++ (e.1.1, a ++ y ++ b, e.2) :: es2) ++ [rbracket].
Proof. intros Hv. rewrite array_app. by norm_app. Qed.

Lemma replace_wf_members ms1 m v ms2 : json_value v → Forall member_wf (ms1 ++ m :: ms2) →
  Forall member_wf (ms1 ++ replaceValue m v :: ms2).
Proof. intros Hv [? [[Hm _] ?]%list.Forall_cons]%Forall_app. apply Forall_app. split; [done|]. by constructor. Qed.

Lemma replace_wf_elements es1 (e : element) v es2 : json_value v → Forall element_wf (es1 ++ e :: es2) →
  Forall element_wf (es1 ++ (e.1.1, v, e.2) :: es2).
Proof. intros Hv [? [(? & _ & ?) ?]%list.Forall_cons]%Forall_app. apply Forall_app. split; [done|]. by constructor. Qed.

Lemma value_at_replace v path a x b y : value_at v path a x b → json_value y → value_at (a ++ y ++ b) path a y b.
Proof.
  intros H Hy. induction H as [v Hv|inner ms1 m ms2 path a x b Hin Hms Hn Hat IH|es1 e es2 path a x b Hes Hat IH].
  - cbn [app]. rewrite app_nil_r. by constructor.
  - rewrite (replace_member inner ms1 m ms2 a x b) by (by eapply value_at_split).
    pose proof (value_at_value _ _ _ _ _ IH) as [Hv _].
    apply (va_member inner ms1 (replaceValue m (a ++ y ++ b)) ms2 path a y b Hin); [by apply replace_wf_members|done|done].
  - rewrite (replace_element es1 e es2 a x b) by (by eapply value_at_split).
    pose proof (value_at_value _ _ _ _ _ IH) as [Hv _].
    apply (va_element es1 (e.1.1, a ++ y ++ b, e.2) es2 path a y b); [by apply replace_wf_elements|done].
Qed.

Lemma reaches_apart v path a x b y : value_at v path a x b → json_value y → ∀ q z, apart path q →
  reaches (a ++ y ++ b) q z ↔ reaches v q z.
Proof.
  intros H Hy. induction H as [v Hv|inner ms1 m ms2 path a x b Hin Hms Hn Hat IH|es1 e es2 path a x b Hes Hat IH];
    intros [|el q] z Hap; try done; cbn [apart] in Hap.
  - rewrite (replace_member inner ms1 m ms2 a x b) by (by eapply value_at_split).
    pose proof (value_at_value _ _ _ _ _ (value_at_replace _ _ _ _ _ _ Hat Hy)) as [Hv _].
    pose proof (replace_wf_members ms1 m _ ms2 Hv Hms) as Hms'.
    destruct el as [k|i]; [|split; by intros ?%reaches_object_index]. rewrite !reaches_key by done.
    destruct (decide (name m = k)) as [<-|Hk].
    + destruct Hap as [|Hap]; [done|]. rewrite lastNamed_here by done.
      pose proof (lastNamed_here ms1 (replaceValue m (a ++ y ++ b)) ms2 Hn) as Hl. change (name (replaceValue _ _)) with (name m) in Hl.
      rewrite Hl. specialize (IH q z Hap). split; intros (m' & [= <-] & Hr); eexists; (split; [done|]); by apply IH.
    + by rewrite (lastNamed_other k ms1 m (replaceValue m (a ++ y ++ b)) ms2).
  - rewrite (replace_element es1 e es2 a x b) by (by eapply value_at_split).
    pose proof (value_at_value _ _ _ _ _ (value_at_replace _ _ _ _ _ _ Hat Hy)) as [Hv _].
    pose proof (replace_wf_elements es1 e _ es2 Hv Hes) as Hes'.
    destruct el as [k|i]; [split; intros Hr; exfalso; by eapply (reaches_array_key); [| |exact Hr]; try done; destruct es1|].
    rewrite !reaches_index by (done || by destruct es1).
    destruct (decide (i = Z.of_nat (length es1))) as [->|Hi].
    + destruct Hap as [|Hap]; [done|]. rewrite Nat2Z.id, !list_lookup_middle by done. specialize (IH q z Hap).
      split; intros (e' & ? & [= <-] & Hr); eexists; (split; [done|]; split; [done|]); by apply IH.
    + assert (0 ≤ i → (es1 ++ (e.1.1, a ++ y ++ b, e.2) :: es2) !! Z.to_nat i = (es1 ++ e :: es2) !! Z.to_nat i) as Hlk.
      { intros Hpos. assert (Hne : (Z.to_nat i ≠ length es1)%nat) by lia. rewrite !lookup_app.
        destruct (es1 !! Z.to_nat i) eqn:E; [done|]. apply lookup_ge_None in E.
        rewrite !lookup_cons. destruct (Z.to_nat i - length es1)%nat eqn:Es; [lia|done]. }
      split; intros (e' & Hpos & Hl & Hr); exists e'; (split; [done|]; split; [|done]); rewrite <- Hl; [symmetry|]; auto.
Qed.

(** ** Documents *)

Lemma spaces_end ws : all_space ws → ends_value ws.
Proof. intros [|x l Hx _]; simpl; [done|]. unfold isDelimiter. by rewrite Hx, orb_true_r. Qed.

Section Document.
Context (raw before v after : bytes).
Context (Hbefore : all_space before) (Hv : json_value v) (Hafter : all_space after) (Hraw : raw = before ++ v ++ after).

Lemma span_at_value path : rawJSONSpanAt raw path = spanAt raw (length before) path.
Proof.
  unfold rawJSONSpanAt, skipWS.
  pose proof (skipSpace_at raw [] before (v ++ after) Hraw Hbefore (value_nonspace _ _ Hv)) as Hs.
  change (skipSpace raw 0 = length before) in Hs. rewrite Hs. assert (v ≠ []) as Hne.
  { intros ->. destruct (json_value_shape [] Hv) as [(y & _ & ?)|[[? _]|(? & ? & ? & ? & _)]]; done. }
  assert ((length raw <=? length before)%nat = false) as ->; [|done].
  apply Nat.leb_gt. rewrite Hraw, !length_app. destruct v; [done|]. simpl. lia.
Qed.

Lemma raw_span_reaches path x : rawJSONSpan raw path = Some x ↔ reaches v path x.
Proof.
  unfold rawJSONSpan. rewrite span_at_value, (reaches_inside _ _ _ _ _ _ Hv (spaces_end _ Hafter) Hraw).
  destruct (spanAt raw (length before) path) as [[s e]|]; cbn.
  - split; [intros [= <-]; eauto|]. by intros (? & ? & [= <- <-] & ->).
  - split; [done|]. by intros (? & ? & ? & _).
Qed.

Lemma span_at_exact path s e :
  rawJSONSpanAt raw path = Some (s, e) ↔
  ∃ a x b, value_at v path a x b ∧ s = length (before ++ a) ∧ e = length (before ++ a ++ x).
Proof.
  rewrite span_at_value. split.
  - intros Hs. by apply (spanAt_sound path v raw before after s e Hv (spaces_end _ Hafter) Hraw).
  - intros (a & x & b & Hat & -> & ->). by apply (spanAt_complete _ _ _ _ _ Hat raw before after (spaces_end _ Hafter)).
Qed.

(** C33. On every JSON text, whatever its nesting, escapes and whitespace, the raw span
    of a path is found exactly when the path leads to a value (by the last member
    with the decoded name, as in the decoded view), and its offsets and its bytes are
    those of that value in the document. *)
Theorem raw_span_exact path :
  (∀ s e, rawJSONSpanAt raw path = Some (s, e) ↔
     ∃ a x b, value_at v path a x b ∧ s = length (before ++ a) ∧ e = length (before ++ a ++ x))
  ∧ ∀ x, rawJSONSpan raw path = Some x ↔ ∃ a b, value_at v path a x b.
Proof. split; [apply span_at_exact|apply raw_span_reaches]. Qed.
End Document.

Lemma splice_replaces raw path s e y :
  json_text raw → json_value y → rawJSONSpanAt raw path = Some (s, e) →
  let out := take s raw ++ y ++ drop e raw in
  json_text out ∧ rawJSONSpan out path = Some y ∧ (∀ q, apart path q → rawJSONSpan out q = rawJSONSpan raw q).
Proof.
  intros (before & v & after & Hb & Hv & Ha & Hraw) Hy Hs out.
  pose proof (span_at_value raw before v after Hb Hv Hraw path) as Hp. rewrite Hs in Hp. symmetry in Hp.
  apply (spanAt_sound path v raw before after s e Hv (spaces_end _ Ha) Hraw) in Hp as (a & x & b & Hat & -> & ->).
  pose proof (value_at_split _ _ _ _ _ Hat) as Hsplit. pose proof (value_at_replace _ _ _ _ _ _ Hat Hy) as Hat'.
  assert (Hout : out = before ++ (a ++ y ++ b) ++ after).
  { unfold out. rewrite (take_at raw (before ++ a) (x ++ b ++ after)) by (done || rewrite Hraw, Hsplit; by norm_app).
    rewrite (drop_at raw (before ++ a ++ x) (b ++ after)) by (done || rewrite Hraw, Hsplit; by norm_app). by norm_app. }
  pose proof (value_at_value _ _ _ _ _ Hat') as [Hv' _].
  split; [exists before, (a ++ y ++ b), after; done|]. split.
  - apply (raw_span_reaches out before _ after Hb Hv' Ha Hout). by exists a, b.
  - intros q Hq. pose proof (λ z, raw_span_reaches out before _ after Hb Hv' Ha Hout q z) as H1.
    pose proof (λ z, raw_span_reaches raw before v after Hb Hv Ha Hraw q z) as H2.
    pose proof (λ z, reaches_apart _ _ _ _ _ _ Hat Hy q z Hq) as H3. apply option_eq. intros z. by rewrite H1, H3, H2.
Qed.

(** Writing another JSON value over the bytes of a raw span yields a JSON text in
    which the path leads to the new value and every path apart from it leads to
    the bytes it led to before, or to nothing if it did so before. *)
Theorem raw_span_splice raw path s e y :
  json_text raw → json_value y → rawJSONSpanAt raw path = Some (s, e) →
  let out := take s raw ++ y ++ drop e raw in
  json_text out ∧ rawJSONSpan out path = Some y ∧ (∀ q, apart path q → rawJSONSpan out q = rawJSONSpan raw q).
Proof. apply splice_replaces. Qed.

(** ** The number of rounds

    On any bytes, JSON or not, every round of the three loops moves on, so the
    rounds RawSpan allows are never used up. *)

Lemma spaces_le l : (spaces l ≤ length l)%nat.
Proof. induction l as [|c l IH]; simpl; [lia|]. destruct (isJSONSpace c); simpl; lia. Qed.

Lemma skipWS_ge doc j : (j ≤ skipWS doc j)%nat.
Proof. unfold skipWS, skipSpace. lia. Qed.

Lemma byteAt_lt doc j c : byteAt doc j c = true → (j < length doc)%nat.
Proof.
  unfold byteAt. intros H. destruct (drop j doc) eqn:E; [done|]. apply (f_equal length) in E. rewrite length_drop in E. simpl in E. lia.
Qed.

Lemma drop_lt (doc : bytes) j c l : drop j doc = c :: l → (j < length doc)%nat.
Proof. intros E%(f_equal length). rewrite length_drop in E. simpl in E. lia. Qed.

Lemma scanStringEnd_gt doc i e : scanStringEnd doc i = Some e → (i < e)%nat.
Proof. unfold scanStringEnd. intros (n & _ & ->)%fmap_Some. lia. Qed.

Lemma skipContainerFrom_ge fuel doc op cl d j : (j ≤ length doc)%nat → (j ≤ skipContainerFrom fuel doc op cl d j)%nat.
Proof.
  revert d j. induction fuel as [|fuel IH]; intros d j Hj; cbn [skipContainerFrom]; [done|].
  destruct (drop j doc) as [|c l] eqn:E; [done|]. apply drop_lt in E.
  assert (∀ d, (j ≤ skipContainerFrom fuel doc op cl d (S j))%nat) as Hs by (intros d'; specialize (IH d' (S j)); lia).
  repeat match goal with |- context [if ?b then _ else _] => destruct b end; try done; try lia.
  destruct (scanStringEnd doc j) as [e|] eqn:Ee; [|done]. apply scanStringEnd_gt in Ee.
  destruct (decide (e ≤ length doc)%nat); [specialize (IH d e); lia|].
  destruct fuel as [|fuel]; cbn [skipContainerFrom]; [done|]. by rewrite drop_ge by lia.
Qed.

Lemma skipContainerFrom_fuel fuel doc op cl d j : (length doc - j ≤ fuel)%nat →
  skipContainerFrom (S fuel) doc op cl d j = skipContainerFrom fuel doc op cl d j.
Proof.
  revert d j. induction fuel as [|fuel IH]; intros d j Hf.
  - cbn. by rewrite drop_ge by lia.
  - remember (S fuel) as f. cbn [skipContainerFrom]. subst f. cbn [skipContainerFrom].
    destruct (drop j doc) as [|c l] eqn:E; [done|]. apply drop_lt in E.
    assert (∀ d, skipContainerFrom (S fuel) doc op cl d (S j) = skipContainerFrom fuel doc op cl d (S j)) as Hs by (intros; apply IH; lia).
    cbn [skipContainerFrom] in Hs. rewrite !Hs.
    destruct (scanStringEnd doc j) as [e|] eqn:Ee; [|done]. apply scanStringEnd_gt in Ee.
    specialize (IH d e ltac:(lia)). cbn [skipContainerFrom] in IH. by rewrite IH.
Qed.

Lemma skipValue_ge doc j : (j < length doc)%nat → (j ≤ skipValue doc j)%nat.
Proof.
  intros Hj. unfold skipValue. destruct (drop j doc) as [|c l]; [lia|].
  pose proof (skipContainerFrom_ge (length doc) doc lbrace rbrace 1 (S j) ltac:(lia)).
  pose proof (skipContainerFrom_ge (length doc) doc lbracket rbracket 1 (S j) ltac:(lia)).
  unfold skipContainer. destruct (c =? lbrace); [lia|]. destruct (c =? lbracket); [lia|].
  destruct (c =? quote); [|lia]. destruct (scanStringEnd doc j) eqn:E; simpl; [apply scanStringEnd_gt in E|]; lia.
Qed.

Lemma scanMember_next doc j key start next : scanMember doc j = ScanMember key start next false →
  (j < next ≤ length doc)%nat.
Proof.
  unfold scanMember. pose proof (skipWS_ge doc j). destruct (drop (skipWS doc j) doc) as [|c l]; [done|].
  destruct (c =? rbrace); [done|]. destruct (negb (c =? quote)); [done|].
  destruct (scanStringEnd doc (skipWS doc j)) as [ke|] eqn:E; [|done]. apply scanStringEnd_gt in E.
  destruct (unescapeJSONString _); [|done]. cbv zeta. pose proof (skipWS_ge doc ke).
  destruct (negb (byteAt doc (skipWS doc ke) colon)); [done|].
  pose proof (skipWS_ge doc (S (skipWS doc ke))).
  destruct (length doc <=? skipWS doc (S (skipWS doc ke)))%nat eqn:El; [done|]. apply Nat.leb_gt in El.
  pose proof (skipValue_ge doc _ El). pose proof (skipWS_ge doc (skipValue doc (skipWS doc (S (skipWS doc ke))))).
  destruct (byteAt doc _ rbrace); [done|]. destruct (byteAt doc _ comma) eqn:Eb; [|done]. apply byteAt_lt in Eb.
  intros [= _ _ <-]. lia.
Qed.

Lemma objectScan_fuel fuel doc el j found : (length doc - j < fuel)%nat →
  objectScan (S fuel) doc el j found = objectScan fuel doc el j found.
Proof.
  revert j found. induction fuel as [|fuel IH]; intros j found Hf; [lia|].
  remember (S fuel) as f. cbn [objectScan]. subst f. cbn [objectScan].
  destruct (scanMember doc j) as [| |key start next [|]] eqn:E; try done. apply scanMember_next in E.
  rewrite <- IH by lia. done.
Qed.

Lemma arrayScan_fuel fuel doc el idx j : (length doc - j < fuel)%nat →
  arrayScan (S fuel) doc el idx j = arrayScan fuel doc el idx j.
Proof.
  revert idx j. induction fuel as [|fuel IH]; intros idx j Hf; [lia|].
  remember (S fuel) as f. cbn [arrayScan]. subst f. cbn [arrayScan]. pose proof (skipWS_ge doc j).
  destruct (drop (skipWS doc j) doc) as [|c l] eqn:E; [done|]. apply drop_lt in E.
  destruct (c =? rbracket); [done|]. destruct (idx =? el); [done|].
  pose proof (skipValue_ge doc _ E). pose proof (skipWS_ge doc (skipValue doc (skipWS doc j))).
  destruct (byteAt doc _ comma) eqn:Eb; [|done]. apply byteAt_lt in Eb.
  specialize (IH (idx + 1) (S (skipWS doc (skipValue doc (skipWS doc j)))) ltac:(lia)). exact IH.
Qed.

(** ** An object with a repeated name *)

Definition one : bytes := lit "1".
Definition two : bytes := lit "2".
Definition named (v : bytes) : member := mkMember [] (Marshal (lit "a")) [] [0x20] v [].
Definition twoA : bytes := lbrace :: members_text [] [named one; named (lbracket :: one ++ comma :: two ++ [rbracket])] ++ [rbrace].

Lemma digit_value d : d = one ∨ d = two → json_value d.
Proof.
  intros [->| ->]; apply jv_number; exists [], (lit "1") + exists [], (lit "2"); exists [], [];
    (split; [reflexivity|]; split; [by left|]; split; [|by split; left]); right; eexists _, []; (split; [reflexivity|]);
    (split; [vm_compute; split; discriminate|constructor]).
Qed.

Lemma list_value : json_value (lbracket :: one ++ comma :: two ++ [rbracket]).
Proof.
  apply (array_value [([], one, []); ([], two, [])]); [|done].
  constructor; [|constructor; [|constructor]]; (split; [constructor|split; [apply digit_value; auto|constructor]]).
Qed.

Lemma named_wf v : json_value v → member_wf (named v).
Proof.
  intros Hv. split; [|done]. repeat split; try (by repeat constructor). exists (lit "a"). split; [|reflexivity].
  by repeat (constructor; [done|done|done|]); constructor.
Qed.

Lemma twoA_value : json_value twoA.
Proof.
  apply object_is_value; [constructor|].
  constructor; [|constructor; [|constructor]]; apply named_wf; [apply digit_value; by left|apply list_value].
Qed.

Definition secondElement : list pathElement := [Key (lit "a"); Index 1].

(** The key leads to the last of the two members. *)
Lemma raw_span_exact_witness :
  ∃ a x b, value_at twoA secondElement a x b ∧ 17%nat = length ([0x20] ++ a) ∧ 18%nat = length ([0x20] ++ a ++ x).
Proof.
  refine (proj1 (proj1 (raw_span_exact ([0x20] ++ twoA ++ []) [0x20] twoA [] _ _ _ _ secondElement) 17%nat 18%nat) _);
    [by repeat constructor|apply twoA_value|constructor|reflexivity|vm_compute; reflexivity].
Defined.

Lemma raw_span_splice_witness :
  let out := take 16 twoA ++ one ++ drop 17 twoA in
  json_text out ∧ rawJSONSpan out secondElement = Some one
  ∧ rawJSONSpan out [Key (lit "a"); Index 0] = rawJSONSpan twoA [Key (lit "a"); Index 0].
Proof.
  destruct (raw_span_splice twoA secondElement 16 17 one) as (H1 & H2 & H3).
  - exists [], twoA, []. split; [constructor|]. split; [apply twoA_value|]. split; [constructor|]. by rewrite app_nil_r.
  - apply digit_value. by left.
  - vm_compute. reflexivity.
  - split; [exact H1|]. split; [exact H2|]. apply H3. right. left. done.
Defined.
