(* ===== verification/JsonSplice.v ===== *)
(** * Splices into the wire bytes of a response

    The edits the proxy makes in place, at raw spans: the elements a notice
    appends or leaves behind (internal/proxy/notice_response.go and
    notice_replay.go) and the argument bytes restored after a response was
    re-encoded (internal/proxy/jsonresponse.go).  The re-encoded document is an
    argument. *)

From stdpp Require Import base list strings numbers sorting.
From stdpp Require Import base list strings gmap numbers sorting.
From S2P Require Import Prelude Utf8 PluginManifest RawJSON RawSpan RawJSONGrammar RawJSONEdits RawJSONTheorems RawSpanTheorems.

Open Scope Z_scope.

(** [doc[:start] + repl + doc[end:]] *)
Definition spliceBytes (doc : bytes) (start stop : nat) (repl : bytes) : bytes :=
  take start doc ++ repl ++ drop stop doc.

Inductive spliceErr :=
| TargetArrayMissing
| PathEmpty | PathNoIndex | ElementMissing | PreviousMissing
| SlotMissing (path : list pathElement) | CallOutOfRange.

(** ** Elements of an array *)

(** [len(bytes.TrimSpace(b)) > 0] *)
Definition notBlank (b : bytes) : bool := negb (blankF (length b) b).

Definition appendJSONElement (body element : bytes) (path : list pathElement) : res spliceErr bytes :=
  match rawJSONSpanAt body path with
  | None => Err TargetArrayMissing
  | Some (start, stop) =>
      if (stop <=? start)%nat || negb (byteAt body start lbracket) || negb (byteAt body (stop - 1) rbracket)
      then Err TargetArrayMissing
      else
        let separator := if notBlank (slice body (S start) (stop - 1)) then [comma] else [] in
        Ok (spliceBytes body (stop - 1) (stop - 1) (separator ++ element))
  end.

(** The bytes to remove for the element at [parent ++ [Index index]]: up to the next
    element, from the end of the previous one, or the element alone. *)
Definition elementDeletion (body : bytes) (parent : list pathElement) (index : Z) : res spliceErr (nat * nat) :=
  match rawJSONSpanAt body (parent ++ [Index index]) with
  | None => Err ElementMissing
  | Some (start, stop) =>
      match rawJSONSpanAt body (parent ++ [Index (index + 1)]) with
      | Some (nextStart, _) => Ok (start, nextStart)
      | None =>
          if 0 <? index then
            match rawJSONSpanAt body (parent ++ [Index (index - 1)]) with
            | Some (_, prevEnd) => Ok (prevEnd, stop)
            | None => Err PreviousMissing
            end
          else Ok (start, stop)
      end
  end.

Definition jsonArrayElementDeletion (body : bytes) (elementPath : list pathElement) : res spliceErr (nat * nat) :=
  match list.last elementPath with
  | None => Err PathEmpty
  | Some (Key _) => Err PathNoIndex
  | Some (Index index) => elementDeletion body (take (length elementPath - 1) elementPath) index
  end.

(** One removal of the replay. *)
Definition removeElement (body : bytes) (elementPath : list pathElement) : res spliceErr bytes :=
  '(start, stop) ←? jsonArrayElementDeletion body elementPath;
  Ok (spliceBytes body start stop []).

(** ** Argument bytes *)

(** A slot on the wire for the arguments of a tool call: where it is, the call it
    belongs to (-1 for none), the provider's bytes if it had any, and whether the
    arguments are a JSON object there or a string that holds one. *)
Record rawArgSlot := mkSlot {
  rs_path : list pathElement; rs_call : Z; rs_rawArgs : option bytes; rs_objSlot : bool }.
(** [argsChanged] and [argsJSON] of the calls. *)
Record callArgs := mkCallArgs { ca_argsChanged : bool; ca_argsJSON : bytes }.

Record spliceOp := mkOp { op_path : list pathElement; op_start : nat; op_end : nat; op_repl : bytes }.

(** The changed arguments of the slot's call, if they are. *)
Definition slotChanged (calls : list callArgs) (slot : rawArgSlot) : res spliceErr (option bytes) :=
  if rs_call slot <? 0 then Ok None else
  match calls !! Z.to_nat (rs_call slot) with
  | None => Err CallOutOfRange
  | Some c => Ok (if ca_argsChanged c then Some (ca_argsJSON c) else None)
  end.

Definition slotOp (out : bytes) (calls : list callArgs) (slot : rawArgSlot) : res spliceErr (list spliceOp) :=
  changed ←? slotChanged calls slot;
  match changed, rs_rawArgs slot with
  | None, None => Ok []
  | _, raw =>
      match rawJSONSpanAt out (rs_path slot) with
      | None => Err (SlotMissing (rs_path slot))
      | Some (start, stop) =>
          match changed with
          | Some argsJSON => Ok (if rs_objSlot slot then [mkOp (rs_path slot) start stop argsJSON] else [])
          | None => Ok [mkOp (rs_path slot) start stop (default [] raw)]
          end
      end
  end.

Fixpoint slotOps (out : bytes) (calls : list callArgs) (slots : list rawArgSlot) : res spliceErr (list spliceOp) :=
  match slots with
  | [] => Ok []
  | slot :: slots =>
      ops ←? slotOp out calls slot;
      rest ←? slotOps out calls slots;
      Ok (ops ++ rest)
  end.

(** [sort.Slice(ops, ops[i].start > ops[j].start)]; spans of apart paths start at
    different offsets. *)
Definition laterFirst (a b : spliceOp) : Prop := (op_start b ≤ op_start a)%nat.
#[global] Instance laterFirst_dec a b : Decision (laterFirst a b).
Proof. unfold laterFirst. apply _. Defined.

Definition spliceAll (out : bytes) (ops : list spliceOp) : bytes :=
  foldl (λ out op, spliceBytes out (op_start op) (op_end op) (op_repl op)) out ops.

Definition restoreArgs (out : bytes) (calls : list callArgs) (slots : list rawArgSlot) : res spliceErr bytes :=
  ops ←? slotOps out calls slots;
  Ok (spliceAll out (merge_sort laterFirst ops)).

(** * What the splices do

    A splice at the span of one path shifts the spans of the paths apart from it or
    leaves them, so splices from the last span to the first each write the value
    they are meant to and nothing else; and an element is appended to, or
    removed from, the array a path leads to. *)

Open Scope Z_scope.

(** ** Positions *)

Lemma spanAt_shift raw pre v rest path s e : json_value v → ends_value rest → raw = pre ++ v ++ rest →
  spanAt raw (length pre) path = Some (s, e) ↔
  ∃ s0 e0, spanAt v 0 path = Some (s0, e0) ∧ s = (length pre + s0)%nat ∧ e = (length pre + e0)%nat.
Proof.
  intros Hv Hr Hraw. split.
  - intros (a & x & b & Hat & -> & ->)%(spanAt_sound path v raw pre rest s e Hv Hr Hraw).
    exists (length a), (length (a ++ x)). split; [|split; norm_length; lia].
    by apply (spanAt_complete _ _ _ _ _ Hat v [] []); [|rewrite app_nil_r].
  - intros (s0 & e0 & Hs & -> & ->). apply (spanAt_sound path v v [] [] s0 e0 Hv I) in Hs as (a & x & b & Hat & -> & ->);
      [|by rewrite app_nil_r]. rewrite (spanAt_complete _ _ _ _ _ Hat raw pre rest Hr Hraw). do 2 f_equal; norm_length; lia.
Qed.

(** The span in a value at its own offset. *)
Lemma spanAt_bounds v path s e : json_value v → spanAt v 0 path = Some (s, e) → (s < e ≤ length v)%nat.
Proof.
  intros Hv Hs. apply (spanAt_sound path v v [] [] s e Hv I) in Hs as (a & x & b & Hat & -> & ->); [|by rewrite app_nil_r].
  pose proof (value_at_value _ _ _ _ _ Hat) as [_ Hx]. rewrite (value_at_split _ _ _ _ _ Hat) at 1. cbn [app].
  assert (x ≠ []) as Hne.
  { intros ->. destruct (json_value_shape [] Hx) as [(y & _ & ?)|[[? _]|(? & ? & ? & ? & _)]]; done. }
  destruct x; [done|]. norm_length. lia.
Qed.

Definition toMember (ms1 : list member) (m : member) : bytes := lbrace :: lead ms1 ++ m_pre m ++ keyPart m.
Definition toElement (es1 : list element) (e : element) : bytes := lbracket :: elements_lead es1 ++ e.1.1.

Lemma spanAt_member inner ms1 m ms2 path : all_space inner → Forall member_wf (ms1 ++ m :: ms2) →
  name m ∉ name <$> ms2 → ∀ s e,
  spanAt (lbrace :: members_text inner (ms1 ++ m :: ms2) ++ [rbrace]) 0 (Key (name m) :: path) = Some (s, e) ↔
  ∃ s0 e0, spanAt (m_val m) 0 path = Some (s0, e0)
    ∧ s = (length (toMember ms1 m) + s0)%nat ∧ e = (length (toMember ms1 m) + e0)%nat.
Proof.
  intros Hin Hms Hn s e.
  assert (Hraw : lbrace :: members_text inner (ms1 ++ m :: ms2) ++ [rbrace]
    = [] ++ (lbrace :: members_text inner (ms1 ++ m :: ms2) ++ [rbrace]) ++ []) by (by rewrite app_nil_r).
  rewrite (spanAt_key _ [] _ _ _ _ _ Hin Hms Hraw), (lastStart_here _ ms1 m ms2) by done. cbn [mbind option_bind length].
  pose proof Hms as [_ [[Hm Hmv] _]%list.Forall_cons]%Forall_app. rewrite value_in_object in Hraw.
  rewrite <- (spanAt_shift _ _ _ _ path s e Hmv (tail_ends _ _ _ (proj1 (proj2 (proj2 (proj2 Hm))))) Hraw). done.
Qed.

Lemma spanAt_element es1 e es2 path : Forall element_wf (es1 ++ e :: es2) → ∀ s t,
  spanAt (lbracket :: array_text (es1 ++ e :: es2) ++ [rbracket]) 0 (Index (Z.of_nat (length es1)) :: path) = Some (s, t) ↔
  ∃ s0 t0, spanAt e.1.2 0 path = Some (s0, t0)
    ∧ s = (length (toElement es1 e) + s0)%nat ∧ t = (length (toElement es1 e) + t0)%nat.
Proof.
  intros Hes s t.
  assert (Hraw : lbracket :: array_text (es1 ++ e :: es2) ++ [rbracket]
    = [] ++ (lbracket :: array_text (es1 ++ e :: es2) ++ [rbracket]) ++ []) by (by rewrite app_nil_r).
  rewrite (spanAt_index _ [] _ _ _ _ Hes ltac:(by destruct es1) Hraw).
  pose proof (nthStart_here 0 1 es1 e es2) as Hs. rewrite Z.add_0_l in Hs. cbn [length]. rewrite Hs. cbn [mbind option_bind].
  pose proof Hes as [_ [(_ & He & Hq) _]%list.Forall_cons]%Forall_app. rewrite value_in_array in Hraw.
  rewrite <- (spanAt_shift _ _ _ _ path s t He (elements_end _ _ _ Hq) Hraw). done.
Qed.

Lemma lead_app ms1 m t : lead (ms1 ++ m :: t) = lead ms1 ++ whole m ++ comma :: lead t.
Proof. induction ms1 as [|m1 ms1 IH]; cbn [app]; rewrite lead_cons; [done|]. rewrite lead_cons, IH. by norm_app. Qed.

Lemma elements_lead_app es1 e t : elements_lead (es1 ++ e :: t) = elements_lead es1 ++ elementText e ++ comma :: elements_lead t.
Proof.
  unfold elements_lead. rewrite fmap_app, fmap_cons, List.concat_app. cbn [concat]. by norm_app.
Qed.

(** Two places in a list: the same, or one before the other. *)
Lemma two_splits {A} (l1 l2 k1 k2 : list A) x y : l1 ++ x :: l2 = k1 ++ y :: k2 →
  (l1 = k1 ∧ x = y ∧ l2 = k2) ∨ (∃ t, l1 = k1 ++ y :: t ∧ k2 = t ++ x :: l2) ∨ (∃ t, k1 = l1 ++ x :: t ∧ l2 = t ++ y :: k2).
Proof.
  revert k1. induction l1 as [|a l1 IH]; intros [|b k1]; simpl; intros [= ? ?]; subst.
  - auto.
  - right; right. eauto.
  - right; left. eauto.
  - destruct (IH _ ltac:(eassumption)) as [(-> & -> & ->)|[(t & -> & ->)|(t & -> & ->)]]; [auto|right; left; eauto|right; right; eauto].
Qed.

Lemma middle_l {A} (l1 : list A) x t l2 : (l1 ++ x :: t) ++ l2 = l1 ++ x :: (t ++ l2).
Proof. by rewrite <- app_assoc. Qed.
Lemma middle_r {A} (l1 : list A) x t l2 : l1 ++ x :: (t ++ l2) = (l1 ++ x :: t) ++ l2.
Proof. by rewrite <- app_assoc. Qed.

(** The span of a path apart from a replaced one is before or after it, and only
    in the second case moves, by the difference of the lengths. *)
Definition moved (a x y : bytes) (s e s' e' : nat) : Prop :=
  (e ≤ length a ∧ s' = s ∧ e' = e)%nat
  ∨ (length (a ++ x) ≤ s ∧ s' + length x = s + length y ∧ e' + length x = e + length y)%nat.

Lemma whole_length m : length (whole m) = (length (m_pre m ++ keyPart m) + length (m_val m) + length (m_post m))%nat.
Proof. unfold whole. rewrite head_key. norm_length. lia. Qed.

Lemma whole_replace m v : (length (whole (replaceValue m v)) + length (m_val m) = length (whole m) + length v)%nat.
Proof. rewrite !whole_length. cbn [m_pre m_val m_post replaceValue]. change (keyPart (replaceValue m v)) with (keyPart m). lia. Qed.

(** A member apart from the one whose value changes. *)
Lemma member_apart inner ms1 m ms2 v k1 m' k2 q s e (a x y : bytes) :
  all_space inner → Forall member_wf (ms1 ++ m :: ms2) → json_value v →
  ms1 ++ m :: ms2 = k1 ++ m' :: k2 → name m' ∉ name <$> k2 → length ms1 ≠ length k1 →
  (length (m_val m) + length y = length v + length x)%nat →
  (length (toMember ms1 m) ≤ length a ∧ length (a ++ x) ≤ length (toMember ms1 m) + length (m_val m))%nat →
  spanAt (lbrace :: members_text inner (ms1 ++ m :: ms2) ++ [rbrace]) 0 (Key (name m') :: q) = Some (s, e) →
  ∃ s' e', spanAt (lbrace :: members_text inner (ms1 ++ replaceValue m v :: ms2) ++ [rbrace]) 0 (Key (name m') :: q) = Some (s', e')
    ∧ moved a x y s e s' e'.
Proof.
  intros Hin Hms Hv He Hn Hne Hl [Ha Hax] Hs. pose proof (replace_wf_members ms1 m v ms2 Hv Hms) as Hms'.
  rewrite He in Hs, Hms. pose proof Hms as [_ [[_ Hmv'] _]%list.Forall_cons]%Forall_app.
  apply (spanAt_member _ _ _ _ _ Hin Hms Hn) in Hs as (s0 & e0 & Hs & -> & ->). pose proof (spanAt_bounds _ _ _ _ Hmv' Hs) as Hb.
  destruct (two_splits _ _ _ _ _ _ He) as [(-> & _ & _)|[(t & -> & ->)|(t & -> & ->)]]; [done|..].
  - rewrite (middle_l k1 m' t) in *.
    eexists _, _. split; [apply (spanAt_member _ _ _ _ _ Hin Hms'); [|eauto]|].
    { rewrite fmap_app, fmap_cons in *. exact Hn. }
    left. split; [|done]. unfold toMember in *. rewrite lead_app in Ha. revert Ha. norm_length. rewrite whole_length. norm_length. lia.
  - rewrite (middle_r ms1 _ t) in *.
    eexists _, _. split; [apply (spanAt_member _ _ _ _ _ Hin Hms'); [done|eauto]|].
    right. unfold toMember in *. rewrite !lead_app. revert Hax. pose proof (whole_replace m v) as Hw.
    rewrite (whole_length m), length_app in Hw. norm_length. rewrite (whole_length m). norm_length. lia.
Qed.

Lemma element_apart es1 e es2 v k1 e' k2 q s t (a x y : bytes) :
  Forall element_wf (es1 ++ e :: es2) → json_value v →
  es1 ++ e :: es2 = k1 ++ e' :: k2 → length es1 ≠ length k1 →
  (length e.1.2 + length y = length v + length x)%nat →
  (length (toElement es1 e) ≤ length a ∧ length (a ++ x) ≤ length (toElement es1 e) + length e.1.2)%nat →
  spanAt (lbracket :: array_text (es1 ++ e :: es2) ++ [rbracket]) 0 (Index (Z.of_nat (length k1)) :: q) = Some (s, t) →
  ∃ s' t', spanAt (lbracket :: array_text (es1 ++ (e.1.1, v, e.2) :: es2) ++ [rbracket]) 0 (Index (Z.of_nat (length k1)) :: q) = Some (s', t')
    ∧ moved a x y s t s' t'.
Proof.
  intros Hes Hv He Hne Hl [Ha Hax] Hs. pose proof (replace_wf_elements es1 e v es2 Hv Hes) as Hes'.
  rewrite He in Hs, Hes. pose proof Hes as [_ [(_ & Hev & _) _]%list.Forall_cons]%Forall_app.
  apply (spanAt_element _ _ _ _ Hes) in Hs as (s0 & t0 & Hs & -> & ->). pose proof (spanAt_bounds _ _ _ _ Hev Hs) as Hb.
  destruct (two_splits _ _ _ _ _ _ He) as [(-> & _ & _)|[(u & -> & ->)|(u & -> & ->)]]; [done|..].
  - rewrite (middle_l k1 e' u) in *.
    eexists _, _. split; [apply (spanAt_element _ _ _ _ Hes'); eauto|].
    left. split; [|done]. unfold toElement in *. rewrite elements_lead_app in Ha. unfold elementText in Ha.
    revert Ha. norm_length. lia.
  - assert (Hlen : length (es1 ++ e :: u) = length (es1 ++ (e.1.1, v, e.2) :: u)) by (norm_length; lia).
    rewrite (middle_r es1 _ u) in *. rewrite Hlen.
    eexists _, _. split; [apply (spanAt_element _ _ _ _ Hes'); eauto|].
    right. unfold toElement in *. rewrite !elements_lead_app. unfold elementText in *. cbn [fst snd]. revert Hax.
    norm_length. lia.
Qed.

Lemma moved_inside (pre a x y : bytes) s e s' e' : moved a x y s e s' e' →
  moved (pre ++ a) x y (length pre + s) (length pre + e) (length pre + s') (length pre + e').
Proof. unfold moved. norm_length. lia. Qed.

Lemma span_apart v path a x b y : value_at v path a x b → json_value y → ∀ q s e, apart path q →
  spanAt v 0 q = Some (s, e) →
  ∃ s' e', spanAt (a ++ y ++ b) 0 q = Some (s', e') ∧ moved a x y s e s' e'.
Proof.
  intros H Hy. induction H as [v Hv|inner ms1 m ms2 path a x b Hin Hms Hn Hat IH|es1 e0 es2 path a x b Hes Hat IH];
    intros [|el q] s e Hap Hs; try done; cbn [apart] in Hap.
  - destruct el as [k|i]; [|done]. pose proof (value_at_split _ _ _ _ _ Hat) as Hsp.
    rewrite (replace_member inner ms1 m ms2 a x b) by done.
    pose proof (value_at_value _ _ _ _ _ (value_at_replace _ _ _ _ _ _ Hat Hy)) as [Hv _].
    pose proof (replace_wf_members ms1 m _ ms2 Hv Hms) as Hms'.
    assert (Hlen : length (toMember ms1 m ++ a) = length (lbrace :: (lead ms1 ++ m_pre m ++ keyPart m) ++ a))
      by (unfold toMember; norm_length; lia).
    destruct (decide (k = name m)) as [->|Hk].
    + destruct Hap as [|Hap]; [done|]. apply (spanAt_member _ _ _ _ _ Hin Hms Hn) in Hs as (s0 & t0 & Hs & -> & ->).
      destruct (IH q s0 t0 Hap Hs) as (s' & t' & Hs' & Hm). eexists _, _. split.
      * apply (spanAt_member inner ms1 (replaceValue m (a ++ y ++ b)) ms2 q Hin Hms' Hn). eauto.
      * apply (moved_inside (toMember ms1 m)) in Hm. revert Hm. unfold moved. rewrite !length_app in *. rewrite <- Hlen. done.
    + assert (∃ k1 m' k2, ms1 ++ m :: ms2 = k1 ++ m' :: k2 ∧ name m' = k ∧ k ∉ name <$> k2) as (k1 & m' & k2 & He & <- & Hni).
      { rewrite (spanAt_key _ [] _ _ [] _ _ Hin Hms) in Hs by (by rewrite app_nil_r).
        destruct (lastStart k _ _ None) eqn:El; [|done]. by destruct (lastStart_split _ _ _ _ _ El) as [[_ ?]|]. }
      apply (member_apart inner ms1 m ms2 _ k1 m' k2); try done.
      * intros El. apply (f_equal (lookup (length ms1))) in He. rewrite list_lookup_middle in He by done.
        rewrite list_lookup_middle in He by done. congruence.
      * rewrite Hsp. norm_length. lia.
      * rewrite Hsp. rewrite <- Hlen, (length_app _ x), <- Hlen. norm_length. lia.
  - destruct el as [k|i]; [done|]. pose proof (value_at_split _ _ _ _ _ Hat) as Hsp.
    rewrite (replace_element es1 e0 es2 a x b) by done.
    pose proof (value_at_value _ _ _ _ _ (value_at_replace _ _ _ _ _ _ Hat Hy)) as [Hv _].
    pose proof (replace_wf_elements es1 e0 _ es2 Hv Hes) as Hes'.
    assert (Hlen : length (toElement es1 e0 ++ a) = length (lbracket :: (elements_lead es1 ++ e0.1.1) ++ a))
      by (unfold toElement; norm_length; lia).
    destruct (decide (i = Z.of_nat (length es1))) as [->|Hi].
    + destruct Hap as [|Hap]; [done|]. apply (spanAt_element _ _ _ _ Hes) in Hs as (s0 & t0 & Hs & -> & ->).
      destruct (IH q s0 t0 Hap Hs) as (s' & t' & Hs' & Hm). eexists _, _. split.
      * apply (spanAt_element es1 (e0.1.1, a ++ y ++ b, e0.2) es2 q Hes'). eauto.
      * apply (moved_inside (toElement es1 e0)) in Hm. revert Hm. unfold moved. rewrite !length_app in *. rewrite <- Hlen. done.
    + assert (∃ k1 e' k2, es1 ++ e0 :: es2 = k1 ++ e' :: k2 ∧ i = Z.of_nat (length k1)) as (k1 & e' & k2 & He & ->).
      { rewrite (spanAt_index _ [] _ [] _ _ Hes) in Hs by (by rewrite ?app_nil_r || by destruct es1).
        destruct (nthStart i 0 _ _) eqn:El; [|done]. destruct (nthStart_split _ _ _ _ _ El) as (k1 & e' & k2 & -> & ->).
        by exists k1, e', k2. }
      apply (element_apart es1 e0 es2 _ k1 e' k2); try done.
      * lia.
      * rewrite Hsp. norm_length. lia.
      * rewrite Hsp. rewrite <- Hlen, (length_app _ x), <- Hlen. norm_length. lia.
Qed.

(** ** Documents *)

Lemma apart_sym p q : apart p q → apart q p.
Proof. revert q. induction p as [|a p IH]; intros [|b q]; simpl; try done. intros [H|H]; [left; congruence|right; auto]. Qed.

Lemma json_text_span raw path s e : json_text raw → rawJSONSpanAt raw path = Some (s, e) → (s < e ≤ length raw)%nat.
Proof.
  intros (before & v & after & Hb & Hv & Ha & ->) Hs. rewrite (span_at_value _ before v after Hb Hv eq_refl) in Hs.
  apply (spanAt_shift _ _ _ _ _ _ _ Hv (spaces_end _ Ha) eq_refl) in Hs as (s0 & e0 & Hs & -> & ->).
  apply (spanAt_bounds _ _ _ _ Hv) in Hs. norm_length. lia.
Qed.

(** What a splice at the span of [path] does to the span of a path apart from it. *)
Lemma splice_others raw path s e y q s2 e2 : json_text raw → json_value y → apart path q →
  rawJSONSpanAt raw path = Some (s, e) → rawJSONSpanAt raw q = Some (s2, e2) →
  ∃ s' e', rawJSONSpanAt (spliceBytes raw s e y) q = Some (s', e') ∧
    ((e2 ≤ s ∧ s' = s2 ∧ e' = e2)%nat ∨ (e ≤ s2)%nat).
Proof.
  intros (before & v & after & Hb & Hv & Ha & Hraw) Hy Hap Hs Hs2.
  rewrite (span_at_value _ before v after Hb Hv Hraw) in Hs, Hs2.
  apply (spanAt_sound path v raw before after s e Hv (spaces_end _ Ha) Hraw) in Hs as (a & x & b & Hat & -> & ->).
  apply (spanAt_shift _ _ _ _ _ _ _ Hv (spaces_end _ Ha) Hraw) in Hs2 as (s0 & e0 & Hs2 & -> & ->).
  destruct (span_apart _ _ _ _ _ y Hat Hy _ _ _ Hap Hs2) as (s' & e' & Hs' & Hm).
  pose proof (value_at_value _ _ _ _ _ (value_at_replace _ _ _ _ _ _ Hat Hy)) as [Hv' _].
  assert (Hout : spliceBytes raw (length (before ++ a)) (length (before ++ a ++ x)) y = before ++ (a ++ y ++ b) ++ after).
  { unfold spliceBytes. pose proof (value_at_split _ _ _ _ _ Hat) as Hsp.
    rewrite (take_at raw (before ++ a) (x ++ b ++ after)) by (done || rewrite Hraw, Hsp; by norm_app).
    rewrite (drop_at raw (before ++ a ++ x) (b ++ after)) by (done || rewrite Hraw, Hsp; by norm_app). by norm_app. }
  rewrite Hout, (span_at_value _ before _ after Hb Hv' eq_refl).
  exists (length before + s')%nat, (length before + e')%nat.
  split; [apply (spanAt_shift _ _ _ _ _ _ _ Hv' (spaces_end _ Ha) eq_refl); eauto|].
  revert Hm. unfold moved. norm_length. lia.
Qed.

Definition opFits (raw : bytes) (op : spliceOp) : Prop :=
  rawJSONSpanAt raw (op_path op) = Some (op_start op, op_end op) ∧ json_value (op_repl op).

Lemma spliceAll_sorted ops : ∀ raw, json_text raw → Forall (opFits raw) ops →
  StronglySorted (λ a b, laterFirst a b ∧ apart (op_path a) (op_path b)) ops →
  json_text (spliceAll raw ops)
  ∧ (∀ op, op ∈ ops → rawJSONSpan (spliceAll raw ops) (op_path op) = Some (op_repl op))
  ∧ (∀ q, (∀ op, op ∈ ops → apart (op_path op) q) → rawJSONSpan (spliceAll raw ops) q = rawJSONSpan raw q).
Proof.
  induction ops as [|op ops IH]; intros raw Hraw Hfit Hsort.
  { split; [done|]. split; [by intros op ?%not_elem_of_nil|done]. }
  apply list.Forall_cons in Hfit as [[Hs Hy] Hfit]. apply StronglySorted_inv in Hsort as [Hsort Hop].
  destruct (splice_replaces raw (op_path op) _ _ _ Hraw Hy Hs) as (Hout & Hhere & Hrest).
  change (take (op_start op) raw ++ op_repl op ++ drop (op_end op) raw) with (spliceBytes raw (op_start op) (op_end op) (op_repl op)) in *.
  set (out := spliceBytes raw _ _ _) in *. cbn [spliceAll foldl]. fold (spliceAll out ops).
  destruct (IH out Hout) as (Hj & Hin & Hq); [|done|].
  { rewrite list.Forall_forall in Hfit, Hop |- *. intros op' Hop'. destruct (Hfit _ Hop') as [Hs' Hy'].
    destruct (Hop _ Hop') as [Hl Hap]. unfold laterFirst in Hl. split; [|done].
    destruct (splice_others _ _ _ _ _ _ _ _ Hraw Hy Hap Hs Hs') as (s' & e' & Ho & [(_ & -> & ->)|He]); [done|].
    apply (json_text_span _ _ _ _ Hraw) in Hs. lia. }
  rewrite list.Forall_forall in Hop. split; [done|]. split.
  - intros op' [->|Hop']%elem_of_cons; [|auto]. rewrite Hq; [done|]. intros op' Hop'. apply apart_sym. by apply Hop.
  - intros q Hap. rewrite Hq by (intros; apply Hap; by right). apply Hrest, Hap. by left.
Qed.

(** ** Restoring arguments *)

(** What is written at a slot. *)
Definition slotBytes (calls : list callArgs) (slot : rawArgSlot) : option bytes :=
  match slotChanged calls slot with
  | Ok (Some argsJSON) => if rs_objSlot slot then Some argsJSON else None
  | Ok None => rs_rawArgs slot
  | Err _ => None
  end.

(** A slot that cannot be restored: it names no call, or bytes are due where the
    document has no span. *)
Definition slotFaulty (out : bytes) (calls : list callArgs) (slot : rawArgSlot) : Prop :=
  match slotChanged calls slot with
  | Err _ => True
  | Ok changed => (is_Some changed ∨ is_Some (rs_rawArgs slot)) ∧ rawJSONSpanAt out (rs_path slot) = None
  end.

Lemma slotOp_spec out calls slot :
  match slotOp out calls slot with
  | Ok ops =>
      match slotBytes calls slot with
      | Some b => ∃ s e, ops = [mkOp (rs_path slot) s e b] ∧ rawJSONSpanAt out (rs_path slot) = Some (s, e)
      | None => ops = []
      end
  | Err _ => slotFaulty out calls slot
  end.
Proof.
  unfold slotOp, slotBytes, slotFaulty. destruct (slotChanged calls slot) as [[args|]|e] eqn:Ec; cbn [res_bind]; [..|done].
  - destruct (rawJSONSpanAt out (rs_path slot)) as [[s e]|]; [|split; [left; by eexists|done]]. destruct (rs_objSlot slot); eauto.
  - destruct (rs_rawArgs slot); [|done].
    destruct (rawJSONSpanAt out (rs_path slot)) as [[s e]|]; [cbn; eauto|split; [right; by eexists|done]].
Qed.

Lemma slotOps_spec out calls slots :
  match slotOps out calls slots with
  | Ok ops => ∀ op, op ∈ ops ↔ ∃ slot b, slot ∈ slots ∧ slotBytes calls slot = Some b ∧ op_path op = rs_path slot
                       ∧ op_repl op = b ∧ rawJSONSpanAt out (rs_path slot) = Some (op_start op, op_end op)
  | Err _ => ∃ slot, slot ∈ slots ∧ slotFaulty out calls slot
  end.
Proof.
  induction slots as [|slot slots IH]; cbn [slotOps].
  { intros op. split; [by intros ?%not_elem_of_nil|]. by intros (? & ? & ?%not_elem_of_nil & _). }
  pose proof (slotOp_spec out calls slot) as Hop. destruct (slotOp out calls slot) as [ops|e]; cbn [res_bind].
  2: { exists slot. split; [by left|done]. }
  destruct (slotOps out calls slots) as [rest|e]; cbn [res_bind].
  2: { destruct IH as (x & Hx & Hf). exists x. split; [by right|done]. }
  intros op. rewrite elem_of_app, IH. split.
  - intros [Hin|(x & b & Hx & Hr)]; [|exists x, b; split; [by right|done]].
    destruct (slotBytes calls slot) as [b|] eqn:Eb; [|subst; by apply not_elem_of_nil in Hin].
    destruct Hop as (s & e & -> & Hs). apply list_elem_of_singleton in Hin as ->. exists slot, b. split; [by left|done].
  - intros (x & b & [->|Hx]%elem_of_cons & Hb & Hp & Hr & Hs); [|right; by exists x, b].
    left. rewrite Hb in Hop. destruct Hop as (s & e & -> & Hs'). apply list_elem_of_singleton. destruct op; cbn in *.
    congruence.
Qed.

Lemma slotOps_found out calls slots ops slot b : slotOps out calls slots = Ok ops → slot ∈ slots →
  slotBytes calls slot = Some b → is_Some (rawJSONSpanAt out (rs_path slot)).
Proof.
  revert ops. induction slots as [|x slots IH]; intros ops; cbn [slotOps]; [by intros _ ?%not_elem_of_nil|].
  pose proof (slotOp_spec out calls x) as Hop. destruct (slotOp out calls x) as [here|]; [|done]. cbn [res_bind].
  destruct (slotOps out calls slots) as [rest|]; [|done]. intros _ [->|Hs]%elem_of_cons Hb; [|by eapply IH].
  rewrite Hb in Hop. destruct Hop as (s & e & _ & ->). by eexists.
Qed.

(** Paths of different slots lead through different values. *)
Definition slotsApart (slots : list rawArgSlot) : Prop := StronglySorted (λ a b, apart (rs_path a) (rs_path b)) slots.

Lemma slotOps_apart out calls slots ops : slotsApart slots → slotOps out calls slots = Ok ops →
  StronglySorted (λ a b, apart (op_path a) (op_path b)) ops.
Proof.
  intros Hs. revert ops. induction Hs as [|slot slots Hs IH Hap]; intros ops; cbn [slotOps]; [by intros [= <-]; constructor|].
  pose proof (slotOp_spec out calls slot) as Hop. destruct (slotOp out calls slot) as [here|]; [|done]. cbn [res_bind].
  pose proof (slotOps_spec out calls slots) as Hrest. destruct (slotOps out calls slots) as [rest|]; [|done]. cbn [res_bind].
  intros [= <-]. specialize (IH rest eq_refl). destruct (slotBytes calls slot) as [b|]; [|by subst].
  destruct Hop as (s & e & -> & _). constructor; [done|]. apply list.Forall_forall. intros op (x & c & Hx & _ & -> & _)%Hrest.
  by apply (proj1 (list.Forall_forall _ _) Hap).
Qed.

Lemma apart_pairs {A} (f : A → list pathElement) (l : list A) : StronglySorted (λ a b, apart (f a) (f b)) l →
  ∀ a b, a ∈ l → b ∈ l → a = b ∨ apart (f a) (f b).
Proof.
  induction 1 as [|x l Hs IH Hx]; [by intros a b ?%not_elem_of_nil|]. rewrite list.Forall_forall in Hx.
  intros a b [->|Ha]%elem_of_cons [->|Hb]%elem_of_cons; auto. right. apply apart_sym. auto.
Qed.

Lemma apart_irrefl p : ¬ apart p p.
Proof. induction p as [|a p IH]; simpl; [auto|]. intros [?|?]; auto. Qed.

Lemma sorted_apart (ops : list spliceOp) : StronglySorted (λ a b, apart (op_path a) (op_path b)) ops →
  StronglySorted (λ a b, laterFirst a b ∧ apart (op_path a) (op_path b)) (merge_sort laterFirst ops).
Proof.
  intros Hap. assert (Hnd : NoDup ops).
  { induction Hap as [|x ops Hs IH Hx]; constructor; [|done]. intros Hin.
    rewrite list.Forall_forall in Hx. by destruct (apart_irrefl (op_path x)); apply Hx. }
  assert (Total laterFirst) by (intros a b; unfold laterFirst; lia).
  assert (Transitive laterFirst) by (intros a b c; unfold laterFirst; lia).
  pose proof (StronglySorted_merge_sort laterFirst ops) as Hsort. pose proof (merge_sort_Permutation laterFirst ops) as Hp.
  assert (Hnd' : NoDup (merge_sort laterFirst ops)) by (by rewrite Hp).
  assert (Hpair : ∀ a b, a ∈ merge_sort laterFirst ops → b ∈ merge_sort laterFirst ops → a = b ∨ apart (op_path a) (op_path b)).
  { intros a b. rewrite Hp. by apply (apart_pairs op_path). }
  clear -Hsort Hnd' Hpair. induction Hsort as [|x l Hs IH Hx]; constructor.
  - apply list.NoDup_cons in Hnd' as [_ Hnd']. apply IH; [done|]. intros a b ? ?. apply Hpair; by right.
  - apply list.NoDup_cons in Hnd' as [Hni _]. rewrite list.Forall_forall in Hx |- *. intros y Hy. split; [auto|].
    destruct (Hpair x y) as [->|]; [by left|by right|done|done].
Qed.

(** C34. Restoring the arguments of a re-encoded response whose slots lead through
    different values: the result is a JSON text; every slot holds the provider's
    bytes, or the plugin's if it changed an object, and a changed string slot,
    a slot without bytes and every path apart from the slots lead to what they led
    to; it fails only on a slot that names no call or that is not in the document
    although bytes are due. *)
Theorem restoreArgs_exact out calls slots : json_text out → slotsApart slots →
  (∀ slot b, slot ∈ slots → slotBytes calls slot = Some b → json_value b) →
  match restoreArgs out calls slots with
  | Err _ => ∃ slot, slot ∈ slots ∧ slotFaulty out calls slot
  | Ok res =>
      json_text res
      ∧ (∀ slot, slot ∈ slots → rawJSONSpan res (rs_path slot)
           = match slotBytes calls slot with Some b => Some b | None => rawJSONSpan out (rs_path slot) end)
      ∧ (∀ q, (∀ slot, slot ∈ slots → apart (rs_path slot) q) → rawJSONSpan res q = rawJSONSpan out q)
  end.
Proof.
  intros Hout Hap Hval. unfold restoreArgs. pose proof (slotOps_spec out calls slots) as Hspec.
  pose proof (λ ops, slotOps_apart out calls slots ops Hap) as Hops.
  destruct (slotOps out calls slots) as [ops|e] eqn:Eo; cbn [res_bind]; [|done]. specialize (Hops ops eq_refl).
  assert (Hmem : ∀ op, op ∈ merge_sort laterFirst ops ↔ op ∈ ops) by (intros op; by rewrite merge_sort_Permutation).
  destruct (spliceAll_sorted (merge_sort laterFirst ops) out Hout) as (Hj & Hin & Hq).
  - apply list.Forall_forall. intros op (slot & b & Hsl & Hb & Hp & Hr & Hs)%Hmem%Hspec. split; [by rewrite Hp|].
    rewrite Hr. eauto.
  - by apply sorted_apart.
  - split; [done|]. split.
    + intros slot Hsl. destruct (slotBytes calls slot) as [b|] eqn:Eb.
      * destruct (rawJSONSpanAt out (rs_path slot)) as [[s e]|] eqn:Es.
        { specialize (Hin (mkOp (rs_path slot) s e b)). apply Hin. apply Hmem, Hspec. by exists slot, b. }
        by destruct (slotOps_found _ _ _ _ _ _ Eo Hsl Eb); simplify_eq.
      * apply Hq. intros op (x & b & Hx & Hb & -> & _)%Hmem%Hspec.
        by destruct (apart_pairs rs_path slots Hap x slot Hx Hsl) as [->|]; [congruence|].
    + intros q Hq'. apply Hq. intros op (x & b & Hx & Hb & -> & _)%Hmem%Hspec. auto.
Qed.
