(* ===== verification/JsonArrayProofs.v ===== *)
(** * Appending and removing elements in place

    The two array edits of the notices, as edits of the list of elements the path of
    the array leads to. *)

From stdpp Require Import base list strings gmap numbers.
From S2P Require Import Prelude Utf8 PluginManifest RawJSON RawJSONGrammar RawJSONEdits RawJSONTheorems.
From S2P Require Import RawSpan RawSpanTheorems JsonSplice.

Open Scope Z_scope.

(** ** Paths through a value *)

Lemma spanAt_app doc i p q : spanAt doc i (p ++ q) = ('(s, _) ← spanAt doc i p; spanAt doc s q).
Proof.
  revert i. induction p as [|[k|n] p IH]; intros i; cbn [app spanAt]; [done|..].
  - destruct (negb _); [done|]. destruct (objectScan _ _ _ _ _); cbn; [apply IH|done].
  - destruct (negb _); [done|]. destruct (arrayScan _ _ _ _ _); cbn; [apply IH|done].
Qed.

Lemma value_at_ends v path a x b : value_at v path a x b → ∀ rest, ends_value rest → ends_value (b ++ rest).
Proof.
  induction 1 as [v Hv|inner ms1 m ms2 path a x b Hin Hms Hn Hat IH|es1 e es2 path a x b Hes Hat IH]; intros rest Hr; [done|..].
  - rewrite <- !app_assoc. apply IH. apply Forall_app in Hms as [_ [[Hm _] _]%list.Forall_cons].
    apply (tail_ends (m_post m) ms2 rest), Hm.
  - rewrite <- !app_assoc. apply IH. apply Forall_app in Hes as [_ [(_ & _ & Hq) _]%list.Forall_cons].
    by apply (elements_end e.2 es2 rest).
Qed.

(** A document as what is before, in and after the span of a path. *)
Record located (raw : bytes) (path : list pathElement) (pre x post : bytes) : Prop := {
  loc_text : raw = pre ++ x ++ post;
  loc_span : rawJSONSpanAt raw path = Some (length pre, length (pre ++ x));
  loc_value : json_value x;
  loc_ends : ends_value post }.

Lemma span_located raw path x : json_text raw → rawJSONSpan raw path = Some x → ∃ pre post, located raw path pre x post.
Proof.
  intros (before & v & after & Hb & Hv & Ha & Hraw) Hs.
  apply (raw_span_reaches raw before v after Hb Hv Ha Hraw) in Hs as (a & b & Hat).
  exists (before ++ a), (b ++ after). split.
  - rewrite Hraw, (value_at_split _ _ _ _ _ Hat). by norm_app.
  - apply (span_at_exact raw before v after Hb Hv Ha Hraw). exists a, x, b. by rewrite app_assoc.
  - by apply value_at_value in Hat as [_ ?].
  - by apply (value_at_ends _ _ _ _ _ Hat), spaces_end.
Qed.

Lemma located_below raw path pre x post q z : located raw path pre x post → json_text raw →
  rawJSONSpan raw (path ++ q) = Some z ↔ reaches x q z.
Proof.
  intros [Ht Hs Hx He] (before & v & after & Hb & Hv & Ha & Hraw).
  rewrite (reaches_inside raw pre x post q z Hx He Ht). unfold rawJSONSpan.
  rewrite (span_at_value raw before v after Hb Hv Hraw) in *. rewrite spanAt_app, Hs. cbn [mbind option_bind].
  destruct (spanAt raw (length pre) q) as [[s e]|]; cbn.
  - split; [intros [= <-]; eauto|]. by intros (? & ? & [= <- <-] & ->).
  - split; [done|]. by intros (? & ? & ? & _).
Qed.

(** Another value in the place of the located one. *)
Lemma located_replace raw path pre x post y : located raw path pre x post → json_text raw → json_value y →
  let out := pre ++ y ++ post in
  json_text out ∧ located out path pre y post ∧ ∀ q, apart path q → rawJSONSpan out q = rawJSONSpan raw q.
Proof.
  intros [Ht Hs Hx He] Hraw Hy out. destruct (splice_replaces raw path _ _ y Hraw Hy Hs) as (Hj & Hp & Hq).
  assert (Hout : take (length pre) raw ++ y ++ drop (length (pre ++ x)) raw = out).
  { rewrite (take_at raw pre (x ++ post)) by done. by rewrite (drop_at raw (pre ++ x) post) by (done || by rewrite <- app_assoc). }
  rewrite Hout in *. split; [done|]. split; [|done]. split; [done| |done|done].
  pose proof Hraw as (before & v & after & Hb & Hv & Ha & Er).
  apply (span_at_exact raw before v after Hb Hv Ha Er) in Hs as (a & x' & b & Hat & Hl & Hl').
  pose proof (value_at_split _ _ _ _ _ Hat) as Hsp.
  assert (pre = before ++ a ∧ x = x' ∧ post = b ++ after) as (-> & -> & ->).
  { assert (He2 : pre ++ x ++ post = (before ++ a) ++ x' ++ b ++ after) by (rewrite <- Ht, Er, Hsp; by norm_app).
    apply app_inj_1 in He2 as [-> He2]; [|done]. split; [done|]. apply app_inj_1 in He2; [done|]. revert Hl'. norm_length. lia. }
  pose proof (value_at_replace _ _ _ _ _ _ Hat Hy) as Hat'. pose proof (value_at_value _ _ _ _ _ Hat') as [Hv' _].
  apply (span_at_exact out before (a ++ y ++ b) after Hb Hv' Ha); [unfold out; by norm_app|].
  exists a, y, b. split; [done|]. by rewrite <- app_assoc.
Qed.

Lemma below_eq raw path pre x post q : located raw path pre x post → json_text raw → ∀ raw' path' pre' x' post' q',
  located raw' path' pre' x' post' → json_text raw' → (∀ z, reaches x q z ↔ reaches x' q' z) →
  rawJSONSpan raw (path ++ q) = rawJSONSpan raw' (path' ++ q').
Proof.
  intros Hl Hj raw' path' pre' x' post' q' Hl' Hj' Hz. apply option_eq. intros z.
  rewrite (located_below _ _ _ _ _ _ _ Hl Hj), (located_below _ _ _ _ _ _ _ Hl' Hj'). apply Hz.
Qed.

(** ** Arrays *)

(** [arrayOf x es]: the value [x] is an array of the elements [es]. *)
Definition arrayOf (x : bytes) (es : list element) : Prop :=
  Forall element_wf es ∧
  match es with
  | [] => ∃ ws, x = lbracket :: ws ++ [rbracket] ∧ all_space ws
  | _ => x = lbracket :: array_text es ++ [rbracket]
  end.

Lemma array_elements x l : json_value x → x = lbracket :: l → ∃ es, arrayOf x es.
Proof.
  intros Hx E. destruct (value_container x Hx) as [(inner & ms & -> & _)|[(ws & -> & Hws)|[(es & -> & Hne & Hes)|(c & l' & -> & _ & Hc)]]].
  - done.
  - exists []. split; [constructor|eauto].
  - exists es. split; [done|]. by destruct es.
  - by injection E as ->.
Qed.

Lemma arrayOf_value x es : arrayOf x es → json_value x.
Proof. intros [Hes Hx]. destruct es as [|e es]; [destruct Hx as (ws & -> & Hws); by constructor|]. rewrite Hx. by apply array_value. Qed.

Lemma arrayOf_reaches x es i q z : arrayOf x es →
  reaches x (Index i :: q) z ↔ ∃ e, 0 ≤ i ∧ es !! Z.to_nat i = Some e ∧ reaches e.1.2 q z.
Proof.
  intros [Hes Hx]. destruct es as [|e es].
  - destruct Hx as (ws & -> & Hws). split; [|by intros (? & _ & ? & _)].
    assert (Hv : json_value (lbracket :: ws ++ [rbracket])) by (by constructor).
    intros (s & e & Hs & _)%(reaches_spanAt _ _ _ Hv). exfalso. cbn [spanAt] in Hs.
    change (byteAt (lbracket :: ws ++ [rbracket]) 0 lbracket) with true in Hs. cbv iota beta delta [negb] in Hs.
    cbn [arrayScan] in Hs. unfold skipWS in Hs.
    assert (Hraw : lbracket :: ws ++ [rbracket] = [lbracket] ++ ws ++ [rbracket]) by done.
    pose proof (skipSpace_at _ [lbracket] _ _ Hraw Hws eq_refl) as Hsk. cbn [length] in Hsk. rewrite Hsk in Hs. rewrite app_assoc in Hraw.
    by rewrite (drop_at _ _ _ _ Hraw eq_refl) in Hs.
  - rewrite Hx. by apply reaches_index.
Qed.

Definition elementValues (es : list element) : list bytes := (λ e, e.1.2) <$> es.

Lemma one_element p v q : all_space p → json_value v → all_space q → Forall element_wf [(p, v, q)].
Proof. intros. constructor; [done|constructor]. Qed.

Lemma elements_snoc es e : es ≠ [] → array_text (es ++ [e]) = array_text es ++ comma :: elementText e.
Proof.
  induction es as [|e1 es IH]; [done|]. intros _. cbn [app].
  destruct es as [|e2 es]; [cbn [app]; rewrite (array_cons e1 []), (array_cons e1 [e]), array_cons, !app_nil_r; done|].
  rewrite (array_cons e1 (e2 :: es)). cbn [app] in *. rewrite (array_cons e1), IH by done. by norm_app.
Qed.

Lemma ascii_rune c l : 0 ≤ c ≤ 0x7F → decodeRune (c :: l) = Some (c, l).
Proof. intros Hc. cbn. by rewrite (proj2 (within_spec _ _ _)) by lia. Qed.

Lemma space_rune c : isJSONSpace c = true → 0 ≤ c ≤ 0x7F ∧ IsSpace c = true.
Proof. unfold isJSONSpace. rewrite !orb_true_iff, !Z.eqb_eq. by intros [[[->| ->]| ->]| ->]. Qed.

Lemma blank_space ws : all_space ws → blankF (length ws) ws = true.
Proof.
  induction 1 as [|c ws Hc _ IH]; [done|]. destruct (space_rune c Hc) as [Hr Hs]. cbn [length blankF].
  by rewrite ascii_rune, Hs, IH by done.
Qed.

Lemma value_head v : json_value v → ∃ c l, v = c :: l ∧ 0x21 ≤ c ≤ 0x7E.
Proof.
  destruct 1 as [s (x & _ & ->)|s (sg & int & fr & ex & -> & Hsg & Hint & _)|s Hs| | |].
  - exists quote, (x ++ [quote]). by split; [|unfold quote; lia].
  - destruct Hsg as [->| ->]; [|eexists _, _; split; [done|lia]].
    destruct Hint as [->|(d & ds & -> & Hd & _)]; eexists _, _; (split; [done|lia]).
  - apply elem_of_cons in Hs as [->|[->|[->|[]%not_elem_of_nil]%elem_of_cons]%elem_of_cons];
      eexists _, _; (split; [reflexivity|vm_compute; split; discriminate]).
  - eexists _, _. split; [done|unfold lbrace; lia].
  - eexists _, _. split; [done|unfold lbracket; lia].
  - eexists _, _. split; [done|unfold lbracket; lia].
Qed.

Lemma visible_not_space c : 0x21 ≤ c ≤ 0x7E → IsSpace c = false.
Proof.
  intros Hc. unfold IsSpace. rewrite !orb_false_iff, !within_false. repeat split; [lia| |lia].
  apply bool_decide_eq_false. rewrite !elem_of_cons. intros H. repeat (destruct H as [H|H]; [lia|]). by apply not_elem_of_nil in H.
Qed.

Lemma notBlank_value ws v rest : all_space ws → json_value v → notBlank (ws ++ v ++ rest) = true.
Proof.
  intros Hws (c & l & -> & Hc)%value_head. unfold notBlank. apply negb_true_iff.
  induction Hws as [|x ws Hx _ IH]; cbn [app length blankF].
  - rewrite ascii_rune by lia. by rewrite (visible_not_space c).
  - destruct (space_rune x Hx) as [Hr Hs]. by rewrite ascii_rune, Hs.
Qed.

Lemma notBlank_array x es : arrayOf x es → ∃ inner, x = lbracket :: inner ++ [rbracket] ∧ notBlank inner = negb (bool_decide (es = [])).
Proof.
  intros [Hes Hx]. destruct Hes as [|e es (Hp & Hv & Hq) Hes].
  - destruct Hx as (ws & -> & Hws). exists ws. split; [done|]. unfold notBlank. by rewrite blank_space.
  - exists (array_text (e :: es)). split; [done|]. cbn [array_text]. by apply notBlank_value.
Qed.

Lemma byteAt_app (raw pre l post : bytes) c x n : raw = pre ++ l ++ c :: post → n = length (pre ++ l) → byteAt raw n x = (c =? x).
Proof. intros -> ->. rewrite app_assoc. by apply (byteAt_at _ _ _ post). Qed.

(** The edit of [appendJSONElement], by the elements of the array. *)
Lemma append_array body path pre x post es element : located body path pre x post → arrayOf x es → json_value element →
  ∃ y es', appendJSONElement body element path = Ok (pre ++ y ++ post) ∧ arrayOf y es' ∧
    elementValues es' = elementValues es ++ [element].
Proof.
  intros [Ht Hs Hx He] Harr Hel. destruct (notBlank_array x es Harr) as (inner & Hxi & Hblank). pose proof Harr as [Hes Hxe].
  set (sep := if notBlank inner then [comma] else []).
  exists (lbracket :: inner ++ sep ++ element ++ [rbracket]),
    (match es with [] => [(inner, element, [])] | _ => es ++ [([], element, [])] end). split; [|split].
  - unfold appendJSONElement. rewrite Hs.
    assert ((length (pre ++ x) <=? length pre)%nat = false) as -> by (apply Nat.leb_gt; rewrite Hxi; norm_length; lia).
    assert (Ht1 : body = pre ++ [] ++ lbracket :: (inner ++ rbracket :: post)) by (rewrite Ht, Hxi; by norm_app).
    assert (Ht2 : body = pre ++ (lbracket :: inner) ++ rbracket :: post) by (rewrite Ht, Hxi; by norm_app).
    rewrite (byteAt_app _ _ _ _ _ lbracket _ Ht1) by (by rewrite app_nil_r).
    assert (Hend : (length (pre ++ x) - 1)%nat = length (pre ++ lbracket :: inner)) by (rewrite Hxi; norm_length; lia).
    rewrite Hend, (byteAt_app _ _ _ _ _ rbracket _ Ht2 eq_refl). cbn [orb negb Z.eqb].
    change (negb (lbracket =? lbracket)) with false. change (negb (rbracket =? rbracket)) with false. cbn [orb].
    rewrite (slice_mid body (pre ++ [lbracket]) inner (rbracket :: post)) by
      first [rewrite Ht2; by norm_app | norm_length; lia].
    fold sep. unfold spliceBytes. rewrite app_assoc in Ht2. rewrite (take_at _ _ _ _ Ht2 eq_refl), (drop_at _ _ _ _ Ht2 eq_refl).
    by norm_app.
  - destruct es as [|e0 es].
    + destruct Hxe as (ws & Hw & Hws). rewrite Hxi in Hw. injection Hw as Hw. apply app_inj_2 in Hw as [-> _]; [|done].
      split; [by apply one_element; [| |constructor]|]. unfold sep. rewrite Hblank. cbn. by norm_app.
    + split. { apply Forall_app. split; [done|]. by apply one_element; [constructor| |constructor]. }
      rewrite Hxe in Hxi. injection Hxi as Hxi. apply app_inj_2 in Hxi as [<- _]; [|done].
      assert (sep = [comma]) as -> by (unfold sep; by rewrite Hblank).
      rewrite (elements_snoc (e0 :: es)) by done. unfold elementText. cbn [fst snd].
      change ((e0 :: es) ++ _) with (e0 :: (es ++ [([], element, [])])). by norm_app.
  - destruct es as [|e0 es]; [done|]. unfold elementValues. by rewrite fmap_app.
Qed.

(** ** Removal *)

Lemma element_span body path pre x post es1 e es2 : located body path pre x post → json_text body →
  arrayOf x (es1 ++ e :: es2) →
  rawJSONSpanAt body (path ++ [Index (Z.of_nat (length es1))])
  = Some (length (pre ++ toElement es1 e), length (pre ++ toElement es1 e ++ e.1.2)).
Proof.
  intros [Ht Hs Hx He] (before & v & after & Hb & Hv & Ha & Hraw) [Hes Hxe].
  assert (x = lbracket :: array_text (es1 ++ e :: es2) ++ [rbracket]) as Hxa by (by destruct es1).
  rewrite (span_at_value body before v after Hb Hv Hraw) in *. rewrite spanAt_app, Hs. cbn [mbind option_bind].
  apply (spanAt_shift body pre x post _ _ _ Hx He Ht). exists (length (toElement es1 e)), (length (toElement es1 e ++ e.1.2)).
  split; [|split; norm_length; lia]. rewrite Hxa. apply (spanAt_element _ _ _ _ Hes). exists 0%nat, (length e.1.2).
  pose proof Hes as [_ [(_ & Hev & _) _]%list.Forall_cons]%Forall_app.
  split; [|split; norm_length; lia]. cbn [spanAt]. do 2 f_equal. by apply (skipValue_at e.1.2 [] e.1.2 []); [| |rewrite app_nil_r].
Qed.

Lemma element_none body path pre x post es i : located body path pre x post → json_text body → arrayOf x es →
  ¬ (0 ≤ i < Z.of_nat (length es)) → rawJSONSpanAt body (path ++ [Index i]) = None.
Proof.
  intros Hl Hj Harr Hi. destruct (rawJSONSpanAt body (path ++ [Index i])) as [[s e]|] eqn:E; [|done]. exfalso.
  assert (Hs : rawJSONSpan body (path ++ [Index i]) = Some (slice body s e)) by (unfold rawJSONSpan; by rewrite E).
  apply (located_below _ _ _ _ _ _ _ Hl Hj), (arrayOf_reaches _ _ _ _ _ Harr) in Hs as (e0 & Hi0 & Hlk & _).
  apply lookup_lt_Some in Hlk. lia.
Qed.

Lemma spliceBytes_at body a cut b : body = a ++ cut ++ b → spliceBytes body (length a) (length (a ++ cut)) [] = a ++ b.
Proof.
  intros Hb. unfold spliceBytes. rewrite (take_at _ _ _ _ Hb eq_refl). rewrite app_assoc in Hb.
  by rewrite (drop_at _ _ _ _ Hb eq_refl).
Qed.

(** The three shapes of a removal: an element with one after it, the last of
    several, and the only one. *)
Lemma remove_array body path pre x post es1 e es2 : located body path pre x post → json_text body →
  arrayOf x (es1 ++ e :: es2) →
  ∃ s t y es', elementDeletion body path (Z.of_nat (length es1)) = Ok (s, t) ∧ spliceBytes body s t [] = pre ++ y ++ post
    ∧ arrayOf y es' ∧ elementValues es' = elementValues (es1 ++ es2).
Proof.
  intros Hl Hj Harr. pose proof (element_span _ _ _ _ _ _ _ _ Hl Hj Harr) as Hspan. unfold elementDeletion. rewrite Hspan.
  pose proof Harr as [Hes Hxe]. assert (x = lbracket :: array_text (es1 ++ e :: es2) ++ [rbracket]) as Hx by (by destruct es1).
  pose proof Hl as [Ht _ _ _]. destruct es2 as [|e2 es2].
  - rewrite (element_none _ _ _ _ _ _ _ Hl Hj Harr) by (rewrite length_app; cbn; lia).
    destruct es1 as [|e0 es1 _] using rev_ind.
    + cbn [length]. change (0 <? Z.of_nat 0) with false. cbv iota. eexists _, _, (lbracket :: (e.1.1 ++ e.2) ++ [rbracket]), [].
      split; [done|]. apply list.Forall_cons in Hes as [(Hp & _ & Hq) _]. split; [|split; [split; [constructor|]|done]].
      * rewrite app_assoc. rewrite (spliceBytes_at body _ e.1.2 (e.2 ++ rbracket :: post)); [unfold toElement; by norm_app|].
        rewrite Ht, Hx. unfold toElement. cbn. by norm_app.
      * exists (e.1.1 ++ e.2). split; [done|]. by apply Forall_app.
    + rewrite <- app_assoc in Harr, Hes, Hx. cbn [app] in Harr, Hes, Hx. rewrite length_app. cbn [length].
      rewrite (proj2 (Z.ltb_lt _ _)) by lia. replace (Z.of_nat (length es1 + 1) - 1) with (Z.of_nat (length es1)) by lia.
      rewrite (element_span _ _ _ _ _ _ _ _ Hl Hj Harr).
      eexists _, _, (lbracket :: array_text (es1 ++ [(e0.1.1, e0.1.2, e.2)]) ++ [rbracket]),
        (es1 ++ [(e0.1.1, e0.1.2, e.2)]). split; [done|].
      apply Forall_app in Hes as [Hes1 [(Hp0 & Hv0 & _) [(_ & _ & Hq) _]%list.Forall_cons]%list.Forall_cons].
      split; [|split; [split; [apply Forall_app; split; [exact Hes1|by apply one_element]|by destruct es1]|]].
      * assert (pre ++ toElement (es1 ++ [e0]) e ++ e.1.2 = (pre ++ toElement es1 e0 ++ e0.1.2) ++ e0.2 ++ comma :: e.1.1 ++ e.1.2) as ->.
        { unfold toElement. rewrite elements_lead_app. unfold elementText. cbn. by norm_app. }
        rewrite (spliceBytes_at body _ _ (e.2 ++ rbracket :: post)).
        -- unfold toElement. rewrite array_app. cbn [fst snd elements_text]. by norm_app.
        -- rewrite Ht, Hx, array_app. unfold toElement. destruct e as [[p v] q]. cbn. by norm_app.
      * unfold elementValues. by rewrite app_nil_r, !fmap_app.
  - assert (Harr2 : arrayOf x ((es1 ++ [e]) ++ e2 :: es2)) by (by rewrite <- app_assoc).
    pose proof (element_span _ _ _ _ _ _ _ _ Hl Hj Harr2) as Hnext. rewrite length_app in Hnext. cbn [length] in Hnext.
    replace (Z.of_nat (length es1) + 1) with (Z.of_nat (length es1 + 1)) by lia. rewrite Hnext.
    eexists _, _, (lbracket :: array_text (es1 ++ (e.1.1, e2.1.2, e2.2) :: es2) ++ [rbracket]),
      (es1 ++ (e.1.1, e2.1.2, e2.2) :: es2). split; [done|].
    apply Forall_app in Hes as [Hes1 [(Hp & _ & _) [(_ & Hv2 & Hq2) Hes2]%list.Forall_cons]%list.Forall_cons].
    split; [|split; [split; [apply Forall_app; split; [exact Hes1|constructor; [split; [done|split; done]|done]]|by destruct es1]|]].
    + assert (pre ++ toElement (es1 ++ [e]) e2 = (pre ++ toElement es1 e) ++ e.1.2 ++ e.2 ++ comma :: e2.1.1) as ->.
      { unfold toElement. rewrite elements_lead_app. unfold elementText. cbn. by norm_app. }
      rewrite (spliceBytes_at body _ _ (e2.1.2 ++ elements_text e2.2 es2 ++ rbracket :: post)).
      * unfold toElement. rewrite array_app. cbn [fst snd elements_text]. by norm_app.
      * rewrite Ht, Hx, array_app. unfold toElement. destruct e2 as [[p v] q]. cbn. by norm_app.
    + unfold elementValues. by rewrite !fmap_app.
Qed.

(** ** The edits *)

Lemma values_reach x es i q z : arrayOf x es →
  reaches x (Index i :: q) z ↔ ∃ v, 0 ≤ i ∧ elementValues es !! Z.to_nat i = Some v ∧ reaches v q z.
Proof.
  intros Harr. rewrite (arrayOf_reaches _ _ _ _ _ Harr). unfold elementValues. setoid_rewrite list_lookup_fmap_Some.
  split; [intros (e & ? & ? & ?); eauto 10|intros (v & ? & (e & -> & ?) & ?); eauto].
Qed.

Lemma value_reach_nil v z : json_value v → reaches v [] z ↔ z = v.
Proof.
  intros Hv. split; [|intros ->; exists [], []; by constructor]. intros (a & b & Hat). by inversion Hat.
Qed.

Lemma elementValues_wf x es v : arrayOf x es → v ∈ elementValues es → json_value v.
Proof.
  intros [Hes _] (e & -> & He)%list_elem_of_fmap. rewrite list.Forall_forall in Hes. by destruct (Hes _ He) as (_ & ? & _).
Qed.

Lemma span_parent raw p q z : rawJSONSpan raw (p ++ q) = Some z → json_text raw → ∃ x, rawJSONSpan raw p = Some x ∧ reaches x q z.
Proof.
  intros Hs Hj. assert (∃ x, rawJSONSpan raw p = Some x) as [x Hx].
  { pose proof Hj as (before & v & after & Hb & Hv & Ha & Hraw). unfold rawJSONSpan in *.
    rewrite !(span_at_value raw before v after Hb Hv Hraw) in *. rewrite spanAt_app in Hs.
    destruct (spanAt raw (length before) p) as [[s e]|]; [by eexists|done]. }
  exists x. split; [done|]. destruct (span_located _ _ _ Hj Hx) as (pre & post & Hl). by apply (located_below _ _ _ _ _ _ _ Hl Hj).
Qed.

Lemma reaches_index_array x i q z : json_value x → reaches x (Index i :: q) z → ∃ es, arrayOf x es.
Proof.
  intros Hx (s & e & Hs & _)%(reaches_spanAt _ _ _ Hx). cbn [spanAt] in Hs.
  destruct x as [|c l]; [by destruct (byteAt [] 0 lbracket)|]. destruct (byteAt (c :: l) 0 lbracket) eqn:Eb; [|done].
  unfold byteAt in Eb. cbn in Eb. apply Z.eqb_eq in Eb as ->. by eapply array_elements.
Qed.

(** Appending an element to the array a path leads to: the element is found at the
    index past the last one, every other element, at any depth, and every path
    apart from the array lead to the bytes they led to, and the document stays a
    JSON text. *)
Theorem appendJSONElement_appends body element path l :
  json_text body → json_value element → rawJSONSpan body path = Some (lbracket :: l) →
  ∃ out n, appendJSONElement body element path = Ok out ∧ json_text out
    ∧ (∀ i, is_Some (rawJSONSpan body (path ++ [Index i])) ↔ 0 ≤ i < n)
    ∧ rawJSONSpan out (path ++ [Index n]) = Some element
    ∧ (∀ i q, i ≠ n → rawJSONSpan out (path ++ Index i :: q) = rawJSONSpan body (path ++ Index i :: q))
    ∧ (∀ q, apart path q → rawJSONSpan out q = rawJSONSpan body q).
Proof.
  intros Hj Hel Hs. destruct (span_located _ _ _ Hj Hs) as (pre & post & Hl).
  destruct (array_elements _ _ (loc_value _ _ _ _ _ Hl) eq_refl) as (es & Harr).
  destruct (append_array _ _ _ _ _ _ _ Hl Harr Hel) as (y & es' & Happ & Harr' & Hvals).
  destruct (located_replace _ _ _ _ _ y Hl Hj (arrayOf_value _ _ Harr')) as (Hjo & Hlo & Hap).
  assert (Hlen : length (elementValues es) = length es) by apply length_fmap.
  exists (pre ++ y ++ post), (Z.of_nat (length es)). split; [done|]. split; [done|]. split; [|split; [|split; [|done]]].
  - intros i. split.
    + intros (z & Hz). apply (located_below _ _ _ _ _ _ _ Hl Hj), (values_reach _ _ _ _ _ Harr) in Hz as (v & Hi & Hlk & _).
      apply lookup_lt_Some in Hlk. lia.
    + intros Hi. destruct (lookup_lt_is_Some_2 (elementValues es) (Z.to_nat i)) as [v Hlk]; [lia|]. exists v.
      apply (located_below _ _ _ _ _ _ _ Hl Hj), (values_reach _ _ _ _ _ Harr). exists v. split; [lia|]. split; [done|].
      apply value_reach_nil; [|done]. eapply elementValues_wf; [exact Harr|]. by eapply list_elem_of_lookup_2.
  - apply (located_below _ _ _ _ _ _ _ Hlo Hjo), (values_reach _ _ _ _ _ Harr'). exists element. split; [lia|].
    rewrite Hvals, Nat2Z.id, <- Hlen, list_lookup_middle by done. split; [done|]. by apply value_reach_nil.
  - intros i q Hi. apply (below_eq _ _ _ _ _ _ Hlo Hjo _ _ _ _ _ _ Hl Hj). intros z.
    rewrite (values_reach _ _ _ _ _ Harr), (values_reach _ _ _ _ _ Harr'), Hvals.
    split; intros (v & Hpos & Hlk & Hr); exists v; (split; [done|]; split; [|done]).
    + apply lookup_app_Some in Hlk as [?|[Hge Hlk]]; [done|]. apply list_lookup_singleton_Some in Hlk as [? _]. lia.
    + by apply lookup_app_l_Some.
Qed.

(** Removing the element at an index, with the separator that belongs to it: the
    elements after it move down by one, at any depth, the others and every path
    apart from the array lead to the bytes they led to, and the document stays a
    JSON text. *)
Theorem removeElement_removes body parent i v :
  json_text body → rawJSONSpan body (parent ++ [Index i]) = Some v →
  ∃ out, removeElement body (parent ++ [Index i]) = Ok out ∧ json_text out
    ∧ (∀ j q, rawJSONSpan out (parent ++ Index j :: q)
              = rawJSONSpan body (parent ++ Index (if j <? i then j else j + 1) :: q))
    ∧ (∀ q, apart parent q → rawJSONSpan out q = rawJSONSpan body q).
Proof.
  intros Hj Hs. destruct (span_parent _ _ _ _ Hs Hj) as (x & Hx & Hr). destruct (span_located _ _ _ Hj Hx) as (pre & post & Hl).
  destruct (reaches_index_array _ _ _ _ (loc_value _ _ _ _ _ Hl) Hr) as (es & Harr).
  apply (arrayOf_reaches _ _ _ _ _ Harr) in Hr as (e & Hi & (es1 & es2 & -> & Hlen)%list_elem_of_split_length & _).
  destruct (remove_array _ _ _ _ _ _ _ _ Hl Hj Harr) as (s & t & y & es' & Hdel & Hsplice & Harr' & Hvals).
  replace i with (Z.of_nat (length es1)) in * by lia. clear Hlen.
  destruct (located_replace _ _ _ _ _ y Hl Hj (arrayOf_value _ _ Harr')) as (Hjo & Hlo & Hap).
  exists (pre ++ y ++ post). split; [|split; [done|split; [|done]]].
  - unfold removeElement, jsonArrayElementDeletion. rewrite last_snoc, length_app. cbn [length].
    replace (length parent + 1 - 1)%nat with (length parent) by lia. rewrite take_app_length, Hdel. cbn. by rewrite Hsplice.
  - intros j q. apply (below_eq _ _ _ _ _ _ Hlo Hjo _ _ _ _ _ _ Hl Hj). intros z.
    rewrite (values_reach _ _ _ _ _ Harr), (values_reach _ _ _ _ _ Harr'), Hvals. unfold elementValues. rewrite !fmap_app, fmap_cons.
    set (l1 := _ <$> es1). assert (Hl1 : length l1 = length es1) by apply length_fmap.
    destruct (Z.ltb_spec j (Z.of_nat (length es1))).
    + split; intros (u & Hp & Hlk & Hu); exists u; (split; [done|]; split; [|done]); rewrite lookup_app_l in * by lia; done.
    + split; intros (u & Hp & Hlk & Hu); exists u; (split; [lia|]; split; [|done]); rewrite lookup_app_r in * by lia;
        rewrite Hl1 in *.
      * replace (Z.to_nat (j + 1) - length es1)%nat with (S (Z.to_nat j - length es1)) by lia. done.
      * replace (Z.to_nat (j + 1) - length es1)%nat with (S (Z.to_nat j - length es1)) in Hlk by lia. done.
Qed.

(** ** Examples *)

Lemma twoA_text : json_text twoA.
Proof. exists [], twoA, []. split; [constructor|]. split; [apply twoA_value|]. split; [constructor|]. by rewrite app_nil_r. Qed.

Definition members_a : list pathElement := [Key (lit "a")].

Lemma appendJSONElement_appends_witness : ∃ out n, appendJSONElement twoA one members_a = Ok out ∧ json_text out
  ∧ rawJSONSpan out (members_a ++ [Index n]) = Some one.
Proof.
  destruct (appendJSONElement_appends twoA one members_a (one ++ comma :: two ++ [rbracket]) twoA_text) as (out & n & H1 & H2 & _ & H3 & _).
  - apply digit_value. by left.
  - vm_compute. reflexivity.
  - exists out, n. split; [exact H1|]. split; [exact H2|exact H3].
Defined.

Lemma removeElement_removes_witness : ∃ out, removeElement twoA (members_a ++ [Index 0]) = Ok out ∧ json_text out
  ∧ rawJSONSpan out (members_a ++ [Index 0]) = rawJSONSpan twoA (members_a ++ [Index 1]).
Proof.
  destruct (removeElement_removes twoA members_a 0 one twoA_text) as (out & H1 & H2 & H3 & _).
  - vm_compute. reflexivity.
  - exists out. split; [exact H1|]. split; [exact H2|]. exact (H3 0 []).
Defined.

Definition twoSlots : list rawArgSlot :=
  [mkSlot (members_a ++ [Index 0]) (-1) (Some two) false; mkSlot (members_a ++ [Index 1]) 0 None true].
Definition oneCall : list callArgs := [mkCallArgs true one].

Lemma restoreArgs_exact_witness :
  match restoreArgs twoA oneCall twoSlots with
  | Ok res => json_text res
      ∧ (∀ slot, slot ∈ twoSlots → rawJSONSpan res (rs_path slot)
           = match slotBytes oneCall slot with Some b => Some b | None => rawJSONSpan twoA (rs_path slot) end)
  | Err _ => False
  end.
Proof.
  pose proof (restoreArgs_exact twoA oneCall twoSlots twoA_text) as H.
  assert (Hap : slotsApart twoSlots).
  { constructor; [constructor; [constructor|constructor]|constructor; [right; left; done|constructor]]. }
  specialize (H Hap).
  assert (Hv : ∀ slot b, slot ∈ twoSlots → slotBytes oneCall slot = Some b → json_value b).
  { intros slot b [->|[->|[]%not_elem_of_nil]%elem_of_cons]%elem_of_cons; cbn; intros [= <-]; apply digit_value; auto. }
  specialize (H Hv). destruct (restoreArgs twoA oneCall twoSlots) as [res|e] eqn:E; [|vm_compute in E; discriminate].
  destruct H as (H1 & H2 & _). split; [exact H1|exact H2].
Defined.
