(* ===== verification/Feed.v ===== *)
(** * The request feed

    internal/metrics/feed.go: a ring buffer of the last request events and the
    subscribers that are sent each new one without blocking.  A channel is a cell
    of a heap the subscriber's map entry points to; [unsub] removes the entry under the
    lock and closes the channel after it.  The second half runs any number of
    clients. *)

From stdpp Require Import base list strings gmap numbers relations.
From S2P Require Import Prelude ByteStrings RateLimit.

Open Scope Z_scope.

Definition defaultFeedCapacity : Z := 200.
Definition subscriberBufSize : nat := 64.

Record RequestEvent := mkEvent {
  re_ConversationID : string; re_Timestamp : string; re_Provider : string; re_RequestedModel : string;
  re_ReportedModel : string; re_Status : Z; re_LatencyMS : float64; re_TokensIn : Z; re_TokensOut : Z;
  re_CacheReadTokens : Z; re_CacheWriteTokens : Z; re_BytesIn : Z; re_BytesOut : Z; re_Plugins : list string;
  re_Verdict : string; re_PluginFailure : bool; re_ErrorCode : string }.

(** The zero value a new buffer holds. *)
Definition event0 : RequestEvent :=
  mkEvent "" "" "" "" "" 0 (SpecFloat.S754_zero false) 0 0 0 0 0 0 [] "" false "".

(** [subscribers]: the address of the channel by subscription. *)
Record RequestFeed := mkFeed {
  buf : list RequestEvent; head : Z; count : Z; cap : Z; subscribers : gmap N nat; nextSubID : N }.

Definition NewRequestFeed (capacity : Z) : RequestFeed :=
  let capacity := if capacity <=? 0 then defaultFeedCapacity else capacity in
  mkFeed (replicate (Z.to_nat capacity) event0) 0 0 capacity ∅ 0.

Record channel := mkChannel { ch_queue : list RequestEvent; ch_closed : bool }.

(** [select { case ch <- ev: default: }]; a send on a closed channel panics ([None]). *)
Definition trySend (ev : RequestEvent) (ch : channel) : option channel :=
  if ch_closed ch then None
  else if (length (ch_queue ch) <? subscriberBufSize)%nat then Some (mkChannel (ch_queue ch ++ [ev]) false)
  else Some ch.

(** The broadcast, over the entries of the map. *)
Definition sendTo (ev : RequestEvent) (chans : list channel) (addr : nat) : option (list channel) :=
  ch ← chans !! addr; ch ← trySend ev ch; Some (<[addr := ch]> chans).
Definition broadcast (ev : RequestEvent) (subs : gmap N nat) (chans : list channel) : option (list channel) :=
  foldl (λ acc entry, chans ← acc; sendTo ev chans entry.2) (Some chans) (map_to_list subs).

(** The ring write of [Add]. *)
Definition addRing (ev : RequestEvent) (f : RequestFeed) : RequestFeed :=
  mkFeed (<[Z.to_nat (head f) := ev]> (buf f)) (Z.rem (head f + 1) (cap f))
    (if count f <? cap f then count f + 1 else count f) (cap f) (subscribers f) (nextSubID f).

Definition Add (ev : RequestEvent) (f : RequestFeed) (chans : list channel) : option (RequestFeed * list channel) :=
  chans ← broadcast ev (subscribers f) chans; Some (addRing ev f, chans).

(** The loop both snapshots have. *)
Definition ringIndex (f : RequestFeed) (i : nat) : nat := Z.to_nat (Z.rem (head f - 1 - Z.of_nat i + cap f) (cap f)).
Definition Snapshot (f : RequestFeed) : list RequestEvent :=
  (λ i, default event0 (buf f !! ringIndex f i)) <$> seq 0 (Z.to_nat (count f)).

Definition SnapshotForConversation (id : string) (f : RequestFeed) : list RequestEvent :=
  if String.eqb id "" then [] else filter (λ ev, re_ConversationID ev = id) (Snapshot f).

(** [SubscribeWithSnapshot] under the lock; the result of [make] is a new cell. *)
Definition SubscribeWithSnapshot (f : RequestFeed) (chans : list channel)
    : RequestFeed * list channel * (list RequestEvent * N * nat) :=
  let id := nextSubID f in
  let addr := length chans in
  (mkFeed (buf f) (head f) (count f) (cap f) (<[id := addr]> (subscribers f)) ((id + 1) mod 2 ^ 64)%N,
   chans ++ [mkChannel [] false], (Snapshot f, id, addr)).
Definition Subscribe (f : RequestFeed) (chans : list channel) : RequestFeed * list channel * (N * nat) :=
  let '(f, chans, (_, id, addr)) := SubscribeWithSnapshot f chans in (f, chans, (id, addr)).

(** The two halves of [unsub], which [sync.Once] lets one caller run. *)
Definition unsubDelete (id : N) (f : RequestFeed) : RequestFeed :=
  mkFeed (buf f) (head f) (count f) (cap f) (delete id (subscribers f)) (nextSubID f).
Definition closeChannel (addr : nat) (chans : list channel) : option (list channel) :=
  ch ← chans !! addr; if ch_closed ch then None else Some (<[addr := mkChannel (ch_queue ch) true]> chans).

(** ** Clients *)

Inductive unsubPhase := Live | Deleted | Closed.
#[global] Instance unsubPhase_eq_dec : EqDecision unsubPhase.
Proof. solve_decision. Defined.

(** A subscription as its client sees it: what the call returned, where its [unsub] is,
    and what it has received.  [sn_before] is how many events there had been. *)
Record subscription := mkSubscription {
  sn_id : N; sn_addr : nat; sn_phase : unsubPhase; sn_snapshot : list RequestEvent;
  sn_received : list RequestEvent; sn_before : nat }.

(** [w_log]: every event added, oldest first.  [w_panicked]: an operation panicked. *)
Record World := mkWorld {
  w_feed : RequestFeed; w_chans : list channel; w_subs : list subscription; w_log : list RequestEvent; w_panicked : bool }.

Inductive feedOp :=
| FeedAdd (ev : RequestEvent)
| FeedSubscribe
| FeedUnsubDelete (k : nat)
| FeedUnsubClose (k : nat)
| FeedReceive (k : nat).

Definition panicked (w : World) : World := mkWorld (w_feed w) (w_chans w) (w_subs w) (w_log w) true.
Definition setPhase (p : unsubPhase) (s : subscription) : subscription :=
  mkSubscription (sn_id s) (sn_addr s) p (sn_snapshot s) (sn_received s) (sn_before s).
Definition receive (ev : RequestEvent) (s : subscription) : subscription :=
  mkSubscription (sn_id s) (sn_addr s) (sn_phase s) (sn_snapshot s) (sn_received s ++ [ev]) (sn_before s).

(** An operation that does not apply (a second [unsub], an empty channel) does nothing. *)
Definition feedStep (w : World) (o : feedOp) : World :=
  let '(mkWorld f chans subs log p) := w in
  match o with
  | FeedAdd ev =>
      match Add ev f chans with
      | Some (f, chans) => mkWorld f chans subs (log ++ [ev]) p
      | None => panicked w
      end
  | FeedSubscribe =>
      let '(f, chans, (snap, id, addr)) := SubscribeWithSnapshot f chans in
      mkWorld f chans (subs ++ [mkSubscription id addr Live snap [] (length log)]) log p
  | FeedUnsubDelete k =>
      match subs !! k with
      | Some s =>
          match sn_phase s with
          | Live => mkWorld (unsubDelete (sn_id s) f) chans (<[k := setPhase Deleted s]> subs) log p
          | _ => w
          end
      | None => w
      end
  | FeedUnsubClose k =>
      match subs !! k with
      | Some s =>
          match sn_phase s with
          | Deleted =>
              match closeChannel (sn_addr s) chans with
              | Some chans => mkWorld f chans (<[k := setPhase Closed s]> subs) log p
              | None => panicked w
              end
          | _ => w
          end
      | None => w
      end
  | FeedReceive k =>
      match subs !! k ≫= λ s, ch ← chans !! sn_addr s; Some (s, ch) with
      | Some (s, mkChannel (ev :: queue) closed) =>
          mkWorld f (<[sn_addr s := mkChannel queue closed]> chans) (<[k := receive ev s]> subs) log p
      | _ => w
      end
  end.

Definition feedRun (w : World) (ops : list feedOp) : World := foldl feedStep w ops.
Definition feedStart (capacity : Z) : World := mkWorld (NewRequestFeed capacity) [] [] [] false.

(** * What the request feed promises

    The snapshot is the last events, newest first; a subscription sees each event
    after its snapshot at most once and in order, and misses one only when its
    channel is full; nothing is ever sent on a closed channel. *)

Open Scope Z_scope.

(** ** The ring *)

(** The [n]-th event, if it is still held, is in its slot. *)
Record ringOk (f : RequestFeed) (log : list RequestEvent) : Prop := {
  ring_cap : 0 < cap f;
  ring_len : Z.of_nat (length (buf f)) = cap f;
  ring_head : head f = Z.of_nat (length log) mod cap f;
  ring_count : count f = Z.min (Z.of_nat (length log)) (cap f);
  ring_slots : ∀ n ev, log !! n = Some ev → Z.of_nat (length log) - cap f ≤ Z.of_nat n →
    buf f !! Z.to_nat (Z.of_nat n mod cap f) = Some ev }.

Lemma ringOk_new capacity : ringOk (NewRequestFeed capacity) [].
Proof.
  unfold NewRequestFeed. set (c := if capacity <=? 0 then defaultFeedCapacity else capacity).
  assert (0 < c) by (unfold c, defaultFeedCapacity; destruct (Z.leb_spec capacity 0); lia).
  split; cbn; [done| |by rewrite Z.mod_0_l by lia|lia|done]. rewrite length_replicate. lia.
Qed.

Lemma ringOk_add ev f log : ringOk f log → ringOk (addRing ev f) (log ++ [ev]).
Proof.
  intros [Hc Hl Hh Hn Hs]. pose proof (Z.mod_pos_bound (Z.of_nat (length log)) (cap f) Hc) as Hb.
  split; cbn [addRing buf head count cap]; rewrite ?length_insert, ?length_app; cbn [length]; [done|done|..].
  - rewrite Z.rem_mod_nonneg by lia. rewrite Hh, Nat2Z.inj_add. by rewrite Zplus_mod_idemp_l.
  - rewrite Hn. destruct (Z.ltb_spec (Z.min (Z.of_nat (length log)) (cap f)) (cap f)); lia.
  - intros n ev' Hlk Hge. apply lookup_app_Some in Hlk as [Hlk|[Hge' Hlk]].
    + pose proof (lookup_lt_Some _ _ _ Hlk). rewrite list_lookup_insert_ne; [apply Hs; [done|lia]|].
      rewrite Hh. intros He. apply Z2Nat.inj in He; [|lia|by apply Z.mod_pos_bound].
      assert ((Z.of_nat (length log) - Z.of_nat n) mod cap f = 0) as Hz.
      { rewrite Zminus_mod, He, Z.sub_diag. by apply Z.mod_0_l; lia. }
      rewrite Z.mod_small in Hz by lia. lia.
    + apply list_lookup_singleton_Some in Hlk as [Hz <-]. replace n with (length log) by lia. rewrite Hh.
      apply list_lookup_insert_eq. lia.
Qed.

Lemma Snapshot_spec f log : ringOk f log → Snapshot f = take (Z.to_nat (cap f)) (reverse log).
Proof.
  intros [Hc Hl Hh Hn Hs]. apply list_eq. intros i. unfold Snapshot. rewrite list_lookup_fmap.
  destruct (decide (i < Z.to_nat (count f))%nat) as [Hi|Hi].
  - rewrite lookup_seq_lt by done. cbn. rewrite lookup_take_lt by lia. rewrite reverse_lookup by lia.
    assert (is_Some (log !! (length log - S i)%nat)) as [ev Hev] by (apply lookup_lt_is_Some_2; lia). rewrite Hev. f_equal.
    assert (ringIndex f i = Z.to_nat (Z.of_nat (length log - S i) mod cap f)) as ->.
    { unfold ringIndex. f_equal. pose proof (Z.mod_pos_bound (Z.of_nat (length log)) (cap f) Hc).
      rewrite Z.rem_mod_nonneg by lia. rewrite Hh. replace (Z.of_nat (length log) mod cap f - 1 - Z.of_nat i + cap f)
        with (Z.of_nat (length log) mod cap f + (- 1 - Z.of_nat i + 1 * cap f)) by lia.
      rewrite Zplus_mod_idemp_l, Z.add_assoc, Z.mod_add by lia. f_equal. lia. }
    rewrite (Hs _ _ Hev) by lia. done.
  - rewrite (lookup_ge_None_2 (seq _ _)) by (rewrite length_seq; lia). cbn. symmetry. apply lookup_ge_None_2.
    rewrite length_take, length_reverse. lia.
Qed.

(** ** The broadcast *)

Definition push (ev : RequestEvent) (ch : channel) : channel :=
  if (length (ch_queue ch) <? subscriberBufSize)%nat then mkChannel (ch_queue ch ++ [ev]) (ch_closed ch) else ch.

Definition openAt (chans : list channel) (id : N) (addr : nat) : Prop :=
  addr = N.to_nat id ∧ ∃ ch, chans !! addr = Some ch ∧ ch_closed ch = false.

Lemma broadcast_list ev l : ∀ chans, NoDup l.*1 → (∀ id a, (id, a) ∈ l → openAt chans id a) →
  ∃ chans', foldl (λ acc entry, chans ← acc; sendTo ev chans entry.2) (Some chans) l = Some chans'
  ∧ length chans' = length chans
  ∧ ∀ a ch, chans !! a = Some ch → chans' !! a = Some (if decide (N.of_nat a ∈ l.*1) then push ev ch else ch).
Proof.
  induction l as [|[id a] l IH]; intros chans Hnd Hop; cbn [foldl].
  - exists chans. split; [done|]. split; [done|]. intros a ch Ha. by rewrite decide_False by apply not_elem_of_nil.
  - cbn [fmap list_fmap fst] in Hnd. apply list.NoDup_cons in Hnd as [Hni Hnd].
    destruct (Hop id a ltac:(left)) as (-> & ch0 & Hlk & Hc).
    assert (Hsend : sendTo ev chans (N.to_nat id) = Some (<[N.to_nat id:=push ev ch0]> chans)).
    { unfold sendTo, trySend, push. rewrite Hlk. cbn. rewrite Hc. destruct ch0 as [q c]. cbn in *. subst c.
      by destruct (length q <=? 63)%nat. }
    cbn [snd mbind option_bind]. rewrite Hsend. destruct (IH (<[N.to_nat id:=push ev ch0]> chans) Hnd) as (chans' & Hf & Hlen & Hspec).
    { intros id' a' Hin. destruct (Hop id' a' ltac:(by right)) as (-> & ch & Hch & Hcl). split; [done|].
      assert (id' ≠ id) by (intros ->; apply Hni, list_elem_of_fmap; by exists (id, N.to_nat id)).
      exists ch. rewrite list_lookup_insert_ne by lia. done. }
    exists chans'. split; [done|]. split; [by rewrite Hlen, length_insert|]. intros a ch Ha.
    destruct (decide (a = N.to_nat id)) as [->|Hne].
    + rewrite (Hspec _ (push ev ch0)) by (apply list_lookup_insert_eq; by eapply lookup_lt_Some).
      rewrite N2Nat.id, decide_False by done. rewrite decide_True by (by left). congruence.
    + rewrite (Hspec a ch) by (by rewrite list_lookup_insert_ne). do 2 f_equal. apply decide_ext.
      cbn [fmap list_fmap fst]. rewrite elem_of_cons. split; [by right|intros [He|?]; [|done]]. exfalso. apply Hne. lia.
Qed.

Lemma broadcast_spec ev subs chans : (∀ id a, subs !! id = Some a → openAt chans id a) →
  ∃ chans', broadcast ev subs chans = Some chans' ∧ length chans' = length chans
  ∧ ∀ a ch, chans !! a = Some ch → chans' !! a = Some (if decide (is_Some (subs !! N.of_nat a)) then push ev ch else ch).
Proof.
  intros Hop. destruct (broadcast_list ev (map_to_list subs) chans) as (chans' & Hf & Hlen & Hspec).
  - apply NoDup_fst_map_to_list.
  - intros id a Hin%elem_of_map_to_list. auto.
  - exists chans'. split; [done|]. split; [done|]. intros a ch Ha. rewrite (Hspec a ch Ha). do 2 f_equal. apply decide_ext.
    rewrite list_elem_of_fmap. split.
    + intros ([id b] & He & Hin%elem_of_map_to_list). cbn in He. subst id. by eexists.
    + intros [b Hb]. exists (N.of_nat a, b). split; [done|]. by apply elem_of_map_to_list.
Qed.

(** ** The world *)

Definition since (log : list RequestEvent) (s : subscription) : list RequestEvent := drop (sn_before s) log.

(** A subscription and its channel. *)
Record subOk (w : World) (k : nat) (s : subscription) (ch : channel) : Prop := {
  so_id : sn_id s = N.of_nat k;
  so_addr : sn_addr s = k;
  so_closed : ch_closed ch = bool_decide (sn_phase s = Closed);
  so_before : (sn_before s ≤ length (w_log w))%nat;
  so_snapshot : sn_snapshot s = take (Z.to_nat (cap (w_feed w))) (reverse (take (sn_before s) (w_log w)));
  so_seen : sn_received s ++ ch_queue ch `sublist_of` since (w_log w) s;
  so_bound : (length (ch_queue ch) ≤ subscriberBufSize)%nat }.

Record worldOk (w : World) : Prop := {
  wo_ring : ringOk (w_feed w) (w_log w);
  wo_quiet : w_panicked w = false;
  wo_next : nextSubID (w_feed w) = N.of_nat (length (w_subs w));
  wo_chans : length (w_chans w) = length (w_subs w);
  wo_subs : ∀ k s ch, w_subs w !! k = Some s → w_chans w !! k = Some ch → subOk w k s ch;
  wo_live : ∀ id a, subscribers (w_feed w) !! id = Some a ↔
    ∃ s, w_subs w !! a = Some s ∧ id = N.of_nat a ∧ sn_phase s = Live }.

(** The window of a subscription only grows, and keeps what it had. *)
Lemma since_snoc log s ev : (sn_before s ≤ length log)%nat → since (log ++ [ev]) s = since log s ++ [ev].
Proof. intros Hb. unfold since. by rewrite drop_app_le. Qed.

Lemma subOk_add w f ev chans k s ch c : subOk w k s ch → cap f = cap (w_feed w) →
  (c = ch ∨ c = push ev ch) → subOk (mkWorld f chans (w_subs w) (w_log w ++ [ev]) (w_panicked w)) k s c.
Proof.
  intros [Hid Ha Hc Hb Hs Hr Hq] Hcap Hch. assert (Hb' := Hb). split; cbn; [done|done|..].
  - rewrite <- Hc. destruct Hch as [->| ->]; [done|]. unfold push. by destruct (_ <? _)%nat.
  - rewrite length_app. lia.
  - by rewrite Hs, Hcap, take_app_le by done.
  - rewrite since_snoc by done. destruct Hch as [->| ->]; [by apply sublist_inserts_r|]. unfold push.
    destruct (_ <? _)%nat; [|by apply sublist_inserts_r]. cbn. rewrite app_assoc. by apply sublist_app.
  - destruct Hch as [->| ->]; [done|]. unfold push. destruct (Nat.ltb_spec (length (ch_queue ch)) subscriberBufSize); [|done].
    cbn. rewrite length_app. cbn. lia.
Qed.

Lemma worldOk_open w id a : worldOk w → subscribers (w_feed w) !! id = Some a → openAt (w_chans w) id a.
Proof.
  intros [_ _ _ Hl Hs Hlive] (s & Hsub & -> & Hp)%Hlive. split; [by rewrite Nat2N.id|].
  destruct (lookup_lt_is_Some_2 (w_chans w) a) as [ch Hch]; [rewrite Hl; by eapply lookup_lt_Some|].
  exists ch. split; [done|]. destruct (Hs _ _ _ Hsub Hch) as [_ _ Hc _ _ _ _]. by rewrite Hc, Hp.
Qed.

Lemma live_iff w k s : worldOk w → w_subs w !! k = Some s →
  is_Some (subscribers (w_feed w) !! N.of_nat k) ↔ sn_phase s = Live.
Proof.
  intros [_ _ _ _ _ Hlive] Hs. split.
  - intros [a (s' & Hs' & He & Hp)%Hlive]. apply Nat2N.inj in He as <-. congruence.
  - intros Hp. exists k. apply Hlive. eauto.
Qed.

(** [Add] never panics, and reaches exactly the live subscriptions with room. *)
Lemma add_spec w ev : worldOk w → ∃ chans',
  feedStep w (FeedAdd ev) = mkWorld (addRing ev (w_feed w)) chans' (w_subs w) (w_log w ++ [ev]) (w_panicked w)
  ∧ length chans' = length (w_chans w)
  ∧ ∀ k s ch, w_subs w !! k = Some s → w_chans w !! k = Some ch →
      chans' !! k = Some (if decide (sn_phase s = Live) then push ev ch else ch).
Proof.
  intros Hw. destruct (broadcast_spec ev (subscribers (w_feed w)) (w_chans w)) as (chans' & Hb & Hlen & Hspec).
  { intros id a. by apply worldOk_open. }
  exists chans'. split; [|split; [done|]].
  - destruct w as [f chans subs log p]. cbn in *. unfold Add. by rewrite Hb.
  - intros k s ch Hs Hch. rewrite (Hspec k ch Hch). do 2 f_equal. apply decide_ext. by apply live_iff.
Qed.

Lemma worldOk_add w ev : worldOk w → worldOk (feedStep w (FeedAdd ev)).
Proof.
  intros Hw. destruct (add_spec w ev Hw) as (chans' & -> & Hlen & Hspec). destruct Hw as [Hr Hq Hn Hl Hs Hlive].
  split; cbn; [by apply ringOk_add|done|done|by rewrite Hlen| |done].
  intros k s ch Hk Hch. destruct (lookup_lt_is_Some_2 (w_chans w) k) as [ch0 Hch0]; [rewrite Hl; by eapply lookup_lt_Some|].
  rewrite (Hspec k s ch0 Hk Hch0) in Hch. injection Hch as <-. apply (subOk_add w _ ev chans' k s ch0); [by apply Hs|done|].
  case_decide; auto.
Qed.

(** A step that leaves the feed's events alone and changes at most one subscription. *)
Lemma subOk_keep w w' k s ch : subOk w k s ch → w_log w' = w_log w → cap (w_feed w') = cap (w_feed w) → subOk w' k s ch.
Proof. intros [] Hl Hc. split; rewrite ?Hl, ?Hc; done. Qed.

Lemma worldOk_subscribe w : worldOk w → (N.of_nat (length (w_subs w)) + 1 < 2 ^ 64)%N → worldOk (feedStep w FeedSubscribe).
Proof.
  intros [Hr Hq Hn Hl Hs Hlive] Hbound. destruct w as [f chans subs log p]. cbn in *. split; cbn.
  - by destruct Hr.
  - done.
  - rewrite Hn, length_app. cbn. rewrite N.mod_small by lia. lia.
  - rewrite !length_app. cbn. lia.
  - intros k s ch Hk Hch. apply lookup_app_Some in Hk as [Hk|[Hge Hk]].
    + rewrite lookup_app_l in Hch by (rewrite Hl; by eapply lookup_lt_Some). eapply subOk_keep; [by apply Hs|done|done].
    + apply list_lookup_singleton_Some in Hk as [Hz <-]. assert (k = length subs) as -> by lia.
      rewrite <- Hl, list_lookup_middle in Hch by done. injection Hch as <-.
      split; cbn; [by rewrite Hn|done|done|done| |unfold since; cbn; by rewrite drop_all|lia].
      by rewrite (Snapshot_spec _ _ Hr), firstn_all.
  - intros id a. rewrite lookup_insert_Some, Hlive. split.
    + intros [[<- <-]|[Hne (s & Hk & -> & Hp)]].
      * eexists. rewrite Hl, list_lookup_middle by done. split; [done|]. split; [by rewrite Hn|done].
      * exists s. split; [by apply lookup_app_l_Some|done].
    + intros (s & Hk & -> & Hp). apply lookup_app_Some in Hk as [Hk|[Hge Hk]].
      * right. split; [|eauto]. rewrite Hn. apply lookup_lt_Some in Hk. lia.
      * left. apply list_lookup_singleton_Some in Hk as [Hz <-]. rewrite Hn, Hl. split; lia.
Qed.

(** Changing the subscription [k0] and its channel. *)
Lemma worldOk_change w f chans k0 s0 s1 : worldOk w → w_subs w !! k0 = Some s0 →
  buf f = buf (w_feed w) → head f = head (w_feed w) → count f = count (w_feed w) → cap f = cap (w_feed w) →
  nextSubID f = nextSubID (w_feed w) → length chans = length (w_chans w) →
  (∀ k, k ≠ k0 → chans !! k = w_chans w !! k) →
  let w' := mkWorld f chans (<[k0 := s1]> (w_subs w)) (w_log w) (w_panicked w) in
  (∀ ch, w_chans w !! k0 = Some ch → subOk w k0 s0 ch → ∃ ch', chans !! k0 = Some ch' ∧ subOk w' k0 s1 ch') →
  (∀ id a, subscribers f !! id = Some a ↔
    if decide (a = k0) then id = N.of_nat k0 ∧ sn_phase s1 = Live else subscribers (w_feed w) !! id = Some a) →
  worldOk w'.
Proof.
  intros [Hr Hq Hn Hl Hs Hlive] Hk0 Hbuf Hh Hc Hcap Hnext Hlen Hother w' Hat Hlive'.
  assert (Hlt : (k0 < length (w_subs w))%nat) by (by eapply lookup_lt_Some). split; cbn.
  - destruct Hr as [R1 R2 R3 R4 R5]. split; rewrite ?Hbuf, ?Hh, ?Hc, ?Hcap; done.
  - done.
  - by rewrite Hnext, length_insert.
  - by rewrite Hlen, length_insert.
  - intros k s ch Hk Hch. apply list_lookup_insert_Some in Hk as [(-> & <- & _)|[Hne Hk]].
    + destruct (lookup_lt_is_Some_2 (w_chans w) k) as [ch0 Hch0]; [by rewrite Hl|].
      destruct (Hat ch0 Hch0) as (ch' & Hch' & Hok); [by apply Hs|]. congruence.
    + rewrite Hother in Hch by done. eapply subOk_keep; [by apply Hs|done|done].
  - intros id a. rewrite Hlive'. destruct (decide (a = k0)) as [->|Hne].
    + split; [intros [-> Hp]; exists s1; by rewrite list_lookup_insert_eq|].
      intros (s & Hs1 & -> & Hp). rewrite list_lookup_insert_eq in Hs1 by done. by injection Hs1 as <-.
    + rewrite list_lookup_insert_ne by done. apply Hlive.
Qed.

Lemma worldOk_delete w k : worldOk w → worldOk (feedStep w (FeedUnsubDelete k)).
Proof.
  intros Hw. destruct w as [f chans subs log p] eqn:Ew. cbn. destruct (subs !! k) as [s|] eqn:Ek; [|done].
  destruct (sn_phase s) eqn:Ep; [|done|done]. rewrite <- Ew in Hw. pose proof Hw as [_ _ _ Hl Hs Hlive].
  pose proof (worldOk_change w (unsubDelete (sn_id s) f) chans k s (setPhase Deleted s) Hw) as Hc. subst w. cbn in *.
  destruct (lookup_lt_is_Some_2 chans k) as [ch Hch]; [rewrite Hl; by eapply lookup_lt_Some|].
  assert (Hid : sn_id s = N.of_nat k) by (by destruct (Hs _ _ _ Ek Hch)). apply Hc; try done.
  - intros ch0 Hch0 [S1 S2 S3 S4 S5 S6 S7]. exists ch0. split; [done|]. split; cbn; try done. by rewrite S3, Ep.
  - intros id a. rewrite lookup_delete_Some, Hid. case_decide as Ha.
    + subst a. split; [|by intros [? ?]]. intros [Hne (s' & _ & -> & _)%Hlive]. done.
    + split; [by intros [_ ?]|]. intros H. split; [|done]. intros <-. apply Hlive in H as (s' & _ & He & _). lia.
Qed.

Lemma worldOk_close w k : worldOk w → worldOk (feedStep w (FeedUnsubClose k)).
Proof.
  intros Hw. destruct w as [f chans subs log p] eqn:Ew. cbn. destruct (subs !! k) as [s|] eqn:Ek; [|done].
  destruct (sn_phase s) eqn:Ep; [done| |done]. rewrite <- Ew in Hw. pose proof Hw as [_ _ _ Hl Hs Hlive].
  subst w. cbn in *. destruct (lookup_lt_is_Some_2 chans k) as [ch Hch]; [rewrite Hl; by eapply lookup_lt_Some|].
  destruct (Hs _ _ _ Ek Hch) as [S1 S2 S3 S4 S5 S6 S7]. unfold closeChannel. rewrite S2, Hch. cbn. rewrite S3, Ep. cbn.
  apply (worldOk_change (mkWorld f chans subs log p) f _ k s (setPhase Closed s) Hw); try done; cbn.
  - by rewrite length_insert.
  - intros k' Hne. by rewrite list_lookup_insert_ne.
  - intros ch0 Hch0 _. exists (mkChannel (ch_queue ch) true).
    split; [apply list_lookup_insert_eq; by eapply lookup_lt_Some|]. by split.
  - intros id a. destruct (decide (a = k)) as [->|Ha]; [|reflexivity]. rewrite Hlive. split; [|by intros [_ ?]].
    intros (s' & Hs' & -> & Hp). congruence.
Qed.

Lemma worldOk_receive w k : worldOk w → worldOk (feedStep w (FeedReceive k)).
Proof.
  intros Hw. destruct w as [f chans subs log p] eqn:Ew. cbn. destruct (subs !! k) as [s|] eqn:Ek; [|done]. cbn.
  rewrite <- Ew in Hw. pose proof Hw as [_ _ _ Hl Hs Hlive].
  subst w. cbn in *. destruct (lookup_lt_is_Some_2 chans k) as [ch Hch]; [rewrite Hl; by eapply lookup_lt_Some|].
  destruct (Hs _ _ _ Ek Hch) as [S1 S2 S3 S4 S5 S6 S7]. rewrite S2, Hch. cbn.
  destruct ch as [[|ev queue] c]; [done|]. rewrite S2.
  apply (worldOk_change (mkWorld f chans subs log p) f _ k s (receive ev s) Hw); try done; cbn.
  - by rewrite length_insert.
  - intros k' Hne. by rewrite list_lookup_insert_ne.
  - intros ch0 Hch0 _. exists (mkChannel queue c).
    split; [apply list_lookup_insert_eq; by eapply lookup_lt_Some|]. split; cbn in *; try done; [|lia].
    by rewrite <- app_assoc.
  - intros id a. destruct (decide (a = k)) as [->|Ha]; [|reflexivity]. rewrite Hlive. split.
    + intros (s' & Hs' & -> & Hp). split; [done|]. congruence.
    + intros [-> Hp]. eauto.
Qed.

Definition isSubscribe (o : feedOp) : bool := match o with FeedSubscribe => true | _ => false end.
Definition subscriptions (ops : list feedOp) : nat := length (filter isSubscribe ops).

Lemma feedStep_subs w o : worldOk w →
  length (w_subs (feedStep w o)) = (length (w_subs w) + if isSubscribe o then 1 else 0)%nat.
Proof.
  intros Hw. destruct o as [ev| |k|k|k]; cbn [isSubscribe].
  - destruct (add_spec w ev Hw) as (chans' & -> & _). cbn. lia.
  - destruct w. cbn. rewrite length_app. cbn. lia.
  - destruct w as [f chans subs log p]. cbn. destruct (subs !! k) as [s|]; [|cbn; lia].
    destruct (sn_phase s); cbn; rewrite ?length_insert; lia.
  - destruct w as [f chans subs log p]. cbn. destruct (subs !! k) as [s|]; [|cbn; lia].
    destruct (sn_phase s); [cbn; lia| |cbn; lia]. destruct (closeChannel _ _); cbn; rewrite ?length_insert; lia.
  - destruct w as [f chans subs log p]. cbn. destruct (subs !! k ≫= _) as [[s [[|ev q] c]]|]; cbn; rewrite ?length_insert; lia.
Qed.

Lemma worldOk_run w ops : worldOk w → (N.of_nat (length (w_subs w) + subscriptions ops) < 2 ^ 64)%N → worldOk (feedRun w ops).
Proof.
  revert w. induction ops as [|o ops IH]; intros w Hw Hn; [done|].
  assert (He : subscriptions (o :: ops) = ((if isSubscribe o then 1 else 0) + subscriptions ops)%nat).
  { unfold subscriptions. rewrite list.filter_cons. by destruct o. }
  rewrite He in Hn. cbn [feedRun foldl]. apply IH.
  - destruct o; [by apply worldOk_add| |by apply worldOk_delete|by apply worldOk_close|by apply worldOk_receive].
    cbn [isSubscribe] in Hn. apply worldOk_subscribe; [done|]. clear -Hn. lia.
  - rewrite feedStep_subs by done. clear -Hn. lia.
Qed.

Lemma worldOk_start capacity : worldOk (feedStart capacity).
Proof. split; cbn; [apply ringOk_new|done..|]. intros id a. rewrite lookup_empty. split; [done|by intros (? & ? & _)]. Qed.

(** ** The promises *)

Definition worldOf (capacity : Z) (ops : list feedOp) : World := feedRun (feedStart capacity) ops.
Definition addsOf (ops : list feedOp) : list RequestEvent := omap (λ o, match o with FeedAdd ev => Some ev | _ => None end) ops.
Definition capacityOf (capacity : Z) : Z := if capacity <=? 0 then defaultFeedCapacity else capacity.

Lemma worldOk_of capacity ops : (N.of_nat (subscriptions ops) < 2 ^ 64)%N → worldOk (worldOf capacity ops).
Proof. intros Hn. apply worldOk_run; [apply worldOk_start|]. cbn. exact Hn. Qed.

Lemma feedStep_log w o : worldOk w → w_log (feedStep w o) = w_log w ++ addsOf [o] ∧ cap (w_feed (feedStep w o)) = cap (w_feed w).
Proof.
  intros Hw. unfold addsOf. destruct o as [ev| |k|k|k]; cbn [omap list_omap]; rewrite ?app_nil_r.
  - by destruct (add_spec w ev Hw) as (chans' & -> & _).
  - by destruct w.
  - destruct w as [f chans subs log p]. cbn. destruct (subs !! k) as [s|]; [|done]. by destruct (sn_phase s).
  - destruct w as [f chans subs log p]. cbn. destruct (subs !! k) as [s|]; [|done].
    destruct (sn_phase s); [done| |done]. by destruct (closeChannel _ _).
  - destruct w as [f chans subs log p]. cbn. by destruct (subs !! k ≫= _) as [[s [[|ev q] c]]|].
Qed.

Lemma feedRun_snoc w ops o : feedRun w (ops ++ [o]) = feedStep (feedRun w ops) o.
Proof. unfold feedRun. by rewrite foldl_app. Qed.

Lemma worldOf_log capacity ops : (N.of_nat (subscriptions ops) < 2 ^ 64)%N →
  w_log (worldOf capacity ops) = addsOf ops ∧ cap (w_feed (worldOf capacity ops)) = capacityOf capacity.
Proof.
  induction ops as [|o ops IH] using rev_ind; [done|]. unfold subscriptions. rewrite list.filter_app, length_app. intros Hn.
  destruct IH as [IHl IHc]; [unfold subscriptions; clear -Hn; lia|]. unfold worldOf in *. rewrite feedRun_snoc.
  destruct (feedStep_log (feedRun (feedStart capacity) ops) o) as [Hl Hc].
  { apply worldOk_of. unfold subscriptions. clear -Hn. lia. }
  rewrite Hl, Hc, IHl, IHc. unfold addsOf. by rewrite omap_app.
Qed.

(** C35. However adds, subscriptions, receipts and the two halves of [unsub]
    interleave, nothing panics, and the snapshot is the last [capacity] added
    events, newest first; that of a conversation is its events among them, and
    nothing for the empty identity. *)
Theorem feed_refines capacity ops : (N.of_nat (subscriptions ops) < 2 ^ 64)%N →
  let w := worldOf capacity ops in
  let recent := take (Z.to_nat (capacityOf capacity)) (reverse (addsOf ops)) in
  w_panicked w = false ∧ Snapshot (w_feed w) = recent
  ∧ ∀ id, SnapshotForConversation id (w_feed w)
          = if String.eqb id "" then [] else filter (λ ev, re_ConversationID ev = id) recent.
Proof.
  intros Hn w recent. pose proof (worldOk_of capacity ops Hn) as [Hr Hq _ _ _ _]. fold w in Hr, Hq.
  destruct (worldOf_log capacity ops Hn) as [Hl Hc]. fold w in Hl, Hc.
  assert (Snapshot (w_feed w) = recent) as Hs by (by rewrite (Snapshot_spec _ _ Hr), Hl, Hc).
  split; [done|]. split; [done|]. intros id. unfold SnapshotForConversation. by rewrite Hs.
Qed.

(** In every such interleaving a subscription got the last events before it as its
    snapshot; what it has received and what waits in its channel are events added
    after that, each at most once and in order; and while it has not been
    unsubscribed the next event is put in its channel unless 64 wait there. *)
Theorem feed_subscribers capacity ops k s : (N.of_nat (subscriptions ops) < 2 ^ 64)%N →
  let w := worldOf capacity ops in
  w_subs w !! k = Some s →
  ∃ ch, w_chans w !! sn_addr s = Some ch
    ∧ sn_snapshot s = take (Z.to_nat (capacityOf capacity)) (reverse (take (sn_before s) (addsOf ops)))
    ∧ sn_received s ++ ch_queue ch `sublist_of` drop (sn_before s) (addsOf ops)
    ∧ (sn_phase s = Live → ∀ ev,
         (λ c, ch_queue c) <$> w_chans (feedStep w (FeedAdd ev)) !! sn_addr s
         = Some (if decide (length (ch_queue ch) < subscriberBufSize)%nat then ch_queue ch ++ [ev] else ch_queue ch)).
Proof.
  intros Hn w Hk. pose proof (worldOk_of capacity ops Hn) as Hw. fold w in Hw.
  destruct (worldOf_log capacity ops Hn) as [Hl Hc]. fold w in Hl, Hc.
  destruct (lookup_lt_is_Some_2 (w_chans w) k) as [ch Hch]; [rewrite (wo_chans _ Hw); by eapply lookup_lt_Some|].
  destruct (wo_subs _ Hw _ _ _ Hk Hch) as [S1 S2 S3 S4 S5 S6 S7]. exists ch. rewrite S2. split; [done|].
  split; [by rewrite S5, Hc, Hl|]. split; [by rewrite <- Hl|]. intros Hp ev.
  destruct (add_spec w ev Hw) as (chans' & -> & _ & Hspec). cbn. rewrite (Hspec k s ch Hk Hch), decide_True by done. cbn.
  f_equal. unfold push. destruct (Nat.ltb_spec (length (ch_queue ch)) subscriberBufSize);
    [by rewrite decide_True|by rewrite decide_False by lia].
Qed.

(** ** A short run *)

Definition eventOf (id : string) : RequestEvent :=
  mkEvent id "" "" "" "" 200 (SpecFloat.S754_zero false) 0 0 0 0 0 0 [] "" false "".
(** Three events into a ring of two, the last two seen by a subscriber that then leaves. *)
Definition shortRun : list feedOp :=
  [FeedAdd (eventOf "a"); FeedSubscribe; FeedAdd (eventOf "b"); FeedAdd (eventOf "a"); FeedReceive 0;
   FeedUnsubDelete 0; FeedAdd (eventOf "c"); FeedUnsubClose 0].

Lemma feed_refines_witness : Snapshot (w_feed (worldOf 2 shortRun)) = [eventOf "c"; eventOf "a"].
Proof.
  destruct (feed_refines 2 shortRun) as (_ & Hs & _); [vm_compute; reflexivity|]. rewrite Hs. reflexivity.
Defined.

Lemma feed_subscribers_witness : ∃ ch s, w_subs (worldOf 2 shortRun) !! 0%nat = Some s
  ∧ w_chans (worldOf 2 shortRun) !! sn_addr s = Some ch
  ∧ sn_received s ++ ch_queue ch `sublist_of` [eventOf "b"; eventOf "a"; eventOf "c"].
Proof.
  assert (∃ s, w_subs (worldOf 2 shortRun) !! 0%nat = Some s ∧ sn_before s = 1%nat) as (s & Hs & Hb)
    by (eexists; vm_compute; split; reflexivity).
  destruct (feed_subscribers 2 shortRun 0 s ltac:(vm_compute; reflexivity) Hs) as (ch & Hch & _ & Hsub & _).
  exists ch, s. rewrite Hb in Hsub. split; [exact Hs|]. split; [exact Hch|exact Hsub].
Defined.
