(* ===== verification/Os.v ===== *)
(** * Files and calls that fail

    What the components that keep files use of Go's [os]: a disk of nodes at clean
    absolute Unix paths (a path is the list of its components), and one call after
    another, each of which may fail without effect; a write that fails may have
    written a prefix.  Which calls fail is given by the run. *)

From stdpp Require Import base list strings gmap numbers pretty.
From S2P Require Import Prelude ByteStrings GoStrings.

Inductive osErr := NotExist | Fault | Refused (why : string).

Abbreviation fpath := (list string).

Inductive node := Regular (content : string) (links : N) | Directory | Irregular.

Record disk := mkDisk { nodes : gmap fpath node; calls : nat }.

(** Which calls fail, and how much a failing write has written. *)
Class Faults := { fails : nat → bool; torn : nat → nat }.

Definition io (A : Type) : Type := disk → res osErr A * disk.
Definition io_ret {A} (r : res osErr A) : io A := λ d, (r, d).
Definition io_bind {A B} (c : io A) (k : A → io B) : io B :=
  λ d, match c d with (Ok a, d) => k a d | (Err e, d) => (Err e, d) end.
(** [_ = c]: the outcome is ignored. *)
Definition io_ignore {A B} (c : io A) (k : io B) : io B := λ d, k (c d).2.
(** [if err := c; err != nil && !errors.Is(err, os.ErrNotExist) { return err }] *)
Definition io_missing (c : io unit) : io unit :=
  λ d, match c d with (Err NotExist, d) => (Ok tt, d) | x => x end.

Notation "x <-! c ; k" := (io_bind c (λ x, k)) (at level 100, c at next level, right associativity).

Section Calls.
Context `{Faults}.

Definition call {A} (op : gmap fpath node → res osErr A * gmap fpath node) : io A :=
  λ d, if fails (calls d) then (Err Fault, mkDisk (nodes d) (S (calls d)))
       else let '(r, ns) := op (nodes d) in (r, mkDisk ns (S (calls d))).

Definition Lstat (p : fpath) : io node :=
  call (λ ns, (match ns !! p with Some n => Ok n | None => Err NotExist end, ns)).

(** [os.Chmod]: the mode is not modelled. *)
Definition Chmod (p : fpath) : io unit :=
  call (λ ns, (match ns !! p with Some _ => Ok tt | None => Err NotExist end, ns)).

(** [os.MkdirAll]: the missing prefixes of the path. *)
Fixpoint mkdirs (before : fpath) (rest : fpath) (ns : gmap fpath node) : res osErr unit * gmap fpath node :=
  match rest with
  | [] => (Ok tt, ns)
  | c :: rest =>
      let p := before ++ [c] in
      match ns !! p with
      | Some Directory => mkdirs p rest ns
      | Some _ => (Err (Refused "not a directory"), ns)
      | None => mkdirs p rest (<[p := Directory]> ns)
      end
  end.
Definition MkdirAll (p : fpath) : io unit := call (mkdirs [] p).

(** [os.OpenFile(p, os.O_CREATE|os.O_APPEND, ...)]; the handle is the path, which
    nobody renames while it is open for writing. *)
Definition OpenAppendCreate (p : fpath) : io unit :=
  call (λ ns, match ns !! p with
              | None => (Ok tt, <[p := Regular "" 1]> ns)
              | Some (Regular _ _) => (Ok tt, ns)
              | Some _ => (Err (Refused "not a file"), ns)
              end).

Definition appendNode (p : fpath) (data : string) (ns : gmap fpath node) : gmap fpath node :=
  match ns !! p with Some (Regular c l) => <[p := Regular (c +:+ data) l]> ns | _ => ns end.
Definition Write (p : fpath) (data : string) : io unit :=
  λ d, if fails (calls d)
       then (Err Fault, mkDisk (appendNode p (str_take (torn (calls d)) data) (nodes d)) (S (calls d)))
       else (Ok tt, mkDisk (appendNode p data (nodes d)) (S (calls d))).

Definition ReadFile (p : fpath) : io string :=
  call (λ ns, (match ns !! p with Some (Regular c _) => Ok c | Some _ => Err (Refused "not a file") | None => Err NotExist end, ns)).

Definition Rename (old new : fpath) : io unit :=
  call (λ ns, match ns !! old, ns !! new with
              | None, _ => (Err NotExist, ns)
              | _, Some Directory => (Err (Refused "is a directory"), ns)
              | Some n, _ => (Ok tt, <[new := n]> (delete old ns))
              end).

Definition Remove (p : fpath) : io unit :=
  call (λ ns, match ns !! p with
              | None => (Err NotExist, ns)
              | Some Directory => (Err (Refused "is a directory"), ns)
              | Some _ => (Ok tt, delete p ns)
              end).

(** [os.ReadDir]: the names of the entries of a directory. *)
Definition entryOf (dir p : fpath) : option string :=
  if bool_decide (removelast p = dir ∧ p ≠ []) then list.last p else None.
Definition ReadDir (dir : fpath) : io (list string) :=
  call (λ ns, (match ns !! dir with
               | Some Directory => Ok (sort_Strings (omap (λ e : fpath * node, entryOf dir e.1) (map_to_list ns)))
               | Some _ => Err (Refused "not a directory")
               | None => Err NotExist
               end, ns)).

(** [os.CreateTemp(dir, ...)], with the fresh name it picked. *)
Definition CreateTemp (p : fpath) : io unit :=
  call (λ ns, match ns !! p with None => (Ok tt, <[p := Regular "" 1]> ns) | Some _ => (Err Fault, ns) end).
Definition Sync (p : fpath) : io unit := call (λ ns, (Ok tt, ns)).
Definition Close (p : fpath) : io unit := call (λ ns, (Ok tt, ns)).
Definition Truncate (p : fpath) (size : nat) : io unit :=
  call (λ ns, (Ok tt, match ns !! p with Some (Regular c l) => <[p := Regular (str_take size c) l]> ns | _ => ns end)).
End Calls.

(** ** Names *)

(** The last component with a suffix; [fmt.Sprintf] of the path, a dot and a number. *)
Definition numbered (p : fpath) (i : N) : fpath := removelast p ++ [default "" (list.last p) +:+ "." +:+ pretty i].

Lemma numbered_inj p i j : numbered p i = numbered p j → i = j.
Proof.
  unfold numbered. intros [_ He]%app_inj_2; [|done]. injection He as He. apply (inj (String.append _)) in He.
  injection He as He. by apply (inj pretty).
Qed.

Lemma numbered_length p i : p ≠ [] → length (numbered p i) = length p.
Proof.
  intros Hp. unfold numbered. rewrite length_app. cbn. destruct p as [|x p] using rev_ind; [done|].
  rewrite removelast_last, length_app. done.
Qed.

Lemma append_self s t : s = s +:+ t → t = "".
Proof. intros He. apply (f_equal String.length) in He. rewrite str_length_app in He. destruct t; [done|]. cbn in He. lia. Qed.

Lemma numbered_ne p i : p ≠ [] → numbered p i ≠ p.
Proof.
  intros Hp. destruct p as [|x p _] using rev_ind; [done|]. unfold numbered. rewrite removelast_last, last_snoc. cbn.
  intros [_ He]%app_inj_2; [|done]. injection He as He. symmetry in He. by apply append_self in He.
Qed.
