(* ===== verification/PluginFiles.v ===== *)
(** * Files of plugins

    internal/pluginfiles/store.go: a logical file of a plugin is a path below a
    directory only the host knows, an append rotates it within the approved budget,
    a write replaces it whole, and a delete takes its retained generations along.
    The operations of one family of generations run under one lock, the one of
    [lockPath], so they are modelled one after another.  SHA-256 is an argument. *)

From stdpp Require Import base list strings gmap numbers pretty.
From Stdlib Require Import Ascii.
From S2P Require Import Prelude ByteStrings HeaderPolicy GoStrings ConversationKeys PluginResources Os.

Open Scope Z_scope.

Definition maxHostCallPayload : Z := 64 * 1024.
Definition maxReadBytes : Z := 64 * 1024 * 1024.

(** The suffix after the last dot of a name, and what is before it. *)
Fixpoint cutLastDot (s : string) : option (string * string) :=
  match s with
  | "" => None
  | String c s =>
      match cutLastDot s with
      | Some (before, after) => Some (String c before, after)
      | None => if Ascii.eqb c "." then Some ("", s) else None
      end
  end.

(** A retained generation: the number after the prefix. *)
Definition generation (s : string) : option Z := v ← Atoi s; if 0 <? v then Some v else None.

(** The loop of [file]: strip suffixes that are generations. *)
Fixpoint stripGenerations (fuel : nat) (base : string) : string :=
  match fuel with
  | O => base
  | S fuel =>
      match cutLastDot base with
      | Some (before, after) => if generation after is Some _ then stripGenerations fuel before else base
      | None => base
      end
  end.
Definition lockPath (path : fpath) : fpath :=
  match list.last path with
  | Some base => removelast path ++ [stripGenerations (String.length base) base]
  | None => path
  end.

Section Store.
Context (sha256 : string → string) `{Faults} (root : fpath).

(** [New]: [name] is the text of the root. *)
Definition NewStore (name : string) : io unit :=
  if String.eqb name "" then io_ret (Err (Refused "plugin file root is required"))
  else _ <-! MkdirAll root; Chmod root.

Definition pluginDir (plugin : string) : fpath := root ++ [EncodeToString (str_take 16 (sha256 plugin))].

Definition unsafePart (part : string) : bool := bool_decide (part ∈ [""; "."; ".."]).

Definition target (plugin logical : string) : res osErr fpath :=
  if String.eqb logical "" || HasPrefix logical "/" || ContainsByte "\" logical then Err (Refused "unsafe logical path")
  else if existsb unsafePart (Split "/" logical) then Err (Refused "unsafe logical path")
  else
    let base := pluginDir plugin in
    let path := base ++ Split "/" logical in
    if bool_decide (path ≠ base) && negb (bool_decide (base `prefix_of` path)) then Err (Refused "path escapes plugin directory")
    else Ok path.

(** The walk of [secureParent] from the directory of the file up to the plugin's. *)
Fixpoint secureWalk (fuel : nat) (current base : fpath) : io unit :=
  match fuel with
  | O => io_ret (Err (Refused "path escapes plugin directory"))
  | S fuel =>
      info <-! Lstat current;
      match info with
      | Directory =>
          _ <-! Chmod current;
          if bool_decide (current = base) then io_ret (Ok tt)
          else if bool_decide (removelast current = current) || negb (bool_decide (base `prefix_of` current))
          then io_ret (Err (Refused "path escapes plugin directory"))
          else secureWalk fuel (removelast current) base
      | _ => io_ret (Err (Refused "unsafe plugin file directory"))
      end
  end.
Definition secureParent (path base : fpath) : io unit :=
  _ <-! MkdirAll (removelast path);
  secureWalk (S (length path)) (removelast path) base.

Definition regularSingleLink (path : fpath) (allowMissing : bool) : io unit :=
  λ d, match Lstat path d with
       | (Err NotExist, d) => (if allowMissing then Ok tt else Err NotExist, d)
       | (Err e, d) => (Err e, d)
       | (Ok (Regular _ links), d) =>
           (if (links =? 1)%N then Ok tt else Err (Refused "plugin file has multiple hard links"), d)
       | (Ok _, d) => (Err (Refused "plugin file is not a regular file"), d)
       end.

(** ** Rotation *)

(** [for i := retained - 1; i >= 1; i--] *)
Fixpoint shiftDown (path : fpath) (i : nat) : io unit :=
  match i with
  | O => io_ret (Ok tt)
  | S i' =>
      _ <-! io_missing (Rename (numbered path (N.of_nat i)) (numbered path (N.of_nat (S i))));
      shiftDown path i'
  end.

Definition rotate (path : fpath) (retained : Z) : io unit :=
  if retained <=? 0 then Remove path
  else
    io_ignore (Remove (numbered path (Z.to_N retained)))
      (_ <-! shiftDown path (Z.to_nat retained - 1);
       io_missing (Rename path (numbered path 1))).

(** [os.Stat(path)]: the size, 0 if there is no file. *)
Definition statSize (path : fpath) : io Z :=
  λ d, match Lstat path d with
       | (Ok (Regular c _), d) => (Ok (Z.of_nat (String.length c)), d)
       | (Ok _, d) => (Ok 0, d)
       | (Err NotExist, d) => (Ok 0, d)
       | (Err e, d) => (Err e, d)
       end.

Definition appendLocked (base path : fpath) (data : string) (resource : FileResource) : io unit :=
  _ <-! secureParent path base;
  _ <-! regularSingleLink path true;
  if fr_MaxBytes resource <=? 0 then io_ret (Err (Refused "file has no size budget"))
  else if fr_MaxBytes resource <? Z.of_nat (String.length data) then io_ret (Err (Refused "append exceeds approved file size"))
  else
    size <-! statSize path;
    _ <-! (if fr_MaxBytes resource <? size + Z.of_nat (String.length data) then rotate path (fr_RetainedFiles resource) else io_ret (Ok tt));
    _ <-! OpenAppendCreate path;
    _ <-! regularSingleLink path false;
    Write path data.

Definition Append (plugin logical data : string) (resource : FileResource) : io unit :=
  if maxHostCallPayload <? Z.of_nat (String.length data) then io_ret (Err (Refused "append exceeds 64 KiB host-call limit"))
  else
    path <-! io_ret (target plugin logical);
    _ <-! appendLocked (pluginDir plugin) path data resource;
    Sync path.

(** ** The other operations *)

Definition Read (plugin logical : string) (resource : FileResource) : io string :=
  path <-! io_ret (target plugin logical);
  _ <-! regularSingleLink path false;
  let limit := if (fr_MaxBytes resource <=? 0) || (maxReadBytes <? fr_MaxBytes resource) then maxReadBytes else fr_MaxBytes resource in
  data <-! ReadFile path;
  io_ret (if limit <? Z.of_nat (String.length data) then Err (Refused "file exceeds read limit") else Ok data).

(** The steps of [Write] on the temporary file, up to the rename. *)
Definition writeTemp (tmp : fpath) (data : string) : io unit :=
  _ <-! Chmod tmp;
  _ <-! Write tmp data;
  _ <-! Sync tmp;
  Close tmp.

(** [name]: what [os.CreateTemp] picks.  The deferred [os.Remove] runs last. *)
Definition WriteFile (plugin logical data : string) (resource : FileResource) (name : string) : io unit :=
  if (fr_MaxBytes resource <=? 0) || (maxHostCallPayload <? Z.of_nat (String.length data))
     || (fr_MaxBytes resource <? Z.of_nat (String.length data)) then io_ret (Err (Refused "write exceeds approved limit"))
  else
    path <-! io_ret (target plugin logical);
    _ <-! secureParent path (pluginDir plugin);
    _ <-! regularSingleLink path true;
    let tmp := removelast path ++ [name] in
    _ <-! CreateTemp tmp;
    λ d, let '(r, d) := (_ <-! writeTemp tmp data; Rename tmp path) d in (r, (Remove tmp d).2).

(** The generations among the entries of the directory. *)
Definition generations (path : fpath) (entries : list string) : list fpath :=
  let prefix := default "" (list.last path) +:+ "." in
  omap (λ entry, if HasPrefix entry prefix
                 then if generation (TrimPrefix entry prefix) is Some _ then Some (removelast path ++ [entry]) else None
                 else None) entries.

Fixpoint checkAll (path : fpath) (targets : list fpath) : io unit :=
  match targets with
  | [] => io_ret (Ok tt)
  | t :: targets => _ <-! regularSingleLink t (bool_decide (t = path)); checkAll path targets
  end.
Fixpoint removeAll (targets : list fpath) : io unit :=
  match targets with
  | [] => io_ret (Ok tt)
  | t :: targets => _ <-! io_missing (Remove t); removeAll targets
  end.

Definition Delete (plugin logical : string) : io unit :=
  path <-! io_ret (target plugin logical);
  λ d, match ReadDir (removelast path) d with
       | (Err NotExist, d) => (Ok tt, d)
       | (Err e, d) => (Err e, d)
       | (Ok entries, d) =>
           (let targets := path :: generations path entries in
            _ <-! checkAll path targets; removeAll targets) d
       end.

(** [range resources] is an order of its keys. *)
Fixpoint listLogical (plugin prefix : string) (logicals : list string) (out : list string) : io (list string) :=
  match logicals with
  | [] => io_ret (Ok (sort_Strings out))
  | logical :: logicals =>
      if negb (HasPrefix logical prefix) then listLogical plugin prefix logicals out
      else
        path <-! io_ret (target plugin logical);
        λ d, match regularSingleLink path false d with
             | (Ok _, d) => listLogical plugin prefix logicals (out ++ [logical]) d
             | (Err NotExist, d) => listLogical plugin prefix logicals out d
             | (Err e, d) => (Err e, d)
             end
  end.
Definition ListFiles (plugin prefix : string) (logicals : list string) : io (list string) :=
  listLogical plugin prefix logicals [].

(** The path is absolute and clean already. *)
Definition OperatorPath (plugin logical : string) : res osErr fpath :=
  if String.eqb plugin "" then Err (Refused "plugin name is required") else target plugin logical.
End Store.
