(* ===== verification/PluginFilesProofs.v ===== *)
(** * What the plugin files promise

    Whatever calls fail, the generations of an appended file hold a suffix of what
    was written, each within its budget; a path stays below the directory of its
    plugin; a write replaces the file or leaves it. *)

From stdpp Require Import base list strings gmap numbers pretty functions.
From Stdlib Require Import Ascii.
From S2P Require Import Prelude ByteStrings Framing HeaderPolicy GoStrings ConversationKeys PluginResources Os PluginFiles.

Open Scope Z_scope.

(** ** Generations *)

Definition genPath (path : fpath) (i : nat) : fpath := match i with O => path | _ => numbered path (N.of_nat i) end.

Lemma genPath_inj path i j : path ≠ [] → genPath path i = genPath path j → i = j.
Proof.
  intros Hp. destruct i, j; cbn [genPath]; intros He; [done|..].
  - by destruct (numbered_ne path (N.of_nat (S j)) Hp).
  - by destruct (numbered_ne path (N.of_nat (S i)) Hp).
  - apply numbered_inj in He. lia.
Qed.

Lemma genPath_length path i : path ≠ [] → length (genPath path i) = length path.
Proof. intros Hp. destruct i; [done|]. by apply numbered_length. Qed.

(** The writes the generations hold: the oldest generation first. *)
Abbreviation blocks := (nat → list string).
Fixpoint flat (B : blocks) (r : nat) : list string :=
  match r with O => B 0%nat | S r' => B r ++ flat B r' end.

Lemma flat_ext B B' r : (∀ i, (i ≤ r)%nat → B i = B' i) → flat B r = flat B' r.
Proof. induction r as [|r IH]; intros He; cbn [flat]; [by apply He|]. rewrite (He (S r)) by done. f_equal. apply IH. intros. apply He. lia. Qed.

Lemma flat_drop B r : flat B r = B r ++ flat (<[r := []]> B) r.
Proof.
  destruct r as [|r]; cbn [flat]; rewrite fn_lookup_insert; [by rewrite app_nil_r|]. f_equal. cbn [app].
  apply flat_ext. intros i Hi. by rewrite fn_lookup_insert_ne by lia.
Qed.

Definition shiftBlock (i : nat) (B : blocks) : blocks := <[i := []]> (<[S i := B i]> B).

Lemma flat_shift B i r : (i < r)%nat → B (S i) = [] → flat (shiftBlock i B) r = flat B r.
Proof.
  unfold shiftBlock. induction r as [|r IH]; intros Hi HS; [lia|]. cbn [flat]. destruct (decide (S i = S r)) as [[= <-]|Hne].
  - rewrite fn_lookup_insert_ne by lia. rewrite fn_lookup_insert, HS. cbn [app].
    assert (flat (<[i:=[]]> (<[S i:=B i]> B)) i = flat (<[i:=[]]> B) i) as ->.
    { apply flat_ext. intros j Hj. destruct (decide (i = j)) as [->|]; [by rewrite !fn_lookup_insert|].
      by rewrite !fn_lookup_insert_ne by lia. }
    by rewrite <- flat_drop.
  - rewrite !fn_lookup_insert_ne by lia. f_equal. apply IH; [lia|done].
Qed.

Lemma flat_append B w r : flat (<[0%nat := B 0%nat ++ [w]]> B) r = flat B r ++ [w].
Proof.
  induction r as [|r IH]; cbn [flat]; [by rewrite fn_lookup_insert|].
  rewrite fn_lookup_insert_ne by lia. by rewrite IH, app_assoc.
Qed.

Lemma sconcat_snoc l w : sconcat (l ++ [w]) = sconcat l +:+ w.
Proof. rewrite sconcat_app. cbn. by rewrite app_empty_r. Qed.

Section Family.
Context `{Faults} (path : fpath) (resource : FileResource) (ok : list string → Prop) (Hpath : path ≠ []).
Let r : nat := Z.to_nat (fr_RetainedFiles resource).

(** The files of the family hold the blocks, each of which is within bounds. *)
Definition blockOf (n : option node) (l : list string) : Prop :=
  match n with
  | None => l = []
  | Some (Regular c _) => c = sconcat l ∧ ok l
  | Some _ => l = []
  end.
Definition rep (ns : gmap fpath node) (B : blocks) : Prop := ∀ i, (i ≤ r)%nat → blockOf (ns !! genPath path i) (B i).

(** Only the oldest writes are gone. *)
Definition older (B B' : blocks) : Prop := ∃ l, flat B r = l ++ flat B' r.
#[local] Instance older_refl : Reflexive older.
Proof. intros B. by exists []. Qed.
#[local] Instance older_trans : Transitive older.
Proof. intros B1 B2 B3 [l1 H1] [l2 H2]. exists (l1 ++ l2). by rewrite H1, H2, app_assoc. Qed.

(** ** Calls that leave the family alone *)

Definition keeps (ns ns' : gmap fpath node) : Prop := ∀ i, (i ≤ r)%nat → ns' !! genPath path i = ns !! genPath path i.
#[local] Instance keeps_refl : Reflexive keeps.
Proof. by intros ns i. Qed.
#[local] Instance keeps_trans : Transitive keeps.
Proof. intros n1 n2 n3 H1 H2 i Hi. by rewrite H2, H1. Qed.

Lemma keeps_rep ns ns' B : keeps ns ns' → rep ns B → rep ns' B.
Proof. intros Hk Hr i Hi. rewrite Hk by done. by apply Hr. Qed.

Definition quiet {A} (c : io A) : Prop := ∀ d, keeps (nodes d) (nodes (c d).2).

Lemma quiet_ret {A} (x : res osErr A) : quiet (io_ret x).
Proof. intros d. done. Qed.
Lemma quiet_bind {A B} (c : io A) (k : A → io B) : quiet c → (∀ a, quiet (k a)) → quiet (io_bind c k).
Proof.
  intros Hc Hk d. unfold io_bind. specialize (Hc d). destruct (c d) as [[a|e] d1]; [|done]. etrans; [exact Hc|]. apply Hk.
Qed.
Lemma quiet_call {A} (op : gmap fpath node → res osErr A * gmap fpath node) : (∀ ns, keeps ns (op ns).2) → quiet (call op).
Proof. intros Ho d. unfold call. destruct (fails _); [done|]. specialize (Ho (nodes d)). by destruct (op (nodes d)). Qed.

Lemma quiet_Lstat p : quiet (Lstat p).
Proof. by apply quiet_call. Qed.
Lemma quiet_Chmod p : quiet (Chmod p).
Proof. by apply quiet_call. Qed.
Lemma quiet_Sync p : quiet (Sync p).
Proof. by apply quiet_call. Qed.

Lemma quiet_mkdirs before rest ns : (length before + length rest < length path)%nat → keeps ns (mkdirs before rest ns).2.
Proof.
  revert before ns. induction rest as [|c rest IH]; intros before ns Hl; cbn [mkdirs]; [done|]. cbn in Hl.
  assert (Hlen : (length (before ++ [c]) + length rest < length path)%nat) by (rewrite length_app; cbn; lia).
  destruct (ns !! (before ++ [c])) as [[]|] eqn:E; [done|by apply IH|done|]. etrans; [|by apply IH]. intros i Hi.
  apply lookup_insert_ne. intros He. apply (f_equal length) in He. rewrite genPath_length in He by done. lia.
Qed.

Lemma quiet_secureWalk fuel current base : quiet (secureWalk fuel current base).
Proof.
  revert current. induction fuel as [|fuel IH]; intros current; cbn [secureWalk]; [apply quiet_ret|].
  apply quiet_bind; [apply quiet_Lstat|]. intros []; [apply quiet_ret| |apply quiet_ret].
  apply quiet_bind; [apply quiet_Chmod|]. intros _. destruct (bool_decide _); [apply quiet_ret|].
  destruct (_ || _); [apply quiet_ret|apply IH].
Qed.

Lemma removelast_length (p : fpath) : p ≠ [] → length (removelast p) = (length p - 1)%nat.
Proof. destruct p as [|x p _] using rev_ind; [done|]. rewrite removelast_last, length_app. cbn. lia. Qed.

Lemma quiet_secureParent base : quiet (secureParent path base).
Proof.
  apply quiet_bind; [|intros _; apply quiet_secureWalk]. apply quiet_call. intros ns. apply quiet_mkdirs.
  rewrite removelast_length by done. destruct path; [done|]. cbn. lia.
Qed.

Lemma quiet_single p allow : quiet (regularSingleLink p allow).
Proof.
  intros d. unfold regularSingleLink. pose proof (quiet_Lstat p d) as Hq.
  destruct (Lstat p d) as [[[]|[]] d1]; exact Hq.
Qed.

Lemma quiet_statSize p : quiet (statSize p).
Proof. intros d. unfold statSize. pose proof (quiet_Lstat p d) as Hq. destruct (Lstat p d) as [[[]|[]] d1]; exact Hq. Qed.

(** ** Rotation *)

Lemma rep_update ns B i n l : rep ns B → blockOf (Some n) l → rep (<[genPath path i := n]> ns) (<[i := l]> B).
Proof.
  intros Hr Hn j Hj. destruct (decide (i = j)) as [->|Hne]; [by rewrite lookup_insert_eq, fn_lookup_insert|].
  rewrite lookup_insert_ne by (intros He; by apply genPath_inj in He). rewrite fn_lookup_insert_ne by done. by apply Hr.
Qed.
Lemma rep_delete ns B i : rep ns B → rep (delete (genPath path i) ns) (<[i := []]> B).
Proof.
  intros Hr j Hj. destruct (decide (i = j)) as [->|Hne]; [by rewrite lookup_delete_eq, fn_lookup_insert|].
  rewrite lookup_delete_ne by (intros He; by apply genPath_inj in He). rewrite fn_lookup_insert_ne by done. by apply Hr.
Qed.

Lemma older_drop B : older B (<[r := []]> B).
Proof. exists (B r). apply flat_drop. Qed.

Lemma older_shift B i : (i < r)%nat → B (S i) = [] ∨ S i = r → older B (shiftBlock i B).
Proof.
  intros Hi [HS|HS]; [exists []; cbn; symmetry; by apply flat_shift|]. etrans; [apply older_drop|].
  exists []. cbn [app]. rewrite <- (flat_shift (<[r:=[]]> B) i r Hi) by (rewrite HS; by rewrite fn_lookup_insert).
  apply flat_ext. intros j _. unfold shiftBlock. rewrite HS. destruct (decide (i = j)) as [->|]; [by rewrite !fn_lookup_insert|].
  rewrite !(fn_lookup_insert_ne _ i) by done. destruct (decide (r = j)) as [<-|]; rewrite ?fn_lookup_insert, ?fn_lookup_insert_ne by lia; done.
Qed.

Lemma shift_spec d B i x d' : rep (nodes d) B → (i < r)%nat →
  nodes d !! genPath path (S i) = None ∨ S i = r →
  io_missing (Rename (genPath path i) (genPath path (S i))) d = (x, d') →
  ∃ B', rep (nodes d') B' ∧ older B B' ∧ (x = Ok tt → nodes d' !! genPath path i = None).
Proof.
  intros Hr Hi Ht. unfold io_missing, Rename, call. destruct (fails (calls d)); [intros [= <- <-]; by exists B|].
  destruct (nodes d !! genPath path i) as [n|] eqn:En; [|intros [= <- <-]; by exists B].
  assert (Hne : genPath path i ≠ genPath path (S i)) by (intros He%genPath_inj; [lia|done]).
  assert (Hmove : ∃ B', rep (<[genPath path (S i):=n]> (delete (genPath path i) (nodes d))) B' ∧ older B B'
    ∧ (<[genPath path (S i):=n]> (delete (genPath path i) (nodes d))) !! genPath path i = None).
  { exists (shiftBlock i B). split; [|split].
    - rewrite insert_delete_ne by done. unfold shiftBlock. apply rep_delete, rep_update; [done|].
      specialize (Hr i ltac:(lia)). by rewrite En in Hr.
    - apply older_shift; [done|]. destruct Ht as [Ht|]; [left|by right]. specialize (Hr (S i) ltac:(lia)). by rewrite Ht in Hr.
    - rewrite lookup_insert_ne by done. apply lookup_delete_eq. }
  destruct Hmove as (B' & H1 & H2 & H3).
  destruct (nodes d !! genPath path (S i)) as [[]|]; intros [= <- <-]; [by exists B'|by exists B|by exists B'..].
Qed.

Lemma shiftDown_spec i : ∀ d B x d', rep (nodes d) B → (i < r)%nat →
  nodes d !! genPath path (S i) = None ∨ S i = r → shiftDown path i d = (x, d') →
  ∃ B', rep (nodes d') B' ∧ older B B' ∧ (x = Ok tt → nodes d' !! genPath path 1 = None ∨ r = 1%nat).
Proof.
  induction i as [|i IH]; intros d B x d' Hr Hi Ht; cbn [shiftDown].
  - intros [= <- <-]. exists B. split; [done|]. split; [done|]. intros _. destruct Ht as [?|?]; [by left|right; lia].
  - unfold io_bind. destruct (io_missing _ d) as [y d1] eqn:E.
    destruct (shift_spec d B (S i) y d1 Hr Hi Ht E) as (B1 & Hr1 & Ho1 & Hn1). destruct y as [[]|e].
    + intros Hs. destruct (IH d1 B1 x d' Hr1 ltac:(lia) (or_introl (Hn1 eq_refl)) Hs) as (B2 & Hr2 & Ho2 & Hn2).
      exists B2. split; [done|]. split; [by etrans|done].
    + intros [= <- <-]. by exists B1.
Qed.

Lemma remove_spec d B i x d' : rep (nodes d) B → i = r → Remove (genPath path i) d = (x, d') →
  ∃ B', rep (nodes d') B' ∧ older B B' ∧ (x = Ok tt → nodes d' !! genPath path i = None).
Proof.
  intros Hr ->. unfold Remove, call. destruct (fails (calls d)); [intros [= <- <-]; by exists B|].
  assert (Hdel : ∃ B', rep (delete (genPath path r) (nodes d)) B' ∧ older B B' ∧ delete (genPath path r) (nodes d) !! genPath path r = None).
  { exists (<[r := []]> B). split; [by apply rep_delete|]. split; [apply older_drop|apply lookup_delete_eq]. }
  destruct Hdel as (B' & H1 & H2 & H3).
  destruct (nodes d !! genPath path r) as [[]|]; intros [= <- <-]; [by exists B'|by exists B|by exists B'|by exists B].
Qed.

Lemma rotate_spec d B x d' : rep (nodes d) B → rotate path (fr_RetainedFiles resource) d = (x, d') →
  ∃ B', rep (nodes d') B' ∧ older B B' ∧ (x = Ok tt → nodes d' !! path = None).
Proof.
  intros Hr. unfold rotate. destruct (Z.leb_spec (fr_RetainedFiles resource) 0) as [Hz|Hz].
  - intros Hs. apply (remove_spec d B 0 x d' Hr); [unfold r; lia|done].
  - assert (Hr1 : (1 ≤ r)%nat) by (unfold r; lia). unfold io_ignore.
    assert (numbered path (Z.to_N (fr_RetainedFiles resource)) = genPath path r) as ->.
    { assert (∃ k, r = S k) as [k Hk] by (exists (r - 1)%nat; lia). rewrite Hk. cbn [genPath]. f_equal. rewrite <- Hk. unfold r. lia. }
    destruct (Remove (genPath path r) d) as [y d1] eqn:E1.
    destruct (remove_spec d B r y d1 Hr eq_refl E1) as (B1 & HB1 & Ho1 & _). cbn [snd]. unfold io_bind.
    replace (Z.to_nat (fr_RetainedFiles resource) - 1)%nat with (r - 1)%nat by done.
    destruct (shiftDown path (r - 1) d1) as [z d2] eqn:E2.
    destruct (shiftDown_spec (r - 1) d1 B1 z d2 HB1 ltac:(lia) ltac:(right; lia) E2) as (B2 & HB2 & Ho2 & Hn2).
    destruct z as [[]|e].
    + intros Hs. change (numbered path 1) with (genPath path 1) in Hs.
      destruct (shift_spec d2 B2 0 x d' HB2 ltac:(lia)) as (B3 & HB3 & Ho3 & Hn3); [destruct (Hn2 eq_refl); auto|exact Hs|].
      exists B3. split; [done|]. split; [by etrans; [|etrans]|exact Hn3].
    + intros [= <- <-]. exists B2. split; [done|]. split; [by etrans|done].
Qed.

(** ** Appending *)

(** What one append may have written. *)
Definition wrote (data : string) (x : res osErr unit) (w : list string) : Prop :=
  (w = [] ∨ ∃ s n, w = [s] ∧ s = str_take n data) ∧ (x = Ok tt → w = [data]).

Lemma wrote_nothing data e : wrote data (Err e) [].
Proof. split; [by left|done]. Qed.

Lemma str_take_all s : str_take (String.length s) s = s.
Proof. induction s as [|c s IH]; cbn; congruence. Qed.

(** The write itself, into a file with room. *)
Lemma append_rep ns B s c l : rep ns B → ns !! path = Some (Regular c l) → ok (B 0%nat ++ [s]) →
  ∃ B', rep (appendNode path s ns) B' ∧ flat B r ++ [s] = flat B' r.
Proof.
  intros Hr Hc Hok. exists (<[0%nat := B 0%nat ++ [s]]> B). split; [|by rewrite flat_append].
  unfold appendNode. rewrite Hc. apply (rep_update _ _ 0); [done|]. specialize (Hr 0%nat ltac:(lia)). cbn [genPath] in Hr.
  rewrite Hc in Hr. destruct Hr as [-> _]. split; [by rewrite sconcat_snoc|done].
Qed.

Lemma write_spec d B data x d' c l : rep (nodes d) B → nodes d !! path = Some (Regular c l) →
  (∀ n, ok (B 0%nat ++ [str_take n data])) → Write path data d = (x, d') →
  ∃ w B', rep (nodes d') B' ∧ flat B r ++ w = flat B' r ∧ wrote data x w.
Proof.
  intros Hr Hc Hok.
  assert (Hgen : ∀ n, ∃ B', rep (appendNode path (str_take n data) (nodes d)) B' ∧ flat B r ++ [str_take n data] = flat B' r).
  { intros n. by eapply append_rep. }
  unfold Write. destruct (fails (calls d)); intros [= <- <-]; cbn [nodes].
  - destruct (Hgen (torn (calls d))) as (B' & H1 & H2). exists [str_take (torn (calls d)) data], B'. split; [done|]. split; [done|].
    split; [right; eauto|done].
  - destruct (Hgen (String.length data)) as (B' & H1 & H2). rewrite str_take_all in *. exists [data], B'. split; [done|]. split; [done|].
    split; [right; exists data, (String.length data); by rewrite str_take_all|done].
Qed.

Lemma bind_quiet {A B} (c : io A) (k : A → io B) d x d' : quiet c → io_bind c k d = (x, d') →
  (∃ e, x = Err e ∧ keeps (nodes d) (nodes d')) ∨ (∃ a d1, c d = (Ok a, d1) ∧ keeps (nodes d) (nodes d1) ∧ k a d1 = (x, d')).
Proof.
  intros Hq. specialize (Hq d). unfold io_bind. destruct (c d) as [[a|e] d1]; [|intros [= <- <-]; left; eauto].
  intros Hk. right. eauto.
Qed.

Lemma open_spec d B x d' : rep (nodes d) B → OpenAppendCreate path d = (x, d') → ok [] →
  rep (nodes d') B ∧ (x = Ok tt → ∃ c l, nodes d' !! path = Some (Regular c l)
    ∧ match nodes d !! path with Some (Regular c' _) => c' = c | _ => c = "" end).
Proof.
  intros Hr. unfold OpenAppendCreate, call. destruct (fails (calls d)); [intros [= <- <-] _; done|].
  destruct (nodes d !! path) as [[c l| |]|] eqn:E; intros [= <- <-] Hm; cbn [nodes].
  - split; [done|]. intros _. exists c, l. done.
  - done.
  - done.
  - split.
    + assert (Hb : B 0%nat = []) by (specialize (Hr 0%nat ltac:(lia)); cbn [genPath] in Hr; by rewrite E in Hr).
      intros i Hi. destruct i as [|i].
      * cbn [genPath]. rewrite lookup_insert_eq, Hb. by split.
      * rewrite lookup_insert_ne; [by apply Hr|]. intros He. by apply (genPath_inj path 0 (S i)) in He.
    + intros _. exists "", 1%N. by rewrite lookup_insert_eq.
Qed.

Lemma statSize_spec d size d1 : statSize path d = (Ok size, d1) → nodes d1 = nodes d ∧
  match nodes d !! path with Some (Regular c _) => size = Z.of_nat (String.length c) | _ => size = 0 end.
Proof.
  unfold statSize, Lstat, call. destruct (fails (calls d)); [done|].
  destruct (nodes d !! path) as [[c l| |]|]; intros [= <- <-]; done.
Qed.

(** The end of an append, when the file has room within the approved size. *)
Context (Hok : ∀ l, ok l ↔ Z.of_nat (String.length (sconcat l)) ≤ fr_MaxBytes resource).

Lemma finish_spec d B data x d' : rep (nodes d) B → 0 ≤ fr_MaxBytes resource →
  match nodes d !! path with
  | Some (Regular c _) => Z.of_nat (String.length c) + Z.of_nat (String.length data) ≤ fr_MaxBytes resource
  | _ => Z.of_nat (String.length data) ≤ fr_MaxBytes resource end →
  (_ <-! OpenAppendCreate path; _ <-! regularSingleLink path false; Write path data) d = (x, d') →
  ∃ w B', rep (nodes d') B' ∧ flat B r ++ w = flat B' r ∧ wrote data x w.
Proof.
  intros Hr Hm Hroom. unfold io_bind at 1. destruct (OpenAppendCreate path d) as [y d1] eqn:Eo.
  destruct (open_spec d B y d1 Hr Eo (proj2 (Hok []) Hm)) as [Hr1 Hy]. destruct y as [[]|e].
  2: { intros [= <- <-]. exists [], B. rewrite app_nil_r. split; [done|]. split; [done|apply wrote_nothing]. }
  destruct (Hy eq_refl) as (c & l & Hc & Hold). intros Hs.
  apply bind_quiet in Hs as [(e & -> & Hk)|(a & d2 & _ & Hk & Hs)]; [..|apply quiet_single].
  - exists [], B. rewrite app_nil_r. split; [by eapply keeps_rep|]. split; [done|apply wrote_nothing].
  - eapply (write_spec d2 B data x d' c l); [by eapply keeps_rep| | |exact Hs].
    + etrans; [exact (Hk 0%nat ltac:(lia))|exact Hc].
    + intros n. apply Hok. specialize (Hr1 0%nat ltac:(lia)). cbn [genPath] in Hr1. rewrite Hc in Hr1. destruct Hr1 as [Hb _].
      rewrite sconcat_snoc, <- Hb, str_length_app, str_take_length. clear Hb. destruct (nodes d !! path) as [[c' l'| |]|]; subst; cbn [String.length] in *; lia.
Qed.

Lemma appendLocked_spec d B base data x d' : rep (nodes d) B → appendLocked base path data resource d = (x, d') →
  ∃ w B' l, rep (nodes d') B' ∧ flat B r ++ w = l ++ flat B' r ∧ wrote data x w.
Proof.
  intros Hr. unfold appendLocked.
  assert (Hnone : ∀ d2 e, keeps (nodes d) (nodes d2) → ∃ w B' l, rep (nodes d2) B' ∧ flat B r ++ w = l ++ flat B' r ∧ wrote data (Err e) w).
  { intros d2 e Hk. exists [], B, []. rewrite app_nil_r. split; [by eapply keeps_rep|]. split; [done|apply wrote_nothing]. }
  intros Hs. apply bind_quiet in Hs as [(e & -> & Hk)|(a & d1 & _ & Hk1 & Hs)]; [by apply Hnone| |apply quiet_secureParent].
  apply bind_quiet in Hs as [(e & -> & Hk)|(a1 & d2 & _ & Hk2 & Hs)]; [apply Hnone; by etrans| |apply quiet_single].
  destruct (Z.leb_spec (fr_MaxBytes resource) 0); [injection Hs as <- <-; apply Hnone; by etrans|].
  destruct (Z.ltb_spec (fr_MaxBytes resource) (Z.of_nat (String.length data))); [injection Hs as <- <-; apply Hnone; by etrans|].
  apply bind_quiet in Hs as [(e & -> & Hk)|(size & d3 & Hst & Hk3 & Hs)]; [apply Hnone; by etrans; [|etrans]| |apply quiet_statSize].
  assert (Hr3 : rep (nodes d3) B) by (eapply keeps_rep; [|exact Hr]; by etrans; [|etrans]).
  apply statSize_spec in Hst as [Hn Hsize]. rewrite <- Hn in Hsize.
  destruct (Z.ltb_spec (fr_MaxBytes resource) (size + Z.of_nat (String.length data))).
  - unfold io_bind at 1 in Hs. destruct (rotate path (fr_RetainedFiles resource) d3) as [y d4] eqn:Er.
    destruct (rotate_spec d3 B y d4 Hr3 Er) as (B4 & Hr4 & [l Hl] & Hy). destruct y as [[]|e].
    + destruct (finish_spec d4 B4 data x d' Hr4) as (w & B' & HB' & Hw & Hx); [lia|by rewrite (Hy eq_refl)|exact Hs|].
      exists w, B', l. split; [done|]. split; [by rewrite Hl, <- app_assoc, Hw|done].
    + injection Hs as <- <-. exists [], B4, l. rewrite app_nil_r. split; [done|]. split; [done|apply wrote_nothing].
  - unfold io_bind at 1 in Hs. cbn [io_ret] in Hs. destruct (finish_spec d3 B data x d' Hr3) as (w & B' & HB' & Hw & Hx); [lia| |exact Hs|].
    + destruct (nodes d3 !! path) as [[c l| |]|]; subst; lia.
    + exists w, B', []. done.
Qed.
End Family.

(** ** The log of a plugin *)

Definition contentAt (ns : gmap fpath node) (p : fpath) : string :=
  match ns !! p with Some (Regular c _) => c | _ => "" end.
(** The generations of a file, the oldest first. *)
Fixpoint familyText (ns : gmap fpath node) (path : fpath) (r : nat) : string :=
  match r with O => contentAt ns path | S r' => contentAt ns (genPath path r) +:+ familyText ns path r' end.

Lemma rep_content path resource ok ns B i : rep path resource ok ns B → (i ≤ Z.to_nat (fr_RetainedFiles resource))%nat →
  contentAt ns (genPath path i) = sconcat (B i).
Proof.
  intros Hr Hi. specialize (Hr i Hi). unfold contentAt. destruct (ns !! genPath path i) as [[c l| |]|]; cbn in Hr;
    [by destruct Hr|by rewrite Hr..].
Qed.

Lemma rep_family path resource ok ns B k : rep path resource ok ns B → (k ≤ Z.to_nat (fr_RetainedFiles resource))%nat →
  familyText ns path k = sconcat (flat B k).
Proof.
  intros Hr. induction k as [|k IH]; intros Hk; cbn [familyText flat].
  - by apply (rep_content path resource ok ns B 0).
  - by rewrite sconcat_app, IH, (rep_content path resource ok ns B (S k) Hr) by lia.
Qed.

Section Log.
Context (sha256 : string → string) `{Faults} (root : fpath).

Fixpoint appendAll (plugin logical : string) (resource : FileResource) (datas : list string) (d : disk)
    : list (res osErr unit) * disk :=
  match datas with
  | [] => ([], d)
  | data :: datas =>
      let '(x, d) := Append sha256 root plugin logical data resource d in
      let '(xs, d) := appendAll plugin logical resource datas d in (x :: xs, d)
  end.

Lemma target_below plugin logical path : target sha256 root plugin logical = Ok path →
  path = pluginDir sha256 root plugin ++ Split "/"%char logical ∧ Forall (λ p, unsafePart p = false ∧ free "/"%char p) (Split "/"%char logical).
Proof.
  unfold target. destruct (_ || _); [done|]. destruct (existsb unsafePart (Split "/"%char logical)) eqn:E; [done|].
  destruct (_ && _); [done|]. intros [= <-]. split; [done|]. pose proof (Split_free "/"%char logical) as Hf.
  rewrite list.Forall_forall in *. intros p Hp. split; [|by apply Hf].
  destruct (unsafePart p) eqn:Eu; [|done]. rewrite <- not_true_iff_false in E. destruct E.
  apply existsb_exists. exists p. split; [by apply list_elem_of_In|done].
Qed.

Lemma target_ne plugin logical path : target sha256 root plugin logical = Ok path → path ≠ [].
Proof. intros [-> _]%target_below. unfold pluginDir. by destruct root. Qed.

(** A block within the approved size. *)
Definition inBudget (resource : FileResource) (l : list string) : Prop :=
  Z.of_nat (String.length (sconcat l)) ≤ fr_MaxBytes resource.

Lemma append_spec plugin logical path resource data d B x d' : target sha256 root plugin logical = Ok path →
  rep path resource (inBudget resource) (nodes d) B → Append sha256 root plugin logical data resource d = (x, d') →
  let r := Z.to_nat (fr_RetainedFiles resource) in
  ∃ w B' l, rep path resource (inBudget resource) (nodes d') B' ∧ flat B r ++ w = l ++ flat B' r ∧ wrote data x w.
Proof.
  intros Ht Hr. unfold Append. destruct (_ <? _).
  { intros [= <- <-]. exists [], B, []. rewrite app_nil_r. split; [done|]. split; [done|apply wrote_nothing]. }
  rewrite Ht. unfold io_bind at 1. cbn [io_ret]. unfold io_bind.
  destruct (appendLocked _ _ _ _ d) as [y d1] eqn:E.
  destruct (appendLocked_spec path resource (inBudget resource) (target_ne _ _ _ Ht) (λ l, iff_refl _) d B _ data y d1 Hr E) as (w & B' & l & Hr' & Hf & Hw).
  destruct y as [[]|e]; [|by intros [= <- <-]; exists w, B', l]. intros Hs. exists w, B', l.
  pose proof (quiet_Sync path resource path d1) as Hq. rewrite Hs in Hq. cbn [snd] in Hq.
  split; [by eapply keeps_rep|]. split; [done|]. destruct Hw as [H1 H2]. split; [done|auto].
Qed.

(** C36. Appends to a file of a plugin, whatever calls of the operating system fail
    in between: the generations hold, the oldest first, a suffix of the writes (only
    whole old writes are dropped), each within the approved size; an append that
    succeeded wrote its data, one that failed a prefix of it or nothing. *)
Theorem appends_kept plugin logical path resource datas d xs d' :
  target sha256 root plugin logical = Ok path →
  (∀ i, (i ≤ Z.to_nat (fr_RetainedFiles resource))%nat → nodes d !! genPath path i = None) →
  appendAll plugin logical resource datas d = (xs, d') →
  let r := Z.to_nat (fr_RetainedFiles resource) in
  ∃ writes lost kept, Forall3 wrote datas xs writes ∧ concat writes = lost ++ kept
    ∧ familyText (nodes d') path r = sconcat kept
    ∧ ∀ i, (i ≤ r)%nat → Z.of_nat (String.length (contentAt (nodes d') (genPath path i))) ≤ Z.max 0 (fr_MaxBytes resource).
Proof.
  intros Ht Hnone Hrun r.
  assert (∀ B, rep path resource (inBudget resource) (nodes d) B → ∃ writes lost B', Forall3 wrote datas xs writes
    ∧ flat B r ++ concat writes = lost ++ flat B' r ∧ rep path resource (inBudget resource) (nodes d') B') as Hall.
  { clear Hnone. revert d xs Hrun. induction datas as [|data datas IH]; intros d xs; cbn [appendAll].
    - intros [= <- <-] B Hr. exists [], [], B. split; [constructor|]. split; [by rewrite app_nil_r|done].
    - destruct (Append _ _ _ _ _ _ d) as [x d1] eqn:E. destruct (appendAll plugin logical resource datas d1) as [xs1 d2] eqn:E2.
      intros [= <- <-] B Hr. destruct (append_spec _ _ _ _ _ _ _ _ _ Ht Hr E) as (w & B1 & l & Hr1 & Hf & Hw).
      destruct (IH d1 xs1 E2 B1 Hr1) as (writes & lost & B2 & Hws & Hf2 & Hr2).
      exists (w :: writes), (l ++ lost), B2. split; [by constructor|]. split; [|done].
      cbn [concat]. rewrite app_assoc. fold r in Hf. by rewrite Hf, <- !app_assoc, Hf2. }
  destruct (Hall (λ _, [])) as (writes & lost & B' & Hws & Hf & Hr).
  { intros i Hi. by rewrite Hnone. }
  exists writes, lost, (flat B' r). split; [done|]. assert (flat (λ _, []) r = []) as Hz by (clear; induction r; done).
  rewrite Hz in Hf. split; [done|]. split; [by apply (rep_family path resource (inBudget resource))|].
  intros i Hi. specialize (Hr i Hi). unfold contentAt. destruct (nodes d' !! genPath path i) as [[c l| |]|]; cbn in *; [|lia..].
  destruct Hr as [-> Hr]. unfold inBudget in Hr. lia.
Qed.

(** The path of a logical file is below the directory of its plugin, by
    components none of which is empty, a dot or two dots, so no file of another
    plugin whose digest differs is below it or above it. *)
Theorem target_contained plugin logical path : target sha256 root plugin logical = Ok path →
  (∃ parts, parts ≠ [] ∧ path = pluginDir sha256 root plugin ++ parts
     ∧ Forall (λ p, p ∉ [""; "."; ".."] ∧ free "/"%char p) parts)
  ∧ ∀ other logical' path', target sha256 root other logical' = Ok path' →
      pluginDir sha256 root plugin ≠ pluginDir sha256 root other → ¬ path `prefix_of` path'.
Proof.
  intros [-> Hp]%target_below. split.
  - exists (Split "/"%char logical). split; [apply Split_ne|]. split; [done|]. eapply Forall_impl; [|exact Hp].
    intros p [Hu Hf]. split; [|done]. unfold unsafePart in Hu. by apply bool_decide_eq_false in Hu.
  - intros other logical' path' [-> _]%target_below Hne [k Hk]. apply Hne. unfold pluginDir in *. rewrite <- !app_assoc in Hk.
    apply app_inv_head in Hk.
    assert (∀ (x y : string) l l', x :: l = y :: l' → x = y) as Hcons by congruence. by rewrite (Hcons _ _ _ _ Hk).
Qed.
End Log.

(** ** Replacing a file *)

Section Replace.
Context (sha256 : string → string) `{Faults} (root : fpath).

Lemma Write_spec p data d x d' c l : nodes d !! p = Some (Regular c l) → Write p data d = (x, d') →
  (x = Ok tt → nodes d' !! p = Some (Regular (c +:+ data) l)) ∧ ∀ q, q ≠ p → nodes d' !! q = nodes d !! q.
Proof.
  intros Hp. unfold Write, appendNode. rewrite Hp.
  destruct (fails (calls d)); intros [= <- <-]; cbn [nodes]; (split; [|intros q Hq; by rewrite lookup_insert_ne]); [done|].
  intros _. apply lookup_insert_eq.
Qed.

Lemma call_same {A} (op : gmap fpath node → res osErr A * gmap fpath node) d x d' :
  (∀ ns, (op ns).2 = ns) → call op d = (x, d') → nodes d' = nodes d.
Proof.
  intros Ho. unfold call. destruct (fails _); [by intros [= _ <-]|]. specialize (Ho (nodes d)).
  destruct (op (nodes d)) as [y ns]. cbn in Ho. by intros [= _ <-].
Qed.

Lemma writeTemp_spec tmp data d x d' : nodes d !! tmp = Some (Regular "" 1) → writeTemp tmp data d = (x, d') →
  (x = Ok tt → nodes d' !! tmp = Some (Regular data 1)) ∧ ∀ q, q ≠ tmp → nodes d' !! q = nodes d !! q.
Proof.
  intros Ht. unfold writeTemp, io_bind. destruct (Chmod tmp d) as [y d1] eqn:E1. apply call_same in E1; [|done].
  destruct y as [[]|e]; [|intros [= <- <-]; by rewrite E1]. rewrite <- E1 in Ht |- *.
  destruct (Write tmp data d1) as [y d2] eqn:E2. destruct (Write_spec _ _ _ _ _ _ _ Ht E2) as [Hok Hq].
  destruct y as [[]|e]; [|by intros [= <- <-]]. specialize (Hok eq_refl).
  destruct (Sync tmp d2) as [y d3] eqn:E3. apply call_same in E3; [|done].
  destruct y as [[]|e]; [|intros [= <- <-]; by rewrite E3]. intros E4. apply call_same in E4; [|done].
  rewrite E4, E3. done.
Qed.

Lemma Rename_spec p q d x d' : p ≠ q → Rename p q d = (x, d') →
  (x = Ok tt → nodes d' !! q = nodes d !! p) ∧ (∀ e, x = Err e → nodes d' = nodes d).
Proof.
  intros Hpq. unfold Rename, call. destruct (fails _); [by intros [= <- <-]|].
  destruct (nodes d !! p) as [n|]; [|by intros [= <- <-]].
  destruct (nodes d !! q) as [[]|]; intros [= <- <-]; cbn [nodes]; (split; [|done]); try done; intros _; apply lookup_insert_eq.
Qed.

Lemma Remove_other p q d : p ≠ q → nodes (Remove p d).2 !! q = nodes d !! q.
Proof.
  intros Hpq. unfold Remove, call. destruct (fails _); [done|].
  destruct (nodes d !! p) as [[]|]; cbn; by rewrite ?lookup_delete_ne.
Qed.

Definition noResource : FileResource := mkFileResource ∅ 0 0.

(** Writing a file: when it succeeds the file is the data, whole; when any
    step fails the file is what it was, or still missing. *)
Theorem write_replaces plugin logical path data resource name d x d' :
  target sha256 root plugin logical = Ok path → removelast path ++ [name] ≠ path →
  WriteFile sha256 root plugin logical data resource name d = (x, d') →
  (x = Ok tt → nodes d' !! path = Some (Regular data 1)) ∧ (∀ e, x = Err e → nodes d' !! path = nodes d !! path).
Proof.
  intros Ht Hne. pose proof (target_ne _ _ _ _ _ Ht) as Hp. unfold WriteFile. destruct (_ || _); [by intros [= <- <-]|].
  rewrite Ht. unfold io_bind at 1. cbn [io_ret]. intros Hs.
  assert (Hkeep : ∀ ns ns', keeps path noResource ns ns' → ns' !! path = ns !! path) by (intros ns ns' Hk; apply (Hk 0%nat); lia).
  apply (bind_quiet path noResource) in Hs as [(e & -> & Hk)|(a & d1 & _ & Hk1 & Hs)]; [split; [done|by intros _ _; apply Hkeep]|..];
    [|by apply quiet_secureParent].
  apply (bind_quiet path noResource) in Hs as [(e & -> & Hk)|(a1 & d2 & _ & Hk2 & Hs)];
    [split; [done|intros _ _; by rewrite (Hkeep _ _ Hk), (Hkeep _ _ Hk1)]|..]; [|by apply quiet_single].
  apply Hkeep in Hk1, Hk2. rewrite <- Hk1, <- Hk2. clear Hk1 Hk2 Hkeep d1 a a1. set (tmp := removelast path ++ [name]) in *.
  unfold io_bind at 1 in Hs. destruct (CreateTemp tmp d2) as [y d3] eqn:E3.
  assert (nodes d3 !! path = nodes d2 !! path ∧ (y = Ok tt → nodes d3 !! tmp = Some (Regular "" 1))) as [H3 Hy].
  { revert E3. unfold CreateTemp, call. destruct (fails _); [by intros [= <- <-]|].
    destruct (nodes d2 !! tmp); intros [= <- <-]; [done|]. cbn. by rewrite lookup_insert_ne, lookup_insert_eq. }
  destruct y as [[]|e]; [|by injection Hs as <- <-]. specialize (Hy eq_refl). rewrite <- H3. clear H3 E3.
  destruct ((_ <-! writeTemp tmp data; Rename tmp path) d3) as [z d4] eqn:E4. injection Hs as <- <-.
  rewrite (Remove_other tmp path) by done. unfold io_bind in E4. destruct (writeTemp tmp data d3) as [y d5] eqn:E5.
  destruct (writeTemp_spec _ _ _ _ _ Hy E5) as [Hok Hq]. rewrite <- (Hq path) by done.
  destruct y as [[]|e]; [|by injection E4 as <- <-]. destruct (Rename_spec _ _ _ _ _ Hne E4) as [H1 H2].
  split; [intros Hz; rewrite (H1 Hz); by apply Hok|]. intros e He. by rewrite (H2 e He).
Qed.
End Replace.

(** * Deleting a plugin's file, and examples

    A delete that succeeds leaves neither the file nor any retained generation. *)

Open Scope Z_scope.

(** ** Deletion *)

Section Deletion.
Context (sha256 : string → string) `{Faults} (root : fpath).

Lemma single_same p allow d x d' : regularSingleLink p allow d = (x, d') → nodes d' = nodes d.
Proof.
  unfold regularSingleLink. destruct (Lstat p d) as [y d1] eqn:E. apply call_same in E; [|done].
  destruct y as [[]|[]]; intros [= _ <-]; done.
Qed.

Lemma checkAll_same path targets d x d' : checkAll path targets d = (x, d') → nodes d' = nodes d.
Proof.
  revert d. induction targets as [|t targets IH]; intros d; cbn [checkAll]; [by intros [= _ <-]|]. unfold io_bind.
  destruct (regularSingleLink t _ d) as [y d1] eqn:E. apply single_same in E. destruct y as [[]|e].
  - intros Hs. by rewrite (IH _ Hs).
  - by intros [= _ <-].
Qed.

Lemma removeAll_gone targets d d' : removeAll targets d = (Ok tt, d') →
  (∀ t, t ∈ targets → nodes d' !! t = None) ∧ (∀ q, nodes d !! q = None → nodes d' !! q = None).
Proof.
  revert d. induction targets as [|t targets IH]; intros d; cbn [removeAll].
  - intros [= <-]. split; [by intros t ?%not_elem_of_nil|done].
  - unfold io_bind. destruct (io_missing (Remove t) d) as [y d1] eqn:E. destruct y as [[]|e]; [|done].
    assert (nodes d1 !! t = None ∧ ∀ q, nodes d !! q = None → nodes d1 !! q = None) as [Ht Hq].
    { revert E. unfold io_missing, Remove, call. destruct (fails _); [done|].
      destruct (nodes d !! t) as [[]|] eqn:Et; try done; intros [= <-]; cbn [nodes];
        (split; [first [apply lookup_delete_eq|done]|]); intros q Hq; rewrite ?lookup_delete_None; auto. }
    intros Hs. destruct (IH _ Hs) as [H1 H2]. split; [|auto]. intros t' [->|Ht']%elem_of_cons; auto.
Qed.

Lemma generation_pretty (n : N) : (0 < n)%N → Z.of_N n < 2 ^ 63 → generation (pretty n) = Some (Z.of_N n).
Proof. intros H0 Hn. unfold generation. rewrite Atoi_pretty by done. cbn. by rewrite (proj2 (Z.ltb_lt _ _)) by lia. Qed.

Lemma has_prefix_app p s : HasPrefix (p +:+ s) p = true.
Proof.
  unfold HasPrefix. induction p as [|c p IH]; [by destruct s|].
  change (String c p +:+ s) with (String c (p +:+ s)). cbn [String.prefix]. by destruct (Ascii.ascii_dec c c).
Qed.

Lemma generations_of path entries n : path ≠ [] → (0 < n)%N → Z.of_N n < 2 ^ 63 →
  default "" (list.last (numbered path n)) ∈ entries → numbered path n ∈ generations path entries.
Proof.
  intros Hp H0 Hn Hin. unfold numbered in *. rewrite last_snoc in Hin. cbn [default from_option] in Hin. unfold id in Hin.
  unfold generations. apply list_elem_of_omap. eexists. split; [exact Hin|]. unfold id. rewrite <- sapp_assoc, has_prefix_app.
  unfold TrimPrefix. rewrite has_prefix_app, str_drop_app, generation_pretty by done. done.
Qed.

(** A delete of a file of an existing directory that succeeds leaves neither the
    file nor any retained generation of it, whatever number they had reached. *)
Theorem delete_complete plugin logical path d d' : target sha256 root plugin logical = Ok path →
  nodes d !! removelast path = Some Directory → Delete sha256 root plugin logical d = (Ok tt, d') →
  nodes d' !! path = None ∧ ∀ n, (0 < n)%N → Z.of_N n < 2 ^ 63 → nodes d' !! numbered path n = None.
Proof.
  intros Ht Hdir. pose proof (target_ne _ _ _ _ _ Ht) as Hp. unfold Delete. rewrite Ht. unfold io_bind at 1. cbn [io_ret].
  destruct (ReadDir (removelast path) d) as [y d1] eqn:E. pose proof E as Hsame. apply call_same in Hsame; [|done].
  assert (y = Err Fault ∨ y = Ok (sort_Strings (omap (λ e : fpath * node, entryOf (removelast path) e.1) (map_to_list (nodes d))))) as Hy.
  { revert E. unfold ReadDir, call. destruct (fails _); [intros [= <- _]; by left|]. rewrite Hdir. intros [= <- _]. by right. }
  destruct Hy as [->| ->]; [done|]. set (entries := sort_Strings _). set (targets := path :: generations path entries).
  unfold io_bind. destruct (checkAll path targets d1) as [z d2] eqn:Ec. apply checkAll_same in Ec. destruct z as [[]|e]; [|done].
  intros [Hgone Hkeep]%removeAll_gone. split; [apply Hgone; by left|]. intros n H0 Hn.
  destruct (nodes d !! numbered path n) as [nd|] eqn:En.
  - apply Hgone. right. apply generations_of; [done..|]. unfold entries. rewrite sort_Strings_perm.
    apply list_elem_of_omap. exists (numbered path n, nd). split; [by apply elem_of_map_to_list|]. cbn [fst].
    unfold entryOf, numbered. rewrite removelast_last, last_snoc, bool_decide_true; [done|]. split; [done|]. by destruct (removelast path).
  - apply Hkeep. by rewrite Ec, Hsame.
Qed.
End Deletion.

(** ** A small disk *)

Section Example.
(** The call with number 30 fails, and tears a write after one byte. *)
Local Instance oneFault : Faults := {| fails n := Nat.eqb n 30; torn _ := 1%nat |}.

Definition rootDir : fpath := ["srv"].
Definition emptyDisk : disk := mkDisk ∅ 0.
Definition budget : FileResource := mkFileResource ∅ 6 1.
Definition logPath : fpath := ["srv"; "70"; "usage"].

Definition logged : list (res osErr unit) * disk := appendAll id rootDir "p" "usage" budget ["aaaa"; "bbbb"; "cccc"; "dddd"] emptyDisk.

Lemma appends_kept_witness :
  logged.1 = [Ok tt; Ok tt; Err Fault; Ok tt] ∧
  ∃ writes lost kept, Forall3 wrote ["aaaa"; "bbbb"; "cccc"; "dddd"] logged.1 writes ∧ concat writes = lost ++ kept
    ∧ familyText (nodes logged.2) logPath 1 = sconcat kept.
Proof.
  split; [vm_compute; reflexivity|].
  destruct (appends_kept id rootDir "p" "usage" logPath budget ["aaaa"; "bbbb"; "cccc"; "dddd"] emptyDisk logged.1 logged.2)
    as (writes & lost & kept & H1 & H2 & H3 & _).
  - vm_compute. reflexivity.
  - intros i _. reflexivity.
  - apply surjective_pairing.
  - exists writes, lost, kept. split; [exact H1|]. split; [exact H2|exact H3].
Defined.

Lemma target_contained_witness : ∃ parts, parts ≠ [] ∧ logPath = pluginDir id rootDir "p" ++ parts
  ∧ Forall (λ p, (p ∉ [""; "."; ".."]) ∧ free "/"%char p) parts.
Proof. apply (target_contained id rootDir "p" "usage" logPath). vm_compute. reflexivity. Defined.

Definition rewritten : res osErr unit * disk := WriteFile id rootDir "p" "usage" "new" budget ".plugin-file-1" logged.2.

Lemma write_replaces_witness : nodes rewritten.2 !! logPath = Some (Regular "new" 1).
Proof.
  apply (write_replaces id rootDir "p" "usage" logPath "new" budget ".plugin-file-1" logged.2 rewritten.1 rewritten.2).
  - vm_compute. reflexivity.
  - vm_compute. discriminate.
  - apply surjective_pairing.
  - vm_compute. reflexivity.
Defined.

Definition deleted : res osErr unit * disk := Delete id rootDir "p" "usage" logged.2.

Lemma pair_ok {A B} (x : A * B) a : x.1 = a → x = (a, x.2).
Proof. destruct x. cbn. by intros ->. Qed.

Lemma delete_complete_witness : nodes deleted.2 !! logPath = None ∧ nodes deleted.2 !! numbered logPath 1 = None.
Proof.
  destruct (delete_complete id rootDir "p" "usage" logPath logged.2 deleted.2) as [H1 H2].
  - vm_compute. reflexivity.
  - vm_compute. reflexivity.
  - apply pair_ok. vm_compute. reflexivity.
  - split; [exact H1|]. apply H2; lia.
Defined.
End Example.
