(* ===== verification/AuditLog.v ===== *)
(** * The audit log

    internal/auditlog/auditlog.go: complete lines appended to a file that is rotated
    before it outgrows its bound; an append that fails is cut off again, a rotation
    that fails disables the writer.  The encoding of a record, and what the platform's
    check finds of an existing file and of one that was just restricted, are given; the
    calls of the operating system are those of Os.  The proofs use the generations of
    PluginFilesProofs. *)

From stdpp Require Import base list strings gmap numbers pretty functions.
From Stdlib Require Import Ascii.
From S2P Require Import Prelude ByteStrings Framing HeaderPolicy GoStrings ConversationKeys PluginManifest PluginResources Os PluginFiles PluginFilesProofs.

Open Scope Z_scope.

Definition DefaultMaxFileBytes : Z := 16 * 1024 * 1024.
Definition DefaultMaxFiles : Z := 5.
Definition maxConfiguredFiles : Z := 100.

Record Config := mkAuditConfig { ac_Enabled : bool; ac_Path : string; ac_MaxFileBytes : Z; ac_MaxFiles : Z }.

Inductive auditErr :=
| AuditPathUnset | AuditPathRelative | AuditBytesNegative | AuditFilesRange
| AuditClosed | AuditEncode (why : string) | AuditOs (e : osErr) | AuditNotRegular | AuditNotOwned
| AuditAppend (e : osErr) | AuditAppendTorn (e restore : osErr).

Definition Validate (c : Config) : res auditErr unit :=
  if negb (ac_Enabled c) then Ok tt
  else if blank (ac_Path c) then Err AuditPathUnset
  else if negb (HasPrefix (ac_Path c) "/") then Err AuditPathRelative
  else if ac_MaxFileBytes c <? 0 then Err AuditBytesNegative
  else if (ac_MaxFiles c <? 0) || (maxConfiguredFiles <? ac_MaxFiles c) then Err AuditFilesRange
  else Ok tt.

Definition maxFileBytes (c : Config) : Z := if ac_MaxFileBytes c =? 0 then DefaultMaxFileBytes else ac_MaxFileBytes c.
Definition maxFiles (c : Config) : Z := if ac_MaxFiles c =? 0 then DefaultMaxFiles else ac_MaxFiles c.

(** [aw_open]: the file is not nil; [aw_path] are the components of the path. *)
Record Writer := mkAuditWriter {
  aw_config : Config; aw_path : fpath; aw_open : bool; aw_size : Z; aw_closed : bool; aw_disabled : bool;
  aw_failed : option auditErr }.

Definition setOpen (o : bool) (w : Writer) : Writer :=
  mkAuditWriter (aw_config w) (aw_path w) o (aw_size w) (aw_closed w) (aw_disabled w) (aw_failed w).
Definition setSize (s : Z) (w : Writer) : Writer :=
  mkAuditWriter (aw_config w) (aw_path w) (aw_open w) s (aw_closed w) (aw_disabled w) (aw_failed w).
Definition setFailed (e : auditErr) (w : Writer) : Writer :=
  mkAuditWriter (aw_config w) (aw_path w) (aw_open w) (aw_size w) (aw_closed w) (aw_disabled w) (Some e).
Definition setClosed (w : Writer) : Writer :=
  mkAuditWriter (aw_config w) (aw_path w) (aw_open w) (aw_size w) true (aw_disabled w) (aw_failed w).

Section Writer.
(** What the check of owner-only access finds: of a file that was there, and through the
    handle of a file that was just created and restricted (the name may have been bound
    to another file in between). *)
Context `{Faults} (ownerOnly restricted : fpath → bool).

(** [fileperm.Verify] of what was found there. *)
Definition verify (p : fpath) : res auditErr unit := if ownerOnly p then Ok tt else Err AuditNotOwned.

Definition validateExistingTarget (p : fpath) (d : disk) : res auditErr unit * disk :=
  match Lstat p d with
  | (Err NotExist, d) => (Ok tt, d)
  | (Err e, d) => (Err (AuditOs e), d)
  | (Ok (Regular _ _), d) => (verify p, d)
  | (Ok _, d) => (Err AuditNotRegular, d)
  end.

(** [fileperm.OpenAppend]: create the file exclusively and secure it, or open one that is
    there and verify the handle. *)
Inductive created := Created | Existed.
Definition createExclusive (p : fpath) : io created :=
  call (λ ns, match ns !! p with None => (Ok Created, <[p := Regular "" 1]> ns) | Some _ => (Ok Existed, ns) end).
Definition openExisting (p : fpath) : io unit :=
  call (λ ns, (match ns !! p with
               | Some (Regular _ _) => Ok tt
               | Some _ => Err (Refused "must name a regular file")
               | None => Err NotExist end, ns)).
Definition verifyFile (check : bool) (p : fpath) : io unit :=
  _ <-! Lstat p; io_ret (if check then Ok tt else Err (Refused "accessible by group or others")).
(** [fileperm.Secure]: restrict by name, verify the handle. *)
Definition Secure (p : fpath) : io unit := _ <-! Chmod p; verifyFile (restricted p) p.
(** The handle is closed before an error is returned. *)
Definition orClose (p : fpath) (op : io unit) : io unit :=
  λ d, match op d with (Err e, d) => (Err e, (Close p d).2) | (Ok _, d) => (Ok tt, d) end.
Definition OpenAppend (p : fpath) : io unit :=
  c <-! createExclusive p;
  match c with
  | Created => orClose p (Secure p)
  | Existed => _ <-! openExisting p; orClose p (_ <-! Lstat p; verifyFile (ownerOnly p) p)
  end.

(** The size of the open file. *)
Definition openActive (w : Writer) (d : disk) : res auditErr unit * Writer * disk :=
  match OpenAppend (aw_path w) d with
  | (Err e, d) => (Err (AuditOs e), w, d)
  | (Ok _, d) =>
      match statSize (aw_path w) d with
      | (Err e, d) => (Err (AuditOs e), w, (Close (aw_path w) d).2)
      | (Ok size, d) => (Ok tt, setSize size (setOpen true w), d)
      end
  end.

Definition Open (c : Config) (path : fpath) (d : disk) : res auditErr Writer * disk :=
  match Validate c with
  | Err e => (Err e, d)
  | Ok _ =>
      let w := mkAuditWriter c path false 0 false (negb (ac_Enabled c)) None in
      if aw_disabled w then (Ok w, d)
      else match validateExistingTarget path d with
           | (Err e, d) => (Err e, d)
           | (Ok _, d) =>
               match openActive w d with
               | (Err e, _, d) => (Err e, d)
               | (Ok _, w, d) => (Ok w, d)
               end
           end
  end.

(** The moves of [rotate]. *)
Definition rotateFiles (path : fpath) (files : Z) : io unit :=
  _ <-! io_missing (Remove (numbered path (Z.to_N (files - 1))));
  _ <-! shiftDown path (Z.to_nat (files - 2));
  if 1 <? files then io_missing (Rename path (numbered path 1)) else io_missing (Remove path).

Definition rotateWriter (w : Writer) (d : disk) : res auditErr unit * Writer * disk :=
  match Close (aw_path w) d with
  | (Err e, d) => (Err (AuditOs e), w, d)
  | (Ok _, d) =>
      let w := setOpen false w in
      match rotateFiles (aw_path w) (maxFiles (aw_config w)) d with
      | (Err e, d) => (Err (AuditOs e), w, d)
      | (Ok _, d) => openActive w d
      end
  end.

(** The write of a line, and the cut after one that failed. *)
Definition writeLine (w : Writer) (line : string) (d : disk) : res auditErr unit * Writer * disk :=
  match Write (aw_path w) line d with
  | (Ok _, d) => (Ok tt, setSize (aw_size w + Z.of_nat (String.length line)) w, d)
  | (Err e, d) =>
      match Truncate (aw_path w) (Z.to_nat (aw_size w)) d with
      | (Ok _, d) => (Err (AuditAppend e), w, d)
      | (Err e', d) => (Err (AuditAppendTorn e e'), w, d)
      end
  end.

(** [record]: the outcome of [json.Marshal]. *)
Definition AppendRecord (w : Writer) (record : res string string) (d : disk) : res auditErr unit * Writer * disk :=
  if aw_closed w then (Err AuditClosed, w, d)
  else if aw_disabled w then (Ok tt, w, d)
  else match aw_failed w, record with
  | Some e, _ => (Err e, w, d)
  | None, Err why => (Err (AuditEncode why), w, d)
  | None, Ok encoded =>
      let line := encoded +:+ String "010" "" in
      if (0 <? aw_size w) && (maxFileBytes (aw_config w) <? aw_size w + Z.of_nat (String.length line)) then
        match rotateWriter w d with
        | (Err e, w, d) => (Err e, setFailed e w, d)
        | (Ok _, w, d) => writeLine w line d
        end
      else writeLine w line d
  end.

Definition CloseWriter (w : Writer) (d : disk) : res auditErr unit * Writer * disk :=
  if aw_closed w then (Ok tt, w, d)
  else
    let w := setClosed w in
    if negb (aw_open w) then (Ok tt, w, d)
    else match Close (aw_path w) d with
         | (Ok _, d) => (Ok tt, w, d)
         | (Err e, d) => (Err (AuditOs e), w, d)
         end.
End Writer.

(** * What the audit log promises

    Whatever calls fail, short of cutting off a failed write, the files hold whole
    lines only: a suffix of exactly the lines whose append succeeded. *)

Open Scope Z_scope.

Section Lines.
Context `{Faults} (ownerOnly restricted : fpath → bool) (c : Config) (path : fpath).
Context (Hpath : path ≠ []) (Hvalid : Validate c = Ok tt) (Henabled : ac_Enabled c = true).

(** The generations are those of a plugin's file; its size is not used here. *)
Definition auditFiles : FileResource := mkFileResource ∅ 0 (maxFiles c - 1).
(** A file within the configured size, or with a single line, which may be longer. *)
Definition bounded (l : list string) : Prop :=
  Forall (λ s, s ≠ "") l ∧ (Z.of_nat (String.length (sconcat l)) ≤ maxFileBytes c ∨ (length l ≤ 1)%nat).
Local Abbreviation holds := (rep path auditFiles bounded).
Let r : nat := Z.to_nat (maxFiles c - 1).

Lemma maxFiles_range : 1 ≤ maxFiles c.
Proof.
  revert Hvalid. unfold Validate, maxFiles. rewrite Henabled. cbn [negb]. destruct (blank _); [done|].
  destruct (negb _); [done|]. destruct (_ <? 0); [done|]. destruct (_ || _) eqn:E; [done|]. intros _.
  apply orb_false_iff in E as [E1%Z.ltb_ge E2]. destruct (Z.eqb_spec (ac_MaxFiles c) 0); [unfold DefaultMaxFiles|]; lia.
Qed.

Lemma maxFileBytes_range : 0 ≤ maxFileBytes c.
Proof.
  revert Hvalid. unfold Validate, maxFileBytes. rewrite Henabled. cbn [negb]. destruct (blank _); [done|].
  destruct (negb _); [done|]. destruct (Z.ltb_spec (ac_MaxFileBytes c) 0); [done|]. intros _. unfold DefaultMaxFileBytes. destruct (_ =? _); lia.
Qed.
Lemma sconcat_singleton s : sconcat [s] = s.
Proof. cbn. apply app_empty_r. Qed.

(** ** Rotation *)

Lemma remove_none p d x d' : Remove p d = (x, d') → x = Ok tt ∨ x = Err NotExist → nodes d' !! p = None.
Proof.
  unfold Remove, call. destruct (fails _); [by intros [= <- _] [?|?]|].
  destruct (nodes d !! p) as [[]|] eqn:E; intros [= <- <-] [?|?]; try done; apply lookup_delete_eq.
Qed.

Lemma missing_spec (op : io unit) d x d' : io_missing op d = (x, d') →
  ∃ y, op d = (y, d') ∧ (x = Ok tt ↔ (y = Ok tt ∨ y = Err NotExist)).
Proof.
  unfold io_missing. destruct (op d) as [[[]|[]] d1]; intros [= <- <-]; eexists; (split; [done|]); naive_solver.
Qed.

Lemma rotateFiles_spec d B x d' : holds (nodes d) B → rotateFiles path (maxFiles c) d = (x, d') →
  ∃ B', holds (nodes d') B' ∧ older auditFiles B B' ∧ (x = Ok tt → nodes d' !! path = None).
Proof.
  intros Hr. pose proof maxFiles_range as Hmf. unfold rotateFiles, io_bind.
  destruct (io_missing (Remove _) d) as [y d1] eqn:E1. apply missing_spec in E1 as (y0 & E1 & Hy).
  assert (∃ B1, holds (nodes d1) B1 ∧ older auditFiles B B1) as (B1 & Hr1 & Ho1).
  { destruct (decide (r = 0)%nat) as [Hr0|Hr0].
    - exists B. split; [|apply older_refl]. intros i Hi. assert (i = 0%nat) as -> by (cbn in Hi; unfold r in Hr0; lia). cbn [genPath].
      assert (Hne : numbered path (Z.to_N (maxFiles c - 1)) ≠ path) by by apply numbered_ne.
      pose proof (Remove_other _ path d Hne) as Hq. rewrite E1 in Hq. cbn [snd] in Hq. rewrite Hq. by apply (Hr 0%nat).
    - assert (numbered path (Z.to_N (maxFiles c - 1)) = genPath path r) as Hg.
      { assert (∃ k, r = S k) as [k Hk] by (exists (r - 1)%nat; lia). rewrite Hk. cbn [genPath]. f_equal. rewrite <- Hk. unfold r. lia. }
      rewrite Hg in E1. destruct (remove_spec path auditFiles bounded Hpath d B r y0 d1 Hr eq_refl E1) as (B1 & H1 & H2 & _). eauto. }
  destruct y as [[]|e]; [|intros [= <- <-]; by exists B1].
  destruct (decide (1 < maxFiles c)) as [Hlt|Hlt].
  - destruct (shiftDown path (Z.to_nat (maxFiles c - 2)) d1) as [z d2] eqn:E2.
    destruct (shiftDown_spec path auditFiles bounded Hpath (Z.to_nat (maxFiles c - 2)) d1 B1 z d2 Hr1) as (B2 & Hr2 & Ho2 & Hn2);
      [cbn; lia|right; cbn; lia|done|].
    destruct z as [[]|e]; [|intros [= <- <-]; exists B2; split; [done|]; split; [by eapply older_trans|done]].
    rewrite (proj2 (Z.ltb_lt _ _)) by lia. intros Hs. change (numbered path 1) with (genPath path 1) in Hs.
    destruct (shift_spec path auditFiles bounded Hpath d2 B2 0 x d' Hr2) as (B3 & Hr3 & Ho3 & Hn3);
      [cbn; lia|destruct (Hn2 eq_refl) as [?|Hone]; [by left|right; cbn in *; lia]|exact Hs|].
    exists B3. split; [done|]. split; [by eapply older_trans, older_trans|exact Hn3].
  - replace (Z.to_nat (maxFiles c - 2)) with 0%nat by lia. cbn [shiftDown io_ret].
    rewrite (proj2 (Z.ltb_ge _ _)) by lia. intros Hs. apply missing_spec in Hs as (z & Hs & Hz).
    assert (Hg : 0%nat = Z.to_nat (fr_RetainedFiles auditFiles)) by (cbn; lia).
    destruct (remove_spec path auditFiles bounded Hpath d1 B1 0 z d' Hr1 Hg Hs) as (B2 & Hr2 & Ho2 & _).
    exists B2. split; [done|]. split; [by eapply older_trans|]. intros Hx. apply (remove_none _ _ _ _ Hs). by apply Hz.
Qed.

(** ** Opening *)

(** Calls that change nothing. *)
Definition unchanging {A} (op : io A) : Prop := ∀ d, nodes (op d).2 = nodes d.
Lemma unchanging_bind {A B} (op : io A) (k : A → io B) : unchanging op → (∀ a, unchanging (k a)) → unchanging (io_bind op k).
Proof.
  intros Ho Hk d. specialize (Ho d). unfold io_bind. destruct (op d) as [[a|e] d1]; cbn [snd] in *; [|done]. by rewrite Hk.
Qed.
Lemma unchanging_Lstat p : unchanging (Lstat p).
Proof. intros d. destruct (Lstat p d) as [x d1] eqn:E. by apply call_same in E. Qed.
Lemma unchanging_Chmod p : unchanging (Chmod p).
Proof. intros d. destruct (Chmod p d) as [x d1] eqn:E. by apply call_same in E. Qed.
Lemma unchanging_Close p : unchanging (Close p).
Proof. intros d. destruct (Close p d) as [x d1] eqn:E. by apply call_same in E. Qed.
Lemma unchanging_verify check p : unchanging (verifyFile check p).
Proof. apply unchanging_bind; [apply unchanging_Lstat|]. by intros a d. Qed.
Lemma unchanging_orClose p op : unchanging op → unchanging (orClose p op).
Proof.
  intros Ho d. specialize (Ho d). unfold orClose. destruct (op d) as [[[]|e] d1]; [done|]. cbn [snd] in *. by rewrite unchanging_Close.
Qed.

Lemma OpenAppend_spec d B x d' : holds (nodes d) B → OpenAppend ownerOnly restricted path d = (x, d') →
  holds (nodes d') B ∧ (x = Ok tt → ∃ t l, nodes d' !! path = Some (Regular t l)
    ∧ (nodes d !! path = None → t = "")).
Proof.
  intros Hr. unfold OpenAppend, io_bind. destruct (createExclusive path d) as [y d1] eqn:E1.
  assert (holds (nodes d1) B ∧ (y = Ok Created → nodes d1 !! path = Some (Regular "" 1))
    ∧ (y = Ok Existed → nodes d1 = nodes d ∧ nodes d !! path ≠ None)) as (Hr1 & Hc & He).
  { revert E1. unfold createExclusive, call. destruct (fails _); [by intros [= <- <-]|].
    destruct (nodes d !! path) eqn:E; intros [= <- <-]; [done|]. cbn [nodes]. split; [|split; [intros _; apply lookup_insert_eq|done]].
    assert (Hb : B 0%nat = []) by (specialize (Hr 0%nat ltac:(lia)); cbn [genPath] in Hr; by rewrite E in Hr).
    intros [|i] Hi; cbn [genPath]; [rewrite lookup_insert_eq, Hb; split; [done|]; split; [constructor|right; cbn; lia]|].
    rewrite lookup_insert_ne; [by apply (Hr (S i))|]. intros Hne. symmetry in Hne. by apply (numbered_ne path) in Hne. }
  destruct y as [[]|e]; [| |by intros [= <- <-]].
  - intros Hs. assert (nodes d' = nodes d1) as ->.
    { assert (unchanging (orClose path (Secure restricted path))) as Hu.
      { apply unchanging_orClose, unchanging_bind; [apply unchanging_Chmod|]. intros _. apply unchanging_verify. }
      specialize (Hu d1). by rewrite Hs in Hu. }
    split; [done|]. intros _. exists "", 1%N. auto.
  - destruct (He eq_refl) as [Hn Hne]. destruct (openExisting path d1) as [z d2] eqn:E2.
    assert (nodes d2 = nodes d1) as Hn2 by (by apply call_same in E2).
    assert (z = Ok tt → ∃ t l, nodes d2 !! path = Some (Regular t l)) as Hz.
    { revert E2. unfold openExisting, call. destruct (fails _); [by intros [= <- _]|].
      destruct (nodes d1 !! path) as [[]|] eqn:Ep; intros [= <- <-]; try done. cbn. rewrite Ep. eauto. }
    destruct z as [[]|e]; [|intros [= <- <-]; by rewrite Hn2]. intros Hs. assert (nodes d' = nodes d2) as ->.
    { assert (unchanging (orClose path (_ <-! Lstat path; verifyFile (ownerOnly path) path))) as Hu.
      { apply unchanging_orClose, unchanging_bind; [apply unchanging_Lstat|]. intros _. apply unchanging_verify. }
      specialize (Hu d2). unfold io_bind in Hu. by rewrite Hs in Hu. }
    split; [by rewrite Hn2|]. intros _. destruct (Hz eq_refl) as (t & l & Ht). exists t, l. done.
Qed.

(** The size of the writer is that of the file. *)
Definition sized (w : Writer) (d : disk) : Prop :=
  ∃ t l, nodes d !! path = Some (Regular t l) ∧ aw_size w = Z.of_nat (String.length t).

Record writerOk (w : Writer) (d : disk) (B : nat → list string) : Prop := {
  wk_config : aw_config w = c;
  wk_path : aw_path w = path;
  wk_live : aw_disabled w = false;
  wk_rep : holds (nodes d) B;
  wk_sized : aw_failed w = None → sized w d }.

Lemma openActive_spec w d B x w' d' : aw_path w = path → holds (nodes d) B →
  openActive ownerOnly restricted w d = (x, w', d') →
  holds (nodes d') B ∧ aw_config w' = aw_config w ∧ aw_path w' = path ∧ aw_disabled w' = aw_disabled w
  ∧ aw_failed w' = aw_failed w ∧ aw_closed w' = aw_closed w
  ∧ (x = Ok tt → sized w' d' ∧ (nodes d !! path = None → aw_size w' = 0)).
Proof.
  intros Hp Hr. unfold openActive. rewrite Hp. destruct (OpenAppend ownerOnly restricted path d) as [y d1] eqn:E1.
  destruct (OpenAppend_spec _ _ _ _ Hr E1) as [Hr1 Hy]. destruct y as [[]|e]; [|intros [= <- <- <-]; by rewrite Hp].
  destruct (Hy eq_refl) as (t & l & Ht & Ht0). destruct (statSize path d1) as [[size|e] d2] eqn:E2.
  - apply statSize_spec in E2 as [Hn Hsize]. rewrite Ht in Hsize. intros [= <- <- <-]. rewrite Hn. cbn.
    split; [done|]. do 5 (split; [done|]). intros _. split.
    + exists t, l. rewrite Hn. done.
    + intros H0. rewrite (Ht0 H0) in Hsize. by rewrite Hsize.
  - pose proof (quiet_statSize path auditFiles path d1) as Hq. rewrite E2 in Hq. intros [= <- <- <-]. rewrite Hp.
    split; [|done]. eapply keeps_rep; [|exact Hr1]. eapply keeps_trans; [exact Hq|]. by apply quiet_call.
Qed.

(** ** Lines *)

Lemma bounded_snoc l line : Forall (λ s, s ≠ "") l → line ≠ "" →
  Z.of_nat (String.length (sconcat l)) = 0 ∨ Z.of_nat (String.length (sconcat l)) + Z.of_nat (String.length line) ≤ maxFileBytes c →
  bounded (l ++ [line]).
Proof.
  intros Hl Hline Hroom. split; [apply Forall_app_2; [done|by constructor]|]. rewrite sconcat_snoc, str_length_app.
  destruct Hroom as [H0|Hroom]; [right|left; lia]. destruct Hl as [|s l Hs _]; [done|]. cbn in H0. rewrite str_length_app in H0. destruct s; [done|].
  cbn in H0. lia.
Qed.

Lemma writeLine_spec w line d B x w' d' : writerOk w d B → sized w d → aw_failed w = None →
  line ≠ "" → aw_size w = 0 ∨ aw_size w + Z.of_nat (String.length line) ≤ maxFileBytes c → writeLine w line d = (x, w', d') → (∀ e e', x ≠ Err (AuditAppendTorn e e')) →
  ∃ B', writerOk w' d' B' ∧ flat B r ++ (if x is Ok _ then [line] else []) = flat B' r ∧ aw_failed w' = None
        ∧ aw_closed w' = aw_closed w.
Proof.
  intros [Hc Hp Hl Hr Hs] (t & l & Ht & Hsz) Hf Hline Hroom. unfold writeLine. rewrite Hp.
  destruct (Write path line d) as [y d1] eqn:E1. destruct y as [[]|e].
  - intros [= <- <- <-] _. assert (nodes d1 = appendNode path line (nodes d)) as Hd1.
    { revert E1. unfold Write. destruct (fails _); [done|]. by intros [= <-]. }
    pose proof (Hr 0%nat ltac:(lia)) as H0. cbn [genPath] in H0. rewrite Ht in H0. destruct H0 as [Hb0 [Hne0 Hb1]].
    destruct (append_rep path auditFiles bounded Hpath (nodes d) B line t l Hr Ht) as (B' & Hr' & Hflat).
    { apply bounded_snoc; [done|done|]. rewrite <- Hb0. lia. }
    exists B'. split; [|done]. split; cbn; try done; [by rewrite Hd1|].
    intros _. destruct (Write_spec _ _ _ _ _ _ _ Ht E1) as [Hok _]. exists (t +:+ line), l. cbn. split; [auto|].
    rewrite str_length_app. lia.
  - destruct (Truncate path (Z.to_nat (aw_size w)) d1) as [z d2] eqn:E2. destruct z as [[]|e'];
      [|intros [= <- <- <-] Hno; by destruct (Hno e e')].
    assert (Hback : nodes d2 = nodes d).
    { revert E1 E2. unfold Write, appendNode, Truncate, call. rewrite Ht. destruct (fails (calls d)); [|done]. intros [= _ <-]. cbn [calls nodes].
      destruct (fails _); [done|]. rewrite lookup_insert_eq. intros [= <-]. cbn [nodes]. rewrite insert_insert_eq, Hsz, Nat2Z.id, str_take_app.
      by apply insert_id. }
    intros [= <- <- <-] _. exists B. rewrite app_nil_r. split; [|done]. split; try done; [by rewrite Hback|].
    intros _. exists t, l. by rewrite Hback.
Qed.

Lemma AppendRecord_spec w record d B x w' d' : writerOk w d B →
  AppendRecord ownerOnly restricted w record d = (x, w', d') → (∀ e e', x ≠ Err (AuditAppendTorn e e')) → aw_closed w = false →
  ∃ B' lost, writerOk w' d' B' ∧ aw_closed w' = false
    ∧ flat B r ++ (match x, record with Ok _, Ok e => [e +:+ String "010" ""] | _, _ => [] end) = lost ++ flat B' r.
Proof.
  intros Hw. pose proof Hw as [Hc Hp Hl Hr Hs]. unfold AppendRecord. intros Hx Hno Hcl. rewrite Hcl, Hl in Hx.
  destruct (aw_failed w) as [e|] eqn:Ef.
  { injection Hx as <- <- <-. exists B, []. rewrite app_nil_r. done. }
  destruct record as [enc|why].
  2: { injection Hx as <- <- <-. exists B, []. rewrite app_nil_r. done. }
  set (line := enc +:+ String "010" "") in *. assert (Hline : line ≠ "") by (unfold line; by destruct enc).
  specialize (Hs eq_refl). rewrite Hc in Hx.
  destruct ((0 <? aw_size w) && (maxFileBytes c <? aw_size w + Z.of_nat (String.length line))) eqn:Erot.
  - destruct (rotateWriter ownerOnly restricted w d) as [[y w1] d1] eqn:Er.
    assert (∃ B1 lost, holds (nodes d1) B1 ∧ flat B r = lost ++ flat B1 r ∧ aw_config w1 = c ∧ aw_path w1 = path
      ∧ aw_disabled w1 = false ∧ aw_failed w1 = None ∧ aw_closed w1 = false
      ∧ (y = Ok tt → sized w1 d1 ∧ aw_size w1 = 0)) as (B1 & lost & Hr1 & Hlost & Hc1 & Hp1 & Hl1 & Hf1 & Hcl1 & Hok).
    { revert Er. unfold rotateWriter. rewrite Hp. destruct (Close path d) as [z d2] eqn:Ec. apply call_same in Ec; [|done].
      destruct z as [[]|e]; [|intros [= <- <- <-]; exists B, []; by rewrite Ec]. cbn [aw_path aw_config setOpen]. rewrite Hp, Hc.
      destruct (rotateFiles path (maxFiles c) d2) as [z d3] eqn:Erf.
      destruct (rotateFiles_spec d2 B z d3) as (B1 & Hr1 & [lost Hlost] & Hn); [by rewrite Ec|done|].
      destruct z as [[]|e]; [|intros [= <- <- <-]; by exists B1, lost].
      intros Ho. apply (openActive_spec _ _ B1) in Ho as (H1 & H2 & H3 & H4 & H5 & H6 & H7); [|done|done].
      exists B1, lost. cbn in *. rewrite H2, H4, H5, H6. do 7 (split; [done|]). intros Hy. destruct (H7 Hy) as [Ha Hb]. auto. }
    destruct y as [[]|e].
    + destruct (Hok eq_refl) as [Hs1 H0].
      destruct (writeLine_spec w1 line d1 B1 x w' d') as (B' & Hw' & Hfl & _ & Hcl'); try done; [by left|].
      exists B', lost. split; [done|]. split; [congruence|]. rewrite Hlost, <- app_assoc. f_equal. rewrite <- Hfl. by destruct x.
    + injection Hx as <- <- <-. exists B1, lost. rewrite app_nil_r. split; [|done]. by split.
  - destruct (writeLine_spec w line d B x w' d') as (B' & Hw' & Hfl & _ & Hcl'); try done.
    + destruct Hs as (t & l & _ & Hsz). apply andb_false_iff in Erot as [Hz%Z.ltb_ge|Hz%Z.ltb_ge]; lia.
    + exists B', []. split; [done|]. split; [congruence|]. cbn [app]. rewrite <- Hfl. by destruct x.
Qed.

(** ** Runs *)

Fixpoint appendRecords (records : list (res string string)) (w : Writer) (d : disk)
    : list (res auditErr unit) * Writer * disk :=
  match records with
  | [] => ([], w, d)
  | x :: rest =>
      let '(o, w, d) := AppendRecord ownerOnly restricted w x d in
      let '(os, w, d) := appendRecords rest w d in (o :: os, w, d)
  end.

(** The lines of the appends that succeeded. *)
Fixpoint accepted (records : list (res string string)) (outcomes : list (res auditErr unit)) : list string :=
  match records, outcomes with
  | Ok e :: records, Ok _ :: outcomes => (e +:+ String "010" "") :: accepted records outcomes
  | _ :: records, _ :: outcomes => accepted records outcomes
  | _, _ => []
  end.

Definition tornOutcome (o : res auditErr unit) : bool := match o with Err (AuditAppendTorn _ _) => true | _ => false end.

Lemma appendRecords_spec records w d B os w' d' : writerOk w d B → aw_closed w = false →
  appendRecords records w d = (os, w', d') → Forall (λ o, tornOutcome o = false) os →
  ∃ B' lost, writerOk w' d' B' ∧ flat B r ++ accepted records os = lost ++ flat B' r.
Proof.
  revert w d B os. induction records as [|x records IH]; intros w d B os Hw Hcl; cbn [appendRecords].
  { intros [= <- <- <-] _. exists B, []. cbn [accepted]. by rewrite app_nil_r. }
  destruct (AppendRecord ownerOnly restricted w x d) as [[o w1] d1] eqn:E.
  destruct (appendRecords records w1 d1) as [[os1 w2] d2] eqn:E2. intros [= <- <- <-] Ht.
  inversion Ht as [|? ? Ho Hos]; subst.
  destruct (AppendRecord_spec _ _ _ _ _ _ _ Hw E) as (B1 & l1 & Hw1 & Hcl1 & Hf1); [by intros e e' ->|done|].
  destruct (IH _ _ _ _ Hw1 Hcl1 E2 Hos) as (B2 & l2 & Hw2 & Hf2).
  exists B2, (l1 ++ l2). split; [done|]. rewrite <- app_assoc, <- Hf2, app_assoc, <- Hf1, <- app_assoc. f_equal.
  by destruct x, o.
Qed.

Lemma Open_spec d w d' : (∀ i, (i ≤ r)%nat → nodes d !! genPath path i = None) →
  Open ownerOnly restricted c path d = (Ok w, d') → writerOk w d' (λ _, []) ∧ aw_closed w = false.
Proof.
  intros Hnone. assert (Hr : holds (nodes d) (λ _, [])) by (intros i Hi; by rewrite Hnone).
  unfold Open. rewrite Hvalid. cbn [aw_disabled]. rewrite Henabled. cbn [negb].
  destruct (validateExistingTarget ownerOnly path d) as [y d1] eqn:E1.
  assert (nodes d1 = nodes d) as Hn.
  { revert E1. unfold validateExistingTarget. destruct (Lstat path d) as [z d2] eqn:E2. apply call_same in E2; [|done].
    destruct z as [[]|[]]; by intros [= <- <-]. }
  destruct y; [|done]. destruct (openActive _ _ _ d1) as [[[[]|e] w1] d2] eqn:E2; [|done]. intros [= <- <-].
  apply (openActive_spec _ _ (λ _, [])) in E2 as (H1 & H2 & H3 & H4 & H5 & H6 & H7); [|done|by rewrite Hn].
  split; [|done]. split; try done. intros _. by apply H7.
Qed.

Lemma flat_in B i k s : (i ≤ k)%nat → s ∈ B i → s ∈ flat B k.
Proof.
  induction k as [|k IH]; intros Hi Hs; cbn [flat]; [by assert (i = 0%nat) as -> by lia|]. apply elem_of_app.
  destruct (decide (i = S k)) as [->|]; [by left|right; apply IH; [lia|done]].
Qed.

(** C37. Opened where no file of the family exists, and whatever calls of the operating
    system fail short of the cut after a failed write, the active file and its older copies
    together hold whole lines only: exactly the lines whose append succeeded, in order,
    less those of the copies that rotation removed.  Each file is within the configured
    size, or it is a single line (one longer than the bound is kept whole in a file of
    its own). *)
Theorem audit_lines_whole d w d1 records os w' d' :
  (∀ i, (i ≤ r)%nat → nodes d !! genPath path i = None) →
  Open ownerOnly restricted c path d = (Ok w, d1) →
  appendRecords records w d1 = (os, w', d') → Forall (λ o, tornOutcome o = false) os →
  ∃ lost kept, accepted records os = lost ++ kept ∧ familyText (nodes d') path r = sconcat kept
    ∧ ∀ i, (i ≤ r)%nat → let content := contentAt (nodes d') (genPath path i) in
        Z.of_nat (String.length content) ≤ maxFileBytes c ∨ content ∈ kept.
Proof.
  intros Hnone Hopen Hrun Ht. destruct (Open_spec _ _ _ Hnone Hopen) as [Hw Hcl].
  destruct (appendRecords_spec _ _ _ _ _ _ _ Hw Hcl Hrun Ht) as (B & lost & Hw' & Hfl).
  exists lost, (flat B r). split; [rewrite <- Hfl|split].
  - assert (∀ k, flat (λ _, []) k = []) as Hnil by (induction k as [|k IH]; [done|cbn [flat]; by rewrite IH]). by rewrite Hnil.
  - apply (rep_family path auditFiles bounded); [apply (wk_rep _ _ _ Hw')|done].
  - intros i Hi. cbv zeta. pose proof (wk_rep _ _ _ Hw' i Hi) as Hb.
    assert (B i = [] ∨ bounded (B i)) as HB by (unfold blockOf in Hb; destruct (nodes d' !! genPath path i) as [[]|]; naive_solver).
    rewrite (rep_content path auditFiles bounded _ B i (wk_rep _ _ _ Hw') Hi).
    assert (0 ≤ maxFileBytes c) as Hm by apply maxFileBytes_range.
    destruct HB as [->|[_ [?|Hone]]]; [left; exact Hm|by left|]. destruct (B i) as [|s [|]] eqn:E; [left; exact Hm| |cbn in Hone; lia].
    right. rewrite sconcat_singleton. apply (flat_in B i r); [done|]. rewrite E. by apply list_elem_of_singleton.
Qed.
End Lines.

(** ** A log whose second append is cut off *)

Section Example.
Local Instance oneWriteFails : Faults := {| fails n := Nat.eqb n 13; torn _ := 2%nat |}.

Definition smallLog : Config := mkAuditConfig true "/a/log" 8 2.
Definition smallPath : fpath := ["a"; "log"].
Definition allOwned (p : fpath) : bool := true.
Definition fourRecords : list (res string string) := [Ok "aaaa"; Ok "bbbb"; Ok "cccc"; Ok "dddd"].
Definition opened : res auditErr Writer * disk := Open allOwned allOwned smallLog smallPath (mkDisk ∅ 0).
Definition openedWriter : Writer :=
  match opened.1 with Ok w => w | Err _ => mkAuditWriter smallLog smallPath false 0 false false None end.
Definition appended : list (res auditErr unit) * Writer * disk := appendRecords allOwned allOwned fourRecords openedWriter opened.2.

Lemma audit_lines_whole_witness :
  appended.1.1 = [Ok tt; Err (AuditAppend Fault); Ok tt; Ok tt] ∧
  ∃ lost kept, accepted fourRecords appended.1.1 = lost ++ kept ∧ familyText (nodes appended.2) smallPath 1 = sconcat kept.
Proof.
  split; [vm_compute; reflexivity|].
  destruct (audit_lines_whole allOwned allOwned smallLog smallPath ltac:(discriminate) eq_refl eq_refl
    (mkDisk ∅ 0) openedWriter opened.2 fourRecords appended.1.1 appended.1.2 appended.2) as (lost & kept & H1 & H2 & _).
  - intros i _. reflexivity.
  - vm_compute. reflexivity.
  - vm_compute. reflexivity.
  - repeat constructor; vm_compute; reflexivity.
  - exists lost, kept. split; [exact H1|exact H2].
Defined.
End Example.
