(* ===== verification/AnthropicStream.v ===== *)
(** * The Anthropic wire stream

    internal/format/anthropic/stream.go: the parser from server-sent events to
    canonical stream events, and the serializer back.  The JSON of a line is read as
    [encoding/json] reads it into the structs of stream.go ([readValue],
    [unmarshalEvent]); only the text of its errors is an argument.  The frames the
    serializer writes are a type, [payload] is their text.

    The serializer can be stopped by the cancellation of the request before any
    receive, and any write can fail; the frames it has written completely are
    those of the model.

    AnthropicWire shows that serializing what the host forwards of a disciplined
    stream keeps the grammar Anthropic clients rely on, AnthropicRoundTrip that
    parsing what was serialized gives the events back. *)

From stdpp Require Import base list strings gmap sets numbers pretty.
From Stdlib Require Import Ascii.
From S2P Require Import Prelude ByteStrings Utf8 StreamEvents Discipline GoStrings BridgeStream RawJSON.

Open Scope Z_scope.

(** ** Wire data *)

Record usageEv := mkUsageEv { ue_InputTokens : Z; ue_OutputTokens : Z; ue_CacheRead : Z; ue_CacheCreation : Z }.
Record contentBlockEv := mkContentBlockEv { cb_Type : string; cb_ID : string; cb_Name : string; cb_Text : string; cb_Thinking : string }.
Record deltaEv := mkDeltaEv {
  de_Type : string; de_Text : string; de_PartialJSON : string; de_StopReason : string; de_Thinking : string; de_Signature : string }.
Record messageEv := mkMessageEv { me_ID : string; me_Role : string; me_Model : string; me_StopReason : string; me_Usage : option usageEv }.
Record errorEv := mkErrorEv { ee_Type : string; ee_Message : string }.
Record sseEvent := mkSseEvent {
  sse_Type : string; sse_Index : Z; sse_ContentBlock : option contentBlockEv; sse_Delta : option deltaEv;
  sse_Message : option messageEv; sse_Usage : option usageEv; sse_Error : option errorEv }.

Record StreamAdapter := mkStreamAdapter { EmitMessageStart : bool; ExplicitBlocks : bool }.

(** ** JSON values ([encoding/json])

    A value is read with the whitespace before it; [None] is a syntax error. *)

Inductive jsonVal :=
| JNull
| JBool (b : bool)
| JNumber (lexeme : bytes)
| JString (s : bytes)
| JArray (vs : list jsonVal)
| JObject (ms : list (bytes * jsonVal)).

Definition skipBlank (l : bytes) : bytes := drop (spaces l) l.

(** A string, after its opening quote. *)
Definition readString (l : bytes) : option (bytes * bytes) :=
  n ← stringBody l; s ← Unmarshal (quote :: take n l); Some (s, drop n l).

Fixpoint digitRun (l : bytes) : nat :=
  match l with c :: l => if within 0x30 0x39 c then S (digitRun l) else 0 | [] => 0 end%nat.
Definition digitsThen (k : bytes → bool) (l : bytes) : bool := (0 <? digitRun l)%nat && k (drop (digitRun l) l).
Definition dropSign (signs : list Z) (l : bytes) : bytes :=
  match l with c :: l' => if bool_decide (c ∈ signs) then l' else l | [] => [] end.
Definition endOfNumber (l : bytes) : bool := bool_decide (l = []).
Definition validExponent (l : bytes) : bool :=
  match l with
  | c :: l => bool_decide (c ∈ [0x65; 0x45]) && digitsThen endOfNumber (dropSign [0x2B; 0x2D] l)
  | [] => true
  end.
Definition validFraction (l : bytes) : bool :=
  match l with
  | c :: l' => if c =? 0x2E then digitsThen validExponent l' else validExponent l
  | [] => true
  end.
Definition validNumber (l : bytes) : bool :=
  match dropSign [0x2D] l with
  | c :: l => if c =? 0x30 then validFraction l else within 0x31 0x39 c && validFraction (drop (digitRun l) l)
  | [] => false
  end.

Definition readScalar (l : bytes) : option (jsonVal * bytes) :=
  let s := take (scalarLen l) l in
  v ← (if bool_decide (s = lit "null") then Some JNull
       else if bool_decide (s = lit "true") then Some (JBool true)
       else if bool_decide (s = lit "false") then Some (JBool false)
       else if validNumber s then Some (JNumber s) else None);
  Some (v, drop (scalarLen l) l).

Section Composite.
Context (read : bytes → option (jsonVal * bytes)).

(** The members of an object up to its brace, and the elements of an array up to its
    bracket; there is at least one. *)
Fixpoint readMembers (n : nat) (l : bytes) : option (list (bytes * jsonVal) * bytes) :=
  match n, skipBlank l with
  | S n, c :: l =>
      if negb (c =? quote) then None
      else
        '(k, l) ← readString l;
        match skipBlank l with
        | c :: l =>
            if negb (c =? colon) then None
            else
              '(v, l) ← read l;
              match skipBlank l with
              | c :: l =>
                  if c =? rbrace then Some ([(k, v)], l)
                  else if c =? comma then '(ms, l) ← readMembers n l; Some ((k, v) :: ms, l)
                  else None
              | [] => None
              end
        | [] => None
        end
  | _, _ => None
  end.

Fixpoint readElements (n : nat) (l : bytes) : option (list jsonVal * bytes) :=
  match n with
  | O => None
  | S n =>
      '(v, l) ← read l;
      match skipBlank l with
      | c :: l =>
          if c =? rbracket then Some ([v], l)
          else if c =? comma then '(vs, l) ← readElements n l; Some (v :: vs, l)
          else None
      | [] => None
      end
  end.
End Composite.

(** [depth]: how many more objects and arrays may be open. *)
Fixpoint readValue (depth : nat) (l : bytes) : option (jsonVal * bytes) :=
  match skipBlank l with
  | [] => None
  | c :: l' =>
      if c =? quote then '(s, l) ← readString l'; Some (JString s, l)
      else if c =? lbrace then
        match depth with
        | O => None
        | S depth =>
            if byteAt (skipBlank l') 0 rbrace then Some (JObject [], drop 1 (skipBlank l'))
            else '(ms, l) ← readMembers (readValue depth) (length l') l'; Some (JObject ms, l)
        end
      else if c =? lbracket then
        match depth with
        | O => None
        | S depth =>
            if byteAt (skipBlank l') 0 rbracket then Some (JArray [], drop 1 (skipBlank l'))
            else '(vs, l) ← readElements (readValue depth) (length l') l'; Some (JArray vs, l)
        end
      else readScalar (c :: l')
  end.

Definition maxNestingDepth : nat := Z.to_nat 10000.
Definition readDocument (l : bytes) : option jsonVal :=
  '(v, rest) ← readValue maxNestingDepth l;
  if bool_decide (skipBlank rest = []) then Some v else None.

(** ** Values into structs ([encoding/json])

    [None]: a value of the wrong type, for which [Unmarshal] returns an error. *)

Definition intoString (cur : string) (v : jsonVal) : option string :=
  match v with JNull => Some cur | JString s => Some (bstr s) | _ => None end.
Definition intoInt (cur : Z) (v : jsonVal) : option Z :=
  match v with JNull => Some cur | JNumber n => Atoi (bstr n) | _ => None end.

(** The fields of a struct by their JSON names. *)
Definition fields (A : Type) : Type := list (string * (A → jsonVal → option A)).

(** [foldName]: two names are folded to the same when they differ in case only; the
    long s and the Kelvin sign fold to letters. *)
Fixpoint foldName (l : bytes) : bytes :=
  match l with
  | [] => []
  | c :: l1 =>
      match l1 with
      | d :: l2 =>
          if (c =? 0xC5) && (d =? 0xBF) then 0x53 :: foldName l2
          else match l2 with
               | e :: l3 =>
                   if (c =? 0xE2) && (d =? 0x84) && (e =? 0xAA) then 0x4B :: foldName l3
                   else (if within 0x61 0x7A c then c - 32 else c) :: foldName l1
               | [] => (if within 0x61 0x7A c then c - 32 else c) :: foldName l1
               end
      | [] => [if within 0x61 0x7A c then c - 32 else c]
      end
  end.

Definition fieldNamed {A} (fs : fields A) (key : bytes) : option (A → jsonVal → option A) :=
  match list_find (λ f, lit f.1 = key) fs with
  | Some (_, f) => Some f.2
  | None => (λ f, f.2.2) <$> list_find (λ f, foldName (lit f.1) = foldName key) fs
  end.

(** Members in order, those without a field skipped. *)
Definition intoStruct {A} (fs : fields A) (cur : A) (v : jsonVal) : option A :=
  match v with
  | JNull => Some cur
  | JObject ms =>
      foldl (λ acc m, cur ← acc; match fieldNamed fs m.1 with Some into => into cur m.2 | None => Some cur end) (Some cur) ms
  | _ => None
  end.

(** A pointer to a struct: [null] clears it, an object fills the struct it points to. *)
Definition intoPointer {A} (zero : A) (fs : fields A) (cur : option A) (v : jsonVal) : option (option A) :=
  match v with JNull => Some None | _ => Some <$> intoStruct fs (default zero cur) v end.

Definition usageFields : fields usageEv :=
  [("input_tokens", λ u v, (λ n, mkUsageEv n (ue_OutputTokens u) (ue_CacheRead u) (ue_CacheCreation u)) <$> intoInt (ue_InputTokens u) v);
   ("output_tokens", λ u v, (λ n, mkUsageEv (ue_InputTokens u) n (ue_CacheRead u) (ue_CacheCreation u)) <$> intoInt (ue_OutputTokens u) v);
   ("cache_read_input_tokens", λ u v,
      (λ n, mkUsageEv (ue_InputTokens u) (ue_OutputTokens u) n (ue_CacheCreation u)) <$> intoInt (ue_CacheRead u) v);
   ("cache_creation_input_tokens", λ u v,
      (λ n, mkUsageEv (ue_InputTokens u) (ue_OutputTokens u) (ue_CacheRead u) n) <$> intoInt (ue_CacheCreation u) v)].
Definition usageEv0 : usageEv := mkUsageEv 0 0 0 0.

Definition contentBlockFields : fields contentBlockEv :=
  [("type", λ b v, (λ s, mkContentBlockEv s (cb_ID b) (cb_Name b) (cb_Text b) (cb_Thinking b)) <$> intoString (cb_Type b) v);
   ("id", λ b v, (λ s, mkContentBlockEv (cb_Type b) s (cb_Name b) (cb_Text b) (cb_Thinking b)) <$> intoString (cb_ID b) v);
   ("name", λ b v, (λ s, mkContentBlockEv (cb_Type b) (cb_ID b) s (cb_Text b) (cb_Thinking b)) <$> intoString (cb_Name b) v);
   ("text", λ b v, (λ s, mkContentBlockEv (cb_Type b) (cb_ID b) (cb_Name b) s (cb_Thinking b)) <$> intoString (cb_Text b) v);
   ("thinking", λ b v, (λ s, mkContentBlockEv (cb_Type b) (cb_ID b) (cb_Name b) (cb_Text b) s) <$> intoString (cb_Thinking b) v)].
Definition contentBlockEv0 : contentBlockEv := mkContentBlockEv "" "" "" "" "".

Definition deltaFields : fields deltaEv :=
  [("type", λ d v, (λ s, mkDeltaEv s (de_Text d) (de_PartialJSON d) (de_StopReason d) (de_Thinking d) (de_Signature d)) <$> intoString (de_Type d) v);
   ("text", λ d v, (λ s, mkDeltaEv (de_Type d) s (de_PartialJSON d) (de_StopReason d) (de_Thinking d) (de_Signature d)) <$> intoString (de_Text d) v);
   ("partial_json", λ d v, (λ s, mkDeltaEv (de_Type d) (de_Text d) s (de_StopReason d) (de_Thinking d) (de_Signature d)) <$> intoString (de_PartialJSON d) v);
   ("stop_reason", λ d v, (λ s, mkDeltaEv (de_Type d) (de_Text d) (de_PartialJSON d) s (de_Thinking d) (de_Signature d)) <$> intoString (de_StopReason d) v);
   ("thinking", λ d v, (λ s, mkDeltaEv (de_Type d) (de_Text d) (de_PartialJSON d) (de_StopReason d) s (de_Signature d)) <$> intoString (de_Thinking d) v);
   ("signature", λ d v, (λ s, mkDeltaEv (de_Type d) (de_Text d) (de_PartialJSON d) (de_StopReason d) (de_Thinking d) s) <$> intoString (de_Signature d) v)].
Definition deltaEv0 : deltaEv := mkDeltaEv "" "" "" "" "" "".

Definition messageFields : fields messageEv :=
  [("id", λ m v, (λ s, mkMessageEv s (me_Role m) (me_Model m) (me_StopReason m) (me_Usage m)) <$> intoString (me_ID m) v);
   ("role", λ m v, (λ s, mkMessageEv (me_ID m) s (me_Model m) (me_StopReason m) (me_Usage m)) <$> intoString (me_Role m) v);
   ("model", λ m v, (λ s, mkMessageEv (me_ID m) (me_Role m) s (me_StopReason m) (me_Usage m)) <$> intoString (me_Model m) v);
   ("stop_reason", λ m v, (λ s, mkMessageEv (me_ID m) (me_Role m) (me_Model m) s (me_Usage m)) <$> intoString (me_StopReason m) v);
   ("usage", λ m v, mkMessageEv (me_ID m) (me_Role m) (me_Model m) (me_StopReason m) <$> intoPointer usageEv0 usageFields (me_Usage m) v)].
Definition messageEv0 : messageEv := mkMessageEv "" "" "" "" None.

Definition errorFields : fields errorEv :=
  [("type", λ e v, (λ s, mkErrorEv s (ee_Message e)) <$> intoString (ee_Type e) v);
   ("message", λ e v, (λ s, mkErrorEv (ee_Type e) s) <$> intoString (ee_Message e) v)].
Definition errorEv0 : errorEv := mkErrorEv "" "".

Definition eventFields : fields sseEvent :=
  [("type", λ e v, (λ s, mkSseEvent s (sse_Index e) (sse_ContentBlock e) (sse_Delta e) (sse_Message e) (sse_Usage e) (sse_Error e))
      <$> intoString (sse_Type e) v);
   ("index", λ e v, (λ i, mkSseEvent (sse_Type e) i (sse_ContentBlock e) (sse_Delta e) (sse_Message e) (sse_Usage e) (sse_Error e))
      <$> intoInt (sse_Index e) v);
   ("content_block", λ e v, (λ b, mkSseEvent (sse_Type e) (sse_Index e) b (sse_Delta e) (sse_Message e) (sse_Usage e) (sse_Error e))
      <$> intoPointer contentBlockEv0 contentBlockFields (sse_ContentBlock e) v);
   ("delta", λ e v, (λ d, mkSseEvent (sse_Type e) (sse_Index e) (sse_ContentBlock e) d (sse_Message e) (sse_Usage e) (sse_Error e))
      <$> intoPointer deltaEv0 deltaFields (sse_Delta e) v);
   ("message", λ e v, (λ m, mkSseEvent (sse_Type e) (sse_Index e) (sse_ContentBlock e) (sse_Delta e) m (sse_Usage e) (sse_Error e))
      <$> intoPointer messageEv0 messageFields (sse_Message e) v);
   ("usage", λ e v, (λ u, mkSseEvent (sse_Type e) (sse_Index e) (sse_ContentBlock e) (sse_Delta e) (sse_Message e) u (sse_Error e))
      <$> intoPointer usageEv0 usageFields (sse_Usage e) v);
   ("error", λ e v, mkSseEvent (sse_Type e) (sse_Index e) (sse_ContentBlock e) (sse_Delta e) (sse_Message e) (sse_Usage e)
      <$> intoPointer errorEv0 errorFields (sse_Error e) v)].
Definition sseEvent0 : sseEvent := mkSseEvent "" 0 None None None None None.

(** [json.Unmarshal(payload, &ev)]; [None] is an error. *)
Definition unmarshalEvent (payload : string) : option sseEvent :=
  v ← readDocument (lit payload); intoStruct eventFields sseEvent0 v.

(** ** Lines (internal/format/streamio/scanner.go and bufio)

    A line ends at a newline, less a carriage return before it; text after the
    last newline is a line.  A line that does not fit the buffer with its newline
    ends the scan with an error, and so does an error of the reader. *)

Definition newlineByte : ascii := "010".
Fixpoint dropCR (s : string) : string :=
  match s with
  | "" => ""
  | String c "" => if Ascii.eqb c "013" then "" else s
  | String c rest => String c (dropCR rest)
  end.
Fixpoint tokens (segments : list string) : list string * option string :=
  match segments with
  | [] => ([], None)
  | [s] => if String.eqb s "" then ([], None)
           else if Z.of_nat (String.length s) <? MaxFrameBytes then ([dropCR s], None)
           else ([], Some "bufio.Scanner: token too long")
  | s :: rest =>
      if Z.of_nat (String.length s) <? MaxFrameBytes then let '(ls, e) := tokens rest in (dropCR s :: ls, e)
      else ([], Some "bufio.Scanner: token too long")
  end.
Definition NewScanner (body : string) (readErr : option string) : list string * option string :=
  let '(ls, e) := tokens (Split newlineByte body) in
  (ls, match e with Some e => Some e | None => readErr end).

(** ** [ParseStream] *)

Record anthropicVars := mkAnthropicVars {
  av_blockTypes : gmap Z string; av_inputTokens : Z; av_cacheRead : Z; av_cacheWrite : Z }.
Definition anthropicVars0 : anthropicVars := mkAnthropicVars ∅ 0 0 0.
Definition withBlockTypes (m : gmap Z string) (v : anthropicVars) : anthropicVars :=
  mkAnthropicVars m (av_inputTokens v) (av_cacheRead v) (av_cacheWrite v).

Section Adapter.
Context (s : StreamAdapter).

Definition onMessageStart (v : anthropicVars) (m : messageEv) : list StreamEvent * anthropicVars :=
  (if EmitMessageStart s then [ev_message_start (mkStreamMessageStart (me_Role m) (me_ID m) (me_Model m))] else [],
   match me_Usage m with
   | Some u => mkAnthropicVars (av_blockTypes v) (ue_InputTokens u) (ue_CacheRead u) (ue_CacheCreation u)
   | None => v
   end).

Definition onBlockStart (v : anthropicVars) (i : Z) (b : contentBlockEv) : list StreamEvent * anthropicVars :=
  let explicit k provider := if ExplicitBlocks s then [ev_block_start (mkBlockStart i k provider)] else [] in
  ((if String.eqb (cb_Type b) "tool_use" then
      [ev_tool_start (mkToolCallStart i (cb_ID b) (cb_Name b) "" ToolInvocationFunction)]
    else if String.eqb (cb_Type b) "thinking" then explicit BlockKindThinking ""
    else if String.eqb (cb_Type b) "text" then explicit BlockKindText ""
    else explicit BlockKindProvider (cb_Type b)),
   withBlockTypes (<[i := cb_Type b]> (av_blockTypes v)) v).

Definition onBlockDelta (i : Z) (d : deltaEv) : list StreamEvent :=
  if String.eqb (de_Type d) "text_delta" then [ev_text (de_Text d)]
  else if String.eqb (de_Type d) "input_json_delta" then [ev_tool_delta (mkToolCallDelta i (de_PartialJSON d) None)]
  else if String.eqb (de_Type d) "thinking_delta" then [ev_thinking (de_Thinking d)]
  else if String.eqb (de_Type d) "signature_delta" then [ev_signature (de_Signature d)]
  else [].

Definition onBlockStop (v : anthropicVars) (i : Z) : list StreamEvent * anthropicVars :=
  (match av_blockTypes v !! i with
   | Some k => if String.eqb k "tool_use" then [ev_tool_end i] else if ExplicitBlocks s then [ev_block_stop i] else []
   | None => []
   end, withBlockTypes (delete i (av_blockTypes v)) v).

Definition canonicalReason (stop : string) : string :=
  if String.eqb stop "end_turn" then "stop"
  else if String.eqb stop "tool_use" then "tool_calls"
  else if String.eqb stop "max_tokens" then "length"
  else stop.

(** A zero count falls back to the one of the start. *)
Definition orElse (a b : Z) : Z := if a =? 0 then b else a.

Definition onMessageDelta (v : anthropicVars) (ev : sseEvent) : list StreamEvent * anthropicVars :=
  let '(usage, v) :=
    match sse_Usage ev with
    | Some u =>
        let input := orElse (ue_InputTokens u) (av_inputTokens v) in
        ([ev_usage (mkStreamUsage input (ue_OutputTokens u) (orElse (ue_CacheRead u) (av_cacheRead v))
                      (orElse (ue_CacheCreation u) (av_cacheWrite v)))],
         mkAnthropicVars (av_blockTypes v) input (av_cacheRead v) (av_cacheWrite v))
    | None => ([], v)
    end in
  (usage ++ match sse_Delta ev with Some d => [ev_finish (canonicalReason (de_StopReason d))] | None => [] end, v).

(** The switch on the type of an event; [None]: the parser returns. *)
Definition parseFrame (v : anthropicVars) (ev : sseEvent) : list StreamEvent * option anthropicVars :=
  let go (r : list StreamEvent * anthropicVars) := (r.1, Some r.2) in
  if String.eqb (sse_Type ev) "message_start" then
    match sse_Message ev with Some m => go (onMessageStart v m) | None => ([], Some v) end
  else if String.eqb (sse_Type ev) "content_block_start" then
    match sse_ContentBlock ev with Some b => go (onBlockStart v (sse_Index ev) b) | None => ([], Some v) end
  else if String.eqb (sse_Type ev) "content_block_delta" then
    match sse_Delta ev with Some d => (onBlockDelta (sse_Index ev) d, Some v) | None => ([], Some v) end
  else if String.eqb (sse_Type ev) "content_block_stop" then go (onBlockStop v (sse_Index ev))
  else if String.eqb (sse_Type ev) "message_delta" then go (onMessageDelta v ev)
  else if String.eqb (sse_Type ev) "error" then
    (match sse_Error ev with
     | None => [ev_error (mkStreamError 500 "anthropic stream error event missing error detail")]
     | Some x => [ev_error (mkStreamError 500 (ee_Message x))]
     end, None)
  else ([], Some v).

(** The text of [json.Unmarshal]'s error for a payload. *)
Context (errText : string → string).

(** The body of the loop over lines. *)
Definition parseLine (v : anthropicVars) (line : string) : list StreamEvent * option anthropicVars :=
  if negb (HasPrefix line "data: ") then ([], Some v)
  else
    let payload := TrimPrefix line "data: " in
    if String.eqb payload "" || String.eqb payload "[DONE]" then ([], Some v)
    else match unmarshalEvent payload with
         | None => ([ev_error (mkStreamError 500 ("anthropic stream parse: " +:+ errText payload))], Some v)
         | Some ev => parseFrame v ev
         end.

Fixpoint parseLines (v : anthropicVars) (lines : list string) (scanErr : option string) : list StreamEvent :=
  match lines with
  | [] => match scanErr with Some e => [ev_error (mkStreamError 500 ("anthropic stream read: " +:+ e))] | None => [] end
  | line :: lines =>
      match parseLine v line with
      | (es, Some v) => es ++ parseLines v lines scanErr
      | (es, None) => es
      end
  end.

Definition ParseStream (body : string) (readErr : option string) : list StreamEvent :=
  let '(lines, scanErr) := NewScanner body readErr in parseLines anthropicVars0 lines scanErr.
End Adapter.

(** ** Frames *)

Inductive frame :=
| FMessageStart (id role model : string)
| FPing
| FThinkingStart (i : Z)
| FTextStart (i : Z)
| FToolStart (i : Z) (id name : string)
| FThinkingDelta (i : Z) (text : string)
| FSignatureDelta (i : Z) (sig : string)
| FTextDelta (i : Z) (text : string)
| FInputDelta (i : Z) (json : string)
| FBlockStop (i : Z)
| FMessageDelta (stop : option string) (usage : option StreamUsage)
| FError (message : string)
| FMessageStop.

Definition frameType (f : frame) : string :=
  match f with
  | FMessageStart _ _ _ => "message_start"
  | FPing => "ping"
  | FThinkingStart _ | FTextStart _ | FToolStart _ _ _ => "content_block_start"
  | FThinkingDelta _ _ | FSignatureDelta _ _ | FTextDelta _ _ | FInputDelta _ _ => "content_block_delta"
  | FBlockStop _ => "content_block_stop"
  | FMessageDelta _ _ => "message_delta"
  | FError _ => "error"
  | FMessageStop => "message_stop"
  end.

(** The templates contain no apostrophe; [json] writes them with quotes. *)
Fixpoint json (template : string) : string :=
  match template with
  | "" => ""
  | String c rest => String (if Ascii.eqb c "'" then "034" else c)%char (json rest)
  end.

(** [json.Marshal] of a string. *)
Definition jsonString (s : string) : string := bstr (Marshal (lit s)).

Definition usageJSON (u : StreamUsage) : string :=
  let s := json "'input_tokens':" +:+ pretty (su_input u) +:+ json ",'output_tokens':" +:+ pretty (su_output u) in
  let s := if 0 <? su_cache_read u then s +:+ json ",'cache_read_input_tokens':" +:+ pretty (su_cache_read u) else s in
  let s := if 0 <? su_cache_write u then s +:+ json ",'cache_creation_input_tokens':" +:+ pretty (su_cache_write u) else s in
  "{" +:+ s +:+ "}".

Definition blockStartJSON (i : Z) (block : string) : string :=
  json "{'type':'content_block_start','index':" +:+ pretty i +:+ json ",'content_block':" +:+ block +:+ "}".
Definition blockDeltaJSON (i : Z) (kind field value : string) : string :=
  json "{'type':'content_block_delta','index':" +:+ pretty i +:+ json ",'delta':{'type':'" +:+ kind +:+ json "','" +:+ field
    +:+ json "':" +:+ jsonString value +:+ "}}".

Definition payload (f : frame) : string :=
  match f with
  | FMessageStart id role model =>
      json "{'type':'message_start','message':{'id':" +:+ jsonString id +:+ json ",'type':'message','role':" +:+ jsonString role
        +:+ json ",'model':" +:+ jsonString model
        +:+ json ",'content':[],'stop_reason':null,'stop_sequence':null,'usage':{'input_tokens':0,'output_tokens':0}}}"
  | FPing => json "{'type':'ping'}"
  | FThinkingStart i => blockStartJSON i (json "{'type':'thinking','thinking':''}")
  | FTextStart i => blockStartJSON i (json "{'type':'text','text':''}")
  | FToolStart i id name =>
      blockStartJSON i (json "{'type':'tool_use','id':" +:+ jsonString id +:+ json ",'name':" +:+ jsonString name +:+ json ",'input':{}}")
  | FThinkingDelta i text => blockDeltaJSON i "thinking_delta" "thinking" text
  | FSignatureDelta i sig => blockDeltaJSON i "signature_delta" "signature" sig
  | FTextDelta i text => blockDeltaJSON i "text_delta" "text" text
  | FInputDelta i args => blockDeltaJSON i "input_json_delta" "partial_json" args
  | FBlockStop i => json "{'type':'content_block_stop','index':" +:+ pretty i +:+ "}"
  | FMessageDelta stop usage =>
      json "{'type':'message_delta','delta':{"
        +:+ match stop with Some r => json "'stop_reason':" +:+ jsonString r +:+ json ",'stop_sequence':null" | None => "" end +:+ "}"
        +:+ match usage with Some u => json ",'usage':" +:+ usageJSON u | None => "" end +:+ "}"
  | FError message => json "{'type':'error','error':{'type':'stream_error','message':" +:+ jsonString message +:+ "}}"
  | FMessageStop => json "{'type':'message_stop'}"
  end.

Definition frameText (f : frame) : string :=
  "event: " +:+ frameType f +:+ String newlineByte "data: " +:+ payload f +:+ String newlineByte (String newlineByte "").
Definition wireText (fs : list frame) : string := foldr (λ f rest, frameText f +:+ rest) "" fs.

(** ** [SerializeStream] *)

Record serVars := mkSerVars {
  sv_inThinking : bool; sv_inText : bool; sv_blockIndex : Z; sv_pendingUsage : option StreamUsage; sv_finishWritten : bool;
  sv_toolBlock : gmap Z Z; sv_started : bool; sv_messageID : string; sv_messageRole : string; sv_messageModel : string;
  sv_writes : nat }.
Definition serVars0 : serVars := mkSerVars false false 0 None false ∅ false "msg_torana_stream" "assistant" "" 0.

(** Assignments. *)
Definition setBlocks (thinking text : bool) (index : Z) (v : serVars) : serVars :=
  mkSerVars thinking text index (sv_pendingUsage v) (sv_finishWritten v) (sv_toolBlock v) (sv_started v) (sv_messageID v)
    (sv_messageRole v) (sv_messageModel v) (sv_writes v).
Definition setTools (index : Z) (tools : gmap Z Z) (v : serVars) : serVars :=
  mkSerVars (sv_inThinking v) (sv_inText v) index (sv_pendingUsage v) (sv_finishWritten v) tools (sv_started v) (sv_messageID v)
    (sv_messageRole v) (sv_messageModel v) (sv_writes v).
Definition setUsage (u : option StreamUsage) (finish : bool) (v : serVars) : serVars :=
  mkSerVars (sv_inThinking v) (sv_inText v) (sv_blockIndex v) u finish (sv_toolBlock v) (sv_started v) (sv_messageID v)
    (sv_messageRole v) (sv_messageModel v) (sv_writes v).
Definition setMessage (started : bool) (id role model : string) (v : serVars) : serVars :=
  mkSerVars (sv_inThinking v) (sv_inText v) (sv_blockIndex v) (sv_pendingUsage v) (sv_finishWritten v) (sv_toolBlock v) started
    id role model (sv_writes v).
Definition countWrite (v : serVars) : serVars :=
  mkSerVars (sv_inThinking v) (sv_inText v) (sv_blockIndex v) (sv_pendingUsage v) (sv_finishWritten v) (sv_toolBlock v)
    (sv_started v) (sv_messageID v) (sv_messageRole v) (sv_messageModel v) (S (sv_writes v)).

Inductive serErr :=
| SerCancelled | SerWrite | SerLateStart | SerFreeform (what : string) | SerProvider (kind : string)
| SerSignature | SerStreamError (message : string).

(** Code that writes frames, updates the variables and may return early. *)
Definition ser : Type := serVars → list frame * res serErr serVars.
Definition ser_ok : ser := λ v, ([], Ok v).
Definition ser_err (e : serErr) : ser := λ _, ([], Err e).
Definition ser_set (f : serVars → serVars) : ser := λ v, ([], Ok (f v)).
Definition ser_seq (a b : ser) : ser :=
  λ v, match a v with
       | (fs, Ok v) => let '(gs, r) := b v in (fs ++ gs, r)
       | (fs, Err e) => (fs, Err e)
       end.
Notation "a ⨟ b" := (ser_seq a b) (at level 62, right associativity).

Section Serializer.
(** [wrote k]: the [k]-th write succeeds; [received n]: the [n]-th receive wins against
    the cancellation; [ctxErr]: it has happened when the source closes. *)
Context (wrote received : nat → bool) (ctxErr : bool).

Definition emit (f : frame) : ser :=
  λ v, if wrote (sv_writes v) then ([f], Ok (countWrite v)) else ([], Err SerWrite).

Definition ensureStarted : ser :=
  λ v, if sv_started v then ([], Ok v)
       else (emit (FMessageStart (sv_messageID v) (sv_messageRole v) (sv_messageModel v)) ⨟ emit FPing)
              (setMessage true (sv_messageID v) (sv_messageRole v) (sv_messageModel v) v).

Definition closeThinking : ser :=
  λ v, if sv_inThinking v then emit (FBlockStop (sv_blockIndex v)) (setBlocks false (sv_inText v) (sv_blockIndex v + 1) v)
       else ([], Ok v).
Definition closeText : ser :=
  λ v, if sv_inText v then emit (FBlockStop (sv_blockIndex v)) (setBlocks (sv_inThinking v) false (sv_blockIndex v + 1) v)
       else ([], Ok v).
(** [if !inThinking { inThinking = true; emit(...) }], and the same for text. *)
Definition openThinking : ser :=
  λ v, if sv_inThinking v then ([], Ok v)
       else emit (FThinkingStart (sv_blockIndex v)) (setBlocks true (sv_inText v) (sv_blockIndex v) v).
Definition openText : ser :=
  λ v, if sv_inText v then ([], Ok v)
       else emit (FTextStart (sv_blockIndex v)) (setBlocks (sv_inThinking v) true (sv_blockIndex v) v).

Definition wireReason (finish : string) : string :=
  if String.eqb finish "stop" then "end_turn"
  else if String.eqb finish "tool_calls" then "tool_use"
  else if String.eqb finish "length" then "max_tokens"
  else finish.

Definition RejectFreeformStreamEvent (e : StreamEvent) : res serErr unit :=
  if match evToolCallStart e with Some t => tcs_kind t =? ToolInvocationFreeform | None => false end
  then Err (SerFreeform "streamed free-form tool calls are unsupported")
  else if match evToolCallDelta e with Some d => bool_decide (tcd_input d ≠ None) | None => false end
  then Err (SerFreeform "streamed free-form tool input is unsupported")
  else Ok tt.

Definition blockOfTool (v : serVars) (index : Z) : Z := default index (sv_toolBlock v !! index).

(** The switch. *)
Definition serializeContent (e : StreamEvent) : ser :=
  match evBlockStart e with
  | Some b =>
      match bs_kind b with
      | BlockKindProvider => ser_err (SerProvider (bs_provider_kind b))
      | BlockKindThinking => closeText ⨟ openThinking
      | BlockKindText => closeThinking ⨟ openText
      | BlockKindOther _ => ser_ok
      end
  | None =>
  if bool_decide (evBlockStop e ≠ None) then closeThinking ⨟ closeText
  else match ThinkingDelta e with
  | Some text => openThinking ⨟ (λ v, emit (FThinkingDelta (sv_blockIndex v) text) v)
  | None =>
  match SignatureDelta e with
  | Some sig => λ v, if sv_inThinking v then emit (FSignatureDelta (sv_blockIndex v) sig) v else ([], Err SerSignature)
  | None =>
  match TextDelta e with
  | Some text => closeThinking ⨟ openText ⨟ (λ v, emit (FTextDelta (sv_blockIndex v) text) v)
  | None =>
  match evToolCallStart e with
  | Some t =>
      closeThinking ⨟ closeText ⨟
      (λ v, emit (FToolStart (sv_blockIndex v) (tcs_id t) (tcs_name t))
              (setTools (sv_blockIndex v + 1) (<[tcs_index t := sv_blockIndex v]> (sv_toolBlock v)) v))
  | None =>
  match evToolCallDelta e with
  | Some d => λ v, emit (FInputDelta (blockOfTool v (tcd_index d)) (tcd_arguments d)) v
  | None =>
  match evToolCallEnd e with
  | Some i => λ v, emit (FBlockStop (blockOfTool v i)) (setTools (sv_blockIndex v) (delete i (sv_toolBlock v)) v)
  | None =>
  match Usage e with
  | Some u => λ v, if sv_finishWritten v then emit (FMessageDelta None (Some u)) v else ([], Ok (setUsage (Some u) false v))
  | None =>
  if negb (String.eqb (FinishReason e) "") then
    closeThinking ⨟ closeText ⨟
    (λ v, emit (FMessageDelta (Some (wireReason (FinishReason e))) (sv_pendingUsage v)) (setUsage None true v))
  else match Error e with
  | Some x => emit (FError (se_message x)) ⨟ ser_err (SerStreamError (se_message x))
  | None => ser_ok
  end end end end end end end end end.

Definition serializeStart (m : StreamMessageStart) : ser :=
  λ v, if sv_started v then ([], Err SerLateStart)
       else ([], Ok (setMessage false (if String.eqb (sms_id m) "" then sv_messageID v else sms_id m)
                       (if String.eqb (sms_role m) "" then sv_messageRole v else sms_role m) (sms_model m) v)).

(** The body of the loop. *)
Definition serializeEvent (e : StreamEvent) : ser :=
  match MessageStart e with
  | Some m => serializeStart m
  | None =>
      match RejectFreeformStreamEvent e with
      | Err err => ser_err err
      | Ok _ =>
          match Error e with
          | Some _ => serializeContent e
          | None => ensureStarted ⨟ serializeContent e
          end
      end
  end.

(** After the source has closed. *)
Definition serializeEnd : ser :=
  if ctxErr then ser_err SerCancelled
  else
    ensureStarted ⨟ closeThinking ⨟ closeText ⨟
    (λ v, match sv_pendingUsage v with Some u => emit (FMessageDelta None (Some u)) v | None => ([], Ok v) end) ⨟
    emit FMessageStop.

Fixpoint serializeLoop (n : nat) (events : list StreamEvent) : ser :=
  if negb (received n) then ser_err SerCancelled
  else match events with
       | [] => serializeEnd
       | e :: events => serializeEvent e ⨟ serializeLoop (S n) events
       end.

Definition SerializeStream (events : list StreamEvent) : list frame * res serErr unit :=
  let '(fs, r) := serializeLoop 0 events serVars0 in (fs, match r with Ok _ => Ok tt | Err e => Err e end).
End Serializer.

(** Every write succeeds, no receive is cancelled. *)
Definition always (n : nat) : bool := true.
