(* ===== verification/AnthropicWire.v ===== *)
(** * What an Anthropic client receives

    The frames a serialized stream consists of, read as a client's accumulator reads
    them: a message starts once, blocks are numbered consecutively, deltas go to an
    open block of their kind, and the message ends with every block closed. *)

From stdpp Require Import base list strings gmap sets numbers pretty.
From S2P Require Import Prelude ByteStrings StreamEvents Discipline GoStrings BridgeStream AnthropicStream.

Open Scope Z_scope.

(** ** The client's side *)

Inductive wireKind := WireText | WireThinking | WireTool.
Inductive wirePhase := WireFresh | WireContent | WireClosing | WireEnded.
#[export] Instance wireKind_eq_dec : EqDecision wireKind.
Proof. solve_decision. Defined.
#[export] Instance wirePhase_eq_dec : EqDecision wirePhase.
Proof. solve_decision. Defined.

Record wire := mkWire { wr_phase : wirePhase; wr_next : Z; wr_open : gmap Z wireKind }.
Definition wire0 : wire := mkWire WireFresh 0 ∅.

Definition wireStart (w : wire) (i : Z) (k : wireKind) : option wire :=
  if bool_decide (wr_phase w = WireContent ∧ i = wr_next w)
  then Some (mkWire WireContent (wr_next w + 1) (<[i := k]> (wr_open w))) else None.
Definition wireDelta (w : wire) (i : Z) (k : wireKind) : option wire :=
  if bool_decide (wr_phase w = WireContent ∧ wr_open w !! i = Some k) then Some w else None.
(** The end of the message, or of its content. *)
Definition wireClose (w : wire) (p : wirePhase) : option wire :=
  if bool_decide (wr_phase w ∈ [WireContent; WireClosing] ∧ wr_open w = ∅) then Some (mkWire p (wr_next w) ∅) else None.

Definition wireStep (w : wire) (f : frame) : option wire :=
  match f with
  | FMessageStart _ _ _ => if bool_decide (wr_phase w = WireFresh) then Some (mkWire WireContent (wr_next w) (wr_open w)) else None
  | FPing => if bool_decide (wr_phase w = WireContent) then Some w else None
  | FTextStart i => wireStart w i WireText
  | FThinkingStart i => wireStart w i WireThinking
  | FToolStart i _ _ => wireStart w i WireTool
  | FTextDelta i _ => wireDelta w i WireText
  | FThinkingDelta i _ | FSignatureDelta i _ => wireDelta w i WireThinking
  | FInputDelta i _ => wireDelta w i WireTool
  | FBlockStop i =>
      if bool_decide (wr_phase w = WireContent ∧ is_Some (wr_open w !! i))
      then Some (mkWire WireContent (wr_next w) (delete i (wr_open w))) else None
  | FMessageDelta _ _ => wireClose w WireClosing
  | FError _ => if bool_decide (wr_phase w ≠ WireEnded) then Some (mkWire WireEnded (wr_next w) (wr_open w)) else None
  | FMessageStop => wireClose w WireEnded
  end.
Fixpoint wireAll (w : wire) (fs : list frame) : option wire :=
  match fs with [] => Some w | f :: fs => w ← wireStep w f; wireAll w fs end.

Lemma wireAll_app w fs gs : wireAll w (fs ++ gs) = w ← wireAll w fs; wireAll w gs.
Proof. revert w. induction fs as [|f fs IH]; intros w; [done|]. cbn. destruct (wireStep w f); [apply IH|done]. Qed.

(** ** Thinking that follows text

    [sv_inText] after an event, and that no thinking delta arrives while it is set. *)

Definition textAfter (text : bool) (e : StreamEvent) : bool :=
  match MessageStart e, evBlockStart e with
  | Some _, _ => text
  | None, Some b => match bs_kind b with BlockKindText => true | BlockKindThinking => false | _ => text end
  | None, None =>
      if bool_decide (evBlockStop e ≠ None ∨ evToolCallStart e ≠ None) || negb (String.eqb (FinishReason e) "") then false
      else bool_decide (TextDelta e ≠ None) || text
  end.
Fixpoint thinkingApart (text : bool) (es : list StreamEvent) : bool :=
  match es with
  | [] => true
  | e :: es => (bool_decide (ThinkingDelta e = None) || negb text) && thinkingApart (textAfter text e) es
  end.

(** ** What a disciplined stream shows the serializer *)

Inductive quiet : StreamEvent → Prop :=
| quiet_text s : quiet (ev_text s)
| quiet_thinking s : quiet (ev_thinking s)
| quiet_signature s : quiet (ev_signature s)
| quiet_start b : quiet (ev_block_start b)
| quiet_stop i : quiet (ev_block_stop i)
| quiet_empty : quiet ev0.

Inductive sees (w w' : streamDisciplineWalker) : StreamEvent → Prop :=
| sees_quiet e : messageStopped w = false → openTools w' = openTools w → quiet e → sees w w' e
| sees_toolStart t : messageStopped w = false → tcs_index t ∉ dom (openTools w) →
    openTools w' = <[tcs_index t := tcs_kind t]> (openTools w) → sees w w' (ev_tool_start t)
| sees_toolDelta d : messageStopped w = false → tcd_index d ∈ dom (openTools w) → openTools w' = openTools w →
    sees w w' (ev_tool_delta d)
| sees_toolEnd i : messageStopped w = false → i ∈ dom (openTools w) → openTools w' = delete i (openTools w) →
    sees w w' (ev_tool_end i)
| sees_finish f : messageStopped w = false → openTools w = ∅ → openTools w' = ∅ → messageStopped w' = true → sees w w' (ev_finish f)
| sees_usage u : openTools w' = openTools w → messageStopped w' = messageStopped w → sees w w' (ev_usage u)
| sees_error x : sees w w' (ev_error x)
| sees_start m : openTools w' = openTools w → messageStopped w' = messageStopped w → sees w w' (ev_message_start m).

Lemma walk_sees w t ev w' t' e :
  walker_inv w → tracks w t → walkR w ev = Ok w' → FromPBStreamEvent t ev = Ok (t', e) → sees w w' e.
Proof.
  intros [Hex Hseen _ _] [Hn Ht _] Hw Hf. destruct w as [nt ot sn se ms sp st ps], t as [tn tt0 ts]. simpl in Hn, Ht, Hex, Hseen. subst tt0 tn. destruct ms;
  destruct ev as [s|s|role id model|idx b|idx|idx args input|sig|reason|a b c d|code msg|]; try destruct b;
    unfold FromPBStreamEvent, startNonTool in Hf; split_walk Hw; try split_walk Hf; try (by constructor; try done; constructor).
  - apply sees_toolStart; cbn; [done| |done]. set_solver.
  - destruct nt; [|done]. rewrite Hex in * by done. by simplify_map_eq.
  - apply sees_toolEnd; [done|by eapply elem_of_dom_2|done].
  - apply sees_toolDelta; [done|by eapply elem_of_dom_2|done].
  - apply sees_toolDelta; [done|by eapply elem_of_dom_2|done].
  - assert (ot = ∅) as -> by (by apply dec_stable). by apply sees_finish.
Qed.

(** ** Safe pieces of the serializer

    Started between [P] and the client's state, an operation writes frames the client
    accepts, and [Q] holds when it goes on. *)

Section Serializer.
Context (wrote received : nat → bool) (ctxErr : bool).

Definition safe (P : serVars → wire → Prop) (op : ser) (Q : serVars → wire → Prop) : Prop :=
  ∀ v r, P v r → ∃ r', wireAll r (op v).1 = Some r' ∧ ∀ v', (op v).2 = Ok v' → Q v' r'.

Lemma safe_seq P Q R a b : safe P a Q → safe Q b R → safe P (ser_seq a b) R.
Proof.
  intros Ha Hb v r Hp. destruct (Ha v r Hp) as (r1 & Hw & Hq). unfold ser_seq. destruct (a v) as [fs [v1|e]]; cbn in *.
  - destruct (Hb v1 r1 (Hq _ eq_refl)) as (r2 & Hw2 & Hr). destruct (b v1) as [gs o]. cbn in *. exists r2.
    rewrite wireAll_app, Hw. done.
  - exists r1. done.
Qed.

Lemma safe_emit (P Q : serVars → wire → Prop) g upd :
  (∀ v r, P v r → ∃ r', wireStep r (g v) = Some r' ∧ Q (countWrite (upd v)) r') →
  safe P (λ v, emit wrote (g v) (upd v)) Q.
Proof.
  intros H v r Hp. destruct (H v r Hp) as (r' & Hw & Hq). unfold emit. destruct (wrote _); cbn.
  - exists r'. rewrite Hw. split; [done|]. by intros ? [= <-].
  - exists r. done.
Qed.

Lemma safe_pre (P P' Q : serVars → wire → Prop) op : (∀ v r, P v r → P' v r) → safe P' op Q → safe P op Q.
Proof. intros H Hs v r Hp. apply Hs. auto. Qed.
Lemma safe_post (P Q Q' : serVars → wire → Prop) op : (∀ v r, Q v r → Q' v r) → safe P op Q → safe P op Q'.
Proof. intros H Hs v r Hp. destruct (Hs v r Hp) as (r' & ? & ?). eauto. Qed.

(** Content is being sent: the client's open blocks are the serializer's. *)
Record content (th tx : bool) (tools : gset Z) (v : serVars) (r : wire) : Prop := {
  ct_started : sv_started v = true;
  ct_finish : sv_finishWritten v = false;
  ct_phase : wr_phase r = WireContent;
  ct_thinking : sv_inThinking v = th;
  ct_text : sv_inText v = tx;
  ct_tools : dom (sv_toolBlock v) = tools;
  ct_one : th && tx = false;
  ct_next : wr_next r = sv_blockIndex v + (if th || tx then 1 else 0);
  ct_below : ∀ t i, sv_toolBlock v !! t = Some i → i < sv_blockIndex v;
  ct_inj : ∀ t t' i, sv_toolBlock v !! t = Some i → sv_toolBlock v !! t' = Some i → t = t';
  ct_open : ∀ i k, wr_open r !! i = Some k ↔
    (k = WireText ∧ tx = true ∧ i = sv_blockIndex v) ∨ (k = WireThinking ∧ th = true ∧ i = sv_blockIndex v)
    ∨ (k = WireTool ∧ ∃ t, sv_toolBlock v !! t = Some i) }.

(** Of the open blocks, those of tools are below the current index. *)
Lemma open_tool th tx tools v r i : content th tx tools v r → wr_open r !! i = Some WireTool → i < sv_blockIndex v.
Proof. intros Hc [(? & _)|[(? & _)|(_ & t & Ht)]]%(ct_open _ _ _ _ _ Hc); [done..|]. by apply (ct_below _ _ _ _ _ Hc t). Qed.

(** The current block is closed. *)
Lemma safe_close th tx tools :
  th || tx = true → safe (content th tx tools) (λ v, emit wrote (FBlockStop (sv_blockIndex v)) (setBlocks false false (sv_blockIndex v + 1) v))
                         (content false false tools).
Proof.
  intros Hor. apply safe_emit. intros v r Hc. pose proof Hc as [H1 H2 H3 H4 H5 H6 H7 H8 H9 H10 H11].
  assert (is_Some (wr_open r !! sv_blockIndex v)) as Hs.
  { destruct th; [exists WireThinking|destruct tx; [exists WireText|done]]; apply H11; auto. }
  cbn [wireStep]. rewrite bool_decide_true by done. eexists. split; [done|]. split; cbn; try done.
  - rewrite H8, Hor. lia.
  - intros t i Hi%H9. lia.
  - intros i k. rewrite lookup_delete_Some, H11. split.
    + intros [Hne [(-> & _ & ->)|[(-> & _ & ->)|Ht]]]; [done..|auto].
    + intros [(_ & ? & _)|[(_ & ? & _)|(-> & t & Ht)]]; [done..|]. split; [|by right; right; eauto]. apply H9 in Ht. lia.
Qed.

Lemma safe_closeThinking th tx tools : safe (content th tx tools) (closeThinking wrote) (content false tx tools).
Proof.
  intros v r Hc. unfold closeThinking. rewrite (ct_thinking _ _ _ _ _ Hc). destruct th; [|by exists r; split; [done|intros ? [= <-]]].
  pose proof (ct_one _ _ _ _ _ Hc) as Hone. destruct tx; [done|]. rewrite (ct_text _ _ _ _ _ Hc).
  exact (safe_close true false tools eq_refl v r Hc).
Qed.

Lemma safe_closeText th tx tools : safe (content th tx tools) (closeText wrote) (content th false tools).
Proof.
  intros v r Hc. unfold closeText. rewrite (ct_text _ _ _ _ _ Hc), (ct_thinking _ _ _ _ _ Hc). pose proof (ct_one _ _ _ _ _ Hc) as Hone.
  destruct tx; [|by exists r; split; [done|intros ? [= <-]]]. destruct th; [done|]. exact (safe_close false true tools eq_refl v r Hc).
Qed.

(** A block of its own is opened. *)
Lemma content_fresh tools v r : content false false tools v r → wr_open r !! sv_blockIndex v = None.
Proof.
  intros Hc. apply eq_None_not_Some. intros [k [(_ & ? & _)|[(_ & ? & _)|(_ & t & Ht)]]%(ct_open _ _ _ _ _ Hc)]; [done..|].
  apply (ct_below _ _ _ _ _ Hc) in Ht. lia.
Qed.

Lemma content_start tools v r k : content false false tools v r →
  wireStart r (sv_blockIndex v) k = Some (mkWire WireContent (sv_blockIndex v + 1) (<[sv_blockIndex v := k]> (wr_open r))).
Proof.
  intros [H1 H2 H3 H4 H5 H6 H7 H8 H9 H10 H11]. cbn in H8. rewrite Z.add_0_r in H8. unfold wireStart.
  rewrite bool_decide_true by done. by rewrite H8.
Qed.

Lemma safe_open (th : bool) tools k f :
  k = (if th then WireThinking else WireText) → (∀ r i, wireStep r (f i) = wireStart r i k) →
  safe (content false false tools) (λ v, emit wrote (f (sv_blockIndex v)) (setBlocks th (negb th) (sv_blockIndex v) v))
       (content th (negb th) tools).
Proof.
  intros Hk Hf. apply safe_emit. intros v r Hc. rewrite Hf, (content_start _ _ _ _ Hc). eexists. split; [done|].
  pose proof (content_fresh _ _ _ Hc) as Hn. destruct Hc as [H1 H2 H3 H4 H5 H6 H7 H8 H9 H10 H11].
  split; cbn; try done; [by destruct th|by destruct th|].
  intros i k'. rewrite lookup_insert_Some, H11. subst k. split.
  - intros [[<- <-]|[Hne [(_ & ? & _)|[(_ & ? & _)|Ht]]]]; [destruct th; auto|done..|auto].
  - intros [(-> & ? & ->)|[(-> & ? & ->)|(-> & t & Ht)]]; [destruct th; by try left..|]. right.
    split; [apply H9 in Ht; lia|]. right; right; eauto.
Qed.

Lemma safe_openText tx tools : safe (content false tx tools) (openText wrote) (content false true tools).
Proof.
  intros v r Hc. unfold openText. rewrite (ct_text _ _ _ _ _ Hc), (ct_thinking _ _ _ _ _ Hc).
  destruct tx; [by exists r; split; [done|intros ? [= <-]]|]. by apply (safe_open false tools WireText FTextStart).
Qed.

Lemma safe_openThinking th tools : safe (content th false tools) (openThinking wrote) (content true false tools).
Proof.
  intros v r Hc. unfold openThinking. rewrite (ct_text _ _ _ _ _ Hc), (ct_thinking _ _ _ _ _ Hc).
  destruct th; [by exists r; split; [done|intros ? [= <-]]|]. by apply (safe_open true tools WireThinking FThinkingStart).
Qed.

(** ** Deltas and tools *)

Lemma content_count th tx tools v r : content th tx tools v r → content th tx tools (countWrite v) r.
Proof. intros []. by split. Qed.

Lemma safe_delta th tx tools k g :
  (∀ v r, content th tx tools v r → wr_open r !! sv_blockIndex v = Some k) →
  (∀ r i, wireStep r (g i) = wireDelta r i k) →
  safe (content th tx tools) (λ v, emit wrote (g (sv_blockIndex v)) v) (content th tx tools).
Proof.
  intros Hk Hg. apply (safe_emit _ _ (λ v, g (sv_blockIndex v)) id). intros v r Hc. exists r. rewrite Hg. unfold wireDelta.
  rewrite bool_decide_true; [|split; [apply (ct_phase _ _ _ _ _ Hc)|by apply Hk]]. split; [done|]. by apply content_count.
Qed.
Lemma open_text tools v r : content false true tools v r → wr_open r !! sv_blockIndex v = Some WireText.
Proof. intros Hc. apply (ct_open _ _ _ _ _ Hc). auto. Qed.
Lemma open_thinking tools v r : content true false tools v r → wr_open r !! sv_blockIndex v = Some WireThinking.
Proof. intros Hc. apply (ct_open _ _ _ _ _ Hc). auto. Qed.

Lemma safe_toolStart tools t id name : t ∉ tools →
  safe (content false false tools)
    (λ v, emit wrote (FToolStart (sv_blockIndex v) id name) (setTools (sv_blockIndex v + 1) (<[t := sv_blockIndex v]> (sv_toolBlock v)) v))
    (content false false ({[t]} ∪ tools)).
Proof.
  intros Ht. apply safe_emit. intros v r Hc. cbn [wireStep]. rewrite (content_start _ _ _ _ Hc). eexists. split; [done|].
  destruct Hc as [H1 H2 H3 H4 H5 H6 H7 H8 H9 H10 H11].
  assert (Hnew : sv_toolBlock v !! t = None) by (apply not_elem_of_dom; by rewrite H6).
  split; cbn; try done.
  - rewrite dom_insert_L. by rewrite H6.
  - lia.
  - intros t' i [[_ <-]|[_ Hi%H9]]%lookup_insert_Some; lia.
  - intros t1 t2 i [[<- <-]|[_ Ha]]%lookup_insert_Some [[<- Hb]|[_ Hb]]%lookup_insert_Some; [done|apply H9 in Hb; lia| |by eapply H10].
    apply H9 in Ha. lia.
  - intros i k. rewrite lookup_insert_Some, H11. split.
    + intros [[<- <-]|[Hne [(_ & ? & _)|[(_ & ? & _)|(-> & t' & Hi)]]]]; [|done..|]; right; right; split; try done.
      * exists t. apply lookup_insert_eq.
      * exists t'. rewrite lookup_insert_ne; [done|]. congruence.
    + intros [(_ & ? & _)|[(_ & ? & _)|(-> & t' & Hi)]]; [done..|].
      apply lookup_insert_Some in Hi as [[_ <-]|[_ Hi]]; [by left|]. right. split; [apply H9 in Hi; lia|eauto].
Qed.

Lemma tool_block th tx tools t v r : content th tx tools v r → t ∈ tools →
  ∃ i, sv_toolBlock v !! t = Some i ∧ blockOfTool v t = i ∧ wr_open r !! i = Some WireTool.
Proof.
  intros Hc Ht. rewrite <- (ct_tools _ _ _ _ _ Hc) in Ht. apply elem_of_dom in Ht as [i Hi]. exists i. split; [done|].
  split; [unfold blockOfTool; by rewrite Hi|]. apply (ct_open _ _ _ _ _ Hc). eauto.
Qed.

Lemma safe_toolDelta th tx tools t args : t ∈ tools →
  safe (content th tx tools) (λ v, emit wrote (FInputDelta (blockOfTool v t) args) v) (content th tx tools).
Proof.
  intros Ht. apply (safe_emit _ _ (λ v, FInputDelta (blockOfTool v t) args) id). intros v r Hc. exists r. cbn [wireStep].
  destruct (tool_block _ _ _ _ _ _ Hc Ht) as (i & _ & -> & Ho). unfold wireDelta.
  rewrite bool_decide_true; [|split; [apply (ct_phase _ _ _ _ _ Hc)|done]]. split; [done|]. by apply content_count.
Qed.

Lemma safe_toolEnd th tx tools t : t ∈ tools →
  safe (content th tx tools) (λ v, emit wrote (FBlockStop (blockOfTool v t)) (setTools (sv_blockIndex v) (delete t (sv_toolBlock v)) v))
    (content th tx (tools ∖ {[t]})).
Proof.
  intros Ht. apply safe_emit. intros v r Hc. destruct (tool_block _ _ _ _ _ _ Hc Ht) as (i & Hi & -> & Ho).
  pose proof (open_tool _ _ _ _ _ _ Hc Ho) as Hlt. cbn [wireStep].
  rewrite bool_decide_true by (split; [apply (ct_phase _ _ _ _ _ Hc)|by rewrite Ho]). eexists. split; [done|].
  destruct Hc as [H1 H2 H3 H4 H5 H6 H7 H8 H9 H10 H11]. split; cbn; try done.
  - rewrite dom_delete_L. by rewrite H6.
  - intros t' j [_ Hj]%lookup_delete_Some. by eapply H9.
  - intros t1 t2 j [_ Ha]%lookup_delete_Some [_ Hb]%lookup_delete_Some. by eapply H10.
  - intros j k. rewrite lookup_delete_Some, H11. split.
    + intros [Hne [?|[?|(-> & t' & Hj)]]]; [auto..|]. right; right. split; [done|]. exists t'. rewrite lookup_delete_Some.
      split; [congruence|done].
    + intros [(-> & ? & ->)|[(-> & ? & ->)|(-> & t' & Hj)]]; [split; [lia|auto]..|].
      apply lookup_delete_Some in Hj as [Hne Hj]. split; [intros <-; by apply Hne, (H10 _ _ i)|eauto].
Qed.

(** ** The ends *)

Record closing (v : serVars) (r : wire) : Prop := {
  cl_started : sv_started v = true; cl_finish : sv_finishWritten v = true; cl_phase : wr_phase r = WireClosing;
  cl_open : wr_open r = ∅; cl_usage : sv_pendingUsage v = None; cl_thinking : sv_inThinking v = false; cl_text : sv_inText v = false }.

Lemma content_empty v r : content false false ∅ v r → wr_open r = ∅.
Proof.
  intros Hc. apply map_empty. intros i. apply eq_None_not_Some.
  intros [k [(_ & ? & _)|[(_ & ? & _)|(_ & t & Ht)]]%(ct_open _ _ _ _ _ Hc)]; [done..|].
  apply elem_of_dom_2 in Ht. rewrite (ct_tools _ _ _ _ _ Hc) in Ht. set_solver.
Qed.

Lemma safe_finish stop :
  safe (content false false ∅) (λ v, emit wrote (FMessageDelta stop (sv_pendingUsage v)) (setUsage None true v)) closing.
Proof.
  apply safe_emit. intros v r Hc. cbn [wireStep]. unfold wireClose. pose proof (content_empty _ _ Hc) as Ho.
  destruct Hc as [H1 H2 H3 H4 H5 H6 H7 H8 H9 H10 H11]. rewrite bool_decide_true by (split; [rewrite H3; set_solver|done]).
  eexists. split; [done|]. by split.
Qed.

Lemma safe_lateUsage u : safe closing (λ v, emit wrote (FMessageDelta None (Some u)) v) closing.
Proof.
  apply (safe_emit _ _ (λ _, FMessageDelta None (Some u)) id). intros v r [H1 H2 H3 H4 H5 H6 H7]. cbn [wireStep]. unfold wireClose.
  rewrite bool_decide_true by (split; [rewrite H3; set_solver|done]). eexists. split; [done|]. by split.
Qed.

(** Nothing has been sent. *)
Record fresh (v : serVars) (r : wire) : Prop := {
  fr_started : sv_started v = false; fr_finish : sv_finishWritten v = false; fr_wire : r = wire0; fr_index : sv_blockIndex v = 0;
  fr_tools : sv_toolBlock v = ∅; fr_thinking : sv_inThinking v = false; fr_text : sv_inText v = false }.

Lemma safe_started : safe fresh (ensureStarted wrote) (content false false ∅).
Proof.
  intros v r Hf. unfold ensureStarted. rewrite (fr_started _ _ Hf).
  apply (safe_seq (λ v r, r = wire0 ∧ fresh (setMessage false (sv_messageID v) (sv_messageRole v) (sv_messageModel v) v) r ∧ sv_started v = true)
    (content false false ∅)); [| |destruct Hf; split_and!; try done; by split].
  - apply (safe_emit _ _ (λ _, FMessageStart (sv_messageID v) (sv_messageRole v) (sv_messageModel v)) id).
    intros v' r' (-> & [H1 H2 H3 H4 H5 H6 H7] & Hs). cbn in *.
    eexists. split; [done|]. split; cbn; try done.
    + by rewrite H5.
    + by rewrite H4.
    + intros t i. by rewrite H5.
    + intros t t' i. by rewrite H5.
    + intros i k. rewrite lookup_empty, H5. split; [done|]. intros [(_ & ? & _)|[(_ & ? & _)|(_ & t & Ht)]]; [done..|]. by rewrite lookup_empty in Ht.
  - apply (safe_emit _ _ (λ _, FPing) id). intros v' r' Hc. exists r'. cbn [wireStep].
    rewrite bool_decide_true by apply (ct_phase _ _ _ _ _ Hc). split; [done|]. by apply content_count.
Qed.

(** ** One event of a disciplined stream *)

Lemma safe_closeBoth th tx tools : safe (content th tx tools) (closeThinking wrote ⨟ closeText wrote) (content false false tools).
Proof. eapply safe_seq; [apply safe_closeThinking|apply safe_closeText]. Qed.

Definition running (w : streamDisciplineWalker) (tx : bool) (v : serVars) (r : wire) : Prop :=
  (∃ th, content th tx (dom (openTools w)) v r) ∨ (closing v r ∧ tx = false ∧ messageStopped w = true).
Definition linked (w : streamDisciplineWalker) (tx : bool) (v : serVars) (r : wire) : Prop :=
  (fresh v r ∧ tx = false ∧ openTools w = ∅) ∨ running w tx v r.

Lemma safe_ensure w tx : safe (linked w tx) (ensureStarted wrote) (running w tx).
Proof.
  intros v r [(Hf & -> & Ht)|Hr].
  - destruct (safe_started v r Hf) as (r' & Hw & Hc). exists r'. split; [done|]. intros v' Hv. left. exists false. rewrite Ht, dom_empty_L. auto.
  - assert (sv_started v = true) as Hs by (destruct Hr as [[th Hc]|[Hc _]]; by destruct Hc).
    unfold ensureStarted. rewrite Hs. exists r. split; [done|]. by intros ? [= <-].
Qed.

Lemma safe_content w w' tx tx' op : messageStopped w = false → 
  (∀ th, safe (content th tx (dom (openTools w))) op (running w' tx')) → safe (running w tx) op (running w' tx').
Proof. intros Hm H v r [[th Hc]|(_ & _ & Hm')]; [by eapply H|congruence]. Qed.

Lemma safe_to (P : serVars → wire → Prop) w' th tx tools op :
  tools = dom (openTools w') → safe P op (content th tx tools) → safe P op (running w' tx).
Proof. intros ->. apply safe_post. intros v r Hc. left. eauto. Qed.

Lemma safe_errorEvent w tx x : safe (linked w tx) (serializeContent wrote (ev_error x)) (λ _ _, False).
Proof.
  intros v r Hl. cbn. unfold ser_seq, ser_err, emit.
  assert (wr_phase r ≠ WireEnded) as Hp by (destruct Hl as [([] & _)|[[th []]|([] & _)]]; subst; done || congruence).
  destruct (wrote _); cbn; [|by exists r]. rewrite bool_decide_true by done. by eexists.
Qed.

Lemma safe_usage w u tx : safe (running w tx) (serializeContent wrote (ev_usage u)) (running w tx).
Proof.
  intros v r [[th Hc]|(Hc & -> & Hm)]; cbn.
  - rewrite (ct_finish _ _ _ _ _ Hc). exists r. split; [done|]. intros ? [= <-]. left. exists th. destruct Hc. by split.
  - rewrite (cl_finish _ _ Hc). destruct (safe_lateUsage u v r Hc) as (r' & Hw & Hq). exists r'. split; [done|]. intros v' Hv. right. auto.
Qed.

(** An event that is neither a start of the message, nor refused, nor an error. *)
Lemma safe_plain w w' tx tx' e : MessageStart e = None → RejectFreeformStreamEvent e = Ok tt → Error e = None →
  safe (running w tx) (serializeContent wrote e) (running w' tx') → safe (linked w tx) (serializeEvent wrote e) (linked w' tx').
Proof.
  intros Hm Hf He Hs. unfold serializeEvent. rewrite Hm, Hf, He.
  eapply (safe_post _ (running w' tx')); [by right|]. eapply safe_seq; [apply safe_ensure|exact Hs].
Qed.

Lemma safe_refused w w' tx tx' e err : MessageStart e = None → RejectFreeformStreamEvent e = Err err →
  safe (linked w tx) (serializeEvent wrote e) (linked w' tx').
Proof. intros Hm Hf v r _. unfold serializeEvent. rewrite Hm, Hf. by exists r. Qed.

Lemma safe_messageStart w tx m : safe (linked w tx) (serializeEvent wrote (ev_message_start m)) (linked w tx).
Proof.
  intros v r Hl. cbn. unfold serializeStart. destruct (sv_started v) eqn:Es; exists r; (split; [done|]); [done|]. intros ? [= <-].
  destruct Hl as [(Hf & ? & ?)|[[th []]|([] & _)]]; [|congruence..]. left. split; [|done]. destruct Hf. by split.
Qed.

Lemma safe_event w w' tx e : sees w w' e → (ThinkingDelta e = None ∨ tx = false) →
  safe (linked w tx) (serializeEvent wrote e) (linked w' (textAfter tx e)).
Proof.
  intros Hs Hth. destruct Hs as [e Hm Ht Hq|t Hm Hnew Ht|d Hm Hin Ht|i Hm Hin Ht|f Hm Hnone Ht Hm'|u Ht Hm|x|m Ht Hm].
  - apply safe_plain; [by destruct Hq..|]. apply safe_content; [done|]. intros th. rewrite <- Ht.
    destruct Hq as [s|s|s|b|i|]; cbn.
    + eapply safe_to; [done|]. eapply safe_seq; [apply safe_closeThinking|]. eapply safe_seq; [apply safe_openText|].
      apply (safe_delta false true _ WireText (λ i, FTextDelta i s)); [apply open_text|done].
    + destruct Hth as [|Hth]; [done|]. subst tx. eapply safe_to; [done|]. eapply safe_seq; [apply safe_openThinking|].
      apply (safe_delta true false _ WireThinking (λ i, FThinkingDelta i s)); [apply open_thinking|done].
    + intros v r Hc. rewrite (ct_thinking _ _ _ _ _ Hc). pose proof (ct_one _ _ _ _ _ Hc). destruct th; [|by exists r]. destruct tx; [done|].
      revert v r Hc. eapply safe_to; [done|].
      apply (safe_delta true false _ WireThinking (λ i, FSignatureDelta i s)); [apply open_thinking|done].
    + destruct (bs_kind b); cbn.
      * eapply safe_to; [done|]. eapply safe_seq; [apply safe_closeThinking|apply safe_openText].
      * eapply safe_to; [done|]. eapply safe_seq; [apply safe_closeText|apply safe_openThinking].
      * intros v r Hc. by exists r.
      * eapply safe_to; [done|]. intros v r Hc. exists r. split; [done|]. by intros ? [= <-].
    + eapply safe_to; [done|]. apply safe_closeBoth.
    + eapply safe_to; [done|]. intros v r Hc. exists r. split; [done|]. by intros ? [= <-].
  - destruct (RejectFreeformStreamEvent (ev_tool_start t)) as [[]|] eqn:Er; [|by eapply safe_refused].
    apply safe_plain; [done..|]. apply safe_content; [done|]. intros th. cbn. eapply (safe_to _ _ false); [by rewrite Ht, dom_insert_L|].
    eapply safe_seq; [apply safe_closeThinking|]. eapply safe_seq; [apply safe_closeText|]. by apply safe_toolStart.
  - destruct (RejectFreeformStreamEvent (ev_tool_delta d)) as [[]|] eqn:Er; [|by eapply safe_refused].
    apply safe_plain; [done..|]. apply safe_content; [done|]. intros th. cbn. eapply safe_to; [by rewrite Ht|]. by apply safe_toolDelta.
  - apply safe_plain; [done..|]. apply safe_content; [done|]. intros th. cbn. eapply safe_to; [by rewrite Ht, dom_delete_L|].
    by apply safe_toolEnd.
  - apply safe_plain; [done..|]. apply safe_content; [done|]. intros th. rewrite Hnone, dom_empty_L. cbn. unfold textAfter. cbn.
    destruct (String.eqb_spec f ""); cbn.
    + eapply (safe_to _ _ th); [by rewrite Ht, dom_empty_L|]. intros v r Hc. exists r. split; [done|]. by intros ? [= <-].
    + eapply (safe_post _ closing); [intros v r Hc; by right|].
      eapply safe_seq; [apply safe_closeThinking|]. eapply safe_seq; [apply safe_closeText|]. apply safe_finish.
  - apply safe_plain; [done..|]. eapply safe_post; [|apply safe_usage]. intros v r. unfold running. by rewrite Ht, Hm.
  - intros v r Hl. destruct (safe_errorEvent w tx x v r Hl) as (r' & Hw & Hv). exists r'. split; [exact Hw|]. intros v' Hv'. by destruct (Hv v').
  - cbn. eapply safe_post; [|apply safe_messageStart]. intros v r. unfold linked, running. by rewrite Ht, Hm.
Qed.

(** ** The whole stream *)

Lemma safe_messageStop (P : serVars → wire → Prop) : (∀ v r, P v r → wr_phase r ∈ [WireContent; WireClosing] ∧ wr_open r = ∅) →
  safe P (emit wrote FMessageStop) (λ _ r, wr_phase r = WireEnded).
Proof.
  intros HP. apply (safe_emit _ _ (λ _, FMessageStop) id). intros v r Hp. cbn [wireStep]. unfold wireClose.
  rewrite bool_decide_true by by apply (HP v). by eexists.
Qed.

Lemma safe_end w tx : openTools w = ∅ → safe (linked w tx) (serializeEnd wrote ctxErr) (λ _ r, wr_phase r = WireEnded).
Proof.
  intros Hno. unfold serializeEnd. destruct ctxErr; [intros v r _; by exists r|].
  eapply safe_seq; [apply safe_ensure|]. intros v r [[th Hc]|(Hc & _)].
  - rewrite Hno, dom_empty_L in Hc. revert v r Hc. eapply safe_seq; [apply safe_closeThinking|]. eapply safe_seq; [apply safe_closeText|].
    eapply (safe_seq _ (λ v r, wr_phase r ∈ [WireContent; WireClosing] ∧ wr_open r = ∅)); [|by apply safe_messageStop].
    intros v r Hc. pose proof (content_empty _ _ Hc) as Ho. destruct (sv_pendingUsage v) as [u|].
    + clear Ho. revert v r Hc. apply (safe_emit _ _ (λ _, FMessageDelta None (Some u)) id). intros v r Hc. cbn [wireStep]. unfold wireClose.
      pose proof (content_empty _ _ Hc) as Ho. rewrite bool_decide_true by (split; [rewrite (ct_phase _ _ _ _ _ Hc); set_solver|done]).
      eexists. split; [done|]. cbn. split; [set_solver|done].
    + exists r. split; [done|]. intros ? _. rewrite (ct_phase _ _ _ _ _ Hc). split; [set_solver|done].
  - unfold safe. match goal with |- context [?op v] => assert (op v = emit wrote FMessageStop v) as -> end.
    { unfold ser_seq, closeThinking, closeText. rewrite (cl_thinking _ _ Hc), (cl_text _ _ Hc), (cl_usage _ _ Hc). by destruct (emit _ _ _). }
    apply (safe_messageStop closing); [|done]. intros v' r' [_ _ Hp Ho _ _ _]. rewrite Hp. split; [set_solver|done].
Qed.

Lemma walkR_error w ev w' : walkR w ev = Ok w' → (∃ c m, ev = EvError c m) ∨ sawError w' = false.
Proof.
  intros Hw. destruct w as [nt ot sn se ms sp st ps].
  destruct ev as [s|s|role id model|idx b|idx|idx args input|sig|reason|a b c d|code msg|]; try destruct b; split_walk Hw; eauto.
Qed.

Lemma safe_loop evs : ∀ n w t tx w' t' outs, walker_inv w → tracks w t → sawError w = false →
  walkAll w evs = Ok w' → walker_end w' = Ok tt → convertAll t evs = Ok (t', outs) → thinkingApart tx outs = true →
  safe (linked w tx) (serializeLoop wrote received ctxErr n outs) (λ _ r, wr_phase r = WireEnded).
Proof.
  induction evs as [|ev evs IH]; intros n w t tx w' t' outs Hi Ht Hse Hw Hend Hc Hth.
  - injection Hw as <-. injection Hc as <- <-. cbn. destruct (received n); cbn; [|intros v r _; by exists r].
    apply safe_end. revert Hend. unfold walker_end. rewrite Hse. cbn [negb andb].
    destruct (bool_decide (openTools w ≠ ∅)) eqn:Eo; [by rewrite orb_true_r|]. intros _. apply bool_decide_eq_false in Eo. by apply dec_stable.
  - unfold walkAll in Hw. cbn [foldM] in Hw. apply res_bind_ok in Hw as (w1 & Hw1 & Hw2).
    destruct (walk_tracks w t ev w1 Hi Ht Hw1) as (t1 & e & He & Ht1). cbn [convertAll] in Hc. rewrite He in Hc. cbn in Hc.
    destruct (convertAll t1 evs) as [[t2 es]|] eqn:Ec; [|done]. injection Hc as <- <-.
    cbn [thinkingApart] in Hth. apply andb_true_iff in Hth as [Hth1 Hth2]. cbn [serializeLoop].
    destruct (received n); cbn [negb]; [|intros v r _; by exists r].
    destruct (walkR_error _ _ _ Hw1) as [(c & m & ->)|Hse1].
    + injection He as <- <-. intros v r Hl. destruct (safe_errorEvent w tx (mkStreamError c m) v r Hl) as (r' & Hwr & Hno).
      exists r'. unfold ser_seq. change (serializeEvent wrote (ev_error (mkStreamError c m))) with (serializeContent wrote (ev_error (mkStreamError c m))).
      destruct (serializeContent wrote _ v) as [fs [v1|er]]; [by destruct (Hno v1 eq_refl)|]. done.
    + eapply safe_seq; [eapply (safe_event w w1 tx e); [by eapply walk_sees|]|].
      * apply orb_true_iff in Hth1 as [H1%bool_decide_eq_true|H1%negb_true_iff]; auto.
      * eapply IH; eauto using walkR_inv.
Qed.
End Serializer.

(** C39. The frames Anthropic clients receive are well formed: serializing what the host
    forwards of a complete disciplined stream, in which no thinking delta arrives while
    text is being written, yields frames a client's accumulator accepts, wherever the
    request is cancelled or a write fails: one message start, blocks numbered
    consecutively, deltas only to an open block of their kind, no closing frame while a
    block is open; and a result without an error has ended the message. *)
Theorem anthropic_wire_grammar wrote received ctxErr evs w t outs :
  walkAll walker0 evs = Ok w → walker_end w = Ok tt → convertAll tracker0 evs = Ok (t, outs) → thinkingApart false outs = true →
  let '(frames, result) := SerializeStream wrote received ctxErr outs in
  ∃ r, wireAll wire0 frames = Some r ∧ (result = Ok tt → wr_phase r = WireEnded).
Proof.
  intros Hw Hend Hc Hth.
  destruct (safe_loop wrote received ctxErr evs 0 _ _ _ _ _ _ walker_inv_0 tracks_0 eq_refl Hw Hend Hc Hth serVars0 wire0) as (r & Hr & Hq).
  { left. split; [|done]. by split. }
  unfold SerializeStream. destruct (serializeLoop _ _ _ _ _ _) as [fs o]. cbn in *. exists r. split; [done|].
  destruct o as [v|e]; [|done]. intros _. by apply (Hq v).
Qed.

(** ** A turn with thinking, text and a tool call *)

Definition toolTurn : list pbEvent :=
  [EvMessageStart "assistant" "msg_1" "m"; EvContentBlockStart 0 BlockThinking; EvThinkingDelta "hm"; EvSignatureDelta "sig";
   EvContentBlockStop 0; EvTextDelta "Let me look."; EvContentBlockStart 4 (BlockToolCall (mkToolCallRef "toolu_1" "search" "" 0));
   EvToolCallDelta 4 "{}" None; EvContentBlockStop 4; EvUsage 3 5 0 0; EvMessageStop "tool_calls"].
Definition turnEvents (evs : list pbEvent) : list StreamEvent :=
  match convertAll tracker0 evs with Ok (_, es) => es | Err _ => [] end.

Lemma anthropic_wire_grammar_witness :
  let '(frames, result) := SerializeStream always always false (turnEvents toolTurn) in
  result = Ok tt ∧ ∃ r, wireAll wire0 frames = Some r ∧ wr_phase r = WireEnded.
Proof.
  destruct (walkAll walker0 toolTurn) as [w|] eqn:Ew; [|vm_compute in Ew; discriminate Ew].
  destruct (convertAll tracker0 toolTurn) as [[t outs]|] eqn:Ec; [|vm_compute in Ec; discriminate Ec].
  assert (Ho : turnEvents toolTurn = outs) by (unfold turnEvents; by rewrite Ec).
  assert (Hend : walker_end w = Ok tt) by (vm_compute in Ew; injection Ew as <-; reflexivity).
  assert (Hth : thinkingApart false outs = true) by (rewrite <- Ho; vm_compute; reflexivity).
  pose proof (anthropic_wire_grammar always always false toolTurn w t outs Ew Hend Ec Hth) as H.
  assert (Hr : (SerializeStream always always false outs).2 = Ok tt) by (rewrite <- Ho; vm_compute; reflexivity).
  rewrite Ho. destruct (SerializeStream always always false outs) as [frames result]. split; [exact Hr|].
  destruct H as (r & H1 & H2). exists r. split; [exact H1|]. apply H2. exact Hr.
Defined.

(** ** Thinking after text

    A disciplined stream may send bare deltas, as the native Anthropic parser does
    without [ExplicitBlocks].  A thinking delta does not close the text block, so both
    blocks get one index, and the text that follows goes to a block that never started. *)

Definition thinkingAfterText : list pbEvent := [EvTextDelta "a"; EvThinkingDelta "b"; EvTextDelta "c"; EvMessageStop "stop"].

Lemma thinking_after_text_breaks_wire :
  is_ok (w ←? walkAll walker0 thinkingAfterText; walker_end w) = true
  ∧ (SerializeStream always always false (turnEvents thinkingAfterText)).2 = Ok tt
  ∧ wireAll wire0 (SerializeStream always always false (turnEvents thinkingAfterText)).1 = None
  ∧ FThinkingStart 0 ∈ (SerializeStream always always false (turnEvents thinkingAfterText)).1
  ∧ FTextDelta 1 "c" ∈ (SerializeStream always always false (turnEvents thinkingAfterText)).1
  ∧ FTextStart 1 ∉ (SerializeStream always always false (turnEvents thinkingAfterText)).1.
Proof.
  vm_compute. split; [reflexivity|]. split; [reflexivity|]. split; [reflexivity|].
  split; [by repeat constructor|]. split; [by repeat constructor|]. intros H. repeat (apply elem_of_cons in H as [H|H]; [discriminate|]). by apply elem_of_nil in H.
Qed.
