(* ===== verification/AnthropicRoundTrip.v ===== *)
(** * Serializing and parsing an Anthropic stream

    The JSON reader reads the payload of a frame back: [payload_tree] gives its text as
    an object, [object_sound] the value the reader finds in such a text, [tree_decodes]
    the struct it fills.  [anthropic_round_trip]: what the serializer writes for a
    canonical turn, the bridge's parser reads back event by event. *)

From stdpp Require Import base list strings gmap sets numbers pretty.
From Stdlib Require Import Ascii.
From S2P Require Import Prelude ByteStrings Utf8 StreamEvents GoStrings Framing BridgeStream RawJSON RawJSONGrammar RawJSONEdits AnthropicStream.

Open Scope Z_scope.

(** ** Text that is read back

    [parsed d t v]: with [d] levels left, a text that starts with [t] is read as the
    value [v], and the reader stops after [t]. *)

Definition parsed (d : nat) (t : bytes) (v : jsonVal) : Prop :=
  ∀ rest, ends_value rest → readValue d (t ++ rest) = Some (v, rest).
Definition plain (t : bytes) : Prop := Forall (λ c, 0x20 ≤ c < 256) t.

Lemma skipBlank_id c l : isJSONSpace c = false → skipBlank (c :: l) = c :: l.
Proof. intros Hc. unfold skipBlank. cbn [spaces]. by rewrite Hc. Qed.

Lemma readString_marshal s rest : ValidString s = true → ∃ body, Marshal s = quote :: body ∧ readString (body ++ rest) = Some (s, rest).
Proof.
  intros Hs. pose proof (unmarshal_marshal s Hs) as Hu. destruct (Marshal_string s Hs) as (b & Hb & E). rewrite E in *.
  exists (b ++ [quote]). split; [done|]. unfold readString. rewrite <- app_assoc. cbn [app]. rewrite (stringBody_chars b rest Hb). cbn [mbind option_bind].
  replace (b ++ quote :: rest) with ((b ++ [quote]) ++ rest) by (by rewrite <- app_assoc).
  replace (S (length b)) with (length (b ++ [quote])) by (rewrite length_app; cbn; lia).
  by rewrite take_app_length, Hu, drop_app_length.
Qed.

Lemma parsed_string d s : ValidString s = true → parsed d (Marshal s) (JString s).
Proof.
  intros Hs rest _. destruct (readString_marshal s rest Hs) as (body & -> & Hr). cbn [app].
  destruct d; unfold readValue; rewrite skipBlank_id by done; change (quote =? quote) with true; cbv iota; by rewrite Hr.
Qed.

Lemma scalar_head c : scalar_byte c = true → isJSONSpace c = false ∧ (c =? quote) = false ∧ (c =? lbrace) = false ∧ (c =? lbracket) = false.
Proof.
  unfold scalar_byte, neutral, isDelimiter. rewrite !andb_true_iff, !negb_true_iff, !orb_false_iff. tauto.
Qed.

Lemma parsed_scalar d t v : t ≠ [] → Forall (λ c, scalar_byte c = true) t →
  readScalar t = Some (v, []) → parsed d t v.
Proof.
  intros Hne Ht Hv rest Hr. assert (readScalar (t ++ rest) = Some (v, rest)) as E.
  { revert Hv. unfold readScalar. rewrite (scalarLen_app t rest Ht Hr). pose proof (scalarLen_app t [] Ht I) as E. rewrite app_nil_r in E. rewrite E.
    rewrite take_app_length, drop_app_length, take_ge by lia.
    destruct (bool_decide _); [by intros [= <-]|]. destruct (bool_decide _); [by intros [= <-]|].
    destruct (bool_decide _); [by intros [= <-]|]. destruct (validNumber t); [by intros [= <-]|done]. }
  destruct t as [|c t]; [done|]. apply Forall_cons in Ht as [Hc _]. destruct (scalar_head c Hc) as (H1 & H2 & H3 & H4). cbn [app] in *.
  destruct d; unfold readValue; rewrite (skipBlank_id _ _ H1), H2, H3, H4; exact E.
Qed.

Lemma parsed_null d : parsed d (lit "null") JNull.
Proof. apply parsed_scalar; [done|by repeat constructor|done]. Qed.

Lemma parsed_noElements d : parsed (S d) (lit "[]") (JArray []).
Proof. intros rest _. done. Qed.

(** An object written without whitespace: keys, the text of their values, the values. *)
Definition triple : Type := string * (bytes * jsonVal).
Fixpoint restText (ms : list triple) : bytes :=
  match ms with
  | [] => [rbrace]
  | (k, (t, _)) :: ms => comma :: Marshal (lit k) ++ colon :: t ++ restText ms
  end.
Definition objectText (ms : list triple) : bytes :=
  match ms with
  | [] => [lbrace; rbrace]
  | (k, (t, _)) :: ms => lbrace :: Marshal (lit k) ++ colon :: t ++ restText ms
  end.
Definition membersOf (ms : list triple) : list (bytes * jsonVal) := (λ m, (lit m.1, m.2.2)) <$> ms.
Definition memberParsed (d : nat) (m : triple) : Prop := ValidString (lit m.1) = true ∧ parsed d m.2.1 m.2.2.

Lemma readMembers_step d k t v n c rest : memberParsed d (k, (t, v)) → isDelimiter c = true → isJSONSpace c = false →
  readMembers (readValue d) (S n) (Marshal (lit k) ++ colon :: t ++ c :: rest)
  = if c =? rbrace then Some ([(lit k, v)], rest)
    else if c =? comma then '(ms, l) ← readMembers (readValue d) n rest; Some ((lit k, v) :: ms, l) else None.
Proof.
  intros [Hk Ht] Hd Hc. cbn [fst snd] in *. destruct (readString_marshal (lit k) (colon :: t ++ c :: rest) Hk) as (body & -> & Hr).
  cbn [app readMembers]. rewrite skipBlank_id by done. change (quote =? quote) with true. cbn [negb]. rewrite Hr. cbn [mbind option_bind].
  rewrite skipBlank_id by done. change (colon =? colon) with true. cbn [negb]. rewrite (Ht (c :: rest)) by done. cbn [mbind option_bind].
  by rewrite skipBlank_id.
Qed.

Lemma readMembers_text d ms rest : Forall (memberParsed d) ms → ∀ k t v n, memberParsed d (k, (t, v)) → (length ms < n)%nat →
  readMembers (readValue d) n ((Marshal (lit k) ++ colon :: t ++ restText ms) ++ rest) = Some (membersOf ((k, (t, v)) :: ms), rest).
Proof.
  induction 1 as [|[k' [t' v']] ms Hm' _ IH]; intros k t v n Hm Hn; (destruct n as [|n]; [cbn in Hn; lia|]);
    rewrite <- app_assoc; cbn [app]; rewrite <- app_assoc; cbn [restText app]; rewrite (readMembers_step _ _ _ _ _ _ _ Hm) by done; [done|].
  change (comma =? rbrace) with false. change (comma =? comma) with true. cbv iota. rewrite (IH k' t' v' n Hm') by (cbn in Hn; lia). done.
Qed.

Lemma restText_length ms : (length ms < length (restText ms))%nat.
Proof. induction ms as [|[k [t v]] ms IH]; cbn [restText length]; [lia|]. rewrite length_app. cbn [length]. rewrite length_app. lia. Qed.

Lemma parsed_object d ms : Forall (memberParsed d) ms → parsed (S d) (objectText ms) (JObject (membersOf ms)).
Proof.
  intros Hms rest _. destruct Hms as [|[k [t v]] ms Hm Hms]; [done|]. cbn [objectText app readValue].
  rewrite skipBlank_id by done. change (lbrace =? quote) with false. change (lbrace =? lbrace) with true. cbv iota.
  assert (byteAt (skipBlank ((Marshal (lit k) ++ colon :: t ++ restText ms) ++ rest)) 0 rbrace = false) as ->.
  { unfold Marshal. cbn [app]. by rewrite skipBlank_id. }
  rewrite (readMembers_text d ms rest Hms k t v _ Hm); [done|]. rewrite !length_app. cbn [length]. rewrite length_app.
  pose proof (restText_length ms). lia.
Qed.

(** ** Strings and numbers *)

Lemma lit_app s t : lit (s +:+ t) = lit s ++ lit t.
Proof.
  induction s as [|c s IH]; [done|]. change (lit (String c s +:+ t)) with (Z.of_N (N_of_ascii c) :: lit (s +:+ t)). by rewrite IH.
Qed.

Lemma hexDigit_range n : 0 ≤ n < 16 → 0x20 ≤ hexDigit n < 256.
Proof. intros Hn. unfold hexDigit. destruct (n <=? 9) eqn:E; lia. Qed.

Lemma escapeRune_plain r : validRune r = true → Forall isByte (encodeRune r) → plain (escapeRune r).
Proof.
  intros Hv Hb. pose proof (proj1 (validRune_spec r) Hv) as Hr. unfold plain, escapeRune, escapeAscii, quote, backslash. destruct (Z.leb_spec r 0x7F) as [Hle|Hgt].
  - destruct (htmlSafe r) eqn:E.
    { unfold htmlSafe in E. apply andb_true_iff in E as [E%within_spec _]. repeat constructor; lia. }
    destruct (_ || _) eqn:E1. { apply orb_true_iff in E1 as [?%Z.eqb_eq|?%Z.eqb_eq]; unfold backslash, quote in *; subst; repeat constructor; lia. }
    do 5 (match goal with |- context [if r =? ?k then _ else _] => destruct (r =? k) end; [repeat constructor; lia|]).
    pose proof (Z.mod_pos_bound r 16 ltac:(lia)). assert (0 ≤ r / 16 < 16) by (split; [apply Z.div_pos|apply Z.div_lt_upper_bound]; lia).
    repeat (apply Forall_cons_2; [first [apply hexDigit_range; lia|lia]|]). constructor.
  - destruct (_ || _). { pose proof (Z.mod_pos_bound r 16 ltac:(lia)). repeat (apply Forall_cons_2; [first [apply hexDigit_range; lia|lia]|]). constructor. }
    pose proof (encodeRune_high r Hv ltac:(lia)) as Hh. apply Forall_forall. intros c Hc. rewrite Forall_forall in Hb, Hh.
    specialize (Hb c Hc). specialize (Hh c Hc). unfold isByte in Hb. cbn in Hh. lia.
Qed.

Lemma Marshal_plain s : ValidString s = true → Forall isByte s → plain (Marshal s).
Proof.
  intros (rs & Hrs & ->)%ValidString_runes Hb. rewrite (Marshal_runes _ Hrs). unfold quote. apply Forall_cons_2; [lia|].
  apply Forall_app_2; [|by repeat constructor]. unfold encodeAll in Hb. induction Hrs as [|r rs Hr _ IH]; [constructor|]. cbn in *.
  apply Forall_app in Hb as [Hb1 Hb2]. apply Forall_app_2; [by apply escapeRune_plain|by apply IH].
Qed.

Lemma plain_bytes t : plain t → lit (bstr t) = t.
Proof. intros Ht. apply lit_bstr. eapply Forall_impl; [exact Ht|]. unfold isByte. cbn. lia. Qed.
Lemma lit_jsonString s : isText s → lit (jsonString s) = Marshal (lit s).
Proof. intros Hs. apply plain_bytes, Marshal_plain; [done|apply lit_bytes]. Qed.

(** The digits [fmt] writes for an int. *)
Definition isInt (z : Z) : Prop := - 2 ^ 63 ≤ z < 2 ^ 63.

Lemma go_digits (n : N) s : (0 < n)%N → Forall (λ c, 0x30 ≤ c ≤ 0x39) (lit s) →
  ∃ c t, lit (pretty_N_go n s) = c :: t ∧ 0x31 ≤ c ≤ 0x39 ∧ Forall (λ c, 0x30 ≤ c ≤ 0x39) t.
Proof.
  revert s. induction (N.lt_wf_0 n) as [n _ IH]. intros s Hn Hs. rewrite pretty_N_go_step by done.
  destruct (digit_char (n `mod` 10)%N) as [_ Hd]; [apply N.mod_lt; lia|]. pose proof (N.mod_lt n 10 ltac:(lia)). pose proof (N.div_mod n 10 ltac:(lia)).
  destruct (N.eq_0_gt_0_cases (n / 10)%N) as [Hz|Hp].
  - rewrite Hz, pretty_N_go_0. cbn [lit]. eexists _, _. split; [done|]. split; [|done]. assert (0 < n `mod` 10)%N by lia. lia.
  - apply (IH (n / 10)%N); [apply N.div_lt; lia|done|]. cbn [lit]. constructor; [|done]. clear -Hd H. revert Hd H. generalize (n `mod` 10)%N. lia.
Qed.

Lemma digitRun_all t : Forall (λ c, 0x30 ≤ c ≤ 0x39) t → digitRun t = length t.
Proof. induction 1 as [|c t Hc _ IH]; [done|]. cbn. rewrite (proj2 (within_spec _ _ _)) by lia. by rewrite IH. Qed.

Lemma pretty_N_number (n : N) : ∃ c t, lit (pretty n) = c :: t ∧ 0x30 ≤ c ≤ 0x39 ∧ Forall (λ c, 0x30 ≤ c ≤ 0x39) t
  ∧ validNumber (c :: t) = true.
Proof.
  unfold pretty, pretty_N. case_decide as Hz; [by eexists _, _|].
  destruct (go_digits n "" ltac:(lia) ltac:(constructor)) as (c & t & -> & Hc & Ht). exists c, t. split; [done|]. split; [lia|]. split; [done|].
  unfold validNumber, dropSign. rewrite bool_decide_eq_false_2 by (rewrite list_elem_of_singleton; lia).
  rewrite (proj2 (Z.eqb_neq c _)) by lia. rewrite (proj2 (within_spec _ _ _)) by lia. by rewrite digitRun_all, drop_all.
Qed.

Lemma digit_scalar c : 0x30 ≤ c ≤ 0x39 → scalar_byte c = true.
Proof. intros Hc. pose proof (digits_scalar [c] (proj2 (Forall_singleton _ c) Hc)) as H. by apply Forall_cons in H as [H _]. Qed.

Lemma readScalar_number t : t ≠ [] → Forall (λ c, scalar_byte c = true) t → validNumber t = true → readScalar t = Some (JNumber t, []).
Proof.
  intros Hne Ht Hv. unfold readScalar. pose proof (scalarLen_app t [] Ht I) as E. rewrite app_nil_r in E. rewrite E, take_ge, drop_ge by lia.
  rewrite !bool_decide_eq_false_2 by (intros ->; done). by rewrite Hv.
Qed.

Lemma int_text (z : Z) : Forall (λ c, scalar_byte c = true ∧ 0x20 ≤ c < 256) (lit (pretty z)) ∧ lit (pretty z) ≠ [] ∧ validNumber (lit (pretty z)) = true.
Proof.
  assert (∀ c, 0x30 ≤ c ≤ 0x39 → scalar_byte c = true ∧ 0x20 ≤ c < 256) as Hd.
  { intros c Hc. split; [by apply digit_scalar|lia]. }
  destruct z as [|p|p].
  - split; [apply Forall_singleton, Hd; done|]. by vm_compute.
  - change (pretty (Z.pos p)) with (pretty (N.pos p)). destruct (pretty_N_number (N.pos p)) as (c & t & -> & Hc & Ht & Hv).
    split; [|done]. constructor; [by apply Hd|]. by eapply Forall_impl.
  - change (lit (pretty (Z.neg p))) with (0x2D :: lit (pretty (N.pos p))). destruct (pretty_N_number (N.pos p)) as (c & t & -> & Hc & Ht & Hv).
    split; [constructor; [split; [done|lia]|]; constructor; [by apply Hd|by eapply Forall_impl]|]. split; [done|].
    revert Hv. unfold validNumber, dropSign. rewrite (bool_decide_eq_false_2 (c ∈ _)) by (rewrite list_elem_of_singleton; lia).
    by rewrite bool_decide_eq_true_2 by (by apply list_elem_of_singleton).
Qed.

Lemma parsed_int d (z : Z) : parsed d (lit (pretty z)) (JNumber (lit (pretty z))).
Proof.
  destruct (int_text z) as (Ht & Hne & Hv). assert (Forall (λ c, scalar_byte c = true) (lit (pretty z))) as Hs by (eapply Forall_impl; [exact Ht|]; naive_solver).
  apply parsed_scalar; [done|done|]. by apply readScalar_number.
Qed.

Lemma Atoi_int z : isInt z → Atoi (bstr (lit (pretty z))) = Some z.
Proof.
  intros [Hlo Hhi]. rewrite bstr_lit. destruct z as [|p|p]; [done|apply (Atoi_pretty (N.pos p)); lia|].
  change (pretty (Z.neg p)) with (String "-" (pretty (N.pos p))). unfold Atoi, decimal.
  destruct (String.eqb_spec (pretty (N.pos p)) "") as [E|_]; [by apply pretty_ne in E|]. rewrite digitsValue_pretty. cbn [fmap option_fmap option_map mbind option_bind].
  rewrite (proj2 (Z.leb_le _ _)), (proj2 (Z.ltb_lt _ _)) by lia. done.
Qed.

(** ** What a frame decodes to *)

Definition usageOf (u : StreamUsage) : usageEv :=
  mkUsageEv (su_input u) (su_output u) (Z.max 0 (su_cache_read u)) (Z.max 0 (su_cache_write u)).
Definition noDelta : deltaEv := mkDeltaEv "" "" "" "" "" "".

Definition decoded (f : frame) : sseEvent :=
  let start i b := mkSseEvent "content_block_start" i (Some b) None None None None in
  let delta i d := mkSseEvent "content_block_delta" i None (Some d) None None None in
  match f with
  | FMessageStart id role model =>
      mkSseEvent "message_start" 0 None None (Some (mkMessageEv id role model "" (Some (mkUsageEv 0 0 0 0)))) None None
  | FPing => mkSseEvent "ping" 0 None None None None None
  | FThinkingStart i => start i (mkContentBlockEv "thinking" "" "" "" "")
  | FTextStart i => start i (mkContentBlockEv "text" "" "" "" "")
  | FToolStart i id name => start i (mkContentBlockEv "tool_use" id name "" "")
  | FThinkingDelta i text => delta i (mkDeltaEv "thinking_delta" "" "" "" text "")
  | FSignatureDelta i sig => delta i (mkDeltaEv "signature_delta" "" "" "" "" sig)
  | FTextDelta i text => delta i (mkDeltaEv "text_delta" text "" "" "" "")
  | FInputDelta i args => delta i (mkDeltaEv "input_json_delta" "" args "" "" "")
  | FBlockStop i => mkSseEvent "content_block_stop" i None None None None None
  | FMessageDelta stop usage =>
      mkSseEvent "message_delta" 0 None (Some (mkDeltaEv "" "" "" (default "" stop) "" "")) None (usageOf <$> usage) None
  | FError message => mkSseEvent "error" 0 None None None None (Some (mkErrorEv "stream_error" message))
  | FMessageStop => mkSseEvent "message_stop" 0 None None None None None
  end.

(** ** The JSON of a frame *)

Definition str (s : string) : bytes * jsonVal := (Marshal (lit s), JString (lit s)).
Definition num (z : Z) : bytes * jsonVal := (lit (pretty z), JNumber (lit (pretty z))).
Definition nul : bytes * jsonVal := (lit "null", JNull).
Definition obj (ms : list triple) : bytes * jsonVal := (objectText ms, JObject (membersOf ms)).

Definition usageTree (u : StreamUsage) : list triple :=
  [("input_tokens", num (su_input u)); ("output_tokens", num (su_output u))]
  ++ (if 0 <? su_cache_read u then [("cache_read_input_tokens", num (su_cache_read u))] else [])
  ++ (if 0 <? su_cache_write u then [("cache_creation_input_tokens", num (su_cache_write u))] else []).

Definition tree (f : frame) : list triple :=
  let start i b := [("type", str "content_block_start"); ("index", num i); ("content_block", obj b)] in
  let delta i kind field s :=
    [("type", str "content_block_delta"); ("index", num i); ("delta", obj [("type", str kind); (field, str s)])] in
  match f with
  | FMessageStart id role model =>
      [("type", str "message_start");
       ("message", obj [("id", str id); ("type", str "message"); ("role", str role); ("model", str model); ("content", (lit "[]", JArray []));
                        ("stop_reason", nul); ("stop_sequence", nul); ("usage", obj [("input_tokens", num 0); ("output_tokens", num 0)])])]
  | FPing => [("type", str "ping")]
  | FThinkingStart i => start i [("type", str "thinking"); ("thinking", str "")]
  | FTextStart i => start i [("type", str "text"); ("text", str "")]
  | FToolStart i id name => start i [("type", str "tool_use"); ("id", str id); ("name", str name); ("input", obj [])]
  | FThinkingDelta i text => delta i "thinking_delta" "thinking" text
  | FSignatureDelta i sig => delta i "signature_delta" "signature" sig
  | FTextDelta i text => delta i "text_delta" "text" text
  | FInputDelta i args => delta i "input_json_delta" "partial_json" args
  | FBlockStop i => [("type", str "content_block_stop"); ("index", num i)]
  | FMessageDelta stop usage =>
      [("type", str "message_delta");
       ("delta", obj (match stop with Some r => [("stop_reason", str r); ("stop_sequence", nul)] | None => [] end))]
      ++ match usage with Some u => [("usage", obj (usageTree u))] | None => [] end
  | FError message => [("type", str "error"); ("error", obj [("type", str "stream_error"); ("message", str message)])]
  | FMessageStop => [("type", str "message_stop")]
  end.

(** What a frame carries. *)
Definition frameStrings (f : frame) : list string :=
  match f with
  | FMessageStart id role model => [id; role; model]
  | FToolStart _ id name => [id; name]
  | FThinkingDelta _ s | FSignatureDelta _ s | FTextDelta _ s | FInputDelta _ s | FError s => [s]
  | FMessageDelta (Some stop) _ => [stop]
  | _ => []
  end.
Definition frameInts (f : frame) : list Z :=
  match f with
  | FThinkingStart i | FTextStart i | FToolStart i _ _ | FThinkingDelta i _ | FSignatureDelta i _ | FTextDelta i _ | FInputDelta i _
  | FBlockStop i => [i]
  | FMessageDelta _ (Some u) => [su_input u; su_output u; su_cache_read u; su_cache_write u]
  | _ => []
  end.

(** Both sides down to the bytes: names are evaluated, what a frame carries is left. *)
Ltac frame_bytes :=
  unfold payload, usageJSON, usageTree, blockStartJSON, blockDeltaJSON, tree, str, num, nul, obj; cbn [app objectText restText fst snd];
  repeat match goal with
  | |- context [Marshal (lit ?s)] =>
      first [is_var s; fail 1|idtac]; let b := eval vm_compute in (Marshal (lit s)) in change (Marshal (lit s)) with b
  end;
  rewrite ?lit_app, ?lit_jsonString by tauto;
  repeat match goal with
  | |- context [Marshal ?x] => generalize (Marshal x); intros ?
  | |- context [lit (pretty ?x)] => assert_fails (unify x 0); generalize (lit (pretty x)); intros ?
  end;
  repeat first [progress cbn [app lit json Ascii.eqb] | rewrite <- app_assoc]; reflexivity.

Lemma payload_tree f : Forall isText (frameStrings f) → lit (payload f) = objectText (tree f).
Proof.
  intros Hs. destruct f as [id role model| | | |i id name|i t|i t|i t|i t|i|[stop|] [u|]|t|]; cbn [frameStrings] in Hs; rewrite ?Forall_cons in Hs;
    try (unfold payload, usageJSON, tree, usageTree; destruct (0 <? su_cache_read u), (0 <? su_cache_write u)); frame_bytes.
Qed.

(** Objects written from parsed and plain members are plain: a payload has no control
    characters, so it is one line. *)
Definition memberSound (d : nat) (m : triple) : Prop := memberParsed d m ∧ plain m.2.1.

Lemma key_plain k : isText k → plain (Marshal (lit k)).
Proof. intros Hk. apply Marshal_plain; [done|apply lit_bytes]. Qed.

Lemma member_plain d k t v l : memberSound d (k, (t, v)) → plain l → plain (Marshal (lit k) ++ colon :: t ++ l).
Proof.
  intros [[Hk _] Ht] Hl. apply Forall_app_2; [by apply key_plain|]. apply Forall_cons_2; [done|]. by apply Forall_app_2.
Qed.

Lemma object_sound d ms : Forall (memberSound d) ms → parsed (S d) (objectText ms) (JObject (membersOf ms)) ∧ plain (objectText ms).
Proof.
  intros Hms. split; [apply parsed_object; eapply Forall_impl; [exact Hms|]; by intros ? []|].
  assert (∀ l, Forall (memberSound d) l → plain (restText l)) as Hrest.
  { induction 1 as [|[k [t v]] l Hm _ IH]; [by repeat constructor|]. apply Forall_cons_2; [done|]. by apply (member_plain d k t v). }
  destruct Hms as [|[k [t v]] l Hm Hl]; [by repeat constructor|]. apply Forall_cons_2; [done|]. apply (member_plain d k t v); auto.
Qed.

Lemma tree_sound d f : Forall isText (frameStrings f) → Forall (memberSound (S (S d))) (tree f).
Proof.
  assert (∀ k (s : string), isText k → isText s → ∀ d, memberSound d (k, str s)) as Hstr.
  { intros k s Hk Hs e. split; [split; [done|by apply parsed_string]|by apply key_plain]. }
  assert (∀ k z, isText k → ∀ d, memberSound d (k, num z)) as Hnum.
  { intros k z Hk e. split; [split; [done|apply parsed_int]|]. destruct (int_text z) as [Hz _]. eapply Forall_impl; [exact Hz|]. by intros ? []. }
  assert (∀ k, isText k → ∀ d, memberSound d (k, nul)) as Hnul.
  { intros k Hk e. split; [split; [done|apply parsed_null]|]. by repeat constructor. }
  assert (∀ k ms, isText k → ∀ d, Forall (memberSound d) ms → memberSound (S d) (k, obj ms)) as Hobj.
  { intros k ms Hk e Hms. destruct (object_sound e ms Hms). by split. }
  assert (∀ d, memberSound (S d) ("content", (lit "[]", JArray []))) as Harr.
  { intros e. split; [split; [done|apply parsed_noElements]|]. by repeat constructor. }
  intros Hs. destruct f as [id role model| | | |i id name|i t|i t|i t|i t|i|[stop|] [u|]|t|]; cbn [frameStrings] in Hs; rewrite ?Forall_cons in Hs;
    unfold tree, usageTree; try destruct (0 <? su_cache_read u), (0 <? su_cache_write u); cbn [app]; destruct_and?;
    repeat match goal with
    | |- Forall _ [] => apply Forall_nil_2
    | |- Forall _ (_ :: _) => apply Forall_cons_2
    | |- memberSound _ (_, str _) => apply Hstr
    | |- memberSound _ (_, num _) => apply Hnum
    | |- memberSound _ (_, nul) => apply Hnul
    | |- memberSound _ (_, obj _) => apply Hobj
    | |- memberSound _ (_, (_, JArray [])) => apply Harr
    | |- isText ?s => first [is_var s; assumption|vm_compute; reflexivity]
    end.
Qed.
(** The members fill the fields of the structs. *)
Ltac carry_string s :=
  let b := fresh "b" in pose proof (eq_sym (bstr_lit s)) as Hb; revert Hb; generalize (lit s) as b; intros b ->.
Ltac carry_int z Hz :=
  let n := fresh "n" in let Hn := fresh "Hn" in
  pose proof (Atoi_int z Hz) as Hn; revert Hn; unfold num; generalize (lit (pretty z)) as n; intros n Hn.
Ltac fill :=
  pose proof (eq_refl : Atoi (bstr [48]) = Some 0); cbv -[bstr Atoi Z.max Z.ltb];
  repeat (match goal with H : Atoi _ = Some _ |- _ => rewrite H end; cbv -[bstr Atoi Z.max Z.ltb]); reflexivity.

Lemma tree_decodes f : Forall isInt (frameInts f) → intoStruct eventFields sseEvent0 (JObject (membersOf (tree f))) = Some (decoded f).
Proof.
  intros Hi.
  destruct f as [id role model| |i|i|i id name|i t|i t|i t|i t|i|[stop|] [[a b c d]|]|t|]; cbn [frameInts su_input su_output su_cache_read su_cache_write] in Hi;
    unfold decoded, usageOf, tree, usageTree, str, obj; cbn [fmap option_fmap option_map su_input su_output su_cache_read su_cache_write];
    try (rewrite !Forall_cons in Hi;
         first [destruct Hi as (H1 & H2 & H3 & H4 & _); carry_int a H1; carry_int b H2; carry_int c H3; carry_int d H4
               |destruct Hi as [Hi _]; carry_int i Hi]);
    try carry_string id; try carry_string role; try carry_string model; try carry_string name; try carry_string t; try carry_string stop;
    try (destruct (Z.ltb_spec 0 c); destruct (Z.ltb_spec 0 d); rewrite ?(Z.max_r 0 c), ?(Z.max_r 0 d), ?(Z.max_l 0 c), ?(Z.max_l 0 d) by lia); fill.
Qed.

(** A frame the line scanner and [encoding/json] carry: its strings are text, its
    numbers are ints, and its line fits the scanner's buffer. *)
Record carried (f : frame) : Prop := {
  ca_strings : Forall isText (frameStrings f);
  ca_ints : Forall isInt (frameInts f);
  ca_fits : Z.of_nat (String.length (payload f)) + 6 < MaxFrameBytes }.

Lemma unmarshal_payload f : carried f → unmarshalEvent (payload f) = Some (decoded f).
Proof.
  intros [Hs Hi _]. unfold unmarshalEvent, readDocument. rewrite (payload_tree f Hs).
  destruct (object_sound _ _ (tree_sound (Z.to_nat 9997) f Hs)) as [Hp _]. specialize (Hp [] I). rewrite app_nil_r in Hp.
  change (S (S (S (Z.to_nat 9997)))) with maxNestingDepth in Hp. rewrite Hp. cbn [mbind option_bind].
  rewrite bool_decide_eq_true_2 by done. by apply tree_decodes.
Qed.

(** The events of decoded frames, and the variables afterwards. *)
Fixpoint parseAll (s : StreamAdapter) (v : anthropicVars) (evs : list sseEvent) : list StreamEvent * option anthropicVars :=
  match evs with
  | [] => ([], Some v)
  | ev :: evs =>
      match parseFrame s v ev with
      | (es, Some v) => let '(fs, o) := parseAll s v evs in (es ++ fs, o)
      | (es, None) => (es, None)
      end
  end.

Lemma parseAll_app s v evs evs' es v' : parseAll s v evs = (es, Some v') →
  parseAll s v (evs ++ evs') = (es ++ (parseAll s v' evs').1, (parseAll s v' evs').2).
Proof.
  revert v es. induction evs as [|ev evs IH]; intros v es; cbn.
  - intros [= <- <-]. by destruct (parseAll s v evs').
  - destruct (parseFrame s v ev) as [es1 [v1|]]; [|done]. destruct (parseAll s v1 evs) as [es2 o] eqn:E. intros [= <- ->].
    rewrite (IH _ _ E). by rewrite app_assoc.
Qed.

(** ** From text to frames *)

Section Text.
Context (errText : string → string).

Lemma plain_free c s : plain (lit s) → Z.of_N (N_of_ascii c) < 0x20 → free c s.
Proof.
  unfold free, plain. intros Hs Hc. induction s as [|b s IH]; [done|]. cbn in *. apply Forall_cons in Hs as [Hb Hs]. rewrite (IH Hs), orb_false_r.
  destruct (Ascii.eqb_spec b c) as [->|]; [lia|done].
Qed.

Lemma payload_line f c : carried f → Z.of_N (N_of_ascii c) < 0x20 → free c (payload f).
Proof.
  intros [Hs _ _] Hc. apply plain_free; [|done]. rewrite (payload_tree f Hs). by destruct (object_sound _ _ (tree_sound 0 f Hs)).
Qed.

Lemma dropCR_free l : free "013" l → dropCR l = l.
Proof.
  unfold free. induction l as [|c l IH]; [done|]. cbn. intros [Hc Hl]%orb_false_iff. rewrite IH by done. destruct l; [|done].
  by rewrite Hc.
Qed.

Lemma tokens_cons l rest : rest ≠ [] → Z.of_nat (String.length l) < MaxFrameBytes → free "013" l →
  tokens (l :: rest) = (l :: (tokens rest).1, (tokens rest).2).
Proof.
  intros Hr Hl Hf. destruct rest as [|a rest]; [done|]. cbn -[MaxFrameBytes]. rewrite (proj2 (Z.ltb_lt _ _)) by done.
  rewrite (dropCR_free _ Hf). by destruct (match rest with [] => _ | _ => _ end).
Qed.

Lemma payload_object f : ∃ rest, payload f = String "{" rest.
Proof. destruct f as [| | | | | | | | | |[]| |]; cbn; eauto. Qed.

Definition eventLine (f : frame) : string := "event: " +:+ frameType f.
Definition dataLine (f : frame) : string := "data: " +:+ payload f.

Lemma frame_lines f rest : carried f →
  Split newlineByte (frameText f +:+ rest) = eventLine f :: dataLine f :: "" :: Split newlineByte rest.
Proof.
  intros Hf. assert (Hd : free newlineByte (dataLine f)) by exact (payload_line f newlineByte Hf eq_refl).
  assert (frameText f +:+ rest = eventLine f +:+ String newlineByte (dataLine f +:+ String newlineByte (String newlineByte rest))) as ->.
  { unfold frameText, eventLine, dataLine. by rewrite !sapp_assoc. }
  rewrite Split_app by (by destruct f). rewrite (Split_app _ _ _ Hd). done.
Qed.

Lemma eventLine_short f : Z.of_nat (String.length (eventLine f)) < MaxFrameBytes.
Proof.
  assert (String.length (eventLine f) ≤ 26)%nat by (apply Nat.leb_le; by destruct f). unfold MaxFrameBytes. lia.
Qed.

Lemma wire_lines fs : Forall carried fs →
  tokens (Split newlineByte (wireText fs)) = (concat ((λ f, [eventLine f; dataLine f; ""]) <$> fs), None).
Proof.
  induction 1 as [|f fs Hf _ IH]; [done|]. cbn [wireText foldr]. fold (wireText fs).
  rewrite (frame_lines _ _ Hf). pose proof (Split_ne newlineByte (wireText fs)) as Hne. pose proof (payload_line f "013" Hf eq_refl) as Hr. pose proof (ca_fits _ Hf) as Hl.
  rewrite (tokens_cons (eventLine f)); [|done|apply eventLine_short|by destruct f].
  rewrite (tokens_cons (dataLine f)); [|done|unfold dataLine; rewrite str_length_app; cbn [String.length]; lia|exact Hr].
  rewrite (tokens_cons ""); [|done|done|done]. by rewrite IH.
Qed.

Lemma parse_wire s fs : Forall carried fs → ∀ v,
  parseLines s errText v (concat ((λ f, [eventLine f; dataLine f; ""]) <$> fs)) None = (parseAll s v (decoded <$> fs)).1.
Proof.
  induction 1 as [|f fs Hf _ IH]; intros v; [done|]. cbn [fmap list_fmap concat app parseLines parseAll].
  assert (parseLine s errText v (eventLine f) = ([], Some v)) as -> by (by destruct f).
  assert (parseLine s errText v (dataLine f) = parseFrame s v (decoded f)) as ->.
  { destruct (payload_object f) as [rest Hp]. unfold parseLine, dataLine. rewrite Hp.
    change (HasPrefix ("data: " +:+ String "{" rest) "data: ") with true.
    change (TrimPrefix ("data: " +:+ String "{" rest) "data: ") with (String "{" rest). cbn [negb].
    change (String.eqb (String "{" rest) "" || String.eqb (String "{" rest) "[DONE]") with false.
    rewrite <- Hp. by rewrite (unmarshal_payload _ Hf). }
  cbn [app]. destruct (parseFrame s v (decoded f)) as [es [v'|]]; [|done].
  change (parseLine s errText v' "") with (@nil StreamEvent, Some v'). cbn [app]. rewrite IH.
  by destruct (parseAll s v' (decoded <$> fs)).
Qed.

Lemma ParseStream_frames s fs : Forall carried fs →
  ParseStream s errText (wireText fs) None = (parseAll s anthropicVars0 (decoded <$> fs)).1.
Proof. intros Hf. unfold ParseStream, NewScanner. rewrite (wire_lines _ Hf). by apply parse_wire. Qed.
End Text.

(** ** Canonical turns

    Content as the bridge's parser produces it: blocks numbered from 0 in the order
    they start, text and thinking in blocks of their own, at most one of which is open
    and none when a tool call starts. *)

Inductive canonicalTurn : Z → option bool → gset Z → list StreamEvent → Prop :=
| can_nil next : canonicalTurn next None ∅ []
| can_text next tools es : canonicalTurn next (Some false) tools es →
    canonicalTurn next None tools (ev_block_start (mkBlockStart next BlockKindText "") :: es)
| can_thinking next tools es : canonicalTurn next (Some true) tools es →
    canonicalTurn next None tools (ev_block_start (mkBlockStart next BlockKindThinking "") :: es)
| can_textDelta next tools s es : canonicalTurn next (Some false) tools es → canonicalTurn next (Some false) tools (ev_text s :: es)
| can_thinkingDelta next tools s es : canonicalTurn next (Some true) tools es → canonicalTurn next (Some true) tools (ev_thinking s :: es)
| can_signature next tools s es : canonicalTurn next (Some true) tools es → canonicalTurn next (Some true) tools (ev_signature s :: es)
| can_stop next o tools es : canonicalTurn (next + 1) None tools es → canonicalTurn next (Some o) tools (ev_block_stop next :: es)
| can_tool next tools id name es : canonicalTurn (next + 1) None ({[next]} ∪ tools) es →
    canonicalTurn next None tools (ev_tool_start (mkToolCallStart next id name "" ToolInvocationFunction) :: es)
| can_toolDelta next o tools i args es : i ∈ tools → canonicalTurn next o tools es →
    canonicalTurn next o tools (ev_tool_delta (mkToolCallDelta i args None) :: es)
| can_toolEnd next o tools i es : i ∈ tools → canonicalTurn next o (tools ∖ {[i]}) es →
    canonicalTurn next o tools (ev_tool_end i :: es).

Definition explicit : StreamAdapter := mkStreamAdapter true true.

(** What an operation of the serializer writes, the parser reads as [es]. *)
Definition reads (P : serVars → anthropicVars → Prop) (op : ser) (es : list StreamEvent) (Q : serVars → anthropicVars → Prop) : Prop :=
  ∀ v p, P v p → ∃ fs v' p', op v = (fs, Ok v') ∧ parseAll explicit p (decoded <$> fs) = (es, Some p') ∧ Q v' p'.

Lemma reads_seq P Q R a b es es' : reads P a es Q → reads Q b es' R → reads P (ser_seq a b) (es ++ es') R.
Proof.
  intros Ha Hb v p Hp. destruct (Ha v p Hp) as (fs & v1 & p1 & Ea & Hpa & H1). destruct (Hb v1 p1 H1) as (gs & v2 & p2 & Eb & Hpb & H2).
  exists (fs ++ gs), v2, p2. split; [unfold ser_seq; by rewrite Ea, Eb|]. split; [|done].
  rewrite fmap_app, (parseAll_app _ _ _ _ _ _ Hpa), Hpb. done.
Qed.

Lemma reads_skip P op : (∀ v p, P v p → op v = ([], Ok v)) → reads P op [] P.
Proof. intros H v p Hp. exists [], v, p. split; [eauto|done]. Qed.

Lemma reads_emit (P Q : serVars → anthropicVars → Prop) g upd es :
  (∀ v p, P v p → ∃ p', parseFrame explicit p (decoded (g v)) = (es, Some p') ∧ Q (countWrite (upd v)) p') →
  reads P (λ v, emit always (g v) (upd v)) es Q.
Proof.
  intros H v p Hp. destruct (H v p Hp) as (p' & Hf & Hq). exists [g v], (countWrite (upd v)), p'. split; [done|]. split; [|done].
  cbn. by rewrite Hf, app_nil_r.
Qed.

(** Serializer and parser in the middle of a canonical turn. *)
Definition kindName (thinking : bool) : string := if thinking then "thinking" else "text".
Record mid (next : Z) (o : option bool) (tools : gset Z) (v : serVars) (p : anthropicVars) : Prop := {
  md_started : sv_started v = true;
  md_finish : sv_finishWritten v = false;
  md_usage : sv_pendingUsage v = None;
  md_thinking : sv_inThinking v = match o with Some th => th | None => false end;
  md_text : sv_inText v = match o with Some th => negb th | None => false end;
  md_index : sv_blockIndex v = next;
  md_tools : ∀ t, sv_toolBlock v !! t = if decide (t ∈ tools) then Some t else None;
  md_below : ∀ t, t ∈ tools → t < next;
  md_types : ∀ i, av_blockTypes p !! i = if decide (i ∈ tools) then Some "tool_use" else if decide (i = next) then kindName <$> o else None;
  md_tokens : av_inputTokens p = 0 ∧ av_cacheRead p = 0 ∧ av_cacheWrite p = 0 }.

Lemma mid_same next o tools v p : mid next o tools v p → mid next o tools (countWrite v) p.
Proof. intros []. by split. Qed.

Lemma mid_fresh next o tools v p : mid next o tools v p → next ∉ tools.
Proof. intros Hm H%(md_below _ _ _ _ _ Hm). lia. Qed.

Lemma reads_started next o tools : reads (mid next o tools) (ensureStarted always) [] (mid next o tools).
Proof. apply reads_skip. intros v p Hm. unfold ensureStarted. by rewrite (md_started _ _ _ _ _ Hm). Qed.

Lemma reads_noThinking next tools : reads (mid next None tools) (closeThinking always) [] (mid next None tools).
Proof. apply reads_skip. intros v p Hm. unfold closeThinking. by rewrite (md_thinking _ _ _ _ _ Hm). Qed.
Lemma reads_noText next tools : reads (mid next None tools) (closeText always) [] (mid next None tools).
Proof. apply reads_skip. intros v p Hm. unfold closeText. by rewrite (md_text _ _ _ _ _ Hm). Qed.

Lemma reads_open next tools (th : bool) f :
  (∀ i, decoded (f i) = mkSseEvent "content_block_start" i (Some (mkContentBlockEv (kindName th) "" "" "" "")) None None None None) →
  reads (mid next None tools) (λ v, emit always (f (sv_blockIndex v)) (setBlocks th (negb th) (sv_blockIndex v) v))
    [ev_block_start (mkBlockStart next (if th then BlockKindThinking else BlockKindText) "")] (mid next (Some th) tools).
Proof.
  intros Hf. apply reads_emit. intros v p Hm. rewrite Hf. pose proof (mid_fresh _ _ _ _ _ Hm) as Hn.
  destruct Hm as [H1 H2 H3 H4 H5 H6 H7 H8 H9 H10]. rewrite H6. eexists. split; [by destruct th|].
  split; cbn; try done.
  intros i. destruct (decide (i = next)) as [->|Hne].
  - rewrite lookup_insert_eq, (decide_False (P := next ∈ tools)) by done. done.
  - rewrite lookup_insert_ne, H9 by done. case_decide; [done|]. by rewrite decide_False.
Qed.

Lemma reads_delta next o tools g e :
  (∀ p i, parseFrame explicit p (decoded (g i)) = ([e], Some p)) →
  reads (mid next o tools) (λ v, emit always (g (sv_blockIndex v)) v) [e] (mid next o tools).
Proof.
  intros Hg. apply (reads_emit _ _ (λ v, g (sv_blockIndex v)) id). intros v p Hm. exists p. split; [apply Hg|]. by apply mid_same.
Qed.

Lemma reads_close next th tools :
  reads (mid next (Some th) tools) (λ v, emit always (FBlockStop (sv_blockIndex v)) (setBlocks false false (sv_blockIndex v + 1) v))
    [ev_block_stop next] (mid (next + 1) None tools).
Proof.
  apply reads_emit. intros v p Hm. pose proof (mid_fresh _ _ _ _ _ Hm) as Hn.
  destruct Hm as [H1 H2 H3 H4 H5 H6 H7 H8 H9 H10]. rewrite H6. cbn. unfold onBlockStop. rewrite H9.
  rewrite decide_False, decide_True by done. cbn. eexists. split; [by destruct th|]. split; cbn; try done.
  - intros t Ht%H8. lia.
  - intros i. destruct (decide (i = next)) as [->|Hne].
    + rewrite lookup_delete_eq, (decide_False (P := next ∈ tools)) by done. by case_decide.
    + rewrite lookup_delete_ne, H9 by done. case_decide; [done|]. rewrite decide_False by done. by case_decide.
Qed.

Lemma reads_stop next th tools : reads (mid next (Some th) tools) (closeThinking always ⨟ closeText always) [ev_block_stop next] (mid (next + 1) None tools).
Proof.
  destruct th.
  - change [ev_block_stop next] with ([ev_block_stop next] ++ []). eapply reads_seq; [|apply reads_noText].
    intros v p Hm. unfold closeThinking. rewrite (md_thinking _ _ _ _ _ Hm), (md_text _ _ _ _ _ Hm). by apply (reads_close next true).
  - change [ev_block_stop next] with ([] ++ [ev_block_stop next]). eapply (reads_seq _ (mid next (Some false) tools)).
    + apply reads_skip. intros v p Hm. unfold closeThinking. by rewrite (md_thinking _ _ _ _ _ Hm).
    + intros v p Hm. unfold closeText. rewrite (md_thinking _ _ _ _ _ Hm), (md_text _ _ _ _ _ Hm). by apply (reads_close next false).
Qed.

Lemma reads_tool next tools id name :
  reads (mid next None tools)
    (λ v, emit always (FToolStart (sv_blockIndex v) id name) (setTools (sv_blockIndex v + 1) (<[next := sv_blockIndex v]> (sv_toolBlock v)) v))
    [ev_tool_start (mkToolCallStart next id name "" ToolInvocationFunction)] (mid (next + 1) None ({[next]} ∪ tools)).
Proof.
  apply reads_emit. intros v p Hm. destruct Hm as [H1 H2 H3 H4 H5 H6 H7 H8 H9 H10]. rewrite H6. eexists. split; [done|].
  split; cbn; try done.
  - intros t. destruct (decide (t = next)) as [->|Hne].
    + by rewrite lookup_insert_eq, decide_True by set_solver.
    + rewrite lookup_insert_ne, H7 by done. repeat case_decide; set_solver.
  - intros t. rewrite elem_of_union, elem_of_singleton. intros [->|Ht%H8]; lia.
  - intros i. destruct (decide (i = next)) as [->|Hne].
    + by rewrite lookup_insert_eq, decide_True by set_solver.
    + rewrite lookup_insert_ne, H9 by done. destruct (decide (i ∈ tools)); [by rewrite decide_True by set_solver|].
      rewrite !decide_False by set_solver. by case_decide.
Qed.

Lemma reads_toolDelta next o tools t args : t ∈ tools →
  reads (mid next o tools) (λ v, emit always (FInputDelta (blockOfTool v t) args) v) [ev_tool_delta (mkToolCallDelta t args None)] (mid next o tools).
Proof.
  intros Ht. apply (reads_emit _ _ (λ v, FInputDelta (blockOfTool v t) args) id). intros v p Hm. exists p. split; [|by apply mid_same].
  unfold blockOfTool. by rewrite (md_tools _ _ _ _ _ Hm), decide_True.
Qed.

Lemma reads_toolEnd next o tools t : t ∈ tools →
  reads (mid next o tools) (λ v, emit always (FBlockStop (blockOfTool v t)) (setTools (sv_blockIndex v) (delete t (sv_toolBlock v)) v))
    [ev_tool_end t] (mid next o (tools ∖ {[t]})).
Proof.
  intros Ht. apply reads_emit. intros v p Hm. pose proof (mid_fresh _ _ _ _ _ Hm) as Hn.
  destruct Hm as [H1 H2 H3 H4 H5 H6 H7 H8 H9 H10]. unfold blockOfTool. rewrite H7, decide_True by done. cbn.
  unfold onBlockStop. rewrite H9, decide_True by done. cbn. eexists. split; [done|]. split; cbn; try done.
  - intros t'. destruct (decide (t' = t)) as [->|Hne].
    + by rewrite lookup_delete_eq, decide_False by set_solver.
    + rewrite lookup_delete_ne, H7 by done. repeat case_decide; set_solver.
  - intros t' Ht'. apply H8. set_solver.
  - intros i. destruct (decide (i = t)) as [->|Hne].
    + rewrite lookup_delete_eq, !decide_False by set_solver. done.
    + rewrite lookup_delete_ne, H9 by done. destruct (decide (i ∈ tools)); [by rewrite decide_True by set_solver|].
      by rewrite (decide_False (P := i ∈ tools ∖ {[t]})) by set_solver.
Qed.

(** ** The whole turn *)

Definition plainEvent (e : StreamEvent) : Prop :=
  MessageStart e = None ∧ RejectFreeformStreamEvent e = Ok tt ∧ Error e = None.

Lemma plain_event e : plainEvent e → serializeEvent always e = (ensureStarted always ⨟ serializeContent always e).
Proof. intros (Hm & Hf & He). unfold serializeEvent. by rewrite Hm, Hf, He. Qed.

Lemma canonical_plain next o tools es : canonicalTurn next o tools es → Forall plainEvent es.
Proof. by induction 1; constructor. Qed.

Definition serializeAll (es : list StreamEvent) : ser := foldr (λ e rest, serializeEvent always e ⨟ rest) ser_ok es.

Lemma reads_content next o tools e es next' o' tools' :
  plainEvent e → reads (mid next o tools) (serializeContent always e) [e] (mid next' o' tools') →
  reads (mid next' o' tools') (serializeAll es) es (λ v p, ∃ n, mid n None ∅ v p) →
  reads (mid next o tools) (serializeAll (e :: es)) (e :: es) (λ v p, ∃ n, mid n None ∅ v p).
Proof.
  intros Hp He Hes. cbn [serializeAll foldr]. rewrite (plain_event _ Hp). change (e :: es) with ([e] ++ es).
  eapply reads_seq; [|exact Hes]. change [e] with ([] ++ [e]). eapply reads_seq; [apply reads_started|exact He].
Qed.

Lemma reads_turn next o tools es : canonicalTurn next o tools es →
  reads (mid next o tools) (serializeAll es) es (λ v p, ∃ n, mid n None ∅ v p).
Proof.
  induction 1 as [next|next tools es _ IH|next tools es _ IH|next tools s es _ IH|next tools s es _ IH|next tools s es _ IH
    |next th tools es _ IH|next tools id name es _ IH|next o tools i args es Hi _ IH|next o tools i es Hi _ IH];
    try (eapply reads_content; [done| |exact IH]).
  - intros v p Hm. exists [], v, p. eauto.
  - change (serializeContent always _) with (closeThinking always ⨟ openText always). eapply (reads_seq _ _ _ _ _ []); [apply reads_noThinking|].
    intros v p Hm. unfold openText. rewrite (md_text _ _ _ _ _ Hm), (md_thinking _ _ _ _ _ Hm). by apply (reads_open next tools false FTextStart).
  - change (serializeContent always _) with (closeText always ⨟ openThinking always). eapply (reads_seq _ _ _ _ _ []); [apply reads_noText|].
    intros v p Hm. unfold openThinking. rewrite (md_text _ _ _ _ _ Hm), (md_thinking _ _ _ _ _ Hm). by apply (reads_open next tools true FThinkingStart).
  - cbn [serializeContent]. eapply (reads_seq _ (mid next (Some false) tools) _ _ _ []).
    + apply reads_skip. intros v p Hm. unfold closeThinking. by rewrite (md_thinking _ _ _ _ _ Hm).
    + eapply (reads_seq _ (mid next (Some false) tools) _ _ _ []); [|by apply (reads_delta _ _ _ (λ i, FTextDelta i s))].
      apply reads_skip. intros v p Hm. unfold openText. by rewrite (md_text _ _ _ _ _ Hm).
  - eapply (reads_seq _ (mid next (Some true) tools) _ _ _ []); [|by apply (reads_delta _ _ _ (λ i, FThinkingDelta i s))].
    apply reads_skip. intros v p Hm. unfold openThinking. by rewrite (md_thinking _ _ _ _ _ Hm).
  - intros v p Hm. cbn. rewrite (md_thinking _ _ _ _ _ Hm). revert v p Hm. by apply (reads_delta _ _ _ (λ i, FSignatureDelta i s)).
  - apply reads_stop.
  - eapply (reads_seq _ _ _ _ _ []); [apply reads_noThinking|]. eapply (reads_seq _ _ _ _ _ []); [apply reads_noText|]. apply reads_tool.
  - by apply reads_toolDelta.
  - by apply reads_toolEnd.
Qed.

(** The end of the turn: the usage waits for the finish event, and rides on its frame. *)
Record tailed (u : option StreamUsage) (v : serVars) (p : anthropicVars) : Prop := {
  tl_started : sv_started v = true;
  tl_finish : sv_finishWritten v = false;
  tl_usage : sv_pendingUsage v = u;
  tl_thinking : sv_inThinking v = false;
  tl_text : sv_inText v = false;
  tl_tokens : av_inputTokens p = 0 ∧ av_cacheRead p = 0 ∧ av_cacheWrite p = 0 }.
Definition ended (v : serVars) (p : anthropicVars) : Prop :=
  sv_started v = true ∧ sv_pendingUsage v = None ∧ sv_inThinking v = false ∧ sv_inText v = false.

Definition usageEvents (usage : option StreamUsage) : list StreamEvent := match usage with Some u => [ev_usage u] | None => [] end.
Definition turnTail (usage : option StreamUsage) (f : string) : list StreamEvent := usageEvents usage ++ [ev_finish f].
(** Cache counts are not negative, and the reason is not one of Anthropic's own that
    have a canonical name. *)
Definition countsOk (u : StreamUsage) : Prop := 0 ≤ su_cache_read u ∧ 0 ≤ su_cache_write u.
Definition canonicalFinish (f : string) : Prop := f ∉ [""; "end_turn"; "tool_use"; "max_tokens"].

Lemma reason_round_trip f : canonicalFinish f → canonicalReason (wireReason f) = f.
Proof.
  unfold canonicalFinish, canonicalReason, wireReason. intros Hf.
  destruct (String.eqb_spec f "stop") as [->|]; [done|]. destruct (String.eqb_spec f "tool_calls") as [->|]; [done|].
  destruct (String.eqb_spec f "length") as [->|]; [done|].
  destruct (String.eqb_spec f "end_turn") as [->|]; [set_solver|]. destruct (String.eqb_spec f "tool_use") as [->|]; [set_solver|].
  destruct (String.eqb_spec f "max_tokens") as [->|]; [set_solver|]. done.
Qed.

Lemma orElse_0 a : orElse a 0 = a.
Proof. unfold orElse. destruct (Z.eqb_spec a 0); congruence. Qed.

Lemma reads_usage u : reads (tailed None) (serializeEvent always (ev_usage u)) [] (tailed (Some u)).
Proof.
  intros v p [H1 H2 H3 H4 H5 H6]. exists [], (setUsage (Some u) false v), p. split; [|split; [done|by split]].
  rewrite plain_event by done. unfold ser_seq, ensureStarted. rewrite H1. cbn. by rewrite H2.
Qed.

Lemma reads_finish usage f : canonicalFinish f → (∀ u, usage = Some u → countsOk u) →
  reads (tailed usage) (serializeEvent always (ev_finish f)) (turnTail usage f) ended.
Proof.
  intros Hf Hu v p [H1 H2 H3 H4 H5 (H6 & H7 & H8)].
  exists [FMessageDelta (Some (wireReason f)) usage], (countWrite (setUsage None true v)).
  destruct (parseFrame explicit p (decoded (FMessageDelta (Some (wireReason f)) usage))) as [es o] eqn:E.
  assert (es = turnTail usage f ∧ is_Some o) as [-> [p' ->]].
  { revert E. cbn. unfold onMessageDelta. destruct usage as [u|]; cbn; intros [= <- <-]; rewrite (reason_round_trip f Hf); [|eauto].
    rewrite H6, H7, H8, !orElse_0. destruct (Hu u eq_refl) as [Hr Hw]. rewrite !Z.max_r by done. destruct u. eauto. }
  exists p'. split; [|split; [cbn [fmap list_fmap parseAll]; rewrite E; by rewrite app_nil_r|done]].
  rewrite plain_event by done. unfold ser_seq, ensureStarted. rewrite H1. cbn.
  assert (String.eqb f "" = false) as ->. { apply String.eqb_neq. intros ->. apply Hf. set_solver. }
  cbn. unfold ser_seq, closeThinking, closeText. by rewrite H4, H5, H3.
Qed.

Lemma reads_end : reads ended (serializeEnd always false) [] ended.
Proof.
  intros v p (H1 & H2 & H3 & H4). exists [FMessageStop], (countWrite v), p. split; [|split; [done|done]].
  unfold serializeEnd, ser_seq, ensureStarted, closeThinking, closeText. by rewrite H1, H3, H4, H2.
Qed.

Lemma ser_seq_assoc a b c v : ser_seq (ser_seq a b) c v = ser_seq a (ser_seq b c) v.
Proof.
  unfold ser_seq. destruct (a v) as [fs [v1|]]; [|done]. destruct (b v1) as [gs [v2|]]; [|done]. destruct (c v2). by rewrite app_assoc.
Qed.

Lemma ser_seq_ext a b c v : (∀ w, b w = c w) → ser_seq a b v = ser_seq a c v.
Proof. intros H. unfold ser_seq. destruct (a v) as [fs [v1|]]; [|done]. by rewrite H. Qed.

Lemma loop_app es : ∀ n rest v,
  serializeLoop always always false n (es ++ rest) v = (serializeAll es ⨟ serializeLoop always always false (n + length es) rest) v.
Proof.
  induction es as [|e es IH]; intros n rest v.
  - rewrite Nat.add_0_r. unfold ser_seq. cbn. by destruct (serializeLoop always always false n rest v).
  - cbn [app serializeLoop serializeAll foldr length always negb]. rewrite ser_seq_assoc. apply ser_seq_ext.
    intros w. by rewrite IH, <- plus_n_Sm.
Qed.

(** Starting is part of whatever comes first. *)
Lemma loop_started n es v : Forall plainEvent es →
  serializeLoop always always false n es v = (ensureStarted always ⨟ serializeLoop always always false n es) v.
Proof.
  assert (∀ k w, (ensureStarted always ⨟ k) w = (ensureStarted always ⨟ (ensureStarted always ⨟ k)) w) as Hidem.
  { intros k w. unfold ser_seq, ensureStarted. destruct (sv_started w) eqn:E; cbn.
    - rewrite E. by destruct (k w).
    - by destruct (k _). }
  intros Hp. destruct Hp as [|e es He _]; cbn [serializeLoop always negb]; [apply Hidem|].
  rewrite (plain_event _ He), ser_seq_assoc, Hidem. apply ser_seq_ext. intros w. by rewrite ser_seq_assoc.
Qed.

Definition announced (m : StreamMessageStart) (v : serVars) (p : anthropicVars) : Prop :=
  v = setMessage false (sms_id m) (sms_role m) (sms_model m) serVars0 ∧ p = anthropicVars0.
Lemma reads_announced m : reads (announced m) (ensureStarted always) [ev_message_start m] (mid 0 None ∅).
Proof.
  intros v p [-> ->]. eexists [_; _], _, _. split; [done|]. split; [by destruct m|]. split; try done; cbn.
  intros i. rewrite decide_False by set_solver. by case_decide.
Qed.

Lemma reads_tail n usage f : canonicalFinish f → (∀ u, usage = Some u → countsOk u) →
  reads (λ v p, ∃ k, mid k None ∅ v p) (serializeLoop always always false n (turnTail usage f)) (turnTail usage f) ended.
Proof.
  intros Hf Hu v p [k Hm].
  assert (Ht : tailed None v p) by (destruct Hm; by split). clear Hm k. revert v p Ht.
  assert (∀ n, reads (tailed usage) (serializeLoop always always false n [ev_finish f]) (turnTail usage f) ended) as Hlast.
  { intros j. rewrite <- (app_nil_r (turnTail usage f)). eapply reads_seq; [by apply reads_finish|apply reads_end]. }
  destruct usage as [u|]; [|apply (Hlast n)].
  eapply (reads_seq _ _ _ _ _ []); [apply reads_usage|apply (Hlast (S n))].
Qed.

(** C38. Serializing a canonical turn and parsing the bytes gives the turn back, event by
    event: the message start, every block with its index, text, thinking, signatures and
    tool calls, the usage and the finish reason.  The serializer succeeds; the bytes are
    those of [payload], read by [encoding/json]'s grammar into the structs of stream.go.
    Conditions: the strings of the frames are valid UTF-8, their numbers are ints, and
    each line fits the scanner's buffer. *)
Theorem anthropic_round_trip errText m es usage f :
  sms_id m ≠ "" → sms_role m ≠ "" → canonicalTurn 0 None ∅ es → (∀ u, usage = Some u → countsOk u) → canonicalFinish f →
  let turn := ev_message_start m :: es ++ turnTail usage f in
  ∃ frames, SerializeStream always always false turn = (frames, Ok tt)
    ∧ (Forall carried frames → ParseStream explicit errText (wireText frames) None = turn).
Proof.
  intros Hid Hrole Hes Hu Hf turn.
  assert (reads (announced m) (serializeLoop always always false 1 (es ++ turnTail usage f)) ([ev_message_start m] ++ es ++ turnTail usage f) ended)
    as Hreads.
  { intros v p Hv. rewrite loop_started.
    - revert v p Hv. eapply reads_seq; [apply reads_announced|]. intros v p Hm. rewrite loop_app. revert v p Hm.
      eapply reads_seq; [by apply reads_turn|]. apply reads_tail; assumption.
    - apply Forall_app. split; [by eapply canonical_plain|]. unfold turnTail. destruct usage; by repeat constructor. }
  destruct (Hreads _ _ (conj eq_refl eq_refl)) as (fs & v' & p' & Hs & Hp & _). exists fs. split.
  - unfold SerializeStream, turn. cbn [serializeLoop always negb]. unfold ser_seq. cbn [serializeEvent MessageStart ev_message_start].
    unfold serializeStart. cbn [sv_started serVars0]. apply String.eqb_neq in Hid, Hrole. rewrite Hid, Hrole. by rewrite Hs.
  - intros Hc. by rewrite (ParseStream_frames _ _ _ Hc), Hp.
Qed.

(** ** A turn with thinking, text and a tool call *)

Definition demoStart : StreamMessageStart := mkStreamMessageStart "assistant" "msg_1" "m".
Definition demoContent : list StreamEvent :=
  [ev_block_start (mkBlockStart 0 BlockKindThinking ""); ev_thinking ("say " +:+ String "034" "hm" +:+ String "034" (String "010" "<done>")); ev_signature "sig"; ev_block_stop 0;
   ev_block_start (mkBlockStart 1 BlockKindText ""); ev_text "Let me look."; ev_block_stop 1;
   ev_tool_start (mkToolCallStart 2 "toolu_1" "search" "" 0); ev_tool_delta (mkToolCallDelta 2 "{}" None); ev_tool_end 2].
Definition demoUsage : StreamUsage := mkStreamUsage 3 5 7 0.
Definition demoTurn : list StreamEvent := ev_message_start demoStart :: demoContent ++ turnTail (Some demoUsage) "tool_calls".
Definition demoFrames : list frame := (SerializeStream always always false demoTurn).1.
Definition noErrors (payload : string) : string := "".

Lemma anthropic_round_trip_witness : ParseStream explicit noErrors (wireText demoFrames) None = demoTurn.
Proof.
  destruct (anthropic_round_trip noErrors demoStart demoContent (Some demoUsage) "tool_calls") as (frames & Hs & Hp).
  - discriminate.
  - discriminate.
  - unfold demoContent. repeat (constructor; try set_solver).
  - intros u [= <-]. split; vm_compute; discriminate.
  - vm_compute. intros H. repeat (apply elem_of_cons in H as [H|H]; [discriminate|]). by apply elem_of_nil in H.
  - assert (frames = demoFrames) as -> by (unfold demoFrames, demoTurn; by rewrite Hs). apply Hp. clear.
    let l := eval vm_compute in demoFrames in change (Forall carried l).
    repeat (apply Forall_cons_2; [split; [repeat constructor|repeat constructor; by vm_compute|vm_compute; reflexivity]|]). constructor.
Defined.
